(* ===== verification/_CoqProject ===== *)
-Q . S2P
Prelude.v
GoStrings.v
Frame.v
Transport.v
UdpLeg.v
UdpLegTransport.v
GoFloat.v
LaneFlow.v
Stripe.v
PeerQueues.v
LinkStats.v
PeerSessions.v
MeshInbound.v
StallMonitor.v
IPPacket.v
AddrCodec.v
Handshake.v
FifoSet.v
TrojanUdp.v
Dhcp.v
HTunnel.v
HTunnelMesh.v
ReverseRegistry.v
ControlServer.v
RouteTrie.v
FakeIP.v
ConnLog.v
MeshDns.v
FloatOrder.v
MeshPaths.v
MeshTopology.v
MeshIdentity.v
MeshRoutes.v
MeshTable.v
MeshGossip.v
Groups.v
ConfigStore.v
Rules.v
RuleWatch.v
Dialing.v
ConnHandler.v
Packages.v
ReversePool.v
ReverseUDP.v
SourceTables.v
TunManager.v
Watchdog.v
