(* ===== verification/Prelude.v ===== *)
(** * Phaethon: a verification development

    Phaethon is a proxy and mesh-network node.  Nodes keep TCP links to each other
    and exchange frames over them; a link may be striped over several TCP lanes and
    may move its mesh packets to a UDP leg while the peer answers on it.  On top of
    the links runs a mesh that forwards IPv4 packets, wraps them in IPIP towards the
    egress node and hands out fake addresses for domains.  Beside the mesh, rules
    send connections to proxies or to groups of proxies; clients and proxies speak
    SOCKS5, Trojan or a tunnel inside HTTP requests, and nodes behind a firewall
    offer their own connections to a registry.

    ** The parts and the files that model them

    - [Prelude] (this file): Go integers at their width, slices and byte access,
      big-endian codecs, times, results; the hint databases [go] and [go_rw].
    - [GoStrings]: what the sources use of the packages strings, strconv and fmt.
    - [Frame]: src/frame/frame.go (ReadFrame, WriteFrame, ReverseFramedConn and its
      buffer), the write side of src/frame/transport.go (Send, SendBatch on the
      writev and on the single-buffer path), packet_leg.go, stripe_attach.go and
      flowkey.go.  A reader is the bytes still to arrive; a writer is any state with
      a Write that may fall short or fail.
    - [Transport]: the interface FrameTransport of src/frame/transport.go as a class
      of operations, with the class [CarriesFrames] of what its users rely on, and
      the stream transport as the instance that discharges it.
    - [UdpLeg]: src/p2p/udp_leg.go, the state machine of one UDP leg: every event
      handler, query and transition.  [legApply] is one event, [fsmReach] the
      states a session can reach.
    - [UdpLegTransport]: src/p2p/udp_leg_registry.go (ports and endpoints) and
      src/p2p/udp_leg_transport.go (the leg over any [FrameTransport]).  Endpoints
      are shared, so they live in a heap; a handler with the actions it executes is
      one step, the dial goroutine is two.
    - [GoFloat]: float64 as IEEE binary64 on the Standard Library's SpecFloat.
    - [LaneFlow]: src/p2p/lane_flow.go, the accounting and the cap of one lane, with
      the ring buffer of send samples as the source has it, and the ack codec.  The
      loads and the addition outside the lane's lock are steps of their own.
    - [Stripe]: src/p2p/stripe_transport.go with the stripe side of lane_flow.go and
      the packet classification of p2p.go: queues and pumps, flow pinning, the lane
      controller, write credit, acks, failure and replacement of lanes.
    - [PeerQueues]: the sending side of a peer in src/p2p/p2p.go: the control, DNS and
      256 data queues with their byte budget, the deficit round-robin scheduler, the
      collection of batches and the write loop with its gate.  One step is one
      admission, one round, one forwarded frame or one turn of the write loop.
    - [LinkStats]: the ping tracker, RTT estimation and loss rate of src/p2p/p2p.go.
    - [IPPacket]: src/mesh/forward.go and src/mesh/ipip.go: addresses, TTL, ICMP,
      IPIP encapsulation and its checksum.
    - [AddrCodec]: the encodings of a target address (src/util/udpaddr.go, trojan.go,
      reverse_udp_frame.go, the SOCKS5 UDP headers).
    - [Handshake]: the SOCKS5 and Trojan handshakes, the client of src/dialer and the
      server of src/server composed over one connection as two interleaved processes.
    - [FifoSet]: the bounded set of seen keys of src/util/util.go.
    - [TrojanUdp]: UDP through a Trojan connection, both ends.
    - [HTunnel]: the tunnel in HTTP requests (src/server/htunnel.go,
      src/dialer/htunnel.go, src/util/htunnel_crypto.go): the channel shared by the
      goroutines of its requests, as an interleaving of their critical sections.
    - [HTunnelMesh]: frames over that tunnel (src/server/htunnel_mesh.go,
      src/dialer/htunnel_direct.go): CoDel, the dispatcher, batches.
    - [ReverseRegistry]: src/reverse/registry.go, pools, waiting callers and the
      goroutines of a connection, with the reverse handshake of both ends.
    - [ControlServer]: src/server/control_server.go and binding.go: control sessions,
      listeners, ports and bindings.
    - [RouteTrie]: src/mesh/route_trie.go.
    - [FakeIP]: src/mesh/fakeip.go.
    - [MeshDns]: src/mesh/dns.go: messages, the cache of answers, waiting queries.
    - [FloatOrder]: rounding of float64 sums of non-negative numbers is monotone and
      never below a summand, which the search for shortest paths relies on.
    - [MeshPaths]: dijkstra, pathCost, linkCost and applyHysteresis of
      src/mesh/mesh.go, over the classes [CostOps] and [CostLaws] of cost arithmetic;
      float64 is the instance of the code.
    - [MeshTopology]: src/mesh/topology.go and src/mesh/quality.go, and from mesh.go
      the validation of gossiped claims and the graph built from them.
    - [MeshIdentity]: subnet conflicts and re-selection (mesh.go, state.go).
    - [MeshRoutes]: src/mesh/node_trie.go and the sticky egress choice of mesh.go.
    - [MeshTable]: recomputeRoutes of mesh.go, which composes the parts above, the
      next hops found in the table, and the route decision given to the network stack
      (netstack.go, route_selector.go).
    - [MeshGossip]: what a node tells its peers (broadcastGossip, BuildGossipInfo), and
      a network of such nodes as a step relation.
    - [Groups]: the proxy groups of src/config/config.go: members, the selection
      strategies, nested groups and health samples.
    - [ConfigStore]: the rules bucket of src/db/configstore.go, its transactions in a
      small state and error monad.
    - [Rules]: time ranges, rule targets, matchers, resolvers and the rate limiter of
      src/config/config.go; rule compilation, matching, the check for cyclic groups and
      the chains of via proxies of src/db/matcher.go.
    - [RuleWatch]: how src/db/matcher.go builds the matcher from the database and keeps
      it in step with writes (GetMatcher, BuildRuleMatcher, init, onConfigChange), with
      proxies on a heap; a write commits and notifies in two steps (src/db/db.go,
      notify.go).
    - [Dhcp]: the DHCP server of the TUN device (src/tun/dhcp.go, dhcp_linux.go): messages
      and options, pool, leases and bindings, every handler, the frames of replies.
    - [PeerSessions]: the life of the sessions of src/p2p/p2p.go: start, registration,
      replacement, stop and reconnection, as an interleaving of goroutines.
    - [MeshInbound]: the workers of inbound mesh packets (p2p.go), one queue per flow hash.
    - [StallMonitor]: src/mesh/stall_monitor.go, samples, movement and the three rules.
    - [ConnLog]: src/connlog: the log, the active connections with their journal, and the
      page that follows the journal by requests.
    - [Dialing]: src/dialer: the choice of a dialer, chains of proxies along Next, the
      cache of SSH clients with its lock, dialing by route, the range of UDP ports.
    - [ConnHandler]: src/handler/connection_handler.go and the relay of src/util/util.go:
      a TCP or UDP connection from rule to record, and the two copying directions.
    - [Packages]: the order of versions of p2p.go, the names of src/p2p/cache.go and the
      package store of src/admin/package.go with retention and the merge with a peer.
    - [ReversePool]: the pool of outbound reverse connections of src/server/reverse.go and
      the dispatch of a matched connection on its first frame.
    - [ReverseUDP]: UDP through a reverse connection, both ends (src/server/reverse.go,
      src/dialer/reverse.go, src/util/reverse_crypto.go), over a hostile network.
    - [SourceTables]: src/mesh/modeb.go and src/mesh/tunsrc.go, the dials that fill them
      (netstack.go, bind.go, base.go) and the attribution of accepted flows.
    - [TunManager]: src/tun/manager.go: starting and stopping the device as interleaved
      steps, and what the read loop does with a packet.
    - [Watchdog]: the process of src/main.go that chooses a binary, runs the server as a
      child and replaces it, with signals, files and clocks at any moment.

    ** What the theorems show

    - Codecs ([Frame], [LaneFlow], [IPPacket]): the parsers accept exactly what the
      encoders produce and give it back; batches are read back frame by frame; a
      batch is acknowledged only when it was written whole; the reverse connection
      delivers exactly the application bytes written at the other end, whatever
      heartbeats are interleaved; IPIP packets decapsulate to their payload, verify
      and keep the flow key.
    - Leg ([UdpLeg], [UdpLegTransport]): the invariant of every reachable state,
      safety of routing over UDP, bounded silence, recovery, the exact actions of
      every event; ports, endpoints and channels agree with the machine in every
      reachable transport; Send and SendBatch deliver each frame on exactly one
      path, proved against the classes of [Transport].
    - Lanes ([LaneFlow], [Stripe]): the accounting invariant, with what a reader that
      loaded the counter early reports; an ack refines its mathematical specification, lost baselines are rebuilt; batches are conserved
      by the queues, a flow stays on its lane, removing a lane remaps only its own
      flows, the controller keeps its limits, the credit computed in passing is the
      credit of the definition.
    - Peers ([PeerQueues], [LinkStats]): queued bytes and budget always add up, the
      queues stay bounded, each service class is a FIFO down to the transport, no flow
      is starved, the gate is respected; the ping window is the list of the last
      verdicts, estimates stay in the range of the samples.
    - Mesh tables ([RouteTrie], [FakeIP], [MeshRoutes]): the tries compute
      longest-prefix and longest-suffix match; domains and fake addresses stay in
      bijection; allocation terminates exactly when an address is available; the
      egress choice is sticky.
    - Mesh routing ([MeshPaths], [MeshTopology], [MeshTable], [MeshIdentity]): the
      search terminates and is optimal in float64 arithmetic for every map order;
      hysteresis is idempotent and exact; every link of the graph is own, claimed by
      both ends, or from a claim that a peer sent at distance zero; the table has exactly
      the right owners; next hops are those of the installed paths, which the hysteresis
      keeps within 15% of the best; route decisions are safe; of two nodes on one subnet
      one yields.
    - Gossip ([MeshGossip]): split horizon of the broadcasts (the table that opens a
      session has none), and hop counts that are lengths of real chains of links in every
      reachable network, however messages are delayed, reordered, repeated or lost.
    - Groups: resolution terminates on every configuration, cyclic ones included,
      and is sound and, with no member known dead, complete; what each strategy
      picks; health samples are the reference hysteresis.
    - Rules ([ConfigStore], [Rules], [RuleWatch]): the rules bucket refines a list of
      rules with IDs; targets round-trip; the first rule that applies is the one found;
      cyclic groups are reported exactly; the rate limiter paces; the matcher agrees with
      the database but for events to come, outside two races that the code leaves open,
      and its proxy chains have no stale pointers.
    - Protocols ([AddrCodec], [Handshake], [TrojanUdp], [FifoSet]): what each parser of
      addresses accepts, rejects and panics on; a client and a server of the code agree,
      in every interleaving, on acceptance, target and the bytes that follow; UDP
      packets through a Trojan connection arrive whole and in order.
    - Tunnel ([HTunnel], [HTunnelMesh]): what the target receives and the client reads are
      prefixes of what was sent, however requests are lost, delayed or repeated; frames
      of the mesh are delivered in order or dropped by CoDel, never invented; bodies of
      batches are read back.
    - Reverse connections ([ReverseRegistry], [ControlServer]): a connection is given to
      at most one caller; the outcome of the handshake for each order of the frames;
      sessions, listeners and ports stay consistent.
    - DNS ([MeshDns]): messages round-trip; a query is forwarded once while it is
      pending, and each waiting client is kept until it is answered.
    - Addresses ([Dhcp]): in every reachable server, whatever clients send, an address is
      leased to one client; allocation finds an address exactly when there is one.
    - Sessions ([PeerSessions], [MeshInbound]): at most one session per proxy; a session
      that ended leaves nothing behind in any table; inbound packets of a flow are
      delivered in order.
    - Watching ([StallMonitor], [ConnLog]): the monitor reports what a definition over the
      whole history of samples says; a request between writes leaves the page with the
      table of the server, unless its entries left the journal meanwhile.
    - Connections ([Dialing], [ConnHandler]): a chain without SSH proxies is dialed hop by
      hop from its far end, which is the first proxy that does not dial through its Next,
      and fails with the first hop that fails; a connection goes where its rule says,
      is closed and recorded once; relays hand on a prefix of what they read, and all of
      it when no write fails.
    - Reverse channels ([ReversePool], [ReverseUDP]): the pool keeps its limit, loses no
      wake-up and fills up while dials succeed; the ends of a UDP channel agree on key and
      addresses, leave no socket open when they fail, and exchange only what was given to
      them, unless the network reflects packets; the dialer dies only in its unlocked set
      of seen targets.
    - Stack and device ([SourceTables], [TunManager]): a flow is attributed to the client
      that caused it while its connection is in use; between calls that do not overlap the
      device is up with what belongs to it or gone, with DNS, routes and kernel settings
      left only where the system did not give them up, as long as the read loop has not
      panicked; every packet read is dropped, answered or passed on with one hop less.
    - Watchdog: at most one worker lives as long as workers keep their output open; the
      watchdog ends when it was asked to, or on a marker left from before; a dead worker
      is replaced within 70 seconds; the newest package is run only if it is newer than
      the program.
    - Packages: only a version above the published ones is published; retention and the
      merge keep the newest versions; names of cached files read back.
    - Behaviour the code does not intend is proved too: a dial that ends after
      Close leaks its channel, a stall guard defeated by a late report, a failing
      lane that drops its queue, an evicted fake address that keeps the previous
      domain's real address, an endless allocation loop on a tiny subnet, a TTL
      guard that admits packets it then indexes out of range, a listing of groups
      that recurses for ever on a cycle, health samples on a map never made, an empty
      frame written when a closed gate is woken, a search that panics on a link as
      costly as its infinity and stops at a node without a name, an order of node IDs
      that is not transitive, an egress hash whose absolute value is negative, a
      locally advertised prefix whose traffic goes to a peer, a prefix trie that
      panics on IPv4-mapped prefixes, a cycle of via proxies that is logged and left in
      place, a bandwidth limit lost when its proxy is saved, run-time rules lost when a
      stored rule is edited, a reordering that hides a rule, a repeated tunnel request
      that blocks its channel for ever, a connection stranded when Match times out, a
      remembered port that is never reused, a set that outgrows its capacity, a DNS
      client that is answered and then told of a failure, a DHCP request confirmed for an
      address never offered, a stop that is lost while a session waits to reconnect, a slow
      target the stall monitor never reports, a page that stays behind its journal, an
      SSH proxy behind an SSH proxy that deadlocks on the lock of the cache, a guard on
      the depth of chains that never counts, an HTTP proxy that ignores its chain, UDP to a
      name that is lost behind a proxy, versions counted twice in a merge, a commit
      hash of digits taken for the newest release, cached files that share a name, replies
      diverted by a replayed packet, a key shared by both directions, a read that returns
      nothing without an error, Mode B entries of domains that are never removed, ports
      read from IP options, toggles of the TUN device that overlap and panic or lose the
      device, DNS reverted on another interface than it was set on, a method that only
      calls itself, an in-flight count below zero, a deletion that overtakes a put on its
      way to the matcher, a write missed between build and subscription, a deleted pool
      that stays, an old marker that stops the watchdog, an IPv4-mapped address that is
      not attributed, a set of seen targets used by two goroutines without a lock.

    ** Conventions and bounds

    - Integers are Z with their wrap-around written out ([wrap], [swrap]); byte and
      sample counters are assumed below 2^63 where a theorem says so.
    - Fuel: [connRead] runs at most once per byte still to arrive; [allocLoop] of
      [FakeIP] needs the size of the range; [NextWithVisited] of [Groups] as many
      nested calls as there are groups; [search] of [MeshPaths] one round per node and
      one more; [ParseProxyName] of [Rules] two turns, [checkGroupCycle] one per group,
      [setNext] one per proxy; the checksum folds need three rounds; the labels of a DNS name
      and the frames of a tunnel body, like the options of a DHCP message, are read with the
      length of the input; the DHCP pool is searched once around; a chain is dialed with
      as many nested calls as it has proxies.  The
      theorems prove that this much is enough, or that no amount is.
    - A handler that holds its mutex is one step; where Go's select may choose, the
      choice is an argument restricted to what is ready.
    - Time, random choices, the network's answers and code outside the repository
      (regular expressions, dialers, JSON) are arguments.

    ** Not modelled

    Socket and file I/O: the accept loops of the servers, the TUN device, the system's
    routes, TLS; the pages and forms of the administration server and the start-up code
    of src/main.go, which wire the components together; the gVisor network stack and the
    embedded database themselves.  Of the mesh manager the views for the
    administration pages, statistics polling and the random ranking of peers are left
    out; of p2p.go the transfer of binaries between peers; of the servers the HTTP and
    transparent proxies and the SSH server; of src/config the parsers of subscription
    formats, which are string processing around YAML and JSON libraries; of the Go
    runtime, memory reuse through buffer pools and deadlines of sockets. *)

From Stdlib Require Import ZArith Lia.
From stdpp Require Import base list numbers.

(** ** Scope, notations *)

Declare Scope go_scope.
Delimit Scope go_scope with go.
Open Scope Z_scope.

#[global] Arguments Z.shiftr : simpl never.
#[global] Arguments Z.shiftl : simpl never.
#[global] Arguments Z.pow : simpl never.
#[global] Arguments Z.modulo : simpl never.
#[global] Arguments Z.div : simpl never.
#[global] Arguments Z.mul : simpl never.
#[global] Arguments Z.lor : simpl never.
#[global] Arguments Z.land : simpl never.
#[global] Arguments Z.lxor : simpl never.

(** Go values are kept at their width: an unsigned [w]-bit integer is a [Z] in
    [0, 2^w), a signed one a [Z] in [-2^(w-1), 2^(w-1)).  [wrap] and [swrap] are
    the conversions the language performs after every arithmetic operation. *)
Definition wrap (w z : Z) : Z := z mod 2 ^ w.
Definition swrap (w z : Z) : Z := (z + 2 ^ (w - 1)) mod 2 ^ w - 2 ^ (w - 1).

Definition is_uint (w z : Z) : Prop := 0 <= z < 2 ^ w.
Definition is_byte (b : Z) : Prop := 0 <= b < 256.

Notation "a +u32 b" := (wrap 32 (a + b)) (at level 50, left associativity) : go_scope.
Notation "a -u64 b" := (wrap 64 (a - b)) (at level 50, left associativity) : go_scope.
Notation "a +u64 b" := (wrap 64 (a + b)) (at level 50, left associativity) : go_scope.
Notation "a <<u32 n" := (wrap 32 (Z.shiftl a n)) (at level 45, left associativity) : go_scope.
Notation "a >> n" := (Z.shiftr a n) (at level 45, left associativity) : go_scope.
Notation "a '^u' b" := (Z.lxor a b) (at level 48, left associativity) : go_scope.
Abbreviation byte_of z := (wrap 8 z).

(** [len] is Go's [len] (an [int]); slices and indexing outside a guard are
    written with [option] by the components that can panic. *)
Definition len {A} (l : list A) : Z := Z.of_nat (length l).
Definition sub {A} (l : list A) (lo hi : Z) : list A :=
  take (Z.to_nat (hi - lo)) (drop (Z.to_nat lo) l).
Definition from {A} (l : list A) (lo : Z) : list A := drop (Z.to_nat lo) l.
(** Reading a byte below the length; callers guard the index. *)
Definition byte_at (l : list Z) (i : Z) : Z := default 0 (l !! Z.to_nat i).

(** ** Results: a Go function that returns [(T, error)] *)

Inductive result (E A : Type) : Type :=
| Ok (a : A)
| Err (e : E).
Arguments Ok {_ _}.
Arguments Err {_ _}.

Definition is_ok {E A} (r : result E A) : bool :=
  match r with Ok _ => true | Err _ => false end.

(** ** Time

    A [time.Time] is a count of nanoseconds with [0] the zero [Time]; a
    [time.Duration] is a signed count of nanoseconds. *)
Definition Time := Z.
Definition Duration := Z.
Definition zero_time : Time := 0.
Definition IsZero (t : Time) : bool := t =? 0.
Definition Millisecond : Duration := 1000000.
Definition Second : Duration := 1000000000.
Definition Minute : Duration := 60 * Second.

(** ** Big-endian integers: encoding/binary's BigEndian *)

Definition PutUint16 (v : Z) : list Z := [byte_of (Z.shiftr v 8); byte_of v].
Definition PutUint32 (v : Z) : list Z :=
  [byte_of (Z.shiftr v 24); byte_of (Z.shiftr v 16); byte_of (Z.shiftr v 8); byte_of v].
Definition PutUint64 (v : Z) : list Z :=
  PutUint32 (Z.shiftr v 32) ++ PutUint32 v.

Definition Uint16 (l : list Z) : Z :=
  Z.lor (Z.shiftl (byte_at l 0) 8) (byte_at l 1).
Definition Uint32 (l : list Z) : Z :=
  Z.lor (Z.lor (Z.lor (Z.shiftl (byte_at l 0) 24) (Z.shiftl (byte_at l 1) 16))
               (Z.shiftl (byte_at l 2) 8)) (byte_at l 3).
Definition Uint64 (l : list Z) : Z :=
  Z.lor (Z.shiftl (Uint32 l) 32) (Uint32 (drop 4 l)).

(** ** Arithmetic of the fixed widths *)

Create HintDb go.
Create Rewrite HintDb go_rw.

Lemma pow2_pos w : 0 <= w -> 0 < 2 ^ w.
Proof. intros; apply Z.pow_pos_nonneg; lia. Qed.

Lemma wrap_range w z : 0 <= w -> 0 <= wrap w z < 2 ^ w.
Proof. intros; unfold wrap; apply Z.mod_pos_bound, pow2_pos; lia. Qed.

Lemma wrap_small w z : 0 <= z < 2 ^ w -> wrap w z = z.
Proof. intros; unfold wrap; by apply Z.mod_small. Qed.

Lemma byte_of_range z : is_byte (byte_of z).
Proof. unfold is_byte; change 256 with (2 ^ 8); apply wrap_range; lia. Qed.

Lemma byte_of_small z : is_byte z -> byte_of z = z.
Proof. intros H; apply wrap_small; unfold is_byte in H; change (2 ^ 8) with 256; lia. Qed.

Lemma swrap_range w z : 0 < w -> - 2 ^ (w - 1) <= swrap w z < 2 ^ (w - 1).
Proof.
  intros Hw; unfold swrap.
  assert (2 ^ w = 2 * 2 ^ (w - 1)) as E.
  { rewrite <- Z.pow_succ_r by lia; f_equal; lia. }
  pose proof (Z.mod_pos_bound (z + 2 ^ (w - 1)) (2 ^ w)) as B.
  pose proof (pow2_pos w); lia.
Qed.

Lemma swrap_small w z : 0 < w -> - 2 ^ (w - 1) <= z < 2 ^ (w - 1) -> swrap w z = z.
Proof.
  intros Hw H; unfold swrap.
  assert (2 ^ w = 2 * 2 ^ (w - 1)) as E.
  { rewrite <- Z.pow_succ_r by lia; f_equal; lia. }
  rewrite Z.mod_small; lia.
Qed.

(** A shifted high part and a small low part do not overlap. *)
Lemma lor_shiftl_add a b n :
  0 <= n -> 0 <= b < 2 ^ n -> Z.lor (Z.shiftl a n) b = a * 2 ^ n + b.
Proof.
  intros Hn Hb. rewrite <- Z.shiftl_mul_pow2 by lia.
  assert (Z.land (Z.shiftl a n) b = 0) as E.
  { apply Z.bits_inj'; intros i Hi; rewrite Z.land_spec, Z.bits_0.
    destruct (Z.lt_ge_cases i n) as [Hlt|Hge];
      [by rewrite Z.shiftl_spec_low by lia|].
    rewrite <- (Z.mod_small b (2 ^ n)) by lia.
    rewrite Z.mod_pow2_bits_high by lia. apply andb_false_r. }
  rewrite <- Z.lxor_lor, Z.add_nocarry_lxor by done. done.
Qed.

Lemma shiftr_div v n : 0 <= n -> Z.shiftr v n = v / 2 ^ n.
Proof. apply Z.shiftr_div_pow2. Qed.

(** Discharges [Forall is_byte l] for a list built from bytes. *)
Ltac solve_bytes :=
  repeat first
    [ apply List.Forall_nil
    | apply List.Forall_cons
    | apply Forall_app_2
    | assumption
    | solve [auto with go] ].

(** ** Decoding what was encoded *)

Lemma len_app {A} (l k : list A) : len (l ++ k) = len l + len k.
Proof. unfold len; rewrite length_app; lia. Qed.
Lemma len_nil {A} : len (@nil A) = 0.
Proof. done. Qed.
Lemma len_cons {A} (x : A) l : len (x :: l) = 1 + len l.
Proof. unfold len; cbn [length]; lia. Qed.
Lemma len_nonneg {A} (l : list A) : 0 <= len l.
Proof. unfold len; lia. Qed.
Lemma len_zero {A} (l : list A) : len l = 0 <-> l = [].
Proof. destruct l; unfold len; cbn [length]; split; intros; done || lia. Qed.

#[export] Hint Resolve len_nonneg byte_of_range : go.
#[export] Hint Rewrite @len_app @len_nil @len_cons : go_rw.

Lemma byte_at_cons_0 b l : byte_at (b :: l) 0 = b.
Proof. done. Qed.
Lemma byte_at_cons b l i : 0 < i -> byte_at (b :: l) i = byte_at l (i - 1).
Proof.
  intros Hi; unfold byte_at.
  replace (Z.to_nat i) with (S (Z.to_nat (i - 1))) by lia. done.
Qed.
Lemma byte_at_byte l i : Forall is_byte l -> is_byte (byte_at l i).
Proof.
  intros Hl; unfold byte_at; destruct (l !! Z.to_nat i) eqn:E; simpl.
  - eapply Forall_lookup_1; eauto.
  - unfold is_byte; lia.
Qed.
Lemma byte_at_app_l l k i : 0 <= i < len l -> byte_at (l ++ k) i = byte_at l i.
Proof. intros H; unfold byte_at, len in *. rewrite lookup_app_l by lia. done. Qed.
Lemma byte_at_app_r l k i : len l <= i -> byte_at (l ++ k) i = byte_at k (i - len l).
Proof.
  intros H; unfold byte_at, len in *. rewrite lookup_app_r by lia.
  do 2 f_equal; lia.
Qed.

(** The integer a big-endian byte string denotes, as arithmetic. *)
Lemma Uint16_eq l : Forall is_byte l -> Uint16 l = byte_at l 0 * 2 ^ 8 + byte_at l 1.
Proof. intros H; unfold Uint16. rewrite lor_shiftl_add; auto; [lia|apply byte_at_byte; auto]. Qed.

Lemma Uint32_eq l : Forall is_byte l ->
  Uint32 l = ((byte_at l 0 * 2 ^ 8 + byte_at l 1) * 2 ^ 8 + byte_at l 2) * 2 ^ 8 + byte_at l 3.
Proof.
  intros H; unfold Uint32.
  pose proof (byte_at_byte l 1 H); pose proof (byte_at_byte l 2 H);
    pose proof (byte_at_byte l 3 H); unfold is_byte in *.
  change 24 with (8 + (8 + 8)); change 16 with (8 + 8).
  rewrite <- !Z.shiftl_shiftl by lia.
  rewrite <- !Z.shiftl_lor, !lor_shiftl_add; try lia; cbn; lia.
Qed.

Lemma Uint16_range l : Forall is_byte l -> 0 <= Uint16 l < 2 ^ 16.
Proof.
  intros H; rewrite Uint16_eq by done.
  pose proof (byte_at_byte l 0 H); pose proof (byte_at_byte l 1 H); unfold is_byte in *; lia.
Qed.
Lemma Uint32_range l : Forall is_byte l -> 0 <= Uint32 l < 2 ^ 32.
Proof.
  intros H; rewrite Uint32_eq by done.
  pose proof (byte_at_byte l 0 H); pose proof (byte_at_byte l 1 H);
  pose proof (byte_at_byte l 2 H); pose proof (byte_at_byte l 3 H); unfold is_byte in *; lia.
Qed.
Lemma Uint64_range l : Forall is_byte l -> 0 <= Uint64 l < 2 ^ 64.
Proof.
  intros H; unfold Uint64.
  pose proof (Uint32_range l H); pose proof (Uint32_range (drop 4 l) (Forall_drop _ _ _ H)).
  rewrite lor_shiftl_add by lia. lia.
Qed.

Lemma PutUint16_bytes v : Forall is_byte (PutUint16 v).
Proof. solve_bytes. Qed.
Lemma PutUint32_bytes v : Forall is_byte (PutUint32 v).
Proof. solve_bytes. Qed.
Lemma PutUint64_bytes v : Forall is_byte (PutUint64 v).
Proof. apply Forall_app; split; apply PutUint32_bytes. Qed.

(** [Uint16] only looks at the first two bytes, [Uint32] at four, [Uint64] at eight. *)
Lemma Uint16_app l k : len l = 2 -> Uint16 (l ++ k) = Uint16 l.
Proof. intros H; unfold Uint16; rewrite !byte_at_app_l by lia; done. Qed.
Lemma Uint32_app l k : len l = 4 -> Uint32 (l ++ k) = Uint32 l.
Proof. intros H; unfold Uint32; rewrite !byte_at_app_l by lia; done. Qed.

Lemma Uint16_put v rest : Uint16 (PutUint16 v ++ rest) = wrap 16 v.
Proof.
  rewrite Uint16_app by done. rewrite Uint16_eq by apply PutUint16_bytes.
  unfold byte_at; simpl. unfold wrap. rewrite shiftr_div by lia.
  change (2 ^ 16) with (2 ^ 8 * 2 ^ 8). rewrite Z.rem_mul_r by lia. ring.
Qed.

Lemma Uint32_put v rest : Uint32 (PutUint32 v ++ rest) = wrap 32 v.
Proof.
  rewrite Uint32_app by done. rewrite Uint32_eq by apply PutUint32_bytes.
  unfold byte_at; simpl. unfold wrap. rewrite !shiftr_div by lia.
  change (2 ^ 32) with (2 ^ 8 * (2 ^ 8 * (2 ^ 8 * 2 ^ 8))).
  rewrite !Z.rem_mul_r by lia.
  rewrite !Z.div_div by lia. 
  change (2 ^ 8 * 2 ^ 8) with (2 ^ 16). change (2 ^ 16 * 2 ^ 8) with (2 ^ 24).
  change (2 ^ 8 * 2 ^ 16) with (2 ^ 24). ring.
Qed.

Lemma Uint64_put v rest : Uint64 (PutUint64 v ++ rest) = wrap 64 v.
Proof.
  unfold Uint64, PutUint64. rewrite <- !app_assoc.
  rewrite Uint32_put, drop_app_length' by done. rewrite Uint32_put.
  rewrite lor_shiftl_add by (try lia; apply wrap_range; lia).
  unfold wrap. rewrite shiftr_div by lia.
  change (2 ^ 64) with (2 ^ 32 * 2 ^ 32). rewrite Z.rem_mul_r by lia. ring.
Qed.

(** And back: re-encoding a decoded integer restores the bytes. *)
Lemma PutUint16_get b0 b1 : is_byte b0 -> is_byte b1 -> PutUint16 (Uint16 [b0; b1]) = [b0; b1].
Proof.
  intros H0 H1. rewrite Uint16_eq by solve_bytes.
  unfold byte_at, PutUint16; simpl. rewrite shiftr_div by lia.
  unfold is_byte, wrap in *. f_equal; [|f_equal].
  - rewrite Z.div_add_l by lia. rewrite (Z.div_small b1) by lia. rewrite Z.mod_small; lia.
  - rewrite Z.add_comm, Z.mod_add by lia. rewrite Z.mod_small; lia.
Qed.

Lemma PutUint32_get b0 b1 b2 b3 : is_byte b0 -> is_byte b1 -> is_byte b2 -> is_byte b3 ->
  PutUint32 (Uint32 [b0; b1; b2; b3]) = [b0; b1; b2; b3].
Proof.
  intros H0 H1 H2 H3. rewrite Uint32_eq by solve_bytes.
  unfold byte_at, PutUint32; simpl. rewrite !shiftr_div by lia.
  unfold is_byte, wrap in *. repeat f_equal;
    match goal with |- ?n mod _ = ?b => idtac end; Z.div_mod_to_equations; lia.
Qed.

#[global] Arguments PutUint16 : simpl never.
#[global] Arguments PutUint32 : simpl never.
#[global] Arguments PutUint64 : simpl never.
#[global] Arguments Uint16 : simpl never.
#[global] Arguments Uint32 : simpl never.
#[global] Arguments Uint64 : simpl never.

(** ** Slices *)

Lemma sub_app_l {A} (l k : list A) : sub (l ++ k) 0 (len l) = l.
Proof.
  unfold sub. rewrite drop_0, Z.sub_0_r. unfold len.
  rewrite Nat2Z.id. by rewrite take_app_length.
Qed.
Lemma from_app {A} (l k : list A) n : n = len l -> from (l ++ k) n = k.
Proof. intros ->; unfold from, len. by rewrite Nat2Z.id, drop_app_length. Qed.
Lemma sub_mid {A} (l m k : list A) lo hi :
  lo = len l -> hi = len l + len m -> sub (l ++ m ++ k) lo hi = m.
Proof.
  intros -> ->; unfold sub, len. rewrite Nat2Z.id, drop_app_length.
  replace (Z.to_nat _) with (length m) by lia. by rewrite take_app_length.
Qed.
Lemma len_sub {A} (l : list A) lo hi :
  0 <= lo <= hi -> hi <= len l -> len (sub l lo hi) = hi - lo.
Proof. unfold len, sub; intros. rewrite length_take, length_drop. lia. Qed.
Lemma len_from {A} (l : list A) lo : 0 <= lo <= len l -> len (from l lo) = len l - lo.
Proof. unfold len, from; intros. rewrite length_drop. lia. Qed.
