(* ===== verification/GoStrings.v ===== *)
(** What the sources use of the packages strings, strconv and fmt, on ASCII text. *)

From Stdlib Require Import ZArith Lia String Ascii.
From stdpp Require Import base list numbers strings.
From S2P Require Import Prelude.
Open Scope Z_scope.

(** ** Package strings *)

Definition isSpace (c : ascii) : bool :=
  let n := nat_of_ascii c in ((9 <=? n) && (n <=? 13) || (n =? 32))%nat.

Fixpoint trimLeft (s : string) : string :=
  match s with
  | String c s' => if isSpace c then trimLeft s' else s
  | EmptyString => EmptyString
  end.
Definition TrimSpace (s : string) : string := String.rev (trimLeft (String.rev (trimLeft s))).

Definition lowerAscii (c : ascii) : ascii :=
  let n := nat_of_ascii c in if ((65 <=? n) && (n <=? 90))%nat then ascii_of_nat (n + 32) else c.
Fixpoint ToLower (s : string) : string :=
  match s with String c s' => String (lowerAscii c) (ToLower s') | EmptyString => EmptyString end.

Definition EqualFold (a b : string) : bool := String.eqb (ToLower a) (ToLower b).

Fixpoint ContainsStr (s sub : string) : bool :=
  String.prefix sub s || match s with String _ s' => ContainsStr s' sub | EmptyString => false end.

Fixpoint HasSuffix (s suffix : string) : bool :=
  String.eqb s suffix || match s with String _ s' => HasSuffix s' suffix | EmptyString => false end.

(** The text before and after the first [c]: Index with its two slices, SplitN(s, c, 2). *)
Fixpoint Cut (c : ascii) (s : string) : option (string * string) :=
  match s with
  | EmptyString => None
  | String a s' =>
      if Ascii.eqb a c then Some (EmptyString, s')
      else match Cut c s' with Some (x, y) => Some (String a x, y) | None => None end
  end.

Fixpoint Split (c : ascii) (s : string) : list string :=
  match s with
  | EmptyString => [EmptyString]
  | String a s' =>
      if Ascii.eqb a c then EmptyString :: Split c s'
      else match Split c s' with [] => [String a EmptyString] | w :: ws => String a w :: ws end
  end.

(** ** Numbers *)

Definition digitOf (c : ascii) : option Z :=
  let n := Z.of_N (N_of_ascii c) in if (48 <=? n) && (n <=? 57) then Some (n - 48) else None.

Fixpoint parseDigits (s : string) (acc : Z) : option Z :=
  match s with
  | EmptyString => Some acc
  | String c s' => match digitOf c with Some d => parseDigits s' (10 * acc + d) | None => None end
  end.

(** strconv.ParseUint(s, 10, 64); [None] is an error (syntax or range). *)
Definition ParseUint (s : string) : option Z :=
  match s with
  | EmptyString => None
  | _ => match parseDigits s 0 with Some n => if n <? 2 ^ 64 then Some n else None | None => None end
  end.

(** strconv.Atoi: a sign and decimal digits within the range of int. *)
Definition Atoi (s : string) : option Z :=
  let '(neg, t) := match s with
                   | String "-" t => (true, t)
                   | String "+" t => (false, t)
                   | _ => (false, s)
                   end in
  match t with
  | EmptyString => None
  | _ => match parseDigits t 0 with
         | Some n => let v := if neg : bool then - n else n in
                     if (- 2 ^ 63 <=? v) && (v <? 2 ^ 63) then Some v else None
         | None => None
         end
  end.

(** The decimal digit of [0 <= d < 10]. *)
Definition digitChar (d : Z) : ascii := ascii_of_N (Z.to_N (48 + d)).
(** %02d for [0 <= n < 100]. *)
Definition pad2 (n : Z) : string := String (digitChar (n / 10)) (String (digitChar (n mod 10)) EmptyString).

(** ** Lemmas *)

(** [c] does not occur in [s]. *)
Fixpoint lacks (c : ascii) (s : string) : bool :=
  match s with String a s' => negb (Ascii.eqb a c) && lacks c s' | EmptyString => true end.

Lemma append_nil t : (EmptyString ++ t)%string = t.
Proof. done. Qed.
Lemma append_cons a s t : (String a s ++ t)%string = String a (s ++ t).
Proof. done. Qed.

Lemma Cut_lacks c s : lacks c s = true -> Cut c s = None.
Proof.
  induction s as [|a s IH]; [done|]. cbn [Cut lacks]. destruct (Ascii.eqb a c); [done|]. intros H. by rewrite IH.
Qed.

Lemma Cut_app c s t : lacks c s = true -> Cut c (s ++ String c t) = Some (s, t).
Proof.
  induction s as [|a s IH]; rewrite ?append_nil, ?append_cons; cbn [Cut lacks]; [by rewrite Ascii.eqb_refl|]. destruct (Ascii.eqb a c); [done|].
  intros H. by rewrite IH.
Qed.

Lemma lacks_app c s t : lacks c (s ++ t) = lacks c s && lacks c t.
Proof. induction s as [|a s IH]; [done|]. rewrite append_cons. cbn [lacks]. rewrite IH. by destruct (Ascii.eqb a c). Qed.

Lemma Cut_app_late c d s t : lacks c s = true -> c <> d -> Cut c (s ++ String d t) =
  match Cut c t with Some (x, y) => Some ((s ++ String d x)%string, y) | None => None end.
Proof.
  intros Hs Hne. induction s as [|a s IH]; rewrite ?append_nil, ?append_cons; cbn [Cut lacks] in *.
  - destruct (Ascii.eqb_spec d c); [done|]. by destruct (Cut c t) as [[]|].
  - destruct (Ascii.eqb a c); [done|]. rewrite IH by done. by destruct (Cut c t) as [[]|].
Qed.

Lemma HasSuffix_spec s t : HasSuffix s t = true <-> exists p, s = (p ++ t)%string.
Proof.
  induction s as [|a s IH]; cbn [HasSuffix].
  - rewrite orb_false_r, String.eqb_eq. split; [intros <-; by exists ""%string|]. intros [[|? ?] H]; done.
  - rewrite orb_true_iff, String.eqb_eq, IH. split.
    + intros [<-|[p ->]]; [by exists ""%string|by exists (String a p)].
    + intros [[|b p] H]; [by left|right]. injection H as -> ->. by exists p.
Qed.

Lemma length_append s t : String.length (s ++ t) = (String.length s + String.length t)%nat.
Proof. induction s as [|a s IH]; [done|]. rewrite append_cons. cbn [String.length]. by rewrite IH. Qed.

(** What is before the first [c] has no [d], if no [d] comes earlier. *)
Lemma Cut_before c d s : forall x r, Cut c s = Some (x, r) ->
  (forall y r', Cut d s = Some (y, r') -> (String.length x <= String.length y)%nat) -> lacks d x = true.
Proof.
  induction s as [|a s IH]; intros x r Hc Hd; [done|]. cbn [Cut] in Hc, Hd. destruct (Ascii.eqb a c); [by simplify_eq|].
  destruct (Cut c s) as [[x' y']|] eqn:E; [|done]. simplify_eq. cbn [lacks String.length] in *.
  destruct (Ascii.eqb a d) eqn:Ed; [specialize (Hd _ _ eq_refl); cbn in Hd; lia|]. cbn.
  apply (IH _ _ eq_refl). intros y r' Hy. rewrite Hy in Hd. specialize (Hd _ _ eq_refl). cbn in Hd. lia.
Qed.
