(* ===== verification/Frame.v ===== *)
(** The frame layer: src/frame/frame.go, transport.go, packet_leg.go,
    stripe_attach.go and flowkey.go.

    A frame is a type byte, a big-endian 16-bit length and a payload; the same
    bytes travel on a TCP stream ([WriteFrame], [Send], [SendBatch]) and in a UDP
    datagram ([EncodeDatagram]).  [ReverseFramedConn] filters the control frames
    of the reverse protocol and hands the data payloads on as a byte stream.

    A reader is the list of bytes still to arrive before EOF; a writer is a state
    of any type with a [Write] operation that may accept fewer bytes or fail.
    The buffer pool and the trace hooks are not modelled: they only reuse memory
    and observe. *)

From Stdlib Require Import ZArith Lia.
From stdpp Require Import base list numbers.
From S2P Require Import Prelude.
Open Scope Z_scope.

(** ** Frame types *)

Definition FrameHeartbeat : Z := 0x01.
Definition FramePong : Z := 0x02.
Definition FramePeng : Z := 0x03.
Definition FrameUDPChannel : Z := 0x04.
Definition FrameData : Z := 0x05.
Definition FrameGossip : Z := 0x12.
Definition FrameLinkPing : Z := 0x14.
Definition FrameLinkPong : Z := 0x15.
Definition FrameStripeAttach : Z := 0x16.
Definition FrameLaneAck : Z := 0x17.
Definition FrameLaneGauge : Z := 0x18.
Definition FrameMeshPacket : Z := 0x20.

Definition FrameHeaderSize : Z := 3.
Definition MaxPayload : Z := 65535.

Definition IsControlFrame (frameType : Z) : bool :=
  (0x10 <=? frameType) && (frameType <=? 0x1F).

Definition IsLegFrame (frameType : Z) : bool :=
  (frameType =? FrameLinkPing) || (frameType =? FrameLinkPong) ||
  (frameType =? FrameMeshPacket).

(** ** Reading a frame *)

Inductive FrameError :=
| ErrReadHeader      (* "read header fail" *)
| ErrPayloadTooLarge (* "payload too large" *)
| ErrReadPayload     (* "read payload fail" *)
| ErrShortWrite      (* io.ErrShortWrite *)
| ErrConn.           (* an error of the underlying connection's Write *)

(** [io.ReadFull]: [n] bytes and the rest, or nothing when fewer arrive. *)
Definition ReadFull (r : list Z) (n : Z) : option (list Z * list Z) :=
  if n <=? len r then Some (sub r 0 n, from r n) else None.

(** [ReadFrame] returns the type, the payload and the unread rest of the stream. *)
Definition ReadFrame (r : list Z) : result FrameError (Z * list Z * list Z) :=
  match ReadFull r 3 with
  | None => Err ErrReadHeader
  | Some (hdr, r1) =>
      let frameType := byte_at hdr 0 in
      let length := Uint16 (from hdr 1) in
      if MaxPayload <? length then Err ErrPayloadTooLarge
      else if length =? 0 then Ok (frameType, [], r1)
      else match ReadFull r1 length with
           | None => Err ErrReadPayload
           | Some (payload, r2) => Ok (frameType, payload, r2)
           end
  end.

(** ** Writing frames *)

Record Frame := mkFrame { fType : Z; fPayload : list Z; fControl : bool }.

(** The header as [Send], [SendBatch] and [serializeFrame] build it. *)
Definition frameHeader (frameType : Z) (payload : list Z) : list Z :=
  [frameType; byte_of (Z.shiftr (len payload) 8); byte_of (len payload)].

Definition serializeFrame (frameType : Z) (payload : list Z) : list Z :=
  if len payload =? 0 then frameHeader frameType payload
  else frameHeader frameType payload ++ payload.

Section Writer.
Context {W : Type}.
(** [Write w b] is the connection's Write: the new state, the count accepted and
    whether it reported an error. *)
Variable Write : W -> list Z -> W * (Z * bool).

Definition WriteFrame (w : W) (frameType : Z) (payload : list Z) : W * result FrameError unit :=
  if MaxPayload <? len payload then (w, Err ErrPayloadTooLarge)
  else
    let hdr := frameType :: PutUint16 (wrap 16 (len payload)) in
    let '(w1, (_, e1)) := Write w hdr in
    if e1 : bool then (w1, Err ErrConn)
    else if 0 <? len payload then
      let '(w2, (_, e2)) := Write w1 payload in
      if e2 : bool then (w2, Err ErrConn) else (w2, Ok tt)
    else (w1, Ok tt).

(** [net.Buffers.WriteTo] on a TCP connection: one writev of all the buffers. *)
Definition WriteBuffers (w : W) (bufs : list (list Z)) : W * (Z * bool) :=
  Write w (concat bufs).

(** streamTransport.Send; [isTCP] is the outcome of the [*net.TCPConn] assertion. *)
Definition Send (isTCP : bool) (w : W) (frameType : Z) (payload : list Z) (isControl : bool)
  : W * result FrameError unit :=
  if MaxPayload <? len payload then (w, Err ErrPayloadTooLarge)
  else
    let hdr := frameHeader frameType payload in
    if isTCP && (0 <? len payload) then
      let '(w1, (n, e)) := WriteBuffers w [hdr; payload] in
      if e : bool then (w1, Err ErrConn)
      else if negb (n =? FrameHeaderSize + len payload) then (w1, Err ErrShortWrite)
      else (w1, Ok tt)
    else WriteFrame w frameType payload.

Definition totalSize (frames : list Frame) : Z :=
  foldr (fun f acc => FrameHeaderSize + len (fPayload f) + acc) 0 frames.

(** The buffers of the writev path: per frame the header, then the payload if any. *)
Definition batchBuffers (frames : list Frame) : list (list Z) :=
  flat_map (fun f =>
    frameHeader (fType f) (fPayload f) ::
    (if 0 <? len (fPayload f) then [fPayload f] else [])) frames.

(** The single buffer of the fallback path, filled frame by frame at [offset]. *)
Fixpoint batchBuffer (frames : list Frame) : list Z :=
  match frames with
  | [] => []
  | f :: fs =>
      [fType f; byte_of (Z.shiftr (len (fPayload f)) 8); byte_of (len (fPayload f))]
      ++ (if 0 <? len (fPayload f) then fPayload f else [])
      ++ batchBuffer fs
  end.

Definition SendBatch (isTCP : bool) (w : W) (frames : list Frame) : W * result FrameError unit :=
  match frames with
  | [] => (w, Ok tt)
  | [f] => Send isTCP w (fType f) (fPayload f) false
  | _ =>
      if existsb (fun f => MaxPayload <? len (fPayload f)) frames
      then (w, Err ErrPayloadTooLarge)
      else
        let '(w1, (n, e)) :=
          if isTCP then WriteBuffers w (batchBuffers frames)
          else Write w (batchBuffer frames) in
        if e : bool then (w1, Err ErrConn)
        else if negb (n =? totalSize frames) then (w1, Err ErrShortWrite)
        else (w1, Ok tt)
  end.

End Writer.

(** A connection that accepts everything, as the list of bytes written so far. *)
Definition appendWrite (w : list Z) (b : list Z) : list Z * (Z * bool) :=
  (w ++ b, (len b, false)).

(** A connection that accepts [k] more bytes and then fails. *)
Definition boundedWrite (w : list Z * Z) (b : list Z) : (list Z * Z) * (Z * bool) :=
  let '(out, k) := w in
  if len b <=? k then ((out ++ b, k - len b), (len b, false))
  else ((out ++ sub b 0 k, 0), (k, true)).

(** ** The datagram codec *)

Definition EncodeDatagram (frameType : Z) (payload : list Z) : list Z :=
  serializeFrame frameType payload.

Inductive DatagramError := ErrTooShort | ErrLengthExceedsMax | ErrLengthMismatch.

Definition ParseDatagramFrame (datagram : list Z) : result DatagramError (Z * list Z) :=
  if len datagram <? FrameHeaderSize then Err ErrTooShort
  else
    let frameType := byte_at datagram 0 in
    let length := Uint16 (from datagram 1) in
    if MaxPayload <? length then Err ErrLengthExceedsMax
    else if negb (length =? len datagram - FrameHeaderSize) then Err ErrLengthMismatch
    else Ok (frameType, from datagram FrameHeaderSize).

(** ** The StripeAttach payload *)

Definition maxStripeAttachNodeIDLen : Z := 255.

Inductive AttachError := ErrNodeIDLength | ErrAttachTooShort | ErrAttachMalformed.

Definition EncodeStripeAttach (nodeID : list Z) (seq stripeID : Z) : result AttachError (list Z) :=
  if (len nodeID =? 0) || (maxStripeAttachNodeIDLen <? len nodeID) then Err ErrNodeIDLength
  else Ok (byte_of (len nodeID) :: nodeID ++ PutUint16 seq ++ PutUint32 stripeID).

Definition DecodeStripeAttach (payload : list Z) : result AttachError (list Z * Z * Z) :=
  if len payload <? 1 + 2 + 4 then Err ErrAttachTooShort
  else
    let idLen := byte_at payload 0 in
    if (idLen =? 0) || negb (1 + idLen + 2 + 4 =? len payload) then Err ErrAttachMalformed
    else Ok (sub payload 1 (1 + idLen),
             Uint16 (from payload (1 + idLen)),
             Uint32 (from payload (1 + idLen + 2))).

(** ** Reverse framed connections *)

Record bytesBuffer := mkBuffer { buf : list Z; pos : Z }.

Definition newBytesBuffer : bytesBuffer := mkBuffer [] 0.

Definition bufferWrite (b : bytesBuffer) (p : list Z) : bytesBuffer :=
  mkBuffer (buf b ++ p) (pos b).

(** [bufferRead b n]: the bytes copied into a destination of length [n]. *)
Definition bufferRead (b : bytesBuffer) (n : Z) : bytesBuffer * list Z :=
  if len (buf b) <=? pos b then (b, [])
  else
    let copied := sub (from (buf b) (pos b)) 0 n in
    let pos' := pos b + len copied in
    if len (buf b) <=? pos' then (mkBuffer [] 0, copied)
    else (mkBuffer (buf b) pos', copied).

(** The connection: what will still arrive, what [Write] has sent, the read cache. *)
Record ReverseFramedConn := mkConn {
  incoming : list Z;
  outgoing : list Z;
  readBuf : bytesBuffer
}.

Definition NewReverseFramedConn (conn : list Z) : ReverseFramedConn :=
  mkConn conn [] newBytesBuffer.

Definition Inject (c : ReverseFramedConn) (data : list Z) : ReverseFramedConn :=
  mkConn (incoming c) (outgoing c) (bufferWrite (readBuf c) data).

(** [Read] into a destination of length [n].  [None] is fuel exhaustion; every
    turn of the loop takes a frame header off [incoming]. *)
Fixpoint connRead (fuel : nat) (c : ReverseFramedConn) (n : Z)
  : option (ReverseFramedConn * result FrameError (list Z)) :=
  match fuel with
  | O => None
  | S fuel' =>
      let '(rb, got) := bufferRead (readBuf c) n in
      if 0 <? len got then Some (mkConn (incoming c) (outgoing c) rb, Ok got)
      else
        match ReadFrame (incoming c) with
        | Err e => Some (mkConn [] (outgoing c) rb, Err e)
        | Ok (frameType, payload, rest) =>
            if (frameType =? FrameHeartbeat) || (frameType =? FramePong) || (frameType =? FramePeng)
            then connRead fuel' (mkConn rest (outgoing c) rb) n
            else if frameType =? FrameData then
              connRead fuel' (mkConn rest (outgoing c)
                (if 0 <? len payload then bufferWrite rb payload else rb)) n
            else connRead fuel' (mkConn rest (outgoing c) rb) n
        end
  end.

Definition connWrite (c : ReverseFramedConn) (b : list Z)
  : ReverseFramedConn * result FrameError Z :=
  let '(out, r) := WriteFrame appendWrite (outgoing c) FrameData b in
  let c' := mkConn (incoming c) out (readBuf c) in
  match r with
  | Err e => (c', Err e)
  | Ok _ => (c', Ok (len b))
  end.

(** One tick of [heartbeatSender] on a connection that accepts the write. *)
Definition heartbeatTick (c : ReverseFramedConn) : ReverseFramedConn :=
  mkConn (incoming c) (fst (WriteFrame appendWrite (outgoing c) FrameHeartbeat [])) (readBuf c).

(** ** Flow keys *)

Open Scope go_scope.

Definition InnerPacket (pkt : list Z) : list Z :=
  if (len pkt <? 20) || negb (byte_at pkt 0 >> 4 =? 4) || negb (byte_at pkt 9 =? 4) then pkt
  else if negb (Z.land (byte_at pkt 6) 0x20 =? 0) ||
          negb (Z.lor (Z.shiftl (Z.land (byte_at pkt 6) 0x1F) 8) (byte_at pkt 7) =? 0) then pkt
  else
    let ihl := Z.land (byte_at pkt 0) 0x0F * 4 in
    if (ihl <? 20) || (len pkt <? ihl + 20) then pkt
    else if negb (byte_at pkt ihl >> 4 =? 4) then pkt
    else from pkt ihl.

(** One round of Jenkins one-at-a-time on [uint32]. *)
Definition mixByte (h b : Z) : Z :=
  let h := h +u32 b in
  let h := h +u32 (h <<u32 10) in
  h ^u (h >> 6).

Definition mixFinal (h : Z) : Z :=
  let h := h +u32 (h <<u32 3) in
  let h := h ^u (h >> 11) in
  h +u32 (h <<u32 15).

Definition FlowKey (payload0 : list Z) : Z :=
  let payload := InnerPacket payload0 in
  if len payload <? 20 then 0
  else if negb (byte_at payload 0 >> 4 =? 4) then 0
  else
    let protocol := byte_at payload 9 in
    let ihl0 := Z.land (byte_at payload 0) 0x0F * 4 in
    let ihl := if ihl0 <? 20 then 20 else ihl0 in
    let h := foldl mixByte 0 (sub payload 12 20) in
    let h := mixByte h protocol in
    let h := if ((protocol =? 6) || (protocol =? 17)) && (ihl + 4 <=? len payload)
             then foldl mixByte h (sub payload ihl (ihl + 4)) else h in
    mixFinal h.
Close Scope go_scope.

(** ** Lemmas *)

Lemma serializeFrame_eq ft p : serializeFrame ft p = ft :: PutUint16 (len p) ++ p.
Proof.
  unfold serializeFrame, frameHeader, PutUint16. destruct (len p =? 0) eqn:E; [|done].
  apply Z.eqb_eq, len_zero in E as ->. done.
Qed.

Lemma ReadFull_app l r n : n = len l -> ReadFull (l ++ r) n = Some (l, r).
Proof.
  intros ->; unfold ReadFull. rewrite len_app. pose proof (len_nonneg r).
  destruct (Z.leb_spec (len l) (len l + len r)); [|lia].
  by rewrite sub_app_l, from_app.
Qed.

Lemma ReadFull_Some r n l r' : ReadFull r n = Some (l, r') -> 0 <= n -> r = l ++ r' /\ len l = n.
Proof.
  unfold ReadFull. destruct (Z.leb_spec n (len r)); intros [= <- <-] Hn.
  split; [|rewrite len_sub; lia].
  unfold sub, from. by rewrite drop_0, Z.sub_0_r, take_drop.
Qed.

Lemma ReadFrame_serialize ft p rest :
  len p <= MaxPayload -> ReadFrame (serializeFrame ft p ++ rest) = Ok (ft, p, rest).
Proof.
  intros Hp. rewrite serializeFrame_eq. unfold ReadFrame, MaxPayload in *.
  change (ft :: PutUint16 (len p) ++ p) with ((ft :: PutUint16 (len p)) ++ p).
  rewrite <- app_assoc, ReadFull_app by done.
  pose proof (len_nonneg p) as Hlen.
  assert (Uint16 (from (ft :: PutUint16 (len p)) 1) = len p) as ->.
  { change (from _ 1) with (PutUint16 (len p)).
    rewrite <- (app_nil_r (PutUint16 _)), Uint16_put. apply wrap_small; lia. }
  destruct (Z.ltb_spec 65535 (len p)); [lia|].
  destruct (Z.eqb_spec (len p) 0) as [E|E].
  - apply len_zero in E as ->. done.
  - by rewrite ReadFull_app.
Qed.

(** A frame that was read is the serialization of what was returned. *)
Lemma ReadFrame_Ok r ft p rest :
  Forall is_byte r -> ReadFrame r = Ok (ft, p, rest) ->
  r = serializeFrame ft p ++ rest /\ len p <= MaxPayload.
Proof.
  intros Hr; unfold ReadFrame.
  destruct (ReadFull r 3) as [[hdr r1]|] eqn:E1; [|done].
  apply ReadFull_Some in E1 as [-> Hh]; [|lia].
  destruct hdr as [|b0 [|b1 [|b2 [|? ?]]]]; try (unfold len in Hh; simpl in Hh; lia).
  rewrite !Forall_app, !Forall_cons_iff in Hr; destruct Hr as [(? & Hb1 & Hb2 & _) Hr1].
  change (from [b0; b1; b2] 1) with [b1; b2].
  pose proof (PutUint16_get b1 b2 Hb1 Hb2) as Hput.
  assert (0 <= Uint16 [b1; b2]) by (apply Uint16_range; solve_bytes).
  destruct (Z.ltb_spec MaxPayload (Uint16 [b1; b2])) as [|Hle]; [done|].
  destruct (Z.eqb_spec (Uint16 [b1; b2]) 0) as [E0|E0].
  - intros [= <- <- <-]. rewrite E0 in Hput. split; [|done].
    rewrite serializeFrame_eq. change (len (@nil Z)) with 0. by rewrite Hput.
  - destruct (ReadFull r1 _) as [[payload r2]|] eqn:E2; [|done].
    apply ReadFull_Some in E2 as [-> Hlen]; [|lia].
    intros [= <- <- <-]. rewrite serializeFrame_eq, Hlen, Hput. split; [done|lia].
Qed.

Lemma ReadFrame_shrinks r ft p rest :
  ReadFrame r = Ok (ft, p, rest) -> (length rest < length r)%nat.
Proof.
  unfold ReadFrame. destruct (ReadFull r 3) as [[hdr r1]|] eqn:E1; [|done].
  apply ReadFull_Some in E1 as [-> Hh]; [|lia]. unfold len in Hh.
  repeat case_match; intros; simplify_eq; rewrite length_app; try lia.
  unfold ReadFull in *. repeat case_match; simplify_eq.
  unfold from. rewrite length_drop. lia.
Qed.

Lemma batchBuffers_concat frames : concat (batchBuffers frames) = batchBuffer frames.
Proof.
  induction frames as [|f fs IH]; [done|]. unfold batchBuffers in *; simpl.
  rewrite concat_app, IH. destruct (0 <? len (fPayload f)); simpl; by rewrite ?app_nil_r.
Qed.

Lemma batchBuffer_serialize frames :
  batchBuffer frames = concat (map (fun f => serializeFrame (fType f) (fPayload f)) frames).
Proof.
  induction frames as [|f fs IH]; [done|]. cbn [batchBuffer map concat].
  rewrite IH, serializeFrame_eq. unfold PutUint16.
  destruct (Z.ltb_spec 0 (len (fPayload f))) as [|H]; [done|].
  pose proof (len_nonneg (fPayload f)).
  assert (fPayload f = []) as -> by (apply len_zero; lia). done.
Qed.

Lemma len_serializeFrame ft p : len (serializeFrame ft p) = FrameHeaderSize + len p.
Proof. rewrite serializeFrame_eq, len_cons, len_app. unfold FrameHeaderSize, len; simpl; lia. Qed.

Lemma totalSize_eq frames : totalSize frames = len (batchBuffer frames).
Proof.
  rewrite batchBuffer_serialize. induction frames as [|f fs IH]; [done|].
  cbn [map concat]. rewrite len_app, len_serializeFrame, <- IH. done.
Qed.

Lemma WriteFrame_append w ft p :
  WriteFrame appendWrite w ft p =
    if MaxPayload <? len p then (w, Err ErrPayloadTooLarge)
    else (w ++ serializeFrame ft p, Ok tt).
Proof.
  unfold WriteFrame, appendWrite. destruct (Z.ltb_spec MaxPayload (len p)) as [|Hp]; [done|].
  pose proof (len_nonneg p). rewrite serializeFrame_eq, (wrap_small 16) by (unfold MaxPayload in *; lia).
  destruct (Z.ltb_spec 0 (len p)); simpl.
  - by rewrite <- app_assoc.
  - assert (p = []) as -> by (apply len_zero; lia). done.
Qed.

Lemma Send_append isTCP w ft p ctl :
  Send appendWrite isTCP w ft p ctl =
    if MaxPayload <? len p then (w, Err ErrPayloadTooLarge)
    else (w ++ serializeFrame ft p, Ok tt).
Proof.
  unfold Send. destruct (Z.ltb_spec MaxPayload (len p)) as [|Hp]; [done|].
  destruct (isTCP && (0 <? len p)) eqn:E.
  - apply andb_prop in E as [_ E]; apply Z.ltb_lt in E.
    unfold WriteBuffers, appendWrite; cbn [concat].
    rewrite app_nil_r, serializeFrame_eq.
    change (frameHeader ft p) with (ft :: PutUint16 (len p)).
    rewrite len_app, len_cons.
    change (len (PutUint16 (len p))) with 2. unfold FrameHeaderSize.
    replace (1 + 2 + len p =? 3 + len p) with true by (symmetry; apply Z.eqb_eq; lia). done.
  - rewrite WriteFrame_append. destruct (Z.ltb_spec MaxPayload (len p)); [lia|done].
Qed.

Lemma SendBatch_append isTCP w frames :
  SendBatch appendWrite isTCP w frames =
    if existsb (fun f => MaxPayload <? len (fPayload f)) frames
    then (w, Err ErrPayloadTooLarge)
    else (w ++ concat (map (fun f => serializeFrame (fType f) (fPayload f)) frames), Ok tt).
Proof.
  destruct frames as [|f [|g fs]].
  - simpl. by rewrite app_nil_r.
  - simpl. rewrite Send_append, orb_false_r, app_nil_r. done.
  - unfold SendBatch. destruct (existsb _ _); [done|].
    unfold WriteBuffers. rewrite batchBuffers_concat, totalSize_eq, <- batchBuffer_serialize.
    destruct isTCP; unfold appendWrite; by rewrite Z.eqb_refl.
Qed.

(** ** Reading a whole stream, the reference for the receiving side *)

Fixpoint readFrames (fuel : nat) (r : list Z) : list (Z * list Z) :=
  match fuel with
  | O => []
  | S fuel' =>
      match ReadFrame r with
      | Ok (ft, p, rest) => (ft, p) :: readFrames fuel' rest
      | Err _ => []
      end
  end.

Definition streamFrames (r : list Z) : list (Z * list Z) := readFrames (length r) r.

Lemma readFrames_fuel fuel fuel' r :
  (length r <= fuel)%nat -> (length r <= fuel')%nat -> readFrames fuel r = readFrames fuel' r.
Proof.
  revert fuel' r; induction fuel as [|fuel IH]; intros fuel' r H H'.
  - destruct r; [|simpl in H; lia]. by destruct fuel'.
  - destruct fuel' as [|fuel']; [destruct r; [done|simpl in H'; lia]|]. simpl.
    destruct (ReadFrame r) as [[[ft p] rest]|] eqn:E; [|done].
    apply ReadFrame_shrinks in E. f_equal. apply IH; lia.
Qed.

Lemma streamFrames_cons ft p rest :
  len p <= MaxPayload ->
  streamFrames (serializeFrame ft p ++ rest) = (ft, p) :: streamFrames rest.
Proof.
  intros Hp. unfold streamFrames at 1.
  destruct (length (serializeFrame ft p ++ rest)) as [|n] eqn:E.
  - rewrite length_app, serializeFrame_eq in E. simpl in E. lia.
  - simpl. rewrite ReadFrame_serialize by done. f_equal. apply readFrames_fuel; [|lia].
    rewrite length_app, serializeFrame_eq in E. simpl in E. lia.
Qed.

Lemma streamFrames_concat frames rest :
  Forall (fun f => len (fPayload f) <= MaxPayload) frames ->
  streamFrames (concat (map (fun f => serializeFrame (fType f) (fPayload f)) frames) ++ rest) =
  map (fun f => (fType f, fPayload f)) frames ++ streamFrames rest.
Proof.
  induction 1 as [|f fs Hf Hfs IH]; [done|]. cbn [map concat].
  rewrite <- app_assoc, streamFrames_cons, IH by done. done.
Qed.

Lemma existsb_too_large frames :
  existsb (fun f => MaxPayload <? len (fPayload f)) frames = false <->
  Forall (fun f => len (fPayload f) <= MaxPayload) frames.
Proof.
  induction frames as [|f fs IH]; simpl; [split; [constructor|done]|].
  rewrite orb_false_iff, Forall_cons_iff, IH, Z.ltb_ge. done.
Qed.

Lemma streamFrames_step r :
  streamFrames r = match ReadFrame r with
                   | Ok (ft, p, rest) => (ft, p) :: streamFrames rest
                   | Err _ => []
                   end.
Proof.
  unfold streamFrames at 1. destruct (length r) as [|n] eqn:E.
  - apply nil_length_inv in E as ->. done.
  - simpl. destruct (ReadFrame r) as [[[ft p] rest]|] eqn:E'; [|done].
    apply ReadFrame_shrinks in E'. f_equal. apply readFrames_fuel; lia.
Qed.

(** The application data carried by a stream of reverse frames. *)
Definition dataOf (r : list Z) : list Z :=
  flat_map (fun '(ft, p) => if ft =? FrameData then p else []) (streamFrames r).

(** What [Read] has still to deliver: the cached bytes, then the data frames to come. *)
Definition pending (c : ReverseFramedConn) : list Z :=
  from (buf (readBuf c)) (pos (readBuf c)) ++ dataOf (incoming c).

Definition connOk (c : ReverseFramedConn) : Prop :=
  0 <= pos (readBuf c) <= len (buf (readBuf c)).

Lemma dataOf_step r :
  dataOf r = match ReadFrame r with
             | Ok (ft, p, rest) => (if ft =? FrameData then p else []) ++ dataOf rest
             | Err _ => []
             end.
Proof.
  unfold dataOf at 1. rewrite streamFrames_step.
  destruct (ReadFrame r) as [[[ft p] rest]|]; done.
Qed.

Lemma dataOf_serialize ft p rest :
  len p <= MaxPayload ->
  dataOf (serializeFrame ft p ++ rest) = (if ft =? FrameData then p else []) ++ dataOf rest.
Proof. intros Hp. rewrite dataOf_step, ReadFrame_serialize by done. done. Qed.

Lemma from_add {A} (l : list A) i j : 0 <= i -> 0 <= j -> from (from l i) j = from l (i + j).
Proof. intros; unfold from. rewrite drop_drop. f_equal; lia. Qed.

Lemma sub_from_split {A} (l : list A) n : 0 <= n -> sub l 0 n ++ from l n = l.
Proof. intros; unfold sub, from. by rewrite drop_0, Z.sub_0_r, take_drop. Qed.

(** [bufferRead] hands out a prefix of the cached bytes and keeps the rest. *)
Lemma bufferRead_spec b n b' got :
  0 <= pos b <= len (buf b) -> 0 < n -> bufferRead b n = (b', got) ->
  from (buf b) (pos b) = got ++ from (buf b') (pos b') /\
  0 <= pos b' <= len (buf b') /\ len got <= n /\ (got = [] -> b' = b /\ from (buf b) (pos b) = []).
Proof.
  intros Hb Hn. unfold bufferRead.
  pose proof (len_from (buf b) (pos b) Hb) as Hf.
  set (rest := from (buf b) (pos b)) in *.
  destruct (Z.leb_spec (len (buf b)) (pos b)) as [Hle|Hlt].
  - intros [= <- <-]. assert (rest = []) as E by (apply len_zero; lia).
    unfold rest in *; rewrite E. repeat split; first [done | lia | rewrite len_nil; lia].
  - assert (len (sub rest 0 n) = Z.min n (len rest)) as Hg.
    { unfold sub, len. rewrite length_take, drop_0. lia. }
    pose proof (sub_from_split rest n ltac:(lia)) as Hs.
    assert (sub rest 0 n <> []) as Hne by (intros E; rewrite E, len_nil in Hg; lia).
    destruct (Z.leb_spec (len (buf b)) (pos b + len (sub rest 0 n))) as [H1|H1];
      intros [= <- <-]; simpl.
    + assert (from rest n = []) as E.
      { unfold from. rewrite drop_ge; [done|]. unfold len in *. lia. }
      rewrite E, app_nil_r in Hs. unfold from at 1; simpl. rewrite app_nil_r.
      repeat split; try done; unfold len in *; lia.
    + rewrite <- from_add by (unfold len; lia). fold rest.
      replace (len (sub rest 0 n)) with n by lia.
      repeat split; first [done | lia].
Qed.

Lemma bufferWrite_from b p :
  0 <= pos b <= len (buf b) ->
  from (buf (bufferWrite b p)) (pos (bufferWrite b p)) = from (buf b) (pos b) ++ p.
Proof. intros Hb. unfold bufferWrite, from; simpl. unfold len in Hb. by rewrite drop_app_le by lia. Qed.

(** One turn of the read loop that finds the cache empty keeps [pending]. *)
Lemma connRead_spec fuel c n :
  connOk c -> 0 < n -> (length (incoming c) < fuel)%nat ->
  exists c' r, connRead fuel c n = Some (c', r) /\ connOk c' /\ outgoing c' = outgoing c /\
    match r with
    | Ok got => got <> [] /\ len got <= n /\ pending c = got ++ pending c'
    | Err _ => pending c = [] /\ incoming c' = []
    end.
Proof.
  intros Hc Hn; revert c Hc. induction fuel as [|fuel IH]; intros c Hc Hf; [lia|].
  simpl. destruct (bufferRead (readBuf c) n) as [rb got] eqn:E.
  destruct (bufferRead_spec _ _ _ _ Hc Hn E) as (Hsp & Hrb & Hgn & Hnil).
  destruct (Z.ltb_spec 0 (len got)) as [Hg|Hg].
  - eexists _, _; split; [done|]; repeat split; simpl; try done; try lia.
    + intros E'; apply len_zero in E'; lia.
    + unfold pending; simpl. by rewrite Hsp, <- app_assoc.
  - assert (got = []) as -> by (apply len_zero; pose proof (len_nonneg got); lia).
    destruct (Hnil eq_refl) as [-> Hemp]. clear Hnil Hsp Hgn Hg.
    pose proof (dataOf_step (incoming c)) as Hd.
    destruct (ReadFrame (incoming c)) as [[[ft p] rest]|e] eqn:ER.
    + apply ReadFrame_shrinks in ER.
      assert (forall c', incoming c' = rest -> outgoing c' = outgoing c -> connOk c' ->
                pending c = pending c' ->
                exists c'' r, connRead fuel c' n = Some (c'', r) /\ connOk c'' /\
                  outgoing c'' = outgoing c /\
                  match r with
                  | Ok got => got <> [] /\ len got <= n /\ pending c = got ++ pending c''
                  | Err _ => pending c = [] /\ incoming c'' = []
                  end) as K.
      { intros c' Hi Ho Hok Hp. destruct (IH c' Hok) as (c'' & r & ? & ? & Ho' & ?); [rewrite Hi; lia|].
        exists c'', r. rewrite Hp, <- Ho, <- Ho'. done. }
      destruct (Z.eqb_spec ft FrameData) as [->|Hft].
      * simpl. apply K; try done.
        -- destruct (0 <? len p); [|done]. unfold connOk, bufferWrite; simpl.
           rewrite len_app; pose proof (len_nonneg p); unfold connOk in Hc; lia.
        -- unfold pending; simpl. rewrite Hd, app_assoc.
           destruct (Z.ltb_spec 0 (len p)); [by rewrite bufferWrite_from|].
           assert (p = []) as -> by (apply len_zero; pose proof (len_nonneg p); lia).
           by rewrite app_nil_r.
      * assert (pending c = pending (mkConn rest (outgoing c) (readBuf c))) as Hp
          by (unfold pending; simpl; by rewrite Hd).
        destruct ((ft =? FrameHeartbeat) || (ft =? FramePong) || (ft =? FramePeng)); apply K; done.
    + eexists _, _; split; [done|]; repeat split; simpl; try done; try apply Hc.
      unfold pending. by rewrite Hd, Hemp.
Qed.

(** ** Properties *)

(** C1: a batch of frames sent by [SendBatch], on a TCP connection (writev) or
    on any other (one serialized buffer), is read back by [ReadFrame] as the same
    types and payloads in the same order, whatever follows on the stream. *)
Theorem SendBatch_read_back isTCP frames rest :
  Forall (fun f => len (fPayload f) <= MaxPayload) frames ->
  exists bytes, SendBatch appendWrite isTCP [] frames = (bytes, Ok tt) /\
    streamFrames (bytes ++ rest) =
      map (fun f => (fType f, fPayload f)) frames ++ streamFrames rest.
Proof.
  intros H. rewrite SendBatch_append. rewrite (proj2 (existsb_too_large frames) H).
  eexists; split; [done|]. by apply streamFrames_concat.
Qed.

Lemma SendBatch_read_back_witness :
  exists bytes,
    SendBatch appendWrite true [] [mkFrame FrameMeshPacket [1; 2; 3] false; mkFrame FrameLinkPing [] true]
      = (bytes, Ok tt) /\
    streamFrames (bytes ++ [FrameData; 0; 1; 9]) =
      [(FrameMeshPacket, [1; 2; 3]); (FrameLinkPing, []); (FrameData, [9])].
Proof.
  destruct (SendBatch_read_back true
    [mkFrame FrameMeshPacket [1; 2; 3] false; mkFrame FrameLinkPing [] true] [FrameData; 0; 1; 9])
    as (bytes & H1 & H2).
  - repeat constructor; vm_compute; discriminate.
  - exists bytes. split; [exact H1|]. rewrite H2. vm_compute. reflexivity.
Defined.

(** For every connection, a batch of two or more frames is acknowledged
    only when the connection took the whole serialized batch: a refused payload
    leaves the connection untouched, an error or a short count surfaces as an
    error, on the writev path and on the fallback path alike. *)
Theorem SendBatch_outcomes {W} (Write : W -> list Z -> W * (Z * bool)) isTCP w frames :
  (2 <= length frames)%nat ->
  SendBatch Write isTCP w frames =
    if existsb (fun f => MaxPayload <? len (fPayload f)) frames then (w, Err ErrPayloadTooLarge)
    else
      let bytes := concat (map (fun f => serializeFrame (fType f) (fPayload f)) frames) in
      let '(w', (n, e)) := Write w bytes in
      if e : bool then (w', Err ErrConn)
      else if n =? len bytes then (w', Ok tt) else (w', Err ErrShortWrite).
Proof.
  destruct frames as [|f [|g fs]]; try (simpl; lia). intros _. unfold SendBatch.
  destruct (existsb _ _); [done|]. cbv zeta.
  rewrite totalSize_eq, <- !batchBuffer_serialize. unfold WriteBuffers.
  rewrite batchBuffers_concat.
  destruct isTCP; destruct (Write _ _) as [w1 [n [|]]]; try done; by destruct (n =? _).
Qed.

Lemma SendBatch_outcomes_witness :
  SendBatch boundedWrite false ([], 5) [mkFrame 32 [7; 7] false; mkFrame 32 [8] false]
    = (([32; 0; 2; 7; 7], 0), Err ErrConn).
Proof.
  rewrite (SendBatch_outcomes boundedWrite false ([], 5)
             [mkFrame 32 [7; 7] false; mkFrame 32 [8] false]); [|simpl; lia].
  vm_compute. reflexivity.
Defined.

(** On a stream of bytes, [ReadFrame] accepts exactly the streams that
    begin with the serialization of a frame, and returns that frame and the rest. *)
Theorem ReadFrame_iff r ft p rest :
  Forall is_byte r ->
  ReadFrame r = Ok (ft, p, rest) <-> r = serializeFrame ft p ++ rest /\ len p <= MaxPayload.
Proof.
  intros Hr; split; [by apply ReadFrame_Ok|].
  intros [-> Hp]; by apply ReadFrame_serialize.
Qed.

Lemma ReadFrame_iff_witness :
  ReadFrame [5; 0; 2; 10; 11; 99] = Ok (5, [10; 11], [99]).
Proof.
  apply (ReadFrame_iff [5; 0; 2; 10; 11; 99] 5 [10; 11] [99]).
  - solve_bytes; unfold is_byte; lia.
  - split; [reflexivity|vm_compute; discriminate].
Defined.

Lemma ParseDatagramFrame_Ok d ft p :
  Forall is_byte d -> ParseDatagramFrame d = Ok (ft, p) ->
  d = EncodeDatagram ft p /\ len p <= MaxPayload.
Proof.
  intros Hd. unfold ParseDatagramFrame, EncodeDatagram, FrameHeaderSize.
  destruct (Z.ltb_spec (len d) 3) as [|H3]; [done|].
  destruct d as [|b0 [|b1 [|b2 p']]]; try (unfold len in H3; simpl in H3; lia).
  change (from (b0 :: b1 :: b2 :: p') 1) with ([b1; b2] ++ p').
  rewrite !Forall_cons_iff in Hd; destruct Hd as (? & Hb1 & Hb2 & _).
  rewrite Uint16_app by done. pose proof (PutUint16_get b1 b2 Hb1 Hb2) as Hput.
  destruct (Z.ltb_spec MaxPayload (Uint16 [b1; b2])) as [|Hle]; [done|].
  destruct (Z.eqb_spec (Uint16 [b1; b2]) (len (b0 :: b1 :: b2 :: p') - 3)) as [E|]; [|done].
  intros [= <- <-]. change (from _ 3) with p'. rewrite !len_cons in E.
  rewrite serializeFrame_eq. replace (len p') with (Uint16 [b1; b2]) by lia.
  by rewrite Hput.
Qed.

(** A datagram parses to a frame exactly when it is the encoding of that
    frame; the declared length must match the datagram to the byte. *)
Theorem ParseDatagramFrame_iff d ft p :
  Forall is_byte d ->
  ParseDatagramFrame d = Ok (ft, p) <-> d = EncodeDatagram ft p /\ len p <= MaxPayload.
Proof.
  intros Hd; split; [by apply ParseDatagramFrame_Ok|]. intros [-> Hp]; clear Hd.
  pose proof (len_serializeFrame ft p) as Hs. pose proof (len_nonneg p).
  unfold ParseDatagramFrame, EncodeDatagram, FrameHeaderSize, MaxPayload in *.
  destruct (Z.ltb_spec (len (serializeFrame ft p)) 3); [lia|].
  rewrite Hs, serializeFrame_eq.
  change (from (ft :: PutUint16 (len p) ++ p) 1) with (PutUint16 (len p) ++ p).
  rewrite Uint16_put, wrap_small by lia.
  destruct (Z.ltb_spec 65535 (len p)); [lia|].
  replace (len p =? 3 + len p - 3) with true by (symmetry; apply Z.eqb_eq; lia). done.
Qed.

Lemma ParseDatagramFrame_iff_witness :
  ParseDatagramFrame [32; 0; 1; 200] = Ok (32, [200]) /\
  ParseDatagramFrame [32; 0; 2; 200] = Err ErrLengthMismatch.
Proof.
  split; [|reflexivity].
  apply (ParseDatagramFrame_iff [32; 0; 1; 200] 32 [200]).
  - solve_bytes; unfold is_byte; lia.
  - split; [reflexivity|vm_compute; discriminate].
Defined.

Lemma DecodeStripeAttach_Ok payload id seq sid :
  Forall is_byte payload -> DecodeStripeAttach payload = Ok (id, seq, sid) ->
  EncodeStripeAttach id seq sid = Ok payload /\ is_uint 16 seq /\ is_uint 32 sid.
Proof.
  intros Hp. unfold DecodeStripeAttach.
  destruct (Z.ltb_spec (len payload) (1 + 2 + 4)) as [|H7]; [done|].
  destruct payload as [|b0 body]; [rewrite len_nil in H7; lia|].
  rewrite len_cons in *. rewrite byte_at_cons_0.
  apply Forall_cons_iff in Hp as [Hb0 Hbody].
  destruct (Z.eqb_spec b0 0) as [|Hn0]; [done|].
  destruct (Z.eqb_spec (1 + b0 + 2 + 4) (1 + len body)) as [Hlen|]; [|done]. simpl.
  intros [= <- <- <-]. unfold is_byte in Hb0.
  remember (Z.to_nat b0) as n eqn:Hn.
  assert (exists i s t, body = i ++ s ++ t /\ length i = n /\ length s = 2%nat /\ length t = 4%nat)
    as (i & s & t & -> & Hi & Hs & Ht).
  { exists (take n body), (take 2 (drop n body)), (drop 2 (drop n body)).
    rewrite !take_drop. unfold len in *. rewrite !length_take, !length_drop.
    split; [done|lia]. }
  rewrite !Forall_app in Hbody. destruct Hbody as (Hbi & Hbs & Hbt).
  change (b0 :: i ++ s ++ t) with ([b0] ++ i ++ (s ++ t)).
  rewrite (sub_mid [b0] i (s ++ t)) by (unfold len; simpl; lia).
  rewrite (app_assoc [b0] i (s ++ t)), from_app by (rewrite len_app; unfold len; simpl; lia).
  rewrite (app_assoc ([b0] ++ i) s t), from_app by (rewrite !len_app; unfold len; simpl; lia).
  rewrite Uint16_app by (unfold len; lia).
  split; [|split; [apply Uint16_range; done|apply Uint32_range; done]].
  assert (PutUint16 (Uint16 s) = s) as Es.
  { destruct s as [|s0 [|s1 [|? ?]]]; try (simpl in Hs; lia).
    rewrite !Forall_cons_iff in Hbs. apply PutUint16_get; tauto. }
  assert (PutUint32 (Uint32 t) = t) as Et.
  { destruct t as [|t0 [|t1 [|t2 [|t3 [|? ?]]]]]; try (simpl in Ht; lia).
    rewrite !Forall_cons_iff in Hbt. apply PutUint32_get; tauto. }
  rewrite <- !app_assoc. unfold EncodeStripeAttach, maxStripeAttachNodeIDLen, len.
  destruct (Z.eqb_spec (Z.of_nat (length i)) 0); [lia|].
  destruct (Z.ltb_spec 255 (Z.of_nat (length i))); [lia|]. rewrite Es, Et. simpl.
  rewrite byte_of_small by (unfold is_byte; lia).
  by replace (Z.of_nat (length i)) with b0 by lia.
Qed.

Lemma DecodeStripeAttach_Encode id seq sid payload :
  is_uint 16 seq -> is_uint 32 sid -> EncodeStripeAttach id seq sid = Ok payload ->
  DecodeStripeAttach payload = Ok (id, seq, sid).
Proof.
  intros Hseq Hsid. unfold EncodeStripeAttach, maxStripeAttachNodeIDLen.
  pose proof (len_nonneg id). destruct (Z.eqb_spec (len id) 0); [done|].
  destruct (Z.ltb_spec 255 (len id)); [done|]. simpl. intros [= <-].
  match goal with |- context [id ++ ?x] => change x with (PutUint16 seq ++ PutUint32 sid) end.
  rewrite byte_of_small by (unfold is_byte; lia).
  unfold DecodeStripeAttach. rewrite byte_at_cons_0, len_cons, !len_app.
  change (len (PutUint16 seq)) with 2; change (len (PutUint32 sid)) with 4.
  destruct (Z.ltb_spec (1 + (len id + (2 + 4))) (1 + 2 + 4)); [lia|].
  destruct (Z.eqb_spec (len id) 0); [done|].
  destruct (Z.eqb_spec (1 + len id + 2 + 4) (1 + (len id + (2 + 4)))); [|lia]. cbn [orb negb].
  set (s2 := PutUint16 seq); set (t4 := PutUint32 sid).
  assert (sub (len id :: id ++ s2 ++ t4) 1 (1 + len id) = id) as ->
    by (apply (sub_mid [len id] id (s2 ++ t4)); done).
  assert (from (len id :: id ++ s2 ++ t4) (1 + len id) = s2 ++ t4) as ->
    by (apply (from_app (len id :: id) (s2 ++ t4)); by rewrite len_cons).
  assert (from (len id :: id ++ s2 ++ t4) (1 + len id + 2) = t4) as ->.
  { rewrite (app_assoc id). apply (from_app (len id :: id ++ s2) t4).
    rewrite len_cons, len_app. change (len s2) with 2. lia. }
  unfold s2, t4.
  rewrite Uint16_put, <- (app_nil_r (PutUint32 sid)), Uint32_put.
  by rewrite !wrap_small by (try apply Hseq; apply Hsid).
Qed.

(** The StripeAttach payload decodes to (nodeID, seq, stripeID) exactly
    when it is the encoding of that triple with the fields in range; in
    particular a session is bound to the node and incarnation the peer declared. *)
Theorem StripeAttach_iff payload id seq sid :
  Forall is_byte payload ->
  DecodeStripeAttach payload = Ok (id, seq, sid) <->
  EncodeStripeAttach id seq sid = Ok payload /\ is_uint 16 seq /\ is_uint 32 sid.
Proof.
  intros Hp; split; [by apply DecodeStripeAttach_Ok|].
  intros (H & Hs & Ht); by apply (DecodeStripeAttach_Encode id seq sid payload).
Qed.

Lemma StripeAttach_iff_witness :
  DecodeStripeAttach [2; 65; 66; 1; 2; 0; 0; 0; 9] = Ok ([65; 66], 258, 9).
Proof.
  apply (StripeAttach_iff [2; 65; 66; 1; 2; 0; 0; 0; 9] [65; 66] 258 9).
  - solve_bytes; unfold is_byte; lia.
  - split; [reflexivity|]. unfold is_uint; simpl; lia.
Defined.

(** [Read] of a [ReverseFramedConn] always returns (the loop runs at most
    once per frame still to arrive), never loses, duplicates or reorders
    application bytes, never lets a control frame's bytes through, and reports an
    error only when all the data that arrived has been delivered. *)
Theorem ReverseFramedConn_Read_stream c n :
  connOk c -> 0 < n ->
  exists c' r, connRead (S (length (incoming c))) c n = Some (c', r) /\
    connOk c' /\ outgoing c' = outgoing c /\
    match r with
    | Ok got => got <> [] /\ len got <= n /\ pending c = got ++ pending c'
    | Err _ => pending c = [] /\ incoming c' = []
    end.
Proof. intros; apply connRead_spec; auto. Qed.

Lemma ReverseFramedConn_Read_stream_witness :
  exists c' r,
    connRead 20 (NewReverseFramedConn ([1; 0; 0] ++ [5; 0; 3; 7; 8; 9] ++ [9; 0; 1; 1] ++ [5; 0; 1; 4])) 2
      = Some (c', r) /\ r = Ok [7; 8] /\ pending c' = [9; 4].
Proof.
  destruct (ReverseFramedConn_Read_stream
    (NewReverseFramedConn ([1; 0; 0] ++ [5; 0; 3; 7; 8; 9] ++ [9; 0; 1; 1] ++ [5; 0; 1; 4])) 2)
    as (c' & r & H & _).
  - split; vm_compute; discriminate.
  - lia.
  - exists c', r. vm_compute in H. injection H as <- <-. repeat split; vm_compute; reflexivity.
Defined.

(** What one side of a framed connection can do on its writing half. *)
Inductive SendOp := OpWrite (b : list Z) | OpHeartbeat.

Definition runSend (c : ReverseFramedConn) (op : SendOp) : ReverseFramedConn :=
  match op with
  | OpWrite b => fst (connWrite c b)
  | OpHeartbeat => heartbeatTick c
  end.

Definition sentData (op : SendOp) : list Z :=
  match op with
  | OpWrite b => if MaxPayload <? len b then [] else b
  | OpHeartbeat => []
  end.

(** The stream one side produces, frame by frame. *)
Definition sentFrames (op : SendOp) : list Frame :=
  match op with
  | OpWrite b => if MaxPayload <? len b then [] else [mkFrame FrameData b false]
  | OpHeartbeat => [mkFrame FrameHeartbeat [] false]
  end.

Lemma runSend_outgoing ops c :
  outgoing (foldl runSend c ops) =
  outgoing c ++ concat (map (fun f => serializeFrame (fType f) (fPayload f)) (flat_map sentFrames ops)).
Proof.
  revert c; induction ops as [|op ops IH]; intros c; simpl; [by rewrite app_nil_r|].
  rewrite IH, map_app, concat_app, app_assoc. f_equal. destruct op as [b|]; simpl.
  - unfold connWrite. rewrite WriteFrame_append.
    destruct (MaxPayload <? len b); simpl; by rewrite ?app_nil_r.
  - done.
Qed.

Lemma sentFrames_small ops :
  Forall (fun f => len (fPayload f) <= MaxPayload) (flat_map sentFrames ops).
Proof.
  induction ops as [|[b|] ops IH]; simpl; [constructor| |constructor; [done|done]].
  destruct (Z.ltb_spec MaxPayload (len b)); [done|]. constructor; [simpl; lia|done].
Qed.

(** Whatever interleaving of [Write] calls and heartbeats one side
    performs, the other side's [Read] stream is exactly the concatenation of the
    writes (a write above 65535 bytes is refused and contributes nothing). *)
Theorem reverse_framing_end_to_end ops c0 :
  outgoing c0 = [] ->
  pending (NewReverseFramedConn (outgoing (foldl runSend c0 ops))) = concat (map sentData ops).
Proof.
  intros H0. rewrite runSend_outgoing, H0. simpl.
  unfold pending, dataOf; simpl. rewrite <- (app_nil_r (concat (map _ (flat_map _ _)))).
  rewrite streamFrames_concat by apply sentFrames_small.
  rewrite app_nil_r. clear. induction ops as [|[b|] ops IH]; [done| |done].
  cbn [flat_map map sentFrames sentData concat].
  destruct (MaxPayload <? len b); [done|]. simpl. by rewrite IH.
Qed.

Lemma reverse_framing_end_to_end_witness :
  pending (NewReverseFramedConn (outgoing
    (foldl runSend (NewReverseFramedConn []) [OpWrite [1; 2]; OpHeartbeat; OpWrite []; OpWrite [3]])))
  = [1; 2; 3].
Proof.
  rewrite (reverse_framing_end_to_end
    [OpWrite [1; 2]; OpHeartbeat; OpWrite []; OpWrite [3]] (NewReverseFramedConn [])); reflexivity.
Defined.
