(* ===== verification/Transport.v ===== *)
(** The interface FrameTransport of src/frame/transport.go: what a frame transport
    offers ([FrameTransport]), what its users rely on ([CarriesFrames]), and the
    stream transport of [Frame] as an instance of both. *)

From Stdlib Require Import ZArith Lia.
From stdpp Require Import base list numbers.
From S2P Require Import Prelude Frame.
Open Scope Z_scope.

(** ** What a transport promises its users *)

Class FrameTransport (B : Type) := {
  tSend : B -> Z -> list Z -> bool -> B * result FrameError unit;
  tSendBatch : B -> list Frame -> B * result FrameError unit
}.

(** A successful send adds the frames, in order, to what the transport carries.
    [framed] are the states in which the carrier is at a frame boundary. *)
Class CarriesFrames (B : Type) `{FrameTransport B} := {
  framed : B -> Prop;
  carried : B -> list (Z * list Z);
  carried_Send b ft p ctl b' :
    framed b -> tSend b ft p ctl = (b', Ok tt) ->
    framed b' /\ carried b' = carried b ++ [(ft, p)];
  carried_SendBatch b fs b' :
    framed b -> tSendBatch b fs = (b', Ok tt) ->
    framed b' /\ carried b' = carried b ++ map (fun f => (fType f, fPayload f)) fs
}.

(** The stream transport over a connection's [Write]. *)
Definition streamTransport {W} (Write : W -> list Z -> W * (Z * bool)) (isTCP : bool)
  : FrameTransport W :=
  {| tSend := Send Write isTCP; tSendBatch := SendBatch Write isTCP |}.

(** The stream transport over a connection that takes everything, as the bytes
    sent so far, carries the frames that the receiver will read from those bytes. *)
Definition wholeFrames (w : list Z) : Prop :=
  exists fs, Forall (fun f => len (fPayload f) <= MaxPayload) fs /\
    w = concat (map (fun f => serializeFrame (fType f) (fPayload f)) fs).

Lemma streamFrames_app w fs :
  wholeFrames w -> Forall (fun f => len (fPayload f) <= MaxPayload) fs ->
  let w' := w ++ concat (map (fun f => serializeFrame (fType f) (fPayload f)) fs) in
  wholeFrames w' /\ streamFrames w' = streamFrames w ++ map (fun f => (fType f, fPayload f)) fs.
Proof.
  intros (gs & Hgs & ->) Hfs w'. subst w'. split.
  - exists (gs ++ fs). split; [by apply Forall_app|]. by rewrite map_app, concat_app.
  - rewrite streamFrames_concat by done.
    rewrite <- (app_nil_r (concat (map _ gs))), <- (app_nil_r (concat (map _ fs))).
    rewrite !streamFrames_concat by done. by rewrite !app_nil_r.
Qed.

#[export] Instance stream_FrameTransport : FrameTransport (list Z) := streamTransport appendWrite true.

#[export] Program Instance stream_CarriesFrames : CarriesFrames (list Z) :=
  {| framed := wholeFrames; carried := streamFrames |}.
Next Obligation.
  intros b ft p ctl b' Hb. unfold tSend; simpl. rewrite Send_append.
  destruct (Z.ltb_spec MaxPayload (len p)); [done|]. intros [= <-].
  destruct (streamFrames_app b [mkFrame ft p ctl] Hb) as [H1 H2]; [by repeat constructor|].
  simpl in H1, H2. by rewrite app_nil_r in H1, H2.
Qed.
Next Obligation.
  intros b fs b' Hb. unfold tSendBatch; simpl. rewrite SendBatch_append.
  destruct (existsb _ fs) eqn:E; [done|]. intros [= <-].
  apply streamFrames_app; [done|]. by apply existsb_too_large.
Qed.

