(* ===== verification/UdpLeg.v ===== *)
(** The UDP leg of a P2P link: the per-session state machine of
    src/p2p/udp_leg.go and the port registry of src/p2p/udp_leg_registry.go.

    The machine is pure: it is fed events (gossip, dial results, data sent,
    datagrams received, the one-second tick, the configuration switch) and
    returns the actions its manager must carry out.  [fsmStep] is one event and
    [fsmReach] the states a session can be in; the invariant and the routing
    guarantees are proved over them. *)

From Stdlib Require Import ZArith Lia.
From stdpp Require Import base list numbers gmap.
From S2P Require Import Prelude.
Open Scope Z_scope.

(** ** The state machine *)

Inductive udpLegPhase :=
| udpLegNone | udpLegAdvertising | udpLegChannel | udpLegNegotiated
| udpLegPending | udpLegActive | udpLegBackoff.

#[global] Instance udpLegPhase_eq_dec : EqDecision udpLegPhase.
Proof. solve_decision. Defined.

Inductive udpLegAction :=
| legActNone | legActStartAdvertise | legActStopAdvertise | legActDialChannel
| legActCloseChannel | legActAllocatePort | legActUnregisterPort.

#[global] Instance udpLegAction_eq_dec : EqDecision udpLegAction.
Proof. solve_decision. Defined.

Record udpLegTimings := mkTimings { refluxTimeout : Duration; backoff : Duration }.

Definition defaultUDPLegTimings : udpLegTimings := mkTimings (10 * Second) (60 * Second).

(** A UDP socket address; [None] is a nil [net.Addr]. *)
Record Addr := mkAddr { addrIP : Z; addrPort : Z }.

Record udpLegFSM := mkFSM {
  active : bool;
  enabled : bool;
  timings : udpLegTimings;
  phase : udpLegPhase;
  peerCapable : bool;
  peerPort : Z;
  localPort : Z;
  channelReady : bool;
  sawUDPInbound : bool;
  peerAddr : option Addr;
  refluxDeadline : Time;
  backoffUntil : Time
}.

(** Field updates, one per assignment the code makes. *)
Definition setPhase (f : udpLegFSM) (p : udpLegPhase) : udpLegFSM :=
  mkFSM (active f) (enabled f) (timings f) p (peerCapable f) (peerPort f) (localPort f)
    (channelReady f) (sawUDPInbound f) (peerAddr f) (refluxDeadline f) (backoffUntil f).
Definition setPeerCapable (f : udpLegFSM) (b : bool) : udpLegFSM :=
  mkFSM (active f) (enabled f) (timings f) (phase f) b (peerPort f) (localPort f)
    (channelReady f) (sawUDPInbound f) (peerAddr f) (refluxDeadline f) (backoffUntil f).
Definition setPeerPort (f : udpLegFSM) (p : Z) : udpLegFSM :=
  mkFSM (active f) (enabled f) (timings f) (phase f) (peerCapable f) p (localPort f)
    (channelReady f) (sawUDPInbound f) (peerAddr f) (refluxDeadline f) (backoffUntil f).
Definition setLocalPort (f : udpLegFSM) (p : Z) : udpLegFSM :=
  mkFSM (active f) (enabled f) (timings f) (phase f) (peerCapable f) (peerPort f) p
    (channelReady f) (sawUDPInbound f) (peerAddr f) (refluxDeadline f) (backoffUntil f).
Definition setChannelReady (f : udpLegFSM) (b : bool) : udpLegFSM :=
  mkFSM (active f) (enabled f) (timings f) (phase f) (peerCapable f) (peerPort f) (localPort f)
    b (sawUDPInbound f) (peerAddr f) (refluxDeadline f) (backoffUntil f).
Definition setInbound (f : udpLegFSM) (saw : bool) (a : option Addr) : udpLegFSM :=
  mkFSM (active f) (enabled f) (timings f) (phase f) (peerCapable f) (peerPort f) (localPort f)
    (channelReady f) saw a (refluxDeadline f) (backoffUntil f).
Definition setRefluxDeadline (f : udpLegFSM) (t : Time) : udpLegFSM :=
  mkFSM (active f) (enabled f) (timings f) (phase f) (peerCapable f) (peerPort f) (localPort f)
    (channelReady f) (sawUDPInbound f) (peerAddr f) t (backoffUntil f).
Definition setBackoffUntil (f : udpLegFSM) (t : Time) : udpLegFSM :=
  mkFSM (active f) (enabled f) (timings f) (phase f) (peerCapable f) (peerPort f) (localPort f)
    (channelReady f) (sawUDPInbound f) (peerAddr f) (refluxDeadline f) t.
Definition setEnabledFlag (f : udpLegFSM) (b : bool) : udpLegFSM :=
  mkFSM (active f) b (timings f) (phase f) (peerCapable f) (peerPort f) (localPort f)
    (channelReady f) (sawUDPInbound f) (peerAddr f) (refluxDeadline f) (backoffUntil f).

Definition newUDPLegFSM (act en : bool) (t : udpLegTimings) : udpLegFSM :=
  let k := if refluxTimeout t <=? 0 then refluxTimeout defaultUDPLegTimings else refluxTimeout t in
  let r := if backoff t <=? 0 then backoff defaultUDPLegTimings else backoff t in
  mkFSM act en (mkTimings k r) udpLegNone false 0 0 false false None zero_time zero_time.

Definition ShouldAdvertise (f : udpLegFSM) : bool :=
  match phase f with
  | udpLegAdvertising | udpLegChannel | udpLegNegotiated | udpLegPending | udpLegActive => true
  | _ => false
  end.

Definition AdvertisePort (f : udpLegFSM) : Z * bool :=
  if active f || (localPort f =? 0) then (0, false)
  else match phase f with
       | udpLegAdvertising | udpLegActive => (localPort f, true)
       | _ => (0, false)
       end.

Definition SendPort (f : udpLegFSM) : Z * bool :=
  if negb (active f) || (peerPort f =? 0) then (0, false)
  else match phase f with
       | udpLegNegotiated | udpLegPending | udpLegActive => (peerPort f, true)
       | _ => (0, false)
       end.

Definition RouteDataViaUDP (f : udpLegFSM) : bool :=
  if negb (active f)
  then bool_decide (phase f = udpLegActive) && bool_decide (peerAddr f <> None)
  else snd (SendPort f).

Definition RouteProbeViaUDP (f : udpLegFSM) : bool :=
  if active f then
    if peerPort f =? 0 then false
    else bool_decide (phase f = udpLegPending) || bool_decide (phase f = udpLegActive)
  else bool_decide (phase f = udpLegActive) && bool_decide (peerAddr f <> None).

Definition SetLocalPort (f : udpLegFSM) (port : Z) : udpLegFSM :=
  if negb (active f) then setLocalPort f port else f.

Definition enterAdvertising (f : udpLegFSM) (now : Time) : udpLegFSM * list udpLegAction :=
  let f := setPhase f udpLegAdvertising in
  if active f then (f, [legActStartAdvertise; legActDialChannel])
  else (f, [legActStartAdvertise; legActAllocatePort]).

Definition withdraw (f : udpLegFSM) : udpLegFSM * list udpLegAction :=
  let acts := if ShouldAdvertise f then [legActStopAdvertise] else [] in
  let '(f, acts) :=
    if channelReady f then (setChannelReady f false, acts ++ [legActCloseChannel]) else (f, acts) in
  let '(f, acts) :=
    if negb (active f) && negb (localPort f =? 0)
    then (setLocalPort f 0, acts ++ [legActUnregisterPort]) else (f, acts) in
  let f := setPeerPort f 0 in
  let f := setInbound f false None in
  let f := setRefluxDeadline f zero_time in
  (setPhase f udpLegNone, acts).

Definition fallback (f : udpLegFSM) (now : Time) : udpLegFSM * list udpLegAction :=
  let '(f, acts) := withdraw f in
  let f := setPhase f udpLegBackoff in
  (setBackoffUntil f (now + backoff (timings f)), acts).

Definition SetEnabled (f : udpLegFSM) (now : Time) (en : bool) : udpLegFSM * list udpLegAction :=
  if Bool.eqb (enabled f) en then (f, [])
  else
    let f := setEnabledFlag f en in
    if negb en then withdraw f else (f, []).

Definition OnGossip (f : udpLegFSM) (now : Time) (peerUDP : bool) (port : Z)
  : udpLegFSM * list udpLegAction :=
  if negb (enabled f) then (f, [])
  else if negb peerUDP then
    let f := setPeerCapable f false in
    if active f then (setPeerPort f 0, [])
    else match phase f with
         | udpLegNone | udpLegBackoff => (f, [])
         | _ => withdraw f
         end
  else
    let f := setPeerCapable f true in
    if active f then
      let f :=
        if 0 <? port then
          let f := setPeerPort f port in
          match phase f with udpLegChannel => setPhase f udpLegNegotiated | _ => f end
        else f in
      match phase f with udpLegNone => enterAdvertising f now | _ => (f, []) end
    else
      match phase f with udpLegNone => enterAdvertising f now | _ => (f, []) end.

Definition OnChannelResult (f : udpLegFSM) (now : Time) (ok : bool) : udpLegFSM * list udpLegAction :=
  if negb (active f) || negb ok then (f, [])
  else match phase f with
       | udpLegAdvertising | udpLegChannel =>
           let f := setPhase (setChannelReady f true) udpLegChannel in
           ((if 0 <? peerPort f then setPhase f udpLegNegotiated else f), [])
       | _ => (f, [])
       end.

Definition OnDataSent (f : udpLegFSM) (now : Time) : udpLegFSM :=
  match phase f with
  | udpLegNegotiated =>
      setRefluxDeadline (setPhase f udpLegPending) (now + refluxTimeout (timings f))
  | _ => f
  end.

Definition OnUDPInbound (f : udpLegFSM) (now : Time) (addr : option Addr)
  : udpLegFSM * list udpLegAction :=
  let accept :=
    match phase f with
    | udpLegNone | udpLegBackoff => false
    | udpLegAdvertising => negb (active f)
    | udpLegPending | udpLegActive => true
    | _ => false
    end in
  if accept then
    let f := setInbound f true addr in
    let f := setPhase f udpLegActive in
    (setRefluxDeadline f (now + refluxTimeout (timings f)), [])
  else (f, []).

Definition Tick (f : udpLegFSM) (now : Time) : udpLegFSM * list udpLegAction :=
  match phase f with
  | udpLegPending | udpLegActive =>
      if negb (IsZero (refluxDeadline f)) && negb (now <? refluxDeadline f)
      then fallback f now else (f, [])
  | udpLegBackoff =>
      if now <? backoffUntil f then (f, [])
      else if negb (enabled f) || (negb (active f) && negb (peerCapable f))
      then (setPhase f udpLegNone, [])
      else enterAdvertising f now
  | udpLegNone =>
      if enabled f && (active f || peerCapable f) then enterAdvertising f now else (f, [])
  | _ => (f, [])
  end.

(** ** Sessions: sequences of events *)

Inductive legEvent :=
| EvLocalPort (port : Z)
| EvEnabled (now : Time) (en : bool)
| EvGossip (now : Time) (peerUDP : bool) (port : Z)
| EvChannel (now : Time) (ok : bool)
| EvDataSent (now : Time)
| EvInbound (now : Time) (addr : Addr)
| EvTick (now : Time).

Definition legApply (f : udpLegFSM) (e : legEvent) : udpLegFSM * list udpLegAction :=
  match e with
  | EvLocalPort port => (SetLocalPort f port, [])
  | EvEnabled now en => SetEnabled f now en
  | EvGossip now u port => OnGossip f now u port
  | EvChannel now ok => OnChannelResult f now ok
  | EvDataSent now => (OnDataSent f now, [])
  | EvInbound now addr => OnUDPInbound f now (Some addr)
  | EvTick now => Tick f now
  end.

Definition eventNow (e : legEvent) : option Time :=
  match e with
  | EvLocalPort _ => None
  | EvEnabled n _ | EvGossip n _ _ | EvChannel n _ | EvDataSent n | EvInbound n _ | EvTick n => Some n
  end.

(** The wall clock never reads the zero [Time] or earlier. *)
Definition eventOk (e : legEvent) : Prop :=
  match eventNow e with Some n => 0 < n | None => True end.

Inductive fsmReach (act en : bool) (t : udpLegTimings) : udpLegFSM -> Prop :=
| reach_new : fsmReach act en t (newUDPLegFSM act en t)
| reach_step f e : fsmReach act en t f -> eventOk e -> fsmReach act en t (fst (legApply f e)).

(** ** The invariant of a session *)

Definition passivePhase (p : udpLegPhase) : bool :=
  match p with
  | udpLegNone | udpLegAdvertising | udpLegActive | udpLegBackoff => true
  | _ => false
  end.

(** Phases in which the active side holds an open UDP channel. *)
Definition channelPhase (p : udpLegPhase) : bool :=
  match p with
  | udpLegChannel | udpLegNegotiated | udpLegPending | udpLegActive => true
  | _ => false
  end.

Definition isActivePhase (p : udpLegPhase) : bool :=
  match p with udpLegActive => true | _ => false end.

(** Phases with a running reflux timer. *)
Definition timedPhase (p : udpLegPhase) : bool :=
  match p with udpLegPending | udpLegActive => true | _ => false end.

Record legInv (f : udpLegFSM) : Prop := {
  inv_timings : 0 < refluxTimeout (timings f) /\ 0 < backoff (timings f);
  inv_enabled : enabled f = false -> phase f = udpLegNone;
  inv_ports : 0 <= peerPort f;
  inv_role : if active f then localPort f = 0
             else peerPort f = 0 /\ passivePhase (phase f) = true;
  inv_capable : if active f then True
                else ShouldAdvertise f = true -> peerCapable f = true;
  inv_channel : channelReady f = active f && channelPhase (phase f);
  inv_inbound : sawUDPInbound f = isActivePhase (phase f);
  inv_addr : match peerAddr f with Some _ => true | None => false end = isActivePhase (phase f);
  inv_deadline : if timedPhase (phase f) then 0 < refluxDeadline f else True
}.

(** Unfolds the operations of the machine on a concrete state. *)
Ltac leg_unfold :=
  unfold legApply, SetEnabled, OnGossip, OnChannelResult, OnDataSent, OnUDPInbound, Tick,
    SetLocalPort, fallback, withdraw, enterAdvertising, ShouldAdvertise, IsZero,
    setPhase, setPeerCapable, setPeerPort, setLocalPort, setChannelReady, setInbound,
    setRefluxDeadline, setBackoffUntil, setEnabledFlag;
  simpl.

(** Splits the conditionals the operations branch on. *)
Ltac leg_cases :=
  repeat (match goal with
  | |- context [if ?b then _ else _] => destruct b eqn:?
  end; simpl).

(** Computes [E : legApply f e = (f', acts)] on every branch. *)
Ltac leg_run E :=
  unfold legApply, SetEnabled, OnGossip, OnChannelResult, OnDataSent, OnUDPInbound, Tick,
    SetLocalPort, fallback, withdraw, enterAdvertising, ShouldAdvertise, IsZero,
    setPhase, setPeerCapable, setPeerPort, setLocalPort, setChannelReady, setInbound,
    setRefluxDeadline, setBackoffUntil, setEnabledFlag in E; simpl in E;
  repeat (match type of E with context [if ?b then _ else _] => destruct b eqn:? end; simpl in E);
  injection E as <- <-.

(** Case analysis of a state that satisfies the invariant: every field the phase
    and the role determine is replaced by its value. *)
Ltac leg_destruct f Hinv :=
  destruct Hinv as [Ht He Hp Hrole Hc Hch Hi Ha Hd];
  destruct f as [fact fen tm ph cap pp lp rdy saw pa rd bu];
  unfold ShouldAdvertise in *; simpl in *; destruct ph, fact; simpl in *;
  repeat match goal with H : _ /\ _ |- _ => destruct H end; try done;
  destruct pa as [?addr|]; try done; subst;
  try (destruct fen; [clear He | try discriminate (He eq_refl)]).

Ltac leg_solve := first [ done | lia | by destruct_and?; simplify_eq | intros; simplify_eq; auto; lia ].

Lemma legInv_new act en t : legInv (newUDPLegFSM act en t).
Proof.
  unfold newUDPLegFSM; constructor; simpl; try (by destruct act).
  unfold Second. destruct (Z.leb_spec (refluxTimeout t) 0), (Z.leb_spec (backoff t) 0); lia.
Qed.

Lemma legInv_step f e : legInv f -> eventOk e -> legInv (fst (legApply f e)).
Proof.
  intros Hinv Hok. destruct (legApply f e) as [f' acts] eqn:E. simpl.
  leg_destruct f Hinv;
    destruct e as [port|now en'|now u port|now ok|now|now addr'|now];
    unfold eventOk in Hok; simpl in Hok; leg_run E; constructor; simpl; try assumption;
    try leg_solve; destruct cap; leg_solve.
Qed.

Lemma legInv_reach act en t f : fsmReach act en t f -> legInv f.
Proof. induction 1; [apply legInv_new | by apply legInv_step]. Qed.

Definition actCode (a : udpLegAction) : nat :=
  match a with
  | legActNone => 0 | legActStartAdvertise => 1 | legActStopAdvertise => 2
  | legActDialChannel => 3 | legActCloseChannel => 4 | legActAllocatePort => 5
  | legActUnregisterPort => 6
  end.

Definition InAct (a : udpLegAction) (acts : list udpLegAction) : bool :=
  existsb (fun b => Nat.eqb (actCode a) (actCode b)) acts.

(** The actions an event must emit, from the states before and after it. *)
Definition expectedActions (f f' : udpLegFSM) (acts : list udpLegAction) : Prop :=
  InAct legActStartAdvertise acts = negb (ShouldAdvertise f) && ShouldAdvertise f' /\
  InAct legActStopAdvertise acts = ShouldAdvertise f && negb (ShouldAdvertise f') /\
  InAct legActCloseChannel acts = channelReady f && negb (channelReady f') /\
  InAct legActDialChannel acts = active f && negb (ShouldAdvertise f) && ShouldAdvertise f' /\
  InAct legActAllocatePort acts = negb (active f) && negb (ShouldAdvertise f) && ShouldAdvertise f' /\
  (InAct legActUnregisterPort acts = true -> localPort f <> 0 /\ localPort f' = 0).

(** The trace of a session: the state after a list of events. *)
Definition legRun (f : udpLegFSM) (es : list legEvent) : udpLegFSM :=
  foldl (fun f e => fst (legApply f e)) f es.

Lemma legRun_cons f e es : legRun f (e :: es) = legRun (fst (legApply f e)) es.
Proof. done. Qed.

Lemma fsmReach_run act en t f es :
  fsmReach act en t f -> Forall eventOk es -> fsmReach act en t (legRun f es).
Proof.
  intros Hf Hes; revert f Hf; induction Hes as [|e es He Hes IH]; intros f Hf; [done|].
  apply IH. by apply reach_step.
Qed.

(** ** Properties of a session *)

(** C2: every state a session can reach satisfies the invariant: a disabled leg
    is idle; the passive side never holds a channel or a peer port and is in one
    of its four phases, advertising only while the peer does; the active side has
    a channel exactly in the phases that need one; an address and the inbound flag
    are held exactly while active; a pending or active leg has a running deadline. *)
Theorem udpLeg_invariant act en t f : fsmReach act en t f -> legInv f.
Proof. apply legInv_reach. Qed.

Lemma udpLeg_invariant_witness :
  legInv (legRun (newUDPLegFSM true true (mkTimings 0 0))
            [EvGossip 1 true 40000; EvChannel 2 true; EvDataSent 3; EvInbound 4 (mkAddr 0 40000)]).
Proof.
  apply (udpLeg_invariant true true (mkTimings 0 0)).
  apply fsmReach_run; [apply reach_new|].
  repeat constructor; unfold eventOk; simpl; lia.
Defined.

(** The actions returned for an event are exactly the edges of what the
    session holds: advertising starts and stops are emitted when gossip must
    change and only then, a channel is closed exactly when it is given up, a dial
    (active side) or a port allocation (passive side) accompanies each start of
    advertising, and a port is unregistered only when one was held. *)
Theorem udpLeg_actions_exact f e :
  legInv f -> eventOk e ->
  expectedActions f (fst (legApply f e)) (snd (legApply f e)).
Proof.
  intros Hinv _. destruct (legApply f e) as [f' acts] eqn:E. simpl.
  leg_destruct f Hinv;
    destruct e as [port|now en'|now u port|now ok|now|now addr'|now]; leg_run E;
    repeat split; try done; intros; simpl in *; lia.
Qed.

Lemma udpLeg_actions_exact_witness :
  snd (legApply (newUDPLegFSM false true (mkTimings 0 0)) (EvGossip 5 true 0))
    = [legActStartAdvertise; legActAllocatePort] /\
  expectedActions (newUDPLegFSM false true (mkTimings 0 0))
    (fst (legApply (newUDPLegFSM false true (mkTimings 0 0)) (EvGossip 5 true 0)))
    (snd (legApply (newUDPLegFSM false true (mkTimings 0 0)) (EvGossip 5 true 0))).
Proof.
  split; [reflexivity|].
  apply (udpLeg_actions_exact (newUDPLegFSM false true (mkTimings 0 0)) (EvGossip 5 true 0)).
  - apply legInv_new.
  - unfold eventOk; simpl; lia.
Defined.

(** C12: data leaves TCP only on a path that is negotiated and, on the passive
    side, proven: the active side needs an open channel and the peer's declared
    port, the passive side the peer's current declaration and a datagram actually
    received; probes take the UDP path only where data does. *)
Theorem udpLeg_routing_safe act en t f :
  fsmReach act en t f -> RouteDataViaUDP f = true ->
  enabled f = true /\ ShouldAdvertise f = true /\
  (if active f
   then channelReady f = true /\ 0 < peerPort f /\ SendPort f = (peerPort f, true)
   else peerCapable f = true /\ sawUDPInbound f = true /\ peerAddr f <> None /\ SendPort f = (0, false)).
Proof.
  intros Hreach Hroute. pose proof (legInv_reach _ _ _ _ Hreach) as Hinv.
  leg_destruct f Hinv; unfold RouteDataViaUDP, SendPort in *; simpl in *; try done;
    try (destruct (Z.eqb_spec pp 0); [done|]; repeat split; try done; lia).
  repeat split; try done. by apply Hc.
Qed.

Lemma udpLeg_routing_safe_witness :
  RouteDataViaUDP (legRun (newUDPLegFSM false true (mkTimings 0 0))
     [EvGossip 1 true 0; EvLocalPort 40000; EvInbound 4 (mkAddr 7 9)]) = true /\
  peerCapable (legRun (newUDPLegFSM false true (mkTimings 0 0))
     [EvGossip 1 true 0; EvLocalPort 40000; EvInbound 4 (mkAddr 7 9)]) = true.
Proof.
  split; [reflexivity|].
  apply (udpLeg_routing_safe false true (mkTimings 0 0)
           (legRun (newUDPLegFSM false true (mkTimings 0 0))
              [EvGossip 1 true 0; EvLocalPort 40000; EvInbound 4 (mkAddr 7 9)])).
  - apply fsmReach_run; [apply reach_new|]. repeat constructor; unfold eventOk; simpl; lia.
  - reflexivity.
Defined.

(** A leg that carries data over a path it is still waiting to hear from. *)
Lemma Tick_expired f now :
  legInv f -> timedPhase (phase f) = true -> refluxDeadline f <= now ->
  phase (fst (Tick f now)) = udpLegBackoff /\
  backoffUntil (fst (Tick f now)) = now + backoff (timings f) /\
  RouteDataViaUDP (fst (Tick f now)) = false /\ RouteProbeViaUDP (fst (Tick f now)) = false.
Proof.
  intros Hinv Hph Hnow.
  leg_destruct f Hinv; unfold RouteDataViaUDP, RouteProbeViaUDP, SendPort;
    leg_unfold; destruct (Z.eqb_spec rd 0); try lia; destruct (Z.ltb_spec now rd); try lia;
    simpl; leg_cases; done.
Qed.

Lemma deadline_step f e :
  legInv f -> eventOk e -> timedPhase (phase f) = true ->
  match e with EvInbound _ _ => False | _ => True end ->
  let f' := fst (legApply f e) in
  timedPhase (phase f') = true -> refluxDeadline f' = refluxDeadline f.
Proof.
  intros _ _ Hph Hne; simpl. destruct (legApply f e) as [f' acts] eqn:E; simpl.
  destruct f as [act en tm ph cap pp lp rdy saw pa rd bu]; destruct ph; try done;
    destruct e; try done; leg_run E; done.
Qed.

(** C27: a leg that stops hearing from its peer returns to TCP within the
    reflux timeout: while no datagram arrives no other event postpones the
    deadline of a pending or active leg, and the first tick at or after the
    deadline withdraws the leg, so that neither data nor probes are routed over
    UDP, and starts the back-off. *)
Theorem udpLeg_silence_bounded f es now :
  legInv f -> Forall eventOk es -> 0 < now ->
  Forall (fun e => match e with EvInbound _ _ => False | _ => True end) es ->
  (forall k, timedPhase (phase (legRun f (take k es))) = true) ->
  refluxDeadline f <= now ->
  let f' := fst (Tick (legRun f es) now) in
  phase f' = udpLegBackoff /\ backoffUntil f' = now + backoff (timings (legRun f es)) /\
  RouteDataViaUDP f' = false /\ RouteProbeViaUDP f' = false.
Proof.
  intros Hinv Hes Hnow Hne Hph Hdl f'. subst f'.
  assert (legInv (legRun f es) /\ refluxDeadline (legRun f es) = refluxDeadline f) as [Hi Hd].
  { clear Hdl. revert f Hinv Hph. induction es as [|e es IH]; intros f Hinv Hph; [done|].
    apply Forall_cons_iff in Hes as [He Hes]. apply Forall_cons_iff in Hne as [Hn Hne].
    pose proof (legInv_step f e Hinv He) as Hinv'.
    destruct (IH Hes Hne (fst (legApply f e)) Hinv') as [H1 H2].
    { intros k. apply (Hph (S k)). }
    split; [done|]. rewrite <- (deadline_step f e Hinv He (Hph 0%nat) Hn); [done|].
    apply (Hph 1%nat). }
  apply Tick_expired; [done| |lia].
  rewrite <- (take_ge es (length es)) by lia. apply Hph.
Qed.

Lemma udpLeg_silence_bounded_witness :
  let f := legRun (newUDPLegFSM true true (mkTimings 10 20))
             [EvGossip 1 true 40000; EvChannel 2 true; EvDataSent 3] in
  RouteDataViaUDP f = true /\
  RouteDataViaUDP (fst (Tick (legRun f [EvGossip 5 true 40000; EvTick 7]) 13)) = false.
Proof.
  intros f. split; [reflexivity|].
  apply (udpLeg_silence_bounded f [EvGossip 5 true 40000; EvTick 7] 13).
  - apply (legInv_reach true true (mkTimings 10 20)).
    apply fsmReach_run; [apply reach_new|]. repeat constructor; unfold eventOk; simpl; lia.
  - repeat constructor; unfold eventOk; simpl; lia.
  - lia.
  - repeat constructor.
  - intros [|[|[|k]]]; reflexivity.
  - vm_compute. discriminate.
Defined.

(** A leg that fell back recovers: once the back-off has elapsed, a tick, a
    successful dial, the peer's port, one data frame and one datagram in return
    make the active side route over UDP again, from every reachable state. *)
Theorem udpLeg_recovers act en t f now port a :
  fsmReach act en t f -> active f = true -> enabled f = true -> phase f = udpLegBackoff ->
  backoffUntil f <= now -> 0 < now -> 0 < port ->
  let f' := legRun f [EvTick now; EvChannel (now + 1) true; EvGossip (now + 2) true port;
                      EvDataSent (now + 3); EvInbound (now + 4) a] in
  phase f' = udpLegActive /\ RouteDataViaUDP f' = true /\ SendPort f' = (port, true) /\
  refluxDeadline f' = now + 4 + refluxTimeout (timings f).
Proof.
  intros Hreach Hact Hen Hph Hb Hnow Hport.
  pose proof (inv_ports _ (legInv_reach _ _ _ _ Hreach)) as Hp. clear Hreach.
  destruct f as [fact fen tm ph cap pp lp rdy saw pa rd bu]; simpl in Hact, Hen, Hph, Hb, Hp; subst.
  cbv zeta. rewrite legRun_cons.
  assert (fst (legApply (mkFSM true true tm udpLegBackoff cap pp lp rdy saw pa rd bu) (EvTick now))
          = mkFSM true true tm udpLegAdvertising cap pp lp rdy saw pa rd bu) as ->.
  { leg_unfold. by destruct (Z.ltb_spec now bu); [lia|]. }
  rewrite legRun_cons.
  assert (exists p, fst (legApply (mkFSM true true tm udpLegAdvertising cap pp lp rdy saw pa rd bu)
                                  (EvChannel (now + 1) true))
          = mkFSM true true tm p cap pp lp true saw pa rd bu /\
          (p = udpLegChannel \/ p = udpLegNegotiated)) as (p & -> & Hph).
  { leg_unfold. destruct (0 <? pp); eauto. }
  rewrite legRun_cons.
  assert (fst (legApply (mkFSM true true tm p cap pp lp true saw pa rd bu) (EvGossip (now + 2) true port))
          = mkFSM true true tm udpLegNegotiated true port lp true saw pa rd bu) as ->.
  { leg_unfold. destruct (Z.ltb_spec 0 port); [|lia]. destruct Hph; by subst. }
  cbn. unfold RouteDataViaUDP, SendPort; cbn.
  destruct (Z.eqb_spec port 0); [lia|]. done.
Qed.

Lemma udpLeg_recovers_witness :
  let f := legRun (newUDPLegFSM true true (mkTimings 10 20))
             [EvGossip 1 true 40000; EvChannel 2 true; EvDataSent 3; EvTick 13] in
  phase f = udpLegBackoff /\
  phase (legRun f [EvTick 33; EvChannel 34 true; EvGossip 35 true 40001; EvDataSent 36;
                   EvInbound 37 (mkAddr 0 40001)]) = udpLegActive.
Proof.
  intros f. split; [reflexivity|].
  apply (udpLeg_recovers true true (mkTimings 10 20) f 33 40001 (mkAddr 0 40001));
    try (vm_compute; reflexivity || discriminate); try lia.
  apply fsmReach_run; [apply reach_new|]. repeat constructor; unfold eventOk; simpl; lia.
Defined.
