(* ===== verification/UdpLegTransport.v ===== *)
(** The UDP leg at work: the port registry of src/p2p/udp_leg_registry.go and
    the transport of src/p2p/udp_leg_transport.go, which overlays the leg on the
    permanent TCP transport.

    Endpoints are shared between the registry and the transport that allocated
    them, so they live in a heap and both hold its indices.  The TCP transport
    below is any instance of [FrameTransport]; what it promises is the class
    [CarriesFrames] of [Transport].  A handler
    with the actions it executes is one step; the dial goroutine is two (spawned,
    finished).  The network's answers (a failing WriteTo, a failing relay) are
    arguments. *)

From Stdlib Require Import ZArith Lia.
From stdpp Require Import base list numbers gmap.
From S2P Require Import Prelude Frame Transport UdpLeg.
Open Scope Z_scope.

(** ** Leg endpoints and their registry *)

(** The relay prints the client's address and [epPump] resolves it back. *)
Record udpLegInbound := mkInbound { datagram : list Z; srcAddr : Addr }.

(** [rp] is the identity of the bound return path. *)
Record udpLegEndpoint := mkEndpoint {
  port : Z;
  inboundCh : list udpLegInbound;
  epDone : bool;
  rp : option nat
}.

Definition inboundCap : Z := 512.

(** The delivery is dropped when the endpoint is closed or its queue full. *)
Definition deliver (ep : udpLegEndpoint) (dgram : list Z) (src : Addr) : udpLegEndpoint :=
  if epDone ep then ep
  else if len (inboundCh ep) <? inboundCap
  then mkEndpoint (port ep) (inboundCh ep ++ [mkInbound dgram src]) (epDone ep) (rp ep)
  else ep.

Definition bindReturnPath (ep : udpLegEndpoint) (r : nat) : udpLegEndpoint :=
  mkEndpoint (port ep) (inboundCh ep) (epDone ep) (Some r).

Definition clearReturnPath (ep : udpLegEndpoint) (r : nat) : udpLegEndpoint :=
  if decide (rp ep = Some r)
  then mkEndpoint (port ep) (inboundCh ep) (epDone ep) None else ep.

Definition epClose (ep : udpLegEndpoint) : udpLegEndpoint :=
  mkEndpoint (port ep) (inboundCh ep) true (rp ep).

Definition udpLegPortMin : Z := 40000.
Definition udpLegPortMax : Z := 40999.

(** The registry with the heap of endpoints it allocated. *)
Record udpLegRegistry := mkRegistry {
  ports : gmap Z nat;
  next : Z;
  heap : list udpLegEndpoint
}.

Definition newUDPLegRegistry : udpLegRegistry := mkRegistry ∅ udpLegPortMin [].

Definition advance (n : Z) : Z :=
  let n := n + 1 in if udpLegPortMax <? n then udpLegPortMin else n.

(** The loop of [allocate] with [i] turns left. *)
Fixpoint allocateLoop (i : nat) (r : udpLegRegistry) : udpLegRegistry * option nat :=
  match i with
  | O => (r, None)
  | S i' =>
      let p := next r in
      let r := mkRegistry (ports r) (advance (next r)) (heap r) in
      match ports r !! p with
      | Some _ => allocateLoop i' r
      | None =>
          let ep := length (heap r) in
          (mkRegistry (<[p := ep]> (ports r)) (next r) (heap r ++ [mkEndpoint p [] false None]),
           Some ep)
      end
  end.

Definition allocate (r : udpLegRegistry) : udpLegRegistry * option nat :=
  allocateLoop (Z.to_nat (udpLegPortMax - udpLegPortMin + 1)) r.

Definition lookup (r : udpLegRegistry) (p : Z) : option nat := ports r !! p.

Definition updateEp (r : udpLegRegistry) (i : nat) (f : udpLegEndpoint -> udpLegEndpoint)
  : udpLegRegistry := mkRegistry (ports r) (next r) (alter f i (heap r)).

Definition release (r : udpLegRegistry) (p : Z) : udpLegRegistry :=
  match ports r !! p with
  | Some i => updateEp (mkRegistry (delete p (ports r)) (next r) (heap r)) i epClose
  | None => r
  end.

Definition UDPLegDeliver (r : udpLegRegistry) (p : Z) (d : list Z) (src : Addr)
  : udpLegRegistry * bool :=
  match lookup r p with
  | None => (r, false)
  | Some i => (updateEp r i (fun ep => deliver ep d src), true)
  end.

(** [path] is the fresh return path; the endpoint is what the returned closure
    will unbind from. *)
Definition UDPLegBindReturnPath (r : udpLegRegistry) (p : Z) (path : nat)
  : udpLegRegistry * option nat :=
  match lookup r p with
  | None => (r, None)
  | Some i => (updateEp r i (fun ep => bindReturnPath ep path), Some i)
  end.

(** The registry's invariant: registered ports are in range and lead to an open
    endpoint of that port, and the cursor is in range. *)
Record regInv (r : udpLegRegistry) : Prop := {
  reg_next : udpLegPortMin <= next r <= udpLegPortMax;
  reg_port : forall p i, ports r !! p = Some i ->
    udpLegPortMin <= p <= udpLegPortMax /\
    exists ep, heap r !! i = Some ep /\ port ep = p /\ epDone ep = false
}.

Definition freePort (r : udpLegRegistry) (p : Z) : Prop :=
  udpLegPortMin <= p <= udpLegPortMax /\ ports r !! p = None.

(** [k] turns of the cursor. *)
Definition cursor (n : Z) (k : Z) : Z :=
  udpLegPortMin + (n - udpLegPortMin + k) mod (udpLegPortMax - udpLegPortMin + 1).

Lemma advance_range n :
  udpLegPortMin <= n <= udpLegPortMax -> udpLegPortMin <= advance n <= udpLegPortMax.
Proof. unfold advance, udpLegPortMin, udpLegPortMax. destruct (Z.ltb_spec 40999 (n + 1)); lia. Qed.

Lemma cursor_advance n k :
  udpLegPortMin <= n <= udpLegPortMax -> cursor (advance n) k = cursor n (k + 1).
Proof.
  unfold cursor, advance, udpLegPortMin, udpLegPortMax; intros H.
  destruct (Z.ltb_spec 40999 (n + 1)); f_equal.
  - replace n with 40999 by lia.
    replace (40999 - 40000 + (k + 1)) with (k + 1 * (40999 - 40000 + 1)) by lia.
    rewrite Z.mod_add by lia. f_equal; lia.
  - f_equal; lia.
Qed.

Lemma cursor_0 n : udpLegPortMin <= n <= udpLegPortMax -> cursor n 0 = n.
Proof. unfold cursor, udpLegPortMin, udpLegPortMax; intros. rewrite Z.mod_small; lia. Qed.

(** Every port is reached within one round of the cursor. *)
Lemma cursor_onto n p :
  udpLegPortMin <= n <= udpLegPortMax -> udpLegPortMin <= p <= udpLegPortMax ->
  exists k, 0 <= k < 1000 /\ cursor n k = p.
Proof.
  unfold cursor, udpLegPortMin, udpLegPortMax; intros Hn Hp.
  exists ((p - n) mod 1000). split; [apply Z.mod_pos_bound; lia|].
  change (40999 - 40000 + 1) with 1000. rewrite Zplus_mod_idemp_r.
  replace (n - 40000 + (p - n)) with (p - 40000) by lia. rewrite Z.mod_small; lia.
Qed.

(** The loop returns the first free port from the cursor on, if there is one. *)
Lemma allocateLoop_spec i r :
  regInv r ->
  match allocateLoop i r with
  | (r', Some ep) => exists p,
      freePort r p /\ ep = length (heap r) /\ ports r' = <[p := ep]> (ports r) /\
      heap r' = heap r ++ [mkEndpoint p [] false None] /\
      udpLegPortMin <= next r' <= udpLegPortMax
  | (r', None) =>
      ports r' = ports r /\ heap r' = heap r /\ udpLegPortMin <= next r' <= udpLegPortMax /\
      forall k, 0 <= k < Z.of_nat i -> ports r !! cursor (next r) k <> None
  end.
Proof.
  revert r; induction i as [|i IH]; intros r [Hn Hp]; simpl.
  { repeat split; try done; try lia. }
  destruct (ports r !! next r) as [j|] eqn:E.
  - specialize (IH (mkRegistry (ports r) (advance (next r)) (heap r))).
    simpl in IH. destruct (allocateLoop i _) as [r' [ep|]].
    + apply IH. constructor; simpl; [by apply advance_range | done].
    + destruct IH as (H1 & H2 & H3 & H4);
        [constructor; simpl; [by apply advance_range | done]|].
      repeat split; try done; try lia. intros k Hk.
      destruct (decide (k = 0)) as [->|]; [rewrite cursor_0 by done; congruence|].
      specialize (H4 (k - 1)). rewrite cursor_advance in H4 by done.
      replace (k - 1 + 1) with k in H4 by lia. apply H4; lia.
  - exists (next r). simpl. repeat split; try done; try lia; apply advance_range; lia.
Qed.

Lemma regInv_new : regInv newUDPLegRegistry.
Proof. constructor; simpl; [unfold udpLegPortMin, udpLegPortMax; lia | by intros ??; rewrite lookup_empty]. Qed.

Lemma regInv_allocate r : regInv r -> regInv (fst (allocate r)).
Proof.
  intros H. pose proof (allocateLoop_spec (Z.to_nat (udpLegPortMax - udpLegPortMin + 1)) r H) as S.
  unfold allocate. destruct (allocateLoop _ r) as [r' [ep|]]; simpl.
  - destruct S as (p & [Hr Hf] & -> & Hports & Hheap & Hn). constructor; [done|].
    intros q i. rewrite Hports, Hheap, lookup_insert_Some.
    intros [[<- <-]|[Hne Hl]].
    + split; [done|]. eexists. rewrite lookup_app_r, Nat.sub_diag by lia. done.
    + destruct (reg_port r H q i Hl) as [? (ep & He & ?)]. split; [done|].
      exists ep. by rewrite (lookup_app_l_Some _ _ _ _ He).
  - destruct S as (Hports & Hheap & Hn & _). constructor; [done|].
    rewrite Hports, Hheap. apply H.
Qed.

Lemma regInv_update r i f :
  regInv r -> (forall ep, port (f ep) = port ep /\ epDone (f ep) = epDone ep) ->
  regInv (updateEp r i f).
Proof.
  intros [Hn Hp] Hf. constructor; simpl; [done|]. intros p j Hj.
  destruct (Hp p j Hj) as [? (ep & He & ? & ?)]. split; [done|].
  destruct (decide (i = j)) as [->|].
  - exists (f ep). destruct (Hf ep) as [-> ->]. by rewrite list_lookup_alter, He, decide_True.
  - exists ep. by rewrite list_lookup_alter_ne.
Qed.

Lemma regInv_release r p : regInv r -> regInv (release r p).
Proof.
  intros Hinv. unfold release. destruct (ports r !! p) as [i|] eqn:E; [|done].
  destruct Hinv as [Hn Hp]. constructor; simpl; [done|].
  intros q j [Hne Hj]%lookup_delete_Some.
  destruct (Hp q j Hj) as [? (ep & He & Hport & ?)]. split; [done|].
  exists ep. rewrite list_lookup_alter_ne; [done|].
  intros ->. destruct (Hp p j E) as [_ (ep' & He' & ? & _)]. congruence.
Qed.

(** ** The transport *)

Definition maxLegDatagram : Z := 65507.
Definition udpLegDialRetry : Duration := 60 * Second.
Definition legChCap : Z := 256.

(** [pc] is the identity of the active side's packet connection, [ep] the heap
    index of the passive side's endpoint; [pcOut] and [rpOut] are the datagrams the
    packet connection and the return paths accepted, with their destinations;
    [notified] counts the calls of the state callback, [dials] the dial
    goroutines spawned, and [legCh] holds what [Recv] will return from the leg. *)
Record udpLegTransport (B : Type) := mkTransport {
  base : B;
  fsm : udpLegFSM;
  hasDialFn : bool;
  hasNotify : bool;
  pc : option nat;
  dialing : bool;
  lastDialAt : Time;
  ep : option nat;
  reg : udpLegRegistry;
  legDrops : Z;
  pcOut : list (Z * list Z);
  rpOut : list (nat * list Z);
  legCh : list (Z * list Z);
  notified : nat;
  dials : nat;
  closed : bool
}.
Arguments mkTransport {_}.
Arguments base {_}. Arguments fsm {_}. Arguments hasDialFn {_}. Arguments hasNotify {_}.
Arguments pc {_}. Arguments dialing {_}. Arguments lastDialAt {_}. Arguments ep {_}.
Arguments reg {_}. Arguments legDrops {_}. Arguments pcOut {_}. Arguments rpOut {_}.
Arguments legCh {_}. Arguments notified {_}. Arguments dials {_}. Arguments closed {_}.

Section Transport.
Context {B : Type} `{FrameTransport B}.
(** The network's answers: whether WriteTo on the packet connection, respectively
    the writer of a return path, reports an error for a datagram. *)
Variable pcFails : nat -> Z -> list Z -> bool.
Variable rpFails : nat -> list Z -> bool.

Implicit Types t : udpLegTransport B.

Definition withBase t b : udpLegTransport B :=
  mkTransport b (fsm t) (hasDialFn t) (hasNotify t) (pc t) (dialing t) (lastDialAt t) (ep t)
    (reg t) (legDrops t) (pcOut t) (rpOut t) (legCh t) (notified t) (dials t) (closed t).
Definition withFSM t f : udpLegTransport B :=
  mkTransport (base t) f (hasDialFn t) (hasNotify t) (pc t) (dialing t) (lastDialAt t) (ep t)
    (reg t) (legDrops t) (pcOut t) (rpOut t) (legCh t) (notified t) (dials t) (closed t).
Definition withPC t p : udpLegTransport B :=
  mkTransport (base t) (fsm t) (hasDialFn t) (hasNotify t) p (dialing t) (lastDialAt t) (ep t)
    (reg t) (legDrops t) (pcOut t) (rpOut t) (legCh t) (notified t) (dials t) (closed t).
Definition withDialing t d : udpLegTransport B :=
  mkTransport (base t) (fsm t) (hasDialFn t) (hasNotify t) (pc t) d (lastDialAt t) (ep t)
    (reg t) (legDrops t) (pcOut t) (rpOut t) (legCh t) (notified t) (dials t) (closed t).
Definition withDial t now : udpLegTransport B :=
  mkTransport (base t) (fsm t) (hasDialFn t) (hasNotify t) (pc t) true now (ep t)
    (reg t) (legDrops t) (pcOut t) (rpOut t) (legCh t) (notified t) (S (dials t)) (closed t).
Definition withEp t e r : udpLegTransport B :=
  mkTransport (base t) (fsm t) (hasDialFn t) (hasNotify t) (pc t) (dialing t) (lastDialAt t) e
    r (legDrops t) (pcOut t) (rpOut t) (legCh t) (notified t) (dials t) (closed t).
Definition addDrop t : udpLegTransport B :=
  mkTransport (base t) (fsm t) (hasDialFn t) (hasNotify t) (pc t) (dialing t) (lastDialAt t) (ep t)
    (reg t) (wrap 64 (legDrops t + 1)) (pcOut t) (rpOut t) (legCh t) (notified t) (dials t) (closed t).
Definition addPCOut t d : udpLegTransport B :=
  mkTransport (base t) (fsm t) (hasDialFn t) (hasNotify t) (pc t) (dialing t) (lastDialAt t) (ep t)
    (reg t) (legDrops t) (pcOut t ++ [d]) (rpOut t) (legCh t) (notified t) (dials t) (closed t).
Definition addRPOut t d : udpLegTransport B :=
  mkTransport (base t) (fsm t) (hasDialFn t) (hasNotify t) (pc t) (dialing t) (lastDialAt t) (ep t)
    (reg t) (legDrops t) (pcOut t) (rpOut t ++ [d]) (legCh t) (notified t) (dials t) (closed t).
Definition withLegCh t q : udpLegTransport B :=
  mkTransport (base t) (fsm t) (hasDialFn t) (hasNotify t) (pc t) (dialing t) (lastDialAt t) (ep t)
    (reg t) (legDrops t) (pcOut t) (rpOut t) q (notified t) (dials t) (closed t).
Definition addNotify t : udpLegTransport B :=
  mkTransport (base t) (fsm t) (hasDialFn t) (hasNotify t) (pc t) (dialing t) (lastDialAt t) (ep t)
    (reg t) (legDrops t) (pcOut t) (rpOut t) (legCh t) (S (notified t)) (dials t) (closed t).
Definition withClosed t : udpLegTransport B :=
  mkTransport (base t) (fsm t) (hasDialFn t) (hasNotify t) (pc t) (dialing t) (lastDialAt t) (ep t)
    (reg t) (legDrops t) (pcOut t) (rpOut t) (legCh t) (notified t) (dials t) true.

Definition newUDPLegTransport (b : B) (r : udpLegRegistry) (act hasDial : bool) : udpLegTransport B :=
  mkTransport b (newUDPLegFSM act true (mkTimings 0 0)) hasDial false None false zero_time None
    r 0 [] [] [] 0 0 false.

Definition SetStateNotify t (some : bool) : udpLegTransport B :=
  mkTransport (base t) (fsm t) (hasDialFn t) some (pc t) (dialing t) (lastDialAt t) (ep t)
    (reg t) (legDrops t) (pcOut t) (rpOut t) (legCh t) (notified t) (dials t) (closed t).

(** The base transport sends; its error is the result. *)
Definition baseSend t ft p ctl : udpLegTransport B * result FrameError unit :=
  let '(b, e) := tSend (base t) ft p ctl in (withBase t b, e).

(** An endpoint's [send]: an error when no return path is bound or it fails. *)
Definition epSend t (i : nat) (dgram : list Z) : udpLegTransport B :=
  match heap (reg t) !! i ≫= rp with
  | None => addDrop t
  | Some r => if rpFails r dgram then addDrop t else addRPOut t (r, dgram)
  end.

Definition writeLeg t (frameType : Z) (payload : list Z)
  : udpLegTransport B * result FrameError unit :=
  let dgram := EncodeDatagram frameType payload in
  if maxLegDatagram <? len dgram then baseSend t frameType payload false
  else if active (fsm t) then
    let '(p, ok) := SendPort (fsm t) in
    if negb ok then baseSend t frameType payload false
    else match pc t with
         | None => (t, Ok tt)
         | Some c =>
             if pcFails c p dgram then (addDrop t, Ok tt) else (addPCOut t (p, dgram), Ok tt)
         end
  else match ep t with
       | None => (t, Ok tt)
       | Some i => (epSend t i dgram, Ok tt)
       end.

Definition legSend t (now : Time) (frameType : Z) (payload : list Z) (isControl : bool)
  : udpLegTransport B * result FrameError unit :=
  if frameType =? FrameGossip then baseSend t frameType payload isControl
  else if (frameType =? FrameLinkPing) || (frameType =? FrameLinkPong) then
    if RouteProbeViaUDP (fsm t) then writeLeg t frameType payload
    else baseSend t frameType payload isControl
  else if frameType =? FrameMeshPacket then
    if RouteDataViaUDP (fsm t) then
      let '(t, err) := writeLeg t frameType payload in
      (withFSM t (OnDataSent (fsm t) now), err)
    else baseSend t frameType payload isControl
  else baseSend t frameType payload isControl.

(** The partition loop: the transport, the frames for the base, whether data
    was sent over the leg.  The result of [writeLeg] is discarded. *)
Fixpoint partition t (frames : list Frame) (tcpBatch : list Frame) (sentData : bool)
  : udpLegTransport B * list Frame * bool :=
  match frames with
  | [] => (t, tcpBatch, sentData)
  | f :: fs =>
      let '(viaUDP, sentData) :=
        if (fType f =? FrameLinkPing) || (fType f =? FrameLinkPong)
        then (RouteProbeViaUDP (fsm t), sentData)
        else if fType f =? FrameMeshPacket
        then if RouteDataViaUDP (fsm t) then (true, true) else (false, sentData)
        else (false, sentData) in
      if viaUDP : bool then partition (fst (writeLeg t (fType f) (fPayload f))) fs tcpBatch sentData
      else partition t fs (tcpBatch ++ [f]) sentData
  end.

Definition legSendBatch t (now : Time) (frames : list Frame)
  : udpLegTransport B * result FrameError unit :=
  match frames with
  | [] => (t, Ok tt)
  | _ =>
      let '(t, tcpBatch, sentData) := partition t frames [] false in
      let '(t, err) :=
        match tcpBatch with
        | [] => (t, Ok tt)
        | _ => let '(b, e) := tSendBatch (base t) tcpBatch in (withBase t b, e)
        end in
      match err with
      | Err e => (t, Err e)
      | Ok _ => ((if sentData : bool then withFSM t (OnDataSent (fsm t) now) else t), Ok tt)
      end
  end.

(** One datagram in [pcReadLoop]; [src] is its source when it is a UDP address. *)
Definition pcRead t (now : Time) (buf : list Z) (src : option Addr) : udpLegTransport B :=
  match ParseDatagramFrame buf with
  | Err _ => addDrop t
  | Ok (ft, payload) =>
      if negb (IsLegFrame ft) then addDrop t
      else
        let '(p, ok) := SendPort (fsm t) in
        let srcPort := match src with Some a => addrPort a | None => 0 end in
        if negb ok || negb (srcPort =? p) then addDrop t
        else
          let t := withFSM t (fst (OnUDPInbound (fsm t) now src)) in
          if closed t then t
          else if len (legCh t) <? legChCap then withLegCh t (legCh t ++ [(ft, payload)])
          else addDrop t
  end.

(** One turn of [epPump] on the endpoint's queue. *)
Definition epPump t (now : Time) : udpLegTransport B :=
  match ep t with
  | None => t
  | Some i =>
      match heap (reg t) !! i with
      | None => t
      | Some e =>
          if epDone e || closed t then t
          else match inboundCh e with
               | [] => t
               | m :: rest =>
                   let t := withEp t (ep t)
                     (updateEp (reg t) i (fun e => mkEndpoint (port e) rest (epDone e) (rp e))) in
                   match ParseDatagramFrame (datagram m) with
                   | Err _ => addDrop t
                   | Ok (ft, payload) =>
                       if negb (IsLegFrame ft) then addDrop t
                       else
                         let t := withFSM t (fst (OnUDPInbound (fsm t) now (Some (srcAddr m)))) in
                         if len (legCh t) <? legChCap then withLegCh t (legCh t ++ [(ft, payload)])
                         else addDrop t
                   end
               end
      end
  end.

Definition spawnDial t (now : Time) : udpLegTransport B :=
  if negb (active (fsm t)) || negb (hasDialFn t) then t
  else if dialing t || bool_decide (pc t <> None) then t
  else withDial t now.

Definition closeChannel t : udpLegTransport B := withPC t None.

Definition allocatePort t : udpLegTransport B :=
  match ep t with
  | Some _ => t
  | None =>
      match allocate (reg t) with
      | (r, None) => withEp t None r
      | (r, Some i) =>
          let t := withEp t (Some i) r in
          withFSM t (SetLocalPort (fsm t) (match heap r !! i with Some e => port e | None => 0 end))
      end
  end.

Definition unregisterPort t : udpLegTransport B :=
  match ep t with
  | None => t
  | Some i =>
      withEp t None (match heap (reg t) !! i with Some e => release (reg t) (port e) | None => reg t end)
  end.

Definition executeAction t (now : Time) (a : udpLegAction) : udpLegTransport B :=
  match a with
  | legActDialChannel => spawnDial t now
  | legActCloseChannel => closeChannel t
  | legActAllocatePort => allocatePort t
  | legActUnregisterPort => unregisterPort t
  | legActStartAdvertise | legActStopAdvertise => if hasNotify t then addNotify t else t
  | legActNone => t
  end.

Definition executeActions t (now : Time) (acts : list udpLegAction) : udpLegTransport B :=
  foldl (fun t a => executeAction t now a) t acts.

(** An event of the machine with the execution of its actions. *)
Definition feed t (now : Time) (r : udpLegFSM * list udpLegAction) : udpLegTransport B :=
  executeActions (withFSM t (fst r)) now (snd r).

Definition onPeerGossip t (now : Time) (peerUDP : bool) (peerPort : Z) : udpLegTransport B :=
  feed t now (OnGossip (fsm t) now peerUDP peerPort).

Definition maybeRedial t (now : Time) : udpLegTransport B :=
  if negb (active (fsm t)) || negb (hasDialFn t) then t
  else if negb (bool_decide (phase (fsm t) = udpLegAdvertising)) then t
  else if dialing t || bool_decide (pc t <> None) then t
  else if IsZero (lastDialAt t) || (udpLegDialRetry <=? now - lastDialAt t)
  then spawnDial t now else t.

Definition tickStep t (now : Time) : udpLegTransport B :=
  maybeRedial (feed t now (Tick (fsm t) now)) now.

(** The end of the dial goroutine: [res] is the connection, or a failure. *)
Definition dialDone t (now : Time) (res : option nat) : udpLegTransport B :=
  let t := withDialing t false in
  let t := match res with Some c => withPC t (Some c) | None => t end in
  feed t now (OnChannelResult (fsm t) now (match res with Some _ => true | None => false end)).

Definition gossipFields t : bool * Z :=
  if negb (ShouldAdvertise (fsm t)) then (false, 0)
  else (true, fst (AdvertisePort (fsm t))).

Inductive TransportForm := FormUDP | FormTCP.

Definition transportForm t : TransportForm :=
  if RouteDataViaUDP (fsm t) || RouteProbeViaUDP (fsm t) then FormUDP else FormTCP.

Definition legClose t : udpLegTransport B :=
  if closed t then t else unregisterPort (closeChannel (withClosed t)).

End Transport.

(** ** What an event does to the resources of a session *)

(** The three shapes of a transition of the machine, with its actions. *)
Inductive legChange (f f' : udpLegFSM) (acts : list udpLegAction) : Prop :=
| change_keep :
    acts = [] ->
    localPort f' = localPort f -> channelReady f' = channelReady f ->
    ShouldAdvertise f' = ShouldAdvertise f ->
    (active f = true -> phase f = udpLegAdvertising -> phase f' = udpLegAdvertising) ->
    legChange f f' acts
| change_start :
    acts = [legActStartAdvertise; if active f then legActDialChannel else legActAllocatePort] ->
    ShouldAdvertise f = false -> phase f' = udpLegAdvertising ->
    localPort f' = localPort f -> channelReady f' = channelReady f ->
    legChange f f' acts
| change_stop :
    acts = [legActStopAdvertise] ++ (if channelReady f then [legActCloseChannel] else []) ++
           (if negb (active f) && negb (localPort f =? 0) then [legActUnregisterPort] else []) ->
    ShouldAdvertise f = true -> ShouldAdvertise f' = false ->
    channelReady f' = false -> localPort f' = 0 ->
    (active f = true -> phase f <> udpLegAdvertising) ->
    legChange f f' acts.

Ltac leg_change :=
  simpl; repeat match goal with H : negb (?a =? ?b) = _ |- context [negb (?a =? ?b)] => rewrite H end;
  simpl; first [ done | lia ].

Lemma legChange_gossip f now u p :
  legInv f -> legChange f (fst (OnGossip f now u p)) (snd (OnGossip f now u p)).
Proof.
  intros Hinv. destruct (OnGossip f now u p) as [f' acts] eqn:E. simpl.
  leg_destruct f Hinv; leg_run E;
    first [ by apply change_keep | by apply change_start | apply change_stop; leg_change ].
Qed.

Lemma legChange_tick f now :
  legInv f -> legChange f (fst (Tick f now)) (snd (Tick f now)).
Proof.
  intros Hinv. destruct (Tick f now) as [f' acts] eqn:E. simpl.
  leg_destruct f Hinv; leg_run E;
    first [ by apply change_keep | by apply change_start | apply change_stop; leg_change ].
Qed.

(** ** The session as a transition system *)

Section Session.
Context {B : Type} `{FrameTransport B}.
Variable pcFails : nat -> Z -> list Z -> bool.
Variable rpFails : nat -> list Z -> bool.
Implicit Types t : udpLegTransport B.

(** What happens to an open session: its own handlers, and what other sessions
    and the relay do to the shared registry. *)
Inductive sessEvent :=
| SGossip (now : Time) (peerUDP : bool) (p : Z)
| STick (now : Time)
| SDialDone (now : Time) (res : option nat)
| SPcRead (now : Time) (buf : list Z) (src : option Addr)
| SEpPump (now : Time)
| SSend (now : Time) (ft : Z) (p : list Z) (ctl : bool)
| SSendBatch (now : Time) (fs : list Frame)
| SDeliver (p : Z) (d : list Z) (src : Addr)
| SBind (p : Z) (path : nat)
| SUnbind (i : nat) (path : nat)
| SOtherAllocate
| SOtherRelease (p : Z).

Definition withReg t r : udpLegTransport B := withEp t (ep t) r.

Definition sessApply t (e : sessEvent) : udpLegTransport B :=
  match e with
  | SGossip now u p => onPeerGossip t now u p
  | STick now => tickStep t now
  | SDialDone now res => dialDone t now res
  | SPcRead now buf src => pcRead t now buf src
  | SEpPump now => epPump t now
  | SSend now ft p ctl => fst (legSend pcFails rpFails t now ft p ctl)
  | SSendBatch now fs => fst (legSendBatch pcFails rpFails t now fs)
  | SDeliver p d src => withReg t (fst (UDPLegDeliver (reg t) p d src))
  | SBind p path => withReg t (fst (UDPLegBindReturnPath (reg t) p path))
  | SUnbind i path => withReg t (updateEp (reg t) i (fun e => clearReturnPath e path))
  | SOtherAllocate => withReg t (fst (allocate (reg t)))
  | SOtherRelease p => withReg t (release (reg t) p)
  end.

Definition ownPort t : option Z :=
  match ep t with Some i => port <$> heap (reg t) !! i | None => None end.

(** When an event can happen: the clock is past zero, a dial result has a dial
    in flight, and other sessions release only their own ports. *)
Definition sessGuard t (e : sessEvent) : Prop :=
  match e with
  | SGossip now _ _ | STick now | SPcRead now _ _ | SEpPump now
  | SSend now _ _ _ | SSendBatch now _ => 0 < now
  | SDialDone now _ => 0 < now /\ dialing t = true
  | SOtherRelease p => ownPort t <> Some p
  | _ => True
  end.

Inductive sessReach (t0 : udpLegTransport B) : udpLegTransport B -> Prop :=
| sess_init : sessReach t0 t0
| sess_step t e : sessReach t0 t -> sessGuard t e -> sessReach t0 (sessApply t e).

(** The session's resources agree with its machine and with the registry. *)
Definition holdsPort t : Prop :=
  match ep t with
  | None => localPort (fsm t) = 0
  | Some i => ShouldAdvertise (fsm t) = true /\
      exists e, heap (reg t) !! i = Some e /\ ports (reg t) !! port e = Some i /\
                localPort (fsm t) = port e
  end.

Record tInv t : Prop := {
  t_fsm : legInv (fsm t);
  t_reg : regInv (reg t);
  t_role : if active (fsm t)
           then ep t = None /\ (pc t <> None <-> channelReady (fsm t) = true) /\
                (dialing t = true -> phase (fsm t) = udpLegAdvertising)
           else pc t = None /\ dialing t = false /\ holdsPort t
}.

(** A machine step that keeps the session's resources. *)
Definition fsmQuiet (f f' : udpLegFSM) : Prop :=
  active f' = active f /\ localPort f' = localPort f /\ channelReady f' = channelReady f /\
  ShouldAdvertise f' = ShouldAdvertise f /\
  (active f = true -> phase f = udpLegAdvertising -> phase f' = udpLegAdvertising).

Lemma fsmQuiet_refl f : fsmQuiet f f.
Proof. by repeat split. Qed.

Lemma fsmQuiet_sent f now : fsmQuiet f (OnDataSent f now).
Proof. unfold fsmQuiet, OnDataSent, ShouldAdvertise. destruct f as [??? ph]; by destruct ph. Qed.

Lemma fsmQuiet_inbound f now a : fsmQuiet f (fst (OnUDPInbound f now (Some a))).
Proof.
  unfold fsmQuiet, OnUDPInbound, ShouldAdvertise.
  destruct f as [act ?? ph]; destruct ph, act; by repeat split.
Qed.

(** Registry activity that leaves a session's own endpoint alone. *)
Definition regKeeps t (r : udpLegRegistry) : Prop :=
  regInv r /\
  forall i e, ep t = Some i -> heap (reg t) !! i = Some e -> ports (reg t) !! port e = Some i ->
    exists e', heap r !! i = Some e' /\ port e' = port e /\ ports r !! port e = Some i.

Lemma tInv_quiet t t' :
  tInv t -> legInv (fsm t') -> fsmQuiet (fsm t) (fsm t') -> regKeeps t (reg t') ->
  pc t' = pc t -> dialing t' = dialing t -> ep t' = ep t -> tInv t'.
Proof.
  intros [Hf Hr Hrole] Hf' (Ha & Hl & Hc & Hs & Hp) [Hr' Hk] Epc Ed Eep.
  constructor; [done..|]. rewrite Ha, Epc, Ed, Eep. unfold holdsPort in *.
  rewrite Eep, Hl, Hc, Hs. destruct (active (fsm t)).
  - destruct Hrole as (? & ? & ?). by eauto.
  - destruct Hrole as (? & ? & Hh). repeat split; try done.
    destruct (ep t) as [i|] eqn:E; [|done].
    destruct Hh as (? & e & He & Hpe & Hloc). split; [done|].
    destruct (Hk i e eq_refl He Hpe) as (e' & ? & Hp' & ?). exists e'. by rewrite Hp'.
Qed.

Lemma regKeeps_refl t : regInv (reg t) -> regKeeps t (reg t).
Proof. intros; split; [done|]. eauto. Qed.

Lemma regKeeps_update t i f :
  regInv (reg t) -> (forall e, port (f e) = port e /\ epDone (f e) = epDone e) ->
  regKeeps t (updateEp (reg t) i f).
Proof.
  intros Hr Hf. split; [by apply regInv_update|]. intros j e _ He Hp. simpl.
  destruct (decide (i = j)) as [->|].
  - exists (f e). rewrite list_lookup_alter, He, decide_True by done. destruct (Hf e) as [-> _]. done.
  - exists e. by rewrite list_lookup_alter_ne.
Qed.

Lemma regKeeps_allocate t : regInv (reg t) -> regKeeps t (fst (allocate (reg t))).
Proof.
  intros Hr. split; [by apply regInv_allocate|]. intros i e _ He Hp.
  pose proof (allocateLoop_spec (Z.to_nat (udpLegPortMax - udpLegPortMin + 1)) (reg t) Hr) as S.
  unfold allocate. destruct (allocateLoop _ (reg t)) as [r' [j|]]; simpl.
  - destruct S as (p & [_ Hfree] & -> & -> & -> & _).
    exists e. rewrite (lookup_app_l_Some _ _ _ _ He), lookup_insert_ne by congruence. done.
  - destruct S as (-> & -> & _). eauto.
Qed.

Lemma regKeeps_release t p :
  regInv (reg t) -> ownPort t <> Some p -> regKeeps t (release (reg t) p).
Proof.
  intros Hr Hown. split; [by apply regInv_release|]. intros i e Eep He Hp.
  unfold ownPort in Hown. rewrite Eep, He in Hown. simpl in Hown.
  assert (port e <> p) by congruence. unfold release.
  destruct (ports (reg t) !! p) as [j|] eqn:E; [|eauto]. simpl.
  destruct (reg_port _ Hr p j E) as [_ (ej & Hej & ? & _)].
  exists e. rewrite list_lookup_alter_ne, lookup_delete_ne by congruence. done.
Qed.

Lemma quiet_notify t : tInv t -> forall (b : bool), tInv (if b then addNotify t else t).
Proof. intros Hi []; [|done]. by destruct Hi; constructor. Qed.

(** The allocation a session makes when it starts to advertise. *)
Lemma tInv_allocatePort t :
  legInv (fsm t) -> regInv (reg t) -> active (fsm t) = false -> phase (fsm t) = udpLegAdvertising ->
  pc t = None -> dialing t = false -> ep t = None -> localPort (fsm t) = 0 -> tInv (allocatePort t).
Proof.
  intros Hf Hr Ha Hph Hpc Hd He Hl. unfold allocatePort. rewrite He.
  pose proof (regInv_allocate _ Hr) as Hr'.
  pose proof (allocateLoop_spec (Z.to_nat (udpLegPortMax - udpLegPortMin + 1)) (reg t) Hr) as S.
  unfold allocate in *. destruct (allocateLoop _ (reg t)) as [r' [i|]]; simpl in *.
  - destruct S as (p & [Hrange Hfree] & -> & Hports & Hheap & _).
    assert (heap r' !! length (heap (reg t)) = Some (mkEndpoint p [] false None)) as Hnew.
    { rewrite Hheap, lookup_app_r, Nat.sub_diag by lia. done. }
    rewrite Hnew. simpl. constructor; simpl; [|done|].
    + apply (legInv_step (fsm t) (EvLocalPort p)); done.
    + assert (SetLocalPort (fsm t) p = setLocalPort (fsm t) p) as -> by (unfold SetLocalPort; by rewrite Ha).
      simpl. rewrite Ha. unfold holdsPort, ShouldAdvertise; simpl. rewrite Hph.
      repeat split; try done. eexists. split; [exact Hnew|]. simpl.
      by rewrite Hports, lookup_insert_eq.
  - constructor; simpl; [done..|]. rewrite Ha. unfold holdsPort; simpl. done.
Qed.

Lemma tInv_spawnDial t now :
  tInv t -> phase (fsm t) = udpLegAdvertising -> tInv (spawnDial t now).
Proof.
  intros Hi Hph. unfold spawnDial. destruct (active (fsm t)) eqn:E; simpl; [|done].
  destruct (hasDialFn t); simpl; [|done].
  destruct (dialing t || _); [done|]. destruct Hi as [Hf Hr Hrole].
  constructor; simpl; [done..|]. rewrite E in *. destruct Hrole as (? & ? & ?). done.
Qed.

Lemma tInv_feed t now f' acts :
  tInv t -> legInv f' -> active f' = active (fsm t) -> legChange (fsm t) f' acts ->
  tInv (feed t now (f', acts)).
Proof.
  intros Hi Hf' Ha [-> Hl Hc Hs Hp | -> Hs Hph Hl Hc | -> Hs Hs' Hc Hl Hp].
  - apply (tInv_quiet t); try done. apply (regKeeps_refl t), Hi.
  - destruct Hi as [Hf Hr Hrole]. unfold feed, executeActions; simpl.
    destruct (active (fsm t)) eqn:E.
    + destruct Hrole as (He & Hpc & Hd).
      assert (tInv (withFSM t f')) as Hi'.
      { constructor; simpl; [done..|]. rewrite Ha, Hc. done. }
      pose proof (quiet_notify _ Hi' (hasNotify t)) as Hn.
      apply tInv_spawnDial; [done|]. by destruct (hasNotify t).
    + destruct Hrole as (Hpc & Hd & Hh). unfold holdsPort in Hh.
      destruct (ep t) as [i|] eqn:Eep; [destruct Hh; congruence|].
      assert (localPort f' = 0) by congruence.
      destruct (hasNotify t); apply tInv_allocatePort; simpl; try done; congruence.
  - destruct Hi as [Hf Hr Hrole]. unfold feed, executeActions; simpl.
    rewrite (inv_channel _ Hf). destruct (active (fsm t)) eqn:E; simpl.
    + destruct Hrole as (He & Hpc & Hd). rewrite app_nil_r.
      assert (dialing t = false) as Hnd.
      { destruct (dialing t); [|done]. by destruct (Hp eq_refl (Hd eq_refl)). }
      assert (pc t <> None -> channelPhase (phase (fsm t)) = true) as Hpc'.
      { intros Hne. apply Hpc in Hne. by rewrite (inv_channel _ Hf), E in Hne. }
      destruct (hasNotify t), (channelPhase (phase (fsm t))); constructor; simpl; try done;
        rewrite Ha, Hc, Hnd; repeat split; try done;
        intros Hne; apply Hpc' in Hne; done.
    + destruct Hrole as (Hpc & Hd & Hh). unfold holdsPort in Hh.
      destruct (ep t) as [i|] eqn:Eep.
      * destruct Hh as (_ & e & He & Hport & Hloc).
        destruct (reg_port _ Hr _ _ Hport) as [Hrange _].
        destruct (Z.eqb_spec (localPort (fsm t)) 0);
          [unfold udpLegPortMin, udpLegPortMax in *; lia|]. simpl.
        destruct (hasNotify t); unfold unregisterPort; simpl; rewrite Eep, He;
          constructor; simpl; try done; try (by apply regInv_release); by rewrite Ha.
      * rewrite Hh. simpl.
        destruct (hasNotify t); constructor; simpl; try done; rewrite Ha;
          unfold holdsPort; simpl; by rewrite Eep.
Qed.

Lemma active_withdraw f : active (fst (withdraw f)) = active f.
Proof. unfold withdraw. by repeat case_match; simplify_eq. Qed.

Lemma active_gossip f now u p : active (fst (OnGossip f now u p)) = active f.
Proof.
  unfold OnGossip, enterAdvertising.
  repeat case_match; simplify_eq/=; rewrite ?active_withdraw; done.
Qed.

Lemma active_tick f now : active (fst (Tick f now)) = active f.
Proof.
  unfold Tick, fallback, enterAdvertising. pose proof (active_withdraw f) as Hw.
  destruct (withdraw f) as [f' acts]. repeat case_match; simplify_eq/=; done.
Qed.

Definition sameSession t t' : Prop :=
  fsm t' = fsm t /\ reg t' = reg t /\ pc t' = pc t /\ dialing t' = dialing t /\ ep t' = ep t.

Lemma sameSession_trans t1 t2 t3 : sameSession t1 t2 -> sameSession t2 t3 -> sameSession t1 t3.
Proof. unfold sameSession. intuition congruence. Qed.

Lemma writeLeg_same t ft p : sameSession t (fst (writeLeg pcFails rpFails t ft p)).
Proof.
  unfold writeLeg, baseSend, epSend, sameSession. by repeat case_match; simplify_eq/=.
Qed.

Lemma partition_same frames : forall t batch sent t' batch' sent',
  partition pcFails rpFails t frames batch sent = (t', batch', sent') -> sameSession t t'.
Proof.
  induction frames as [|f fs IH]; intros t batch sent t' batch' sent'; simpl.
  { by intros [= <- <- <-]. }
  repeat case_match; simplify_eq; intros E; try (by apply IH in E);
    (eapply sameSession_trans; [apply writeLeg_same | by eapply IH]).
Qed.

Lemma tInv_same t t' : sameSession t t' -> tInv t -> tInv t'.
Proof.
  intros (Ef & Er & Epc & Ed & Ee) Hi. destruct Hi as [Hf Hr Hrole].
  constructor; rewrite ?Ef, ?Er; [done..|]. unfold holdsPort in *. by rewrite Epc, Ed, Ee, Ef, Er.
Qed.

Lemma tInv_withFSM t f' : tInv t -> legInv f' -> fsmQuiet (fsm t) f' -> tInv (withFSM t f').
Proof. intros Hi ??. apply (tInv_quiet t); try done. apply (regKeeps_refl t), Hi. Qed.

Lemma tInv_sent t now : 0 < now -> tInv t -> tInv (withFSM t (OnDataSent (fsm t) now)).
Proof.
  intros Hn Hi. apply tInv_withFSM; [done| |apply fsmQuiet_sent].
  apply (legInv_step (fsm t) (EvDataSent now)); [apply Hi|done].
Qed.

Lemma tInv_inbound t now a :
  0 < now -> tInv t -> tInv (withFSM t (fst (OnUDPInbound (fsm t) now (Some a)))).
Proof.
  intros Hn Hi. apply tInv_withFSM; [done| |apply fsmQuiet_inbound].
  apply (legInv_step (fsm t) (EvInbound now a)); [apply Hi|done].
Qed.

Lemma tInv_reg t r : tInv t -> regKeeps t r -> tInv (withReg t r).
Proof. intros Hi Hk. apply (tInv_quiet t); try done; apply Hi. Qed.

Lemma tInv_send t now ft p ctl :
  0 < now -> tInv t -> tInv (fst (legSend pcFails rpFails t now ft p ctl)).
Proof.
  intros Hn Hi. unfold legSend, baseSend.
  pose proof (tInv_same t _ (writeLeg_same t ft p) Hi) as Hw.
  destruct (tSend (base t) ft p ctl) as [b e].
  assert (tInv (withBase t b)) by (apply (tInv_same t); done).
  destruct (writeLeg pcFails rpFails t ft p) as [t' e']; simpl in *.
  repeat case_match; simpl; try done. by apply tInv_sent.
Qed.

Lemma tInv_sendBatch t now fs :
  0 < now -> tInv t -> tInv (fst (legSendBatch pcFails rpFails t now fs)).
Proof.
  intros Hn Hi. unfold legSendBatch. destruct fs as [|f fs]; [done|].
  destruct (partition pcFails rpFails t (f :: fs) [] false) as [[t' batch] sent] eqn:E.
  apply partition_same in E. pose proof (tInv_same _ _ E Hi) as Hi'.
  destruct batch as [|g gs]; [destruct sent; simpl; [by apply tInv_sent|done]|].
  destruct (tSendBatch (base t') (g :: gs)) as [b [[]|e]];
    assert (tInv (withBase t' b)) by (apply (tInv_same t'); done); [|done].
  destruct sent; [by apply (tInv_sent (withBase t' b))|done].
Qed.

Lemma tInv_dialDone t now res :
  0 < now -> dialing t = true -> tInv t -> tInv (dialDone t now res).
Proof.
  intros Hn Hd [Hf Hr Hrole]. destruct (active (fsm t)) eqn:E.
  2: { destruct Hrole as (_ & Hd' & _). congruence. }
  destruct Hrole as (He & Hpc & Hph). specialize (Hph Hd).
  pose proof (legInv_step (fsm t) (EvChannel now (match res with Some _ => true | None => false end)) Hf Hn) as Hf'.
  unfold dialDone, feed, executeActions, legApply in *. destruct res as [c|]; simpl in *.
  - unfold OnChannelResult in *. rewrite E, Hph in *. simpl in *.
    constructor; simpl; [done..|]. destruct (0 <? peerPort (fsm t)); simpl; rewrite E; repeat split; done.
  - unfold OnChannelResult in *. rewrite orb_true_r in *. simpl in *.
    constructor; simpl; [done..|]. rewrite E. done.
Qed.

Lemma tInv_enqueue t ft p :
  tInv t -> tInv (if len (legCh t) <? legChCap then withLegCh t (legCh t ++ [(ft, p)]) else addDrop t).
Proof. intros Hi. case_match; by apply (tInv_same t). Qed.

Lemma tInv_pcRead t now buf src : 0 < now -> tInv t -> tInv (pcRead t now buf src).
Proof.
  intros Hn Hi. unfold pcRead.
  assert (tInv (addDrop t)) as Hdrop by (by apply (tInv_same t)).
  destruct (ParseDatagramFrame buf) as [[ft payload]|]; [|done].
  destruct (IsLegFrame ft); simpl; [|done].
  destruct (SendPort (fsm t)) as [p ok] eqn:Esp. destruct ok; simpl; [|done].
  assert (p <> 0) as Hp.
  { unfold SendPort in Esp. destruct (Z.eqb_spec (peerPort (fsm t)) 0);
      repeat case_match; simplify_eq; by rewrite ?orb_true_r in *. }
  destruct src as [a|].
  - destruct (addrPort a =? p); simpl; [|done].
    pose proof (tInv_inbound t now a Hn Hi) as Hi'. case_match; [done|].
    by apply (tInv_enqueue (withFSM t _)).
  - assert ((0 =? p) = false) as -> by lia. done.
Qed.

Lemma tInv_epPump t now : 0 < now -> tInv t -> tInv (epPump t now).
Proof.
  intros Hn Hi. unfold epPump. destruct (ep t) as [i|] eqn:Eep; [|done].
  destruct (heap (reg t) !! i) as [e|]; [|done].
  destruct (epDone e || closed t); [done|]. destruct (inboundCh e) as [|m rest]; [done|].
  set (r := updateEp _ _ _).
  assert (tInv (withEp t (Some i) r)) as Hi1.
  { rewrite <- Eep. apply (tInv_reg t); [done|]. apply regKeeps_update; [apply Hi|done]. }
  destruct (ParseDatagramFrame (datagram m)) as [[ft payload]|]; [|by apply (tInv_same (withEp t (Some i) r))].
  destruct (IsLegFrame ft); simpl; [|by apply (tInv_same (withEp t (Some i) r))].
  apply (tInv_enqueue (withFSM (withEp t (Some i) r) _)). by apply (tInv_inbound (withEp t (Some i) r)).
Qed.

Lemma tInv_maybeRedial t now : tInv t -> tInv (maybeRedial t now).
Proof.
  intros Hi. unfold maybeRedial. repeat case_match; try done.
  apply tInv_spawnDial; [done|]. by match goal with H : negb (bool_decide _) = false |- _ => apply negb_false_iff, bool_decide_eq_true in H end.
Qed.

Lemma tInv_tick t now : 0 < now -> tInv t -> tInv (tickStep t now).
Proof.
  intros Hn Hi. apply tInv_maybeRedial.
  pose proof (legInv_step (fsm t) (EvTick now) (t_fsm _ Hi) Hn) as Hf'.
  pose proof (legChange_tick (fsm t) now (t_fsm _ Hi)) as Hc.
  pose proof (active_tick (fsm t) now) as Ha. unfold legApply in Hf'.
  destruct (Tick (fsm t) now) as [f' acts]. by apply tInv_feed.
Qed.

Lemma tInv_gossip t now u p : 0 < now -> tInv t -> tInv (onPeerGossip t now u p).
Proof.
  intros Hn Hi. unfold onPeerGossip.
  pose proof (legInv_step (fsm t) (EvGossip now u p) (t_fsm _ Hi) Hn) as Hf'.
  pose proof (legChange_gossip (fsm t) now u p (t_fsm _ Hi)) as Hc.
  pose proof (active_gossip (fsm t) now u p) as Ha. unfold legApply in Hf'.
  destruct (OnGossip (fsm t) now u p) as [f' acts]. by apply tInv_feed.
Qed.

Lemma tInv_new b r act hasDial : regInv r -> tInv (newUDPLegTransport b r act hasDial).
Proof. intros Hr. constructor; simpl; [apply legInv_new|done|]. by destruct act. Qed.

Lemma tInv_step t e : tInv t -> sessGuard t e -> tInv (sessApply t e).
Proof.
  intros Hi Hg. pose proof (t_reg _ Hi) as Hr. destruct e; simpl in *.
  - by apply tInv_gossip.
  - by apply tInv_tick.
  - destruct Hg. by apply tInv_dialDone.
  - by apply tInv_pcRead.
  - by apply tInv_epPump.
  - by apply tInv_send.
  - by apply tInv_sendBatch.
  - apply tInv_reg; [done|]. unfold UDPLegDeliver.
    case_match; [|by apply regKeeps_refl]. apply regKeeps_update; [done|].
    intros e; unfold deliver; repeat case_match; done.
  - apply tInv_reg; [done|]. unfold UDPLegBindReturnPath.
    case_match; [|by apply regKeeps_refl]. by apply regKeeps_update.
  - apply tInv_reg; [done|]. apply regKeeps_update; [done|].
    intros e; unfold clearReturnPath; case_match; done.
  - apply tInv_reg; [done|]. by apply regKeeps_allocate.
  - apply tInv_reg; [done|]. by apply regKeeps_release.
Qed.

Lemma tInv_reach t0 t : tInv t0 -> sessReach t0 t -> tInv t.
Proof. intros H0; induction 1; [done|by apply tInv_step]. Qed.

End Session.

(** ** Where frames go *)

Section Routing.
Context {B : Type} `{CarriesFrames B}.
Variable pcFails : nat -> Z -> list Z -> bool.
Variable rpFails : nat -> list Z -> bool.
Implicit Types t : udpLegTransport B.

(** The frames a machine in state [f] sends over the leg. *)
Definition viaLeg (f : udpLegFSM) (ft : Z) : bool :=
  if (ft =? FrameLinkPing) || (ft =? FrameLinkPong) then RouteProbeViaUDP f
  else if ft =? FrameMeshPacket then RouteDataViaUDP f
  else false.

Definition fitsLeg (ft : Z) (p : list Z) : bool := len (EncodeDatagram ft p) <=? maxLegDatagram.

(** What the packet connection, respectively the return path, accepts of a datagram. *)
Definition pcAccept t (d : list Z) : list (Z * list Z) :=
  if active (fsm t) then
    match pc t with
    | Some c => if pcFails c (peerPort (fsm t)) d then [] else [(peerPort (fsm t), d)]
    | None => []
    end
  else [].

Definition rpAccept t (d : list Z) : list (nat * list Z) :=
  if active (fsm t) then []
  else match ep t ≫= (fun i => heap (reg t) !! i ≫= rp) with
       | Some r => if rpFails r d then [] else [(r, d)]
       | None => []
       end.

Lemma viaLeg_SendPort f ft :
  viaLeg f ft = true -> active f = true -> SendPort f = (peerPort f, true).
Proof.
  unfold viaLeg, RouteProbeViaUDP, RouteDataViaUDP. intros Hv Ha. rewrite Ha in Hv. simpl in Hv.
  unfold SendPort in *. rewrite Ha in *. simpl in *.
  destruct (peerPort f =? 0); simpl in Hv; [repeat case_match; done|].
  destruct (phase f); try done; simpl in Hv; repeat case_match; done.
Qed.

Lemma writeLeg_exact t ft p :
  viaLeg (fsm t) ft = true ->
  let d := EncodeDatagram ft p in
  let '(t', r) := writeLeg pcFails rpFails t ft p in
  fsm t' = fsm t /\ reg t' = reg t /\ pc t' = pc t /\ ep t' = ep t /\
  if fitsLeg ft p
  then r = Ok tt /\ base t' = base t /\
       pcOut t' = pcOut t ++ pcAccept t d /\ rpOut t' = rpOut t ++ rpAccept t d
  else pcOut t' = pcOut t /\ rpOut t' = rpOut t /\ (base t', r) = tSend (base t) ft p false.
Proof.
  intros Hv d. unfold writeLeg, fitsLeg. fold d.
  destruct (Z.ltb_spec maxLegDatagram (len d)), (Z.leb_spec (len d) maxLegDatagram); try lia.
  { unfold baseSend. destruct (tSend (base t) ft p false) as [b e]. done. }
  unfold pcAccept, rpAccept. destruct (active (fsm t)) eqn:Ha.
  - rewrite (viaLeg_SendPort _ _ Hv Ha). simpl. destruct (pc t) as [c|] eqn:Epc; simpl.
    + destruct (pcFails c _ d); simpl; by rewrite ?app_nil_r.
    + by rewrite !app_nil_r.
  - destruct (ep t) as [i|] eqn:Eep; simpl; [|by rewrite !app_nil_r].
    unfold epSend. destruct (heap (reg t) !! i ≫= rp) as [r|]; simpl; [|by rewrite !app_nil_r].
    destruct (rpFails r d); simpl; by rewrite ?app_nil_r.
Qed.

(** The loop of [SendBatch]: leg frames leave in order, the rest is collected in order. *)
Lemma partition_exact frames : forall t batch sent,
  Forall (fun f => viaLeg (fsm t) (fType f) = true -> fitsLeg (fType f) (fPayload f) = true) frames ->
  exists t', partition pcFails rpFails t frames batch sent =
    (t', batch ++ List.filter (fun f => negb (viaLeg (fsm t) (fType f))) frames,
     sent || existsb (fun f => (fType f =? FrameMeshPacket) && viaLeg (fsm t) (fType f)) frames) /\
  fsm t' = fsm t /\ base t' = base t /\
  pcOut t' = pcOut t ++ flat_map (fun f => if viaLeg (fsm t) (fType f)
     then pcAccept t (EncodeDatagram (fType f) (fPayload f)) else []) frames /\
  rpOut t' = rpOut t ++ flat_map (fun f => if viaLeg (fsm t) (fType f)
     then rpAccept t (EncodeDatagram (fType f) (fPayload f)) else []) frames.
Proof.
  induction frames as [|f fs IH]; intros t batch sent Hfit.
  { exists t. simpl. rewrite !app_nil_r, orb_false_r. done. }
  apply Forall_cons_iff in Hfit as [Hf Hfs].
  assert (exists s, (if (fType f =? FrameLinkPing) || (fType f =? FrameLinkPong)
        then (RouteProbeViaUDP (fsm t), sent)
        else if fType f =? FrameMeshPacket
        then if RouteDataViaUDP (fsm t) then (true, true) else (false, sent)
        else (false, sent)) = (viaLeg (fsm t) (fType f), s) /\
      s = sent || ((fType f =? FrameMeshPacket) && viaLeg (fsm t) (fType f))) as (s & Hs & Hsent).
  { unfold viaLeg. destruct ((fType f =? FrameLinkPing) || (fType f =? FrameLinkPong)) eqn:E.
    - eexists; split; [done|]. unfold FrameLinkPing, FrameLinkPong, FrameMeshPacket in *.
      assert ((fType f =? 0x20) = false) as -> by lia. by rewrite orb_false_r.
    - destruct (fType f =? FrameMeshPacket); simpl; [|rewrite orb_false_r; eauto].
      destruct (RouteDataViaUDP (fsm t)); eexists; split; try done; by rewrite ?orb_true_r, ?orb_false_r. }
  simpl. rewrite Hs. destruct (viaLeg (fsm t) (fType f)) eqn:Ev; simpl.
  - pose proof (writeLeg_exact t (fType f) (fPayload f) Ev) as Hw. simpl in Hw.
    destruct (writeLeg pcFails rpFails t (fType f) (fPayload f)) as [t1 r1]. simpl.
    rewrite (Hf eq_refl) in Hw.
    destruct Hw as (Ef & Er & Ep & Ee & _ & Eb & Epo & Ero).
    destruct (IH t1 batch s) as (t' & -> & Hf' & Hb' & Hpo & Hro); [by rewrite Ef|].
    rewrite Ef in *. exists t'. rewrite andb_true_r in *. rewrite Hsent, orb_assoc.
    split; [done|]. split; [done|]. split; [congruence|].
    assert (forall d, pcAccept t1 d = pcAccept t d) as Hpa by (intros d; unfold pcAccept; by rewrite Ef, Ep).
    assert (forall d, rpAccept t1 d = rpAccept t d) as Hra
      by (intros d; unfold rpAccept; by rewrite Ef, Ee, Er).
    rewrite Hpo, Hro, Epo, Ero, <- !app_assoc.
    split; do 2 f_equal; apply flat_map_ext; intros g; by rewrite ?Hpa, ?Hra.
  - destruct (IH t (batch ++ [f]) s) as (t' & -> & Hrest); [done|].
    exists t'. rewrite <- app_assoc, Hsent, andb_false_r, !orb_false_r. done.
Qed.

End Routing.

(** ** Properties *)

(** [allocate] on a registry in a legal state hands out a port of the range
    that no endpoint held, bound to a fresh open endpoint with an empty queue, and
    disturbs no other binding; it fails only when all ports of the range are
    taken, and then leaves every binding as it was. *)
Theorem registry_allocate_exact r :
  regInv r ->
  let '(r', res) := allocate r in
  regInv r' /\
  match res with
  | Some i => exists p, freePort r p /\ lookup r' p = Some i /\ heap r !! i = None /\
      heap r' !! i = Some (mkEndpoint p [] false None) /\
      (forall q, q <> p -> lookup r' q = lookup r q) /\
      (forall j e, heap r !! j = Some e -> heap r' !! j = Some e)
  | None => (forall p, ~ freePort r p) /\ forall q, lookup r' q = lookup r q
  end.
Proof.
  intros Hr. pose proof (regInv_allocate r Hr) as Hr'.
  pose proof (allocateLoop_spec (Z.to_nat (udpLegPortMax - udpLegPortMin + 1)) r Hr) as S.
  unfold allocate, lookup in *. destruct (allocateLoop _ r) as [r' [i|]]; (split; [done|]).
  - destruct S as (p & Hfree & -> & -> & -> & _). exists p. split; [done|].
    rewrite lookup_insert_eq, lookup_ge_None_2, lookup_app_r, Nat.sub_diag by lia.
    repeat split; [|intros; by apply lookup_app_l_Some].
    intros q Hq. by rewrite lookup_insert_ne by congruence.
  - destruct S as (-> & _ & _ & Hall). split; [|done]. intros p [Hrange Hnone].
    destruct (cursor_onto (next r) p (reg_next r Hr) Hrange) as (k & Hk & <-).
    apply (Hall k); [unfold udpLegPortMax, udpLegPortMin; lia|done].
Qed.

Lemma registry_allocate_exact_witness :
  exists p, lookup (fst (allocate newUDPLegRegistry)) p = Some 0%nat.
Proof.
  pose proof (registry_allocate_exact newUDPLegRegistry regInv_new) as H. revert H.
  destruct (allocate newUDPLegRegistry) as [r' res] eqn:E.
  assert (res = Some 0%nat) as -> by (vm_compute in E; by injection E as _ <-).
  intros (_ & p & _ & Hl & _). by exists p.
Defined.

(** C15: the resources of a session agree with its machine and the registry in
    every state it can reach, whatever other sessions and the relay do: a port it
    advertises is registered to its own open endpoint, its packet connection is
    open exactly when the machine counts on one, so data routed over UDP by the
    active side has a channel, and no dial is in flight outside advertising. *)
Theorem session_resources {B} `{FrameTransport B} pcFails rpFails (b : B) r act hasDial t :
  regInv r -> sessReach pcFails rpFails (newUDPLegTransport b r act hasDial) t ->
  (forall p, gossipFields t = (true, p) -> p <> 0 ->
     exists i e, ep t = Some i /\ lookup (reg t) p = Some i /\
                 heap (reg t) !! i = Some e /\ port e = p /\ epDone e = false) /\
  (active (fsm t) = true -> (pc t <> None <-> channelReady (fsm t) = true)) /\
  (active (fsm t) = true -> RouteDataViaUDP (fsm t) = true -> pc t <> None) /\
  (dialing t = true -> phase (fsm t) = udpLegAdvertising /\ pc t = None).
Proof.
  intros Hr Hreach. apply tInv_reach in Hreach; [|by apply tInv_new].
  destruct Hreach as [Hf Hreg Hrole]. repeat split.
  - intros p Hg Hp. unfold gossipFields, AdvertisePort in Hg.
    destruct (ShouldAdvertise (fsm t)); simpl in Hg; [|done].
    destruct (active (fsm t)); simpl in Hg; [congruence|].
    destruct Hrole as (_ & _ & Hh). unfold holdsPort in Hh.
    assert (localPort (fsm t) = p) as Hl by (repeat case_match; simplify_eq/=; done).
    destruct (ep t) as [i|]; [|lia]. destruct Hh as (_ & e & He & Hpe & Hle).
    exists i, e. destruct (reg_port _ Hreg _ _ Hpe) as [_ (e' & ? & ? & ?)].
    unfold lookup. rewrite <- Hl, Hle. simplify_eq. done.
  - rewrite H0 in Hrole. apply Hrole.
  - rewrite H0 in Hrole. apply Hrole.
  - intros Ha Hroute. rewrite Ha in Hrole. apply Hrole.
    rewrite (inv_channel _ Hf), Ha. unfold RouteDataViaUDP, SendPort in Hroute.
    rewrite Ha in Hroute. simpl in Hroute. by destruct (peerPort (fsm t) =? 0), (phase (fsm t)).
  - destruct (active (fsm t)); [by apply Hrole|]. destruct Hrole as (_ & ? & _). congruence.
  - destruct (active (fsm t)) eqn:Ha; [|by destruct Hrole].
    destruct Hrole as (_ & Hpc & Hd). specialize (Hd H0).
    destruct (pc t); [|done]. exfalso. assert (channelReady (fsm t) = true) as Hc by by apply Hpc.
    by rewrite (inv_channel _ Hf), Ha, Hd in Hc.
Qed.

(** A passive session after one gossip frame of its peer, over a stream. *)
Definition demoPassive : udpLegTransport (list Z) :=
  onPeerGossip (newUDPLegTransport [] newUDPLegRegistry false false) 1 true 0.

(** An active session that negotiated port 40007 and has a channel. *)
Definition demoActive : udpLegTransport (list Z) :=
  dialDone (onPeerGossip (newUDPLegTransport [] newUDPLegRegistry true true) 1 true 40007) 2 (Some 5%nat).

Lemma session_resources_witness :
  gossipFields demoPassive = (true, 40000) /\
  exists i, lookup (reg demoPassive) 40000 = Some i.
Proof.
  split; [vm_compute; reflexivity|].
  destruct (session_resources (fun _ _ _ => false) (fun _ _ => false) [] newUDPLegRegistry false false
              demoPassive) as [Hp _].
  - apply regInv_new.
  - apply (sess_step _ _ _ _ (SGossip 1 true 0)); [constructor|simpl; lia].
  - destruct (Hp 40000) as (i & e & _ & Hl & _); [vm_compute; reflexivity|lia|]. by exists i.
Defined.

(** [Send] hands a frame either to the TCP transport or to the leg, never
    both and never neither.  Gossip and every frame that is not a probe or a mesh
    packet go to TCP, as do frames too large for a datagram, and the caller sees
    TCP's verdict; a frame routed over the leg never touches TCP and never fails,
    whatever the network does: the datagram is either accepted, for the port the
    peer declared, respectively the bound return path, or dropped. *)
Theorem legSend_exact {B} `{FrameTransport B} pcFails rpFails (t : udpLegTransport B) now ft p ctl :
  let '(t', r) := legSend pcFails rpFails t now ft p ctl in
  let d := EncodeDatagram ft p in
  fsm t' = (if (ft =? FrameMeshPacket) && viaLeg (fsm t) ft then OnDataSent (fsm t) now else fsm t) /\
  if viaLeg (fsm t) ft && fitsLeg ft p
  then r = Ok tt /\ base t' = base t /\
       pcOut t' = pcOut t ++ pcAccept pcFails t d /\ rpOut t' = rpOut t ++ rpAccept rpFails t d
  else pcOut t' = pcOut t /\ rpOut t' = rpOut t /\
       (base t', r) = tSend (base t) ft p (ctl && negb (viaLeg (fsm t) ft)).
Proof.
  pose proof (writeLeg_exact pcFails rpFails t ft p) as Hw. unfold legSend.
  assert (viaLeg (fsm t) ft = if ft =? FrameGossip then false else viaLeg (fsm t) ft) as Hg.
  { destruct (Z.eqb_spec ft FrameGossip) as [->|]; done. }
  assert (forall c, let '(t', r) := baseSend t ft p c in
    fsm t' = fsm t /\ pcOut t' = pcOut t /\ rpOut t' = rpOut t /\ (base t', r) = tSend (base t) ft p c) as Hb.
  { intros c. unfold baseSend. by destruct (tSend (base t) ft p c). }
  specialize (Hb ctl). destruct (baseSend t ft p ctl) as [tb rb].
  destruct (writeLeg pcFails rpFails t ft p) as [tw rw]. rewrite Hg. unfold viaLeg in *.
  destruct (ft =? FrameGossip); [rewrite andb_false_r, andb_true_r; by destruct Hb as (? & ? & ? & ?)|].
  destruct ((ft =? FrameLinkPing) || (ft =? FrameLinkPong)) eqn:Ep.
  - assert ((ft =? FrameMeshPacket) = false) as ->
      by (unfold FrameLinkPing, FrameLinkPong, FrameMeshPacket in *; lia).
    destruct (RouteProbeViaUDP (fsm t)); simpl.
    + destruct (Hw eq_refl) as (? & _ & _ & _ & ?). rewrite andb_false_r. done.
    + rewrite andb_true_r. by destruct Hb as (? & ? & ? & ?).
  - destruct (ft =? FrameMeshPacket); simpl.
    + destruct (RouteDataViaUDP (fsm t)); simpl.
      * destruct (Hw eq_refl) as (-> & _ & _ & _ & ?). rewrite andb_false_r. done.
      * rewrite andb_true_r. by destruct Hb as (? & ? & ? & ?).
    + rewrite andb_true_r. by destruct Hb as (? & ? & ? & ?).
Qed.

(** A batch that [SendBatch] acknowledges is split exactly: the frames
    routed over TCP are carried by the TCP transport in their order, the others
    are handed to the leg in their order, and nothing is sent twice. *)
Theorem legSendBatch_exact {B} `{CarriesFrames B} pcFails rpFails (t : udpLegTransport B) now frames t' :
  framed (base t) ->
  Forall (fun f => viaLeg (fsm t) (fType f) = true -> fitsLeg (fType f) (fPayload f) = true) frames ->
  legSendBatch pcFails rpFails t now frames = (t', Ok tt) ->
  carried (base t') = carried (base t) ++
    map (fun f => (fType f, fPayload f)) (List.filter (fun f => negb (viaLeg (fsm t) (fType f))) frames) /\
  pcOut t' = pcOut t ++ flat_map (fun f => if viaLeg (fsm t) (fType f)
     then pcAccept pcFails t (EncodeDatagram (fType f) (fPayload f)) else []) frames /\
  rpOut t' = rpOut t ++ flat_map (fun f => if viaLeg (fsm t) (fType f)
     then rpAccept rpFails t (EncodeDatagram (fType f) (fPayload f)) else []) frames.
Proof.
  intros Hfr Hfit. unfold legSendBatch. destruct frames as [|f fs]; [intros [= <-]; simpl; by rewrite !app_nil_r|].
  destruct (partition_exact pcFails rpFails (f :: fs) t [] false Hfit) as (t1 & -> & Ef & Eb & Epo & Ero).
  rewrite <- Epo, <- Ero, <- Eb in *. clear Epo Ero. rewrite app_nil_l.
  generalize (List.filter (fun f => negb (viaLeg (fsm t) (fType f))) (f :: fs)) as batch.
  intros [|g gs].
  - rewrite app_nil_r. case_match; intros [= <-]; done.
  - destruct (tSendBatch (base t1) (g :: gs)) as [b [[]|e]] eqn:E; [|done].
    destruct (carried_SendBatch _ _ _ Hfr E) as [_ Hc].
    case_match; intros [= <-]; done.
Qed.

Lemma legSendBatch_exact_witness :
  let t := demoActive in
  let fs := [mkFrame FrameMeshPacket [1; 2] false; mkFrame FrameGossip [3] true; mkFrame FrameMeshPacket [4] false] in
  let t' := fst (legSendBatch (fun _ _ _ => false) (fun _ _ => false) t 3 fs) in
  carried (base t') = [(FrameGossip, [3])] /\
  pcOut t' = [(40007, EncodeDatagram FrameMeshPacket [1; 2]); (40007, EncodeDatagram FrameMeshPacket [4])].
Proof.
  intros t fs t'.
  destruct (legSendBatch_exact (fun _ _ _ => false) (fun _ _ => false) t 3 fs t') as (H1 & H2 & _).
  - exists []. split; [constructor|vm_compute; reflexivity].
  - repeat constructor; vm_compute; done.
  - vm_compute. reflexivity.
  - rewrite H1, H2. vm_compute. done.
Defined.

(** [Close] gives everything back: the channel is closed, the session's
    port is free again in the registry and deliveries to it are refused, while the
    ports of other sessions stay bound. *)
Theorem legClose_releases {B} (t : udpLegTransport B) :
  tInv t -> closed t = false ->
  let t' := legClose t in
  closed t' = true /\ pc t' = None /\ ep t' = None /\ regInv (reg t') /\
  (forall p, ownPort t = Some p -> forall d a, snd (UDPLegDeliver (reg t') p d a) = false) /\
  (forall q, ownPort t <> Some q -> lookup (reg t') q = lookup (reg t) q).
Proof.
  intros [Hf Hr Hrole] Hcl. unfold legClose. rewrite Hcl. unfold unregisterPort, ownPort; simpl.
  destruct (ep t) as [i|] eqn:Eep; simpl; [|split_and!; done || (intros; discriminate)].
  destruct (active (fsm t)); [by destruct Hrole|]. destruct Hrole as (_ & _ & Hh).
  unfold holdsPort in Hh. rewrite Eep in Hh. destruct Hh as (_ & e & He & Hp & _).
  rewrite He. simpl. split_and!; try done; [by apply regInv_release| |].
  - intros p [= <-] d a. unfold UDPLegDeliver, lookup, release. rewrite Hp. simpl.
    by rewrite lookup_delete_eq.
  - intros q Hq. unfold lookup, release. rewrite Hp. simpl. by rewrite lookup_delete_ne by congruence.
Qed.

Lemma legClose_releases_witness :
  ownPort demoPassive = Some 40000 /\
  snd (UDPLegDeliver (reg (legClose demoPassive)) 40000 [1] (mkAddr 0 9)) = false.
Proof.
  split; [vm_compute; reflexivity|].
  apply (legClose_releases demoPassive).
  - apply tInv_gossip; [lia|]. apply tInv_new, regInv_new.
  - vm_compute. reflexivity.
  - vm_compute. reflexivity.
Defined.

(** A dial that is still in flight when the session is closed leaves its
    packet connection open for good: the goroutine stores it without looking at
    [closed], and a second [Close] does nothing. *)
Theorem dial_after_close_leaks {B} (t : udpLegTransport B) now c :
  tInv t -> closed t = false -> dialing t = true ->
  let t' := dialDone (legClose t) now (Some c) in
  closed t' = true /\ pc t' = Some c /\ legClose t' = t'.
Proof.
  intros [Hf Hr Hrole] Hcl Hd.
  destruct (active (fsm t)) eqn:Ha; [|by destruct Hrole as (_ & ? & _); congruence].
  destruct Hrole as (He & _ & _). unfold legClose. rewrite Hcl. unfold unregisterPort; simpl. rewrite He.
  unfold dialDone, feed, executeActions, OnChannelResult. simpl. rewrite Ha; simpl.
  by destruct (phase (fsm t)).
Qed.

Lemma dial_after_close_leaks_witness :
  let t := onPeerGossip (newUDPLegTransport ([] : list Z) newUDPLegRegistry true true) 1 true 0 in
  dialing t = true /\ pc (dialDone (legClose t) 5 (Some 9%nat)) = Some 9%nat.
Proof.
  intros t. split; [vm_compute; reflexivity|].
  apply (dial_after_close_leaks t 5 9%nat).
  - apply tInv_gossip; [lia|]. apply tInv_new, regInv_new.
  - vm_compute. reflexivity.
  - vm_compute. reflexivity.
Defined.
