(* ===== verification/GoFloat.v ===== *)
(** Go's float64: IEEE 754 binary64 with round-to-nearest-even, as the executable
    specification of the Standard Library's [SpecFloat] (53 bits of precision,
    maximal exponent 1024), with the conversions the code uses. *)

From Stdlib Require Import ZArith Lia SpecFloat.
From stdpp Require Import base tactics.
From S2P Require Import Prelude.
Open Scope Z_scope.

Definition float64 := spec_float.

(** float64(z): the nearest float of an integer. *)
Definition f64 (z : Z) : float64 := binary_normalize 53 1024 z 0 false.
(** The constant [num/den] of the source, correctly rounded. *)
Definition f64_frac (num den : Z) : float64 := SFdiv 53 1024 (f64 num) (f64 den).

Definition fadd (x y : float64) : float64 := SFadd 53 1024 x y.
Definition fsub (x y : float64) : float64 := SFsub 53 1024 x y.
Definition fmul (x y : float64) : float64 := SFmul 53 1024 x y.
Definition fdiv (x y : float64) : float64 := SFdiv 53 1024 x y.
Definition flt (x y : float64) : bool := SFltb x y.
Definition fle (x y : float64) : bool := SFleb x y.

(** The integer part, for a float in the range of the integer type. *)
Definition ftrunc (x : float64) : Z :=
  match x with
  | S754_finite s m e =>
      let a := if 0 <=? e then Z.pos m * 2 ^ e else Z.pos m / 2 ^ (- e) in
      if s then - a else a
  | _ => 0
  end.

(** Duration.Seconds(). *)
Definition Seconds (d : Duration) : float64 :=
  fadd (f64 (Z.quot d Second)) (fdiv (f64 (Z.rem d Second)) (f64 Second)).

#[global] Arguments f64 : simpl never.
#[global] Arguments f64_frac : simpl never.
#[global] Arguments fadd : simpl never.
#[global] Arguments fsub : simpl never.
#[global] Arguments fmul : simpl never.
#[global] Arguments fdiv : simpl never.
#[global] Arguments flt : simpl never.
#[global] Arguments fle : simpl never.

Example f64_frac_tenth : f64_frac 1 10 = S754_finite false 7205759403792794 (-56).
Proof. reflexivity. Qed.
Example ftrunc_scale : ftrunc (fmul (f64 262144) (fdiv (f64 200000000) (f64 300000000))) = 174762.
Proof. reflexivity. Qed.

(** ** Order *)

Definition is_nan (x : float64) : bool := match x with S754_nan => true | _ => false end.

(** [fle] is [flt] or equality of the ordered values, so the usual chains hold. *)
Lemma flt_fle x y : flt x y = true -> fle x y = true.
Proof. unfold flt, fle, SFltb, SFleb. destruct (SFcompare x y) as [[]|]; done. Qed.

Ltac float_cases :=
  unfold flt, fle, SFltb, SFleb, SFcompare;
  repeat match goal with
  | x : float64 |- _ => destruct x as [[]|[]| |[] ? ?]
  | x : spec_float |- _ => destruct x as [[]|[]| |[] ? ?]
  end; simpl.

(** Splits the comparisons of exponents and mantissas of two finite floats. *)
Ltac float_compare :=
  repeat match goal with
  | |- context [PosDef.Pos.compare_cont Eq ?m ?n] =>
      change (PosDef.Pos.compare_cont Eq m n) with (Pos.compare m n)
  end;
  repeat match goal with
  | |- context [Z.compare ?a ?b] => destruct (Z.compare_spec a b); simpl
  | |- context [Pos.compare ?a ?b] => destruct (Pos.compare_spec a b); simpl
  end; subst; try done; try lia.

Lemma not_flt_fle x y : is_nan x = false -> is_nan y = false -> flt x y = false -> fle y x = true.
Proof. float_cases; try done; intros _ _; float_compare. Qed.

Lemma flt_not_nan x y : flt x y = true -> is_nan x = false /\ is_nan y = false.
Proof. unfold flt, SFltb, SFcompare. destruct x as [[]|[]| |[]], y as [[]|[]| |[]]; done. Qed.

Lemma fle_flt_trans x y z : fle x y = true -> flt y z = true -> flt x z = true.
Proof. float_cases; try done; float_compare. Qed.

(** Clamping from both sides leaves a value of the interval, or a NaN. *)
Lemma clamp_range lo hi x : is_nan lo = false -> is_nan hi = false -> fle lo hi = true ->
  let y := if flt x lo then lo else x in
  let z := if flt hi y then hi else y in
  is_nan z = true \/ (fle lo z = true /\ fle z hi = true).
Proof.
  intros Hlo Hhi Hle. assert (forall w, is_nan w = false -> fle w w = true) as Hrefl.
  { intros w. float_cases; try done; float_compare. }
  destruct (flt x lo) eqn:E1; cbv zeta; [destruct (flt hi lo) eqn:E2; auto|].
  destruct (flt hi x) eqn:E2; [auto|]. destruct (is_nan x) eqn:En; [by left|right].
  split; by apply not_flt_fle.
Qed.
