(* ===== verification/LaneFlow.v ===== *)
(** Lane flow accounting: src/p2p/lane_flow.go.

    A lane counts the bytes it wrote and the bytes its peer reports as read; the
    difference is in flight, bounded by a cap that follows the queueing delay.
    [laneFlow] is the record of one lane with the ring buffer of send samples as
    the source has it (an array, a head and a count).  What a method does under the
    flow's mutex is one step; the byte counter is atomic and is not under the mutex, so
    a send adds to it before its sample is taken, and a reader of the in-flight count
    loads it before it locks: these are steps of their own.  A lane has one writer.  Byte
    counters are 64-bit; a reachable flow has sent fewer than 2^63 bytes. *)

From Stdlib Require Import ZArith Lia Sorted.
From stdpp Require Import base list numbers.
From S2P Require Import Prelude GoFloat.
Open Scope Z_scope.

(** ** Constants *)

Definition laneRTTSampleGap : Duration := 10 * Millisecond.
Definition laneRTTRingCap : nat := 256.
Definition laneRateWindow : Duration := 200 * Millisecond.
Definition laneMinRTTBucket : Duration := Minute.
Definition laneMinRTTBuckets : nat := 10.
Definition laneAckEntrySize : Z := 12.
Definition laneAckMaxEntries : nat := 64.
Definition laneIDPrimary : Z := 0.
Definition laneCapInitial : Z := 262144.
Definition laneCapMin : Z := 65536.
Definition laneCapMax : Z := 8388608.
Definition laneQDTarget : Duration := 200 * Millisecond.
Definition laneCapAdjustInterval : Duration := 200 * Millisecond.
Definition laneNegQDResetRounds : Z := 25.
Definition laneStallTimeout : Duration := 10 * Second.

(** ** The state of a lane *)

Record laneTxSample := mkSample { sAt : Time; sTx : Z }.

Record laneFlow := mkFlow {
  tx : Z; rx : Z;
  acked : Z; gated : bool;
  samples : list laneTxSample; head : nat; rn : nat;
  lastSample : Time;
  srtt : Duration; lastRTT : Duration;
  minBuckets : list Duration; minBucketAt : Time;
  rate : float64; rateAcked : Z; rateAt : Time;
  lastAckAt : Time; rxReported : Z;
  capVal : Z; lastAdjustAt : Time; negQDRounds : Z;
  ackedAdvancedAt : Time; stallWarnedAt : Time
}.

Definition newLaneFlow : laneFlow :=
  mkFlow 0 0 0 false (replicate laneRTTRingCap (mkSample 0 0)) 0 0 0 0 0
    (replicate laneMinRTTBuckets 0) 0 (f64 0) 0 0 0 0 0 0 0 0 0.

(** Updates of groups of fields. *)
Definition setTx (f : laneFlow) v := mkFlow v (rx f) (acked f) (gated f) (samples f) (head f) (rn f)
  (lastSample f) (srtt f) (lastRTT f) (minBuckets f) (minBucketAt f) (rate f) (rateAcked f) (rateAt f)
  (lastAckAt f) (rxReported f) (capVal f) (lastAdjustAt f) (negQDRounds f) (ackedAdvancedAt f) (stallWarnedAt f).
Definition setRx (f : laneFlow) v := mkFlow (tx f) v (acked f) (gated f) (samples f) (head f) (rn f)
  (lastSample f) (srtt f) (lastRTT f) (minBuckets f) (minBucketAt f) (rate f) (rateAcked f) (rateAt f)
  (lastAckAt f) (rxReported f) (capVal f) (lastAdjustAt f) (negQDRounds f) (ackedAdvancedAt f) (stallWarnedAt f).
Definition setAcked (f : laneFlow) v g at' adv := mkFlow (tx f) (rx f) v g (samples f) (head f) (rn f)
  (lastSample f) (srtt f) (lastRTT f) (minBuckets f) (minBucketAt f) (rate f) (rateAcked f) (rateAt f)
  at' (rxReported f) (capVal f) (lastAdjustAt f) (negQDRounds f) adv (stallWarnedAt f).
Definition setRing (f : laneFlow) s h n ls := mkFlow (tx f) (rx f) (acked f) (gated f) s h n
  ls (srtt f) (lastRTT f) (minBuckets f) (minBucketAt f) (rate f) (rateAcked f) (rateAt f)
  (lastAckAt f) (rxReported f) (capVal f) (lastAdjustAt f) (negQDRounds f) (ackedAdvancedAt f) (stallWarnedAt f).
Definition setRTT (f : laneFlow) sr lr := mkFlow (tx f) (rx f) (acked f) (gated f) (samples f) (head f) (rn f)
  (lastSample f) sr lr (minBuckets f) (minBucketAt f) (rate f) (rateAcked f) (rateAt f)
  (lastAckAt f) (rxReported f) (capVal f) (lastAdjustAt f) (negQDRounds f) (ackedAdvancedAt f) (stallWarnedAt f).
Definition setMin (f : laneFlow) b at' := mkFlow (tx f) (rx f) (acked f) (gated f) (samples f) (head f) (rn f)
  (lastSample f) (srtt f) (lastRTT f) b at' (rate f) (rateAcked f) (rateAt f)
  (lastAckAt f) (rxReported f) (capVal f) (lastAdjustAt f) (negQDRounds f) (ackedAdvancedAt f) (stallWarnedAt f).
Definition setRate (f : laneFlow) r ra at' := mkFlow (tx f) (rx f) (acked f) (gated f) (samples f) (head f) (rn f)
  (lastSample f) (srtt f) (lastRTT f) (minBuckets f) (minBucketAt f) r ra at'
  (lastAckAt f) (rxReported f) (capVal f) (lastAdjustAt f) (negQDRounds f) (ackedAdvancedAt f) (stallWarnedAt f).
Definition setReported (f : laneFlow) v := mkFlow (tx f) (rx f) (acked f) (gated f) (samples f) (head f) (rn f)
  (lastSample f) (srtt f) (lastRTT f) (minBuckets f) (minBucketAt f) (rate f) (rateAcked f) (rateAt f)
  (lastAckAt f) v (capVal f) (lastAdjustAt f) (negQDRounds f) (ackedAdvancedAt f) (stallWarnedAt f).
Definition setCap (f : laneFlow) c at' := mkFlow (tx f) (rx f) (acked f) (gated f) (samples f) (head f) (rn f)
  (lastSample f) (srtt f) (lastRTT f) (minBuckets f) (minBucketAt f) (rate f) (rateAcked f) (rateAt f)
  (lastAckAt f) (rxReported f) c at' (negQDRounds f) (ackedAdvancedAt f) (stallWarnedAt f).
Definition setNeg (f : laneFlow) n := mkFlow (tx f) (rx f) (acked f) (gated f) (samples f) (head f) (rn f)
  (lastSample f) (srtt f) (lastRTT f) (minBuckets f) (minBucketAt f) (rate f) (rateAcked f) (rateAt f)
  (lastAckAt f) (rxReported f) (capVal f) (lastAdjustAt f) n (ackedAdvancedAt f) (stallWarnedAt f).
Definition setStall (f : laneFlow) at' := mkFlow (tx f) (rx f) (acked f) false (samples f) (head f) (rn f)
  (lastSample f) (srtt f) (lastRTT f) (minBuckets f) (minBucketAt f) (rate f) (rateAcked f) (rateAt f)
  (lastAckAt f) (rxReported f) (capVal f) (lastAdjustAt f) (negQDRounds f) (ackedAdvancedAt f) at'.

(** ** Operations *)

Definition sampleAt (f : laneFlow) (i : nat) : laneTxSample :=
  default (mkSample 0 0) (samples f !! i).

(** onSent: the atomic add, then the sample of the value it returned, under the mutex. *)
Definition sendAdd (f : laneFlow) (n : Z) : laneFlow := setTx f (wrap 64 (tx f + wrap 64 n)).
Definition recordSent (f : laneFlow) (t : Z) (now : Time) : laneFlow :=
  if (laneRTTSampleGap <=? now - lastSample f) && (rn f <? laneRTTRingCap)%nat
  then setRing f (<[((head f + rn f) mod laneRTTRingCap)%nat := mkSample now t]> (samples f))
         (head f) (S (rn f)) now
  else f.
Definition onSent (f : laneFlow) (n : Z) (now : Time) : laneFlow :=
  let f := sendAdd f n in recordSent f (tx f) now.

Definition onRecv (f : laneFlow) (n : Z) : laneFlow := setRx f (wrap 64 (rx f + wrap 64 n)).

(** Pops the samples an ack covers, [k] of them at most; returns the last RTT. *)
Fixpoint popSamples (k : nat) (f : laneFlow) (r : Z) (now : Time) (rtt : Duration)
  : laneFlow * Duration :=
  match k with
  | O => (f, rtt)
  | S k' =>
      if sTx (sampleAt f (head f)) <=? r
      then popSamples k' (setRing f (samples f) ((head f + 1) mod laneRTTRingCap)%nat (pred (rn f)) (lastSample f))
             r now (now - sAt (sampleAt f (head f)))
      else (f, rtt)
  end.

Definition foldMinRTTLocked (f : laneFlow) (rtt : Duration) (now : Time) : laneFlow :=
  if IsZero (minBucketAt f) || (laneMinRTTBucket <=? now - minBucketAt f)
  then setMin f (rtt :: take (laneMinRTTBuckets - 1) (minBuckets f)) now
  else if rtt <? default 0 (minBuckets f !! 0%nat)
  then setMin f (<[0%nat := rtt]> (minBuckets f)) (minBucketAt f)
  else f.

Definition onAck (f : laneFlow) (r0 : Z) (now : Time) : laneFlow :=
  let r := if tx f <? r0 then tx f else r0 in
  if r <? acked f then f
  else
    let adv := if acked f <? r then now else ackedAdvancedAt f in
    let f := setAcked f r true now adv in
    let '(f, rtt) := popSamples (rn f) f r now 0 in
    let f :=
      if 0 <? rtt then
        let sr := if srtt f =? 0 then rtt else srtt f + Z.quot (rtt - srtt f) 8 in
        foldMinRTTLocked (setRTT f sr rtt) rtt now
      else f in
    if IsZero (rateAt f) then setRate f (rate f) r now
    else
      let dt := now - rateAt f in
      if laneRateWindow <=? dt then
        let s := fdiv (f64 (wrap 64 (r - rateAcked f))) (Seconds dt) in
        let rt := if fle (rate f) s then s
                  else fadd (rate f) (fmul (f64_frac 1 4) (fsub s (rate f))) in
        setRate f rt r now
      else f.

Definition minRTTLocked (f : laneFlow) : Duration :=
  foldl (fun m b => if (0 <? b) && ((m =? 0) || (b <? m)) then b else m) 0 (minBuckets f).

(** [t] is the value of [tx] that was loaded before the lock. *)
Definition inflight (t : Z) (f : laneFlow) : Z * bool :=
  if negb (gated f) then (0, false) else (swrap 64 (t - acked f), true).

Definition adjustCap (f : laneFlow) (now : Time) : laneFlow :=
  if negb (gated f) then f
  else if negb (IsZero (lastAdjustAt f)) && (now - lastAdjustAt f <? laneCapAdjustInterval) then f
  else
    let minRTT := minRTTLocked f in
    if (minRTT <=? 0) || (srtt f <=? 0) then f
    else
      let neg := srtt f <? minRTT in
      let qd := srtt f - minRTT in
      let qd := if qd <? 0 then 0 else qd in
      let cap := if capVal f =? 0 then laneCapInitial else capVal f in
      let cap :=
        if laneQDTarget <? qd then
          let scale := fdiv (f64 laneQDTarget) (f64 qd) in
          let scale := if flt scale (f64_frac 1 2) then f64_frac 1 2 else scale in
          ftrunc (fmul (f64 cap) scale)
        else if negb neg && (qd <? Z.quot laneQDTarget 2) &&
                (Z.quot cap 2 <=? swrap 64 (tx f - acked f))
        then cap + Z.quot cap 4
        else cap in
      let cap := if cap <? laneCapMin then laneCapMin else cap in
      let cap := if laneCapMax <? cap then laneCapMax else cap in
      let f := setCap f cap now in
      if neg then
        let f := setNeg f (negQDRounds f + 1) in
        if laneNegQDResetRounds <=? negQDRounds f
        then setNeg (setMin f (srtt f :: replicate (laneMinRTTBuckets - 1) 0) now) 0
        else f
      else setNeg f 0.

(** (cap, inflight, gated), with the loaded [t]. *)
Definition gateState (t : Z) (f : laneFlow) : Z * Z * bool :=
  if negb (gated f) then (0, 0, false)
  else ((if capVal f =? 0 then laneCapInitial else capVal f), swrap 64 (t - acked f), true).

Definition isGated (f : laneFlow) : bool := gated f.

Definition stallCheck (f : laneFlow) (now : Time) : laneFlow :=
  if negb (gated f) || IsZero (ackedAdvancedAt f) || negb (IsZero (stallWarnedAt f)) then f
  else if swrap 64 (tx f - acked f) <=? 0 then f
  else if now - ackedAdvancedAt f <? laneStallTimeout then f
  else setStall f now.

Record laneFlowSnapshot := mkSnapshot {
  snTx : Z; snInflight : Z; snCap : Z; snGated : bool;
  snSrtt : Duration; snLastRTT : Duration; snMinRTT : Duration; snRate : float64
}.

Definition snapshot (t : Z) (f : laneFlow) : laneFlowSnapshot :=
  mkSnapshot (swrap 64 t)
    (if gated f then swrap 64 (t - acked f) else 0)
    (if gated f then if capVal f =? 0 then laneCapInitial else capVal f else 0)
    (gated f) (srtt f) (lastRTT f) (minRTTLocked f) (rate f).

(** ** The wire format of lane acks *)

Record laneAckEntry := mkAck { laneID : Z; ackRx : Z }.

Definition encodeLaneAck (entries : list laneAckEntry) : list Z :=
  flat_map (fun e => PutUint32 (laneID e) ++ PutUint64 (ackRx e)) entries.

(** [n] entries from offset [0] of [p]. *)
Fixpoint decodeLaneAckN (n : nat) (p : list Z) : list laneAckEntry :=
  match n with
  | O => []
  | S n' => mkAck (Uint32 p) (Uint64 (drop 4 p)) :: decodeLaneAckN n' (from p laneAckEntrySize)
  end.

Definition decodeLaneAck (p : list Z) : list laneAckEntry :=
  decodeLaneAckN (Z.to_nat (len p / laneAckEntrySize)) p.

(** ** The ring buffer as a queue *)

Definition ringList (f : laneFlow) : list laneTxSample :=
  map (fun k => sampleAt f ((head f + k) mod laneRTTRingCap)%nat) (seq 0 (rn f)).

Definition ringOk (f : laneFlow) : Prop :=
  length (samples f) = laneRTTRingCap /\ (head f < laneRTTRingCap)%nat /\ (rn f <= laneRTTRingCap)%nat.

(** What an ack of [r] bytes leaves in the queue, and the age of the newest
    sample it covers. *)
Fixpoint dropCovered (r : Z) (l : list laneTxSample) : list laneTxSample :=
  match l with
  | [] => []
  | s :: l' => if sTx s <=? r then dropCovered r l' else l
  end.

Fixpoint coveredRTT (r : Z) (now : Time) (l : list laneTxSample) (rtt : Duration) : Duration :=
  match l with
  | [] => rtt
  | s :: l' => if sTx s <=? r then coveredRTT r now l' (now - sAt s) else rtt
  end.

Definition pushSample (f : laneFlow) (s : laneTxSample) : laneFlow :=
  setRing f (<[((head f + rn f) mod laneRTTRingCap)%nat := s]> (samples f)) (head f) (S (rn f)) (sAt s).

Definition popSample (f : laneFlow) : laneFlow :=
  setRing f (samples f) ((head f + 1) mod laneRTTRingCap)%nat (pred (rn f)) (lastSample f).

Lemma ring_index_inj h i j :
  (i < laneRTTRingCap)%nat -> (j < laneRTTRingCap)%nat ->
  ((h + i) mod laneRTTRingCap)%nat = ((h + j) mod laneRTTRingCap)%nat -> i = j.
Proof.
  intros Hi Hj E. apply (f_equal Z.of_nat) in E. rewrite !Nat2Z.inj_mod in E.
  assert (Z.of_nat laneRTTRingCap = 256) as Hc by reflexivity.
  rewrite Hc in E. assert (Z.of_nat i < 256 /\ Z.of_nat j < 256) by lia.
  clear Hc. Z.to_euclidean_division_equations. lia.
Qed.

Lemma ringList_push f s :
  ringOk f -> (rn f < laneRTTRingCap)%nat -> ringList (pushSample f s) = ringList f ++ [s].
Proof.
  intros (Hl & Hh & _) Hn. unfold ringList, pushSample; cbn [rn head setRing].
  rewrite seq_S, map_app. f_equal.
  - apply map_ext_in. intros k Hk%in_seq. unfold sampleAt; cbn [samples setRing].
    rewrite list_lookup_insert_ne; [done|]. intros E. apply ring_index_inj in E; lia.
  - cbn [map]. unfold sampleAt; cbn [samples setRing].
    rewrite list_lookup_insert_eq; [done|]. rewrite Hl. apply Nat.mod_upper_bound. done.
Qed.

Lemma ringList_pop f :
  ringOk f -> (0 < rn f)%nat -> ringList f = sampleAt f (head f) :: ringList (popSample f).
Proof.
  intros (Hl & Hh & _) Hn. unfold ringList. destruct (rn f) as [|n] eqn:E; [lia|].
  cbn [popSample rn head setRing seq map]. rewrite E. cbn [pred]. f_equal.
  - rewrite Nat.add_0_r, Nat.mod_small by done. done.
  - rewrite <- seq_shift, map_map. apply map_ext_in. intros k _.
    unfold sampleAt; cbn [samples setRing popSample]. rewrite Nat.Div0.add_mod_idemp_l.
    by replace (head f + S k)%nat with (head f + 1 + k)%nat by lia.
Qed.

Lemma ringOk_push f s : ringOk f -> (rn f < laneRTTRingCap)%nat -> ringOk (pushSample f s).
Proof. intros (? & ? & ?) ?. repeat split; simpl; rewrite ?length_insert; done || lia. Qed.

Lemma ringOk_pop f : ringOk f -> ringOk (popSample f).
Proof. intros (? & ? & ?). split_and!; cbn [popSample samples head rn setRing]; [done|by apply Nat.mod_upper_bound|lia]. Qed.

(** Everything of a flow but its ring. *)
Definition sameBut (f f' : laneFlow) : Prop :=
  f' = setRing f (samples f') (head f') (rn f') (lastSample f).

Lemma popSamples_spec k : forall f r now rtt,
  ringOk f -> k = rn f ->
  let '(f', rtt') := popSamples k f r now rtt in
  sameBut f f' /\ ringOk f' /\ ringList f' = dropCovered r (ringList f) /\
  rtt' = coveredRTT r now (ringList f) rtt.
Proof.
  induction k as [|k IH]; intros f r now rtt Hok Hk; cbn [popSamples].
  - unfold ringList. rewrite <- Hk. split_and!; try done. by destruct f.
  - rewrite (ringList_pop f) by (done || lia). cbn [dropCovered coveredRTT].
    destruct (sTx (sampleAt f (head f)) <=? r) eqn:E.
    + specialize (IH (popSample f) r now (now - sAt (sampleAt f (head f)))
                    (ringOk_pop f Hok) ltac:(simpl; lia)).
      unfold popSample in IH at 1. destruct (popSamples k _ r now _) as [f' rtt'].
      by destruct IH as (Hs & Ho & Hl & Hr).
    + split_and!; try done. { by destruct f. } by rewrite (ringList_pop f) by (done || lia).
Qed.

(** ** The invariant of a lane *)

Definition txLe (a b : laneTxSample) : Prop := sTx a <= sTx b.

Record flowInv (f : laneFlow) : Prop := {
  fi_bytes : 0 <= acked f <= tx f /\ tx f < 2 ^ 63;
  fi_ring : ringOk f;
  fi_sorted : StronglySorted txLe (ringList f);
  fi_samples : Forall (fun s => acked f <= sTx s <= tx f) (ringList f);
  fi_cap : capVal f = 0 \/ laneCapMin <= capVal f <= laneCapMax;
  fi_rtt : 0 <= srtt f /\ length (minBuckets f) = laneMinRTTBuckets /\ Forall (fun b => 0 <= b) (minBuckets f);
  fi_neg : 0 <= negQDRounds f < laneNegQDResetRounds;
  fi_rate : 0 <= rateAcked f <= acked f
}.

(** A lane with a send whose sample is still to be taken, and the values of [tx] that
    readers have loaded. *)
Record laneState := mkLane { lFlow : laneFlow; lPending : option (Z * Time); lLoaded : list Z }.

Inductive laneEvent :=
| EAdd (n : Z) (now : Time)
| ERecord
| ELoad
| ERecv (n : Z)
| EAck (r : Z) (now : Time)
| EAdjust (now : Time)
| EStall (now : Time)
| EReport (v : Z).

Definition onFlow (g : laneFlow -> laneFlow) (s : laneState) : laneState := mkLane (g (lFlow s)) (lPending s) (lLoaded s).

(** The writer finishes one send before it starts the next. *)
Definition laneExec (e : laneEvent) (s : laneState) : option laneState :=
  match e with
  | EAdd n now =>
      match lPending s with
      | Some _ => None
      | None => let f := sendAdd (lFlow s) n in Some (mkLane f (Some (tx f, now)) (lLoaded s))
      end
  | ERecord =>
      match lPending s with
      | Some (t, now) => Some (mkLane (recordSent (lFlow s) t now) None (lLoaded s))
      | None => None
      end
  | ELoad => Some (mkLane (lFlow s) (lPending s) (tx (lFlow s) :: lLoaded s))
  | ERecv n => Some (onFlow (fun f => onRecv f n) s)
  | EAck r now => Some (onFlow (fun f => onAck f r now) s)
  | EAdjust now => Some (onFlow (fun f => adjustCap f now) s)
  | EStall now => Some (onFlow (fun f => stallCheck f now) s)
  | EReport v => Some (onFlow (fun f => setReported f v) s)
  end.

(** Payload lengths are not negative and fewer than 2^63 bytes are ever sent. *)
Definition laneGuard (s : laneState) (e : laneEvent) : Prop :=
  match e with
  | EAdd n _ => 0 <= n /\ tx (lFlow s) + n < 2 ^ 63
  | EAck r _ => 0 <= r
  | _ => True
  end.

Inductive laneReach : laneState -> Prop :=
| lane_new : laneReach (mkLane newLaneFlow None [])
| lane_step s e s' : laneReach s -> laneGuard s e -> laneExec e s = Some s' -> laneReach s'.

Lemma flowInv_new : flowInv newLaneFlow.
Proof.
  constructor; cbn -[replicate]; unfold laneNegQDResetRounds; try lia; try done; try (by constructor).
  - split_and!; simpl; unfold laneRTTRingCap; lia || done.
  - split_and!; [lia|done|]. apply Forall_replicate. lia.
Qed.

Lemma dropCovered_suffix r l : exists k, l = k ++ dropCovered r l /\ Forall (fun s => sTx s <= r) k.
Proof.
  induction l as [|s l (k & E & Hk)]; [by exists []|]. simpl. destruct (Z.leb_spec (sTx s) r).
  - exists (s :: k). split; [by rewrite E at 1|by constructor].
  - by exists [].
Qed.

Lemma sorted_drop (k l : list laneTxSample) : StronglySorted txLe (k ++ l) -> StronglySorted txLe l.
Proof. induction k; [done|]. simpl. inversion 1. auto. Qed.

Lemma dropCovered_sorted r l : StronglySorted txLe l -> StronglySorted txLe (dropCovered r l).
Proof. intros H. destruct (dropCovered_suffix r l) as (k & E & _). rewrite E in H. by apply sorted_drop in H. Qed.

Lemma dropCovered_gt r l : StronglySorted txLe l -> Forall (fun s => r < sTx s) (dropCovered r l).
Proof.
  induction 1 as [|s l Hs IH Hall]; [done|]. simpl. destruct (Z.leb_spec (sTx s) r); [done|].
  constructor; [done|]. eapply List.Forall_impl; [|exact Hall]. unfold txLe; simpl; lia.
Qed.

Lemma sorted_snoc l s :
  StronglySorted txLe l -> Forall (fun x => sTx x <= sTx s) l -> StronglySorted txLe (l ++ [s]).
Proof.
  induction 1 as [|x l Hl IH Hx]; intros Hs; simpl; [repeat constructor|].
  apply Forall_cons_iff in Hs as [Hxs Hs]. constructor; [by apply IH|].
  apply Forall_app; split; [done|by repeat constructor].
Qed.

Lemma flowInv_sendAdd f n :
  flowInv f -> 0 <= n -> tx f + n < 2 ^ 63 -> flowInv (sendAdd f n) /\ tx (sendAdd f n) = tx f + n.
Proof.
  intros [[Hb1 Hb2] Hring Hs Hsa Hcap Hrtt Hneg Hrate] Hn Hlt. unfold sendAdd.
  assert (wrap 64 (tx f + wrap 64 n) = tx f + n) as ->.
  { rewrite (wrap_small 64 n), wrap_small; lia. }
  split; [|done]. constructor; simpl; try done; try lia. eapply List.Forall_impl; [|exact Hsa]. simpl. lia.
Qed.

Lemma flowInv_recordSent f now : flowInv f -> flowInv (recordSent f (tx f) now) /\ tx (recordSent f (tx f) now) = tx f.
Proof.
  intros Hi. unfold recordSent.
  destruct (_ && _) eqn:E; [|done]. apply andb_prop in E as [_ E]. apply Nat.ltb_lt in E. split; [|done].
  change (flowInv (pushSample f (mkSample now (tx f)))).
  destruct Hi as [? Hring' Hs' Hsa' ? ? ? ?].
  pose proof (ringList_push _ (mkSample now (tx f)) Hring' E) as Hl.
  constructor; try done; [by apply ringOk_push|rewrite Hl..].
  - apply sorted_snoc; [done|]. eapply List.Forall_impl; [|exact Hsa']. simpl. lia.
  - apply Forall_app; split; [done|]. repeat constructor; simpl; lia.
Qed.

Lemma flowInv_onSent f n now : flowInv f -> 0 <= n -> tx f + n < 2 ^ 63 -> flowInv (onSent f n now).
Proof. intros Hi Hn Hlt. destruct (flowInv_sendAdd f n Hi Hn Hlt) as [Hi' _]. by apply flowInv_recordSent. Qed.

Lemma srtt_update sr rtt : 0 <= sr -> 0 < rtt -> sr <> 0 ->
  0 < sr + Z.quot (rtt - sr) 8 /\ Z.min sr rtt <= sr + Z.quot (rtt - sr) 8 <= Z.max sr rtt.
Proof. intros. Z.to_euclidean_division_equations. lia. Qed.

Lemma flowInv_setMin f b at' :
  flowInv f -> length b = laneMinRTTBuckets -> Forall (fun b => 0 <= b) b -> flowInv (setMin f b at').
Proof. intros [? ? ? ? ? (? & ? & ?) ? ?] ? ?. by constructor. Qed.

Lemma flowInv_rtt f rtt now :
  flowInv f -> 0 < rtt ->
  flowInv (foldMinRTTLocked (setRTT f (if srtt f =? 0 then rtt else srtt f + Z.quot (rtt - srtt f) 8) rtt) rtt now).
Proof.
  intros [? ? ? ? ? (Hsr & Hlen & Hpos) ? ?] Hr.
  match goal with |- context [setRTT f ?x rtt] => remember x as sr eqn:Esr end.
  assert (0 <= sr) as Hsr'.
  { rewrite Esr. destruct (Z.eqb_spec (srtt f) 0); [lia|].
    pose proof (srtt_update (srtt f) rtt Hsr Hr n). lia. }
  assert (flowInv (setRTT f sr rtt)) as Hi by (by constructor).
  unfold foldMinRTTLocked.
  destruct (_ || _); [|destruct (rtt <? _); [|done]]; apply flowInv_setMin; try done.
  - assert (length (take 9 (minBuckets f)) = 9%nat) as Ht by (rewrite length_take, Hlen; done).
    exact (f_equal S Ht).
  - constructor; [lia|by apply Forall_take].
  - by rewrite length_insert.
  - apply Forall_insert; [done|lia].
Qed.

Lemma flowInv_onAck f r0 now : flowInv f -> 0 <= r0 -> flowInv (onAck f r0 now).
Proof.
  intros Hi Hr0. unfold onAck. remember (if tx f <? r0 then tx f else r0) as r eqn:Er.
  destruct (Z.ltb_spec r (acked f)) as [|Hge]; [done|].
  destruct Hi as [[Hb1 Hb2] Hring Hs Hsa Hcap Hrtt Hneg Hrate].
  assert (0 <= r <= tx f) as Hr by (subst r; destruct (Z.ltb_spec (tx f) r0); lia).
  remember (setAcked f r true now (if acked f <? r then now else ackedAdvancedAt f)) as f1 eqn:E1.
  assert (ringOk f1 /\ ringList f1 = ringList f) as [Hr1 Hl1] by (subst f1; done).
  pose proof (popSamples_spec (rn f1) f1 r now 0 Hr1 eq_refl) as Hpop.
  destruct (popSamples (rn f1) f1 r now 0) as [f2 rtt]. destruct Hpop as (Hsame & Hr2 & Hl2 & _).
  assert (flowInv f2) as Hi2.
  { unfold sameBut in Hsame. rewrite Hl1 in Hl2.
    assert (StronglySorted txLe (ringList f2)) by (rewrite Hl2; by apply dropCovered_sorted).
    assert (Forall (fun s => r <= sTx s <= tx f) (ringList f2)).
    { apply List.Forall_and.
      - rewrite Hl2. eapply List.Forall_impl; [|by apply dropCovered_gt]. simpl; lia.
      - destruct (dropCovered_suffix r (ringList f)) as (k & E & _). rewrite <- Hl2 in E.
        rewrite E in Hsa. apply Forall_app in Hsa as [_ Hsa].
        eapply List.Forall_impl; [|exact Hsa]. simpl; lia. }
    rewrite Hsame in *. subst f1. constructor; simpl in *; try done; lia. }
  assert (acked f2 = r) as Ha2 by (rewrite Hsame; by subst f1).
  clear Hsame Hl2 Hr2.
  remember (if 0 <? rtt then _ else f2) as f3 eqn:E3.
  assert (flowInv f3 /\ acked f3 = r) as [Hi3 Ha3].
  { rewrite E3. destruct (Z.ltb_spec 0 rtt); [|done]. split; [by apply flowInv_rtt|].
    unfold foldMinRTTLocked. by repeat case_match. }
  assert (forall rt at', flowInv (setRate f3 rt r at')) as Hrt.
  { intros rt at'. destruct Hi3. constructor; simpl; try done. lia. }
  repeat case_match; try done; apply Hrt.
Qed.

Lemma flowInv_adjust f now : flowInv f -> flowInv (adjustCap f now).
Proof.
  intros Hi. unfold adjustCap. destruct (negb (gated f)); [done|]. case_match; [done|].
  destruct (_ || _) eqn:E; [done|]. apply orb_false_iff in E as [Em Es].
  remember (if laneQDTarget <? _ then _ else _) as c eqn:Ec. clear Ec.
  remember (if laneCapMax <? _ then _ else _) as c' eqn:Ec'.
  assert (laneCapMin <= c' <= laneCapMax) as Hc'.
  { rewrite Ec'. unfold laneCapMin, laneCapMax. destruct (Z.ltb_spec c 65536);
      [reflexivity || (destruct (Z.ltb_spec 8388608 65536); lia)|].
    destruct (Z.ltb_spec 8388608 c); lia. }
  clear Ec'. destruct Hi as [? ? ? ? ? (? & ? & ?) Hneg ?].
  assert (forall n, 0 <= n < laneNegQDResetRounds -> flowInv (setNeg (setCap f c' now) n)) as Hn.
  { intros n Hn. constructor; simpl; try done. by right. }
  destruct (srtt f <? minRTTLocked f).
  - match goal with |- context [laneNegQDResetRounds <=? ?n] =>
      destruct (Z.leb_spec laneNegQDResetRounds n) as [Hle|Hlt] end.
    + apply (flowInv_setMin (setNeg (setCap f c' now) 0)).
      * apply Hn. unfold laneNegQDResetRounds; lia.
      * done.
      * constructor; [done|]. apply Forall_replicate. lia.
    + simpl in Hlt. apply Hn. simpl. lia.
  - apply Hn. unfold laneNegQDResetRounds; lia.
Qed.

Lemma flowInv_stall f now : flowInv f -> flowInv (stallCheck f now).
Proof. intros Hi. unfold stallCheck. repeat case_match; try done. by destruct Hi; constructor. Qed.

(** The other methods leave the counter alone. *)
Lemma popSamples_tx k : forall f r now rtt, tx (fst (popSamples k f r now rtt)) = tx f.
Proof. induction k as [|k IH]; intros f r now rtt; simpl; [done|]. case_match; [by rewrite IH|done]. Qed.
Lemma onAck_tx f r now : tx (onAck f r now) = tx f.
Proof.
  unfold onAck. case_match; [done|]. match goal with |- context [popSamples ?k ?g ?r ?n 0] => pose proof (popSamples_tx k g r n 0) as Hp end.
  destruct (popSamples _ _ _ _ _) as [f2 rtt]. cbn [fst] in Hp. unfold foldMinRTTLocked. repeat case_match; done.
Qed.
Lemma adjustCap_tx f now : tx (adjustCap f now) = tx f.
Proof. unfold adjustCap. destruct (negb (gated f)); [done|]. case_match; [done|]. case_match; [done|]. case_match; [case_match|]; done. Qed.
Lemma stallCheck_tx f now : tx (stallCheck f now) = tx f.
Proof. unfold stallCheck. repeat case_match; done. Qed.

(** The invariant of a lane: a pending sample is the last value of the counter, and what
    was loaded was sent. *)
Record laneInv (s : laneState) : Prop := {
  li_flow : flowInv (lFlow s);
  li_pending : forall t now, lPending s = Some (t, now) -> t = tx (lFlow s);
  li_loaded : Forall (fun t => 0 <= t <= tx (lFlow s)) (lLoaded s)
}.

Lemma laneInv_onFlow g s : laneInv s -> flowInv (g (lFlow s)) -> tx (g (lFlow s)) = tx (lFlow s) -> laneInv (onFlow g s).
Proof. intros [_ Hp Hl] Hi Ht. constructor; simpl; [done|by rewrite Ht|by rewrite Ht]. Qed.

Lemma laneInv_step s e s' : laneInv s -> laneGuard s e -> laneExec e s = Some s' -> laneInv s'.
Proof.
  intros Hs Hg H. pose proof Hs as [Hi Hp Hl]. destruct e; simpl in H, Hg; try (injection H as <-).
  - destruct (lPending s); [done|]. injection H as <-. destruct Hg as [Hn Hlt].
    destruct (flowInv_sendAdd _ n Hi Hn Hlt) as [Hi' Ht]. constructor; cbn -[sendAdd]; [done|by intros t now' [= <- _]|].
    rewrite Ht. eapply List.Forall_impl; [|exact Hl]. simpl. lia.
  - destruct (lPending s) as [[t now]|]; [|done]. injection H as <-. rewrite (Hp t now eq_refl).
    destruct (flowInv_recordSent _ now Hi) as [Hi' Ht]. constructor; simpl; [done|done|by rewrite Ht].
  - constructor; simpl; [done|done|]. constructor; [pose proof (fi_bytes _ Hi); lia|done].
  - apply laneInv_onFlow; [done|by destruct Hi; constructor|done].
  - apply laneInv_onFlow; [done|by apply flowInv_onAck|apply onAck_tx].
  - apply laneInv_onFlow; [done|by apply flowInv_adjust|apply adjustCap_tx].
  - apply laneInv_onFlow; [done|by apply flowInv_stall|apply stallCheck_tx].
  - apply laneInv_onFlow; [done|by destruct Hi; constructor|done].
Qed.

Lemma laneInv_reach s : laneReach s -> laneInv s.
Proof.
  induction 1; [|by eapply laneInv_step]. constructor; simpl; [apply flowInv_new|done|constructor].
Qed.

(** ** Properties *)

(** The cap in force: the initial one until the first adjustment. *)
Definition effectiveCap (f : laneFlow) : Z := if capVal f =? 0 then laneCapInitial else capVal f.

Lemma effectiveCap_range f : flowInv f -> laneCapMin <= effectiveCap f <= laneCapMax.
Proof.
  intros [? ? ? ? Hc ? ? ?]. unfold effectiveCap, laneCapMin, laneCapMax, laneCapInitial in *.
  destruct (Z.eqb_spec (capVal f) 0); lia.
Qed.

Lemma swrap_inflight f : flowInv f -> swrap 64 (tx f - acked f) = tx f - acked f.
Proof. intros [Hb ? ? ? ? ? ? ?]. apply swrap_small; [lia|]. change (2 ^ (64 - 1)) with (2 ^ 63). lia. Qed.

Lemma swrap_loaded t f : flowInv f -> 0 <= t <= tx f -> swrap 64 (t - acked f) = t - acked f.
Proof. intros [Hb ? ? ? ? ? ? ?] Ht. apply swrap_small; [lia|]. change (2 ^ (64 - 1)) with (2 ^ 63). lia. Qed.

(** C31: in every state a lane can reach, with a send's sample taken late and readers
    between their load and the lock, the peer has acknowledged no more than
    was sent, the cap stays within its bounds, and the queue of send samples
    is ordered and holds only unacknowledged positions.  A reader that loaded the counter
    at [t] computes exactly [t] minus what is acknowledged when it has the lock: never more
    than what is in flight then, less by what was sent since, and so below zero when an
    ack of later bytes came in between ([gate_reads_negative]); when nothing was sent since
    the load it is the exact number of bytes in flight. *)
Theorem laneFlow_invariant s :
  laneReach s ->
  let f := lFlow s in
  flowInv f /\ 0 <= tx f - acked f <= tx f /\ laneCapMin <= effectiveCap f <= laneCapMax /\
  forall t, t ∈ tx f :: lLoaded s -> gated f = true ->
    let infl := tx f - acked f - (tx f - t) in
    gateState t f = (effectiveCap f, infl, true) /\ inflight t f = (infl, true) /\ snInflight (snapshot t f) = infl /\
    0 <= tx f - t <= tx f.
Proof.
  intros Hr f. destruct (laneInv_reach s Hr) as [Hi _ Hl]. fold f in Hi, Hl.
  pose proof (effectiveCap_range f Hi). pose proof (fi_bytes f Hi). split_and!; try done; try lia.
  intros t Ht Hg. assert (Htx : 0 <= t <= tx f).
  { apply elem_of_cons in Ht as [->|Ht]; [lia|]. rewrite List.Forall_forall in Hl. apply Hl. by apply list_elem_of_In. }
  unfold gateState, inflight, snapshot. rewrite Hg, (swrap_loaded t f Hi Htx). simpl.
  replace (t - acked f) with (tx f - acked f - (tx f - t)) by lia. split_and!; done || lia.
Qed.

(** A lane that sent 1000 bytes and saw 400 of them acknowledged. *)
Definition demoSent : laneFlow := onSent (onSent newLaneFlow 400 (1 * Second)) 600 (2 * Second).
Definition demoFlow : laneFlow := onAck demoSent 400 (3 * Second).

Lemma flowInv_demoSent : flowInv demoSent.
Proof.
  apply flowInv_onSent; [apply flowInv_onSent; [apply flowInv_new|lia|]|lia|].
  - change (tx newLaneFlow) with 0. lia.
  - replace (tx (onSent newLaneFlow 400 (1 * Second))) with 400 by (vm_compute; reflexivity). lia.
Qed.

Lemma flowInv_demoFlow : flowInv demoFlow.
Proof. apply flowInv_onAck; [apply flowInv_demoSent|lia]. Qed.

Fixpoint laneRun (es : list laneEvent) (s : laneState) : option laneState :=
  match es with [] => Some s | e :: es => match laneExec e s with Some s => laneRun es s | None => None end end.

(** A reader of the gate loads the counter; 600 more bytes are sent and everything is
    acknowledged before it has the lock. *)
Definition demoRace : list laneEvent :=
  [EAdd 400 (1 * Second); ERecord; EAck 0 (1 * Second); ELoad; EAdd 600 (2 * Second); EAck 1000 (3 * Second); ERecord].
Definition demoRaced : laneState := default (mkLane newLaneFlow None []) (laneRun demoRace (mkLane newLaneFlow None [])).

(** It reads 600 bytes less than nothing in flight. *)
Example gate_reads_negative : lLoaded demoRaced = [400] /\ gateState 400 (lFlow demoRaced) = (laneCapInitial, -600, true).
Proof. split; vm_compute; reflexivity. Qed.

Fixpoint laneGuarded (es : list laneEvent) (s : laneState) : Prop :=
  match es with
  | [] => True
  | e :: es => laneGuard s e /\ match laneExec e s with Some s => laneGuarded es s | None => True end
  end.

Lemma laneReach_run es : forall s s', laneReach s -> laneGuarded es s -> laneRun es s = Some s' -> laneReach s'.
Proof.
  induction es as [|e es IH]; intros s s' Hr Hg H; simpl in Hg, H; [by injection H as <-|].
  destruct Hg as [Hg1 Hg2]. destruct (laneExec e s) as [s1|] eqn:E; [|done].
  apply (IH s1); [by eapply lane_step|done|done].
Qed.

Lemma demoRaced_reach : laneReach demoRaced.
Proof.
  apply (laneReach_run demoRace (mkLane newLaneFlow None [])); [constructor| |vm_compute; reflexivity].
  vm_compute. repeat split; congruence.
Qed.

Lemma laneFlow_invariant_witness :
  gateState (tx (lFlow demoRaced)) (lFlow demoRaced) = (laneCapInitial, 0, true) /\
  gateState 400 (lFlow demoRaced) = (laneCapInitial, -600, true) /\ flowInv (lFlow demoRaced).
Proof.
  destruct (laneFlow_invariant demoRaced demoRaced_reach) as (Hi & _ & _ & H). split_and!; [| |exact Hi].
  - destruct (H (tx (lFlow demoRaced))) as [-> _]; [left|vm_compute; reflexivity|vm_compute; reflexivity].
  - destruct (H 400) as [-> _]; [right; vm_compute; left|vm_compute; reflexivity|vm_compute; reflexivity].
Defined.

(** An ack does exactly this: one that is older than what is already
    acknowledged changes nothing, one that claims more than was sent is taken as
    everything sent; otherwise it moves the acknowledged count there, arms the
    gate, removes from the sample queue exactly the samples it covers, and, when
    it covers one, measures the age of the newest, which pulls the smoothed RTT
    towards it without overshooting. *)
Theorem onAck_exact f r0 now :
  flowInv f -> 0 <= r0 ->
  let r := Z.min (tx f) r0 in
  let f' := onAck f r0 now in
  let rtt := coveredRTT r now (ringList f) 0 in
  if r <? acked f then f' = f
  else acked f' = r /\ tx f' = tx f /\ inflight (tx f') f' = (tx f - r, true) /\
       ringList f' = dropCovered r (ringList f) /\
       (if 0 <? rtt then lastRTT f' = rtt /\ 0 < srtt f' /\
          (srtt f = 0 -> srtt f' = rtt) /\
          (srtt f <> 0 -> Z.min (srtt f) rtt <= srtt f' <= Z.max (srtt f) rtt)
        else lastRTT f' = lastRTT f /\ srtt f' = srtt f).
Proof.
  intros Hi Hr0 r f' rtt. pose proof (flowInv_onAck f r0 now Hi Hr0 : flowInv f') as Hi'.
  assert (f' = onAck f r0 now) as Eh by done. clearbody f'.
  unfold onAck in Eh. assert ((if tx f <? r0 then tx f else r0) = r) as Er
    by (subst r; destruct (Z.ltb_spec (tx f) r0); lia).
  rewrite Er in Eh. clearbody r. clear Er. destruct (Z.ltb_spec r (acked f)); [done|].
  remember (setAcked f r true now (if acked f <? r then now else ackedAdvancedAt f)) as f1 eqn:E1.
  assert (ringOk f1) as Hok by (subst f1; apply Hi).
  pose proof (popSamples_spec (rn f1) f1 r now 0 Hok eq_refl) as Hpop.
  destruct (popSamples (rn f1) f1 r now 0) as [f2 rtt']. destruct Hpop as (Hsame & _ & Hl & Hrtt).
  assert (ringList f1 = ringList f) as Hl1 by (subst f1; done). rewrite Hl1 in *. fold rtt in Hrtt. subst rtt'.
  assert (acked f2 = r /\ tx f2 = tx f /\ gated f2 = true /\ srtt f2 = srtt f /\ lastRTT f2 = lastRTT f)
    as (H1 & H2 & H3 & H4 & H5) by (unfold sameBut in Hsame; rewrite Hsame, E1; done).
  clear Hsame E1. clearbody rtt.
  assert (acked f' = r /\ tx f' = tx f /\ gated f' = true /\ ringList f' = ringList f2 /\
          if 0 <? rtt then lastRTT f' = rtt /\
            srtt f' = if srtt f =? 0 then rtt else srtt f + Z.quot (rtt - srtt f) 8
          else lastRTT f' = lastRTT f /\ srtt f' = srtt f) as (K1 & K2 & K3 & K4 & K5).
  { rewrite Eh. destruct (0 <? rtt); unfold foldMinRTTLocked; rewrite ?H4; repeat case_match; done. }
  assert (inflight (tx f') f' = (tx f - r, true)) as K6.
  { unfold inflight. rewrite K3. simpl. rewrite swrap_inflight by done. by rewrite K1, K2. }
  split_and!; [done..|congruence|]. destruct (Z.ltb_spec 0 rtt) as [Hpos|]; [|done].
  destruct K5 as [-> ->]. pose proof (proj1 (fi_rtt f Hi)) as Hs0.
  destruct (Z.eqb_spec (srtt f) 0) as [|n]; [split_and!; done || lia|].
  pose proof (srtt_update (srtt f) rtt Hs0 Hpos n). split_and!; done || lia.
Qed.

Lemma onAck_exact_witness :
  acked (onAck demoSent 400 (3 * Second)) = 400 /\
  ringList (onAck demoSent 400 (3 * Second)) = [mkSample (2 * Second) 1000].
Proof.
  pose proof (onAck_exact demoSent 400 (3 * Second)) as H.
  assert ((Z.min (tx demoSent) 400 <? acked demoSent) = false) as E by (vm_compute; reflexivity).
  cbv zeta in H. rewrite E in H. destruct H as (H1 & _ & _ & H2 & _).
  - apply flowInv_demoSent.
  - lia.
  - split; [rewrite H1; vm_compute; reflexivity|]. rewrite H2. vm_compute. reflexivity.
Defined.

(** ** The ack codec *)

Definition ackOk (e : laneAckEntry) : Prop := is_uint 32 (laneID e) /\ is_uint 64 (ackRx e).

Lemma len_encodeLaneAck es : len (encodeLaneAck es) = laneAckEntrySize * len es.
Proof.
  induction es as [|e es IH]; [done|]. unfold encodeLaneAck in *. cbn [flat_map].
  rewrite !len_app, IH, len_cons. unfold laneAckEntrySize. 
  change (len (PutUint32 (laneID e))) with 4. change (len (PutUint64 (ackRx e))) with 8. lia.
Qed.

Lemma decodeLaneAck_encode es tail :
  Forall ackOk es -> len tail < laneAckEntrySize -> decodeLaneAck (encodeLaneAck es ++ tail) = es.
Proof.
  intros Hes Ht. unfold decodeLaneAck. rewrite len_app, len_encodeLaneAck.
  replace (Z.to_nat _) with (length es).
  2:{ rewrite Z.mul_comm, Z.div_add_l, Z.div_small by (unfold laneAckEntrySize in *; pose proof (len_nonneg tail); lia).
      unfold len; lia. }
  induction Hes as [|e es [H1 H2] Hes IH]; [done|].
  unfold encodeLaneAck in *. cbn [length decodeLaneAckN flat_map].
  rewrite <- !app_assoc, Uint32_put, (drop_app_length' (PutUint32 (laneID e))) by done.
  rewrite Uint64_put, app_assoc, from_app by done.
  rewrite IH, !wrap_small by done. by destruct e.
Qed.

Lemma bytes_split (p : list Z) n : n <= len p -> 0 <= n -> p = sub p 0 n ++ from p n.
Proof. intros. unfold sub, from. by rewrite drop_0, Z.sub_0_r, take_drop. Qed.

Lemma PutUint32_get' p : Forall is_byte p -> 4 <= len p -> PutUint32 (Uint32 p) = sub p 0 4.
Proof.
  intros Hp Hl. destruct p as [|a [|b [|c [|d p]]]]; try (unfold len in Hl; simpl in Hl; lia).
  rewrite !Forall_cons_iff in Hp; destruct Hp as (Ha & Hb & Hc & Hd & _).
  change (a :: b :: c :: d :: p) with ([a; b; c; d] ++ p). rewrite Uint32_app by done.
  by apply PutUint32_get.
Qed.

Lemma PutUint64_get p : Forall is_byte p -> 8 <= len p -> PutUint64 (Uint64 p) = sub p 0 8.
Proof.
  intros Hp Hl. unfold PutUint64, Uint64.
  pose proof (Uint32_range p Hp). pose proof (Forall_drop _ 4 _ Hp) as Hp4.
  pose proof (Uint32_range (drop 4 p) Hp4).
  rewrite lor_shiftl_add by lia.
  assert (Z.shiftr (Uint32 p * 2 ^ 32 + Uint32 (drop 4 p)) 32 = Uint32 p) as ->.
  { rewrite shiftr_div by lia. rewrite Z.div_add_l, Z.div_small by lia. lia. }
  assert (forall v w, v mod 2 ^ 32 = w mod 2 ^ 32 -> PutUint32 v = PutUint32 w) as Hmod.
  { intros v w E. pose proof (Uint32_put v []) as Ev. pose proof (Uint32_put w []) as Ew.
    rewrite app_nil_r in Ev, Ew. unfold wrap in Ev, Ew. rewrite E, <- Ew in Ev.
    unfold PutUint32 in *.
    rewrite <- (PutUint32_get (byte_of (Z.shiftr v 24)) (byte_of (Z.shiftr v 16)) (byte_of (Z.shiftr v 8)) (byte_of v))
      by apply byte_of_range.
    rewrite Ev. apply PutUint32_get; apply byte_of_range. }
  rewrite (Hmod (Uint32 p * 2 ^ 32 + Uint32 (drop 4 p)) (Uint32 (drop 4 p)))
    by (rewrite Z.add_comm, Z.mod_add; lia).
  rewrite !PutUint32_get' by (try done; unfold len in *; rewrite ?length_drop; lia).
  unfold sub. rewrite !drop_0. change (Z.to_nat (4 - 0)) with 4%nat. change (Z.to_nat (8 - 0)) with (4 + 4)%nat.
  by rewrite take_take_drop.
Qed.

(** The payload of a lane ack decodes to exactly the entries that were
    encoded, whatever partial entry trails it; conversely every payload decodes,
    to entries whose encoding is the payload without that trailing part. *)
Theorem laneAck_roundtrip es tail p :
  Forall ackOk es -> len tail < laneAckEntrySize -> Forall is_byte p ->
  decodeLaneAck (encodeLaneAck es ++ tail) = es /\
  exists tail', len tail' < laneAckEntrySize /\ p = encodeLaneAck (decodeLaneAck p) ++ tail' /\
                Forall ackOk (decodeLaneAck p).
Proof.
  intros Hes Ht Hp. split; [by apply decodeLaneAck_encode|].
  unfold decodeLaneAck. set (n := Z.to_nat (len p / laneAckEntrySize)).
  assert (laneAckEntrySize * Z.of_nat n <= len p < laneAckEntrySize * Z.of_nat n + laneAckEntrySize) as Hn.
  { subst n. pose proof (len_nonneg p). unfold laneAckEntrySize in *.
    rewrite Z2Nat.id by (apply Z.div_pos; lia). Z.to_euclidean_division_equations. lia. }
  clearbody n. revert p Hp Hn. induction n as [|n IH]; intros p Hp Hn.
  { exists p. split_and!; [lia|done|constructor]. }
  cbn [decodeLaneAckN]. unfold laneAckEntrySize in *.
  destruct (IH (from p 12)) as (tail' & Ht' & Ep & Hok).
  { by apply Forall_drop. } { rewrite len_from by lia. lia. }
  exists tail'. split; [done|]. split.
  - unfold encodeLaneAck in *. cbn [flat_map laneID ackRx].
    rewrite PutUint32_get', PutUint64_get by (try apply Forall_drop; try done; unfold len in *; rewrite ?length_drop; lia).
    rewrite <- app_assoc, <- Ep. rewrite (bytes_split p 12) at 1 by lia. f_equal.
    unfold sub. rewrite !drop_0. change (Z.to_nat (12 - 0)) with (4 + 8)%nat.
    change (Z.to_nat (4 - 0)) with 4%nat. change (Z.to_nat (8 - 0)) with 8%nat. by rewrite take_take_drop.
  - constructor; [|done]. split; simpl; [by apply Uint32_range|apply Uint64_range; by apply Forall_drop].
Qed.

Lemma laneAck_roundtrip_witness :
  decodeLaneAck (encodeLaneAck [mkAck 0 4096; mkAck 7 (2 ^ 40)] ++ [1; 2]) = [mkAck 0 4096; mkAck 7 (2 ^ 40)] /\
  exists tail', len tail' < laneAckEntrySize /\ [9; 9; 9] = encodeLaneAck (decodeLaneAck [9; 9; 9]) ++ tail'.
Proof.
  destruct (laneAck_roundtrip [mkAck 0 4096; mkAck 7 (2 ^ 40)] [1; 2] [9; 9; 9]) as [H1 (tl & H2 & H3 & _)].
  - repeat constructor; vm_compute; congruence.
  - reflexivity.
  - repeat constructor; vm_compute; congruence.
  - split; [exact H1|]. exists tl. done.
Defined.

(** ** The queueing-delay baseline *)

Definition adjustRun (f : laneFlow) (ts : list Time) : laneFlow := foldl adjustCap f ts.

(** Adjustments at least one interval apart, the first after [last]. *)
Fixpoint spaced (last : Time) (ts : list Time) : Prop :=
  match ts with
  | [] => True
  | t :: ts' => (last = 0 \/ laneCapAdjustInterval <= t - last) /\ spaced t ts'
  end.

(** One adjustment while the smoothed RTT is below the baseline. *)
Lemma adjustCap_negative f now :
  flowInv f -> gated f = true -> 0 < srtt f < minRTTLocked f ->
  (lastAdjustAt f = 0 \/ laneCapAdjustInterval <= now - lastAdjustAt f) ->
  adjustCap f now =
    let g := setCap f (effectiveCap f) now in
    if laneNegQDResetRounds <=? negQDRounds f + 1
    then setNeg (setMin (setNeg g (negQDRounds f + 1)) (srtt f :: replicate (laneMinRTTBuckets - 1) 0) now) 0
    else setNeg g (negQDRounds f + 1).
Proof.
  intros Hi Hg Hs Hdue. unfold adjustCap. rewrite Hg. simpl negb. cbv iota.
  assert (negb (IsZero (lastAdjustAt f)) && (now - lastAdjustAt f <? laneCapAdjustInterval) = false) as ->.
  { unfold IsZero. destruct Hdue as [->|]; [done|]. lia. }
  assert ((minRTTLocked f <=? 0) || (srtt f <=? 0) = false) as -> by lia.
  assert ((srtt f <? minRTTLocked f) = true) as -> by lia.
  assert ((if srtt f - minRTTLocked f <? 0 then 0 else srtt f - minRTTLocked f) = 0) as ->.
  { destruct (Z.ltb_spec (srtt f - minRTTLocked f) 0); lia. }
  change (laneQDTarget <? 0) with false. cbv iota. simpl negb. cbn [andb].
  fold (effectiveCap f). pose proof (effectiveCap_range f Hi).
  destruct (Z.ltb_spec (effectiveCap f) laneCapMin); [lia|].
  destruct (Z.ltb_spec laneCapMax (effectiveCap f)); [lia|]. done.
Qed.

Lemma minRTT_reset v : 0 < v -> foldl (fun m b => if (0 <? b) && ((m =? 0) || (b <? m)) then b else m) 0
  (v :: replicate (laneMinRTTBuckets - 1) 0) = v.
Proof. intros Hv. simpl. destruct (Z.ltb_spec 0 v); [done|lia]. Qed.

(** A polluted baseline repairs itself: when the smoothed RTT stays below
    the recorded minimum (no acks in between), the cap is not changed by any
    adjustment, and the 25th consecutive one (fewer if some already happened)
    rebuilds the baseline from the current RTT, after which the queueing delay
    reads zero. *)
Theorem negative_baseline_rebuilt f ts :
  flowInv f -> gated f = true -> 0 < srtt f < minRTTLocked f ->
  Z.of_nat (length ts) = laneNegQDResetRounds - negQDRounds f ->
  Forall (fun t => t <> 0) ts -> spaced (lastAdjustAt f) ts ->
  let f' := adjustRun f ts in
  minRTTLocked f' = srtt f /\ srtt f' = srtt f /\ negQDRounds f' = 0 /\
  effectiveCap f' = effectiveCap f /\ gated f' = true.
Proof.
  revert f. induction ts as [|t ts IH]; intros f Hi Hg Hs Hlen Hts Hsp f'; subst f'.
  { pose proof (fi_neg f Hi). simpl in Hlen. lia. }
  apply Forall_cons_iff in Hts as [Ht Hts]. destruct Hsp as [Hdue Hsp].
  unfold adjustRun; cbn [foldl]. fold (adjustRun (adjustCap f t) ts).
  pose proof (flowInv_adjust f t Hi) as Hi1. pose proof (effectiveCap_range f Hi) as Hcap.
  rewrite (adjustCap_negative f t Hi Hg Hs Hdue) in *. cbv zeta in *.
  cbn [length] in Hlen. rewrite Nat2Z.inj_succ in Hlen.
  assert (forall g, capVal g = effectiveCap f -> effectiveCap g = effectiveCap f) as Hec.
  { intros g E. unfold effectiveCap at 1. rewrite E. unfold laneCapMin in Hcap.
    destruct (Z.eqb_spec (effectiveCap f) 0); [lia|done]. }
  destruct (Z.leb_spec laneNegQDResetRounds (negQDRounds f + 1)) as [Hle|Hlt].
  - destruct ts; [|simpl in Hlen; lia]. unfold adjustRun; simpl foldl.
    split_and!; [apply minRTT_reset; lia|done|done|by apply Hec|done].
  - destruct (IH (setNeg (setCap f (effectiveCap f) t) (negQDRounds f + 1))) as (H1 & H2 & H3 & H4 & H5);
      try done.
    + simpl. lia.
    + split_and!; try done. rewrite H4. by apply Hec.
Qed.

(** A gated flow whose RTT fell from 9 to 3 seconds under a baseline of 5. *)
Definition demoNeg : laneFlow :=
  setNeg (setMin (setRTT (setAcked newLaneFlow 0 true 1 1) (3 * Second) (3 * Second))
                 (5 * Second :: replicate 9 0) 1) 23.

Lemma negative_baseline_rebuilt_witness :
  minRTTLocked (adjustRun demoNeg [1 * Second; 2 * Second]) = 3 * Second.
Proof.
  apply (negative_baseline_rebuilt demoNeg [1 * Second; 2 * Second]).
  - destruct flowInv_new. constructor; try done; simpl; unfold laneNegQDResetRounds; try lia.
    split_and!; [vm_compute; congruence|done|]. repeat constructor; vm_compute; congruence.
  - reflexivity.
  - vm_compute. done.
  - reflexivity.
  - repeat constructor; done.
  - vm_compute. split; [by left|]. split; [right; congruence|done].
Defined.

(** ** The stall guard *)

(** The stall guard opens the gate once and never again: on a stalled lane
    (data in flight, no advance for ten seconds) the first check disengages the
    gate, but a report that repeats the frozen count arms it again, and from then
    on no check, however late and whatever further frozen reports arrive, opens it. *)
Theorem stall_guard_defeated f now now1 ts :
  flowInv f -> gated f = true -> ackedAdvancedAt f <> 0 -> stallWarnedAt f = 0 -> now <> 0 ->
  acked f < tx f -> laneStallTimeout <= now - ackedAdvancedAt f ->
  gated (stallCheck f now) = false /\
  let f2 := onAck (stallCheck f now) (acked f) now1 in
  gated f2 = true /\ inflight (tx f2) f2 = (tx f - acked f, true) /\
  gated (foldl (fun g (t : Time * bool) =>
                  if snd t then onAck g (acked f) (fst t) else stallCheck g (fst t)) f2 ts) = true.
Proof.
  intros Hi Hg Hadv Hw Hnow Hfl Hstall.
  assert (stallCheck f now = setStall f now) as Es.
  { unfold stallCheck, IsZero. rewrite Hg, Hw, (swrap_inflight f Hi). simpl.
    destruct (Z.eqb_spec (ackedAdvancedAt f) 0); [done|]. simpl.
    destruct (Z.leb_spec (tx f - acked f) 0); [lia|].
    destruct (Z.ltb_spec (now - ackedAdvancedAt f) laneStallTimeout); [lia|done]. }
  assert (forall g t, tx g = tx f -> acked g = acked f -> stallWarnedAt g = now ->
    let g' := onAck g (acked f) t in
    tx g' = tx f /\ acked g' = acked f /\ stallWarnedAt g' = now /\ gated g' = true) as Hack.
  { intros g t Et Ea Ew. unfold onAck. rewrite Et, Ea.
    destruct (Z.ltb_spec (tx f) (acked f)); [lia|]. destruct (Z.ltb_spec (acked f) (acked f)); [lia|].
    remember (setAcked g _ _ _ _) as g1 eqn:E1.
    assert (forall k h r, tx h = tx f -> acked h = acked f -> stallWarnedAt h = now -> gated h = true ->
      let h' := fst (popSamples k h (acked f) t r) in
      tx h' = tx f /\ acked h' = acked f /\ stallWarnedAt h' = now /\ gated h' = true) as Hpop.
    { induction k as [|k IH]; intros h r ? ? ? ?; simpl; [done|].
      case_match; [|done]. by apply IH. }
    destruct (Hpop (rn g1) g1 0) as (P1 & P2 & P3 & P4); try (by subst g1).
    destruct (popSamples (rn g1) g1 (acked f) t 0) as [g2 rtt]. simpl in P1, P2, P3, P4.
    unfold foldMinRTTLocked. repeat case_match; done. }
  rewrite Es. split; [done|]. intros f2.
  destruct (Hack (setStall f now) now1) as (A1 & A2 & A3 & A4); [done..|]. fold f2 in A1, A2, A3, A4.
  split; [done|]. split.
  { unfold inflight. rewrite A4, A1, A2. simpl. by rewrite swrap_inflight. }
  clearbody f2. clear Es. revert f2 A1 A2 A3 A4.
  induction ts as [|[t []] ts IH]; intros g A1 A2 A3 A4; simpl; [done| |].
  - destruct (Hack g t) as (B1 & B2 & B3 & B4); [done..|]. by apply IH.
  - assert (stallCheck g t = g) as ->; [|by apply IH].
    unfold stallCheck, IsZero. rewrite A3. destruct (Z.eqb_spec now 0); [done|].
    simpl. by rewrite orb_true_r.
Qed.

Lemma stall_guard_defeated_witness :
  gated (stallCheck demoFlow (20 * Second)) = false /\
  gated (stallCheck (onAck (stallCheck demoFlow (20 * Second)) 400 (21 * Second)) (60 * Second)) = true.
Proof.
  destruct (stall_guard_defeated demoFlow (20 * Second) (21 * Second) [(60 * Second, false)]) as [H1 H2].
  - apply flowInv_demoFlow.
  - vm_compute. reflexivity.
  - vm_compute. congruence.
  - vm_compute. reflexivity.
  - vm_compute. congruence.
  - vm_compute. reflexivity.
  - vm_compute. congruence.
  - split; [exact H1|]. destruct H2 as (_ & _ & H2).
    replace 400 with (acked demoFlow) by (vm_compute; reflexivity). exact H2.
Defined.
