(* ===== verification/Stripe.v ===== *)
(** Striping: src/p2p/stripe_transport.go and the stripe side of
    src/p2p/lane_flow.go, with the packet classification of src/p2p/p2p.go.

    One session spreads its mesh packets over the primary lane and dynamic extra
    lanes.  Lanes are shared between the transport's slice, the affinity table and
    the writers, so they live in a heap and are named by index.  Each method is one
    step; where Go selects among ready channel operations the outcome is an
    argument, restricted by [enqueueAllowed].  JSON of the probes, the dialler and
    the clock are arguments. *)

From Stdlib Require Import ZArith Lia SpecFloat.
From stdpp Require Import base list numbers gmap.
From S2P Require Import Prelude GoFloat Frame Transport LaneFlow.
Open Scope Z_scope.

(** ** Classification of packets *)

Section Classify.
Open Scope go_scope.

Definition isDNSPacket (data0 : list Z) : bool :=
  let data := InnerPacket data0 in
  if len data <? 28 then false
  else if negb (byte_at data 0 >> 4 =? 4) then false
  else if negb (byte_at data 9 =? 17) then false
  else
    let ihl := Z.land (byte_at data 0) 0x0F * 4 in
    if (ihl <? 20) || (len data <? ihl + 8) then false
    else
      let srcPort := Z.lor (Z.shiftl (byte_at data ihl) 8) (byte_at data (ihl + 1)) in
      let dstPort := Z.lor (Z.shiftl (byte_at data (ihl + 2)) 8) (byte_at data (ihl + 3)) in
      (srcPort =? 53) || (dstPort =? 53).

Definition flowHash32 (salt : Z) (data0 : list Z) : Z :=
  let data := InnerPacket data0 in
  if len data <? 20 then 0
  else if negb (byte_at data 0 >> 4 =? 4) then 0
  else
    let protocol := byte_at data 9 in
    let ihl0 := Z.land (byte_at data 0) 0x0F * 4 in
    let ihl := if ihl0 <? 20 then 20 else ihl0 in
    let h := foldl mixByte salt (sub data 12 20) in
    let h := mixByte h protocol in
    let h := if ((protocol =? 6) || (protocol =? 17)) && (ihl + 4 <=? len data)
             then foldl mixByte h (sub data ihl (ihl + 4)) else h in
    mixFinal h.

Definition hashFlowWithSalt (salt : Z) (data : list Z) : Z := flowHash32 salt data mod 256.

Definition splittable (frameType : Z) (payload : list Z) : bool :=
  (frameType =? FrameMeshPacket) && negb (isDNSPacket payload).

(** The splitmix64 finalizer over (flow, lane), normalized to (0,1). *)
Definition scoreMix (flowKey laneID : Z) : float64 :=
  let x := Z.lor (wrap 64 (Z.shiftl flowKey 32)) laneID in
  let x := x +u64 0x9E3779B97F4A7C15 in
  let x := wrap 64 ((x ^u (x >> 30)) * 0xBF58476D1CE4E5B9) in
  let x := wrap 64 ((x ^u (x >> 27)) * 0x94D049BB133111EB) in
  let x := x ^u (x >> 31) in
  fdiv (fadd (f64 (x >> 11)) (f64_frac 1 2)) (f64 (Z.shiftl 1 53)).

End Classify.

(** ** Tunables *)

Definition stripeLaneQueueDepth : Z := 256.
Definition stripeAffinityCap : Z := 65536.
Definition stripeProbeTimeout : Duration := 5 * Second.
Definition stripeGaugeEMAAlpha : float64 := f64_frac 3 10.
Definition stripeGaugeDecayPerTick : float64 := f64_frac 1 2.
Definition stripeGaugeIdleDecay : Duration := 5 * Second.
Definition stripeGaugeHighWatermark : float64 := f64_frac 7 10.
Definition stripeAddSustain : Duration := 30 * Second.
Definition stripeAddInterval : Duration := 10 * Second.
Definition stripeClearSustain : Duration := 5 * Minute.
Definition stripeMaxLanes : nat := 4.
Definition stripeEventRingCap : nat := 32.
Definition stripeBaselineWindow : Duration := 10 * Second.
Definition stripeBaselineFloor : Duration := Millisecond.
Definition stripeCongestMargin : float64 := f64 1.
Definition stripeWeightLossPenalty : float64 := f64 2.
Definition stripeLaneMinProbes : Z := 8.
Definition stripeLaneBadLoss : float64 := f64_frac 1 2.
Definition stripeLaneBadSRTT : Duration := Second.

(** ** Lanes *)

Record stripeLaneProbe := mkProbe {
  nextSeq : Z;
  outstanding : gmap Z Time;
  pSrtt : Duration;
  srttBase : Duration;
  srttBaseAt : Time;
  lost : Z;
  sent : Z;
  lastPongAt : Time
}.

Definition newProbe : stripeLaneProbe := mkProbe 0 ∅ 0 0 0 0 0 0.

Record stripeLane (B : Type) := mkLane {
  laneId : Z;
  transport : B;
  queue : list (list Frame);
  laneDone : bool;
  probe : stripeLaneProbe;
  framesSent : Z;
  bytesSent : Z;
  flow : laneFlow
}.
Arguments mkLane {_}. Arguments laneId {_}. Arguments transport {_}. Arguments queue {_}.
Arguments laneDone {_}. Arguments probe {_}. Arguments framesSent {_}. Arguments bytesSent {_}.
Arguments flow {_}.

Definition currentWeight (p : stripeLaneProbe) : float64 :=
  if (pSrtt p <=? 0) || (srttBase p <=? 0) then f64 1
  else
    let b := if srttBase p <? stripeBaselineFloor then stripeBaselineFloor else srttBase p in
    let rel := fdiv (f64 (pSrtt p - b)) (f64 b) in
    let rel := if flt rel (f64 0) then f64 0 else rel in
    let loss := if 0 <? sent p then fdiv (f64 (lost p)) (f64 (sent p)) else f64 0 in
    fdiv (f64 1) (fadd (fadd (f64 1) rel) (fmul stripeWeightLossPenalty loss)).

Definition probeLossRate (p : stripeLaneProbe) : float64 :=
  if sent p =? 0 then f64 0 else fdiv (f64 (lost p)) (f64 (sent p)).

(** A matched pong: [rtt] is the time since the probe was sent. *)
Definition foldPong (p : stripeLaneProbe) (seq : Z) (now : Time) : stripeLaneProbe :=
  match outstanding p !! seq with
  | None => p
  | Some sentAt =>
      let rtt := now - sentAt in
      let rtt := if rtt <=? 0 then 1 else rtt in
      let sr := if pSrtt p =? 0 then rtt else pSrtt p + Z.quot (rtt - pSrtt p) 8 in
      let rebase := (srttBase p =? 0) || (rtt <? srttBase p) ||
                    (stripeBaselineWindow <=? now - srttBaseAt p) in
      mkProbe (nextSeq p) (delete seq (outstanding p)) sr
        (if rebase then rtt else srttBase p) (if rebase then now else srttBaseAt p)
        (lost p) (sent p) now
  end.

(** Expired probes become losses; the next sequence number is then outstanding. *)
Definition ageProbes (p : stripeLaneProbe) (now : Time) : stripeLaneProbe :=
  let expired := filter (fun kv : Z * Time => stripeProbeTimeout < now - kv.2) (outstanding p) in
  let live := filter (fun kv : Z * Time => ~ stripeProbeTimeout < now - kv.2) (outstanding p) in
  let seq := wrap 32 (nextSeq p + 1) in
  mkProbe seq (<[seq := now]> live) (pSrtt p) (srttBase p) (srttBaseAt p)
    (wrap 64 (lost p + Z.of_nat (size expired))) (wrap 64 (sent p + 1)) (lastPongAt p).

Definition uncountProbe (p : stripeLaneProbe) (seq : Z) : stripeLaneProbe :=
  mkProbe (nextSeq p) (delete seq (outstanding p)) (pSrtt p) (srttBase p) (srttBaseAt p)
    (lost p) (wrap 64 (sent p - 1)) (lastPongAt p).

(** ** The congestion gauge and the controller's state *)

(** The reasons recorded in the event ring, with their data. *)
Inductive ctrlEvent :=
| EvAddLane (stripeID : Z)
| EvRemoveLane (stripeID : Z)
| EvDegraded (stripeID : Z)
| EvRebaseline.

(** [controlOut] are the frames handed to sendControl. *)
Record ctrlState := mkCtrl {
  sojournEMA : float64;
  sojournSamples : Z;
  baseline : float64;
  baselineAt : Time;
  rebaselinePending : bool;
  gauge : float64;
  lastSampleAt : Time;
  highSince : Time;
  clearSince : Time;
  lastAddAt : Time;
  lastRemoveAt : Time;
  events : list ctrlEvent;
  gaugeSent : float64;
  controlOut : list (Z * list Z)
}.

Definition newCtrl : ctrlState :=
  mkCtrl (f64 0) 0 (f64 0) 0 false (f64 0) 0 0 0 0 0 [] (f64 0) [].

Definition setGauge (c : ctrlState) (g : float64) : ctrlState :=
  mkCtrl (sojournEMA c) (sojournSamples c) (baseline c) (baselineAt c) (rebaselinePending c) g
    (lastSampleAt c) (highSince c) (clearSince c) (lastAddAt c) (lastRemoveAt c) (events c)
    (gaugeSent c) (controlOut c).
Definition setSojourn (c : ctrlState) (ema : float64) (n : Z) : ctrlState :=
  mkCtrl ema n (baseline c) (baselineAt c) (rebaselinePending c) (gauge c)
    (lastSampleAt c) (highSince c) (clearSince c) (lastAddAt c) (lastRemoveAt c) (events c)
    (gaugeSent c) (controlOut c).
Definition setBaseline (c : ctrlState) (b : float64) (at' : Time) (pend : bool) : ctrlState :=
  mkCtrl (sojournEMA c) (sojournSamples c) b at' pend (gauge c)
    (lastSampleAt c) (highSince c) (clearSince c) (lastAddAt c) (lastRemoveAt c) (events c)
    (gaugeSent c) (controlOut c).
Definition setLastSample (c : ctrlState) (now : Time) : ctrlState :=
  mkCtrl (sojournEMA c) (sojournSamples c) (baseline c) (baselineAt c) (rebaselinePending c) (gauge c)
    now (highSince c) (clearSince c) (lastAddAt c) (lastRemoveAt c) (events c)
    (gaugeSent c) (controlOut c).
Definition setWindows (c : ctrlState) (hi cl : Time) : ctrlState :=
  mkCtrl (sojournEMA c) (sojournSamples c) (baseline c) (baselineAt c) (rebaselinePending c) (gauge c)
    (lastSampleAt c) hi cl (lastAddAt c) (lastRemoveAt c) (events c) (gaugeSent c) (controlOut c).
Definition setLastOps (c : ctrlState) (add rem : Time) : ctrlState :=
  mkCtrl (sojournEMA c) (sojournSamples c) (baseline c) (baselineAt c) (rebaselinePending c) (gauge c)
    (lastSampleAt c) (highSince c) (clearSince c) add rem (events c) (gaugeSent c) (controlOut c).
Definition setEvents (c : ctrlState) (es : list ctrlEvent) : ctrlState :=
  mkCtrl (sojournEMA c) (sojournSamples c) (baseline c) (baselineAt c) (rebaselinePending c) (gauge c)
    (lastSampleAt c) (highSince c) (clearSince c) (lastAddAt c) (lastRemoveAt c) es
    (gaugeSent c) (controlOut c).
Definition setAnnounced (c : ctrlState) (g : float64) (out : list (Z * list Z)) : ctrlState :=
  mkCtrl (sojournEMA c) (sojournSamples c) (baseline c) (baselineAt c) (rebaselinePending c) (gauge c)
    (lastSampleAt c) (highSince c) (clearSince c) (lastAddAt c) (lastRemoveAt c) (events c) g out.

Definition floorMs : float64 := fdiv (f64 stripeBaselineFloor) (f64 Millisecond).

Definition computeGaugeLocked (c : ctrlState) : float64 :=
  if fle (baseline c) (f64 0) || (sojournSamples c =? 0) then f64 0
  else
    let b := if flt (baseline c) floorMs then floorMs else baseline c in
    let g := fdiv (fsub (sojournEMA c) (baseline c)) (fmul b stripeCongestMargin) in
    let g := if flt g (f64 0) then f64 0 else g in
    if flt (f64 1) g then f64 1 else g.

Definition announceGaugeLocked (hasControl : bool) (c : ctrlState) : ctrlState :=
  if negb hasControl then c
  else
    let prev := gaugeSent c in
    let cur := gauge c in
    if negb ((flt prev stripeGaugeHighWatermark && fle stripeGaugeHighWatermark cur) ||
             (fle stripeGaugeHighWatermark prev && flt cur stripeGaugeHighWatermark))
    then c
    else setAnnounced c cur (controlOut c ++ [(FrameLaneGauge, [wrap 8 (ftrunc (fmul cur (f64 255)))])]).

(** [start] is when the send began, [now] when it returned. *)
Definition sampleSojourn (hasControl : bool) (c : ctrlState) (start now : Time) : ctrlState :=
  if IsZero start then c
  else
    let ms := fdiv (f64 (now - start)) (f64 Millisecond) in
    let ema := if sojournSamples c =? 0 then ms
               else fadd (sojournEMA c) (fmul stripeGaugeEMAAlpha (fsub ms (sojournEMA c))) in
    let c := setSojourn c ema (wrap 64 (sojournSamples c + 1)) in
    let expired := stripeBaselineWindow <=? now - baselineAt c in
    let c :=
      if SFeqb (baseline c) (f64 0) || flt ms (baseline c) || expired then
        if flt (f64 0) (baseline c) && expired && fle (f64_frac 95 100) (gauge c) then
          let b := fdiv (sojournEMA c) (fadd (f64 1) (fmul stripeCongestMargin (f64_frac 95 100))) in
          setBaseline c (if flt b floorMs then floorMs else b) now true
        else setBaseline c (if flt ms floorMs then floorMs else ms) now (rebaselinePending c)
      else c in
    let c := setGauge c (computeGaugeLocked c) in
    setLastSample (announceGaugeLocked hasControl c) now.

Definition recordEvent (c : ctrlState) (e : ctrlEvent) : ctrlState :=
  let es := events c ++ [e] in
  setEvents c (if (stripeEventRingCap <? length es)%nat
               then drop (length es - stripeEventRingCap) es else es).

(** ** The transport *)

Record stripeTransport (B : Type) := mkStripe {
  base : B;
  lanes : list nat;
  heap : list (stripeLane B);
  salt : Z;
  affinity : gmap Z (option nat);
  ctrl : ctrlState;
  primaryFlow : laneFlow;
  ackRequested : bool;
  peerWantsTx : bool;
  peerWantsGauge : bool;
  peerGauge : Z;
  hasControl : bool;
  isClosed : bool
}.
Arguments mkStripe {_}. Arguments base {_}. Arguments lanes {_}. Arguments heap {_}. Arguments salt {_}.
Arguments affinity {_}. Arguments ctrl {_}. Arguments primaryFlow {_}. Arguments ackRequested {_}.
Arguments peerWantsTx {_}. Arguments peerWantsGauge {_}. Arguments peerGauge {_}.
Arguments hasControl {_}. Arguments isClosed {_}.

Section Stripe.
Context {B : Type} `{FrameTransport B}.
Implicit Types t : stripeTransport B.

Definition newStripeTransport (b : B) (s : Z) (ctl : bool) : stripeTransport B :=
  mkStripe b [] [] s ∅ newCtrl newLaneFlow false false false (-1) ctl false.

Definition setBase t b := mkStripe b (lanes t) (heap t) (salt t) (affinity t) (ctrl t) (primaryFlow t)
  (ackRequested t) (peerWantsTx t) (peerWantsGauge t) (peerGauge t) (hasControl t) (isClosed t).
Definition setLanes t ls hp := mkStripe (base t) ls hp (salt t) (affinity t) (ctrl t) (primaryFlow t)
  (ackRequested t) (peerWantsTx t) (peerWantsGauge t) (peerGauge t) (hasControl t) (isClosed t).
Definition setAffinity t a := mkStripe (base t) (lanes t) (heap t) (salt t) a (ctrl t) (primaryFlow t)
  (ackRequested t) (peerWantsTx t) (peerWantsGauge t) (peerGauge t) (hasControl t) (isClosed t).
Definition setCtrl t c := mkStripe (base t) (lanes t) (heap t) (salt t) (affinity t) c (primaryFlow t)
  (ackRequested t) (peerWantsTx t) (peerWantsGauge t) (peerGauge t) (hasControl t) (isClosed t).
Definition setPrimaryFlow t f := mkStripe (base t) (lanes t) (heap t) (salt t) (affinity t) (ctrl t) f
  (ackRequested t) (peerWantsTx t) (peerWantsGauge t) (peerGauge t) (hasControl t) (isClosed t).
Definition setPeer t ack wtx wg g := mkStripe (base t) (lanes t) (heap t) (salt t) (affinity t) (ctrl t)
  (primaryFlow t) ack wtx wg g (hasControl t) (isClosed t).
Definition setClosed t := mkStripe (base t) [] (heap t) (salt t) (affinity t) (ctrl t) (primaryFlow t)
  (ackRequested t) (peerWantsTx t) (peerWantsGauge t) (peerGauge t) (hasControl t) true.

Definition updLane t (i : nat) (f : stripeLane B -> stripeLane B) : stripeTransport B :=
  setLanes t (lanes t) (alter f i (heap t)).

Definition setQueue (l : stripeLane B) q := mkLane (laneId l) (transport l) q (laneDone l) (probe l)
  (framesSent l) (bytesSent l) (flow l).
Definition setProbe (l : stripeLane B) p := mkLane (laneId l) (transport l) (queue l) (laneDone l) p
  (framesSent l) (bytesSent l) (flow l).
Definition setFlow (l : stripeLane B) f := mkLane (laneId l) (transport l) (queue l) (laneDone l) (probe l)
  (framesSent l) (bytesSent l) f.
Definition laneClose (l : stripeLane B) := mkLane (laneId l) (transport l) (queue l) true (probe l)
  (framesSent l) (bytesSent l) (flow l).

Definition dropAffinity t : stripeTransport B := setAffinity t ∅.

Definition attachLane t (id : Z) (tr : B) : stripeTransport B :=
  let l := mkLane id tr [] false newProbe 0 0 newLaneFlow in
  dropAffinity (setLanes t (lanes t ++ [length (heap t)]) (heap t ++ [l])).

Definition laneCount t : nat := length (lanes t).

(** Removes the first occurrence of the lane from the slice. *)
Fixpoint removeFirst (i : nat) (ls : list nat) : list nat :=
  match ls with
  | [] => []
  | x :: ls' => if decide (x = i) then ls' else x :: removeFirst i ls'
  end.

Definition removeLane t (i : nat) : stripeTransport B :=
  updLane (dropAffinity (setLanes t (removeFirst i (lanes t)) (heap t))) i laneClose.

(** *** Choosing a lane *)

(** The score of a lane for a flow. *)
Definition laneScore t (key : Z) (i : nat) : float64 :=
  match heap t !! i with
  | Some l => fmul (scoreMix key (laneId l)) (currentWeight (probe l))
  | None => S754_nan
  end.

Definition pickStep (score : nat -> float64) (acc : float64 * option nat) (i : nat)
  : float64 * option nat :=
  if flt (fst acc) (score i) then (score i, Some i) else acc.

Definition pickLane t (key : Z) (ls : list nat) : option nat :=
  snd (foldl (pickStep (laneScore t key)) (scoreMix key 0, None) ls).

Definition cachePin t (key : Z) (l : option nat) : stripeTransport B :=
  if key =? 0 then t
  else
    let a := if stripeAffinityCap <=? Z.of_nat (size (affinity t)) then ∅ else affinity t in
    setAffinity t (<[key := l]> a).

Definition resolveLane t (key : Z) (ls : list nat) : stripeTransport B * option nat :=
  let l := pickLane t key ls in (cachePin t key l, l).

Definition pickLanePinned t (payload : list Z) (ls : list nat) : stripeTransport B * option nat :=
  let key := flowHash32 (salt t) payload in
  match affinity t !! key with
  | Some None => (t, None)
  | Some (Some l) =>
      if decide (l ∈ ls) then (t, Some l)
      else resolveLane (setAffinity t (delete key (affinity t))) key ls
  | None => resolveLane t key ls
  end.

(** *** Sending *)

Definition repinPrimary t (batch : list Frame) : stripeTransport B :=
  foldl (fun t f =>
    let key := flowHash32 (salt t) (fPayload f) in
    if key =? 0 then t else setAffinity t (<[key := None]> (affinity t))) t batch.

(** What the selects of [laneEnqueue] end with. *)
Inductive enqOutcome := EnqQueued | EnqDead | EnqTimeout | EnqClosed.

Definition enqueueAllowed t (i : nat) (o : enqOutcome) : Prop :=
  match heap t !! i with
  | None => False
  | Some l =>
      match o with
      | EnqQueued => len (queue l) < stripeLaneQueueDepth
      | EnqDead => laneDone l = true
      | EnqTimeout => stripeLaneQueueDepth <= len (queue l)
      | EnqClosed => isClosed t = true
      end
  end.

Inductive StripeError := ErrClosedPipe | ErrBase (e : FrameError).

(** Whether the batch was queued, or the error. *)
Definition laneEnqueue t (i : nat) (batch : list Frame) (o : enqOutcome)
  : stripeTransport B * result StripeError bool :=
  match o with
  | EnqQueued => (updLane t i (fun l => setQueue l (queue l ++ [batch])), Ok true)
  | EnqDead | EnqTimeout => (repinPrimary t batch, Ok false)
  | EnqClosed => (t, Err ErrClosedPipe)
  end.

(** The clock readings of one send on the primary lane: start and return. *)
Record sendTimes := mkTimes { startAt : Time; endAt : Time }.

Definition liftErr (r : result FrameError unit) : result StripeError unit :=
  match r with Ok _ => Ok tt | Err e => Err (ErrBase e) end.

Definition payloadBytes (fs : list Frame) : Z := foldr (fun f acc => len (fPayload f) + acc) 0 fs.

(** A send on the primary lane with its accounting. *)
Definition primarySend t (ft : Z) (p : list Z) (ctl : bool) (tm : sendTimes)
  : stripeTransport B * result StripeError unit :=
  let '(b, r) := tSend (base t) ft p ctl in
  let t := setPrimaryFlow (setBase t b) (onSent (primaryFlow t) (len p) (startAt tm)) in
  (setCtrl t (sampleSojourn (hasControl t) (ctrl t) (startAt tm) (endAt tm)), liftErr r).

Definition primarySendBatch t (fs : list Frame) (tm : sendTimes)
  : stripeTransport B * result StripeError unit :=
  let '(b, r) := tSendBatch (base t) fs in
  let t := setPrimaryFlow (setBase t b) (onSent (primaryFlow t) (payloadBytes fs) (startAt tm)) in
  (setCtrl t (sampleSojourn (hasControl t) (ctrl t) (startAt tm) (endAt tm)), liftErr r).

(** [o] is the outcome of the enqueue, should there be one. *)
Definition stripeSend t (ft : Z) (p : list Z) (ctl : bool) (tm : sendTimes) (o : enqOutcome)
  : stripeTransport B * result StripeError unit :=
  if (laneCount t =? 0)%nat || negb (splittable ft p) then primarySend t ft p ctl tm
  else
    let '(t, l) := pickLanePinned t p (lanes t) in
    match l with
    | None => primarySend t ft p ctl tm
    | Some i =>
        match laneEnqueue t i [mkFrame ft p false] o with
        | (t, Ok true) => (t, Ok tt)
        | (t, Err e) => (t, Err e)
        | (t, Ok false) => primarySend t ft p ctl tm
        end
    end.

(** The Go map from lanes to batches, in order of first use. *)
Fixpoint addToLane (i : nat) (f : Frame) (m : list (nat * list Frame)) : list (nat * list Frame) :=
  match m with
  | [] => [(i, [f])]
  | (j, fs) :: m' => if decide (i = j) then (j, fs ++ [f]) :: m' else (j, fs) :: addToLane i f m'
  end.

(** The splitting loop: frames for the primary lane, frames per lane. *)
Fixpoint splitFrames t (ls : list nat) (frames : list Frame) (primary : list Frame)
    (perLane : list (nat * list Frame))
  : stripeTransport B * list Frame * list (nat * list Frame) :=
  match frames with
  | [] => (t, primary, perLane)
  | f :: fs =>
      if negb (splittable (fType f) (fPayload f)) then splitFrames t ls fs (primary ++ [f]) perLane
      else
        let '(t, l) := pickLanePinned t (fPayload f) ls in
        match l with
        | None => splitFrames t ls fs (primary ++ [f]) perLane
        | Some i => splitFrames t ls fs primary (addToLane i f perLane)
        end
  end.

Definition firstErr (cur next : result StripeError unit) : result StripeError unit :=
  match cur with Err e => Err e | Ok _ => next end.

(** Hands the lane batches over; [os] is the outcome of the enqueue on each lane. *)
Fixpoint enqueueAll t (batches : list (nat * list Frame)) (os : nat -> enqOutcome) (tm : sendTimes)
    (err : result StripeError unit) : stripeTransport B * result StripeError unit :=
  match batches with
  | [] => (t, err)
  | (i, batch) :: bs =>
      match laneEnqueue t i batch (os i) with
      | (t, Err e) => (t, firstErr err (Err e))
      | (t, Ok true) => enqueueAll t bs os tm err
      | (t, Ok false) =>
          let '(t, r) := primarySendBatch t batch tm in enqueueAll t bs os tm (firstErr err r)
      end
  end.

(** [order] is the iteration order of the map. *)
Definition stripeSendBatch t (frames : list Frame) (tm : sendTimes)
    (order : list (nat * list Frame) -> list (nat * list Frame)) (os : nat -> enqOutcome)
  : stripeTransport B * result StripeError unit :=
  if (laneCount t =? 0)%nat then primarySendBatch t frames tm
  else
    let '(t, primary, perLane) := splitFrames t (lanes t) frames [] [] in
    let '(t, err) := match primary with
                     | [] => (t, Ok tt)
                     | _ => primarySendBatch t primary tm
                     end in
    enqueueAll t (order perLane) os tm err.

(** One batch of the lane writer: a failed write removes the lane. *)
Definition laneWriter t (i : nat) (now : Time) : stripeTransport B :=
  match heap t !! i with
  | None => t
  | Some l =>
      if laneDone l || isClosed t then t
      else match queue l with
           | [] => t
           | batch :: q =>
               let '(b, r) := tSendBatch (transport l) batch in
               let l1 := mkLane (laneId l) b q (laneDone l) (probe l) (framesSent l) (bytesSent l) (flow l) in
               let t := updLane t i (fun _ => l1) in
               match r with
               | Err _ => removeLane t i
               | Ok _ => updLane t i (fun _ =>
                   mkLane (laneId l) b q (laneDone l) (probe l)
                     (wrap 64 (framesSent l + len batch)) (wrap 64 (bytesSent l + payloadBytes batch))
                     (onSent (flow l) (payloadBytes batch) now))
               end
           end
  end.

(** *** Lane acks, gauges and the write credit *)

(** Updates the flow of the lane with this id: the primary one or the first lane
    of the slice that carries it. *)
Definition updFlowByID t (id : Z) (f : laneFlow -> laneFlow) : stripeTransport B :=
  if id =? laneIDPrimary then setPrimaryFlow t (f (primaryFlow t))
  else match List.find (fun i => match heap t !! i with Some l => laneId l =? id | None => false end) (lanes t) with
       | Some i => updLane t i (fun l => setFlow l (f (flow l)))
       | None => t
       end.

Definition foldAcks t (es : list laneAckEntry) (now : Time) : stripeTransport B :=
  foldl (fun t e => updFlowByID t (laneID e) (fun f => onAck f (ackRx e) now)) t es.

Definition handleLaneAck t (payload : list Z) (now : Time) : stripeTransport B :=
  if len payload =? 0 then t else foldAcks t (decodeLaneAck payload) now.

Definition handleLaneGauge t (payload : list Z) : stripeTransport B :=
  if negb (len payload =? 1) then t
  else setPeer t (ackRequested t) (peerWantsTx t) (peerWantsGauge t) (byte_at payload 0).

Definition onPeerLaneGossip t (wantTx wantGauge : bool) (es : list laneAckEntry) (g : Z) (now : Time)
  : stripeTransport B :=
  let t := setPeer t (ackRequested t || wantTx) wantTx wantGauge
             (if 0 <? g then swrap 32 g else peerGauge t) in
  foldAcks t es now.

(** One lane of [sendLaneAcks]: the report is marked sent even when the list is full. *)
Definition ackStep (id : Z) (f : laneFlow) (es : list laneAckEntry) : laneFlow * list laneAckEntry :=
  (setReported f (rx f),
   if negb (rx f =? rxReported f) && (length es <? laneAckMaxEntries)%nat
   then es ++ [mkAck id (rx f)] else es).

Fixpoint ackLanes t (ls : list nat) (es : list laneAckEntry) : stripeTransport B * list laneAckEntry :=
  match ls with
  | [] => (t, es)
  | i :: ls' =>
      match heap t !! i with
      | None => ackLanes t ls' es
      | Some l =>
          let '(f, es) := ackStep (laneId l) (flow l) es in
          ackLanes (updLane t i (fun l => setFlow l f)) ls' es
      end
  end.

Definition sendLaneAcks t : stripeTransport B :=
  let '(f, es) := ackStep laneIDPrimary (primaryFlow t) [] in
  let '(t, es) := ackLanes (setPrimaryFlow t f) (lanes t) es in
  match es with
  | [] => t
  | _ => setCtrl t (setAnnounced (ctrl t) (gaugeSent (ctrl t))
                      (controlOut (ctrl t) ++ [(FrameLaneAck, encodeLaneAck es)]))
  end.

(** One tick of [flowLoop], without its diagnostics. *)
Definition flowTick t (now : Time) : stripeTransport B :=
  let t := if ackRequested t && hasControl t then sendLaneAcks t else t in
  let t := setPrimaryFlow t (stallCheck (adjustCap (primaryFlow t) now) now) in
  foldl (fun t i => updLane t i (fun l => setFlow l (stallCheck (adjustCap (flow l) now) now))) t (lanes t).

Definition MaxInt64 : Z := 2 ^ 63 - 1.

(** The accumulator of [writeCredit]: whether a gated lane was seen, the sum.  Here no ack
    comes between the load of a lane's counter and its lock. *)
Definition considerCredit (acc : bool * Z) (f : laneFlow) : bool * Z :=
  let '(cap, infl, g) := gateState (tx f) f in
  if negb g then acc
  else let '(any, credit) := acc in
       (true, swrap 64 ((if any : bool then credit else 0) + swrap 64 (cap - infl))).

Definition laneFlows t : list laneFlow :=
  primaryFlow t :: omap (fun i => flow <$> heap t !! i) (lanes t).

Definition writeCredit t : Z :=
  let '(any, credit) := foldl considerCredit (false, 0) (laneFlows t) in
  if any : bool then credit else MaxInt64.

Record laneGossip := mkLaneGossip { lgCapable : bool; lgWantTx : bool; lgWantGauge : bool;
  lgRx : list laneAckEntry; lgGauge : Z }.

Definition laneGossipFields t : laneGossip :=
  if negb (hasControl t) then mkLaneGossip false false false [] 0
  else
    let add es (e : Z * laneFlow) :=
      if (0 <? rx (snd e)) && (length es <? laneAckMaxEntries)%nat then es ++ [mkAck (fst e) (rx (snd e))] else es in
    let es := if peerWantsTx t
              then foldl add [] ((laneIDPrimary, primaryFlow t) ::
                     omap (fun i => (fun l => (laneId l, flow l)) <$> heap t !! i) (lanes t))
              else [] in
    let g := if peerWantsGauge t then Z.min 255 (ftrunc (fmul (gauge (ctrl t)) (f64 255))) else 0 in
    mkLaneGossip true true true es g.

(** *** Probes *)

(** encoding/json on PingInfo: the rendering of a probe and the parser. *)
Variable renderPing : Time -> Z -> list Z.
Variable parsePing : list Z -> option (Time * Z).

(** A probe frame rides the lane's queue when there is room. *)
Definition offerProbe (l : stripeLane B) (f : Frame) : option (stripeLane B) :=
  if laneDone l then Some l
  else if len (queue l) <? stripeLaneQueueDepth then Some (setQueue l (queue l ++ [[f]]))
  else None.

Definition replyLanePing t (i : nat) (payload : list Z) : stripeTransport B :=
  match parsePing payload with
  | None => t
  | Some (ts, seq) =>
      updLane t i (fun l => default l (offerProbe l (mkFrame FrameLinkPong (renderPing ts seq) false)))
  end.

Definition handleLanePong t (i : nat) (payload : list Z) (now : Time) : stripeTransport B :=
  match parsePing payload with
  | None => t
  | Some (_, seq) => updLane t i (fun l => setProbe l (foldPong (probe l) seq now))
  end.

Definition probeLane (l : stripeLane B) (now : Time) : stripeLane B :=
  let l := setProbe l (ageProbes (probe l) now) in
  let seq := nextSeq (probe l) in
  match offerProbe l (mkFrame FrameLinkPing (renderPing now seq) false) with
  | Some l' => l'
  | None => setProbe l (uncountProbe (probe l) seq)
  end.

Definition probeTick t (now : Time) : stripeTransport B :=
  foldl (fun t i => updLane t i (fun l => probeLane l now)) t (lanes t).

(** What a frame received on a lane does; [Some] is delivered to the session. *)
Definition laneRead t (i : nat) (ft : Z) (payload : list Z) (now : Time)
  : stripeTransport B * option (Z * list Z) :=
  let t := updLane t i (fun l => setFlow l (onRecv (flow l) (len payload))) in
  if ft =? FrameMeshPacket then (t, Some (ft, payload))
  else if ft =? FrameLinkPing then (replyLanePing t i payload, None)
  else if ft =? FrameLinkPong then (handleLanePong t i payload now, None)
  else (t, None).

(** What a frame received on the primary lane does. *)
Definition baseRead t (ft : Z) (payload : list Z) (now : Time)
  : stripeTransport B * option (Z * list Z) :=
  let t := setPrimaryFlow t (onRecv (primaryFlow t) (len payload)) in
  if ft =? FrameLaneAck then (handleLaneAck t payload now, None)
  else if ft =? FrameLaneGauge then (handleLaneGauge t payload, None)
  else (t, Some (ft, payload)).

(** *** The controller *)

(** The first part of a tick: the windows and the two decisions. *)
Definition controllerDecide t (now : Time) (udpActive : bool) : ctrlState * bool * bool :=
  let c := ctrl t in
  let c := if negb (IsZero (lastSampleAt c)) && (stripeGaugeIdleDecay <=? now - lastSampleAt c)
           then
             let c := setSojourn c (fadd (sojournEMA c)
                        (fmul (fsub (baseline c) (sojournEMA c)) stripeGaugeDecayPerTick)) (sojournSamples c) in
             announceGaugeLocked (hasControl t) (setGauge c (computeGaugeLocked c))
           else c in
  let high := fle stripeGaugeHighWatermark (gauge c) in
  let c := if high : bool then setWindows c (if IsZero (highSince c) then now else highSince c) 0
           else setWindows c 0 (if IsZero (clearSince c) then now else clearSince c) in
  let c := if udpActive then setWindows c 0 (clearSince c) else c in
  let addDue := negb (isGated (primaryFlow t)) && negb (IsZero (highSince c)) &&
                (stripeAddSustain <=? now - highSince c) && (stripeAddInterval <=? now - lastAddAt c) &&
                (laneCount t <? stripeMaxLanes)%nat in
  let removeDue := negb udpActive && (0 <? laneCount t)%nat && negb (IsZero (clearSince c)) &&
                   (stripeClearSustain <=? now - clearSince c) in
  (setLastOps c (if addDue then now else lastAddAt c) (if removeDue then now else lastRemoveAt c),
   addDue, removeDue).

Definition degraded (p : stripeLaneProbe) : bool :=
  let loss := if 0 <? sent p then fdiv (f64 (lost p)) (f64 (sent p)) else f64 0 in
  (stripeLaneMinProbes <=? sent p) &&
  (fle stripeLaneBadLoss loss || ((0 <? pSrtt p) && (stripeLaneBadSRTT <=? pSrtt p))).

Definition laneIdOf t (i : nat) : Z := match heap t !! i with Some l => laneId l | None => 0 end.

Definition degradeStep t (i : nat) : stripeTransport B :=
  match heap t !! i with
  | None => t
  | Some l => if degraded (probe l)
              then removeLane (setCtrl t (recordEvent (ctrl t) (EvDegraded (laneId l)))) i
              else t
  end.

(** [dial] is what dialLane returns when it is called. *)
Definition controllerTick t (now : Time) (udpActive : bool) (dial : option (Z * B)) : stripeTransport B :=
  let '(c, addDue, removeDue) := controllerDecide t now udpActive in
  let rebase := rebaselinePending c in
  let c := setBaseline c (baseline c) (baselineAt c) false in
  let t := setCtrl t (if rebase then recordEvent c EvRebaseline else c) in
  let t := if addDue : bool then
             match dial with
             | None => t
             | Some (id, tr) =>
                 let t := attachLane t id tr in setCtrl t (recordEvent (ctrl t) (EvAddLane id))
             end
           else t in
  let t := if removeDue : bool then
             match last (lanes t) with
             | None => t
             | Some v => let t := removeLane t v in
                         setCtrl t (recordEvent (ctrl t) (EvRemoveLane (laneIdOf t v)))
             end
           else t in
  foldl degradeStep t (lanes t).

Definition stripeClose t : stripeTransport B :=
  if isClosed t then t
  else setClosed (foldl (fun t i => updLane t i laneClose) t (lanes t)).

End Stripe.

(** ** Lemmas: choosing lanes *)

Section PickLemmas.
Context {B : Type} `{FrameTransport B}.
Implicit Types t : stripeTransport B.

Lemma pickStep_eq score acc x :
  pickStep score acc x = if flt (fst acc) (score x) then (score x, Some x) else acc.
Proof. done. Qed.

(** Two runs of the argmax, one of them holding [i] with a score at least as high. *)
Lemma pick_diverge score i ls : forall a b,
  fle (fst a) (fst b) = true -> is_nan (fst a) = false -> is_nan (fst b) = false ->
  snd b = Some i ->
  snd (foldl (pickStep score) b ls) = Some i \/
  snd (foldl (pickStep score) b ls) = snd (foldl (pickStep score) a ls).
Proof.
  induction ls as [|x ls IH]; intros a b Hle Ha Hb Hi; [by left|]. simpl.
  rewrite !pickStep_eq. destruct (flt (fst b) (score x)) eqn:Eb.
  - rewrite (fle_flt_trans _ _ _ Hle Eb). by right.
  - apply IH; destruct (flt (fst a) (score x)) eqn:Ea; simpl; try done;
      apply flt_not_nan in Ea as [_ Hx]; [by apply not_flt_fle|done].
Qed.

Lemma pickLane_In t key ls i : pickLane t key ls = Some i -> i ∈ ls.
Proof.
  unfold pickLane. generalize (scoreMix key 0). 
  assert (forall acc, snd (foldl (pickStep (laneScore t key)) acc ls) = Some i -> snd acc = Some i \/ i ∈ ls) as Hg.
  { induction ls as [|x ls IH]; intros acc; simpl; [by left|]. intros Hf%IH.
    destruct Hf as [Hf|]; [|right; by constructor]. unfold pickStep in Hf.
    destruct (flt _ _); [|by left]. simplify_eq/=. right; by constructor. }
  intros s Hs%Hg. by destruct Hs.
Qed.

Lemma pickLanePinned_In t p ls t' i : pickLanePinned t p ls = (t', Some i) -> i ∈ ls.
Proof.
  unfold pickLanePinned, resolveLane. repeat case_match; intros; simplify_eq; try done;
    by eapply pickLane_In.
Qed.

(** Everything but the affinity table. *)
Definition sameButPins t t' : Prop := t' = setAffinity t (affinity t').

Lemma pickLanePinned_same t p ls : sameButPins t (fst (pickLanePinned t p ls)).
Proof.
  unfold pickLanePinned, resolveLane, cachePin, sameButPins.
  repeat case_match; by destruct t.
Qed.

(** A resolved flow is pinned, whatever the outcome. *)
Lemma pickLanePinned_pins t p ls t' l :
  pickLanePinned t p ls = (t', l) -> flowHash32 (salt t) p <> 0 ->
  affinity t' !! flowHash32 (salt t) p = Some l.
Proof.
  intros E Hk. unfold pickLanePinned, resolveLane, cachePin in E.
  destruct (Z.eqb_spec (flowHash32 (salt t) p) 0); [done|].
  destruct (affinity t !! flowHash32 (salt t) p) as [[j|]|] eqn:Ea.
  - destruct (decide (j ∈ ls)); simplify_eq; [done|]. simpl. by rewrite lookup_insert_eq.
  - by simplify_eq.
  - simplify_eq. simpl. by rewrite lookup_insert_eq.
Qed.

(** Resolving one flow keeps the pins of the others while the table has room. *)
Lemma pickLanePinned_keeps t p ls key :
  key <> flowHash32 (salt t) p -> Z.of_nat (size (affinity t)) < stripeAffinityCap ->
  affinity (fst (pickLanePinned t p ls)) !! key = affinity t !! key.
Proof.
  intros Hne Hsz. unfold pickLanePinned, resolveLane, cachePin.
  assert (forall a : gmap Z (option nat), (size a <= size (affinity t))%nat ->
    (stripeAffinityCap <=? Z.of_nat (size a)) = false) as Hroom.
  { intros a Ha. apply Z.leb_gt. lia. }
  destruct (affinity t !! flowHash32 (salt t) p) as [[j|]|] eqn:Ea; simpl; try done.
  - destruct (decide (j ∈ ls)); simpl; [done|]. case_match; simpl.
    + by rewrite lookup_delete_ne.
    + rewrite Hroom by (rewrite map_size_delete, Ea; simpl; lia).
      by rewrite lookup_insert_ne, lookup_delete_ne.
  - case_match; simpl; [done|]. rewrite Hroom by lia. by rewrite lookup_insert_ne.
Qed.

Lemma pickLanePinned_size t p ls :
  (size (affinity (fst (pickLanePinned t p ls))) <= S (size (affinity t)))%nat.
Proof.
  unfold pickLanePinned, resolveLane, cachePin.
  assert (forall (a : gmap Z (option nat)) k v, (size a <= size (affinity t))%nat ->
    (size (<[k := v]> (if (stripeAffinityCap <=? Z.of_nat (size a))%Z then ∅ else a)) <= S (size (affinity t)))%nat) as Hin.
  { intros a k v Ha. destruct (stripeAffinityCap <=? _)%Z; rewrite map_size_insert; destruct (_ !! k);
      rewrite ?map_size_empty; simpl; lia. }
  assert (forall k, (size (delete k (affinity t)) <= size (affinity t))%nat) as Hdel.
  { intros k. rewrite map_size_delete. case_match; simpl; lia. }
  pose proof (Hdel (flowHash32 (salt t) p)).
  destruct (affinity t !! _) as [[j|]|]; cbn [fst]; [destruct (decide (j ∈ ls))| |]; cbn [fst affinity]; try lia;
    destruct (_ =? 0); cbn [fst affinity setAffinity]; try lia; apply Hin; done || lia.
Qed.

End PickLemmas.

(** ** Lemmas: where the frames of a batch end up *)

Section BatchLemmas.
Context {B : Type} `{CarriesFrames B}.
Implicit Types t : stripeTransport B.

Definition queuedFrames t : list Frame := concat (map (fun l => concat (queue l)) (heap t)).
Definition lanesOk t : Prop := Forall (fun i => (i < length (heap t))%nat) (lanes t).
Abbreviation frameData := (fun f : Frame => (fType f, fPayload f)).

Lemma queued_enqueue (hp : list (stripeLane B)) i batch :
  (i < length hp)%nat ->
  concat (map (fun l => concat (queue l)) (alter (fun l => setQueue l (queue l ++ [batch])) i hp))
  ≡ₚ concat (map (fun l => concat (queue l)) hp) ++ batch.
Proof.
  revert i; induction hp as [|l hp IH]; intros i Hi; [simpl in Hi; lia|].
  destruct i as [|i].
  - change (alter _ 0%nat (l :: hp)) with (setQueue l (queue l ++ [batch]) :: hp).
    cbn [map concat queue setQueue]. rewrite concat_app. simpl.
    rewrite app_nil_r, <- !app_assoc. f_equiv. apply Permutation_app_comm.
  - change (alter _ (S i) (l :: hp)) with (l :: alter (fun l => setQueue l (queue l ++ [batch])) i hp).
    cbn [map concat]. rewrite IH by (simpl in Hi; lia). by rewrite app_assoc.
Qed.

Lemma addToLane_frames i f m : concat (map snd (addToLane i f m)) ≡ₚ concat (map snd m) ++ [f].
Proof.
  induction m as [|[j fs] m IH]; [done|]. simpl. destruct (decide (i = j)); simpl.
  - rewrite <- !app_assoc. f_equiv. apply Permutation_app_comm.
  - rewrite IH. by rewrite app_assoc.
Qed.

Definition laneBatchOk (ls : list nat) (b : nat * list Frame) : Prop :=
  b.1 ∈ ls /\ Forall (fun f => splittable (fType f) (fPayload f) = true) b.2.

Lemma addToLane_ok ls i f m :
  i ∈ ls -> splittable (fType f) (fPayload f) = true -> Forall (laneBatchOk ls) m ->
  Forall (laneBatchOk ls) (addToLane i f m).
Proof.
  intros Hi Hf. induction 1 as [|[j fs] m [Hj Hfs] Hm IH]; simpl.
  - repeat constructor; simpl; auto.
  - destruct (decide (i = j)); constructor; try done. split; simpl; [done|]. apply Forall_app; auto.
Qed.

Lemma splitFrames_spec ls frames : forall t prim per,
  Forall (laneBatchOk ls) per ->
  let '(t', prim', per') := splitFrames t ls frames prim per in
  sameButPins t t' /\ prim' ++ concat (map snd per') ≡ₚ prim ++ concat (map snd per) ++ frames /\
  Forall (laneBatchOk ls) per'.
Proof.
  induction frames as [|f fs IH]; intros t prim per Hper; simpl.
  { rewrite app_nil_r. split_and!; try done. by destruct t. }
  assert (forall t1, sameButPins t t1 ->
    let '(t', prim', per') := splitFrames t1 ls fs (prim ++ [f]) per in
    sameButPins t t' /\ prim' ++ concat (map snd per') ≡ₚ prim ++ concat (map snd per) ++ f :: fs /\
    Forall (laneBatchOk ls) per') as Hprim.
  { intros t1 H1. specialize (IH t1 (prim ++ [f]) per Hper).
    destruct (splitFrames t1 ls fs (prim ++ [f]) per) as [[t' prim'] per'].
    destruct IH as (H2 & H3 & H4). split_and!; try done.
    - unfold sameButPins in *. rewrite H2, H1. done.
    - rewrite H3, <- app_assoc. simpl. f_equiv. by rewrite Permutation_middle. }
  destruct (splittable (fType f) (fPayload f)) eqn:Es; simpl; [|apply Hprim; by destruct t].
  pose proof (pickLanePinned_same t (fPayload f) ls) as Hp.
  destruct (pickLanePinned t (fPayload f) ls) as [t1 [i|]] eqn:Ep; simpl in Hp; [|by apply Hprim].
  apply pickLanePinned_In in Ep.
  specialize (IH t1 prim (addToLane i f per) (addToLane_ok _ _ _ _ Ep Es Hper)).
  destruct (splitFrames t1 ls fs prim (addToLane i f per)) as [[t' prim'] per'].
  destruct IH as (H2 & H3 & H4). split_and!; try done.
  - unfold sameButPins in *. rewrite H2, Hp. done.
  - rewrite H3, addToLane_frames, <- app_assoc. simpl. done.
Qed.

Lemma primarySendBatch_Ok t fs tm t' :
  framed (base t) -> primarySendBatch t fs tm = (t', Ok tt) ->
  framed (base t') /\ carried (base t') = carried (base t) ++ map frameData fs /\ heap t' = heap t.
Proof.
  intros Hfr. unfold primarySendBatch. destruct (tSendBatch (base t) fs) as [b [[]|e]] eqn:E; [|done].
  intros [= <-]. simpl. by destruct (carried_SendBatch _ _ _ Hfr E).
Qed.

Lemma repinPrimary_same t batch : sameButPins t (repinPrimary t batch).
Proof.
  unfold repinPrimary, sameButPins.
  assert (forall t1, sameButPins t t1 -> sameButPins t (foldl (fun t f =>
    let key := flowHash32 (salt t) (fPayload f) in
    if key =? 0 then t else setAffinity t (<[key := None]> (affinity t))) t1 batch)) as Hg.
  { induction batch as [|f fs IH]; intros t1 H1; [done|]. cbn [foldl]. apply IH.
    cbv zeta. destruct (_ =? 0); [done|]. unfold sameButPins in *. by rewrite H1. }
  apply (Hg t). by destruct t.
Qed.

Lemma enqueueAll_Err os tm bs : forall t e, snd (enqueueAll t bs os tm (Err e)) <> Ok tt.
Proof.
  induction bs as [|[j b] bs IH]; intros t e; simpl; [done|].
  unfold laneEnqueue; destruct (os j); simpl; try apply IH; try done;
    destruct (primarySendBatch _ b tm); apply IH.
Qed.

Lemma enqueueAll_spec os tm ls batches : forall t err t',
  framed (base t) -> Forall (laneBatchOk ls) batches ->
  Forall (fun i => (i < length (heap t))%nat) ls ->
  enqueueAll t batches os tm err = (t', Ok tt) ->
  err = Ok tt /\ exists fb qs,
    concat (map snd batches) ≡ₚ fb ++ qs /\
    carried (base t') = carried (base t) ++ map frameData fb /\
    queuedFrames t' ≡ₚ queuedFrames t ++ qs /\
    Forall (fun f => splittable (fType f) (fPayload f) = true) qs.
Proof.
  induction batches as [|[i batch] bs IH]; intros t err t' Hfr Hb Hls; simpl.
  { intros [= <- ->]. split; [done|]. exists [], []. rewrite !app_nil_r. done. }
  apply Forall_cons_iff in Hb as [[Hi Hsplit] Hbs]. simpl in Hi, Hsplit.
  pose proof (proj1 (Forall_forall _ _) Hls i Hi) as Hlt. unfold laneEnqueue.
  assert (forall t1, sameButPins t t1 -> (let '(t2, r) := primarySendBatch t1 batch tm in
      enqueueAll t2 bs os tm (firstErr err r)) = (t', Ok tt) ->
    err = Ok tt /\ exists fb qs, batch ++ concat (map snd bs) ≡ₚ fb ++ qs /\
    carried (base t') = carried (base t) ++ map frameData fb /\ queuedFrames t' ≡ₚ queuedFrames t ++ qs /\
    Forall (fun f => splittable (fType f) (fPayload f) = true) qs) as Hfall.
  { intros t1 H1. unfold sameButPins in H1.
    destruct (primarySendBatch t1 batch tm) as [t2 r] eqn:Ep. intros Ee.
    destruct r as [[]|e].
    - destruct (primarySendBatch_Ok t1 batch tm t2) as (Hf2 & Hc2 & Hh2); [by rewrite H1|done|].
      apply IH in Ee as [He (fb & qs & P1 & P2 & P3 & P4)]; try done.
      2:{ rewrite Hh2, H1. done. }
      split; [by destruct err as [[]|]|]. exists (batch ++ fb), qs. split_and!; [|..|done].
      + by rewrite P1, app_assoc.
      + rewrite P2, Hc2, map_app, app_assoc. by rewrite H1.
      + unfold queuedFrames in *. rewrite P3, Hh2, H1. done.
    - exfalso. unfold firstErr in Ee. destruct err as [[]|]; eapply enqueueAll_Err; by rewrite Ee. }
  destruct (os i); try (by apply Hfall, repinPrimary_same); [|destruct err as [[]|]; done].
  intros Ee. apply IH in Ee as [He (fb & qs & P1 & P2 & P3 & P4)]; try done.
  2:{ simpl. by rewrite length_alter. }
  split; [done|]. exists fb, (batch ++ qs). split_and!; [|done| |by apply Forall_app].
  - rewrite P1, !app_assoc. f_equiv. apply Permutation_app_comm.
  - rewrite P3. unfold queuedFrames; simpl. rewrite queued_enqueue by done. by rewrite app_assoc.
Qed.

End BatchLemmas.

(** ** Properties *)

(** A session over byte streams with two lanes. *)
Definition demoStripe : stripeTransport (list Z) :=
  attachLane (attachLane (newStripeTransport [] 7 true) 11 []) 12 [].

(** A minimal TCP packet of an inner flow, and a UDP packet from port 53. *)
Definition demoTCP (lastPort : Z) : list Z :=
  [0x45; 0; 0; 24; 0; 0; 0; 0; 64; 6; 0; 0; 10; 0; 0; 1; 10; 0; 0; 2; 4; 210; 0; lastPort].
Definition demoDNS : list Z :=
  [0x45; 0; 0; 28; 0; 0; 0; 0; 64; 17; 0; 0; 10; 0; 0; 1; 10; 0; 0; 2; 0; 53; 4; 210; 0; 8; 0; 0].

(** Weighted rendezvous remaps as little as possible: adding a lane, at any
    place, moves a flow only to the new lane, and removing a lane moves only the
    flows that were on it; every other flow keeps its choice. *)
Theorem pickLane_minimal_remap {B} (t : stripeTransport B) key i l1 l2 :
  pickLane t key (l1 ++ i :: l2) = Some i \/
  pickLane t key (l1 ++ i :: l2) = pickLane t key (l1 ++ l2).
Proof.
  unfold pickLane. rewrite !foldl_app. simpl.
  generalize (foldl (pickStep (laneScore t key)) (scoreMix key 0, None) l1) as acc. intros acc.
  rewrite pickStep_eq. destruct (flt (fst acc) (laneScore t key i)) eqn:E; [|by right].
  destruct (flt_not_nan _ _ E). apply pick_diverge; try done. by apply flt_fle.
Qed.

(** The session between two sends of a flow: other flows are sent while probes
    change every lane's weight. *)
Fixpoint driftRun {B} (t : stripeTransport B) (steps : list (list Z * list (stripeLane B)))
  : stripeTransport B :=
  match steps with
  | [] => t
  | (q, hp) :: steps' =>
      driftRun (fst (pickLanePinned (setLanes t (lanes t) hp) q (lanes t))) steps'
  end.

Lemma driftRun_keeps {B} (steps : list (list Z * list (stripeLane B))) key : forall t l,
  Z.of_nat (size (affinity t)) + Z.of_nat (length steps) <= stripeAffinityCap ->
  (match l with Some i => i ∈ lanes t | None => True end) ->
  affinity t !! key = Some l ->
  let t' := driftRun t steps in
  salt t' = salt t /\ lanes t' = lanes t /\ affinity t' !! key = Some l.
Proof.
  induction steps as [|[q hp] steps IH]; intros t l Hsz Hl Hk; simpl; [done|].
  set (t0 := setLanes t (lanes t) hp).
  pose proof (pickLanePinned_same t0 q (lanes t)) as Hsame. unfold sameButPins in Hsame.
  pose proof (pickLanePinned_size t0 q (lanes t)) as Hsize.
  assert (affinity (fst (pickLanePinned t0 q (lanes t))) !! key = Some l) as Hk1.
  { destruct (decide (key = flowHash32 (salt t0) q)) as [->|Hne].
    - unfold pickLanePinned. change (affinity t0) with (affinity t). rewrite Hk.
      destruct l as [i|]; [|done]. by rewrite decide_True by done.
    - rewrite pickLanePinned_keeps; [done|done|]. change (affinity t0) with (affinity t).
      cbn [length] in Hsz. lia. }
  destruct (pickLanePinned t0 q (lanes t)) as [t1 r]; simpl in *.
  assert (salt t1 = salt t /\ lanes t1 = lanes t) as [Es El] by (rewrite Hsame; done).
  destruct (IH t1 l) as (I1 & I2 & I3); [lia|by rewrite El|done|]. by rewrite I1, I2, Es, El.
Qed.

(** A flow stays on its lane: once a flow with a key has been resolved, it
    resolves to the same lane again after any number of other flows were sent and
    whatever the probes did to the lanes' weights in between, as long as the lane
    set is unchanged and the table did not fill up. *)
Theorem flow_pinned {B} (t : stripeTransport B) p t1 l steps hp :
  flowHash32 (salt t) p <> 0 ->
  pickLanePinned t p (lanes t) = (t1, l) ->
  Z.of_nat (size (affinity t1)) + Z.of_nat (length steps) <= stripeAffinityCap ->
  let t2 := driftRun t1 steps in
  let t3 := setLanes t2 (lanes t2) hp in
  lanes t2 = lanes t /\ pickLanePinned t3 p (lanes t3) = (t3, l).
Proof.
  intros Hk Hp Hsz t2 t3.
  pose proof (pickLanePinned_same t p (lanes t)) as Hsame. unfold sameButPins in Hsame.
  pose proof (pickLanePinned_pins _ _ _ _ _ Hp Hk) as Hpin. rewrite Hp in Hsame. simpl in Hsame.
  assert (salt t1 = salt t /\ lanes t1 = lanes t) as [Es El] by (rewrite Hsame; done).
  assert (match l with Some i => i ∈ lanes t1 | None => True end) as Hl.
  { destruct l as [i|]; [|done]. rewrite El. by eapply pickLanePinned_In. }
  destruct (driftRun_keeps steps _ t1 l Hsz Hl Hpin) as (D1 & D2 & D3). fold t2 in D1, D2, D3.
  split; [congruence|]. unfold pickLanePinned. subst t3. cbn [salt affinity lanes setLanes].
  rewrite D1, Es, D3. destruct l as [i|]; [|done]. rewrite decide_True; [done|by rewrite D2].
Qed.

Lemma flow_pinned_witness :
  let t1 := fst (pickLanePinned demoStripe (demoTCP 80) (lanes demoStripe)) in
  let l := snd (pickLanePinned demoStripe (demoTCP 80) (lanes demoStripe)) in
  let t2 := driftRun t1 [(demoTCP 81, []); (demoTCP 80, heap demoStripe)] in
  pickLanePinned (setLanes t2 (lanes t2) []) (demoTCP 80) (lanes t2) = (setLanes t2 (lanes t2) [], l).
Proof.
  intros t1 l t2.
  apply (flow_pinned demoStripe (demoTCP 80) t1 l [(demoTCP 81, []); (demoTCP 80, heap demoStripe)] []).
  - vm_compute. congruence.
  - subst t1 l. by destruct (pickLanePinned _ _ _).
  - vm_compute. congruence.
Defined.

(** C13: a batch that [SendBatch] acknowledges loses and duplicates nothing: its
    frames are split into those the primary transport carries and those appended
    to lane queues, whatever lanes were full or dead, in whatever order the map of
    lanes is walked; control and DNS frames always ride the primary lane. *)
Theorem stripeSendBatch_conserves {B} `{CarriesFrames B} (t : stripeTransport B) frames tm order os t' :
  framed (base t) -> lanesOk t -> (forall m, order m ≡ₚ m) ->
  stripeSendBatch t frames tm order os = (t', Ok tt) ->
  exists ps qs, frames ≡ₚ ps ++ qs /\
    carried (base t') ≡ₚ carried (base t) ++ map (fun f => (fType f, fPayload f)) ps /\
    queuedFrames t' ≡ₚ queuedFrames t ++ qs /\
    Forall (fun f => splittable (fType f) (fPayload f) = true) qs.
Proof.
  intros Hfr Hok Hord. unfold stripeSendBatch. destruct (laneCount t =? 0)%nat.
  { intros Hs. destruct (primarySendBatch_Ok _ _ _ _ Hfr Hs) as (_ & Hc & Hh).
    exists frames, []. unfold queuedFrames. rewrite !app_nil_r, Hc, Hh. done. }
  pose proof (splitFrames_spec (lanes t) frames t [] [] ltac:(constructor)) as Hsp.
  destruct (splitFrames t (lanes t) frames [] []) as [[t1 prim] per].
  destruct Hsp as (Hs1 & Hperm & Hper). unfold sameButPins in Hs1. simpl in Hperm.
  assert (Forall (laneBatchOk (lanes t)) (order per)) as Hper'.
  { eapply Permutation_Forall; [|exact Hper]. by symmetry. }
  assert (concat (map snd (order per)) ≡ₚ concat (map snd per)) as Hcat.
  { rewrite <- !flat_map_concat_map. by apply Permutation_flat_map. }
  assert (forall t2 err, framed (base t2) -> heap t2 = heap t ->
    carried (base t2) = carried (base t) ++ map (fun f => (fType f, fPayload f)) prim ->
    enqueueAll t2 (order per) os tm err = (t', Ok tt) ->
    exists ps qs, frames ≡ₚ ps ++ qs /\
    carried (base t') ≡ₚ carried (base t) ++ map (fun f => (fType f, fPayload f)) ps /\
    queuedFrames t' ≡ₚ queuedFrames t ++ qs /\
    Forall (fun f => splittable (fType f) (fPayload f) = true) qs) as Hend.
  { intros t2 err Hf2 Hh2 Hc2 He.
    destruct (enqueueAll_spec os tm (lanes t) (order per) t2 err t' Hf2 Hper') as [_ (fb & qs & P1 & P2 & P3 & P4)];
      [by rewrite Hh2|done|].
    exists (prim ++ fb), qs. split_and!; [| | |done].
    - rewrite <- Hperm, <- app_assoc, <- P1, Hcat. done.
    - rewrite P2, Hc2, map_app, app_assoc. done.
    - unfold queuedFrames in *. rewrite P3, Hh2. done. }
  destruct prim as [|f fs].
  - intros He. apply (Hend t1 (Ok tt)); try done; rewrite Hs1; simpl; try done. by rewrite app_nil_r.
  - destruct (primarySendBatch t1 (f :: fs) tm) as [t2 r] eqn:Ep. intros He.
    destruct r as [[]|e].
    + destruct (primarySendBatch_Ok t1 (f :: fs) tm t2) as (Hf2 & Hc2 & Hh2); [by rewrite Hs1|done|].
      apply (Hend t2 (Ok tt)); try done; [rewrite Hh2|rewrite Hc2]; by rewrite Hs1.
    + exfalso. eapply enqueueAll_Err. by rewrite He.
Qed.

Lemma stripeSendBatch_conserves_witness :
  let fs := [mkFrame FrameMeshPacket (demoTCP 80) false; mkFrame FrameGossip [1] true;
             mkFrame FrameMeshPacket demoDNS false; mkFrame FrameMeshPacket (demoTCP 83) false] in
  exists t' ps qs, stripeSendBatch demoStripe fs (mkTimes 1 2) id (fun _ => EnqQueued) = (t', Ok tt) /\
    fs ≡ₚ ps ++ qs /\ queuedFrames t' ≡ₚ qs.
Proof.
  intros fs.
  destruct (stripeSendBatch demoStripe fs (mkTimes 1 2) id (fun _ => EnqQueued)) as [t' r] eqn:E.
  assert (r = Ok tt) as -> by (change r with (snd (t', r)); rewrite <- E; vm_compute; reflexivity).
  destruct (stripeSendBatch_conserves demoStripe fs (mkTimes 1 2) id (fun _ => EnqQueued) t')
    as (ps & qs & H1 & _ & H3 & _).
  - exists []. by split; [constructor|].
  - vm_compute. repeat constructor.
  - done.
  - exact E.
  - exists t', ps, qs. split; [done|]. split; [done|]. exact H3.
Defined.

(** Contrary to the promise that a dead lane never drops data, a failed
    write loses what is still queued on the lane: the lane is detached and its
    writer never runs again, so the remaining batches, which [SendBatch] has
    already acknowledged, are sent neither on the lane nor on the primary one. *)
Theorem lane_failure_drops_queue {B} `{FrameTransport B} (t : stripeTransport B) i l batch q b e now :
  heap t !! i = Some l -> laneDone l = false -> isClosed t = false -> queue l = batch :: q ->
  tSendBatch (transport l) batch = (b, Err e) ->
  let t' := laneWriter t i now in
  lanes t' = removeFirst i (lanes t) /\ base t' = base t /\ affinity t' = ∅ /\
  (exists l', heap t' !! i = Some l' /\ queue l' = q /\ transport l' = b) /\
  forall now', laneWriter t' i now' = t'.
Proof.
  intros Hl Hd Hc Hq Hs t'. subst t'.
  assert (laneWriter t i now = removeLane (updLane t i (fun _ =>
    mkLane (laneId l) b q (laneDone l) (probe l) (framesSent l) (bytesSent l) (flow l))) i) as ->.
  { unfold laneWriter. rewrite Hl, Hd, Hc, Hq, Hs. done. }
  set (l1 := mkLane (laneId l) b q (laneDone l) (probe l) (framesSent l) (bytesSent l) (flow l)).
  assert (heap (removeLane (updLane t i (fun _ => l1)) i) !! i = Some (laneClose l1)) as Hh.
  { simpl. rewrite !list_lookup_alter, Hl. simpl. by rewrite !decide_True. }
  split_and!; try done.
  - exists (laneClose l1). by rewrite Hh.
  - intros now'. unfold laneWriter. rewrite Hh. done.
Qed.

(** A session whose lane accepts two more bytes, with two batches queued. *)
Definition demoDying : stripeTransport (list Z * Z) :=
  updLane (attachLane (newStripeTransport ([], 100) 7 true) 11 ([], 2)) 0%nat
    (fun l => setQueue l [[mkFrame FrameMeshPacket [1; 2] false]; [mkFrame FrameMeshPacket [3] false]]).

Lemma lane_failure_drops_queue_witness :
  let t' := laneWriter (H := streamTransport boundedWrite true) demoDying 0%nat 5 in
  lanes t' = [] /\ (exists l', heap t' !! 0%nat = Some l' /\ queue l' = [[mkFrame FrameMeshPacket [3] false]]).
Proof.
  destruct (lane_failure_drops_queue (H := streamTransport boundedWrite true) demoDying 0%nat
    (mkLane 11 ([], 2) [[mkFrame FrameMeshPacket [1; 2] false]; [mkFrame FrameMeshPacket [3] false]]
       false newProbe 0 0 newLaneFlow)
    [mkFrame FrameMeshPacket [1; 2] false] [[mkFrame FrameMeshPacket [3] false]]
    ([FrameMeshPacket; 0], 0) ErrConn 5) as (H1 & _ & _ & (l' & H2 & H3 & _) & _).
  - reflexivity.
  - reflexivity.
  - reflexivity.
  - reflexivity.
  - vm_compute. reflexivity.
  - split; [exact H1|]. by exists l'.
Defined.

(** ** The controller *)

Section Controller.
Context {B : Type}.
Implicit Types t : stripeTransport B.

Lemma removeFirst_length i ls : (length (removeFirst i ls) <= length ls)%nat.
Proof. induction ls; simpl; [lia|]. case_match; simpl; lia. Qed.

Lemma laneCount_removeLane t i : (laneCount (removeLane t i) <= laneCount t)%nat.
Proof. apply removeFirst_length. Qed.

Lemma laneCount_degrade t ls : (laneCount (foldl degradeStep t ls) <= laneCount t)%nat.
Proof.
  revert t; induction ls as [|i ls IH]; intros t; cbn [foldl]; [lia|].
  etransitivity; [apply IH|]. unfold degradeStep. case_match; [|lia]. case_match; [|lia].
  apply (laneCount_removeLane (setCtrl t _)).
Qed.

Lemma heap_degrade t ls : length (heap (foldl degradeStep t ls)) = length (heap t).
Proof.
  revert t; induction ls as [|i ls IH]; intros t; cbn [foldl]; [done|]. rewrite IH.
  unfold degradeStep. case_match; [|done]. case_match; [|done]. simpl. by rewrite length_alter.
Qed.

(** What makes an addition due. *)
Lemma controllerDecide_add t now udp c addDue removeDue :
  controllerDecide t now udp = (c, addDue, removeDue) ->
  addDue = true ->
  isGated (primaryFlow t) = false /\ udp = false /\ (laneCount t < stripeMaxLanes)%nat /\
  stripeAddInterval <= now - lastAddAt (ctrl t) /\ lastAddAt c = now /\
  fle stripeGaugeHighWatermark (gauge c) = true /\ clearSince c = 0 /\
  highSince c <> 0 /\ stripeAddSustain <= now - highSince c.
Proof.
  unfold controllerDecide.
  set (c0 := if negb (IsZero (lastSampleAt (ctrl t))) && _ then _ else ctrl t).
  assert (lastAddAt c0 = lastAddAt (ctrl t)) as E0.
  { subst c0. unfold announceGaugeLocked. by repeat case_match. }
  clearbody c0. intros E Ha.
  pose proof (f_equal (fun x => fst (fst x)) E) as Ec. pose proof (f_equal (fun x => snd (fst x)) E) as Ea.
  cbn [fst snd] in Ec, Ea. clear E. rewrite Ha in Ea. rewrite <- Ec. clear Ec Ha.
  destruct (fle stripeGaugeHighWatermark (gauge c0)) eqn:Eh, udp;
    cbn [highSince clearSince setWindows lastAddAt gauge setLastOps andb negb] in *.
  2: { rewrite Ea. repeat (apply andb_prop in Ea as [Ea ?]). unfold IsZero in *. rewrite E0 in *.
       split_and!; first [assumption | reflexivity | lia | by apply negb_true_iff | by apply Nat.ltb_lt]. }
  all: exfalso; repeat (apply andb_prop in Ea as [Ea ?]); unfold IsZero in *; lia.
Qed.

(** The controller keeps its limits: a tick never leaves more than four
    dynamic lanes, and it attaches a lane only when the in-flight gate is not
    engaged, the UDP leg is not carrying the data, at least ten seconds passed
    since the last addition, and the gauge has been at or above the watermark for
    thirty seconds. *)
Theorem controllerTick_limits t now udp dial :
  (laneCount t <= stripeMaxLanes)%nat ->
  let t' := controllerTick t now udp dial in
  (laneCount t' <= stripeMaxLanes)%nat /\
  (length (heap t') <> length (heap t) ->
     length (heap t') = S (length (heap t)) /\ dial <> None /\
     isGated (primaryFlow t) = false /\ udp = false /\ (laneCount t < stripeMaxLanes)%nat /\
     stripeAddInterval <= now - lastAddAt (ctrl t) /\
     exists c r, controllerDecide t now udp = (c, true, r) /\
       fle stripeGaugeHighWatermark (gauge c) = true /\ stripeAddSustain <= now - highSince c).
Proof.
  intros Hmax. unfold controllerTick.
  destruct (controllerDecide t now udp) as [[c addDue] removeDue] eqn:E.
  pose proof (controllerDecide_add t now udp c addDue removeDue E) as Hadd.
  set (t1 := setCtrl t _).
  set (t2 := if addDue then _ else t1).
  assert ((laneCount t2 <= stripeMaxLanes)%nat /\
    (length (heap t2) = length (heap t) \/
     length (heap t2) = S (length (heap t)) /\ addDue = true /\ dial <> None)) as [Hc2 Hh2].
  { subst t2. destruct addDue; [|split; [done|by left]].
    destruct dial as [[id tr]|]; [|split; [done|by left]].
    destruct (Hadd eq_refl) as (_ & _ & Hlt & _). simpl. split.
    - unfold laneCount in *; simpl. rewrite length_app; simpl. lia.
    - right. rewrite length_app; simpl. split_and!; [lia|done|done]. }
  clearbody t2. set (t3 := if removeDue then _ else t2).
  assert ((laneCount t3 <= laneCount t2)%nat /\ length (heap t3) = length (heap t2)) as [Hc3 Hh3].
  { subst t3. destruct removeDue; [|done]. case_match; [|done]. split.
    - apply laneCount_removeLane.
    - simpl. by rewrite length_alter. }
  clearbody t3. pose proof (laneCount_degrade t3 (lanes t3)). rewrite heap_degrade, Hh3. split; [lia|].
  intros Hne. destruct Hh2 as [|(? & -> & ?)]; [done|].
  destruct (Hadd eq_refl) as (? & ? & ? & ? & _ & ? & _ & _ & ?). split_and!; try done. by exists c, removeDue.
Qed.

End Controller.

(** A congested session: gauge at 1 since second one, the last sample just now. *)
Definition demoCongested : stripeTransport (list Z) :=
  setCtrl (newStripeTransport [] 7 true)
    (setLastSample (setWindows (setGauge newCtrl (f64 1)) (1 * Second) 0) (40 * Second)).

Lemma controllerTick_limits_witness :
  laneCount (controllerTick demoCongested (40 * Second) false (Some (11, []))) = 1%nat /\
  stripeAddInterval <= 40 * Second - lastAddAt (ctrl demoCongested).
Proof.
  split; [vm_compute; reflexivity|].
  apply (controllerTick_limits demoCongested (40 * Second) false (Some (11, []))).
  - vm_compute. repeat constructor.
  - vm_compute. congruence.
Defined.

(** ** The write credit *)

(** The credit as a sum over the gated lanes. *)
Definition creditSum (fs : list laneFlow) : Z :=
  foldr (fun f acc => (if gated f then effectiveCap f - (tx f - acked f) else 0) + acc) 0 fs.

Definition txSum (fs : list laneFlow) : Z := foldr (fun f acc => tx f + acc) 0 fs.

Lemma creditSum_range fs :
  Forall flowInv fs -> - txSum fs <= creditSum fs <= laneCapMax * Z.of_nat (length fs) /\ 0 <= txSum fs.
Proof.
  induction 1 as [|f fs Hf Hfs IH]; simpl; [lia|].
  pose proof (effectiveCap_range f Hf). pose proof (fi_bytes f Hf). unfold laneCapMin, laneCapMax in *.
  destruct (gated f); lia.
Qed.

Lemma considerCredit_fold fs : forall any acc,
  Forall flowInv fs ->
  (any = false -> acc = 0) ->
  - 2 ^ 62 + txSum fs <= acc <= 2 ^ 62 - laneCapMax * Z.of_nat (length fs) ->
  foldl considerCredit (any, acc) fs = (any || existsb gated fs, acc + creditSum fs).
Proof.
  induction fs as [|f fs IH]; intros any acc Hfs Hany Hb.
  { simpl. by rewrite orb_false_r, Z.add_0_r. }
  apply Forall_cons_iff in Hfs as [Hf Hfs]. cbn [foldl existsb creditSum foldr]. fold (creditSum fs).
  cbn [txSum foldr length] in Hb. fold (txSum fs) in Hb.
  pose proof (effectiveCap_range f Hf). pose proof (fi_bytes f Hf).
  destruct (creditSum_range fs Hfs) as [_ Htx].
  unfold considerCredit at 2. unfold gateState. fold (effectiveCap f).
  rewrite (swrap_inflight f Hf). unfold laneCapMin, laneCapMax in *.
  destruct (gated f) eqn:Eg; cbn [negb].
  - assert ((if any then acc else 0) = acc) as -> by (destruct any; [done|symmetry; by apply Hany]).
    rewrite (swrap_small 64 (effectiveCap f - (tx f - acked f))) by (change (2 ^ (64 - 1)) with (2 ^ 63); lia).
    rewrite swrap_small by (change (2 ^ (64 - 1)) with (2 ^ 63); lia).
    rewrite IH; [|done|done|lia]. rewrite orb_true_r. f_equal. lia.
  - rewrite IH; [|done|done|lia]. cbn [orb]. f_equal; lia.
Qed.

(** The write credit is exact: while no lane has been acknowledged it is
    unlimited; otherwise it is the sum, over the lanes whose peer acknowledges, of
    cap minus bytes in flight, computed without overflow as long as fewer than
    2^61 bytes were sent on lanes that number fewer than 2^37. *)
Theorem writeCredit_exact {B} (t : stripeTransport B) :
  Forall flowInv (laneFlows t) -> txSum (laneFlows t) <= 2 ^ 61 ->
  Z.of_nat (length (laneFlows t)) <= 2 ^ 37 ->
  writeCredit t = if existsb gated (laneFlows t) then creditSum (laneFlows t) else MaxInt64.
Proof.
  intros Hf Htx Hn. unfold writeCredit.
  rewrite considerCredit_fold; [|done|done|unfold laneCapMax; lia]. by rewrite Z.add_0_l.
Qed.

Lemma writeCredit_exact_witness :
  writeCredit (setPrimaryFlow demoStripe demoFlow) = laneCapInitial - 600.
Proof.
  rewrite (writeCredit_exact (setPrimaryFlow demoStripe demoFlow)).
  - vm_compute. reflexivity.
  - repeat (constructor; [first [apply flowInv_demoFlow | apply flowInv_new]|]). constructor.
  - vm_compute. congruence.
  - vm_compute. congruence.
Defined.
