(* ===== verification/PeerQueues.v ===== *)
(** The outbound side of a P2P peer: src/p2p/p2p.go, enqueueWriteReq with its byte
    budget, the deficit round robin over 256 flow queues, the loop that forwards its
    output, and the write loop with its in-flight gate.

    Channels are lists bounded by their capacity; a goroutine's turn is one step, and
    where Go's select may choose among ready channels the choice is an argument.  The
    transport below is any instance of [FrameTransport].  [pWrote] and [pFailed] log
    the requests handed to the transport, for the specification.  The loops' timers
    and diagnostics are left out. *)

From Stdlib Require Import ZArith Lia.
From stdpp Require Import base list numbers.
From S2P Require Import Prelude Frame Transport GoFloat LaneFlow Stripe.
Open Scope Z_scope.

(** ** Requests and constants *)

Record writeReq := mkReq {
  rType : Z; rData : list Z; rControl : bool; rDns : bool; rTime : Time }.

(** The zero value of the struct. *)
Definition zeroReq : writeReq := mkReq 0 [] false false zero_time.

Definition dataQueueByteBudget : Z := Z.shiftl 8 20.
Definition dataQueueMaxDepth : nat := 512.
Definition drrQuantum : Z := Z.shiftl 64 10.
Definition numQueues : nat := 256.
Definition maxBatchFrames : nat := 64.
(** Capacity of the control, DNS and scheduler-output channels. *)
Definition chanDepth : nat := 512.

#[global] Arguments numQueues : simpl never.
#[global] Arguments dataQueueMaxDepth : simpl never.
#[global] Arguments chanDepth : simpl never.

(** ** The scheduler *)

Record DRRScheduler := mkDRR {
  queues : list (list writeReq);
  deficits : list Z;
  quantum : Z;
  round : nat;
  salt : Z
}.

Definition newDRRScheduler (salt : Z) : DRRScheduler :=
  mkDRR (replicate numQueues []) (replicate numQueues 0) drrQuantum 0 salt.

Definition queueAt (s : DRRScheduler) (i : nat) : list writeReq := default [] (queues s !! i).
Definition deficitAt (s : DRRScheduler) (i : nat) : Z := default 0 (deficits s !! i).

Definition hashFlow (s : DRRScheduler) (data : list Z) : nat :=
  Z.to_nat (hashFlowWithSalt (salt s) data).

(** [drainQueue room q d]: frames taken from [q] while the batch has room and the
    deficit [d] is positive; the rest of the queue and the deficit left. *)
Fixpoint drainQueue (room : nat) (q : list writeReq) (d : Z) : list writeReq * list writeReq * Z :=
  match room with
  | O => ([], q, d)
  | S room' =>
      match q with
      | [] => ([], [], 0)
      | r :: q' =>
          let d' := d - len (rData r) in
          if d' <=? 0 then ([r], q', d')
          else let '(t, q'', d'') := drainQueue room' q' d' in (r :: t, q'', d'')
      end
  end.

(** One visit to queue [idx] with [room] frames left in the batch. *)
Definition visitQueue (s : DRRScheduler) (room : nat) (idx : nat) : DRRScheduler * list writeReq :=
  let d := deficitAt s idx in
  let d := if d <=? 0 then d + quantum s else d in
  let '(t, q, d) := drainQueue room (queueAt s idx) d in
  (mkDRR (<[idx := q]> (queues s)) (<[idx := d]> (deficits s)) (quantum s) (round s) (salt s), t).

(** The loop of drainRound with [n] queues left to visit, the next one [idx]; returns
    the scheduler, the batch and the last index visited. *)
Fixpoint drainLoop (n : nat) (s : DRRScheduler) (maxBatch : nat) (batch : list writeReq) (idx last : nat)
  : DRRScheduler * list writeReq * nat :=
  match n with
  | O => (s, batch, last)
  | S n' =>
      if decide (length batch < maxBatch)%nat then
        let '(s', t) := visitQueue s (maxBatch - length batch) idx in
        drainLoop n' s' maxBatch (batch ++ t) ((idx + 1) mod numQueues)%nat idx
      else (s, batch, last)
  end.

Definition setRound (s : DRRScheduler) (r : nat) : DRRScheduler :=
  mkDRR (queues s) (deficits s) (quantum s) r (salt s).

(** One round: the batch, and the scheduler with its round advanced. *)
Definition drainRound (s : DRRScheduler) (maxBatch : nat) : DRRScheduler * list writeReq :=
  let '(s', batch, last) := drainLoop numQueues s maxBatch [] (round s) (round s) in
  (setRound s' ((last + 1) mod numQueues)%nat, batch).

Definition bytesOf (l : list writeReq) : Z := foldr (fun r acc => len (rData r) + acc) 0 l.

(** ** The peer *)

Inductive EnqueueError := ErrPeerStopped | ErrQueueFull.

Record Drops := mkDrops {
  dnsQueueDrops : Z; dataQueueDrops : list Z; controlChDrops : Z; dataBudgetDrops : Z }.

Definition bump (n : Z) : Z := wrap 64 (n + 1).

Definition totalDataDrops (d : Drops) : Z :=
  foldl (fun acc n => wrap 64 (acc + n))
    (wrap 64 (wrap 64 (0 + dnsQueueDrops d) + dataBudgetDrops d)) (dataQueueDrops d).

(** ** Egress health *)

Record Egress := mkEgress {
  framesSent : Z; lastDropCnt : Z; dropRateEMA : float64; sojournEMA : float64; sojournSamples : Z }.

Definition newEgress : Egress := mkEgress 0 0 (f64 0) (f64 0) 0.

Definition recordSojourn (e : Egress) (req : writeReq) (now : Time) : Egress :=
  if IsZero (rTime req) || rControl req then e
  else
    let ms := fdiv (f64 (Z.quot (now - rTime req) 1000)) (f64 1000) in
    let ema := if sojournSamples e =? 0 then ms
               else fadd (sojournEMA e) (fmul (f64_frac 2 10) (fsub ms (sojournEMA e))) in
    mkEgress (framesSent e) (lastDropCnt e) (dropRateEMA e) ema (bump (sojournSamples e)).

(** A batch was written: its non-control frames count, and their delay is sampled. *)
Definition recordSent (e : Egress) (batch : list writeReq) (now : Time) : Egress :=
  let data := List.filter (fun r => negb (rControl r)) batch in
  let e := mkEgress (wrap 64 (framesSent e + len data)) (lastDropCnt e) (dropRateEMA e) (sojournEMA e)
             (sojournSamples e) in
  foldl (fun e r => recordSojourn e r now) e data.

Definition sampleEgressWindow (e : Egress) (d : Drops) : Egress * (float64 * float64) :=
  let drops := totalDataDrops d in
  let windowDrops := wrap 64 (drops - lastDropCnt e) in
  let windowSent := framesSent e in
  let total := wrap 64 (windowDrops + windowSent) in
  let rate := if 0 <? total then fdiv (f64 windowDrops) (f64 total) else f64 0 in
  let ema := fadd (fmul (f64_frac 1 2) (dropRateEMA e)) (fmul (f64_frac 1 2) rate) in
  let soj := if sojournSamples e =? 0 then fmul (sojournEMA e) (f64_frac 1 2) else sojournEMA e in
  (mkEgress 0 drops ema soj 0, (ema, soj)).

Record Peer (B : Type) := mkPeer {
  pStopped : bool;                (* stopCh closed *)
  controlCh : list writeReq;
  dnsQueue : list writeReq;
  drrScheduler : DRRScheduler;
  drrBatch : list writeReq;       (* the batch drrLoop is forwarding *)
  drrOutput : list writeReq;
  dataBudget : Z;
  flowNotify : bool;
  drops : Drops;
  pTransport : B;
  pWriting : bool;                (* peerWriteLoop is running *)
  egress : Egress;
  pWrote : list writeReq;
  pFailed : list writeReq
}.
Arguments mkPeer {B}. Arguments pStopped {B}. Arguments controlCh {B}. Arguments dnsQueue {B}.
Arguments drrScheduler {B}. Arguments drrBatch {B}. Arguments drrOutput {B}. Arguments dataBudget {B}.
Arguments flowNotify {B}. Arguments drops {B}. Arguments pTransport {B}. Arguments pWriting {B}.
Arguments egress {B}. Arguments pWrote {B}. Arguments pFailed {B}.

Section Peer.
Context {B : Type} `{FrameTransport B}.
Implicit Types (p : Peer B) (r : writeReq).

Definition newPeer (salt : Z) (b : B) : Peer B :=
  mkPeer false [] [] (newDRRScheduler salt) [] [] dataQueueByteBudget false (mkDrops 0 (replicate numQueues 0) 0 0) b true newEgress [] [].

Definition setControl p l := mkPeer (pStopped p) l (dnsQueue p) (drrScheduler p) (drrBatch p) (drrOutput p)
  (dataBudget p) (flowNotify p) (drops p) (pTransport p) (pWriting p) (egress p) (pWrote p) (pFailed p).
Definition setDns p l := mkPeer (pStopped p) (controlCh p) l (drrScheduler p) (drrBatch p) (drrOutput p)
  (dataBudget p) (flowNotify p) (drops p) (pTransport p) (pWriting p) (egress p) (pWrote p) (pFailed p).
Definition setScheduler p s budget := mkPeer (pStopped p) (controlCh p) (dnsQueue p) s (drrBatch p) (drrOutput p)
  budget (flowNotify p) (drops p) (pTransport p) (pWriting p) (egress p) (pWrote p) (pFailed p).
Definition setDrr p b o := mkPeer (pStopped p) (controlCh p) (dnsQueue p) (drrScheduler p) b o
  (dataBudget p) (flowNotify p) (drops p) (pTransport p) (pWriting p) (egress p) (pWrote p) (pFailed p).
Definition setNotify p n := mkPeer (pStopped p) (controlCh p) (dnsQueue p) (drrScheduler p) (drrBatch p) (drrOutput p)
  (dataBudget p) n (drops p) (pTransport p) (pWriting p) (egress p) (pWrote p) (pFailed p).
Definition setDrops p d := mkPeer (pStopped p) (controlCh p) (dnsQueue p) (drrScheduler p) (drrBatch p) (drrOutput p)
  (dataBudget p) (flowNotify p) d (pTransport p) (pWriting p) (egress p) (pWrote p) (pFailed p).
Definition setWriter p (b : B) w n wrote failed := mkPeer (pStopped p) (controlCh p) (dnsQueue p) (drrScheduler p)
  (drrBatch p) (drrOutput p) (dataBudget p) (flowNotify p) (drops p) b w n wrote failed.
Definition setStopped p := mkPeer true (controlCh p) (dnsQueue p) (drrScheduler p) (drrBatch p) (drrOutput p)
  (dataBudget p) (flowNotify p) (drops p) (pTransport p) (pWriting p) (egress p) (pWrote p) (pFailed p).

(** ** Admission *)

Definition dropControl p : Peer B := let d := drops p in
  setDrops p (mkDrops (dnsQueueDrops d) (dataQueueDrops d) (bump (controlChDrops d)) (dataBudgetDrops d)).
Definition dropDns p : Peer B := let d := drops p in
  setDrops p (mkDrops (bump (dnsQueueDrops d)) (dataQueueDrops d) (controlChDrops d) (dataBudgetDrops d)).
Definition dropData p (i : nat) : Peer B := let d := drops p in
  setDrops p (mkDrops (dnsQueueDrops d) (alter bump i (dataQueueDrops d)) (controlChDrops d) (dataBudgetDrops d)).
Definition dropBudget p : Peer B := let d := drops p in
  setDrops p (mkDrops (dnsQueueDrops d) (dataQueueDrops d) (controlChDrops d) (bump (dataBudgetDrops d))).

Definition pushQueue (s : DRRScheduler) (i : nat) (r : writeReq) : DRRScheduler :=
  mkDRR (<[i := queueAt s i ++ [r]]> (queues s)) (deficits s) (quantum s) (round s) (salt s).

(** [None] is a nil error.  The reservation of the byte budget and its refund on a
    full queue are one step with the send on the channel. *)
Definition enqueueWriteReq p (req : writeReq) (now : Time) : Peer B * option EnqueueError :=
  if pStopped p then (p, Some ErrPeerStopped)
  else
    let req := mkReq (rType req) (rData req) (rControl req) (rDns req) now in
    let isMeshPacket := rType req =? FrameMeshPacket in
    if rControl req then
      if decide (length (controlCh p) < chanDepth)%nat then (setControl p (controlCh p ++ [req]), None)
      else (dropControl p, Some ErrQueueFull)
    else if isMeshPacket && isDNSPacket (rData req) then
      let req := mkReq (rType req) (rData req) (rControl req) true (rTime req) in
      if decide (length (dnsQueue p) < chanDepth)%nat then (setDns p (dnsQueue p ++ [req]), None)
      else (dropDns p, Some ErrQueueFull)
    else
      let s := drrScheduler p in
      let i := hashFlow s (rData req) in
      let need := len (rData req) in
      if dataBudget p <? need then (dropBudget p, Some ErrQueueFull)
      else if decide (length (queueAt s i) < dataQueueMaxDepth)%nat
      then (setScheduler p (pushQueue s i req) (dataBudget p - need), None)
      else (dropData p i, Some ErrQueueFull).

Definition enqueueWrite p (frameType : Z) (data : list Z) (isControl : bool) (now : Time)
  : Peer B * option EnqueueError :=
  enqueueWriteReq p (mkReq frameType data isControl false zero_time) now.

(** ** The scheduler's loop *)

(** drrLoop takes a batch when it has none to forward; the bytes leave the budget. *)
Definition drrTake p : Peer B :=
  match drrBatch p with
  | _ :: _ => p
  | [] =>
      let '(s, batch) := drainRound (drrScheduler p) maxBatchFrames in
      setDrr (setScheduler p s (dataBudget p + bytesOf batch)) batch (drrOutput p)
  end.

(** ... and sends it on the output channel, frame by frame. *)
Definition drrForward p : Peer B :=
  match drrBatch p with
  | r :: rest =>
      if decide (length (drrOutput p) < chanDepth)%nat then setDrr p rest (drrOutput p ++ [r]) else p
  | [] => p
  end.

(** ** The write loop *)

(** Frames drained from a channel while the batch has [room]. *)
Definition drainCh (room : nat) (ch : list writeReq) : list writeReq * list writeReq :=
  (take room ch, drop room ch).

(** Data frames while the batch has room and [dataBytes] is below the credit. *)
Fixpoint drainData (room : nat) (ch : list writeReq) (dataBytes maxDataBytes : Z)
  : list writeReq * list writeReq :=
  match room, ch with
  | S room', r :: ch' =>
      if dataBytes <? maxDataBytes then
        let '(t, rest) := drainData room' ch' (dataBytes + len (rData r)) maxDataBytes in (r :: t, rest)
      else ([], ch)
  | _, _ => ([], ch)
  end.

Definition collectWriteBatch p (first : writeReq) (max : nat) (maxDataBytes : Z)
  : Peer B * list writeReq :=
  let ctrl := if rControl first then [first] else [] in
  let dns := if negb (rControl first) && rDns first then [first] else [] in
  let data := if negb (rControl first) && negb (rDns first) then [first] else [] in
  let dataBytes := bytesOf data in
  let n := 1%nat in
  let '(c, crest) := drainCh (max - n) (controlCh p) in
  let n := (n + length c)%nat in
  let '(d, drest) := drainCh (max - n) (dnsQueue p) in
  let n := (n + length d)%nat in
  let '(t, trest) := drainData (max - n) (drrOutput p) dataBytes maxDataBytes in
  (setDrr (setDns (setControl p crest) drest) (drrBatch p) trest,
   (ctrl ++ c) ++ (dns ++ d) ++ (data ++ t)).

Definition reqFrame (r : writeReq) : Frame := mkFrame (rType r) (rData r) (rControl r).

(** writeBatch with its single-frame case; an error closes the transport and ends
    the loop. *)
Definition writeBatch p (batch : list writeReq) (now : Time) : Peer B :=
  let '(b, res) :=
    match batch with
    | [] => (pTransport p, Ok tt)
    | [r] => tSend (pTransport p) (rType r) (rData r) (rControl r)
    | _ => tSendBatch (pTransport p) (map reqFrame batch)
    end in
  match res with
  | Ok _ =>
      setWriter p b true (recordSent (egress p) batch now) (pWrote p ++ batch) (pFailed p)
  | Err _ => setWriter p b false (egress p) (pWrote p) (pFailed p ++ batch)
  end.

(** What the loop's select found ready. *)
Inductive writeChoice := ChStop | ChNotify | ChControl | ChDNS | ChData.

(** The request taken, the peer without it; [None] when that choice is not ready. *)
Definition receive p (c : writeChoice) : option (Peer B * option writeReq) :=
  match c with
  | ChStop => if pStopped p then Some (p, None) else None
  | ChNotify => if flowNotify p then Some (setNotify p false, Some zeroReq) else None
  | ChControl => match controlCh p with r :: l => Some (setControl p l, Some r) | [] => None end
  | ChDNS => match dnsQueue p with r :: l => Some (setDns p l, Some r) | [] => None end
  | ChData => match drrOutput p with r :: l => Some (setDrr p (drrBatch p) l, Some r) | [] => None end
  end.

(** One turn of peerWriteLoop under the write credit [credit]. *)
Definition writeTurn p (credit : Z) (now : Time) (c : writeChoice) : option (Peer B) :=
  if negb (pWriting p) then None
  else
    match c with
    | ChData => if 0 <? credit then
                  match receive p c with
                  | Some (p', Some r) =>
                      let '(p'', batch) := collectWriteBatch p' r maxBatchFrames credit in
                      Some (writeBatch p'' batch now)
                  | _ => None
                  end
                else None
    | ChNotify =>
        match receive p c with
        | Some (p', Some r) =>
            if 0 <? credit then Some p'
            else let '(p'', batch) := collectWriteBatch p' r maxBatchFrames credit in
                 Some (writeBatch p'' batch now)
        | _ => None
        end
    | ChStop =>
        match receive p c with
        | Some (p', _) =>
            Some (setWriter p' (pTransport p') false (egress p') (pWrote p') (pFailed p'))
        | None => None
        end
    | _ =>
        match receive p c with
        | Some (p', Some r) =>
            let '(p'', batch) := collectWriteBatch p' r maxBatchFrames credit in
            Some (writeBatch p'' batch now)
        | _ => None
        end
    end.

(** ** A peer at work *)

Inductive peerEvent :=
| EvEnqueue (frameType : Z) (data : list Z) (isControl : bool) (now : Time)
| EvStop
| EvCredit                       (* a lane ack wakes the write loop *)
| EvTake
| EvForward
| EvWrite (credit : Z) (now : Time) (c : writeChoice).

Definition peerApply p (e : peerEvent) : Peer B :=
  match e with
  | EvEnqueue ft data ctl now => fst (enqueueWrite p ft data ctl now)
  | EvStop => setStopped p
  | EvCredit => setNotify p true
  | EvTake => drrTake p
  | EvForward => drrForward p
  | EvWrite credit now c => default p (writeTurn p credit now c)
  end.

(** The request an admitted frame is queued as. *)
Definition queuedReq (ft : Z) (data : list Z) (ctl : bool) (now : Time) : writeReq :=
  mkReq ft data ctl (negb ctl && ((ft =? FrameMeshPacket) && isDNSPacket data)) now.

(** The requests an event admits. *)
Definition admits p (e : peerEvent) : list writeReq :=
  match e with
  | EvEnqueue ft data ctl now =>
      match snd (enqueueWrite p ft data ctl now) with
      | None => [queuedReq ft data ctl now]
      | Some _ => []
      end
  | _ => []
  end.

(** A frame fits the transport, and the clock never reads zero. *)
Definition eventOk (e : peerEvent) : Prop :=
  match e with
  | EvEnqueue _ data _ now => len data <= MaxPayload /\ 0 < now
  | _ => True
  end.

(** [peerReach b p acc]: a peer started on transport [b] can be in state [p] having
    admitted [acc]. *)
Inductive peerReach (b : B) : Peer B -> list writeReq -> Prop :=
| reachNew salt : peerReach b (newPeer salt b) []
| reachStep p acc e : peerReach b p acc -> eventOk e -> peerReach b (peerApply p e) (acc ++ admits p e).

End Peer.

(** ** Scheduler lemmas *)

(** The service class of a request: its channel, for data its flow queue. *)
Inductive queueClass := QControl | QDNS | QData (i : nat).

#[global] Instance queueClass_eq_dec : EqDecision queueClass.
Proof. solve_decision. Defined.

Definition classOf (salt : Z) (r : writeReq) : queueClass :=
  if rControl r then QControl else if rDns r then QDNS
  else QData (Z.to_nat (hashFlowWithSalt salt (rData r))).

Definition inClass (salt : Z) (c : queueClass) (r : writeReq) : bool := bool_decide (classOf salt r = c).
Definition ofClass (salt : Z) (c : queueClass) (l : list writeReq) : list writeReq :=
  List.filter (inClass salt c) l.

Lemma ofClass_app salt c l k : ofClass salt c (l ++ k) = ofClass salt c l ++ ofClass salt c k.
Proof. apply List.filter_app. Qed.

Lemma ofClass_all salt c l : Forall (fun r => classOf salt r = c) l -> ofClass salt c l = l.
Proof.
  unfold ofClass. induction 1 as [|r l Hr _ IH]; [done|]. cbn. unfold inClass at 1.
  rewrite bool_decide_eq_true_2 by done. by rewrite IH.
Qed.

Lemma ofClass_none salt c c' l : Forall (fun r => classOf salt r = c') l -> c <> c' -> ofClass salt c l = [].
Proof.
  intros Hl Hc. unfold ofClass. induction Hl as [|r l Hr _ IH]; [done|]. cbn. unfold inClass at 1.
  rewrite bool_decide_eq_false_2 by congruence. done.
Qed.

Lemma bytesOf_app l k : bytesOf (l ++ k) = bytesOf l + bytesOf k.
Proof. unfold bytesOf. induction l as [|r l IH]; cbn [foldr app]; lia. Qed.

Lemma bytesOf_nonneg l : 0 <= bytesOf l.
Proof. unfold bytesOf. induction l as [|r l IH]; cbn [foldr]; [lia|]. pose proof (len_nonneg (rData r)). lia. Qed.

Lemma bytesOf_cons r l : bytesOf (r :: l) = len (rData r) + bytesOf l.
Proof. done. Qed.

Lemma bytesOf_concat_insert (qs : list (list writeReq)) i q q' : qs !! i = Some q ->
  bytesOf (concat (<[i := q']> qs)) = bytesOf (concat qs) - bytesOf q + bytesOf q'.
Proof.
  revert i. induction qs as [|x qs IH]; intros i Hi; [done|]. destruct i as [|i]; simplify_eq/=.
  - rewrite !bytesOf_app. lia.
  - rewrite !bytesOf_app, (IH i) by done. lia.
Qed.

Lemma drainQueue_split room q d : let '(t, q', d') := drainQueue room q d in q = t ++ q'.
Proof.
  revert q d. induction room as [|room IH]; intros [|r q] d; cbn; try done.
  destruct (Z.leb_spec (d - len (rData r)) 0); [done|].
  specialize (IH q (d - len (rData r))). destruct (drainQueue room q _) as [[t q'] d']. cbn. by rewrite IH at 1.
Qed.

Lemma drainQueue_length room q d : (length (fst (fst (drainQueue room q d))) <= room)%nat.
Proof.
  revert q d. induction room as [|room IH]; intros [|r q] d; cbn; try lia.
  destruct (Z.leb_spec (d - len (rData r)) 0); [cbn; lia|].
  specialize (IH q (d - len (rData r))). destruct (drainQueue room q _) as [[t q'] d']. cbn in *. lia.
Qed.

(** Service: a positive deficit [d] pays for at most [d] bytes and one frame more,
    the debt is below one frame, and a visit with room serves a waiting frame. *)
Lemma drainQueue_service room q d m : 0 < d -> 0 < m -> Forall (fun r => len (rData r) <= m) q ->
  let '(t, q', d') := drainQueue room q d in
  bytesOf t < d + m /\ - m < d' <= d /\ ((0 < room)%nat -> q <> [] -> t <> []).
Proof.
  revert q d. induction room as [|room IH]; intros [|r q] d Hd Hm Hq; cbn.
  1,2,3: split_and!; try lia; intros; try lia; try congruence.
  apply Forall_cons_iff in Hq as [Hr Hq]. pose proof (len_nonneg (rData r)).
  destruct (Z.leb_spec (d - len (rData r)) 0).
  - cbn. split_and!; try lia. done.
  - specialize (IH q (d - len (rData r)) ltac:(lia) Hm Hq).
    destruct (drainQueue room q _) as [[t q'] d']. rewrite bytesOf_cons. split_and!; try lia. done.
Qed.

(** A data frame of flow queue [i], small enough for the transport. *)
Definition dataReq (salt : Z) (i : nat) (r : writeReq) : Prop :=
  classOf salt r = QData i /\ len (rData r) <= MaxPayload /\ rTime r <> zero_time.

Record schedOk (s : DRRScheduler) : Prop := {
  so_queues : length (queues s) = numQueues;
  so_deficits : length (deficits s) = numQueues;
  so_round : (round s < numQueues)%nat;
  so_quantum : quantum s = drrQuantum;
  so_class : forall i, Forall (dataReq (salt s) i) (queueAt s i);
  so_depth : forall i, (length (queueAt s i) <= dataQueueMaxDepth)%nat;
  so_deficit : forall i, - MaxPayload < deficitAt s i <= drrQuantum
}.

(** [s'] is [s] after [t] was taken from the fronts of its queues. *)
Record drained (s s' : DRRScheduler) (t : list writeReq) : Prop := {
  dr_ok : schedOk s';
  dr_round : round s' = round s;
  dr_salt : salt s' = salt s;
  dr_fifo : forall i, ofClass (salt s) (QData i) t ++ queueAt s' i = queueAt s i;
  dr_data : Forall (fun r => exists i, dataReq (salt s) i r) t;
  dr_bytes : bytesOf t + bytesOf (concat (queues s')) = bytesOf (concat (queues s))
}.

Lemma drained_refl s : schedOk s -> drained s s [].
Proof. by constructor. Qed.

Lemma drained_trans s1 s2 s3 t1 t2 : drained s1 s2 t1 -> drained s2 s3 t2 -> drained s1 s3 (t1 ++ t2).
Proof.
  intros [? R1 S1 F1 D1 B1] [? R2 S2 F2 D2 B2]. constructor.
  - done.
  - congruence.
  - congruence.
  - intros i. rewrite ofClass_app, <- (F1 i), <- (F2 i), S1. by rewrite app_assoc.
  - apply Forall_app; split; [done|]. by rewrite <- S1.
  - rewrite bytesOf_app. lia.
Qed.

Lemma queueAt_insert s i j q ds qu r sl : (i < length (queues s))%nat ->
  queueAt (mkDRR (<[i := q]> (queues s)) ds qu r sl) j = if decide (j = i) then q else queueAt s j.
Proof.
  intros Hi. unfold queueAt. cbn [queues]. destruct (decide (j = i)) as [->|Hj].
  - by rewrite list_lookup_insert_eq.
  - by rewrite list_lookup_insert_ne.
Qed.

Lemma deficitAt_insert s i j d qs qu r sl : (i < length (deficits s))%nat ->
  deficitAt (mkDRR qs (<[i := d]> (deficits s)) qu r sl) j = if decide (j = i) then d else deficitAt s j.
Proof.
  intros Hi. unfold deficitAt. cbn [deficits]. destruct (decide (j = i)) as [->|Hj].
  - by rewrite list_lookup_insert_eq.
  - by rewrite list_lookup_insert_ne.
Qed.

Lemma queueAt_lookup s i : (i < length (queues s))%nat -> queues s !! i = Some (queueAt s i).
Proof. intros Hi. unfold queueAt. by destruct (lookup_lt_is_Some_2 _ _ Hi) as [q ->]. Qed.

Lemma dataReq_class salt i l : Forall (dataReq salt i) l -> Forall (fun r => classOf salt r = QData i) l.
Proof. apply List.Forall_impl. by intros r [? _]. Qed.

Lemma visitQueue_spec s room idx : schedOk s -> (idx < numQueues)%nat -> (0 < room)%nat ->
  let '(s', t) := visitQueue s room idx in
  drained s s' t /\ (length t <= room)%nat /\ Forall (dataReq (salt s) idx) t /\
  (queueAt s idx <> [] -> t <> []) /\ bytesOf t < drrQuantum + MaxPayload.
Proof.
  intros [Hq Hds Hr Hqu Hc Hdp Hdf] Hi Hroom. unfold visitQueue. rewrite Hqu.
  set (d := if deficitAt s idx <=? 0 then deficitAt s idx + drrQuantum else deficitAt s idx).
  assert (Hd : 0 < d <= drrQuantum).
  { subst d. specialize (Hdf idx). unfold MaxPayload, drrQuantum in *.
    change (Z.shiftl 64 10) with 65536 in *. destruct (Z.leb_spec (deficitAt s idx) 0); lia. }
  pose proof (drainQueue_split room (queueAt s idx) d) as Hs.
  pose proof (drainQueue_length room (queueAt s idx) d) as Hl.
  pose proof (drainQueue_service room (queueAt s idx) d MaxPayload ltac:(lia) ltac:(done)) as Hv.
  assert (Hsz : Forall (fun r => len (rData r) <= MaxPayload) (queueAt s idx)).
  { eapply List.Forall_impl; [|apply Hc]. by intros r (_ & ? & _). }
  specialize (Hv Hsz). clear Hsz.
  destruct (drainQueue room (queueAt s idx) d) as [[t q'] d']. cbn [fst] in Hl.
  destruct Hv as (Hb & Hd' & Hne).
  pose proof (Hc idx) as Hci. rewrite Hs in Hci. apply Forall_app in Hci as [Hct Hcq].
  split; [|split_and!; [done|done|auto|lia]].
  assert (HQ : forall j, queueAt (mkDRR (<[idx := q']> (queues s)) (<[idx := d']> (deficits s)) drrQuantum
    (round s) (salt s)) j = if decide (j = idx) then q' else queueAt s j).
  { intros j. apply queueAt_insert. lia. }
  constructor; [constructor|..]; cbn [queues deficits round quantum salt]; rewrite ?length_insert; try done.
  - intros j. rewrite HQ. by destruct (decide (j = idx)) as [->|].
  - intros j. rewrite HQ. destruct (decide (j = idx)) as [->|]; [|done].
    specialize (Hdp idx). rewrite Hs, length_app in Hdp. lia.
  - intros j. rewrite deficitAt_insert by lia. destruct (decide (j = idx)); [lia|done].
  - intros j. rewrite HQ. destruct (decide (j = idx)) as [->|Hj].
    + rewrite ofClass_all by by apply dataReq_class. done.
    + rewrite (ofClass_none _ _ (QData idx)) by (by apply dataReq_class || congruence). done.
  - eapply List.Forall_impl; [|exact Hct]. eauto.
  - rewrite (bytesOf_concat_insert _ idx (queueAt s idx)) by (apply queueAt_lookup; lia).
    rewrite Hs, bytesOf_app. lia.
Qed.

(** How many steps the round-robin pointer needs from [idx] to [i]. *)
Definition dist (idx i : nat) : nat := if decide (idx <= i)%nat then (i - idx)%nat else (i + numQueues - idx)%nat.

Definition nextIdx (idx : nat) : nat := ((idx + 1) mod numQueues)%nat.

Lemma nextIdx_eq idx : (idx < numQueues)%nat ->
  nextIdx idx = if decide (idx + 1 = numQueues)%nat then 0%nat else (idx + 1)%nat.
Proof.
  intros Hi. unfold nextIdx. destruct (decide (idx + 1 = numQueues)%nat) as [->|].
  - by apply Nat.Div0.mod_same.
  - apply Nat.mod_small. lia.
Qed.

Lemma nextIdx_lt idx : (nextIdx idx < numQueues)%nat.
Proof. unfold nextIdx. apply Nat.mod_upper_bound. unfold numQueues. lia. Qed.

Lemma dist_lt idx i : (idx < numQueues)%nat -> (i < numQueues)%nat -> (dist idx i < numQueues)%nat.
Proof. intros. unfold dist. destruct (decide _); lia. Qed.

Lemma dist_self idx : dist idx idx = 0%nat.
Proof. unfold dist. destruct (decide _); lia. Qed.

Lemma dist_next idx i : (idx < numQueues)%nat -> (i < numQueues)%nat -> i <> idx ->
  dist idx i = S (dist (nextIdx idx) i).
Proof.
  intros Hi Hj Hne. rewrite nextIdx_eq by done. unfold dist.
  destruct (decide (idx + 1 = numQueues)%nat); repeat case_decide; lia.
Qed.

Lemma dist_next_self idx : (idx < numQueues)%nat -> S (dist (nextIdx idx) idx) = numQueues.
Proof.
  intros Hi. rewrite nextIdx_eq by done. unfold dist.
  destruct (decide (idx + 1 = numQueues)%nat); repeat case_decide; lia.
Qed.

(** What the round gave queue [i]: one frame at least if it was waiting and was
    visited, less than a quantum and a frame in any case. *)
Definition served (s : DRRScheduler) (t : list writeReq) (visited : bool) (i : nat) : Prop :=
  let mine := ofClass (salt s) (QData i) t in
  if visited then (queueAt s i <> [] -> mine <> []) /\ bytesOf mine < drrQuantum + MaxPayload
  else mine = [].

Lemma drainLoop_spec n maxBatch : (n <= numQueues)%nat -> forall s batch idx last,
  schedOk s -> (idx < numQueues)%nat -> (length batch <= maxBatch)%nat ->
  let '(s', batch', last') := drainLoop n s maxBatch batch idx last in
  exists t k, drained s s' t /\ batch' = batch ++ t /\ (length batch' <= maxBatch)%nat /\ (k <= n)%nat /\
    (k = 0%nat -> last' = last) /\ ((0 < k)%nat -> (last' < numQueues)%nat /\ S (dist idx last') = k) /\
    ((k < n)%nat -> length batch' = maxBatch) /\
    forall i, (i < numQueues)%nat -> served s t (bool_decide (dist idx i < k)%nat) i.
Proof.
  induction n as [|n IH]; intros Hn s batch idx last Hs Hi Hb; cbn [drainLoop].
  - exists [], 0%nat. rewrite app_nil_r. split_and!; try done; try lia; by apply drained_refl.
  - destruct (decide (length batch < maxBatch)%nat) as [Hlt|Hge].
    2: { exists [], 0%nat. rewrite app_nil_r. split_and!; try done; try lia; by apply drained_refl. }
    pose proof (visitQueue_spec s (maxBatch - length batch) idx Hs Hi ltac:(lia)) as Hv.
    destruct (visitQueue s (maxBatch - length batch) idx) as [s1 t1].
    destruct Hv as (Hd1 & Hl1 & Hc1 & Hne1 & Hby1). change ((idx + 1) mod numQueues)%nat with (nextIdx idx).
    specialize (IH ltac:(lia) s1 (batch ++ t1) (nextIdx idx) idx (dr_ok _ _ _ Hd1) (nextIdx_lt idx)
      ltac:(rewrite length_app; lia)).
    destruct (drainLoop n s1 maxBatch (batch ++ t1) (nextIdx idx) idx) as [[s2 b2] last2].
    destruct IH as (t2 & k & Hd2 & -> & Hl2 & Hk & Hk0 & Hkp & Hfull & Hserv).
    exists (t1 ++ t2), (S k). split_and!.
    + by eapply drained_trans.
    + by rewrite app_assoc.
    + done.
    + lia.
    + done.
    + intros _. destruct (decide (k = 0%nat)) as [->|Hk'].
      * rewrite Hk0 by done. rewrite dist_self. done.
      * destruct (Hkp ltac:(lia)) as [Hlast Hdist]. split; [done|].
        assert (last2 <> idx). { intros ->. pose proof (dist_next_self idx Hi). lia. }
        rewrite dist_next by done. lia.
    + intros Hkn. apply Hfull. lia.
    + intros i Hin. specialize (Hserv i Hin). unfold served in *.
      rewrite ofClass_app, (dr_salt _ _ _ Hd1) in *. destruct (decide (i = idx)) as [->|Hne].
      * rewrite dist_self, (bool_decide_eq_true_2 (0 < S k)%nat) by lia.
        rewrite bool_decide_eq_false_2 in Hserv by (pose proof (dist_next_self idx Hi); lia).
        rewrite Hserv, app_nil_r, ofClass_all by by apply dataReq_class. auto.
      * rewrite (ofClass_none _ _ (QData idx)) by (by apply dataReq_class || congruence). cbn [app].
        rewrite dist_next by done.
        pose proof (dr_fifo _ _ _ Hd1 i) as Hq.
        rewrite (ofClass_none _ _ (QData idx)) in Hq by (by apply dataReq_class || congruence). cbn [app] in Hq.
        rewrite <- Hq. by rewrite (bool_decide_ext (S _ < S k)%nat (dist (nextIdx idx) i < k)%nat) by lia.
Qed.

(** One round visits a stretch of [k > 0] queues that starts at the pointer; it ends
    before the last queue only when the batch is full, and the next one resumes
    behind it. *)
Lemma drainRound_spec s maxBatch : schedOk s -> (0 < maxBatch)%nat ->
  let '(s', t) := drainRound s maxBatch in
  drained s (setRound s' (round s)) t /\ (round s' < numQueues)%nat /\ (length t <= maxBatch)%nat /\
  exists k, (0 < k <= numQueues)%nat /\ ((k < numQueues)%nat -> length t = maxBatch) /\
    (forall i, (i < numQueues)%nat -> served s t (bool_decide (dist (round s) i < k)%nat) i) /\
    forall i, (i < numQueues)%nat -> (k <= dist (round s) i)%nat ->
      (dist (round s') i + k = dist (round s) i)%nat.
Proof.
  intros Hs Hm. unfold drainRound.
  pose proof (drainLoop_spec numQueues maxBatch ltac:(lia) s [] (round s) (round s) Hs (so_round _ Hs) ltac:(cbn; lia)) as H.
  destruct (drainLoop numQueues s maxBatch [] (round s) (round s)) as [[s' b] last].
  destruct H as (t & k & Hd & -> & Hl & Hk & Hk0 & Hkp & Hfull & Hserv). cbn [app] in *.
  assert (Hkpos : (0 < k)%nat).
  { destruct (decide (k = 0)%nat) as [->|]; [|lia]. exfalso. specialize (Hfull ltac:(unfold numQueues; lia)).
    assert (Ht : forall i, (i < numQueues)%nat -> ofClass (salt s) (QData i) t = []).
    { intros i Hi. specialize (Hserv i Hi). unfold served in Hserv.
      by rewrite bool_decide_eq_false_2 in Hserv by lia. }
    destruct t as [|r t]; [cbn in Hfull; lia|]. pose proof (dr_data _ _ _ Hd) as Hdata.
    apply Forall_cons_iff in Hdata as [[i [Hc _]] _].
    assert (Hi : (i < numQueues)%nat).
    { unfold classOf in Hc. repeat case_match; simplify_eq. unfold hashFlowWithSalt, numQueues.
      pose proof (Z.mod_pos_bound (flowHash32 (salt s) (rData r)) 256). lia. }
    specialize (Ht i Hi). cbn in Ht. unfold ofClass in Ht. cbn in Ht. unfold inClass in Ht.
    by rewrite bool_decide_eq_true_2 in Ht. }
  destruct (Hkp Hkpos) as [Hlast Hdist].
  change ((last + 1) mod numQueues)%nat with (nextIdx last).
  split_and!; [|apply nextIdx_lt|done|exists k; split_and!; [done..|]].
  - destruct Hd as [[? ? ? ? ? ? ?] ? ? ? ? ?]. constructor; [constructor|..]; cbn; try done.
    by apply so_round.
  - intros i Hi Hge. pose proof (so_round _ Hs). cbn [round setRound].
    rewrite nextIdx_eq by done. unfold dist in *. destruct (decide (last + 1 = numQueues)%nat);
      repeat case_decide; lia.
Qed.

(** ** The invariant of a peer *)

Definition stamped (l : list writeReq) : list writeReq := List.filter (fun r => negb (IsZero (rTime r))) l.

Lemma stamped_app l k : stamped (l ++ k) = stamped l ++ stamped k.
Proof. apply List.filter_app. Qed.

Lemma stamped_all l : Forall (fun r => rTime r <> zero_time) l -> stamped l = l.
Proof.
  unfold stamped. induction 1 as [|r l Hr _ IH]; [done|]. cbn. unfold IsZero at 1.
  destruct (Z.eqb_spec (rTime r) 0); [done|]. cbn. by rewrite IH.
Qed.

Section Invariant.
Context {B : Type} `{FrameTransport B}.
Implicit Types (p : Peer B) (r : writeReq) (acc : list writeReq).

Definition peerSalt p : Z := salt (drrScheduler p).

(** What waits in front of the transport, per class, oldest first. *)
Definition inFlight p (c : queueClass) : list writeReq :=
  match c with
  | QControl => controlCh p
  | QDNS => dnsQueue p
  | QData i => ofClass (peerSalt p) c (drrOutput p ++ drrBatch p) ++ queueAt (drrScheduler p) i
  end.

(** What the write loop handed to the transport; its wake-ups carry no stamp. *)
Definition handed p : list writeReq := stamped (pWrote p ++ pFailed p).

Definition ofChan (salt : Z) (c : queueClass) (r : writeReq) : Prop := classOf salt r = c /\ rTime r <> zero_time.

Record queuesOk p : Prop := {
  qo_sched : schedOk (drrScheduler p);
  qo_budget : dataBudget p + bytesOf (concat (queues (drrScheduler p))) = dataQueueByteBudget;
  qo_budget0 : 0 <= dataBudget p;
  qo_depths : (length (controlCh p) <= chanDepth)%nat /\ (length (dnsQueue p) <= chanDepth)%nat /\
              (length (drrOutput p) <= chanDepth)%nat /\ (length (drrBatch p) <= maxBatchFrames)%nat;
  qo_ctrl : Forall (ofChan (peerSalt p) QControl) (controlCh p);
  qo_dns : Forall (ofChan (peerSalt p) QDNS) (dnsQueue p);
  qo_out : Forall (fun r => exists i, dataReq (peerSalt p) i r) (drrOutput p ++ drrBatch p)
}.

Record peerInv p acc : Prop := {
  pi_queues : queuesOk p;
  pi_failed : pWriting p = true -> pFailed p = [];
  pi_log : forall c, ofClass (peerSalt p) c (handed p) ++ inFlight p c = ofClass (peerSalt p) c acc
}.

Lemma newDRR_ok sl : schedOk (newDRRScheduler sl).
Proof.
  assert (HQ : forall i, queueAt (newDRRScheduler sl) i = []).
  { intros i. unfold queueAt. cbn. destruct (replicate numQueues [] !! i) eqn:E; [|done].
    by apply lookup_replicate in E as [-> _]. }
  constructor; cbn [newDRRScheduler queues deficits round quantum]; rewrite ?length_replicate; try done.
  - unfold numQueues. lia.
  - intros i. by rewrite HQ.
  - intros i. rewrite HQ. cbn. lia.
  - intros i. unfold deficitAt. cbn. destruct (replicate numQueues 0 !! i) eqn:E; [|done].
    by apply lookup_replicate in E as [-> _].
Qed.

Lemma newPeer_inv sl b : peerInv (newPeer sl b) [].
Proof.
  constructor; [constructor|..];
    cbn [newPeer controlCh dnsQueue drrScheduler drrBatch drrOutput dataBudget pFailed newDRRScheduler queues app];
    try done.
  - apply newDRR_ok.
  - cbn. split_and!; lia.
  - intros [| |i]; try done. unfold handed, inFlight. cbn [pWrote pFailed newPeer drrOutput drrBatch drrScheduler app].
    unfold queueAt. cbn. destruct (replicate numQueues [] !! i) eqn:E; [|done].
    by apply lookup_replicate in E as [-> _].
Qed.

Lemma hashFlow_lt s data : (hashFlow s data < numQueues)%nat.
Proof.
  unfold hashFlow, hashFlowWithSalt, numQueues.
  pose proof (Z.mod_pos_bound (flowHash32 (salt s) data) 256). lia.
Qed.

Lemma pushQueue_ok s r : schedOk s -> dataReq (salt s) (hashFlow s (rData r)) r ->
  (length (queueAt s (hashFlow s (rData r))) < dataQueueMaxDepth)%nat ->
  let i := hashFlow s (rData r) in
  schedOk (pushQueue s i r) /\
  (forall j, queueAt (pushQueue s i r) j = if decide (j = i) then queueAt s i ++ [r] else queueAt s j) /\
  bytesOf (concat (queues (pushQueue s i r))) = bytesOf (concat (queues s)) + len (rData r).
Proof.
  intros [Hq Hds Hr Hqu Hc Hdp Hdf] Hreq Hlt. cbv zeta. pose proof (hashFlow_lt s (rData r)) as Hi.
  set (i := hashFlow s (rData r)) in *.
  assert (HQ : forall j, queueAt (pushQueue s i r) j = if decide (j = i) then queueAt s i ++ [r] else queueAt s j).
  { intros j. apply queueAt_insert. lia. }
  split_and!; [|done|].
  - constructor; try done.
    + cbn. by rewrite length_insert.
    + intros j. rewrite HQ. destruct (decide (j = i)) as [->|]; [|apply Hc].
      apply Forall_app; split; [apply Hc|by apply Forall_singleton].
    + intros j. rewrite HQ. destruct (decide (j = i)) as [->|]; [|apply Hdp]. rewrite length_app. cbn. lia.
  - cbn [pushQueue queues]. rewrite (bytesOf_concat_insert _ i (queueAt s i)) by (apply queueAt_lookup; lia).
    rewrite bytesOf_app, bytesOf_cons. cbn. lia.
Qed.

Lemma ofClass_one sl c r : ofClass sl c [r] = if decide (classOf sl r = c) then [r] else [].
Proof. unfold ofClass, inClass. cbn. by destruct (decide _) as [->|]; case_bool_decide. Qed.

(** A step that leaves the log alone and appends [new] to what waits. *)
Lemma peerInv_admit p p' acc new : peerInv p acc -> queuesOk p' -> peerSalt p' = peerSalt p ->
  pWriting p' = pWriting p -> pWrote p' = pWrote p -> pFailed p' = pFailed p ->
  (forall c, inFlight p' c = inFlight p c ++ ofClass (peerSalt p) c new) -> peerInv p' (acc ++ new).
Proof.
  intros [_ Hf Hl] Hq Hs Hw Hwr Hfl Hin. constructor; [done|by rewrite Hw, Hfl|].
  intros c. unfold handed. rewrite Hwr, Hfl, Hs, Hin, ofClass_app, app_assoc. f_equal. apply Hl.
Qed.

Lemma enqueue_control_ok p r : queuesOk p -> ofChan (peerSalt p) QControl r ->
  (length (controlCh p) < chanDepth)%nat -> queuesOk (setControl p (controlCh p ++ [r])).
Proof.
  intros [? ? ? (? & ? & ? & ?) Hc ? ?] Hr Hlt. constructor; cbn [setControl controlCh dnsQueue drrScheduler
    drrBatch drrOutput dataBudget]; try done.
  - rewrite length_app. cbn. split_and!; lia || done.
  - apply Forall_app; split; [done|by apply Forall_singleton].
Qed.

Lemma enqueue_dns_ok p r : queuesOk p -> ofChan (peerSalt p) QDNS r ->
  (length (dnsQueue p) < chanDepth)%nat -> queuesOk (setDns p (dnsQueue p ++ [r])).
Proof.
  intros [? ? ? (? & ? & ? & ?) ? Hc ?] Hr Hlt. constructor; cbn [setDns controlCh dnsQueue drrScheduler
    drrBatch drrOutput dataBudget]; try done.
  - rewrite length_app. cbn. split_and!; lia || done.
  - apply Forall_app; split; [done|by apply Forall_singleton].
Qed.

Lemma enqueue_data_ok p r : let s := drrScheduler p in let i := hashFlow s (rData r) in
  queuesOk p -> dataReq (salt s) i r -> len (rData r) <= dataBudget p ->
  (length (queueAt s i) < dataQueueMaxDepth)%nat ->
  let p' := setScheduler p (pushQueue s i r) (dataBudget p - len (rData r)) in
  queuesOk p' /\ forall c, inFlight p' c = inFlight p c ++ ofClass (peerSalt p) c [r].
Proof.
  cbv zeta. intros [Hs Hb ? (? & ? & ? & ?) ? ? ?] Hr Hbud Hlt.
  destruct (pushQueue_ok _ r Hs Hr Hlt) as (Hs' & HQ & Hby). split.
  - constructor; cbn [setScheduler controlCh dnsQueue drrScheduler drrBatch drrOutput dataBudget]; try done.
    + rewrite Hby. lia.
    + lia.
  - intros c. pose proof Hr as [Hcl _]. rewrite ofClass_one. unfold peerSalt in *. rewrite Hcl.
    destruct c as [| |j]; cbn [inFlight controlCh dnsQueue setScheduler];
      [by rewrite decide_False, app_nil_r by done..|].
    cbn [drrOutput drrBatch drrScheduler setScheduler]. unfold peerSalt.
    cbn [drrScheduler setScheduler pushQueue salt]. rewrite HQ, <- app_assoc. f_equal.
    destruct (decide (j = _)) as [->|Hj]; [by rewrite decide_True|].
    by rewrite decide_False, app_nil_r by congruence.
Qed.

Lemma peerInv_drops p acc d : peerInv p acc -> peerInv (setDrops p d) acc.
Proof. by intros [[? ? ? ? ? ? ?] ? ?]. Qed.

Lemma enqueue_inv p acc ft data ctl now : peerInv p acc -> len data <= MaxPayload -> 0 < now ->
  peerInv (fst (enqueueWrite p ft data ctl now)) (acc ++ admits p (EvEnqueue ft data ctl now)).
Proof.
  intros Hinv Hlen Hnow. cbn [admits]. unfold enqueueWrite, enqueueWriteReq. cbn [rType rData rControl rDns rTime].
  assert (Hst : now <> zero_time) by (unfold zero_time; lia).
  pose proof (pi_queues _ _ Hinv) as Hq.
  destruct (pStopped p); [by rewrite app_nil_r|]. destruct ctl.
  { destruct (decide _) as [Hlt|]; cbn [fst snd]; [|rewrite app_nil_r; by apply peerInv_drops].
    eapply peerInv_admit; try done; [by apply enqueue_control_ok|].
    intros [| |i]; rewrite ofClass_one; cbn; by rewrite ?app_nil_r. }
  destruct ((ft =? FrameMeshPacket) && isDNSPacket data) eqn:Hdns.
  { destruct (decide _) as [Hlt|]; cbn [fst snd]; [|rewrite app_nil_r; by apply peerInv_drops].
    unfold queuedReq. rewrite Hdns. cbn [negb andb].
    eapply peerInv_admit; try done; [by apply enqueue_dns_ok|].
    intros [| |i]; rewrite ofClass_one; cbn; by rewrite ?app_nil_r. }
  destruct (Z.ltb_spec (dataBudget p) (len data)); cbn [fst snd]; [rewrite app_nil_r; by apply peerInv_drops|].
  destruct (decide _) as [Hlt|]; cbn [fst snd]; [|rewrite app_nil_r; by apply peerInv_drops].
  unfold queuedReq. rewrite Hdns. cbn [negb andb].
  destruct (enqueue_data_ok p (mkReq ft data false false now) Hq) as [H1 H2]; try done.
  eapply peerInv_admit; done.
Qed.

Lemma take_inv p acc : peerInv p acc -> peerInv (drrTake p) acc.
Proof.
  intros Hinv. unfold drrTake. destruct (drrBatch p) as [|r0 b0] eqn:Hbatch; [|done].
  destruct Hinv as [[Hs Hb Hb0 (Hd1 & Hd2 & Hd3 & Hd4) Hc Hdn Ho] Hf Hl].
  pose proof (drainRound_spec (drrScheduler p) maxBatchFrames Hs ltac:(unfold maxBatchFrames; lia)) as Hr.
  destruct (drainRound (drrScheduler p) maxBatchFrames) as [s t].
  destruct Hr as (Hd & Hrd & Hlen & _). pose proof Hd as [Hok _ Hsalt Hfifo Hdata Hbytes]. cbn [setRound salt queues] in Hsalt, Hbytes.
  assert (Hs' : schedOk s) by (destruct Hok; by constructor).
  rewrite Hbatch, app_nil_r in Ho. constructor; [constructor|done|].
  all: cbn [setDrr setScheduler controlCh dnsQueue drrScheduler drrBatch drrOutput dataBudget].
  - done.
  - lia.
  - pose proof (bytesOf_nonneg t). lia.
  - done.
  - unfold peerSalt. cbn. by rewrite Hsalt.
  - unfold peerSalt. cbn. by rewrite Hsalt.
  - unfold peerSalt. cbn. rewrite Hsalt. by apply Forall_app.
  - intros c. specialize (Hl c). unfold handed, peerSalt in *.
    cbn [setDrr setScheduler pWrote pFailed drrScheduler]. rewrite Hsalt, <- Hl. f_equal.
    destruct c as [| |i]; try done. unfold inFlight, peerSalt.
    cbn [setDrr setScheduler drrScheduler drrBatch drrOutput].
    rewrite Hsalt, Hbatch, app_nil_r, ofClass_app, <- app_assoc. f_equal. apply Hfifo.
Qed.

Lemma forward_inv p acc : peerInv p acc -> peerInv (drrForward p) acc.
Proof.
  intros Hinv. unfold drrForward. destruct (drrBatch p) as [|r b] eqn:Hbatch; [done|].
  destruct (decide _) as [Hlt|]; [|done].
  destruct Hinv as [[Hs Hb Hb0 (Hd1 & Hd2 & Hd3 & Hd4) Hc Hdn Ho] Hf Hl].
  rewrite Hbatch in Ho, Hd4. cbn in Hd4. constructor; [constructor|done|].
  all: cbn [setDrr controlCh dnsQueue drrScheduler drrBatch drrOutput dataBudget]; try done.
  - rewrite length_app. cbn. split_and!; lia || done.
  - by rewrite <- app_assoc.
  - intros c. specialize (Hl c). unfold handed, peerSalt in *. cbn [setDrr pWrote pFailed drrScheduler].
    rewrite <- Hl. f_equal. destruct c; try done. unfold inFlight, peerSalt.
    cbn [setDrr drrScheduler drrBatch drrOutput]. by rewrite Hbatch, <- app_assoc.
Qed.

Lemma drainData_split room ch n m : let '(t, rest) := drainData room ch n m in ch = t ++ rest /\ (length t <= room)%nat.
Proof.
  revert ch n. induction room as [|room IH]; intros [|r ch] n; cbn; try (split; [done|lia]).
  destruct (n <? m); [|cbn; split; [done|lia]].
  specialize (IH ch (n + len (rData r))). destruct (drainData room ch _ m) as [t rest].
  destruct IH as [-> Hl]. cbn. split; [done|lia].
Qed.

Lemma ofClass_chan sl c c' l : Forall (ofChan sl c') l ->
  ofClass sl c (stamped l) = if decide (c = c') then l else [].
Proof.
  intros Hl. rewrite stamped_all by (eapply List.Forall_impl; [|exact Hl]; by intros r [_ ?]).
  assert (Forall (fun r => classOf sl r = c') l) by (eapply List.Forall_impl; [|exact Hl]; by intros r [? _]).
  destruct (decide (c = c')) as [->|]; [by apply ofClass_all|by eapply ofClass_none].
Qed.

Lemma ofClass_data sl c l : Forall (fun r => exists i, dataReq sl i r) l ->
  stamped l = l /\ ((c = QControl \/ c = QDNS) -> ofClass sl c l = []).
Proof.
  intros Hl. split.
  - apply stamped_all. eapply List.Forall_impl; [|exact Hl]. by intros r (i & _ & _ & ?).
  - intros Hc. unfold ofClass. induction Hl as [|r l (i & Hr & _) _ IH]; [done|]. cbn. unfold inClass at 1.
    rewrite Hr, bool_decide_eq_false_2 by (destruct Hc as [-> | ->]; done). done.
Qed.

(** Where [collectWriteBatch] puts the first request. *)
Lemma first_pieces sl r k :
  let F := ofClass sl k (stamped [r]) in
  ofClass sl k (stamped (if rControl r then [r] else [])) = (if decide (k = QControl) then F else []) /\
  ofClass sl k (stamped (if negb (rControl r) && rDns r then [r] else [])) = (if decide (k = QDNS) then F else []) /\
  ofClass sl k (stamped (if negb (rControl r) && negb (rDns r) then [r] else [])) =
    match k with QData _ => F | _ => [] end.
Proof.
  cbv zeta. unfold stamped. cbn [List.filter].
  destruct (negb (IsZero (rTime r))) eqn:E; destruct (rControl r) eqn:Hc, (rDns r) eqn:Hd; cbn [negb andb List.filter];
    rewrite ?E, ?ofClass_one; unfold classOf; rewrite ?Hc, ?Hd; destruct k; repeat case_decide; done.
Qed.

Lemma collect_spec p first max credit : queuesOk p -> (1 <= max)%nat ->
  let '(p', batch) := collectWriteBatch p first max credit in
  queuesOk p' /\ peerSalt p' = peerSalt p /\ (length batch <= max)%nat /\
  (pWriting p', pWrote p', pFailed p', pTransport p') = (pWriting p, pWrote p, pFailed p, pTransport p) /\
  forall c, ofClass (peerSalt p) c (stamped batch) ++ inFlight p' c =
            ofClass (peerSalt p) c (stamped [first]) ++ inFlight p c.
Proof.
  intros Hq Hmax. unfold collectWriteBatch, drainCh.
  set (c0 := take (max - 1) (controlCh p)). set (d0 := take (max - (1 + length c0)) (dnsQueue p)).
  pose proof (drainData_split (max - (1 + length c0 + length d0)) (drrOutput p)
    (bytesOf (if negb (rControl first) && negb (rDns first) then [first] else [])) credit) as Hsp.
  destruct (drainData _ _ _ _) as [t trest]. destruct Hsp as [Ht Hlt].
  destruct Hq as [Hs Hb Hb0 (Hd1 & Hd2 & Hd3 & Hd4) Hc Hdn Ho].
  pose proof (take_drop (max - 1) (controlCh p)) as Etc. fold c0 in Etc.
  pose proof (take_drop (max - (1 + length c0)) (dnsQueue p)) as Etd. fold d0 in Etd.
  set (crest := drop (max - 1) (controlCh p)) in *.
  set (drest := drop (max - (1 + length c0)) (dnsQueue p)) in *.
  rewrite <- Etc in Hc, Hd1. rewrite <- Etd in Hdn, Hd2. rewrite Ht in Ho, Hd3.
  apply Forall_app in Hc as [Hc1 Hc2]. apply Forall_app in Hdn as [Hn1 Hn2].
  rewrite <- app_assoc in Ho. apply Forall_app in Ho as [Ho1 Ho2]. rewrite length_app in Hd1, Hd2, Hd3.
  split_and!.
  - constructor; cbn [setDrr setDns setControl controlCh dnsQueue drrScheduler drrBatch drrOutput dataBudget];
      try done. split_and!; lia || done.
  - done.
  - rewrite !length_app. assert (Hl1 : (length c0 <= max - 1)%nat) by (subst c0; rewrite length_take; lia).
    assert (Hl2 : (length d0 <= max - (1 + length c0))%nat) by (subst d0; rewrite length_take; lia).
    destruct (rControl first), (rDns first); cbn [length negb andb]; lia.
  - done.
  - intros c. rewrite !stamped_app, !ofClass_app, (ofClass_chan _ _ QControl c0), (ofClass_chan _ _ QDNS d0) by done.
    destruct (ofClass_data _ c _ Ho1) as [-> Hout].
    destruct (first_pieces (peerSalt p) first c) as (-> & -> & ->).
    destruct c as [| |i]; repeat case_decide; try done;
      cbn [inFlight controlCh dnsQueue setDrr setDns setControl app].
    + by rewrite Hout, !app_nil_r, <- app_assoc, Etc by auto.
    + rewrite Hout, !app_nil_r by auto. by rewrite <- app_assoc, Etd.
    + unfold inFlight, peerSalt. cbn [drrOutput drrBatch drrScheduler setDrr setDns setControl].
      rewrite Ht, !ofClass_app, <- !app_assoc. done.
Qed.

Definition sameWriter p p' : Prop :=
  (pWriting p', pWrote p', pFailed p', pTransport p') = (pWriting p, pWrote p, pFailed p, pTransport p).

Lemma stamped_one r : rTime r <> zero_time -> stamped [r] = [r].
Proof. intros. apply stamped_all. by apply Forall_singleton. Qed.

Lemma receive_spec p c p1 r : queuesOk p -> receive p c = Some (p1, Some r) ->
  queuesOk p1 /\ peerSalt p1 = peerSalt p /\ sameWriter p p1 /\
  forall k, ofClass (peerSalt p) k (stamped [r]) ++ inFlight p1 k = inFlight p k.
Proof.
  intros [Hs Hb Hb0 (Hd1 & Hd2 & Hd3 & Hd4) Hc Hdn Ho]. destruct c; cbn [receive].
  - by destruct (pStopped p).
  - destruct (flowNotify p); [|done]. intros [= <- <-]. split_and!; [by constructor|done..].
  - destruct (controlCh p) as [|x l] eqn:E; [done|]. intros [= <- <-].
    apply Forall_cons_iff in Hc as [[Hx Hst] Hl]. cbn in Hd1. split_and!; try done.
    + constructor; cbn [setControl controlCh dnsQueue drrScheduler drrBatch drrOutput dataBudget]; try done.
      split_and!; lia || done.
    + intros k. rewrite stamped_one, ofClass_one, Hx by done.
      destruct k as [| |i]; cbn [inFlight]; repeat case_decide; done || by rewrite E.
  - destruct (dnsQueue p) as [|x l] eqn:E; [done|]. intros [= <- <-].
    apply Forall_cons_iff in Hdn as [[Hx Hst] Hl]. cbn in Hd2. split_and!; try done.
    + constructor; cbn [setDns controlCh dnsQueue drrScheduler drrBatch drrOutput dataBudget]; try done.
      split_and!; lia || done.
    + intros k. rewrite stamped_one, ofClass_one, Hx by done.
      destruct k as [| |i]; cbn [inFlight]; repeat case_decide; done || by rewrite E.
  - destruct (drrOutput p) as [|x l] eqn:E; [done|]. intros [= <- <-].
    apply Forall_cons_iff in Ho as [(i & Hx & Hsz & Hst) Hl]. cbn in Hd3. split_and!; try done.
    + constructor; cbn [setDrr controlCh dnsQueue drrScheduler drrBatch drrOutput dataBudget]; try done.
      split_and!; lia || done.
    + intros k. rewrite stamped_one by done. destruct k as [| |j]; cbn [inFlight]; rewrite ?ofClass_one, ?Hx; try done.
      unfold peerSalt in *. cbn [setDrr drrOutput drrBatch drrScheduler]. rewrite E.
      change ((x :: l) ++ drrBatch p) with ([x] ++ (l ++ drrBatch p)).
      by rewrite (ofClass_app _ _ [x]), ofClass_one, Hx, <- app_assoc.
Qed.

Lemma writeBatch_inv p acc batch now :
  queuesOk p -> (pWriting p = true -> pFailed p = []) -> pWriting p = true ->
  (forall c, ofClass (peerSalt p) c (handed p) ++ ofClass (peerSalt p) c (stamped batch) ++ inFlight p c =
             ofClass (peerSalt p) c acc) ->
  peerInv (writeBatch p batch now) acc.
Proof.
  intros Hq Hf Hw Hl. unfold writeBatch. destruct (match batch with [] => _ | _ => _ end) as [b [u|e]].
  - constructor; [by destruct Hq|by intros _; apply Hf|]. intros c. etrans; [|exact (Hl c)]. rewrite app_assoc. f_equal.
    rewrite <- ofClass_app. unfold handed. cbn [setWriter pWrote pFailed]. rewrite Hf by done.
    by rewrite !app_nil_r, stamped_app.
  - constructor; [by destruct Hq|done|]. intros c. etrans; [|exact (Hl c)]. rewrite app_assoc. f_equal.
    rewrite <- ofClass_app. unfold handed. cbn [setWriter pWrote pFailed]. by rewrite app_assoc, stamped_app.
Qed.

Lemma write_step_inv p acc c p1 r credit now : peerInv p acc -> pWriting p = true ->
  receive p c = Some (p1, Some r) ->
  peerInv (let '(p2, batch) := collectWriteBatch p1 r maxBatchFrames credit in writeBatch p2 batch now) acc.
Proof.
  intros [Hq Hf Hl] Hw Hrec. destruct (receive_spec _ _ _ _ Hq Hrec) as (Hq1 & Hs1 & Hw1 & Hin1).
  pose proof (collect_spec p1 r maxBatchFrames credit Hq1 ltac:(unfold maxBatchFrames; lia)) as Hcol.
  destruct (collectWriteBatch p1 r maxBatchFrames credit) as [p2 batch].
  destruct Hcol as (Hq2 & Hs2 & _ & Hw2 & Hin2). unfold sameWriter in Hw1.
  injection Hw1 as E1 E2 E3 E4. injection Hw2 as F1 F2 F3 F4.
  apply writeBatch_inv; [done|by rewrite F3, E3; auto|congruence|].
  intros k. rewrite Hs2, Hin2, Hs1, Hin1, <- (Hl k). unfold handed. by rewrite F2, F3, E2, E3.
Qed.

Lemma write_inv p acc credit now c : peerInv p acc -> peerInv (default p (writeTurn p credit now c)) acc.
Proof.
  intros Hinv. unfold writeTurn. destruct (pWriting p) eqn:Hw; [|done]. cbn [negb].
  assert (Hcol : forall p1 r, receive p c = Some (p1, Some r) ->
    peerInv (default p (let '(p2, batch) := collectWriteBatch p1 r maxBatchFrames credit in
      Some (writeBatch p2 batch now))) acc).
  { intros p1 r Hrec. pose proof (write_step_inv p acc c p1 r credit now Hinv Hw Hrec) as H1.
    by destruct (collectWriteBatch p1 r maxBatchFrames credit). }
  destruct c.
  - unfold receive. destruct (pStopped p); [|done]. cbn. by destruct Hinv as [[] ? ?].
  - destruct (receive p ChNotify) as [[p1 [r|]]|] eqn:E; [|done..].
    destruct (0 <? credit); [|by apply Hcol]. cbn in E |- *.
    destruct (flowNotify p); simplify_eq. by destruct Hinv as [[] ? ?].
  - destruct (receive p ChControl) as [[p1 [r|]]|]; [by apply Hcol|done..].
  - destruct (receive p ChDNS) as [[p1 [r|]]|]; [by apply Hcol|done..].
  - destruct (0 <? credit); [|done]. destruct (receive p ChData) as [[p1 [r|]]|]; [by apply Hcol|done..].
Qed.

Lemma peerReach_inv b p acc : peerReach b p acc -> peerInv p acc.
Proof.
  induction 1 as [sl|p acc e _ IH Hok]; [apply newPeer_inv|].
  destruct e as [ft data ctl now| | | | |credit now c]; cbn [peerApply admits]; rewrite ?app_nil_r.
  - destruct Hok. by apply enqueue_inv.
  - by destruct IH as [[] ? ?].
  - by destruct IH as [[] ? ?].
  - by apply take_inv.
  - by apply forward_inv.
  - by apply write_inv.
Qed.

(** The transport carries what was written, as long as no write failed. *)
Definition carriesLog `{!CarriesFrames B} (b : B) p : Prop :=
  pFailed p = [] -> framed (pTransport p) /\
    carried (pTransport p) = carried b ++ map (fun r => (rType r, rData r)) (pWrote p).

Lemma carriesLog_same `{!CarriesFrames B} b p p' : sameWriter p p' -> carriesLog b p -> carriesLog b p'.
Proof. unfold sameWriter, carriesLog. intros [= E1 E2 E3 E4] Hl. by rewrite E2, E3, E4. Qed.

Lemma writeBatch_carries `{!CarriesFrames B} b p batch now : carriesLog b p -> carriesLog b (writeBatch p batch now).
Proof.
  unfold carriesLog. intros Hl. unfold writeBatch.
  destruct (match batch with [] => _ | _ => _ end) as [b' [[]|e]] eqn:E; cbn [setWriter pFailed pWrote pTransport].
  - intros Hf. destruct (Hl Hf) as [Hfr Hc]. destruct batch as [|r1 [|r2 batch]].
    + simplify_eq. by rewrite app_nil_r.
    + destruct (carried_Send _ _ _ _ _ Hfr E) as [? ->]. rewrite Hc, map_app, <- app_assoc. done.
    + destruct (carried_SendBatch _ _ _ Hfr E) as [? ->]. rewrite Hc, map_app, <- app_assoc, map_map. done.
  - intros Hf. apply app_eq_nil in Hf as [_ ->]. by simplify_eq.
Qed.

Lemma receive_same p c p1 o : receive p c = Some (p1, o) -> sameWriter p p1.
Proof.
  destruct c; cbn [receive]; intros Hr.
  - by destruct (pStopped p); simplify_eq.
  - by destruct (flowNotify p); simplify_eq.
  - by destruct (controlCh p); simplify_eq.
  - by destruct (dnsQueue p); simplify_eq.
  - by destruct (drrOutput p); simplify_eq.
Qed.

Lemma collect_same p r n m : sameWriter p (fst (collectWriteBatch p r n m)).
Proof. unfold collectWriteBatch, drainCh. by destruct (drainData _ _ _ _). Qed.

Lemma write_carries `{!CarriesFrames B} b p credit now c :
  carriesLog b p -> carriesLog b (default p (writeTurn p credit now c)).
Proof.
  intros Hl. unfold writeTurn. destruct (pWriting p); [|done]. cbn [negb].
  assert (Hcol : forall p1 r, receive p c = Some (p1, Some r) ->
    carriesLog b (default p (let '(p2, batch) := collectWriteBatch p1 r maxBatchFrames credit in
      Some (writeBatch p2 batch now)))).
  { intros p1 r Hrec. pose proof (collect_same p1 r maxBatchFrames credit) as Hc.
    destruct (collectWriteBatch p1 r maxBatchFrames credit) as [p2 batch]. cbn in Hc |- *.
    apply writeBatch_carries. eapply carriesLog_same; [done|]. eapply carriesLog_same; [by eapply receive_same|done]. }
  destruct c.
  - unfold receive. by destruct (pStopped p).
  - destruct (receive p ChNotify) as [[p1 [r|]]|] eqn:E; [|done..].
    destruct (0 <? credit); [|by apply Hcol]. cbn [default]. eapply carriesLog_same; [by eapply receive_same|done].
  - destruct (receive p ChControl) as [[p1 [r|]]|]; [by apply Hcol|done..].
  - destruct (receive p ChDNS) as [[p1 [r|]]|]; [by apply Hcol|done..].
  - destruct (0 <? credit); [|done]. destruct (receive p ChData) as [[p1 [r|]]|]; [by apply Hcol|done..].
Qed.

Lemma peerReach_carries `{!CarriesFrames B} b p acc : framed b -> peerReach b p acc -> carriesLog b p.
Proof.
  intros Hb. induction 1 as [sl|p acc e _ IH Hok]; [intros _; cbn; by rewrite app_nil_r|].
  destruct e as [ft data ctl now| | | | |credit now c]; cbn [peerApply].
  - eapply carriesLog_same; [|done]. unfold enqueueWrite, enqueueWriteReq. by repeat case_match.
  - done.
  - done.
  - eapply carriesLog_same; [|done]. unfold drrTake. by repeat case_match.
  - eapply carriesLog_same; [|done]. unfold drrForward. by repeat case_match.
  - by apply write_carries.
Qed.

(** ** The write gate *)

(** A batch goes out in three parts. *)
Definition isPart (ctl dns : bool) (r : writeReq) : Prop := rControl r = ctl /\ (ctl = false -> rDns r = dns).

Lemma classOf_part sl r c : classOf sl r = c ->
  match c with QControl => isPart true false r | QDNS => isPart false true r | QData _ => isPart false false r end.
Proof. unfold classOf, isPart. destruct (rControl r), (rDns r); by intros <-. Qed.

Lemma chan_part sl c l ctl dns : Forall (ofChan sl c) l -> (c = QControl /\ ctl = true \/ c = QDNS /\ ctl = false /\ dns = true) ->
  Forall (isPart ctl dns) l.
Proof.
  intros Hl Hc. eapply List.Forall_impl; [|exact Hl]. intros r [Hr _]. apply classOf_part in Hr.
  destruct Hc as [[-> ->]|(-> & -> & ->)]; [|done]. destruct Hr. by split.
Qed.

Lemma data_part sl l : Forall (fun r => exists i, dataReq sl i r) l -> Forall (isPart false false) l.
Proof. apply List.Forall_impl. intros r (i & Hr & _). by apply classOf_part in Hr. Qed.

Lemma drainData_gate room ch n m : Forall (fun r => len (rData r) <= MaxPayload) ch ->
  let '(t, rest) := drainData room ch n m in
  (n < m + MaxPayload -> n + bytesOf t < m + MaxPayload) /\ (m <= n -> t = []).
Proof.
  revert ch n. induction room as [|room IH]; intros [|r ch] n Hch; cbn; try (split; [lia|done]).
  apply Forall_cons_iff in Hch as [Hr Hch].
  destruct (Z.ltb_spec n m); [|cbn; split; [lia|done]].
  specialize (IH ch (n + len (rData r)) Hch). destruct (drainData room ch _ m) as [t rest].
  rewrite bytesOf_cons. destruct IH. split; lia.
Qed.

Lemma drainData_closed room ch n m : m <= n -> drainData room ch n m = ([], ch).
Proof. intros. destruct room, ch; cbn; try done. by destruct (Z.ltb_spec n m); [lia|]. Qed.

(** What a batch collected under [credit] looks like. *)
Definition gated (credit : Z) (batch : list writeReq) : Prop :=
  (length batch <= maxBatchFrames)%nat /\ exists ctl dns data, batch = ctl ++ dns ++ data /\
    Forall (isPart true false) ctl /\ Forall (isPart false true) dns /\ Forall (isPart false false) data /\
    (0 < credit -> bytesOf data < credit + MaxPayload).

Lemma collect_gate p first credit : queuesOk p -> (isPart false false first -> len (rData first) <= MaxPayload) ->
  let '(p', batch) := collectWriteBatch p first maxBatchFrames credit in
  gated credit batch /\ (credit <= 0 -> drrOutput p' = drrOutput p).
Proof.
  intros Hq Hfirst. pose proof (collect_spec p first maxBatchFrames credit Hq ltac:(unfold maxBatchFrames; lia)) as Hsp.
  unfold collectWriteBatch, drainCh in *.
  set (c0 := take (maxBatchFrames - 1) (controlCh p)) in *.
  set (d0 := take (maxBatchFrames - (1 + length c0)) (dnsQueue p)) in *.
  set (f0 := if negb (rControl first) && negb (rDns first) then [first] else []) in *.
  destruct Hq as [Hs Hb Hb0 Hd Hc Hdn Ho]. apply Forall_app in Ho as [Ho _].
  assert (Hsz : Forall (fun r => len (rData r) <= MaxPayload) (drrOutput p)).
  { eapply List.Forall_impl; [|exact Ho]. by intros r (i & _ & ? & _). }
  pose proof (drainData_gate (maxBatchFrames - (1 + length c0 + length d0)) _ (bytesOf f0) credit Hsz) as Hg.
  pose proof (drainData_split (maxBatchFrames - (1 + length c0 + length d0)) (drrOutput p) (bytesOf f0) credit) as Ht.
  destruct (drainData _ _ _ _) as [t rest]. destruct Hsp as (_ & _ & Hlen & _ & _), Hg as [Hg1 Hg2], Ht as [Ht _].
  assert (Hf0 : 0 <= bytesOf f0 <= MaxPayload /\ Forall (isPart false false) f0).
  { pose proof (len_nonneg (rData first)). subst f0. unfold isPart.
    unfold isPart in Hfirst. destruct (rControl first) eqn:E1, (rDns first) eqn:E2; cbn in *;
      rewrite ?Forall_singleton; split; try done; specialize (Hfirst ltac:(done)); lia. }
  destruct Hf0 as [Hf0 Hpf]. split; [split; [done|]|].
  - eexists _, _, _. split; [done|]. split_and!.
    + apply Forall_app; split; [unfold isPart; destruct (rControl first) eqn:E; [by apply Forall_singleton|done]|].
      eapply (chan_part _ QControl); [by apply Forall_take|auto].
    + apply Forall_app; split.
      * unfold isPart; destruct (rControl first) eqn:E1, (rDns first) eqn:E2; cbn; rewrite ?Forall_singleton; done.
      * eapply (chan_part _ QDNS); [by apply Forall_take|auto].
    + apply Forall_app; split; [done|]. eapply data_part. rewrite Ht in Ho. by apply Forall_app in Ho as [? _].
    + intros Hcr. rewrite bytesOf_app. lia.
  - intros Hcr. rewrite Ht, Hg2 by lia. done.
Qed.

Lemma receive_gate p c p1 r : queuesOk p -> receive p c = Some (p1, Some r) ->
  (isPart false false r -> len (rData r) <= MaxPayload) /\ (c <> ChData -> drrOutput p1 = drrOutput p).
Proof.
  intros [? ? ? ? Hc Hd Ho]. destruct c; cbn [receive].
  - by destruct (pStopped p).
  - destruct (flowNotify p); [|done]. by intros [= <- <-].
  - destruct (controlCh p) as [|x l]; [done|]. intros [= <- <-].
    apply Forall_cons_iff in Hc as [[Hx _] _]. apply classOf_part in Hx as [Hx _].
    split; [|done]. intros [? _]. congruence.
  - destruct (dnsQueue p) as [|x l]; [done|]. intros [= <- <-].
    apply Forall_cons_iff in Hd as [[Hx _] _]. apply classOf_part in Hx as [Hx Hx'].
    split; [|done]. intros [_ Hy]. specialize (Hx' ltac:(done)). specialize (Hy ltac:(done)). congruence.
  - destruct (drrOutput p) as [|x l]; [done|]. intros [= <- <-].
    apply Forall_cons_iff in Ho as [(i & _ & ? & _) _]. split; done.
Qed.

(** The batch a turn hands over: written, or failed with the transport. *)
Definition handsOver p p' (batch : list writeReq) : Prop :=
  (pWrote p' = pWrote p ++ batch /\ pFailed p' = pFailed p) \/
  (pWrote p' = pWrote p /\ pFailed p' = pFailed p ++ batch /\ pWriting p' = false).

Lemma writeBatch_hands p batch now : handsOver p (writeBatch p batch now) batch /\
  drrOutput (writeBatch p batch now) = drrOutput p.
Proof.
  unfold writeBatch, handsOver. destruct (match batch with [] => _ | _ => _ end) as [b [u|e]]; cbn; auto.
Qed.

Lemma handsOver_same p p1 p' batch : sameWriter p p1 -> handsOver p1 p' batch -> handsOver p p' batch.
Proof. unfold sameWriter, handsOver. intros [= E1 E2 E3 E4]. by rewrite E2, E3. Qed.

Lemma write_collect_gate p c p1 r credit now : queuesOk p -> receive p c = Some (p1, Some r) ->
  let '(p2, batch) := collectWriteBatch p1 r maxBatchFrames credit in
  handsOver p (writeBatch p2 batch now) batch /\ gated credit batch /\
  (credit <= 0 -> c <> ChData -> drrOutput (writeBatch p2 batch now) = drrOutput p).
Proof.
  intros Hq Hrec. destruct (receive_spec _ _ _ _ Hq Hrec) as (Hq1 & _ & Hw1 & _).
  destruct (receive_gate _ _ _ _ Hq Hrec) as [Hsz Ho].
  pose proof (collect_gate p1 r credit Hq1 Hsz) as Hg. pose proof (collect_same p1 r maxBatchFrames credit) as Hs.
  destruct (collectWriteBatch p1 r maxBatchFrames credit) as [p2 batch]. destruct Hg as [Hg Hg']. cbn [fst] in Hs.
  destruct (writeBatch_hands p2 batch now) as [Hh Heq]. split_and!; [|done|].
  - eapply handsOver_same; [exact Hw1|]. by eapply handsOver_same.
  - intros Hcr Hc. rewrite Heq, Hg', Ho by done. done.
Qed.

Lemma handsOver_nothing p p' : sameWriter p p' -> handsOver p p' [].
Proof. unfold sameWriter, handsOver. intros [= E1 E2 E3 E4]. rewrite app_nil_r. auto. Qed.

Lemma gated_nil credit : gated credit [].
Proof.
  split; [cbn; lia|]. exists [], [], []. split_and!; try done. cbn. unfold MaxPayload. lia.
Qed.

End Invariant.

(** ** What the queues promise *)

Section Claims.
Context {B : Type} `{FrameTransport B}.
Implicit Types (p : Peer B) (acc : list writeReq).

(** A peer's run over a list of events. *)
Fixpoint peerRun p acc (es : list peerEvent) : Peer B * list writeReq :=
  match es with
  | [] => (p, acc)
  | e :: es' => peerRun (peerApply p e) (acc ++ admits p e) es'
  end.

Lemma peerRun_reach (b : B) es : forall p acc, peerReach b p acc -> Forall eventOk es ->
  peerReach b (fst (peerRun p acc es)) (snd (peerRun p acc es)).
Proof.
  induction es as [|e es IH]; intros p acc Hp Hes; [done|]. apply Forall_cons_iff in Hes as [He Hes].
  cbn [peerRun]. apply IH; [by constructor|done].
Qed.

(** C10: whatever is enqueued, scheduled, written and lost, in any interleaving, a
    peer's memory is bounded: the bytes waiting in the 256 flow queues and the byte
    budget left always add up to 8 MB (no reservation leaks, none is refunded twice),
    no channel exceeds its capacity, and every flow's deficit stays between one frame
    of debt and one quantum. *)
Theorem peerQueues_bounded (b : B) p acc : peerReach b p acc ->
  let s := drrScheduler p in
  0 <= dataBudget p /\ dataBudget p + bytesOf (concat (queues s)) = dataQueueByteBudget /\
  (length (controlCh p) <= chanDepth)%nat /\ (length (dnsQueue p) <= chanDepth)%nat /\
  (length (drrOutput p) <= chanDepth)%nat /\ (length (drrBatch p) <= maxBatchFrames)%nat /\
  length (queues s) = numQueues /\
  forall i, (length (queueAt s i) <= dataQueueMaxDepth)%nat /\ - MaxPayload < deficitAt s i <= drrQuantum.
Proof.
  intros Hr. destruct (pi_queues _ _ (peerReach_inv _ _ _ Hr)) as [[] ? ? (? & ? & ? & ?) ? ? ?]. auto 12.
Qed.

(** C5: per service class (control, DNS, each of the 256 flow queues) the peer is a
    FIFO that loses nothing it admitted: the requests handed to the transport followed
    by those still waiting are exactly the admitted ones, in their order; and while no
    write has failed the transport carries exactly the requests handed to it. *)
Theorem peerQueues_fifo `{!CarriesFrames B} (b : B) p acc : framed b -> peerReach b p acc ->
  (forall c, ofClass (peerSalt p) c (handed p) ++ inFlight p c = ofClass (peerSalt p) c acc) /\
  (pFailed p = [] -> framed (pTransport p) /\
    carried (pTransport p) = carried b ++ map (fun r => (rType r, rData r)) (pWrote p)).
Proof.
  intros Hb Hr. split; [apply (peerReach_inv _ _ _ Hr)|exact (peerReach_carries _ _ _ Hb Hr)].
Qed.

(** One turn of the write loop hands over at most 64 frames, control before DNS
    before data; its data bytes exceed the session's in-flight credit by less than one
    frame; and with the gate closed it leaves the scheduled data where it is. *)
Theorem writeTurn_gated (b : B) p acc credit now c p' :
  peerReach b p acc -> writeTurn p credit now c = Some p' ->
  exists batch, handsOver p p' batch /\ gated credit batch /\ (credit <= 0 -> drrOutput p' = drrOutput p).
Proof.
  intros Hr. pose proof (pi_queues _ _ (peerReach_inv _ _ _ Hr)) as Hq. unfold writeTurn.
  destruct (pWriting p); [|done]. cbn [negb].
  assert (Hcol : forall p1 r, c <> ChData \/ 0 < credit -> receive p c = Some (p1, Some r) ->
    (let '(p2, batch) := collectWriteBatch p1 r maxBatchFrames credit in Some (writeBatch p2 batch now)) = Some p' ->
    exists batch, handsOver p p' batch /\ gated credit batch /\ (credit <= 0 -> drrOutput p' = drrOutput p)).
  { intros p1 r Hc Hrec. pose proof (write_collect_gate p c p1 r credit now Hq Hrec) as Hg.
    destruct (collectWriteBatch p1 r maxBatchFrames credit) as [p2 batch]. intros [= <-].
    exists batch. destruct Hg as (? & ? & Ho). split_and!; [done..|]. intros Hcr. apply Ho; [done|].
    destruct Hc; [done|lia]. }
  assert (Hidle : forall q, sameWriter p q -> drrOutput q = drrOutput p -> Some q = Some p' ->
    exists batch, handsOver p p' batch /\ gated credit batch /\ (credit <= 0 -> drrOutput p' = drrOutput p)).
  { intros q Hs Ho [= <-]. exists []. split_and!; [by apply handsOver_nothing|apply gated_nil|done]. }
  destruct c.
  - unfold receive. destruct (pStopped p); [|done]. intros [= <-]. exists []. split_and!; [|apply gated_nil|done].
    left. cbn. by rewrite app_nil_r.
  - destruct (receive p ChNotify) as [[p1 [r|]]|] eqn:E; [|done..].
    destruct (0 <? credit); [|by apply Hcol; [left|]].
    apply Hidle; [by eapply receive_same|]. cbn in E. by destruct (flowNotify p); simplify_eq.
  - destruct (receive p ChControl) as [[p1 [r|]]|]; [by apply Hcol; [left|]|done..].
  - destruct (receive p ChDNS) as [[p1 [r|]]|]; [by apply Hcol; [left|]|done..].
  - destruct (Z.ltb_spec 0 credit); [|done].
    destruct (receive p ChData) as [[p1 [r|]]|]; [by apply Hcol; [right|]|done..].
Qed.

(** A wake-up that finds the gate still closed is not skipped: with nothing else to
    send, the loop writes the zero request, a frame of type 0 with no payload. *)
Lemma gate_wakeup_sends_empty_frame p credit now :
  pWriting p = true -> flowNotify p = true -> controlCh p = [] -> dnsQueue p = [] -> credit <= 0 ->
  writeTurn p credit now ChNotify = Some (writeBatch (setNotify p false) [zeroReq] now).
Proof.
  intros Hw Hn Hc Hd Hcr. unfold writeTurn. rewrite Hw. cbn [negb receive]. rewrite Hn.
  destruct (Z.ltb_spec 0 credit); [lia|]. destruct p as [? ctl dns sch ba out ? n ? ? ? ? ? ?]. cbn in *. subst.
  unfold collectWriteBatch, drainCh. cbn [setNotify controlCh dnsQueue drrOutput rControl rDns zeroReq].
  rewrite !take_nil, !drop_nil. cbn [length app negb andb]. unfold bytesOf. cbn [foldr rData zeroReq].
  by rewrite drainData_closed by (change (credit <= 0); lia).
Qed.

End Claims.

(** ** Fairness of the scheduler *)

(** The scheduler between its two users: enqueueWriteReq pushes, drrLoop drains. *)
Inductive schedStep := StPush (r : writeReq) | StRound.

Definition schedApply (s : DRRScheduler) (st : schedStep) : DRRScheduler * list writeReq :=
  match st with
  | StPush r =>
      let i := hashFlow s (rData r) in
      (if decide (length (queueAt s i) < dataQueueMaxDepth)%nat then pushQueue s i r else s, [])
  | StRound => drainRound s maxBatchFrames
  end.

(** The scheduler after the steps, and what it scheduled, in order. *)
Fixpoint schedRun (s : DRRScheduler) (l : list schedStep) : DRRScheduler * list writeReq :=
  match l with
  | [] => (s, [])
  | st :: l' => let '(s1, t1) := schedApply s st in let '(s2, t2) := schedRun s1 l' in (s2, t1 ++ t2)
  end.

Definition stepOk (st : schedStep) : Prop :=
  match st with
  | StPush r => rControl r = false /\ rDns r = false /\ len (rData r) <= MaxPayload /\ rTime r <> zero_time
  | StRound => True
  end.

Definition roundsIn (l : list schedStep) : nat :=
  length (List.filter (fun st => match st with StRound => true | _ => false end) l).

Lemma push_ok s r : schedOk s -> stepOk (StPush r) ->
  let '(s', _) := schedApply s (StPush r) in
  schedOk s' /\ salt s' = salt s /\ round s' = round s /\ forall i, exists q, queueAt s' i = queueAt s i ++ q.
Proof.
  intros Hs (Hc & Hd & Hl & Ht). cbn [schedApply]. destruct (decide _) as [Hlt|].
  - destruct (pushQueue_ok s r Hs) as (Hs' & HQ & _); [|done|].
    { split_and!; try done. unfold classOf. by rewrite Hc, Hd. }
    split_and!; try done. intros i. rewrite HQ. destruct (decide _) as [->|]; [by eexists|]. exists []. by rewrite app_nil_r.
  - split_and!; try done. intros i. exists []. by rewrite app_nil_r.
Qed.

Lemma round_ok s : schedOk s -> let '(s', t) := schedApply s StRound in schedOk s' /\ salt s' = salt s.
Proof.
  intros Hs. cbn [schedApply].
  pose proof (drainRound_spec s maxBatchFrames Hs ltac:(unfold maxBatchFrames; lia)) as Hr.
  destruct (drainRound s maxBatchFrames) as [s' t]. destruct Hr as ([[] ? Hsl ? ? ?] & ? & _).
  split; [by constructor|done].
Qed.

Lemma schedRun_ok l : forall s, schedOk s -> Forall stepOk l ->
  schedOk (fst (schedRun s l)) /\ salt (fst (schedRun s l)) = salt s.
Proof.
  induction l as [|st l IH]; intros s Hs Hl; [done|]. apply Forall_cons_iff in Hl as [Hst Hl].
  cbn [schedRun]. assert (H1 : schedOk (fst (schedApply s st)) /\ salt (fst (schedApply s st)) = salt s).
  { destruct st as [r|]; [pose proof (push_ok s r Hs Hst) as H1|pose proof (round_ok s Hs) as H1];
      destruct (schedApply s _); naive_solver. }
  destruct (schedApply s st) as [s1 t1]. cbn [fst] in H1. destruct H1 as [H1 H2]. specialize (IH s1 H1 Hl).
  destruct (schedRun s1 l). cbn [fst] in *. by rewrite <- H2.
Qed.

(** The head of queue [i] leaves it before the pointer has passed it. *)
Lemma drr_head_served l i r : (i < numQueues)%nat -> forall s q, schedOk s -> Forall stepOk l ->
  queueAt s i = r :: q -> (dist (round s) i < roundsIn l)%nat ->
  hd_error (ofClass (salt s) (QData i) (snd (schedRun s l))) = Some r.
Proof.
  intros Hi. induction l as [|st l IH]; intros s q Hs Hl Hq Hd; [cbn in Hd; lia|].
  apply Forall_cons_iff in Hl as [Hst Hl]. cbn [schedRun]. destruct st as [x|].
  - pose proof (push_ok s x Hs Hst) as Hp. cbn [schedApply] in *. cbn [roundsIn] in Hd.
    destruct Hp as (Hs1 & Hsl & Hrd & Happ). destruct (Happ i) as [q' Hq'].
    specialize (IH _ (q ++ q') Hs1 Hl ltac:(by rewrite Hq', Hq) ltac:(by rewrite Hrd)).
    destruct (schedRun _ l) as [s2 t2]. cbn [snd app] in *. by rewrite <- Hsl.
  - pose proof (round_ok s Hs) as Hk. cbn [schedApply] in *.
    pose proof (drainRound_spec s maxBatchFrames Hs ltac:(unfold maxBatchFrames; lia)) as Hr.
    destruct (drainRound s maxBatchFrames) as [s1 t1]. destruct Hk as [Hs1 Hsl].
    destruct Hr as (Hdr & _ & _ & k & [Hk0 _] & _ & Hserv & Hdist).
    pose proof (dr_fifo _ _ _ Hdr i) as Hf. change (queueAt (setRound s1 (round s)) i) with (queueAt s1 i) in Hf.
    specialize (Hserv i Hi). unfold served in Hserv. rewrite Hq in Hf.
    destruct (decide (dist (round s) i < k)%nat) as [Hlt|Hge].
    + rewrite bool_decide_eq_true_2 in Hserv by done. destruct Hserv as [Hne _].
      destruct (schedRun s1 l) as [s2 t2]. cbn [snd]. rewrite ofClass_app.
      destruct (ofClass (salt s) (QData i) t1) as [|x m]; [by destruct Hne; [rewrite Hq|]|]. by simplify_eq/=.
    + rewrite bool_decide_eq_false_2 in Hserv by done. rewrite Hserv in Hf. cbn [app] in Hf.
      specialize (Hdist i Hi ltac:(lia)). unfold roundsIn in Hd. cbn in Hd.
      specialize (IH s1 q Hs1 Hl Hf ltac:(unfold roundsIn; lia)).
      destruct (schedRun s1 l) as [s2 t2]. cbn [snd] in *. by rewrite ofClass_app, Hserv, <- Hsl.
Qed.

(** C30: the deficit round robin starves no flow: from any state the scheduler can be
    in, and whatever other flows keep pushing, 256 rounds schedule the frame at the
    head of every waiting queue, as the next frame of that flow; and a round gives a
    flow less than one quantum and one frame, in at most 64 frames. *)
Theorem drr_fair sl l0 l i r q : (i < numQueues)%nat -> Forall stepOk (l0 ++ l) ->
  let s := fst (schedRun (newDRRScheduler sl) l0) in
  queueAt s i = r :: q -> (numQueues <= roundsIn l)%nat ->
  hd_error (ofClass sl (QData i) (snd (schedRun s l))) = Some r /\
  (length (snd (drainRound s maxBatchFrames)) <= maxBatchFrames)%nat /\
  bytesOf (ofClass sl (QData i) (snd (drainRound s maxBatchFrames))) < drrQuantum + MaxPayload.
Proof.
  intros Hi Hl s Hq Hn. apply Forall_app in Hl as [Hl0 Hl].
  destruct (schedRun_ok l0 (newDRRScheduler sl) (newDRR_ok sl) Hl0) as [Hs Hsl]. fold s in Hs, Hsl.
  cbn [newDRRScheduler salt] in Hsl. split.
  - rewrite <- Hsl. eapply drr_head_served; try done. pose proof (dist_lt (round s) i (so_round _ Hs) Hi). lia.
  - pose proof (drainRound_spec s maxBatchFrames Hs ltac:(unfold maxBatchFrames; lia)) as Hr.
    destruct (drainRound s maxBatchFrames) as [s1 t1]. cbn [snd].
    destruct Hr as (_ & _ & Hlen & k & _ & _ & Hserv & _). split; [done|].
    specialize (Hserv i Hi). unfold served in Hserv. rewrite Hsl in Hserv.
    destruct (bool_decide _); [by destruct Hserv|]. rewrite Hserv. done.
Qed.

(** ** A concrete run, on the stream transport *)

Definition demoEvents : list peerEvent :=
  [EvEnqueue FrameMeshPacket (repeat 69 40) false 5; EvEnqueue FrameMeshPacket (repeat 96 40) false 6;
   EvEnqueue FrameGossip [123; 125] true 7; EvTake; EvForward; EvForward;
   EvEnqueue FrameMeshPacket (repeat 69 30) false 8].

Definition demoPeer : Peer (list Z) := fst (peerRun (newPeer 3 []) [] demoEvents).
Definition demoAcc : list writeReq := snd (peerRun (newPeer 3 ([] : list Z)) [] demoEvents).

Lemma demo_reach : peerReach [] demoPeer demoAcc.
Proof.
  unfold demoPeer, demoAcc. apply (peerRun_reach [] demoEvents (newPeer 3 []) [] (reachNew [] 3)).
  unfold demoEvents, eventOk. repeat constructor; vm_compute; done.
Qed.

Lemma peerQueues_bounded_witness : dataBudget demoPeer = 8388578 /\
  dataBudget demoPeer + bytesOf (concat (queues (drrScheduler demoPeer))) = dataQueueByteBudget.
Proof.
  split; [vm_compute; reflexivity|]. apply (peerQueues_bounded [] demoPeer demoAcc). exact demo_reach.
Defined.

Lemma peerQueues_fifo_witness : length demoAcc = 4%nat /\
  (forall c, ofClass (peerSalt demoPeer) c (handed demoPeer) ++ inFlight demoPeer c =
             ofClass (peerSalt demoPeer) c demoAcc).
Proof.
  split; [vm_compute; reflexivity|]. apply (peerQueues_fifo [] demoPeer demoAcc); [by exists []|exact demo_reach].
Defined.

(** With 50 bytes of credit the control frame leaves first, then both waiting data
    frames, the second of which overshoots. *)
Lemma writeTurn_gated_witness : exists p', writeTurn demoPeer 50 9 ChControl = Some p' /\
  map rType (pWrote p') = [FrameGossip; FrameMeshPacket; FrameMeshPacket] /\
  exists batch, handsOver demoPeer p' batch /\ gated 50 batch /\ (50 <= 0 -> drrOutput p' = drrOutput demoPeer).
Proof.
  destruct (writeTurn demoPeer 50 9 ChControl) as [p'|] eqn:E; [|vm_compute in E; done].
  exists p'. split; [done|]. split; [vm_compute in E; injection E as <-; reflexivity|].
  exact (writeTurn_gated [] demoPeer demoAcc 50 9 ChControl p' demo_reach E).
Defined.

Definition demoFrame (n : nat) : writeReq := mkReq FrameMeshPacket (repeat 69 n) false false 5.
Definition demoFlow : nat := hashFlow (newDRRScheduler 3) (repeat 69 40).

Lemma drr_fair_witness :
  hd_error (ofClass 3 (QData demoFlow)
    (snd (schedRun (fst (schedRun (newDRRScheduler 3) [StPush (demoFrame 40); StPush (demoFrame 50)]))
            (repeat StRound 256)))) = Some (demoFrame 40).
Proof.
  apply (drr_fair 3 [StPush (demoFrame 40); StPush (demoFrame 50)] (repeat StRound 256) demoFlow
    (demoFrame 40) [demoFrame 50]).
  - vm_compute. lia.
  - apply Forall_app; split; [repeat constructor; vm_compute; done|].
    apply List.Forall_forall. intros st Hst. by apply repeat_spec in Hst as ->.
  - vm_compute. reflexivity.
  - vm_compute. lia.
Defined.

(** The wake-up of a closed gate on the wire: five bytes' worth of nothing. *)
Lemma gate_wakeup_example :
  let p := peerApply (peerApply (newPeer 3 ([] : list Z)) EvCredit) (EvWrite 0 9 ChNotify) in
  carried (pTransport p) = [(0, [])] /\ framesSent (egress p) = 1.
Proof. vm_compute. done. Qed.
