(* ===== verification/LinkStats.v ===== *)
(** Link measurement of a P2P peer: src/p2p/p2p.go, the RTT sampler, the ping tracker
    with its loss window and late-pong grace, and the ping exchange (sendPing,
    handlePong) on top of the peer's queues ([PeerQueues]).

    Ranging over a Go map visits its keys in an arbitrary order: the order is an
    argument.  The JSON of a ping is an argument too. *)

From Stdlib Require Import ZArith Lia.
From stdpp Require Import base list numbers gmap.
From S2P Require Import Prelude Frame Transport GoFloat LaneFlow Stripe PeerQueues.
Open Scope Z_scope.

(** ** RTT sampler *)

Record rttSampler := mkSampler {
  srtt : Duration; rttVar : Duration; sampleCount : Z; lastSample : Duration }.

Definition addRtt (r : rttSampler) (rtt : Duration) : rttSampler :=
  if srtt r =? 0 then mkSampler rtt (Z.quot rtt 2) (sampleCount r + 1) rtt
  else
    let diff := swrap 64 (rtt - srtt r) in
    let diff := if diff <? 0 then swrap 64 (- diff) else diff in
    mkSampler (Z.quot (swrap 64 (7 * srtt r + rtt)) 8)
      (Z.quot (swrap 64 (3 * rttVar r + diff)) 4) (sampleCount r + 1) rtt.

Definition samplerStats (r : rttSampler) : Duration * Duration * Z := (srtt r, rttVar r, sampleCount r).

(** ** Ping tracker *)

Definition pingLossWindowSize : nat := 20.
Definition pingTimeout : Duration := 5 * Second.
Definition pingLateGrace : Duration := 30 * Second.
Definition pingFailDisconnectThreshold : Z := 10.
Definition pingDeadInboundQuiet : Duration := 10 * Second.

Record pingSample := mkSample { psSeq : Z; acked : bool }.

Record pingTracker := mkTracker {
  pendingPings : gmap Z Z;      (* seq -> send time *)
  lateGrace : gmap Z Z;
  nextSeq : Z;
  samples : list pingSample;
  consecutiveLost : Z;
  sampler : rttSampler
}.

Definition newPingTracker : pingTracker := mkTracker ∅ ∅ 1 [] 0 (mkSampler 0 0 0 0).

Definition lastn {A} (n : nat) (l : list A) : list A := drop (length l - n) l.

Definition addSample (l : list pingSample) (a : bool) (seq : Z) : list pingSample :=
  let l := l ++ [mkSample seq a] in
  if decide (pingLossWindowSize < length l)%nat then lastn pingLossWindowSize l else l.

(** The first loop of recordPing, at key [s]. *)
Definition ageStep (cutoff : Time) (t : pingTracker) (s : Z) : pingTracker :=
  match pendingPings t !! s with
  | Some sendTime =>
      if sendTime <? cutoff then
        mkTracker (delete s (pendingPings t)) (<[s := sendTime]> (lateGrace t)) (nextSeq t)
          (addSample (samples t) false s) (consecutiveLost t + 1) (sampler t)
      else t
  | None => t
  end.

(** [order] lists the keys of the pending pings as the loop visits them. *)
Definition recordPing (t : pingTracker) (now : Time) (order : list Z) : pingTracker * Z :=
  let t := foldl (ageStep (now - pingTimeout)) t order in
  let grace := filter (fun kv : Z * Z => now - pingLateGrace <= kv.2) (lateGrace t) in
  let seq := nextSeq t in
  (mkTracker (<[seq := now]> (pendingPings t)) grace (wrap 32 (seq + 1)) (samples t)
     (consecutiveLost t) (sampler t), seq).

Definition cancelPing (t : pingTracker) (seq : Z) : pingTracker :=
  mkTracker (delete seq (pendingPings t)) (lateGrace t) (nextSeq t) (samples t) (consecutiveLost t) (sampler t).

(** The loop that overturns the first loss verdict of [seq]. *)
Fixpoint overturn (seq : Z) (l : list pingSample) : list pingSample :=
  match l with
  | [] => []
  | s :: l' => if (psSeq s =? seq) && negb (acked s) then mkSample (psSeq s) true :: l' else s :: overturn seq l'
  end.

Definition recordPong (t : pingTracker) (seq : Z) (now : Time) : pingTracker :=
  match pendingPings t !! seq with
  | Some sendTime =>
      mkTracker (delete seq (pendingPings t)) (lateGrace t) (nextSeq t) (addSample (samples t) true seq) 0
        (addRtt (sampler t) (now - sendTime))
  | None =>
      match lateGrace t !! seq with
      | Some sendTime =>
          mkTracker (pendingPings t) (delete seq (lateGrace t)) (nextSeq t) (overturn seq (samples t)) 0
            (addRtt (sampler t) (now - sendTime))
      | None => t
      end
  end.

Definition consecutiveLostCount (t : pingTracker) : Z := consecutiveLost t.

Definition getLossRate (t : pingTracker) : float64 :=
  if decide (length (samples t) = 0%nat) then f64 0
  else fdiv (f64 (len (List.filter (fun s => negb (acked s)) (samples t)))) (f64 (len (samples t))).

Record linkQuality := mkQuality {
  lqSrtt : Duration; lqRto : Duration; lqJitter : Duration; lqLoss : float64; lqCount : Z }.

Definition getStats (t : pingTracker) : linkQuality :=
  let '(s, v, n) := samplerStats (sampler t) in
  let rto := swrap 64 (s + swrap 64 (4 * v)) in
  let rto := if rto <? 100 * Millisecond then 100 * Millisecond else rto in
  mkQuality s rto v (getLossRate t) n.

(** ** The ping exchange *)

Record PingInfo := mkPing { Timestamp : Z; Seq : Z }.

(** What sendPing reads and writes of a peer besides its queues. *)
Record linkState := mkLink {
  tracker : pingTracker;
  lastSeenNano : Time;
  pingDeadHeldNano : Time;
  lkClosed : bool             (* the transport was closed as dead *)
}.

Section Exchange.
Context {B : Type} `{FrameTransport B}.
(** The JSON encoding of a ping. *)
Variable marshal : PingInfo -> list Z.

Inductive pingOutcome := PingClosed | PingSent (seq : Z) | PingRejected (seq : Z) (e : EnqueueError).

Definition sendPing (p : Peer B) (lk : linkState) (now : Time) (order : list Z)
  : Peer B * linkState * pingOutcome :=
  let dead := pingFailDisconnectThreshold <=? consecutiveLostCount (tracker lk) in
  let quiet := now - lastSeenNano lk in
  if dead && negb (quiet <? pingDeadInboundQuiet) then
    (p, mkLink (tracker lk) (lastSeenNano lk) (pingDeadHeldNano lk) true, PingClosed)
  else
    let held := if dead && (10 * Second <=? now - pingDeadHeldNano lk) then now else pingDeadHeldNano lk in
    let '(t, seq) := recordPing (tracker lk) now order in
    let '(p', err) := enqueueWrite p FrameLinkPing (marshal (mkPing now seq)) false now in
    match err with
    | Some e => (p', mkLink (cancelPing t seq) (lastSeenNano lk) held (lkClosed lk), PingRejected seq e)
    | None => (p', mkLink t (lastSeenNano lk) held (lkClosed lk), PingSent seq)
    end.

(** [None] is a payload that does not parse. *)
Definition handlePong (lk : linkState) (pong : option PingInfo) (now : Time) : linkState :=
  match pong with
  | None => lk
  | Some i => mkLink (recordPong (tracker lk) (Seq i) now) (lastSeenNano lk) (pingDeadHeldNano lk) (lkClosed lk)
  end.

Definition handlePing (p : Peer B) (ping : option PingInfo) (now : Time) : Peer B :=
  match ping with
  | None => p
  | Some i => fst (enqueueWrite p FrameLinkPong (marshal (mkPing (Timestamp i) (Seq i))) true now)
  end.

End Exchange.

(** ** What the tracker stands for *)

(** The pings the next call of recordPing gives up, in the order of its loop. *)
Definition stale (t : pingTracker) (now : Time) (order : list Z) : list Z :=
  List.filter (fun s => match pendingPings t !! s with
                        | Some st => st <? now - pingTimeout | None => false end) order.

(** [trackRun t resolved answered lost]: after some sequence of calls the tracker is
    [t]; [resolved] are the pings with a verdict, oldest verdict first, [answered]
    those a pong was accepted for, [lost] the losses since the last accepted pong. *)
Inductive trackRun : pingTracker -> list Z -> gset Z -> nat -> Prop :=
| runNew : trackRun newPingTracker [] ∅ 0
| runPing t resolved answered lost now order :
    trackRun t resolved answered lost -> order ≡ₚ map fst (map_to_list (pendingPings t)) ->
    nextSeq t < 2 ^ 32 - 1 ->
    trackRun (fst (recordPing t now order)) (resolved ++ stale t now order) answered
      (lost + length (stale t now order))
| runCancel t resolved answered lost seq :
    trackRun t resolved answered lost -> trackRun (cancelPing t seq) resolved answered lost
| runPong t resolved answered lost seq now st :
    trackRun t resolved answered lost -> pendingPings t !! seq = Some st ->
    trackRun (recordPong t seq now) (resolved ++ [seq]) ({[seq]} ∪ answered) 0
| runLate t resolved answered lost seq now st :
    trackRun t resolved answered lost -> pendingPings t !! seq = None -> lateGrace t !! seq = Some st ->
    trackRun (recordPong t seq now) resolved ({[seq]} ∪ answered) 0
| runUnknown t resolved answered lost seq now :
    trackRun t resolved answered lost -> pendingPings t !! seq = None -> lateGrace t !! seq = None ->
    trackRun (recordPong t seq now) resolved answered lost.

Definition verdict (answered : gset Z) (s : Z) : pingSample := mkSample s (bool_decide (s ∈ answered)).

Record trackInv (t : pingTracker) (resolved : list Z) (answered : gset Z) (lost : nat) : Prop := {
  ti_seq : 1 <= nextSeq t < 2 ^ 32;
  ti_pending s : is_Some (pendingPings t !! s) -> s < nextSeq t /\ s ∉ resolved;
  ti_grace s : is_Some (lateGrace t !! s) -> s ∈ resolved /\ s ∉ answered;
  ti_resolved s : s ∈ resolved -> s < nextSeq t;
  ti_nodup : NoDup resolved;
  ti_answered s : s ∈ answered -> s ∈ resolved;
  ti_samples : samples t = lastn pingLossWindowSize (map (verdict answered) resolved);
  ti_lost : consecutiveLost t = Z.of_nat lost
}.

Lemma lastn_app {A} n (l k : list A) : lastn n (lastn n l ++ k) = lastn n (l ++ k).
Proof.
  unfold lastn. rewrite !length_app, !length_drop. rewrite !drop_app, length_drop, drop_drop. f_equal; f_equal; lia.
Qed.

Lemma addSample_lastn l a s : addSample (lastn pingLossWindowSize l) a s = lastn pingLossWindowSize (l ++ [mkSample s a]).
Proof.
  unfold addSample. rewrite <- (lastn_app _ l [_]). destruct (decide _) as [|Hn]; [done|].
  unfold lastn at 2. replace (_ - _)%nat with 0%nat by lia. by rewrite drop_0.
Qed.

Lemma verdict_irrel answered x l : x ∉ l -> map (verdict ({[x]} ∪ answered)) l = map (verdict answered) l.
Proof.
  intros Hx. apply map_ext_in. intros s Hs. unfold verdict. f_equal. apply bool_decide_ext.
  apply list_elem_of_In in Hs. set_solver.
Qed.

Lemma overturn_verdict answered x l : NoDup l -> x ∉ answered ->
  overturn x (map (verdict answered) l) = map (verdict ({[x]} ∪ answered)) l.
Proof.
  induction 1 as [|s l Hs Hnd IH]; intros Hx; [done|]. cbn [map overturn psSeq acked verdict].
  destruct (Z.eqb_spec s x) as [->|Hne]; cbn [andb].
  - rewrite (bool_decide_eq_false_2 (x ∈ answered)) by done. cbn [negb]. f_equal; [|by rewrite verdict_irrel].
    unfold verdict. by rewrite bool_decide_eq_true_2 by set_solver.
  - rewrite IH by done. f_equal. unfold verdict. f_equal. apply bool_decide_ext. set_solver.
Qed.

Lemma lastn_map {A C} (f : A -> C) n l : lastn n (map f l) = map f (lastn n l).
Proof. unfold lastn. by rewrite length_map, skipn_map. Qed.

Lemma lastn_NoDup {A} n (l : list A) : NoDup l -> NoDup (lastn n l).
Proof. intros Hl. rewrite <- (take_drop (length l - n) l) in Hl. by apply NoDup_app in Hl as (_ & _ & ?). Qed.

Lemma lastn_elem {A} n (l : list A) x : x ∈ lastn n l -> x ∈ l.
Proof. intros Hx. rewrite <- (take_drop (length l - n) l). apply elem_of_app. by right. Qed.

Lemma newTracker_inv : trackInv newPingTracker [] ∅ 0.
Proof. constructor; try done; cbn; try set_solver; try apply NoDup_nil_2; intros s [? Hs]; by rewrite lookup_empty in Hs. Qed.

(** One loss verdict. *)
Lemma ageStep_inv cutoff t s resolved answered lost : trackInv t resolved answered lost ->
  let lost1 := match pendingPings t !! s with Some st => st <? cutoff | None => false end in
  trackInv (ageStep cutoff t s) (resolved ++ (if lost1 then [s] else [])) answered (lost + (if lost1 then 1 else 0)) /\
  nextSeq (ageStep cutoff t s) = nextSeq t /\
  (forall s', s' <> s -> pendingPings (ageStep cutoff t s) !! s' = pendingPings t !! s').
Proof.
  intros Hinv. pose proof Hinv as [Hseq Hp Hg Hr Hnd Ha Hs Hl]. unfold ageStep.
  destruct (pendingPings t !! s) as [st|] eqn:E; cbv zeta; [|by rewrite app_nil_r, Nat.add_0_r].
  destruct (Z.ltb_spec st cutoff); [|by rewrite app_nil_r, Nat.add_0_r].
  destruct (Hp s) as [Hlt Hns]; [by eexists|]. assert (Hna : s ∉ answered) by (intros Hin; by apply Hns, Ha).
  split_and!; [constructor; cbn [nextSeq pendingPings lateGrace samples consecutiveLost]|done|].
  - done.
  - intros s'. rewrite lookup_delete_is_Some. intros [Hne Hs']. destruct (Hp s' Hs'). split; [done|set_solver].
  - intros s'. rewrite lookup_insert_is_Some. intros [->|[Hne Hs']]; [set_solver|]. destruct (Hg s' Hs'). set_solver.
  - intros s' Hs'. apply elem_of_app in Hs' as [Hs'|Hs']; [by apply Hr|]. set_solver.
  - apply NoDup_app. split_and!; [done|set_solver|apply NoDup_singleton].
  - set_solver.
  - rewrite Hs, addSample_lastn, map_app. cbn [map]. unfold verdict at 3. by rewrite bool_decide_eq_false_2.
  - lia.
  - intros s' Hne. cbn [pendingPings]. by rewrite lookup_delete_ne.
Qed.

Lemma age_inv cutoff order : NoDup order -> forall t resolved answered lost, trackInv t resolved answered lost ->
  let l := List.filter (fun s => match pendingPings t !! s with Some st => st <? cutoff | None => false end) order in
  trackInv (foldl (ageStep cutoff) t order) (resolved ++ l) answered (lost + length l) /\
  nextSeq (foldl (ageStep cutoff) t order) = nextSeq t.
Proof.
  induction 1 as [|s order Hs Hnd IH]; intros t resolved answered lost Hinv; cbn [foldl List.filter length].
  { by rewrite app_nil_r, Nat.add_0_r. }
  destruct (ageStep_inv cutoff t s _ _ _ Hinv) as (H1 & Hn & Hother).
  destruct (IH _ _ _ _ H1) as [H2 H3]. rewrite H3, Hn. split; [|done].
  set (l1 := List.filter _ order) in H2. set (l2 := List.filter _ order).
  assert (l1 = l2) as ->.
  { subst l1 l2. apply List.filter_ext_in. intros s' Hs'. rewrite Hother; [done|].
    intros ->. by apply Hs, list_elem_of_In. }
  destruct (match pendingPings t !! s with Some st => st <? cutoff | None => false end);
    rewrite <- app_assoc in H2; cbn [app length] in *.
  - by replace (lost + S (length l2))%nat with (lost + 1 + length l2)%nat by lia.
  - by rewrite Nat.add_0_r in H2.
Qed.

Lemma recordPing_inv t resolved answered lost now order :
  trackInv t resolved answered lost -> order ≡ₚ map fst (map_to_list (pendingPings t)) -> nextSeq t < 2 ^ 32 - 1 ->
  trackInv (fst (recordPing t now order)) (resolved ++ stale t now order) answered (lost + length (stale t now order)).
Proof.
  intros Hinv Hord Hseq.
  assert (Hnd : NoDup order) by (rewrite Hord; apply NoDup_fst_map_to_list).
  destruct (age_inv (now - pingTimeout) order Hnd t _ _ _ Hinv) as [[H1 H2 H3 H4 H5 H6 H7 H8] Hn].
  fold (stale t now order) in *. unfold recordPing.
  set (t' := foldl _ t order) in *. clearbody t'.
  assert (Hw : wrap 32 (nextSeq t' + 1) = nextSeq t' + 1) by (apply wrap_small; lia).
  constructor; cbn [fst nextSeq pendingPings lateGrace samples consecutiveLost]; try done.
  - lia.
  - rewrite Hw. intros s. rewrite lookup_insert_is_Some. intros [<-|[_ Hs]].
    + split; [lia|]. intros Hs. specialize (H4 _ Hs). lia.
    + destruct (H2 s Hs). split; [lia|done].
  - intros s [st Hs]. apply map_lookup_filter_Some in Hs as [Hs _]. apply H3. by eexists.
  - rewrite Hw. intros s Hs. specialize (H4 s Hs). lia.
Qed.

Lemma recordPong_inv t resolved answered lost seq now st :
  trackInv t resolved answered lost -> pendingPings t !! seq = Some st ->
  trackInv (recordPong t seq now) (resolved ++ [seq]) ({[seq]} ∪ answered) 0.
Proof.
  intros [Hseq Hp Hg Hr Hnd Ha Hs Hl] Hst. unfold recordPong. rewrite Hst.
  destruct (Hp seq) as [Hlt Hns]; [by eexists|].
  constructor; cbn [nextSeq pendingPings lateGrace samples consecutiveLost]; try done.
  - intros s. rewrite lookup_delete_is_Some. intros [Hne Hs']. destruct (Hp s Hs'). split; [done|set_solver].
  - intros s Hs'. destruct (Hg s Hs'). set_solver.
  - set_solver.
  - apply NoDup_app. split_and!; [done|set_solver|apply NoDup_singleton].
  - set_solver.
  - rewrite Hs, addSample_lastn, map_app, verdict_irrel by done. cbn [map]. f_equal. f_equal.
    unfold verdict. by rewrite bool_decide_eq_true_2 by set_solver.
Qed.

Lemma recordLate_inv t resolved answered lost seq now st :
  trackInv t resolved answered lost -> pendingPings t !! seq = None -> lateGrace t !! seq = Some st ->
  trackInv (recordPong t seq now) resolved ({[seq]} ∪ answered) 0.
Proof.
  intros [Hseq Hp Hg Hr Hnd Ha Hs Hl] Hno Hst. unfold recordPong. rewrite Hno, Hst.
  destruct (Hg seq) as [Hin Hna]; [by eexists|].
  constructor; cbn [nextSeq pendingPings lateGrace samples consecutiveLost]; try done.
  - intros s. rewrite lookup_delete_is_Some. intros [Hne Hs']. destruct (Hg s Hs'). set_solver.
  - set_solver.
  - rewrite Hs, !lastn_map. apply overturn_verdict; [by apply lastn_NoDup|done].
Qed.

Lemma trackRun_inv t resolved answered lost : trackRun t resolved answered lost -> trackInv t resolved answered lost.
Proof.
  induction 1 as [|t r a l now order _ IH Hord Hs|t r a l seq _ IH|t r a l seq now st _ IH Hst|t r a l seq now st _ IH Hno Hst|
    t r a l seq now _ IH Hno Hng].
  - apply newTracker_inv.
  - by apply recordPing_inv.
  - destruct IH as [? Hp ? ? ? ? ? ?]. constructor; try done. intros s. cbn. rewrite lookup_delete_is_Some.
    intros [_ Hs]. by apply Hp.
  - by eapply recordPong_inv.
  - by eapply recordLate_inv.
  - unfold recordPong. by rewrite Hno, Hng.
Qed.

(** ** Bounds of the sampler *)

(** Every sample lies in [lo, hi]. *)
Inductive sampled (lo hi : Z) : rttSampler -> Prop :=
| sampledNew : sampled lo hi (mkSampler 0 0 0 0)
| sampledAdd r rtt : sampled lo hi r -> lo <= rtt <= hi -> sampled lo hi (addRtt r rtt).

Lemma addRtt_eq lo hi r rtt : 0 < lo -> hi < 2 ^ 59 -> lo <= srtt r <= hi -> 0 <= rttVar r <= hi -> lo <= rtt <= hi ->
  addRtt r rtt = mkSampler ((7 * srtt r + rtt) / 8) ((3 * rttVar r + Z.abs (rtt - srtt r)) / 4) (sampleCount r + 1) rtt.
Proof.
  intros Hlo Hhi Hs Hv Hr. unfold addRtt. destruct (Z.eqb_spec (srtt r) 0); [lia|].
  rewrite (swrap_small 64 (rtt - srtt r)) by lia.
  assert (Hd : (if rtt - srtt r <? 0 then swrap 64 (- (rtt - srtt r)) else rtt - srtt r) = Z.abs (rtt - srtt r)).
  { destruct (Z.ltb_spec (rtt - srtt r) 0); [rewrite swrap_small by lia|]; lia. }
  rewrite Hd, !swrap_small by lia. rewrite !Z.quot_div_nonneg by lia. done.
Qed.

Lemma sampled_bounds lo hi r : 0 < lo <= hi -> hi < 2 ^ 59 -> sampled lo hi r ->
  0 <= rttVar r <= hi /\ (srtt r = 0 /\ rttVar r = 0 /\ sampleCount r = 0 \/ lo <= srtt r <= hi /\ 0 < sampleCount r).
Proof.
  intros Hlo Hhi. induction 1 as [|r rtt _ [IHv IH] Hr]; [cbn; lia|].
  destruct IH as [(Hz & Hv0 & Hc)|[Hs Hc]].
  - unfold addRtt. rewrite Hz. cbn. rewrite Z.quot_div_nonneg by lia. Z.div_mod_to_equations. lia.
  - rewrite (addRtt_eq lo hi) by lia. cbn [srtt rttVar sampleCount]. Z.div_mod_to_equations. lia.
Qed.

(** The window holds at most 20 samples, so its loss rate is one of finitely many. *)
Lemma lossRate_range m n : (m <= n <= 20)%nat -> n <> 0%nat ->
  fle (f64 0) (fdiv (f64 (Z.of_nat m)) (f64 (Z.of_nat n))) = true /\
  fle (fdiv (f64 (Z.of_nat m)) (f64 (Z.of_nat n))) (f64 1) = true.
Proof.
  intros Hmn Hn.
  assert (Hall : forallb (fun n => forallb (fun m =>
    fle (f64 0) (fdiv (f64 (Z.of_nat m)) (f64 (Z.of_nat n))) &&
    fle (fdiv (f64 (Z.of_nat m)) (f64 (Z.of_nat n))) (f64 1)) (seq 0 (S n))) (seq 1 20) = true) by (vm_compute; done).
  rewrite forallb_forall in Hall. specialize (Hall n ltac:(apply in_seq; lia)).
  rewrite forallb_forall in Hall. specialize (Hall m ltac:(apply in_seq; lia)). by apply andb_prop in Hall.
Qed.

(** ** What the measurement promises *)

(** The ping tracker refines its specification, in any interleaving of pings,
    cancellations, pongs and late pongs: every ping gets at most one verdict, the
    window is exactly the last 20 verdicts with every loss whose pong arrived within
    the grace period turned into an ack, and the consecutive losses are the loss
    verdicts since the last accepted pong. *)
Theorem pingTracker_refines t resolved answered lost : trackRun t resolved answered lost ->
  NoDup resolved /\ (forall s, s ∈ answered -> s ∈ resolved) /\
  samples t = lastn pingLossWindowSize (map (verdict answered) resolved) /\
  consecutiveLostCount t = Z.of_nat lost /\
  (forall s, is_Some (pendingPings t !! s) -> s ∉ resolved) /\
  (forall s, is_Some (lateGrace t !! s) -> s ∈ resolved /\ s ∉ answered).
Proof.
  intros Hr. destruct (trackRun_inv _ _ _ _ Hr) as [? Hp ? ? ? ? ? ?]. split_and!; try done. intros s Hs. by apply Hp.
Qed.

(** The statistics stay in range: with all round trips between [lo] and [hi] the
    smoothed RTT does too, the variance is at most [hi], the retransmission timeout
    lies between 100 ms and five times [hi], the loss rate between 0 and 1, and none
    of the 64-bit computations wraps. *)
Theorem linkQuality_bounds t resolved answered lost lo hi : trackRun t resolved answered lost ->
  0 < lo <= hi -> hi < 2 ^ 59 -> sampled lo hi (sampler t) ->
  let q := getStats t in
  (lqCount q = 0 /\ lqSrtt q = 0 \/ lo <= lqSrtt q <= hi) /\ 0 <= lqJitter q <= hi /\
  lqRto q = Z.max (100 * Millisecond) (lqSrtt q + 4 * lqJitter q) /\
  100 * Millisecond <= lqRto q <= Z.max (100 * Millisecond) (5 * hi) /\
  fle (f64 0) (lqLoss q) = true /\ fle (lqLoss q) (f64 1) = true.
Proof.
  intros Hr Hlo Hhi Hs. destruct (sampled_bounds lo hi _ Hlo Hhi Hs) as [Hv Hc].
  assert (Hrto : lqRto (getStats t) = Z.max (100 * Millisecond) (srtt (sampler t) + 4 * rttVar (sampler t))).
  { unfold getStats, samplerStats. cbn [lqRto]. rewrite (swrap_small 64 (4 * _)) by lia. rewrite swrap_small by lia.
    destruct (Z.ltb_spec (srtt (sampler t) + 4 * rttVar (sampler t)) (100 * Millisecond)); lia. }
  cbv zeta. rewrite Hrto. cbn [getStats samplerStats lqSrtt lqJitter lqCount lqLoss].
  split_and!; try lia.
  all: pose proof (ti_samples _ _ _ _ (trackRun_inv _ _ _ _ Hr)) as Hw; unfold getLossRate; destruct (decide _); [done|].
  all: assert (Hlen : (length (samples t) <= 20)%nat) by (rewrite Hw; unfold lastn; rewrite length_drop; unfold pingLossWindowSize; lia).
  all: apply lossRate_range; [|done]; split; [apply List.filter_length_le|done].
Qed.

Section Promises.
Context {B : Type} `{FrameTransport B}.
Variable marshal : PingInfo -> list Z.

(** A ping closes the link exactly when ten loss verdicts have accumulated since
    the last accepted pong and nothing at all has arrived for ten seconds; otherwise
    it is sent on the data queue and pending from now on, or, if the queue refuses it,
    leaves no trace: nothing is pending that was not before, so it never counts as a
    loss. *)
Theorem sendPing_exact (p : Peer B) lk now order resolved answered lost :
  trackRun (tracker lk) resolved answered lost -> order ≡ₚ map fst (map_to_list (pendingPings (tracker lk))) ->
  nextSeq (tracker lk) < 2 ^ 32 - 1 ->
  let '(p', lk', out) := sendPing marshal p lk now order in
  let seq := nextSeq (tracker lk) in
  (out = PingClosed <-> (10 <= lost)%nat /\ 10 * Second <= now - lastSeenNano lk) /\
  match out with
  | PingClosed => p' = p /\ tracker lk' = tracker lk /\ lkClosed lk' = true
  | PingSent s =>
      s = seq /\ enqueueWrite p FrameLinkPing (marshal (mkPing now seq)) false now = (p', None) /\
      pendingPings (tracker lk') !! seq = Some now /\ lkClosed lk' = lkClosed lk /\
      trackRun (tracker lk') (resolved ++ stale (tracker lk) now order) answered
        (lost + length (stale (tracker lk) now order))
  | PingRejected s e =>
      s = seq /\ enqueueWrite p FrameLinkPing (marshal (mkPing now seq)) false now = (p', Some e) /\
      pendingPings (tracker lk') !! seq = None /\ lkClosed lk' = lkClosed lk /\
      trackRun (tracker lk') (resolved ++ stale (tracker lk) now order) answered
        (lost + length (stale (tracker lk) now order))
  end.
Proof.
  intros Hr Hord Hseq. pose proof (trackRun_inv _ _ _ _ Hr) as Hinv. unfold sendPing, consecutiveLostCount.
  rewrite (ti_lost _ _ _ _ Hinv). unfold pingFailDisconnectThreshold, pingDeadInboundQuiet.
  assert (Hns : snd (recordPing (tracker lk) now order) = nextSeq (tracker lk)).
  { assert (Hnd : NoDup order) by (rewrite Hord; apply NoDup_fst_map_to_list).
    by destruct (age_inv (now - pingTimeout) order Hnd _ _ _ _ Hinv) as [_ ?]. }
  pose proof (runPing _ _ _ _ now order Hr Hord Hseq) as Hrun.
  assert (Hpend : pendingPings (fst (recordPing (tracker lk) now order)) !! snd (recordPing (tracker lk) now order) = Some now).
  { unfold recordPing. cbn [fst snd pendingPings]. apply lookup_insert_eq. }
  destruct (Z.leb_spec 10 (Z.of_nat lost)), (Z.ltb_spec (now - lastSeenNano lk) (10 * Second)); cbn [andb negb].
  2: { split; [split; [lia|done]|done]. }
  all: destruct (recordPing (tracker lk) now order) as [t seq]; cbn [fst snd] in *; subst seq.
  all: destruct (enqueueWrite p FrameLinkPing _ false now) as [p' [e|]]; cbn [tracker lkClosed].
  all: split; [split; [done|lia]|]; split_and!; first [done|apply lookup_delete_eq|by apply runCancel].
Qed.

End Promises.

(** ** A concrete run *)

(** Two pings, the first unanswered for six seconds, then answered late. *)
Definition demoTracker : pingTracker :=
  let t := fst (recordPing newPingTracker (100 * Second) []) in
  let t := fst (recordPing t (106 * Second) [1]) in
  recordPong t 1 (107 * Second).

Definition demoLink : linkState := mkLink demoTracker (107 * Second) 0 false.

Lemma demoTracker_run : trackRun demoTracker [1] {[1]} 0.
Proof.
  set (t1 := fst (recordPing newPingTracker (100 * Second) [])).
  assert (H1 : trackRun t1 [] ∅ 0) by exact (runPing _ [] ∅ 0 (100 * Second) [] runNew ltac:(done) ltac:(done)).
  pose proof (runPing t1 [] ∅ 0 (106 * Second) [1] H1 ltac:(vm_compute; reflexivity) ltac:(vm_compute; reflexivity)) as H2.
  replace (stale t1 (106 * Second) [1]) with [1] in H2 by (vm_compute; reflexivity).
  pose proof (runLate _ _ _ _ 1 (107 * Second) (100 * Second) H2 ltac:(vm_compute; reflexivity)
    ltac:(vm_compute; reflexivity)) as H3.
  by rewrite (right_id_L ∅ (∪)) in H3.
Qed.

Lemma pingTracker_refines_witness : samples demoTracker = [mkSample 1 true] /\
  samples demoTracker = lastn pingLossWindowSize (map (verdict {[1]}) [1]) /\ consecutiveLostCount demoTracker = 0.
Proof.
  split; [vm_compute; reflexivity|].
  split; apply (pingTracker_refines demoTracker [1] {[1]} 0); exact demoTracker_run.
Defined.

Lemma linkQuality_bounds_witness :
  100 * Millisecond <= lqRto (getStats demoTracker) <= Z.max (100 * Millisecond) (5 * (7 * Second)).
Proof.
  apply (linkQuality_bounds demoTracker [1] {[1]} 0 1 (7 * Second)).
  - exact demoTracker_run.
  - vm_compute. split; congruence.
  - vm_compute. reflexivity.
  - change (sampler demoTracker) with (addRtt (mkSampler 0 0 0 0) (7 * Second)).
    constructor; [constructor|vm_compute; split; congruence].
Defined.

(** The stream transport accepts the third ping. *)
Lemma sendPing_exact_witness :
  let '(p', lk', out) := sendPing (fun i => [Seq i]) (newPeer 3 ([] : list Z)) demoLink (108 * Second) [2] in
  out = PingSent 3 /\ pendingPings (tracker lk') !! 3 = Some (108 * Second).
Proof.
  assert (H := sendPing_exact (fun i => [Seq i]) (newPeer 3 ([] : list Z)) demoLink
    (108 * Second) [2] [1] {[1]} 0 demoTracker_run ltac:(vm_compute; reflexivity) ltac:(vm_compute; reflexivity)).
  destruct (sendPing _ _ _ _ _) as [[p' lk'] out] eqn:E.
  assert (Ho : out = PingSent 3) by (vm_compute in E; congruence).
  subst out. split; [reflexivity|]. destruct H as (_ & _ & _ & H & _). exact H.
Defined.
