(* ===== verification/PeerSessions.v ===== *)
(** PeerSessions: the life of peer sessions in src/p2p/p2p.go: the manager's two maps, the
    goroutines of StartPeer (a dialled peer) and of HandleP2PTransport (an accepted one),
    the establishment of a peer by its first gossip, and the operations that stop peers.

    A goroutine is a phase; a step is one section under a lock, one atomic store, one
    select or one outcome of the network.  Any step of any goroutine may come next.  The
    mesh handler is seen through what is registered with it: senders and link NICs.  The
    order in which Go walks a map is an argument.  Dialling, the frames that arrive and
    the timers are choices of the environment. *)

From Stdlib Require Import ZArith Lia.
From stdpp Require Import base gmap list numbers strings.
From S2P Require Import Prelude.
Open Scope Z_scope.

(** ** Data *)

Inductive status := connecting | failed | helloed | upToDate | stopped | disconnected.

#[global] Instance status_eq_dec : EqDecision status.
Proof. solve_decision. Defined.

(** peer.transport: not assigned, open, closed. *)
Inductive conn := Unset | Open | Closed.

Record Peer := mkPeer {
  Seq : Z; ProxyName : option string; NodeID : string; RemoteSeq : Z; Status : status;
  stopCh : bool; wasStopped : bool; transport : conn; leg : bool;
  meshSender : option string; linkNIC : option string
}.

(** What StartPeer asks of a proxy and its dialer. *)
Record proxyInfo := mkProxy { Name : string; IsP2PUDP : bool; dialsP2P : bool; dialsPackets : bool }.

Record claim := mkClaim { Hop : Z; cNodeID : string; cSubnet : string }.
Record GossipInfo := mkGossip { ProtocolVersion : Z; gSeq : Z; ClaimedSubnets : list claim }.

Definition P2PProtocolVersion : Z := 10.

(** Where a goroutine stands; the peer it runs is an index of the heap. *)
Inductive phase :=
| Check | Begin | Register
| Loop (k : nat) | Dial (k : nat) | Backoff (k : nat) | Install (k : nat) | Wrap (k : nat)
| Run (k : nat)
| CloseConn (k : nat) | TestStatus (k : nat) | MarkDown (k : nat) | Unmesh (k : nat)
| Unmap (k : nat) | Decide (k : nat) | Wait (k : nat) | Spawn (k : nat)
| Defer1 (k : nat) | Defer2 (k : nat) | Final (k : nat)
| Over (k : option nat).

(** The proxy of StartPeer; none for HandleP2PTransport. *)
Record thread := mkThread { of_proxy : option proxyInfo; at_phase : phase }.

(** A call of stopPeer under way: whether its first half is done. *)
Record stopping := mkStopping { s_peer : nat; s_half : bool }.

Record P2PManager := mkManager {
  heap : gmap nat Peer;
  peers : gmap Z nat; proxyPeers : gmap string nat;
  mstopped : bool; sessions : nat; linkSeqCounter : Z; udpLegInbound : bool;
  meshEnabled : bool; registered : gset (nat * string); nics : gset (nat * string);
  threads : gmap nat thread; stops : list stopping
}.

Definition NewP2PManager (mesh : bool) : P2PManager := mkManager ∅ ∅ ∅ false 0 0 false mesh ∅ ∅ ∅ [].

(** ** Updates *)

Definition setPeer (k : nat) (p : Peer) (m : P2PManager) : P2PManager :=
  mkManager (<[k := p]> (heap m)) (peers m) (proxyPeers m) (mstopped m) (sessions m) (linkSeqCounter m) (udpLegInbound m)
    (meshEnabled m) (registered m) (nics m) (threads m) (stops m).
Definition setMaps (ps : gmap Z nat) (pps : gmap string nat) (m : P2PManager) : P2PManager :=
  mkManager (heap m) ps pps (mstopped m) (sessions m) (linkSeqCounter m) (udpLegInbound m)
    (meshEnabled m) (registered m) (nics m) (threads m) (stops m).
Definition setMesh (reg ns : gset (nat * string)) (m : P2PManager) : P2PManager :=
  mkManager (heap m) (peers m) (proxyPeers m) (mstopped m) (sessions m) (linkSeqCounter m) (udpLegInbound m)
    (meshEnabled m) reg ns (threads m) (stops m).
Definition setThread (i : nat) (t : thread) (m : P2PManager) : P2PManager :=
  mkManager (heap m) (peers m) (proxyPeers m) (mstopped m) (sessions m) (linkSeqCounter m) (udpLegInbound m)
    (meshEnabled m) (registered m) (nics m) (<[i := t]> (threads m)) (stops m).
Definition setSessions (n : nat) (m : P2PManager) : P2PManager :=
  mkManager (heap m) (peers m) (proxyPeers m) (mstopped m) n (linkSeqCounter m) (udpLegInbound m)
    (meshEnabled m) (registered m) (nics m) (threads m) (stops m).
Definition setCounter (c : Z) (inbound : bool) (m : P2PManager) : P2PManager :=
  mkManager (heap m) (peers m) (proxyPeers m) (mstopped m) (sessions m) c inbound
    (meshEnabled m) (registered m) (nics m) (threads m) (stops m).
Definition setStops (l : list stopping) (b : bool) (m : P2PManager) : P2PManager :=
  mkManager (heap m) (peers m) (proxyPeers m) b (sessions m) (linkSeqCounter m) (udpLegInbound m)
    (meshEnabled m) (registered m) (nics m) (threads m) l.

Definition SetStatus (s : status) (p : Peer) : Peer :=
  mkPeer (Seq p) (ProxyName p) (NodeID p) (RemoteSeq p) s (stopCh p) (wasStopped p) (transport p) (leg p) (meshSender p) (linkNIC p).
Definition setTransport (c : conn) (l : bool) (p : Peer) : Peer :=
  mkPeer (Seq p) (ProxyName p) (NodeID p) (RemoteSeq p) (Status p) (stopCh p) (wasStopped p) c l (meshSender p) (linkNIC p).
Definition setIdentity (n : string) (r : Z) (s : status) (p : Peer) : Peer :=
  mkPeer (Seq p) (ProxyName p) n r s (stopCh p) (wasStopped p) (transport p) (leg p) (meshSender p) (linkNIC p).
Definition setLink (s n : option string) (p : Peer) : Peer :=
  mkPeer (Seq p) (ProxyName p) (NodeID p) (RemoteSeq p) (Status p) (stopCh p) (wasStopped p) (transport p) (leg p) s n.

Definition closed (c : conn) : conn := match c with Open => Closed | c => c end.

(** Closing the transport closes the leg around it. *)
Definition closeTransport (p : Peer) : Peer := setTransport (closed (transport p)) false p.

(** stopPeer in its two halves. *)
Definition stopPeer1 (p : Peer) : Peer :=
  if stopCh p then p
  else mkPeer (Seq p) (ProxyName p) (NodeID p) (RemoteSeq p) stopped true (wasStopped p) (transport p) (leg p) (meshSender p) (linkNIC p).
Definition stopPeer2 (p : Peer) : Peer :=
  closeTransport (mkPeer (Seq p) (ProxyName p) (NodeID p) (RemoteSeq p) (Status p) (stopCh p) true (transport p) (leg p) (meshSender p) (linkNIC p)).

Definition updPeer (k : nat) (f : Peer -> Peer) (m : P2PManager) : P2PManager :=
  match heap m !! k with Some p => setPeer k (f p) m | None => m end.

(** ** Gossip *)

Fixpoint ownClaim (cs : list claim) : option claim :=
  match cs with [] => None | c :: cs => if Hop c =? 0 then Some c else ownClaim cs end.
Definition extractNodeIDFromGossip (info : GossipInfo) : string :=
  match ownClaim (ClaimedSubnets info) with Some c => cNodeID c | None => "" end.

(** [nicMade] says whether CreateLinkNIC returned one. *)
Definition registerPeerWithMesh (k : nat) (nodeID : string) (info : GossipInfo) (nicMade : bool) (m : P2PManager) : P2PManager :=
  match heap m !! k with
  | None => m
  | Some p =>
      if negb (meshEnabled m) then m
      else
        let m := setPeer k (setLink (Some nodeID) (linkNIC p) p) m in
        let m := setMesh ({[(k, nodeID)]} ∪ registered m) (nics m) m in
        let subnet := match ownClaim (ClaimedSubnets info) with Some c => cSubnet c | None => "" end in
        if bool_decide (subnet = ""%string) then m
        else if nicMade then setPeer k (setLink (Some nodeID) (Some nodeID) p) (setMesh (registered m) ({[(k, nodeID)]} ∪ nics m) m)
        else setPeer k (setLink (Some nodeID) None p) m
  end.

Definition establishPeerFromGossip (k : nat) (info : GossipInfo) (nicMade : bool) (m : P2PManager) : P2PManager :=
  if negb (ProtocolVersion info =? P2PProtocolVersion) then updPeer k closeTransport m
  else
    let nodeID := extractNodeIDFromGossip info in
    if bool_decide (nodeID = ""%string) then updPeer k closeTransport m
    else
      let m := updPeer k (setIdentity nodeID (gSeq info) helloed) m in
      let m := registerPeerWithMesh k nodeID info nicMade m in
      updPeer k (SetStatus upToDate) m.

(** Unregister the sender, delete the NIC. *)
Definition dropSender (k : nat) (m : P2PManager) : P2PManager :=
  match heap m !! k with
  | Some p => match meshSender p with Some n => if meshEnabled m then setMesh (registered m ∖ {[(k, n)]}) (nics m) m else m | None => m end
  | None => m
  end.
Definition dropNIC (k : nat) (m : P2PManager) : P2PManager :=
  match heap m !! k with
  | Some p =>
      match linkNIC p with
      | Some n => if meshEnabled m then setPeer k (setLink (meshSender p) None p) (setMesh (registered m) (nics m ∖ {[(k, n)]}) m) else m
      | None => m
      end
  | None => m
  end.

Definition reregisterPeer (k : nat) (nodeID : string) (info : GossipInfo) (nicMade : bool) (m : P2PManager) : P2PManager :=
  let m := if meshEnabled m then dropNIC k (dropSender k m) else m in
  let m := updPeer k (fun p => setIdentity nodeID (RemoteSeq p) (Status p) p) m in
  registerPeerWithMesh k nodeID info nicMade m.

(** The registration side of handleGossip. *)
Definition handleGossip (k : nat) (info : GossipInfo) (nicMade : bool) (m : P2PManager) : P2PManager :=
  match heap m !! k with
  | None => m
  | Some p =>
      if bool_decide (NodeID p = ""%string) then establishPeerFromGossip k info nicMade m
      else if negb (ProtocolVersion info =? P2PProtocolVersion) then updPeer k closeTransport m
      else
        let nodeID := extractNodeIDFromGossip info in
        if bool_decide (nodeID <> ""%string /\ nodeID <> NodeID p) then reregisterPeer k nodeID info nicMade m else m
  end.

(** ** Goroutines *)

(** What the environment decides for one step. *)
Inductive choice :=
| Go                                     (* the next statement *)
| Dialled (ok : bool)                    (* DialP2P returned *)
| Stopped                                (* select sees stopCh *)
| TimerFired
| Gossip (info : GossipInfo) (nicMade : bool)
| HeartbeatTimeout | ReadError
| SessionLength (short : bool)
| FirstFrame.                            (* an accepted connection sent a frame that opens a session *)

(** A peer as StartPeer and HandleP2PTransport make it. *)
Definition newPeer (seq : Z) (proxy : option string) (c : conn) (l : bool) : Peer :=
  mkPeer seq proxy "" 0 connecting false false c l None None.

Definition goTo (i : nat) (t : thread) (ph : phase) (m : P2PManager) : P2PManager := setThread i (mkThread (of_proxy t) ph) m.

(** A key outside the heap, and outside the goroutines. *)
Definition freshPeer (m : P2PManager) : nat := fresh (dom (heap m) : gset nat).
Definition freshThread (m : P2PManager) : nat := fresh (dom (threads m) : gset nat).

(** Deletion from the maps when the entry is this peer. *)
Definition unmapPeer (k : nat) (p : Peer) (m : P2PManager) : P2PManager :=
  let ps := if bool_decide (peers m !! Seq p = Some k) then delete (Seq p) (peers m) else peers m in
  let pps := match ProxyName p with
             | Some n => if bool_decide (proxyPeers m !! n = Some k) then delete n (proxyPeers m) else proxyPeers m
             | None => proxyPeers m
             end in
  setMaps ps pps m.

(** beginSession. *)
Definition beginSession (i : nat) (t : thread) (m : P2PManager) : P2PManager :=
  if mstopped m then goTo i t (Over None) m else goTo i t Register (setSessions (S (sessions m)) m).

(** A session that ends: sessionsWG.Done. *)
Definition endSession (i : nat) (t : thread) (k : option nat) (m : P2PManager) : P2PManager :=
  goTo i t (Over k) (setSessions (pred (sessions m)) m).

(** The registration of a dialled peer: stopped manager, duplicate, or entry in both maps. *)
Definition registerActive (i : nat) (t : thread) (px : proxyInfo) (m : P2PManager) : P2PManager :=
  let c := linkSeqCounter m + 1 in
  let seq := wrap 16 c in
  let k := freshPeer m in
  let p := newPeer seq (Some (Name px)) Unset false in
  let m := setCounter c (udpLegInbound m || IsP2PUDP px) m in
  if mstopped m then endSession i t (Some k) (setPeer k (stopPeer2 (stopPeer1 p)) m)
  else match proxyPeers m !! Name px with
       | Some _ => endSession i t (Some k) (setPeer k (stopPeer2 (stopPeer1 p)) m)
       | None =>
           let m := setPeer k p m in
           let m := setMaps (<[seq := k]> (peers m)) (<[Name px := k]> (proxyPeers m)) m in
           goTo i t (if dialsP2P px then Loop k else Defer1 k) m
       end.

(** The registration of an accepted peer; its transport is open. *)
Definition registerPassive (i : nat) (t : thread) (m : P2PManager) : P2PManager :=
  let c := linkSeqCounter m + 1 in
  let seq := wrap 16 c in
  let k := freshPeer m in
  let p := newPeer seq None Open (udpLegInbound m) in
  let m := setCounter c (udpLegInbound m) m in
  if mstopped m then endSession i t (Some k) (setPeer k (stopPeer2 (stopPeer1 p)) m)
  else goTo i t (Run k) (setMaps (<[seq := k]> (peers m)) (proxyPeers m) (setPeer k p m)).

(** Where the goroutine goes when the session's read loop returns. *)
Definition afterRun (t : thread) (k : nat) : phase := match of_proxy t with Some _ => CloseConn k | None => Defer1 k end.

(** The steps of goroutine [i]; [None] when the choice does not apply. *)

(** Up to the session: the checks, the registration and the dial loop. *)
Definition dialStep (i : nat) (t : thread) (c : choice) (m : P2PManager) : option P2PManager :=
  match at_phase t, c with
  (* before there is a peer *)
  | Check, Go =>
      match of_proxy t with
      | Some px => Some (goTo i t (if bool_decide (is_Some (proxyPeers m !! Name px)) then Over None else Begin) m)
      | None => None
      end
  | Check, FirstFrame => match of_proxy t with None => Some (goTo i t Begin m) | Some _ => None end
  | Check, ReadError => match of_proxy t with None => Some (goTo i t (Over None) m) | Some _ => None end
  | Begin, Go => Some (beginSession i t m)
  | Register, Go => Some (match of_proxy t with Some px => registerActive i t px m | None => registerPassive i t m end)
  (* the dial loop *)
  | Loop k, Go => match heap m !! k with Some p => Some (goTo i t (if stopCh p then Defer1 k else Dial k) m) | None => None end
  | Dial k, Dialled false => Some (goTo i t (Backoff k) (updPeer k (SetStatus failed) m))
  | Dial k, Dialled true => Some (goTo i t (Install k) m)
  | Backoff k, Stopped => match heap m !! k with Some p => if stopCh p then Some (goTo i t (Defer1 k) m) else None | None => None end
  | Backoff k, TimerFired => Some (goTo i t (Loop k) m)
  | Install k, Go =>
      match heap m !! k with
      | Some p => if wasStopped p then Some (goTo i t (Defer1 k) m) else Some (goTo i t (Wrap k) (setPeer k (setTransport Open false p) m))
      | None => None
      end
  | Wrap k, Go =>
      match heap m !! k, of_proxy t with
      | Some p, Some px =>
          Some (goTo i t (Run k) (setPeer k (SetStatus connecting (setTransport (transport p) (IsP2PUDP px && dialsPackets px) p)) m))
      | _, _ => None
      end
  | _, _ => None
  end.

(** The session: what runSession does to the peer. *)
Definition sessionStep (i : nat) (t : thread) (c : choice) (m : P2PManager) : option P2PManager :=
  match at_phase t, c with
  (* the session *)
  | Run k, Gossip info nicMade => Some (handleGossip k info nicMade m)
  | Run k, HeartbeatTimeout => Some (updPeer k closeTransport m)
  | Run k, ReadError => Some (goTo i t (afterRun t k) m)
  | _, _ => None
  end.

(** After the session: what is deferred, the reconnection and the return. *)
Definition endStep (i : nat) (t : thread) (c : choice) (m : P2PManager) : option P2PManager :=
  match at_phase t, c with
  (* its end, dialled peers *)
  | CloseConn k, Go => Some (goTo i t (TestStatus k) (updPeer k closeTransport m))
  | TestStatus k, Go =>
      match heap m !! k with
      | Some p => Some (goTo i t (if bool_decide (Status p = stopped) then Unmesh k else MarkDown k) m)
      | None => None
      end
  | MarkDown k, Go => Some (goTo i t (Unmesh k) (updPeer k (SetStatus disconnected) m))
  | Unmesh k, Go => Some (goTo i t (Unmap k) (updPeer k (fun p => setLink None (linkNIC p) p) (dropNIC k (dropSender k m))))
  | Unmap k, Go => match heap m !! k with Some p => Some (goTo i t (Decide k) (unmapPeer k p m)) | None => None end
  | Decide k, SessionLength short =>
      match heap m !! k with
      | Some p => Some (goTo i t (if bool_decide (Status p = stopped) then Defer1 k else if short then Wait k else Spawn k) m)
      | None => None
      end
  | Wait k, Stopped => match heap m !! k with Some p => if stopCh p then Some (goTo i t (Defer1 k) m) else None | None => None end
  | Wait k, TimerFired => Some (goTo i t (Spawn k) m)
  | Spawn k, Go => Some (goTo i t (Defer1 k) (setThread (freshThread m) (mkThread (of_proxy t) Check) m))
  (* the deferred calls *)
  | Defer1 k, Go => Some (goTo i t (Defer2 k) (updPeer k stopPeer1 m))
  | Defer2 k, Go => Some (goTo i t (Final k) (updPeer k stopPeer2 m))
  | Final k, Go =>
      let m := match of_proxy t with Some _ => m | None => dropSender k m end in
      let m := dropNIC k m in
      match heap m !! k with Some p => Some (endSession i t (Some k) (unmapPeer k p m)) | None => None end
  | _, _ => None
  end.

Definition stepThread (i : nat) (c : choice) (m : P2PManager) : option P2PManager :=
  match threads m !! i with
  | None => None
  | Some t =>
      match at_phase t with
      | Check | Begin | Register | Loop _ | Dial _ | Backoff _ | Install _ | Wrap _ => dialStep i t c m
      | Run _ => sessionStep i t c m
      | _ => endStep i t c m
      end
  end.

(** ** The manager's operations *)

Definition StopPeerByProxyName (name : string) (m : P2PManager) : P2PManager :=
  match proxyPeers m !! name with
  | Some k =>
      let ps := match heap m !! k with Some p => delete (Seq p) (peers m) | None => peers m end in
      setStops (mkStopping k false :: stops m) (mstopped m) (setMaps ps (delete name (proxyPeers m)) m)
  | None => m
  end.

(** [range] is the order of the map of peers. *)
Definition StopAllPeers (range : list nat) (m : P2PManager) : P2PManager :=
  setStops (map (fun k => mkStopping k false) range ++ stops m) (mstopped m) (setMaps ∅ ∅ m).

Definition matches (nodeID : string) (seq : Z) (m : P2PManager) (k : nat) : bool :=
  match heap m !! k with Some p => bool_decide (NodeID p = nodeID) && (Seq p =? seq) | None => false end.
Definition StopPeerByNodeSeq (nodeID : string) (seq : Z) (range : list nat) (m : P2PManager) : P2PManager :=
  setStops (map (fun k => mkStopping k false) (List.filter (matches nodeID seq m) range) ++ stops m) (mstopped m) m.

Definition Stop (range : list nat) (m : P2PManager) : P2PManager :=
  if mstopped m then m else setStops (map (fun k => mkStopping k false) range ++ stops m) true m.

Inductive event :=
| Start (px : proxyInfo) | Accept
| Thread (i : nat) (c : choice)
| ByName (name : string) | AllPeers (range : list nat) | ByNodeSeq (nodeID : string) (seq : Z) (range : list nat) | Shutdown (range : list nat)
| Stopping (n : nat).

(** The order of a map's values. *)
Definition valuesOf (m : gmap Z nat) (range : list nat) : bool := bool_decide (range ≡ₚ (map_to_list m).*2).

Definition exec (m : P2PManager) (e : event) : option P2PManager :=
  match e with
  | Start px => Some (setThread (freshThread m) (mkThread (Some px) Check) m)
  | Accept => Some (setThread (freshThread m) (mkThread None Check) m)
  | Thread i c => stepThread i c m
  | ByName name => Some (StopPeerByProxyName name m)
  | AllPeers range => if valuesOf (peers m) range then Some (StopAllPeers range m) else None
  | ByNodeSeq nodeID seq range => if valuesOf (peers m) range then Some (StopPeerByNodeSeq nodeID seq range m) else None
  | Shutdown range => if valuesOf (peers m) range then Some (Stop range m) else None
  | Stopping n =>
      match stops m !! n with
      | Some (mkStopping k false) => Some (updPeer k stopPeer1 (setStops (<[n := mkStopping k true]> (stops m)) (mstopped m) m))
      | Some (mkStopping k true) => Some (updPeer k stopPeer2 (setStops (delete n (stops m)) (mstopped m) m))
      | None => None
      end
  end.

Inductive reachable (mesh : bool) : P2PManager -> Prop :=
| reach_new : reachable mesh (NewP2PManager mesh)
| reach_exec m e m' : reachable mesh m -> exec m e = Some m' -> reachable mesh m'.

Fixpoint runEvents (es : list event) (m : P2PManager) : option P2PManager :=
  match es with [] => Some m | e :: es => match exec m e with Some m' => runEvents es m' | None => None end end.

(** ** Invariant *)

Definition peerOf (ph : phase) : option nat :=
  match ph with
  | Check | Begin | Register => None
  | Loop k | Dial k | Backoff k | Install k | Wrap k | Run k | CloseConn k | TestStatus k | MarkDown k | Unmesh k
  | Unmap k | Decide k | Wait k | Spawn k | Defer1 k | Defer2 k | Final k => Some k
  | Over k => k
  end.

(** From the registration of a dialled peer to its removal from the maps. *)
Definition serving (ph : phase) : bool :=
  match ph with
  | Loop _ | Dial _ | Backoff _ | Install _ | Wrap _ | Run _ | CloseConn _ | TestStatus _ | MarkDown _ | Unmesh _ | Unmap _ => true
  | _ => false
  end.

(** While the peer may be registered with the mesh. *)
Definition meshed (t : thread) : bool :=
  match at_phase t, of_proxy t with
  | Run _, _ => true
  | (CloseConn _ | TestStatus _ | MarkDown _ | Unmesh _), _ => true
  | (Defer1 _ | Defer2 _ | Final _), None => true
  | _, _ => false
  end.

Definition ended (ph : phase) : bool := match ph with Final _ | Over _ => true | _ => false end.

Definition pending (m : P2PManager) (k : nat) : Prop := exists h, mkStopping k h ∈ stops m.

(** The peer is stopped, about to be, or the one registered for its proxy. *)
Definition guarded (m : P2PManager) (k : nat) (p : Peer) : Prop :=
  stopCh p = true \/ pending m k \/ exists n, ProxyName p = Some n /\ proxyPeers m !! n = Some k.

Definition unmeshed (m : P2PManager) (k : nat) : Prop := forall n, ~ ((k, n) ∈ registered m) /\ ~ ((k, n) ∈ nics m).
Definition unmapped (m : P2PManager) (k : nat) : Prop :=
  (forall s, peers m !! s <> Some k) /\ (forall n, proxyPeers m !! n <> Some k).

(** What holds of the peer [k] of a goroutine. *)
Record peerOk (m : P2PManager) (t : thread) (k : nat) (p : Peer) : Prop := {
  po_heap : heap m !! k = Some p;
  po_proxy : ProxyName p = option_map Name (of_proxy t);
  po_guard : linkSeqCounter m < 2 ^ 16 -> serving (at_phase t) = true -> is_Some (of_proxy t) -> guarded m k p;
  po_closed : ended (at_phase t) = true -> transport p <> Open /\ leg p = false;
  po_mesh : if meshed t
            then (forall n, (k, n) ∈ registered m -> meshSender p = Some n) /\ (forall n, (k, n) ∈ nics m -> linkNIC p = Some n)
            else unmeshed m k;
  po_fresh : NodeID p = ""%string -> unmeshed m k;
  po_maps : forall o, at_phase t = Over o -> unmapped m k
}.

Record inv (m : P2PManager) : Prop := {
  i_threads : forall i t k, threads m !! i = Some t -> peerOf (at_phase t) = Some k -> exists p, peerOk m t k p;
  i_owner : forall i j t t' k, threads m !! i = Some t -> threads m !! j = Some t' ->
            peerOf (at_phase t) = Some k -> peerOf (at_phase t') = Some k -> i = j;
  i_heap : forall k p, heap m !! k = Some p -> linkSeqCounter m < 2 ^ 16 -> 0 < Seq p <= linkSeqCounter m;
  i_seq : forall k k' p p', heap m !! k = Some p -> heap m !! k' = Some p' -> linkSeqCounter m < 2 ^ 16 -> Seq p = Seq p' -> k = k';
  i_peers : forall s k, peers m !! s = Some k -> exists p, heap m !! k = Some p /\ Seq p = s;
  i_proxies : forall n k, proxyPeers m !! n = Some k -> exists p, heap m !! k = Some p /\ ProxyName p = Some n;
  i_both : forall n k p, linkSeqCounter m < 2 ^ 16 -> proxyPeers m !! n = Some k -> heap m !! k = Some p -> peers m !! Seq p = Some k;
  i_stops : forall k, mkStopping k true ∈ stops m -> exists p, heap m !! k = Some p /\ stopCh p = true;
  i_pending : forall k, pending m k -> is_Some (heap m !! k);
  i_mesh : meshEnabled m = false -> registered m = ∅ /\ nics m = ∅;
  i_known : forall k n, (k, n) ∈ registered m \/ (k, n) ∈ nics m -> is_Some (heap m !! k);
  i_counter : 0 <= linkSeqCounter m
}.

Lemma inv_new mesh : inv (NewP2PManager mesh).
Proof.
  constructor; cbn; try (intros *; rewrite ?lookup_empty; done); try set_solver; try done.
  intros k [h Hh]. by apply not_elem_of_nil in Hh.
Qed.

(** What a step may do to the peers of other goroutines: nothing but give up their map
    entries for a pending stop. *)
Record frame (m m' : P2PManager) (k : nat) : Prop := {
  fr_heap : heap m' !! k = heap m !! k;
  fr_count : linkSeqCounter m <= linkSeqCounter m';
  fr_reg : forall n, (k, n) ∈ registered m' -> (k, n) ∈ registered m;
  fr_nics : forall n, (k, n) ∈ nics m' -> (k, n) ∈ nics m;
  fr_stops : pending m k -> pending m' k;
  fr_proxies : forall n, linkSeqCounter m' < 2 ^ 16 -> proxyPeers m !! n = Some k -> proxyPeers m' !! n = Some k \/ pending m' k;
  fr_maps : unmapped m k -> unmapped m' k
}.

Lemma guarded_frame m m' k p : frame m m' k -> linkSeqCounter m' < 2 ^ 16 -> guarded m k p -> guarded m' k p.
Proof.
  intros [] Hc [H|[H|(n & Hn & H)]]; [by left|right; left; auto|]. destruct (fr_proxies0 n Hc H); [right; right; eauto|by right; left].
Qed.

Lemma unmeshed_frame m m' k : frame m m' k -> unmeshed m k -> unmeshed m' k.
Proof. intros [] H n. destruct (H n) as [H1 H2]. split; intros Hin; [apply H1|apply H2]; auto. Qed.

Lemma peerOk_frame m m' t k p : frame m m' k -> peerOk m t k p -> peerOk m' t k p.
Proof.
  intros Hf []. pose proof Hf as []. constructor; try done.
  - by rewrite fr_heap0.
  - intros Hc Hs Ha. apply (guarded_frame m); [done..|]. apply po_guard0; [lia|done..].
  - destruct (meshed t); [|by eapply unmeshed_frame]. destruct po_mesh0. split; eauto.
  - intros Hn. eapply unmeshed_frame; eauto.
  - intros o Ho. eauto.
Qed.

(** A step of goroutine [i] on its own peer. *)
Record ownStep (m m' : P2PManager) (i : nat) (t : thread) (ph : phase) (k : nat) (p p' : Peer) : Prop := {
  os_heap : forall k', heap m' !! k' = if decide (k' = k) then Some p' else heap m !! k';
  os_threads : threads m' = <[i := mkThread (of_proxy t) ph]> (threads m);
  os_peer : peerOf ph = Some k;
  os_seq : Seq p' = Seq p; os_proxy : ProxyName p' = ProxyName p; os_stop : stopCh p = true -> stopCh p' = true;
  os_count : linkSeqCounter m' = linkSeqCounter m; os_stops : stops m' = stops m; os_enabled : meshEnabled m' = meshEnabled m;
  os_reg : forall k' n, k' <> k -> (k', n) ∈ registered m' <-> (k', n) ∈ registered m;
  os_nics : forall k' n, k' <> k -> (k', n) ∈ nics m' <-> (k', n) ∈ nics m;
  os_mesh : meshEnabled m = false -> registered m' = ∅ /\ nics m' = ∅;
  os_peers : forall s k', (peers m' !! s = Some k' -> peers m !! s = Some k') /\ (k' <> k -> peers m !! s = Some k' -> peers m' !! s = Some k');
  os_proxies : forall n k', (proxyPeers m' !! n = Some k' -> proxyPeers m !! n = Some k') /\
                            (k' <> k -> proxyPeers m !! n = Some k' -> proxyPeers m' !! n = Some k');
  os_both : forall n, proxyPeers m' !! n = Some k -> peers m !! Seq p = Some k -> peers m' !! Seq p = Some k
}.

Lemma ownStep_frame m m' i t ph k p p' k' : ownStep m m' i t ph k p p' -> k' <> k -> frame m m' k'.
Proof.
  intros [] Hk. constructor.
  - rewrite os_heap0. by rewrite decide_False.
  - lia.
  - intros n. by apply os_reg0.
  - intros n. by apply os_nics0.
  - unfold pending. by rewrite os_stops0.
  - intros n _ Hn. left. by apply os_proxies0.
  - intros [H1 H2]. split; [intros s Hs; by apply (H1 s), os_peers0|intros n Hn; by apply (H2 n), os_proxies0].
Qed.

Lemma inv_own m m' i t ph k p p' : inv m -> threads m !! i = Some t -> peerOf (at_phase t) = Some k -> heap m !! k = Some p ->
  ownStep m m' i t ph k p p' -> peerOk m' (mkThread (of_proxy t) ph) k p' -> inv m'.
Proof.
  intros Hi Ht Hk Hp Hs Hok. pose proof Hs as []. pose proof Hi as [].
  assert (forall k' q, heap m' !! k' = Some q -> exists q0, heap m !! k' = Some q0 /\ Seq q = Seq q0 /\ ProxyName q = ProxyName q0) as Hheap.
  { intros k' q. rewrite os_heap0. destruct (decide (k' = k)) as [->|]; [intros [= <-]; by exists p|by eauto]. }
  assert (forall k' q0, heap m !! k' = Some q0 -> exists q, heap m' !! k' = Some q /\ Seq q = Seq q0 /\ ProxyName q = ProxyName q0 /\ (stopCh q0 = true -> stopCh q = true)) as Hheap'.
  { intros k' q0 H. rewrite os_heap0. destruct (decide (k' = k)) as [->|]; [|by exists q0]. rewrite Hp in H. injection H as <-. by exists p'. }
  constructor.
  - intros j t' k'. rewrite os_threads0. destruct (decide (i = j)) as [<-|Hij].
    + rewrite lookup_insert_eq. intros [= <-]. cbn [at_phase]. rewrite os_peer0. intros [= <-]. by exists p'.
    + rewrite lookup_insert_ne by done. intros Ht' Hk'. destruct (i_threads0 _ _ _ Ht' Hk') as [q Hq]. exists q.
      apply (peerOk_frame m); [|done]. apply (ownStep_frame _ _ _ _ _ _ _ _ _ Hs). intros ->. by apply Hij, (i_owner0 i j t t' k).
  - intros j j' t1 t2 k'. rewrite os_threads0. intros H1 H2 H3 H4.
    assert (forall x tx, <[i := mkThread (of_proxy t) ph]> (threads m) !! x = Some tx -> peerOf (at_phase tx) = Some k' ->
      exists ty, threads m !! x = Some ty /\ peerOf (at_phase ty) = Some k') as Hold.
    { intros x tx. destruct (decide (i = x)) as [<-|]; [|rewrite lookup_insert_ne by done; by eauto].
      rewrite lookup_insert_eq. intros [= <-]. cbn [at_phase]. rewrite os_peer0. intros [= <-]. by exists t. }
    destruct (Hold _ _ H1 H3) as (y1 & Y1 & Z1), (Hold _ _ H2 H4) as (y2 & Y2 & Z2). by apply (i_owner0 j j' y1 y2 k').
  - intros k' q Hq Hc. rewrite os_count0 in *. destruct (Hheap _ _ Hq) as (q0 & H0 & -> & _). by apply (i_heap0 k').
  - intros k1 k2 q1 q2 H1 H2 Hc Hsq. rewrite os_count0 in Hc. destruct (Hheap _ _ H1) as (r1 & R1 & E1 & _), (Hheap _ _ H2) as (r2 & R2 & E2 & _).
    apply (i_seq0 k1 k2 r1 r2); [done..|congruence].
  - intros s k' Hs'. apply os_peers0 in Hs'. destruct (i_peers0 _ _ Hs') as (q0 & H0 & E). destruct (Hheap' _ _ H0) as (q & Hq & E1 & _).
    exists q. split; [done|congruence].
  - intros n k' Hn. apply os_proxies0 in Hn. destruct (i_proxies0 _ _ Hn) as (q0 & H0 & E). destruct (Hheap' _ _ H0) as (q & Hq & _ & E1 & _).
    exists q. split; [done|congruence].
  - intros n k' q Hc Hn Hq. rewrite os_count0 in Hc. pose proof (proj1 (os_proxies0 n k') Hn) as Hn0. destruct (Hheap _ _ Hq) as (q0 & H0 & E & _).
    pose proof (i_both0 n k' q0 Hc Hn0 H0) as Hb. rewrite E. destruct (decide (k' = k)) as [->|Hne].
    + rewrite Hp in H0. injection H0 as <-. by apply (os_both0 n).
    + by apply os_peers0.
  - intros k' Hk'. rewrite os_stops0 in Hk'. destruct (i_stops0 _ Hk') as (q0 & H0 & E). destruct (Hheap' _ _ H0) as (q & Hq & _ & _ & Hst). eauto.
  - intros k' Hk'. unfold pending in Hk'. rewrite os_stops0 in Hk'. destruct (i_pending0 k' Hk') as [q0 H0]. destruct (Hheap' _ _ H0) as (q & Hq & _). eauto.
  - by rewrite os_enabled0.
  - intros k' n Hkn. destruct (decide (k' = k)) as [->|Hne]; [rewrite os_heap0; rewrite decide_True by done; by eauto|].
    rewrite (os_reg0 k' n Hne), (os_nics0 k' n Hne) in Hkn. destruct (i_known0 k' n Hkn) as [q0 H0]. destruct (Hheap' _ _ H0) as (q & Hq & _). eauto.
  - by rewrite os_count0.
Qed.

(** Maps and mesh as before. *)
Lemma inv_move m i t ph k p p' : inv m -> threads m !! i = Some t -> peerOf (at_phase t) = Some k -> heap m !! k = Some p ->
  peerOf ph = Some k -> (forall o, ph <> Over o) ->
  Seq p' = Seq p -> ProxyName p' = ProxyName p -> NodeID p' = NodeID p -> (stopCh p = true -> stopCh p' = true) ->
  (serving ph = true -> serving (at_phase t) = true) ->
  (ended ph = true -> transport p' <> Open /\ leg p' = false) ->
  meshed (mkThread (of_proxy t) ph) = meshed t \/ meshed t = false ->
  (meshed t = true -> meshSender p' = meshSender p /\ linkNIC p' = linkNIC p) ->
  inv (goTo i t ph (setPeer k p' m)).
Proof.
  intros Hi Ht Hk Hp Hph Hov Hsq Hpx Hnd Hst Hsv Hen Hm Hl. destruct (i_threads _ Hi _ _ _ Ht Hk) as [q Hq]. pose proof Hq as [].
  rewrite Hp in po_heap0. injection po_heap0 as <-.
  assert (ownStep m (goTo i t ph (setPeer k p' m)) i t ph k p p') as Hs.
  { constructor; try done; cbn; try by apply (i_mesh _ Hi). intros k'. destruct (decide (k' = k)) as [->|]; [apply lookup_insert_eq|by apply lookup_insert_ne]. }
  apply (inv_own m _ i t ph k p p' Hi Ht Hk Hp Hs). constructor; cbn [at_phase of_proxy].
  - cbn. apply lookup_insert_eq.
  - by rewrite Hpx.
  - intros Hc Hsv' Ha. destruct (po_guard0 Hc (Hsv Hsv') Ha) as [H|[H|(n & H1 & H2)]]; [left; auto|by right; left|right; right; exists n; split; [congruence|done]].
  - done.
  - destruct (meshed (mkThread (of_proxy t) ph)) eqn:E1, (meshed t) eqn:E2; try (destruct Hm; done).
    + destruct (Hl eq_refl) as [-> ->]. done.
    + split; intros n Hn; exfalso; by destruct (po_mesh0 n).
  - intros Hn. apply po_fresh0. congruence.
  - intros o Ho. by apply Hov in Ho.
Qed.

(** ** The mesh side of a peer *)

(** Only the peer [k] and what is registered for it change. *)
Record touches (m m' : P2PManager) (k : nat) (p p' : Peer) : Prop := {
  to_heap : forall k', heap m' !! k' = if decide (k' = k) then Some p' else heap m !! k';
  to_seq : Seq p' = Seq p; to_proxy : ProxyName p' = ProxyName p; to_stop : stopCh p' = stopCh p;
  to_same : peers m' = peers m /\ proxyPeers m' = proxyPeers m /\ linkSeqCounter m' = linkSeqCounter m /\ stops m' = stops m /\
            meshEnabled m' = meshEnabled m /\ threads m' = threads m;
  to_reg : forall k' n, k' <> k -> (k', n) ∈ registered m' <-> (k', n) ∈ registered m;
  to_nics : forall k' n, k' <> k -> (k', n) ∈ nics m' <-> (k', n) ∈ nics m;
  to_mesh : meshEnabled m = false -> registered m' = registered m /\ nics m' = nics m
}.

Lemma touches_trans m1 m2 m3 k p1 p2 p3 : touches m1 m2 k p1 p2 -> touches m2 m3 k p2 p3 -> touches m1 m3 k p1 p3.
Proof.
  intros [A1 A2 A3 A4 (A5 & A6 & A7 & A8 & A9 & A10) A11 A12 A13] [B1 B2 B3 B4 (B5 & B6 & B7 & B8 & B9 & B10) B11 B12 B13].
  constructor; try congruence.
  - intros k'. rewrite B1, A1. by destruct (decide (k' = k)).
  - split_and!; congruence.
  - intros k' n Hk. by rewrite B11, A11.
  - intros k' n Hk. by rewrite B12, A12.
  - intros H. destruct (A13 H) as [<- <-]. apply B13. congruence.
Qed.

Lemma touches_set m k p p' : heap m !! k = Some p -> Seq p' = Seq p -> ProxyName p' = ProxyName p -> stopCh p' = stopCh p ->
  touches m (setPeer k p' m) k p p'.
Proof.
  intros Hp H1 H2 H3. constructor; try done. intros k'. cbn. destruct (decide (k' = k)) as [->|]; [apply lookup_insert_eq|by apply lookup_insert_ne].
Qed.

Lemma touches_upd m k p f : heap m !! k = Some p -> Seq (f p) = Seq p -> ProxyName (f p) = ProxyName p -> stopCh (f p) = stopCh p ->
  touches m (updPeer k f m) k p (f p).
Proof. intros Hp H1 H2 H3. unfold updPeer. rewrite Hp. by apply touches_set. Qed.

Lemma touches_here m m' k p p' : touches m m' k p p' -> heap m' !! k = Some p'.
Proof. intros []. rewrite to_heap0. by rewrite decide_True. Qed.

(** What is registered for [k] is what the peer knows. *)
Definition meshKnown (m : P2PManager) (k : nat) (p : Peer) : Prop :=
  (forall n, (k, n) ∈ registered m -> meshSender p = Some n) /\ (forall n, (k, n) ∈ nics m -> linkNIC p = Some n).

Lemma touches_mesh m k p reg ns : heap m !! k = Some p -> meshEnabled m = true ->
  (forall k' n, k' <> k -> (k', n) ∈ reg <-> (k', n) ∈ registered m) -> (forall k' n, k' <> k -> (k', n) ∈ ns <-> (k', n) ∈ nics m) ->
  touches m (setMesh reg ns m) k p p.
Proof.
  intros Hp He Hr Hn. constructor; try done; [|by rewrite He]. intros k'. cbn. by destruct (decide (k' = k)) as [->|].
Qed.

Lemma dropSender_touches m k p : inv m -> heap m !! k = Some p -> meshKnown m k p ->
  touches m (dropSender k m) k p p /\ (forall n, ~ ((k, n) ∈ registered (dropSender k m))) /\ nics (dropSender k m) = nics m.
Proof.
  intros Hi Hp [Hr _]. unfold dropSender. rewrite Hp.
  assert (touches m m k p p) as Hid by (constructor; try done; intros k'; by destruct (decide (k' = k)) as [->|]).
  destruct (meshSender p) as [n|] eqn:Es; [|split_and!; [done|intros n Hn; by apply Hr in Hn|done]].
  destruct (meshEnabled m) eqn:Em; [|split_and!; [done|intros n' Hn; destruct (i_mesh _ Hi Em) as [-> _] in Hn; set_solver|done]].
  split_and!; [apply touches_mesh; [done..|set_solver|done]|cbn; intros n' Hn|done].
  apply elem_of_difference in Hn as [H1 H2]. apply Hr in H1. injection H1 as <-. set_solver.
Qed.

Lemma dropNIC_touches m k p : heap m !! k = Some p -> (meshEnabled m = false -> nics m = ∅) -> (forall n, (k, n) ∈ nics m -> linkNIC p = Some n) ->
  exists p', touches m (dropNIC k m) k p p' /\ (forall n, ~ ((k, n) ∈ nics (dropNIC k m))) /\ registered (dropNIC k m) = registered m /\
    p' = setLink (meshSender p) (linkNIC p') p.
Proof.
  intros Hp He Hn. unfold dropNIC. rewrite Hp.
  assert (touches m m k p p) as Hid by (constructor; try done; intros k'; by destruct (decide (k' = k)) as [->|]).
  assert (p = setLink (meshSender p) (linkNIC p) p) as Hself by (by destruct p).
  destruct (linkNIC p) as [n|] eqn:En; [|exists p; rewrite En; split_and!; [done|intros n Hin; by apply Hn in Hin|done|done]].
  destruct (meshEnabled m) eqn:Em; [|exists p; rewrite En; split_and!; [done|intros n' Hin; rewrite He in Hin by done; set_solver|done|done]].
  exists (setLink (meshSender p) None p). split_and!; [|cbn; intros n' Hin|done|done].
  - eapply touches_trans; [apply (touches_mesh m k p (registered m) (nics m ∖ {[(k, n)]})); [done..|set_solver]|]. by apply touches_set.
  - apply elem_of_difference in Hin as [H1 H2]. apply Hn in H1. injection H1 as <-. set_solver.
Qed.

Lemma drop_touches m k p : inv m -> heap m !! k = Some p -> meshKnown m k p ->
  exists p', touches m (dropNIC k (dropSender k m)) k p p' /\ unmeshed (dropNIC k (dropSender k m)) k /\ p' = setLink (meshSender p) (linkNIC p') p.
Proof.
  intros Hi Hp Hk. destruct (dropSender_touches m k p Hi Hp Hk) as (T1 & U1 & E1).
  assert (meshEnabled (dropSender k m) = meshEnabled m) as Ee by (by destruct T1 as [_ _ _ _ (_ & _ & _ & _ & ? & _) _ _ _]).
  destruct (dropNIC_touches (dropSender k m) k p) as (p' & T2 & U2 & E2 & E3).
  - by apply (touches_here _ _ _ _ _ T1).
  - intros H. rewrite E1. apply (i_mesh _ Hi). congruence.
  - rewrite E1. apply Hk.
  - exists p'. split_and!; [by eapply touches_trans| |done]. intros n. split; [by rewrite E2|done].
Qed.

Lemma registerPeer_touches m k p nodeID info nicMade : heap m !! k = Some p -> unmeshed m k ->
  let m' := registerPeerWithMesh k nodeID info nicMade m in
  exists p', touches m m' k p p' /\ meshKnown m' k p' /\ p' = setLink (meshSender p') (linkNIC p') p.
Proof.
  intros Hp Hu. unfold registerPeerWithMesh. rewrite Hp.
  assert (touches m m k p p) as Hid by (constructor; try done; intros k'; by destruct (decide (k' = k)) as [->|]).
  destruct (meshEnabled m) eqn:Em; cbn [negb].
  2: { exists p. split_and!; [done| |by destruct p]. split; intros n Hn; by destruct (Hu n). }
  set (p1 := setLink (Some nodeID) (linkNIC p) p). set (m1 := setMesh _ _ (setPeer k p1 m)).
  assert (touches m m1 k p p1) as T1.
  { eapply touches_trans; [by apply (touches_set m k p p1)|]. apply touches_mesh; [apply lookup_insert_eq|done|cbn; set_solver|done]. }
  assert (forall n, (k, n) ∈ registered m1 -> n = nodeID) as R1.
  { cbn. intros n [E|Hn]%elem_of_union; [set_solver|]. by destruct (Hu n). }
  destruct (bool_decide _).
  - exists p1. split_and!; [done| |done]. split; [intros n Hn; apply R1 in Hn; by subst|intros n Hn; by destruct (Hu n)].
  - assert (heap m1 !! k = Some p1) as H1 by (apply lookup_insert_eq). destruct nicMade.
    + exists (setLink (Some nodeID) (Some nodeID) p). split_and!; [| |done].
      * eapply touches_trans; [exact T1|]. eapply touches_trans; [apply (touches_mesh m1 k p1 (registered m1) ({[(k, nodeID)]} ∪ nics m1)); [done..|set_solver]|].
        by apply touches_set.
      * split; [intros n Hn; apply R1 in Hn; by subst|]. cbn. intros n [E|Hn]%elem_of_union; [set_solver|by destruct (Hu n)].
    + exists (setLink (Some nodeID) None p). split_and!; [| |done].
      * eapply touches_trans; [exact T1|]. by apply touches_set.
      * split; [intros n Hn; apply R1 in Hn; by subst|]. cbn. intros n Hn. by destruct (Hu n).
Qed.

Lemma unmeshed_same m m' k : registered m' = registered m -> nics m' = nics m -> unmeshed m k -> unmeshed m' k.
Proof. intros E1 E2 H n. rewrite E1, E2. apply H. Qed.

Lemma upd_sets m k f : registered (updPeer k f m) = registered m /\ nics (updPeer k f m) = nics m.
Proof. unfold updPeer. by destruct (heap m !! k). Qed.

(** A quiet change of the peer keeps the mesh side. *)
Lemma upd_known m k p f : heap m !! k = Some p -> meshKnown m k p -> meshSender (f p) = meshSender p -> linkNIC (f p) = linkNIC p ->
  meshKnown (updPeer k f m) k (f p).
Proof. intros Hp [H1 H2] E1 E2. destruct (upd_sets m k f) as [R1 R2]. split; intros n; rewrite ?R1, ?R2, ?E1, ?E2; auto. Qed.

Lemma handleGossip_touches m k p info nicMade : inv m -> heap m !! k = Some p -> meshKnown m k p -> (NodeID p = ""%string -> unmeshed m k) ->
  let m' := handleGossip k info nicMade m in
  exists p', touches m m' k p p' /\ meshKnown m' k p' /\ (NodeID p' = ""%string -> unmeshed m' k).
Proof.
  intros Hi Hp Hk Hf. unfold handleGossip. rewrite Hp.
  assert (exists p', touches m (updPeer k closeTransport m) k p p' /\ meshKnown (updPeer k closeTransport m) k p' /\
            (NodeID p' = ""%string -> unmeshed (updPeer k closeTransport m) k)) as Hclose.
  { exists (closeTransport p). split_and!; [by apply touches_upd|by apply upd_known|].
    intros Hn. destruct (upd_sets m k closeTransport). apply (unmeshed_same m); [done..|]. by apply Hf. }
  destruct (bool_decide_reflect (NodeID p = ""%string)) as [Hn|Hn].
  - unfold establishPeerFromGossip. destruct (negb _); [done|]. set (nodeID := extractNodeIDFromGossip info).
    destruct (bool_decide_reflect (nodeID = ""%string)) as [|Hne]; [done|].
    set (p1 := setIdentity nodeID (gSeq info) helloed p). set (m1 := updPeer k _ m).
    assert (touches m m1 k p p1) as T1 by (by apply touches_upd). pose proof (touches_here _ _ _ _ _ T1) as H1.
    assert (unmeshed m1 k) as U1 by (destruct (upd_sets m k (setIdentity nodeID (gSeq info) helloed)); apply (unmeshed_same m); auto).
    destruct (registerPeer_touches m1 k p1 nodeID info nicMade H1 U1) as (p2 & T2 & K2 & E2).
    pose proof (touches_here _ _ _ _ _ T2) as H2. set (m2 := registerPeerWithMesh _ _ _ _ m1) in *.
    exists (SetStatus upToDate p2). split_and!.
    + eapply touches_trans; [exact T1|]. eapply touches_trans; [exact T2|]. by apply touches_upd.
    + by apply upd_known.
    + rewrite E2. cbn. done.
  - destruct (negb _); [done|]. set (nodeID := extractNodeIDFromGossip info).
    destruct (bool_decide_reflect (nodeID <> ""%string /\ nodeID <> NodeID p)) as [[Hne _]|_].
    2: { exists p. split_and!; [|done|done]. constructor; try done. intros k'. by destruct (decide (k' = k)) as [->|]. }
    unfold reregisterPeer.
    assert (exists p1, touches m (if meshEnabled m then dropNIC k (dropSender k m) else m) k p p1 /\
      unmeshed (if meshEnabled m then dropNIC k (dropSender k m) else m) k) as (p1 & T1 & U1).
    { destruct (meshEnabled m) eqn:Em.
      - destruct (drop_touches m k p Hi Hp Hk) as (p1 & T1 & U1 & _). eauto.
      - exists p. split; [constructor; try done; intros k'; by destruct (decide (k' = k)) as [->|]|].
        destruct (i_mesh _ Hi Em) as [R1 R2]. intros n. rewrite R1, R2. set_solver. }
    pose proof (touches_here _ _ _ _ _ T1) as H1. set (m1 := if meshEnabled m then _ else m) in *.
    set (f := fun p => setIdentity nodeID (RemoteSeq p) (Status p) p). assert (touches m1 (updPeer k f m1) k p1 (f p1)) as T2 by (by apply touches_upd).
    pose proof (touches_here _ _ _ _ _ T2) as H2.
    assert (unmeshed (updPeer k f m1) k) as U2 by (destruct (upd_sets m1 k f); by apply (unmeshed_same m1)).
    destruct (registerPeer_touches _ k (f p1) nodeID info nicMade H2 U2) as (p3 & T3 & K3 & E3).
    exists p3. split_and!; [|done|rewrite E3; cbn; done]. eapply touches_trans; [exact T1|]. eapply touches_trans; [exact T2|exact T3].
Qed.

(** A step that touches the peer and keeps the goroutine or moves it on. *)
Lemma inv_touch m m' i t ph k p p' : inv m -> threads m !! i = Some t -> peerOf (at_phase t) = Some k -> heap m !! k = Some p ->
  touches m m' k p p' -> peerOf ph = Some k -> (forall o, ph <> Over o) ->
  (serving ph = true -> serving (at_phase t) = true) -> (ended ph = true -> transport p' <> Open /\ leg p' = false) ->
  (if meshed (mkThread (of_proxy t) ph) then meshKnown m' k p' else unmeshed m' k) -> (NodeID p' = ""%string -> unmeshed m' k) ->
  inv (goTo i t ph m').
Proof.
  intros Hi Ht Hk Hp Hto Hph Hov Hsv Hen Hm Hf. destruct (i_threads _ Hi _ _ _ Ht Hk) as [q Hq]. pose proof Hq as [].
  rewrite Hp in po_heap0. injection po_heap0 as <-. pose proof Hto as [T1 T2 T3 T4 (T5 & T6 & T7 & T8 & T9 & T10) T11 T12 T13].
  assert (ownStep m (goTo i t ph m') i t ph k p p') as Hs.
  { constructor; cbn; try done; try congruence.
    - intros He. destruct (T13 He) as [-> ->]. by apply (i_mesh _ Hi).
    - intros. rewrite T5. done.
    - intros. rewrite T6. done. }
  apply (inv_own m _ i t ph k p p' Hi Ht Hk Hp Hs). constructor; cbn [at_phase of_proxy].
  - by apply (touches_here m m' k p p').
  - by rewrite T3.
  - cbn. rewrite T7. intros Hc Hsv' Ha. unfold guarded, pending. cbn. rewrite T3, T4, T6, T8. by apply po_guard0; [|apply Hsv|].
  - done.
  - done.
  - done.
  - intros o Ho. by apply Hov in Ho.
Qed.

(** ** Goroutines without a peer *)

Definition sameState (m m' : P2PManager) : Prop :=
  heap m' = heap m /\ peers m' = peers m /\ proxyPeers m' = proxyPeers m /\ linkSeqCounter m' = linkSeqCounter m /\
  stops m' = stops m /\ meshEnabled m' = meshEnabled m /\ registered m' = registered m /\ nics m' = nics m.

Lemma peerOk_same m m' t k p : sameState m m' -> peerOk m t k p -> peerOk m' t k p.
Proof.
  intros (E1 & E2 & E3 & E4 & E5 & E6 & E7 & E8). apply peerOk_frame. constructor; try (intros; congruence).
  - lia.
  - unfold pending. by rewrite E5.
  - intros n _ H. left. congruence.
  - unfold unmapped. by rewrite E2, E3.
Qed.

Lemma inv_idle m m' i t' : inv m -> sameState m m' -> threads m' = <[i := t']> (threads m) -> peerOf (at_phase t') = None ->
  (forall t, threads m !! i = Some t -> peerOf (at_phase t) = None) -> inv m'.
Proof.
  intros Hi Hs Hth Hn Ho. pose proof Hs as (E1 & E2 & E3 & E4 & E5 & E6 & E7 & E8). pose proof Hi as [].
  assert (forall j t k, threads m' !! j = Some t -> peerOf (at_phase t) = Some k -> threads m !! j = Some t) as Hold.
  { intros j t k. rewrite Hth. destruct (decide (i = j)) as [<-|]; [|by rewrite lookup_insert_ne].
    rewrite lookup_insert_eq. intros [= <-]. by rewrite Hn. }
  constructor.
  - intros j t k H1 H2. destruct (i_threads0 j t k (Hold _ _ _ H1 H2) H2) as [p Hp]. exists p. by apply (peerOk_same m).
  - intros j j' t t2 k H1 H2 H3 H4. apply (i_owner0 j j' t t2 k); [by eapply Hold..|done|done].
  - by rewrite E1, E4.
  - by rewrite E1, E4.
  - by rewrite E1, E2.
  - by rewrite E1, E3.
  - by rewrite E1, E2, E3, E4.
  - by rewrite E1, E5.
  - unfold pending. by rewrite E1, E5.
  - by rewrite E6, E7, E8.
  - by rewrite E1, E7, E8.
  - by rewrite E4.
Qed.

Lemma freshThread_new m : threads m !! freshThread m = None.
Proof. unfold freshThread. apply (not_elem_of_dom (D := gset nat)), is_fresh. Qed.

Lemma freshPeer_new m : heap m !! freshPeer m = None.
Proof. unfold freshPeer. apply (not_elem_of_dom (D := gset nat)), is_fresh. Qed.

(** ** A new peer *)

(** Goroutine [i] makes the peer [p] at a fresh key and enters it in the maps or, when
    [entered] is false, stops it at once. *)
Lemma inv_newPeer m m' i t ph (entered : bool) p : let k := freshPeer m in
  inv m -> threads m !! i = Some t -> peerOf (at_phase t) = None ->
  heap m' = <[k := p]> (heap m) -> threads m' = <[i := mkThread (of_proxy t) ph]> (threads m) ->
  linkSeqCounter m' = linkSeqCounter m + 1 -> Seq p = wrap 16 (linkSeqCounter m + 1) ->
  ProxyName p = option_map Name (of_proxy t) -> meshSender p = None -> linkNIC p = None ->
  stops m' = stops m -> meshEnabled m' = meshEnabled m -> registered m' = registered m -> nics m' = nics m ->
  peers m' = (if entered then <[Seq p := k]> (peers m) else peers m) ->
  proxyPeers m' = (if entered then match ProxyName p with Some n => <[n := k]> (proxyPeers m) | None => proxyPeers m end else proxyPeers m) ->
  (forall n, entered = true -> ProxyName p = Some n -> proxyPeers m !! n = None) ->
  peerOf ph = Some k -> (ended ph = true -> transport p <> Open /\ leg p = false) -> (entered = false -> serving ph = false) ->
  (forall o, ph = Over o -> entered = false) -> inv m'.
Proof.
  intros k Hi Ht Hn Hh Hth Hc Hsq Hpx Hms Hln E1 E2 E3 E4 Hps Hpps Hfree Hph Hen Hsv Hov.
  pose proof Hi as []. pose proof (freshPeer_new m) as Hk. fold k in Hk.
  assert (unmeshed m k) as Hum.
  { intros n. split; intros Hin; [destruct (i_known0 k n (or_introl Hin)) as [? E]|destruct (i_known0 k n (or_intror Hin)) as [? E]]; congruence. }
  assert (forall s, peers m !! s <> Some k) as Hp1 by (intros s E; destruct (i_peers0 _ _ E) as (? & ? & _); congruence).
  assert (forall n, proxyPeers m !! n <> Some k) as Hp2 by (intros n E; destruct (i_proxies0 _ _ E) as (? & ? & _); congruence).
  assert (forall k' q, heap m !! k' = Some q -> k' <> k) as Hne by (intros k' q H ->; congruence).
  assert (linkSeqCounter m' < 2 ^ 16 -> Seq p = linkSeqCounter m + 1) as Hseq by (intros; rewrite Hsq; apply wrap_small; lia).
  assert (forall k', k' <> k -> frame m m' k') as Hfr.
  { intros k' Hk'. constructor.
    - rewrite Hh. by apply lookup_insert_ne.
    - lia.
    - by rewrite E3.
    - by rewrite E4.
    - unfold pending. by rewrite E1.
    - intros n _ H. left. rewrite Hpps. destruct entered; [|done]. destruct (ProxyName p) as [n'|]; [|done].
      rewrite lookup_insert_ne; [done|]. intros <-. rewrite (Hfree n' eq_refl eq_refl) in H. done.
    - intros [U1 U2]. split.
      + intros s. rewrite Hps. destruct entered; [|done]. destruct (decide (Seq p = s)) as [<-|]; [rewrite lookup_insert_eq; congruence|rewrite lookup_insert_ne; auto].
      + intros n. rewrite Hpps. destruct entered; [|done]. destruct (ProxyName p) as [n'|]; [|done].
        destruct (decide (n' = n)) as [<-|]; [rewrite lookup_insert_eq; congruence|rewrite lookup_insert_ne; auto]. }
  assert (linkSeqCounter m' < 2 ^ 16 -> forall s k', peers m !! s = Some k' -> s <> Seq p) as Hnew.
  { intros Hl s k' H ->. destruct (i_peers0 _ _ H) as (q & Hq & E). pose proof (i_heap0 _ _ Hq ltac:(lia)). rewrite Hseq in E by done. lia. }
  constructor.
  - intros j t' k'. rewrite Hth. destruct (decide (i = j)) as [<-|Hij].
    + rewrite lookup_insert_eq. intros [= <-]. cbn [at_phase]. rewrite Hph. intros [= <-]. exists p. constructor; cbn [at_phase of_proxy]; try done.
      * rewrite Hh. apply lookup_insert_eq.
      * intros _ Hs [px Ha]. rewrite Ha in Hpx. right; right. exists (Name px). split; [done|]. rewrite Hpps. destruct entered; [|by rewrite Hsv in Hs].
        rewrite Hpx. cbn. apply lookup_insert_eq.
      * destruct (meshed _); [split; intros n; rewrite ?E3, ?E4; intros Hin; by destruct (Hum n)|by apply (unmeshed_same m)].
      * intros _. by apply (unmeshed_same m).
      * intros o Ho. unfold unmapped. rewrite Hps, Hpps, (Hov o Ho). done.
    + rewrite lookup_insert_ne by done. intros Ht' Hk'. destruct (i_threads0 _ _ _ Ht' Hk') as [q Hq]. exists q.
      apply (peerOk_frame m); [|done]. apply Hfr. apply (Hne k' q). apply Hq.
  - intros j j' t1 t2 k'. rewrite Hth. intros H1 H2 H3 H4.
    assert (forall x tx, <[i := mkThread (of_proxy t) ph]> (threads m) !! x = Some tx -> peerOf (at_phase tx) = Some k' ->
      x = i /\ k' = k \/ x <> i /\ threads m !! x = Some tx /\ k' <> k) as Hold.
    { intros x tx. destruct (decide (i = x)) as [<-|].
      - rewrite lookup_insert_eq. intros [= <-]. cbn [at_phase]. rewrite Hph. intros [= <-]. by left.
      - rewrite lookup_insert_ne by done. intros Hx Hx'. right. destruct (i_threads0 _ _ _ Hx Hx') as [q Hq]. split_and!; [done|done|]. apply (Hne k' q), Hq. }
    destruct (Hold _ _ H1 H3) as [[-> ->]|(N1 & T1 & K1)], (Hold _ _ H2 H4) as [[-> ?]|(N2 & T2 & K2)]; try done. by apply (i_owner0 j j' t1 t2 k').
  - intros k' q Hq Hl. rewrite Hh in Hq. apply lookup_insert_Some in Hq as [[<- <-]|[_ Hq]]; [rewrite Hseq by done; lia|].
    pose proof (i_heap0 _ _ Hq ltac:(lia)). lia.
  - intros k1 k2 q1 q2 H1 H2 Hl Hs. rewrite Hh in H1, H2.
    apply lookup_insert_Some in H1 as [[<- <-]|[_ H1]], H2 as [[<- <-]|[_ H2]]; try done.
    + pose proof (i_heap0 _ _ H2 ltac:(lia)). rewrite Hseq in Hs by done. lia.
    + pose proof (i_heap0 _ _ H1 ltac:(lia)). rewrite Hseq in Hs by done. lia.
    + apply (i_seq0 k1 k2 q1 q2); [done..|lia|done].
  - intros s k' H. rewrite Hps in H. assert (peers m !! s = Some k' \/ s = Seq p /\ k' = k) as [H'|[-> ->]].
    { destruct entered; [|by left]. apply lookup_insert_Some in H as [[<- <-]|[_ H]]; [by right|by left]. }
    + destruct (i_peers0 _ _ H') as (q & Hq & E). exists q. split; [|done]. rewrite Hh, lookup_insert_ne; [done|]. intros <-. congruence.
    + exists p. split; [rewrite Hh; apply lookup_insert_eq|done].
  - intros n k' H. rewrite Hpps in H. assert (proxyPeers m !! n = Some k' \/ ProxyName p = Some n /\ k' = k) as [H'|[E ->]].
    { destruct entered; [|by left]. destruct (ProxyName p) as [n'|]; [|by left]. apply lookup_insert_Some in H as [[<- <-]|[_ H]]; [by right|by left]. }
    + destruct (i_proxies0 _ _ H') as (q & Hq & E). exists q. split; [|done]. rewrite Hh, lookup_insert_ne; [done|]. intros <-. congruence.
    + exists p. split; [rewrite Hh; apply lookup_insert_eq|done].
  - intros n k' q Hl H Hq. rewrite Hh in Hq. rewrite Hpps in H. rewrite Hps.
    destruct (decide (k' = k)) as [->|Hk'].
    + rewrite lookup_insert_eq in Hq. injection Hq as <-. destruct entered; [apply lookup_insert_eq|by apply Hp2 in H].
    + rewrite lookup_insert_ne in Hq by done.
      assert (proxyPeers m !! n = Some k') as H'.
      { destruct entered; [|done]. destruct (ProxyName p) as [n'|]; [|done]. by apply lookup_insert_Some in H as [[<- E]|[_ H]]. }
      pose proof (i_both0 n k' q ltac:(lia) H' Hq) as Hb. destruct entered; [|done]. rewrite lookup_insert_ne; [done|]. intros E. by apply (Hnew Hl _ _ Hb).
  - intros k' Hk'. rewrite E1 in Hk'. destruct (i_stops0 _ Hk') as (q & Hq & E). exists q. split; [|done]. rewrite Hh, lookup_insert_ne; [done|]. intros <-. congruence.
  - intros k' Hk'. unfold pending in Hk'. rewrite E1 in Hk'. destruct (i_pending0 k' Hk') as [q Hq]. exists q. rewrite Hh, lookup_insert_ne; [done|]. intros <-. congruence.
  - by rewrite E2, E3, E4.
  - rewrite E3, E4. intros k' n H. destruct (i_known0 k' n H) as [q Hq]. exists q. rewrite Hh, lookup_insert_ne; [done|]. intros <-. congruence.
  - lia.
Qed.

(** ** Stops *)

(** A change of one peer that any goroutine may see: its status, its stop marks, a
    transport that closes. *)
Lemma inv_poke m k p p' : inv m -> heap m !! k = Some p -> Seq p' = Seq p -> ProxyName p' = ProxyName p -> NodeID p' = NodeID p ->
  meshSender p' = meshSender p -> linkNIC p' = linkNIC p -> (stopCh p = true -> stopCh p' = true) ->
  (transport p <> Open -> transport p' <> Open) -> (leg p = false -> leg p' = false) -> inv (setPeer k p' m).
Proof.
  intros Hi Hp H1 H2 H3 H4 H5 H6 H7 H8. pose proof Hi as [].
  assert (forall k' q, heap (setPeer k p' m) !! k' = Some q -> exists q0, heap m !! k' = Some q0 /\ Seq q = Seq q0 /\ ProxyName q = ProxyName q0) as Hold.
  { cbn. intros k' q [[<- <-]|[_ H]]%lookup_insert_Some; eauto. }
  assert (forall k' q0, heap m !! k' = Some q0 -> exists q, heap (setPeer k p' m) !! k' = Some q /\ Seq q = Seq q0 /\ ProxyName q = ProxyName q0 /\ (stopCh q0 = true -> stopCh q = true)) as Hnew.
  { cbn. intros k' q0 H. destruct (decide (k' = k)) as [->|]; [|exists q0; by rewrite lookup_insert_ne].
    rewrite lookup_insert_eq. rewrite Hp in H. injection H as <-. by exists p'. }
  constructor; try done.
  - intros i t k' Ht Hk. destruct (i_threads0 i t k' Ht Hk) as [q Hq]. destruct (decide (k' = k)) as [->|Hne].
    + destruct Hq. rewrite Hp in po_heap0. injection po_heap0 as <-. exists p'. constructor; try done.
      * cbn. apply lookup_insert_eq.
      * congruence.
      * intros Hc Hs Ha. destruct (po_guard0 Hc Hs Ha) as [H|[H|(n & Hn & H)]]; [left; auto|by right; left|right; right; exists n; split; [congruence|done]].
      * intros He. destruct (po_closed0 He). auto.
      * rewrite H4, H5. exact po_mesh0.
      * rewrite H3. exact po_fresh0.
    + exists q. apply (peerOk_frame m); [|done]. constructor; try done; [|by left]. cbn. by apply lookup_insert_ne.
  - intros k' q Hq Hc. destruct (Hold _ _ Hq) as (q0 & E & -> & _). by apply (i_heap0 k' q0).
  - intros k1 k2 q1 q2 Q1 Q2 Hc Hs. destruct (Hold _ _ Q1) as (r1 & R1 & E1 & _), (Hold _ _ Q2) as (r2 & R2 & E2 & _). apply (i_seq0 k1 k2 r1 r2); [done..|congruence].
  - intros s k' Hs. destruct (i_peers0 _ _ Hs) as (q0 & E & E'). destruct (Hnew _ _ E) as (q & Q & Q1 & _). exists q. split; [done|congruence].
  - intros n k' Hs. destruct (i_proxies0 _ _ Hs) as (q0 & E & E'). destruct (Hnew _ _ E) as (q & Q & _ & Q1 & _). exists q. split; [done|congruence].
  - intros n k' q Hc Hn Hq. destruct (Hold _ _ Hq) as (q0 & E & -> & _). by apply (i_both0 n k' q0).
  - intros k' Hk. destruct (i_stops0 _ Hk) as (q0 & E & E'). destruct (Hnew _ _ E) as (q & Q & _ & _ & Q1). eauto.
  - intros k' Hk. destruct (i_pending0 _ Hk) as (q0 & E). destruct (Hnew _ _ E) as (q & Q & _). eauto.
  - intros k' n Hk. destruct (i_known0 _ _ Hk) as (q0 & E). destruct (Hnew _ _ E) as (q & Q & _). eauto.
Qed.

Lemma stopPeer1_poke m k p : inv m -> heap m !! k = Some p -> inv (setPeer k (stopPeer1 p) m).
Proof. intros Hi Hp. apply (inv_poke m k p); try done; unfold stopPeer1; by destruct (stopCh p) eqn:E; rewrite ?E. Qed.

Lemma close_poke m k p : inv m -> heap m !! k = Some p -> inv (setPeer k (closeTransport p) m).
Proof. intros Hi Hp. apply (inv_poke m k p); try done. cbn. by destruct (transport p). Qed.

Lemma stopPeer2_poke m k p : inv m -> heap m !! k = Some p -> inv (setPeer k (stopPeer2 p) m).
Proof. intros Hi Hp. apply (inv_poke m k p); try done. cbn. by destruct (transport p). Qed.

(** Entries leave the maps, peers are listed for stopping, a stop that has closed the
    channel leaves the list. *)
Lemma inv_stops m ps pps l b : inv m ->
  (forall s k, ps !! s = Some k -> peers m !! s = Some k) -> (forall n k, pps !! n = Some k -> proxyPeers m !! n = Some k) ->
  (forall n k p, linkSeqCounter m < 2 ^ 16 -> pps !! n = Some k -> heap m !! k = Some p -> ps !! Seq p = Some k) ->
  (forall n k, linkSeqCounter m < 2 ^ 16 -> proxyPeers m !! n = Some k -> pps !! n = Some k \/ exists h, mkStopping k h ∈ l) ->
  (forall k h, mkStopping k h ∈ stops m -> (exists h', mkStopping k h' ∈ l) \/ exists p, heap m !! k = Some p /\ stopCh p = true) ->
  (forall k h, mkStopping k h ∈ l -> is_Some (heap m !! k) /\ (h = true -> exists p, heap m !! k = Some p /\ stopCh p = true)) ->
  inv (setStops l b (setMaps ps pps m)).
Proof.
  intros Hi H1 H2 H3 H4 H5 H6. pose proof Hi as []. constructor; try done.
  - intros i t k Ht Hk. destruct (i_threads0 i t k Ht Hk) as [p []]. exists p. constructor; try done.
    + intros Hc Hs Ha. destruct (po_guard0 Hc Hs Ha) as [H|[[h H]|(n & Hn & H)]]; [by left|..].
      * destruct (H5 k h H) as [H'|(q & Hq & Hst)]; [by right; left|left; congruence].
      * destruct (H4 n k Hc H) as [H'|H']; [right; right; by exists n|by right; left].
    + intros o Ho. destruct (po_maps0 o Ho) as [M1 M2]. split; [intros s Hs; by apply (M1 s), H1|intros n Hn; by apply (M2 n), H2].
  - intros s k Hs. by apply i_peers0, H1.
  - intros n k Hn. by apply i_proxies0, H2.
  - intros k Hk. by apply (H6 k true).
  - intros k [h Hh]. by apply (H6 k h).
Qed.

Lemma elem_stops range (l : list stopping) k h : mkStopping k h ∈ map (fun k => mkStopping k false) range ++ l <->
  h = false /\ k ∈ range \/ mkStopping k h ∈ l.
Proof.
  rewrite elem_of_app. apply or_iff_compat_r. rewrite list_elem_of_In, in_map_iff. split.
  - intros (x & [= -> <-] & Hx). split; [done|by apply list_elem_of_In].
  - intros [-> Hk]. exists k. split; [done|by apply list_elem_of_In].
Qed.

Lemma valuesOf_elem (ps : gmap Z nat) range : valuesOf ps range = true -> forall k, k ∈ range <-> exists s, ps !! s = Some k.
Proof.
  intros H%bool_decide_eq_true_1 k. rewrite H, list_elem_of_fmap. split.
  - intros ((s & k') & -> & Hin%elem_of_map_to_list). eauto.
  - intros [s Hs]. exists (s, k). split; [done|by apply elem_of_map_to_list].
Qed.

(** Stops for peers of the map, the maps unchanged or emptied. *)
Lemma inv_stopList m range ps pps b : inv m -> (forall k, k ∈ range -> exists s, peers m !! s = Some k) ->
  ps = peers m /\ pps = proxyPeers m \/ ps = ∅ /\ pps = ∅ /\ (forall s k, peers m !! s = Some k -> k ∈ range) ->
  inv (setStops (map (fun k => mkStopping k false) range ++ stops m) b (setMaps ps pps m)).
Proof.
  intros Hi Hr Hm. pose proof Hi as []. apply inv_stops; [done|..].
  - intros s k. destruct Hm as [[-> _]|(-> & _ & _)]; [done|by rewrite lookup_empty].
  - intros n k. destruct Hm as [[_ ->]|(_ & -> & _)]; [done|by rewrite lookup_empty].
  - intros n k p Hc. destruct Hm as [[-> ->]|(_ & -> & _)]; [by apply i_both0|by rewrite lookup_empty].
  - intros n k Hc Hn. destruct Hm as [[_ ->]|(_ & -> & Hall)]; [by left|]. right. exists false. apply elem_stops. left. split; [done|].
    destruct (i_proxies0 _ _ Hn) as (p & Hp & _). apply (Hall (Seq p)). by apply (i_both0 n k p).
  - intros k h Hh. left. exists h. apply elem_stops. by right.
  - intros k h [[-> Hk]|Hk]%elem_stops.
    + split; [|done]. destruct (Hr k Hk) as [s Hs]. destruct (i_peers0 _ _ Hs) as (p & Hp & _). eauto.
    + split; [apply i_pending0; by exists h|]. intros ->. by apply i_stops0.
Qed.

Lemma inv_byName m name : inv m -> inv (StopPeerByProxyName name m).
Proof.
  intros Hi. pose proof Hi as []. unfold StopPeerByProxyName. destruct (proxyPeers m !! name) as [k|] eqn:En; [|done].
  destruct (i_proxies0 _ _ En) as (p & Hp & Hpn). rewrite Hp. apply inv_stops; [done|..].
  - intros s k'. by intros [_ ?]%lookup_delete_Some.
  - intros n k'. by intros [_ ?]%lookup_delete_Some.
  - intros n k' q Hc [Hne Hn]%lookup_delete_Some Hq. apply lookup_delete_Some. split; [|by apply (i_both0 n k' q)].
    intros E. assert (k = k') as <- by (by apply (i_seq0 k k' p q)). destruct (i_proxies0 _ _ Hn) as (q' & Hq' & Hqn). congruence.
  - intros n k' Hc Hn. destruct (decide (n = name)) as [->|Hne]; [|left; by rewrite lookup_delete_ne].
    right. exists false. rewrite En in Hn. injection Hn as <-. left.
  - intros k' h Hh. left. exists h. by right.
  - intros k' h [[= -> ->]|Hk]%elem_of_cons; [by split; [eauto|]|]. split; [apply i_pending0; by exists h|]. intros ->. by apply i_stops0.
Qed.

Lemma setMaps_id m : setMaps (peers m) (proxyPeers m) m = m.
Proof. by destruct m. Qed.

Lemma inv_stopping m n m' : inv m -> exec m (Stopping n) = Some m' -> inv m'.
Proof.
  intros Hi. pose proof Hi as []. cbn. destruct (stops m !! n) as [[k h]|] eqn:En; [|done].
  assert (pending m k) as Hpk by (exists h; by apply list_elem_of_lookup_2 in En). destruct (i_pending0 k Hpk) as [p Hp].
  assert (forall l, (forall k' h', mkStopping k' h' ∈ stops m -> (exists h'', mkStopping k' h'' ∈ l) \/ exists p, heap m !! k' = Some p /\ stopCh p = true) ->
    (forall k' h', mkStopping k' h' ∈ l -> is_Some (heap m !! k') /\ (h' = true -> exists p, heap m !! k' = Some p /\ stopCh p = true)) ->
    inv (setStops l (mstopped m) m)) as Hst.
  { intros l H1 H2. rewrite <- (setMaps_id m). apply (inv_stops m (peers m) (proxyPeers m) l (mstopped m)); try done. intros n' k' Hc Hn. by left. }
  destruct h; intros [= <-].
  - unfold updPeer. cbn [heap setStops]. rewrite Hp. apply (stopPeer2_poke (setStops (delete n (stops m)) (mstopped m) m)); [|done].
    apply Hst.
    + intros k' h' Hin. apply list_elem_of_lookup in Hin as [j Hj]. destruct (decide (j = n)) as [->|Hjn].
      * rewrite En in Hj. injection Hj as <- <-. right. apply i_stops0. by apply list_elem_of_lookup_2 in En.
      * left. exists h'. destruct (decide (j < n)%nat).
        -- apply (list_elem_of_lookup_2 _ j). by rewrite list_lookup_delete_lt.
        -- apply (list_elem_of_lookup_2 _ (j - 1)). rewrite list_lookup_delete_ge by lia. by replace (S (j - 1)) with j by lia.
    + intros k' h' Hin. apply list_elem_of_lookup in Hin as [j Hj].
      assert (mkStopping k' h' ∈ stops m) as Hin.
      { destruct (decide (j < n)%nat); [rewrite list_lookup_delete_lt in Hj by done|rewrite list_lookup_delete_ge in Hj by lia]; by apply list_elem_of_lookup_2 in Hj. }
      split; [apply i_pending0; by exists h'|]. intros ->. by apply i_stops0.
  - unfold updPeer. cbn [heap setStops]. rewrite Hp.
    assert (inv (setStops (<[n := mkStopping k true]> (stops m)) (mstopped m) (setPeer k (stopPeer1 p) m))) as H; [|done].
    pose proof (stopPeer1_poke m k p Hi Hp) as Hi1. rewrite <- (setMaps_id (setPeer k (stopPeer1 p) m)).
    assert (heap (setPeer k (stopPeer1 p) m) !! k = Some (stopPeer1 p) /\ stopCh (stopPeer1 p) = true) as [Hk1 Hs1].
    { split; [apply lookup_insert_eq|]. unfold stopPeer1. by destruct (stopCh p) eqn:E. }
    apply (inv_stops (setPeer k (stopPeer1 p) m)); try done.
    + intros; by apply (i_both _ Hi1 n0 k0 p0).
    + intros; by left.
    + intros k' h' Hin. left. apply list_elem_of_lookup in Hin as [j Hj]. cbn in Hj. destruct (decide (j = n)) as [->|Hjn].
      * rewrite En in Hj. injection Hj as <- <-. exists true. apply (list_elem_of_lookup_2 _ n). apply list_lookup_insert_eq. by apply lookup_lt_Some in En.
      * exists h'. apply (list_elem_of_lookup_2 _ j). by rewrite list_lookup_insert_ne.
    + intros k' h' Hin. apply list_elem_of_lookup in Hin as [j Hj]. destruct (decide (j = n)) as [->|Hjn].
      * rewrite list_lookup_insert_eq in Hj by (by apply lookup_lt_Some in En). injection Hj as <- <-. split; eauto.
      * rewrite list_lookup_insert_ne in Hj by done. apply list_elem_of_lookup_2 in Hj.
        split; [apply (i_pending _ Hi1); by exists h'|]. intros ->. by apply (i_stops _ Hi1).
Qed.

(** ** Steps of goroutines *)

Lemma setPeer_id m k p : heap m !! k = Some p -> setPeer k p m = m.
Proof. intros H. destruct m; unfold setPeer; cbn in *. by rewrite insert_id. Qed.

Lemma goTo_same i t m : threads m !! i = Some t -> goTo i t (at_phase t) m = m.
Proof. intros H. destruct m, t; unfold goTo, setThread; cbn in *. by rewrite insert_id. Qed.

Lemma inv_goTo m i t ph k p : inv m -> threads m !! i = Some t -> peerOf (at_phase t) = Some k -> heap m !! k = Some p ->
  peerOf ph = Some k -> ended ph = false -> (serving ph = true -> serving (at_phase t) = true) ->
  meshed (mkThread (of_proxy t) ph) = meshed t \/ meshed t = false -> inv (goTo i t ph m).
Proof.
  intros Hi Ht Hk Hp Hph He Hs Hm. rewrite <- (setPeer_id m k p Hp) at 1. apply (inv_move m i t ph k p p); try done; [by intros o ->|by rewrite He].
Qed.

(** The removal from the maps. *)
Lemma unmap_step m i t ph k p : inv m -> threads m !! i = Some t -> peerOf (at_phase t) = Some k -> heap m !! k = Some p ->
  peerOf ph = Some k -> serving ph = false -> (ended ph = true -> transport p <> Open /\ leg p = false) ->
  (if meshed (mkThread (of_proxy t) ph) then meshed t = true else unmeshed m k) -> inv (goTo i t ph (unmapPeer k p m)).
Proof.
  intros Hi Ht Hk Hp Hph Hsv Hen Hm. destruct (i_threads _ Hi _ _ _ Ht Hk) as [q []]. rewrite Hp in po_heap0. injection po_heap0 as <-. pose proof Hi as [].
  unfold unmapPeer. set (ps := if bool_decide _ then _ else _). set (pps := match ProxyName p with Some _ => _ | None => _ end).
  assert (forall s, ps !! s <> Some k) as P1.
  { intros s. subst ps. destruct (bool_decide_reflect (peers m !! Seq p = Some k)) as [E|E].
    - destruct (decide (Seq p = s)) as [<-|]; [by rewrite lookup_delete_eq|]. rewrite lookup_delete_ne by done. intros H. destruct (i_peers0 _ _ H) as (q & Hq & Eq). congruence.
    - intros H. destruct (i_peers0 _ _ H) as (q & Hq & Eq). congruence. }
  assert (forall n, pps !! n <> Some k) as P2.
  { intros n. subst pps. destruct (ProxyName p) as [n'|] eqn:En.
    - destruct (bool_decide_reflect (proxyPeers m !! n' = Some k)) as [E|E].
      + destruct (decide (n' = n)) as [<-|]; [by rewrite lookup_delete_eq|]. rewrite lookup_delete_ne by done. intros H. destruct (i_proxies0 _ _ H) as (q & Hq & Eq). congruence.
      + intros H. destruct (i_proxies0 _ _ H) as (q & Hq & Eq). congruence.
    - intros H. destruct (i_proxies0 _ _ H) as (q & Hq & Eq). congruence. }
  apply (inv_own m _ i t ph k p p Hi Ht Hk Hp).
  - constructor; cbn; try done; [intros k'; by destruct (decide (k' = k)) as [->|]|..].
    + intros s k'. subst ps. destruct (bool_decide_reflect (peers m !! Seq p = Some k)) as [E|]; [|done]. split; [by intros [_ ?]%lookup_delete_Some|].
      intros Hne Hs. rewrite lookup_delete_ne; [done|]. intros <-. congruence.
    + intros n k'. subst pps. destruct (ProxyName p) as [n'|]; [|done]. destruct (bool_decide_reflect (proxyPeers m !! n' = Some k)) as [E|]; [|done].
      split; [by intros [_ ?]%lookup_delete_Some|]. intros Hne Hs. rewrite lookup_delete_ne; [done|]. intros <-. congruence.
    + intros n Hn. by apply P2 in Hn.
  - constructor; cbn [at_phase of_proxy]; try done.
    + by rewrite Hsv.
    + destruct (meshed (mkThread (of_proxy t) ph)); [by rewrite Hm in po_mesh0|done].
Qed.

Lemma inv_same m m' : inv m -> sameState m m' -> threads m' = threads m -> inv m'.
Proof.
  intros Hi Hs Hth. pose proof Hs as (E1 & E2 & E3 & E4 & E5 & E6 & E7 & E8). pose proof Hi as [].
  constructor; rewrite ?Hth, ?E1, ?E2, ?E3, ?E4, ?E5, ?E6, ?E7, ?E8; try done.
  - intros i t k Ht Hk. destruct (i_threads0 i t k Ht Hk) as [p Hp]. exists p. by apply (peerOk_same m).
  - unfold pending. rewrite E5. apply i_pending0.
Qed.

Lemma registerActive_inv m i t px : inv m -> threads m !! i = Some t -> at_phase t = Register -> of_proxy t = Some px -> inv (registerActive i t px m).
Proof.
  intros Hi Ht Hph Hpx. assert (peerOf (at_phase t) = None) as Hn by (by rewrite Hph). unfold registerActive. cbv zeta. cbn [mstopped setCounter proxyPeers].
  set (k := freshPeer m). set (p := newPeer _ _ _ _).
  assert (inv (endSession i t (Some k) (setPeer k (stopPeer2 (stopPeer1 p)) (setCounter (linkSeqCounter m + 1) (udpLegInbound m || IsP2PUDP px) m)))) as Habort.
  { apply (inv_newPeer m _ i t (Over (Some k)) false (stopPeer2 (stopPeer1 p))); try done. cbn. by rewrite Hpx. }
  destruct (mstopped m); [done|]. destruct (proxyPeers m !! Name px) eqn:En; [done|].
  apply (inv_newPeer m _ i t (if dialsP2P px then Loop k else Defer1 k) true p); try done.
  - cbn. by rewrite Hpx.
  - by intros n _ [= <-].
  - by destruct (dialsP2P px).
  - by intros o; destruct (dialsP2P px).
Qed.

Lemma registerPassive_inv m i t : inv m -> threads m !! i = Some t -> at_phase t = Register -> of_proxy t = None -> inv (registerPassive i t m).
Proof.
  intros Hi Ht Hph Hpx. assert (peerOf (at_phase t) = None) as Hn by (by rewrite Hph). unfold registerPassive. cbv zeta. cbn [mstopped setCounter].
  set (k := freshPeer m). set (p := newPeer _ _ _ _). destruct (mstopped m).
  - apply (inv_newPeer m _ i t (Over (Some k)) false (stopPeer2 (stopPeer1 p))); try done. cbn. by rewrite Hpx.
  - apply (inv_newPeer m _ i t (Run k) true p); try done. cbn. by rewrite Hpx.
Qed.

Lemma unmesh_inv m i t k p : inv m -> threads m !! i = Some t -> at_phase t = Unmesh k -> heap m !! k = Some p ->
  inv (goTo i t (Unmap k) (updPeer k (fun p => setLink None (linkNIC p) p) (dropNIC k (dropSender k m)))).
Proof.
  intros Hi Ht Hph Hp. assert (peerOf (at_phase t) = Some k) as Hk by (by rewrite Hph).
  destruct (i_threads _ Hi _ _ _ Ht Hk) as [q []]. rewrite Hp in po_heap0. injection po_heap0 as <-.
  assert (meshed t = true) as Hm by (unfold meshed; by rewrite Hph). rewrite Hm in po_mesh0.
  destruct (drop_touches m k p Hi Hp po_mesh0) as (p1 & T1 & U1 & _). set (f := fun p => setLink None (linkNIC p) p).
  pose proof (touches_here _ _ _ _ _ T1) as H1. assert (touches (dropNIC k (dropSender k m)) (updPeer k f (dropNIC k (dropSender k m))) k p1 (f p1)) as T2 by (by apply touches_upd).
  assert (unmeshed (updPeer k f (dropNIC k (dropSender k m))) k) as U2 by (destruct (upd_sets (dropNIC k (dropSender k m)) k f); by apply (unmeshed_same (dropNIC k (dropSender k m)))).
  apply (inv_touch m _ i t (Unmap k) k p (f p1)); try done; [by eapply touches_trans|by rewrite Hph].
Qed.

Lemma final_inv m i t k p : inv m -> threads m !! i = Some t -> at_phase t = Final k -> heap m !! k = Some p ->
  let m1 := dropNIC k (match of_proxy t with Some _ => m | None => dropSender k m end) in
  exists p1, heap m1 !! k = Some p1 /\ inv (endSession i t (Some k) (unmapPeer k p1 m1)).
Proof.
  intros Hi Ht Hph Hp m1. assert (peerOf (at_phase t) = Some k) as Hk by (by rewrite Hph).
  destruct (i_threads _ Hi _ _ _ Ht Hk) as [q []]. rewrite Hp in po_heap0. injection po_heap0 as <-.
  assert (exists p1, touches m m1 k p p1 /\ unmeshed m1 k /\ p1 = setLink (meshSender p) (linkNIC p1) p) as (p1 & T1 & U1 & E1).
  { subst m1. destruct (of_proxy t) eqn:Ho.
    - assert (meshed t = false) as Hm by (unfold meshed; by rewrite Hph, Ho). rewrite Hm in po_mesh0.
      destruct (dropNIC_touches m k p Hp) as (p1 & T1 & N1 & R1 & E1).
      + intros He. by apply (i_mesh _ Hi).
      + intros n Hn. by destruct (po_mesh0 n).
      + exists p1. split_and!; try done. intros n. split; [rewrite R1; apply po_mesh0|apply N1].
    - assert (meshed t = true) as Hm by (unfold meshed; by rewrite Hph, Ho). rewrite Hm in po_mesh0. by apply drop_touches. }
  pose proof (touches_here _ _ _ _ _ T1) as H1. exists p1. split; [done|].
  rewrite Hph in po_closed0. destruct (po_closed0 eq_refl) as [C1 C2]. assert (transport p1 = transport p /\ leg p1 = leg p) as [Et El] by (rewrite E1; done).
  assert (threads m1 = threads m) as Eth by (by destruct T1 as [_ _ _ _ (_ & _ & _ & _ & _ & ?) _ _ _]).
  assert (inv m1) as Hi1.
  { rewrite <- (goTo_same i t m1) by (by rewrite Eth). apply (inv_touch m m1 i t (at_phase t) k p p1); try done.
    - by rewrite Hph.
    - intros _. by rewrite Et, El.
    - destruct (meshed _); [split; intros n Hn; by destruct (U1 n)|done]. }
  apply (inv_same (goTo i t (Over (Some k)) (unmapPeer k p1 m1))); [|done|done].
  apply unmap_step; try done; [by rewrite Eth|by rewrite Et, El].
Qed.

Lemma gossip_inv m i t k p info nicMade : inv m -> threads m !! i = Some t -> at_phase t = Run k -> heap m !! k = Some p -> inv (handleGossip k info nicMade m).
Proof.
  intros Hi Ht Hph Hp. assert (peerOf (at_phase t) = Some k) as Hk by (by rewrite Hph).
  destruct (i_threads _ Hi _ _ _ Ht Hk) as [q []]. rewrite Hp in po_heap0. injection po_heap0 as <-.
  assert (meshed t = true) as Hm by (unfold meshed; by rewrite Hph). rewrite Hm in po_mesh0.
  destruct (handleGossip_touches m k p info nicMade Hi Hp po_mesh0 po_fresh0) as (p' & T & K & F).
  assert (threads (handleGossip k info nicMade m) = threads m) as Eth by (by destruct T as [_ _ _ _ (_ & _ & _ & _ & _ & ?) _ _ _]).
  rewrite <- (goTo_same i t (handleGossip k info nicMade m)) by (by rewrite Eth).
  apply (inv_touch m _ i t (at_phase t) k p p'); try done; rewrite Hph; try done.
Qed.

Lemma updPeer_some m k p f : heap m !! k = Some p -> updPeer k f m = setPeer k (f p) m.
Proof. intros H. unfold updPeer. by rewrite H. Qed.

(** A step to another phase with the same peer. *)
Ltac step_on Hi Ht Hk Hp Hph :=
  match goal with
  | |- inv (goTo _ _ _ (updPeer _ _ _)) => rewrite (updPeer_some _ _ _ _ Hp); eapply (inv_move _ _ _ _ _ _ _ Hi Ht Hk Hp)
  | |- inv (goTo _ _ _ (setPeer _ _ _)) => eapply (inv_move _ _ _ _ _ _ _ Hi Ht Hk Hp)
  | |- inv (goTo _ _ _ _) => eapply (inv_goTo _ _ _ _ _ _ Hi Ht Hk Hp)
  end; try done; rewrite ?Hph; try done; unfold meshed; cbn; rewrite ?Hph; try (by left); try (by right).

Lemma stepThread_inv m i c m' : inv m -> stepThread i c m = Some m' -> inv m'.
Proof.
  intros Hi. unfold stepThread, dialStep, sessionStep, endStep. destruct (threads m !! i) as [t|] eqn:Ht; [|done].
  assert (forall k, peerOf (at_phase t) = Some k -> exists p, heap m !! k = Some p) as Hget.
  { intros k Hk. destruct (i_threads _ Hi _ _ _ Ht Hk) as [p []]. eauto. }
  assert (peerOf (at_phase t) = None -> forall ph n, peerOf ph = None -> inv (goTo i t ph m) /\ inv (goTo i t ph (setSessions n m))) as Hidle.
  { intros Hn ph n Hph. assert (forall t0, threads m !! i = Some t0 -> peerOf (at_phase t0) = None) as Ho by (intros t0 E; congruence).
    split; apply (inv_idle m _ i (mkThread (of_proxy t) ph)); done. }
  destruct (at_phase t) as [| | |k|k|k|k|k|k|k|k|k|k|k|k|k|k|k|k|k|k] eqn:Hph;
    try (destruct (Hget k eq_refl) as [p Hp]; assert (peerOf (at_phase t) = Some k) as Hk by (by rewrite Hph)).
  - destruct c; try done; destruct (of_proxy t) as [px|]; try done; intros [= <-]; try by apply (Hidle eq_refl _ 0%nat).
    destruct (bool_decide _); by apply (Hidle eq_refl _ 0%nat).
  - destruct c; try done. intros [= <-]. unfold beginSession. destruct (mstopped m); by apply (Hidle eq_refl).
  - destruct c; try done. intros [= <-]. destruct (of_proxy t) eqn:Ho; [by apply registerActive_inv|by apply registerPassive_inv].
  - destruct c; try done. rewrite Hp. intros [= <-]. destruct (stopCh p); step_on Hi Ht Hk Hp Hph.
  - destruct c as [|[]| | | | | | |]; try done; intros [= <-]; step_on Hi Ht Hk Hp Hph.
  - destruct c; try done; rewrite ?Hp; [destruct (stopCh p); [|done]|]; intros [= <-]; step_on Hi Ht Hk Hp Hph.
  - destruct c; try done. rewrite Hp. destruct (wasStopped p); intros [= <-]; step_on Hi Ht Hk Hp Hph.
  - destruct c; try done. rewrite Hp. destruct (of_proxy t) as [px|] eqn:Ho; [|done]. intros [= <-]. step_on Hi Ht Hk Hp Hph.
  - destruct c; try done; intros [= <-].
    + by apply (gossip_inv m i t k p).
    + rewrite (updPeer_some _ _ _ _ Hp). by apply close_poke.
    + unfold afterRun. destruct (of_proxy t) eqn:Ho; step_on Hi Ht Hk Hp Hph; rewrite ?Ho; by left.
  - destruct c; try done. intros [= <-]. step_on Hi Ht Hk Hp Hph.
  - destruct c; try done. rewrite Hp. intros [= <-]. destruct (bool_decide _); step_on Hi Ht Hk Hp Hph.
  - destruct c; try done. intros [= <-]. step_on Hi Ht Hk Hp Hph.
  - destruct c; try done. intros [= <-]. by apply (unmesh_inv m i t k p).
  - destruct c; try done. rewrite Hp. intros [= <-]. destruct (i_threads _ Hi _ _ _ Ht Hk) as [q []].
    assert (meshed t = false) as Hm by (unfold meshed; by rewrite Hph). rewrite Hm in po_mesh0. by apply unmap_step.
  - destruct c; try done. rewrite Hp. intros [= <-]. destruct (bool_decide _); [|destruct short]; step_on Hi Ht Hk Hp Hph.
  - destruct c; try done; rewrite ?Hp; [destruct (stopCh p); [|done]|]; intros [= <-]; step_on Hi Ht Hk Hp Hph.
  - destruct c; try done. intros [= <-]. set (t' := mkThread (of_proxy t) Check).
    pose proof (freshThread_new m) as Hf. assert (freshThread m <> i) as Hne by (intros E; congruence).
    assert (inv (setThread (freshThread m) t' m)) as Hi' by (apply (inv_idle m _ (freshThread m) t'); try done; by rewrite Hf).
    assert (threads (setThread (freshThread m) t' m) !! i = Some t) as Ht' by (cbn; by rewrite lookup_insert_ne).
    step_on Hi' Ht' Hk Hp Hph.
  - destruct c; try done. intros [= <-]. step_on Hi Ht Hk Hp Hph; unfold stopPeer1; destruct (stopCh p) eqn:Es; try done; by rewrite ?Es.
  - destruct c; try done. intros [= <-]. step_on Hi Ht Hk Hp Hph. intros _. by destruct (transport p).
  - destruct c; try done. destruct (final_inv m i t k p Hi Ht Hph Hp) as (p1 & H1 & Hfin). rewrite H1. by intros [= <-].
  - by destruct c.
Qed.

Lemma sessionExec_inv m e m' : inv m -> exec m e = Some m' -> inv m'.
Proof.
  intros Hi. destruct e as [px| |i c|name|range|nodeID seq range|range|n]; cbn [exec].
  - intros [= <-]. apply (inv_idle m _ (freshThread m) (mkThread (Some px) Check)); try done. by rewrite freshThread_new.
  - intros [= <-]. apply (inv_idle m _ (freshThread m) (mkThread None Check)); try done. by rewrite freshThread_new.
  - by apply stepThread_inv.
  - intros [= <-]. by apply inv_byName.
  - destruct (valuesOf _ _) eqn:E; [|done]. intros [= <-]. pose proof (valuesOf_elem _ _ E) as Hv.
    apply inv_stopList; [done|intros k Hk; by apply Hv|right]. split_and!; try done. intros s k Hs. apply Hv. by exists s.
  - destruct (valuesOf _ _) eqn:E; [|done]. intros [= <-]. pose proof (valuesOf_elem _ _ E) as Hv. unfold StopPeerByNodeSeq.
    pose proof (inv_stopList m (List.filter (matches nodeID seq m) range) (peers m) (proxyPeers m) (mstopped m) Hi) as H. rewrite setMaps_id in H.
    apply H; [|by left]. intros k Hk. apply Hv. rewrite list_elem_of_In, filter_In in Hk. apply list_elem_of_In. by destruct Hk.
  - destruct (valuesOf _ _) eqn:E; [|done]. intros [= <-]. pose proof (valuesOf_elem _ _ E) as Hv. unfold Stop. destruct (mstopped m); [done|].
    pose proof (inv_stopList m range (peers m) (proxyPeers m) true Hi) as H. rewrite setMaps_id in H. apply H; [intros k Hk; by apply Hv|by left].
  - by apply (inv_stopping m n m').
Qed.

Lemma sessionReach_inv mesh m : reachable mesh m -> inv m.
Proof. induction 1 as [|m e m' _ IH He]; [apply inv_new|by apply (sessionExec_inv m e)]. Qed.

(** ** Properties *)

(** C16: Whatever happened, whoever stopped it and whatever the peer gossiped, when the
    goroutine of a session is over nothing of its peer is left: the transport and the UDP
    leg are closed, neither map has an entry for it, and no sender or link NIC of it is
    registered with the mesh. *)
Theorem session_leaves_nothing mesh m i t k : reachable mesh m -> threads m !! i = Some t -> at_phase t = Over (Some k) ->
  exists p, heap m !! k = Some p /\ transport p <> Open /\ leg p = false /\ unmapped m k /\ unmeshed m k.
Proof.
  intros Hr Ht Hph. pose proof (sessionReach_inv _ _ Hr) as Hi. assert (peerOf (at_phase t) = Some k) as Hk by (by rewrite Hph).
  destruct (i_threads _ Hi _ _ _ Ht Hk) as [p []]. exists p. rewrite Hph in po_closed0. destruct (po_closed0 eq_refl) as [C1 C2].
  split_and!; try done; [by apply (po_maps0 (Some k))|]. assert (meshed t = false) as Hm by (unfold meshed; rewrite Hph; by destruct (of_proxy t)).
  by rewrite Hm in po_mesh0.
Qed.

(** While fewer than 2^16 sessions were numbered, two goroutines that serve the same
    proxy are never both left running: at least one of their peers is stopped or has a
    stop under way, however StartPeer, restarts, stops and reconnections interleave. *)
Theorem one_session_per_proxy mesh m i j t t' px px' k k' :
  reachable mesh m -> linkSeqCounter m < 2 ^ 16 -> threads m !! i = Some t -> threads m !! j = Some t' -> i <> j ->
  of_proxy t = Some px -> of_proxy t' = Some px' -> Name px = Name px' ->
  serving (at_phase t) = true -> serving (at_phase t') = true -> peerOf (at_phase t) = Some k -> peerOf (at_phase t') = Some k' ->
  exists p p', heap m !! k = Some p /\ heap m !! k' = Some p' /\
    (stopCh p = true \/ pending m k \/ stopCh p' = true \/ pending m k').
Proof.
  intros Hr Hc Ht Ht' Hij Hp Hp' Hn Hs Hs' Hk Hk'. pose proof (sessionReach_inv _ _ Hr) as Hi.
  destruct (i_threads _ Hi _ _ _ Ht Hk) as [p P], (i_threads _ Hi _ _ _ Ht' Hk') as [p' P']. exists p, p'. split; [apply P|]. split; [apply P'|].
  destruct (po_guard _ _ _ _ P Hc Hs ltac:(by rewrite Hp)) as [G|[G|(n & G1 & G2)]]; [by left|by right; left|].
  destruct (po_guard _ _ _ _ P' Hc Hs' ltac:(by rewrite Hp')) as [G'|[G'|(n' & G1' & G2')]]; [by right; right; left|by right; right; right|].
  exfalso. apply Hij. rewrite (po_proxy _ _ _ _ P), Hp in G1. rewrite (po_proxy _ _ _ _ P'), Hp' in G1'. cbn in G1, G1'.
  assert (k = k') as <- by congruence. by apply (i_owner _ Hi i j t t' k).
Qed.

(** ** Examples *)

Lemma runEvents_reachable mesh es : forall m m', reachable mesh m -> runEvents es m = Some m' -> reachable mesh m'.
Proof.
  induction es as [|e es IH]; intros m m' Hr; cbn [runEvents]; [by intros [= <-]|].
  destruct (exec m e) as [m1|] eqn:E; [|done]. intros H. apply (IH m1); [|done]. by apply (reach_exec mesh m e).
Qed.

Definition demoProxy : proxyInfo := mkProxy "tokyo" true true true.
Definition demoGossip : GossipInfo := mkGossip 10 7 [mkClaim 0 "n2" "10.9.2.0/24"].
Definition steps (i : nat) (cs : list choice) : list event := map (Thread i) cs.

(** A dialled session that is established. *)
Definition opened : list event :=
  Start demoProxy :: steps 0 [Go; Go; Go; Go; Dialled true; Go; Go; Gossip demoGossip true].
Definition endedBy (i : nat) : list event := steps i [ReadError; Go; Go; Go; Go; Go].

Definition after (es : list event) : P2PManager := default (NewP2PManager true) (runEvents es (NewP2PManager true)).

(** A session that ends soon leaves the maps before its goroutine waits: a stop by name in
    that time finds nothing, and the peer comes back. *)
Example stop_during_backoff_lost :
  match runEvents (opened ++ endedBy 0 ++ steps 0 [SessionLength true] ++ [ByName "tokyo"] ++
                   steps 0 [TimerFired; Go] ++ steps 1 [Go; Go; Go; Go; Dialled true; Go; Go]) (NewP2PManager true) with
  | Some m => stops m = [] /\ option_map at_phase (threads m !! 1%nat) = Some (Run 1) /\
              option_map stopCh (heap m !! 1%nat) = Some false /\ proxyPeers m !! "tokyo"%string = Some 1%nat
  | None => False
  end.
Proof. vm_compute. done. Qed.

(** A stop between the test of the status and its update is forgotten: after a session of
    five seconds or more the stopped proxy is dialled again. *)
Example stop_overwritten :
  match runEvents (opened ++ steps 0 [ReadError; Go; Go] ++ [ByName "tokyo"; Stopping 0; Stopping 0] ++
                   steps 0 [Go; Go; Go; SessionLength false; Go] ++ steps 1 [Go; Go; Go; Go; Dialled true; Go; Go]) (NewP2PManager true) with
  | Some m => stops m = [] /\ option_map at_phase (threads m !! 1%nat) = Some (Run 1) /\ option_map stopCh (heap m !! 1%nat) = Some false
  | None => False
  end.
Proof. vm_compute. done. Qed.

Lemma session_leaves_nothing_witness :
  let m := after (opened ++ endedBy 0 ++ steps 0 [SessionLength true; TimerFired; Go; Go; Go; Go]) in
  exists p, heap m !! 0%nat = Some p /\ transport p <> Open /\ leg p = false /\ unmapped m 0 /\ unmeshed m 0.
Proof.
  intros m. refine (session_leaves_nothing true m 0 (mkThread (Some demoProxy) (Over (Some 0%nat))) 0 _ _ _).
  - apply (runEvents_reachable true (opened ++ endedBy 0 ++ steps 0 [SessionLength true; TimerFired; Go; Go; Go; Go]) (NewP2PManager true)); [constructor|].
    vm_compute. reflexivity.
  - vm_compute. reflexivity.
  - reflexivity.
Defined.

Definition restarted : list event := opened ++ [ByName "tokyo"; Start demoProxy] ++ steps 1 [Go; Go; Go; Go; Dialled true].

Lemma one_session_per_proxy_witness :
  exists p p', heap (after restarted) !! 0%nat = Some p /\ heap (after restarted) !! 1%nat = Some p' /\
    (stopCh p = true \/ pending (after restarted) 0 \/ stopCh p' = true \/ pending (after restarted) 1).
Proof.
  refine (one_session_per_proxy true (after restarted) 0 1 (mkThread (Some demoProxy) (Run 0)) (mkThread (Some demoProxy) (Install 1))
            demoProxy demoProxy 0 1 _ _ _ _ _ _ _ _ _ _ _ _).
  - apply (runEvents_reachable true restarted (NewP2PManager true)); [constructor|]. vm_compute. reflexivity.
  - vm_compute. reflexivity.
  - vm_compute. reflexivity.
  - vm_compute. reflexivity.
  - done.
  - reflexivity.
  - reflexivity.
  - reflexivity.
  - reflexivity.
  - reflexivity.
  - reflexivity.
  - reflexivity.
Defined.
