(* ===== verification/MeshInbound.v ===== *)
(** MeshInbound: mesh packets between the read loops of the sessions and the mesh handler,
    src/p2p/p2p.go (the packet branch of runSession, meshInboundLoop).

    Every worker has a queue of its own, and a data packet is pinned to a queue by its flow
    key; DNS packets have a queue with two workers.  A read loop that meets a full queue
    waits a bounded time and then drops the packet.  A step is one operation on a channel
    or one timer. *)

From Stdlib Require Import ZArith Lia.
From stdpp Require Import base gmap list numbers strings.
From S2P Require Import Prelude Frame Stripe.
Open Scope Z_scope.

(** ** State *)

Definition meshInboundWorkers : Z := 4.
Definition inboundCap : nat := 4096.

(** A packet and the session it came from. *)
Record meshInboundPacket := mkPacket { session : nat; packet : list Z }.

Record Inbound := mkInbound {
  chs : gmap Z (list meshInboundPacket); dnsCh : list meshInboundPacket;
  blocked : gmap nat (list Z);                   (* packet for which a read loop waits *)
  finished : gset nat;                           (* read loops that returned *)
  meshInboundDrops : Z;
  handled : gmap Z (list meshInboundPacket);     (* what each data worker gave to the handler *)
  handledDNS : list meshInboundPacket;
  received : gmap nat (list (list Z))            (* mesh packets read by each session *)
}.

Definition NewInbound : Inbound := mkInbound ∅ [] ∅ ∅ 0 ∅ [] ∅.

Definition listAt {K A} `{Countable K} (m : gmap K (list A)) (k : K) : list A := default [] (m !! k).
Definition appendAt {K A} `{Countable K} (k : K) (x : A) (m : gmap K (list A)) : gmap K (list A) := <[k := listAt m k ++ [x]]> m.

(** The queue of a flow. *)
Definition queueOf (payload : list Z) : Z := FlowKey payload mod meshInboundWorkers.

Definition push (r : nat) (payload : list Z) (s : Inbound) : Inbound :=
  mkInbound (appendAt (queueOf payload) (mkPacket r payload) (chs s)) (dnsCh s) (blocked s) (finished s) (meshInboundDrops s)
    (handled s) (handledDNS s) (received s).
Definition setBlocked (b : gmap nat (list Z)) (s : Inbound) : Inbound :=
  mkInbound (chs s) (dnsCh s) b (finished s) (meshInboundDrops s) (handled s) (handledDNS s) (received s).
Definition drop1 (s : Inbound) : Inbound :=
  mkInbound (chs s) (dnsCh s) (blocked s) (finished s) (meshInboundDrops s + 1) (handled s) (handledDNS s) (received s).
Definition see (r : nat) (payload : list Z) (s : Inbound) : Inbound :=
  mkInbound (chs s) (dnsCh s) (blocked s) (finished s) (meshInboundDrops s) (handled s) (handledDNS s) (appendAt r payload (received s)).

Inductive inEvent :=
| Packet (r : nat) (payload : list Z)     (* a mesh packet arrives at a read loop *)
| Room (r : nat) | Expired (r : nat) | Closed (r : nat)   (* the select of a waiting read loop *)
| Work (q : Z) | WorkDNS.

Definition full (s : Inbound) (payload : list Z) : bool := (inboundCap <=? length (listAt (chs s) (queueOf payload)))%nat.

(** A turn of a worker: of the data queue [Some q] or of the DNS queue. *)
Definition work (ch : option Z) (s : Inbound) : option Inbound :=
  match ch with
  | Some q =>
      match listAt (chs s) q with
      | p :: rest => Some (mkInbound (<[q := rest]> (chs s)) (dnsCh s) (blocked s) (finished s) (meshInboundDrops s)
                             (appendAt q p (handled s)) (handledDNS s) (received s))
      | [] => None
      end
  | None =>
      match dnsCh s with
      | p :: rest => Some (mkInbound (chs s) rest (blocked s) (finished s) (meshInboundDrops s) (handled s) (handledDNS s ++ [p]) (received s))
      | [] => None
      end
  end.

(** [None] when the event cannot happen. *)
Definition inStep (s : Inbound) (e : inEvent) : option Inbound :=
  match e with
  | Packet r payload =>
      if bool_decide (is_Some (blocked s !! r) \/ r ∈ finished s \/ payload = []) then None
      else
        let s := see r payload s in
        if isDNSPacket payload then
          if (inboundCap <=? length (dnsCh s))%nat then Some (drop1 s)
          else Some (mkInbound (chs s) (dnsCh s ++ [mkPacket r payload]) (blocked s) (finished s) (meshInboundDrops s) (handled s) (handledDNS s) (received s))
        else if full s payload then Some (setBlocked (<[r := payload]> (blocked s)) s)
        else Some (push r payload s)
  | Room r =>
      match blocked s !! r with
      | Some payload => if full s payload then None else Some (setBlocked (delete r (blocked s)) (push r payload s))
      | None => None
      end
  | Expired r => match blocked s !! r with Some _ => Some (setBlocked (delete r (blocked s)) (drop1 s)) | None => None end
  | Closed r =>
      match blocked s !! r with
      | Some _ => Some (mkInbound (chs s) (dnsCh s) (delete r (blocked s)) ({[r]} ∪ finished s) (meshInboundDrops s) (handled s) (handledDNS s) (received s))
      | None => None
      end
  | Work q => work (Some q) s
  | WorkDNS => work None s
  end.

Inductive inReach : Inbound -> Prop :=
| in_new : inReach NewInbound
| in_step s e s' : inReach s -> inStep s e = Some s' -> inReach s'.

(** ** Order *)

(** What of session [r] went through queue [q]: handled, queued, and waited for. *)
Definition fromSession (r : nat) (l : list meshInboundPacket) : list (list Z) :=
  omap (fun p => if decide (session p = r) then Some (packet p) else None) l.
Definition pinnedTo (q : Z) (payload : list Z) : bool := negb (isDNSPacket payload) && (queueOf payload =? q).
Definition waitingFor (s : Inbound) (r : nat) (q : Z) : list (list Z) :=
  match blocked s !! r with Some payload => if queueOf payload =? q then [payload] else [] | None => [] end.
Definition progress (s : Inbound) (r : nat) (q : Z) : list (list Z) :=
  fromSession r (listAt (handled s) q ++ listAt (chs s) q) ++ waitingFor s r q.

Record inInv (s : Inbound) : Prop := {
  in_order : forall r q, progress s r q `sublist_of` List.filter (pinnedTo q) (listAt (received s) r);
  in_bound : forall q, (length (listAt (chs s) q) <= inboundCap)%nat;
  in_dns : (length (dnsCh s) <= inboundCap)%nat;
  in_blocked : forall r payload, blocked s !! r = Some payload -> isDNSPacket payload = false
}.

Lemma listAt_insert {K A} `{Countable K} (m : gmap K (list A)) k l k' : listAt (<[k := l]> m) k' = if decide (k = k') then l else listAt m k'.
Proof. unfold listAt. destruct (decide (k = k')) as [->|]; [by rewrite lookup_insert_eq|by rewrite lookup_insert_ne]. Qed.

Lemma fromSession_app r l k : fromSession r (l ++ k) = fromSession r l ++ fromSession r k.
Proof. apply omap_app. Qed.

Lemma see_received r payload s r' q : isDNSPacket payload = false ->
  List.filter (pinnedTo q) (listAt (received (see r payload s)) r') =
  List.filter (pinnedTo q) (listAt (received s) r') ++ (if decide (r = r') then if queueOf payload =? q then [payload] else [] else []).
Proof.
  intros Hd. cbn. unfold appendAt. rewrite listAt_insert. destruct (decide (r = r')) as [->|]; [|by rewrite app_nil_r].
  rewrite List.filter_app. cbn [List.filter]. unfold pinnedTo at 2. rewrite Hd. cbn [negb andb]. done.
Qed.

Lemma see_received_dns r payload s r' q : isDNSPacket payload = true ->
  List.filter (pinnedTo q) (listAt (received (see r payload s)) r') = List.filter (pinnedTo q) (listAt (received s) r').
Proof.
  intros Hd. cbn. unfold appendAt. rewrite listAt_insert. destruct (decide (r = r')) as [->|]; [|done].
  rewrite List.filter_app. cbn [List.filter]. unfold pinnedTo at 2. rewrite Hd. cbn. apply app_nil_r.
Qed.

(** What is in the queue and behind it after a packet of session [r] was put in. *)
Lemma push_from r payload s r' q :
  fromSession r' (listAt (handled s) q ++ listAt (chs (push r payload s)) q) =
  fromSession r' (listAt (handled s) q ++ listAt (chs s) q) ++ (if decide (r = r') then if queueOf payload =? q then [payload] else [] else []).
Proof.
  cbn [chs push]. unfold appendAt. rewrite listAt_insert. destruct (decide (queueOf payload = q)) as [->|Hq].
  - rewrite Z.eqb_refl, app_assoc, (fromSession_app r' _ [mkPacket r payload]). f_equal. cbn. by destruct (decide (r = r')).
  - rewrite (proj2 (Z.eqb_neq _ _) Hq). by destruct (decide (r = r')); rewrite app_nil_r.
Qed.

Lemma blocked_insert s s' r payload r' q : blocked s' = <[r := payload]> (blocked s) ->
  waitingFor s' r' q = if decide (r = r') then if queueOf payload =? q then [payload] else [] else waitingFor s r' q.
Proof. intros E. unfold waitingFor. rewrite E. destruct (decide (r = r')) as [->|]; [by rewrite lookup_insert_eq|by rewrite lookup_insert_ne]. Qed.

Lemma blocked_delete s s' r r' q : blocked s' = delete r (blocked s) ->
  waitingFor s' r' q = if decide (r = r') then [] else waitingFor s r' q.
Proof. intros E. unfold waitingFor. rewrite E. destruct (decide (r = r')) as [->|]; [by rewrite lookup_delete_eq|by rewrite lookup_delete_ne]. Qed.

Lemma push_bound r payload s q : full s payload = false -> (forall q, (length (listAt (chs s) q) <= inboundCap)%nat) ->
  (length (listAt (chs (push r payload s)) q) <= inboundCap)%nat.
Proof.
  unfold full. intros Hf%Nat.leb_gt Hb. cbn [chs push]. unfold appendAt. rewrite listAt_insert. destruct (decide _) as [<-|]; [|done].
  rewrite length_app. cbn. lia.
Qed.

Lemma inInv_step s e s' : inInv s -> inStep s e = Some s' -> inInv s'.
Proof.
  intros [Ho Hb Hd Hbl]. destruct e as [r payload|r|r|r|q0|]; cbn [inStep work].
  - destruct (bool_decide_reflect (is_Some (blocked s !! r) \/ r ∈ finished s \/ payload = [])) as [|Hn]; [done|].
    assert (blocked s !! r = None) as Hr by (apply eq_None_not_Some; tauto).
    assert (forall q, waitingFor s r q = []) as Hw by (intros q; unfold waitingFor; by rewrite Hr).
    destruct (isDNSPacket payload) eqn:Edns.
    + destruct (Nat.leb_spec inboundCap (length (dnsCh (see r payload s)))); intros [= <-]; constructor; try done.
      * intros r' q. cbn [received drop1]. rewrite see_received_dns by done. apply Ho.
      * intros r' q. change (progress s r' q `sublist_of` List.filter (pinnedTo q) (listAt (received (see r payload s)) r')).
        rewrite see_received_dns by done. apply Ho.
      * cbn in *. rewrite length_app. cbn. lia.
    + destruct (full (see r payload s) payload) eqn:Ef; intros [= <-]; constructor; try done.
      * intros r' q. cbn [received setBlocked]. rewrite see_received by done. unfold progress. rewrite (blocked_insert s _ r payload r' q) by done. cbn [handled chs setBlocked see].
        specialize (Ho r' q). unfold progress in Ho. destruct (decide (r = r')) as [<-|]; [|by rewrite app_nil_r].
        rewrite Hw, app_nil_r in Ho. by apply sublist_app.
      * intros r' p'. cbn. intros [[<- <-]|[_ ?]]%lookup_insert_Some; [done|by apply (Hbl r')].
      * intros r' q. change (progress (push r payload (see r payload s)) r' q `sublist_of` List.filter (pinnedTo q) (listAt (received (see r payload s)) r')).
        rewrite see_received by done. unfold progress.
        change (handled (push r payload (see r payload s))) with (handled s). change (listAt (chs (push r payload (see r payload s))) q) with (listAt (chs (push r payload s)) q).
        rewrite push_from. change (waitingFor (push r payload (see r payload s)) r' q) with (waitingFor s r' q).
        specialize (Ho r' q). unfold progress in Ho. destruct (decide (r = r')) as [<-|]; [|by rewrite !app_nil_r].
        rewrite Hw in *. rewrite app_nil_r in *. by apply sublist_app.
      * intros q. by apply (push_bound r payload (see r payload s)).
  - destruct (blocked s !! r) as [payload|] eqn:Er; [|done]. destruct (full s payload) eqn:Ef; [done|]. intros [= <-]. constructor; try done.
    + intros r' q. specialize (Ho r' q). unfold progress in *. rewrite (blocked_delete s _ r r' q) by done.
      cbn [received setBlocked handled]. change (received (push r payload s)) with (received s). change (handled (push r payload s)) with (handled s).
      change (chs (setBlocked (delete r (blocked s)) (push r payload s))) with (chs (push r payload s)). rewrite push_from. destruct (decide (r = r')) as [<-|]; [|by rewrite app_nil_r].
      unfold waitingFor in Ho. rewrite Er in Ho. by rewrite app_nil_r.
    + intros q. by apply (push_bound r payload s).
    + intros r' p'. cbn. intros [_ ?]%lookup_delete_Some. by apply (Hbl r').
  - destruct (blocked s !! r) as [payload|] eqn:Er; [|done]. intros [= <-]. constructor; try done; [|intros r' p'; cbn; intros [_ ?]%lookup_delete_Some; by apply (Hbl r')].
    intros r' q. etransitivity; [|apply Ho]. unfold progress. rewrite (blocked_delete s _ r r' q) by done. apply sublist_app; [done|].
    destruct (decide (r = r')); [apply sublist_nil_l|done].
  - destruct (blocked s !! r) as [payload|] eqn:Er; [|done]. intros [= <-]. constructor; try done; [|intros r' p'; cbn; intros [_ ?]%lookup_delete_Some; by apply (Hbl r')].
    intros r' q. etransitivity; [|apply Ho]. unfold progress. rewrite (blocked_delete s _ r r' q) by done. apply sublist_app; [done|].
    destruct (decide (r = r')); [apply sublist_nil_l|done].
  - destruct (listAt (chs s) q0) as [|p rest] eqn:Eq; [done|]. intros [= <-]. constructor; try done.
    + intros r q. specialize (Ho r q). unfold progress in *. cbn [handled chs received]. unfold appendAt. rewrite !listAt_insert.
      change (waitingFor _ r q) with (waitingFor s r q). destruct (decide (q0 = q)) as [<-|]; [|done]. rewrite Eq in Ho. by rewrite <- app_assoc.
    + intros q. cbn [chs]. rewrite listAt_insert. destruct (decide (q0 = q)) as [<-|]; [|done]. specialize (Hb q0). rewrite Eq in Hb. cbn in Hb. lia.
  - destruct (dnsCh s) as [|p rest] eqn:Eq; [done|]. intros [= <-]. constructor; try done. cbn in *. lia.
Qed.

Lemma inReach_inv s : inReach s -> inInv s.
Proof.
  induction 1 as [|s e s' _ IH He]; [|by apply (inInv_step s e)]. constructor; [done|intros q; change (0 <= inboundCap)%nat; lia|change (0 <= inboundCap)%nat; lia|done].
Qed.

(** The packets of one flow that a session received reach the mesh handler in the
    order they arrived: what one worker has handled of a session, followed by what waits
    in its queue, is a subsequence of what the session read for that queue, and all
    packets of a flow are in one queue.  The queues stay within their bounds, whatever
    sessions and workers do. *)
Theorem inbound_flow_order s r q : inReach s ->
  fromSession r (listAt (handled s) q) ++ fromSession r (listAt (chs s) q) `sublist_of` List.filter (pinnedTo q) (listAt (received s) r) /\
  (length (listAt (chs s) q) <= inboundCap)%nat /\ (length (dnsCh s) <= inboundCap)%nat /\
  (forall p p', FlowKey p = FlowKey p' -> queueOf p = queueOf p').
Proof.
  intros Hr. pose proof (inReach_inv s Hr) as [Ho Hb Hd _]. split_and!; try done.
  - etransitivity; [|apply (Ho r q)]. unfold progress. rewrite fromSession_app. by apply sublist_inserts_r.
  - intros p p' E. unfold queueOf. by rewrite E.
Qed.

(** ** Example *)

Fixpoint runIn (es : list inEvent) (s : Inbound) : option Inbound :=
  match es with [] => Some s | e :: es => match inStep s e with Some s' => runIn es s' | None => None end end.

Lemma runIn_reach es : forall s s', inReach s -> runIn es s = Some s' -> inReach s'.
Proof.
  induction es as [|e es IH]; intros s s' Hr; cbn [runIn]; [by intros [= <-]|]. destruct (inStep s e) as [s1|] eqn:E; [|done].
  intros H. apply (IH s1); [|done]. by apply (in_step s e).
Qed.

(** An IPv4 TCP packet with payload [b]. *)
Definition demoPacket (b : Z) : list Z :=
  [0x45; 0; 0; 41; 0; 0; 0; 0; 64; 6; 0; 0; 10; 0; 0; 1; 10; 0; 0; 2; 4; 0; 0; 80] ++ replicate 16 0 ++ [b].
Definition demoIn : Inbound :=
  default NewInbound (runIn [Packet 1 (demoPacket 1); Packet 1 (demoPacket 2); Packet 2 (demoPacket 3); Work (queueOf (demoPacket 0))] NewInbound).

Lemma inbound_flow_order_witness :
  fromSession 1 (listAt (handled demoIn) (queueOf (demoPacket 0))) = [demoPacket 1] /\
  fromSession 1 (listAt (handled demoIn) (queueOf (demoPacket 0))) ++ fromSession 1 (listAt (chs demoIn) (queueOf (demoPacket 0)))
    `sublist_of` List.filter (pinnedTo (queueOf (demoPacket 0))) (listAt (received demoIn) 1%nat).
Proof.
  split; [vm_compute; reflexivity|]. apply inbound_flow_order.
  apply (runIn_reach [Packet 1 (demoPacket 1); Packet 1 (demoPacket 2); Packet 2 (demoPacket 3); Work (queueOf (demoPacket 0))] NewInbound); [constructor|].
  vm_compute. reflexivity.
Defined.
