(* ===== verification/StallMonitor.v ===== *)
(** StallMonitor: the watch over the data plane, src/mesh/stall_monitor.go: a ring of
    counter samples, the rules that compare a rising with a frozen counter, and the
    decision to write a dump.

    Counters are 64-bit and wrap; times are nanoseconds.  What a sample holds is an
    argument of the tick. *)

From Stdlib Require Import ZArith Lia ZifyNat.
From stdpp Require Import base list numbers.
From S2P Require Import Prelude GoFloat.
Open Scope Z_scope.

(** ** State *)

Record sample := mkSample { s_t : Z; s_a : Z; s_b : Z; s_dVIP : Z; s_dIPIP : Z }.

Definition ringSize : nat := 12.
Definition freezeWindow : Z := 60 * Second.
Definition tickInterval : Z := 10 * Second.
Definition minTargetActivity : Z := 60.

Record StallMonitor := mkMonitor {
  initialized : bool;
  lastChange : list Z; prev : list Z; armed : list bool; firedValue : list Z;
  samples : list sample; sampleIdx : nat; sampleFill : nat
}.

Definition noSample : sample := mkSample 0 0 0 0 0.
Definition NewStallMonitor : StallMonitor :=
  mkMonitor false [0; 0; 0] [0; 0; 0] [true; true; true] [0; 0; 0] (replicate ringSize noSample) 0 0.

(** Counter 0 is A, 1 is B, anything else D. *)
Definition sampleValue (idx : nat) (s : sample) : Z :=
  match idx with 0%nat => s_a s | 1%nat => s_b s | _ => wrap 64 (s_dVIP s + s_dIPIP s) end.
Definition values (s : sample) : list Z := [sampleValue 0 s; sampleValue 1 s; sampleValue 2 s].

Definition recordSample (s : sample) (sm : StallMonitor) : StallMonitor :=
  mkMonitor (initialized sm) (lastChange sm) (prev sm) (armed sm) (firedValue sm)
    (<[sampleIdx sm := s]> (samples sm)) ((sampleIdx sm + 1) mod length (samples sm))
    (if (sampleFill sm <? length (samples sm))%nat then S (sampleFill sm) else sampleFill sm).

Definition sampleAt (sm : StallMonitor) (i : nat) : sample := nth i (samples sm) noSample.

Definition windowDelta (idx : nat) (sm : StallMonitor) : Z :=
  if (sampleFill sm <? 2)%nat then 0
  else
    let n := length (samples sm) in
    let oldest := sampleAt sm ((sampleIdx sm + n - sampleFill sm) mod n) in
    let newest := sampleAt sm ((sampleIdx sm + n - 1) mod n) in
    wrap 64 (sampleValue idx newest - sampleValue idx oldest).

(** Premise and target of each rule. *)
Record stallRule := mkRule { premise : nat; target : nat }.
Definition stallRules : list stallRule := [mkRule 0 2; mkRule 2 1; mkRule 1 0].

(** Movement of one counter. *)
Definition track (now : Z) (sm : StallMonitor) (iv : nat * Z) : StallMonitor :=
  let '(i, v) := iv in
  if v =? nth i (prev sm) 0 then sm
  else mkMonitor (initialized sm) (<[i := now]> (lastChange sm)) (<[i := v]> (prev sm)) (armed sm) (firedValue sm)
         (samples sm) (sampleIdx sm) (sampleFill sm).

Definition setArmed (i : nat) (b : bool) (fv : list Z) (sm : StallMonitor) : StallMonitor :=
  mkMonitor (initialized sm) (lastChange sm) (prev sm) (<[i := b]> (armed sm)) fv (samples sm) (sampleIdx sm) (sampleFill sm).

(** A disarmed target is armed again once it has moved. *)
Definition rearm (s : sample) (r : stallRule) (sm : StallMonitor) : StallMonitor :=
  if negb (nth (target r) (armed sm) true) && negb (sampleValue (target r) s =? nth (target r) (firedValue sm) 0)
  then setArmed (target r) true (firedValue sm) sm else sm.

(** One rule: the monitor afterwards and whether it fired. *)
Definition evalRule (s : sample) (now : Z) (r : stallRule) (sm : StallMonitor) : StallMonitor * bool :=
  let v := sampleValue (target r) s in
  let sm := rearm s r sm in
  if negb (nth (target r) (armed sm) true) then (sm, false)
  else
    let premiseRecent := now - nth (premise r) (lastChange sm) 0 <=? freezeWindow in
    let premiseAfterTarget := nth (target r) (lastChange sm) 0 <? nth (premise r) (lastChange sm) 0 in
    let targetFrozen := freezeWindow <=? now - nth (target r) (lastChange sm) 0 in
    if windowDelta (target r) sm <? minTargetActivity then (sm, false)
    else if premiseRecent && premiseAfterTarget && targetFrozen
    then (setArmed (target r) false (<[target r := v]> (firedValue sm)) sm, true)
    else (sm, false).

Fixpoint evalRules (s : sample) (now : Z) (i : nat) (rs : list stallRule) (sm : StallMonitor) : StallMonitor * list nat :=
  match rs with
  | [] => (sm, [])
  | r :: rs =>
      let '(sm, fired) := evalRule s now r sm in
      let '(sm, more) := evalRules s now (S i) rs sm in
      (sm, if fired then i :: more else more)
  end.

Definition evaluate (s : sample) (now : Z) (sm : StallMonitor) : StallMonitor * list nat :=
  if negb (initialized sm)
  then (mkMonitor true [now; now; now] (values s) (armed sm) (firedValue sm) (samples sm) (sampleIdx sm) (sampleFill sm), [])
  else evalRules s now 0 stallRules (foldl (track now) sm [(0%nat, sampleValue 0 s); (1%nat, sampleValue 1 s); (2%nat, sampleValue 2 s)]).

(** One turn of the loop. *)
Definition tick (s : sample) (sm : StallMonitor) : StallMonitor * list nat := evaluate s (s_t s) (recordSample s sm).

Fixpoint ticks (h : list sample) (sm : StallMonitor) : list (list nat) :=
  match h with [] => [] | s :: h => let '(sm, fired) := tick s sm in fired :: ticks h sm end.

(** ** Triage *)

Record stallPeerSnap := mkSnap { ConsecLost : Z; LossRate : float64 }.
Inductive disposition := Ambiguous | DeadLinkSuspect | HostSilentSuspect | PingHealthy.

Definition classifyDisposition (ruleIdx : Z) (ps : list stallPeerSnap) : disposition :=
  match ps with
  | [] => Ambiguous
  | _ => if existsb (fun p => (5 <=? ConsecLost p) || flt (f64_frac 3 10) (LossRate p)) ps then DeadLinkSuspect
         else if ruleIdx =? 2 then HostSilentSuspect else PingHealthy
  end.

(** The host leg of runProbes: whether the node's own address answered. *)
Definition hostLeg (ruleIdx : Z) (ownGIP : option Z) (probeHost : Z -> bool) : bool :=
  if (ruleIdx =? 2) || (ruleIdx =? -1)
  then match ownGIP with None => false | Some gip => probeHost gip end
  else false.

(** What fire does once the probes are back: write a dump or not. *)
Definition fireDumps (ruleIdx : Z) (hostAlive : bool) : bool := negb ((ruleIdx =? 2) && hostAlive).

(** ** Reference *)

(** When a counter last moved in a history, oldest sample first. *)
Fixpoint lastMove (idx : nat) (before : sample) (at_ : Z) (h : list sample) : Z :=
  match h with
  | [] => at_
  | s :: h => lastMove idx s (if sampleValue idx s =? sampleValue idx before then at_ else s_t s) h
  end.
Definition moved (idx : nat) (h : list sample) : Z := match h with [] => 0 | s :: h => lastMove idx s (s_t s) h end.

(** The last samples of a history. *)
Definition window (h : list sample) : list sample := drop (length h - ringSize) h.
Definition activity (idx : nat) (h : list sample) : Z :=
  match window h with
  | [] | [_] => 0
  | oldest :: _ as w => wrap 64 (sampleValue idx (List.last w noSample) - sampleValue idx oldest)
  end.

(** A stall of the rule's target as the history shows it. *)
Definition stalled (r : stallRule) (h : list sample) (now : Z) : bool :=
  (minTargetActivity <=? activity (target r) h) && (now - moved (premise r) h <=? freezeWindow) &&
  (moved (target r) h <? moved (premise r) h) && (freezeWindow <=? now - moved (target r) h).

(** One sample under a rule: whether it is reported, and the value of the target at the last
    report while the target has not moved since. *)
Definition judge (r : stallRule) (seen : list sample) (s : sample) (reported : option Z) : bool * option Z :=
  let v := sampleValue (target r) s in
  match reported with
  | Some x => if v =? x then (false, Some x) else if stalled r seen (s_t s) then (true, Some v) else (false, None)
  | None => if stalled r seen (s_t s) then (true, Some v) else (false, None)
  end.

(** Reports of one rule: one per stall, until the target moves. *)
Fixpoint reports (r : stallRule) (seen h : list sample) (reported : option Z) : list bool :=
  match h with
  | [] => []
  | s :: h => let '(b, reported) := judge r (seen ++ [s]) s reported in b :: reports r (seen ++ [s]) h reported
  end.

(** The rules that report, sample by sample. *)
Fixpoint merge (l0 l1 l2 : list bool) : list (list nat) :=
  match l0, l1, l2 with
  | b0 :: l0, b1 :: l1, b2 :: l2 =>
      ((if b0 then [0%nat] else []) ++ (if b1 then [1%nat] else []) ++ (if b2 then [2%nat] else [])) :: merge l0 l1 l2
  | _, _, _ => []
  end.

(** ** The ring and the times of movement *)

(** What the monitor keeps of a history. *)
Definition core (h : list sample) (sm : StallMonitor) : Prop :=
  length (samples sm) = ringSize /\ sampleIdx sm = (length h mod ringSize)%nat /\
  sampleFill sm = Nat.min (length h) ringSize /\
  (forall p, (length h - ringSize <= p < length h)%nat -> samples sm !! (p mod ringSize)%nat = h !! p).

Definition tracked (h : list sample) (sm : StallMonitor) : Prop :=
  initialized sm = true /\ lastChange sm = [moved 0 h; moved 1 h; moved 2 h] /\
  prev sm = values (List.last h noSample).

(** Arming of one target against the reference's memory. *)
Definition armedAs (i : nat) (reported : option Z) (sm : StallMonitor) : Prop :=
  match reported with
  | None => armed sm !! i = Some true
  | Some x => armed sm !! i = Some false /\ firedValue sm !! i = Some x
  end.
Definition sized (sm : StallMonitor) : Prop := length (armed sm) = 3%nat /\ length (firedValue sm) = 3%nat.

Ltac ringLia := unfold ringSize in *; zify; Z.to_euclidean_division_equations; lia.

Lemma core_record h s sm : core h sm -> core (h ++ [s]) (recordSample s sm).
Proof.
  intros (Hl & Hi & Hf & Hr). unfold core, recordSample; cbn -[Nat.ltb ringSize].
  rewrite length_insert, Hl, length_app, Hi, Hf; cbn [length]. split_and!.
  - done.
  - rewrite Nat.Div0.add_mod_idemp_l. done.
  - destruct (Nat.ltb_spec (Nat.min (length h) ringSize) ringSize); unfold ringSize in *; lia.
  - intros p Hp. destruct (decide (p = length h)) as [-> | Hn].
    + rewrite list_lookup_insert_eq by (rewrite Hl; apply Nat.mod_upper_bound; done).
      rewrite lookup_app_r, Nat.sub_diag by lia. done.
    + rewrite list_lookup_insert_ne by ringLia.
      rewrite Hr by (unfold ringSize in *; lia). rewrite lookup_app_l by lia. done.
Qed.

Lemma nth_lookup_sample (l : list sample) i s : l !! i = Some s -> nth i l noSample = s.
Proof. intros H. rewrite nth_lookup, H. done. Qed.

Lemma last_nth (l : list sample) : List.last l noSample = nth (length l - 1) l noSample.
Proof.
  induction l as [| x l IH]; [done |]. cbn [List.last length]. destruct l as [| y l]; [done |].
  rewrite IH; cbn [length]. replace (S (S (length l)) - 1)%nat with (S (S (length l) - 1)) by lia. done.
Qed.

Lemma core_at h sm p :
  core h sm -> (length h - ringSize <= p < length h)%nat -> sampleAt sm (p mod ringSize) = nth p h noSample.
Proof. intros (_ & _ & _ & Hr) Hp. unfold sampleAt. rewrite !nth_lookup, Hr by done. done. Qed.

Lemma activity_nth idx h :
  activity idx h = if (length h <? 2)%nat then 0
    else wrap 64 (sampleValue idx (nth (length h - 1) h noSample) -
                  sampleValue idx (nth (length h - Nat.min (length h) ringSize) h noSample)).
Proof.
  unfold activity. assert (Hw : length (window h) = Nat.min (length h) ringSize)
    by (unfold window; rewrite length_drop; lia).
  assert (Hn : forall k, nth k (window h) noSample = nth (length h - ringSize + k) h noSample)
    by (intros k; unfold window; rewrite !nth_lookup, lookup_drop; done).
  assert (Hlast := last_nth (window h)).
  destruct (Nat.ltb_spec (length h) 2).
  { destruct (window h) as [| a [| b w]]; cbn in *; try done. unfold ringSize in *; lia. }
  assert (H0 := Hn 0%nat). rewrite Hn, Hw in Hlast.
  replace (length h - ringSize + (Nat.min (length h) ringSize - 1))%nat with (length h - 1)%nat in Hlast
    by (unfold ringSize; lia).
  replace (length h - Nat.min (length h) ringSize)%nat with (length h - ringSize + 0)%nat by lia.
  destruct (window h) as [| a [| b w]]; cbn [length] in Hw; try (unfold ringSize in *; lia).
  rewrite <- Hlast, <- H0. done.
Qed.

Lemma windowDelta_activity idx h sm : core h sm -> windowDelta idx sm = activity idx h.
Proof.
  intros Hc. assert (Hc' := Hc). destruct Hc' as (Hl & Hi & Hf & _). rewrite activity_nth. unfold windowDelta.
  rewrite Hf, Hl. destruct (Nat.ltb_spec (Nat.min (length h) ringSize) 2); destruct (Nat.ltb_spec (length h) 2);
    unfold ringSize in *; try lia.
  rewrite <- (core_at h sm (length h - 1)), <- (core_at h sm (length h - Nat.min (length h) 12)) by (unfold ringSize; auto; lia).
  rewrite Hi. do 4 f_equal; ringLia.
Qed.

Lemma lastMove_snoc idx h s before at_ :
  lastMove idx before at_ (h ++ [s]) =
  if sampleValue idx s =? sampleValue idx (List.last (before :: h) noSample) then lastMove idx before at_ h else s_t s.
Proof.
  revert before at_. induction h as [| x h IH]; intros before at_; [cbn; done |].
  cbn [app lastMove]. rewrite IH. done.
Qed.

Lemma moved_snoc idx h s :
  h <> [] -> moved idx (h ++ [s]) =
    if sampleValue idx s =? sampleValue idx (List.last h noSample) then moved idx h else s_t s.
Proof. destruct h as [| x h]; [done |]. intros _. apply lastMove_snoc. Qed.

Lemma tracked_step h s sm :
  h <> [] -> tracked h sm ->
  tracked (h ++ [s]) (foldl (track (s_t s)) sm [(0%nat, sampleValue 0 s); (1%nat, sampleValue 1 s); (2%nat, sampleValue 2 s)]).
Proof.
  intros Hh (Hi & Hc & Hp). unfold tracked. rewrite !moved_snoc, last_last by done.
  destruct sm as [i lc pv ar fv ss si sf]; cbn in Hi, Hc, Hp; subst.
  unfold values. generalize (moved 0 h), (moved 1 h), (moved 2 h).
  generalize (sampleValue 0 s), (sampleValue 1 s), (sampleValue 2 s).
  generalize (sampleValue 0 (List.last h noSample)), (sampleValue 1 (List.last h noSample)),
    (sampleValue 2 (List.last h noSample)).
  intros p0 p1 p2 v0 v1 v2 m0 m1 m2. cbn.
  destruct (Z.eqb_spec v0 p0) as [E0 | E0]; cbn; destruct (Z.eqb_spec v1 p1) as [E1 | E1]; cbn;
    destruct (Z.eqb_spec v2 p2) as [E2 | E2]; cbn; rewrite ?E0, ?E1, ?E2; done.
Qed.

Lemma track_frame now sm l :
  let sm' := foldl (track now) sm l in
  armed sm' = armed sm /\ firedValue sm' = firedValue sm /\ samples sm' = samples sm /\
  sampleIdx sm' = sampleIdx sm /\ sampleFill sm' = sampleFill sm.
Proof.
  revert sm. induction l as [| [i v] l IH]; intros sm; [done |]. cbn [foldl].
  destruct (IH (track now sm (i, v))) as (-> & -> & -> & -> & ->). cbn. case_match; done.
Qed.

(** ** One rule *)

Lemma armedAs_ne i j b fv reported sm :
  i <> j -> fv !! i = firedValue sm !! i -> armedAs i reported sm -> armedAs i reported (setArmed j b fv sm).
Proof.
  intros Hij Hfv H. unfold armedAs in *; cbn. rewrite list_lookup_insert_ne by done. rewrite Hfv. exact H.
Qed.

Lemma stalled_tracked h s r sm :
  core h sm -> tracked h sm -> (target r < 3)%nat -> (premise r < 3)%nat ->
  stalled r h (s_t s) = negb (windowDelta (target r) sm <? minTargetActivity) &&
    ((s_t s - nth (premise r) (lastChange sm) 0 <=? freezeWindow) &&
     (nth (target r) (lastChange sm) 0 <? nth (premise r) (lastChange sm) 0) &&
     (freezeWindow <=? s_t s - nth (target r) (lastChange sm) 0)).
Proof.
  intros Hc (_ & Hl & _) Htg Hpr. rewrite (windowDelta_activity _ h) by done. unfold stalled.
  assert (Hn : forall k, (k < 3)%nat -> nth k (lastChange sm) 0 = moved k h)
    by (intros [| [| [| k]]] ?; rewrite Hl; [done .. | lia]).
  rewrite !Hn by done. rewrite Z.leb_antisym, !andb_assoc. done.
Qed.

(** What a rule keeps, whatever it decides. *)
Definition keeps (h : list sample) (t : nat) (sm sm' : StallMonitor) : Prop :=
  core h sm' /\ tracked h sm' /\ sized sm' /\ (forall i x, i <> t -> armedAs i x sm -> armedAs i x sm').

Lemma keeps_setArmed h t b fv sm :
  core h sm -> tracked h sm -> sized sm -> length fv = 3%nat ->
  (forall i, i <> t -> fv !! i = firedValue sm !! i) -> keeps h t sm (setArmed t b fv sm).
Proof.
  intros Hc Ht [Ha Hf] Hl Hfv. split_and!; [done | done | split; cbn; [rewrite length_insert |]; done |].
  intros i x Hi H. apply armedAs_ne; auto.
Qed.

(** The second half of evalRule, for an armed target. *)
Lemma evalRule_armed h s r sm :
  core h sm -> tracked h sm -> sized sm -> (target r < 3)%nat -> (premise r < 3)%nat ->
  armedAs (target r) None sm ->
  exists sm', evalRule s (s_t s) r sm = (sm', stalled r h (s_t s)) /\ keeps h (target r) sm sm' /\
    armedAs (target r) (if stalled r h (s_t s) then Some (sampleValue (target r) s) else None) sm'.
Proof.
  intros Hc Ht Hs Htg Hpr Has. cbn in Has. unfold evalRule, rearm. rewrite (nth_lookup_Some _ _ _ _ Has); cbn [negb andb].
  rewrite (nth_lookup_Some _ _ _ _ Has); cbn [negb]. rewrite (stalled_tracked h s r sm) by done.
  destruct (windowDelta (target r) sm <? minTargetActivity); cbn [negb andb].
  { exists sm. split_and!; done. }
  case_match; [| exists sm; split_and!; done].
  assert (Hs' := Hs). destruct Hs' as [Ha Hf].
  eexists; split_and!; [done | |].
  - apply keeps_setArmed; try done; [rewrite length_insert; done |].
    intros i Hi. rewrite list_lookup_insert_ne by done. done.
  - cbn. rewrite !list_lookup_insert_eq by lia. done.
Qed.

(** A rule's verdict is the reference's, and the other targets keep their arming. *)
Lemma evalRule_exact h s r reported sm :
  core h sm -> tracked h sm -> sized sm -> (target r < 3)%nat -> (premise r < 3)%nat ->
  armedAs (target r) reported sm ->
  exists sm', evalRule s (s_t s) r sm = (sm', fst (judge r h s reported)) /\ keeps h (target r) sm sm' /\
    armedAs (target r) (snd (judge r h s reported)) sm'.
Proof.
  intros Hc Ht Hs Htg Hpr Has. unfold judge. destruct reported as [x |].
  - assert (Has' := Has). destruct Has' as [Ha1 Hf1].
    destruct (Z.eqb_spec (sampleValue (target r) s) x) as [Ex | Ex].
    + exists sm. split_and!; try done.
      unfold evalRule, rearm. rewrite (nth_lookup_Some _ _ _ _ Ha1), (nth_lookup_Some _ _ _ _ Hf1), Ex, Z.eqb_refl; cbn [negb andb].
      rewrite (nth_lookup_Some _ _ _ _ Ha1). done.
    + set (sm1 := setArmed (target r) true (firedValue sm) sm).
      assert (Hk : keeps h (target r) sm sm1) by (apply keeps_setArmed; try done; apply Hs).
      destruct Hk as (Hc1 & Ht1 & Hs1 & Hk1).
      assert (Ha2 : armedAs (target r) None sm1) by (cbn; apply list_lookup_insert_eq; destruct Hs; lia).
      destruct (evalRule_armed h s r sm1) as (sm2 & He & (Hc2 & Ht2 & Hs2 & Hk2) & Hb); try done.
      exists sm2. split_and!; try done.
      * replace (evalRule s (s_t s) r sm) with (evalRule s (s_t s) r sm1); [rewrite He; case_match; done |].
        assert (E1 : rearm s r sm1 = sm1) by (unfold rearm; rewrite (nth_lookup_Some _ _ _ _ Ha2); done).
        assert (E0 : rearm s r sm = sm1).
        { unfold rearm. rewrite (nth_lookup_Some _ _ _ _ Ha1), (nth_lookup_Some _ _ _ _ Hf1).
          apply Z.eqb_neq in Ex. rewrite Ex. done. }
        unfold evalRule. rewrite E0, E1. done.
      * split_and!; auto.
      * destruct (stalled r h (s_t s)); exact Hb.
  - destruct (evalRule_armed h s r sm) as (sm2 & He & Hk & Hb); try done.
    exists sm2. rewrite He. destruct (stalled r h (s_t s)); split_and!; done || apply Hk.
Qed.

(** ** The whole monitor *)

Definition rule0 : stallRule := mkRule 0 2.
Definition rule1 : stallRule := mkRule 2 1.
Definition rule2 : stallRule := mkRule 1 0.

(** The monitor after a history against the reference's memories, by rule. *)
Definition Rep (h : list sample) (x0 x1 x2 : option Z) (sm : StallMonitor) : Prop :=
  core h sm /\ sized sm /\ (if decide (h = []) then initialized sm = false else tracked h sm) /\
  armedAs 2 x0 sm /\ armedAs 1 x1 sm /\ armedAs 0 x2 sm.

Lemma Rep_new : Rep [] None None None NewStallMonitor.
Proof. split_and!; try done. split_and!; try done. intros p Hp. cbn in Hp. lia. Qed.

(** The first sample is the baseline. *)
Lemma judge_first r s : judge r [s] s None = (false, None).
Proof. done. Qed.

Lemma Rep_first s sm :
  Rep [] None None None sm -> exists sm', tick s sm = (sm', []) /\ Rep [s] None None None sm'.
Proof.
  intros (Hc & Hs & Hi & H0 & H1 & H2). rewrite decide_True in Hi by done.
  apply (core_record [] s) in Hc. unfold tick, evaluate. cbn [initialized recordSample]. rewrite Hi; cbn [negb].
  eexists; split; [done |]. split_and!; done.
Qed.

Lemma Rep_step h s x0 x1 x2 sm :
  h <> [] -> Rep h x0 x1 x2 sm ->
  let j0 := judge rule0 (h ++ [s]) s x0 in let j1 := judge rule1 (h ++ [s]) s x1 in
  let j2 := judge rule2 (h ++ [s]) s x2 in
  exists sm', tick s sm = (sm', (if fst j0 then [0%nat] else []) ++ (if fst j1 then [1%nat] else []) ++ (if fst j2 then [2%nat] else [])) /\
    Rep (h ++ [s]) (snd j0) (snd j1) (snd j2) sm'.
Proof.
  intros Hh (Hc & Hs & Hi & H0 & H1 & H2) j0 j1 j2. rewrite decide_False in Hi by done.
  apply (core_record h s) in Hc. unfold tick, evaluate.
  assert (Hi' : tracked h (recordSample s sm)) by exact Hi. assert (Hin := Hi). destruct Hin as [Hin _].
  cbn [initialized recordSample]. rewrite Hin; cbn [negb].
  apply (tracked_step h s) in Hi'; [| done]. revert Hi'.
  destruct (track_frame (s_t s) (recordSample s sm) [(0%nat, sampleValue 0 s); (1%nat, sampleValue 1 s); (2%nat, sampleValue 2 s)])
    as (Ea & Ef & Es & Ei & El).
  set (sm0 := foldl _ _ _) in *. intros Ht.
  assert (Hc0 : core (h ++ [s]) sm0) by (unfold core; rewrite Es, Ei, El; exact Hc).
  assert (Hs0 : sized sm0) by (unfold sized; rewrite Ea, Ef; exact Hs).
  assert (Ha : forall i x, armedAs i x sm -> armedAs i x sm0) by (intros i x; unfold armedAs; rewrite Ea, Ef; done).
  destruct (evalRule_exact (h ++ [s]) s rule0 x0 sm0) as (sm1 & E1 & (Hc1 & Ht1 & Hs1 & K1) & A1); try done; [cbn; lia .. | auto |].
  destruct (evalRule_exact (h ++ [s]) s rule1 x1 sm1) as (sm2 & E2 & (Hc2 & Ht2 & Hs2 & K2) & A2); try done; [cbn; lia .. | auto |].
  destruct (evalRule_exact (h ++ [s]) s rule2 x2 sm2) as (sm3 & E3 & (Hc3 & Ht3 & Hs3 & K3) & A3); try done; [cbn; lia .. | auto 6 |].
  exists sm3. split.
  - change stallRules with [rule0; rule1; rule2]. cbn [evalRules]. rewrite E1, E2, E3.
    fold j0 j1 j2. destruct (fst j0), (fst j1), (fst j2); done.
  - unfold Rep. rewrite decide_False by (destruct h; done). split_and!; [done .. | | |]; [apply K3, K2 | apply K3 | ]; done.
Qed.

Lemma ticks_reports h seen x0 x1 x2 sm :
  seen <> [] -> Rep seen x0 x1 x2 sm ->
  ticks h sm = merge (reports rule0 seen h x0) (reports rule1 seen h x1) (reports rule2 seen h x2).
Proof.
  revert seen x0 x1 x2 sm. induction h as [| s h IH]; intros seen x0 x1 x2 sm Hn HR; [done |].
  destruct (Rep_step seen s _ _ _ sm Hn HR) as (sm' & Et & HR').
  cbn [ticks reports]. rewrite Et.
  destruct (judge rule0 _ s x0) as [b0 y0], (judge rule1 _ s x1) as [b1 y1], (judge rule2 _ s x2) as [b2 y2]; cbn [fst snd] in *.
  cbn [merge]. f_equal. apply IH; [destruct seen; done | done].
Qed.

(** ** A slow target *)

(** Samples ten seconds apart. *)
Definition regular (h : list sample) : Prop :=
  forall k s s', h !! k = Some s -> h !! S k = Some s' -> s_t s' = s_t s + tickInterval.

(** The counter grows by at most [d] from sample to sample. *)
Definition growsBy (d : Z) (idx : nat) (h : list sample) : Prop :=
  forall k s s', h !! k = Some s -> h !! S k = Some s' -> 0 <= sampleValue idx s' - sampleValue idx s <= d.

Lemma regular_app h h' : regular (h ++ h') -> regular h.
Proof. intros H k s s' Hk Hk'. eapply (H k); apply lookup_app_l_Some; done. Qed.
Lemma growsBy_app d idx h h' : growsBy d idx (h ++ h') -> growsBy d idx h.
Proof. intros H k s s' Hk Hk'. eapply (H k); apply lookup_app_l_Some; done. Qed.

Lemma nth_some (h : list sample) k : (k < length h)%nat -> h !! k = Some (nth k h noSample).
Proof. intros Hk. rewrite nth_lookup. destruct (lookup_lt_is_Some_2 h k Hk) as [x ->]. done. Qed.

Lemma regular_time h i n :
  regular h -> (i + n < length h)%nat -> s_t (nth (i + n) h noSample) = s_t (nth i h noSample) + Z.of_nat n * tickInterval.
Proof.
  intros Hr. induction n as [| n IH]; intros Hn; [rewrite Nat.add_0_r; lia |].
  rewrite <- plus_n_Sm in *. rewrite (Hr (i + n)%nat _ _ (nth_some h (i + n) ltac:(lia)) (nth_some h (S (i + n)) ltac:(lia))), IH by lia. unfold tickInterval, Second; lia.
Qed.

Lemma growsBy_value d idx h i n :
  growsBy d idx h -> (i + n < length h)%nat ->
  0 <= sampleValue idx (nth (i + n) h noSample) - sampleValue idx (nth i h noSample) <= Z.of_nat n * d.
Proof.
  intros Hr. induction n as [| n IH]; intros Hn; [rewrite Nat.add_0_r; lia |].
  rewrite <- plus_n_Sm in *. assert (H := Hr (i + n)%nat _ _ (nth_some h (i + n) ltac:(lia)) (nth_some h (S (i + n)) ltac:(lia))).
  specialize (IH ltac:(lia)). rewrite Nat2Z.inj_succ, Z.mul_succ_l. lia.
Qed.

(** Since its last movement a counter has its value of now. *)
Lemma moved_sample idx h :
  h <> [] -> exists k, (k < length h)%nat /\ moved idx h = s_t (nth k h noSample) /\
    sampleValue idx (nth k h noSample) = sampleValue idx (nth (length h - 1) h noSample).
Proof.
  induction h as [| s h IH] using rev_ind; [done |]. intros _.
  destruct (decide (h = [])) as [-> | Hn]; [exists 0%nat; split_and!; [cbn; lia | done ..] |].
  rewrite moved_snoc by done. rewrite <- last_nth, last_last, length_app; cbn [length].
  assert (Hl : nth (length h) (h ++ [s]) noSample = s) by (rewrite app_nth2, Nat.sub_diag by lia; done).
  destruct (Z.eqb_spec (sampleValue idx s) (sampleValue idx (List.last h noSample))) as [E | E].
  - destruct (IH Hn) as (k & Hk & Hm & Hv). exists k. rewrite app_nth1 by done.
    split_and!; [lia | done |]. rewrite Hv, E, last_nth. done.
  - exists (length h). rewrite Hl. split_and!; [lia | done ..].
Qed.

(** A stall needs sixty movements in the five intervals of the window before the freeze. *)
Lemma slow_not_stalled r h s d :
  regular (h ++ [s]) -> growsBy d (target r) (h ++ [s]) -> 0 <= 5 * d < minTargetActivity ->
  stalled r (h ++ [s]) (s_t s) = false.
Proof.
  intros Hr Hg Hd. set (hs := h ++ [s]) in *. set (n := length hs).
  assert (Hn : (1 <= n)%nat) by (unfold n, hs; rewrite length_app; cbn; lia).
  assert (Hs : s = nth (n - 1) hs noSample) by (unfold n; rewrite <- last_nth; unfold hs; rewrite last_last; done).
  destruct (moved_sample (target r) hs) as (k & Hk & Hm & Hv); [unfold hs; destruct h; done |]. fold n in Hk, Hv.
  unfold stalled. destruct (freezeWindow <=? s_t s - moved (target r) hs) eqn:Ef; [| apply andb_false_r].
  rewrite andb_true_r. apply Z.leb_le in Ef. rewrite Hm, Hs in Ef.
  replace (n - 1)%nat with (k + (n - 1 - k))%nat in Ef by lia. rewrite regular_time in Ef by (auto; fold n; lia).
  assert (H7 : (k + 7 <= n)%nat) by (unfold freezeWindow, tickInterval, Second in Ef; lia).
  replace (minTargetActivity <=? activity (target r) hs) with false; [done |]. symmetry. apply Z.leb_gt.
  rewrite activity_nth. fold n. destruct (n <? 2)%nat; [lia |].
  set (o := (n - Nat.min n ringSize)%nat).
  assert (Ho : (n - 12 <= o /\ o <= n - 1)%nat) by (unfold o, ringSize; lia).
  assert (0 <= sampleValue (target r) (nth (n - 1) hs noSample) - sampleValue (target r) (nth o hs noSample) <= 5 * d) as Hb.
  { rewrite <- Hv. destruct (Nat.le_gt_cases o k).
    - assert (H5 := growsBy_value d (target r) hs o (k - o) Hg ltac:(fold n; lia)).
      replace (o + (k - o))%nat with k in H5 by lia. assert (n <= 12 \/ k - o <= 5)%nat by lia. 
      assert (Z.of_nat (k - o) <= 5) by (unfold o, ringSize in *; lia). nia.
    - assert (Hk1 := growsBy_value d (target r) hs k (o - k) Hg ltac:(fold n; lia)).
      assert (Hk2 := growsBy_value d (target r) hs o (n - 1 - o) Hg ltac:(fold n; lia)).
      replace (k + (o - k))%nat with o in Hk1 by lia. replace (o + (n - 1 - o))%nat with (n - 1)%nat in Hk2 by lia. lia. }
  unfold wrap. rewrite Z.mod_small; unfold minTargetActivity in *; lia.
Qed.

Lemma slow_reports r d h seen :
  regular (seen ++ h) -> growsBy d (target r) (seen ++ h) -> 0 <= 5 * d < minTargetActivity ->
  reports r seen h None = replicate (length h) false.
Proof.
  revert seen. induction h as [| s h IH]; intros seen Hr Hg Hd; [done |].
  rewrite (cons_middle s seen h), app_assoc in Hr, Hg. cbn [reports judge length replicate]. unfold judge.
  rewrite (slow_not_stalled r seen s d) by eauto using regular_app, growsBy_app. rewrite IH by done. done.
Qed.

Lemma merge_absent i l0 l1 l2 n fired :
  merge l0 l1 l2 !! n = Some fired -> i ∈ fired ->
  (i = 0%nat /\ l0 !! n = Some true) \/ (i = 1%nat /\ l1 !! n = Some true) \/ (i = 2%nat /\ l2 !! n = Some true).
Proof.
  revert l0 l1 l2. induction n as [| n IH]; intros [| b0 l0] [| b1 l1] [| b2 l2] H Hi; try done; cbn in H.
  - simplify_eq. destruct b0, b1, b2; cbn in Hi; repeat (apply elem_of_cons in Hi as [-> | Hi]; [auto |]);
      apply elem_of_nil in Hi; done.
  - apply (IH l0 l1 l2); done.
Qed.

Lemma ticks_all h :
  ticks h NewStallMonitor = merge (reports rule0 [] h None) (reports rule1 [] h None) (reports rule2 [] h None).
Proof.
  destruct h as [| s h]; [done |]. destruct (Rep_first s NewStallMonitor Rep_new) as (sm & Et & HR).
  cbn [ticks reports app]. rewrite Et, !judge_first. cbn [merge app]. f_equal. apply ticks_reports; done.
Qed.

(** The dump of a fired rule is left out only for rule 2 with a host that answers on the
    node's own address. *)
Lemma dump_skipped (rule : Z) (gip : option Z) (probe : Z -> bool) :
  fireDumps rule (hostLeg rule gip probe) = false <-> rule = 2 /\ exists g, gip = Some g /\ probe g = true.
Proof.
  unfold fireDumps, hostLeg. destruct (Z.eqb_spec rule 2) as [-> | Hn]; cbn.
  - destruct gip as [g |]; cbn; split; try done.
    + destruct (probe g) eqn:E; [eauto | done].
    + intros (_ & g' & [= <-] & ->). done.
    + intros (_ & g' & ? & _). done.
  - split; [done |]. intros [? _]. done.
Qed.

(** ** Properties *)

(** The monitor is its specification.  After every tick, with the ring of twelve samples,
    the tracking of three counters and the arming of three targets, the rules that fire are
    exactly those for which the history seen so far shows a stall: the target moved by sixty
    or more over the last twelve samples, has stood still for sixty seconds, and its premise
    moved after it and within sixty seconds; and each stall is reported once, until the
    target moves.  The first sample only sets the baseline. *)
Theorem stall_monitor_exact (h : list sample) :
  ticks h NewStallMonitor = merge (reports rule0 [] h None) (reports rule1 [] h None) (reports rule2 [] h None).
Proof. apply ticks_all. Qed.

(** What the eligibility floor of sixty costs.  Under regular ticks a target that grows by
    at most eleven per tick, which is up to 132 in two minutes, is never reported, however
    long it freezes while its premise moves: the sixty seconds of the freeze lie inside the
    window, so the sixty movements must fall in the five intervals before it. *)
Theorem slow_target_never_reported (i : nat) (r : stallRule) (h : list sample) (n : nat) (fired : list nat) :
  stallRules !! i = Some r -> regular h -> growsBy 11 (target r) h ->
  ticks h NewStallMonitor !! n = Some fired -> i ∉ fired.
Proof.
  intros Hi Hr Hg Hn Hin.
  rewrite ticks_all in Hn.
  assert (Hf : reports r [] h None = replicate (length h) false) by (apply (slow_reports r 11); unfold minTargetActivity; done || lia).
  destruct (merge_absent _ _ _ _ _ _ Hn Hin) as [[-> Ht] | [[-> Ht] | [-> Ht]]]; cbn in Hi; injection Hi as <-;
    unfold rule0, rule1, rule2 in Ht; rewrite Hf in Ht; apply lookup_replicate in Ht as [? _]; done.
Qed.

(** A target that grows by [d] per tick and freezes after tick 12, under a rising premise. *)
Definition demoSample (d : Z) (k : nat) : sample :=
  mkSample (Z.of_nat k * tickInterval) (Z.of_nat k) 0 (d * Z.of_nat (Nat.min k 12)) 0.
Definition demoHistory (d : Z) : list sample := demoSample d <$> seq 0 60.

Lemma demo_pair d k s s' :
  demoHistory d !! k = Some s -> demoHistory d !! S k = Some s' -> s = demoSample d k /\ s' = demoSample d (S k).
Proof.
  unfold demoHistory. rewrite !list_lookup_fmap, !fmap_Some. intros (x & Hx & ->) (y & Hy & ->).
  apply lookup_seq in Hx, Hy. destruct Hx, Hy. subst. done.
Qed.

Lemma slow_target_never_reported_witness : ticks (demoHistory 11) NewStallMonitor !! 18%nat = Some [] /\ 0%nat ∉ @nil nat.
Proof.
  split; [vm_compute; done |].
  apply (slow_target_never_reported 0 (mkRule 0 2) (demoHistory 11) 18).
  - reflexivity.
  - intros k s s' H H'. destruct (demo_pair 11 k s s' H H') as [-> ->]. cbn [s_t demoSample]. rewrite Nat2Z.inj_succ. lia.
  - intros k s s' H H'. destruct (demo_pair 11 k s s' H H') as [-> ->]. cbn [target sampleValue s_dVIP s_dIPIP demoSample].
    assert (S k < 60)%nat by (apply lookup_lt_Some in H'; exact H').
    unfold wrap. rewrite !Z.mod_small by lia. lia.
  - vm_compute. done.
Defined.

(** One frame more per tick and the freeze is reported, sixty seconds after it began and once. *)
Example fast_target_reported : ticks (demoHistory 12) NewStallMonitor = replicate 18 [] ++ [[0%nat]] ++ replicate 41 [].
Proof. vm_compute. done. Qed.

(** Ten frames per tick, twice the documented half a frame per second: no report. *)
Example documented_rate_unreported : concat (ticks (demoHistory 10) NewStallMonitor) = [].
Proof. vm_compute. done. Qed.
