(* ===== verification/IPPacket.v ===== *)
(** IPv4 packets in the mesh: src/mesh/forward.go (addresses, TTL, ICMP) and the
    IPIP encapsulation of src/mesh/ipip.go.

    A packet is the list of its bytes; operations that write in place return the
    new list.  An index out of range, which panics in Go, is [None]. *)

From Stdlib Require Import ZArith Lia.
From stdpp Require Import base list numbers.
From S2P Require Import Prelude Frame.
Open Scope Z_scope.

(** ** The Internet checksum *)

(** The sum of the big-endian 16-bit words of an even number of bytes; a
    trailing odd byte is the high half of a last word when [pad] asks for it. *)
Fixpoint wordSum (pad : bool) (l : list Z) : Z :=
  match l with
  | a :: b :: l' => a * 256 + b + wordSum pad l'
  | [a] => if pad then a * 256 else 0
  | [] => 0
  end.

(** [for sum > 0xffff { sum = (sum >> 16) + (sum & 0xffff) }], with fuel. *)
Fixpoint foldSum (fuel : nat) (sum : Z) : Z :=
  match fuel with
  | O => sum
  | S fuel' => if 0xffff <? sum then foldSum fuel' (Z.shiftr sum 16 + Z.land sum 0xffff) else sum
  end.

(** Three rounds fold any 32-bit sum. *)
Definition foldSum32 (sum : Z) : Z := foldSum 3 sum.

(** [^uint16(sum)] *)
Definition not16 (v : Z) : Z := 0xffff - wrap 16 v.

Definition ipChecksum (header : list Z) : Z := not16 (foldSum32 (wrap 32 (wordSum true header))).

(** ** Addresses *)

Definition To4 (ip : list Z) : option (list Z) :=
  if len ip =? 4 then Some ip
  else if (len ip =? 16) && bool_decide (sub ip 0 10 = replicate 10 0) &&
          (byte_at ip 10 =? 0xff) && (byte_at ip 11 =? 0xff)
  then Some (sub ip 12 16) else None.

Definition extractDstIP (ipPacket : list Z) : option (list Z) :=
  if (len ipPacket <? 20) || negb (Z.shiftr (byte_at ipPacket 0) 4 =? 4) then None
  else Some (sub ipPacket 16 20).

Definition extractSrcIP (ipPacket : list Z) : option (list Z) :=
  if (len ipPacket <? 16) || negb (Z.shiftr (byte_at ipPacket 0) 4 =? 4) then None
  else Some (sub ipPacket 12 16).

(** Subnet plus 4, respectively 3; the last byte wraps. *)
Definition CalculateEIP (subnetIP : list Z) : option (list Z) :=
  match To4 subnetIP with
  | None => None
  | Some ip => Some (sub ip 0 3 ++ [byte_of (byte_at ip 3 + 4)])
  end.

Definition CalculateDNSIP (subnetIP : list Z) : option (list Z) :=
  match To4 subnetIP with
  | None => None
  | Some ip => Some (sub ip 0 3 ++ [byte_of (byte_at ip 3 + 3)])
  end.

(** ** TTL *)

Definition setByte (l : list Z) (i : Z) (v : Z) : list Z := <[Z.to_nat i := v]> l.

Definition headerLenOf (p : list Z) : Z :=
  let h := Z.land (byte_at p 0) 0x0f * 4 in
  if (h <? 20) || (len p <? h) then 20 else h.

(** The packet afterwards and the returned TTL; [None] is a panic. *)
Definition DecrementIPTTL (p : list Z) : option (list Z * Z) :=
  if (len p <? 9) || negb (Z.shiftr (byte_at p 0) 4 =? 4) then Some (p, 0)
  else if byte_at p 8 =? 0 then Some (p, 0)
  else if len p <? 12 then None
  else
    let p1 := setByte (setByte (setByte p 8 (byte_of (byte_at p 8 - 1))) 10 0) 11 0 in
    let headerLen := headerLenOf p1 in
    if len p1 <? headerLen then None
    else
      let sum := wrap 32 (wordSum false (sub p1 0 headerLen)) in
      let cksum := not16 (foldSum32 sum) in
      let p2 := setByte (setByte p1 10 (byte_of (Z.shiftr cksum 8))) 11 (byte_of cksum) in
      Some (p2, byte_at p2 8).

(** ** ICMP time exceeded *)

Definition cksumBytes (c : Z) : list Z := [byte_of (Z.shiftr c 8); byte_of c].

Definition icmpIPHeader (totalLen ck : Z) (src dst : list Z) : list Z :=
  [0x45; 0; byte_of (Z.shiftr totalLen 8); byte_of totalLen; 0; 0; 0; 0; 64; 1] ++
  cksumBytes ck ++ src ++ dst.

Definition icmpBody (ck : Z) (payload : list Z) : list Z :=
  [11; 0] ++ cksumBytes ck ++ [0; 0; 0; 0] ++ payload.

(** [localVIP] is the local address (nil is [None]); [copy] of a nil To4 copies nothing. *)
Definition GenerateICMPTimeExceeded (localVIP : option (list Z)) (orig : list Z) : option (list Z) :=
  match localVIP with
  | None => None
  | Some vip =>
      if len orig <? 20 then None
      else
        let payloadLen := if 576 - 20 - 8 <? len orig then 576 - 20 - 8 else len orig in
        let totalLen := 20 + 8 + payloadLen in
        let src := match To4 vip with Some ip => ip | None => [0; 0; 0; 0] end in
        let dst := sub orig 12 16 in
        let ipSum := wrap 32 (wordSum false (icmpIPHeader totalLen 0 src dst)) in
        let ipCk := not16 (foldSum32 ipSum) in
        let payload := sub orig 0 payloadLen in
        let icmpSum := wrap 32 (wordSum true (icmpBody 0 payload)) in
        let icmpCk := not16 (foldSum32 icmpSum) in
        Some (icmpIPHeader totalLen ipCk src dst ++ icmpBody icmpCk payload)
  end.

(** ** IPIP *)

Record IPIPTunnel := mkTunnel { localEIP : option (list Z); enabled : bool }.

Definition NewIPIPTunnel : IPIPTunnel := mkTunnel None false.

Definition SetLocalEIP (t : IPIPTunnel) (eip : option (list Z)) : IPIPTunnel :=
  mkTunnel eip (match eip with Some _ => true | None => false end).

Definition outerHeader (totalLen ck : Z) (src dst : list Z) : list Z :=
  [0x45; 0] ++ PutUint16 totalLen ++ [0; 0; 0; 0; 64; 4] ++ PutUint16 ck ++ src ++ dst.

Inductive IPIPError := ErrNotEnabled | ErrShortPacket | ErrNotIPv4 | ErrNotIPIP | ErrShortHeader.

(** [copy] of the four bytes of an address; nothing is copied from a nil To4. *)
Definition addr4 (ip : list Z) : list Z := default [0; 0; 0; 0] (To4 ip).

Definition Encapsulate (t : IPIPTunnel) (outerSrc outerDst : list Z) (inner : list Z)
  : result IPIPError (list Z) :=
  if negb (enabled t) then Err ErrNotEnabled
  else
    let totalLen := 20 + len inner in
    let src := addr4 outerSrc in
    let dst := addr4 outerDst in
    let checksum := ipChecksum (outerHeader totalLen 0 src dst) in
    Ok (outerHeader totalLen checksum src dst ++ inner).

Definition Decapsulate (packet : list Z) : result IPIPError (list Z) :=
  if len packet <? 20 then Err ErrShortPacket
  else if negb (Z.shiftr (byte_at packet 0) 4 =? 4) then Err ErrNotIPv4
  else if negb (byte_at packet 9 =? 4) then Err ErrNotIPIP
  else
    let ihl := Z.land (byte_at packet 0) 0x0f * 4 in
    if len packet <? ihl then Err ErrShortHeader
    else Ok (from packet ihl).

(** ** Lemmas *)

(** A header verifies when its folded sum is all ones. *)
Definition verifies (pad : bool) (l : list Z) : Prop := foldSum32 (wordSum pad l) = 0xffff.

Lemma foldSum_step s : 0 <= s ->
  let s' := Z.shiftr s 16 + Z.land s 0xffff in
  0 <= s' /\ s' mod 0xffff = s mod 0xffff /\ (0 < s -> 0 < s') /\ s' = s / 2 ^ 16 + s mod 2 ^ 16.
Proof.
  intros Hs s'. assert (s' = s / 2 ^ 16 + s mod 2 ^ 16) as E.
  { subst s'. rewrite shiftr_div by lia. by change 0xffff with (Z.ones 16); rewrite Z.land_ones by lia. }
  rewrite E. pose proof (Z.div_mod s (2 ^ 16) ltac:(lia)) as Hd.
  pose proof (Z.mod_pos_bound s (2 ^ 16) ltac:(lia)). pose proof (Z.div_pos s (2 ^ 16) ltac:(lia) ltac:(lia)).
  split_and!; try lia.
  rewrite Hd at 3. replace (2 ^ 16 * (s / 2 ^ 16) + s mod 2 ^ 16)
    with (s / 2 ^ 16 + s mod 2 ^ 16 + (s / 2 ^ 16) * 0xffff) by lia.
  by rewrite Z.mod_add by lia.
Qed.

(** Folding keeps the sum modulo 65535 and ends in 16 bits. *)
Lemma foldSum32_spec s : 0 <= s < 2 ^ 32 ->
  0 <= foldSum32 s <= 0xffff /\ foldSum32 s mod 0xffff = s mod 0xffff /\ (0 < s -> 0 < foldSum32 s).
Proof.
  intros Hs. unfold foldSum32. cbn [foldSum].
  destruct (Z.ltb_spec 0xffff s) as [H1|]; [|split_and!; lia].
  destruct (foldSum_step s ltac:(lia)) as (A1 & A2 & A3 & A4).
  set (s1 := Z.shiftr s 16 + Z.land s 0xffff) in *. clearbody s1.
  assert (s1 <= 2 * 0xffff) by (rewrite A4; Z.to_euclidean_division_equations; lia).
  destruct (Z.ltb_spec 0xffff s1) as [H2|]; [|split_and!; lia].
  destruct (foldSum_step s1 ltac:(lia)) as (B1 & B2 & B3 & B4).
  set (s2 := Z.shiftr s1 16 + Z.land s1 0xffff) in *. clearbody s2.
  assert (s2 <= 0xffff) by (rewrite B4; Z.to_euclidean_division_equations; lia).
  destruct (Z.ltb_spec 0xffff s2) as [H3|]; [lia|]. split_and!; lia.
Qed.

(** Filling in the complement of a folded sum makes the whole verify. *)
Lemma checksum_completes s : 0 <= s < 2 ^ 31 -> foldSum32 (s + not16 (foldSum32 (wrap 32 s))) = 0xffff.
Proof.
  intros Hs. rewrite (wrap_small 32) by lia.
  destruct (foldSum32_spec s ltac:(lia)) as (F1 & F2 & F3).
  unfold not16. rewrite wrap_small by lia.
  destruct (foldSum32_spec (s + (0xffff - foldSum32 s)) ltac:(lia)) as (G1 & G2 & G3).
  set (r := foldSum32 (s + (0xffff - foldSum32 s))) in *. clearbody r.
  assert (r mod 0xffff = 0) as Hr.
  { rewrite G2. replace (s + (65535 - foldSum32 s)) with (s - foldSum32 s + 1 * 65535) by lia.
    rewrite Z.mod_add by lia. rewrite Zminus_mod, F2, Z.sub_diag. done. }
  assert (0 < r) by (apply G3; destruct (Z.eq_dec s 0) as [->|]; [reflexivity|lia]).
  Z.to_euclidean_division_equations. lia.
Qed.

Lemma wordSum_app pad n : forall l k, length l = (2 * n)%nat ->
  wordSum pad (l ++ k) = wordSum pad l + wordSum pad k.
Proof.
  induction n as [|n IH]; intros l k Hl.
  - destruct l; [done|simpl in Hl; lia].
  - destruct l as [|a [|b l]]; try (simpl in Hl; lia). cbn [wordSum app].
    rewrite IH by (simpl in Hl; lia). lia.
Qed.

Lemma wordSum_range pad l : Forall is_byte l -> 0 <= wordSum pad l <= 0xffff * len l.
Proof.
  assert (forall n l, (length l <= n)%nat -> Forall is_byte l -> 0 <= wordSum pad l <= 0xffff * len l) as Hg.
  { induction n as [|n IH]; intros m Hm Hb; [destruct m; [simpl; unfold len; simpl; lia|simpl in Hm; lia]|].
    destruct m as [|a [|b m]].
    - unfold len; simpl; lia.
    - apply Forall_cons_iff in Hb as [Ha _]. unfold is_byte, len in *. simpl. destruct pad; lia.
    - apply Forall_cons_iff in Hb as [Ha Hb]. apply Forall_cons_iff in Hb as [Hb Hm'].
      pose proof (IH m ltac:(simpl in Hm; lia) Hm'). unfold is_byte, len in *. cbn [wordSum length].
      change (a * 256) with (Z.mul a 256). lia. }
  by apply Hg with (length l).
Qed.

Lemma cksumBytes_word c : 0 <= c < 2 ^ 16 ->
  exists a b, cksumBytes c = [a; b] /\ a * 256 + b = c /\ is_byte a /\ is_byte b.
Proof.
  intros Hc. exists (byte_of (Z.shiftr c 8)), (byte_of c). split; [done|].
  split_and!; try apply byte_of_range.
  rewrite shiftr_div by lia. unfold wrap. Z.to_euclidean_division_equations. lia.
Qed.

Lemma not16_range v : 0 <= not16 v < 2 ^ 16.
Proof. unfold not16. pose proof (wrap_range 16 v ltac:(lia)). lia. Qed.

Lemma cksumBytes_bytes c : Forall is_byte (cksumBytes c).
Proof. unfold cksumBytes. solve_bytes. Qed.

(** The sum of a header whose checksum field, at an even offset, is [c]. *)
Lemma wordSum_field pad pre post n c :
  length pre = (2 * n)%nat -> 0 <= c < 2 ^ 16 ->
  wordSum pad (pre ++ cksumBytes c ++ post) = wordSum pad (pre ++ cksumBytes 0 ++ post) + c.
Proof.
  intros Hl Hc. rewrite (wordSum_app pad n pre (cksumBytes c ++ post)), (wordSum_app pad n pre (cksumBytes 0 ++ post)) by done.
  destruct (cksumBytes_word c Hc) as (a & b & -> & Hab & _). cbn [wordSum app].
  change (cksumBytes 0 ++ post) with (0 :: 0 :: post). cbn [wordSum]. lia.
Qed.

Lemma verifies_filled pad pre post n :
  length pre = (2 * n)%nat -> Forall is_byte (pre ++ cksumBytes 0 ++ post) ->
  len (pre ++ cksumBytes 0 ++ post) < 2 ^ 14 ->
  verifies pad (pre ++ cksumBytes (not16 (foldSum32 (wrap 32 (wordSum pad (pre ++ cksumBytes 0 ++ post))))) ++ post).
Proof.
  intros Hl Hb Hlen. unfold verifies. rewrite (wordSum_field pad pre post n) by (done || apply not16_range).
  apply checksum_completes. pose proof (wordSum_range pad _ Hb). lia.
Qed.

(** ** Properties *)

Lemma outerHeader_len totalLen ck src dst :
  length src = 4%nat -> length dst = 4%nat -> length (outerHeader totalLen ck src dst) = 20%nat.
Proof. intros Hs Hd. unfold outerHeader, PutUint16. simpl. rewrite length_app, Hs, Hd. done. Qed.

Lemma addr4_length ip : length (addr4 ip) = 4%nat.
Proof.
  unfold addr4, To4. destruct (Z.eqb_spec (len ip) 4); [unfold len in *; simpl; lia|].
  destruct (_ && _) eqn:E; [|done]. repeat (apply andb_prop in E as [E ?]). apply Z.eqb_eq in E.
  simpl. unfold sub, len in *. rewrite length_take, length_drop. lia.
Qed.

Lemma addr4_bytes ip : Forall is_byte ip -> Forall is_byte (addr4 ip).
Proof.
  intros Hb. unfold addr4, To4. destruct (len ip =? 4); [done|]. destruct (_ && _); simpl.
  - by apply Forall_take, Forall_drop.
  - repeat constructor; unfold is_byte; lia.
Qed.

(** The inner packet of a well-formed IPIP packet with a 20-byte outer header. *)
Lemma InnerPacket_outer totalLen ck src dst inner :
  length src = 4%nat -> length dst = 4%nat -> 20 <= len inner -> Z.shiftr (byte_at inner 0) 4 = 4 ->
  InnerPacket (outerHeader totalLen ck src dst ++ inner) = inner.
Proof.
  intros Hs Hd Hl Hv. pose proof (outerHeader_len totalLen ck src dst Hs Hd) as Hh.
  unfold InnerPacket. rewrite len_app. assert (len (outerHeader totalLen ck src dst) = 20) as E20
    by (unfold len; rewrite Hh; done). rewrite E20.
  assert ((20 + len inner <? 20) = false) as -> by lia.
  assert (forall i, 0 <= i < 10 -> i <> 2 -> i <> 3 ->
    byte_at (outerHeader totalLen ck src dst ++ inner) i = byte_at [0x45; 0; 0; 0; 0; 0; 0; 0; 64; 4] i) as Hb.
  { intros i Hi H2 H3. rewrite byte_at_app_l by lia. unfold outerHeader, PutUint16, byte_at.
    assert (i = 0 \/ i = 1 \/ i = 4 \/ i = 5 \/ i = 6 \/ i = 7 \/ i = 8 \/ i = 9) as Hc by lia.
    destruct Hc as [->|[->|[->|[->|[->|[->|[->| ->]]]]]]]; reflexivity. }
  rewrite !Hb by lia. vm_compute (byte_at _ 0). vm_compute (byte_at _ 9). 
  vm_compute (byte_at _ 6). vm_compute (byte_at _ 7).
  change (Z.shiftr 69 4 =? 4) with true. change (4 =? 4) with true. cbn [negb orb].
  change (Z.land 0 32 =? 0) with true. change (Z.lor (Z.shiftl (Z.land 0 31) 8) 0 =? 0) with true. cbn [negb orb].
  change (Z.land 69 15 * 4) with 20.
  assert ((20 <? 20) || (20 + len inner <? 20 + 20) = false) as -> by lia.
  rewrite byte_at_app_r by lia. rewrite E20, Z.sub_diag, Hv. change (negb (4 =? 4)) with false. cbv iota. by apply from_app.
Qed.

(** An IPIP packet carries its payload faithfully: the receiver's
    [Decapsulate] returns exactly the inner packet, the outer header verifies and
    names the two endpoints, and, for an inner IPv4 packet that is not itself
    tunnelled, the flow key of the tunnelled packet is that of the packet inside,
    so tunnelled flows are spread and ordered like native ones. *)
Theorem Encapsulate_faithful t src dst inner :
  enabled t = true -> Forall is_byte src -> Forall is_byte dst ->
  exists out, Encapsulate t src dst inner = Ok out /\
    Decapsulate out = Ok inner /\ verifies true (sub out 0 20) /\
    extractSrcIP out = Some (addr4 src) /\ extractDstIP out = Some (addr4 dst) /\
    (20 <= len inner -> Z.shiftr (byte_at inner 0) 4 = 4 -> InnerPacket inner = inner ->
     FlowKey out = FlowKey inner).
Proof.
  intros He Hs Hd. unfold Encapsulate. rewrite He. cbn [negb]. eexists; split; [reflexivity|].
  pose proof (addr4_length src) as Ls. pose proof (addr4_length dst) as Ld.
  set (tl := 20 + len inner). set (ck := ipChecksum (outerHeader tl 0 (addr4 src) (addr4 dst))).
  pose proof (outerHeader_len tl ck _ _ Ls Ld) as Lh.
  assert (len (outerHeader tl ck (addr4 src) (addr4 dst)) = 20) as E20 by (unfold len; rewrite Lh; done).
  pose proof (len_nonneg inner).
  split_and!.
  - unfold Decapsulate. rewrite len_app, E20. assert ((20 + len inner <? 20) = false) as -> by lia.
    rewrite !byte_at_app_l by lia. change (byte_at (outerHeader _ _ _ _) 0) with 0x45.
    change (byte_at (outerHeader _ _ _ _) 9) with 4.
    change (negb (Z.shiftr 0x45 4 =? 4)) with false. change (negb (4 =? 4)) with false.
    change (Z.land 0x45 0x0f * 4) with 20. cbv iota.
    assert ((20 + len inner <? 20) = false) as -> by lia. by rewrite from_app.
  - rewrite <- E20, sub_app_l. unfold ck, ipChecksum.
    apply (verifies_filled true ([0x45; 0] ++ PutUint16 tl ++ [0; 0; 0; 0; 64; 4]) (addr4 src ++ addr4 dst) 5); [done| |].
    + rewrite !Forall_app. split_and!; try (by apply addr4_bytes); try (by repeat constructor).
      all: repeat constructor; try (unfold is_byte; lia); try apply byte_of_range.
    + rewrite !len_app. unfold len. rewrite Ls, Ld. reflexivity.
  - unfold extractSrcIP. rewrite len_app, E20. assert ((20 + len inner <? 16) = false) as -> by lia.
    clear -Ls Ld. clearbody tl ck. destruct (addr4 src) as [|? [|? [|? [|? [|? ?]]]]]; try done.
  - unfold extractDstIP. rewrite len_app, E20. assert ((20 + len inner <? 20) = false) as -> by lia.
    clear -Ls Ld. clearbody tl ck. destruct (addr4 src) as [|? [|? [|? [|? [|? ?]]]]]; try done.
    destruct (addr4 dst) as [|? [|? [|? [|? [|? ?]]]]]; done.
  - intros Hl Hv Hi. unfold FlowKey. rewrite InnerPacket_outer by done. by rewrite Hi.
Qed.

Lemma Encapsulate_faithful_witness :
  let inner := [0x45; 0; 0; 24; 0; 0; 0; 0; 64; 6; 0; 0; 10; 0; 0; 1; 10; 0; 0; 2; 4; 210; 0; 80] in
  exists out, Encapsulate (SetLocalEIP NewIPIPTunnel (Some [100; 64; 0; 4])) [100; 64; 0; 4] [100; 65; 0; 4] inner = Ok out /\
    Decapsulate out = Ok inner /\ FlowKey out = FlowKey inner.
Proof.
  intros inner.
  destruct (Encapsulate_faithful (SetLocalEIP NewIPIPTunnel (Some [100; 64; 0; 4])) [100; 64; 0; 4] [100; 65; 0; 4] inner)
    as (out & H1 & H2 & _ & _ & _ & H3).
  - reflexivity.
  - repeat constructor; vm_compute; congruence.
  - repeat constructor; vm_compute; congruence.
  - exists out. split; [exact H1|]. split; [exact H2|]. apply H3; [vm_compute; congruence|reflexivity|reflexivity].
Defined.

(** The twelve leading bytes of a long enough packet. *)
Lemma packet_split (p : list Z) : (12 <= length p)%nat ->
  exists a0 a1 a2 a3 a4 a5 a6 a7 a8 a9 a10 a11 rest,
    p = [a0; a1; a2; a3; a4; a5; a6; a7; a8; a9; a10; a11] ++ rest.
Proof.
  intros Hl.
  destruct p as [|a0 [|a1 [|a2 [|a3 [|a4 [|a5 [|a6 [|a7 [|a8 [|a9 [|a10 [|a11 rest]]]]]]]]]]]];
    try (simpl in Hl; lia).
  by exists a0, a1, a2, a3, a4, a5, a6, a7, a8, a9, a10, a11, rest.
Qed.

Lemma headerLenOf_spec p : 20 <= len p -> Forall is_byte p ->
  20 <= headerLenOf p <= len p /\ headerLenOf p mod 2 = 0 /\ headerLenOf p <= 60.
Proof.
  intros Hl Hb. unfold headerLenOf. pose proof (byte_at_byte p 0 Hb).
  change 0x0f with (Z.ones 4). rewrite Z.land_ones by lia.
  pose proof (Z.mod_pos_bound (byte_at p 0) (2 ^ 4) ltac:(lia)).
  destruct (_ || _) eqn:E; [split_and!; try lia; reflexivity|].
  apply orb_false_iff in E as [E1 E2]. split_and!; try lia.
  replace 4 with (2 * 2) by lia. rewrite Z.mul_assoc, Z.mod_mul by lia. done.
Qed.

(** [DecrementIPTTL] on a packet that is not IPv4, is too short to hold a
    TTL or has TTL zero does nothing and reports 0; on an IPv4 packet with at
    least a full header it lowers the TTL by one, rewrites the checksum so that
    the header verifies, leaves every other byte alone and reports the new TTL;
    in between, for 9 to 19 bytes, it panics. *)
Theorem DecrementIPTTL_exact p :
  Forall is_byte p ->
  if (len p <? 9) || negb (Z.shiftr (byte_at p 0) 4 =? 4) || (byte_at p 8 =? 0)
  then DecrementIPTTL p = Some (p, 0)
  else if len p <? 20 then DecrementIPTTL p = None
  else exists p', DecrementIPTTL p = Some (p', byte_at p 8 - 1) /\
       length p' = length p /\ byte_at p' 8 = byte_at p 8 - 1 /\
       verifies false (sub p' 0 (headerLenOf p')) /\
       forall i, i <> 8 -> i <> 10 -> i <> 11 -> 0 <= i -> byte_at p' i = byte_at p i.
Proof.
  intros Hb. unfold DecrementIPTTL. destruct (_ || negb _) eqn:E0; [done|]. cbn [orb].
  destruct (byte_at p 8 =? 0) eqn:E8; [done|]. apply orb_false_iff in E0 as [E9 Ev].
  destruct (Z.ltb_spec (len p) 20) as [Hlt|Hge].
  - destruct (Z.ltb_spec (len p) 12); [done|].
    set (p1 := setByte _ 11 0). assert (len p1 = len p) as -> by (unfold p1, setByte, len; by rewrite !length_insert).
    assert (headerLenOf p1 = 20) as ->.
    { unfold headerLenOf. assert (len p1 = len p) as -> by (unfold p1, setByte, len; by rewrite !length_insert).
      destruct (Z.ltb_spec (Z.land (byte_at p1 0) 15 * 4) 20); [done|].
      destruct (Z.ltb_spec (len p) (Z.land (byte_at p1 0) 15 * 4)); [done|lia]. }
    by destruct (Z.ltb_spec (len p) 20); [|lia].
  - destruct (Z.ltb_spec (len p) 12); [lia|].
    destruct (packet_split p) as (a0 & a1 & a2 & a3 & a4 & a5 & a6 & a7 & a8 & a9 & a10 & a11 & rest & ->);
      [unfold len in *; lia|].
    change (byte_at (_ ++ rest) 8) with a8 in *.
    apply Forall_app in Hb as [Hb Hrest]. rewrite !Forall_cons_iff in Hb.
    destruct Hb as (B0 & B1 & B2 & B3 & B4 & B5 & B6 & B7 & B8 & B9 & B10 & B11 & _).
    assert (byte_of (a8 - 1) = a8 - 1) as E81.
    { apply byte_of_small. apply Z.eqb_neq in E8. unfold is_byte in *. lia. }
    rewrite E81. set (pre := [a0; a1; a2; a3; a4; a5; a6; a7; a8 - 1; a9]).
    change (setByte (setByte (setByte _ 8 _) 10 0) 11 0) with (pre ++ cksumBytes 0 ++ rest).
    assert (Forall is_byte (pre ++ cksumBytes 0 ++ rest)) as Hb1.
    { rewrite !Forall_app. split_and!; try done; [|apply cksumBytes_bytes].
      apply Z.eqb_neq in E8. repeat constructor; try done; unfold is_byte in *; lia. }
    rewrite len_app in Hge. change (len [a0; a1; a2; a3; a4; a5; a6; a7; a8; a9; a10; a11]) with 12 in Hge.
    assert (forall c, len (pre ++ cksumBytes c ++ rest) = 12 + len rest) as Hlen.
    { intros c. rewrite !len_app. change (len pre) with 10. change (len (cksumBytes c)) with 2. lia. }
    destruct (headerLenOf_spec (pre ++ cksumBytes 0 ++ rest)) as (Hh1 & Hh2 & Hh3); [rewrite Hlen; lia|done|].
    assert (forall c, headerLenOf (pre ++ cksumBytes c ++ rest) = headerLenOf (pre ++ cksumBytes 0 ++ rest)) as Hhl.
    { intros c. unfold headerLenOf. rewrite !Hlen. done. }
    set (h := headerLenOf (pre ++ cksumBytes 0 ++ rest)) in *. rewrite Hlen in Hh1.
    rewrite Hlen. destruct (Z.ltb_spec (12 + len rest) h); [lia|].
    assert (forall c, sub (pre ++ cksumBytes c ++ rest) 0 h = pre ++ cksumBytes c ++ take (Z.to_nat (h - 12)) rest) as Hsub.
    { intros c. unfold sub. rewrite drop_0, Z.sub_0_r. replace (Z.to_nat h) with (12 + Z.to_nat (h - 12))%nat by lia. done. }
    rewrite Hsub. set (ck := not16 _).
    change (setByte (setByte (pre ++ cksumBytes 0 ++ rest) 10 _) 11 _) with (pre ++ cksumBytes ck ++ rest).
    eexists. split; [reflexivity|]. split_and!; [done|done| |].
    + rewrite Hhl, Hsub. unfold ck. apply (verifies_filled false pre _ 5); [done| |].
      * rewrite !Forall_app in *. destruct Hb1 as (? & ? & ?). split_and!; try done. by apply Forall_take.
      * rewrite !len_app. change (len pre) with 10. change (len (cksumBytes 0)) with 2.
        unfold len. rewrite length_take. lia.
    + intros i H8 H10 H11 Hi. assert (0 <= i < 8 \/ i = 9 \/ 12 <= i) as [Hc|[->|Hc]] by lia; [|done|].
      * assert (i = 0 \/ i = 1 \/ i = 2 \/ i = 3 \/ i = 4 \/ i = 5 \/ i = 6 \/ i = 7) as Hc' by lia.
        destruct Hc' as [->|[->|[->|[->|[->|[->|[->| ->]]]]]]]; done.
      * rewrite app_assoc, !byte_at_app_r; done.
Qed.

Lemma DecrementIPTTL_exact_witness :
  let p := [0x45; 0; 0; 20; 0; 0; 0; 0; 64; 6; 0; 0; 10; 0; 0; 1; 10; 0; 0; 2] in
  exists p', DecrementIPTTL p = Some (p', 63) /\ verifies false (sub p' 0 (headerLenOf p')).
Proof.
  intros p. pose proof (DecrementIPTTL_exact p) as H.
  change (if _ || _ || _ then _ else _) with (exists p', DecrementIPTTL p = Some (p', byte_at p 8 - 1) /\
       length p' = length p /\ byte_at p' 8 = byte_at p 8 - 1 /\
       verifies false (sub p' 0 (headerLenOf p')) /\
       forall i, i <> 8 -> i <> 10 -> i <> 11 -> 0 <= i -> byte_at p' i = byte_at p i) in H.
  destruct H as (p' & H1 & _ & _ & H2 & _); [repeat constructor; vm_compute; congruence|].
  by exists p'.
Defined.

(** A time-exceeded message is well formed: at most 576 bytes, both its IP
    and its ICMP checksum verify (an odd last byte padded), it is sent from the
    local address to the source of the offending packet, whose leading bytes it
    quotes. *)
Theorem ICMPTimeExceeded_wellformed vip orig :
  Forall is_byte vip -> Forall is_byte orig -> 20 <= len orig ->
  exists pkt, GenerateICMPTimeExceeded (Some vip) orig = Some pkt /\
    len pkt <= 576 /\ verifies false (sub pkt 0 20) /\ verifies true (from pkt 20) /\
    extractSrcIP pkt = Some (addr4 vip) /\ extractDstIP pkt = Some (sub orig 12 16) /\
    from pkt 28 = sub orig 0 (Z.min 548 (len orig)) /\ sub pkt 20 22 = [11; 0].
Proof.
  intros Hv Ho Hl. unfold GenerateICMPTimeExceeded.
  destruct (Z.ltb_spec (len orig) 20); [lia|]. eexists; split; [reflexivity|].
  change (match To4 vip with Some ip => ip | None => [0; 0; 0; 0] end) with (addr4 vip).
  pose proof (addr4_length vip) as Ls. pose proof (addr4_bytes vip Hv) as Hsrc.
  assert ((if 576 - 20 - 8 <? len orig then 576 - 20 - 8 else len orig) = Z.min 548 (len orig)) as ->.
  { change (576 - 20 - 8) with 548. destruct (Z.ltb_spec 548 (len orig)); lia. }
  set (pl := Z.min 548 (len orig)). set (dst := sub orig 12 16). set (payload := sub orig 0 pl).
  assert (length dst = 4%nat) as Ld.
  { unfold dst, sub. rewrite length_take, length_drop. unfold len in Hl. lia. }
  assert (Forall is_byte dst) as Hdst by (by apply Forall_take, Forall_drop).
  assert (Forall is_byte payload) as Hpl by (by apply Forall_take, Forall_drop).
  assert (len payload = pl) as Epl by (unfold payload; rewrite len_sub; lia).
  set (tl := 20 + 8 + pl). set (ipck := not16 _). set (icmpck := not16 _).
  assert (len (icmpIPHeader tl ipck (addr4 vip) dst) = 20) as E20.
  { unfold icmpIPHeader. rewrite !len_app. unfold len. rewrite Ls, Ld. done. }
  assert (len (icmpBody icmpck payload) = 8 + pl) as E8.
  { unfold icmpBody. rewrite !len_app, Epl. unfold len; simpl. lia. }
  split_and!.
  - rewrite len_app, E20, E8. lia.
  - rewrite <- E20, sub_app_l. unfold ipck, icmpIPHeader.
    apply (verifies_filled false [69; 0; byte_of (Z.shiftr tl 8); byte_of tl; 0; 0; 0; 0; 64; 1] (addr4 vip ++ dst) 5); [done| |].
    + rewrite !Forall_app. split_and!; try done; [|apply cksumBytes_bytes].
      repeat constructor; try (unfold is_byte; lia); apply byte_of_range.
    + rewrite !len_app. unfold len. rewrite Ls, Ld. reflexivity.
  - rewrite from_app by done. unfold icmpck, icmpBody.
    apply (verifies_filled true [11; 0] ([0; 0; 0; 0] ++ payload) 1); [done| |].
    + rewrite !Forall_app. split_and!; try done; try apply cksumBytes_bytes; repeat constructor; unfold is_byte; lia.
    + rewrite !len_app, Epl. unfold len; simpl. lia.
  - unfold extractSrcIP. rewrite len_app, E20, E8. assert ((20 + (8 + pl) <? 16) = false) as -> by lia.
    clear -Ls Ld. clearbody tl ipck icmpck. destruct (addr4 vip) as [|? [|? [|? [|? [|? ?]]]]]; try done.
  - unfold extractDstIP. rewrite len_app, E20, E8. assert ((20 + (8 + pl) <? 20) = false) as -> by lia.
    clear -Ls Ld. clearbody tl ipck icmpck dst. destruct (addr4 vip) as [|? [|? [|? [|? [|? ?]]]]]; try done.
    destruct dst as [|? [|? [|? [|? [|? ?]]]]]; done.
  - unfold icmpBody. rewrite !app_assoc. apply from_app. rewrite !len_app, E20. reflexivity.
  - unfold icmpBody. apply sub_mid; by rewrite E20.
Qed.

Lemma ICMPTimeExceeded_wellformed_witness :
  let orig := [0x45; 0; 0; 21; 0; 0; 0; 0; 1; 17; 0; 0; 10; 0; 0; 1; 10; 0; 0; 2; 9] in
  exists pkt, GenerateICMPTimeExceeded (Some [100; 64; 0; 1]) orig = Some pkt /\
    extractDstIP pkt = Some [10; 0; 0; 1] /\ verifies true (from pkt 20).
Proof.
  intros orig.
  destruct (ICMPTimeExceeded_wellformed [100; 64; 0; 1] orig) as (pkt & H1 & _ & _ & H2 & _ & H3 & _).
  - repeat constructor; vm_compute; congruence.
  - repeat constructor; vm_compute; congruence.
  - vm_compute. congruence.
  - by exists pkt.
Defined.
