(* ===== verification/AddrCodec.v ===== *)
(** AddrCodec: the encodings of a target address that the proxy protocols share, an
    address type, the address and a port: src/util/udpaddr.go, src/util/trojan.go,
    src/util/reverse_udp_frame.go and the SOCKS5 UDP headers of src/dialer/socks5_udp.go
    and src/server/socks5.go.

    Texts are lists of bytes.  net.ParseIP, net.IP.String, net.SplitHostPort and the
    resolution of names are arguments. *)

From Stdlib Require Import ZArith Lia String Ascii.
From stdpp Require Import base list numbers.
From S2P Require Import Prelude GoStrings IPPacket.
Open Scope Z_scope.

(** ** Addresses *)

(** net.Addr: the two types the code asks for, and any other with its String(). *)
Inductive NetAddr := UDPAddr (ip : list Z) (port : Z) | TCPAddr (ip : list Z) (port : Z) | OtherAddr (text : list Z).

Definition To16 (ip : list Z) : option (list Z) :=
  if len ip =? 4 then Some (replicate 10 0 ++ [0xff; 0xff] ++ ip) else if len ip =? 16 then Some ip else None.

(** What [copy] of To16 leaves in sixteen zero bytes. *)
Definition addr16 (ip : list Z) : list Z := default (replicate 16 0) (To16 ip).

Definition textOf (l : list Z) : string := foldr (fun b s => String (ascii_of_N (Z.to_N b)) s) EmptyString l.
(** strconv.Atoi with its error ignored. *)
Definition atoi (l : list Z) : Z := default 0 (Atoi (textOf l)).

Section Codec.
Variable ParseIP : list Z -> option (list Z).
Variable IPString : list Z -> list Z.
(** String() of an IP address with a port. *)
Variable AddrString : list Z -> Z -> list Z.
Variable SplitHostPort : list Z -> option (list Z * list Z).
Variable ResolveUDPAddr : list Z -> Z -> option NetAddr.

(** ** src/util/udpaddr.go *)

Definition buildUDPAddr (ip : list Z) (port : Z) : list Z :=
  match To4 ip with
  | Some ip4 => [0x01] ++ ip4 ++ PutUint16 port
  | None => [0x04] ++ addr16 ip ++ PutUint16 port
  end.

Definition BuildUDPAddrHeader (addr : NetAddr) : option (list Z) :=
  match addr with
  | UDPAddr ip port | TCPAddr ip port => Some (buildUDPAddr ip port)
  | OtherAddr s =>
      match SplitHostPort s with
      | None => None
      | Some (host, portStr) =>
          match Atoi (textOf portStr) with
          | None => None
          | Some port =>
              match ParseIP host with
              | None => if 255 <? len host then None else Some ([0x03; byte_of (len host)] ++ host ++ PutUint16 port)
              | Some ip => Some (buildUDPAddr ip port)
              end
          end
      end
  end.

Definition ParseUDPAddrHeader (b : list Z) : option (NetAddr * list Z) :=
  if len b <? 1 then None
  else
    let atyp := byte_at b 0 in
    if atyp =? 0x01 then
      if len b <? 1 + 4 + 2 then None else Some (UDPAddr (sub b 1 5) (Uint16 (sub b 5 7)), from b 7)
    else if atyp =? 0x03 then
      if len b <? 2 then None
      else
        let domainLen := byte_at b 1 in
        if len b <? 2 + domainLen + 2 then None
        else match ResolveUDPAddr (sub b 2 (2 + domainLen)) (Uint16 (sub b (2 + domainLen) (2 + domainLen + 2))) with
             | None => None
             | Some a => Some (a, from b (2 + domainLen + 2))
             end
    else if atyp =? 0x04 then
      if len b <? 1 + 16 + 2 then None else Some (UDPAddr (sub b 1 17) (Uint16 (sub b 17 19)), from b 19)
    else None.

(** ** src/util/trojan.go *)

Definition EncodeTrojanAddr (host : list Z) (port : Z) : option (Z * list Z) :=
  match ParseIP host with
  | Some ip =>
      match To4 ip with
      | Some ip4 => Some (0x01, ip4 ++ PutUint16 port)
      | None => Some (0x04, default [] (To16 ip) ++ PutUint16 port)
      end
  | None => if 255 <? len host then None else Some (0x03, [byte_of (len host)] ++ host ++ PutUint16 port)
  end.

Definition EncodeTrojanAddrBytes (ip : list Z) (port : Z) : Z * list Z :=
  match To4 ip with
  | Some ip4 => (0x01, ip4 ++ PutUint16 port)
  | None => (0x04, default [] (To16 ip) ++ PutUint16 port)
  end.

(** Errors are ignored: the zero values are used. *)
Definition EncodeTrojanAddrFromNetAddr (addr : NetAddr) : Z * list Z :=
  match addr with
  | UDPAddr ip port | TCPAddr ip port => EncodeTrojanAddrBytes ip port
  | OtherAddr s =>
      let '(host, portStr) := default ([], []) (SplitHostPort s) in
      default (0, []) (EncodeTrojanAddr host (atoi portStr))
  end.

(** ** src/util/reverse_udp_frame.go *)

Definition buildReverseAddr (ip : list Z) (port : Z) : list Z :=
  match To4 ip with
  | Some ip4 => [0x00; 0x00; 0x01] ++ ip4 ++ PutUint16 port
  | None => [0x00; 0x00; 0x04] ++ addr16 ip ++ PutUint16 port
  end.

(** nil is the empty list. *)
Definition BuildReverseUDPFrame (addr : NetAddr) (payload : list Z) : list Z :=
  match addr with
  | UDPAddr ip port | TCPAddr ip port => buildReverseAddr ip port ++ payload
  | OtherAddr s =>
      match SplitHostPort s with
      | None => []
      | Some (host, portStr) =>
          let port := atoi portStr in
          match ParseIP host with
          | Some ip => buildReverseAddr ip port ++ payload
          | None =>
              if 255 <? len host then []
              else ([0x00; 0x00; 0x03; byte_of (len host)] ++ host ++ PutUint16 port) ++ payload
          end
      end
  end.

Definition ReverseATYPHeart : Z := 0xff.
Definition BuildReverseUDPHeartbeat : list Z := [0x00; 0x00; ReverseATYPHeart].

(** What parsing a frame ends in.  The data fills its slice, as the plaintext of the AEAD
    does, so that slicing past the end of the data panics. *)
Inductive ReverseFrame := RData (addr : NetAddr) (payload : list Z) | RHeartbeat | RError | RPanic.

Definition ParseReverseUDPFrame (data : list Z) : ReverseFrame :=
  if len data <? 3 then RError
  else if negb (byte_at data 0 =? 0x00) || negb (byte_at data 1 =? 0x00) then RError
  else
    let atyp := byte_at data 2 in
    if atyp =? ReverseATYPHeart then RHeartbeat
    else if len data <? 5 then RError
    else if atyp =? 0x01 then
      if len data <? 2 + 1 + 4 + 2 then RError else RData (UDPAddr (sub data 3 7) (Uint16 (sub data 7 9))) (from data 9)
    else if atyp =? 0x03 then
      if len data <? 2 + 1 + 1 + 2 then RError
      else
        let domainLen := byte_at data 3 in
        if len data <? 2 + 1 + domainLen + 2 then RError
        else if len data <? 4 + domainLen + 2 then RPanic
        else match ResolveUDPAddr (sub data 4 (4 + domainLen)) (Uint16 (sub data (4 + domainLen) (4 + domainLen + 2))) with
             | None => RError
             | Some a => RData a (from data (4 + domainLen + 2))
             end
    else if atyp =? 0x04 then
      if len data <? 2 + 1 + 16 + 2 then RError else RData (UDPAddr (sub data 3 19) (Uint16 (sub data 19 21))) (from data 21)
    else RError.

(** ** SOCKS5 UDP headers *)

(** The header of the dialer (Socks5UDPConn.buildSocks5UDPHeader). *)
Definition buildSocks5UDPHeader (ip : list Z) (port : Z) : list Z :=
  [0x00; 0x00; 0x00] ++
  match To4 ip with
  | Some ip4 => [0x01] ++ ip4
  | None =>
      match To16 ip with
      | Some ip16 => [0x04] ++ ip16
      | None =>
          let host := match SplitHostPort (AddrString ip port) with Some (h, _) => h | None => [] end in
          let host := match host with [] => IPString ip | _ => host end in
          [0x03; byte_of (len host)] ++ host
      end
  end ++ PutUint16 port.

(** The header of the server (buildSOCKS5UDPHeader). *)
Definition serverSocks5UDPHeader (src : option NetAddr) : list Z :=
  let zero := [0x01; 0; 0; 0; 0; 0; 0] in
  let ipPart ip := match To4 ip with Some ip4 => [0x01] ++ ip4 | None => [0x04] ++ default [] (To16 ip) end in
  let other s :=
    match SplitHostPort s with
    | Some ((_ :: _) as host, portStr) =>
        match ParseIP host with
        | Some ip => ipPart ip
        | None => [0x03; byte_of (len host)] ++ host
        end ++ PutUint16 (atoi portStr)
    | _ => zero
    end in
  [0x00; 0x00; 0x00] ++
  match src with
  | None => zero
  | Some (UDPAddr ip port) => ipPart ip ++ PutUint16 port
  | Some (TCPAddr ip port) => other (AddrString ip port)
  | Some (OtherAddr s) => other s
  end.

(** The parse both ends share (Socks5UDPConn.ReadFrom, socks5UDPRelay.run): the address
    as text, the port and the data; [None] is a packet skipped. *)
Definition parseSocks5UDP (buf : list Z) : option (list Z * Z * list Z) :=
  let n := len buf in
  if n <? 10 then None
  else if negb (Uint16 (sub buf 0 2) =? 0) || negb (byte_at buf 2 =? 0) then None
  else
    let atyp := byte_at buf 3 in
    if atyp =? 0x01 then
      if n <? 4 + 6 then None else Some (IPString (sub buf 4 8), Uint16 (sub buf 8 10), from buf 10)
    else if atyp =? 0x03 then
      if n <? 4 + 1 then None
      else
        let domainLen := byte_at buf 4 in
        if n <? 5 + domainLen + 2 then None
        else Some (sub buf 5 (5 + domainLen), Uint16 (sub buf (5 + domainLen) (5 + domainLen + 2)), from buf (5 + domainLen + 2))
    else if atyp =? 0x04 then
      if n <? 4 + 18 then None else Some (IPString (sub buf 4 20), Uint16 (sub buf 20 22), from buf 22)
    else None.

End Codec.

(** ** The common block *)

(** A target, and its encoding: type, address, port. *)
Inductive Target := IPv4 (ip : list Z) | Domain (name : list Z) | IPv6 (ip : list Z).

Definition wfTarget (t : Target) : Prop :=
  match t with
  | IPv4 ip => Forall is_byte ip /\ len ip = 4
  | Domain name => Forall is_byte name /\ len name <= 255
  | IPv6 ip => Forall is_byte ip /\ len ip = 16
  end.

Definition addrPart (t : Target) : list Z :=
  match t with IPv4 ip => 0x01 :: ip | Domain name => 0x03 :: len name :: name | IPv6 ip => 0x04 :: ip end.
Definition block (t : Target) (port : Z) : list Z := addrPart t ++ PutUint16 port.

(** The target that begins a text, its port and what follows. *)
Definition parseBlock (b : list Z) : option (Target * Z * list Z) :=
  let cut t n := if len b <? n + 2 then None else Some (t, Uint16 (sub b n (n + 2)), from b (n + 2)) in
  if len b <? 1 then None
  else if byte_at b 0 =? 0x01 then cut (IPv4 (sub b 1 5)) 5
  else if byte_at b 0 =? 0x03 then
    if len b <? 2 then None else cut (Domain (sub b 2 (2 + byte_at b 1))) (2 + byte_at b 1)
  else if byte_at b 0 =? 0x04 then cut (IPv6 (sub b 1 17)) 17
  else None.

Lemma block_bytes t port : wfTarget t -> Forall is_byte (block t port).
Proof.
  intros Ht. apply Forall_app_2; [|apply PutUint16_bytes].
  destruct t as [ip|name|ip]; destruct Ht as [Hb Hl]; repeat constructor; try done; try apply len_nonneg; unfold is_byte; lia.
Qed.

Lemma len_PutUint16 v : len (PutUint16 v) = 2.
Proof. done. Qed.

(** Cutting where the parts join. *)
Lemma cut_at (hd : list Z) port rest : let b := hd ++ PutUint16 port ++ rest in
  (len b <? len hd + 2) = false /\ Uint16 (sub b (len hd) (len hd + 2)) = wrap 16 port /\ from b (len hd + 2) = rest.
Proof.
  intros b. unfold b. split_and!.
  - apply Z.ltb_ge. rewrite !len_app, len_PutUint16. pose proof (len_nonneg rest). lia.
  - rewrite (sub_mid hd (PutUint16 port) rest) by (rewrite ?len_PutUint16; lia).
    rewrite <- (app_nil_r (PutUint16 port)). apply Uint16_put.
  - rewrite app_assoc. apply from_app. rewrite len_app, len_PutUint16. lia.
Qed.

Lemma parseBlock_block t port rest : wfTarget t -> parseBlock (block t port ++ rest) = Some (t, wrap 16 port, rest).
Proof.
  intros Ht. unfold block. rewrite <- app_assoc. destruct (cut_at (addrPart t) port rest) as (Hlen & Hport & Hrest).
  set (b := addrPart t ++ _) in *. assert (Hb : exists x b', b = x :: b') by (unfold b; destruct t; by eexists _, _).
  unfold parseBlock. assert (Hn : (len b <? 1) = false) by (destruct Hb as (x & b' & ->); rewrite len_cons; pose proof (len_nonneg b'); lia).
  rewrite Hn. destruct t as [ip|name|ip]; cbn [addrPart] in *; destruct Ht as [Hby Hl].
  - change (byte_at b 0 =? 1) with true. cbn [addrPart] in *. rewrite len_cons, Hl in Hlen, Hport, Hrest. cbn iota.
    change (1 + 4) with 5 in *. rewrite Hlen, Hport, Hrest. do 3 f_equal. unfold b. change (0x01 :: ip) with ([0x01] ++ ip). rewrite <- app_assoc.
    by rewrite (sub_mid [0x01] ip) by (rewrite ?Hl; reflexivity).
  - change (byte_at b 0 =? 1) with false. change (byte_at b 0 =? 3) with true. cbn iota. change (byte_at b 1) with (len name).
    assert (E2 : (len b <? 2) = false) by (unfold b; rewrite !len_app, !len_cons; pose proof (len_nonneg name); rewrite len_PutUint16; pose proof (len_nonneg rest); lia).
    rewrite E2. rewrite !len_cons in Hlen, Hport, Hrest. replace (1 + (1 + len name)) with (2 + len name) in * by lia.
    rewrite Hlen, Hport, Hrest. do 3 f_equal. unfold b. change (0x03 :: len name :: name) with ([0x03; len name] ++ name). rewrite <- app_assoc.
    by rewrite (sub_mid [0x03; len name] name) by reflexivity.
  - change (byte_at b 0 =? 1) with false. change (byte_at b 0 =? 3) with false. change (byte_at b 0 =? 4) with true. cbn iota.
    rewrite len_cons, Hl in Hlen, Hport, Hrest. change (1 + 16) with 17 in *. rewrite Hlen, Hport, Hrest. do 3 f_equal.
    unfold b. change (0x04 :: ip) with ([0x04] ++ ip). rewrite <- app_assoc. by rewrite (sub_mid [0x04] ip) by (rewrite ?Hl; reflexivity).
Qed.

Lemma sub_shift {A} (hd b : list A) lo hi : 0 <= lo -> sub (hd ++ b) (len hd + lo) (len hd + hi) = sub b lo hi.
Proof.
  intros H. unfold sub, len. replace (Z.to_nat (Z.of_nat (length hd) + lo)) with (length hd + Z.to_nat lo)%nat by lia.
  rewrite <- drop_drop, drop_app_length. f_equal. lia.
Qed.
Lemma from_shift {A} (hd b : list A) lo : 0 <= lo -> from (hd ++ b) (len hd + lo) = from b lo.
Proof.
  intros H. unfold from, len. replace (Z.to_nat (Z.of_nat (length hd) + lo)) with (length hd + Z.to_nat lo)%nat by lia.
  by rewrite <- drop_drop, drop_app_length.
Qed.
Lemma byte_shift hd b i : 0 <= i -> byte_at (hd ++ b) (len hd + i) = byte_at b i.
Proof. intros H. rewrite byte_at_app_r by lia. f_equal. lia. Qed.

Lemma split3 {A} (b : list A) n : 0 <= n -> n + 2 <= len b -> b = sub b 0 n ++ sub b n (n + 2) ++ from b (n + 2).
Proof.
  intros Hn Hl. unfold sub, from. rewrite drop_0, Z.sub_0_r. replace (n + 2 - n) with 2 by lia.
  replace (Z.to_nat (n + 2)) with (Z.to_nat n + 2)%nat by lia. rewrite <- drop_drop, take_drop. by rewrite take_drop.
Qed.

Lemma sub_bytes b lo hi : Forall is_byte b -> Forall is_byte (sub b lo hi).
Proof. intros H. by apply Forall_take, Forall_drop. Qed.

Lemma Put_Uint16_sub b n : Forall is_byte b -> 0 <= n -> n + 2 <= len b -> PutUint16 (Uint16 (sub b n (n + 2))) = sub b n (n + 2).
Proof.
  intros Hb Hn Hl. pose proof (len_sub b n (n + 2) ltac:(lia) Hl) as Hs. pose proof (sub_bytes b n (n + 2) Hb) as Hsb.
  destruct (sub b n (n + 2)) as [|x [|y [|z l]]]; rewrite ?len_cons, ?len_nil in Hs; try lia;
    [|pose proof (len_nonneg l); lia]. apply Forall_cons_iff in Hsb as [Hx Hsb]. apply Forall_cons_iff in Hsb as [Hy _]. by apply PutUint16_get.
Qed.

(** Only encodings parse. *)
Lemma parseBlock_inv b t port rest : Forall is_byte b -> parseBlock b = Some (t, port, rest) ->
  wfTarget t /\ 0 <= port < 2 ^ 16 /\ b = block t port ++ rest.
Proof.
  intros Hb. unfold parseBlock. destruct (Z.ltb_spec (len b) 1) as [?|H1]; [done|].
  assert (Hport : forall n, 0 <= Uint16 (sub b n (n + 2)) < 2 ^ 16) by (intros n; by apply Uint16_range, sub_bytes).
  assert (Hjoin : forall n u, 0 <= n -> n + 2 <= len b -> sub b 0 n = addrPart u -> b = block u (Uint16 (sub b n (n + 2))) ++ from b (n + 2)).
  { intros n u Hn Hl E. unfold block. rewrite Put_Uint16_sub by done. rewrite <- E, <- app_assoc. by apply split3. }
  destruct b as [|x b']; [rewrite len_nil in H1; lia|]. set (b := x :: b') in *. change (byte_at b 0) with x.
  assert (Hhead : forall n, 0 <= n -> sub b 0 (1 + n) = x :: sub b 1 (1 + n)).
  { intros n Hn. unfold sub, b. rewrite drop_0, Z.sub_0_r. replace (Z.to_nat (1 + n)) with (S (Z.to_nat n)) by lia.
    replace (1 + n - 1) with n by lia. done. }
  destruct (Z.eqb_spec x 1) as [->|_]; [|destruct (Z.eqb_spec x 3) as [->|_]; [|destruct (Z.eqb_spec x 4) as [->|_]; [|done]]].
  - destruct (Z.ltb_spec (len b) (5 + 2)); [done|]. intros [= <- <- <-]. split; [split; [by apply sub_bytes|by rewrite len_sub by lia]|split; [apply Hport|]].
    apply Hjoin; [lia..|]. apply (Hhead 4). lia.
  - destruct (Z.ltb_spec (len b) 2) as [?|H2]; [done|]. set (n := byte_at b 1). assert (Hn : 0 <= n < 256) by (by apply byte_at_byte).
    destruct (Z.ltb_spec (len b) (2 + n + 2)); [done|]. intros [= <- <- <-].
    assert (Hl : len (sub b 2 (2 + n)) = n) by (rewrite len_sub by lia; lia).
    split; [split; [by apply sub_bytes|lia]|split; [apply Hport|]]. apply Hjoin; [lia..|]. cbn [addrPart]. rewrite Hl.
    replace (2 + n) with (1 + (1 + n)) by lia. rewrite Hhead by lia. f_equal.
    destruct b' as [|y b'']; [unfold b in H2; rewrite len_cons, len_nil in H2; lia|]. change n with y. unfold sub, b.
    replace (Z.to_nat (1 + (1 + y) - 1)) with (S (Z.to_nat y)) by (change y with n; lia).
    replace (Z.to_nat (1 + (1 + y) - 2)) with (Z.to_nat y) by (change y with n; lia). done.
  - destruct (Z.ltb_spec (len b) (17 + 2)); [done|]. intros [= <- <- <-]. split; [split; [by apply sub_bytes|by rewrite len_sub by lia]|split; [apply Hport|]].
    apply Hjoin; [lia..|]. apply (Hhead 16). lia.
Qed.

(** ** The encoders and parsers in terms of the block *)

Definition wfIP (ip : list Z) : Prop := Forall is_byte ip /\ (len ip = 4 \/ len ip = 16).
Definition targetOf (ip : list Z) : Target := match To4 ip with Some ip4 => IPv4 ip4 | None => IPv6 ip end.
(** The shorter form of an address. *)
Definition canon (ip : list Z) : list Z := default ip (To4 ip).

Lemma To4_wf ip ip4 : Forall is_byte ip -> To4 ip = Some ip4 -> Forall is_byte ip4 /\ len ip4 = 4.
Proof.
  intros Hb. unfold To4. destruct (Z.eqb_spec (len ip) 4); [by intros [= <-]|]. destruct (Z.eqb_spec (len ip) 16); cbn [andb]; [|done].
  destruct (_ && _ && _); [|done]. intros [= <-]. split; [by apply sub_bytes|]. rewrite len_sub; lia.
Qed.

Lemma To16_16 ip : wfIP ip -> To4 ip = None -> To16 ip = Some ip /\ len ip = 16.
Proof.
  intros [Hb [H4|H16]] H; [unfold To4 in H; rewrite H4 in H; done|]. unfold To16. by rewrite H16.
Qed.

Lemma targetOf_wf ip : wfIP ip -> wfTarget (targetOf ip).
Proof.
  intros H. unfold targetOf. destruct (To4 ip) eqn:E; [by apply (To4_wf ip); [apply H|]|]. split; [apply H|by apply To16_16].
Qed.

Section Blocks.
Variable ParseIP : list Z -> option (list Z).
Variable IPString : list Z -> list Z.
Variable AddrString : list Z -> Z -> list Z.
Variable SplitHostPort : list Z -> option (list Z * list Z).
Variable ResolveUDPAddr : list Z -> Z -> option NetAddr.

Lemma buildUDPAddr_block ip port : wfIP ip -> buildUDPAddr ip port = block (targetOf ip) port.
Proof.
  intros H. unfold buildUDPAddr, targetOf, block, addr16. destruct (To4 ip) eqn:E; [done|]. destruct (To16_16 ip H E) as [-> _]. done.
Qed.

Lemma buildReverseAddr_block ip port : wfIP ip -> buildReverseAddr ip port = [0; 0] ++ block (targetOf ip) port.
Proof.
  intros H. unfold buildReverseAddr, targetOf, block, addr16. destruct (To4 ip) eqn:E; [done|]. destruct (To16_16 ip H E) as [-> _]. done.
Qed.

Lemma EncodeTrojanAddrBytes_block ip port : wfIP ip ->
  let '(atyp, addrBytes) := EncodeTrojanAddrBytes ip port in atyp :: addrBytes = block (targetOf ip) port.
Proof.
  intros H. unfold EncodeTrojanAddrBytes, targetOf, block. destruct (To4 ip) eqn:E; [done|]. destruct (To16_16 ip H E) as [-> _]. done.
Qed.

(** The target of a host text: an IP if it parses as one, a name otherwise. *)
Definition hostTarget (host : list Z) : Target := match ParseIP host with Some ip => targetOf ip | None => Domain host end.

Lemma domain_block name port : len name <= 255 -> [0x03; byte_of (len name)] ++ name ++ PutUint16 port = block (Domain name) port.
Proof. intros H. unfold block. cbn [addrPart]. rewrite wrap_small; [done|]. pose proof (len_nonneg name). lia. Qed.

Lemma EncodeTrojanAddr_block host port : (forall ip, ParseIP host = Some ip -> wfIP ip) ->
  match EncodeTrojanAddr ParseIP host port with
  | Some (atyp, addrBytes) => (ParseIP host = None -> len host <= 255) /\ atyp :: addrBytes = block (hostTarget host) port
  | None => ParseIP host = None /\ 255 < len host
  end.
Proof.
  intros H. unfold EncodeTrojanAddr, hostTarget. destruct (ParseIP host) as [ip|].
  - pose proof (EncodeTrojanAddrBytes_block ip port (H ip eq_refl)) as Hb. unfold EncodeTrojanAddrBytes in Hb. by destruct (To4 ip).
  - destruct (Z.ltb_spec 255 (len host)); [done|]. split; [done|]. by apply domain_block.
Qed.

(** The address a parsed target is resolved to. *)
Definition toNet (t : Target) (port : Z) : option NetAddr :=
  match t with IPv4 ip | IPv6 ip => Some (UDPAddr ip port) | Domain name => ResolveUDPAddr name port end.

Lemma ParseUDPAddrHeader_block b : ParseUDPAddrHeader ResolveUDPAddr b =
  match parseBlock b with
  | Some (t, port, rest) => match toNet t port with Some a => Some (a, rest) | None => None end
  | None => None
  end.
Proof.
  unfold ParseUDPAddrHeader, parseBlock. destruct (len b <? 1); [done|]. cbv zeta.
  destruct (byte_at b 0 =? 1); [change (1 + 4 + 2) with (5 + 2); by destruct (len b <? 5 + 2)|].
  destruct (byte_at b 0 =? 3); [destruct (len b <? 2); [done|]; by destruct (len b <? 2 + byte_at b 1 + 2)|].
  destruct (byte_at b 0 =? 4); [|done]. change (1 + 16 + 2) with (17 + 2). by destruct (len b <? 17 + 2).
Qed.

(** A reverse frame is a block after two zero bytes; a parse error may be a panic. *)
Lemma ParseReverseUDPFrame_block b t port rest : Forall is_byte b -> parseBlock b = Some (t, port, rest) ->
  ParseReverseUDPFrame ResolveUDPAddr ([0; 0] ++ b) = match toNet t port with Some a => RData a rest | None => RError end.
Proof.
  intros Hbytes Hb. pose proof (fun n => sub_shift [0; 0] b n) as Hs. pose proof (fun n => from_shift [0; 0] b n) as Hf.
  change (len [0; 0]) with 2 in Hs, Hf. pose proof (byte_at_byte b 1 Hbytes) as Hbyte. revert Hb. unfold parseBlock, ParseReverseUDPFrame.
  rewrite len_app. change (len [0; 0]) with 2. destruct (Z.ltb_spec (len b) 1); [done|].
  destruct (Z.ltb_spec (2 + len b) 3); [lia|]. change (byte_at ([0; 0] ++ b) 0) with 0. change (byte_at ([0; 0] ++ b) 1) with 0.
  change (byte_at ([0; 0] ++ b) 2) with (byte_at b 0). change (byte_at ([0; 0] ++ b) 3) with (byte_at b 1). cbn [Z.eqb negb orb]. cbv zeta.
  unfold ReverseATYPHeart. destruct (Z.eqb_spec (byte_at b 0) 1) as [->|_].
  - destruct (Z.ltb_spec (len b) (5 + 2)); [done|]. intros [= <- <- <-]. cbn [Z.eqb Pos.eqb toNet].
    destruct (Z.ltb_spec (2 + len b) 5); [lia|]. destruct (Z.ltb_spec (2 + len b) (2 + 1 + 4 + 2)); [lia|].
    change 3 with (2 + 1). change 7 with (2 + 5) at 1 2. change 9 with (2 + 7). by rewrite !Hs, Hf by lia.
  - destruct (Z.eqb_spec (byte_at b 0) 3) as [->|_].
    + destruct (Z.ltb_spec (len b) 2); [done|]. set (n := byte_at b 1) in *. destruct (Z.ltb_spec (len b) (2 + n + 2)); [done|]. intros [= <- <- <-].
      unfold is_byte in Hbyte. cbn [Z.eqb Pos.eqb toNet]. destruct (Z.ltb_spec (2 + len b) 5).
      { lia. }
      destruct (Z.ltb_spec (2 + len b) (2 + 1 + 1 + 2)); [lia|]. destruct (Z.ltb_spec (2 + len b) (2 + 1 + n + 2)); [lia|].
      destruct (Z.ltb_spec (2 + len b) (4 + n + 2)); [lia|].
      replace (sub ([0; 0] ++ b) 4 (4 + n)) with (sub b 2 (2 + n)) by (rewrite <- (Hs 2) by lia; f_equal; lia).
      replace (sub ([0; 0] ++ b) (4 + n) (4 + n + 2)) with (sub b (2 + n) (2 + n + 2)) by (rewrite <- (Hs (2 + n)) by lia; f_equal; lia).
      replace (from ([0; 0] ++ b) (4 + n + 2)) with (from b (2 + n + 2)) by (rewrite <- (Hf (2 + n + 2)) by lia; f_equal; lia).
      by destruct (ResolveUDPAddr _ _).
    + destruct (Z.eqb_spec (byte_at b 0) 4) as [->|_]; [|done]. destruct (Z.ltb_spec (len b) (17 + 2)); [done|]. intros [= <- <- <-].
      cbn [Z.eqb Pos.eqb toNet]. destruct (Z.ltb_spec (2 + len b) 5); [lia|]. destruct (Z.ltb_spec (2 + len b) (2 + 1 + 16 + 2)); [lia|].
      change 3 with (2 + 1). change 19 with (2 + 17) at 1 2. change 21 with (2 + 19). by rewrite !Hs, Hf by lia.
Qed.

Definition hostText (t : Target) : list Z := match t with IPv4 ip | IPv6 ip => IPString ip | Domain name => name end.

Lemma parseSocks5UDP_block b t port rest : Forall is_byte b -> 7 <= len b -> parseBlock b = Some (t, port, rest) ->
  parseSocks5UDP IPString ([0; 0; 0] ++ b) = Some (hostText t, port, rest).
Proof.
  intros Hbytes Hlen. pose proof (fun n => sub_shift [0; 0; 0] b n) as Hs. pose proof (fun n => from_shift [0; 0; 0] b n) as Hf.
  change (len [0; 0; 0]) with 3 in Hs, Hf. pose proof (byte_at_byte b 1 Hbytes) as Hbyte. unfold parseBlock, parseSocks5UDP.
  rewrite len_app. change (len [0; 0; 0]) with 3. destruct (Z.ltb_spec (len b) 1); [done|]. cbv zeta.
  destruct (Z.ltb_spec (3 + len b) 10); [lia|]. change (Uint16 (sub ([0; 0; 0] ++ b) 0 2)) with 0. change (byte_at ([0; 0; 0] ++ b) 2) with 0.
  change (byte_at ([0; 0; 0] ++ b) 3) with (byte_at b 0). change (byte_at ([0; 0; 0] ++ b) 4) with (byte_at b 1). cbn [Z.eqb negb orb].
  destruct (byte_at b 0 =? 1).
  - destruct (Z.ltb_spec (len b) (5 + 2)); [done|]. intros [= <- <- <-]. destruct (Z.ltb_spec (3 + len b) (4 + 6)); [lia|].
    change 4 with (3 + 1). change 8 with (3 + 5) at 1 2. change 10 with (3 + 7). by rewrite !Hs, Hf by lia.
  - destruct (byte_at b 0 =? 3).
    + destruct (Z.ltb_spec (len b) 2); [done|]. set (n := byte_at b 1) in *. destruct (Z.ltb_spec (len b) (2 + n + 2)); [done|]. intros [= <- <- <-].
      unfold is_byte in Hbyte. destruct (Z.ltb_spec (3 + len b) (4 + 1)); [lia|]. destruct (Z.ltb_spec (3 + len b) (5 + n + 2)); [lia|].
      replace (sub ([0; 0; 0] ++ b) 5 (5 + n)) with (sub b 2 (2 + n)) by (rewrite <- (Hs 2) by lia; f_equal; lia).
      replace (sub ([0; 0; 0] ++ b) (5 + n) (5 + n + 2)) with (sub b (2 + n) (2 + n + 2)) by (rewrite <- (Hs (2 + n)) by lia; f_equal; lia).
      by replace (from ([0; 0; 0] ++ b) (5 + n + 2)) with (from b (2 + n + 2)) by (rewrite <- (Hf (2 + n + 2)) by lia; f_equal; lia).
    + destruct (byte_at b 0 =? 4); [|done]. destruct (Z.ltb_spec (len b) (17 + 2)); [done|]. intros [= <- <- <-].
      destruct (Z.ltb_spec (3 + len b) (4 + 18)); [lia|]. change 4 with (3 + 1). change 20 with (3 + 17) at 1 2. change 22 with (3 + 19).
      by rewrite !Hs, Hf by lia.
Qed.

Lemma buildSocks5UDPHeader_block ip port : wfIP ip ->
  buildSocks5UDPHeader IPString AddrString SplitHostPort ip port = [0; 0; 0] ++ block (targetOf ip) port /\
  serverSocks5UDPHeader ParseIP AddrString SplitHostPort (Some (UDPAddr ip port)) = [0; 0; 0] ++ block (targetOf ip) port.
Proof.
  intros H. unfold buildSocks5UDPHeader, serverSocks5UDPHeader, targetOf, block. destruct (To4 ip) eqn:E; [done|]. by destruct (To16_16 ip H E) as [-> _].
Qed.

(** When a reverse frame makes the parser panic: a name of [n] bytes followed by one byte
    of port, which the length check lets through. *)
Lemma reverse_panic data : Forall is_byte data ->
  ParseReverseUDPFrame ResolveUDPAddr data = RPanic <-> exists n body, data = [0; 0; 3; n] ++ body /\ 1 <= n /\ len body = n + 1.
Proof.
  intros Hb. split.
  - unfold ParseReverseUDPFrame. destruct (Z.ltb_spec (len data) 3); [done|]. destruct data as [|x [|y [|a data']]];
      rewrite ?len_cons, ?len_nil in *; try lia. set (data := x :: y :: a :: data') in *.
    change (byte_at data 0) with x. change (byte_at data 1) with y. change (byte_at data 2) with a. change (byte_at data 3) with (byte_at data' 0).
    destruct (Z.eqb_spec x 0) as [->|]; [|done]. destruct (Z.eqb_spec y 0) as [->|]; [|done]. cbn [negb orb]. cbv zeta.
    destruct (a =? ReverseATYPHeart); [done|]. destruct (_ <? 5); [done|]. destruct (a =? 1); [by destruct (_ <? 2 + 1 + 4 + 2)|].
    destruct (Z.eqb_spec a 3) as [->|]; [|destruct (a =? 4); [by destruct (_ <? 2 + 1 + 16 + 2)|done]].
    destruct (Z.ltb_spec (1 + (1 + (1 + len data'))) (2 + 1 + 1 + 2)); [done|]. destruct data' as [|n body]; [rewrite len_nil in *; lia|].
    change (byte_at (n :: body) 0) with n. rewrite len_cons in *. destruct (Z.ltb_spec (1 + (1 + (1 + (1 + len body)))) (2 + 1 + n + 2)); [done|].
    destruct (Z.ltb_spec (1 + (1 + (1 + (1 + len body)))) (4 + n + 2)); [|by destruct (ResolveUDPAddr _ _)]. intros _.
    exists n, body. split; [done|]. lia.
  - intros (n & body & -> & Hn & Hl). unfold ParseReverseUDPFrame. rewrite len_app. change (len [0; 0; 3; n]) with 4. rewrite Hl.
    change (byte_at ([0; 0; 3; n] ++ body) 0) with 0. change (byte_at ([0; 0; 3; n] ++ body) 1) with 0. change (byte_at ([0; 0; 3; n] ++ body) 2) with 3.
    change (byte_at ([0; 0; 3; n] ++ body) 3) with n. unfold ReverseATYPHeart. cbn [Z.eqb Pos.eqb negb orb]. cbv zeta.
    destruct (Z.ltb_spec (4 + (n + 1)) 3); [lia|]. destruct (Z.ltb_spec (4 + (n + 1)) 5); [lia|]. destruct (Z.ltb_spec (4 + (n + 1)) (2 + 1 + 1 + 2)); [lia|].
    destruct (Z.ltb_spec (4 + (n + 1)) (2 + 1 + n + 2)); [lia|]. destruct (Z.ltb_spec (4 + (n + 1)) (4 + n + 2)); [done|lia].
Qed.

(** Where no target parses, the parser gives no data. *)
Lemma ParseReverseUDPFrame_none b a payload : Forall is_byte b -> parseBlock b = None ->
  ParseReverseUDPFrame ResolveUDPAddr ([0; 0] ++ b) <> RData a payload.
Proof.
  intros Hbytes. pose proof (byte_at_byte b 1 Hbytes) as Hbyte. unfold is_byte in Hbyte. unfold parseBlock, ParseReverseUDPFrame.
  rewrite len_app. change (len [0; 0]) with 2. change (byte_at ([0; 0] ++ b) 0) with 0. change (byte_at ([0; 0] ++ b) 1) with 0.
  change (byte_at ([0; 0] ++ b) 2) with (byte_at b 0). change (byte_at ([0; 0] ++ b) 3) with (byte_at b 1). cbv zeta.
  cbn [Z.eqb negb orb]. unfold ReverseATYPHeart. destruct (Z.ltb_spec (2 + len b) 3); [done|]. destruct (Z.ltb_spec (len b) 1); [lia|].
  destruct (Z.eqb_spec (byte_at b 0) 255) as [|_]; [done|]. destruct (Z.ltb_spec (2 + len b) 5); [done|].
  destruct (Z.eqb_spec (byte_at b 0) 1) as [_|_].
  { destruct (Z.ltb_spec (len b) (5 + 2)); [|done]. intros _. destruct (Z.ltb_spec (2 + len b) (2 + 1 + 4 + 2)); [done|lia]. }
  destruct (Z.eqb_spec (byte_at b 0) 3) as [_|_].
  { destruct (Z.ltb_spec (len b) 2); [intros _; destruct (Z.ltb_spec (2 + len b) (2 + 1 + 1 + 2)); [done|lia]|]. destruct (Z.ltb_spec (len b) (2 + byte_at b 1 + 2)); [|done]. intros _.
    repeat (case_match; try done); lia. }
  destruct (Z.eqb_spec (byte_at b 0) 4) as [_|_]; [|done].
  destruct (Z.ltb_spec (len b) (17 + 2)); [|done]. intros _. destruct (Z.ltb_spec (2 + len b) (2 + 1 + 16 + 2)); [done|lia].
Qed.

(** A frame with two zero bytes ahead, or an error. *)
Lemma reverse_prefix data : ParseReverseUDPFrame ResolveUDPAddr data = RError \/ exists b, data = [0; 0] ++ b.
Proof.
  unfold ParseReverseUDPFrame. destruct (Z.ltb_spec (len data) 3); [by left|].
  destruct data as [|x [|y b]]; [rewrite ?len_cons, len_nil in *; lia..|]. change (byte_at (x :: y :: b) 0) with x. change (byte_at (x :: y :: b) 1) with y.
  destruct (Z.eqb_spec x 0) as [->|]; [|by left]. destruct (Z.eqb_spec y 0) as [->|]; [|by left]. right. by exists b.
Qed.

Lemma reverse_data data a payload : Forall is_byte data ->
  ParseReverseUDPFrame ResolveUDPAddr data = RData a payload <->
  exists t port, wfTarget t /\ 0 <= port < 2 ^ 16 /\ data = [0; 0] ++ block t port ++ payload /\ toNet t port = Some a.
Proof.
  intros Hb. split.
  - intros H. destruct (reverse_prefix data) as [E|[b ->]]; [congruence|]. apply Forall_app in Hb as [_ Hb].
    destruct (parseBlock b) as [[[t port] rest]|] eqn:Eb; [|by apply ParseReverseUDPFrame_none in H].
    rewrite (ParseReverseUDPFrame_block _ _ _ _ Hb Eb) in H. destruct (toNet t port) eqn:En; [|done]. injection H as <- <-.
    destruct (parseBlock_inv _ _ _ _ Hb Eb) as (Hw & Hp & ->). by exists t, port.
  - intros (t & port & Hw & Hp & -> & En). apply Forall_app in Hb as [_ Hb].
    rewrite (ParseReverseUDPFrame_block _ t port payload Hb); [by rewrite En|]. rewrite parseBlock_block by done. by rewrite wrap_small.
Qed.

Lemma reverse_heartbeat data :
  ParseReverseUDPFrame ResolveUDPAddr data = RHeartbeat <-> exists rest, data = [0; 0; 0xFF] ++ rest.
Proof.
  split.
  - intros H. destruct (reverse_prefix data) as [E|[b ->]]; [congruence|]. revert H. unfold ParseReverseUDPFrame.
    rewrite len_app. change (len [0; 0]) with 2. change (byte_at ([0; 0] ++ b) 0) with 0. change (byte_at ([0; 0] ++ b) 1) with 0.
    change (byte_at ([0; 0] ++ b) 2) with (byte_at b 0). destruct (Z.ltb_spec (2 + len b) 3); [done|]. cbn [Z.eqb negb orb].
    unfold ReverseATYPHeart. destruct (Z.eqb_spec (byte_at b 0) 255) as [E|_].
    + intros _. destruct b as [|x rest]; [rewrite len_nil in *; lia|]. change (byte_at (x :: rest) 0) with x in E. subst x. by exists rest.
    + cbv zeta. intros H'. repeat (case_match; try done).
  - intros [rest ->]. unfold ParseReverseUDPFrame. rewrite len_app. change (len [0; 0; 0xFF]) with 3. pose proof (len_nonneg rest).
    destruct (Z.ltb_spec (3 + len rest) 3); [lia|]. done.
Qed.
End Blocks.

(** C36: what the parser of reverse UDP frames makes of every text of bytes: it is a
    heartbeat exactly when it begins with two zeros and 0xFF; it is data for an address
    exactly when it is two zeros, the encoding of a target and a port that resolve to that
    address, and the payload; the parser panics exactly when it is a name of at least one
    byte followed by a single byte, since its length check is one byte short; and in every
    other case, an unresolved name among them, it is an error.  The builders' frames are
    of these shapes: one built for an IP or for a name of at most 255 bytes parses back to
    that target, port and payload, and the built heartbeat is recognised. *)
Theorem reverseUDP_exact ParseIP SplitHostPort Resolve :
  let parse := ParseReverseUDPFrame Resolve in
  let heartbeat data := exists rest, data = [0; 0; 0xFF] ++ rest in
  let encodes data t port payload := wfTarget t /\ 0 <= port < 2 ^ 16 /\ data = [0; 0] ++ block t port ++ payload in
  let short data := exists n body, data = [0; 0; 3; n] ++ body /\ 1 <= n /\ len body = n + 1 in
  (forall data, Forall is_byte data ->
     (parse data = RHeartbeat <-> heartbeat data) /\
     (forall a payload, parse data = RData a payload <-> exists t port, encodes data t port payload /\ toNet Resolve t port = Some a) /\
     (parse data = RPanic <-> short data) /\
     (parse data = RError <-> ~ heartbeat data /\ ~ short data /\
        forall t port payload, encodes data t port payload -> toNet Resolve t port = None)) /\
  (forall ip port payload, wfIP ip -> 0 <= port < 2 ^ 16 -> Forall is_byte payload ->
     parse (BuildReverseUDPFrame ParseIP SplitHostPort (UDPAddr ip port) payload) = RData (UDPAddr (canon ip) port) payload) /\
  (forall s host p payload, SplitHostPort s = Some (host, p) -> ParseIP host = None -> Forall is_byte host -> len host <= 255 -> Forall is_byte payload ->
     parse (BuildReverseUDPFrame ParseIP SplitHostPort (OtherAddr s) payload) =
     match Resolve host (wrap 16 (atoi p)) with Some a => RData a payload | None => RError end) /\
  parse BuildReverseUDPHeartbeat = RHeartbeat.
Proof.
  cbv zeta. split_and!; [| | |done].
  - intros data Hb. pose proof (reverse_heartbeat Resolve data) as Hh. pose proof (reverse_panic Resolve data Hb) as Hp.
    pose proof (fun a payload => reverse_data Resolve data a payload Hb) as Hd. split_and!; [done| |done|].
    + intros a payload. rewrite Hd. split; [intros (t & port & ? & ? & ? & ?)|intros (t & port & (? & ? & ?) & ?)]; by exists t, port.
    + rewrite <- Hh, <- Hp. split.
      * intros E. rewrite E. split_and!; [done..|]. intros t port payload (? & ? & ?).
        destruct (toNet Resolve t port) as [a|] eqn:En; [|done].
        assert (ParseReverseUDPFrame Resolve data = RData a payload) by (apply Hd; by exists t, port). congruence.
      * intros (H1 & H2 & H3). destruct (ParseReverseUDPFrame Resolve data) as [a payload| | |] eqn:E; try done.
        destruct (proj1 (Hd a payload) eq_refl) as (t & port & ? & ? & ? & En). by rewrite (H3 t port payload) in En.
  - intros ip port payload Hip Hport Hpay. cbn [BuildReverseUDPFrame]. rewrite buildReverseAddr_block, <- app_assoc by done.
    assert (Hb : Forall is_byte (block (targetOf ip) port ++ payload)) by (apply Forall_app_2; [by apply block_bytes, targetOf_wf|done]).
    rewrite (ParseReverseUDPFrame_block _ _ (targetOf ip) port payload Hb).
    + unfold targetOf, canon. by destruct (To4 ip).
    + rewrite parseBlock_block by (by apply targetOf_wf). by rewrite wrap_small.
  - intros s host p payload Hs Hh Hhb Hlen Hpay. cbn [BuildReverseUDPFrame]. rewrite Hs, Hh. destruct (Z.ltb_spec 255 (len host)); [lia|].
    change [0; 0; 3; byte_of (len host)] with ([0; 0] ++ [3; byte_of (len host)]). rewrite <- !app_assoc.
    rewrite (app_assoc [3; byte_of (len host)]), (app_assoc _ (PutUint16 (atoi p))), <- (app_assoc [3; byte_of (len host)]).
    rewrite domain_block by done. assert (Hw : wfTarget (Domain host)) by done.
    rewrite (ParseReverseUDPFrame_block _ _ (Domain host) (wrap 16 (atoi p)) payload); [done| |by apply parseBlock_block].
    apply Forall_app_2; [by apply block_bytes|done].
Qed.

Lemma reverseUDP_exact_witness :
  ParseReverseUDPFrame (fun _ _ => None) (BuildReverseUDPFrame (fun _ => None) (fun _ => None) (UDPAddr [10; 0; 0; 1] 53) [7; 8]) =
    RData (UDPAddr [10; 0; 0; 1] 53) [7; 8] /\
  ParseReverseUDPFrame (fun _ _ => None) [0; 0; 3; 2; 97; 98; 0] = RPanic.
Proof.
  destruct (reverseUDP_exact (fun _ => None) (fun _ => None) (fun _ _ => None)) as (Hp & Hip & _ & _). split.
  - apply (Hip [10; 0; 0; 1] 53 [7; 8]); [split; [repeat constructor; lia|by left]|lia|repeat constructor; lia].
  - apply (Hp [0; 0; 3; 2; 97; 98; 0]); [repeat constructor; lia|]. exists 2, [97; 98; 0]. split; [done|]. split; [lia|reflexivity].
Defined.

(** UDP headers round-trip between the ends: for every IP address and port the header
    of util is parsed back with what follows it, and the SOCKS5 headers that client and
    server write are read by the other end as the same address, port and data. *)
Theorem udpHeaders_roundtrip ParseIP IPString AddrString SplitHostPort Resolve ip port data :
  wfIP ip -> 0 <= port < 2 ^ 16 -> Forall is_byte data ->
  (exists h, BuildUDPAddrHeader ParseIP SplitHostPort (UDPAddr ip port) = Some h /\
             ParseUDPAddrHeader Resolve (h ++ data) = Some (UDPAddr (canon ip) port, data)) /\
  parseSocks5UDP IPString (buildSocks5UDPHeader IPString AddrString SplitHostPort ip port ++ data) = Some (IPString (canon ip), port, data) /\
  parseSocks5UDP IPString (serverSocks5UDPHeader ParseIP AddrString SplitHostPort (Some (UDPAddr ip port)) ++ data) = Some (IPString (canon ip), port, data).
Proof.
  intros Hip Hport Hdata. pose proof (targetOf_wf ip Hip) as Hw.
  assert (Hparse : parseBlock (block (targetOf ip) port ++ data) = Some (targetOf ip, port, data)) by (rewrite parseBlock_block by done; by rewrite wrap_small).
  assert (Hb : Forall is_byte (block (targetOf ip) port ++ data)) by (apply Forall_app_2; [by apply block_bytes|done]).
  assert (Hlen : 7 <= len (block (targetOf ip) port ++ data)).
  { unfold block. rewrite !len_app, len_PutUint16. pose proof (len_nonneg data). unfold targetOf in *. destruct (To4 ip); cbn [addrPart] in *; rewrite len_cons;
      destruct Hw as [_ ->]; lia. }
  assert (Htext : hostText IPString (targetOf ip) = IPString (canon ip)) by (unfold targetOf, canon; by destruct (To4 ip)).
  destruct (buildSocks5UDPHeader_block ParseIP IPString AddrString SplitHostPort ip port Hip) as [-> ->]. rewrite <- !app_assoc.
  split_and!; [|by rewrite (parseSocks5UDP_block IPString _ _ _ _ Hb Hlen Hparse), Htext..].
  exists (block (targetOf ip) port). split; [cbn; by rewrite buildUDPAddr_block|]. rewrite ParseUDPAddrHeader_block, Hparse. unfold targetOf, canon. by destruct (To4 ip).
Qed.

Lemma udpHeaders_roundtrip_witness :
  parseSocks5UDP (fun ip => ip) (serverSocks5UDPHeader (fun _ => None) (fun _ _ => []) (fun _ => None) (Some (UDPAddr [10; 0; 0; 1] 53)) ++ [9]) =
  Some ([10; 0; 0; 1], 53, [9]).
Proof.
  apply (udpHeaders_roundtrip (fun _ => None) (fun ip => ip) (fun _ _ => []) (fun _ => None) (fun _ _ => None) [10; 0; 0; 1] 53 [9]);
    [split; [repeat constructor; lia|by left]|lia|repeat constructor; lia].
Defined.

(** A packet of nine bytes to a one-letter name is skipped as too short, though whole. *)
Example short_name_skipped IPString : parseSocks5UDP IPString ([0; 0; 0] ++ block (Domain [97]) 53 ++ [7]) = None.
Proof. reflexivity. Qed.
