(* ===== verification/Handshake.v ===== *)
(** Handshake: the SOCKS5 and Trojan handshakes, client (src/dialer/socks5.go,
    socks5_udp.go, trojan.go) and server (src/server/socks5.go, trojan.go) together over
    one connection, and the packets of Trojan's UDP tunnel.

    A side of a connection is a process that reads exact numbers of bytes, writes, and
    ends, keeping the connection open or closing it.  Two processes run over two byte
    queues in any interleaving.  Writes do not fail; a read from a side that has closed
    fails once the bytes run out.  Texts are lists of bytes. *)

From Stdlib Require Import ZArith Lia String Ascii.
From stdpp Require Import base list numbers relations.
From S2P Require Import Prelude GoStrings IPPacket AddrCodec.
Open Scope Z_scope.

(** ** Processes over a connection *)

Inductive Proc (A : Type) :=
| End (a : A) (keep : bool)
| ReadFull (n : Z) (eof : Proc A) (k : list Z -> Proc A)
| Write (bs : list Z) (k : Proc A).
Arguments End {A}.
Arguments ReadFull {A}.
Arguments Write {A}.

(** Two sides and the bytes under way to each. *)
Record Conn (A B : Type) := mkConn { left : Proc A; right : Proc B; toLeft : list Z; toRight : list Z }.
Arguments mkConn {A B}.
Arguments left {A B}.
Arguments right {A B}.
Arguments toLeft {A B}.
Arguments toRight {A B}.

Inductive step {A B} : Conn A B -> Conn A B -> Prop :=
| writeL bs k q l r : step (mkConn (Write bs k) q l r) (mkConn k q l (r ++ bs))
| writeR p bs k l r : step (mkConn p (Write bs k) l r) (mkConn p k (l ++ bs) r)
| readL n eof k q bs l r : n = len bs -> step (mkConn (ReadFull n eof k) q (bs ++ l) r) (mkConn (k bs) q l r)
| readR p n eof k bs l r : n = len bs -> step (mkConn p (ReadFull n eof k) l (bs ++ r)) (mkConn p (k bs) l r)
| eofL n eof k b l r : len l < n -> step (mkConn (ReadFull n eof k) (End b false) l r) (mkConn eof (End b false) l r)
| eofR a n eof k l r : len r < n -> step (mkConn (End a false) (ReadFull n eof k) l r) (mkConn (End a false) eof l r).

(** ** src/dialer: the clients *)

Inductive Socks5Error := ERead | EVersion (v : Z) | EAuth | EMethod (m : Z) | ENameTooLong (n : Z) | ECommand (status : Z)
  | EBindType (t : Z).

Record ProxyAuth := mkAuth { Username : list Z; Password : list Z }.

Definition socks5Auth {A} (px : ProxyAuth) (fail : Socks5Error -> Proc A) (ok : Proc A) : Proc A :=
  let needAuth := negb (bool_decide (Username px = [])) in
  Write [0x05; 0x01; if needAuth then 0x02 else 0x00]
    (ReadFull 2 (fail ERead) (fun resp =>
       if negb (byte_at resp 0 =? 0x05) then fail (EVersion (byte_at resp 0))
       else if (byte_at resp 1 =? 0x02) && needAuth then
         Write ([0x01] ++ [byte_of (len (Username px))] ++ Username px ++ [byte_of (len (Password px))] ++ Password px)
           (ReadFull 2 (fail ERead) (fun authResp => if negb (byte_at authResp 1 =? 0x00) then fail EAuth else ok))
       else if negb (byte_at resp 1 =? 0x00) then fail (EMethod (byte_at resp 1))
       else ok)).

(** The dialer closes the connection on an error. *)
Definition fails {A} (e : Socks5Error) : Proc (A + Socks5Error) := End (inr e) false.

Definition socks5Handshake (px : ProxyAuth) (dstAddr : list Z) (dstPort cmd : Z) : Proc (unit + Socks5Error) :=
  socks5Auth px fails
    (if 255 <? len dstAddr then fails (ENameTooLong (len dstAddr))
     else
       Write ([0x05; cmd; 0x00; 0x03] ++ [byte_of (len dstAddr)] ++ dstAddr ++ PutUint16 dstPort)
         (ReadFull 4 (fails ERead) (fun cmdResp =>
            if negb (byte_at cmdResp 1 =? 0x00) then fails (ECommand (byte_at cmdResp 1))
            else
              let skip n := ReadFull n (fails ERead) (fun _ => End (inl tt) true) in
              if byte_at cmdResp 3 =? 0x01 then skip (4 + 2)
              else if byte_at cmdResp 3 =? 0x03 then ReadFull 1 (fails ERead) (fun lenBuf => skip (byte_at lenBuf 0 + 2))
              else if byte_at cmdResp 3 =? 0x04 then skip (16 + 2)
              else fails (EBindType (byte_at cmdResp 3))))).

(** Socks5UDPAssociate up to the relay address in text form. *)
Definition socks5UDPAssociate (IPString : list Z -> list Z) (px : ProxyAuth) : Proc ((list Z * Z) + Socks5Error) :=
  socks5Auth px fails
    (Write [0x05; 0x03; 0x00; 0x01; 0; 0; 0; 0; 0; 0]
       (ReadFull 4 (fails ERead) (fun resp =>
          if negb (byte_at resp 0 =? 0x05) || negb (byte_at resp 1 =? 0x00) then fails (ECommand (byte_at resp 1))
          else if byte_at resp 3 =? 0x01 then
            ReadFull (4 + 2) (fails ERead) (fun b => End (inl (IPString (sub b 0 4), Uint16 (sub b 4 6))) true)
          else if byte_at resp 3 =? 0x03 then
            ReadFull 1 (fails ERead) (fun lenBuf =>
              let n := byte_at lenBuf 0 in
              ReadFull (n + 2) (fails ERead) (fun b => End (inl (sub b 0 n, Uint16 (from b n))) true))
          else if byte_at resp 3 =? 0x04 then
            ReadFull (16 + 2) (fails ERead) (fun b => End (inl (IPString (sub b 0 16), Uint16 (sub b 16 18))) true)
          else fails (EBindType (byte_at resp 3))))).

(** ** src/server: the servers *)

(** How a handler ends: without an answer, with a failure status, with the connection
    handed on, or returned with the connection neither closed nor handed on. *)
Inductive Served := Dropped | Refused (status : Z) | Leaked | Control (dst : list Z) | P2P (dst : list Z) | Reverse (dst : list Z)
  | UDPRelay (port : Z) | Relayed (dst : list Z) (port : Z).

Definition BindPortControl : Z := 1.
Definition BindPortData : Z := 0.
Definition BindPortP2P : Z := 2.

Definition dropped : Proc Served := End Dropped false.
Definition sendSocks5Response (status : Z) : list Z := [0x05; status; 0x00; 0x01; 0; 0; 0; 0; 0; 0].

Section Server.
(** net.IP.String; whether an address is a known reverse address; whether a dial through
    the mesh succeeds; the port of a new UDP socket. *)
Variable IPString : list Z -> list Z.
Variable HasReverseAddress : list Z -> bool.
Variable MeshDial : list Z -> Z -> bool.
Variable ListenUDP : option Z.

(** The address of a request by its type; [fail] when the bytes run out, [bad] for an
    unknown type. *)
Definition readAddr {A} (atyp : Z) (fail bad : Proc A) (k : list Z -> Proc A) : Proc A :=
  if atyp =? 0x01 then ReadFull 4 fail (fun ipBuf => k (IPString ipBuf))
  else if atyp =? 0x03 then ReadFull 1 fail (fun lenBuf => ReadFull (byte_at lenBuf 0) fail k)
  else if atyp =? 0x04 then ReadFull 16 fail (fun ipBuf => k (IPString ipBuf))
  else bad.

(** The request served: the answer bytes, if any, and how it ends. *)
Definition socks5Serve (cmd : Z) (dstAddr : list Z) (dstPort : Z) : list Z * Served :=
  let refuse status := (sendSocks5Response status, Refused status) in
  if cmd =? 0x02 then
    if dstPort =? BindPortControl then (sendSocks5Response 0x00, Control dstAddr)
    else if dstPort =? BindPortP2P then (sendSocks5Response 0x00, P2P dstAddr)
    else if negb (dstPort =? BindPortData) then refuse 0x05
    else if negb (HasReverseAddress dstAddr) then refuse 0x05
    else (sendSocks5Response 0x00, Reverse dstAddr)
  else if cmd =? 0x03 then
    match ListenUDP with
    | None => refuse 0x01
    | Some port => ([0x05; 0x00; 0x00; 0x01; 0; 0; 0; 0] ++ PutUint16 port, UDPRelay port)
    end
  else if negb (cmd =? 0x01) then refuse 0x07
  else if MeshDial dstAddr dstPort then (sendSocks5Response 0x00, Relayed dstAddr dstPort)
  else refuse 0x05.

Definition keeps (s : Served) : bool := match s with Dropped | Refused _ => false | _ => true end.

Definition socks5Request : Proc Served :=
  ReadFull 4 dropped (fun cmdHeader =>
    let cmd := byte_at cmdHeader 1 in
    readAddr (byte_at cmdHeader 3) dropped (Write (sendSocks5Response 0x08) (End (Refused 0x08) false)) (fun dstAddr =>
      ReadFull 2 dropped (fun portBuf =>
        let '(answer, served) := socks5Serve cmd dstAddr (Uint16 portBuf) in
        Write answer (End served (keeps served))))).

(** Socks5Server.HandleConn for a mapping with these credentials. *)
Definition socks5HandleConn (mapping : ProxyAuth) : Proc Served :=
  let needAuth := negb (bool_decide (Password mapping = [])) in
  ReadFull 2 dropped (fun header =>
    if negb (byte_at header 0 =? 0x05) then dropped
    else ReadFull (byte_at header 1) dropped (fun methods =>
      if needAuth then
        if negb (existsb (fun m => m =? 0x02) methods) then Write [0x05; 0xff] dropped
        else Write [0x05; 0x02]
          (ReadFull 1 dropped (fun _ =>
           ReadFull 1 dropped (fun ulenBuf =>
           ReadFull (byte_at ulenBuf 0) dropped (fun uname =>
           ReadFull 1 dropped (fun plenBuf =>
           ReadFull (byte_at plenBuf 0) dropped (fun passwd =>
             if negb (bool_decide (uname = Username mapping)) || negb (bool_decide (passwd = Password mapping))
             then Write [0x01; 0x01] dropped
             else Write [0x01; 0x00] socks5Request))))))
      else Write [0x05; 0x00] socks5Request)).

(** TrojanServer.HandleConn; [password] is the hex digest. *)
Definition trojanServe (cmd : Z) (dstAddr : list Z) (dstPort : Z) : Served :=
  if cmd =? 0x02 then
    if dstPort =? BindPortControl then Control dstAddr
    else if dstPort =? BindPortP2P then P2P dstAddr
    else if negb (dstPort =? BindPortData) then Dropped
    else if negb (HasReverseAddress dstAddr) then Dropped
    else Reverse dstAddr
  else if cmd =? 0x03 then match ListenUDP with None => Leaked | Some port => UDPRelay port end
  else if MeshDial dstAddr dstPort then Relayed dstAddr dstPort
  else Dropped.

Definition trojanHandleConn (password : list Z) : Proc Served :=
  ReadFull 56 dropped (fun passwordBuf =>
    if negb (bool_decide (passwordBuf = password)) then dropped
    else ReadFull 2 dropped (fun crlf =>
      if negb (byte_at crlf 0 =? 0x0d) || negb (byte_at crlf 1 =? 0x0a) then dropped
      else ReadFull 2 dropped (fun cmdAtyp =>
        readAddr (byte_at cmdAtyp 1) dropped dropped (fun dstAddr =>
          ReadFull 2 dropped (fun portBuf =>
            ReadFull 2 dropped (fun _ =>
              let served := trojanServe (byte_at cmdAtyp 0) dstAddr (Uint16 portBuf) in End served (keeps served))))))).
End Server.

(** SendTrojanRequestWithCmd; the result is whether the request was written. *)
Definition SendTrojanRequestWithCmd (ParseIP : list Z -> option (list Z)) (Sha224Hex : list Z -> list Z)
    (password : list Z) (cmd : Z) (dstAddr : list Z) (dstPort : Z) : Proc bool :=
  match EncodeTrojanAddr ParseIP dstAddr dstPort with
  | None => End false false
  | Some (atyp, addrBytes) =>
      Write (Sha224Hex password ++ [0x0d; 0x0a] ++ [cmd] ++ [atyp] ++ addrBytes ++ [0x0d; 0x0a]) (End true true)
  end.

(** ** Runs *)

(** Every run from [c] is finite and ends in [d]. *)
Definition settles {A B} (c d : Conn A B) : Prop :=
  sn step c /\ nf step d /\ forall e, rtc step c e -> rtc step e d.

Section Runs.
Context {A B : Type}.
Implicit Types c d e : Conn A B.

Lemma step_sn c : sn step c.
Proof.
  destruct c as [p q l r]. revert q l r. induction p as [a b|n eof IHe k IHk|bs k IHk]; intros q.
  all: induction q as [a' b'|n' eof' IHe' k' IHk'|bs' k' IHk']; intros l r; constructor; intros c' Hc; unfold flip in Hc; inversion Hc; subst; eauto.
Qed.

Lemma app_split_eq {X} (a b l k : list X) : len a = len b -> a ++ l = b ++ k -> a = b /\ l = k.
Proof. unfold len. intros H. apply app_inj_1. lia. Qed.

(** Two different steps of a configuration are of different sides and commute. *)
Lemma step_diamond c d e : step c d -> step c e -> d = e \/ exists f, step d f /\ step e f.
Proof.
  assert (Hlong : forall (bs l : list Z), len (bs ++ l) < len bs -> False) by (intros bs l; rewrite len_app; pose proof (len_nonneg l); lia).
  intros Hd He. destruct Hd; inversion He; subst; simplify_eq; try (left; reflexivity);
    try match goal with H : ?a ++ _ = ?b ++ _ |- _ => apply app_split_eq in H as [? ?]; [subst; left; reflexivity|lia] end;
    try (exfalso; eauto; fail); right; rewrite <- ?app_assoc.
  all: try (eexists; split; [by constructor|by constructor]).
  all: try (eexists; split; [by constructor|]; rewrite ?app_assoc; by constructor).
  all: try (eexists; split; [|by constructor]; rewrite <- ?app_assoc; by constructor).
Qed.

Lemma step_confluent : confluent (@step A B).
Proof.
  apply locally_confluent_confluent; [exact step_sn|]. intros c d e Hd He.
  destruct (step_diamond c d e Hd He) as [->|(f & H1 & H2)]; [by exists e|]. exists f. split; by apply rtc_once.
Qed.

(** One run to an end shows the end of all. *)
Lemma settles_run c d : rtc step c d -> nf step d -> settles c d.
Proof.
  intros Hr Hn. split_and!; [apply step_sn|done|]. intros e He. destruct (step_confluent c d e Hr He) as (f & Hdf & Hef).
  apply rtc_nf in Hdf; [|done]. by subst.
Qed.

Lemma end_nf (a : A) (b : B) ka kb l r : nf step (mkConn (End a ka) (End b kb) l r).
Proof. intros [c Hc]. inversion Hc. Qed.

(** ** Steps of a run *)

Lemma run_writeL bs k (q : Proc B) l r d : rtc step (mkConn k q l (r ++ bs)) d -> rtc step (mkConn (Write bs k) q l r) d.
Proof. apply rtc_l. constructor. Qed.
Lemma run_writeR (p : Proc A) bs k l r d : rtc step (mkConn p k (l ++ bs) r) d -> rtc step (mkConn p (Write bs k) l r) d.
Proof. apply rtc_l. constructor. Qed.
Lemma run_readL n eof k (q : Proc B) bs l r d : n = len bs -> rtc step (mkConn (k bs) q l r) d -> rtc step (mkConn (ReadFull n eof k) q (bs ++ l) r) d.
Proof. intros H. apply rtc_l. by constructor. Qed.
Lemma run_readR (p : Proc A) n eof k bs l r d : n = len bs -> rtc step (mkConn p (k bs) l r) d -> rtc step (mkConn p (ReadFull n eof k) l (bs ++ r)) d.
Proof. intros H. apply rtc_l. by constructor. Qed.
Lemma run_eofL n eof k b l r d : len l < n -> rtc step (mkConn eof (End b false) l r) d -> rtc step (mkConn (ReadFull n eof k) (End b false) l r) d.
Proof. intros H. apply rtc_l. by constructor. Qed.
Lemma run_eofR a n eof k l r d : len r < n -> rtc step (mkConn (End a false) eof l r) d -> rtc step (mkConn (End a false) (ReadFull n eof k) l r) d.
Proof. intros H. apply rtc_l. by constructor. Qed.
End Runs.

(** ** The SOCKS5 handshake *)

(** Which credentials a mapping takes: any when it has no password; otherwise its own,
    which a client sends only when it has a user name. *)
Definition accepted (px mapping : ProxyAuth) : bool :=
  bool_decide (Password mapping = []) ||
  negb (bool_decide (Username px = [])) && bool_decide (Username px = Username mapping) && bool_decide (Password px = Password mapping).

Definition authError (px : ProxyAuth) : Socks5Error := if bool_decide (Username px = []) then EMethod 0xff else EAuth.

(** Credentials whose lengths fit their length bytes. *)
Definition shortAuth (px : ProxyAuth) : Prop := len (Username px) <= 255 /\ len (Password px) <= 255.

Lemma byte_len {A} (l : list A) : len l <= 255 -> byte_of (len l) = len l.
Proof. intros H. apply wrap_small. pose proof (len_nonneg l). change (2 ^ 8) with 256. lia. Qed.

Section Socks5.
Variable IPString : list Z -> list Z.
Variable HasReverseAddress : list Z -> bool.
Variable MeshDial : list Z -> Z -> bool.
Variable ListenUDP : option Z.
Notation handler := (socks5HandleConn IPString HasReverseAddress MeshDial ListenUDP).
Notation request := (socks5Request IPString HasReverseAddress MeshDial ListenUDP).
Notation serve := (socks5Serve HasReverseAddress MeshDial ListenUDP).

Lemma socks5Auth_run {A} px mapping (fail : Socks5Error -> Proc A) ok : shortAuth px ->
  rtc step (mkConn (socks5Auth px fail ok) (handler mapping) [] [])
    (if accepted px mapping then mkConn ok request [] [] else mkConn (fail (authError px)) dropped [] []).
Proof.
  intros [Hu Hp]. unfold socks5Auth, socks5HandleConn, accepted, authError. apply run_writeL. cbn [app].
  set (need := bool_decide (Username px = [])).
  apply (run_readR _ _ _ _ [5; 1]); [done|]. cbn [byte_at negb Z.eqb].
  change (negb (byte_at [5; 1] 0 =? 5)) with false. cbn iota. change (byte_at [5; 1] 1) with 1.
  rewrite <- (app_nil_r [if negb need then 2 else 0]). apply run_readR; [done|].
  destruct (bool_decide_reflect (Password mapping = [])) as [Em|Em]; cbn [negb orb].
  - apply run_writeR. apply (run_readL _ _ _ _ [5; 0] []); [done|].
    change (byte_at [5; 0] 0) with 5. change (byte_at [5; 0] 1) with 0. cbn. done.
  - destruct need eqn:En; cbn [negb existsb Z.eqb orb andb].
    + apply run_writeR. apply (run_readL _ _ _ _ [5; 255] []); [done|]. done.
    + apply run_writeR. apply (run_readL _ _ _ _ [5; 2] []); [done|].
      change (byte_at [5; 2] 0) with 5. change (byte_at [5; 2] 1) with 2. cbn [negb Z.eqb andb]. apply run_writeL. cbn [app].
      rewrite !byte_len by done.
      apply (run_readR _ _ _ _ [1]); [done|]. apply (run_readR _ _ _ _ [len (Username px)]); [done|].
      change (byte_at [len (Username px)] 0) with (len (Username px)). apply run_readR; [done|].
      apply (run_readR _ _ _ _ [len (Password px)]); [done|]. change (byte_at [len (Password px)] 0) with (len (Password px)).
      rewrite <- (app_nil_r (Password px)) at 2. apply run_readR; [done|].
      rewrite <- negb_andb. destruct (_ && _); cbn [negb]; apply run_writeR; cbn [app];
        [apply (run_readL _ _ _ _ [1; 0] [])|apply (run_readL _ _ _ _ [1; 1] [])]; done.
Qed.

(** What the client of a request and the server of it end with. *)
Definition socks5Result (served : Served) : unit + Socks5Error := match served with Refused s => inr (ECommand s) | _ => inl tt end.

Lemma serve_answer cmd dst port : exists tail, len tail = 6 /\
  fst (serve cmd dst port) = [5; match snd (serve cmd dst port) with Refused s => s | _ => 0 end; 0; 1] ++ tail /\
  (forall s, snd (serve cmd dst port) = Refused s -> s <> 0 /\ tail = replicate 6 0) /\ snd (serve cmd dst port) <> Dropped /\ snd (serve cmd dst port) <> Leaked.
Proof.
  unfold socks5Serve. destruct ListenUDP; repeat match goal with |- context [if ?b then _ else _] => destruct b end; cbn [fst snd];
    eexists; (split; [|split; [reflexivity|split; [|done]]]); try reflexivity; by intros s [= <-].
Qed.

(** A request for a name and a port reaches the server as it is. *)
Lemma request_run (p : Proc (unit + Socks5Error)) cmd dst port : len dst <= 255 ->
  rtc step (mkConn p request [] ([5; cmd; 0; 3] ++ [byte_of (len dst)] ++ dst ++ PutUint16 port))
    (mkConn p (End (snd (serve cmd dst (wrap 16 port))) (keeps (snd (serve cmd dst (wrap 16 port))))) (fst (serve cmd dst (wrap 16 port))) []).
Proof.
  intros Hd. unfold socks5Request, readAddr. apply run_readR; [done|].
  change (byte_at [5; cmd; 0; 3] 1) with cmd. change (byte_at [5; cmd; 0; 3] 3) with 3. cbn [Z.eqb Pos.eqb]. rewrite byte_len by done.
  apply run_readR; [done|]. change (byte_at [len dst] 0) with (len dst). apply run_readR; [done|].
  rewrite <- (app_nil_r (PutUint16 port)). apply run_readR; [done|].
  rewrite <- (app_nil_r (PutUint16 port)), Uint16_put. destruct (serve cmd dst (wrap 16 port)) as [ans served] eqn:E.
  apply run_writeR. cbn [app fst snd]. apply rtc_refl.
Qed.

Lemma skip_run {B} (q : Proc B) l : len l = 6 ->
  rtc step (mkConn (ReadFull (4 + 2) (fails ERead) (fun _ => End (inl tt : unit + Socks5Error) true)) q l []) (mkConn (End (inl tt) true) q [] []).
Proof. intros H. rewrite <- (app_nil_r l). by apply run_readL; [|apply rtc_refl]. Qed.

Lemma socks5Handshake_run px mapping dst port cmd : shortAuth px ->
  rtc step (mkConn (socks5Handshake px dst port cmd) (handler mapping) [] [])
    (if negb (accepted px mapping) then mkConn (fails (authError px)) dropped [] []
     else if 255 <? len dst then mkConn (fails (ENameTooLong (len dst))) dropped [] []
     else let served := snd (serve cmd dst (wrap 16 port)) in
       mkConn (End (socks5Result served) (keeps served)) (End served (keeps served)) (if keeps served then [] else replicate 6 0) []).
Proof.
  intros Hs. unfold socks5Handshake. etrans; [by apply socks5Auth_run|]. destruct (accepted px mapping); cbn [negb]; [|done].
  destruct (Z.ltb_spec 255 (len dst)) as [?|Hd].
  - unfold fails, socks5Request. apply run_eofR; [done|]. apply rtc_refl.
  - apply run_writeL. cbn [app]. etrans; [by apply request_run|]. cbv zeta.
    destruct (serve_answer cmd dst (wrap 16 port)) as (tail & Ht & -> & Hne & Hnd & Hnl). apply run_readL; [done|].
    set (sv := snd _) in *. set (st := match sv with Refused s => s | _ => 0 end).
    change (byte_at [5; st; 0; 1] 1) with st. change (byte_at [5; st; 0; 1] 3) with 1. cbn [Z.eqb Pos.eqb].
    destruct sv eqn:Esv; try done; cbn [keeps socks5Result]; subst st; cbn [negb Z.eqb]; try (by apply skip_run).
    destruct (Hne _ eq_refl) as [? ->]. by destruct (Z.eqb_spec status 0).
Qed.

Lemma socks5UDPAssociate_run px mapping : shortAuth px ->
  rtc step (mkConn (socks5UDPAssociate IPString px) (handler mapping) [] [])
    (if accepted px mapping then
       match ListenUDP with
       | Some port => mkConn (End (inl (IPString [0; 0; 0; 0], wrap 16 port)) true) (End (UDPRelay port) true) [] []
       | None => mkConn (fails (ECommand 1)) (End (Refused 1) false) (replicate 6 0) []
       end
     else mkConn (fails (authError px)) dropped [] []).
Proof.
  intros Hs. unfold socks5UDPAssociate. etrans; [by apply socks5Auth_run|]. destruct (accepted px mapping); [|done].
  apply run_writeL. cbn [app]. unfold socks5Request, readAddr. apply (run_readR _ _ _ _ [5; 3; 0; 1]); [done|].
  apply (run_readR _ _ _ _ [0; 0; 0; 0]); [done|]. apply (run_readR _ _ _ _ [0; 0] []); [done|].
  change (byte_at [5; 3; 0; 1] 1) with 3. unfold socks5Serve. cbn [Z.eqb Pos.eqb]. destruct ListenUDP as [port|]; apply run_writeR.
  - apply (run_readL _ _ _ _ [5; 0; 0; 1]); [done|]. apply (run_readL _ _ _ _ ([0; 0; 0; 0] ++ PutUint16 port) []); [done|].
    change (sub ([0; 0; 0; 0] ++ PutUint16 port) 4 6) with (PutUint16 port). rewrite <- (app_nil_r (PutUint16 port)) at 2.
    rewrite Uint16_put. apply rtc_refl.
  - apply (run_readL _ _ _ _ [5; 1; 0; 1]); [done|]. apply rtc_refl.
Qed.

(** C8: the SOCKS5 dialer and the SOCKS5 server, joined by a connection, always finish, in
    the same way under every interleaving and every split of their writes into reads.  A
    mapping without a password takes every client; one with a password takes only its own
    credentials from a client that has a user name.  An accepted request reaches the
    server with the name and the port the dialer was given, the dialer succeeds exactly
    when the server answered with success, and then both sides keep the connection with
    nothing of the handshake left in it; otherwise the dialer closes and reports the
    server's status, or the name's length, or the failed authentication.  A UDP
    association gives the dialer the port the server opened. *)
Theorem socks5_endToEnd px mapping dst port cmd : shortAuth px ->
  settles (mkConn (socks5Handshake px dst port cmd) (handler mapping) [] [])
    (if negb (accepted px mapping) then mkConn (fails (authError px)) dropped [] []
     else if 255 <? len dst then mkConn (fails (ENameTooLong (len dst))) dropped [] []
     else let served := snd (serve cmd dst (wrap 16 port)) in
       mkConn (End (socks5Result served) (keeps served)) (End served (keeps served)) (if keeps served then [] else replicate 6 0) []) /\
  settles (mkConn (socks5UDPAssociate IPString px) (handler mapping) [] [])
    (if accepted px mapping then
       match ListenUDP with
       | Some port => mkConn (End (inl (IPString [0; 0; 0; 0], wrap 16 port)) true) (End (UDPRelay port) true) [] []
       | None => mkConn (fails (ECommand 1)) (End (Refused 1) false) (replicate 6 0) []
       end
     else mkConn (fails (authError px)) dropped [] []).
Proof.
  intros Hs. split; (apply settles_run; [by apply socks5Handshake_run || by apply socks5UDPAssociate_run|]).
  - destruct (negb _); [apply end_nf|]. destruct (_ <? _); apply end_nf.
  - destruct (accepted _ _); [destruct ListenUDP|]; apply end_nf.
Qed.
End Socks5.

(** A user with the right password asks for port 443 of the name "a"; the port 256 * 256 + 443
    is the same request. *)
Lemma socks5_endToEnd_witness :
  let px := mkAuth [117] [112] in
  settles (mkConn (socks5Handshake px [97] 65979 1) (socks5HandleConn id (fun _ => false) (fun _ _ => true) (Some 9000) px) [] [])
    (mkConn (End (inl tt) true) (End (Relayed [97] 443) true) [] []) /\
  settles (mkConn (socks5UDPAssociate id px) (socks5HandleConn id (fun _ => false) (fun _ _ => true) (Some 9000) px) [] [])
    (mkConn (End (inl ([0; 0; 0; 0], 9000)) true) (End (UDPRelay 9000) true) [] []).
Proof.
  exact (socks5_endToEnd id (fun _ => false) (fun _ _ => true) (Some 9000) (mkAuth [117] [112]) (mkAuth [117] [112]) [97] 65979 1
    ltac:(split; vm_compute; discriminate)).
Defined.

(** A mapping that has a password and no user name takes no client. *)
Lemma nameless_unusable px mapping : Username mapping = [] -> Password mapping <> [] -> accepted px mapping = false.
Proof.
  intros Hu Hp. unfold accepted. rewrite bool_decide_false by done. rewrite Hu. destruct (bool_decide_reflect (Username px = [])); [done|].
  by rewrite bool_decide_false.
Qed.

(** A user name of 256 bytes sends the length 0: the server takes its first byte for the
    password's length, so the right credentials fail or hang. *)
Example long_name_rejected : let px := mkAuth (replicate 256 1) [112] in
  exists l r, rtc step (mkConn (socks5Handshake px [97] 443 1) (socks5HandleConn id (fun _ => false) (fun _ _ => true) None px) [] [])
    (mkConn (fails EAuth) dropped l r).
Proof.
  intros px. eexists _, _. unfold socks5Handshake, socks5Auth, socks5HandleConn. apply run_writeL. cbn [app].
  apply (run_readR _ _ _ _ [5; 1]); [done|]. apply (run_readR _ _ _ _ [2] []); [done|]. apply run_writeR.
  apply (run_readL _ _ _ _ [5; 2] []); [done|]. apply run_writeL. apply (run_readR _ _ _ _ [1]); [done|].
  apply (run_readR _ _ _ _ [0]); [done|]. apply (run_readR _ _ _ _ []); [done|]. apply (run_readR _ _ _ _ [1]); [done|].
  apply (run_readR _ _ _ _ [1]); [done|]. apply run_writeR. apply (run_readL _ _ _ _ [1; 1] []); [done|]. apply rtc_refl.
Qed.

(** ** The Trojan handshake *)

(** Reading an address a target encodes gives its text. *)
Lemma readAddr_run {A B} IPString (p : Proc A) t (fail bad : Proc B) k l r atyp part : wfTarget t -> addrPart t = atyp :: part ->
  rtc step (mkConn p (readAddr IPString atyp fail bad k) l (part ++ r)) (mkConn p (k (hostText IPString t)) l r).
Proof.
  intros Ht E. destruct t as [ip|name|ip]; destruct Ht as [Hb Hl]; cbn in E; injection E as <- <-; unfold readAddr; cbn [Z.eqb Pos.eqb].
  - apply run_readR; [by rewrite Hl|]. apply rtc_refl.
  - apply (run_readR _ _ _ _ [len name]); [done|]. change (byte_at [len name] 0) with (len name). apply run_readR; [done|]. apply rtc_refl.
  - apply run_readR; [by rewrite Hl|]. apply rtc_refl.
Qed.

Section Trojan.
Variable ParseIP : list Z -> option (list Z).
Variable IPString : list Z -> list Z.
Variable Sha224Hex : list Z -> list Z.
Variable HasReverseAddress : list Z -> bool.
Variable MeshDial : list Z -> Z -> bool.
Variable ListenUDP : option Z.
Hypothesis ParseIP_wf : forall host ip, ParseIP host = Some ip -> wfIP ip.
Hypothesis Sha224Hex_len : forall s, len (Sha224Hex s) = 56.
Notation serve := (trojanServe HasReverseAddress MeshDial ListenUDP).

(** A host with an encoding: an IP address, or a name that fits its length byte. *)
Definition encodable (host : list Z) : bool := match ParseIP host with Some _ => true | None => negb (255 <? len host) end.

Lemma hostTarget_wf host : Forall is_byte host -> encodable host = true -> wfTarget (hostTarget ParseIP host).
Proof.
  intros Hb. unfold encodable, hostTarget. destruct (ParseIP host) as [ip|] eqn:E; [intros _; by apply targetOf_wf, (ParseIP_wf host)|].
  destruct (Z.ltb_spec 255 (len host)); [done|]. done.
Qed.

Lemma trojan_encoded host port : encodable host = true -> exists atyp part,
  EncodeTrojanAddr ParseIP host port = Some (atyp, part ++ PutUint16 port) /\ addrPart (hostTarget ParseIP host) = atyp :: part.
Proof.
  intros He. pose proof (EncodeTrojanAddr_block ParseIP host port (ParseIP_wf host)) as H. unfold encodable in He.
  destruct (EncodeTrojanAddr ParseIP host port) as [[atyp bs]|]; [|destruct H as [E Hl]; rewrite E in He; lia].
  destruct H as [_ H]. unfold block in H. destruct (addrPart _) as [|x part] eqn:E; [by destruct (hostTarget ParseIP host)|].
  injection H as -> ->. by eexists _, _.
Qed.

Lemma trojan_unencoded host port : encodable host = false -> EncodeTrojanAddr ParseIP host port = None.
Proof. unfold encodable, EncodeTrojanAddr. destruct (ParseIP host); [done|]. by intros ->%negb_false_iff. Qed.

(** The Trojan dialer and the Trojan server, joined by a connection, always finish, in
    the same way under every interleaving.  A host with an encoding and the server's
    password give the server the command, the host's address in text form (the name
    itself, or the IP address it parses to) and the port, with nothing left of the request
    in the connection; any other password is dropped without an answer, and a name that is
    too long is an error of the dialer, which sends nothing. *)
Theorem trojan_endToEnd password serverPassword cmd dst port : Forall is_byte dst ->
  settles (mkConn (SendTrojanRequestWithCmd ParseIP Sha224Hex password cmd dst port)
             (trojanHandleConn IPString HasReverseAddress MeshDial ListenUDP (Sha224Hex serverPassword)) [] [])
    (if negb (encodable dst) then mkConn (End false false) dropped [] []
     else if negb (bool_decide (Sha224Hex password = Sha224Hex serverPassword)) then
       mkConn (End true true) dropped [] ([0x0d; 0x0a; cmd] ++ block (hostTarget ParseIP dst) port ++ [0x0d; 0x0a])
     else let served := serve cmd (hostText IPString (hostTarget ParseIP dst)) (wrap 16 port) in
       mkConn (End true true) (End served (keeps served)) [] []).
Proof.
  intros Hb. apply settles_run; [|destruct (negb _); [apply end_nf|destruct (negb _); apply end_nf]].
  unfold SendTrojanRequestWithCmd, trojanHandleConn. destruct (encodable dst) eqn:He; cbn [negb].
  - destruct (trojan_encoded dst port He) as (atyp & part & -> & Ep). apply run_writeL. rewrite app_nil_l.
    apply run_readR; [by rewrite Sha224Hex_len|]. destruct (bool_decide_reflect (Sha224Hex password = Sha224Hex serverPassword)); cbn [negb].
    + cbn [app]. apply (run_readR _ _ _ _ [13; 10]); [done|]. apply (run_readR _ _ _ _ [cmd; atyp]); [done|].
      change (byte_at [cmd; atyp] 0) with cmd. change (byte_at [cmd; atyp] 1) with atyp. rewrite <- app_assoc.
      etrans; [apply (readAddr_run IPString _ (hostTarget ParseIP dst)); [by apply hostTarget_wf|done]|].
      apply run_readR; [done|]. apply (run_readR _ _ _ _ [13; 10] []); [done|]. rewrite <- (app_nil_r (PutUint16 port)), Uint16_put. apply rtc_refl.
    + unfold block. rewrite Ep. cbn [app]. rewrite <- app_assoc. apply rtc_refl.
  - rewrite trojan_unencoded by done. apply run_eofR; [done|]. apply rtc_refl.
Qed.
End Trojan.

(** 127.0.0.1 parses as itself; the digest of a password stands for any function of it
    with 56 bytes. *)
Lemma trojan_endToEnd_witness :
  let parse s := match s with [49] => Some [127; 0; 0; 1] | _ => None end in
  let sha s := take 56 (s ++ replicate 56 0) in
  settles (mkConn (SendTrojanRequestWithCmd parse sha [112] 1 [49] 443) (trojanHandleConn id (fun _ => false) (fun _ _ => true) None (sha [112])) [] [])
    (mkConn (End true true) (End (Relayed [127; 0; 0; 1] 443) true) [] []).
Proof.
  refine (trojan_endToEnd (fun s => match s with [49] => Some [127; 0; 0; 1] | _ => None end) id (fun s => take 56 (s ++ replicate 56 0))
    (fun _ => false) (fun _ _ => true) None _ _ [112] [112] 1 [49] 443 _).
  - intros host ip H. repeat case_match; simplify_eq. split; [repeat constructor; vm_compute; intuition discriminate|by left].
  - intros s. unfold len. rewrite length_take, length_app, length_replicate. lia.
  - repeat constructor; vm_compute; discriminate.
Defined.
