(* ===== verification/FifoSet.v ===== *)
(** FifoSet: the bounded set of recently seen keys, src/util/util.go (FIFOSet), with which
    the servers report a target once.

    Keys are lists of bytes; times are nanoseconds. *)

From Stdlib Require Import ZArith Lia.
From stdpp Require Import base gmap list numbers.
From S2P Require Import Prelude.
Open Scope Z_scope.

(** ** The set *)

Record FIFOSet := mkFIFOSet { keys : list (list Z); index : gmap (list Z) nat; times : list Z; pos : nat; ttl : Z }.

(** Five minutes. *)
Definition defaultTTL : Z := 5 * 60 * 10 ^ 9.

Definition NewFIFOSet (cap : nat) : FIFOSet := mkFIFOSet (replicate cap []) ∅ (replicate cap 0) 0 defaultTTL.
Definition SetTTL (d : Z) (s : FIFOSet) : FIFOSet := mkFIFOSet (keys s) (index s) (times s) (pos s) d.

(** Put at time [now]; [times] at an index of the map is in range. *)
Definition Put (now : Z) (key : list Z) (s : FIFOSet) : FIFOSet * bool :=
  let insert idx :=
    let idx := if (length (keys s) <=? size idx)%nat then delete (nth (pos s) (keys s) []) idx else idx in
    (mkFIFOSet (<[pos s := key]> (keys s)) (<[key := pos s]> idx) (<[pos s := now]> (times s)) ((pos s + 1) mod length (keys s)) (ttl s), true) in
  match index s !! key with
  | Some i => if now - nth i (times s) 0 <? ttl s then (s, false) else insert (delete key (index s))
  | None => insert (index s)
  end.

(** A sequence of calls and their answers. *)
Fixpoint puts (calls : list (Z * list Z)) (s : FIFOSet) : list bool :=
  match calls with
  | [] => []
  | (now, key) :: calls => let '(s', b) := Put now key s in b :: puts calls s'
  end.

(** ** Against a queue *)

(** The keys, newest first. *)
Fixpoint recent (cap : nat) (calls : list (Z * list Z)) (q : list (list Z)) : list bool :=
  match calls with
  | [] => []
  | (_, key) :: calls =>
      if bool_decide (key ∈ q) then false :: recent cap calls q else true :: recent cap calls (take cap (key :: q))
  end.

(** The slot of the [i]-th newest key. *)
Definition slot (cap p i : nat) : nat := (p + cap - 1 - i) mod cap.

(** A set holds the keys of [q] in the slots before its position, put at [lo] or later. *)
Record holds (lo : Z) (s : FIFOSet) (q : list (list Z)) : Prop := {
  h_cap : (0 < length (keys s))%nat;
  h_times : length (times s) = length (keys s);
  h_pos : (pos s < length (keys s))%nat;
  h_len : (length q <= length (keys s))%nat;
  h_nodup : NoDup q;
  h_keys : forall i k, q !! i = Some k -> keys s !! slot (length (keys s)) (pos s) i = Some k;
  h_fresh : forall i k, q !! i = Some k -> lo <= nth (slot (length (keys s)) (pos s) i) (times s) 0;
  h_index : forall k j, index s !! k = Some j <-> exists i, q !! i = Some k /\ j = slot (length (keys s)) (pos s) i;
}.

Lemma slot_0 cap p : (p < cap)%nat -> slot cap ((p + 1) mod cap) 0 = p.
Proof.
  intros H. unfold slot. destruct (decide (p + 1 = cap)%nat) as [E|E].
  - rewrite E, Nat.Div0.mod_same. replace (0 + cap - 1 - 0)%nat with p by lia. by apply Nat.mod_small.
  - rewrite (Nat.mod_small (p + 1)) by lia. replace (p + 1 + cap - 1 - 0)%nat with (p + 1 * cap)%nat by lia.
    rewrite Nat.Div0.mod_add. by apply Nat.mod_small.
Qed.

Lemma slot_S cap p i : (p < cap)%nat -> (S i < cap)%nat -> slot cap ((p + 1) mod cap) (S i) = slot cap p i.
Proof.
  intros H Hi. unfold slot. destruct (decide (p + 1 = cap)%nat) as [E|E].
  - rewrite E, Nat.Div0.mod_same. replace (p + cap - 1 - i)%nat with ((0 + cap - 1 - S i) + 1 * cap)%nat by lia.
    by rewrite Nat.Div0.mod_add.
  - rewrite (Nat.mod_small (p + 1)) by lia. f_equal. lia.
Qed.

Lemma slot_last cap p : (p < cap)%nat -> slot cap p (cap - 1) = p.
Proof. intros H. unfold slot. replace (p + cap - 1 - (cap - 1))%nat with p by lia. by apply Nat.mod_small. Qed.

Lemma slot_inj cap p i j : (p < cap)%nat -> (i < cap)%nat -> (j < cap)%nat -> slot cap p i = slot cap p j -> i = j.
Proof.
  intros Hp Hi Hj. unfold slot. assert (Hm : forall n, (n < cap)%nat -> ((p + cap - 1 - n) mod cap = if decide (n < p) then p - 1 - n else p + cap - 1 - n)%nat).
  { intros n Hn. case_decide; [|apply Nat.mod_small; lia]. replace (p + cap - 1 - n)%nat with ((p - 1 - n) + 1 * cap)%nat by lia.
    rewrite Nat.Div0.mod_add. apply Nat.mod_small. lia. }
  rewrite !Hm by done. repeat case_decide; lia.
Qed.

Lemma slot_lt cap p i : (0 < cap)%nat -> (slot cap p i < cap)%nat.
Proof. intros H. apply Nat.mod_upper_bound. lia. Qed.

Lemma new_holds lo cap : (0 < cap)%nat -> holds lo (NewFIFOSet cap) [].
Proof.
  intros H. split; cbn; rewrite ?length_replicate; try lia; [constructor|done|done|].
  intros k j. split; [by rewrite lookup_empty|]. by intros (i & ? & _).
Qed.

(** The map has one key for each of the queue. *)
Lemma holds_size lo s q : holds lo s q -> size (index s) = length q.
Proof.
  intros H. rewrite <- size_dom. replace (dom (index s)) with (list_to_set q : gset (list Z)).
  - rewrite size_list_to_set by apply (h_nodup lo s q H). done.
  - apply set_eq. intros k. rewrite elem_of_list_to_set, elem_of_dom, list_elem_of_lookup. split.
    + intros [i Hi]. eexists. apply (h_index lo s q H). by exists i.
    + intros [j Hj]. apply (h_index lo s q H) in Hj as (i & Hi & _). by exists i.
Qed.

Lemma holds_mem lo s q key : holds lo s q -> key ∈ q <-> is_Some (index s !! key).
Proof.
  intros H. rewrite list_elem_of_lookup. split.
  - intros [i Hi]. eexists. apply (h_index lo s q H). by exists i.
  - intros [j Hj]. apply (h_index lo s q H) in Hj as (i & Hi & _). by exists i.
Qed.

(** The map once the oldest key of a full set is out. *)
Lemma evicted_index lo s q : holds lo s q -> let cap := length (keys s) in
  forall k j, (if (cap <=? size (index s))%nat then delete (nth (pos s) (keys s) []) (index s) else index s) !! k = Some j <->
    exists i, q !! i = Some k /\ (S i < cap)%nat /\ j = slot cap (pos s) i.
Proof.
  intros H cap k j. pose proof (holds_size lo s q H) as ->. pose proof (h_index lo s q H k j) as Hi. pose proof (h_pos lo s q H) as Hp.
  assert (Hin : forall i k, q !! i = Some k -> (i < length q)%nat) by (intros i k' E; by apply lookup_lt_Some in E).
  destruct (Nat.leb_spec cap (length q)) as [Hf|Hf].
  - assert (Hlast : forall k, q !! (cap - 1)%nat = Some k -> nth (pos s) (keys s) [] = k).
    { intros k' E. apply (h_keys lo s q H) in E. fold cap in E. rewrite slot_last in E by done. by apply nth_lookup_Some with (d := []) in E. }
    pose proof (h_len lo s q H). destruct (q !! (cap - 1)%nat) as [old|] eqn:Eo; [|apply lookup_ge_None in Eo; fold cap in Eo; unfold cap in *; lia].
    rewrite (Hlast old eq_refl). rewrite lookup_delete_Some, Hi. split.
    + intros [Hne (i & E & ->)]. exists i. split_and!; [done| |done]. destruct (decide (i = cap - 1)%nat) as [->|?]; [congruence|].
      apply Hin in E. unfold cap in *. lia.
    + intros (i & E & Hlt & ->). split; [|by exists i]. intros ->. pose proof (NoDup_lookup q i (cap - 1) k (h_nodup lo s q H) E Eo). lia.
  - rewrite Hi. split; intros (i & E & Hj); exists i; [|naive_solver]. apply Hin in E as ?. split_and!; [done|lia|done].
Qed.

(** A new key takes the slot of the oldest. *)
Lemma Put_new lo s q now key : holds lo s q -> lo <= now -> key ∉ q ->
  holds lo (fst (Put now key s)) (take (length (keys s)) (key :: q)) /\ snd (Put now key s) = true /\
  length (keys (fst (Put now key s))) = length (keys s) /\ times (fst (Put now key s)) = <[pos s := now]> (times s) /\
  ttl (fst (Put now key s)) = ttl s.
Proof.
  intros H Hlo Hk. unfold Put. assert (Hnone : index s !! key = None).
  { apply eq_None_not_Some. by rewrite <- (holds_mem lo s q key H). }
  rewrite Hnone. cbn [fst snd keys times ttl]. rewrite length_insert. split_and!; [|done..].
  pose proof H as [Hc Ht Hp Hl Hn Hks Hfr Hi]. pose proof (evicted_index lo s q H) as Hev. cbv zeta in Hev. set (cap := length (keys s)) in *.
  assert (Hq : forall i k, take cap (key :: q) !! S i = Some k -> q !! i = Some k /\ (S i < cap)%nat).
  { intros i k E. apply lookup_take_Some in E as [E ?]. done. }
  assert (Hq0 : take cap (key :: q) !! 0%nat = Some key) by (destruct cap; [lia|done]).
  assert (Hin : forall i k, q !! i = Some k -> (i < length q)%nat) by (intros i k E; by apply lookup_lt_Some in E).
  assert (Hapart : forall i, (S i < cap)%nat -> pos s <> slot cap (pos s) i).
  { intros i Hlt E'. rewrite <- (slot_last cap (pos s)) in E' at 1 by done. apply slot_inj in E'; lia. }
  split; cbn [keys times pos index]; rewrite ?length_insert; fold cap; try done.
  - by apply Nat.mod_upper_bound; lia.
  - rewrite length_take. lia.
  - assert (Hnd : NoDup (key :: q)) by (by constructor). by apply (sublist_NoDup _ _ Hnd), sublist_take.
  - intros [|i] k E.
    + rewrite Hq0 in E. injection E as <-. rewrite slot_0 by done. apply list_lookup_insert_eq. lia.
    + apply Hq in E as [E Hlt]. rewrite slot_S by done. rewrite list_lookup_insert_ne; [by apply Hks|]. by apply Hapart.
  - intros [|i] k E.
    + rewrite slot_0 by done. erewrite nth_lookup_Some; [exact Hlo|]. apply list_lookup_insert_eq. lia.
    + apply Hq in E as [E Hlt]. rewrite slot_S by done. specialize (Hfr i k E). rewrite nth_lookup in *.
      rewrite list_lookup_insert_ne; [done|]. by apply Hapart.
  - intros k j. rewrite lookup_insert_Some, Hev. split.
    + intros [[<- <-]|[Hne (i & E & Hlt & ->)]]; [exists 0%nat; by rewrite slot_0|]. exists (S i). rewrite slot_S by done.
      split; [|done]. by rewrite lookup_take_lt.
    + intros ([|i] & E & ->); [left; rewrite Hq0 in E; injection E as <-; by rewrite slot_0|]. apply Hq in E as [E Hlt]. right.
      rewrite slot_S by done. split; [|by exists i]. intros ->. apply Hk. by apply list_elem_of_lookup_2 in E.
Qed.

Lemma Put_seen lo s q now key : holds lo s q -> key ∈ q -> now < lo + ttl s -> Put now key s = (s, false).
Proof.
  intros H Hk Ht. apply (holds_mem lo s q key H) in Hk as [j Hj]. unfold Put. rewrite Hj.
  apply (h_index lo s q H) in Hj as (n & Hn & ->). apply (h_fresh lo s q H) in Hn. by destruct (Z.ltb_spec (now - nth (slot (length (keys s)) (pos s) n) (times s) 0) (ttl s)); [|lia].
Qed.

Lemma puts_recent lo calls s q : holds lo s q -> Forall (fun c => lo <= fst c < lo + ttl s) calls ->
  puts calls s = recent (length (keys s)) calls q.
Proof.
  revert s q. induction calls as [|[now key] calls IH]; intros s q H Hc; [done|]. apply Forall_cons_iff in Hc as [[Hlo Hhi] Hc]. cbn [fst] in *.
  cbn [puts recent]. case_bool_decide as Hk.
  - rewrite (Put_seen lo s q) by done. f_equal. by apply IH.
  - destruct (Put_new lo s q now key H Hlo Hk) as (Hh & Hb & Hl & _ & Htt). destruct (Put now key s) as [s' b]. cbn [fst snd] in *. subst b.
    f_equal. rewrite <- Hl in Hh |- *. apply IH; [done|]. by rewrite Htt.
Qed.

(** Within the time to live, the set of recently seen targets answers like a queue of
    its capacity: a key is new exactly when it is not among the latest distinct keys that
    fit, and a new key pushes out the oldest one. *)
Theorem puts_exact cap lo calls : (0 < cap)%nat -> Forall (fun c => lo <= fst c < lo + defaultTTL) calls ->
  puts calls (NewFIFOSet cap) = recent cap calls [].
Proof.
  intros Hc H. rewrite (puts_recent lo calls _ []); [|by apply new_holds|done]. cbn. by rewrite length_replicate.
Qed.

Lemma puts_exact_witness :
  puts [(1, [97]); (2, [98]); (3, [97]); (4, [99]); (5, [97])] (NewFIFOSet 2) = [true; true; false; true; true].
Proof.
  rewrite (puts_exact 2 0) by (first [lia|repeat constructor; vm_compute; discriminate]). vm_compute. reflexivity.
Defined.

(** An expired key leaves its old slot behind: afterwards the set can grow past its
    capacity, and a key can count as seen by the time of another. *)
Definition expiredPuts : list (Z * list Z) := [(0, [97]); (0, [98]); (defaultTTL, [97]); (2 * defaultTTL, [97])].
Fixpoint putAll (calls : list (Z * list Z)) (s : FIFOSet) : FIFOSet :=
  match calls with [] => s | (now, key) :: calls => putAll calls (fst (Put now key s)) end.

Example expired_overflow : let s := putAll (expiredPuts ++ [(2 * defaultTTL, [99]); (2 * defaultTTL, [100])]) (NewFIFOSet 2) in
  size (index s) = 3%nat.
Proof. vm_compute. reflexivity. Qed.

Example expired_fresh : snd (Put (2 * defaultTTL) [98] (putAll expiredPuts (NewFIFOSet 2))) = false.
Proof. vm_compute. reflexivity. Qed.
