(* ===== verification/TrojanUdp.v ===== *)
(** TrojanUdp: UDP through a Trojan connection, the packet connection of the dialer
    (src/dialer/trojan.go, trojanPacketConn) and the association of the server
    (src/server/trojan.go, TrojanServer.handleUDPAssociate).

    The deadlines of the reads are not modelled; the rule that routes a packet, the
    resolution of names and the dialling of a proxy are arguments. *)

From Stdlib Require Import ZArith Lia.
From stdpp Require Import base gmap list numbers relations.
From S2P Require Import Prelude IPPacket AddrCodec Handshake FifoSet.
Open Scope Z_scope.

(** ** Packets of the tunnel *)

Definition trojanPacket (addr : Z * list Z) (b : list Z) : list Z :=
  [fst addr] ++ snd addr ++ PutUint16 (len b) ++ [0x0d; 0x0a] ++ b.

Section Tunnel.
Variable ParseIP : list Z -> option (list Z).
Variable IPString : list Z -> list Z.
Variable SplitHostPort : list Z -> option (list Z * list Z).
Variable ResolveUDPAddr : list Z -> Z -> option NetAddr.

(** trojanPacketConn.WriteTo, [addr] in text form: the bytes written, or an error. *)
Definition WriteTo (closed : bool) (b addr : list Z) : option (list Z) :=
  if closed then None
  else match SplitHostPort addr with
       | None => None
       | Some (host, portStr) =>
           match EncodeTrojanAddr ParseIP host (atoi portStr) with
           | None => None
           | Some enc => Some (trojanPacket enc b)
           end
       end.

(** The packet the server writes for a reply. *)
Definition replyPacket (srcAddr : NetAddr) (data : list Z) : list Z :=
  trojanPacket (EncodeTrojanAddrFromNetAddr ParseIP SplitHostPort srcAddr) data.

(** One packet read from the tunnel; the server checks the line end, the dialer does not. *)
Definition readPacket {A} (check : bool) (fail : Proc A) (k : list Z -> Z -> list Z -> Proc A) : Proc A :=
  ReadFull 1 fail (fun atyp =>
    readAddr IPString (byte_at atyp 0) fail fail (fun dstAddr =>
      ReadFull 2 fail (fun portBuf =>
        ReadFull 2 fail (fun lengthBuf =>
          ReadFull 2 fail (fun crlf =>
            if check && (negb (byte_at crlf 0 =? 0x0d) || negb (byte_at crlf 1 =? 0x0a)) then fail
            else ReadFull (Uint16 lengthBuf) fail (fun payload => k dstAddr (Uint16 portBuf) payload)))))).

(** trojanPacketConn.ReadFrom with a buffer of [size] bytes; an address that does not
    resolve is the zero address. *)
Definition ReadFrom (closed : bool) (size : nat) : Proc (option (list Z * NetAddr)) :=
  if closed then End None true
  else readPacket false (End None true) (fun addrStr port payload =>
         End (Some (take size payload, default (UDPAddr [] 0) (ResolveUDPAddr addrStr port))) true).

(** The main loop of the server up to [n] packets: those it read. *)
Fixpoint receive (n : nat) (got : list (list Z * Z * list Z)) : Proc (list (list Z * Z * list Z)) :=
  match n with
  | O => End got true
  | S n => readPacket true (End got false) (fun dstAddr dstPort payload => receive n (got ++ [(dstAddr, dstPort, payload)]))
  end.

(** A client that sends packets, and a server that sends replies, one after another. *)
Fixpoint sendAll (ps : list (list Z * list Z)) : Proc unit :=
  match ps with
  | [] => End tt true
  | (b, addr) :: ps => match WriteTo false b addr with Some bs => Write bs (sendAll ps) | None => sendAll ps end
  end.

(** ** Round trips *)

Hypothesis ParseIP_wf : forall host ip, ParseIP host = Some ip -> wfIP ip.

Lemma readPacket_run {A B} (p : Proc A) check (fail : Proc B) k t port b l r : wfTarget t -> len b < 2 ^ 16 ->
  rtc step (mkConn p (readPacket check fail k) l (block t port ++ PutUint16 (len b) ++ [0x0d; 0x0a] ++ b ++ r))
    (mkConn p (k (hostText IPString t) (wrap 16 port) b) l r).
Proof.
  intros Ht Hb. unfold block. destruct (addrPart t) as [|atyp part] eqn:E; [by destruct t|]. rewrite <- !app_assoc. unfold readPacket.
  apply (run_readR _ _ _ _ [atyp]); [done|]. change (byte_at [atyp] 0) with atyp.
  etrans; [by apply (readAddr_run IPString _ t)|]. apply run_readR; [done|]. apply run_readR; [done|].
  apply run_readR; [done|]. change (negb (byte_at [13; 10] 0 =? 13)) with false. change (negb (byte_at [13; 10] 1 =? 10)) with false.
  rewrite andb_false_r. rewrite <- (app_nil_r (PutUint16 (len b))), Uint16_put, wrap_small by (pose proof (len_nonneg b); lia).
  apply run_readR; [done|]. rewrite <- (app_nil_r (PutUint16 port)), Uint16_put. apply rtc_refl.
Qed.

(** A packet the tunnel carries: its address names a host with an encoding, and its length
    fits. *)
Definition carried (p : list Z * list Z) : Prop :=
  exists host portStr, SplitHostPort (snd p) = Some (host, portStr) /\ Forall is_byte host /\ encodable ParseIP host = true /\
    len (fst p) < 2 ^ 16.

(** What the server reads of it. *)
Definition arrives (p : list Z * list Z) : list Z * Z * list Z :=
  let '(host, portStr) := default ([], []) (SplitHostPort (snd p)) in
  (hostText IPString (hostTarget ParseIP host), wrap 16 (atoi portStr), fst p).

Lemma packet_block host port b : encodable ParseIP host = true -> exists enc, EncodeTrojanAddr ParseIP host port = Some enc /\
  forall r, trojanPacket enc b ++ r = block (hostTarget ParseIP host) port ++ PutUint16 (len b) ++ [0x0d; 0x0a] ++ b ++ r.
Proof.
  intros He. destruct (trojan_encoded ParseIP ParseIP_wf host port He) as (atyp & part & -> & Ep). eexists. split; [done|].
  intros r. unfold trojanPacket, block. rewrite Ep. cbn [fst snd]. cbn [app]. rewrite <- !app_assoc. done.
Qed.

Lemma sendAll_run ps got : Forall carried ps ->
  rtc step (mkConn (sendAll ps) (receive (length ps) got) [] []) (mkConn (End tt true) (End (got ++ map arrives ps) true) [] []).
Proof.
  revert got. induction ps as [|[b addr] ps IH]; intros got Hc; [by rewrite app_nil_r|].
  apply Forall_cons_iff in Hc as [(host & portStr & Es & Hb & He & Hl) Hc]. cbn [fst snd] in *. cbn [sendAll length receive].
  unfold WriteTo. rewrite Es. destruct (packet_block host (atoi portStr) b He) as (enc & -> & Hp).
  apply run_writeL. rewrite app_nil_l, <- (app_nil_r (trojanPacket enc b)), Hp.
  etrans; [apply readPacket_run; [by apply hostTarget_wf|done]|]. etrans; [by apply IH|].
  assert (Ha : arrives (b, addr) = (hostText IPString (hostTarget ParseIP host), wrap 16 (atoi portStr), b)) by (unfold arrives; cbn [fst snd]; by rewrite Es).
  cbn [map]. rewrite Ha, <- app_assoc. apply rtc_refl.
Qed.

(** Packets through a Trojan UDP tunnel keep their boundaries and their order.  Those
    the dialer sends to hosts with an encoding, of up to 65535 bytes, arrive at the server
    as they were, each with the address in text form and its port, under every
    interleaving and with nothing left over; and a reply from an IP address gives the
    dialer its data (as much as fits the caller's buffer) and its source. *)
Theorem trojanUdp_roundtrip ps srcIP srcPort data size : Forall carried ps -> wfIP srcIP -> len data < 2 ^ 16 ->
  settles (mkConn (sendAll ps) (receive (length ps) []) [] []) (mkConn (End tt true) (End (map arrives ps) true) [] []) /\
  settles (mkConn (Write (replyPacket (UDPAddr srcIP srcPort) data) (End tt true)) (ReadFrom false size) [] [])
    (mkConn (End tt true) (End (Some (take size data, default (UDPAddr [] 0) (ResolveUDPAddr (IPString (canon srcIP)) (wrap 16 srcPort)))) true) [] []).
Proof.
  intros Hc Hip Hd. split; (apply settles_run; [|apply end_nf]); [by apply sendAll_run|]. apply run_writeL. rewrite app_nil_l.
  pose proof (EncodeTrojanAddrBytes_block srcIP srcPort Hip) as Hb. unfold replyPacket, trojanPacket. cbn [EncodeTrojanAddrFromNetAddr].
  destruct (EncodeTrojanAddrBytes srcIP srcPort) as [atyp bs]. cbn [fst snd].
  assert (E : [atyp] ++ bs ++ PutUint16 (len data) ++ [13; 10] ++ data = block (targetOf srcIP) srcPort ++ PutUint16 (len data) ++ [13; 10] ++ data ++ [])
    by (rewrite <- Hb, app_nil_r; done).
  rewrite E. etrans; [apply readPacket_run; [by apply targetOf_wf|done]|]. unfold targetOf, canon. destruct (To4 srcIP); apply rtc_refl.
Qed.
End Tunnel.

(** One packet of two bytes to 127.0.0.1:53 and one to a name. *)
Lemma trojanUdp_roundtrip_witness :
  let parse s := match s with [49] => Some [127; 0; 0; 1] | _ => None end in
  let split s := match s with h :: p => Some ([h], p) | [] => None end in
  let resolve ip port := Some (UDPAddr ip port) in
  settles (mkConn (sendAll parse split [([1; 2], [49; 53; 51]); ([], [97; 56])]) (receive id 2 []) [] [])
    (mkConn (End tt true) (End [([127; 0; 0; 1], 53, [1; 2]); ([97], 8, [])] true) [] []) /\
  settles (mkConn (Write (replyPacket parse split (UDPAddr [127; 0; 0; 1] 53) [7; 8]) (End tt true)) (ReadFrom id resolve false 1) [] [])
    (mkConn (End tt true) (End (Some ([7], UDPAddr [127; 0; 0; 1] 53)) true) [] []).
Proof.
  refine (trojanUdp_roundtrip (fun s => match s with [49] => Some [127; 0; 0; 1] | _ => None end) id
    (fun s => match s with h :: p => Some ([h], p) | [] => None end) (fun ip port => Some (UDPAddr ip port)) _
    [([1; 2], [49; 53; 51]); ([], [97; 56])] [127; 0; 0; 1] 53 [7; 8] 1 _ _ _).
  - intros host ip H. repeat case_match; simplify_eq. split; [repeat constructor; vm_compute; intuition discriminate|by left].
  - repeat constructor; (eexists _, _; split_and!; [reflexivity|repeat constructor; vm_compute; discriminate|reflexivity|reflexivity]).
  - split; [repeat constructor; vm_compute; discriminate|by left].
  - reflexivity.
Defined.

(** ** The association of the server *)

Inductive ProxyKind := Direct | Reject | Through (name : list Z).

(** What leaves the association: to a target from its own socket, to a target through the
    packet connection of a proxy, or to the client. *)
Inductive Sent := ToTarget (payload : list Z) (addr : NetAddr) | ViaProxy (pc : nat) (payload : list Z) (addr : NetAddr)
  | ToClient (pkt : list Z).

(** [readers] are the connections with a goroutine that relays their replies, [opened]
    those not closed. *)
Record Assoc := mkAssoc { proxyConns : gmap (list Z) nat; seenTargets : FIFOSet; readers : gset nat; opened : gset nat; nextConn : nat }.

Definition maxSeenTargets : nat := 64.
Definition newAssoc : Assoc := mkAssoc ∅ (NewFIFOSet maxSeenTargets) ∅ ∅ 0.

Section Association.
Variable ParseIP : list Z -> option (list Z).
Variable SplitHostPort : list Z -> option (list Z * list Z).
Variable ResolveUDPAddr : list Z -> Z -> option NetAddr.
(** The rule for a target: the target to use and the proxy, if any. *)
Variable ResolveMatch : list Z -> Z -> option (list Z * Z * option ProxyKind).
Variable DialPacket : list Z -> bool.
(** A target and an address in text form. *)
Variable targetKey : list Z -> Z -> list Z.
Variable AddrText : NetAddr -> list Z.

Definition see (now : Z) (key : list Z) (a : Assoc) : Assoc * bool :=
  let '(s, new) := Put now key (seenTargets a) in (mkAssoc (proxyConns a) s (readers a) (opened a) (nextConn a), new).

(** The main loop for one packet of the client. *)
Definition handlePacket (now : Z) (dstAddr : list Z) (dstPort : Z) (payload : list Z) (a : Assoc) : Assoc * list Sent :=
  match ResolveMatch dstAddr dstPort with
  | None | Some (_, None) | Some (_, Some Reject) => (a, [])
  | Some (addr, port, Some proxy) =>
      let a := fst (see now (targetKey addr port) a) in
      match ResolveUDPAddr addr port with
      | None => (a, [])
      | Some target =>
          match proxy with
          | Direct | Reject => (a, [ToTarget payload target])
          | Through name =>
              match proxyConns a !! name with
              | Some pc => (a, [ViaProxy pc payload target])
              | None =>
                  if DialPacket name then
                    let pc := nextConn a in
                    (mkAssoc (<[name := pc]> (proxyConns a)) (seenTargets a) (readers a ∪ {[pc]}) (opened a ∪ {[pc]}) (S pc),
                     [ViaProxy pc payload target])
                  else (a, [])
              end
          end
      end
  end.

(** A reply to the association's own socket. *)
Definition targetReply (now : Z) (src : NetAddr) (data : list Z) (a : Assoc) : Assoc * list Sent :=
  (fst (see now (AddrText src) a), [ToClient (replyPacket ParseIP SplitHostPort src data)]).

(** The goroutine of a proxy connection ends. *)
Definition readerEnds (name : list Z) (pc : nat) (a : Assoc) : Assoc :=
  mkAssoc (if bool_decide (proxyConns a !! name = Some pc) then delete name (proxyConns a) else proxyConns a)
    (seenTargets a) (readers a ∖ {[pc]}) (opened a) (nextConn a).

(** A reply to the packet connection of a proxy. *)
Definition proxyReply (now : Z) (name : list Z) (pc : nat) (src : NetAddr) (data : list Z) (a : Assoc) : Assoc * list Sent :=
  if bool_decide (pc ∈ readers a) then
    let '(a, new) := see now (AddrText src) a in
    if new then (readerEnds name pc a, [])
    else (fst (see now (AddrText src) a), [ToClient (replyPacket ParseIP SplitHostPort src data)])
  else (a, []).

(** closeAll: the connections of the map are closed, and their goroutines end. *)
Definition closeAll (a : Assoc) : Assoc :=
  let pcs : gset nat := map_to_set (fun _ pc => pc) (proxyConns a) in
  mkAssoc ∅ (seenTargets a) ∅ (opened a ∖ pcs) (nextConn a).

(** Every connection of the map has its own goroutine and is open. *)
Record inv (a : Assoc) : Prop := {
  i_map : forall name pc, proxyConns a !! name = Some pc -> pc ∈ readers a /\ pc ∈ opened a;
  i_inj : forall n m pc, proxyConns a !! n = Some pc -> proxyConns a !! m = Some pc -> n = m;
  i_read : readers a ⊆ opened a;
  i_new : forall pc, pc ∈ opened a -> (pc < nextConn a)%nat;
}.

Inductive event := Packet (dst : list Z) (port : Z) (payload : list Z) | TargetReply (src : NetAddr) (data : list Z)
  | ProxyReply (name : list Z) (pc : nat) (src : NetAddr) (data : list Z) | ReaderFails (name : list Z) (pc : nat).

Definition handle (now : Z) (e : event) (a : Assoc) : Assoc * list Sent :=
  match e with
  | Packet dst port payload => handlePacket now dst port payload a
  | TargetReply src data => targetReply now src data a
  | ProxyReply name pc src data => proxyReply now name pc src data a
  | ReaderFails name pc => (readerEnds name pc a, [])
  end.

(** A goroutine belongs to the name its connection was dialled for. *)
Definition owned (e : event) (a : Assoc) : Prop :=
  match e with
  | ProxyReply name pc _ _ | ReaderFails name pc => forall n, proxyConns a !! n = Some pc -> n = name
  | _ => True
  end.

Lemma see_inv now key a : inv a -> inv (fst (see now key a)).
Proof. intros [H1 H2 H3 H4]. unfold see. destruct (Put now key (seenTargets a)). by split. Qed.

Lemma see_proj now key a : let a' := fst (see now key a) in
  proxyConns a' = proxyConns a /\ readers a' = readers a /\ opened a' = opened a /\ nextConn a' = nextConn a.
Proof. unfold see. by destruct (Put now key (seenTargets a)). Qed.

Lemma readerEnds_inv name pc a : inv a -> (forall n, proxyConns a !! n = Some pc -> n = name) -> inv (readerEnds name pc a).
Proof.
  intros [H1 H2 H3 H4] Ho. unfold readerEnds. split; cbn [proxyConns readers opened nextConn].
  - intros n pc'. case_bool_decide as E.
    + rewrite lookup_delete_Some. intros [Hne Hn]. destruct (H1 n pc' Hn). assert (pc' <> pc) by (intros ->; apply Hne; by rewrite (Ho n Hn)). set_solver.
    + intros Hn. destruct (H1 n pc' Hn). assert (pc' <> pc) by (intros ->; apply E; by rewrite <- (Ho n Hn)). set_solver.
  - intros n m pc'. case_bool_decide; rewrite ?lookup_delete_Some; naive_solver.
  - set_solver.
  - done.
Qed.

Lemma dial_inv name a s : inv a -> proxyConns a !! name = None ->
  inv (mkAssoc (<[name := nextConn a]> (proxyConns a)) s (readers a ∪ {[nextConn a]}) (opened a ∪ {[nextConn a]}) (S (nextConn a))).
Proof.
  intros [H1 H2 H3 H4] Hn. assert (Hfresh : forall n, proxyConns a !! n = Some (nextConn a) -> False).
  { intros n E. apply H1 in E as [_ E]. apply H4 in E. lia. }
  split; cbn [proxyConns readers opened nextConn].
  - intros n pc. rewrite lookup_insert_Some. intros [ [<- <-] | [_ E] ]; [set_solver|]. apply H1 in E. set_solver.
  - intros n m pc. rewrite !lookup_insert_Some. naive_solver.
  - set_solver.
  - intros pc. rewrite elem_of_union, elem_of_singleton. intros [E|E]; [apply H4 in E|]; lia.
Qed.

Lemma handle_inv now e a : inv a -> owned e a -> inv (fst (handle now e a)).
Proof.
  intros Hi Ho. destruct e as [dst port payload|src data|name pc src data|name pc]; cbn [handle].
  - unfold handlePacket. destruct (ResolveMatch dst port) as [[[addr p] [[| |name]|]]|]; cbn [fst]; try done; cbv zeta;
      set (a1 := fst (see now (targetKey addr p) a)); assert (Hi1 : inv a1) by (by apply see_inv);
      (destruct (ResolveUDPAddr addr p); [|done]); cbn [fst]; [done|].
    destruct (proxyConns a1 !! name) eqn:E; [done|]. destruct (DialPacket name); [|done]. by apply dial_inv.
  - by apply see_inv.
  - unfold proxyReply. case_bool_decide; [|done]. pose proof (see_inv now (AddrText src) a Hi) as Hs.
    pose proof (see_proj now (AddrText src) a) as (Hp & _). destruct (see now (AddrText src) a) as [a1 new]. cbn [fst] in *.
    destruct new; cbn [fst]; [|by apply see_inv]. apply readerEnds_inv; [done|]. by rewrite Hp.
  - by apply readerEnds_inv.
Qed.

(** Runs of an association, each event at its time, by goroutines that own their
    connections. *)
Inductive reach : Assoc -> Prop :=
| reach_new : reach newAssoc
| reach_step now e a : reach a -> owned e a -> reach (fst (handle now e a)).

Lemma assoc_inv a : reach a -> inv a.
Proof. induction 1; [by split; cbn; set_solver|by apply handle_inv]. Qed.

(** The replies of a Trojan UDP association.  A reply to its own socket always reaches
    the client.  A reply through a proxy reaches it only when the source's text was seen
    within its time to live, as it is when the client named the target by that address;
    the first reply of any other source is lost, the goroutine that relays the replies of
    that proxy ends, and the connection leaves the map without being closed: it stays open
    when the association closes.  Connections that stay in the map are relayed and are
    closed with the association. *)
Theorem trojanAssoc_replies now name pc src data a : reach a -> proxyConns a !! name = Some pc ->
  let pkt := ToClient (replyPacket ParseIP SplitHostPort src data) in
  let r := proxyReply now name pc src data a in
  snd (targetReply now src data a) = [pkt] /\ pc ∈ readers a /\ ~ (pc ∈ opened (closeAll a)) /\
  (if snd (Put now (AddrText src) (seenTargets a)) then
    snd r = [] /\ proxyConns (fst r) !! name = None /\ ~ (pc ∈ readers (fst r)) /\ pc ∈ opened (closeAll (fst r))
  else snd r = [pkt] /\ proxyConns (fst r) = proxyConns a /\ readers (fst r) = readers a).
Proof.
  intros Hr Hn pkt r. pose proof (assoc_inv a Hr) as Hi. destruct (i_map a Hi name pc Hn) as [Hrd Hop]. split_and!; [done|done| |].
  - unfold closeAll. cbn [opened]. rewrite elem_of_difference, elem_of_map_to_set. intros [_ Hnot]. apply Hnot. by exists name, pc.
  - destruct (Put now (AddrText src) (seenTargets a)) as [s new] eqn:E. set (a1 := mkAssoc (proxyConns a) s (readers a) (opened a) (nextConn a)).
    assert (Es : see now (AddrText src) a = (a1, new)) by (unfold see; by rewrite E).
    assert (Er : r = if new then (readerEnds name pc a1, []) else (fst (see now (AddrText src) a1), [pkt])).
    { unfold r, proxyReply. rewrite bool_decide_true by done. by rewrite Es. }
    rewrite Er. clear Er. cbn [snd]. destruct new; cbn [fst snd].
    + unfold readerEnds. cbn [proxyConns readers a1]. rewrite (bool_decide_true _ Hn). rewrite lookup_delete_eq.
      split_and!; [done|done|set_solver|]. unfold closeAll. cbn [opened proxyConns]. rewrite elem_of_difference, elem_of_map_to_set.
      split; [done|]. intros (m & pc' & Hm & ->). rewrite lookup_delete_Some in Hm. destruct Hm as [Hne Hm]. apply Hne. by apply (i_inj a Hi name m pc).
    + split; [done|]. by pose proof (see_proj now (AddrText src) a1) as (-> & -> & _).
Qed.
End Association.

(** A name reached through the proxy [9]: its reply comes from an address the association
    has not seen. *)
Lemma trojanAssoc_replies_witness :
  let parse _ := None in let split _ := None in let resolve _ _ := Some (UDPAddr [1; 2; 3; 4] 53) in
  let rule d p := Some (d, p, Some (Through [9])) in
  let key h (p : Z) := h ++ [p] in let text (_ : NetAddr) := [49] in
  let a := fst (handle parse split resolve rule (fun _ => true) key text 1 (Packet [97] 53 [7]) newAssoc) in
  let r := proxyReply parse split text 2 [9] 0 (UDPAddr [1; 2; 3; 4] 53) [8] a in
  snd r = [] /\ proxyConns (fst r) !! [9] = None /\ 0%nat ∈ opened (closeAll (fst r)).
Proof.
  intros parse split resolve rule key text a r.
  assert (Hr : reach parse split resolve rule (fun _ => true) key text a) by (apply reach_step; [constructor|exact I]).
  assert (Hn : proxyConns a !! [9] = Some 0%nat) by (vm_compute; reflexivity).
  destruct (trojanAssoc_replies parse split resolve rule (fun _ => true) key text 2 [9] 0 (UDPAddr [1; 2; 3; 4] 53) [8] a Hr Hn) as (_ & _ & _ & H).
  replace (snd (Put 2 (text (UDPAddr [1; 2; 3; 4] 53)) (seenTargets a))) with true in H by (vm_compute; reflexivity).
  destruct H as (H1 & H2 & _ & H3). by split_and!.
Defined.
