(* ===== verification/Dhcp.v ===== *)
(** Dhcp: the DHCP server of the bypass gateway, src/tun/dhcp_linux.go: messages, leases,
    the address pool, static bindings and the Ethernet frame of a reply.

    Texts and addresses are lists of bytes, a nil address is the empty one.  The clock, the
    interface of the operating system and the parsers of package net are arguments.  The
    options of a message and the leases are Go maps; the order in which Go walks a map is
    an argument where the result is a list. *)

From Stdlib Require Import ZArith Lia Sorting.Permutation Sorting.Sorted.
From stdpp Require Import base gmap list numbers sorting.
From S2P Require Import Prelude Frame GoFloat IPPacket AddrCodec.
Open Scope Z_scope.

(** ** Messages *)

Definition dhcpDiscover : Z := 1.
Definition dhcpOffer : Z := 2.
Definition dhcpRequest : Z := 3.
Definition dhcpDecline : Z := 4.
Definition dhcpACK : Z := 5.
Definition dhcpNAK : Z := 6.
Definition dhcpRelease : Z := 7.

Definition optSubnetMask : Z := 1.
Definition optRouter : Z := 3.
Definition optDNS : Z := 6.
Definition optHostName : Z := 12.
Definition optDomainName : Z := 15.
Definition optRequestedIP : Z := 50.
Definition optLeaseTime : Z := 51.
Definition optMessageType : Z := 53.
Definition optServerIdentifier : Z := 54.
Definition optRenewalTime : Z := 58.
Definition optRebindingTime : Z := 59.
Definition optClientIdentifier : Z := 61.
Definition optEnd : Z := 255.

Definition dhcpMagic : list Z := [99; 130; 83; 99].

Record dhcpMessage := mkMessage {
  op : Z; htype : Z; hlen : Z; hops : Z;
  xid : list Z; secs : list Z; flags : list Z;
  ciaddr : list Z; yiaddr : list Z; siaddr : list Z; giaddr : list Z;
  chaddr : list Z; sname : list Z; file : list Z;
  options : gmap Z (list Z)
}.

Inductive dhcpError := ErrTooShort | ErrMagic.

(** The loop over the options; the rest of the packet takes the place of the index, and
    every turn shortens it. *)
Fixpoint parseOptions (fuel : nat) (rest : list Z) (opts : gmap Z (list Z)) : gmap Z (list Z) :=
  match fuel with
  | O => opts
  | S fuel =>
      match rest with
      | [] => opts
      | opt :: tail =>
          if opt =? optEnd then opts
          else if opt =? 0 then parseOptions fuel tail opts
          else match tail with
               | [] => opts
               | length :: tail =>
                   if len tail <? length then opts
                   else parseOptions fuel (from tail length) (<[opt := sub tail 0 length]> opts)
               end
      end
  end.

Definition parseDHCPMessage (data : list Z) : result dhcpError dhcpMessage :=
  if len data <? 240 then Err ErrTooShort
  else if negb (bool_decide (sub data 236 240 = dhcpMagic)) then Err ErrMagic
  else Ok (mkMessage (byte_at data 0) (byte_at data 1) (byte_at data 2) (byte_at data 3)
             (sub data 4 8) (sub data 8 10) (sub data 10 12)
             (sub data 12 16) (sub data 16 20) (sub data 20 24) (sub data 24 28)
             (sub data 28 44) (sub data 44 108) (sub data 108 236)
             (parseOptions (length data) (from data 240) ∅)).

Definition messageType (m : dhcpMessage) : Z :=
  match options m !! optMessageType with Some [t] => t | _ => 0 end.

Definition clientMAC (m : dhcpMessage) : list Z := sub (chaddr m) 0 (if 16 <? hlen m then 16 else hlen m).

Definition requestedIP (m : dhcpMessage) : list Z :=
  match options m !! optRequestedIP with Some opt => if len opt =? 4 then opt else [] | None => [] end.

Definition hostName (m : dhcpMessage) : list Z := default [] (options m !! optHostName).

(** The inner loop of the insertion sort goes down from the end of the sorted part, which
    is kept last element first. *)
Fixpoint insertDown (key : Z) (sorted : list Z) : list Z :=
  match sorted with
  | [] => [key]
  | c :: sorted' => if key <? c then c :: insertDown key sorted' else key :: sorted
  end.

Definition sortCodes (codes : list Z) : list Z := rev (foldl (fun sorted key => insertDown key sorted) [] codes).

Definition putOption (code : Z) (data : list Z) : list Z := [code; byte_of (len data)] ++ data.

(** [range] is the order in which the map yields its keys. *)
Definition serialize (range : list Z) (m : dhcpMessage) : list Z :=
  [op m; htype m; hlen m; hops m] ++ xid m ++ secs m ++ flags m ++ ciaddr m ++ yiaddr m ++ siaddr m ++ giaddr m ++
  chaddr m ++ sname m ++ file m ++ dhcpMagic ++
  match options m !! optMessageType with Some data => putOption optMessageType data | None => [] end ++
  concat (map (fun code => putOption code (default [] (options m !! code)))
              (sortCodes (List.filter (fun code => negb (code =? optMessageType)) range))) ++
  [optEnd].

(** ** Addresses *)

(** net.IP.Equal *)
Definition v4InV6Prefix : list Z := replicate 10 0 ++ [0xff; 0xff].
Definition ipEqual (ip x : list Z) : bool :=
  if len ip =? len x then bool_decide (ip = x)
  else if (len ip =? 4) && (len x =? 16) then bool_decide (x = v4InV6Prefix ++ ip)
  else if (len ip =? 16) && (len x =? 4) then bool_decide (ip = v4InV6Prefix ++ x)
  else false.

Definition to4 (ip : list Z) : list Z := default [] (To4 ip).

(** net.HardwareAddr.String *)
Definition hexDigit (d : Z) : Z := if d <? 10 then 48 + d else 87 + d.
Definition hexByte (b : Z) : list Z := [hexDigit (Z.shiftr b 4); hexDigit (Z.land b 0xf)].
Fixpoint hwString (mac : list Z) : list Z :=
  match mac with
  | [] => []
  | [b] => hexByte b
  | b :: mac' => hexByte b ++ [58] ++ hwString mac'
  end.

Definition dhcpIPToUint32 (ip : list Z) : Z := match To4 ip with Some ip4 => Uint32 ip4 | None => 0 end.
Definition dhcpUint32ToIP (n : Z) : list Z := PutUint32 n.

(** Go's copy. *)
Definition copyInto (dst src : list Z) : list Z := take (length dst) src ++ drop (length src) dst.

(** Increment with carry, the last byte first. *)
Fixpoint incDown (bytes : list Z) : list Z :=
  match bytes with
  | [] => []
  | b :: bytes => if byte_of (b + 1) =? 0 then 0 :: incDown bytes else byte_of (b + 1) :: bytes
  end.
Definition nextIP (ip : list Z) : list Z := rev (incDown (rev ip)).

(** ** Checksums *)

(** The pseudo-header, then the packet; zero is sent as all ones. *)
Definition pseudoSum (src dst : list Z) (packetLen : Z) : Z :=
  wordSum true src + wordSum true dst + 17 + packetLen.
Definition udpChecksum (src dst udpPacket : list Z) : Z :=
  let cksum := not16 (foldSum32 (wrap 32 (pseudoSum src dst (len udpPacket) + wordSum true udpPacket))) in
  if cksum =? 0 then 0xffff else cksum.

(** ** The server *)

Record lease := mkLease { l_ip : list Z; l_mac : list Z; l_hostname : list Z; l_expires : Z }.

Record DHCPStaticBinding := mkBinding { b_MAC : list Z; b_IP : list Z }.

Record DHCPConfig := mkConfig {
  PoolStart : list Z; PoolEnd : list Z; LeaseTime : list Z; StaticBindings : list DHCPStaticBinding
}.

Record dhcpServer := mkServer {
  cfg : DHCPConfig; dnsAddr : list Z; ifHWAddr : list Z;
  leases : gmap (list Z) lease; poolNext : list Z; poolEnd : list Z; leaseDur : Z;
  staticBindings : gmap (list Z) (list Z)
}.

Definition setLeases (ls : gmap (list Z) lease) (s : dhcpServer) : dhcpServer :=
  mkServer (cfg s) (dnsAddr s) (ifHWAddr s) ls (poolNext s) (poolEnd s) (leaseDur s) (staticBindings s).
Definition setNext (ip : list Z) (s : dhcpServer) : dhcpServer :=
  mkServer (cfg s) (dnsAddr s) (ifHWAddr s) (leases s) ip (poolEnd s) (leaseDur s) (staticBindings s).

(** A lease as it is stored. *)
Record storedLease := mkStored { e_IP : list Z; e_MAC : list Z; e_Hostname : list Z; e_Expires : Z }.

(** Address, mask and hardware address of the interface. *)
Record ifaceInfo := mkIface { i_ip : list Z; i_mask : list Z; i_mac : list Z }.

(** What a handler does besides changing the server. *)
Inductive action := SendFrame (frame : list Z) | SaveLeases (entries : list storedLease).

Definition after (expires now : Z) : bool := now <? expires.

Section Server.

(** Package net and time: a nil result is the empty list or [None]. *)
Variable ParseIP : list Z -> list Z.
Variable ParseMAC : list Z -> option (list Z).
Variable ParseDuration : list Z -> option Z.
Variable ipString : list Z -> list Z.

Definition LeaseDuration (d : DHCPConfig) : Z :=
  if bool_decide (LeaseTime d = []) then 24 * 3600 * Second
  else match ParseDuration (LeaseTime d) with
       | Some dur => if dur <=? 0 then 24 * 3600 * Second else dur
       | None => 24 * 3600 * Second
       end.

Definition normalizeMAC (s : list Z) : list Z :=
  match ParseMAC s with Some hw => hwString hw | None => [] end.

Definition bindStatic (bound : gmap (list Z) (list Z)) (b : DHCPStaticBinding) : gmap (list Z) (list Z) :=
  let mac := normalizeMAC (b_MAC b) in
  let ip := ParseIP (b_IP b) in
  if bool_decide (ip <> [] /\ mac <> []) then <[mac := to4 ip]> bound else bound.

Definition bindings (l : list DHCPStaticBinding) : gmap (list Z) (list Z) := foldl bindStatic ∅ l.

Definition UpdateStaticBindings (l : list DHCPStaticBinding) (s : dhcpServer) : dhcpServer :=
  mkServer (cfg s) (dnsAddr s) (ifHWAddr s) (leases s) (poolNext s) (poolEnd s) (leaseDur s) (bindings l).

(** ** Pool *)

(** The pool of the interface's subnet, [ones] the length of its mask. *)
Definition autoPool (ip mask : list Z) (ones : Z) : list Z * list Z :=
  let totalHosts := wrap 32 (Z.shiftl 1 (32 - ones)) in
  let poolSize := if totalHosts <? 100 then totalHosts / 2 else 50 in
  let poolSize := if poolSize <? 10 then 10 else poolSize in
  let networkIP := zip_with Z.land ip mask in
  let broadcastIP := zip_with (fun n m => Z.lor n (255 - m)) networkIP mask in
  let endUint32 := wrap 32 (dhcpIPToUint32 broadcastIP - 1) in
  let startUint32 := wrap 32 (endUint32 - poolSize + 1) in
  (dhcpUint32ToIP startUint32, dhcpUint32ToIP endUint32).

(** Leases read back; those that have run out or have no IPv4 address are left behind. *)
Definition loadLease (now : Z) (ls : gmap (list Z) lease) (e : storedLease) : gmap (list Z) lease :=
  if e_Expires e <? now then ls
  else let ip := to4 (ParseIP (e_IP e)) in
       if bool_decide (ip = []) then ls
       else <[e_MAC e := mkLease ip (default [] (ParseMAC (e_MAC e))) (e_Hostname e) (e_Expires e)]> ls.
Definition loadLeases (now : Z) (stored : list storedLease) : gmap (list Z) lease := foldl (loadLease now) ∅ stored.

(** newDHCPServerImpl after the interface was found, with its address, mask and mask
    length; [stored] is what the database holds.  [None] is the error return. *)
Definition newDHCPServer (c : DHCPConfig) (dns ip mask : list Z) (ones now : Z) (stored : list storedLease) : option dhcpServer :=
  let make start stop :=
    mkServer c (to4 dns) [] (loadLeases now stored) start stop (LeaseDuration c) (bindings (StaticBindings c)) in
  if bool_decide (PoolStart c <> [] /\ PoolEnd c <> []) then
    let start := to4 (ParseIP (PoolStart c)) in
    let stop := to4 (ParseIP (PoolEnd c)) in
    if bool_decide (start = [] \/ stop = []) then None else Some (make start stop)
  else let '(start, stop) := autoPool ip mask ones in Some (make start stop).

Definition advancePool (s : dhcpServer) : dhcpServer :=
  let ip := nextIP (poolNext s) in
  if dhcpIPToUint32 (poolEnd s) <? dhcpIPToUint32 ip
  then setNext (copyInto (poolNext s) (to4 (ParseIP (PoolStart (cfg s))))) s
  else setNext (copyInto (poolNext s) ip) s.

(** Whether any lease, or any static binding, has the address; the walk over a map ends at
    the first hit. *)
Definition leased (ls : gmap (list Z) lease) (now : Z) (ip : list Z) : bool :=
  existsb (fun kl => ipEqual (l_ip kl.2) ip && after (l_expires kl.2) now) (map_to_list ls).
Definition leasedByOther (ls : gmap (list Z) lease) (now : Z) (macStr ip : list Z) : bool :=
  existsb (fun kl => negb (bool_decide (kl.1 = macStr)) && ipEqual (l_ip kl.2) ip && after (l_expires kl.2) now) (map_to_list ls).
Definition bound (bs : gmap (list Z) (list Z)) (ip : list Z) : bool :=
  existsb (fun kb => ipEqual kb.2 ip) (map_to_list bs).
Definition inUse (s : dhcpServer) (now : Z) (ip : list Z) : bool :=
  leased (leases s) now ip || bound (staticBindings s) ip.

(** The loop of allocateIP; [None] when the fuel ends first.  The address is empty for nil. *)
Fixpoint allocLoop (fuel : nat) (now : Z) (macStr startIP : list Z) (s : dhcpServer) : option (list Z * dhcpServer) :=
  match fuel with
  | O => None
  | S fuel =>
      let candidate := poolNext s in
      let used := inUse s now candidate in
      let s := advancePool s in
      if used then if ipEqual (poolNext s) startIP then Some ([], s) else allocLoop fuel now macStr startIP s
      else Some (candidate, setLeases (<[macStr := mkLease candidate [] [] (now + leaseDur s)]> (leases s)) s)
  end.

Definition allocateIP (fuel : nat) (now : Z) (macStr : list Z) (s : dhcpServer) : option (list Z * dhcpServer) :=
  let dynamic :=
    match leases s !! macStr with
    | Some existing => if after (l_expires existing) now then Some (l_ip existing, s) else allocLoop fuel now macStr (poolNext s) s
    | None => allocLoop fuel now macStr (poolNext s) s
    end in
  match staticBindings s !! macStr with
  | Some staticIP =>
      if leasedByOther (leases s) now macStr staticIP then dynamic
      else Some (staticIP, setLeases (<[macStr := mkLease staticIP [] [] (now + leaseDur s)]> (leases s)) s)
  | None => dynamic
  end.

(** Start: the hardware address of the interface, which the sockets are bound to. *)
Definition Start (mac : list Z) (s : dhcpServer) : dhcpServer :=
  mkServer (cfg s) (dnsAddr s) mac (leases s) (poolNext s) (poolEnd s) (leaseDur s) (staticBindings s).

(** ** Replies *)

(** s.leaseDur.Seconds(), truncated. *)
Definition leaseSeconds (d : Z) : Z :=
  wrap 32 (ftrunc (Seconds d)).

Definition phaethonLocal : list Z := [112; 104; 97; 101; 116; 104; 111; 110; 46; 108; 111; 99; 97; 108].

Definition replyOptions (msgType leaseSecs : Z) (gateway mask dns : list Z) (req : dhcpMessage) : gmap Z (list Z) :=
  let opts :=
    <[optRebindingTime := PutUint32 (wrap 32 (leaseSecs * 7) / 8)]>
    (<[optRenewalTime := PutUint32 (leaseSecs / 2)]>
    (<[optDomainName := phaethonLocal]>
    (<[optDNS := dns]>
    (<[optRouter := gateway]>
    (<[optSubnetMask := mask]>
    (<[optLeaseTime := PutUint32 leaseSecs]>
    (<[optServerIdentifier := gateway]>
    (<[optMessageType := [msgType]]> ∅)))))))) in
  match options req !! optClientIdentifier with
  | Some cid => <[optClientIdentifier := cid]> opts
  | None => opts
  end.

Definition replyMessage (msgType : Z) (req : dhcpMessage) (assignedIP : list Z) (iface : ifaceInfo) (s : dhcpServer) : dhcpMessage :=
  mkMessage 2 (htype req) (hlen req) 0 (xid req) [0; 0] (flags req)
    [0; 0; 0; 0] (copyInto [0; 0; 0; 0] (to4 assignedIP)) (copyInto [0; 0; 0; 0] (i_ip iface)) (giaddr req)
    (chaddr req) (replicate 64 0) (replicate 128 0)
    (replyOptions msgType (leaseSeconds (leaseDur s)) (i_ip iface) (i_mask iface) (to4 (dnsAddr s)) req).

Definition bcastIP : list Z := [255; 255; 255; 255].
Definition bcastMAC : list Z := [255; 255; 255; 255; 255; 255].

Definition udpHeader (udpLen cksum : Z) : list Z := PutUint16 67 ++ PutUint16 68 ++ PutUint16 udpLen ++ PutUint16 cksum.
Definition udpPacket (src dst dhcpData : list Z) : list Z :=
  let udpLen := 8 + len dhcpData in
  udpHeader udpLen (udpChecksum src dst (udpHeader udpLen 0 ++ dhcpData)) ++ dhcpData.

Definition ipHeader (ipLen cksum : Z) (src dst : list Z) : list Z :=
  [0x45; 0] ++ PutUint16 ipLen ++ [0; 0; 0; 0; 255; 17] ++ PutUint16 cksum ++ src ++ dst.
Definition ipPacket (src dst udp : list Z) : list Z :=
  let ipLen := 20 + len udp in
  ipHeader ipLen (ipChecksum (ipHeader ipLen 0 src dst)) src dst ++ udp.

Definition ethFrame (src ip : list Z) : list Z := bcastMAC ++ copyInto [0; 0; 0; 0; 0; 0] src ++ PutUint16 0x0800 ++ ip.

Definition replyFrame (range : list Z) (msgType : Z) (req : dhcpMessage) (assignedIP : list Z) (iface : ifaceInfo) (s : dhcpServer) : list Z :=
  let dhcpData := serialize range (replyMessage msgType req assignedIP iface s) in
  ethFrame (ifHWAddr s) (ipPacket (to4 (i_ip iface)) bcastIP (udpPacket (to4 (i_ip iface)) bcastIP dhcpData)).

(** ** Handlers *)

(** What the environment shows to one handler: the interface at the two calls of
    getIfaceInfo, the clock, and the orders of the maps. *)
Record env := mkEnv {
  iface1 : option ifaceInfo; iface2 : option ifaceInfo;
  now1 : Z; now2 : Z; now3 : Z;
  rangeOptions : list Z; rangeLeases : list (list Z * lease)
}.

Definition sendReply (msgType : Z) (req : dhcpMessage) (assignedIP : list Z) (e : env) (s : dhcpServer) : list action :=
  match iface2 e with
  | None => []
  | Some iface => [SendFrame (replyFrame (rangeOptions e) msgType req assignedIP iface s)]
  end.

Definition store (now : Z) (kl : list Z * lease) : option storedLease :=
  if after (l_expires kl.2) now then Some (mkStored (ipString (l_ip kl.2)) kl.1 (l_hostname kl.2) (l_expires kl.2)) else None.
Definition saveLeases (e : env) : list action := [SaveLeases (omap (store (now3 e)) (rangeLeases e))].

Definition ActiveLeases (now : Z) (s : dhcpServer) : nat :=
  length (List.filter (fun kl => after (l_expires kl.2) now) (map_to_list (leases s))).

(** The server afterwards and the actions in their order; [None] when allocateIP runs out
    of fuel. *)
Definition handleMessage (fuel : nat) (e : env) (req : dhcpMessage) (s : dhcpServer) : option (dhcpServer * list action) :=
  let mac := clientMAC req in
  let macStr := hwString mac in
  let own := match iface1 e with
             | Some i => negb (bool_decide (i_mac i = [])) && bool_decide (macStr = hwString (i_mac i))
             | None => false
             end in
  let answer msgType ip s := Some (s, sendReply msgType req ip e s ++ saveLeases e) in
  if own then Some (s, [])
  else if messageType req =? dhcpDiscover then
    match allocateIP fuel (now1 e) macStr s with
    | None => None
    | Some (offeredIP, s) =>
        if bool_decide (offeredIP = []) then Some (s, [])
        else answer dhcpOffer offeredIP
               (setLeases (<[macStr := mkLease offeredIP mac (hostName req) (now2 e + leaseDur s)]> (leases s)) s)
    end
  else if messageType req =? dhcpRequest then
    let asked := requestedIP req in
    if bool_decide (asked = []) && ipEqual (ciaddr req) (v4InV6Prefix ++ [0; 0; 0; 0]) then Some (s, [])
    else
      let reqIP := if bool_decide (asked = []) then ciaddr req else asked in
      let reqIP := default reqIP (staticBindings s !! macStr) in
      let fresh := mkLease reqIP mac (hostName req) (now2 e + leaseDur s) in
      let renewed l := mkLease (l_ip l) (l_mac l) (if bool_decide (hostName req = []) then l_hostname l else hostName req) (now2 e + leaseDur s) in
      let l := match leases s !! macStr with
               | Some existing => if ipEqual (l_ip existing) reqIP && after (l_expires existing) (now1 e) then renewed existing else fresh
               | None => fresh
               end in
      answer dhcpACK reqIP (setLeases (<[macStr := l]> (leases s)) s)
  else if (messageType req =? dhcpRelease) || (messageType req =? dhcpDecline) then
    Some (setLeases (delete macStr (leases s)) s, [])
  else Some (s, []).

(** One datagram of the serve loop. *)
Definition serveDatagram (fuel : nat) (e : env) (data : list Z) (s : dhcpServer) : option (dhcpServer * list action) :=
  match parseDHCPMessage data with
  | Err _ => Some (s, [])
  | Ok msg => if op msg =? 1 then handleMessage fuel e msg s else Some (s, [])
  end.

End Server.

(** ** Round trip of messages *)

(** Fields of their length; codes that are neither padding nor the end; data whose length
    fits a byte. *)
Record wfMessage (m : dhcpMessage) : Prop := {
  wm_xid : len (xid m) = 4; wm_secs : len (secs m) = 2; wm_flags : len (flags m) = 2;
  wm_ciaddr : len (ciaddr m) = 4; wm_yiaddr : len (yiaddr m) = 4; wm_siaddr : len (siaddr m) = 4;
  wm_giaddr : len (giaddr m) = 4; wm_chaddr : len (chaddr m) = 16; wm_sname : len (sname m) = 64;
  wm_file : len (file m) = 128;
  wm_options : map_Forall (fun code data => code <> 0 /\ code <> optEnd /\ len data < 256) (options m)
}.

(** The keys of a map, in the order [range]. *)
Definition ranges {A} (m : gmap Z A) (range : list Z) : Prop := range ≡ₚ (map_to_list m).*1.

Lemma insertDown_perm key l : insertDown key l ≡ₚ key :: l.
Proof.
  induction l as [|c l IH]; cbn [insertDown]; [done|]. destruct (key <? c); [|done]. rewrite IH. apply Permutation_swap.
Qed.

Lemma insertDown_sorted key l : StronglySorted Z.ge l -> StronglySorted Z.ge (insertDown key l).
Proof.
  induction 1 as [|c l Hl IH Hc]; cbn [insertDown]; [by repeat constructor|].
  destruct (Z.ltb_spec key c).
  - constructor; [done|]. rewrite insertDown_perm. constructor; [lia|done].
  - constructor; [by constructor|]. constructor; [lia|]. apply (List.Forall_impl _ (fun x (Hx : Z.ge c x) => ltac:(lia) : Z.ge key x) Hc).
Qed.

Lemma foldInsert_spec codes l : StronglySorted Z.ge l ->
  let r := foldl (fun sorted key => insertDown key sorted) l codes in
  StronglySorted Z.ge r /\ r ≡ₚ codes ++ l.
Proof.
  revert l. induction codes as [|c codes IH]; intros l Hl; simpl; [done|].
  destruct (IH _ (insertDown_sorted c l Hl)) as [H1 H2]. split; [done|]. rewrite H2, insertDown_perm.
  by rewrite Permutation_middle.
Qed.

Lemma sortCodes_perm codes : sortCodes codes ≡ₚ codes.
Proof.
  unfold sortCodes. rewrite <- Permutation_rev. destruct (foldInsert_spec codes [] ltac:(constructor)) as [_ ->].
  by rewrite app_nil_r.
Qed.

#[local] Instance ge_antisymm : AntiSymm (=) Z.ge.
Proof. intros x y ??. lia. Qed.

(** The order of the map does not matter. *)
Lemma sortCodes_unique codes codes' : codes ≡ₚ codes' -> sortCodes codes = sortCodes codes'.
Proof.
  intros Hp. unfold sortCodes. f_equal.
  destruct (foldInsert_spec codes [] ltac:(constructor)) as [S1 P1].
  destruct (foldInsert_spec codes' [] ltac:(constructor)) as [S2 P2].
  apply (StronglySorted_unique Z.ge); [done..|]. by rewrite P1, P2, Hp.
Qed.

Lemma length_putOption code data : length (putOption code data) = S (S (length data)).
Proof. done. Qed.

Lemma parseOptions_put f junk codes : forall fuel opts,
  (forall c, c ∈ codes -> c <> 0 /\ c <> optEnd /\ len (f c) < 256) -> (length codes < fuel)%nat ->
  parseOptions fuel (concat (map (fun c => putOption c (f c)) codes) ++ optEnd :: junk) opts =
  foldl (fun o c => <[c := f c]> o) opts codes.
Proof.
  induction codes as [|c codes IH]; intros [|fuel] opts Hc Hf; simpl in Hf; try lia.
  - reflexivity.
  - destruct (Hc c ltac:(left)) as (H0 & H255 & Hl). pose proof (len_nonneg (f c)).
    cbn [map concat]. unfold putOption at 1. rewrite <- !app_assoc. cbn [app]. cbn [parseOptions].
    rewrite (proj2 (Z.eqb_neq _ _) H255), (proj2 (Z.eqb_neq _ _) H0).
    unfold wrap; rewrite (Z.mod_small (len (f c))) by (change (2 ^ 8) with 256; lia).
    rewrite len_app. rewrite (proj2 (Z.ltb_ge _ _)) by (pose proof (len_nonneg (concat (map (λ c, putOption c (f c)) codes) ++ optEnd :: junk)); lia).
    rewrite sub_app_l, from_app by done. cbn [foldl]. apply IH; [|lia]. intros c' ?. apply Hc. by right.
Qed.

Lemma foldl_insert_lookup (f : Z -> list Z) codes : forall (opts : gmap Z (list Z)) c,
  foldl (fun o c => <[c := f c]> o) opts codes !! c = if decide (c ∈ codes) then Some (f c) else opts !! c.
Proof.
  induction codes as [|c' codes IH]; intros opts c; cbn [foldl].
  - destruct (decide (c ∈ [])) as [H|H]; [by apply not_elem_of_nil in H|done].
  - rewrite IH. destruct (decide (c ∈ codes)) as [H|H].
    + by rewrite decide_True by (by right).
    + destruct (decide (c = c')) as [->|Hn]; [rewrite lookup_insert, !decide_True by (done || left); done|].
      rewrite lookup_insert_ne by done. rewrite decide_False; [done|]. set_solver.
Qed.

(** The codes in the order they are written. *)
Definition written (range : list Z) (m : dhcpMessage) : list Z :=
  match options m !! optMessageType with Some _ => [optMessageType] | None => [] end ++
  sortCodes (List.filter (fun code => negb (code =? optMessageType)) range).

Lemma written_elem range m c : ranges (options m) range -> c ∈ written range m <-> is_Some (options m !! c).
Proof.
  intros Hr. unfold written. rewrite elem_of_app, (sortCodes_perm _).
  assert (c ∈ range <-> is_Some (options m !! c)) as Hin.
  { rewrite Hr. rewrite list_elem_of_fmap. split.
    - intros ((k & v) & -> & H%elem_of_map_to_list). by exists v.
    - intros [v Hv]. exists (c, v). split; [done|]. by apply elem_of_map_to_list. }
  rewrite <- Hin, !list_elem_of_In, filter_In, negb_true_iff, Z.eqb_neq, <- !list_elem_of_In.
  destruct (Z.eq_dec c optMessageType) as [->|Hn].
  - rewrite Hin. destruct (options m !! optMessageType) as [d|].
    + split; [by eauto|intros _; left; left].
    + split; [intros [H|[_ H]]; [by apply not_elem_of_nil in H|done]|by intros []].
  - split; [|tauto]. intros [H|H]; [|tauto]. destruct (options m !! optMessageType); set_solver.
Qed.

Lemma serialize_eq range m :
  serialize range m =
  ([op m; htype m; hlen m; hops m] ++ xid m ++ secs m ++ flags m ++ ciaddr m ++ yiaddr m ++ siaddr m ++ giaddr m ++
   chaddr m ++ sname m ++ file m) ++ dhcpMagic ++
  concat (map (fun c => putOption c (default [] (options m !! c))) (written range m)) ++ [optEnd].
Proof.
  unfold serialize, written. rewrite <- !app_assoc. do 12 f_equal.
  destruct (options m !! optMessageType) as [d|] eqn:E; [|done]. cbn [app map concat]. rewrite E. cbn [default]. by rewrite <- app_assoc.
Qed.

Lemma sub_skip {A} (hd b : list A) lo hi n : len hd = n -> n <= lo -> sub (hd ++ b) lo hi = sub b (lo - n) (hi - n).
Proof. intros <- H. rewrite <- (sub_shift hd b (lo - len hd)) by lia. f_equal; lia. Qed.

(** Reading a field behind others of known lengths. *)
Ltac read_field :=
  repeat (erewrite sub_skip by (eassumption || lia));
  match goal with |- sub (?f ++ _) ?lo ?hi = ?f => replace lo with 0 by lia; replace hi with (len f) by lia; apply sub_app_l end.

Lemma parse_serialize range m junk : wfMessage m -> ranges (options m) range ->
  parseDHCPMessage (serialize range m ++ junk) = Ok m.
Proof.
  intros Hw Hr. pose proof Hw as []. rewrite serialize_eq, <- !app_assoc. set (tail := concat _ ++ [optEnd] ++ junk).
  set (H4 := [op m; htype m; hlen m; hops m]). assert (len H4 = 4) as L4 by done.
  assert (len dhcpMagic = 4) as Lm by done. pose proof (len_nonneg tail).
  unfold parseDHCPMessage. set (data := H4 ++ _).
  assert (len data = 240 + len tail) as Ld by (subst data; rewrite !len_app; lia).
  rewrite Ld, (proj2 (Z.ltb_ge _ _)) by lia.
  assert (sub data 236 240 = dhcpMagic) as -> by (subst data; read_field).
  rewrite bool_decide_eq_true_2 by done. cbn [negb].
  assert (sub data 4 8 = xid m) as -> by (subst data; read_field).
  assert (sub data 8 10 = secs m) as -> by (subst data; read_field).
  assert (sub data 10 12 = flags m) as -> by (subst data; read_field).
  assert (sub data 12 16 = ciaddr m) as -> by (subst data; read_field).
  assert (sub data 16 20 = yiaddr m) as -> by (subst data; read_field).
  assert (sub data 20 24 = siaddr m) as -> by (subst data; read_field).
  assert (sub data 24 28 = giaddr m) as -> by (subst data; read_field).
  assert (sub data 28 44 = chaddr m) as -> by (subst data; read_field).
  assert (sub data 44 108 = sname m) as -> by (subst data; read_field).
  assert (sub data 108 236 = file m) as -> by (subst data; read_field).
  assert (from data 240 = tail) as -> by (subst data; rewrite !app_assoc; apply from_app; rewrite !len_app; lia).
  change (byte_at data 0) with (op m). change (byte_at data 1) with (htype m).
  change (byte_at data 2) with (hlen m). change (byte_at data 3) with (hops m).
  enough (parseOptions (length data) tail ∅ = options m) as -> by (by destruct m).
  subst tail. change ([optEnd] ++ junk) with (optEnd :: junk).
  assert (forall c, c ∈ written range m -> c <> 0 /\ c <> optEnd /\ len (default [] (options m !! c)) < 256) as Hc.
  { intros c [d Hd]%written_elem; [|done]. rewrite Hd. exact (wm_options0 c d Hd). }
  rewrite parseOptions_put; [|done|].
  - apply map_eq. intros c. rewrite foldl_insert_lookup, lookup_empty. pose proof (written_elem range m c Hr) as Hi.
    destruct (decide _) as [Hin|Hn]; [apply Hi in Hin as [d ->]; done|]. destruct (options m !! c); [|done]. naive_solver.
  - unfold len in Ld. rewrite length_app in Ld. clear -Ld.
    assert (forall l, (length l <= length (concat (map (fun c => putOption c (default [] (options m !! c))) l)))%nat) as Hl.
    { induction l as [|c l IH]; [done|]. cbn [map concat]. rewrite length_app, length_putOption. simpl. lia. }
    specialize (Hl (written range m)). lia.
Qed.

(** Every reply, and every message whose fields have their lengths and whose options
    have proper codes and at most 255 bytes, is read back exactly by the parser from what
    serialize writes, whatever follows it; and the bytes do not depend on the order in
    which Go walks the map of options. *)
Theorem dhcp_roundtrip range range' m junk : wfMessage m -> ranges (options m) range -> ranges (options m) range' ->
  parseDHCPMessage (serialize range m ++ junk) = Ok m /\ serialize range m = serialize range' m.
Proof.
  intros Hw Hr Hr'. split; [by apply parse_serialize|]. rewrite !serialize_eq. unfold written.
  do 2 f_equal. rewrite (sortCodes_unique (List.filter _ range) (List.filter (fun code => negb (code =? optMessageType)) range')); [done|].
  assert (range ≡ₚ range') as Hp by (by rewrite Hr, Hr'). clear -Hp.
  induction Hp as [|x l l' _ IH|x y l|l l' l'' _ IH1 _ IH2]; cbn [List.filter]; [done|..].
  - destruct (negb _); [by constructor|done].
  - destruct (negb (x =? _)), (negb (y =? _)); try done. constructor.
  - by rewrite IH1.
Qed.

(** ** The pool *)

Definition ip4 (n : Z) : list Z := PutUint32 n.

Lemma ip4_inj a b : 0 <= a < 2 ^ 32 -> 0 <= b < 2 ^ 32 -> ip4 a = ip4 b -> a = b.
Proof.
  intros Ha Hb H. pose proof (Uint32_put a []) as E1. pose proof (Uint32_put b []) as E2.
  unfold ip4 in H. rewrite H, E2, !wrap_small in E1 by lia. done.
Qed.

Lemma ip4_len n : len (ip4 n) = 4.
Proof. done. Qed.

Lemma To4_ip4 n : To4 (ip4 n) = Some (ip4 n).
Proof. done. Qed.

Lemma ip4_num n : 0 <= n < 2 ^ 32 -> dhcpIPToUint32 (ip4 n) = n.
Proof.
  intros H. unfold dhcpIPToUint32. rewrite To4_ip4. unfold ip4. rewrite <- (app_nil_r (PutUint32 n)), Uint32_put.
  by apply wrap_small.
Qed.

Lemma ip4_equal a b : 0 <= a < 2 ^ 32 -> 0 <= b < 2 ^ 32 -> ipEqual (ip4 a) (ip4 b) = (a =? b).
Proof.
  intros Ha Hb. unfold ipEqual. rewrite !ip4_len, Z.eqb_refl. destruct (Z.eqb_spec a b) as [->|Hn].
  - by apply bool_decide_eq_true_2.
  - apply bool_decide_eq_false_2. intros E. by apply ip4_inj in E.
Qed.

Lemma bytes4 (a b c d a' b' c' d' : Z) : a = a' -> b = b' -> c = c' -> d = d' -> [a; b; c; d] = [a'; b'; c'; d'].
Proof. congruence. Qed.

(** Counting with carry is adding one. *)
Lemma nextIP_ip4 n : 0 <= n < 2 ^ 32 - 1 -> nextIP (ip4 n) = ip4 (n + 1).
Proof.
  intros H. unfold nextIP, ip4, PutUint32. cbn [rev app]. unfold incDown.
  rewrite !shiftr_div by lia. unfold wrap. change (2 ^ 8) with 256 in *. change (2 ^ 16) with 65536 in *. change (2 ^ 24) with 16777216 in *.
  change (2 ^ 32) with 4294967296 in *.
  assert (n mod 256 <> 255 \/ n mod 256 = 255) as [H0|H0] by lia.
  { rewrite (proj2 (Z.eqb_neq _ _)) by (Z.to_euclidean_division_equations; lia). cbn [rev app]. apply bytes4; Z.to_euclidean_division_equations; lia. }
  rewrite (proj2 (Z.eqb_eq _ 0)) by (Z.to_euclidean_division_equations; lia).
  assert (n / 256 mod 256 <> 255 \/ n / 256 mod 256 = 255) as [H1|H1] by lia.
  { rewrite (proj2 (Z.eqb_neq _ _)) by (Z.to_euclidean_division_equations; lia). cbn [rev app]. apply bytes4; Z.to_euclidean_division_equations; lia. }
  rewrite (proj2 (Z.eqb_eq _ 0)) by (Z.to_euclidean_division_equations; lia).
  assert (n / 65536 mod 256 <> 255 \/ n / 65536 mod 256 = 255) as [H2|H2] by lia.
  { rewrite (proj2 (Z.eqb_neq _ _)) by (Z.to_euclidean_division_equations; lia). cbn [rev app]. apply bytes4; Z.to_euclidean_division_equations; lia. }
  rewrite (proj2 (Z.eqb_eq _ 0)) by (Z.to_euclidean_division_equations; lia).
  rewrite (proj2 (Z.eqb_neq _ _)) by (Z.to_euclidean_division_equations; lia). cbn [rev app]. apply bytes4; Z.to_euclidean_division_equations; lia.
Qed.

Section Pool.
Variable ParseIP : list Z -> list Z.

Local Abbreviation advancePool := (advancePool ParseIP).
Local Abbreviation allocLoop := (allocLoop ParseIP).
Local Abbreviation allocateIP := (allocateIP ParseIP).

(** The pool runs from the next address [n] to its end [e] and then goes on at [w]: the
    configured start, or the end itself when there is none to copy. *)
Record pooled (s : dhcpServer) (w n e : Z) : Prop := {
  p_next : poolNext s = ip4 n; p_end : poolEnd s = ip4 e; p_range : 0 <= n <= e;
  p_wrap : copyInto (ip4 e) (to4 (ParseIP (PoolStart (cfg s)))) = ip4 w;
  p_wrange : 0 <= w <= e; p_top : e < 2 ^ 32 - 1
}.

Definition following (w e n : Z) : Z := if n <? e then n + 1 else w.

Lemma advancePool_pooled s w n e : pooled s w n e ->
  advancePool s = setNext (ip4 (following w e n)) s /\ pooled (setNext (ip4 (following w e n)) s) w (following w e n) e.
Proof.
  intros [Hn He Hr Hw Hwr Ht].
  assert (following w e n <= e /\ 0 <= following w e n) as Hf by (unfold following; destruct (Z.ltb_spec n e); lia).
  split; [|by constructor; try done; lia]. unfold advancePool, following. rewrite Hn, He, nextIP_ip4 by lia. rewrite !ip4_num by lia.
  destruct (Z.ltb_spec e (n + 1)); destruct (Z.ltb_spec n e); try lia.
  - assert (n = e) as -> by lia. by rewrite Hw.
  - done.
Qed.

Definition taken (now : Z) (macStr : list Z) (w e c : Z) (s : dhcpServer) : dhcpServer :=
  setLeases (<[macStr := mkLease (ip4 c) [] [] (now + leaseDur s)]> (leases s)) (setNext (ip4 (following w e c)) s).

Definition firstFree (s : dhcpServer) (now : Z) (cands : list Z) : option Z :=
  List.find (fun c => negb (inUse s now (ip4 c))) cands.

(** The pool passes through [l] and arrives at [m]. *)
Fixpoint passes (w e n : Z) (l : list Z) (m : Z) : Prop :=
  match l with [] => n = m | c :: l => c = n /\ passes w e (following w e n) l m end.

Lemma passes_app w e l1 l2 : forall n k m, passes w e n l1 k -> passes w e k l2 m -> passes w e n (l1 ++ l2) m.
Proof. induction l1 as [|c l1 IH]; intros n k m; cbn [passes app]; [by intros ->|]. intros [-> H] H2. eauto. Qed.

Lemma passes_up w e k : forall n, n + Z.of_nat k <= e -> passes w e n (seqZ n (Z.of_nat k)) (n + Z.of_nat k).
Proof.
  induction k as [|k IH]; intros n H; [simpl; lia|]. rewrite seqZ_cons by lia. split; [done|].
  unfold following. rewrite (proj2 (Z.ltb_lt _ _)) by lia.
  replace (Z.pred (Z.of_nat (S k))) with (Z.of_nat k) by lia. replace (n + Z.of_nat (S k)) with (n + 1 + Z.of_nat k) by lia.
  apply IH. lia.
Qed.

Lemma passes_range w e n m : n <= m <= e -> passes w e n (seqZ n (m - n)) m.
Proof.
  intros H. pose proof (passes_up w e (Z.to_nat (m - n)) n ltac:(lia)) as P. rewrite Z2Nat.id in P by lia.
  by replace (n + (m - n)) with m in P by lia.
Qed.

Lemma passes_top w e n : n <= e -> passes w e n (seqZ n (e - n + 1)) w.
Proof.
  intros H. rewrite seqZ_app by lia. eapply passes_app; [by apply passes_range|].
  rewrite seqZ_cons, (seqZ_nil (Z.succ _)) by lia. simpl. unfold following. rewrite Z.ltb_irrefl. split; [lia|done].
Qed.

Lemma pooled_start s w n e : pooled s w n e -> 0 <= n < 2 ^ 32.
Proof. intros []. lia. Qed.

(** The loop along a stretch of the pool that does not meet its first address again. *)
Lemma allocLoop_passes now macStr w e start m l : forall n fuel s,
  pooled s w n e -> passes w e n l m -> 0 <= start < 2 ^ 32 -> (forall c, c ∈ tail l -> c <> start) -> (length l <= fuel)%nat ->
  allocLoop fuel now macStr (ip4 start) s =
  match firstFree s now l with
  | Some c => Some (ip4 c, taken now macStr w e c s)
  | None => if bool_decide (l <> []) && (m =? start) then Some ([], setNext (ip4 m) s)
            else allocLoop (fuel - length l) now macStr (ip4 start) (setNext (ip4 m) s)
  end.
Proof.
  induction l as [|c l IH]; intros n fuel s Hp Hc Hs Ht Hf.
  - simpl in Hc. subst m. rewrite bool_decide_eq_false_2 by tauto. simpl. rewrite Nat.sub_0_r. f_equal. destruct s, Hp; simpl in *; by subst.
  - destruct fuel as [|fuel]; [simpl in Hf; lia|]. destruct Hc as [-> Hc]. pose proof (pooled_start _ _ _ _ Hp) as Hn.
    destruct (advancePool_pooled s w n e Hp) as [Ha Hp']. set (n' := following w e n) in *.
    pose proof (pooled_start _ _ _ _ Hp') as Hn'.
    cbn [allocLoop]. rewrite Ha, (p_next _ _ _ _ Hp). unfold firstFree. cbn [List.find].
    destruct (inUse s now (ip4 n)) eqn:Hu; cbn [negb]; [|done].
    change (poolNext (setNext (ip4 n') s)) with (ip4 n'). rewrite ip4_equal by done. rewrite bool_decide_eq_true_2 by done. cbn [andb].
    destruct l as [|c' l].
    + simpl in Hc. subst m. simpl. rewrite Nat.sub_0_r. done.
    + pose proof Hc as [E _]. assert (n' <> start) as Hne by (apply Ht; rewrite <- E; left).
      rewrite (proj2 (Z.eqb_neq _ _) Hne). rewrite (IH n' fuel _ Hp' Hc Hs); [|intros x Hx; apply Ht; by right|simpl in *; lia].
      change (firstFree (setNext (ip4 n') s) now (c' :: l)) with (firstFree s now (c' :: l)).
      rewrite bool_decide_eq_true_2 by done. cbn [andb]. done.
Qed.

(** The addresses in the order they are tried when the pool comes round to [n]. *)
Definition roundFrom (w n e : Z) : list Z := seqZ n (e - n + 1) ++ seqZ w (n - w).

Lemma allocLoop_round fuel now macStr s w n e : pooled s w n e -> w <= n -> e - w + 1 <= Z.of_nat fuel ->
  allocLoop fuel now macStr (poolNext s) s =
  match firstFree s now (roundFrom w n e) with
  | Some c => Some (ip4 c, taken now macStr w e c s)
  | None => Some ([], s)
  end.
Proof.
  intros Hp Hw Hf. rewrite (p_next _ _ _ _ Hp). pose proof Hp as [Hn He Hr Hwr ? ?].
  rewrite (allocLoop_passes now macStr w e n n (roundFrom w n e) n fuel s Hp); [|..].
  - destruct (firstFree _ _ _); [done|]. rewrite bool_decide_eq_true_2, Z.eqb_refl; [|unfold roundFrom; rewrite seqZ_cons by lia; done].
    cbn [andb]. do 2 f_equal. destruct s; simpl in *; by subst.
  - eapply passes_app; [by apply passes_top; lia|apply passes_range; lia].
  - lia.
  - intros c. unfold roundFrom. rewrite seqZ_cons by lia. cbn [tail app]. rewrite elem_of_app, !elem_of_seqZ. lia.
  - unfold roundFrom. rewrite length_app, !length_seqZ. lia.
Qed.

(** A pool that goes on behind its first address never meets it again. *)
Lemma allocLoop_stuck now macStr w start e fuel : forall k s,
  pooled s w k e -> start <= k -> start < w -> 0 <= start ->
  (forall c, start <= c <= e -> inUse s now (ip4 c) = true) ->
  allocLoop fuel now macStr (ip4 start) s = None.
Proof.
  induction fuel as [|fuel IH]; intros k s Hp Hk Hw Hs Hu; [done|].
  destruct (advancePool_pooled s w k e Hp) as [Ha Hp']. set (k' := following w e k) in *.
  assert (start < k') as Hlt by (subst k'; unfold following; destruct (k <? e); lia).
  pose proof (pooled_start _ _ _ _ Hp') as Hk'. pose proof Hp as [Hn ? ? ? ? ?].
  cbn [allocLoop]. rewrite Ha, Hn, Hu by lia. change (poolNext (setNext (ip4 k') s)) with (ip4 k').
  rewrite ip4_equal, (proj2 (Z.eqb_neq _ _)) by lia. apply (IH k'); [done|lia|done|done|]. intros c Hc. exact (Hu c Hc).
Qed.

Lemma firstFree_none s now l : firstFree s now l = None <-> forall c, c ∈ l -> inUse s now (ip4 c) = true.
Proof.
  unfold firstFree. induction l as [|c l IH]; cbn [List.find]; [split; [by intros _ c ?%not_elem_of_nil|done]|].
  destruct (inUse s now (ip4 c)) eqn:E; cbn [negb].
  - rewrite IH. split; [intros H c' [->|Hc]%elem_of_cons; auto|intros H c' Hc; apply H; by right].
  - split; [done|]. intros H. rewrite H in E; [done|left].
Qed.

Lemma firstFree_some s now l c : firstFree s now l = Some c -> c ∈ l /\ inUse s now (ip4 c) = false.
Proof. unfold firstFree. intros [H1 H2]%find_some. by rewrite list_elem_of_In, <- negb_true_iff. Qed.

Lemma allocLoop_exact now macStr s w n e : pooled s w n e ->
  match firstFree s now (roundFrom w n e) with
  | Some c => forall fuel, e - Z.min w n + 1 <= Z.of_nat fuel ->
      allocLoop fuel now macStr (poolNext s) s = Some (ip4 c, taken now macStr w e c s)
  | None => if w <=? n then forall fuel, e - w + 1 <= Z.of_nat fuel -> allocLoop fuel now macStr (poolNext s) s = Some ([], s)
            else forall fuel, allocLoop fuel now macStr (poolNext s) s = None
  end.
Proof.
  intros Hp. destruct (Z.leb_spec w n) as [Hw|Hw].
  - destruct (firstFree _ _ _) as [c|] eqn:Ef; intros fuel Hf; rewrite (allocLoop_round fuel now macStr s w n e) by (done || lia); by rewrite Ef.
  - pose proof Hp as [Hn ? ? ? ? ?].
    assert (roundFrom w n e = seqZ n (e - n + 1)) as ->.
    { unfold roundFrom. rewrite (seqZ_nil w) by lia. apply app_nil_r. }
    destruct (firstFree _ _ _) as [c|] eqn:Ef; intros fuel; rewrite Hn.
    + intros Hf. rewrite (allocLoop_passes now macStr w e n w (seqZ n (e - n + 1)) n fuel s Hp).
      * by rewrite Ef.
      * apply passes_top. lia.
      * lia.
      * intros x. rewrite seqZ_cons by lia. cbn [tail]. rewrite elem_of_seqZ. lia.
      * rewrite length_seqZ. lia.
    + eapply allocLoop_stuck; [done|lia..|]. intros c Hc. rewrite firstFree_none in Ef. apply Ef. apply elem_of_seqZ. lia.
Qed.

(** A client whose lease is not running and that has no static binding. *)
Definition unserved (s : dhcpServer) (now : Z) (macStr : list Z) : Prop :=
  staticBindings s !! macStr = None /\
  match leases s !! macStr with Some l => after (l_expires l) now = false | None => True end.

Lemma allocateIP_unserved fuel now macStr s : unserved s now macStr ->
  allocateIP fuel now macStr s = allocLoop fuel now macStr (poolNext s) s.
Proof. intros [Hs Hl]. unfold allocateIP. rewrite Hs. destruct (leases s !! macStr); [by rewrite Hl|done]. Qed.

(** For a client without a binding or a running lease, allocateIP gives the first
    address that nobody holds in the order of the pool, from the next address to the end
    and, when the pool has a configured start, from there on; the pool goes on behind it.
    When no address is free a configured pool reports exhaustion; but a generated pool has
    no start to go back to: the search stays at the last address and, unless it began
    there, never ends. *)
Theorem dhcp_allocation now macStr s w n e : pooled s w n e -> unserved s now macStr ->
  (forall c, firstFree s now (roundFrom w n e) = Some c -> forall fuel, e - Z.min w n + 1 <= Z.of_nat fuel ->
     allocateIP fuel now macStr s = Some (ip4 c, taken now macStr w e c s) /\
     pooled (taken now macStr w e c s) w (following w e c) e) /\
  (firstFree s now (roundFrom w n e) = None -> w <= n ->
     forall fuel, e - w + 1 <= Z.of_nat fuel -> allocateIP fuel now macStr s = Some ([], s)) /\
  (firstFree s now (roundFrom w n e) = None -> n < w -> forall fuel, allocateIP fuel now macStr s = None).
Proof.
  intros Hp Hu. pose proof (allocLoop_exact now macStr s w n e Hp) as Hx. split_and!.
  - intros c Hc fuel Hf. rewrite Hc in Hx. rewrite allocateIP_unserved, Hx by done. split; [done|].
    apply firstFree_some in Hc as [Hin _]. pose proof Hp as [? ? ? ? ? ?].
    assert (0 <= c <= e) as Hc by (unfold roundFrom in Hin; rewrite elem_of_app, !elem_of_seqZ in Hin; lia).
    assert (pooled (setNext (ip4 c) s) w c e) as Hpc by (by constructor).
    destruct (advancePool_pooled _ _ _ _ Hpc) as [_ []]. by constructor.
  - intros Hn Hw fuel Hf. rewrite Hn, (proj2 (Z.leb_le _ _) Hw) in Hx. rewrite allocateIP_unserved by done. by apply Hx.
  - intros Hn Hw fuel. rewrite Hn, (proj2 (Z.leb_gt _ _) Hw) in Hx. rewrite allocateIP_unserved by done. by apply Hx.
Qed.

End Pool.

(** ** Exclusive addresses *)

Definition is4 (ip : list Z) : Prop := exists n, 0 <= n < 2 ^ 32 /\ ip = ip4 n.

Lemma is4_equal a b : is4 a -> is4 b -> ipEqual a b = bool_decide (a = b).
Proof. intros (x & _ & ->) (y & _ & ->). done. Qed.

Lemma after_true x t : after x t = true <-> t < x.
Proof. apply Z.ltb_lt. Qed.

Lemma existsb_map {A} (f : list Z * A -> bool) (m : gmap (list Z) A) :
  existsb f (map_to_list m) = false <-> forall k v, m !! k = Some v -> f (k, v) = false.
Proof.
  rewrite <- not_true_iff_false, existsb_exists. split.
  - intros H k v Hk. apply not_true_iff_false. intros Hf. apply H. exists (k, v).
    split; [|done]. apply list_elem_of_In. by apply elem_of_map_to_list.
  - intros H ((k & v) & Hin & Hf). apply list_elem_of_In, elem_of_map_to_list in Hin. rewrite H in Hf; done.
Qed.

(** Nobody but [macStr] holds [ip] after [t], and nobody else is bound to it. *)
Definition freeFor (s : dhcpServer) (t : Z) (macStr ip : list Z) : Prop :=
  (forall m l, m <> macStr -> leases s !! m = Some l -> t < l_expires l -> l_ip l <> ip) /\
  (forall m b, m <> macStr -> staticBindings s !! m = Some b -> b <> ip).

(** Every running lease is the only one on its address and not on the address of another
    client's binding. *)
Record exclusive (s : dhcpServer) (t : Z) : Prop := {
  ex_leases : forall m l, leases s !! m = Some l -> is4 (l_ip l) /\ (t < l_expires l -> freeFor s t m (l_ip l));
  ex_bound : forall m b, staticBindings s !! m = Some b -> is4 b;
  ex_inj : forall m m' b, staticBindings s !! m = Some b -> staticBindings s !! m' = Some b -> m = m'
}.

Lemma freeFor_later s t t' m ip : t <= t' -> freeFor s t m ip -> freeFor s t' m ip.
Proof. intros Ht [H1 H2]. split; [|done]. intros m' l Hm Hl Hx. apply (H1 m' l); [done..|lia]. Qed.

Lemma exclusive_later s t t' : t <= t' -> exclusive s t -> exclusive s t'.
Proof.
  intros Ht [H1 H2 H3]. constructor; [|done..]. intros m l Hl. destruct (H1 m l Hl) as [H4 H5].
  split; [done|]. intros Hx. apply (freeFor_later s t); [done|]. apply H5. lia.
Qed.

Lemma exclusive_put s t macStr l : exclusive s t -> is4 (l_ip l) -> freeFor s t macStr (l_ip l) ->
  exclusive (setLeases (<[macStr := l]> (leases s)) s) t.
Proof.
  intros [H1 H2 H3] H4 [Hf1 Hf2]. constructor; [|done..]. cbn [leases setLeases]. intros m l' Hl.
  destruct (decide (m = macStr)) as [->|Hm].
  - rewrite lookup_insert_eq in Hl. injection Hl as <-. split; [done|]. intros _. split; [|done].
    cbn [leases setLeases]. intros m' l'' Hm'. rewrite lookup_insert_ne by done. by apply Hf1.
  - rewrite lookup_insert_ne in Hl by done. destruct (H1 m l' Hl) as [H5 H6]. split; [done|]. intros Hx.
    destruct (H6 Hx) as [H7 H8]. split; [|done]. cbn [leases setLeases]. intros m' l'' Hm' Hl' Hx'.
    destruct (decide (m' = macStr)) as [->|Hn].
    + rewrite lookup_insert_eq in Hl'. injection Hl' as <-. intros E. by apply (Hf1 m l' Hm Hl Hx).
    + rewrite lookup_insert_ne in Hl' by done. by apply (H7 m' l'').
Qed.

Lemma exclusive_delete s t macStr : exclusive s t -> exclusive (setLeases (delete macStr (leases s)) s) t.
Proof.
  intros [H1 H2 H3]. constructor; [|done..]. cbn [leases setLeases]. intros m l [Hm Hl]%lookup_delete_Some.
  destruct (H1 m l Hl) as [H4 H5]. split; [done|]. intros Hx. destruct (H5 Hx) as [H6 H7]. split; [|done].
  cbn [leases setLeases]. intros m' l' Hm' [_ Hl']%lookup_delete_Some. by apply (H6 m' l').
Qed.

Lemma exclusive_next s t ip : exclusive s t <-> exclusive (setNext ip s) t.
Proof. split; intros [H1 H2 H3]; by constructor. Qed.

(** What is not in use is free for anybody. *)
Lemma inUse_free s t macStr ip : exclusive s t -> is4 ip -> inUse s t ip = false -> freeFor s t macStr ip.
Proof.
  intros Hx H4 [Hl Hb]%orb_false_iff. unfold leased, bound in *. rewrite existsb_map in Hl. rewrite existsb_map in Hb. split.
  - intros m l _ Hm Ht E. specialize (Hl m l Hm). cbn in Hl. rewrite (proj2 (after_true _ _) Ht), andb_true_r in Hl.
    rewrite is4_equal, E, bool_decide_eq_true_2 in Hl by (done || by apply (ex_leases _ _ Hx m l Hm)). done.
  - intros m b _ Hm E. specialize (Hb m b Hm). cbn in Hb. rewrite E, is4_equal, bool_decide_eq_true_2 in Hb by done. done.
Qed.

Lemma notLeased_free s t macStr ip : exclusive s t -> staticBindings s !! macStr = Some ip ->
  leasedByOther (leases s) t macStr ip = false -> freeFor s t macStr ip.
Proof.
  intros Hx Hb Hl. unfold leasedByOther in Hl. rewrite existsb_map in Hl. pose proof (ex_bound _ _ Hx _ _ Hb) as H4. split.
  - intros m l Hm Hlm Ht E. specialize (Hl m l Hlm). cbn in Hl. rewrite (proj2 (after_true _ _) Ht), andb_true_r in Hl.
    rewrite bool_decide_eq_false_2, is4_equal, E, bool_decide_eq_true_2 in Hl by (done || by apply (ex_leases _ _ Hx m l Hlm)). done.
  - intros m b Hm Hbm E. subst b. apply Hm. by apply (ex_inj _ _ Hx m macStr ip).
Qed.

Section Serving.
Variable ParseIP : list Z -> list Z.
Variable ipString : list Z -> list Z.

(** A pool with a start to go back to. *)
Definition configured (s : dhcpServer) (w e : Z) : Prop := exists n, pooled ParseIP s w n e /\ w <= n.

Lemma configured_same s s' w e : cfg s = cfg s' -> poolNext s = poolNext s' -> poolEnd s = poolEnd s' ->
  configured s w e -> configured s' w e.
Proof. intros E1 E2 E3 (n & [] & Hw). exists n. split; [|done]. constructor; congruence. Qed.

Lemma allocateIP_exclusive fuel t macStr s w e : exclusive s t -> configured s w e -> e - w + 1 <= Z.of_nat fuel ->
  exists ip s', allocateIP ParseIP fuel t macStr s = Some (ip, s') /\ exclusive s' t /\ configured s' w e /\
    (ip <> [] -> is4 ip /\ freeFor s' t macStr ip).
Proof.
  intros Hx (n & Hp & Hw) Hf. pose proof Hp as [? ? ? ? ? ?].
  assert (forall l, exclusive s t -> is4 (l_ip l) -> freeFor s t macStr (l_ip l) ->
    let s' := setLeases (<[macStr := l]> (leases s)) s in exclusive s' t /\ freeFor s' t macStr (l_ip l)) as Hput.
  { intros l _ H4 Hfr s'. split; [by apply exclusive_put|]. destruct Hfr as [F1 F2]. split; [|done].
    intros m l' Hm. cbn [leases setLeases s']. rewrite lookup_insert_ne by done. by apply F1. }
  unfold allocateIP. set (dynamic := match leases s !! macStr with Some _ => _ | None => _ end).
  assert (exists ip s', dynamic = Some (ip, s') /\ exclusive s' t /\ configured s' w e /\
            (ip <> [] -> is4 ip /\ freeFor s' t macStr ip)) as Hd.
  { assert (exists ip s', allocLoop ParseIP fuel t macStr (poolNext s) s = Some (ip, s') /\ exclusive s' t /\ configured s' w e /\
              (ip <> [] -> is4 ip /\ freeFor s' t macStr ip)) as Hl.
    { rewrite (allocLoop_round ParseIP fuel t macStr s w n e Hp Hw Hf).
      destruct (firstFree _ _ _) as [c|] eqn:Ef.
      - apply firstFree_some in Ef as [Hin Hu].
        assert (0 <= c <= e /\ w <= c) as Hc by (unfold roundFrom in Hin; rewrite elem_of_app, !elem_of_seqZ in Hin; lia).
        assert (is4 (ip4 c)) as H4 by (exists c; split; [lia|done]).
        destruct (Hput (mkLease (ip4 c) [] [] (t + leaseDur s)) Hx H4 (inUse_free _ _ _ _ Hx H4 Hu)) as [P1 P2].
        exists (ip4 c), (taken t macStr w e c s). split_and!; try done; [by apply (exclusive_next _ t (ip4 (following w e c))) in P1|].
        exists (following w e c). assert (pooled ParseIP (setNext (ip4 c) s) w c e) as Hpc by (constructor; try done; lia).
        destruct (advancePool_pooled _ _ _ _ _ Hpc) as [_ []]. split; [by constructor|]. unfold following. destruct (c <? e); lia.
      - exists [], s. split_and!; try done. by exists n. }
    subst dynamic. destruct (leases s !! macStr) as [l|] eqn:El; [|done]. destruct (after (l_expires l) t) eqn:Ea; [|done].
    exists (l_ip l), s. apply after_true in Ea. destruct (ex_leases _ _ Hx macStr l El) as [H4 Hfr]. split_and!; try done; [by exists n|auto]. }
  destruct (staticBindings s !! macStr) as [b|] eqn:Eb; [|done].
  destruct (leasedByOther _ _ _ _) eqn:Eo; [done|]. pose proof (ex_bound _ _ Hx _ _ Eb) as H4.
  destruct (Hput (mkLease b [] [] (t + leaseDur s)) Hx H4 (notLeased_free _ _ _ _ Hx Eb Eo)) as [P1 P2].
  eexists b, _. split; [done|]. split_and!; try done. exists n. split; [by constructor|done].
Qed.

(** The address a REQUEST names. *)
Definition asked (req : dhcpMessage) : list Z := if bool_decide (requestedIP req = []) then ciaddr req else requestedIP req.

(** A client that asks for the address it was offered, or is bound to one. *)
Definition conforms (s : dhcpServer) (t : Z) (req : dhcpMessage) : Prop :=
  messageType req = dhcpRequest -> staticBindings s !! hwString (clientMAC req) = None ->
  exists l, leases s !! hwString (clientMAC req) = Some l /\ t < l_expires l /\ l_ip l = asked req.

(** Frames confirm the lease that is kept for the client from now on. *)
Definition confirms (e : env) (req : dhcpMessage) (s : dhcpServer) (acts : list action) : Prop :=
  forall frame, SendFrame frame ∈ acts -> exists l iface msgType,
    leases s !! hwString (clientMAC req) = Some l /\ l_expires l = now2 e + leaseDur s /\ iface2 e = Some iface /\
    frame = replyFrame (rangeOptions e) msgType req (l_ip l) iface s.

Lemma answer_confirms e req s msgType l : leases s !! hwString (clientMAC req) = Some l -> l_expires l = now2 e + leaseDur s ->
  confirms e req s (sendReply msgType req (l_ip l) e s ++ saveLeases ipString e).
Proof.
  intros Hl He frame. unfold sendReply, saveLeases. destruct (iface2 e) as [i|] eqn:Ei; cbn [app].
  - intros [[= ->]|[[=]|?%not_elem_of_nil]%elem_of_cons]%elem_of_cons; [|done]. by eexists l, i, msgType.
  - intros [[=]|?%not_elem_of_nil]%elem_of_cons. done.
Qed.

Lemma quiet_confirms e req s : confirms e req s [].
Proof. by intros frame ?%not_elem_of_nil. Qed.

Lemma request_exclusive s t req : exclusive s t -> conforms s t req -> messageType req = dhcpRequest ->
  let ip := default (asked req) (staticBindings s !! hwString (clientMAC req)) in
  is4 ip /\ (staticBindings s !! hwString (clientMAC req) = None -> freeFor s t (hwString (clientMAC req)) ip).
Proof.
  intros Hx Hc Hm. cbv zeta. destruct (staticBindings s !! _) as [b|] eqn:Eb; cbn [default].
  - split; [by apply (ex_bound _ _ Hx _ _ Eb)|done].
  - destruct (Hc Hm Eb) as (l & Hl & Ht & <-). destruct (ex_leases _ _ Hx _ _ Hl) as [H4 Hf]. auto.
Qed.

Lemma bound_free s t m b : exclusive s t -> staticBindings s !! m = Some b -> freeFor s t m b.
Proof.
  intros Hx Hb. split.
  - intros m' l Hm Hl Ht E. destruct (ex_leases _ _ Hx _ _ Hl) as [_ Hf]. destruct (Hf Ht) as [_ Hs]. by apply (Hs m b).
  - intros m' b' Hm Hb' E. subst b'. apply Hm. by apply (ex_inj _ _ Hx m' m b).
Qed.

Lemma handleMessage_exclusive fuel e req s t w top :
  exclusive s t -> configured s w top -> top - w + 1 <= Z.of_nat fuel ->
  t <= now1 e -> now1 e <= now2 e -> conforms s (now1 e) req ->
  exists s' acts, handleMessage ParseIP ipString fuel e req s = Some (s', acts) /\
    exclusive s' (now2 e) /\ configured s' w top /\ confirms e req s' acts.
Proof.
  intros Hx Hp Hf Ht1 Ht2 Hc. apply (exclusive_later s t (now1 e) Ht1) in Hx.
  pose proof (exclusive_later s _ (now2 e) Ht2 Hx) as Hx2. pose proof (quiet_confirms e req) as Hq.
  unfold handleMessage. cbv zeta. set (macStr := hwString (clientMAC req)) in *.
  destruct (match iface1 e with Some _ => _ | None => _ end); [by eexists _, _|].
  destruct (Z.eqb_spec (messageType req) dhcpDiscover).
  { destruct (allocateIP_exclusive fuel (now1 e) macStr s w top Hx Hp Hf) as (ip & s1 & -> & Hx1 & Hp1 & Hip).
    destruct (bool_decide_reflect (ip = [])) as [->|Hn]; [eexists _, _; split_and!; [done|by apply (exclusive_later _ (now1 e))|done|done]|].
    destruct (Hip Hn) as [H4 Hfr]. eexists _, _. split; [done|]. split_and!.
    - apply (exclusive_later _ (now1 e) _ Ht2). by apply exclusive_put.
    - by apply (configured_same s1).
    - apply (answer_confirms e req _ dhcpOffer (mkLease ip (clientMAC req) (hostName req) (now2 e + leaseDur s1))); [|done].
      cbn [leases setLeases]. apply lookup_insert_eq. }
  destruct (Z.eqb_spec (messageType req) dhcpRequest) as [Hm|].
  { destruct (_ && _); [by eexists _, _|].
    destruct (request_exclusive s (now1 e) req Hx Hc Hm) as [H4 Hfr]. fold (asked req). fold macStr in H4, Hfr.
    set (ip := default (asked req) (staticBindings s !! macStr)) in *.
    assert (freeFor s (now1 e) macStr ip) as Hfree.
    { destruct (staticBindings s !! macStr) as [b|] eqn:Eb; [|by apply Hfr]. by apply bound_free. }
    set (l := match leases s !! macStr with Some _ => _ | None => _ end).
    assert (l_ip l = ip /\ l_expires l = now2 e + leaseDur s) as [Eip Eex].
    { subst l. destruct (leases s !! macStr) as [x|] eqn:Ex; [|done]. destruct (ipEqual (l_ip x) ip) eqn:Ee; [|done]. destruct (after _ _); [|done].
      split; [|done]. cbn. rewrite is4_equal in Ee by (done || by apply (ex_leases _ _ Hx _ _ Ex)). by apply bool_decide_eq_true_1 in Ee. }
    eexists _, _. split; [done|]. split_and!.
    - apply (exclusive_later _ (now1 e) _ Ht2). apply exclusive_put; [done|by rewrite Eip..].
    - by apply (configured_same s).
    - rewrite <- Eip. apply (answer_confirms e req _ dhcpACK l); [|done]. cbn [leases setLeases]. apply lookup_insert_eq. }
  destruct (_ || _); [|by eexists _, _]. eexists _, _. split; [done|]. split_and!; [|by apply (configured_same s)|done].
  by apply exclusive_delete.
Qed.

(** Messages one after another. *)
Inductive serves (fuel : nat) (s0 : dhcpServer) (t0 : Z) : dhcpServer -> Z -> Prop :=
| serves_none : serves fuel s0 t0 s0 t0
| serves_one s t e req s' acts : serves fuel s0 t0 s t -> t <= now1 e -> now1 e <= now2 e -> conforms s (now1 e) req ->
    handleMessage ParseIP ipString fuel e req s = Some (s', acts) -> serves fuel s0 t0 s' (now2 e).

Lemma serves_exclusive fuel s0 t0 s t w top : exclusive s0 t0 -> configured s0 w top -> top - w + 1 <= Z.of_nat fuel ->
  serves fuel s0 t0 s t -> exclusive s t /\ configured s w top.
Proof.
  intros Hx Hp Hf. induction 1 as [|s t e req s' acts _ [IHx IHp] Ht1 Ht2 Hc Hh]; [done|].
  destruct (handleMessage_exclusive fuel e req s t w top IHx IHp Hf Ht1 Ht2 Hc) as (s1 & acts1 & E & H1 & H2 & _). rewrite Hh in E. by injection E as <- <-.
Qed.

(** C18: With a configured pool and bindings to distinct addresses, as long as clients ask
    for what they were offered, no two clients hold a running lease on one address, no
    client gets an address bound to another, and the handler always returns; every reply
    that leaves confirms the lease then kept for its client. *)
Theorem dhcp_exclusive fuel s0 t0 s t w top e req :
  exclusive s0 t0 -> configured s0 w top -> top - w + 1 <= Z.of_nat fuel ->
  serves fuel s0 t0 s t -> t <= now1 e -> now1 e <= now2 e -> conforms s (now1 e) req ->
  exclusive s t /\
  exists s' acts, handleMessage ParseIP ipString fuel e req s = Some (s', acts) /\
    exclusive s' (now2 e) /\ confirms e req s' acts.
Proof.
  intros Hx Hp Hf Hs Ht1 Ht2 Hc. destruct (serves_exclusive _ _ _ _ _ _ _ Hx Hp Hf Hs) as [Hx' Hp']. split; [done|].
  destruct (handleMessage_exclusive fuel e req s t w top) as (s1 & acts & E & H1 & _ & H2); eauto.
Qed.

End Serving.

(** ** Frames *)

(** A message as it comes out of a packet. *)
Record received (m : dhcpMessage) : Prop := {
  rc_wf : wfMessage m;
  rc_head : Forall is_byte [op m; htype m; hlen m; hops m];
  rc_xid : Forall is_byte (xid m); rc_flags : Forall is_byte (flags m); rc_giaddr : Forall is_byte (giaddr m);
  rc_chaddr : Forall is_byte (chaddr m);
  rc_options : map_Forall (fun code data => is_byte code /\ Forall is_byte data) (options m)
}.

Lemma sub_is_byte l lo hi : Forall is_byte l -> Forall is_byte (sub l lo hi).
Proof. intros H. unfold sub. by apply Forall_take, Forall_drop. Qed.

Lemma parseOptions_ok fuel : forall rest opts, Forall is_byte rest ->
  map_Forall (fun code data => (code <> 0 /\ code <> optEnd /\ len data < 256) /\ is_byte code /\ Forall is_byte data) opts ->
  map_Forall (fun code data => (code <> 0 /\ code <> optEnd /\ len data < 256) /\ is_byte code /\ Forall is_byte data) (parseOptions fuel rest opts).
Proof.
  induction fuel as [|fuel IH]; intros rest opts Hb Ho; [done|]. cbn [parseOptions]. destruct rest as [|c [|n tail]]; try done.
  - destruct (c =? optEnd); [done|]. destruct (c =? 0); [|done]. by apply IH; [apply Forall_nil|].
  - apply Forall_cons_iff in Hb as [Hc Hb]. pose proof Hb as Hb'. apply Forall_cons_iff in Hb' as [Hn Ht].
    destruct (Z.eqb_spec c optEnd); [done|]. destruct (Z.eqb_spec c 0); [by apply IH|].
    destruct (Z.ltb_spec (len tail) n); [done|]. apply IH; [by apply Forall_drop|].
    apply map_Forall_insert_2; [|done]. unfold is_byte in Hn.
    split_and!; try done; [|by apply sub_is_byte]. rewrite len_sub; lia.
Qed.

Lemma parse_received data m : Forall is_byte data -> parseDHCPMessage data = Ok m -> received m.
Proof.
  intros Hb. unfold parseDHCPMessage. destruct (Z.ltb_spec (len data) 240); [done|]. destruct (negb _); [done|]. intros [= <-].
  assert (Forall is_byte (from data 240)) as Hf by (by apply Forall_drop).
  pose proof (parseOptions_ok (length data) (from data 240) ∅ Hf ltac:(apply map_Forall_empty)) as Ho.
  constructor; cbn [op htype hlen hops xid flags giaddr chaddr options]; try by apply sub_is_byte.
  - constructor; cbn [xid secs flags ciaddr yiaddr siaddr giaddr chaddr sname file options]; try (rewrite len_sub by lia; lia).
    intros c d Hd. apply (Ho c d Hd).
  - repeat constructor; by apply byte_at_byte.
  - intros c d Hd. apply (Ho c d Hd).
Qed.

Lemma udpChecksum_completes s : 0 <= s < 2 ^ 31 ->
  let c := not16 (foldSum32 (wrap 32 s)) in foldSum32 (s + (if c =? 0 then 0xffff else c)) = 0xffff.
Proof.
  intros Hs c. destruct (Z.eqb_spec c 0) as [E|]; [|by apply checksum_completes].
  subst c. unfold not16 in E. rewrite (wrap_small 32) in E by lia. destruct (foldSum32_spec s ltac:(lia)) as (F1 & F2 & _).
  rewrite wrap_small in E by lia. destruct (foldSum32_spec (s + 0xffff) ltac:(lia)) as (G1 & G2 & G3).
  specialize (G3 ltac:(lia)). replace (s + 65535) with (s + 1 * 65535) in G2 by lia. rewrite Z.mod_add in G2 by lia.
  replace (s + 1 * 65535) with (s + 65535) in G2 by lia. rewrite <- F2 in G2. replace (foldSum32 s) with 65535 in G2 by lia.
  change (65535 mod 65535) with 0 in G2. set (r := foldSum32 (s + 65535)) in *. clearbody r. Z.to_euclidean_division_equations. lia.
Qed.

Definition udpVerifies (src dst udp : list Z) : Prop := foldSum32 (pseudoSum src dst (len udp) + wordSum true udp) = 0xffff.

Lemma udpPacket_verifies src dst data : Forall is_byte src -> Forall is_byte dst -> Forall is_byte data ->
  len src = 4 -> len dst = 4 -> len data < 2 ^ 13 -> udpVerifies src dst (udpPacket src dst data).
Proof.
  intros Hs Hd Hb Ls Ld Hl. unfold udpVerifies, udpPacket, udpHeader. cbv zeta. rewrite <- !app_assoc.
  set (n := 8 + len data). set (pre := PutUint16 67 ++ PutUint16 68 ++ PutUint16 n).
  change (PutUint16 67 ++ PutUint16 68 ++ PutUint16 n ++ PutUint16 0 ++ data) with (pre ++ cksumBytes 0 ++ data).
  change (PutUint16 67 ++ PutUint16 68 ++ PutUint16 n ++ PutUint16 ?c ++ data) with (pre ++ cksumBytes c ++ data).
  set (s := pseudoSum src dst (len (pre ++ cksumBytes 0 ++ data)) + wordSum true (pre ++ cksumBytes 0 ++ data)).
  unfold udpChecksum. fold s. cbv zeta.
  assert (Forall is_byte (pre ++ cksumBytes 0 ++ data)) as Hbytes.
  { subst pre. rewrite !Forall_app. split_and!; try apply PutUint16_bytes; done. }
  assert (len (pre ++ cksumBytes 0 ++ data) = 8 + len data) as Hlen by (rewrite !len_app; change (len pre) with 6; change (len (cksumBytes 0)) with 2; lia).
  pose proof (wordSum_range true _ Hbytes). pose proof (wordSum_range true _ Hs). pose proof (wordSum_range true _ Hd). pose proof (len_nonneg data).
  assert (0 <= s < 2 ^ 31) as Hrange by (subst s; unfold pseudoSum; lia).
  set (ck := if _ =? 0 then _ else _).
  assert (0 <= ck < 2 ^ 16) as Hck by (subst ck; pose proof (not16_range (foldSum32 (wrap 32 s))); destruct (_ =? 0); lia).
  rewrite (wordSum_field true pre data 3 ck) by done.
  assert (len (pre ++ cksumBytes ck ++ data) = len (pre ++ cksumBytes 0 ++ data)) as -> by (by rewrite !len_app).
  rewrite Z.add_assoc. fold s. by apply udpChecksum_completes.
Qed.

Lemma serialize_bytes range m : Forall is_byte [op m; htype m; hlen m; hops m] ->
  Forall (Forall is_byte) [xid m; secs m; flags m; ciaddr m; yiaddr m; siaddr m; giaddr m; chaddr m; sname m; file m] ->
  map_Forall (fun code data => is_byte code /\ Forall is_byte data) (options m) -> ranges (options m) range ->
  Forall is_byte (serialize range m).
Proof.
  intros Hh Hf Ho Hr. rewrite serialize_eq. repeat (apply Forall_cons_iff in Hf as [? Hf]).
  rewrite !Forall_app. split_and!; try done.
  - unfold dhcpMagic, is_byte. repeat constructor; lia.
  - apply Forall_forall. intros b (l & Hl & Hin)%list_elem_of_In%in_concat. apply in_map_iff in Hl as (c & <- & Hc).
    apply list_elem_of_In, written_elem in Hc as [d Hd]; [|done]. destruct (Ho c d Hd) as [B1 B2]. rewrite Hd in Hin. cbn [default] in Hin.
    apply list_elem_of_In in Hin. revert b Hin. apply Forall_forall. unfold putOption. constructor; [done|]. constructor; [apply byte_of_range|done].
  - unfold optEnd, is_byte. repeat constructor; lia.
Qed.

Lemma written_length range m : (length (written range m) <= S (length range))%nat.
Proof.
  unfold written. rewrite length_app, (Permutation_length (sortCodes_perm _)).
  pose proof (List.filter_length_le (fun code => negb (code =? optMessageType)) range). destruct (options m !! _); simpl; lia.
Qed.

Lemma concat_length_le (f : Z -> list Z) n l : (forall c, c ∈ l -> (length (f c) <= n)%nat) -> (length (concat (map f l)) <= n * length l)%nat.
Proof.
  induction l as [|c l IH]; intros H; [simpl; lia|]. cbn [map concat length]. rewrite length_app.
  pose proof (H c ltac:(left)). assert (length (concat (map f l)) <= n * length l)%nat by (apply IH; intros; apply H; by right). lia.
Qed.

Lemma serialize_short range m : wfMessage m -> ranges (options m) range -> (size (options m) <= 10)%nat -> len (serialize range m) < 2 ^ 13.
Proof.
  intros Hw Hr Hs. rewrite serialize_eq, !len_app. pose proof Hw as [].
  assert (length range = size (options m)) as Hl by (rewrite (Permutation_length Hr), length_fmap; apply length_map_to_list).
  pose proof (written_length range m) as Hwl.
  assert (length (concat (map (fun c => putOption c (default [] (options m !! c))) (written range m))) <= 258 * length (written range m))%nat as Hc.
  { apply concat_length_le. intros c [d Hd]%written_elem; [|done]. rewrite Hd, length_putOption. unfold default, id.
    pose proof (wm_options0 c d Hd) as (_ & _ & Hlen). unfold len in Hlen. lia. }
  assert (len (concat (map (fun c => putOption c (default [] (options m !! c))) (written range m))) <= 258 * 11) by (unfold len; lia).
  change (len [op m; htype m; hlen m; hops m]) with 4. change (len dhcpMagic) with 4. change (len [optEnd]) with 1. lia.
Qed.

Definition networkOf (f : list Z) : list Z := from f 14.
Definition segmentOf (f : list Z) : list Z := from f 34.
Definition payloadOf (f : list Z) : list Z := from f 42.

(** The server's addresses as the operating system gives them. *)
Record hostOk (iface : ifaceInfo) (s : dhcpServer) : Prop := {
  ho_ip : is4 (i_ip iface); ho_mask : is4 (i_mask iface);
  ho_mac : len (ifHWAddr s) = 6 /\ Forall is_byte (ifHWAddr s);
  ho_dns : Forall is_byte (to4 (dnsAddr s)) /\ len (to4 (dnsAddr s)) <= 4
}.

Lemma ip4_bytes n : Forall is_byte (ip4 n).
Proof. apply PutUint32_bytes. Qed.

Lemma is4_bytes ip : is4 ip -> Forall is_byte ip /\ len ip = 4 /\ to4 ip = ip.
Proof. intros (n & _ & ->). split_and!; [apply ip4_bytes|done|done]. Qed.

Lemma copyInto_all dst src : length src = length dst -> copyInto dst src = src.
Proof. intros H. unfold copyInto. rewrite <- H, firstn_all, drop_ge, app_nil_r by lia. done. Qed.

Lemma size_insert_le (m : gmap Z (list Z)) c d : (size (<[c := d]> m) <= S (size m))%nat.
Proof. rewrite map_size_insert. destruct (m !! c); simpl; lia. Qed.

Lemma replyOptions_ok msgType secs gw mask dns req : received req -> is_byte msgType ->
  is4 gw -> is4 mask -> Forall is_byte dns -> len dns <= 4 ->
  map_Forall (fun code data => (code <> 0 /\ code <> optEnd /\ len data < 256) /\ is_byte code /\ Forall is_byte data)
    (replyOptions msgType secs gw mask dns req) /\
  (size (replyOptions msgType secs gw mask dns req) <= 10)%nat.
Proof.
  intros Hr Ht Hg Hm Hd Ld. destruct (is4_bytes gw Hg) as (? & ? & _), (is4_bytes mask Hm) as (? & ? & _).
  assert (forall n, Forall is_byte (PutUint32 n) /\ len (PutUint32 n) = 4) as H4 by (split; [apply PutUint32_bytes|done]).
  assert (Forall is_byte phaethonLocal) by (unfold phaethonLocal, is_byte; repeat constructor; lia).
  unfold replyOptions. cbv zeta. split.
  - destruct (options req !! optClientIdentifier) as [cid|] eqn:Ec;
      [apply map_Forall_insert_2; [split_and!; try done; [by apply (wm_options _ (rc_wf _ Hr) _ _ Ec)|by apply (rc_options _ Hr _ _ Ec)]|]|];
      repeat (apply map_Forall_insert_2; [split_and!; first [done | by apply H4 | (rewrite ?(proj2 (H4 _)); unfold is_byte; simpl; lia) | (constructor; [done|constructor])]|]);
      by intros ? ? ?%lookup_empty_Some.
  - destruct (options req !! optClientIdentifier);
      repeat (etransitivity; [apply size_insert_le|]; apply le_n_S); rewrite map_size_empty; lia.
Qed.

Lemma reply_wf msgType req ip iface s : received req -> is_byte msgType -> is4 ip -> hostOk iface s ->
  let m := replyMessage msgType req ip iface s in
  wfMessage m /\ (size (options m) <= 10)%nat /\ Forall is_byte [op m; htype m; hlen m; hops m] /\
  Forall (Forall is_byte) [xid m; secs m; flags m; ciaddr m; yiaddr m; siaddr m; giaddr m; chaddr m; sname m; file m] /\
  map_Forall (fun code data => is_byte code /\ Forall is_byte data) (options m) /\
  yiaddr m = ip /\ siaddr m = i_ip iface.
Proof.
  intros Hr Ht Hip [Hg Hm _ [Hd Ld]] m.
  destruct (replyOptions_ok msgType (leaseSeconds (leaseDur s)) _ _ _ _ Hr Ht Hg Hm Hd Ld) as [Ho Hsz].
  destruct (is4_bytes _ Hip) as (? & ? & E4), (is4_bytes _ Hg) as (? & ? & _).
  pose proof Hr as [[] Hh ? ? ? ? _].
  assert (forall x, len x = 4 -> copyInto [0; 0; 0; 0] x = x) as Hcp by (intros x Hx; apply copyInto_all; unfold len in Hx; simpl; lia).
  assert (forall n, Forall is_byte (replicate n 0)) as Hz by (intros; apply Forall_replicate; unfold is_byte; lia).
  assert (yiaddr m = ip /\ siaddr m = i_ip iface) as [Ey Es] by (subst m; cbn [yiaddr siaddr replyMessage]; rewrite E4, !Hcp; done).
  split_and!; try done.
  - constructor; rewrite ?Ey, ?Es; try done. intros c d Hc. apply (Ho c d Hc).
  - apply Forall_cons_iff in Hh as [_ Hh]. apply Forall_cons_iff in Hh as [B1 Hh]. apply Forall_cons_iff in Hh as [B2 _].
    cbn [op htype hlen hops m replyMessage]. repeat (apply Forall_cons_iff; split); try done; unfold is_byte; lia.
  - rewrite Ey, Es. repeat (apply Forall_cons_iff; split); try done; try (apply (Hz 64%nat)); try (apply (Hz 128%nat)); try (apply (Hz 4%nat)); apply (Hz 2%nat).
  - intros c d Hc. apply (Ho c d Hc).
Qed.

Lemma from_skip {A} (hd b : list A) n k : len hd = n -> n <= k -> from (hd ++ b) k = from b (k - n).
Proof. intros <- H. rewrite <- (from_shift hd b (k - len hd)) by lia. f_equal. lia. Qed.

Lemma bcastIP_bytes : Forall is_byte bcastIP.
Proof. unfold bcastIP, is_byte. repeat constructor; lia. Qed.

Lemma ipHeader_verifies n src dst : Forall is_byte src -> Forall is_byte dst -> len src = 4 -> len dst = 4 ->
  verifies true (ipHeader n (ipChecksum (ipHeader n 0 src dst)) src dst).
Proof.
  intros Bs Bd Ls Ld. set (pre := [69; 0] ++ PutUint16 n ++ [0; 0; 0; 0; 255; 17]).
  change (verifies true (pre ++ cksumBytes (not16 (foldSum32 (wrap 32 (wordSum true (pre ++ cksumBytes 0 ++ src ++ dst))))) ++ src ++ dst)).
  apply (verifies_filled true _ _ 5); [done|..].
  - subst pre. rewrite !Forall_app. split_and!; try done; try apply PutUint16_bytes; unfold is_byte; repeat constructor; lia.
  - rewrite !len_app, Ls, Ld. done.
Qed.

Lemma ipHeader_src n ck src dst rest : len src = 4 -> len dst = 4 -> extractSrcIP (ipHeader n ck src dst ++ rest) = Some src.
Proof.
  intros Ls Ld. unfold extractSrcIP, ipHeader. rewrite !len_app, Ls, Ld. pose proof (len_nonneg rest).
  rewrite (proj2 (Z.ltb_ge _ _)) by (unfold len at 1 2 3 4; simpl; lia). cbn [orb]. f_equal.
  rewrite <- !app_assoc. do 4 erewrite sub_skip by (reflexivity || done). rewrite <- Ls at 1. apply sub_app_l.
Qed.

Lemma ipHeader_dst n ck src dst rest : len src = 4 -> len dst = 4 -> extractDstIP (ipHeader n ck src dst ++ rest) = Some dst.
Proof.
  intros Ls Ld. unfold extractDstIP, ipHeader. rewrite !len_app, Ls, Ld. pose proof (len_nonneg rest).
  rewrite (proj2 (Z.ltb_ge _ _)) by (unfold len at 1 2 3 4; simpl; lia). cbn [orb]. f_equal.
  rewrite <- !app_assoc. do 5 erewrite sub_skip by (eassumption || reflexivity || done).
  rewrite <- (sub_app_l dst rest) at 2. by rewrite Ld.
Qed.

(** The frame of a reply is a broadcast from the interface's hardware address, an
    IPv4 packet from the gateway whose header checksum verifies, a UDP segment from port 67
    to port 68 whose checksum verifies with the pseudo-header, and a DHCP message that the
    parser reads back: of the asked type, to the transaction and the hardware address of
    the request, with the assigned address. *)
Theorem dhcp_reply_frame range msgType data req ip iface s :
  Forall is_byte data -> parseDHCPMessage data = Ok req -> is_byte msgType -> is4 ip -> hostOk iface s ->
  ranges (options (replyMessage msgType req ip iface s)) range ->
  let f := replyFrame range msgType req ip iface s in
  sub f 0 6 = bcastMAC /\ sub f 6 12 = ifHWAddr s /\ Uint16 (sub f 12 14) = 0x0800 /\
  verifies true (sub f 14 34) /\ extractSrcIP (networkOf f) = Some (i_ip iface) /\ extractDstIP (networkOf f) = Some bcastIP /\
  Uint16 (sub (segmentOf f) 0 2) = 67 /\ Uint16 (sub (segmentOf f) 2 4) = 68 /\
  udpVerifies (i_ip iface) bcastIP (segmentOf f) /\
  exists m, parseDHCPMessage (payloadOf f) = Ok m /\ messageType m = msgType /\ xid m = xid req /\ chaddr m = chaddr req /\ yiaddr m = ip.
Proof.
  intros Hdata Hparse Ht Hip Hh Hr f. pose proof (parse_received _ _ Hdata Hparse) as Hreq.
  destruct (reply_wf msgType req ip iface s Hreq Ht Hip Hh) as (Wm & Ws & W1 & W2 & W3 & Wy & Wsi).
  set (m := replyMessage msgType req ip iface s) in *. pose proof (serialize_bytes range m W1 W2 W3 Hr) as Bd.
  pose proof (serialize_short range m Wm Hr Ws) as Sd. pose proof (parse_serialize range m [] Wm Hr) as Pd. rewrite app_nil_r in Pd.
  destruct Hh as [Hg _ [Lmac Bmac] _]. destruct (is4_bytes _ Hg) as (Bg & Lg & Eg).
  assert (copyInto [0; 0; 0; 0; 0; 0] (ifHWAddr s) = ifHWAddr s) as Ec by (apply copyInto_all; unfold len in Lmac; simpl; lia).
  subst f. unfold replyFrame. fold m. rewrite Eg. set (d := serialize range m) in *. set (udp := udpPacket (i_ip iface) bcastIP d).
  assert (udpVerifies (i_ip iface) bcastIP udp) as Vu.
  { apply udpPacket_verifies; try done. apply bcastIP_bytes. }
  assert (len udp = 8 + len d) as Lu by (subst udp; unfold udpPacket, udpHeader; rewrite !len_app; done).
  set (ck := ipChecksum (ipHeader (20 + len udp) 0 (i_ip iface) bcastIP)).
  set (h := ipHeader (20 + len udp) ck (i_ip iface) bcastIP).
  assert (ipPacket (i_ip iface) bcastIP udp = h ++ udp) as -> by done.
  assert (len h = 20) as Lh by (subst h; unfold ipHeader; rewrite !len_app, Lg; done).
  assert (len bcastMAC = 6) as Lb by done. unfold ethFrame. rewrite Ec. assert (len (PutUint16 0x0800) = 2) as Lp by done.
  assert (networkOf (bcastMAC ++ ifHWAddr s ++ PutUint16 2048 ++ h ++ udp) = h ++ udp) as En.
  { unfold networkOf. erewrite !from_skip by (eassumption || lia). done. }
  assert (segmentOf (bcastMAC ++ ifHWAddr s ++ PutUint16 2048 ++ h ++ udp) = udp) as Esg.
  { unfold segmentOf. erewrite !from_skip by (eassumption || lia). done. }
  rewrite En, Esg. split_and!; try done.
  - erewrite sub_skip by (eassumption || lia). rewrite <- (sub_app_l (ifHWAddr s) (PutUint16 2048 ++ h ++ udp)) at 2. f_equal; lia.
  - do 2 erewrite sub_skip by (eassumption || lia). done.
  - do 3 erewrite sub_skip by (eassumption || lia). replace (34 - 6 - 6 - 2) with (len h) by lia. replace (14 - 6 - 6 - 2) with 0 by lia.
    rewrite sub_app_l. apply ipHeader_verifies; try done. apply bcastIP_bytes.
  - by apply ipHeader_src.
  - by apply ipHeader_dst.
  - exists m. split_and!; try done.
    + unfold payloadOf. erewrite !from_skip by (eassumption || lia). subst udp. unfold udpPacket. cbv zeta. rewrite from_app by done. done.
    + unfold messageType. subst m. cbn [options replyMessage]. unfold replyOptions. cbv zeta.
      destruct (options req !! optClientIdentifier); rewrite ?lookup_insert_ne by done; by rewrite lookup_insert_eq.
Qed.

(** ** Leases across a restart *)

Section Restart.
Variable ParseIP : list Z -> list Z.
Variable ParseMAC : list Z -> option (list Z).
Variable ipString : list Z -> list Z.
Hypothesis ParseIP_String : forall ip, is4 ip -> to4 (ParseIP (ipString ip)) = ip.

(** What is left of a lease written at [now] and read at [now']. *)
Definition survives (now now' : Z) (l : lease) : bool := after (l_expires l) now && negb (l_expires l <? now').
Definition reread (m : list Z) (l : lease) : lease := mkLease (l_ip l) (default [] (ParseMAC m)) (l_hostname l) (l_expires l).

Lemma is4_nonempty ip : is4 ip -> ip <> [].
Proof. by intros (n & _ & ->). Qed.

Lemma reload_lookup now now' l : forall ls m, NoDup l.*1 -> (forall k x, (k, x) ∈ l -> is4 (l_ip x)) ->
  foldl (loadLease ParseIP ParseMAC now') ls (omap (store ipString now) l) !! m =
  match list_find (fun kl => kl.1 = m) l with
  | Some (_, (_, x)) => if survives now now' x then Some (reread m x) else ls !! m
  | None => ls !! m
  end.
Proof.
  induction l as [|[k x] l IH]; intros ls m Hn H4; [done|]. cbn [fmap list_fmap] in Hn. apply list.NoDup_cons in Hn as [Hk Hn].
  assert (is4 (l_ip x)) as Hx by (apply (H4 k x); left).
  assert (forall ls', ls' !! m = (if decide (k = m) then if survives now now' x then Some (reread m x) else ls !! m else ls !! m) ->
    foldl (loadLease ParseIP ParseMAC now') ls' (omap (store ipString now) l) !! m =
    match list_find (fun kl => kl.1 = m) ((k, x) :: l) with
    | Some (_, (_, x)) => if survives now now' x then Some (reread m x) else ls !! m
    | None => ls !! m end) as Hrest.
  { intros ls' Hls. rewrite IH by (done || intros k' x' ?; apply (H4 k' x'); by right). cbn [list_find fst].
    destruct (decide (k = m)) as [->|Hne]; rewrite ?Hls.
    - destruct (list_find _ l) as [[i [k' x']]|] eqn:Ef; [|done]. apply list_find_Some in Ef as (Hi & E & _). cbn in E. subst k'.
      exfalso. apply Hk. apply list_elem_of_fmap. exists (m, x'). split; [done|]. by apply list_elem_of_lookup_2 in Hi.
    - by destruct (list_find _ l) as [[i [k' x']]|]. }
  cbn [omap list_omap]. unfold store at 1. cbn [snd fst]. unfold survives in Hrest. destruct (after (l_expires x) now) eqn:Ea; cbn [andb] in Hrest.
  - cbn [foldl]. apply Hrest. unfold loadLease. cbn [e_Expires e_IP e_MAC e_Hostname]. rewrite ParseIP_String by done.
    destruct (l_expires x <? now'); cbn [negb]; [by destruct (decide _)|]. rewrite bool_decide_eq_false_2 by (by apply is4_nonempty).
    destruct (decide (k = m)) as [->|Hne]; [apply lookup_insert_eq|by rewrite lookup_insert_ne].
  - apply Hrest. by destruct (decide _).
Qed.

(** A server that starts again has the leases that still run, under the same clients. *)
Lemma leases_reloaded s t now now' range m : exclusive s t -> range ≡ₚ map_to_list (leases s) ->
  loadLeases ParseIP ParseMAC now' (omap (store ipString now) range) !! m =
  match leases s !! m with Some l => if survives now now' l then Some (reread m l) else None | None => None end.
Proof.
  intros Hx Hr. unfold loadLeases. rewrite reload_lookup, lookup_empty.
  - destruct (list_find _ range) as [[i [k x]]|] eqn:Ef.
    + apply list_find_Some in Ef as (Hi & E & _). cbn in E. subst k. apply list_elem_of_lookup_2 in Hi. rewrite Hr, elem_of_map_to_list in Hi. by rewrite Hi.
    + apply list_find_None in Ef. destruct (leases s !! m) as [l|] eqn:El; [|done]. exfalso.
      rewrite Forall_forall in Ef. apply (Ef (m, l)); [|done]. rewrite Hr. by apply elem_of_map_to_list.
  - rewrite Hr. apply NoDup_fst_map_to_list.
  - intros k x Hk. rewrite Hr, elem_of_map_to_list in Hk. by apply (ex_leases _ _ Hx k x).
Qed.

End Restart.

(** ** Examples *)

(** Addresses are written as their bytes. *)
Definition blank : dhcpServer := mkServer (mkConfig [] [] [] []) [] [] ∅ [] [] 0 ∅.
Definition start (c : DHCPConfig) (ip : list Z) (ones : Z) (stored : list storedLease) : dhcpServer :=
  default blank (newDHCPServer id Some (fun _ => None) c [10; 0; 0; 3] ip (ip4 (2 ^ 32 - 2 ^ (32 - ones))) ones 0 stored).

Definition configuredDemo : dhcpServer := start (mkConfig [10; 0; 0; 8] [10; 0; 0; 11] [] []) [10; 0; 0; 1] 28 [].
Definition clientA : list Z := [2; 0; 0; 0; 0; 10].
Definition clientB : list Z := [2; 0; 0; 0; 0; 11].
Definition demoMessage (msgType : Z) (mac want : list Z) : dhcpMessage :=
  mkMessage 1 1 6 0 [1; 2; 3; 4] [0; 0] [128; 0] [0; 0; 0; 0] [0; 0; 0; 0] [0; 0; 0; 0] [0; 0; 0; 0]
    (mac ++ replicate 10 0) (replicate 64 0) (replicate 128 0)
    (<[optMessageType := [msgType]]> (if bool_decide (want = []) then ∅ else {[optRequestedIP := want]})).
Definition demoIface : ifaceInfo := mkIface [10; 0; 0; 1] [255; 255; 255; 240] [2; 0; 0; 0; 0; 1].
Definition demoEnv (t : Z) : env := mkEnv (Some demoIface) (Some demoIface) t t t [] [].

(** A DISCOVER of A, and then a REQUEST of B for the address that A was offered: both
    clients hold it. *)
Example request_takes_other :
  match handleMessage id id 4 (demoEnv 1) (demoMessage dhcpDiscover clientA []) configuredDemo with
  | Some (s, _) =>
      match handleMessage id id 4 (demoEnv 2) (demoMessage dhcpRequest clientB [10; 0; 0; 8]) s with
      | Some (s, acts) =>
          length acts = 2%nat /\
          option_map l_ip (leases s !! hwString clientA) = Some [10; 0; 0; 8] /\
          option_map l_ip (leases s !! hwString clientB) = Some [10; 0; 0; 8]
      | None => False
      end
  | None => False
  end.
Proof. vm_compute. done. Qed.

(** The pool of a /29 begins outside the subnet, and the pool of a /24 has the address of
    an interface in its upper part. *)
Example small_subnet_pool : autoPool [10; 0; 0; 1] [255; 255; 255; 248] 29 = ([9; 255; 255; 253], [10; 0; 0; 6]).
Proof. vm_compute. done. Qed.
Example own_address_in_pool : autoPool [192; 168; 1; 210] [255; 255; 255; 0] 24 = ([192; 168; 1; 205], [192; 168; 1; 254]).
Proof. vm_compute. done. Qed.

(** A binding to an address that is not IPv4 makes the server confirm 0.0.0.0. *)
Example binding_without_ipv4 :
  let s := UpdateStaticBindings id Some [mkBinding clientA (replicate 16 1)] configuredDemo in
  match handleMessage id id 4 (demoEnv 1) (demoMessage dhcpRequest clientA [10; 0; 0; 8]) s with
  | Some (s, _) => option_map l_ip (leases s !! hwString clientA) = Some []
  | None => False
  end /\
  yiaddr (replyMessage dhcpACK (demoMessage dhcpRequest clientA [10; 0; 0; 8]) [] demoIface s) = [0; 0; 0; 0].
Proof. vm_compute. done. Qed.

(** A server without a configured pool that starts with all of its ten leases running. *)
Definition fullLeases : list storedLease := map (fun i => mkStored [10; 0; 0; i] [i] [] (10 ^ 18)) (seqZ 5 10).
Definition generatedDemo : dhcpServer := start (mkConfig [] [] [] []) [10; 0; 0; 1] 28 fullLeases.

Lemma generated_pooled : pooled id generatedDemo (10 * 2 ^ 24 + 14) (10 * 2 ^ 24 + 5) (10 * 2 ^ 24 + 14).
Proof. constructor; try (vm_compute; done). Qed.

Lemma dhcp_allocation_witness : allocateIP id 1000 1 (hwString clientA) generatedDemo = None.
Proof.
  refine (proj2 (proj2 (dhcp_allocation id 1 (hwString clientA) generatedDemo _ _ _ generated_pooled _)) _ _ 1000%nat).
  - split; vm_compute; done.
  - vm_compute. done.
  - vm_compute. done.
Defined.

Lemma configuredDemo_ok : exclusive configuredDemo 0 /\ configured id configuredDemo (10 * 2 ^ 24 + 8) (10 * 2 ^ 24 + 11).
Proof.
  split.
  - constructor; intros *; try (change (leases configuredDemo) with (∅ : gmap (list Z) lease)); try (change (staticBindings configuredDemo) with (∅ : gmap (list Z) (list Z))); rewrite lookup_empty; done.
  - exists (10 * 2 ^ 24 + 8). split; [|lia]. constructor; try (vm_compute; done).
Qed.

Definition offeredA : dhcpServer :=
  (default (blank, []) (handleMessage id id 4 (demoEnv 1) (demoMessage dhcpDiscover clientA []) configuredDemo)).1.

Lemma dhcp_exclusive_witness :
  exclusive offeredA 1 /\
  exists s' acts, handleMessage id id 4 (demoEnv 2) (demoMessage dhcpRequest clientA [10; 0; 0; 8]) offeredA = Some (s', acts) /\
    exclusive s' 2 /\ confirms (demoEnv 2) (demoMessage dhcpRequest clientA [10; 0; 0; 8]) s' acts.
Proof.
  refine (dhcp_exclusive id id 4 configuredDemo 0 offeredA 1 (10 * 2 ^ 24 + 8) (10 * 2 ^ 24 + 11) (demoEnv 2) _
            (proj1 configuredDemo_ok) (proj2 configuredDemo_ok) _ _ _ _ _).
  - vm_compute. done.
  - refine (serves_one id id 4 configuredDemo 0 configuredDemo 0 (demoEnv 1) (demoMessage dhcpDiscover clientA []) _ _ (serves_none _ _ _ _ _) _ _ _ _).
    + vm_compute. done.
    + vm_compute. done.
    + intros H. vm_compute in H. done.
    + vm_compute. reflexivity.
  - vm_compute. done.
  - vm_compute. done.
  - intros _ _. eexists. split; [vm_compute; reflexivity|]. vm_compute. done.
Defined.

Lemma demoMessage_wf : wfMessage (demoMessage dhcpDiscover clientA []).
Proof.
  constructor; try (vm_compute; done). intros c d Hd.
  change (<[optMessageType := [dhcpDiscover]]> (∅ : gmap Z (list Z)) !! c = Some d) in Hd.
  apply lookup_insert_Some in Hd as [[<- <-]|[_ Hd]]; [vm_compute; done|].
  by apply lookup_empty_Some in Hd.
Qed.

Lemma dhcp_roundtrip_witness :
  parseDHCPMessage (serialize [53] (demoMessage dhcpDiscover clientA []) ++ []) = Ok (demoMessage dhcpDiscover clientA []) /\
  serialize [53] (demoMessage dhcpDiscover clientA []) = serialize [53] (demoMessage dhcpDiscover clientA []).
Proof. apply dhcp_roundtrip; [exact demoMessage_wf|vm_compute; done..]. Defined.

Definition runningDemo : dhcpServer := Start [2; 0; 0; 0; 0; 1] configuredDemo.
Definition demoCodes : list Z := (map_to_list (options (replyMessage dhcpOffer (demoMessage dhcpDiscover clientA []) [10; 0; 0; 8] demoIface runningDemo))).*1.

Lemma dhcp_reply_frame_witness :
  let f := replyFrame demoCodes dhcpOffer (demoMessage dhcpDiscover clientA []) [10; 0; 0; 8] demoIface runningDemo in
  sub f 6 12 = [2; 0; 0; 0; 0; 1] /\ verifies true (sub f 14 34) /\ udpVerifies [10; 0; 0; 1] bcastIP (segmentOf f) /\
  exists m, parseDHCPMessage (payloadOf f) = Ok m /\ yiaddr m = [10; 0; 0; 8].
Proof.
  assert (is_byte dhcpOffer) as Ht by (vm_compute; done).
  assert (is4 [10; 0; 0; 8]) as H4 by (exists (10 * 2 ^ 24 + 8); vm_compute; done).
  assert (hostOk demoIface runningDemo) as Hh.
  { constructor; [exists (10 * 2 ^ 24 + 1); vm_compute; done|exists (2 ^ 32 - 16); vm_compute; done|..].
    - split; [done|]. repeat constructor; done.
    - split; [|vm_compute; done]. vm_compute. repeat constructor; done. }
  destruct (dhcp_reply_frame demoCodes dhcpOffer (serialize [53] (demoMessage dhcpDiscover clientA [])) (demoMessage dhcpDiscover clientA [])
    [10; 0; 0; 8] demoIface runningDemo) as (_ & F1 & _ & F2 & _ & _ & _ & _ & F3 & m & F4 & _ & _ & _ & F5).
  - vm_compute. repeat constructor; done.
  - vm_compute. done.
  - exact Ht.
  - exact H4.
  - exact Hh.
  - apply Permutation_refl.
  - split; [exact F1|]. split; [exact F2|]. split; [exact F3|]. exists m. split; [exact F4|exact F5].
Defined.
