(* ===== verification/HTunnel.v ===== *)
(** HTunnel: the HTTP tunnel, src/server/htunnel.go and src/dialer/htunnel.go, with its
    encryption, src/util/htunnel_crypto.go.

    A tunnelled connection is a channel of the server.  Its bytes travel in the bodies of
    numbered requests: POST towards the target, GET from it; HEAD opens the channel, PUT
    keeps it alive, DELETE ends it.  Every request runs in a goroutine of its own.  A step
    is one section under the channel's mutex, one wait that ends, or one answer of the
    outside world: the dial, a read, a write, a timer.  Requests may be lost, delayed and
    repeated between client and server. *)

From Stdlib Require Import ZArith Lia String Ascii.
From stdpp Require Import base gmap list numbers sorting.
From S2P Require Import Prelude GoStrings AddrCodec Handshake.
Open Scope Z_scope.

(** ** Encryption *)

(** HTunnelCrypto over an authenticated cipher and base 64. *)
Record HTunnelCrypto := mkCrypto {
  enabled : bool; Seal : list Z -> list Z -> list Z; Open_ : list Z -> list Z -> option (list Z);
  EncodeToString : list Z -> list Z; DecodeString : list Z -> option (list Z) }.

Definition htNonceSize : Z := 24.
Definition htOverhead : Z := 16.

Definition SealHeader (c : HTunnelCrypto) (nonce plaintext : list Z) : list Z :=
  if enabled c then EncodeToString c (nonce ++ Seal c nonce plaintext) else plaintext.

Definition openSealed (c : HTunnelCrypto) (raw : list Z) : option (list Z) :=
  if len raw <? htNonceSize + htOverhead then None else Open_ c (sub raw 0 htNonceSize) (from raw htNonceSize).

Definition OpenHeader (c : HTunnelCrypto) (encoded : list Z) : option (list Z) :=
  if enabled c then match DecodeString c encoded with None => None | Some raw => openSealed c raw end else Some encoded.

Definition SealBody (c : HTunnelCrypto) (nonce plaintext : list Z) : list Z :=
  if negb (enabled c) || (len plaintext =? 0) then plaintext else nonce ++ Seal c nonce plaintext.

Definition OpenBody (c : HTunnelCrypto) (ciphertext : list Z) : option (list Z) :=
  if negb (enabled c) || (len ciphertext =? 0) then Some ciphertext else openSealed c ciphertext.

(** What the tunnel relies on: the cipher opens what it sealed and adds its tag. *)
Class CipherLaws (c : HTunnelCrypto) : Prop := {
  open_seal : forall n p, Open_ c n (Seal c n p) = Some p;
  seal_len : forall n p, len (Seal c n p) = len p + htOverhead;
  decode_encode : forall b, DecodeString c (EncodeToString c b) = Some b }.

Section Sealed.
Context (c : HTunnelCrypto) {Hc : CipherLaws c} (nonce : list Z) (Hn : len nonce = htNonceSize).

Lemma openSealed_seal p : openSealed c (nonce ++ Seal c nonce p) = Some p.
Proof.
  unfold openSealed. assert (Hl : (len (nonce ++ Seal c nonce p) <? htNonceSize + htOverhead) = false).
  { apply Z.ltb_ge. rewrite len_app, Hn, seal_len. pose proof (len_nonneg p). lia. }
  rewrite Hl, <- Hn, sub_app_l, from_app by done. apply open_seal.
Qed.

Lemma OpenBody_SealBody p : OpenBody c (SealBody c nonce p) = Some p.
Proof.
  unfold OpenBody, SealBody. destruct (enabled c); [|done]. cbn [negb orb]. destruct (Z.eqb_spec (len p) 0) as [E|Hne].
  - rewrite E. done.
  - destruct (Z.eqb_spec (len (nonce ++ Seal c nonce p)) 0) as [E|_]; [|by apply openSealed_seal].
    exfalso. rewrite len_app, Hn in E. pose proof (len_nonneg (Seal c nonce p)). unfold htNonceSize in E. lia.
Qed.

Lemma OpenHeader_SealHeader p : OpenHeader c (SealHeader c nonce p) = Some p.
Proof. unfold OpenHeader, SealHeader. destruct (enabled c); [|done]. rewrite decode_encode. apply openSealed_seal. Qed.
End Sealed.

(** ** The channel *)

Inductive Kind := KConn | KUdp | KBind.
Inductive Method := HEAD | PUT | GET | POST.
#[global] Instance Method_eq_dec : EqDecision Method.
Proof. solve_decision. Defined.

(** pendingOp: [gen] counts the broadcasts, so that a goroutine waits for one of them. *)
Record pendingOp := mkOp { active : bool; gen : nat }.

(** The timer of a channel: none, the one of its creation, the one of the last request. *)
Inductive Timer := TNone | TInitial | TRequest.

(** The run of closeOnce. *)
Inductive Once := Fresh | Running | Over.

(** What a read of the source gave. *)
Inductive ReadResult := RData (d : list Z) | REOF | RTimeout.

(** Where the bytes of a request go and come from. *)
Inductive End_ := ERev | EUdp | ETarget | ENone.

(** Where a goroutine is.  [PLoad] before the channel is looked up, [PReset] before the
    timer is set, [PLoop] before the lock at the head of the loop, [PWait] waiting for a
    broadcast of [gen] (with [keep], the caller does not unlock afterwards), [PReady]
    waiting for the first step of the connection, [PLead] leading its operation, ...,
    [PDone] answered with a status and a body. *)
Inductive Phase :=
| PLoad | PReset | PLoop | PWait (g : nat) (keep : bool) | PReady
| PLead | PDial | PDialed | PRev | PFinHead (connOk failed : bool)
| PFinBeat | PBeatEnd
| PRead (src : End_) | PFinGet (r : ReadResult)
| PSnap (data : list Z) | PSend (data : list Z) (dst : End_) | PDrop | PFinPost (writeOk : bool)
| PClose (status : Z) | PCloseLock (status : Z) | PCloseEnd (status : Z)
| PDone (status : Z) (body : list Z).

(** A goroutine: the request it serves, with its number and body ([None] when the body
    cannot be read), and its phase.  Closers that serve no request carry PUT 0. *)
Record Thread := mkThread { method : Method; seq : Z; rbody : option (list Z); phase : Phase }.

(** htChannel.  [targetOpen] is whether the connection to the target is open; [delivered]
    what the sink took and [fetched] what the source gave, with the numbers of the requests
    that moved it; [registered] whether the server's table has the channel. *)
Record htChannel := mkCh {
  kind : Kind; port : Z; connSeq : Z; readSeq : Z; writeSeq : Z;
  connPend : pendingOp; hbPend : pendingOp; readPend : pendingOp; writePend : pendingOp; connReady : bool;
  target : bool; rev : bool; lastReadData : option (list Z); lastWriteOk : bool;
  closed : bool; once : Once; timer : Timer; registered : bool; mutex : option nat;
  targetOpen : bool; delivered : list (Z * list Z); fetched : list (Z * list Z); threads : gmap nat Thread }.

Definition newChannel (k : Kind) (p : Z) : htChannel :=
  let op := mkOp false 0 in
  mkCh k p 0 0 0 op op op op false false false None false false Fresh TInitial true None false [] [] ∅.

Definition setConnSeq v0 ch := mkCh (kind ch) (port ch) v0 (readSeq ch) (writeSeq ch) (connPend ch) (hbPend ch) (readPend ch) (writePend ch) (connReady ch) (target ch) (rev ch) (lastReadData ch) (lastWriteOk ch) (closed ch) (once ch) (timer ch) (registered ch) (mutex ch) (targetOpen ch) (delivered ch) (fetched ch) (threads ch).
Definition setReadSeq v0 ch := mkCh (kind ch) (port ch) (connSeq ch) v0 (writeSeq ch) (connPend ch) (hbPend ch) (readPend ch) (writePend ch) (connReady ch) (target ch) (rev ch) (lastReadData ch) (lastWriteOk ch) (closed ch) (once ch) (timer ch) (registered ch) (mutex ch) (targetOpen ch) (delivered ch) (fetched ch) (threads ch).
Definition setWriteSeq v0 ch := mkCh (kind ch) (port ch) (connSeq ch) (readSeq ch) v0 (connPend ch) (hbPend ch) (readPend ch) (writePend ch) (connReady ch) (target ch) (rev ch) (lastReadData ch) (lastWriteOk ch) (closed ch) (once ch) (timer ch) (registered ch) (mutex ch) (targetOpen ch) (delivered ch) (fetched ch) (threads ch).
Definition setReady v0 ch := mkCh (kind ch) (port ch) (connSeq ch) (readSeq ch) (writeSeq ch) (connPend ch) (hbPend ch) (readPend ch) (writePend ch) v0 (target ch) (rev ch) (lastReadData ch) (lastWriteOk ch) (closed ch) (once ch) (timer ch) (registered ch) (mutex ch) (targetOpen ch) (delivered ch) (fetched ch) (threads ch).
Definition setTarget v0 ch := mkCh (kind ch) (port ch) (connSeq ch) (readSeq ch) (writeSeq ch) (connPend ch) (hbPend ch) (readPend ch) (writePend ch) (connReady ch) v0 (rev ch) (lastReadData ch) (lastWriteOk ch) (closed ch) (once ch) (timer ch) (registered ch) (mutex ch) (targetOpen ch) (delivered ch) (fetched ch) (threads ch).
Definition setRev v0 ch := mkCh (kind ch) (port ch) (connSeq ch) (readSeq ch) (writeSeq ch) (connPend ch) (hbPend ch) (readPend ch) (writePend ch) (connReady ch) (target ch) v0 (lastReadData ch) (lastWriteOk ch) (closed ch) (once ch) (timer ch) (registered ch) (mutex ch) (targetOpen ch) (delivered ch) (fetched ch) (threads ch).
Definition setLastRead v0 ch := mkCh (kind ch) (port ch) (connSeq ch) (readSeq ch) (writeSeq ch) (connPend ch) (hbPend ch) (readPend ch) (writePend ch) (connReady ch) (target ch) (rev ch) v0 (lastWriteOk ch) (closed ch) (once ch) (timer ch) (registered ch) (mutex ch) (targetOpen ch) (delivered ch) (fetched ch) (threads ch).
Definition setLastWrite v0 ch := mkCh (kind ch) (port ch) (connSeq ch) (readSeq ch) (writeSeq ch) (connPend ch) (hbPend ch) (readPend ch) (writePend ch) (connReady ch) (target ch) (rev ch) (lastReadData ch) v0 (closed ch) (once ch) (timer ch) (registered ch) (mutex ch) (targetOpen ch) (delivered ch) (fetched ch) (threads ch).
Definition setClosed v0 ch := mkCh (kind ch) (port ch) (connSeq ch) (readSeq ch) (writeSeq ch) (connPend ch) (hbPend ch) (readPend ch) (writePend ch) (connReady ch) (target ch) (rev ch) (lastReadData ch) (lastWriteOk ch) v0 (once ch) (timer ch) (registered ch) (mutex ch) (targetOpen ch) (delivered ch) (fetched ch) (threads ch).
Definition setOnce v0 ch := mkCh (kind ch) (port ch) (connSeq ch) (readSeq ch) (writeSeq ch) (connPend ch) (hbPend ch) (readPend ch) (writePend ch) (connReady ch) (target ch) (rev ch) (lastReadData ch) (lastWriteOk ch) (closed ch) v0 (timer ch) (registered ch) (mutex ch) (targetOpen ch) (delivered ch) (fetched ch) (threads ch).
Definition setTimer v0 ch := mkCh (kind ch) (port ch) (connSeq ch) (readSeq ch) (writeSeq ch) (connPend ch) (hbPend ch) (readPend ch) (writePend ch) (connReady ch) (target ch) (rev ch) (lastReadData ch) (lastWriteOk ch) (closed ch) (once ch) v0 (registered ch) (mutex ch) (targetOpen ch) (delivered ch) (fetched ch) (threads ch).
Definition setRegistered v0 ch := mkCh (kind ch) (port ch) (connSeq ch) (readSeq ch) (writeSeq ch) (connPend ch) (hbPend ch) (readPend ch) (writePend ch) (connReady ch) (target ch) (rev ch) (lastReadData ch) (lastWriteOk ch) (closed ch) (once ch) (timer ch) v0 (mutex ch) (targetOpen ch) (delivered ch) (fetched ch) (threads ch).
Definition setMutex v0 ch := mkCh (kind ch) (port ch) (connSeq ch) (readSeq ch) (writeSeq ch) (connPend ch) (hbPend ch) (readPend ch) (writePend ch) (connReady ch) (target ch) (rev ch) (lastReadData ch) (lastWriteOk ch) (closed ch) (once ch) (timer ch) (registered ch) v0 (targetOpen ch) (delivered ch) (fetched ch) (threads ch).
Definition setTargetOpen v0 ch := mkCh (kind ch) (port ch) (connSeq ch) (readSeq ch) (writeSeq ch) (connPend ch) (hbPend ch) (readPend ch) (writePend ch) (connReady ch) (target ch) (rev ch) (lastReadData ch) (lastWriteOk ch) (closed ch) (once ch) (timer ch) (registered ch) (mutex ch) v0 (delivered ch) (fetched ch) (threads ch).
Definition setDelivered v0 ch := mkCh (kind ch) (port ch) (connSeq ch) (readSeq ch) (writeSeq ch) (connPend ch) (hbPend ch) (readPend ch) (writePend ch) (connReady ch) (target ch) (rev ch) (lastReadData ch) (lastWriteOk ch) (closed ch) (once ch) (timer ch) (registered ch) (mutex ch) (targetOpen ch) v0 (fetched ch) (threads ch).
Definition setFetched v0 ch := mkCh (kind ch) (port ch) (connSeq ch) (readSeq ch) (writeSeq ch) (connPend ch) (hbPend ch) (readPend ch) (writePend ch) (connReady ch) (target ch) (rev ch) (lastReadData ch) (lastWriteOk ch) (closed ch) (once ch) (timer ch) (registered ch) (mutex ch) (targetOpen ch) (delivered ch) v0 (threads ch).
Definition setThreads v0 ch := mkCh (kind ch) (port ch) (connSeq ch) (readSeq ch) (writeSeq ch) (connPend ch) (hbPend ch) (readPend ch) (writePend ch) (connReady ch) (target ch) (rev ch) (lastReadData ch) (lastWriteOk ch) (closed ch) (once ch) (timer ch) (registered ch) (mutex ch) (targetOpen ch) (delivered ch) (fetched ch) v0.
Definition pendOf (m : Method) (ch : htChannel) : pendingOp :=
  match m with HEAD => connPend ch | PUT => hbPend ch | GET => readPend ch | POST => writePend ch end.
Definition setPend (m : Method) (p : pendingOp) (ch : htChannel) : htChannel :=
  match m with
  | HEAD => mkCh (kind ch) (port ch) (connSeq ch) (readSeq ch) (writeSeq ch) p (hbPend ch) (readPend ch) (writePend ch) (connReady ch) (target ch) (rev ch) (lastReadData ch) (lastWriteOk ch) (closed ch) (once ch) (timer ch) (registered ch) (mutex ch) (targetOpen ch) (delivered ch) (fetched ch) (threads ch)
  | PUT => mkCh (kind ch) (port ch) (connSeq ch) (readSeq ch) (writeSeq ch) (connPend ch) p (readPend ch) (writePend ch) (connReady ch) (target ch) (rev ch) (lastReadData ch) (lastWriteOk ch) (closed ch) (once ch) (timer ch) (registered ch) (mutex ch) (targetOpen ch) (delivered ch) (fetched ch) (threads ch)
  | GET => mkCh (kind ch) (port ch) (connSeq ch) (readSeq ch) (writeSeq ch) (connPend ch) (hbPend ch) p (writePend ch) (connReady ch) (target ch) (rev ch) (lastReadData ch) (lastWriteOk ch) (closed ch) (once ch) (timer ch) (registered ch) (mutex ch) (targetOpen ch) (delivered ch) (fetched ch) (threads ch)
  | POST => mkCh (kind ch) (port ch) (connSeq ch) (readSeq ch) (writeSeq ch) (connPend ch) (hbPend ch) (readPend ch) p (connReady ch) (target ch) (rev ch) (lastReadData ch) (lastWriteOk ch) (closed ch) (once ch) (timer ch) (registered ch) (mutex ch) (targetOpen ch) (delivered ch) (fetched ch) (threads ch)
  end.
Definition seqOf (m : Method) (ch : htChannel) : Z := match m with HEAD | PUT => connSeq ch | GET => readSeq ch | POST => writeSeq ch end.
(** leaderOrWait as it takes the lead. *)
Definition lead (m : Method) (ch : htChannel) : htChannel := setPend m (mkOp true (gen (pendOf m ch))) ch.
Definition broadcast (m : Method) (ch : htChannel) : htChannel := setPend m (mkOp false (S (gen (pendOf m ch)))) ch.

(** What the outside world answers in a step. *)
Inductive Choice := CGo | CFail | CClosed | CTimeout | CShort (n : nat) | CRead (r : ReadResult) | CNonce (n : list Z).

Section Channel.
Variable crypto : HTunnelCrypto.
Variable ResolveUDPAddr : list Z -> Z -> option NetAddr.

(** A UDP body that names a target and carries data. *)
Definition udpPayload (data : list Z) : bool :=
  match ParseUDPAddrHeader ResolveUDPAddr data with Some (_, payload) => negb (len payload =? 0) | None => false end.

(** A retry of the last request, when no operation is under way. *)
Definition retry (m : Method) (ch : htChannel) : Phase :=
  match m with
  | HEAD => if closed ch then PDone 410 []
            else PDone (if target ch || rev ch || match kind ch with KUdp => true | _ => false end then 200 else 410) []
  | PUT => PDone (if closed ch then 410 else 200) []
  | GET => match lastReadData ch with Some data => PDone 200 data | None => PDone 408 [] end
  | POST => PDone (if lastWriteOk ch then 200 else 408) []
  end.

(** A turn of the loops of the four handlers, with the lock free. *)
Definition loopTurn (m : Method) (s : Z) (ch : htChannel) : Phase * htChannel :=
  let step := s - seqOf m ch in
  let p := pendOf m ch in
  if step =? 0 then (if active p then PWait (gen p) false else retry m ch, ch)
  else if negb (step =? 1) then
    (match m with HEAD => if active p then PWait (gen p) false else PReady | _ => PDone 410 [] end, ch)
  else if active p then (PWait (gen p) true, ch) else (PLead, lead m ch).

(** The leader of a HEAD request looks at the channel. *)
Definition headTurn (known : bool) (s : Z) (ch : htChannel) : Phase :=
  let udp := match kind ch with KUdp => true | _ => false end in
  if s =? 1 then
    match kind ch with
    | KBind => if (BindPortP2P <? port ch) || ((port ch =? BindPortData) && negb known) then PDone 200 [] else PRev
    | KUdp => PFinHead true false
    | KConn => if target ch then PFinHead true false else PDial
    end
  else if s =? 2 then PFinHead (target ch || rev ch || udp) false
  else PFinHead false false.

Definition sourceOf (ch : htChannel) : End_ :=
  match kind ch with KUdp => EUdp | _ => if rev ch then ERev else if target ch then ETarget else ENone end.
Definition sinkOf (ch : htChannel) : End_ :=
  if rev ch then ERev else match kind ch with KUdp => EUdp | _ => if target ch then ETarget else ENone end.

(** The write of a POST leader: how it ends and what the sink took. *)
Definition sendTurn (data : list Z) (dst : End_) (c : Choice) : option (Phase * list Z) :=
  match dst with
  | ERev => Some (PFinPost true, data)
  | EUdp =>
      if len data =? 0 then Some (PFinPost true, [])
      else match c with CGo => if udpPayload data then Some (PFinPost true, data) else None | _ => Some (PFinPost false, []) end
  | ETarget =>
      if len data =? 0 then Some (PFinPost true, [])
      else match c with CGo => Some (PFinPost true, data) | CShort n => if (n <? length data)%nat then Some (PDrop, take n data) else None | _ => None end
  | ENone => Some (PFinPost false, [])
  end.

Definition logBytes (s : Z) (d : list Z) (log : list (Z * list Z)) : list (Z * list Z) := if len d =? 0 then log else log ++ [(s, d)].

(** A section under the channel's lock. *)
Definition locked {A} (ch : htChannel) (k : option A) : option A := match mutex ch with None => k | Some _ => None end.

(** handleConnectionPush after its loop. *)
Definition runHead (th : Thread) (c : Choice) (ch : htChannel) (ph : Phase) : option (Phase * htChannel) :=
  match ph with
  | PReady =>
      match c with
      | CGo => if connReady ch then Some (PLoop, ch) else None
      | CClosed => if closed ch then Some (PDone 410 [], ch) else None
      | CTimeout => Some (PDone 410 [], ch)
      | _ => None
      end
  | PLead => locked ch (Some (headTurn (match c with CFail => false | _ => true end) (seq th) ch, ch))
  | PDial => match c with CGo => Some (PDialed, setTargetOpen true ch) | CFail => Some (PFinHead false true, ch) | _ => None end
  | PDialed => locked ch (Some (PFinHead true false, setTarget true ch))
  | PRev => locked ch (Some (PFinHead true false, setRev true ch))
  | PFinHead connOk failed =>
      locked ch (let ch := if connOk || failed then setConnSeq (connSeq ch + 1) ch else ch in
                 let ch := broadcast HEAD ch in
                 let ch := if seq th =? 1 then setReady true ch else ch in
                 Some (if connOk then PDone 200 [] else if failed then PClose 410 else PDone 410 [], ch))
  | _ => None
  end.

(** handleHeartbeat after its loop. *)
Definition runBeat (c : Choice) (ch : htChannel) (ph : Phase) : option (Phase * htChannel) :=
  match ph with
  | PLead => match c with CTimeout => Some (PFinBeat, ch) | CClosed => if closed ch then Some (PFinBeat, ch) else None | _ => None end
  | PFinBeat => locked ch (Some (PBeatEnd, broadcast PUT (setConnSeq (connSeq ch + 1) ch)))
  | PBeatEnd => Some (PDone (if closed ch then 410 else 200) [], ch)
  | _ => None
  end.

(** handleRead after its loop. *)
Definition runGet (th : Thread) (c : Choice) (ch : htChannel) (ph : Phase) : option (Phase * htChannel) :=
  match ph with
  | PLead => locked ch (Some (PRead (sourceOf ch), ch))
  | PRead src =>
      match c with
      | CRead r =>
          match src, r with
          | ENone, RTimeout => Some (PFinGet RTimeout, ch)
          | ENone, _ => None
          | _, RData d => Some (PFinGet r, setFetched (fetched ch ++ [(seq th, d)]) ch)
          | _, _ => Some (PFinGet r, ch)
          end
      | _ => None
      end
  | PFinGet r =>
      match c with
      | CNonce n =>
          if negb (len n =? htNonceSize) then None
          else locked ch (let ch := setReadSeq (readSeq ch + 1) ch in
                          let data := match r with RData d => Some (SealBody crypto n d) | _ => None end in
                          Some (match r, data with RData _, Some b => PDone 200 b | RTimeout, _ => PDone 408 [] | _, _ => PDone 410 [] end,
                                broadcast GET (setLastRead data ch)))
      | _ => None
      end
  | _ => None
  end.

(** handleWrite after its loop. *)
Definition runPost (th : Thread) (c : Choice) (ch : htChannel) (ph : Phase) : option (Phase * htChannel) :=
  match ph with
  | PLead =>
      Some (match rbody th with
            | None => PFinPost false
            | Some data => match OpenBody crypto data with None => PFinPost false | Some d => PSnap d end
            end, ch)
  | PSnap d => locked ch (Some (PSend d (sinkOf ch), ch))
  | PSend d dst =>
      match sendTurn d dst c with
      | None => None
      | Some (ph, took) =>
          let ch := setDelivered (logBytes (seq th) took (delivered ch)) ch in
          Some (ph, match ph with PDrop => setTargetOpen false ch | _ => ch end)
      end
  | PDrop => locked ch (Some (PFinPost false, setTarget false ch))
  | PFinPost ok => locked ch (Some (PDone (if ok then 200 else 410) [], broadcast POST (setLastWrite ok (setWriteSeq (writeSeq ch + 1) ch))))
  | _ => None
  end.

(** closeChannel. *)
Definition runClose (ch : htChannel) (ph : Phase) : option (Phase * htChannel) :=
  match ph with
  | PClose st =>
      if negb (registered ch) then Some (PDone st [], ch)
      else match once ch with
           | Fresh => Some (PCloseLock st, setOnce Running (setClosed true ch))
           | Running => None
           | Over => Some (PCloseEnd st, ch)
           end
  | PCloseLock st =>
      locked ch (Some (PCloseEnd st, setTimer TNone (setOnce Over (setRev false (setTarget false (if target ch then setTargetOpen false ch else ch))))))
  | PCloseEnd st => Some (PDone st [], setRegistered false ch)
  | _ => None
  end.

(** One step of goroutine [t]: its next phase and the channel. *)
Definition run (t : nat) (th : Thread) (c : Choice) (ch : htChannel) : option (Phase * htChannel) :=
  match phase th with
  | PLoad => Some (if registered ch then PReset else PDone 410 [], ch)
  | PReset => locked ch (Some (PLoop, setTimer TRequest ch))
  | PLoop => locked ch (Some (loopTurn (method th) (seq th) ch))
  | PWait g keep =>
      if (g <? gen (pendOf (method th) ch))%nat then locked ch (Some (PLoop, if keep then setMutex (Some t) ch else ch)) else None
  | PLead => match method th with HEAD => runHead th c ch PLead | PUT => runBeat c ch PLead | GET => runGet th c ch PLead | POST => runPost th c ch PLead end
  | (PReady | PDial | PDialed | PRev | PFinHead _ _) as ph => runHead th c ch ph
  | (PFinBeat | PBeatEnd) as ph => runBeat c ch ph
  | (PRead _ | PFinGet _) as ph => runGet th c ch ph
  | (PSnap _ | PSend _ _ | PDrop | PFinPost _) as ph => runPost th c ch ph
  | (PClose _ | PCloseLock _ | PCloseEnd _) as ph => runClose ch ph
  | PDone _ _ => None
  end.

(** What happens to a channel: a request arrives, a DELETE arrives or a timer fires, a
    goroutine takes a step. *)
Inductive Event := Arrive (t : nat) (m : Method) (s : Z) (body : option (list Z)) | Delete (t : nat) | Fire (t : nat) | Step (t : nat) (c : Choice).

Definition spawn (t : nat) (th : Thread) (ch : htChannel) : option htChannel :=
  match threads ch !! t with None => Some (setThreads (<[t := th]> (threads ch)) ch) | Some _ => None end.

Definition exec (e : Event) (ch : htChannel) : option htChannel :=
  match e with
  | Arrive t m s body => spawn t (mkThread m s body PLoad) ch
  | Delete t => spawn t (mkThread PUT 0 None (PClose 410)) ch
  | Fire t =>
      match timer ch with
      | TNone => None
      | TRequest => spawn t (mkThread PUT 0 None (PClose 410)) (setTimer TNone ch)
      | TInitial =>
          match mutex ch with
          | Some _ => None
          | None => if target ch || rev ch then Some (setTimer TNone ch) else spawn t (mkThread PUT 0 None (PClose 410)) (setTimer TNone ch)
          end
      end
  | Step t c =>
      match threads ch !! t with
      | None => None
      | Some th =>
          match run t th c ch with
          | None => None
          | Some (ph, ch') => Some (setThreads (<[t := mkThread (method th) (seq th) (rbody th) ph]> (threads ch')) ch')
          end
      end
  end.
End Channel.

(** ** The client *)

(** htunnelConn: [writes] are the buffers given to Write, the k-th under number k, with the
    bodies sealed for them; [acked] the numbers of the writes that succeeded; [app] what
    Read has given to the application, [received] the bodies it came in. *)
Record htunnelConn := mkConn {
  writes : list (list Z); bodies : list (list Z); writing : bool; acked : list Z;
  cReadSeq : Z; reading : bool; readBuf : list Z; app_ : list Z; received : list (Z * list Z); readFailed : bool; cClosed : bool }.

Definition newConn : htunnelConn := mkConn [] [] false [] 0 false [] [] [] false false.

(** Write up to its request, and its answer ([None]: no answer). *)
Definition writeStart (crypto : HTunnelCrypto) (nonce b : list Z) (c : htunnelConn) : option htunnelConn :=
  if writing c || cClosed c || negb (len nonce =? htNonceSize) then None
  else Some (mkConn (writes c ++ [b]) (bodies c ++ [SealBody crypto nonce b]) true (acked c)
              (cReadSeq c) (reading c) (readBuf c) (app_ c) (received c) (readFailed c) (cClosed c)).
Definition writeEnd (status : option Z) (c : htunnelConn) : htunnelConn :=
  mkConn (writes c) (bodies c) false (match status with Some st => if st =? 200 then acked c ++ [len (writes c)] else acked c | None => acked c end)
    (cReadSeq c) (reading c) (readBuf c) (app_ c) (received c) (readFailed c) (cClosed c).

(** Read: from the buffer, or up to its next request. *)
Definition setRead (seq : Z) (on : bool) (buf out : list Z) (r : list (Z * list Z)) (fail : bool) (c : htunnelConn) : htunnelConn :=
  mkConn (writes c) (bodies c) (writing c) (acked c) seq on buf out r fail (cClosed c).
Definition copyOut (n : nat) (buf : list Z) (c : htunnelConn) : htunnelConn :=
  setRead (cReadSeq c) false (drop n buf) (app_ c ++ take n buf) (received c) (readFailed c) c.
Definition readStart (c : htunnelConn) : option htunnelConn :=
  if reading c || cClosed c || negb (len (readBuf c) =? 0) then None
  else Some (setRead (cReadSeq c + 1) true [] (app_ c) (received c) (readFailed c) c).
Definition readFails (c : htunnelConn) : htunnelConn := setRead (cReadSeq c) false (readBuf c) (app_ c) (received c) true c.
(** The loop's next turn; a client closed meanwhile reads the end. *)
Definition readAgain (c : htunnelConn) : htunnelConn :=
  if cClosed c then setRead (cReadSeq c) false (readBuf c) (app_ c) (received c) (readFailed c) c
  else setRead (cReadSeq c + 1) true (readBuf c) (app_ c) (received c) (readFailed c) c.
Definition readEnd (crypto : HTunnelCrypto) (n : nat) (status : Z) (body : list Z) (c : htunnelConn) : htunnelConn :=
  if status =? 410 then readFails c
  else if status =? 408 then readAgain c
  else if negb (status =? 200) then readFails c
  else if len body =? 0 then readAgain c
  else match OpenBody crypto body with
       | None => readFails c
       | Some d => copyOut n d (setRead (cReadSeq c) true [] (app_ c) (received c ++ [(cReadSeq c, d)]) (readFailed c) c)
       end.
Definition closeConn (c : htunnelConn) : htunnelConn :=
  mkConn (writes c) (bodies c) (writing c) (acked c) (cReadSeq c) (reading c) (readBuf c) (app_ c) (received c) (readFailed c) true.

(** ** Client and channel *)

(** Requests reach the server any number of times, in any order, once they were sent. *)
Inductive SysEvent :=
| SWrite (nonce b : list Z) | SWriteEnd (t : nat) | SWriteLost
| SBuffered (n : nat) | SReadStart | SReadEnd (t n : nat) | SReadLost
| SClose | SServer (e : Event).

Section System.
Variable crypto : HTunnelCrypto.
Variable ResolveUDPAddr : list Z -> Z -> option NetAddr.

Definition wasSent (c : htunnelConn) (m : Method) (s : Z) (body : option (list Z)) : bool :=
  match m with
  | POST => (1 <=? s) && match bodies c !! Z.to_nat (s - 1) with None => false | Some b => match body with None => true | Some b' => bool_decide (b = b') end end
  | GET => (1 <=? s) && (s <=? cReadSeq c)
  | _ => true
  end.

(** The answer of goroutine [t] to a request. *)
Definition answerOf (t : nat) (m : Method) (s : Z) (ch : htChannel) : option (Z * list Z) :=
  match threads ch !! t with
  | Some th => match method th, m, phase th with
               | GET, GET, PDone st b | POST, POST, PDone st b => if seq th =? s then Some (st, b) else None
               | _, _, _ => None
               end
  | None => None
  end.

Definition sysExec (e : SysEvent) (c : htunnelConn) (ch : htChannel) : option (htunnelConn * htChannel) :=
  match e with
  | SWrite nonce b => option_map (fun c => (c, ch)) (writeStart crypto nonce b c)
  | SWriteEnd t => if writing c then option_map (fun a => (writeEnd (Some (fst a)) c, ch)) (answerOf t POST (len (writes c)) ch) else None
  | SWriteLost => if writing c then Some (writeEnd None c, ch) else None
  | SBuffered n => if reading c || (len (readBuf c) =? 0) then None else Some (copyOut n (readBuf c) c, ch)
  | SReadStart => option_map (fun c => (c, ch)) (readStart c)
  | SReadEnd t n => if reading c then option_map (fun a => (readEnd crypto n (fst a) (snd a) c, ch)) (answerOf t GET (cReadSeq c) ch) else None
  | SReadLost => if reading c then Some (readFails c, ch) else None
  | SClose => Some (closeConn c, ch)
  | SServer e =>
      match e with
      | Arrive t m s body => if wasSent c m s body then option_map (fun ch => (c, ch)) (exec crypto ResolveUDPAddr e ch) else None
      | _ => option_map (fun ch => (c, ch)) (exec crypto ResolveUDPAddr e ch)
      end
  end.

Inductive sysReach (k : Kind) (p : Z) : htunnelConn -> htChannel -> Prop :=
| sysNew : sysReach k p newConn (newChannel k p)
| sysStep e c ch c' ch' : sysReach k p c ch -> sysExec e c ch = Some (c', ch') -> sysReach k p c' ch'.
End System.

(** ** Goroutines and their methods *)

(** The phases that only the goroutines of one method reach. *)
Definition owner (ph : Phase) : option Method :=
  match ph with
  | PReady | PDial | PDialed | PRev | PFinHead _ _ => Some HEAD
  | PFinBeat | PBeatEnd => Some PUT
  | PRead _ | PFinGet _ => Some GET
  | PSnap _ | PSend _ _ | PDrop | PFinPost _ => Some POST
  | _ => None
  end.
Definition phaseOk (th : Thread) : Prop :=
  match phase th with
  | PClose _ | PCloseLock _ | PCloseEnd _ => method th = HEAD \/ method th = PUT
  | ph => match owner ph with Some m => method th = m | None => True end
  end.

(** The goroutine leads the operation of its method. *)
Definition leads (th : Thread) : bool :=
  match phase th with PLead => true | PReady | PBeatEnd => false | ph => match owner ph with Some _ => true | None => false end end.

(** The definition of a step of a goroutine, and its cases. *)
Ltac open_run H := unfold HTunnel.run, runHead, runBeat, runGet, runPost, runClose, locked in H; cbv beta zeta iota in H.

Section Steps.
Variable crypto : HTunnelCrypto.
Variable ResolveUDPAddr : list Z -> Z -> option NetAddr.
Let run := run crypto ResolveUDPAddr.

(** What POST and what GET change of the channel. *)
Definition writeView (ch : htChannel) := (writeSeq ch, writePend ch, lastWriteOk ch, delivered ch).
Definition readView (ch : htChannel) := (readSeq ch, readPend ch, lastReadData ch, fetched ch).

Ltac run_cases H :=
  unfold run in H; open_run H;
  repeat (match type of H with context [match ?x with _ => _ end] => destruct x eqn:? end; try discriminate H);
  try discriminate H; try (injection H as <- <-).

(** A lost turn of the loop is the lead, a wait or an answer. *)
Lemma loopTurn_cases m s ch ph ch' : loopTurn m s ch = (ph, ch') ->
  (ph = PLead /\ ch' = lead m ch /\ s = seqOf m ch + 1 /\ active (pendOf m ch) = false) \/
  (ch' = ch /\ ((exists g b, ph = PWait g b) \/ (ph = PReady /\ m = HEAD) \/ ph = PDone 410 [] \/ (ph = retry m ch /\ s = seqOf m ch))).
Proof.
  unfold loopTurn. cbv zeta. destruct (Z.eqb_spec (s - seqOf m ch) 0) as [E0|].
  - destruct (active (pendOf m ch)); intros [= <- <-]; right; (split; [done|]); [left; eauto|]. right; right; right. split; [done|lia].
  - destruct (Z.eqb_spec (s - seqOf m ch) 1) as [E1|]; cbn [negb].
    + destruct (active (pendOf m ch)) eqn:Ea; intros [= <- <-]; [right; split; [done|left; eauto]|]. left. split_and!; try done. lia.
    + intros [= <- <-]. right. split; [done|]. destruct m; try (right; right; by left). destruct (active _); [left; eauto|right; by left].
Qed.

Lemma retry_done m ch : exists st b, retry m ch = PDone st b.
Proof. unfold retry. destruct m; repeat case_match; eauto 10. Qed.

Lemma headTurn_cases k s ch : headTurn k s ch = PDone 200 [] \/ headTurn k s ch = PRev \/ headTurn k s ch = PDial \/ exists a b, headTurn k s ch = PFinHead a b.
Proof. unfold headTurn. cbv zeta. repeat case_match; eauto 10. Qed.

Lemma sendTurn_cases d dst c ph took : sendTurn ResolveUDPAddr d dst c = Some (ph, took) -> ph = PDrop \/ exists ok, ph = PFinPost ok.
Proof. unfold sendTurn. repeat case_match; intros [= <- <-]; eauto. Qed.

Lemma sendTurn_took d dst c ph took : sendTurn ResolveUDPAddr d dst c = Some (ph, took) -> took `prefix_of` d /\ (ph = PFinPost true -> took = d).
Proof.
  unfold sendTurn. repeat case_match; intros [= <- <-]; split; try done; try (by exists d); try (eexists; symmetry; apply take_drop).
  all: intros _; symmetry; apply len_zero; by apply Z.eqb_eq.
Qed.

(** The goroutines of a method stay in its phases. *)
Lemma run_phaseOk t th c ch ph ch' : phaseOk th -> run t th c ch = Some (ph, ch') -> phaseOk (mkThread (method th) (seq th) (rbody th) ph).
Proof.
  unfold phaseOk. cbn [phase method]. intros Hok H. run_cases H; cbn in Hok.
  all: try done.
  all: try (match goal with |- context [headTurn ?k ?s ?ch] => destruct (headTurn_cases k s ch) as [-> | [-> | [-> | (? & ? & ->)] ] ]; done end).
  all: try (match goal with E : sendTurn _ _ _ _ = Some _ |- _ => apply sendTurn_cases in E as [?|[? ?] ]; simplify_eq; done end).
  all: try (by left).
  injection H as H. destruct (loopTurn_cases _ _ _ _ _ H) as [ (-> & _) | [_ [ (g & b & ->) | [ [-> Hm] | [-> | [-> _] ] ] ] ] ]; try done. by destruct (retry_done (method th) ch) as (st & b & ->).
Qed.

(** Only the goroutines of a method change what it owns. *)
Lemma run_writeView t th c ch ph ch' : phaseOk th -> run t th c ch = Some (ph, ch') -> leads th = false \/ method th <> POST ->
  (writeView ch' = writeView ch /\ ~ (method th = POST /\ ph = PLead)) \/ (method th = POST /\ phase th = PLoop /\ ph = PLead /\ ch' = lead POST ch).
Proof.
  unfold phaseOk, leads. intros Hok H Hl. run_cases H; cbn in Hok, Hl.
  all: try (left; split; [done|]; intros [? ?]; done).
  all: try (left; split; [done|]; intros [? ?]; congruence).
  all: try (destruct Hl; congruence).
  - injection H as H. destruct (loopTurn_cases _ _ _ _ _ H) as [ (-> & -> & _) | [-> Hph] ].
    + destruct (method th); try (left; split; [done|]; by intros [? ?]). by right.
    + left. split; [done|]. intros [Hm ->]. destruct Hph as [ (? & ? & ?) | [ [? _] | [?|[E _] ] ] ]; try done. destruct (retry_done (method th) ch) as (? & ? & E'). congruence.
Qed.
Lemma run_readView t th c ch ph ch' : phaseOk th -> run t th c ch = Some (ph, ch') -> leads th = false \/ method th <> GET ->
  (readView ch' = readView ch /\ ~ (method th = GET /\ ph = PLead)) \/ (method th = GET /\ phase th = PLoop /\ ph = PLead /\ ch' = lead GET ch).
Proof.
  unfold phaseOk, leads. intros Hok H Hl. run_cases H; cbn in Hok, Hl.
  all: try (left; split; [done|]; intros [? ?]; done).
  all: try (left; split; [done|]; intros [? ?]; congruence).
  all: try (destruct Hl; congruence).
  - injection H as H. destruct (loopTurn_cases _ _ _ _ _ H) as [ (-> & -> & _) | [-> Hph] ].
    + destruct (method th); try (left; split; [done|]; by intros [? ?]). by right.
    + left. split; [done|]. intros [Hm ->]. destruct Hph as [ (? & ? & ?) | [ [? _] | [?|[E _] ] ] ]; try done. destruct (retry_done (method th) ch) as (? & ? & E'). congruence.
Qed.
Lemma run_threads t th c ch ph ch' : run t th c ch = Some (ph, ch') -> threads ch' = threads ch.
Proof.
  intros H. run_cases H; try done.
  injection H as H. destruct (loopTurn_cases _ _ _ _ _ H) as [ (-> & -> & _) | [-> _] ]; [|done]. by destruct (method th).
Qed.
End Steps.

(** ** Bytes towards the target *)

Section Writes.
Variable crypto : HTunnelCrypto.
Context {Hcr : CipherLaws crypto}.
Variable ResolveUDPAddr : list Z -> Z -> option NetAddr.

(** The buffer written under a number. *)
Definition bodyAt (c : htunnelConn) (s : Z) : option (list Z) := writes c !! Z.to_nat (s - 1).

(** The buffer of number [s] has reached the sink whole. *)
Definition arrived (c : htunnelConn) (log : list (Z * list Z)) (s : Z) : Prop := exists b, bodyAt c s = Some b /\ (b = [] \/ (s, b) ∈ log).

Definition sentOk (c : htunnelConn) (th : Thread) : Prop :=
  1 <= seq th /\ exists b, bodyAt c (seq th) = Some b /\ forall x, rbody th = Some x -> OpenBody crypto x = Some b.

(** The leader has written. *)
Definition wrote (th : Thread) : bool := match phase th with PDrop | PFinPost _ => true | _ => false end.

(** What the goroutine has in hand agrees with what the client wrote. *)
Definition holdsOk (c : htunnelConn) (log : list (Z * list Z)) (th : Thread) : Prop :=
  match phase th with
  | PSnap d | PSend d _ => bodyAt c (seq th) = Some d
  | PFinPost true | PDone 200 _ => arrived c log (seq th)
  | _ => True
  end.

Record wInv (c : htunnelConn) (ch : htChannel) : Prop := {
  w_ok : forall t th, threads ch !! t = Some th -> phaseOk th;
  w_sent : forall t th, threads ch !! t = Some th -> method th = POST -> sentOk c th /\ holdsOk c (delivered ch) th;
  w_lead : forall t th, threads ch !! t = Some th -> method th = POST -> leads th = true -> seq th = writeSeq ch + 1 /\ active (writePend ch) = true;
  w_one : forall t th t' th', threads ch !! t = Some th -> method th = POST -> leads th = true ->
    threads ch !! t' = Some th' -> method th' = POST -> leads th' = true -> t = t';
  w_sorted : StronglySorted Z.lt (map fst (delivered ch));
  w_below : forall s d, (s, d) ∈ delivered ch -> 1 <= s /\
    (s <= writeSeq ch \/ s = writeSeq ch + 1 /\ exists t th, threads ch !! t = Some th /\ method th = POST /\ wrote th = true);
  w_part : forall s d, (s, d) ∈ delivered ch -> exists b, bodyAt c s = Some b /\ d `prefix_of` b;
  w_last : 0 <= writeSeq ch /\ (lastWriteOk ch = true -> arrived c (delivered ch) (writeSeq ch));
  w_acked : forall s, s ∈ acked c -> arrived c (delivered ch) s;
  w_bodies : forall i x, bodies c !! i = Some x -> exists n b, writes c !! i = Some b /\ len n = htNonceSize /\ x = SealBody crypto n b;
}.

Lemma wrote_leads th : wrote th = true -> leads th = true.
Proof. unfold wrote, leads. by destruct (phase th). Qed.

Lemma arrived_mono c log log' s : arrived c log s -> (forall e, e ∈ log -> e ∈ log') -> arrived c log' s.
Proof. intros (b & Hb & H) Hl. exists b. split; [done|]. destruct H as [H|H]; [by left|right; by apply Hl]. Qed.

Lemma holdsOk_mono c log log' th : holdsOk c log th -> (forall e, e ∈ log -> e ∈ log') -> holdsOk c log' th.
Proof. unfold holdsOk. intros H Hl. destruct (phase th); try done; repeat case_match; try done; by apply (arrived_mono c log). Qed.

Lemma elem_logBytes s d log e : e ∈ log -> e ∈ logBytes s d log.
Proof. unfold logBytes. case_match; [done|]. rewrite elem_of_app. by left. Qed.

(** A goroutine that does not lead a POST moves, or a new one starts. *)
Lemma wInv_neutral c ch ch' t th' : wInv c ch -> threads ch' = <[t := th']> (threads ch) -> writeView ch' = writeView ch -> phaseOk th' ->
  (method th' = POST -> leads th' = false /\ sentOk c th' /\ holdsOk c (delivered ch) th') ->
  (forall th, threads ch !! t = Some th -> method th = POST -> leads th = false) -> wInv c ch'.
Proof.
  intros Hi Et [= Es Ep El Ed] Hok Hp Hold.
  assert (Hlead : forall t0 th0, threads ch' !! t0 = Some th0 -> method th0 = POST -> leads th0 = true -> t0 <> t /\ threads ch !! t0 = Some th0).
  { intros t0 th0. rewrite Et, lookup_insert_Some. intros [ [<- <-] | [Hne H] ] Hm Hl; [|by split; [apply not_eq_sym|]]. destruct (Hp Hm) as (H1 & _). congruence. }
  split.
  - intros t0 th0. rewrite Et, lookup_insert_Some. intros [ [<- <-] | [_ H] ]; [done|by apply (w_ok c ch Hi t0)].
  - intros t0 th0. rewrite Et, Ed, lookup_insert_Some. intros [ [<- <-] | [_ H] ] Hm; [by apply Hp|by apply (w_sent c ch Hi t0)].
  - intros t0 th0 H Hm Hl. rewrite Es, Ep. destruct (Hlead t0 th0 H Hm Hl) as [_ H']. by apply (w_lead c ch Hi t0 th0).
  - intros t0 th0 t1 th1 H Hm Hl H' Hm' Hl'. apply (w_one c ch Hi t0 th0 t1 th1); try done; by apply Hlead.
  - rewrite Ed. apply (w_sorted c ch Hi).
  - intros s d. rewrite Ed, Es. intros H. destruct (w_below c ch Hi s d H) as [H1 H2]. split; [done|]. destruct H2 as [H2|(E & t0 & th0 & Ht0 & Hm0 & Hw)]; [by left|right].
    split; [done|]. exists t0, th0. rewrite Et, lookup_insert_ne; [done|]. intros ->. specialize (Hold th0 Ht0 Hm0). rewrite (wrote_leads th0 Hw) in Hold. done.
  - rewrite Ed. apply (w_part c ch Hi).
  - rewrite Es, El, Ed. apply (w_last c ch Hi).
  - rewrite Ed. apply (w_acked c ch Hi).
  - apply (w_bodies c ch Hi).
Qed.

(** A goroutine takes the lead of a POST. *)
Lemma wInv_leads c ch t th : wInv c ch -> threads ch !! t = Some th -> method th = POST -> active (writePend ch) = false -> seq th = writeSeq ch + 1 ->
  wInv c (setThreads (<[t := mkThread (method th) (seq th) (rbody th) PLead]> (threads ch)) (lead POST ch)).
Proof.
  intros Hi Ht Hm Ha Es. set (ch' := setThreads _ _).
  assert (Et : threads ch' = <[t := mkThread (method th) (seq th) (rbody th) PLead]> (threads ch)) by done.
  assert (E : writeSeq ch' = writeSeq ch /\ lastWriteOk ch' = lastWriteOk ch /\ delivered ch' = delivered ch /\ active (writePend ch') = true) by done.
  clearbody ch'. destruct E as (E1 & E2 & E3 & E4).
  assert (Hnone : forall t0 th0, threads ch !! t0 = Some th0 -> method th0 = POST -> leads th0 = false).
  { intros t0 th0 H0 Hm0. destruct (leads th0) eqn:El; [|done]. destruct (w_lead c ch Hi t0 th0 H0 Hm0 El). congruence. }
  split; rewrite ?E1, ?E2, ?E3.
  - intros t0 th0. rewrite Et, lookup_insert_Some. intros [ [<- <-] | [_ H] ]; [done|by apply (w_ok c ch Hi t0)].
  - intros t0 th0. rewrite Et, lookup_insert_Some. intros [ [<- <-] | [_ H] ] Hm0; [|by apply (w_sent c ch Hi t0)]. destruct (w_sent c ch Hi t th Ht Hm) as [H _]. by split.
  - intros t0 th0. rewrite Et, lookup_insert_Some. intros [ [<- <-] | [_ H] ] Hm0 Hl; [by split|]. rewrite (Hnone t0 th0) in Hl; done.
  - intros t0 th0 t1 th1. rewrite Et, !lookup_insert_Some. intros [ [<- <-] | [Hne H] ] Hm0 Hl [ [<- <-] | [Hne' H'] ] Hm1 Hl'; try done; [rewrite (Hnone t1 th1) in Hl'|rewrite (Hnone t0 th0) in Hl|rewrite (Hnone t0 th0) in Hl]; done.
  - apply (w_sorted c ch Hi).
  - intros s d H. destruct (w_below c ch Hi s d H) as [H1 H2]. split; [done|]. destruct H2 as [H2|(E & t0 & th0 & Ht0 & Hm0 & Hw)]; [by left|].
    pose proof (Hnone t0 th0 Ht0 Hm0) as Hx. rewrite (wrote_leads th0 Hw) in Hx. done.
  - apply (w_part c ch Hi).
  - apply (w_last c ch Hi).
  - apply (w_acked c ch Hi).
  - apply (w_bodies c ch Hi).
Qed.

(** The leader of a POST goes on, perhaps with a write. *)
Lemma wInv_leader c ch ch' t th ph took : wInv c ch -> threads ch !! t = Some th -> method th = POST -> leads th = true ->
  let th' := mkThread (method th) (seq th) (rbody th) ph in
  threads ch' = <[t := th']> (threads ch) -> owner ph = Some POST -> (writeSeq ch', writePend ch', lastWriteOk ch') = (writeSeq ch, writePend ch, lastWriteOk ch) ->
  delivered ch' = logBytes (seq th) took (delivered ch) -> (took <> [] -> wrote th = false /\ wrote th' = true) -> (wrote th = true -> wrote th' = true) ->
  (exists b, bodyAt c (seq th) = Some b /\ took `prefix_of` b) -> holdsOk c (delivered ch') th' -> wInv c ch'.
Proof.
  intros Hi Ht Hm Hl th' Et Hown [= E1 E2 E3] Ed Htook Hkeep Hpre Hhold.
  assert (Hl' : leads th' = true) by (unfold leads; cbn; by destruct ph). assert (Hok' : phaseOk th') by (unfold phaseOk; cbn; destruct ph; done).
  destruct (w_lead c ch Hi t th Ht Hm Hl) as [Es Hact].
  assert (Hsub : forall e, e ∈ delivered ch -> e ∈ delivered ch') by (intros e He; rewrite Ed; by apply elem_logBytes).
  assert (Hlead : forall t0 th0, threads ch' !! t0 = Some th0 -> method th0 = POST -> leads th0 = true -> t0 = t /\ th0 = th').
  { intros t0 th0. rewrite Et, lookup_insert_Some. intros [ [-> ->] | [Hne H] ] Hm0 Hl0; [done|]. by rewrite (w_one c ch Hi t th t0 th0) in Hne. }
  assert (Hlow : wrote th = false -> forall s d, (s, d) ∈ delivered ch -> s < seq th).
  { intros Hw s d H. destruct (w_below c ch Hi s d H) as [_ [H2|(E & t0 & th0 & Ht0 & Hm0 & Hw0)] ]; [lia|].
    assert (t0 = t) as -> by (apply (w_one c ch Hi t0 th0 t th); try done; by apply wrote_leads). rewrite Ht in Ht0. injection Ht0 as ->. congruence. }
  split; rewrite ?E1, ?E2, ?E3.
  - intros t0 th0. rewrite Et, lookup_insert_Some. intros [ [<- <-] | [_ H] ]; [done|by apply (w_ok c ch Hi t0)].
  - intros t0 th0. rewrite Et, lookup_insert_Some. intros [ [<- <-] | [_ H] ] Hm0; [split; [by destruct (w_sent c ch Hi t th Ht Hm)|done]|].
    destruct (w_sent c ch Hi t0 th0 H Hm0) as [H1 H2]. split; [done|]. by apply (holdsOk_mono c (delivered ch)).
  - intros t0 th0 H0 Hm0 Hl0. by destruct (Hlead t0 th0 H0 Hm0 Hl0) as [-> ->].
  - intros t0 th0 t1 th1 H0 Hm0 Hl0 H1 Hm1 Hl1. destruct (Hlead t0 th0 H0 Hm0 Hl0) as [-> _]. by destruct (Hlead t1 th1 H1 Hm1 Hl1) as [-> _].
  - rewrite Ed. unfold logBytes. destruct (Z.eqb_spec (len took) 0) as [|Hne]; [apply (w_sorted c ch Hi)|]. rewrite map_app. apply StronglySorted_app_2; [|apply (w_sorted c ch Hi)|repeat constructor].
    intros x y Hx Hy. apply list_elem_of_singleton in Hy as ->. apply list_elem_of_In, in_map_iff in Hx as ([s d] & <- & Hin%list_elem_of_In). cbn. apply (Hlow ltac:(apply Htook; by intros ->) s d Hin).
  - intros s d. rewrite Ed. unfold logBytes. assert (Hin : (s, d) ∈ delivered ch -> 1 <= s /\ (s <= writeSeq ch \/ s = writeSeq ch + 1 /\ exists t0 th0, threads ch' !! t0 = Some th0 /\ method th0 = POST /\ wrote th0 = true)).
    { intros H. destruct (w_below c ch Hi s d H) as [H1 [H2|(E & t0 & th0 & Ht0 & Hm0 & Hw0)] ]; split; try done; [by left|right; split; [done|]].
      assert (t0 = t) as -> by (apply (w_one c ch Hi t0 th0 t th); try done; by apply wrote_leads). rewrite Ht in Ht0. injection Ht0 as ->. exists t, th'. rewrite Et, lookup_insert_eq. split_and!; try done. by apply Hkeep. }
    destruct (Z.eqb_spec (len took) 0) as [|Hne]; [exact Hin|]. rewrite elem_of_app, list_elem_of_singleton. intros [H|[= -> ->] ]; [by apply Hin|].
    destruct (w_sent c ch Hi t th Ht Hm) as [ [Hge _] _]. split; [done|]. right. split; [lia|]. exists t, th'. rewrite Et, lookup_insert_eq. split_and!; try done. apply Htook. by intros ->.
  - intros s d. rewrite Ed. unfold logBytes. case_match; [apply (w_part c ch Hi)|]. rewrite elem_of_app, list_elem_of_singleton. intros [Hx|[= -> ->] ]; [by apply (w_part c ch Hi)|done].
  - destruct (w_last c ch Hi) as [H0 H1]. split; [done|]. intros H. by apply (arrived_mono c (delivered ch)); [apply H1|].
  - intros s H. apply (arrived_mono c (delivered ch)); [by apply (w_acked c ch Hi)|done].
  - apply (w_bodies c ch Hi).
Qed.

(** The leader ends its POST. *)
Lemma wInv_finish c ch t th ok : wInv c ch -> threads ch !! t = Some th -> method th = POST -> phase th = PFinPost ok ->
  wInv c (setThreads (<[t := mkThread (method th) (seq th) (rbody th) (PDone (if ok then 200 else 410) [])]> (threads ch)) (broadcast POST (setLastWrite ok (setWriteSeq (writeSeq ch + 1) ch)))).
Proof.
  intros Hi Ht Hm Hph. set (ch' := setThreads _ _). assert (Hl : leads th = true) by (unfold leads; by rewrite Hph).
  destruct (w_lead c ch Hi t th Ht Hm Hl) as [Es _]. destruct (w_sent c ch Hi t th Ht Hm) as [Hs Hh]. unfold holdsOk in Hh. rewrite Hph in Hh.
  assert (Et : threads ch' = <[t := mkThread (method th) (seq th) (rbody th) (PDone (if ok then 200 else 410) [])]> (threads ch)) by done.
  assert (E : writeSeq ch' = writeSeq ch + 1 /\ lastWriteOk ch' = ok /\ delivered ch' = delivered ch) by done. clearbody ch'. destruct E as (E1 & E2 & E3).
  assert (Hnone : forall t0 th0, threads ch' !! t0 = Some th0 -> method th0 = POST -> leads th0 = false).
  { intros t0 th0. rewrite Et, lookup_insert_Some. intros [ [<- <-] | [Hne H] ] Hm0; [done|]. destruct (leads th0) eqn:El; [|done]. by rewrite (w_one c ch Hi t th t0 th0) in Hne. }
  split; rewrite ?E1, ?E2, ?E3.
  - intros t0 th0. rewrite Et, lookup_insert_Some. intros [ [<- <-] | [_ H] ]; [done|by apply (w_ok c ch Hi t0)].
  - intros t0 th0. rewrite Et, lookup_insert_Some. intros [ [<- <-] | [_ H] ] Hm0; [|by apply (w_sent c ch Hi t0)]. split; [done|]. unfold holdsOk. cbn. by destruct ok.
  - intros t0 th0 H0 Hm0 Hl0. rewrite (Hnone t0 th0 H0 Hm0) in Hl0. done.
  - intros t0 th0 t1 th1 H0 Hm0 Hl0. rewrite (Hnone t0 th0 H0 Hm0) in Hl0. done.
  - apply (w_sorted c ch Hi).
  - intros s d H. destruct (w_below c ch Hi s d H) as [H1 H2]. split; [done|]. left. destruct H2 as [H2|[-> _] ]; lia.
  - apply (w_part c ch Hi).
  - destruct (w_last c ch Hi) as [H0 _]. split; [lia|]. intros ->. by rewrite <- Es.
  - apply (w_acked c ch Hi).
  - apply (w_bodies c ch Hi).
Qed.
Lemma wInv_same c ch ch' : wInv c ch -> threads ch' = threads ch -> writeView ch' = writeView ch -> wInv c ch'.
Proof. intros [H1 H2 H3 H4 H5 H6 H7 H8 H9 H10] Et [= E1 E2 E3 E4]. split; rewrite ?Et, ?E1, ?E2, ?E3, ?E4; done. Qed.

(** A POST goroutine that does not lead. *)
Lemma post_idle t th c ch ph ch' : phaseOk th -> method th = POST -> leads th = false -> run crypto ResolveUDPAddr t th c ch = Some (ph, ch') -> ph <> PLead ->
  leads (mkThread POST (seq th) (rbody th) ph) = false /\
  match ph with PSnap _ | PSend _ _ | PFinPost _ => False | PDone 200 _ => lastWriteOk ch = true /\ seq th = writeSeq ch | _ => True end.
Proof.
  unfold phaseOk, leads. intros Hok Hm Hl H Hne. open_run H. rewrite Hm in *.
  destruct (phase th); cbn in Hok, Hl; try done; try (by destruct Hok).
  all: repeat (match type of H with context [match ?x with _ => _ end] => destruct x eqn:? end; try discriminate H); try discriminate H; try (injection H as <- <-); try done.
  injection H as H. destruct (loopTurn_cases _ _ _ _ _ H) as [ (-> & _) | [_ [ (g & b & ->) | [ [_ ?] | [-> | [-> Es] ] ] ] ] ]; try done.
  cbn. by destruct (lastWriteOk ch).
Qed.

Lemma wInv_step c ch t th x ph ch' : wInv c ch -> threads ch !! t = Some th -> run crypto ResolveUDPAddr t th x ch = Some (ph, ch') ->
  wInv c (setThreads (<[t := mkThread (method th) (seq th) (rbody th) ph]> (threads ch')) ch').
Proof.
  intros Hi Ht H. pose proof (w_ok c ch Hi t th Ht) as Hok. pose proof (run_threads _ _ _ _ _ _ _ _ H) as Ethr.
  destruct (decide (method th = POST /\ leads th = true)) as [ [Hm Hl] |Hn].
  - destruct (w_sent c ch Hi t th Ht Hm) as [ [Hge (b & Hb & Hopen)] Hhold]. pose proof Hl as Hlead. unfold phaseOk in Hok. unfold leads in Hl. unfold holdsOk in Hhold. open_run H. rewrite Hm in *.
    destruct (phase th) as [| | | | |  | | | | | | | | |d|d dst| |ok | | | |] eqn:Eph; cbn in Hok, Hl; try done;
      pose proof (eq_refl (wrote th)) as Hwrote; unfold wrote in Hwrote at 2; rewrite Eph in Hwrote.
    + injection H as <- <-. eapply (wInv_leader c ch _ t th _ []); rewrite ?Hm, ?Hwrote; try done; [destruct (rbody th); [destruct (OpenBody _ _)|]; done|exists b; split; [done|by exists b]|].
      unfold holdsOk. cbn. destruct (rbody th) as [y|]; [|done]. by rewrite (Hopen y eq_refl).
    + destruct (mutex ch); [done|]. injection H as <- <-. eapply (wInv_leader c ch _ t th _ []); rewrite ?Hm, ?Hwrote; try done; [exists b; split; [done|by exists b]].
    + destruct (sendTurn ResolveUDPAddr d dst x) as [ [ph0 took] |] eqn:E; [|done]. destruct (sendTurn_took _ _ _ _ _ _ E) as [Hpre Hwhole].
      assert (Hd : exists b0, bodyAt c (seq th) = Some b0 /\ took `prefix_of` b0) by (by exists d).
      destruct (sendTurn_cases _ _ _ _ _ _ E) as [-> | [ok ->] ]; injection H as <- <-; eapply (wInv_leader c ch _ t th _ took); rewrite ?Hm, ?Hwrote; try done.
      unfold holdsOk. cbn. destruct ok; [|done]. exists d. split; [done|]. rewrite (Hwhole eq_refl). unfold logBytes.
      destruct (Z.eqb_spec (len d) 0) as [E0|]; [left; by apply len_zero|right]. rewrite elem_of_app, list_elem_of_singleton. by right.
    + destruct (mutex ch); [done|]. injection H as <- <-. eapply (wInv_leader c ch _ t th _ []); rewrite ?Hm, ?Hwrote; try done; [exists b; split; [done|by exists b]].
    + destruct (mutex ch); [done|]. injection H as <- <-. pose proof (wInv_finish c ch t th ok Hi Ht Hm Eph) as Hf. rewrite Hm in Hf. exact Hf.
  - assert (Hor : leads th = false \/ method th <> POST) by (destruct (leads th); [right; naive_solver|by left]).
    destruct (run_writeView _ _ _ _ _ _ _ _ Hok H Hor) as [ [Ev Hnl] |(Hm & Eph & -> & ->)].
    + apply (wInv_neutral c ch _ t (mkThread (method th) (seq th) (rbody th) ph)); [done|cbn; by rewrite Ethr|exact Ev|by apply (run_phaseOk _ _ _ _ _ _ _ _ Hok H)| |].
      * cbn [method]. intros Hm. destruct Hor as [Hl|]; [|done]. destruct (w_sent c ch Hi t th Ht Hm) as [Hs _].
        assert (Hne : ph <> PLead) by (intros ->; by apply Hnl). destruct (post_idle _ _ _ _ _ _ Hok Hm Hl H Hne) as [Hl' Hd]. rewrite Hm. split_and!; [done|done|]. unfold holdsOk. cbn. destruct ph; try done. repeat case_match; try done.
        destruct Hd as [Hlast ->]. by apply (w_last c ch Hi).
      * intros th0 Ht0 Hm0. rewrite Ht in Ht0. injection Ht0 as <-. by destruct Hor.
    + rewrite Hm in *. open_run H. rewrite Eph in H. destruct (mutex ch); [done|]. injection H as H.
      destruct (loopTurn_cases _ _ _ _ _ H) as [ (_ & _ & Es & Ha) | [_ [ (g & b & ?) | [ [? _] | [?|[Er _] ] ] ] ] ]; try done; [|destruct (retry_done (method th) ch) as (? & ? & Er'); congruence].
      pose proof (wInv_leads c ch t th Hi Ht Hm) as Hf. rewrite Hm in Hf, Ha, Es. exact (Hf Ha Es).
Qed.
End Writes.

(** ** Bytes from the target *)

Section Reads.
Variable crypto : HTunnelCrypto.

(** A body that carries the bytes read under a number. *)
Definition carries (log : list (Z * list Z)) (s : Z) (body : list Z) : Prop := exists n d, len n = htNonceSize /\ body = SealBody crypto n d /\ (s, d) ∈ log.
Definition nothingAt (log : list (Z * list Z)) (s : Z) : Prop := forall d, ~ ((s, d) ∈ log).

(** What is kept for a retry of the last GET. *)
Definition lastOk (log : list (Z * list Z)) (s : Z) (o : option (list Z)) : Prop := match o with Some b => carries log s b | None => nothingAt log s end.

(** What a GET goroutine has in hand agrees with what was read. *)
Definition readOk (ch : htChannel) (th : Thread) : Prop :=
  match phase th with
  | PFinGet (RData d) => (seq th, d) ∈ fetched ch
  | PFinGet _ => nothingAt (fetched ch) (seq th)
  | PDone 200 b => seq th <= readSeq ch /\ carries (fetched ch) (seq th) b
  | PDone 408 _ => seq th <= readSeq ch /\ nothingAt (fetched ch) (seq th)
  | _ => True
  end.

(** The leader has read. *)
Definition hasRead (th : Thread) : bool := match phase th with PFinGet (RData _) => true | _ => false end.

Record rInv (top : Z) (ch : htChannel) : Prop := {
  r_ok : forall t th, threads ch !! t = Some th -> phaseOk th;
  r_hold : forall t th, threads ch !! t = Some th -> method th = GET -> 1 <= seq th <= top /\ readOk ch th;
  r_lead : forall t th, threads ch !! t = Some th -> method th = GET -> leads th = true -> seq th = readSeq ch + 1 /\ active (readPend ch) = true;
  r_one : forall t th t' th', threads ch !! t = Some th -> method th = GET -> leads th = true ->
    threads ch !! t' = Some th' -> method th' = GET -> leads th' = true -> t = t';
  r_sorted : StronglySorted Z.lt (map fst (fetched ch));
  r_below : forall s d, (s, d) ∈ fetched ch -> 1 <= s <= top /\
    (s <= readSeq ch \/ s = readSeq ch + 1 /\ exists t th, threads ch !! t = Some th /\ method th = GET /\ hasRead th = true);
  r_last : 0 <= readSeq ch /\ lastOk (fetched ch) (readSeq ch) (lastReadData ch);
}.

Lemma hasRead_leads th : hasRead th = true -> leads th = true.
Proof. unfold hasRead, leads. by destruct (phase th). Qed.

Lemma rInv_neutral top ch ch' t th' : rInv top ch -> threads ch' = <[t := th']> (threads ch) -> readView ch' = readView ch -> phaseOk th' ->
  (method th' = GET -> leads th' = false /\ 1 <= seq th' <= top /\ readOk ch th') ->
  (forall th, threads ch !! t = Some th -> method th = GET -> leads th = false) -> rInv top ch'.
Proof.
  intros Hi Et [= Es Ep El Ed] Hok Hp Hold.
  assert (Hlead : forall t0 th0, threads ch' !! t0 = Some th0 -> method th0 = GET -> leads th0 = true -> t0 <> t /\ threads ch !! t0 = Some th0).
  { intros t0 th0. rewrite Et, lookup_insert_Some. intros [ [<- <-] | [Hne H] ] Hm Hl; [|by split; [apply not_eq_sym|]]. destruct (Hp Hm) as (H1 & _). congruence. }
  assert (Hro : forall th0, readOk ch th0 -> readOk ch' th0) by (intros th0; unfold readOk; by rewrite Ed, Es).
  split.
  - intros t0 th0. rewrite Et, lookup_insert_Some. intros [ [<- <-] | [_ H] ]; [done|by apply (r_ok top ch Hi t0)].
  - intros t0 th0. rewrite Et, lookup_insert_Some. intros [ [<- <-] | [_ H] ] Hm; [destruct (Hp Hm) as (_ & H1 & H2)|destruct (r_hold top ch Hi t0 th0 H Hm) as [H1 H2] ]; (split; [done|by apply Hro]).
  - intros t0 th0 H Hm Hl. rewrite Es, Ep. destruct (Hlead t0 th0 H Hm Hl) as [_ H']. by apply (r_lead top ch Hi t0 th0).
  - intros t0 th0 t1 th1 H Hm Hl H' Hm' Hl'. apply (r_one top ch Hi t0 th0 t1 th1); try done; by apply Hlead.
  - rewrite Ed. apply (r_sorted top ch Hi).
  - intros s d. rewrite Ed, Es. intros H. destruct (r_below top ch Hi s d H) as [H1 H2]. split; [done|]. destruct H2 as [H2|(E & t0 & th0 & Ht0 & Hm0 & Hw)]; [by left|right].
    split; [done|]. exists t0, th0. rewrite Et, lookup_insert_ne; [done|]. intros ->. specialize (Hold th0 Ht0 Hm0). rewrite (hasRead_leads th0 Hw) in Hold. done.
  - rewrite Es, El, Ed. apply (r_last top ch Hi).
Qed.

Lemma rInv_leads top ch t th : rInv top ch -> threads ch !! t = Some th -> method th = GET -> active (readPend ch) = false -> seq th = readSeq ch + 1 ->
  rInv top (setThreads (<[t := mkThread (method th) (seq th) (rbody th) PLead]> (threads ch)) (lead GET ch)).
Proof.
  intros Hi Ht Hm Ha Es. set (ch' := setThreads _ _).
  assert (Et : threads ch' = <[t := mkThread (method th) (seq th) (rbody th) PLead]> (threads ch)) by done.
  assert (E : readSeq ch' = readSeq ch /\ lastReadData ch' = lastReadData ch /\ fetched ch' = fetched ch /\ active (readPend ch') = true) by done.
  clearbody ch'. destruct E as (E1 & E2 & E3 & E4).
  assert (Hnone : forall t0 th0, threads ch !! t0 = Some th0 -> method th0 = GET -> leads th0 = false).
  { intros t0 th0 H0 Hm0. destruct (leads th0) eqn:El; [|done]. destruct (r_lead top ch Hi t0 th0 H0 Hm0 El). congruence. }
  assert (Hro : forall th0, readOk ch th0 -> readOk ch' th0) by (intros th0; unfold readOk; by rewrite E3, E1).
  split; rewrite ?E1, ?E2, ?E3.
  - intros t0 th0. rewrite Et, lookup_insert_Some. intros [ [<- <-] | [_ H] ]; [done|by apply (r_ok top ch Hi t0)].
  - intros t0 th0. rewrite Et, lookup_insert_Some. intros [ [<- <-] | [_ H] ] Hm0; [destruct (r_hold top ch Hi t th Ht Hm) as [H _]; by split|].
    destruct (r_hold top ch Hi t0 th0 H Hm0) as [H1 H2]. split; [done|by apply Hro].
  - intros t0 th0. rewrite Et, lookup_insert_Some. intros [ [<- <-] | [_ H] ] Hm0 Hl; [by split|]. rewrite (Hnone t0 th0) in Hl; done.
  - intros t0 th0 t1 th1. rewrite Et, !lookup_insert_Some. intros [ [<- <-] | [Hne H] ] Hm0 Hl [ [<- <-] | [Hne' H'] ] Hm1 Hl'; try done; [rewrite (Hnone t1 th1) in Hl'|rewrite (Hnone t0 th0) in Hl|rewrite (Hnone t0 th0) in Hl]; done.
  - apply (r_sorted top ch Hi).
  - intros s d H. destruct (r_below top ch Hi s d H) as [H1 H2]. split; [done|]. destruct H2 as [H2|(E & t0 & th0 & Ht0 & Hm0 & Hw)]; [by left|].
    pose proof (Hnone t0 th0 Ht0 Hm0) as Hx. rewrite (hasRead_leads th0 Hw) in Hx. done.
  - apply (r_last top ch Hi).
Qed.

Lemma seq_entry (log : list (Z * list Z)) s d d' : StronglySorted Z.lt (map fst log) -> (s, d) ∈ log -> (s, d') ∈ log -> d = d'.
Proof.
  induction log as [|[x y] log IH]; [by intros _ ?%elem_of_nil|]. cbn. intros Hs. apply StronglySorted_inv in Hs as [Hs Hx]. rewrite !elem_of_cons.
  assert (Hlt : forall z, (s, z) ∈ log -> x < s) by (intros z Hz; rewrite Forall_forall in Hx; apply Hx; apply list_elem_of_In, in_map_iff; exists (s, z); split; [done|by apply list_elem_of_In]).
  intros [ [= -> ->] |H] [ [= ->] |H']; try done; [specialize (Hlt _ H'); lia|specialize (Hlt _ H); lia|by apply IH].
Qed.

(** The leader of a GET reads: the log gets the bytes, if there are any. *)
Lemma rInv_read top ch ch' t th r : rInv top ch -> threads ch !! t = Some th -> method th = GET -> (exists src, phase th = PRead src) ->
  threads ch' = <[t := mkThread (method th) (seq th) (rbody th) (PFinGet r)]> (threads ch) ->
  (readSeq ch', readPend ch', lastReadData ch') = (readSeq ch, readPend ch, lastReadData ch) ->
  fetched ch' = fetched ch ++ match r with RData d => [(seq th, d)] | _ => [] end -> rInv top ch'.
Proof.
  intros Hi Ht Hm [src Hph] Et [= E1 E2 E3] Ed. assert (Hl : leads th = true) by (unfold leads; by rewrite Hph). set (th' := mkThread _ _ _ _) in *.
  destruct (r_lead top ch Hi t th Ht Hm Hl) as [Es Ha]. destruct (r_hold top ch Hi t th Ht Hm) as [Hge _].
  assert (Hlow : forall s d, (s, d) ∈ fetched ch -> s < seq th).
  { intros s d H. destruct (r_below top ch Hi s d H) as [_ [H2|(E & t0 & th0 & Ht0 & Hm0 & Hw0)] ]; [lia|].
    assert (t0 = t) as -> by (apply (r_one top ch Hi t0 th0 t th); try done; by apply hasRead_leads). rewrite Ht in Ht0. injection Ht0 as <-. unfold hasRead in Hw0. by rewrite Hph in Hw0. }
  assert (Hin : forall s d, (s, d) ∈ fetched ch' <-> (s, d) ∈ fetched ch \/ (s = seq th /\ r = RData d)).
  { intros s d. rewrite Ed, elem_of_app. destruct r as [d0| |]; rewrite ?elem_of_nil, ?list_elem_of_singleton; naive_solver. }
  assert (Hlead : forall t0 th0, threads ch' !! t0 = Some th0 -> method th0 = GET -> leads th0 = true -> t0 = t /\ th0 = th').
  { intros t0 th0. rewrite Et, lookup_insert_Some. intros [ [<- <-] | [Hne H] ] Hm0 Hl0; [done|]. by rewrite (r_one top ch Hi t th t0 th0) in Hne. }
  assert (Hno : forall s, s <= readSeq ch -> nothingAt (fetched ch) s -> nothingAt (fetched ch') s) by (intros s Hs H d [H'|[-> _] ]%Hin; [by apply (H d)|lia]).
  assert (Hca : forall s b, carries (fetched ch) s b -> carries (fetched ch') s b) by (intros s b (n & d & H1 & H2 & H3); exists n, d; split_and!; try done; apply Hin; by left).
  split; rewrite ?E1, ?E2, ?E3.
  - intros t0 th0. rewrite Et, lookup_insert_Some. intros [ [<- <-] | [_ H] ]; [done|by apply (r_ok top ch Hi t0)].
  - intros t0 th0. rewrite Et, lookup_insert_Some. intros [ [<- <-] | [Hne H] ] Hm0.
    + split; [done|]. unfold readOk. cbn. destruct r as [d| |]; [apply Hin; by right| |]; intros d [Hd|[_ ?] ]%Hin; try done; specialize (Hlow _ _ Hd); lia.
    + destruct (r_hold top ch Hi t0 th0 H Hm0) as [H1 H2]. split; [done|]. revert H2. unfold readOk. rewrite E1. destruct (phase th0) eqn:Ep0; try done.
      * assert (Hlx : leads th0 = true) by (unfold leads; by rewrite Ep0). by rewrite (r_one top ch Hi t th t0 th0) in Hne.
      * repeat case_match; try done; intros [? ?]; (split; [done|auto]).
  - intros t0 th0 H0 Hm0 Hl0. by destruct (Hlead t0 th0 H0 Hm0 Hl0) as [-> ->].
  - intros t0 th0 t1 th1 H0 Hm0 Hl0 H1 Hm1 Hl1. destruct (Hlead t0 th0 H0 Hm0 Hl0) as [-> _]. by destruct (Hlead t1 th1 H1 Hm1 Hl1) as [-> _].
  - rewrite Ed. destruct r as [d| |]; rewrite ?app_nil_r; try apply (r_sorted top ch Hi). rewrite map_app. apply StronglySorted_app_2; [|apply (r_sorted top ch Hi)|repeat constructor].
    intros x y Hx Hy. apply list_elem_of_singleton in Hy as ->. apply list_elem_of_In, in_map_iff in Hx as ([s d0] & <- & H%list_elem_of_In). by apply (Hlow s d0).
  - intros s d [H|[-> ->] ]%Hin; [|split; [done|right; split; [done|exists t, th'; by rewrite Et, lookup_insert_eq] ] ].
    destruct (r_below top ch Hi s d H) as [H1 _]. split; [done|]. left. specialize (Hlow s d H). lia.
  - destruct (r_last top ch Hi) as [H0 H1]. split; [done|]. revert H1. unfold lastOk. destruct (lastReadData ch); [by apply Hca|by apply Hno].
Qed.

(** The leader of a GET goes on to read. *)
Lemma rInv_leader top ch ch' t th ph : rInv top ch -> threads ch !! t = Some th -> method th = GET -> leads th = true -> hasRead th = false ->
  (exists src, ph = PRead src) -> threads ch' = <[t := mkThread (method th) (seq th) (rbody th) ph]> (threads ch) -> readView ch' = readView ch -> rInv top ch'.
Proof.
  intros Hi Ht Hm Hl Hh [src ->] Et [= E1 E2 E3 E4]. destruct (r_lead top ch Hi t th Ht Hm Hl) as [Es Ha]. destruct (r_hold top ch Hi t th Ht Hm) as [Hge _].
  assert (Hlead : forall t0 th0, threads ch' !! t0 = Some th0 -> method th0 = GET -> leads th0 = true -> t0 = t /\ seq th0 = seq th).
  { intros t0 th0. rewrite Et, lookup_insert_Some. intros [ [<- <-] | [Hne H] ] Hm0 Hl0; [done|]. by rewrite (r_one top ch Hi t th t0 th0) in Hne. }
  split; rewrite ?E1, ?E2, ?E3, ?E4.
  - intros t0 th0. rewrite Et, lookup_insert_Some. intros [ [<- <-] | [_ H] ]; [done|by apply (r_ok top ch Hi t0)].
  - intros t0 th0. rewrite Et, lookup_insert_Some. intros [ [<- <-] | [_ H] ] Hm0; [done|]. destruct (r_hold top ch Hi t0 th0 H Hm0) as [H1 H2]. split; [done|]. revert H2. unfold readOk. by rewrite E1, E4.
  - intros t0 th0 H0 Hm0 Hl0. by destruct (Hlead t0 th0 H0 Hm0 Hl0) as [_ ->].
  - intros t0 th0 t1 th1 H0 Hm0 Hl0 H1 Hm1 Hl1. destruct (Hlead t0 th0 H0 Hm0 Hl0) as [-> _]. by destruct (Hlead t1 th1 H1 Hm1 Hl1) as [-> _].
  - apply (r_sorted top ch Hi).
  - intros s d H. destruct (r_below top ch Hi s d H) as [H1 [H2|(E & t0 & th0 & Ht0 & Hm0 & Hw)] ]; split; try done; [by left|].
    assert (t0 = t) as -> by (apply (r_one top ch Hi t0 th0 t th); try done; by apply hasRead_leads). congruence.
  - apply (r_last top ch Hi).
Qed.

(** The leader of a GET ends it. *)
Lemma rInv_finish top ch t th r n : rInv top ch -> threads ch !! t = Some th -> method th = GET -> phase th = PFinGet r -> len n = htNonceSize ->
  let data := match r with RData d => Some (SealBody crypto n d) | _ => None end in
  let ph := match r, data with RData _, Some b => PDone 200 b | RTimeout, _ => PDone 408 [] | _, _ => PDone 410 [] end in
  rInv top (setThreads (<[t := mkThread (method th) (seq th) (rbody th) ph]> (threads ch)) (broadcast GET (setLastRead data (setReadSeq (readSeq ch + 1) ch)))).
Proof.
  intros Hi Ht Hm Hph Hn data ph. set (ch' := setThreads _ _). set (th' := mkThread _ _ _ _) in *. assert (Hl : leads th = true) by (unfold leads; by rewrite Hph).
  destruct (r_lead top ch Hi t th Ht Hm Hl) as [Es _]. destruct (r_hold top ch Hi t th Ht Hm) as [Hs Hh]. unfold readOk in Hh. rewrite Hph in Hh.
  assert (Et : threads ch' = <[t := th']> (threads ch)) by done.
  assert (E : readSeq ch' = readSeq ch + 1 /\ lastReadData ch' = data /\ fetched ch' = fetched ch) by done. clearbody ch'. destruct E as (E1 & E2 & E3).
  assert (Hph' : exists st b, ph = PDone st b) by (unfold ph, data; destruct r; eauto).
  assert (Hnone : forall t0 th0, threads ch' !! t0 = Some th0 -> method th0 = GET -> leads th0 = false).
  { intros t0 th0. rewrite Et, lookup_insert_Some. intros [ [<- <-] | [Hne H] ] Hm0; [unfold leads; cbn; by destruct Hph' as (? & ? & ->)|]. destruct (leads th0) eqn:El; [|done]. by rewrite (r_one top ch Hi t th t0 th0) in Hne. }
  split; rewrite ?E1, ?E2, ?E3.
  - intros t0 th0. rewrite Et, lookup_insert_Some. intros [ [<- <-] | [_ H] ]; [unfold phaseOk; cbn; by destruct Hph' as (? & ? & ->)|by apply (r_ok top ch Hi t0)].
  - intros t0 th0. rewrite Et, lookup_insert_Some. intros [ [<- <-] | [_ H] ] Hm0.
    + split; [done|]. unfold readOk, th', ph, data. cbn. rewrite E1, E3. destruct r as [d| |]; try done; (split; [lia|]); [|done]. by exists n, d.
    + destruct (r_hold top ch Hi t0 th0 H Hm0) as [H1 H2]. split; [done|]. revert H2. unfold readOk. rewrite E1, E3. repeat case_match; try done; intros [? ?]; (split; [lia|done]).
  - intros t0 th0 H0 Hm0 Hl0. rewrite (Hnone t0 th0 H0 Hm0) in Hl0. done.
  - intros t0 th0 t1 th1 H0 Hm0 Hl0. rewrite (Hnone t0 th0 H0 Hm0) in Hl0. done.
  - apply (r_sorted top ch Hi).
  - intros s d H. destruct (r_below top ch Hi s d H) as [H1 H2]. split; [done|]. left. destruct H2 as [H2|[-> _] ]; lia.
  - destruct (r_last top ch Hi) as [H0 _]. split; [lia|]. rewrite <- Es. unfold lastOk, data. destruct r as [d| |]; [by exists n, d|done|done].
Qed.
End Reads.

Section Streams.
Variable crypto : HTunnelCrypto.
Context {Hcr : CipherLaws crypto}.
Variable ResolveUDPAddr : list Z -> Z -> option NetAddr.
#[local] Abbreviation wInv := (wInv crypto).
#[local] Abbreviation rInv := (rInv crypto).

Lemma rInv_same top ch ch' : rInv top ch -> threads ch' = threads ch -> readView ch' = readView ch -> rInv top ch'.
Proof.
  intros [H1 H2 H3 H4 H5 H6 H7] Et [= E1 E2 E3 E4]. split; rewrite ?Et, ?E1, ?E2, ?E3, ?E4; try done.
  intros t th Ht Hm. destruct (H2 t th Ht Hm) as [Ha Hb]. split; [done|]. revert Hb. unfold readOk. by rewrite E1, E4.
Qed.

(** A GET goroutine that does not lead. *)
Lemma get_idle t th c ch ph ch' : phaseOk th -> method th = GET -> leads th = false -> run crypto ResolveUDPAddr t th c ch = Some (ph, ch') -> ph <> PLead ->
  leads (mkThread GET (seq th) (rbody th) ph) = false /\
  match ph with PFinGet _ => False | PDone 200 b => lastReadData ch = Some b /\ seq th = readSeq ch | PDone 408 _ => lastReadData ch = None /\ seq th = readSeq ch | _ => True end.
Proof.
  unfold phaseOk, leads. intros Hok Hm Hl H Hne. open_run H. rewrite Hm in *.
  destruct (phase th); cbn in Hok, Hl; try done; try (by destruct Hok).
  all: repeat (match type of H with context [match ?x with _ => _ end] => destruct x eqn:? end; try discriminate H); try discriminate H; try (injection H as <- <-); try done.
  injection H as H. destruct (loopTurn_cases _ _ _ _ _ H) as [ (-> & _) | [_ [ (g & b & ->) | [ [_ ?] | [-> | [-> Es] ] ] ] ] ]; try done.
  cbn. by destruct (lastReadData ch).
Qed.

Lemma rInv_step top ch t th x ph ch' : rInv top ch -> threads ch !! t = Some th -> run crypto ResolveUDPAddr t th x ch = Some (ph, ch') ->
  rInv top (setThreads (<[t := mkThread (method th) (seq th) (rbody th) ph]> (threads ch')) ch').
Proof.
  intros Hi Ht H. pose proof (r_ok _ top ch Hi t th Ht) as Hok. pose proof (run_threads _ _ _ _ _ _ _ _ H) as Ethr.
  destruct (decide (method th = GET /\ leads th = true)) as [ [Hm Hl] |Hn].
  - destruct (r_hold _ top ch Hi t th Ht Hm) as [Hge Hhold]. destruct (r_lead _ top ch Hi t th Ht Hm Hl) as [Es Ha]. pose proof Hl as Hlead. unfold phaseOk in Hok. unfold leads in Hl.
    open_run H. rewrite Hm in *.
    destruct (phase th) as [| | | | |  | | | | | | |src|r| | | | | | | |] eqn:Eph; cbn in Hok, Hl; try done.
    + destruct (mutex ch); [done|]. injection H as <- <-. apply (rInv_leader _ top ch _ t th (PRead (sourceOf ch))); try done; [unfold hasRead; by rewrite Eph|by eexists|by rewrite Hm].
    + destruct x as [| | | | |r|]; try done. assert (Hr : forall src' r', phase th = PRead src' -> rInv top (setThreads (<[t := mkThread GET (seq th) (rbody th) (PFinGet r')]> (threads ch)) (match r' with RData d => setFetched (fetched ch ++ [(seq th, d)]) ch | _ => ch end))).
      { intros src' r' Hs. eapply (rInv_read _ top ch _ t th r'); try done; [by exists src'|by rewrite Hm; destruct r'|by destruct r'|destruct r'; cbn; by rewrite ?app_nil_r]. }
      specialize (Hr src r Eph). destruct src, r; try done; injection H as <- <-; exact Hr.
    + destruct x as [| | | | | |n]; try done. destruct (Z.eqb_spec (len n) htNonceSize) as [Hn|]; [|done]. cbn [negb] in H. destruct (mutex ch); [done|]. injection H as <- <-.
      pose proof (rInv_finish _ top ch t th r n Hi Ht Hm Eph Hn) as Hf. rewrite Hm in Hf. exact Hf.
  - assert (Hor : leads th = false \/ method th <> GET) by (destruct (leads th); [right; naive_solver|by left]).
    destruct (run_readView _ _ _ _ _ _ _ _ Hok H Hor) as [ [Ev Hnl] |(Hm & Eph & -> & ->)].
    + apply (rInv_neutral _ top ch _ t (mkThread (method th) (seq th) (rbody th) ph)); [done|cbn; by rewrite Ethr|exact Ev|by apply (run_phaseOk _ _ _ _ _ _ _ _ Hok H)| |].
      * cbn [method]. intros Hm. destruct Hor as [Hl|]; [|done]. destruct (r_hold _ top ch Hi t th Ht Hm) as [Hs _].
        assert (Hne : ph <> PLead) by (intros ->; by apply Hnl). destruct (get_idle _ _ _ _ _ _ Hok Hm Hl H Hne) as [Hl' Hd]. rewrite Hm. split_and!; [done|apply Hs|apply Hs|].
        destruct (r_last _ top ch Hi) as [_ Hlast]. unfold readOk. cbn. destruct ph; try done. repeat case_match; try done; destruct Hd as [Hd Hs']; rewrite Hd, <- Hs' in Hlast; (split; [lia|exact Hlast]).
      * intros th0 Ht0 Hm0. rewrite Ht in Ht0. injection Ht0 as <-. by destruct Hor.
    + rewrite Hm in *. open_run H. rewrite Eph in H. destruct (mutex ch); [done|]. injection H as H.
      destruct (loopTurn_cases _ _ _ _ _ H) as [ (_ & _ & Es & Ha) | [_ [ (g & b & ?) | [ [? _] | [?|[Er _] ] ] ] ] ]; try done; [|destruct (retry_done (method th) ch) as (? & ? & Er'); congruence].
      pose proof (rInv_leads _ top ch t th Hi Ht Hm) as Hf. rewrite Hm in Hf, Ha, Es. exact (Hf Ha Es).
Qed.
End Streams.

(** *** The client's side *)

(** The last number whose answer the client has. *)
Definition fin (c : htunnelConn) : Z := cReadSeq c - (if reading c then 1 else 0).
(** What the client has of the log of reads up to a number: all but empty reads. *)
Definition upto (k : Z) (e : Z * list Z) : bool := (e.1 <=? k) && negb (len e.2 =? 0).

Record cInv (c : htunnelConn) (ch : htChannel) : Prop := {
  c_seq : 0 <= cReadSeq c;
  c_buf : reading c = true -> readBuf c = [];
  c_bytes : app_ c ++ readBuf c = concat (map snd (received c));
  c_recv : readFailed c = false -> fin c <= readSeq ch /\ received c = List.filter (upto (fin c)) (fetched ch);
  c_len : length (bodies c) = length (writes c);
}.

Lemma filter_upto_app k (l : list (Z * list Z)) s d : k < s -> List.filter (upto k) (l ++ [(s, d)]) = List.filter (upto k) l.
Proof. intros H. rewrite List.filter_app. unfold upto at 2. cbn. destruct (Z.leb_spec s k); [lia|]. cbn. apply app_nil_r. Qed.

Lemma filter_upto_none k (l : list (Z * list Z)) : (forall d, (k, d) ∈ l -> len d = 0) -> List.filter (upto k) l = List.filter (upto (k - 1)) l.
Proof.
  induction l as [|[s d] l IH]; [done|]. intros H. cbn. rewrite IH by (intros d' Hd; apply H; by apply elem_of_cons; right). f_equal. unfold upto. cbn.
  destruct (Z.leb_spec s k), (Z.leb_spec s (k - 1)); try done; [|lia]. assert (s = k) as -> by lia. rewrite (H d) by (by apply elem_of_cons; left). done.
Qed.

Lemma filter_upto_last k d (l : list (Z * list Z)) : StronglySorted Z.lt (map fst l) -> (k, d) ∈ l -> len d <> 0 ->
  List.filter (upto k) l = List.filter (upto (k - 1)) l ++ [(k, d)].
Proof.
  induction l as [|[s x] l IH]; [by intros _ ?%elem_of_nil|]. cbn [map fst]. intros [Hs Hx]%StronglySorted_inv Hin Hd. rewrite Forall_forall in Hx.
  assert (Hmem : forall z y, (z, y) ∈ l -> s < z) by (intros z y Hz; apply Hx; apply list_elem_of_In, in_map_iff; exists (z, y); split; [done|by apply list_elem_of_In]).
  apply elem_of_cons in Hin as [ [= -> ->] |Hin].
  - assert (Hnil : List.filter (upto s) l = [] /\ List.filter (upto (s - 1)) l = []).
    { clear -Hmem. induction l as [|[z y] l IH]; [done|]. destruct IH as [IH1 IH2]; [intros z' y' Hz; apply (Hmem z' y'); by apply elem_of_cons; right|]. cbn. rewrite IH1, IH2.
      specialize (Hmem z y ltac:(by apply elem_of_cons; left)). unfold upto. cbn. destruct (Z.leb_spec z s), (Z.leb_spec z (s - 1)); try lia. done. }
    destruct Hnil as [E1 E2]. cbn. rewrite E1, E2. unfold upto. cbn. destruct (Z.leb_spec s s), (Z.leb_spec s (s - 1)), (Z.eqb_spec (len x) 0); try lia. done.
  - cbn. rewrite IH by done. specialize (Hmem _ _ Hin). assert (E : upto k (s, x) = upto (k - 1) (s, x)) by (unfold upto; cbn; destruct (Z.leb_spec s k), (Z.leb_spec s (k - 1)); try lia; done). rewrite E. by destruct (upto (k - 1) (s, x)).
Qed.

Section Whole.
Variable crypto : HTunnelCrypto.
Context {Hcr : CipherLaws crypto}.
Variable ResolveUDPAddr : list Z -> Z -> option NetAddr.

(** What a step adds to the log of reads. *)
Lemma run_reads t th x ch ph ch' : phaseOk th -> run crypto ResolveUDPAddr t th x ch = Some (ph, ch') ->
  readSeq ch <= readSeq ch' /\ (fetched ch' = fetched ch \/ exists d, fetched ch' = fetched ch ++ [(seq th, d)] /\ method th = GET /\ leads th = true).
Proof.
  intros Hok H. destruct (decide (method th = GET /\ leads th = true)) as [ [Hm Hl] |Hn].
  - open_run H. rewrite Hm in H. unfold leads in *. unfold phaseOk in Hok. rewrite Hm in Hok. destruct (phase th) eqn:Eph; cbn in Hok, Hl; try done.
    all: repeat (match type of H with context [match ?y with _ => _ end] => destruct y eqn:? end; try discriminate H); try discriminate H; try (injection H as <- <-); cbn; (split; [lia|]); eauto.
  - assert (Hor : leads th = false \/ method th <> GET) by (destruct (leads th); [right; naive_solver|by left]).
    destruct (run_readView _ _ _ _ _ _ _ _ Hok H Hor) as [ [Ev _] |(Hm & Eph & -> & ->)]; [injection Ev as -> _ _ ->|]; (split; [cbn; lia|by left]).
Qed.

Record sysInv (c : htunnelConn) (ch : htChannel) : Prop := { s_w : wInv crypto c ch; s_r : rInv crypto (cReadSeq c) ch; s_c : cInv c ch }.

Lemma cInv_server c ch ch' : cInv c ch -> rInv crypto (cReadSeq c) ch -> readSeq ch <= readSeq ch' ->
  (fetched ch' = fetched ch \/ exists d, fetched ch' = fetched ch ++ [(readSeq ch + 1, d)]) -> cInv c ch'.
Proof.
  intros [H1 H2 H3 H4 H5] Hr Hle Hf. split; try done. intros Hrf. destruct (H4 Hrf) as [Ha ->]. split; [lia|]. destruct Hf as [->|[d ->] ]; [done|]. symmetry. apply filter_upto_app. lia.
Qed.

Lemma spawn_sysInv c ch t th ch' : sysInv c ch -> spawn t th ch = Some ch' -> phaseOk th -> leads th = false ->
  (method th = POST -> sentOk crypto c th /\ phase th = PLoad) -> (method th = GET -> 1 <= seq th <= cReadSeq c /\ phase th = PLoad) -> sysInv c ch'.
Proof.
  intros [Hw Hr Hc] H Hok Hl Hpost Hget. unfold spawn in H. destruct (threads ch !! t) eqn:Et; [done|]. injection H as <-. split.
  - apply (wInv_neutral crypto c ch _ t th); try done; [|intros th0; congruence]. intros Hm. destruct (Hpost Hm) as [? Hp]. split_and!; try done. unfold holdsOk. by rewrite Hp.
  - apply (rInv_neutral crypto _ ch _ t th); try done; [|intros th0; congruence]. intros Hm. destruct (Hget Hm) as [? Hp]. split_and!; try done; try lia. unfold readOk. by rewrite Hp.
  - apply (cInv_server c ch); try done. by left.
Qed.

Lemma same_sysInv c ch ch' : sysInv c ch -> threads ch' = threads ch -> writeView ch' = writeView ch -> readView ch' = readView ch -> sysInv c ch'.
Proof.
  intros [Hw Hr Hc] Et Ew Er. split; [by apply (wInv_same crypto c ch)|by apply (rInv_same crypto _ ch)|]. injection Er as E1 _ _ E4. apply (cInv_server c ch); try done; [lia|by left].
Qed.

Lemma wasSent_POST c ch s body : wInv crypto c ch -> wasSent c POST s body = true -> sentOk crypto c (mkThread POST s body PLoad).
Proof.
  intros Hw H. cbn in H. apply andb_true_iff in H as [Hs%Z.leb_le H]. split; [done|]. cbn. destruct (bodies c !! Z.to_nat (s - 1)) as [x|] eqn:Eb; [|done].
  destruct (w_bodies crypto c ch Hw _ x Eb) as (n & b & Hb & Hn & ->). exists b. split; [done|]. intros y ->. apply bool_decide_eq_true in H. subst y. by apply OpenBody_SealBody.
Qed.

Lemma exec_sysInv c ch e ch' : sysInv c ch -> match e with Arrive _ m s body => wasSent c m s body = true | _ => True end ->
  exec crypto ResolveUDPAddr e ch = Some ch' -> sysInv c ch'.
Proof.
  intros Hi He H. destruct e as [t m s body|t|t|t x]; cbn [exec] in H.
  - apply (spawn_sysInv c ch t _ ch' Hi H); try done; cbn; intros ->; (split; [|done]); [apply (wasSent_POST c ch); [apply Hi|done]|].
    cbn in He. apply andb_true_iff in He as [?%Z.leb_le ?%Z.leb_le]. done.
  - apply (spawn_sysInv c ch t _ ch' Hi H); try done. by right.
  - assert (Hset : sysInv c (setTimer TNone ch)) by (by apply (same_sysInv c ch)).
    destruct (timer ch); [done| |apply (spawn_sysInv c _ t _ ch' Hset H); try done; by right].
    destruct (mutex ch); [done|]. destruct (target ch || rev ch); [by injection H as <-|]. apply (spawn_sysInv c _ t _ ch' Hset H); try done. by right.
  - destruct (threads ch !! t) as [th|] eqn:Et; [|done]. destruct (run crypto ResolveUDPAddr t th x ch) as [ [ph ch0] |] eqn:Er; [|done]. injection H as <-. destruct Hi as [Hw Hr Hc]. split.
    + by apply (wInv_step crypto ResolveUDPAddr c ch t th x ph ch0).
    + by apply (rInv_step crypto ResolveUDPAddr _ ch t th x ph ch0).
    + destruct (run_reads _ _ _ _ _ _ (r_ok _ _ ch Hr t th Et) Er) as [Hle Hf]. apply (cInv_server c ch); try done.
      destruct Hf as [Hf|(d & Hf & Hm & Hl)]; [by left|right]. destruct (r_lead _ _ ch Hr t th Et Hm Hl) as [<- _]. by exists d.
Qed.

(** More may be written and more asked for. *)
Lemma wInv_grow c c' ch : wInv crypto c ch -> (forall s b, bodyAt c s = Some b -> bodyAt c' s = Some b) -> acked c' = acked c ->
  (forall i x, bodies c' !! i = Some x -> exists n b, writes c' !! i = Some b /\ len n = htNonceSize /\ x = SealBody crypto n b) -> wInv crypto c' ch.
Proof.
  intros [H1 H2 H3 H4 H5 H6 H7 H8 H9 H10] Hb Ha Hx. assert (Harr : forall log s, arrived c log s -> arrived c' log s) by (intros log s (b & ? & ?); exists b; auto).
  split; try done.
  - intros t th Ht Hm. destruct (H2 t th Ht Hm) as [ [Hs (b & Hb1 & Hb2)] Hh]. split; [split; [done|exists b; auto]|]. revert Hh. unfold holdsOk. repeat case_match; auto.
  - intros s d H. destruct (H7 s d H) as (b & ? & ?). exists b. auto.
  - destruct H8 as [? H8]. split; [done|]. auto.
  - rewrite Ha. auto.
Qed.

Lemma rInv_grow top top' ch : rInv crypto top ch -> top <= top' -> rInv crypto top' ch.
Proof.
  intros [H1 H2 H3 H4 H5 H6 H7] Hle. split; try done.
  - intros t th Ht Hm. destruct (H2 t th Ht Hm). split; [lia|done].
  - intros s d H. destruct (H6 s d H). split; [lia|done].
Qed.

End Whole.

(** ** The tunnel carries streams *)

Lemma upto_prefix k (l : list (Z * list Z)) : StronglySorted Z.lt (map fst l) ->
  exists rest, concat (map snd (List.filter (upto k) l)) ++ rest = concat (map snd l) /\ ((forall s d, (s, d) ∈ l -> s <= k) -> rest = []).
Proof.
  induction l as [|[s d] l IH]; [by exists []|]. cbn [map fst]. intros [Hs Hx]%StronglySorted_inv. rewrite Forall_forall in Hx. destruct (Z.leb_spec s k) as [Hle|Hgt].
  - destruct (IH Hs) as (rest & E & Hr). exists rest. split.
    + cbn [List.filter]. destruct (upto k (s, d)) eqn:Eu; cbn [map concat snd]; rewrite <- E; [by rewrite <- app_assoc|].
      unfold upto in Eu. cbn in Eu. destruct (Z.leb_spec s k); [|lia]. cbn in Eu. apply negb_false_iff, Z.eqb_eq, len_zero in Eu as ->. done.
    + intros H. apply Hr. intros s' d' Hin. apply (H s' d'). by apply elem_of_cons; right.
  - exists (concat (map snd ((s, d) :: l))). split; [|intros H; specialize (H s d ltac:(by apply elem_of_cons; left)); lia].
    assert (E : List.filter (upto k) ((s, d) :: l) = []); [|by rewrite E].
    assert (Hall : forall e, e ∈ (s, d) :: l -> upto k e = false).
    { intros [z y] Hz. unfold upto. cbn. destruct (Z.leb_spec z k); [|done]. apply elem_of_cons in Hz as [ [= -> ->] |Hz]; [lia|]. assert (s < z); [|lia]. apply Hx. apply list_elem_of_In, in_map_iff. exists (z, y). split; [done|by apply list_elem_of_In]. }
    clear -Hall. induction ((s, d) :: l) as [|e l' IH]; [done|]. cbn. rewrite (Hall e) by (by apply elem_of_cons; left). apply IH. intros e' He. apply Hall. by apply elem_of_cons; right.
Qed.

Section Tunnel.
Variable crypto : HTunnelCrypto.
Context {Hcr : CipherLaws crypto}.
Variable ResolveUDPAddr : list Z -> Z -> option NetAddr.
#[local] Abbreviation sysInv := (sysInv crypto).

Lemma SealBody_empty n d : len n = htNonceSize -> (len (SealBody crypto n d) =? 0) = (len d =? 0).
Proof.
  intros Hn. unfold SealBody. destruct (negb (enabled crypto) || (len d =? 0)) eqn:E; [done|]. apply orb_false_iff in E as [_ ->]. apply Z.eqb_neq. rewrite len_app, Hn.
  pose proof (len_nonneg (Seal crypto n d)). unfold htNonceSize. lia.
Qed.

Lemma answerOf_thread t m s ch st b : m = GET \/ m = POST -> answerOf t m s ch = Some (st, b) -> exists th, threads ch !! t = Some th /\ method th = m /\ seq th = s /\ phase th = PDone st b.
Proof.
  unfold answerOf. intros Hm H. destruct (threads ch !! t) as [th|]; [|done]. exists th. destruct (method th) eqn:E1, m, (phase th) eqn:E2; try done; destruct Hm; try done.
  all: destruct (Z.eqb_spec (seq th) s); [|done]; injection H as <- <-; done.
Qed.

Lemma sameWrites_inv c c' ch : wInv crypto c ch -> writes c' = writes c -> bodies c' = bodies c -> acked c' = acked c -> wInv crypto c' ch.
Proof. intros Hw E1 E2 E3. apply (wInv_grow crypto c); try done; [unfold bodyAt; by rewrite E1|rewrite E1, E2; apply (w_bodies _ _ _ Hw)]. Qed.

Lemma tunnelWrite_inv c ch nonce b c' : sysInv c ch -> writeStart crypto nonce b c = Some c' -> sysInv c' ch.
Proof.
  intros [Hw Hr Hc]. unfold writeStart. destruct (writing c || cClosed c); [done|]. destruct (Z.eqb_spec (len nonce) htNonceSize) as [Hn|]; [|done]. cbn. intros [= <-]. destruct Hc as [H1 H2 H3 H4 H5]. split; [|done|].
  - apply (wInv_grow crypto c); try done; cbn [bodies writes].
    + intros s x Hx. unfold bodyAt in *. cbn. by apply lookup_app_l_Some.
    + intros i x. rewrite lookup_app_Some. intros [Hi|[Hi Hx] ]; [destruct (w_bodies _ _ _ Hw i x Hi) as (n & b0 & ? & ? & ?); exists n, b0; split_and!; try done; by apply lookup_app_l_Some|].
      apply list_lookup_singleton_Some in Hx as [Hx <-]. exists nonce, b. split_and!; try done. rewrite lookup_app_r by lia. by replace (i - length (writes c))%nat with 0%nat by lia.
  - split; try done. cbn. rewrite !length_app. cbn. lia.
Qed.

Lemma writeEnd_inv c ch o : sysInv c ch -> (o = Some 200 -> arrived c (delivered ch) (len (writes c))) -> sysInv (writeEnd o c) ch.
Proof.
  intros [Hw Hr Hc] Ho. split; [|done|]; [|destruct Hc; by split]. assert (Hacked : acked (writeEnd o c) = acked c \/ acked (writeEnd o c) = acked c ++ [len (writes c)] /\ o = Some 200).
  { unfold writeEnd. cbn. destruct o as [z|]; [|by left]. destruct (Z.eqb_spec z 200) as [->|]; [by right|by left]. }
  destruct Hw as [W1 W2 W3 W4 W5 W6 W7 W8 W9 W10]. split; try done. intros s Hs. destruct Hacked as [E|[E E'] ]; rewrite E in Hs; [by apply W9|]. apply elem_of_app in Hs as [Hs| ->%list_elem_of_singleton]; [by apply W9|by apply Ho].
Qed.

(** The client after an answer to its read, given what the answer says. *)
Lemma readEnd_inv c ch n st b : sysInv c ch -> reading c = true ->
  (st = 200 -> cReadSeq c <= readSeq ch /\ carries crypto (fetched ch) (cReadSeq c) b) -> (st = 408 -> cReadSeq c <= readSeq ch /\ nothingAt (fetched ch) (cReadSeq c)) ->
  sysInv (readEnd crypto n st b c) ch.
Proof.
  intros [Hw Hr Hc] Hrd H200 H408. destruct Hc as [C1 C2 C3 C4 C5]. pose proof (C2 Hrd) as Hbuf.
  assert (Hfail : sysInv (readFails c) ch) by (split; [by apply (sameWrites_inv c)|done|by split]).
  assert (Hagain : cReadSeq c <= readSeq ch -> (forall d, (cReadSeq c, d) ∈ fetched ch -> len d = 0) -> sysInv (readAgain c) ch).
  { intros Hle Hno. unfold readAgain. assert (Hf : readFailed c = false -> received c = List.filter (upto (cReadSeq c)) (fetched ch)) by (intros E; destruct (C4 E) as [_ ->]; unfold fin; rewrite Hrd; symmetry; by apply filter_upto_none).
    destruct (cClosed c); split; try (by apply (sameWrites_inv c)); try done; try (apply (rInv_grow crypto (cReadSeq c)); [done|cbn; lia]).
    - split; try done. cbn. unfold fin. cbn. intros E. split; [lia|]. by rewrite Z.sub_0_r, (Hf E).
    - split; try done; [cbn; lia|]. unfold fin. cbn. intros E. split; [lia|]. replace (cReadSeq c + 1 - 1) with (cReadSeq c) by lia. by apply Hf. }
  unfold readEnd. destruct (Z.eqb_spec st 410); [done|]. destruct (Z.eqb_spec st 408) as [->|].
  { destruct (H408 eq_refl) as [Hle Hno]. apply Hagain; [done|]. intros d Hd. by destruct (Hno d). }
  destruct (Z.eqb_spec st 200) as [->|]; [|done]. cbn [negb]. destruct (H200 eq_refl) as (Hle & nn & d & Hn & -> & Hin). rewrite SealBody_empty by done. pose proof (r_sorted _ _ _ Hr) as Hs.
  destruct (Z.eqb_spec (len d) 0) as [Hd|Hd]; [apply Hagain; [done|]; intros d' Hd'; by rewrite (seq_entry _ _ d' d Hs Hd' Hin)|].
  rewrite OpenBody_SealBody by done. split; [by apply (sameWrites_inv c)|done|]. split; try done; cbn.
  - rewrite map_app, concat_app. cbn. rewrite <- C3, Hbuf, !app_nil_r, <- app_assoc. by rewrite take_drop.
  - intros E. unfold fin. cbn. rewrite Z.sub_0_r. split; [done|]. destruct (C4 E) as [_ ->]. unfold fin. rewrite Hrd. symmetry. by apply filter_upto_last.
Qed.

Lemma sysExec_inv e c ch c' ch' : sysInv c ch -> sysExec crypto ResolveUDPAddr e c ch = Some (c', ch') -> sysInv c' ch'.
Proof.
  intros Hi H. destruct e as [nonce b|t| |n| |t n| | |e]; cbn [sysExec] in H.
  - destruct (writeStart crypto nonce b c) as [c0|] eqn:E; [|done]. injection H as <- <-. by apply (tunnelWrite_inv c ch nonce b).
  - destruct (writing c); [|done]. destruct (answerOf t POST (len (writes c)) ch) as [ [st b] |] eqn:E; [|done]. injection H as <- <-. apply writeEnd_inv; [done|]. intros [= ->].
    destruct (answerOf_thread _ _ _ _ _ _ ltac:(by right) E) as (th & Ht & Hm & <- & Hp). destruct (w_sent _ _ _ (s_w _ _ _ Hi) t th Ht Hm) as [_ Hh]. unfold holdsOk in Hh. by rewrite Hp in Hh.
  - destruct (writing c); [|done]. injection H as <- <-. by apply writeEnd_inv.
  - destruct (reading c || (len (readBuf c) =? 0)) eqn:E; [done|]. apply orb_false_iff in E as [Er _]. injection H as <- <-. destruct Hi as [Hw Hr [C1 C2 C3 C4 C5] ]. split; [by apply (sameWrites_inv c)|done|].
    split; try done; cbn; [by rewrite <- app_assoc, take_drop|]. unfold fin. cbn. intros Ef. destruct (C4 Ef) as [? ?]. unfold fin in *. by rewrite Er in *.
  - unfold readStart in H. destruct (reading c || cClosed c) eqn:E; [done|]. apply orb_false_iff in E as [Er _]. destruct (Z.eqb_spec (len (readBuf c)) 0) as [Hz%len_zero|]; [|done]. cbn in H. injection H as <- <-.
    destruct Hi as [Hw Hr [C1 C2 C3 C4 C5] ]. split; [by apply (sameWrites_inv c)|apply (rInv_grow crypto (cReadSeq c)); [done|cbn; lia]|]. split; try done; cbn; [lia|by rewrite <- C3, Hz|].
    unfold fin. cbn. replace (cReadSeq c + 1 - 1) with (cReadSeq c) by lia. intros Ef. destruct (C4 Ef) as [? ?]. unfold fin in *. rewrite Er, Z.sub_0_r in *. done.
  - destruct (reading c) eqn:Er; [|done]. destruct (answerOf t GET (cReadSeq c) ch) as [ [st b] |] eqn:E; [|done]. injection H as <- <-.
    destruct (answerOf_thread _ _ _ _ _ _ ltac:(by left) E) as (th & Ht & Hm & Hs & Hp). destruct (r_hold _ _ _ (s_r _ _ _ Hi) t th Ht Hm) as [_ Hh]. unfold readOk in Hh. rewrite Hp, Hs in Hh.
    apply readEnd_inv; try done; intros ->; done.
  - destruct (reading c); [|done]. injection H as <- <-. destruct Hi as [Hw Hr [C1 C2 C3 C4 C5] ]. split; [by apply (sameWrites_inv c)|done|by split].
  - injection H as <- <-. destruct Hi as [Hw Hr [C1 C2 C3 C4 C5] ]. split; [by apply (sameWrites_inv c)|done|by split].
  - assert (He : exec crypto ResolveUDPAddr e ch = Some ch' /\ c' = c /\ match e with Arrive _ m s body => wasSent c m s body = true | _ => True end).
    { destruct e as [t m s body| | |]; try (destruct (wasSent c m s body); [|done]); (destruct (exec _ _ _ ch) as [ch0|]; [|done]); injection H as <- <-; done. }
    destruct He as (He & -> & Hs). by apply (exec_sysInv crypto ResolveUDPAddr c ch e).
Qed.

Lemma newChannel_inv k p : sysInv newConn (newChannel k p).
Proof.
  split; split; cbn; try done; try (intros *; rewrite lookup_empty; done); try (intros * H; by apply elem_of_nil in H); try constructor; try done.
  intros d H. by apply elem_of_nil in H.
Qed.

Lemma sysReach_inv k p c ch : sysReach crypto ResolveUDPAddr k p c ch -> sysInv c ch.
Proof. induction 1; [apply newChannel_inv|by eapply sysExec_inv]. Qed.

(** C6: the tunnel carries streams, whatever requests are lost, delayed or repeated between
    client and server and however their handlers interleave.  Towards the target, the
    buffers given to Write arrive in their order and none twice: what arrived of each is
    the whole buffer, or a part of one whose Write did not succeed; every Write that
    succeeded has arrived whole.  Towards the client, as long as no Read has failed, the
    bytes it has, given to the application or buffered, are the first ones read from the
    target, in order and without gaps; and between two reads they are all of them. *)
Theorem htunnel_streams k p c ch : sysReach crypto ResolveUDPAddr k p c ch ->
  StronglySorted Z.lt (map fst (delivered ch)) /\
  (forall s d, (s, d) ∈ delivered ch -> exists b, bodyAt c s = Some b /\ (d = b \/ d `prefix_of` b /\ ~ (s ∈ acked c))) /\
  (forall s, s ∈ acked c -> exists b, bodyAt c s = Some b /\ (b = [] \/ (s, b) ∈ delivered ch)) /\
  (readFailed c = false -> exists rest, app_ c ++ readBuf c ++ rest = concat (map snd (fetched ch)) /\ (reading c = false -> rest = [])).
Proof.
  intros [Hw Hr Hc]%sysReach_inv. pose proof (w_sorted _ _ _ Hw) as Hs. split_and!; [done| |apply (w_acked _ _ _ Hw)|].
  - intros s d Hd. destruct (w_part _ _ _ Hw s d Hd) as (b & Hb & Hp). exists b. split; [done|]. destruct (decide (d = b)) as [->|Hne]; [by left|right]. split; [done|]. intros Ha.
    destruct (w_acked _ _ _ Hw s Ha) as (b' & Hb' & Harr). rewrite Hb in Hb'. injection Hb' as <-. destruct Harr as [->|Hin]; [apply prefix_nil_inv in Hp; done|]. by rewrite (seq_entry _ _ d b Hs Hd Hin) in Hne.
  - intros Hf. destruct Hc as [C1 C2 C3 C4 C5]. destruct (C4 Hf) as [_ Er]. destruct (upto_prefix (fin c) (fetched ch) (r_sorted _ _ _ Hr)) as (rest & E & Hrest). exists rest. rewrite app_assoc, C3, Er. split; [done|].
    intros Hnr. apply Hrest. intros s d Hin. unfold fin. rewrite Hnr. destruct (r_below _ _ _ Hr s d Hin) as [? _]. lia.
Qed.
End Tunnel.

(** ** A repeated request *)

Section Blocked.
Variable crypto : HTunnelCrypto.
Variable ResolveUDPAddr : list Z -> Z -> option NetAddr.

Fixpoint execs (es : list Event) (ch : htChannel) : option htChannel :=
  match es with [] => Some ch | e :: es => match exec crypto ResolveUDPAddr e ch with Some ch => execs es ch | None => None end end.

(** Phases of a request that has not been answered and needs the lock. *)
Definition behindLock (ph : Phase) : bool := match ph with PLoad | PReset | PClose _ | PCloseLock _ => true | _ => false end.

(** The lock is held by a goroutine that waits for it; [old] are the goroutines of then. *)
Record blocked (t : nat) (old : gmap nat Thread) (seqs : Z * Z * Z) (tgt : bool) (ch : htChannel) : Prop := {
  b_lock : mutex ch = Some t;
  b_self : exists th, threads ch !! t = Some th /\ phase th = PLoop;
  b_seqs : (connSeq ch, readSeq ch, writeSeq ch) = seqs /\ target ch = tgt;
  b_table : registered ch = true /\ once ch <> Over;
  b_end : forall t' th st, threads ch !! t' = Some th -> phase th <> PCloseEnd st;
  b_new : forall t' th, old !! t' = None -> threads ch !! t' = Some th -> behindLock (phase th) = true;
}.

Lemma run_blocked t th x ch ph ch' : mutex ch <> None -> registered ch = true -> once ch <> Over -> (forall st, phase th <> PCloseEnd st) -> run crypto ResolveUDPAddr t th x ch = Some (ph, ch') ->
  phase th <> PLoop /\ mutex ch' = mutex ch /\ (connSeq ch', readSeq ch', writeSeq ch') = (connSeq ch, readSeq ch, writeSeq ch) /\ target ch' = target ch /\
  registered ch' = true /\ once ch' <> Over /\ (forall st, ph <> PCloseEnd st) /\ (behindLock (phase th) = true -> behindLock ph = true).
Proof.
  intros Hm Hr Ho Hend H. destruct (mutex ch) as [u|] eqn:Emu; [|done]. open_run H. rewrite Emu in H. destruct (phase th) eqn:Eph; try done.
  all: repeat (match type of H with context [match ?y with _ => _ end] => destruct y eqn:? end; try discriminate H); try discriminate H; try (injection H as <- <-).
  all: cbn in *; try congruence; try (split_and!; try done; intros; congruence).
  all: try (match goal with E : sendTurn _ _ _ _ = Some _ |- _ => apply sendTurn_cases in E as [?|[? ?] ]; congruence end).
  by rewrite Hr in *.
Qed.

Lemma exec_blocked t old seqs tgt e ch ch' : blocked t old seqs tgt ch -> exec crypto ResolveUDPAddr e ch = Some ch' -> blocked t old seqs tgt ch'.
Proof.
  intros [B1 (th & Ht & Hp) [B3 B3'] [B4 B4'] B5 B6] H.
  assert (Hspawn : forall u th0 ch0 ch1, behindLock (phase th0) = true -> threads ch0 = threads ch -> mutex ch0 = mutex ch -> (connSeq ch0, readSeq ch0, writeSeq ch0) = (connSeq ch, readSeq ch, writeSeq ch) -> target ch0 = target ch ->
    registered ch0 = registered ch -> once ch0 = once ch -> spawn u th0 ch0 = Some ch1 -> blocked t old seqs tgt ch1).
  { intros u th0 ch0 ch1 Hb Et E1 E2 E3 E4 E5 Hs. unfold spawn in Hs. rewrite Et in Hs. destruct (threads ch !! u) eqn:Eu; [done|]. injection Hs as <-.
    assert (Hne : u <> t) by congruence. injection E2 as E2 E2' E2''. split; cbn; rewrite ?E1, ?E2, ?E2', ?E2'', ?E3, ?E4, ?E5; try done.
    - exists th. by rewrite lookup_insert_ne.
    - intros t' th' st. rewrite lookup_insert_Some. intros [ [<- <-] | [_ Hx] ]; [intros E; by rewrite E in Hb|by apply (B5 t')].
    - intros t' th' Ho. rewrite lookup_insert_Some. intros [ [<- <-] | [_ Hx] ]; [done|by apply (B6 t')]. }
  destruct e as [u m s body|u|u|u x]; cbn [exec] in H.
  - by apply (Hspawn u (mkThread m s body PLoad) ch ch').
  - by apply (Hspawn u (mkThread PUT 0 None (PClose 410)) ch ch').
  - destruct (timer ch); [done|by rewrite B1 in H|]. by apply (Hspawn u (mkThread PUT 0 None (PClose 410)) (setTimer TNone ch) ch').
  - destruct (threads ch !! u) as [th0|] eqn:Eu; [|done]. destruct (run crypto ResolveUDPAddr u th0 x ch) as [ [ph ch0] |] eqn:Er; [|done]. injection H as <-.
    pose proof (run_threads _ _ _ _ _ _ _ _ Er) as Et.
    destruct (run_blocked u th0 x ch ph ch0 ltac:(by rewrite B1) B4 B4' (fun st => B5 u th0 st Eu) Er) as (Hnl & E1 & E2 & E3 & E4 & E5 & Hne & Hb).
    assert (Hut : u <> t) by (intros ->; congruence). split; cbn; rewrite ?Et; try congruence.
    + exists th. by rewrite lookup_insert_ne.
    + by rewrite E2, E3.
    + done.
    + intros t' th' st. rewrite lookup_insert_Some. intros [ [<- <-] | [_ Hx] ]; [apply Hne|by apply (B5 t')].
    + intros t' th' Ho. rewrite lookup_insert_Some. intros [ [<- <-] | [_ Hx] ]; [cbn; apply Hb; by apply (B6 u)|by apply (B6 t')].
Qed.

(** A repetition of a request that arrives while the first one is being served blocks
    its channel for good.  It waits for the first one to finish, takes the channel's lock
    and then waits for the lock it holds.  From then on, however the channel goes on, the
    lock is never free, no sequence number moves, the connection to the target stays with
    the channel, the channel never leaves the server's table, and no request that arrives
    is ever answered: neither reads and writes nor a DELETE. *)
Theorem duplicate_blocks ch t th g x ch1 : threads ch !! t = Some th -> phase th = PWait g true -> exec crypto ResolveUDPAddr (Step t x) ch = Some ch1 ->
  registered ch = true -> once ch <> Over -> (forall t' th' st, threads ch !! t' = Some th' -> phase th' <> PCloseEnd st) ->
  forall es ch', execs es ch1 = Some ch' ->
  mutex ch' = Some t /\ (connSeq ch', readSeq ch', writeSeq ch') = (connSeq ch, readSeq ch, writeSeq ch) /\ target ch' = target ch /\ registered ch' = true /\
  (forall t' th', threads ch !! t' = None -> threads ch' !! t' = Some th' -> forall st b, phase th' <> PDone st b).
Proof.
  intros Ht Hp H Hr Ho Hend. assert (Hb : blocked t (threads ch) (connSeq ch, readSeq ch, writeSeq ch) (target ch) ch1).
  { cbn [exec] in H. rewrite Ht in H. open_run H. rewrite Hp in H. destruct (g <? _)%nat; [|done]. destruct (mutex ch) eqn:Em; [done|]. injection H as <-. split; cbn; try done.
    - eexists. by rewrite lookup_insert_eq.
    - intros t' th' st. rewrite lookup_insert_Some. intros [ [<- <-] | [_ Hx] ]; [done|by apply (Hend t')].
    - intros t' th' Hn. rewrite lookup_insert_Some. intros [ [<- <-] | [_ Hx] ]; congruence. }
  clear H. intros es. revert ch1 Hb. induction es as [|e es IH]; intros ch1 Hb ch'; cbn.
  - intros [= <-]. destruct Hb as [B1 _ [B3 B3'] [B4 _] _ B6]. split_and!; try done. intros t' th' Hn Ht' st b E. specialize (B6 t' th' Hn Ht'). by rewrite E in B6.
  - destruct (exec crypto ResolveUDPAddr e ch1) as [ch2|] eqn:E; [|done]. apply (IH ch2). by apply (exec_blocked t _ _ _ e ch1).
Qed.
End Blocked.

(** ** Runs *)

Section Runs.
Variable crypto : HTunnelCrypto.
Variable ResolveUDPAddr : list Z -> Z -> option NetAddr.
Fixpoint sysRun (es : list SysEvent) (c : htunnelConn) (ch : htChannel) : option (htunnelConn * htChannel) :=
  match es with [] => Some (c, ch) | e :: es => match sysExec crypto ResolveUDPAddr e c ch with Some (c, ch) => sysRun es c ch | None => None end end.

Lemma sysRun_reach k p es c ch c' ch' : sysReach crypto ResolveUDPAddr k p c ch -> sysRun es c ch = Some (c', ch') -> sysReach crypto ResolveUDPAddr k p c' ch'.
Proof.
  revert c ch. induction es as [|e es IH]; intros c ch Hr; cbn; [by intros [= <- <-]|]. destruct (sysExec crypto ResolveUDPAddr e c ch) as [ [c0 ch0] |] eqn:E; [|done].
  apply IH. by eapply sysStep.
Qed.
End Runs.

(** A cipher that appends a tag and no base 64, for the examples. *)
Definition plainTag : list Z := replicate 16 0.
Definition tagCipher : HTunnelCrypto := mkCrypto true (fun _ p => p ++ plainTag) (fun _ c => Some (take (length c - 16) c)) (fun b => b) Some.
#[global] Instance tagCipher_laws : CipherLaws tagCipher.
Proof.
  split; cbn; [|intros n p; rewrite len_app; done|done]. intros n p. f_equal. rewrite length_app. cbn [length plainTag replicate]. replace (length p + 16 - 16)%nat with (length p) by lia. apply take_app_length.
Qed.
Definition nobody (name : list Z) (p : Z) : option NetAddr := None.
Definition someNonce : list Z := replicate 24 9.

Definition go (t n : nat) : list SysEvent := replicate n (SServer (Step t CGo)).
(** The channel is opened, two bytes are written, their request arrives twice, one after
    the other, and three bytes come back. *)
Definition session : list SysEvent :=
  [SServer (Arrive 0 HEAD 1 None)] ++ go 0 7 ++
  [SWrite someNonce [104; 105]] ++ [SServer (Arrive 1 POST 1 (Some (SealBody tagCipher someNonce [104; 105])))] ++ go 1 7 ++
  [SServer (Arrive 2 POST 1 (Some (SealBody tagCipher someNonce [104; 105])))] ++ go 2 3 ++ [SWriteEnd 2] ++
  [SReadStart; SServer (Arrive 3 GET 1 None)] ++ go 3 4 ++ [SServer (Step 3 (CRead (RData [1; 2; 3]))); SServer (Step 3 (CNonce someNonce)); SReadEnd 3 2].

Definition sessionEnd : htunnelConn * htChannel := default (newConn, newChannel KConn 80) (sysRun tagCipher nobody session newConn (newChannel KConn 80)).

Lemma sessionEnd_run : sysRun tagCipher nobody session newConn (newChannel KConn 80) = Some sessionEnd.
Proof. vm_compute. reflexivity. Qed.

Lemma htunnel_streams_witness : let c := fst sessionEnd in let ch := snd sessionEnd in
  delivered ch = [(1, [104; 105])] /\ (exists b, bodyAt c 1 = Some b /\ (b = [] \/ (1, b) ∈ delivered ch)) /\
  exists rest, app_ c ++ readBuf c ++ rest = [1; 2; 3] /\ app_ c = [1; 2].
Proof.
  intros c ch. assert (Hr : sysReach tagCipher nobody KConn 80 c ch).
  { apply (sysRun_reach tagCipher nobody KConn 80 session newConn (newChannel KConn 80)); [apply sysNew|]. unfold c, ch. rewrite sessionEnd_run. by destruct sessionEnd. }
  assert (Ed : delivered ch = [(1, [104; 105])]) by (vm_compute; reflexivity). assert (Ea : acked c = [1]) by (vm_compute; reflexivity).
  assert (Ef : concat (map snd (fetched ch)) = [1; 2; 3]) by (vm_compute; reflexivity). assert (Er : readFailed c = false /\ app_ c = [1; 2]) by (split; vm_compute; reflexivity).
  clearbody c ch. destruct (htunnel_streams tagCipher nobody KConn 80 c ch Hr) as (_ & _ & H3 & H4). destruct Er as [Er Eapp]. split_and!; [exact Ed| |].
  - apply (H3 1). rewrite Ea. apply list_elem_of_here.
  - destruct (H4 Er) as (rest & E & _). exists rest. rewrite Ef in E. split; [exact E|exact Eapp].
Defined.

(** Two copies of a GET, the second arriving while the first waits for data. *)
Definition twoGets : list Event :=
  [Arrive 0 HEAD 1 None] ++ replicate 7 (Step 0 CGo) ++ [Arrive 1 GET 1 None] ++ replicate 4 (Step 1 CGo) ++ [Arrive 2 GET 1 None] ++ replicate 3 (Step 2 CGo) ++
  [Step 1 (CRead (RData [7])); Step 1 (CNonce someNonce)].
Definition twoGetsEnd : htChannel := default (newChannel KConn 80) (execs tagCipher nobody twoGets (newChannel KConn 80)).

Lemma duplicate_blocks_witness : exists ch1, exec tagCipher nobody (Step 2 CGo) twoGetsEnd = Some ch1 /\
  forall es ch', execs tagCipher nobody es ch1 = Some ch' -> mutex ch' = Some 2%nat /\ registered ch' = true.
Proof.
  eexists. split; [vm_compute; reflexivity|]. intros es ch' H.
  assert (Hend : forall t' th' st, threads twoGetsEnd !! t' = Some th' -> phase th' <> PCloseEnd st).
  { intros t' th' st Ht E. assert (Hall : Forall (fun x => match phase (snd x) with PCloseEnd _ => False | _ => True end) (map_to_list (threads twoGetsEnd))) by (vm_compute; repeat constructor).
    rewrite Forall_forall in Hall. specialize (Hall (t', th') ltac:(by apply elem_of_map_to_list)). cbn in Hall. by rewrite E in Hall. }
  destruct (duplicate_blocks tagCipher nobody twoGetsEnd 2 (mkThread GET 1 None (PWait 0 true)) 0 CGo _ eq_refl eq_refl ltac:(vm_compute; reflexivity) eq_refl ltac:(vm_compute; discriminate) Hend es ch' H) as (H1 & _ & _ & H2 & _).
  done.
Defined.

(** The channel is closed while its connection to the target is being made: the
    connection is made, nobody will close it, and the channel is gone. *)
Example dial_outlives_channel : exists ch, execs tagCipher nobody ([Arrive 0 HEAD 1 None] ++ replicate 4 (Step 0 CGo) ++ [Delete 1] ++ replicate 3 (Step 1 CGo) ++ replicate 3 (Step 0 CGo)) (newChannel KConn 80) = Some ch /\
  registered ch = false /\ targetOpen ch = true /\ timer ch = TNone /\
  (phase <$> threads ch !! 0%nat) = Some (PDone 200 []) /\ (phase <$> threads ch !! 1%nat) = Some (PDone 410 []).
Proof. eexists. split; [vm_compute; reflexivity|]. done. Qed.

(** A reverse request for a port that is refused is answered with success, and the next
    step of the connection waits for an operation that nobody leads. *)
Example refused_bind_waits : exists ch, execs tagCipher nobody ([Arrive 0 HEAD 1 None] ++ replicate 4 (Step 0 CGo) ++ [Arrive 1 HEAD 2 None] ++ replicate 3 (Step 1 CGo)) (newChannel KBind 7) = Some ch /\
  (phase <$> threads ch !! 0%nat) = Some (PDone 200 []) /\ (phase <$> threads ch !! 1%nat) = Some (PWait 0 false) /\
  forall x, exec tagCipher nobody (Step 1 x) ch = None.
Proof. eexists. split; [vm_compute; reflexivity|]. split_and!; [reflexivity|reflexivity|]. intros x. vm_compute. reflexivity. Qed.

(** A datagram without data: the server answers as if the tunnel were closed. *)
Example empty_datagram_closes : exists ch, execs (mkCrypto false (fun _ p => p) (fun _ c => Some c) (fun b => b) Some) nobody
    ([Arrive 0 POST 1 (Some [1; 10; 0; 0; 1; 0; 53])] ++ replicate 5 (Step 0 CGo) ++ [Step 0 CFail; Step 0 CGo]) (newChannel KUdp 0) = Some ch /\
  (phase <$> threads ch !! 0%nat) = Some (PDone 410 []).
Proof. eexists. split; [vm_compute; reflexivity|]. done. Qed.

(** ** Opening a channel *)

Module Opening.

(** The headers of the first HEAD request, as the dialer sets them. *)
Record Headers := mkHeaders { hHost : list Z; hPort : list Z; hCommand : string }.

Definition requestHeaders (crypto : HTunnelCrypto) (n1 n2 : list Z) (cmd : string) (dstAddr dstPort : list Z) : Headers :=
  mkHeaders (SealHeader crypto n1 dstAddr) (SealHeader crypto n2 dstPort) cmd.

(** The number that strconv.Atoi returns, its error ignored: the nearest one when the digits
    are out of range, 0 when they are not digits. *)
Definition atoiValue (s : string) : Z :=
  match Atoi s with
  | Some v => v
  | None =>
      let '(neg, t) := match s with String "-"%char t => (true, t) | String "+"%char t => (false, t) | _ => (false, s) end in
      match t with
      | EmptyString => 0
      | _ => match parseDigits t 0 with Some _ => if neg : bool then - 2 ^ 63 else 2 ^ 63 - 1 | None => 0 end
      end
  end.

(** handleConnectionRequest: the channel's kind, address and port; [None] is status 400. *)
Definition handleConnectionRequest (crypto : HTunnelCrypto) (h : Headers) : option (Kind * list Z * Z) :=
  if (len (hHost h) =? 0) || (len (hPort h) =? 0) then None
  else match OpenHeader crypto (hHost h), OpenHeader crypto (hPort h) with
       | Some dstHost, Some dstPort =>
           Some (if String.eqb (hCommand h) "BIND" then KBind else if String.eqb (hCommand h) "UDP" then KUdp else KConn,
                 dstHost, atoiValue (textOf dstPort))
       | _, _ => None
       end.

(** The server: the channels by their numbers. *)
Record HTunnelServer := mkServer { idGen : Z; channels : gmap Z (list Z * htChannel) }.

Definition openChannel (crypto : HTunnelCrypto) (h : Headers) (s : HTunnelServer) : option (Z * HTunnelServer) :=
  match handleConnectionRequest crypto h with
  | None => None
  | Some (k, host, p) => let id := idGen s + 1 in Some (id, mkServer id (<[id := (host, newChannel k p)]> (channels s)))
  end.

Definition fresh (s : HTunnelServer) : Prop := forall id, is_Some (channels s !! id) -> id <= idGen s.

(** A dialer's request opens a channel to what it asked for, under a number that no other
    channel has, and leaves the others alone. *)
Lemma open_exact crypto n1 n2 cmd host p s : CipherLaws crypto -> len n1 = htNonceSize -> len n2 = htNonceSize -> fresh s ->
  (len (SealHeader crypto n1 host) =? 0) = false -> (len (SealHeader crypto n2 p) =? 0) = false ->
  let k := if String.eqb cmd "BIND" then KBind else if String.eqb cmd "UDP" then KUdp else KConn in
  exists id s', openChannel crypto (requestHeaders crypto n1 n2 cmd host p) s = Some (id, s') /\ channels s !! id = None /\
    channels s' = <[id := (host, newChannel k (atoiValue (textOf p)))]> (channels s) /\ fresh s'.
Proof.
  intros Hl H1 H2 Hf E1 E2 k. unfold openChannel, handleConnectionRequest, requestHeaders. cbn [hHost hPort hCommand]. rewrite E1, E2. cbn [orb]. rewrite !OpenHeader_SealHeader by done.
  eexists _, _. split; [reflexivity|]. cbn. split_and!; [|done|].
  - destruct (channels s !! (idGen s + 1)) eqn:E; [|done]. specialize (Hf (idGen s + 1) ltac:(by rewrite E)). lia.
  - intros id [x Hx]. cbn in Hx. apply lookup_insert_Some in Hx as [ [<- _] | [_ Hx] ]; cbn; [lia|]. specialize (Hf id ltac:(by eexists)). lia.
Qed.
End Opening.

(** ** The bridge to reverse connections *)

Module Bridge.

(** htunnelServerConn: what the reverse side wrote and has not been fetched, what was posted
    and has not been read.  Locks and wake-ups order the operations below. *)
Record htunnelServerConn := mkBridge { txBuf : list Z; rxBuf : list Z; bClosed : bool }.
Definition newHTunnelServerConn : htunnelServerConn := mkBridge [] [] false.

(** Read into a buffer of [n] bytes: the bytes, the end, or a wait. *)
Inductive ReadOut := Bytes_ (b : list Z) | Eof | Waits.
Definition bRead (n : nat) (c : htunnelServerConn) : ReadOut * htunnelServerConn :=
  match rxBuf c with
  | [] => (if bClosed c then Eof else Waits, c)
  | b => (Bytes_ (take n b), mkBridge (txBuf c) (drop n b) (bClosed c))
  end.
Definition bWrite (b : list Z) (c : htunnelServerConn) : bool * htunnelServerConn :=
  if bClosed c then (false, c) else (true, mkBridge (txBuf c ++ b) (rxBuf c) (bClosed c)).
Definition onGet (c : htunnelServerConn) : option (list Z) * htunnelServerConn :=
  if bClosed c then (None, c) else (Some (txBuf c), mkBridge [] (rxBuf c) (bClosed c)).
Definition onPost (data : list Z) (c : htunnelServerConn) : htunnelServerConn := mkBridge (txBuf c) (rxBuf c ++ data) (bClosed c).
Definition bClose (c : htunnelServerConn) : htunnelServerConn := mkBridge (txBuf c) (rxBuf c) true.

(** waitForTx as a loop: the wake-ups are the writes that happen meanwhile; [None] at the
    end is the timer. *)
Fixpoint waitForTx (wakes : list (option (list Z))) (c : htunnelServerConn) : option (list Z) * htunnelServerConn :=
  match onGet c with
  | (None, c) => (None, c)
  | (Some [], c) =>
      match wakes with
      | [] | None :: _ => (Some [], c)
      | Some b :: wakes => waitForTx wakes (snd (bWrite b c))
      end
  | (Some data, c) => (Some data, c)
  end.

(** readSource on the bridge. *)
Definition readBridge (wakes : list (option (list Z))) (c : htunnelServerConn) : ReadResult * htunnelServerConn :=
  match onGet c with
  | (None, c) => (REOF, c)
  | (Some [], c) =>
      match waitForTx wakes c with
      | (None, c) => (REOF, c)
      | (Some [], c) => (RTimeout, c)
      | (Some data, c) => (RData data, c)
      end
  | (Some data, c) => (RData data, c)
  end.

Inductive BridgeOp := OWrite (b : list Z) | ORead (n : nat) | OPost (b : list Z) | OGet (wakes : list (option (list Z))) | OClose.

(** The operations with their logs: written and fetched, posted and read. *)
Record Logs := mkLogs { written : list Z; fetchedB : list Z; posted : list Z; readB : list Z }.

Definition wokenBytes (wakes : list (option (list Z))) (c : htunnelServerConn) : list Z :=
  if bClosed c then [] else (fix go (ws : list (option (list Z))) := match ws with Some [] :: ws => go ws | Some b :: _ => b | _ => [] end) (match txBuf c with [] => wakes | _ => [] end).

Definition bridgeStep (op : BridgeOp) (cl : htunnelServerConn * Logs) : htunnelServerConn * Logs :=
  let '(c, l) := cl in
  match op with
  | OWrite b => let '(ok, c') := bWrite b c in (c', if ok then mkLogs (written l ++ b) (fetchedB l) (posted l) (readB l) else l)
  | ORead n => match bRead n c with (Bytes_ b, c') => (c', mkLogs (written l) (fetchedB l) (posted l) (readB l ++ b)) | (_, c') => (c', l) end
  | OPost b => (onPost b c, mkLogs (written l) (fetchedB l) (posted l ++ b) (readB l))
  | OGet wakes =>
      let '(r, c') := readBridge wakes c in
      (c', mkLogs (written l ++ wokenBytes wakes c) (fetchedB l ++ match r with RData d => d | _ => [] end) (posted l) (readB l))
  | OClose => (bClose c, l)
  end.

Definition bridgeOk (cl : htunnelServerConn * Logs) : Prop :=
  fetchedB (snd cl) ++ txBuf (fst cl) = written (snd cl) /\ readB (snd cl) ++ rxBuf (fst cl) = posted (snd cl).

Lemma waitForTx_spec wakes c : bClosed c = false -> txBuf c = [] ->
  exists d, waitForTx wakes c = (Some d, mkBridge [] (rxBuf c) false) /\ d = wokenBytes wakes c.
Proof.
  destruct c as [tx rx cl]. cbn. intros -> ->. unfold wokenBytes. cbn [bClosed txBuf]. induction wakes as [|w wakes IH]; [by exists []|]. destruct w as [b|]; [|by exists []].
  cbn. destruct b as [|x b]; [exact IH|]. exists (x :: b). destruct wakes; done.
Qed.

(** The bridge is two streams: what is fetched is what was written and what is read is what
    was posted, in order and without loss, up to what is still buffered. *)
Lemma bridge_streams ops cl : bridgeOk cl -> bridgeOk (fold_left (fun cl op => bridgeStep op cl) ops cl).
Proof.
  revert cl. induction ops as [|op ops IH]; intros cl H; [done|]. cbn. apply IH. destruct cl as [c l]. destruct H as [H1 H2]. cbn in H1, H2. destruct op as [b|n|b|wakes|]; unfold bridgeOk; cbn.
  - unfold bWrite. destruct (bClosed c); cbn; [done|]. by rewrite app_assoc, H1.
  - unfold bRead. destruct (rxBuf c) as [|x b] eqn:E; cbn; [destruct (bClosed c); cbn; by rewrite E|]. split; [done|]. by rewrite <- H2, <- app_assoc, take_drop.
  - split; [done|]. by rewrite app_assoc, H2.
  - unfold readBridge, onGet. destruct (bClosed c) eqn:Ec; cbn.
    + unfold wokenBytes. rewrite Ec. by rewrite !app_nil_r.
    + destruct (txBuf c) as [|x b] eqn:Et.
      * destruct (waitForTx_spec wakes (mkBridge [] (rxBuf c) false) eq_refl eq_refl) as (d & -> & Ed). unfold wokenBytes. rewrite Ec, Et. unfold wokenBytes in Ed. cbn in Ed. rewrite <- Ed.
        rewrite app_nil_r in H1. destruct d; cbn; rewrite ?app_nil_r, ?H1; done.
      * cbn. unfold wokenBytes. rewrite Ec, Et, !app_nil_r. by rewrite H1.
  - done.
Qed.
End Bridge.

(** ** Replies to datagrams *)

Module Replies.
Definition maxUDPReplies : nat := 256.
(** proxyReadLoop files a reply and readUDPSource takes one. *)
Definition fileReply (packet : list Z) (q : list (list Z)) : list (list Z) :=
  (if (maxUDPReplies <=? length q)%nat then drop 1 q else q) ++ [packet].
Definition takeReply (q : list (list Z)) : option (list Z) * list (list Z) := match q with [] => (None, []) | p :: q => (Some p, q) end.

(** The queue holds the latest replies not yet taken, at most 256, in order. *)
Lemma replies_latest packets q : (length q <= maxUDPReplies)%nat ->
  let q' := fold_left (fun q p => fileReply p q) packets q in
  (length q' <= maxUDPReplies)%nat /\ q' = drop (length q + length packets - maxUDPReplies) (q ++ packets).
Proof.
  revert q. induction packets as [|p ps IH]; intros q Hq; cbn [fold_left length].
  - split; [done|]. rewrite app_nil_r, Nat.add_0_r. replace (length q - maxUDPReplies)%nat with 0%nat by lia. done.
  - assert (Hf : (length (fileReply p q) <= maxUDPReplies)%nat /\ fileReply p q = drop (length q + 1 - maxUDPReplies) (q ++ [p])).
    { unfold fileReply. destruct (Nat.leb_spec maxUDPReplies (length q)) as [Hle|Hgt]; rewrite ?length_app, ?length_drop; cbn [length]; (split; [unfold maxUDPReplies in *; lia|]).
      - assert (length q = maxUDPReplies) by lia. replace (length q + 1 - maxUDPReplies)%nat with 1%nat by lia. rewrite drop_app_le by (unfold maxUDPReplies in *; lia). done.
      - by replace (length q + 1 - maxUDPReplies)%nat with 0%nat by lia. }
    destruct Hf as [Hlen Hf]. destruct (IH _ Hlen) as [H1 H2]. split; [done|]. rewrite H2, Hf. replace (q ++ p :: ps) with ((q ++ [p]) ++ ps) by (by rewrite <- app_assoc).
    assert (Hb : (length q + 1 - maxUDPReplies <= length (q ++ [p]))%nat) by (rewrite length_app; cbn [length]; lia).
    rewrite <- (drop_app_le (q ++ [p]) ps) by done. rewrite drop_drop. f_equal. rewrite length_drop, length_app. cbn [length]. lia.
Qed.
End Replies.
