(* ===== verification/HTunnelMesh.v ===== *)
(** HTunnelMesh: frames over the HTTP tunnel.  src/server/htunnel_mesh.go keeps the frames
    for a client in queues and hands them, in batches, to the GET requests that wait for
    them, under CoDel (RFC 8289); src/dialer/htunnel_direct.go is the client.

    The dispatcher is one goroutine.  A step is one turn of its loop, with the frames that
    are in its channels at that moment, one send, or one move of the handler of a GET.  The
    clock is read once per frame and once per batch; its values are arguments. *)

From Stdlib Require Import ZArith Lia SpecFloat.
From stdpp Require Import base gmap list numbers sorting.
From S2P Require Import Prelude Frame GoFloat HTunnel.
Open Scope Z_scope.

(** ** CoDel *)

Definition codelTarget : Z := 50 * 10 ^ 6.
Definition codelInterval : Z := 300 * 10 ^ 6.

Record codel := mkCodel { firstAbove : Z; dropNext : Z; count : Z; lastCount : Z; dropping : bool }.
Definition newCodel : codel := mkCodel 0 0 0 0 false.

Definition codelControlLaw (t count : Z) : Z := t + ftrunc (fdiv (f64 codelInterval) (SFsqrt 53 1024 (f64 count))).

Definition setFirst (f : Z) (c : codel) : codel := mkCodel f (dropNext c) (count c) (lastCount c) (dropping c).

Definition okToDrop (c : codel) (sojourn now backlog : Z) : bool * codel :=
  if (sojourn <? codelTarget) || (backlog <? 2) then (false, setFirst 0 c)
  else if firstAbove c =? 0 then (false, setFirst (now + codelInterval) c)
  else (firstAbove c <=? now, c).

Definition shouldDrop (c : codel) (sojourn now backlog : Z) : bool * codel :=
  let '(ok, c) := okToDrop c sojourn now backlog in
  if dropping c then
    if negb ok then (false, mkCodel (firstAbove c) (dropNext c) (count c) (lastCount c) false)
    else if dropNext c <=? now then
      let n := count c + 1 in (true, mkCodel (firstAbove c) (codelControlLaw (dropNext c) n) n (lastCount c) true)
    else (false, c)
  else if negb ok then (false, c)
  else
    let delta := count c - lastCount c in
    let n := if (1 <? delta) && (now - dropNext c <? 16 * codelInterval) then delta else 1 in
    (true, mkCodel (firstAbove c) (codelControlLaw now n) n n true).

(** Runs of a queue: one entry per frame taken, with its waiting time, the time and the
    frames behind it. *)
Definition codelRun (c : codel) (h : list (Z * Z * Z)) : codel := fold_left (fun c e => snd (shouldDrop c e.1.1 e.1.2 e.2)) h c.

(** A frame that waited too long and has others behind it. *)
Definition above (e : Z * Z * Z) : Prop := codelTarget <= e.1.1 /\ 2 <= e.2.

Lemma shouldDrop_first c s now b : let '(d, c') := shouldDrop c s now b in
  firstAbove c' = (if (s <? codelTarget) || (b <? 2) then 0 else if firstAbove c =? 0 then now + codelInterval else firstAbove c) /\
  (d = true -> (s <? codelTarget) || (b <? 2) = false /\ firstAbove c <> 0 /\ firstAbove c <= now).
Proof.
  unfold shouldDrop, okToDrop. destruct ((s <? codelTarget) || (b <? 2)); [cbn; destruct (dropping c); done|].
  destruct (Z.eqb_spec (firstAbove c) 0); [cbn; destruct (dropping c); done|]. cbn. destruct (Z.leb_spec (firstAbove c) now), (dropping c); cbn; try done; destruct (dropNext c <=? now); done.
Qed.

(** What [firstAbove] remembers: 0, or the time, an interval ago, since when every frame
    taken was above. *)
Lemma codelRun_first h : (forall e, e ∈ h -> 0 <= e.1.2) ->
  let f := firstAbove (codelRun newCodel h) in
  f = 0 \/ exists h1 e h2, h = h1 ++ e :: h2 /\ f = e.1.2 + codelInterval /\ Forall above (e :: h2).
Proof.
  induction h as [|e h IH] using rev_ind; [by left|]. intros Ht. cbv zeta. unfold codelRun. rewrite fold_left_app. cbn [fold_left]. fold (codelRun newCodel h).
  assert (IH' := IH ltac:(intros x Hx; apply Ht; by apply elem_of_app; left)). cbv zeta in IH'. set (c := codelRun newCodel h) in *. destruct e as [ [s now] b]. cbn [fst snd].
  pose proof (shouldDrop_first c s now b) as Hs. destruct (shouldDrop c s now b) as [d c']. cbn [snd]. destruct Hs as [-> _].
  destruct ((s <? codelTarget) || (b <? 2)) eqn:E; [by left|]. apply orb_false_iff in E as [E1%Z.ltb_ge E2%Z.ltb_ge].
  right. destruct (Z.eqb_spec (firstAbove c) 0) as [E0|Hne].
  - exists h, (s, now, b), []. split_and!; try done. repeat constructor; done.
  - destruct IH' as [?|(h1 & e & h2 & -> & Hf & Habove)]; [done|]. exists h1, e, (h2 ++ [(s, now, b)]). split_and!; [by rewrite <- app_assoc|done|].
    rewrite app_comm_cons. apply Forall_app. split; [done|]. repeat constructor; done.
Qed.

(** A frame is dropped only when for a whole interval every frame taken from the queue had
    waited longer than the target with two frames or more behind it, as it has itself. *)
Lemma codel_interval h s now b : (forall e, e ∈ h -> 0 <= e.1.2) -> fst (shouldDrop (codelRun newCodel h) s now b) = true ->
  above (s, now, b) /\ exists h1 e h2, h = h1 ++ e :: h2 /\ Forall above (e :: h2) /\ codelInterval <= now - e.1.2.
Proof.
  intros Ht Hd. pose proof (shouldDrop_first (codelRun newCodel h) s now b) as Hs. destruct (shouldDrop _ s now b) as [d c']. cbn in Hd. subst d. destruct Hs as [_ Hs]. destruct (Hs eq_refl) as (E & Hne & Hle).
  apply orb_false_iff in E as [E1%Z.ltb_ge E2%Z.ltb_ge]. split; [done|]. destruct (codelRun_first h Ht) as [?|(h1 & e & h2 & Eh & Hf & Ha)]; [done|]. exists h1, e, h2. split_and!; [done|done|lia].
Qed.

(** ** Queues and batches *)

Record meshMsg := mkMsg { frameType : Z; payload : list Z; control : bool; enq : Z }.
Definition wireSize (m : meshMsg) : Z := 3 + len (payload m).
Fixpoint wireSizes (ms : list meshMsg) : Z := match ms with [] => 0 | m :: ms => wireSize m + wireSizes ms end.

Definition htMeshMaxQueuedBytes : Z := Z.shiftl 8 20.
Definition htMeshQueueLen : Z := 4096.
Definition htMeshCtrlQueueLen : Z := 256.
Definition getWaitersLen : Z := 64.

Definition fits (limit : Z) (batch : list meshMsg) (size : Z) (m : meshMsg) : bool := negb (negb (len batch =? 0) && (limit <? size + wireSize m)).

Fixpoint takeFrames (limit : Z) (batch : list meshMsg) (size : Z) (q : list meshMsg) : list meshMsg * Z * list meshMsg :=
  match q with
  | [] => (batch, size, [])
  | m :: q' => if fits limit batch size m then takeFrames limit (batch ++ [m]) (size + wireSize m) q' else (batch, size, q)
  end.

(** takeData also gives what left the queue, each frame with whether it was delivered. *)
Fixpoint takeData (limit now : Z) (batch : list meshMsg) (size : Z) (cd : codel) (q : list meshMsg) : list meshMsg * codel * list meshMsg * list (bool * meshMsg) :=
  match q with
  | [] => (batch, cd, [], [])
  | m :: q' =>
      if fits limit batch size m then
        let '(drop, cd) := shouldDrop cd (now - enq m) now (len q') in
        if drop && (frameType m =? FrameMeshPacket)
        then let '(b, c, r, l) := takeData limit now batch size cd q' in (b, c, r, (false, m) :: l)
        else let '(b, c, r, l) := takeData limit now (batch ++ [m]) (size + wireSize m) cd q' in (b, c, r, (true, m) :: l)
      else (batch, cd, q, [])
  end.

(** The channel of a mesh client: the two Go channels the session sends into, the queues,
    the GET requests that wait, in order, and those in the channel to the dispatcher; the
    requests whose handler has given up, and the batch that each was handed.  [sent],
    [left_] and [served] are logs: what was sent, what left the data queue, and what the
    control queue gave. *)
Record Mesh := mkMesh {
  meshCtrlOut : list meshMsg; meshOut : list meshMsg; getWaiters : list nat;
  ctrlQ : list meshMsg; dataQ : list meshMsg; dataBytes : Z; dataCodel : codel; codelDrops : Z;
  waiters : list nat; abandoned : gset nat; handed : gmap nat (list meshMsg); mclosed : bool;
  sentCtrl : list meshMsg; sentData : list meshMsg; left_ : list (bool * meshMsg); served : list meshMsg;
  batches : list (nat * list meshMsg); answers : list (nat * list meshMsg); known : gset nat }.

Definition newMesh : Mesh := mkMesh [] [] [] [] [] 0 newCodel 0 [] ∅ ∅ false [] [] [] [] [] [] ∅.

(** routeFrameLocked at time [now]. *)
Definition stamp (now : Z) (m : meshMsg) : meshMsg := mkMsg (frameType m) (payload m) (control m) now.
Definition routeFrameLocked (now : Z) (m : meshMsg) (s : Mesh) : Mesh :=
  if control m then mkMesh (meshCtrlOut s) (meshOut s) (getWaiters s) (ctrlQ s ++ [m]) (dataQ s) (dataBytes s) (dataCodel s) (codelDrops s) (waiters s) (abandoned s) (handed s) (mclosed s) (sentCtrl s) (sentData s) (left_ s) (served s) (batches s) (answers s) (known s)
  else mkMesh (meshCtrlOut s) (meshOut s) (getWaiters s) (ctrlQ s) (dataQ s ++ [stamp now m]) (dataBytes s + wireSize m) (dataCodel s) (codelDrops s) (waiters s) (abandoned s) (handed s) (mclosed s) (sentCtrl s) (sentData s) (left_ s) (served s) (batches s) (answers s) (known s).

Definition setCtrlOut q s := mkMesh q (meshOut s) (getWaiters s) (ctrlQ s) (dataQ s) (dataBytes s) (dataCodel s) (codelDrops s) (waiters s) (abandoned s) (handed s) (mclosed s) (sentCtrl s) (sentData s) (left_ s) (served s) (batches s) (answers s) (known s).
Definition setOut q s := mkMesh (meshCtrlOut s) q (getWaiters s) (ctrlQ s) (dataQ s) (dataBytes s) (dataCodel s) (codelDrops s) (waiters s) (abandoned s) (handed s) (mclosed s) (sentCtrl s) (sentData s) (left_ s) (served s) (batches s) (answers s) (known s).
Definition setWaiters ws g s := mkMesh (meshCtrlOut s) (meshOut s) g (ctrlQ s) (dataQ s) (dataBytes s) (dataCodel s) (codelDrops s) ws (abandoned s) (handed s) (mclosed s) (sentCtrl s) (sentData s) (left_ s) (served s) (batches s) (answers s) (known s).

(** drainLocked; [clock] gives the time of each routing. *)
Fixpoint drainCtrl (clock : nat -> Z) (q : list meshMsg) (s : Mesh) : Mesh :=
  match q with [] => setCtrlOut [] s | m :: q => drainCtrl (fun i => clock (S i)) q (routeFrameLocked (clock 0%nat) m s) end.
Fixpoint drainData (clock : nat -> Z) (q : list meshMsg) (s : Mesh) : Mesh :=
  match q with
  | [] => setOut [] s
  | m :: q' => if dataBytes s <? htMeshMaxQueuedBytes then drainData (fun i => clock (S i)) q' (routeFrameLocked (clock 0%nat) m s) else setOut q s
  end.
Definition drainLocked (clock : nat -> Z) (s : Mesh) : Mesh :=
  let n := length (meshCtrlOut s) in
  let s := drainCtrl clock (meshCtrlOut s) s in
  drainData (fun i => clock (n + i)%nat) (meshOut s) s.

Fixpoint pruneStale (stale : gset nat) (ws : list nat) : list nat :=
  match ws with [] => [] | w :: ws' => if decide (w ∈ stale) then pruneStale stale ws' else ws end.

(** buildBatchLocked and the hand-over to waiter [w]. *)
Definition buildBatchLocked (limit now : Z) (w : nat) (s : Mesh) : Mesh :=
  let '(b1, size, ctrlQ') := takeFrames limit [] 0 (ctrlQ s) in
  let '(b, cd, dataQ', gone) := takeData limit now b1 size (dataCodel s) (dataQ s) in
  mkMesh (meshCtrlOut s) (meshOut s) (getWaiters s) ctrlQ' dataQ' (dataBytes s - wireSizes (map snd gone)) cd
    (codelDrops s + len (List.filter (fun e => negb (fst e)) gone)) (waiters s) (abandoned s) (<[w := b]> (handed s)) (mclosed s)
    (sentCtrl s) (sentData s) (left_ s ++ gone) (served s ++ b1) (batches s ++ [(w, b)]) (answers s) (known s).

Fixpoint flushLoop (limit : Z) (clock : nat -> Z) (ws : list nat) (s : Mesh) : Mesh :=
  match ws with
  | [] => setWaiters [] (getWaiters s) s
  | w :: ws' =>
      match ctrlQ s, dataQ s with
      | [], [] => setWaiters ws (getWaiters s) s
      | _, _ =>
          let s := setWaiters ws' (getWaiters s) s in
          if decide (w ∈ abandoned s) then flushLoop limit clock ws' s
          else flushLoop limit (fun i => clock (S i)) ws' (buildBatchLocked limit (clock 0%nat) w s)
      end
  end.
Definition flushLocked (limit : Z) (clock : nat -> Z) (s : Mesh) : Mesh := flushLoop limit clock (pruneStale (abandoned s) (waiters s)) s.

Definition addWaiterLocked (w : nat) (s : Mesh) : Mesh := setWaiters (pruneStale (abandoned s) (waiters s) ++ [w]) (getWaiters s) s.

(** ** Steps *)

(** A frame is sent, a GET registers, a turn of the dispatcher for a control frame, for a
    data frame or for the waiting requests, a handler takes its batch or gives up,
    or ends without one because the channel is closed, the channel is closed. *)
Inductive MeshEvent :=
| MSend (m : meshMsg) | MGet (w : nat)
| MCtrl (route build : nat -> Z) | MData (route build : nat -> Z) | MWaiters (build : nat -> Z)
| MTake (w : nat) | MAbandon (w : nat) | MDiscard (w : nat) | MClose.

Section Dispatch.
Variable limit : Z.

Definition answer (w : nat) (gaveUp : bool) (s : Mesh) : Mesh :=
  let s := mkMesh (meshCtrlOut s) (meshOut s) (getWaiters s) (ctrlQ s) (dataQ s) (dataBytes s) (dataCodel s) (codelDrops s) (waiters s)
             (if gaveUp then {[w]} ∪ abandoned s else abandoned s) (handed s) (mclosed s) (sentCtrl s) (sentData s) (left_ s) (served s) (batches s) (answers s) (known s) in
  match handed s !! w with
  | None => s
  | Some b => mkMesh (meshCtrlOut s) (meshOut s) (getWaiters s) (ctrlQ s) (dataQ s) (dataBytes s) (dataCodel s) (codelDrops s) (waiters s)
                (abandoned s) (delete w (handed s)) (mclosed s) (sentCtrl s) (sentData s) (left_ s) (served s) (batches s) (answers s ++ [(w, b)]) (known s)
  end.

Definition meshExec (e : MeshEvent) (s : Mesh) : option Mesh :=
  match e with
  | MSend m =>
      if mclosed s then None
      else if control m then
        if len (meshCtrlOut s) <? htMeshCtrlQueueLen then
          Some (mkMesh (meshCtrlOut s ++ [m]) (meshOut s) (getWaiters s) (ctrlQ s) (dataQ s) (dataBytes s) (dataCodel s) (codelDrops s) (waiters s) (abandoned s) (handed s) (mclosed s) (sentCtrl s ++ [m]) (sentData s) (left_ s) (served s) (batches s) (answers s) (known s))
        else None
      else if len (meshOut s) <? htMeshQueueLen then
          Some (mkMesh (meshCtrlOut s) (meshOut s ++ [m]) (getWaiters s) (ctrlQ s) (dataQ s) (dataBytes s) (dataCodel s) (codelDrops s) (waiters s) (abandoned s) (handed s) (mclosed s) (sentCtrl s) (sentData s ++ [m]) (left_ s) (served s) (batches s) (answers s) (known s))
        else None
  | MGet w =>
      if mclosed s || bool_decide (w ∈ known s) || negb (len (getWaiters s) <? getWaitersLen) then None
      else Some (mkMesh (meshCtrlOut s) (meshOut s) (getWaiters s ++ [w]) (ctrlQ s) (dataQ s) (dataBytes s) (dataCodel s) (codelDrops s) (waiters s) (abandoned s) (handed s) (mclosed s) (sentCtrl s) (sentData s) (left_ s) (served s) (batches s) (answers s) ({[w]} ∪ known s))
  | MCtrl route build =>
      match meshCtrlOut s with
      | [] => None
      | m :: q => Some (flushLocked limit build (drainLocked (fun i => route (S i)) (routeFrameLocked (route 0%nat) m (setCtrlOut q s))))
      end
  | MData route build =>
      if htMeshMaxQueuedBytes <=? dataBytes s then None
      else match meshOut s with
           | [] => None
           | m :: q => Some (flushLocked limit build (drainLocked (fun i => route (S i)) (routeFrameLocked (route 0%nat) m (setOut q s))))
           end
  | MWaiters build =>
      match getWaiters s with
      | [] => None
      | ws => Some (flushLocked limit build (fold_left (fun s w => addWaiterLocked w s) ws (setWaiters (waiters s) [] s)))
      end
  | MTake w => match handed s !! w with None => None | Some _ => Some (answer w false s) end
  | MAbandon w => if decide (w ∈ known s /\ ~ (w ∈ abandoned s)) then Some (answer w true s) else None
  | MDiscard w =>
      if mclosed s then Some (mkMesh (meshCtrlOut s) (meshOut s) (getWaiters s) (ctrlQ s) (dataQ s) (dataBytes s) (dataCodel s) (codelDrops s) (waiters s) ({[w]} ∪ abandoned s) (delete w (handed s)) (mclosed s) (sentCtrl s) (sentData s) (left_ s) (served s) (batches s) (answers s) (known s))
      else None
  | MClose => Some (mkMesh (meshCtrlOut s) (meshOut s) (getWaiters s) (ctrlQ s) (dataQ s) (dataBytes s) (dataCodel s) (codelDrops s) (waiters s) (abandoned s) (handed s) true (sentCtrl s) (sentData s) (left_ s) (served s) (batches s) (answers s) (known s))
  end.

Inductive meshReach : Mesh -> Prop :=
| meshNew : meshReach newMesh
| meshStep e s s' : meshReach s -> meshExec e s = Some s' -> meshReach s'.
End Dispatch.

(** ** Batches *)

(** A batch within the limit, or of a single frame. *)
Definition sized (limit : Z) (b : list meshMsg) : Prop := wireSizes b <= limit \/ (length b <= 1)%nat.

Lemma wireSizes_app a b : wireSizes (a ++ b) = wireSizes a + wireSizes b.
Proof. induction a as [|m a IH]; [done|]. cbn. rewrite IH. lia. Qed.
Lemma wireSize_pos m : 3 <= wireSize m.
Proof. unfold wireSize. pose proof (len_nonneg (payload m)). lia. Qed.
Lemma wireSizes_nonneg b : 0 <= wireSizes b.
Proof. induction b as [|m b IH]; cbn; [lia|]. pose proof (wireSize_pos m). lia. Qed.

Lemma fits_sized limit batch m : fits limit batch (wireSizes batch) m = true -> sized limit (batch ++ [m]).
Proof.
  unfold fits, sized. rewrite negb_true_iff, andb_false_iff, negb_false_iff, Z.eqb_eq, Z.ltb_ge, wireSizes_app, length_app. cbn. intros [H|H]; [right|left; lia].
  apply len_zero in H. subst. cbn. lia.
Qed.
Lemma fits_nil limit size m : fits limit [] size m = true.
Proof. done. Qed.

Lemma takeFrames_spec limit q batch size b size' q' : takeFrames limit batch size q = (b, size', q') -> size = wireSizes batch ->
  exists t, q = t ++ q' /\ b = batch ++ t /\ size' = wireSizes b /\ (sized limit batch -> sized limit b) /\ (batch <> [] \/ q <> [] -> b <> []).
Proof.
  revert batch size. induction q as [|m q IH]; intros batch size; cbn; [intros [= <- <- <-] ->; exists []; rewrite ?app_nil_r; split_and!; try done; try (by intros [?|?])|].
  destruct (fits limit batch size m) eqn:Ef; [|intros [= <- <- <-] ->; exists []; rewrite ?app_nil_r; split_and!; try done; intros _ ->; by rewrite fits_nil in Ef].
  intros H ->. destruct (IH (batch ++ [m]) _ H) as (t & -> & -> & Es & Hs & Hn); [rewrite wireSizes_app; cbn; lia|]. exists (m :: t). rewrite <- app_assoc in *. split_and!; try done.
  - intros _. apply Hs. by apply fits_sized.
  - intros _. by destruct batch.
Qed.

Lemma okToDrop_backlog cd s now b : b < 2 -> fst (shouldDrop cd s now b) = false.
Proof.
  intros H. unfold shouldDrop, okToDrop. destruct (Z.ltb_spec b 2); [|lia]. rewrite orb_true_r. cbn. by destruct (dropping cd).
Qed.

Lemma takeData_spec limit now q batch size cd b cd' q' gone : takeData limit now batch size cd q = (b, cd', q', gone) -> size = wireSizes batch ->
  q = map snd gone ++ q' /\ b = batch ++ map snd (List.filter fst gone) /\ (sized limit batch -> sized limit b) /\ (batch <> [] \/ q <> [] -> b <> []) /\
  Forall (fun e => fst e = false -> frameType (snd e) = FrameMeshPacket) gone.
Proof.
  revert batch size cd b cd' q' gone. induction q as [|m q IH]; intros batch size cd b cd' q' gone; cbn [takeData]; [intros [= <- <- <- <-] ->; cbn; rewrite ?app_nil_r; split_and!; try done; try (by intros [?|?])|].
  destruct (fits limit batch size m) eqn:Ef; [|intros [= <- <- <- <-] ->; cbn; rewrite ?app_nil_r; split_and!; try done; intros _ ->; by rewrite fits_nil in Ef].
  destruct (shouldDrop cd (now - enq m) now (len q)) as [drop cd1] eqn:Ed. destruct (drop && (frameType m =? FrameMeshPacket)) eqn:Edr.
  - destruct (takeData limit now batch size cd1 q) as [ [ [b0 c0] r0] l0] eqn:Et. intros [= <- <- <- <-] ->. destruct (IH _ _ _ _ _ _ _ Et eq_refl) as (E1 & E2 & E3 & E4 & E5).
    apply andb_true_iff in Edr as [-> Hm%Z.eqb_eq]. cbn. rewrite <- E1. split_and!; try done; [|by constructor]. intros _. apply E4. right. intros ->.
    assert (Hx : fst (shouldDrop cd (now - enq m) now (len (@nil meshMsg))) = false) by (apply okToDrop_backlog; rewrite len_nil; lia). by rewrite Ed in Hx.
  - destruct (takeData limit now (batch ++ [m]) (size + wireSize m) cd1 q) as [ [ [b0 c0] r0] l0] eqn:Et. intros [= <- <- <- <-] ->.
    destruct (IH _ _ _ _ _ _ _ Et ltac:(rewrite wireSizes_app; cbn; lia)) as (E1 & E2 & E3 & E4 & E5). cbn. rewrite <- E1. split_and!; try done.
    + rewrite E2. by rewrite <- app_assoc.
    + intros _. apply E3. by apply fits_sized.
    + intros _. apply E4. left. by destruct batch.
    + by constructor.
Qed.

(** ** The dispatcher *)

Definition frameOf (m : meshMsg) : Z * list Z := (frameType m, payload m).
Definition isCtrl (m : meshMsg) : bool := control m.
Definition isData (m : meshMsg) : bool := negb (control m).

Lemma filter_const {X} (f : X -> bool) l : (forall x, x ∈ l -> f x = true) -> List.filter f l = l.
Proof. induction l as [|x l IH]; [done|]. cbn. intros H. rewrite (H x) by (by apply elem_of_cons; left). f_equal. apply IH. intros y Hy. apply H. by apply elem_of_cons; right. Qed.
Lemma filter_no {X} (f : X -> bool) l : (forall x, x ∈ l -> f x = false) -> List.filter f l = [].
Proof. induction l as [|x l IH]; [done|]. cbn. intros H. rewrite (H x) by (by apply elem_of_cons; left). apply IH. intros y Hy. apply H. by apply elem_of_cons; right. Qed.

Section Invariant.
Variable limit : Z.

(** The queues against the logs. *)
Record queuesOk (s : Mesh) : Prop := {
  q_ctrl : served s ++ ctrlQ s ++ meshCtrlOut s = sentCtrl s;
  q_data : map frameOf (map snd (left_ s) ++ dataQ s ++ meshOut s) = map frameOf (sentData s);
  q_kinds : Forall (fun m => control m = true) (sentCtrl s) /\ Forall (fun m => control m = false) (map snd (left_ s) ++ dataQ s ++ meshOut s);
  q_bytes : dataBytes s = wireSizes (dataQ s);
  q_drops : Forall (fun e => fst e = false -> frameType (snd e) = FrameMeshPacket) (left_ s) /\ codelDrops s = len (List.filter (fun e => negb (fst e)) (left_ s));
  q_cap : Forall (fun m => len (payload m) <= MaxPayload) (sentData s) -> dataBytes s < htMeshMaxQueuedBytes + 3 + MaxPayload;
}.

(** The batches against the logs and the requests. *)
Record batchesOk (s : Mesh) : Prop := {
  b_ctrl : List.filter isCtrl (concat (map snd (batches s))) = served s;
  b_data : List.filter isData (concat (map snd (batches s))) = map snd (List.filter fst (left_ s));
  b_each : Forall (fun wb => snd wb <> [] /\ sized limit (snd wb) /\ exists c d, snd wb = c ++ d /\ Forall (fun m => control m = true) c /\ Forall (fun m => control m = false) d) (batches s);
  b_once : NoDup (map fst (batches s));
  b_wait : NoDup (waiters s ++ getWaiters s) /\ forall w, w ∈ waiters s ++ getWaiters s -> w ∈ known s /\ ~ (w ∈ map fst (batches s));
  b_known : forall w, w ∈ map fst (batches s) -> w ∈ known s;
  b_hand : forall w b, handed s !! w = Some b -> (w, b) ∈ batches s;
  b_gone : forall w, w ∈ abandoned s -> handed s !! w = None;
  b_all : mclosed s = false -> batches s ≡ₚ answers s ++ map_to_list (handed s);
}.

Lemma build_queues now w s : queuesOk s -> queuesOk (buildBatchLocked limit now w s).
Proof.
  intros [Q1 Q2 [Q3 Q3'] Q4 [Q5 Q5'] Q6]. unfold buildBatchLocked. destruct (takeFrames limit [] 0 (ctrlQ s)) as [ [b1 size] c'] eqn:Ef. destruct (takeData limit now b1 size (dataCodel s) (dataQ s)) as [ [ [b cd] d'] gone] eqn:Ed.
  destruct (takeFrames_spec _ _ _ _ _ _ _ Ef eq_refl) as (t & E1 & E2 & E3 & _). cbn in E2. subst b1. destruct (takeData_spec _ _ _ _ _ _ _ _ _ _ Ed E3) as (F1 & _ & _ & _ & F5).
  split; cbn.
  - by rewrite <- Q1, E1, <- !app_assoc.
  - by rewrite <- Q2, F1, !map_app, <- !app_assoc.
  - split; [done|]. by rewrite F1, <- !app_assoc, app_assoc, <- map_app in Q3'.
  - rewrite Q4, F1, wireSizes_app. lia.
  - split; [by apply Forall_app|]. rewrite List.filter_app, len_app, <- Q5'. done.
  - intros H. specialize (Q6 H). pose proof (wireSizes_nonneg (map snd gone)). lia.
Qed.

Lemma Forall_mem {X} (P : X -> Prop) l x : Forall P l -> x ∈ l -> P x.
Proof. rewrite Forall_forall. auto. Qed.

Lemma build_batches now w s : queuesOk s -> batchesOk s -> ctrlQ s <> [] \/ dataQ s <> [] -> w ∈ known s -> ~ (w ∈ waiters s ++ getWaiters s) -> ~ (w ∈ map fst (batches s)) -> ~ (w ∈ abandoned s) ->
  batchesOk (buildBatchLocked limit now w s).
Proof.
  intros [Q1 Q2 [Q3 Q3'] _ _ _] [B1 B2 B3 B4 [B5 B5'] B6 B7 B8 B9] Hne Hk Hw Hb Ha. unfold buildBatchLocked.
  destruct (takeFrames limit [] 0 (ctrlQ s)) as [ [b1 size] c'] eqn:Ef. destruct (takeData limit now b1 size (dataCodel s) (dataQ s)) as [ [ [b cd] d'] gone] eqn:Ed.
  destruct (takeFrames_spec _ _ _ _ _ _ _ Ef eq_refl) as (t & E1 & E2 & E3 & E4 & E5). cbn in E2. subst b1. destruct (takeData_spec _ _ _ _ _ _ _ _ _ _ Ed E3) as (F1 & F2 & F3 & F4 & _).
  set (dat := map snd (List.filter fst gone)) in *.
  assert (Hct : Forall (fun m => control m = true) t) by (rewrite <- Q1, E1 in Q3; rewrite !Forall_app in Q3; tauto).
  assert (Hgd : Forall (fun m => control m = false) (map snd gone)) by (rewrite F1 in Q3'; rewrite !Forall_app in Q3'; tauto).
  assert (Hdt : Forall (fun m => control m = false) dat).
  { apply Forall_forall. intros m Hm. apply (Forall_mem _ _ _ Hgd). unfold dat in Hm. apply list_elem_of_In, in_map_iff in Hm as (e & <- & He%filter_In). apply list_elem_of_In, in_map_iff. exists e. by destruct He. }
  assert (Hfresh : handed s !! w = None) by (destruct (handed s !! w) as [x|] eqn:Ex; [|done]; exfalso; apply Hb; apply list_elem_of_In, in_map_iff; exists (w, x); split; [done|]; apply list_elem_of_In; by apply B7).
  assert (Hc1 : List.filter isCtrl (t ++ dat) = t) by (rewrite List.filter_app, filter_const, filter_no, app_nil_r; [done|intros m Hm; apply (Forall_mem _ _ _ Hdt Hm)|intros m Hm; apply (Forall_mem _ _ _ Hct Hm)]).
  assert (Hc2 : List.filter isData (t ++ dat) = dat).
  { rewrite List.filter_app, filter_no, filter_const; [done|intros m Hm; unfold isData; by rewrite (Forall_mem _ _ _ Hdt Hm)|intros m Hm; unfold isData; by rewrite (Forall_mem _ _ _ Hct Hm)]. }
  split; cbn; rewrite ?map_app, ?concat_app; cbn; rewrite ?app_nil_r.
  - by rewrite List.filter_app, B1, F2, Hc1.
  - by rewrite List.filter_app, B2, F2, Hc2, List.filter_app, map_app.
  - apply Forall_app. split; [done|]. apply Forall_singleton. cbn. split; [|split; [apply F3, E4; right; cbn; lia|by exists t, dat] ].
    apply F4. destruct Hne as [Hne|Hne]; [left; by apply E5; right|by right].
  - apply list.NoDup_app. split_and!; [done| |apply NoDup_singleton]. intros x Hx ->%list_elem_of_singleton. done.
  - split; [done|]. intros x Hx. destruct (B5' x Hx) as [H1 H2]. split; [done|]. rewrite elem_of_app, list_elem_of_singleton. intros [?| ->]; done.
  - intros x. rewrite elem_of_app, list_elem_of_singleton. intros [Hx| ->]; [by apply B6|done].
  - intros x y. rewrite lookup_insert_Some. intros [ [<- <-] | [_ Hx] ]; rewrite elem_of_app, list_elem_of_singleton; [by right|left; by apply B7].
  - intros x Hx. rewrite lookup_insert_ne by (intros ->; done). by apply B8.
  - intros Hcl. rewrite (B9 Hcl), map_to_list_insert by done. rewrite <- app_assoc. f_equiv. by rewrite Permutation_app_comm.
Qed.
(** What the batches depend on. *)
Definition batchView (s : Mesh) := (waiters s, abandoned s, handed s, mclosed s, (left_ s, served s, batches s, answers s, known s, getWaiters s)).

Lemma batches_same s s' : batchesOk s -> batchView s' = batchView s -> batchesOk s'.
Proof. intros [B1 B2 B3 B4 B5 B6 B7 B8 B9] [= E1 E2 E3 E4 E5 E6 E7 E8 E9 E10]. split; rewrite ?E1, ?E2, ?E3, ?E4, ?E5, ?E6, ?E7, ?E8, ?E9, ?E10; done. Qed.

(** Some requests leave the front of the waiting list, or move there from the channel. *)
Lemma batches_suffix s pre ws g : batchesOk s -> waiters s ++ getWaiters s = pre ++ ws ++ g -> batchesOk (setWaiters ws g s).
Proof.
  intros [B1 B2 B3 B4 [B5 B5'] B6 B7 B8 B9] E. split; try done. cbn. rewrite E in B5, B5'. split; [by apply list.NoDup_app in B5 as (_ & _ & ?)|]. intros w Hw. apply B5'. rewrite elem_of_app. by right.
Qed.

Lemma queues_same s ws g : queuesOk s -> queuesOk (setWaiters ws g s).
Proof. intros [Q1 Q2 Q3 Q4 Q5 Q6]. by split. Qed.

(** No request waits while there is something to give it. *)
Definition idle (s : Mesh) : Prop := waiters s = [] \/ (ctrlQ s = [] /\ dataQ s = []).

Lemma flushLoop_inv ws clock s : queuesOk s -> batchesOk s -> waiters s = ws -> let s' := flushLoop limit clock ws s in queuesOk s' /\ batchesOk s' /\ idle s'.
Proof.
  revert clock s. induction ws as [|w ws IH]; intros clock s Hq Hb Hw; cbn [flushLoop].
  - split_and!; [by apply queues_same|apply (batches_suffix s []); [done|by rewrite Hw]|by left].
  - assert (Hsame : queuesOk (setWaiters (w :: ws) (getWaiters s) s) /\ batchesOk (setWaiters (w :: ws) (getWaiters s) s)) by (split; [by apply queues_same|apply (batches_suffix s []); [done|by rewrite Hw]]).
    set (s1 := setWaiters ws (getWaiters s) s). assert (Hq1 : queuesOk s1) by (by apply queues_same). assert (Hb1 : batchesOk s1) by (apply (batches_suffix s [w]); [done|by rewrite Hw]).
    assert (Hgo : ctrlQ s <> [] \/ dataQ s <> [] -> let s' := if decide (w ∈ abandoned s1) then flushLoop limit clock ws s1 else flushLoop limit (fun i => clock (S i)) ws (buildBatchLocked limit (clock 0%nat) w s1) in queuesOk s' /\ batchesOk s' /\ idle s').
    { intros Hne. destruct (decide (w ∈ abandoned s1)) as [Ha|Ha]; [by apply IH|]. destruct Hb as [_ _ _ _ [Bn Bk] _ _ _ _]. rewrite Hw in Bn, Bk. destruct (Bk w ltac:(by apply elem_of_cons; left)) as [Hk Hnb]. cbn in Bn. apply list.NoDup_cons in Bn as [Hnw _].
      apply IH; [by apply build_queues|by apply build_batches|]. unfold buildBatchLocked. by destruct (takeFrames _ _ _ _) as [ [? ?] ?], (takeData _ _ _ _ _ _) as [ [ [? ?] ?] ?]. }
    destruct (ctrlQ s) eqn:Ec, (dataQ s) eqn:Ed; try (apply Hgo; by (left + right)). destruct Hsame. split_and!; try done. right. done.
Qed.

Lemma pruneStale_suffix stale ws : exists pre, ws = pre ++ pruneStale stale ws.
Proof. induction ws as [|w ws [pre IH] ]; [by exists []|]. cbn. case_decide; [exists (w :: pre); cbn; by rewrite <- IH|by exists []]. Qed.

Lemma flush_inv clock s : queuesOk s -> batchesOk s -> let s' := flushLocked limit clock s in queuesOk s' /\ batchesOk s' /\ idle s'.
Proof.
  intros Hq Hb. unfold flushLocked. destruct (pruneStale_suffix (abandoned s) (waiters s)) as [pre E]. set (ws := pruneStale (abandoned s) (waiters s)) in *.
  assert (Hx : flushLoop limit clock ws s = flushLoop limit clock ws (setWaiters ws (getWaiters s) s)) by (destruct ws; cbn; [done|]; by destruct (ctrlQ s), (dataQ s)).
  rewrite Hx. apply flushLoop_inv; [by apply queues_same| |done]. apply (batches_suffix s pre); [done|]. by rewrite E at 1; rewrite <- app_assoc.
Qed.

(** *** Routing *)

Lemma route_data now m q s : queuesOk (setOut (m :: q) s) -> dataBytes s < htMeshMaxQueuedBytes -> queuesOk (setOut q (routeFrameLocked now m s)).
Proof.
  intros [Q1 Q2 [Q3 Q3'] Q4 Q5 Q6] Hlt. cbn in *. assert (Hm : control m = false) by (rewrite !Forall_app, Forall_cons_iff in Q3'; tauto). unfold routeFrameLocked. rewrite Hm. split; cbn; try done.
  - rewrite <- Q2, <- app_assoc. rewrite !map_app. done.
  - split; [done|]. rewrite <- app_assoc. rewrite !Forall_app, !Forall_cons_iff in Q3'. rewrite !Forall_app, !Forall_cons_iff. cbn. intuition.
  - rewrite wireSizes_app, Q4. cbn. unfold wireSize. cbn. lia.
  - intros H. assert (Hx : len (payload m) <= MaxPayload).
    { assert (Hin : frameOf m ∈ map frameOf (sentData s)) by (rewrite <- Q2, !map_app, !elem_of_app; right; right; apply elem_of_cons; by left).
      apply list_elem_of_In, in_map_iff in Hin as (m' & [= _ E] & Hin%list_elem_of_In). rewrite <- E. by apply (Forall_mem _ _ _ H). }
    unfold wireSize. lia.
Qed.

Lemma route_ctrl now m q s : queuesOk (setCtrlOut (m :: q) s) -> queuesOk (setCtrlOut q (routeFrameLocked now m s)).
Proof.
  intros [Q1 Q2 [Q3 Q3'] Q4 Q5 Q6]. cbn in *. assert (Hm : control m = true) by (rewrite <- Q1, !Forall_app, Forall_cons_iff in Q3; tauto). unfold routeFrameLocked. rewrite Hm. split; cbn; try done.
  by rewrite <- Q1, <- !app_assoc.
Qed.

Lemma route_view now m s : batchView (routeFrameLocked now m s) = batchView s.
Proof. unfold routeFrameLocked. by destruct (control m). Qed.
Lemma route_outs now m s : meshCtrlOut (routeFrameLocked now m s) = meshCtrlOut s /\ meshOut (routeFrameLocked now m s) = meshOut s.
Proof. unfold routeFrameLocked. by destruct (control m). Qed.

Lemma drainCtrl_inv clock q s : queuesOk (setCtrlOut q s) -> queuesOk (drainCtrl clock q s) /\ batchView (drainCtrl clock q s) = batchView s.
Proof.
  revert clock s. induction q as [|m q IH]; intros clock s H; cbn; [done|]. destruct (IH (fun i => clock (S i)) (routeFrameLocked (clock 0%nat) m s)) as [H1 H2]; [by apply route_ctrl|].
  split; [done|]. by rewrite H2, route_view.
Qed.

Lemma drainData_inv clock q s : queuesOk (setOut q s) -> queuesOk (drainData clock q s) /\ batchView (drainData clock q s) = batchView s.
Proof.
  revert clock s. induction q as [|m q IH]; intros clock s H; cbn; [done|]. destruct (Z.ltb_spec (dataBytes s) htMeshMaxQueuedBytes); [|done].
  destruct (IH (fun i => clock (S i)) (routeFrameLocked (clock 0%nat) m s)) as [H1 H2]; [by apply route_data|]. split; [done|]. by rewrite H2, route_view.
Qed.

Lemma setOut_id s : setOut (meshOut s) s = s. Proof. by destruct s. Qed.
Lemma setCtrlOut_id s : setCtrlOut (meshCtrlOut s) s = s. Proof. by destruct s. Qed.

Lemma drain_inv clock s : queuesOk s -> queuesOk (drainLocked clock s) /\ batchView (drainLocked clock s) = batchView s.
Proof.
  intros H. unfold drainLocked. cbv zeta. destruct (drainCtrl_inv clock (meshCtrlOut s) s) as [H1 H2]; [by rewrite setCtrlOut_id|]. set (s1 := drainCtrl _ _ _) in *.
  destruct (drainData_inv (fun i => clock (length (meshCtrlOut s) + i)%nat) (meshOut s1) s1) as [H3 H4]; [by rewrite setOut_id|]. split; [done|]. by rewrite H4.
Qed.

Lemma addWaiters_inv ws s : let s' := fold_left (fun s w => addWaiterLocked w s) ws s in
  exists pre W, waiters s ++ ws = pre ++ W /\ s' = setWaiters W (getWaiters s) s.
Proof.
  revert s. induction ws as [|w ws IH]; intros s; cbn; [exists [], (waiters s); split; [by rewrite app_nil_r|by destruct s]|].
  destruct (IH (addWaiterLocked w s)) as (pre & W & E & ->). destruct (pruneStale_suffix (abandoned s) (waiters s)) as [p0 E0]. exists (p0 ++ pre), W. cbn in E. split; [|done].
  rewrite <- app_assoc, <- E. rewrite E0 at 1. by rewrite <- !app_assoc.
Qed.
End Invariant.

Section Delivery.
Variable limit : Z.

Record meshInv (s : Mesh) : Prop := { v_queues : queuesOk s; v_batches : batchesOk limit s; v_idle : idle s }.

Lemma answer_inv w gave s : meshInv s -> (gave = true -> w ∈ known s) -> meshInv (answer w gave s).
Proof.
  intros [ [Q1 Q2 Q3 Q4 Q5 Q6] [B1 B2 B3 B4 B5 B6 B7 B8 B9] Hi] Hk. unfold answer. cbv zeta. cbn [handed].
  destruct (handed s !! w) as [b|] eqn:Eh; split; try done; split; cbn; try done.
  - intros x y. rewrite lookup_delete_Some. intros [_ Hx]. by apply B7.
  - intros x Hx. destruct (decide (w = x)) as [->|Hne]; [by rewrite lookup_delete_eq|]. rewrite lookup_delete_ne by done. apply B8. destruct gave; [set_solver|done].
  - intros Hc. rewrite (B9 Hc), <- app_assoc. f_equiv. symmetry. by apply (map_to_list_delete (handed s) w b).
  - intros x Hx. destruct (decide (w = x)) as [->|Hne]; [done|]. apply B8. destruct gave; [set_solver|done].
Qed.

Lemma meshExec_inv e s s' : meshInv s -> meshExec limit e s = Some s' -> meshInv s'.
Proof.
  intros Hinv H. pose proof Hinv as [Hq Hb Hi]. destruct e as [m|w|route build|route build|build|w|w|w|]; cbn [meshExec] in H.
  - destruct (mclosed s) eqn:Ecl; [done|]. destruct Hq as [Q1 Q2 [Q3 Q3'] Q4 Q5 Q6]. destruct (control m) eqn:Em.
    + destruct (len (meshCtrlOut s) <? htMeshCtrlQueueLen); [|done]. injection H as <-. split; [|by apply (batches_same limit s); [|by unfold batchView; cbn; rewrite Ecl]|done]. split; cbn; try done; [by rewrite <- Q1, <- !app_assoc|]. split; [|done]. apply Forall_app. by repeat constructor.
    + destruct (len (meshOut s) <? htMeshQueueLen); [|done]. injection H as <-. split; [|by apply (batches_same limit s); [|by unfold batchView; cbn; rewrite Ecl]|done]. split; cbn; try done.
      * by rewrite !app_assoc, !map_app, <- Q2, !map_app, <- !app_assoc.
      * split; [done|]. rewrite !app_assoc. apply Forall_app. split; [by rewrite <- app_assoc|by repeat constructor].
      * intros Hx. apply Q6. by apply Forall_app in Hx as [? _].
  - destruct (mclosed s || bool_decide (w ∈ known s)) eqn:E1; [done|]. destruct (len (getWaiters s) <? getWaitersLen); [|done]. injection H as <-. apply orb_false_iff in E1 as [_ Hw%bool_decide_eq_false].
    split; [destruct Hq as [Q1 Q2 Q3 Q4 Q5 Q6]; by split| |done]. destruct Hb as [B1 B2 B3 B4 [B5 B5'] B6 B7 B8 B9]. split; cbn; try done.
    + rewrite app_assoc. split; [apply list.NoDup_app; split_and!; [done| |apply NoDup_singleton]; intros x Hx ->%list_elem_of_singleton; by destruct (B5' w Hx)|].
      intros x. rewrite elem_of_app, list_elem_of_singleton. intros [Hx| ->]; [destruct (B5' x Hx); set_solver|]. split; [set_solver|]. intros Hx. by apply Hw, B6.
    + intros x Hx. apply B6 in Hx. set_solver.
  - destruct (meshCtrlOut s) as [|m q] eqn:Eo; [done|]. injection H as <-. set (s1 := routeFrameLocked (route 0%nat) m (setCtrlOut q s)).
    assert (Hq1 : queuesOk s1).
    { assert (Hr : queuesOk (setCtrlOut q (routeFrameLocked (route 0%nat) m s))) by (apply route_ctrl; by rewrite <- Eo, setCtrlOut_id). unfold s1. unfold routeFrameLocked in *. by destruct (control m). }
    destruct (drain_inv (fun i => route (S i)) s1 Hq1) as [Hq2 Hv]. destruct (flush_inv limit build _ Hq2) as (? & ? & ?); [apply (batches_same limit s); [done|]; rewrite Hv; unfold s1; by rewrite route_view|by split].
  - destruct (Z.leb_spec htMeshMaxQueuedBytes (dataBytes s)); [done|]. destruct (meshOut s) as [|m q] eqn:Eo; [done|]. injection H as <-. set (s1 := routeFrameLocked (route 0%nat) m (setOut q s)).
    assert (Hq1 : queuesOk s1).
    { assert (Hr : queuesOk (setOut q (routeFrameLocked (route 0%nat) m s))) by (apply route_data; [by rewrite <- Eo, setOut_id|done]). unfold s1. unfold routeFrameLocked in *. by destruct (control m). }
    destruct (drain_inv (fun i => route (S i)) s1 Hq1) as [Hq2 Hv]. destruct (flush_inv limit build _ Hq2) as (? & ? & ?); [apply (batches_same limit s); [done|]; rewrite Hv; unfold s1; by rewrite route_view|by split].
  - destruct (getWaiters s) as [|w ws] eqn:Eg; [done|]. injection H as <-. destruct (addWaiters_inv (w :: ws) (setWaiters (waiters s) [] s)) as (pre & W & E & Es). cbv zeta in Es. cbn [fold_left] in Es |- *. rewrite Es. cbn in E.
    destruct (flush_inv limit build (setWaiters W [] s)) as (? & ? & ?); [by apply queues_same|apply (batches_suffix limit s pre); [done|by rewrite app_nil_r, Eg]|by split].
  - destruct (handed s !! w); [|done]. injection H as <-. by apply answer_inv.
  - case_decide as Hd; [|done]. injection H as <-. by apply answer_inv; [|intros _; apply Hd].
  - destruct (mclosed s) eqn:Ecl; [|done]. injection H as <-. split; [destruct Hq as [Q1 Q2 Q3 Q4 Q5 Q6]; by split| |done]. destruct Hb as [B1 B2 B3 B4 B5 B6 B7 B8 B9]. split; cbn; try done.
    + intros x y. rewrite lookup_delete_Some. intros [_ Hx]. by apply B7.
    + intros x Hx. destruct (decide (w = x)) as [->|Hne]; [by rewrite lookup_delete_eq|]. rewrite lookup_delete_ne by done. apply B8. set_solver.
  - injection H as <-. split; [destruct Hq as [Q1 Q2 Q3 Q4 Q5 Q6]; by split| |done]. destruct Hb as [B1 B2 B3 B4 B5 B6 B7 B8 B9]. by split.
Qed.

Lemma meshReach_inv s : meshReach limit s -> meshInv s.
Proof.
  induction 1 as [|e s s' _ IH H]; [|by apply (meshExec_inv e s)]. split; [|split; cbn; try done|by left].
  - split; cbn; try done; split; constructor.
  - constructor.
  - split; [constructor|]. intros w Hw. by apply elem_of_nil in Hw.
  - intros w Hw. by apply elem_of_nil in Hw.
Qed.

(** C37: what the dispatcher of a mesh client does with the frames of the session.  Control
    frames are given out all, in order, before any data of their batch; data frames are
    given out in order, and those that are not were mesh packets dropped by CoDel.  No
    batch is empty or larger than the limit, unless it is a single frame.  A request gets
    at most one batch; while the channel is open every batch is in an answer or waits for
    the handler it was handed to, and a handler that has given up leaves none behind.  The
    queued bytes are counted exactly and stay under the cap plus one frame; and no request
    waits while frames are queued. *)
Theorem mesh_delivery s : meshReach limit s ->
  let given := concat (map snd (batches s)) in
  List.filter isCtrl given ++ ctrlQ s ++ meshCtrlOut s = sentCtrl s /\
  (map frameOf (map snd (left_ s) ++ dataQ s ++ meshOut s) = map frameOf (sentData s) /\
   List.filter isData given = map snd (List.filter fst (left_ s)) /\
   (forall m, (false, m) ∈ left_ s -> frameType m = FrameMeshPacket) /\ codelDrops s = len (List.filter (fun e => negb (fst e)) (left_ s))) /\
  (forall w b, (w, b) ∈ batches s -> b <> [] /\ (wireSizes b <= limit \/ (length b <= 1)%nat) /\
     exists c d, b = c ++ d /\ Forall (fun m => control m = true) c /\ Forall (fun m => control m = false) d) /\
  (NoDup (map fst (batches s)) /\ (mclosed s = false -> batches s ≡ₚ answers s ++ map_to_list (handed s)) /\ forall w, w ∈ abandoned s -> handed s !! w = None) /\
  (dataBytes s = wireSizes (dataQ s) /\ (Forall (fun m => len (payload m) <= MaxPayload) (sentData s) -> dataBytes s < htMeshMaxQueuedBytes + 3 + MaxPayload)) /\
  (waiters s = [] \/ ctrlQ s = [] /\ dataQ s = []).
Proof.
  intros [ [Q1 Q2 Q3 Q4 [Q5 Q5'] Q6] [B1 B2 B3 B4 B5 B6 B7 B8 B9] Hi]%meshReach_inv given. unfold given.
  split; [by rewrite B1|]. split; [split_and!; try done; intros m Hm; by apply (Forall_mem _ _ (false, m) Q5 Hm)|]. split; [|done].
  intros w b Hb. by apply (Forall_mem _ _ (w, b) B3 Hb).
Qed.

Fixpoint meshRun (es : list MeshEvent) (s : Mesh) : option Mesh :=
  match es with [] => Some s | e :: es => match meshExec limit e s with Some s => meshRun es s | None => None end end.

Lemma meshRun_reach es s s' : meshReach limit s -> meshRun es s = Some s' -> meshReach limit s'.
Proof. revert s. induction es as [|e es IH]; intros s Hr; cbn; [by intros [= <-]|]. destruct (meshExec limit e s) eqn:E; [|done]. apply IH. by eapply meshStep. Qed.
End Delivery.

(** Two data frames and a control frame for one GET, with room for two frames. *)
Definition pkt (b : Z) : meshMsg := mkMsg FrameMeshPacket [b] false 0.
Definition pong : meshMsg := mkMsg 0x11 [] true 0.
Definition demoMesh : list MeshEvent := [MSend (pkt 1); MSend (pkt 2); MSend pong; MGet 0; MWaiters (fun _ => 10); MData (fun _ => 5) (fun _ => 10); MTake 0].
Definition demoEnd : Mesh := default newMesh (meshRun 8 demoMesh newMesh).

Lemma mesh_delivery_witness : batches demoEnd = [(0%nat, [pong; stamp 5 (pkt 1)])] /\ answers demoEnd = batches demoEnd /\
  List.filter isCtrl (concat (map snd (batches demoEnd))) ++ ctrlQ demoEnd ++ meshCtrlOut demoEnd = sentCtrl demoEnd /\
  dataBytes demoEnd = wireSizes (dataQ demoEnd).
Proof.
  assert (Hr : meshReach 8 demoEnd) by (apply (meshRun_reach 8 demoMesh newMesh); [apply meshNew|vm_compute; reflexivity]).
  destruct (mesh_delivery 8 demoEnd Hr) as (H1 & _ & _ & _ & (H2 & _) & _). split; [vm_compute; reflexivity|]. split; [vm_compute; reflexivity|]. split; [exact H1|exact H2].
Defined.

(** ** The client *)

(** The body of a POST: the frames one after the other; [None] when one is too large. *)
Fixpoint postBody (frames : list Frame) : option (list Z) :=
  match frames with
  | [] => Some []
  | f :: fs => if MaxPayload <? len (fPayload f) then None else match postBody fs with Some b => Some (serializeFrame (fType f) (fPayload f) ++ b) | None => None end
  end.

(** meshHandleWrite's loop over the body, with the frames that reach the session and the
    status; [fuel] is the length of the body. *)
Fixpoint meshPost (fuel : nat) (data : list Z) : list (Z * list Z) * Z :=
  match fuel with
  | O => ([], 200)
  | S fuel =>
      if len data <? 3 then ([], 200)
      else match ReadFrame data with
           | Err _ => ([], 410)
           | Ok (ft, payload, _) => let '(fs, st) := meshPost fuel (drop (Z.to_nat (3 + len payload)) data) in ((ft, payload) :: fs, st)
           end
  end.
Definition meshHandleWrite (crypto : HTunnelCrypto) (body : option (list Z)) : list (Z * list Z) * Z :=
  match body with
  | None => ([], 410)
  | Some data => match OpenBody crypto data with None => ([], 410) | Some d => meshPost (length d) d end
  end.

(** meshHandleRead's body for a batch, and recvLoop over it: the frames, and whether the
    whole body was read. *)
Definition getBody (batch : list meshMsg) : list Z :=
  concat (map (fun m => if MaxPayload <? len (payload m) then [] else serializeFrame (frameType m) (payload m)) batch).
Fixpoint recvFrames (fuel : nat) (r : list Z) : list (Z * list Z) * bool :=
  match fuel, r with
  | _, [] => ([], true)
  | O, _ => ([], false)
  | S fuel, _ => match ReadFrame r with Err _ => ([], false) | Ok (ft, p, rest) => let '(fs, ok) := recvFrames fuel rest in ((ft, p) :: fs, ok) end
  end.

Lemma serialize_length ft p : len p <= MaxPayload -> length (serializeFrame ft p) = (3 + length p)%nat.
Proof. intros H. rewrite serializeFrame_eq. done. Qed.

Lemma meshPost_serialize fs b n : postBody fs = Some b -> (length b <= n)%nat -> meshPost n b = (map (fun f => (fType f, fPayload f)) fs, 200).
Proof.
  revert b n. induction fs as [|f fs IH]; intros b n; cbn [postBody map]; [intros [= <-] _; by destruct n|]. destruct (Z.ltb_spec MaxPayload (len (fPayload f))) as [|Hp]; [done|].
  destruct (postBody fs) as [b'|]; [|done]. intros [= <-] Hn. rewrite length_app, serialize_length in Hn by done. destruct n as [|n]; [lia|]. cbn [meshPost].
  assert (Hl : (len (serializeFrame (fType f) (fPayload f) ++ b') <? 3) = false) by (apply Z.ltb_ge; unfold len; rewrite length_app, serialize_length by done; lia).
  rewrite Hl, ReadFrame_serialize by done.
  replace (drop (Z.to_nat (3 + len (fPayload f))) (serializeFrame (fType f) (fPayload f) ++ b')) with b'; [by rewrite (IH b') by (done || lia)|].
  symmetry. replace (Z.to_nat (3 + len (fPayload f))) with (length (serializeFrame (fType f) (fPayload f))); [apply drop_app_length|]. rewrite serialize_length by done. unfold len. lia.
Qed.

Lemma recv_batch batch n : Forall (fun m => len (payload m) <= MaxPayload) batch -> (length (getBody batch) <= n)%nat -> recvFrames n (getBody batch) = (map frameOf batch, true).
Proof.
  intros H. revert n. induction H as [|m batch Hm _ IH]; intros n Hn; [by destruct n|]. unfold getBody in *. cbn [map concat] in *. destruct (Z.ltb_spec MaxPayload (len (payload m))); [lia|].
  rewrite length_app, serialize_length in Hn by done. destruct n as [|n]; [lia|]. cbn [recvFrames]. rewrite ReadFrame_serialize by done. rewrite IH by lia.
  destruct (serializeFrame (frameType m) (payload m) ++ _) eqn:E; [|done]. apply (f_equal length) in E. rewrite length_app, serialize_length in E by done. cbn in E. lia.
Qed.

(** Frames survive the bodies of both directions.  A batch that the client can post
    reaches the session of the server frame by frame, in order, with status 200; a batch
    that the server gives to a GET is read by the client frame by frame and to its end. *)
Theorem mesh_bodies crypto frames body nonce batch : CipherLaws crypto -> len nonce = htNonceSize -> postBody frames = Some body ->
  Forall (fun m => len (payload m) <= MaxPayload) batch ->
  meshHandleWrite crypto (Some (SealBody crypto nonce body)) = (map (fun f => (fType f, fPayload f)) frames, 200) /\
  exists d, OpenBody crypto (SealBody crypto nonce (getBody batch)) = Some d /\ recvFrames (length d) d = (map frameOf batch, true).
Proof.
  intros Hl Hn Hp Hb. unfold meshHandleWrite. rewrite !OpenBody_SealBody by done. split; [by apply meshPost_serialize|]. eexists. split; [done|]. by apply recv_batch.
Qed.

Lemma mesh_bodies_witness : let body := serializeFrame 32 [7; 8] ++ serializeFrame 17 [] in
  meshHandleWrite tagCipher (Some (SealBody tagCipher someNonce body)) = ([(32, [7; 8]); (17, [])], 200) /\
  exists d, OpenBody tagCipher (SealBody tagCipher someNonce (getBody [pong; pkt 4])) = Some d /\ recvFrames (length d) d = ([(17, []); (32, [4])], true).
Proof.
  intros body. apply (mesh_bodies tagCipher [mkFrame 32 [7; 8] false; mkFrame 17 [] true] body someNonce [pong; pkt 4] tagCipher_laws eq_refl eq_refl). repeat constructor; vm_compute; discriminate.
Defined.

(** *** The waiting time of GET requests *)

Record Adapt := mkAdapt { fullCount : Z; emptyCount : Z; waitTime : Z }.

Definition adjustWaitTime (minWait maxWait : Z) (isFullBatch : bool) (a : Adapt) : Adapt :=
  if isFullBatch then
    let n := fullCount a + 1 in
    if 3 <=? n then mkAdapt 0 0 (Z.max (Z.quot (waitTime a) 2) minWait) else mkAdapt n 0 (waitTime a)
  else
    let n := emptyCount a + 1 in
    if 10 <=? n then mkAdapt 0 0 (Z.min (waitTime a * 2) maxWait) else mkAdapt 0 n (waitTime a).

(** The header X-W, in whole seconds, as the server reads it back and clamps it. *)
Definition serverWait (minWait maxWait w : Z) : Z :=
  let sec := Z.quot w (10 ^ 9) in
  if 0 <? sec then Z.min (Z.max (sec * 10 ^ 9) minWait) maxWait else 5 * 10 ^ 9.

Lemma wait_bounded lo hi fulls w : 0 < lo -> lo <= hi -> lo <= w <= hi ->
  let a := fold_left (fun a f => adjustWaitTime lo hi f a) fulls (mkAdapt 0 0 w) in lo <= waitTime a <= hi.
Proof.
  intros Hlo Hle Hw. cbv zeta. assert (H : forall a, lo <= waitTime a <= hi -> lo <= waitTime (fold_left (fun a f => adjustWaitTime lo hi f a) fulls a) <= hi); [|by apply H].
  induction fulls as [|f fulls IH]; intros a Ha; [done|]. cbn. apply IH. unfold adjustWaitTime. destruct f; cbv zeta.
  - destruct (3 <=? fullCount a + 1); cbn; [|done]. rewrite Z.quot_div_nonneg by lia. pose proof (Z.div_mod (waitTime a) 2). pose proof (Z.mod_pos_bound (waitTime a) 2). lia.
  - destruct (10 <=? emptyCount a + 1); cbn; lia.
Qed.

(** A batch of several frames counts as full only when it is as large as the limit to the
    byte, so that full batches do not shorten the wait in practice. *)
Lemma full_exactly limit b : sized limit b -> (2 <= length b)%nat -> limit <= wireSizes b -> wireSizes b = limit.
Proof. intros [H|H] H2 H3; lia. Qed.
