(* ===== verification/ReverseRegistry.v ===== *)
(** ReverseRegistry: the registry of reverse connections, src/reverse/registry.go: the pool
    of an address, the callers of Match that wait for a connection, and the goroutines of
    each connection, as interleaved steps; and the frames of the reverse handshake, server
    (registry.go) and client (src/server/reverse.go, handleReverseConn).

    A step is what runs under the registry's lock, one channel operation, or one test and
    one effect on a connection.  Register tests the cancellation and delivers in two
    steps, between which other steps may run; this allows more interleavings than the
    lock does.  A read loop may end at any time, by an error, by a deadline or by Stop. *)

From Stdlib Require Import ZArith Lia.
From stdpp Require Import base gmap list numbers relations.
From S2P Require Import Prelude Frame.
Open Scope Z_scope.

(** ** State *)

Notation Addr := (list Z).

(** Where the watcher of a connection is: not started, waiting for the read loop to end,
    about to unregister, about to look again whether the connection was claimed, about to
    close, ended. *)
Inductive Watch := WNone | WWait | WUnregister | WRecheck | WClose | WDone.

(** ManagedConn, with its goroutines: [loop] the read loop runs, [sender] the heartbeats
    run, [idle] the idle detector is about to close. *)
Record ManagedConn := mkMC { address : Addr; closed : bool; matched : bool; loop : bool; sender : bool; idle : bool; watch : Watch }.

Inductive Chan := Empty | Full (mc : nat) | Closed.

(** Where a caller of Match got its connection: it behaves differently when the handshake
    then fails. *)
Inductive Origin := FromPool | FromChan | FromDrain.

(** A caller of Match: about to look at the pool; with a connection it has not claimed
    yet; in the handshake; waiting; having seen the cancellation and drained a connection,
    or found none; having timed out; returned. *)
Inductive Match := Try (a : Addr) | Claim (a : Addr) (mc : nat) (o : Origin) | Shake (a : Addr) (mc : nat) (o : Origin)
  | Wait (a : Addr) (ch : nat) | Drained (a : Addr) (ch mc : nat) | Cancelled (a : Addr) (ch : nat) | Expired (a : Addr) (ch : nat)
  | Failed | Got (mc : nat).

Record Registry := mkReg {
  bottoms : gmap Addr (list nat); waiters : gmap Addr (list nat); cancelled : bool;
  chans : gmap nat Chan; conns : gmap nat ManagedConn; matches : gmap nat Match;
  (** Registrations between the test and the delivery. *)
  entering : gset nat }.

Definition newRegistry : Registry := mkReg ∅ ∅ false ∅ ∅ ∅ ∅.

Definition pool (a : Addr) (r : Registry) : list nat := default [] (bottoms r !! a).
Definition queue (a : Addr) (r : Registry) : list nat := default [] (waiters r !! a).

Definition setConns c r := mkReg (bottoms r) (waiters r) (cancelled r) (chans r) c (matches r) (entering r).
Definition setMatch t m r := mkReg (bottoms r) (waiters r) (cancelled r) (chans r) (conns r) (<[t := m]> (matches r)) (entering r).
Definition setChans c r := mkReg (bottoms r) (waiters r) (cancelled r) c (conns r) (matches r) (entering r).
Definition setPool a l r := mkReg (<[a := l]> (bottoms r)) (waiters r) (cancelled r) (chans r) (conns r) (matches r) (entering r).
Definition setQueue a l r := mkReg (bottoms r) (<[a := l]> (waiters r)) (cancelled r) (chans r) (conns r) (matches r) (entering r).
Definition setEntering e r := mkReg (bottoms r) (waiters r) (cancelled r) (chans r) (conns r) (matches r) e.

Definition onConn (mc : nat) (f : ManagedConn -> ManagedConn) (r : Registry) : Registry := setConns (alter f mc (conns r)) r.
Definition close (c : ManagedConn) := mkMC (address c) true (matched c) (loop c) (sender c) (idle c) (watch c).
Definition claim (c : ManagedConn) := mkMC (address c) (closed c) true (loop c) (sender c) (idle c) (watch c).
Definition endLoop (c : ManagedConn) := mkMC (address c) (closed c) (matched c) false (sender c) (idle c) (watch c).
Definition endSender (c : ManagedConn) := mkMC (address c) (closed c) (matched c) (loop c) false (idle c) (watch c).
Definition setIdle b (c : ManagedConn) := mkMC (address c) (closed c) (matched c) (loop c) (sender c) b (watch c).
Definition setWatch w (c : ManagedConn) := mkMC (address c) (closed c) (matched c) (loop c) (sender c) (idle c) w.

(** Removing the first occurrence, as the code's loops do. *)
Fixpoint remove1 (x : nat) (l : list nat) : list nat :=
  match l with [] => [] | y :: l => if decide (x = y) then l else y :: remove1 x l end.

(** ** Registry operations *)

(** Register's loop over the waiters: the waiter that takes the connection, if any, and
    the waiters left; [None] is the panic of a send on a closed channel. *)
Fixpoint offer (chs : list nat) (cs : gmap nat Chan) : option (option nat * list nat) :=
  match chs with
  | [] => Some (None, [])
  | ch :: chs =>
      match cs !! ch with
      | Some Empty => Some (Some ch, chs)
      | Some Closed => None
      | _ => offer chs cs
      end
  end.

Definition deliver (a : Addr) (mc : nat) (r : Registry) : option Registry :=
  match offer (queue a r) (chans r) with
  | None => None
  | Some (Some ch, chs) => Some (setChans (<[ch := Full mc]> (chans r)) (setQueue a chs r))
  | Some (None, chs) => Some (setPool a (pool a r ++ [mc]) (setQueue a chs r))
  end.

Definition Unregister (a : Addr) (mc : nat) (r : Registry) : Registry * bool :=
  if decide (mc ∈ pool a r) then (setPool a (remove1 mc (pool a r)) r, true) else (r, false).

Definition closeAll (chs : list nat) (cs : gmap nat Chan) : gmap nat Chan := foldr (fun ch => <[ch := Closed]>) cs chs.

(** CloseByAddress under the lock; the read loops it stops end by themselves. *)
Definition CloseByAddress (a : Addr) (r : Registry) : Registry :=
  mkReg (delete a (bottoms r)) (delete a (waiters r)) (cancelled r) (closeAll (queue a r) (chans r)) (conns r) (matches r) (entering r).

(** Refresh on the old registry: its sweep under the lock. *)
Definition sweep (r : Registry) : Registry :=
  setConns (map_imap (fun mc c => Some (if bool_decide (mc ∈ mjoin (map_to_list (bottoms r)).*2) && negb (matched c) then close c else c)) (conns r)) r.

Definition dropWaiter (a : Addr) (ch : nat) (r : Registry) : Registry := setQueue a (remove1 ch (queue a r)) r.

(** ** Steps *)

Inductive action :=
| ANew (mc : nat) (a : Addr) | ADeliver (mc : nat) | ARegistered (mc : nat) | APengFails (mc : nat)
| AUnmatched (t : nat) (a : Addr) | APop (t : nat) | AQueue (t ch : nat) | AClaim (t : nat) | AShake (t : nat) | AShakeFails (t : nat)
| AReceive (t : nat) | ACancelled (t : nat) | ATimeout (t : nat) | ALeave (t : nat)
| ACloseBy (a : Addr) | ASweep | ACancel
| ALoopEnds (mc : nat) | AWatch (mc : nat) | AIdle (mc : nat) | ASenderFails (mc : nat).

Definition runWatch (mc : nat) (c : ManagedConn) (r : Registry) : option Registry :=
  match watch c with
  | WWait => if loop c then None else Some (onConn mc (setWatch (if matched c then WDone else WUnregister)) r)
  | WUnregister =>
      let '(r, found) := Unregister (address c) mc r in
      Some (if found then onConn mc (fun c => setWatch WDone (close c)) r else onConn mc (setWatch WRecheck) r)
  | WRecheck => Some (onConn mc (setWatch (if matched c then WDone else WClose)) r)
  | WClose => Some (onConn mc (fun c => setWatch WDone (close c)) r)
  | WNone | WDone => None
  end.

Definition runMatch (act : action) (t : nat) (m : Match) (r : Registry) : option Registry :=
  match act, m with
  | APop _, Try a =>
      match pool a r with [] => None | mc :: rest => Some (setMatch t (Claim a mc FromPool) (setPool a rest r)) end
  | AQueue _ ch, Try a =>
      match pool a r, chans r !! ch with
      | [], None => Some (setMatch t (Wait a ch) (setChans (<[ch := Empty]> (chans r)) (setQueue a (queue a r ++ [ch]) r)))
      | _, _ => None
      end
  | AClaim _, Claim a mc o => Some (setMatch t (Shake a mc o) (onConn mc claim r))
  | AShake _, Shake a mc _ =>
      match conns r !! mc with
      | Some c => if closed c then None else Some (setMatch t (Got mc) (onConn mc (fun c => endSender (endLoop c)) r))
      | None => None
      end
  | AShakeFails _, Shake a mc o =>
      let r := onConn mc (fun c => endSender (close c)) r in
      Some (match o with
            | FromPool => setMatch t (Try a) (fst (Unregister a mc r))
            | FromChan => setMatch t Failed (fst (Unregister a mc r))
            | FromDrain => setMatch t Failed r
            end)
  | AReceive _, Wait a ch =>
      match chans r !! ch with
      | Some (Full mc) => Some (setMatch t (Claim a mc FromChan) (setChans (<[ch := Empty]> (chans r)) r))
      | Some Closed => Some (setMatch t Failed r)
      | _ => None
      end
  | ACancelled _, Wait a ch =>
      if cancelled r then
        match chans r !! ch with
        | Some (Full mc) => Some (setMatch t (Drained a ch mc) (setChans (<[ch := Empty]> (chans r)) r))
        | Some Closed => Some (setMatch t Failed r)
        | _ => Some (setMatch t (Cancelled a ch) r)
        end
      else None
  | ATimeout _, Wait a ch => Some (setMatch t (Expired a ch) r)
  | ALeave _, Drained a ch mc => Some (setMatch t (Claim a mc FromDrain) (dropWaiter a ch r))
  | ALeave _, (Cancelled a ch | Expired a ch) => Some (setMatch t Failed (dropWaiter a ch r))
  | _, _ => None
  end.

Definition exec (act : action) (r : Registry) : option Registry :=
  match act with
  | ANew mc a =>
      match conns r !! mc with
      | Some _ => None
      | None =>
          Some (if cancelled r then setConns (<[mc := mkMC a true false true true false WNone]> (conns r)) r
                else setEntering (entering r ∪ {[mc]}) (setConns (<[mc := mkMC a false false true true false WNone]> (conns r)) r))
      end
  | ADeliver mc =>
      match conns r !! mc with
      | Some c => if decide (mc ∈ entering r) then deliver (address c) mc (setEntering (entering r ∖ {[mc]}) r) else None
      | None => None
      end
  | ARegistered mc | APengFails mc =>
      match conns r !! mc with
      | Some c =>
          if decide (mc ∈ entering r) then None
          else match watch c with
               | WNone =>
                   Some (match act with
                         | ARegistered _ => onConn mc (setWatch WWait) r
                         | _ => onConn mc (fun c => setWatch WDone (close (endSender (endLoop c)))) (fst (Unregister (address c) mc r))
                         end)
               | _ => None
               end
      | None => None
      end
  | AUnmatched t a => match matches r !! t with None => Some (setMatch t (Try a) r) | Some _ => None end
  | APop t | AQueue t _ | AClaim t | AShake t | AShakeFails t | AReceive t | ACancelled t | ATimeout t | ALeave t =>
      match matches r !! t with Some m => runMatch act t m r | None => None end
  | ACloseBy a => Some (CloseByAddress a r)
  | ASweep => Some (sweep r)
  | ACancel => Some (mkReg (bottoms r) (waiters r) true (chans r) (conns r) (matches r) (entering r))
  | ALoopEnds mc => match conns r !! mc with Some _ => Some (onConn mc endLoop r) | None => None end
  | AWatch mc => match conns r !! mc with Some c => runWatch mc c r | None => None end
  | AIdle mc =>
      match conns r !! mc with
      | Some c => if idle c then Some (onConn mc (fun c => setIdle false (close c)) r)
                  else if matched c then None else Some (onConn mc (setIdle true) r)
      | None => None
      end
  | ASenderFails mc =>
      match conns r !! mc with Some c => if sender c then Some (onConn mc (fun c => endSender (close c)) r) else None | None => None end
  end.

Inductive step : Registry -> Registry -> Prop := stepBy act r r' : exec act r = Some r' -> step r r'.
Definition reachable (r : Registry) : Prop := rtc step newRegistry r.

(** ** Ownership *)

(** The places a connection can be in. *)
Inductive Place := InPool (a : Addr) | InChan (ch : nat) | InMatch (t : nat) | Entering.

Definition holder (m : Match) : option nat :=
  match m with Claim _ mc _ | Shake _ mc _ | Drained _ _ mc | Got mc => Some mc | _ => None end.

Definition sits (r : Registry) (mc : nat) (p : Place) : Prop :=
  match p with
  | InPool a => mc ∈ pool a r
  | InChan ch => chans r !! ch = Some (Full mc)
  | InMatch t => exists m, matches r !! t = Some m /\ holder m = Some mc
  | Entering => mc ∈ entering r
  end.

Definition early (w : Watch) : bool := match w with WNone | WWait | WUnregister => true | _ => false end.
Definition claimed (m : Match) : bool := match m with Shake _ _ _ | Got _ => true | _ => false end.

(** What a place asks of a connection: it is claimed only by the caller of Match that has
    it, and a caller that has returned it has its read side alone. *)
Definition fits (r : Registry) (p : Place) (c : ManagedConn) : Prop :=
  match p with
  | InPool a => address c = a /\ matched c = false /\ early (watch c) = true
  | InChan _ => matched c = false
  | InMatch t => forall m, matches r !! t = Some m -> matched c = claimed m /\ (forall mc, m = Got mc -> loop c = false /\ sender c = false)
  | Entering => matched c = false /\ watch c = WNone
  end.

(** The caller that waits on a channel, and the address it waits for. *)
Definition waitsOn (m : Match) : option (Addr * nat) :=
  match m with Wait a ch | Cancelled a ch | Expired a ch | Drained a ch _ => Some (a, ch) | _ => None end.

(** Every connection is in one place, [own]; every waiter in a queue has an empty channel,
    made for the queue's address [at_], and a caller that has not returned. *)
Record inv (own : nat -> Place) (at_ : nat -> Addr) (r : Registry) : Prop := {
  v_own : forall mc p, sits r mc p -> own mc = p /\ exists c, conns r !! mc = Some c /\ fits r p c;
  v_pool : forall a, NoDup (pool a r);
  v_chan : forall a ch, ch ∈ queue a r -> chans r !! ch = Some Empty /\ at_ ch = a /\ exists t m, matches r !! t = Some m /\ waitsOn m = Some (a, ch);
  v_queue : forall a, NoDup (queue a r);
  v_wait : forall t m a ch, matches r !! t = Some m -> waitsOn m = Some (a, ch) -> at_ ch = a /\ is_Some (chans r !! ch);
}.

Lemma pool_setPool a b l r : pool a (setPool b l r) = if decide (a = b) then l else pool a r.
Proof. unfold pool, setPool. cbn [bottoms]. case_decide as E; [subst; by rewrite lookup_insert_eq|by rewrite lookup_insert_ne]. Qed.
Lemma queue_setQueue a b l r : queue a (setQueue b l r) = if decide (a = b) then l else queue a r.
Proof. unfold queue, setQueue. cbn [waiters]. case_decide as E; [subst; by rewrite lookup_insert_eq|by rewrite lookup_insert_ne]. Qed.

Lemma remove1_sub x l y : y ∈ remove1 x l -> y ∈ l.
Proof. induction l as [|z l IH]; cbn; [done|]. case_decide; set_solver. Qed.
Lemma remove1_out x l : NoDup l -> x ∉ remove1 x l.
Proof.
  induction l as [|z l IH]; cbn; [by intros _ ?%elem_of_nil|]. rewrite NoDup_cons. intros [Hz Hn]. case_decide as E; [by subst|].
  rewrite not_elem_of_cons. split; [done|by apply IH].
Qed.
Lemma remove1_other x l y : y ∈ l -> y <> x -> y ∈ remove1 x l.
Proof. induction l as [|z l IH]; cbn; [done|]. case_decide; set_solver. Qed.
Lemma remove1_nodup x l : NoDup l -> NoDup (remove1 x l).
Proof.
  induction l as [|z l IH]; cbn; [done|]. rewrite NoDup_cons. intros [Hz Hn]. case_decide; [done|]. constructor; [|by apply IH].
  intros Hy. apply Hz. by apply remove1_sub in Hy.
Qed.
Lemma NoDup_snoc (x : nat) l : x ∉ l -> NoDup l -> NoDup (l ++ [x]).
Proof. intros Hx Hl. apply NoDup_app. split_and!; [done|set_solver|apply NoDup_singleton]. Qed.

Lemma offer_queue chs cs : (forall ch, ch ∈ chs -> cs !! ch = Some Empty) -> offer chs cs = Some (head chs, tail chs).
Proof. intros H. destruct chs as [|ch chs]; [done|]. cbn. by rewrite (H ch) by set_solver. Qed.

Lemma closeAll_in chs cs ch : ch ∈ chs -> closeAll chs cs !! ch = Some Closed.
Proof. induction chs as [|x chs IH]; cbn; [by intros ?%elem_of_nil|]. rewrite elem_of_cons, lookup_insert_Some. destruct (decide (ch = x)) as [->|?]; [by left|]. intros [?|?]; [done|]. right. auto. Qed.
Lemma closeAll_out chs cs ch : ch ∉ chs -> closeAll chs cs !! ch = cs !! ch.
Proof. induction chs as [|x chs IH]; cbn; [done|]. rewrite not_elem_of_cons. intros [? ?]. rewrite lookup_insert_ne by done. auto. Qed.

(** A change of one connection that suits its place. *)
Lemma onConn_inv own at_ r mc f : inv own at_ r ->
  (forall p c, sits r mc p -> conns r !! mc = Some c -> fits r p c -> fits r p (f c)) -> inv own at_ (onConn mc f r).
Proof.
  intros [H1 H2 H3 H4 H5] Hf. split; try done. intros mc' p Hs. change (sits r mc' p) in Hs. destruct (H1 mc' p Hs) as (Ho & c & Hc & Hfit).
  split; [done|]. unfold onConn, setConns. cbn [conns]. destruct (decide (mc' = mc)) as [->|Hne].
  - exists (f c). rewrite lookup_alter_eq, Hc. split; [done|]. by apply (Hf p c).
  - exists c. by rewrite lookup_alter_ne.
Qed.

(** One connection, already with its new state, moves to the place [q]. *)
Lemma move_inv own at_ r r' mc q c : inv own at_ r -> conns r' = conns r -> conns r !! mc = Some c ->
  (forall mc' p, mc' <> mc -> sits r' mc' p -> sits r mc' p /\ (forall c', fits r p c' -> fits r' p c')) ->
  (forall p, sits r' mc p -> p = q /\ fits r' p c) ->
  (forall a, NoDup (pool a r')) ->
  (forall a ch, ch ∈ queue a r' -> chans r' !! ch = Some Empty /\ at_ ch = a /\ exists t m, matches r' !! t = Some m /\ waitsOn m = Some (a, ch)) ->
  (forall a, NoDup (queue a r')) ->
  (forall t m a ch, matches r' !! t = Some m -> waitsOn m = Some (a, ch) -> at_ ch = a /\ is_Some (chans r' !! ch)) ->
  inv (fun x => if decide (x = mc) then q else own x) at_ r'.
Proof.
  intros Hi Hcs Hc Hother Hmc Hn Hq Hqn Hw. split; try done. intros mc' p Hs. destruct (decide (mc' = mc)) as [->|Hne].
  - destruct (Hmc p Hs) as [-> Hf]. split; [done|]. exists c. by rewrite Hcs.
  - destruct (Hother mc' p Hne Hs) as [Hs' Hf]. destruct (v_own own at_ r Hi mc' p Hs') as (Ho & c' & Hc' & Hf').
    split; [done|]. exists c'. rewrite Hcs. split; [done|]. by apply Hf.
Qed.

(** A connection in one place is in no other. *)
Lemma sits_inj own at_ r mc p q : inv own at_ r -> sits r mc p -> sits r mc q -> p = q.
Proof. intros Hi Hp Hq. apply (v_own own at_ r Hi) in Hp as [<- _]. by apply (v_own own at_ r Hi) in Hq as [<- _]. Qed.

(** A waiter leaves its queue for good. *)
Lemma dropWaiter_queue a b ch r x : x ∈ queue b (dropWaiter a ch r) -> x ∈ queue b r.
Proof. unfold dropWaiter. rewrite queue_setQueue. case_decide; [subst; apply remove1_sub|done]. Qed.

Lemma setMatch_inv own at_ r t m m' : inv own at_ r -> matches r !! t = Some m ->
  holder m' = None \/ holder m' = holder m /\ claimed m = claimed m' /\ (forall mc, m' = Got mc -> m = Got mc) ->
  (forall a ch, waitsOn m' = Some (a, ch) -> waitsOn m = Some (a, ch)) ->
  (forall a ch, waitsOn m = Some (a, ch) -> waitsOn m' = Some (a, ch) \/ ch ∉ queue a r) ->
  inv own at_ (setMatch t m' r).
Proof.
  intros [H1 H2 H3 H4 H5] Hm Hh Hw Hw'. split; cbn [setMatch matches chans]; try done.
  - intros mc p Hs. assert (Hs0 : sits r mc p).
    { destruct p as [a|ch|t'|]; try exact Hs. destruct Hs as (m1 & Hm1 & Hmc). cbn in Hm1. apply lookup_insert_Some in Hm1 as [ [<- <-] | [? ?] ]; [|by exists m1].
      exists m. split; [done|]. destruct Hh as [E|(E & _)]; congruence. }
    destruct (H1 mc p Hs0) as (Ho & c & Hc & Hf). split; [done|]. exists c. split; [done|]. destruct p as [a|ch|t'|]; try exact Hf.
    intros m1 Hm1. cbn in Hm1. apply lookup_insert_Some in Hm1 as [ [<- <-] | [? ?] ]; [|by apply Hf].
    destruct Hs as (m1 & Hm1 & Hmc). cbn in Hm1. rewrite lookup_insert_eq in Hm1. injection Hm1 as <-.
    destruct (Hf m Hm) as [Hmt Hgot]. destruct Hh as [E|(E1 & E2 & E3)]; [congruence|].
    split; [congruence|]. intros mc' Emc. by apply (Hgot mc'), E3.
  - intros a ch Hq. change (ch ∈ queue a r) in Hq. destruct (H3 a ch Hq) as (He & Ha & t' & m1 & Hm1 & Hwm). split_and!; [done|done|].
    destruct (decide (t' = t)) as [->|Hne]; [|exists t', m1; by rewrite lookup_insert_ne].
    rewrite Hm in Hm1. injection Hm1 as <-. exists t, m'. rewrite lookup_insert_eq. split; [done|]. by destruct (Hw' a ch Hwm).
  - intros t' m1 a ch Hm1 Hwm. apply lookup_insert_Some in Hm1 as [ [<- <-] | [? ?] ]; [|by apply (H5 t' m1)]. by apply (H5 t m), Hw.
Qed.

(** ** Every step keeps the invariant *)

Section Steps.
Context (own : nat -> Place) (at_ : nat -> Addr) (r : Registry) (Hi : inv own at_ r).

Lemma sits_conn mc p : sits r mc p -> is_Some (conns r !! mc).
Proof. intros Hs. apply (v_own own at_ r Hi) in Hs as (_ & c & Hc & _). by exists c. Qed.

Lemma newConn_inv mc c : conns r !! mc = None -> inv own at_ (setConns (<[mc := c]> (conns r)) r).
Proof.
  intros Hn. destruct Hi as [H1 H2 H3 H4 H5]. split; try done. intros mc' p Hs. change (sits r mc' p) in Hs.
  destruct (H1 mc' p Hs) as (Ho & c' & Hc & Hf). split; [done|]. exists c'. cbn. rewrite lookup_insert_ne; [done|congruence].
Qed.

Lemma Unregister_inv a mc : inv own at_ (fst (Unregister a mc r)).
Proof.
  unfold Unregister. destruct Hi as [H1 H2 H3 H4 H5]. case_decide; [|done]. cbn [fst]. split; try done.
  - intros mc' p Hs. assert (Hs0 : sits r mc' p).
    { destruct p as [b|ch|t|]; try exact Hs. cbn [sits] in *. rewrite pool_setPool in Hs. case_decide; [subst; by apply remove1_sub in Hs|done]. }
    destruct (H1 mc' p Hs0) as (Ho & c & Hc & Hf). split; [done|]. by exists c.
  - intros b. rewrite pool_setPool. case_decide; [by apply remove1_nodup|done].
Qed.

Lemma dropWaiter_inv a ch : inv own at_ (dropWaiter a ch r).
Proof.
  destruct Hi as [H1 H2 H3 H4 H5]. split; try done.
  - intros b x Hx. apply dropWaiter_queue in Hx. by apply H3.
  - intros b. unfold dropWaiter. rewrite queue_setQueue. case_decide; [by apply remove1_nodup|done].
Qed.

Lemma newMatch_inv t a : matches r !! t = None -> inv own at_ (setMatch t (Try a) r).
Proof.
  intros Hn. destruct Hi as [H1 H2 H3 H4 H5]. split; cbn [setMatch matches chans]; try done.
  - intros mc p Hs. assert (Hs0 : sits r mc p).
    { destruct p; try exact Hs. destruct Hs as (m & Hm & Hh). cbn in Hm. apply lookup_insert_Some in Hm as [ [<- <-] | [? ?] ]; [done|by exists m]. }
    destruct (H1 mc p Hs0) as (Ho & c & Hc & Hf). split; [done|]. exists c. split; [done|]. destruct p; try exact Hf.
    intros m Hm. cbn in Hm. apply lookup_insert_Some in Hm as [ [<- <-] | [? ?] ]; [|by apply Hf].
    destruct Hs0 as (m & Hm & _). congruence.
  - intros b ch Hq. destruct (H3 b ch Hq) as (He & Ha & t' & m & Hm & Hw). split_and!; [done|done|]. exists t', m.
    rewrite lookup_insert_ne; [done|congruence].
  - intros t' m b ch Hm Hw. apply lookup_insert_Some in Hm as [ [<- <-] | [? ?] ]; [done|by apply (H5 t' m)].
Qed.

(** A caller goes on with the connection it holds. *)
Lemma holdStep_inv t m m' mc f : matches r !! t = Some m -> holder m = Some mc -> holder m' = Some mc -> waitsOn m = None -> waitsOn m' = None ->
  (forall c, conns r !! mc = Some c -> matched c = claimed m -> matched (f c) = claimed m' /\ (forall x, m' = Got x -> loop (f c) = false /\ sender (f c) = false)) ->
  inv own at_ (setMatch t m' (onConn mc f r)).
Proof.
  intros Hm Hh Hh' Hw Hw' Hf. destruct Hi as [H1 H2 H3 H4 H5]. assert (Hsit : sits r mc (InMatch t)) by (by exists m).
  split; cbn [setMatch onConn setConns matches chans]; try done.
  - intros mc' p Hs. assert (Hs0 : sits r mc' p).
    { destruct p; try exact Hs. destruct Hs as (m1 & Hm1 & E). cbn in Hm1. apply lookup_insert_Some in Hm1 as [ [<- <-] | [? ?] ]; [exists m; split; congruence|by exists m1]. }
    destruct (H1 mc' p Hs0) as (Ho & c & Hc & Hfit). split; [done|]. cbn [setMatch onConn setConns conns]. destruct (decide (mc' = mc)) as [->|Hne].
    + destruct (H1 mc (InMatch t) Hsit) as [Ho' _]. assert (p = InMatch t) as -> by congruence. exists (f c). rewrite lookup_alter_eq, Hc. split; [done|].
      intros m1 Hm1. cbn in Hm1. rewrite lookup_insert_eq in Hm1. injection Hm1 as <-. apply Hf; [done|]. by apply (Hfit m).
    + exists c. rewrite lookup_alter_ne by done. split; [done|]. destruct p; try exact Hfit. intros m1 Hm1. cbn in Hm1.
      apply lookup_insert_Some in Hm1 as [ [<- <-] | [? ?] ]; [|by apply Hfit]. destruct Hs0 as (m1 & Hm1 & E). congruence.
  - intros b ch Hq. destruct (H3 b ch Hq) as (He & Ha & t' & m1 & Hm1 & Hw1). split_and!; [done|done|]. exists t', m1.
    rewrite lookup_insert_ne; [done|]. congruence.
  - intros t' m1 b ch Hm1 Hw1. apply lookup_insert_Some in Hm1 as [ [<- <-] | [? ?] ]; [congruence|by apply (H5 t' m1)].
Qed.

(** A caller takes a connection out of its channel. *)
Lemma takeConn_inv t a ch mc m' : matches r !! t = Some (Wait a ch) -> chans r !! ch = Some (Full mc) -> holder m' = Some mc -> claimed m' = false ->
  (forall x, waitsOn m' = Some x -> x = (a, ch)) ->
  inv (fun x => if decide (x = mc) then InMatch t else own x) at_ (setMatch t m' (setChans (<[ch := Empty]> (chans r)) r)).
Proof.
  intros Hm Hch Hh Hcl Hw. pose proof Hi as [H1 H2 H3 H4 H5]. assert (Hsit : sits r mc (InChan ch)) by done.
  destruct (H1 mc _ Hsit) as (Ho & c & Hc & Hfit). cbn in Hfit.
  assert (Hq : forall b x, x ∈ queue b r -> x <> ch) by (intros b x Hx ->; apply H3 in Hx as [? _]; congruence).
  eapply (move_inv own at_ r _ mc (InMatch t) c); try done.
  - intros mc' p Hne Hs. destruct p as [b|ch'|t'|]; try by split.
    + cbn in *. apply lookup_insert_Some in Hs as [ [<- ?] | [? ?] ]; done.
    + destruct Hs as (m1 & Hm1 & E). cbn in Hm1. apply lookup_insert_Some in Hm1 as [ [<- <-] | [Hne' Hm1] ]; [congruence|].
      split; [by exists m1|]. intros c' Hf m2 Hm2. cbn in Hm2. rewrite lookup_insert_ne in Hm2 by done. by apply Hf.
  - intros p Hs. assert (Hs0 : p = InMatch t \/ sits r mc p /\ p <> InChan ch).
    { destruct p as [b|ch'|t'|]; [by right|right|left|by right].
      - cbn in *. apply lookup_insert_Some in Hs as [ [<- ?] | [? ?] ]; [done|split; [done|congruence]].
      - destruct Hs as (m1 & Hm1 & E). cbn in Hm1. apply lookup_insert_Some in Hm1 as [ [<- <-] | [Hne' Hm1] ]; [done|].
        assert (Hx : sits r mc (InMatch t')) by (by exists m1). by pose proof (sits_inj own at_ r mc _ _ Hi Hsit Hx). }
    destruct Hs0 as [->|[Hs0 Hne]]; [|by pose proof (sits_inj own at_ r mc _ _ Hi Hsit Hs0) as <-]. split; [done|].
    intros m1 Hm1. cbn in Hm1. rewrite lookup_insert_eq in Hm1. injection Hm1 as <-. split; [congruence|]. by intros x ->.
  - intros b x Hx. change (x ∈ queue b r) in Hx. cbn [setMatch setChans chans matches]. pose proof (Hq b x Hx).
    destruct (H3 b x Hx) as (He & Ha & t' & m1 & Hm1 & Hw1). rewrite lookup_insert_ne by done. split_and!; [done|done|]. exists t', m1.
    rewrite lookup_insert_ne; [done|]. intros <-. rewrite Hm in Hm1. injection Hm1 as <-. cbn in Hw1. congruence.
  - intros t' m1 b x Hm1 Hw1. cbn [setMatch setChans chans matches] in *. apply lookup_insert_Some in Hm1 as [ [<- <-] | [? ?] ].
    + apply Hw in Hw1. injection Hw1 as -> ->. rewrite lookup_insert_eq. split; [|done]. by apply (H5 t (Wait a ch)).
    + destruct (H5 t' m1 b x) as [Ha [y Hy]]; [done|done|]. split; [done|]. destruct (decide (ch = x)) as [->|?]; [by rewrite lookup_insert_eq|by rewrite lookup_insert_ne; [exists y|]].
Qed.

(** A caller takes the first connection of the pool. *)
Lemma pop_inv t a mc rest : matches r !! t = Some (Try a) -> pool a r = mc :: rest ->
  inv (fun x => if decide (x = mc) then InMatch t else own x) at_ (setMatch t (Claim a mc FromPool) (setPool a rest r)).
Proof.
  intros Hm Hp. pose proof Hi as [H1 H2 H3 H4 H5]. assert (Hsit : sits r mc (InPool a)) by (cbn; rewrite Hp; set_solver).
  destruct (H1 mc _ Hsit) as (Ho & c & Hc & Hfit). cbn in Hfit. assert (Hnd : NoDup (mc :: rest)) by (rewrite <- Hp; apply H2). apply NoDup_cons in Hnd as [Hout Hnd].
  assert (Hsub : forall x b, x ∈ pool b (setPool a rest r) -> x ∈ pool b r) by (intros x b; rewrite pool_setPool; case_decide; [subst; rewrite Hp; set_solver|done]).
  eapply (move_inv own at_ r _ mc (InMatch t) c); try done.
  - intros mc' p Hne Hs. destruct p as [b|ch'|t'|]; try by split.
    + split; [|done]. cbn in *. by apply Hsub in Hs.
    + destruct Hs as (m1 & Hm1 & E). cbn in Hm1. apply lookup_insert_Some in Hm1 as [ [<- <-] | [Hne' Hm1] ]; [cbn in E; congruence|].
      split; [by exists m1|]. intros c' Hf m2 Hm2. cbn in Hm2. rewrite lookup_insert_ne in Hm2 by done. by apply Hf.
  - intros p Hs. destruct p as [b|ch'|t'|].
    + change (mc ∈ pool b (setPool a rest r)) in Hs. pose proof (sits_inj own at_ r mc _ (InPool b) Hi Hsit (Hsub _ _ Hs)) as [= <-].
      rewrite pool_setPool, decide_True in Hs by done. done.
    + by pose proof (sits_inj own at_ r mc _ (InChan ch') Hi Hsit Hs).
    + destruct (decide (t' = t)) as [->|Hne].
      * split; [done|]. intros m1 Hm1. cbn in Hm1. rewrite lookup_insert_eq in Hm1. injection Hm1 as <-. split; [by apply Hfit|done].
      * destruct Hs as (m1 & Hm1 & E). cbn in Hm1. rewrite lookup_insert_ne in Hm1 by done.
        by pose proof (sits_inj own at_ r mc _ (InMatch t') Hi Hsit (ex_intro _ m1 (conj Hm1 E))).
    + by pose proof (sits_inj own at_ r mc _ Entering Hi Hsit Hs).
  - intros b. change (NoDup (pool b (setPool a rest r))). rewrite pool_setPool. by case_decide.
  - intros b ch Hq. destruct (H3 b ch Hq) as (He & Ha & t' & m1 & Hm1 & Hw1). split_and!; [done|done|]. exists t', m1. cbn.
    rewrite lookup_insert_ne; [done|]. intros <-. rewrite Hm in Hm1. by injection Hm1 as <-.
  - intros t' m1 b ch Hm1 Hw1. cbn in Hm1. apply lookup_insert_Some in Hm1 as [ [<- <-] | [? ?] ]; [done|by apply (H5 t' m1)].
Qed.

Lemma enter_inv mc c : conns r !! mc = Some c -> (forall p, ~ sits r mc p) -> matched c = false -> watch c = WNone ->
  inv (fun x => if decide (x = mc) then Entering else own x) at_ (setEntering (entering r ∪ {[mc]}) r).
Proof.
  intros Hc Hno Hm Hw. pose proof Hi as [H1 H2 H3 H4 H5]. eapply (move_inv own at_ r _ mc Entering c); try done.
  - intros mc' p Hne Hs. split; [|by destruct p]. destruct p; try exact Hs. cbn in *. set_solver.
  - intros p Hs. destruct p as [a|ch|t|]; [by destruct (Hno (InPool a))|by destruct (Hno (InChan ch))|by destruct (Hno (InMatch t))|done].
Qed.

(** Register hands the connection to the waiter that came first, or puts it last in the
    pool; it never meets a closed or a full channel. *)
Lemma deliver_inv mc c : conns r !! mc = Some c -> mc ∈ entering r -> exists q r',
  deliver (address c) mc (setEntering (entering r ∖ {[mc]}) r) = Some r' /\ inv (fun x => if decide (x = mc) then q else own x) at_ r'.
Proof.
  intros Hc He. pose proof Hi as [H1 H2 H3 H4 H5]. assert (Hsit : sits r mc Entering) by done.
  destruct (H1 mc _ Hsit) as (Ho & c' & Hc' & Hm & Hw). rewrite Hc in Hc'. injection Hc' as <-. set (a := address c). set (r1 := setEntering _ r).
  assert (Hno : forall p, sits r mc p -> p = Entering) by (intros p Hp; by rewrite (sits_inj own at_ r mc _ _ Hi Hp Hsit)).
  unfold deliver. rewrite offer_queue by (intros ch Hch; by apply (H3 a)). change (queue a r1) with (queue a r).
  destruct (queue a r) as [|ch chs] eqn:Eq; cbn [head tail].
  - exists (InPool a). eexists. split; [done|]. change (pool a r1) with (pool a r).
    assert (Hp : forall b, pool b (setPool a (pool a r ++ [mc]) (setQueue a [] r1)) = if decide (b = a) then pool a r ++ [mc] else pool b r) by (intros b; by rewrite pool_setPool).
    assert (Hq : forall b, queue b (setPool a (pool a r ++ [mc]) (setQueue a [] r1)) = queue b r).
    { intros b. change (queue b (setQueue a [] r1) = queue b r). rewrite queue_setQueue. case_decide; [by subst|done]. }
    eapply (move_inv own at_ r _ mc (InPool a) c); try done.
    + intros mc' p Hne Hs. split; [|by destruct p]. destruct p as [b|ch'|t|]; try exact Hs.
      * cbn [sits] in *. rewrite Hp in Hs. case_decide; [subst|done]. set_solver.
      * cbn in *. set_solver.
    + intros p Hs. destruct p as [b|ch'|t|].
      * cbn [sits] in Hs. rewrite Hp in Hs. case_decide as Eb; [subst b|by specialize (Hno (InPool b) Hs)]. split; [done|]. cbn. by rewrite Hw.
      * by specialize (Hno (InChan ch') Hs).
      * by specialize (Hno (InMatch t) Hs).
      * cbn in Hs. set_solver.
    + intros b. rewrite Hp. case_decide; [|done]. apply NoDup_snoc; [|apply H2]. intros Hin. by specialize (Hno (InPool a) Hin).
    + intros b ch. rewrite Hq. apply H3.
    + intros b. rewrite Hq. apply H4.
  - exists (InChan ch). eexists. split; [done|]. assert (Hch : chans r !! ch = Some Empty /\ at_ ch = a) by (destruct (H3 a ch) as (? & ? & _); [rewrite Eq; set_solver|done]).
    assert (Hnd : NoDup (ch :: chs)) by (rewrite <- Eq; apply H4). apply NoDup_cons in Hnd as [Hout Hnd].
    set (r2 := setChans _ _). assert (Hq : forall b, queue b r2 = if decide (b = a) then chs else queue b r) by (intros b; change (queue b r2) with (queue b (setQueue a chs r1)); by rewrite queue_setQueue).
    assert (Hsub : forall b x, x ∈ queue b r2 -> x ∈ queue b r /\ x <> ch).
    { intros b x. rewrite Hq. case_decide as Eb; [subst b; rewrite Eq; set_solver|]. intros Hx. split; [done|]. intros ->. apply H3 in Hx as (_ & Ha & _). destruct Hch. congruence. }
    eapply (move_inv own at_ r _ mc (InChan ch) c); try done.
    + intros mc' p Hne Hs. split; [|by destruct p]. destruct p as [b|ch'|t|]; try exact Hs; cbn in *.
      * apply lookup_insert_Some in Hs as [ [<- ?] | [? ?] ]; [congruence|done].
      * set_solver.
    + intros p Hs. destruct p as [b|ch'|t|].
      * by specialize (Hno (InPool b) Hs).
      * cbn in Hs. apply lookup_insert_Some in Hs as [ [<- ?] | [? Hs] ]; [done|by specialize (Hno (InChan ch') Hs)].
      * by specialize (Hno (InMatch t) Hs).
      * cbn in Hs. set_solver.
    + intros b x Hx. apply Hsub in Hx as [Hx Hne]. cbn. rewrite lookup_insert_ne by done. by apply H3.
    + intros b. rewrite Hq. case_decide; [done|apply H4].
    + intros t m b x Hm1 Hw1. destruct (H5 t m b x Hm1 Hw1) as [Ha [y Hy]]. split; [done|]. cbn. destruct (decide (ch = x)) as [->|?]; [by rewrite lookup_insert_eq|].
      rewrite lookup_insert_ne by done. by exists y.
Qed.

(** A caller that found the pool empty queues with a new channel. *)
Lemma queue_inv t a ch : matches r !! t = Some (Try a) -> chans r !! ch = None ->
  inv own (fun x => if decide (x = ch) then a else at_ x) (setMatch t (Wait a ch) (setChans (<[ch := Empty]> (chans r)) (setQueue a (queue a r ++ [ch]) r))).
Proof.
  intros Hm Hch. pose proof Hi as [H1 H2 H3 H4 H5]. set (r' := setMatch _ _ _).
  assert (Hq : forall b, queue b r' = if decide (b = a) then queue a r ++ [ch] else queue b r) by (intros b; change (queue b r') with (queue b (setQueue a (queue a r ++ [ch]) r)); by rewrite queue_setQueue).
  assert (Hnew : forall b x, x ∈ queue b r -> x <> ch) by (intros b x Hx ->; apply H3 in Hx as [? _]; congruence).
  assert (Hold : forall b x, x ∈ queue b r -> chans r' !! x = Some Empty /\ (if decide (x = ch) then a else at_ x) = b /\ exists t m, matches r' !! t = Some m /\ waitsOn m = Some (b, x)).
  { intros b x Hx. pose proof (Hnew b x Hx). destruct (H3 b x Hx) as (He & Ha & t' & m & Hm' & Hw). cbn. rewrite lookup_insert_ne, decide_False by done. split_and!; [done|done|].
    exists t', m. rewrite lookup_insert_ne; [done|]. intros <-. rewrite Hm in Hm'. by injection Hm' as <-. }
  split.
  - intros mc p Hs. assert (Hs0 : sits r mc p /\ p <> InMatch t).
    { destruct p as [b|ch'|t'|]; try done; cbn in *.
      - apply lookup_insert_Some in Hs as [ [<- ?] | [? ?] ]; done.
      - destruct Hs as (m & Hm' & E). apply lookup_insert_Some in Hm' as [ [<- <-] | [? ?] ]; [done|]. split; [by exists m|congruence]. }
    destruct Hs0 as [Hs0 Hne]. destruct (H1 mc p Hs0) as (Ho & c & Hc & Hf). split; [done|]. exists c. split; [done|]. destruct p as [b|ch'|t'|]; try done.
    intros m Hm'. cbn in Hm'. rewrite lookup_insert_ne in Hm' by congruence. by apply Hf.
  - done.
  - intros b x. rewrite Hq. case_decide as E; [subst b|by apply Hold]. rewrite elem_of_app, list_elem_of_singleton. intros [Hx|Hx]; [by apply Hold|]. subst x.
    cbn. rewrite !lookup_insert_eq, decide_True by done. split_and!; [done|done|]. exists t, (Wait a ch). by rewrite lookup_insert_eq.
  - intros b. rewrite Hq. case_decide; [|done]. apply NoDup_snoc; [|apply H4]. intros Hin. by apply (Hnew a ch).
  - intros t' m b x Hm' Hw. cbn in *. apply lookup_insert_Some in Hm' as [ [<- <-] | [Hne Hm'] ].
    + cbn in Hw. injection Hw as <- <-. by rewrite decide_True, lookup_insert_eq.
    + destruct (H5 t' m b x Hm' Hw) as [Ha [y Hy]]. assert (x <> ch) by congruence. rewrite decide_False, lookup_insert_ne by done. split; [done|by exists y].
Qed.

Lemma CloseByAddress_inv a : inv own at_ (CloseByAddress a r).
Proof.
  pose proof Hi as [H1 H2 H3 H4 H5]. set (r' := CloseByAddress a r).
  assert (Hp : forall b, pool b r' = if decide (b = a) then [] else pool b r).
  { intros b. unfold pool, r', CloseByAddress. cbn [bottoms]. case_decide; [subst; by rewrite lookup_delete_eq|by rewrite lookup_delete_ne]. }
  assert (Hq : forall b, queue b r' = if decide (b = a) then [] else queue b r).
  { intros b. unfold queue, r', CloseByAddress. cbn [waiters]. case_decide; [subst; by rewrite lookup_delete_eq|by rewrite lookup_delete_ne]. }
  split.
  - intros mc p Hs. assert (Hs0 : sits r mc p).
    { destruct p as [b|ch|t|]; try exact Hs; cbn [sits] in *.
      - rewrite Hp in Hs. case_decide; [by apply elem_of_nil in Hs|done].
      - destruct (decide (ch ∈ queue a r)) as [Hin|Hout]; [|by rewrite <- (closeAll_out (queue a r))]. cbn in Hs. by rewrite closeAll_in in Hs. }
    destruct (H1 mc p Hs0) as (Ho & c & Hc & Hf). split; [done|]. by exists c.
  - intros b. rewrite Hp. case_decide; [constructor|done].
  - intros b ch. rewrite Hq. case_decide as E; [by intros ?%elem_of_nil|]. intros Hx. destruct (H3 b ch Hx) as (He & Ha & Ht). split_and!; [|done|done].
    cbn. rewrite closeAll_out; [done|]. intros Hx'. apply H3 in Hx' as (_ & Ha' & _). congruence.
  - intros b. rewrite Hq. case_decide; [constructor|done].
  - intros t m b ch Hm Hw. destruct (H5 t m b ch Hm Hw) as [Ha Hs]. split; [done|]. cbn. destruct (decide (ch ∈ queue a r)); [by rewrite closeAll_in|by rewrite closeAll_out].
Qed.

Lemma sweep_inv : inv own at_ (sweep r).
Proof.
  destruct Hi as [H1 H2 H3 H4 H5]. split; try done. intros mc p Hs. change (sits r mc p) in Hs. destruct (H1 mc p Hs) as (Ho & c & Hc & Hf). split; [done|].
  cbn. rewrite map_lookup_imap, Hc. cbn. eexists. split; [done|]. case_match; [|done]. destruct p; exact Hf.
Qed.

Lemma Unregister_out a mc : ~ mc ∈ pool a (fst (Unregister a mc r)).
Proof. unfold Unregister. case_decide; [|done]. cbn [fst]. rewrite pool_setPool, decide_True by done. by apply remove1_out, (v_pool own at_ r Hi). Qed.

Lemma runWatch_inv mc c r' : conns r !! mc = Some c -> runWatch mc c r = Some r' -> inv own at_ r'.
Proof.
  intros Hc. unfold runWatch. assert (Hfit : forall p, sits r mc p -> fits r p c).
  { intros p Hp. apply (v_own own at_ r Hi) in Hp as (_ & c' & Hc' & Hf). congruence. }
  assert (Hset : forall w, (early w = true \/ early (watch c) = false \/ matched c = true \/ forall a, ~ mc ∈ pool a r) -> watch c <> WNone -> inv own at_ (onConn mc (setWatch w) r)).
  { intros w Hw Hne. apply onConn_inv; [done|]. intros p c' Hs Hc' Hf. assert (c' = c) as -> by congruence.
    destruct p as [a|ch|t|]; cbn in Hf |- *; [|done..|by destruct Hf]. destruct Hf as (Ha & Hm & He). split_and!; try done.
    destruct Hw as [?|[?|[?|Hno]]]; [done|congruence|congruence|by apply Hno in Hs]. }
  destruct (watch c) eqn:Ew; try done.
  - destruct (loop c); [done|]. intros [= <-]. apply Hset; [|done]. destruct (matched c); auto.
  - pose proof (Unregister_inv (address c) mc) as Hu. pose proof (Unregister_out (address c) mc) as Hout.
    unfold Unregister in *. case_decide as Ein; cbn [fst] in *; intros [= <-].
    + apply onConn_inv; [done|]. intros p c' Hs Hc' Hf. change (conns r !! mc = Some c') in Hc'. assert (c' = c) as -> by congruence.
      destruct p as [a|ch|t|]; cbn [fits] in Hf |- *; [|exact Hf|exact Hf|]; [destruct Hf as (<- & _); done|]. destruct Hf as [_ Hf]. congruence.
    + apply Hset; [|done]. right; right; right. intros a Ha. pose proof (Hfit (InPool a) Ha) as (E & _). by subst a.
  - intros [= <-]. apply Hset; [by right; left|done].
  - intros [= <-]. apply onConn_inv; [done|]. intros p c' Hs Hc' Hf. assert (c' = c) as -> by congruence.
    destruct p as [a|ch|t|]; cbn in Hf |- *; [|done..|]; destruct Hf; rewrite Ew in *; [naive_solver|done].
Qed.
End Steps.

Lemma runMatch_inv own at_ r act t m r' : inv own at_ r -> matches r !! t = Some m -> runMatch act t m r = Some r' -> exists own at_, inv own at_ r'.
Proof.
  intros Hi Hm Hr. destruct act as [| | | |t'|t'|t' newCh|t'|t'|t'|t'|t'|t'|t'| | | | | | |]; try done; destruct m as [a|a mc o|a mc o|a ch|a ch mc|a ch|a ch| |mc]; try done; cbn [runMatch] in Hr.
  - destruct (pool a r) as [|mc rest] eqn:E; [done|]. injection Hr as <-. eexists _, _. by apply pop_inv.
  - destruct (pool a r) eqn:E; [|done]. destruct (chans r !! newCh) eqn:Ec; [done|]. injection Hr as <-. eexists _, _. by apply queue_inv.
  - injection Hr as <-. exists own, at_. by apply (holdStep_inv own at_ r Hi t (Claim a mc o)).
  - destruct (conns r !! mc) as [c|] eqn:Ec; [|done]. destruct (closed c); [done|]. injection Hr as <-. exists own, at_.
    by apply (holdStep_inv own at_ r Hi t (Shake a mc o)).
  - assert (H1 : inv own at_ (onConn mc (fun c => endSender (close c)) r)).
    { apply onConn_inv; [done|]. intros p c Hs Hc Hf. destruct p as [b|ch|u|]; cbn in Hf |- *; try done. intros m' Hm'. destruct (Hf m' Hm') as [? Hg].
      split; [done|]. intros x Hx. by destruct (Hg x Hx). }
    assert (H2 : inv own at_ (fst (Unregister a mc (onConn mc (fun c => endSender (close c)) r)))) by (by apply Unregister_inv).
    assert (Hm2 : matches (fst (Unregister a mc (onConn mc (fun c => endSender (close c)) r))) !! t = Some (Shake a mc o)) by (unfold Unregister; by case_decide).
    destruct o; injection Hr as <-; exists own, at_; (eapply setMatch_inv; [done|done|by left|done|done]).
  - assert (Hq : chans r !! ch <> Some Empty -> ch ∉ queue a r) by (intros Hne Hin; by apply (v_chan own at_ r Hi) in Hin as [? _]).
    destruct (chans r !! ch) as [ [|mc|]|] eqn:Ec; try done; injection Hr as <-; eexists _, _.
    + by apply (takeConn_inv own at_ r Hi t a ch mc).
    + apply (setMatch_inv own at_ r t (Wait a ch)); try done; [by left|]. intros b x [= <- <-]. right. by apply Hq.
  - destruct (cancelled r); [|done]. assert (Hq : chans r !! ch <> Some Empty -> ch ∉ queue a r) by (intros Hne Hin; by apply (v_chan own at_ r Hi) in Hin as [? _]).
    destruct (chans r !! ch) as [ [|mc|]|] eqn:Ec; injection Hr as <-; eexists _, _.
    + apply (setMatch_inv own at_ r t (Wait a ch)); try done; [by left|by left].
    + apply (takeConn_inv own at_ r Hi t a ch mc); try done. intros x [= <-]. done.
    + apply (setMatch_inv own at_ r t (Wait a ch)); try done; [by left|]. intros b x [= <- <-]. right. by apply Hq.
    + apply (setMatch_inv own at_ r t (Wait a ch)); try done; [by left|by left].
  - injection Hr as <-. exists own, at_. apply (setMatch_inv own at_ r t (Wait a ch)); try done; [by left|by left].
  - injection Hr as <-. exists own, at_. pose proof (dropWaiter_inv own at_ r Hi a ch) as Hd. apply (setMatch_inv own at_ _ t (Drained a ch mc)); try done; [by right|].
    intros b x [= <- <-]. right. unfold dropWaiter. rewrite queue_setQueue, decide_True by done. apply remove1_out, (v_queue own at_ r Hi).
  - injection Hr as <-. exists own, at_. pose proof (dropWaiter_inv own at_ r Hi a ch) as Hd. apply (setMatch_inv own at_ _ t (Cancelled a ch)); try done; [by left|].
    intros b x [= <- <-]. right. unfold dropWaiter. rewrite queue_setQueue, decide_True by done. apply remove1_out, (v_queue own at_ r Hi).
  - injection Hr as <-. exists own, at_. pose proof (dropWaiter_inv own at_ r Hi a ch) as Hd. apply (setMatch_inv own at_ _ t (Expired a ch)); try done; [by left|].
    intros b x [= <- <-]. right. unfold dropWaiter. rewrite queue_setQueue, decide_True by done. apply remove1_out, (v_queue own at_ r Hi).
Qed.

Lemma exec_inv own at_ r act r' : inv own at_ r -> exec act r = Some r' -> exists own at_, inv own at_ r'.
Proof.
  intros Hi. assert (Hconn : forall mc f, (forall c, address (f c) = address c /\ matched (f c) = matched c /\ watch (f c) = watch c /\ (loop c = false -> loop (f c) = false) /\ (sender c = false -> sender (f c) = false)) ->
    inv own at_ (onConn mc f r)).
  { intros mc f Hf. apply onConn_inv; [done|]. intros p c _ _ Hfit. destruct (Hf c) as (E1 & E2 & E3 & E4 & E5). destruct p as [a|ch|t|]; cbn in *; rewrite ?E1, ?E2, ?E3; try done.
    intros m Hm. destruct (Hfit m Hm) as [? Hg]. split; [done|]. intros x Hx. destruct (Hg x Hx). auto. }
  destruct act as [mc a|mc|mc|mc|t a|t|t ch|t|t|t|t|t|t|t|a| | |mc|mc|mc|mc]; cbn [exec];
    try (intros Hr; destruct (matches r !! t) as [m|] eqn:Em; [|done]; exact (runMatch_inv own at_ r _ t m r' Hi Em Hr)).
  - destruct (conns r !! mc) eqn:Ec; [done|]. destruct (cancelled r); intros [= <-]; [exists own, at_; by apply newConn_inv|].
    pose proof (newConn_inv own at_ r Hi mc (mkMC a false false true true false WNone) Ec) as Hn. eexists _, _.
    apply (enter_inv own at_ (setConns _ r) Hn mc (mkMC a false false true true false WNone)); [by cbn; rewrite lookup_insert_eq| |done|done].
    intros p Hs. change (sits r mc p) in Hs. apply (sits_conn own at_ r Hi) in Hs as [? ?]. congruence.
  - destruct (conns r !! mc) as [c|] eqn:Ec; [|done]. case_decide as He; [|done]. destruct (deliver_inv own at_ r Hi mc c Ec He) as (q & r1 & -> & H1).
    intros [= <-]. by eexists _, _.
  - destruct (conns r !! mc) as [c|] eqn:Ec; [|done]. case_decide as He; [done|]. destruct (watch c) eqn:Ew; try done. intros [= <-]. exists own, at_.
    apply onConn_inv; [done|]. intros p c' Hs Hc' Hf. destruct p as [a|ch|t|]; cbn in Hf |- *; [naive_solver|done..].
  - destruct (conns r !! mc) as [c|] eqn:Ec; [|done]. case_decide as He; [done|]. destruct (watch c) eqn:Ew; try done. intros [= <-]. exists own, at_.
    pose proof (Unregister_inv own at_ r Hi (address c) mc) as Hu. pose proof (Unregister_out own at_ r Hi (address c) mc) as Hout.
    apply onConn_inv; [done|]. intros p c' Hs Hc' Hf.
    assert (c' = c) as -> by (unfold Unregister in Hc'; case_decide; cbn in Hc'; congruence).
    destruct p as [a|ch|t|]; cbn in Hf |- *.
    + destruct Hf as (<- & _). done.
    + done.
    + intros m Hm. by destruct (Hf m Hm).
    + unfold Unregister in Hs. case_decide; done.
  - destruct (matches r !! t) eqn:Em; [done|]. intros [= <-]. exists own, at_. by apply newMatch_inv.
  - intros Hr. injection Hr as <-. exists own, at_. by apply CloseByAddress_inv.
  - intros Hr. injection Hr as <-. exists own, at_. by apply sweep_inv.
  - intros Hr. injection Hr as <-. exists own, at_. by destruct Hi.
  - destruct (conns r !! mc); [|done]. intros [= <-]. exists own, at_. by apply Hconn.
  - destruct (conns r !! mc) as [c|] eqn:Ec; [|done]. intros Hr. exists own, at_. by apply (runWatch_inv own at_ r Hi mc c).
  - destruct (conns r !! mc) as [c|] eqn:Ec; [|done]. destruct (idle c); [|destruct (matched c); [done|]]; intros [= <-]; exists own, at_; by apply Hconn.
  - destruct (conns r !! mc) as [c|] eqn:Ec; [|done]. destruct (sender c); [|done]. intros [= <-]. exists own, at_. by apply Hconn.
Qed.

Lemma reachable_inv r : reachable r -> exists own at_, inv own at_ r.
Proof.
  revert r. apply (rtc_ind_r (fun r => exists own at_, inv own at_ r)).
  - exists (fun _ => Entering), (fun _ => []). split; try (intros; by constructor); try done.
    + intros mc [a|ch|t|]; cbn; [by intros ?%elem_of_nil|done|by intros (m & ? & _)|set_solver].
    + by intros a ch ?%elem_of_nil.
  - intros r1 r2 _ Hs (own & at_ & Hi). destruct Hs as [act r1 r2 Hr]. by apply (exec_inv own at_ r1 act).
Qed.

(** ** What the registry promises *)

(** C7: in every interleaving a reverse connection is in at most one place: one address's
    pool, one waiter's channel, one caller of Match, or its own registration.  So no two
    dialers get the same connection.  One that Match has returned is marked as claimed and
    neither its read loop nor its heartbeats run any more, so the dialer alone reads and
    writes.  A registration always goes through, to the caller that has waited longest for
    its address or, when none waits, to the end of the pool: it never meets a full or a
    closed channel. *)
Theorem registry_exclusive r : reachable r ->
  (forall mc p q, sits r mc p -> sits r mc q -> p = q) /\
  (forall t mc, matches r !! t = Some (Got mc) -> exists c, conns r !! mc = Some c /\ matched c = true /\ loop c = false /\ sender c = false) /\
  (forall mc c, conns r !! mc = Some c -> mc ∈ entering r ->
     let r1 := setEntering (entering r ∖ {[mc]}) r in
     exec (ADeliver mc) r = Some match queue (address c) r with
       | ch :: chs => setChans (<[ch := Full mc]> (chans r)) (setQueue (address c) chs r1)
       | [] => setPool (address c) (pool (address c) r ++ [mc]) (setQueue (address c) [] r1)
       end).
Proof.
  intros (own & at_ & Hi)%reachable_inv. split_and!.
  - intros mc p q. by apply (sits_inj own at_).
  - intros t mc Hm. destruct (v_own own at_ r Hi mc (InMatch t)) as (_ & c & Hc & Hf); [by exists (Got mc)|]. exists c.
    destruct (Hf _ Hm) as [? Hg]. by destruct (Hg mc eq_refl).
  - intros mc c Hc He r1. cbn [exec]. rewrite Hc, decide_True by done. unfold deliver. change (queue (address c) (setEntering _ r)) with (queue (address c) r).
    rewrite offer_queue by (intros ch Hch; by apply (v_chan own at_ r Hi) in Hch as [? _]). by destruct (queue (address c) r).
Qed.

Definition execs (acts : list action) (r : Registry) : option Registry := foldl (fun o act => o ≫= exec act) (Some r) acts.
Lemma execs_reachable acts r : execs acts newRegistry = Some r -> reachable r.
Proof.
  unfold execs, reachable. revert r. induction acts as [|act acts IH] using rev_ind; intros r; [intros [= <-]; constructor|].
  rewrite foldl_app. cbn [foldl]. destruct (foldl _ _ acts) as [r1|]; [|done]. cbn. intros H. eapply rtc_r; [by apply IH|]. by econstructor.
Qed.

(** A connection is registered and taken by a caller of Match. *)
Definition taken : list action := [ANew 0 [1]; ADeliver 0; ARegistered 0; AUnmatched 0 [1]; APop 0; AClaim 0; AShake 0; ANew 1 [1]].
Lemma registry_exclusive_witness : exists r, execs taken newRegistry = Some r /\ matches r !! 0%nat = Some (Got 0) /\
  (exists c, conns r !! 0%nat = Some c /\ matched c = true /\ loop c = false /\ sender c = false).
Proof.
  destruct (execs taken newRegistry) as [r|] eqn:E; [|vm_compute in E; discriminate]. exists r.
  assert (Hm : matches r !! 0%nat = Some (Got 0)) by (vm_compute in E; injection E as <-; vm_compute; reflexivity).
  split_and!; [done|done|]. by apply (registry_exclusive r (execs_reachable _ r E)) with (t := 0%nat).
Defined.

Lemma closed_by x mc f (cs : gmap nat ManagedConn) c c' : cs !! mc = Some c -> closed c = false -> alter f x cs !! mc = Some c' -> closed c' = true ->
  x = mc /\ closed (f c) = true.
Proof.
  intros Hc Ho Hc' Hcl. destruct (decide (x = mc)) as [->|Hne]; [rewrite lookup_alter_eq, Hc in Hc'; by injection Hc' as <-|].
  rewrite lookup_alter_ne, Hc in Hc' by done. injection Hc' as <-. congruence.
Qed.

Lemma Unregister_conns a mc r : conns (fst (Unregister a mc r)) = conns r.
Proof. unfold Unregister. by case_decide. Qed.

(** The callers of Match close only what they hold. *)
Lemma runMatch_closes act t m r r' mc c c' : runMatch act t m r = Some r' -> conns r !! mc = Some c -> closed c = false ->
  conns r' !! mc = Some c' -> closed c' = true -> exists u a o, act = AShakeFails u /\ m = Shake a mc o.
Proof.
  intros Hr Hc Ho Hc' Hcl. assert (Hsame : conns r !! mc = Some c' -> False) by congruence.
  assert (Hby : forall x f, (forall c, closed (f c) = closed c) -> alter f x (conns r) !! mc = Some c' -> False).
  { intros x f Hf E. apply (closed_by x mc f (conns r) c) in E as [_ E]; [|done..]. rewrite Hf in E. congruence. }
  destruct act as [| | | |u|u|u ch|u|u|u|u|u|u|u| | | | | | |]; try done; destruct m as [a|a x o|a x o|a ch'|a ch' x|a ch'|a ch'| |x]; try done; cbn [runMatch] in Hr.
  - destruct (pool a r); [done|]. injection Hr as <-. by destruct (Hsame Hc').
  - destruct (pool a r); [|done]. destruct (chans r !! ch); [done|]. injection Hr as <-. by destruct (Hsame Hc').
  - injection Hr as <-. by destruct (Hby x claim).
  - destruct (conns r !! x) as [cx|]; [|done]. destruct (closed cx); [done|]. injection Hr as <-. by destruct (Hby x (fun c => endSender (endLoop c))).
  - exists u, a, o. split; [done|]. assert (E : alter (fun c => endSender (close c)) x (conns r) !! mc = Some c').
    { destruct o; injection Hr as <-; cbn [setMatch conns] in Hc'; rewrite ?Unregister_conns in Hc'; done. }
    apply (closed_by x mc _ (conns r) c) in E as [-> _]; done.
  - destruct (chans r !! ch') as [ [|x|]|]; try done; injection Hr as <-; by destruct (Hsame Hc').
  - destruct (cancelled r); [|done]. destruct (chans r !! ch') as [ [|x|]|]; injection Hr as <-; by destruct (Hsame Hc').
  - injection Hr as <-. by destruct (Hsame Hc').
  - injection Hr as <-. by destruct (Hsame Hc').
  - injection Hr as <-. by destruct (Hsame Hc').
  - injection Hr as <-. by destruct (Hsame Hc').
Qed.

(** Who can close a connection that a caller of Match has claimed: that caller, when
    the handshake fails; the heartbeat sender, until the handshake has stopped it; the
    registration, when its confirmation cannot be written; and the watcher or the idle
    detector, only when it found the connection unclaimed and then closes it.  A refresh
    of the registry and the closing of an address never close a claimed connection. *)
Theorem claimed_closers act r r' mc c c' : reachable r -> exec act r = Some r' ->
  conns r !! mc = Some c -> matched c = true -> closed c = false -> conns r' !! mc = Some c' -> closed c' = true ->
  (exists t a o, act = AShakeFails t /\ matches r !! t = Some (Shake a mc o)) \/
  (act = ASenderFails mc /\ sender c = true) \/ (act = APengFails mc /\ watch c = WNone) \/
  (act = AWatch mc /\ watch c = WClose) \/ (act = AIdle mc /\ idle c = true).
Proof.
  intros (own & at_ & Hi)%reachable_inv Hr Hc Hm Ho Hc' Hcl. assert (Hsame : conns r !! mc = Some c' -> False) by congruence.
  assert (Hby : forall x f, alter f x (conns r) !! mc = Some c' -> x = mc /\ closed (f c) = true) by (intros x f E; by apply (closed_by x mc f (conns r) c c')).
  destruct act as [x a|x|x|x|t a|t|t ch|t|t|t|t|t|t|t|a| | |x|x|x|x]; cbn [exec] in Hr;
    try (destruct (matches r !! t) as [m|] eqn:Em; [|done];
         destruct (runMatch_closes _ t m r r' mc c c' Hr Hc Ho Hc' Hcl) as (u & a & o & Eact & ->); first [discriminate Eact|left; injection Eact as <-; by exists t, a, o]).
  - destruct (conns r !! x) eqn:Ex; [done|]. assert (x <> mc) by congruence.
    destruct (cancelled r); injection Hr as <-; cbn in Hc'; rewrite lookup_insert_ne in Hc' by done; by destruct (Hsame Hc').
  - destruct (conns r !! x) as [cx|] eqn:Ex; [|done]. case_decide as He; [|done]. destruct (deliver_inv own at_ r Hi x cx Ex He) as (q & r1 & E & _).
    rewrite E in Hr. injection Hr as ->. unfold deliver in E. destruct (offer _ _) as [ [ [ch|] chs] |]; [| |done]; injection E as <-; by destruct (Hsame Hc').
  - destruct (conns r !! x) as [cx|] eqn:Ex; [|done]. case_decide as He; [done|]. destruct (watch cx) eqn:Ew; try done. injection Hr as <-.
    apply Hby in Hc' as [-> E]. cbn in E. congruence.
  - destruct (conns r !! x) as [cx|] eqn:Ex; [|done]. case_decide as He; [done|]. destruct (watch cx) eqn:Ew; try done. injection Hr as <-.
    cbn in Hc'. rewrite Unregister_conns in Hc'. apply Hby in Hc' as [-> _]. right; right; left. split; [done|congruence].
  - destruct (matches r !! t); [done|]. injection Hr as <-. by destruct (Hsame Hc').
  - injection Hr as <-. by destruct (Hsame Hc').
  - injection Hr as <-. cbn in Hc'. rewrite map_lookup_imap, Hc in Hc'. cbn in Hc'. rewrite Hm, andb_false_r in Hc'. injection Hc' as <-. congruence.
  - injection Hr as <-. by destruct (Hsame Hc').
  - destruct (conns r !! x); [|done]. injection Hr as <-. apply Hby in Hc' as [-> E]. cbn in E. congruence.
  - destruct (conns r !! x) as [cx|] eqn:Ex; [|done]. unfold runWatch in Hr. destruct (watch cx) eqn:Ew; try done.
    + destruct (loop cx); [done|]. injection Hr as <-. apply Hby in Hc' as [-> E]. cbn in E. congruence.
    + unfold Unregister in Hr. case_decide as Ein; injection Hr as <-; apply Hby in Hc' as [-> E]; [|cbn in E; congruence].
      destruct (v_own own at_ r Hi mc (InPool (address cx)) Ein) as (_ & c1 & Hc1 & _ & Hm1 & _). congruence.
    + injection Hr as <-. apply Hby in Hc' as [-> E]. cbn in E. congruence.
    + injection Hr as <-. apply Hby in Hc' as [-> _]. right; right; right; left. split; [done|congruence].
  - destruct (conns r !! x) as [cx|] eqn:Ex; [|done]. destruct (idle cx) eqn:Ei; [|destruct (matched cx); [done|]]; injection Hr as <-; apply Hby in Hc' as [-> E].
    + right; right; right; right. split; [done|congruence].
    + cbn in E. congruence.
  - destruct (conns r !! x) as [cx|] eqn:Ex; [|done]. destruct (sender cx) eqn:Es; [|done]. injection Hr as <-. apply Hby in Hc' as [-> _]. right; left. split; [done|congruence].
Qed.

(** A connection claimed in the handshake, and the handshake failing. *)
Lemma claimed_closers_witness : exists r r' c', execs (take 6 taken) newRegistry = Some r /\ exec (AShakeFails 0) r = Some r' /\
  conns r' !! 0%nat = Some c' /\ closed c' = true /\ exists t a o, AShakeFails 0 = AShakeFails t /\ matches r !! t = Some (Shake a 0 o).
Proof.
  destruct (execs (take 6 taken) newRegistry) as [r|] eqn:E; [|vm_compute in E; discriminate]. pose proof (execs_reachable _ r E) as Hr.
  vm_compute in E. injection E as E. destruct (conns r !! 0%nat) as [c|] eqn:Ec; [|rewrite <- E in Ec; vm_compute in Ec; discriminate].
  destruct (exec (AShakeFails 0) r) as [r'|] eqn:Er; [|rewrite <- E in Er; vm_compute in Er; discriminate].
  destruct (conns r' !! 0%nat) as [c'|] eqn:Ec'; [|rewrite <- E in Er; vm_compute in Er; injection Er as <-; vm_compute in Ec'; discriminate].
  assert (H : matched c = true /\ closed c = false /\ closed c' = true).
  { rewrite <- E in Ec, Er. vm_compute in Ec, Er. injection Ec as <-. injection Er as <-. vm_compute in Ec'. injection Ec' as <-. done. }
  destruct H as (H1 & H2 & H3). exists r, r', c'. split_and!; [done|done|done|done|].
  destruct (claimed_closers (AShakeFails 0) r r' 0 c c' Hr Er Ec H1 H2 Ec' H3) as [H|[H|[H|[H|H]]]]; [done|by destruct H..].
Defined.

(** ** Connections that no caller can get *)

(** A connection in the channel of a caller that no longer waits. *)
Definition stranded (mc ch : nat) (r : Registry) : Prop :=
  chans r !! ch = Some (Full mc) /\ forall t a, matches r !! t <> Some (Wait a ch).

Lemma setMatch_stranded mc ch r t m : stranded mc ch r -> (forall a, m <> Wait a ch) -> stranded mc ch (setMatch t m r).
Proof. intros [H1 H2] Hm. split; [done|]. intros u a. cbn. rewrite lookup_insert_Some. intros [ [_ E] | [_ E] ]; [by apply (Hm a)|by apply (H2 u a)]. Qed.

Lemma runMatch_stranded own at_ act t m r r' mc ch : inv own at_ r -> matches r !! t = Some m -> stranded mc ch r -> runMatch act t m r = Some r' -> stranded mc ch r'.
Proof.
  intros Hi Hm Hst Hr. pose proof Hst as [Hch Hnw].
  destruct act as [| | | |u|u|u nch|u|u|u|u|u|u|u| | | | | | |]; try done; destruct m as [a|a x o|a x o|a ch'|a ch' x|a ch'|a ch'| |x]; try done; cbn [runMatch] in Hr.
  - destruct (pool a r); [done|]. injection Hr as <-. by apply setMatch_stranded.
  - destruct (pool a r); [|done]. destruct (chans r !! nch) eqn:En; [done|]. injection Hr as <-. assert (nch <> ch) by congruence.
    apply setMatch_stranded; [|congruence]. split; [|done]. cbn. by rewrite lookup_insert_ne.
  - injection Hr as <-. by apply setMatch_stranded.
  - destruct (conns r !! x) as [cx|]; [|done]. destruct (closed cx); [done|]. injection Hr as <-. by apply setMatch_stranded.
  - assert (Hu : stranded mc ch (fst (Unregister a x (onConn x (fun c => endSender (close c)) r)))) by (unfold Unregister; by case_decide).
    destruct o; injection Hr as <-; by apply setMatch_stranded.
  - assert (ch' <> ch) by (intros ->; by apply (Hnw t a)). destruct (chans r !! ch') as [ [|x|]|]; try done; injection Hr as <-; apply setMatch_stranded; try done.
    split; [|done]. cbn. by rewrite lookup_insert_ne.
  - assert (ch' <> ch) by (intros ->; by apply (Hnw t a)). destruct (cancelled r); [|done].
    destruct (chans r !! ch') as [ [|x|]|]; injection Hr as <-; apply setMatch_stranded; try done. split; [|done]. cbn. by rewrite lookup_insert_ne.
  - injection Hr as <-. by apply setMatch_stranded.
  - injection Hr as <-. by apply setMatch_stranded.
  - injection Hr as <-. by apply setMatch_stranded.
  - injection Hr as <-. by apply setMatch_stranded.
Qed.

Lemma exec_stranded own at_ act r r' mc ch : inv own at_ r -> stranded mc ch r -> exec act r = Some r' -> stranded mc ch r'.
Proof.
  intros Hi Hst Hr. pose proof Hst as [Hch Hnw]. assert (Hq : forall a x, x ∈ queue a r -> x <> ch) by (intros a x Hx ->; apply (v_chan own at_ r Hi) in Hx as [? _]; congruence).
  destruct act as [x a|x|x|x|t a|t|t nch|t|t|t|t|t|t|t|a| | |x|x|x|x]; cbn [exec] in Hr;
    try (destruct (matches r !! t) as [m|] eqn:Em; [|done]; exact (runMatch_stranded own at_ _ t m r r' mc ch Hi Em Hst Hr)).
  - destruct (conns r !! x); [done|]. destruct (cancelled r); by injection Hr as <-.
  - destruct (conns r !! x) as [c|]; [|done]. case_decide; [|done]. unfold deliver in Hr. change (queue (address c) (setEntering _ r)) with (queue (address c) r) in Hr.
    rewrite offer_queue in Hr by (intros y Hy; by apply (v_chan own at_ r Hi) in Hy as [? _]).
    destruct (queue (address c) r) as [|y ys] eqn:Eq; cbn [head tail] in Hr; injection Hr as <-; [done|]. split; [|done]. cbn.
    rewrite lookup_insert_ne; [done|]. apply (Hq (address c)). rewrite Eq. set_solver.
  - destruct (conns r !! x) as [c|]; [|done]. case_decide; [done|]. destruct (watch c); try done. by injection Hr as <-.
  - destruct (conns r !! x) as [c|]; [|done]. case_decide; [done|]. destruct (watch c); try done. injection Hr as <-. unfold Unregister. by case_decide.
  - destruct (matches r !! t); [done|]. injection Hr as <-. by apply setMatch_stranded.
  - injection Hr as <-. split; [|done]. cbn. rewrite closeAll_out; [done|]. intros Hin. by apply (Hq a ch).
  - by injection Hr as <-.
  - by injection Hr as <-.
  - destruct (conns r !! x); [|done]. by injection Hr as <-.
  - destruct (conns r !! x) as [c|]; [|done]. unfold runWatch, Unregister in Hr. destruct (watch c); try done;
      repeat (case_decide || case_match); try done; by injection Hr as <-.
  - destruct (conns r !! x) as [c|]; [|done]. destruct (idle c); [|destruct (matched c); [done|]]; by injection Hr as <-.
  - destruct (conns r !! x) as [c|]; [|done]. destruct (sender c); [|done]. by injection Hr as <-.
Qed.

(** A caller times out while a registration finds it still queued; a registration that
    began before a refresh ends after the sweep. *)
Definition timeoutRace : list action := [AUnmatched 0 [1]; AQueue 0 0; ATimeout 0; ANew 0 [1]; ADeliver 0; ARegistered 0; ALeave 0].
Definition refreshRace : list action := [ASweep; ANew 0 [1]; ADeliver 0; ARegistered 0; ACancel].

(** A connection that a registration hands to a caller whose wait has just ended is
    lost to everyone: through every continuation it stays in that caller's channel, in no
    pool, and no caller of Match ever gets it.  Such a state is reached when the time-out
    of a caller and a registration meet; the connection is then open and its heartbeats
    go on. *)
Theorem stranded_forever :
  (forall r mc ch r', reachable r -> stranded mc ch r -> rtc step r r' ->
     stranded mc ch r' /\ (forall a, ~ mc ∈ pool a r') /\ forall t m, matches r' !! t = Some m -> holder m <> Some mc) /\
  exists r c, reachable r /\ stranded 0 0 r /\ matches r !! 0%nat = Some Failed /\ conns r !! 0%nat = Some c /\
    closed c = false /\ loop c = true /\ sender c = true /\ watch c = WWait.
Proof.
  split.
  - intros r mc ch r' Hr Hst Hrr. assert (H : reachable r' /\ stranded mc ch r').
    { revert Hr Hst. induction Hrr as [|r r1 r' Hs Hrr IH]; [done|]. intros Hr Hst. destruct (reachable_inv r Hr) as (own & at_ & Hi). apply IH.
      - eapply rtc_r; [exact Hr|done].
      - destruct Hs as [act r r1 E]. by apply (exec_stranded own at_ act r). }
    destruct H as [Hr' Hst']. destruct (reachable_inv r' Hr') as (own & at_ & Hi). assert (Hsit : sits r' mc (InChan ch)) by apply Hst'.
    split_and!; [done| |].
    + intros a Ha. by pose proof (sits_inj own at_ r' mc _ (InPool a) Hi Hsit Ha).
    + intros t m Hm Hh. by pose proof (sits_inj own at_ r' mc _ (InMatch t) Hi Hsit (ex_intro _ m (conj Hm Hh))).
  - destruct (execs timeoutRace newRegistry) as [r|] eqn:E; [|vm_compute in E; discriminate]. pose proof (execs_reachable _ r E) as Hr.
    vm_compute in E. injection E as E. destruct (conns r !! 0%nat) as [c|] eqn:Ec; [|rewrite <- E in Ec; vm_compute in Ec; discriminate].
    exists r, c. split; [done|]. rewrite <- E in Ec |- *. vm_compute in Ec. injection Ec as <-. clear. split; [|split_and!; vm_compute; reflexivity].
    split; [vm_compute; reflexivity|]. intros t a Hw. apply elem_of_map_to_list in Hw. vm_compute in Hw. apply list_elem_of_singleton in Hw. done.
Qed.

(** After a refresh the old registry can keep an open connection in a pool that no dialer
    looks at any more. *)
Example refresh_keeps : exists r c, reachable r /\ cancelled r = true /\ pool [1] r = [0%nat] /\ conns r !! 0%nat = Some c /\ closed c = false /\ loop c = true.
Proof.
  destruct (execs refreshRace newRegistry) as [r|] eqn:E; [|vm_compute in E; discriminate]. pose proof (execs_reachable _ r E) as Hr.
  vm_compute in E. injection E as E. eexists r, _. split; [done|]. rewrite <- E. split_and!; try (vm_compute; reflexivity).
Qed.

(** ** The frames of the handshake *)

(** Frames are their types.  What the read loop keeps of the frames it read. *)
Fixpoint readLoop (fs : list Z) : option Z :=
  match fs with [] => None | f :: fs => if f =? FrameHeartbeat then readLoop fs else Some f end.

(** reverseHandshake after its PONG, when the read loop had read [before] and [after]
    still arrives: what is left for the dialer, or an error when no PENG comes. *)
Fixpoint awaitPeng (after : list Z) : option (list Z) :=
  match after with [] => None | f :: after => if f =? FramePeng then Some after else awaitPeng after end.
Definition reverseHandshake (before after : list Z) : option (list Z) :=
  if bool_decide (readLoop before = Some FramePeng) then Some after else awaitPeng after.

(** The client's loop, ReverseServer.handleReverseConn: it hands the connection on, with
    the frames still to come, or closes it; an exhausted list is a read error. *)
Fixpoint handleReverseConn (fs : list Z) : option (list Z) :=
  match fs with
  | [] => None
  | f :: fs =>
      if f =? FrameHeartbeat then handleReverseConn fs
      else if f =? FramePong then Some fs
      else if f =? FramePeng then handleReverseConn fs
      else None
  end.

(** StartReverseMapping's handler: the first frame says whether this is a UDP channel. *)
Inductive Mode := UDPChannel | TCPMode.
Definition modeOf (fs : list Z) : option Mode :=
  match fs with [] => None | f :: _ => Some (if f =? FrameUDPChannel then UDPChannel else TCPMode) end.

Lemma readLoop_beats n fs : readLoop (replicate n FrameHeartbeat ++ fs) = readLoop fs.
Proof. induction n; [done|]. cbn. done. Qed.

Lemma awaitPeng_beats n fs : awaitPeng (replicate n FrameHeartbeat ++ FramePeng :: fs) = Some fs.
Proof. induction n; cbn; [done|]. done. Qed.

Lemma client_beats n fs : handleReverseConn (replicate n FrameHeartbeat ++ fs) = handleReverseConn fs.
Proof. induction n; [done|]. cbn. done. Qed.

(** The reverse handshake, wherever the registry's read loop stops.  A client that
    sent [n] heartbeats and then its PENG is always accepted, and the dialer then reads
    what the client sent after the PENG, except what the read loop took before it was
    stopped: those frames are lost.  The client, for its part, hands its connection on
    with exactly the frames that follow the PONG, when the PENG of the registration came
    before it.  Written after the PONG, that PENG becomes the first frame of the
    connection, and a UDP channel is taken for a TCP one. *)
Theorem reverseHandshake_exact n m k data :
  (let sent := replicate n FrameHeartbeat ++ FramePeng :: data in
   reverseHandshake (take k sent) (drop k sent) = Some (drop (k - S n) data)) /\
  handleReverseConn (FramePeng :: replicate m FrameHeartbeat ++ FramePong :: FrameUDPChannel :: data) = Some (FrameUDPChannel :: data) /\
  (exists rest, handleReverseConn (FramePong :: FramePeng :: FrameUDPChannel :: data) = Some rest /\ modeOf rest = Some TCPMode).
Proof.
  split_and!.
  - cbv zeta. unfold reverseHandshake. destruct (decide (k <= n)%nat) as [Hk|Hk].
    + rewrite take_app_le, drop_app_le by (rewrite length_replicate; lia). rewrite take_replicate, drop_replicate.
      rewrite bool_decide_false; [rewrite awaitPeng_beats; by replace (k - S n)%nat with 0%nat by lia|].
      rewrite <- (app_nil_r (replicate _ _)), readLoop_beats. done.
    + rewrite take_app_ge, drop_app_ge by (rewrite length_replicate; lia). rewrite length_replicate.
      replace (k - n)%nat with (S (k - S n))%nat by lia. cbn [take drop]. rewrite bool_decide_true; [done|]. by rewrite readLoop_beats.
  - cbn [handleReverseConn]. change (FramePeng =? FrameHeartbeat) with false. change (FramePeng =? FramePong) with false.
    change (FramePeng =? FramePeng) with true. cbn iota. rewrite client_beats. done.
  - eexists. split; [reflexivity|done].
Qed.

(** A caller that waits gets the connection, and its PONG goes out, before the
    registration has written its PENG. *)
Example pong_before_peng : exists r c, execs [AUnmatched 0 [1]; AQueue 0 0; ANew 0 [1]; ADeliver 0; AReceive 0; AClaim 0; AShake 0] newRegistry = Some r /\
  matches r !! 0%nat = Some (Got 0) /\ conns r !! 0%nat = Some c /\ watch c = WNone.
Proof.
  destruct (execs _ newRegistry) as [r|] eqn:E; [|vm_compute in E; discriminate]. vm_compute in E. injection E as <-.
  eexists _, _. split_and!; try (vm_compute; reflexivity).
Qed.
