(* ===== verification/ControlServer.v ===== *)
(** ControlServer: the registry side of reverse proxies, src/server/control_server.go
    (ControlManager) and src/server/binding.go (BindingStore): control sessions, the
    listeners they register, the choice of a port, and the ports remembered for a client.

    Times are numbers, 0 the zero time.  The order in which Go walks a map is an argument;
    so are the generated address of a registration, the ports the operating system offers
    or refuses, and whether a listener starts.  A registration is one step: the code
    serialises those of one identity, and the operating system refuses a port twice.  The
    database under the bindings, and the rules it feeds, are not part of the state. *)

From Stdlib Require Import ZArith Lia String Ascii.
From stdpp Require Import base gmap list numbers strings pretty.
From S2P Require Import Prelude GoStrings.
Open Scope Z_scope.

(** ** src/server/binding.go *)

Record PortBinding := mkBinding {
  ReverseID : string; Seq : Z; Port : Z; ListenerProto : string; Identity : string; DirectDstHost : string; DirectDstPort : Z;
  RegistryProxy : string; ControlAddr : string; RegistryAddr : string; CreatedAt : Z; UpdatedAt : Z; DisconnectedAt : Z }.

Notation BindingStore := (gmap string PortBinding).

Definition makeKey (reverseID : string) (seq : Z) : string := reverseID +:+ "#" +:+ pretty seq.

Definition Get (reverseID : string) (seq : Z) (s : BindingStore) : option PortBinding := s !! makeKey reverseID seq.

Definition Set_ (now : Z) (reverseID : string) (seq port : Z) (proto identity dstHost : string) (dstPort : Z) (registryProxy controlAddr registryAddr : string)
    (s : BindingStore) : BindingStore :=
  let created := match s !! makeKey reverseID seq with Some b => CreatedAt b | None => now end in
  <[makeKey reverseID seq := mkBinding reverseID seq port proto identity dstHost dstPort registryProxy controlAddr registryAddr created now 0]> s.

Definition Remove (reverseID : string) (seq : Z) (s : BindingStore) : BindingStore := delete (makeKey reverseID seq) s.

Definition RemoveByReverseID (reverseID : string) (s : BindingStore) : BindingStore :=
  if String.eqb reverseID "" then s else filter (fun kb => ReverseID kb.2 <> reverseID) s.

Definition SetDisconnected (now : Z) (reverseID : string) (seq : Z) (s : BindingStore) : BindingStore :=
  alter (fun b => mkBinding (ReverseID b) (Seq b) (Port b) (ListenerProto b) (Identity b) (DirectDstHost b) (DirectDstPort b) (RegistryProxy b)
                    (ControlAddr b) (RegistryAddr b) (CreatedAt b) (UpdatedAt b) now) (makeKey reverseID seq) s.

(** ** src/server/control_server.go *)

Record ControlSession := mkSession { sReverseID : string; sSeq : Z; DynAddr : string; lastActivity : Z }.
Record DynamicResource := mkResource { rProto : string; rPort : Z; rProxy : string; rMapping : string; rReverseID : string; rSeq : Z }.

Record ControlManager := mkManager {
  sessions : gmap string ControlSession; resources : gmap string DynamicResource;
  (** Proxy names with their reverse addresses; the scoped rules as (proxy, mapping). *)
  dynamicProxies : gmap string string; dynamicMatchers : list (string * string);
  portMin : Z; portMax : Z; portNext : Z; bindingStore : BindingStore }.

Definition setSessions x m := mkManager x (resources m) (dynamicProxies m) (dynamicMatchers m) (portMin m) (portMax m) (portNext m) (bindingStore m).
Definition setResources x m := mkManager (sessions m) x (dynamicProxies m) (dynamicMatchers m) (portMin m) (portMax m) (portNext m) (bindingStore m).
Definition setProxies x m := mkManager (sessions m) (resources m) x (dynamicMatchers m) (portMin m) (portMax m) (portNext m) (bindingStore m).
Definition setMatchers x m := mkManager (sessions m) (resources m) (dynamicProxies m) x (portMin m) (portMax m) (portNext m) (bindingStore m).
Definition setNext x m := mkManager (sessions m) (resources m) (dynamicProxies m) (dynamicMatchers m) (portMin m) (portMax m) x (bindingStore m).
Definition setBindings x m := mkManager (sessions m) (resources m) (dynamicProxies m) (dynamicMatchers m) (portMin m) (portMax m) (portNext m) x.

(** A range "min-max"; [None] is an error, (0, 0) no range. *)
Definition parsePortRange (s : string) : option (Z * Z) :=
  if String.eqb s "" then Some (0, 0)
  else match Cut "-" s with
       | None => None
       | Some (a, b) =>
           match Atoi (TrimSpace a), Atoi (TrimSpace b) with
           | Some min, Some max => if (min <=? 0) || (max <=? 0) || (max <? min) then None else Some (min, max)
           | _, _ => None
           end
       end.

Definition NewControlManager (range : string) (loaded : BindingStore) : ControlManager :=
  let '(min, max) := default (0, 0) (parsePortRange range) in
  mkManager ∅ ∅ ∅ [] min max 0 loaded.

Record ControlRequest := mkRequest {
  Name : string; qSeq : Z; PreferredPort : Z; qListenerProto : string; qReverseID : string; qDstHost : string; qDstPort : Z; qRegistryProxy : string }.

Inductive RegisterError := EAnonymous | EDirectTarget | EConnected | EPreferredInvalid | EPreferredOutside | EPreferredTaken | ENoPort | EExhausted | EListener.
Inductive ControlReply := ROk (address : string) (port : Z) | RError (e : RegisterError).

(** The world outside for one call: the order of a map's walk, the ports free in the
    operating system, the ports it would pick, and the listeners that start. *)
Record World := mkWorld {
  walk : BindingStore -> list PortBinding; walkSessions : gmap string ControlSession -> list (string * ControlSession);
  staticPorts : list Z; osFree : Z -> bool; osPicks : list (option Z); starts : string -> Z -> bool }.

(** The walks visit every entry once. *)
Record worldOk (w : World) : Prop := {
  walk_ok : forall s, walk w s ≡ₚ (map_to_list s).*2;
  walkSessions_ok : forall s, walkSessions w s ≡ₚ map_to_list s }.

Section Manager.
Variable w : World.

Definition IsPortBoundByOther (port : Z) (excludeReverseID : string) (s : BindingStore) : bool :=
  existsb (fun b => (Port b =? port) && negb (String.eqb (ReverseID b) excludeReverseID)) (walk w s).

Definition FindOldestDisconnectedBinding (min max : Z) (s : BindingStore) : option PortBinding :=
  foldl (fun oldest b =>
    if (Port b <? min) || (max <? Port b) || (DisconnectedAt b =? 0) then oldest
    else match oldest with
         | None => Some b
         | Some o => if DisconnectedAt b <? DisconnectedAt o then Some b else oldest
         end) None (walk w s).

Definition isPortAvailableLocked (port : Z) (reverseID : string) (m : ControlManager) : bool :=
  negb (existsb (fun ar => rPort ar.2 =? port) (map_to_list (resources m))) &&
  negb (existsb (fun p => p =? port) (staticPorts w)) &&
  negb (negb (String.eqb reverseID "") && IsPortBoundByOther port reverseID (bindingStore m)) &&
  osFree w port.

(** The ports of the range from [start] on, around to its beginning. *)
Definition roundRobin (min max start : Z) : list Z :=
  map (fun i => let p := start + i in if max <? p then min + (p - max - 1) else p) (seqZ 0 (max - min + 1)).

Definition allocatePort (reverseID : string) (m : ControlManager) : option Z * ControlManager :=
  let min := portMin m in let max := portMax m in
  if (min <=? 0) || (max <=? 0) || (max <? min) then
    (match List.find (fun o => match o with Some p => isPortAvailableLocked p reverseID m | None => false end) (take 10 (osPicks w)) with
     | Some (Some p) => Some p
     | _ => None
     end, m)
  else
    let start := if (min <=? portNext m) && (portNext m <=? max) then portNext m else min in
    let take p m := (Some p, setNext (if max <? p + 1 then min else p + 1) m) in
    match List.find (fun p => isPortAvailableLocked p reverseID m) (roundRobin min max start) with
    | Some p => take p m
    | None =>
        match List.find (fun p => isPortAvailableLocked p reverseID m) (seqZ min (max - min + 1)) with
        | Some p => take p m
        | None =>
            let m := match FindOldestDisconnectedBinding min max (bindingStore m) with
                     | Some b => if bool_decide (is_Some (sessions m !! ReverseID b)) then m
                                 else setBindings (Remove (ReverseID b) (Seq b) (bindingStore m)) m
                     | None => m
                     end in
            match List.find (fun p => isPortAvailableLocked p reverseID m) (seqZ min (max - min + 1)) with
            | Some p => take p m
            | None => (None, m)
            end
        end
    end.

(** The resource of a closed session goes, with its proxy and its rule; its listener and
    its data connections are closed. *)
Definition removeResource (res : option DynamicResource) (m : ControlManager) : ControlManager :=
  match res with
  | None => m
  | Some r => setMatchers (List.filter (fun pm => negb (String.eqb pm.1 (rProxy r) && String.eqb pm.2 (rMapping r))) (dynamicMatchers m))
                (setProxies (delete (rProxy r) (dynamicProxies m)) m)
  end.

Definition HandleClose (now : Z) (address : string) (m : ControlManager) : ControlManager :=
  let session := sessions m !! address in
  let m1 := setSessions (delete address (sessions m)) m in
  let resource := resources m1 !! address in
  let m2 := setResources (delete address (resources m1)) m1 in
  let dyn := match session with Some s => DynAddr s | None => ""%string end in
  let resource' := if String.eqb dyn "" then resource else match resource with Some r => Some r | None => resources m2 !! dyn end in
  let m3 := if String.eqb dyn "" then m2 else setResources (delete dyn (resources m2)) m2 in
  let m4 := match session with
            | None => m3
            | Some s => let '(id, seq) := if String.eqb (sReverseID s) "" then (DynAddr s, 0) else (sReverseID s, sSeq s) in
                        setBindings (SetDisconnected now id seq (bindingStore m3)) m3
            end in
  removeResource resource' m4.

Definition activeTimeout : Z := 45 * 10 ^ 9.

(** closeSessionByIdentity: whether the identity is still connected. *)
Definition closeSessionByIdentity (now : Z) (reverseID : string) (seq : Z) (m : ControlManager) : bool * ControlManager :=
  if String.eqb reverseID "" then (false, m)
  else match List.find (fun s => String.eqb (sReverseID s.2) reverseID && (sSeq s.2 =? seq)) (walkSessions w (sessions m)) with
       | None => (false, m)
       | Some (oldAddr, oldSess) =>
           if String.eqb oldAddr "" then (false, m)
           else if now - lastActivity oldSess <? activeTimeout then (true, m)
           else (false, HandleClose now oldAddr m)
       end.

Definition orDefault (s d : string) : string := if String.eqb s "" then d else s.
Definition createListener (proto : string) (port : Z) : bool :=
  (String.eqb proto "socks5" || String.eqb proto "trojan" || String.eqb proto "direct") && starts w proto port.

(** The port of a registration: the preferred one, the remembered one, or a new one. *)
Definition choosePort (req : ControlRequest) (m : ControlManager) : (Z + RegisterError) * ControlManager :=
  let min := portMin m in let max := portMax m in let preferred := PreferredPort req in
  let ranged := (0 <? min) && (0 <? max) in
  if 0 <? preferred then
    if 65535 <? preferred then (inr EPreferredInvalid, m)
    else if ranged && ((preferred <? min) || (max <? preferred)) then (inr EPreferredOutside, m)
    else if negb (isPortAvailableLocked preferred (qReverseID req) m) then (inr EPreferredTaken, m)
    else (inl preferred, m)
  else
    let remembered :=
      if String.eqb (qReverseID req) "" then None
      else match Get (qReverseID req) (qSeq req) (bindingStore m) with
           | Some b => if (0 <? Port b) && ((min <=? 0) || ((min <=? Port b) && (Port b <=? max))) && isPortAvailableLocked (Port b) (qReverseID req) m
                       then Some (Port b) else None
           | None => None
           end in
    match remembered with
    | Some p => (inl p, m)
    | None => match allocatePort (qReverseID req) m with
              | (Some p, m) => (inl p, m)
              | (None, m) => (inr (if (min <=? 0) || (max <=? 0) || (max <? min) then ENoPort else EExhausted), m)
              end
    end.

(** The resources of a registration, once its listener runs. *)
Definition install (now : Z) (controlAddr registryAddr dynAddr proto : string) (req : ControlRequest) (port : Z) (m : ControlManager) : ControlManager :=
  let '(bindID, bindSeq) := if String.eqb (qReverseID req) "" then (dynAddr, 0) else (qReverseID req, qSeq req) in
  let identity := (Name req +:+ "#" +:+ pretty (qSeq req))%string in
  let identity := if String.eqb identity "#0" then (proto +:+ "|" +:+ dynAddr)%string else identity in
  let hexID := substring 4 8 dynAddr in
  let proxyName := ("dyn-proxy-" +:+ hexID)%string in
  let mappingName := ("dyn-map-" +:+ hexID)%string in
  let m := setBindings (Set_ now bindID bindSeq port proto identity (qDstHost req) (qDstPort req) (qRegistryProxy req) controlAddr registryAddr (bindingStore m)) m in
  let m := setProxies (<[proxyName := dynAddr]> (dynamicProxies m)) m in
  let m := setResources (<[dynAddr := mkResource proto port proxyName mappingName (qReverseID req) (qSeq req)]> (resources m)) m in
  let m := setSessions (alter (fun s => mkSession (qReverseID req) (qSeq req) (DynAddr s) (lastActivity s)) controlAddr (sessions m)) m in
  setMatchers ((proxyName, mappingName) :: dynamicMatchers m) m.

Definition handleRegister (now : Z) (controlAddr registryAddr dynAddr : string) (req : ControlRequest) (m : ControlManager) : ControlReply * ControlManager :=
  let proto := ToLower (orDefault (qListenerProto req) "socks5") in
  if String.eqb (Name req) "" && String.eqb (qReverseID req) "" then (RError EAnonymous, m)
  else if String.eqb proto "direct" && (String.eqb (qDstHost req) "" || (qDstPort req =? 0)) then (RError EDirectTarget, m)
  else
    let '(connected, m) := closeSessionByIdentity now (qReverseID req) (qSeq req) m in
    if connected then (RError EConnected, m)
    else
      let forget m := if String.eqb (qReverseID req) "" then m else setBindings (Remove (qReverseID req) (qSeq req) (bindingStore m)) m in
      match choosePort req (forget m) with
      | (inr e, m) => (RError e, m)
      | (inl port, m) =>
          if createListener proto port then (ROk dynAddr port, install now controlAddr registryAddr dynAddr proto req port m)
          else (RError EListener, forget m)
      end.

(** A control connection, and a register command on it (runSession): a reply with an
    address makes it the session's. *)
Definition startSession (now : Z) (remoteAddr : string) (m : ControlManager) : ControlManager :=
  setSessions (<[remoteAddr := mkSession "" 0 "" now]> (sessions m)) m.

Definition registerCommand (now : Z) (remoteAddr registryAddr dynAddr : string) (req : ControlRequest) (m : ControlManager) : ControlReply * ControlManager :=
  let touch m := setSessions (alter (fun s => mkSession (sReverseID s) (sSeq s) (DynAddr s) now) remoteAddr (sessions m)) m in
  let '(reply, m) := handleRegister now remoteAddr registryAddr dynAddr req (touch m) in
  match reply with
  | ROk address _ => (reply, setSessions (alter (fun s => mkSession (sReverseID s) (sSeq s) address (lastActivity s)) remoteAddr (sessions m)) m)
  | RError _ => (reply, m)
  end.

Definition ForceRemoveBinding (reverseID : string) (seq : Z) (sessOrder : list (string * ControlSession)) (resOrder : list (string * DynamicResource))
    (m : ControlManager) : ControlManager :=
  let sess := List.find (fun s => String.eqb (sReverseID s.2) reverseID && (sSeq s.2 =? seq)) sessOrder in
  let m1 := match sess with Some (addr, _) => setSessions (delete addr (sessions m)) m | None => m end in
  let res := List.find (fun r => String.eqb (rReverseID r.2) reverseID && (rSeq r.2 =? seq)) resOrder in
  let m2 := match res with Some (addr, _) => setResources (delete addr (resources m1)) m1 | None => m1 end in
  let dyn := match sess with Some (_, s) => DynAddr s | None => ""%string end in
  let res' := if String.eqb dyn "" then snd <$> res else match res with Some (_, r) => Some r | None => resources m2 !! dyn end in
  let m3 := if String.eqb dyn "" then m2 else setResources (delete dyn (resources m2)) m2 in
  let m4 := removeResource res' m3 in
  setBindings (Remove reverseID seq (bindingStore m4)) m4.
End Manager.

(** ** Keys *)

Lemma pretty_N_go_lacks c n s : (c = "#"%char) -> lacks c s = true -> lacks c (pretty_N_go n s) = true.
Proof.
  intros ->. revert s. induction (N.lt_wf_0 n) as [n _ IH]; intros s Hs. destruct (decide (0 < n)%N) as [Hn|Hn].
  - rewrite pretty_N_go_step by done. apply IH; [by apply N.div_lt|]. cbn [lacks]. rewrite Hs.
    assert (Hd : (n `mod` 10 < 10)%N) by (by apply N.mod_lt). unfold pretty_N_char. repeat case_match; try done; lia.
  - assert (n = 0)%N as -> by lia. by rewrite pretty_N_go_0.
Qed.

Lemma pretty_lacks (z : Z) : lacks "#" (pretty z) = true.
Proof.
  assert (HN : forall n : N, lacks "#" (pretty n) = true) by (intros n; unfold pretty, pretty_N; case_decide; [done|by apply pretty_N_go_lacks]).
  destruct z as [|p|p]; [done|apply HN|]. change (lacks "#" ("-" +:+ pretty (N.pos p)) = true). by rewrite lacks_app, HN.
Qed.

(** The key of a binding determines its identity, whatever characters that has. *)
Lemma makeKey_inj a b i j : makeKey a i = makeKey b j -> a = b /\ i = j.
Proof.
  unfold makeKey. revert b. induction a as [|c a IH]; intros [|d b]; rewrite ?append_cons, ?append_nil; intros H.
  - by injection H as H%(inj pretty).
  - injection H as <- H. pose proof (pretty_lacks i) as Hl. rewrite H, !lacks_app in Hl. cbn in Hl. by rewrite andb_false_r in Hl.
  - injection H as -> H. pose proof (pretty_lacks j) as Hl. rewrite <- H, !lacks_app in Hl. cbn in Hl. by rewrite andb_false_r in Hl.
  - injection H as <- H. by destruct (IH b H) as [-> ->].
Qed.

(** ** The choice of a port *)

Lemma find_some_first {A} (f : A -> bool) l x : List.find f l = Some x ->
  exists i, l !! i = Some x /\ f x = true /\ forall j y, (j < i)%nat -> l !! j = Some y -> f y = false.
Proof.
  induction l as [|y l IH]; cbn; [done|]. destruct (f y) eqn:E.
  - intros [= <-]. exists 0%nat. split_and!; [done|done|lia].
  - intros H. destruct (IH H) as (i & Hi & Hf & Hj). exists (S i). split_and!; [done|done|]. intros [|j] z Hlt Hz; [by injection Hz as <-|]. apply (Hj j); [lia|done].
Qed.

Lemma find_none_all {A} (f : A -> bool) l x : List.find f l = None -> x ∈ l -> f x = false.
Proof. intros H Hx. apply (List.find_none f l H). by apply list_elem_of_In. Qed.

Definition cyc (min max start i : Z) : Z := if max <? start + i then min + (start + i - max - 1) else start + i.

Lemma roundRobin_lookup min max start i : roundRobin min max start !! i = if decide (Z.of_nat i < max - min + 1) then Some (cyc min max start (Z.of_nat i)) else None.
Proof.
  unfold roundRobin. rewrite list_lookup_fmap. case_decide as H.
  - rewrite lookup_seqZ_lt by done. cbn. unfold cyc. by rewrite Z.add_0_l.
  - rewrite lookup_seqZ_ge by lia. done.
Qed.

(** A round meets every port of the range. *)
Lemma roundRobin_elem min max start p : min <= start <= max -> p ∈ roundRobin min max start <-> min <= p <= max.
Proof.
  intros Hs. rewrite list_elem_of_lookup. split.
  - intros [i Hi]. rewrite roundRobin_lookup in Hi. case_decide; [|done]. injection Hi as <-. unfold cyc. destruct (Z.ltb_spec max (start + Z.of_nat i)); lia.
  - intros Hp. destruct (decide (start <= p)) as [Hle|Hlt].
    + exists (Z.to_nat (p - start)). rewrite roundRobin_lookup, decide_True by lia. f_equal. unfold cyc. rewrite Z2Nat.id by lia. destruct (Z.ltb_spec max (start + (p - start))); lia.
    + exists (Z.to_nat (max - start + 1 + (p - min))). rewrite roundRobin_lookup, decide_True by lia. f_equal. unfold cyc. rewrite Z2Nat.id by lia.
      destruct (Z.ltb_spec max (start + (max - start + 1 + (p - min)))); lia.
Qed.

Section Ports.
Context (w : World) (Hw : worldOk w).
Notation avail := (isPortAvailableLocked w).

(** The binding that has been disconnected longest. *)
Lemma oldest_spec min max s b : FindOldestDisconnectedBinding w min max s = Some b ->
  (exists k, s !! k = Some b) /\ min <= Port b <= max /\ DisconnectedAt b <> 0 /\
  forall k b', s !! k = Some b' -> min <= Port b' <= max -> DisconnectedAt b' <> 0 -> DisconnectedAt b <= DisconnectedAt b'.
Proof.
  unfold FindOldestDisconnectedBinding. set (f := fun _ _ => _).
  set (ok := fun b => min <= Port b <= max /\ DisconnectedAt b <> 0).
  assert (Hf : forall o b, f o b = o /\ (~ ok b \/ exists c, o = Some c /\ DisconnectedAt c <= DisconnectedAt b) \/
      f o b = Some b /\ ok b /\ forall c, o = Some c -> DisconnectedAt b <= DisconnectedAt c).
  { intros o c. unfold f, ok. destruct (Z.ltb_spec (Port c) min); [left; split; [done|left; lia]|]. destruct (Z.ltb_spec max (Port c)); [left; split; [done|left; lia]|].
    destruct (Z.eqb_spec (DisconnectedAt c) 0); [left; split; [done|left; lia]|]. cbn [orb]. destruct o as [d|]; [|right; split_and!; [done|lia|lia|done|done]].
    destruct (Z.ltb_spec (DisconnectedAt c) (DisconnectedAt d)); [right; split_and!; [done|lia|lia|done|intros ? [= <-]; lia]|left; split; [done|right; exists d; done]]. }
  assert (Hg : forall l o r, foldl f o l = Some r -> (o = Some r \/ r ∈ l /\ ok r) /\ (forall c, o = Some c -> DisconnectedAt r <= DisconnectedAt c) /\
      forall c, c ∈ l -> ok c -> DisconnectedAt r <= DisconnectedAt c).
  { induction l as [|c l IH]; cbn; intros o r H.
    - subst o. split_and!; [by left|by intros ? [= <-]|by intros ? ?%elem_of_nil].
    - destruct (IH _ _ H) as (H1 & H2 & H3). destruct (Hf o c) as [ [Eo Hc] | [Eo [Hok Hc] ] ]; rewrite Eo in H1, H2.
      + split_and!; [destruct H1 as [?|[? ?] ]; [by left|right; split; [by right|done]]|done|]. intros d [->|Hd]%elem_of_cons Hokd; [|by apply H3].
        destruct Hc as [?|(e & -> & ?)]; [done|]. specialize (H2 e eq_refl). lia.
      + specialize (H2 c eq_refl). split_and!.
        * right. destruct H1 as [ [= <-] |[? ?] ]; [split; [by left|done]|split; [by right|done]].
        * intros d Hd. specialize (Hc d Hd). lia.
        * intros d [->|Hd]%elem_of_cons Hokd; [done|by apply H3]. }
  intros H. destruct (Hg _ _ _ H) as (H1 & _ & H3). destruct H1 as [?|[Hin [Hr Hd] ] ]; [done|].
  assert (Hwalk : forall c, c ∈ walk w s <-> exists k, s !! k = Some c).
  { intros c. rewrite (walk_ok w Hw). rewrite list_elem_of_fmap. split; [intros ( [k c'] & -> & Hk); exists k; by apply elem_of_map_to_list|].
    intros [k Hk]. exists (k, c). split; [done|by apply elem_of_map_to_list]. }
  split_and!; [by apply Hwalk|lia|lia|done|]. intros k b' Hb Hrange Hdis. apply H3; [apply Hwalk; by exists k|done].
Qed.

(** A port is available only when no dynamic listener has it. *)
Lemma avail_free p id m a r : avail p id m = true -> resources m !! a = Some r -> rPort r <> p.
Proof.
  unfold isPortAvailableLocked. rewrite !andb_true_iff, !negb_true_iff. intros (( (H & _) & _) & _) Hr E.
  assert (Hx : existsb (fun ar => rPort ar.2 =? p) (map_to_list (resources m)) = true); [|congruence].
  apply existsb_exists. exists (a, r). split; [by apply list_elem_of_In, elem_of_map_to_list|]. cbn. by apply Z.eqb_eq.
Qed.

Lemma avail_next p id m n : avail p id (setNext n m) = avail p id m.
Proof. done. Qed.

Lemma seqZ_range min max p : p ∈ seqZ min (max - min + 1) <-> min <= p <= max.
Proof. rewrite elem_of_seqZ. lia. Qed.

Lemma allocatePort_run id m : 0 < portMin m <= portMax m ->
  let min := portMin m in let max := portMax m in
  let start := if (min <=? portNext m) && (portNext m <=? max) then portNext m else min in
  match allocatePort w id m with
  | (Some p, m') =>
      min <= p <= max /\ avail p id m' = true /\ portNext m' = (if max <? p + 1 then min else p + 1) /\ resources m' = resources m /\
      ((bindingStore m' = bindingStore m /\ exists i, 0 <= i < max - min + 1 /\ p = cyc min max start i /\ forall j, 0 <= j < i -> avail (cyc min max start j) id m = false) \/
       ((forall q, min <= q <= max -> avail q id m = false) /\
        exists b, FindOldestDisconnectedBinding w min max (bindingStore m) = Some b /\ bindingStore m' = Remove (ReverseID b) (Seq b) (bindingStore m)))
  | (None, m') => forall q, min <= q <= max -> avail q id m' = false
  end.
Proof.
  intros Hr min max start. unfold allocatePort. fold min max. replace ((min <=? 0) || (max <=? 0) || (max <? min)) with false by (unfold min, max; lia).
  cbv zeta. fold start. assert (Hs : min <= start <= max).
  { unfold start. destruct (Z.leb_spec min (portNext m)), (Z.leb_spec (portNext m) max); cbn [andb]; unfold min, max in *; lia. }
  destruct (List.find _ (roundRobin min max start)) as [p|] eqn:E1.
  - apply find_some_first in E1 as (i & Hi & Ha & Hj). rewrite roundRobin_lookup in Hi. case_decide as Hlt; [|done]. injection Hi as <-.
    assert (Hin : cyc min max start (Z.of_nat i) ∈ roundRobin min max start) by (apply (list_elem_of_lookup_2 _ i); by rewrite roundRobin_lookup, decide_True).
    rewrite roundRobin_elem in Hin by done. split_and!; try done; [lia|lia|]. left. split; [done|]. exists (Z.of_nat i). split_and!; [lia|lia|done|].
    intros j Hj'. apply (Hj (Z.to_nat j)); [lia|]. rewrite roundRobin_lookup, decide_True by lia. by rewrite Z2Nat.id by lia.
  - assert (Hnone : forall q, min <= q <= max -> avail q id m = false).
    { intros q Hq. apply (find_none_all _ _ q E1). by apply roundRobin_elem. }
    destruct (List.find _ (seqZ min (max - min + 1))) as [p|] eqn:E2.
    { apply find_some_first in E2 as (i & Hi & Ha & _). apply list_elem_of_lookup_2, seqZ_range in Hi. by rewrite Hnone in Ha. }
    set (m1 := match FindOldestDisconnectedBinding w min max (bindingStore m) with Some b => _ | None => m end).
    destruct (List.find (fun p => avail p id m1) (seqZ min (max - min + 1))) as [p|] eqn:E3.
    + apply find_some_first in E3 as (i & Hi & Ha & _). apply list_elem_of_lookup_2, seqZ_range in Hi.
      assert (Hm1 : m1 = m -> False) by (intros E; rewrite E, Hnone in Ha; done). clear E2 E1. unfold m1 in *.
      destruct (FindOldestDisconnectedBinding w min max (bindingStore m)) as [b|]; [|by destruct Hm1]. destruct (bool_decide _); [by destruct Hm1|].
      split_and!; try done; [lia|lia|]. right. split; [done|]. by exists b.
    + intros q Hq. apply (find_none_all _ _ q E3). by apply seqZ_range.
Qed.

(** The port of a registration when a range is configured.  Every port of the range is
    tried once, in order from the place after the last one given and around; the first
    that no dynamic listener, static mapping, other client or process has is taken.  When
    none is left, the binding of the client that has been away longest is given up and
    the range tried again; a failure means that no port of the range is available. *)
Theorem allocatePort_exact id m : 0 < portMin m <= portMax m ->
  let min := portMin m in let max := portMax m in
  let start := if (min <=? portNext m) && (portNext m <=? max) then portNext m else min in
  match allocatePort w id m with
  | (Some p, m') =>
      min <= p <= max /\ avail p id m' = true /\ portNext m' = (if max <? p + 1 then min else p + 1) /\ resources m' = resources m /\
      ((bindingStore m' = bindingStore m /\ exists i, 0 <= i < max - min + 1 /\ p = cyc min max start i /\ forall j, 0 <= j < i -> avail (cyc min max start j) id m = false) \/
       ((forall q, min <= q <= max -> avail q id m = false) /\
        exists b, (exists k, bindingStore m !! k = Some b) /\ min <= Port b <= max /\ DisconnectedAt b <> 0 /\
          (forall k b', bindingStore m !! k = Some b' -> min <= Port b' <= max -> DisconnectedAt b' <> 0 -> DisconnectedAt b <= DisconnectedAt b') /\
          bindingStore m' = Remove (ReverseID b) (Seq b) (bindingStore m)))
  | (None, m') => forall q, min <= q <= max -> avail q id m' = false
  end.
Proof.
  intros Hr min max start. pose proof (allocatePort_run id m Hr) as H. cbv zeta in H. fold min max start in H.
  destruct (allocatePort w id m) as [ [p|] m']; [|done]. destruct H as (H1 & H2 & H3 & H4 & [H5|(H5 & b & Hb & H6)]); split_and!; try apply H1; try done; [by left|].
  right. split; [done|]. exists b. apply oldest_spec in Hb as (? & ? & ? & ?). done.
Qed.
End Ports.

(** Ports 100 to 102, of which a process has 101; the last port given was 100. *)
Definition world0 (busy : list Z) : World :=
  mkWorld (fun s => (map_to_list s).*2) map_to_list [] (fun p => negb (existsb (Z.eqb p) busy)) [] (fun _ _ => true).
Lemma world0_ok busy : worldOk (world0 busy).
Proof. by split. Qed.

Lemma allocatePort_exact_witness : let m := setNext 101 (NewControlManager "100-102" ∅) in
  portMin m = 100 /\ fst (allocatePort (world0 [101]) "x" m) = Some 102 /\
  match allocatePort (world0 [101]) "x" m with (Some p, m') => 100 <= p <= 102 /\ portNext m' = 100 | _ => False end.
Proof.
  intros m. split_and!; [vm_compute; reflexivity|vm_compute; reflexivity|].
  pose proof (allocatePort_exact (world0 [101]) (world0_ok [101]) "x" m ltac:(vm_compute; split; [reflexivity|discriminate])) as H. cbv zeta in H.
  destruct (allocatePort (world0 [101]) "x" m) as [ [p|] m'] eqn:E; [|vm_compute in E; discriminate]. destruct H as (H & _ & Hn & _).
  assert (p = 102) as -> by (vm_compute in E; congruence). split; [exact H|]. rewrite Hn. vm_compute. reflexivity.
Defined.

(** ** The manager's invariant *)

Definition ranged (m : ControlManager) : Prop := 0 < portMin m <= portMax m.

Record inv (m : ControlManager) : Prop := {
  i_ports : forall a b r s, resources m !! a = Some r -> resources m !! b = Some s -> rPort r = rPort s -> a = b;
  i_range : forall a r, ranged m -> resources m !! a = Some r -> portMin m <= rPort r <= portMax m;
  i_bounds : portMin m = 0 /\ portMax m = 0 \/ ranged m;
  i_keys : forall k b, bindingStore m !! k = Some b -> k = makeKey (ReverseID b) (Seq b);
}.

(** A change that only drops resources. *)
Definition shrinks (m m' : ControlManager) : Prop :=
  resources m' ⊆ resources m /\ portMin m' = portMin m /\ portMax m' = portMax m.

Lemma shrinks_inv m m' : inv m -> shrinks m m' -> (forall k b, bindingStore m' !! k = Some b -> k = makeKey (ReverseID b) (Seq b)) -> inv m'.
Proof.
  intros [H1 H2 H3 H4] (Hs & Hmin & Hmax) Hk. split; [| |unfold ranged; by rewrite Hmin, Hmax|done].
  - intros a b r s Ha Hb. exact (H1 a b r s (lookup_weaken _ _ _ _ Ha Hs) (lookup_weaken _ _ _ _ Hb Hs)).
  - intros a r. unfold ranged. rewrite Hmin, Hmax. intros Hr Ha. apply (H2 a); [done|]. by apply (lookup_weaken _ _ _ _ Ha Hs).
Qed.

Definition keyed (s : BindingStore) : Prop := forall k b, s !! k = Some b -> k = makeKey (ReverseID b) (Seq b).

Lemma Set_keyed now id seq port pr ide h hp rp ca ra s : keyed s -> keyed (Set_ now id seq port pr ide h hp rp ca ra s).
Proof. intros Hk k b. unfold Set_. cbv zeta. rewrite lookup_insert_Some. intros [ [<- <-] | [_ H] ]; [done|by apply Hk]. Qed.
Lemma Remove_keyed id seq s : keyed s -> keyed (Remove id seq s).
Proof. intros Hk k b. unfold Remove. rewrite lookup_delete_Some. intros [_ H]. by apply Hk. Qed.
Lemma SetDisconnected_keyed now id seq s : keyed s -> keyed (SetDisconnected now id seq s).
Proof. intros Hk k b. unfold SetDisconnected. rewrite lookup_alter_Some. intros [ (<- & c & Hc & ->) | [_ H] ]; [cbn; by apply Hk|by apply Hk]. Qed.
Lemma RemoveByReverseID_keyed id s : keyed s -> keyed (RemoveByReverseID id s).
Proof. intros Hk k b. unfold RemoveByReverseID. destruct (String.eqb id ""); [apply Hk|]. rewrite map_lookup_filter_Some. intros [H _]. by apply Hk. Qed.

Lemma removeResource_shrinks r m : shrinks m (removeResource r m) /\ bindingStore (removeResource r m) = bindingStore m /\ sessions (removeResource r m) = sessions m.
Proof. by destruct r. Qed.

Lemma shrinks_trans a b c : shrinks a b -> shrinks b c -> shrinks a c.
Proof. intros (H1 & H2 & H3) (H4 & H5 & H6). split_and!; [by etrans|congruence..]. Qed.

Lemma HandleClose_shrinks now addr m : shrinks m (HandleClose now addr m) /\ (keyed (bindingStore m) -> keyed (bindingStore (HandleClose now addr m))).
Proof.
  unfold HandleClose. cbv zeta. set (m3 := if String.eqb _ "" then _ else setResources _ _). assert (H3 : shrinks m m3 /\ bindingStore m3 = bindingStore m).
  { unfold m3. destruct (String.eqb _ ""); (split; [|done]); split_and!; try done; cbn; [apply delete_subseteq|]. etrans; apply delete_subseteq. }
  clearbody m3. set (m4 := match sessions m !! addr with None => m3 | Some s => _ end). assert (H4 : shrinks m m4 /\ (keyed (bindingStore m) -> keyed (bindingStore m4))).
  { destruct H3 as [Hs Hb]. unfold m4. destruct (sessions m !! addr) as [s|]; [|by rewrite Hb]. destruct (if String.eqb (sReverseID s) "" then _ else _) as [id seq].
    split; [exact Hs|]. cbn [setBindings bindingStore]. rewrite Hb. apply SetDisconnected_keyed. }
  clearbody m4. match goal with |- shrinks m (removeResource ?r m4) /\ _ => destruct (removeResource_shrinks r m4) as (H5 & -> & _); destruct H4 end.
  split; [by eapply shrinks_trans|done].
Qed.

Lemma HandleClose_inv now addr m : inv m -> inv (HandleClose now addr m).
Proof. intros Hi. destruct (HandleClose_shrinks now addr m) as [Hs Hk]. apply (shrinks_inv m); [done|done|]. exact (Hk (i_keys m Hi)). Qed.

(** What a choice of a port leaves alone. *)
Lemma allocatePort_frame w id m o m' : allocatePort w id m = (o, m') ->
  resources m' = resources m /\ sessions m' = sessions m /\ portMin m' = portMin m /\ portMax m' = portMax m /\ (keyed (bindingStore m) -> keyed (bindingStore m')).
Proof.
  unfold allocatePort. destruct (_ || _); [by intros [= <- <-]|]. cbv zeta. destruct (List.find _ (roundRobin _ _ _)); [by intros [= <- <-]|].
  destruct (List.find _ (seqZ _ _)); [by intros [= <- <-]|]. set (m1 := match FindOldestDisconnectedBinding _ _ _ _ with Some b => _ | None => m end).
  assert (H1 : resources m1 = resources m /\ sessions m1 = sessions m /\ portMin m1 = portMin m /\ portMax m1 = portMax m /\ (keyed (bindingStore m) -> keyed (bindingStore m1))).
  { unfold m1. destruct (FindOldestDisconnectedBinding _ _ _ _) as [b|]; [|done]. destruct (bool_decide _); [done|]. split_and!; try done. apply Remove_keyed. }
  clearbody m1. destruct (List.find _ (seqZ _ _)); by intros [= <- <-].
Qed.

Lemma allocatePort_free w id m p m' : allocatePort w id m = (Some p, m') -> (portMin m = 0 /\ portMax m = 0 \/ ranged m) ->
  isPortAvailableLocked w p id m' = true /\ (ranged m -> portMin m <= p <= portMax m).
Proof.
  intros E [ [H0 _] |Hr].
  - split; [|intros [? _]; lia]. unfold allocatePort in E. rewrite H0 in E. cbn [Z.leb orb] in E.
    destruct (List.find _ (take 10 (osPicks w))) as [ [q|] |] eqn:Ef; try done. injection E as <- <-.
    apply find_some_first in Ef as (_ & _ & Ha & _). done.
  - pose proof (allocatePort_run w id m Hr) as H. cbv zeta in H. rewrite E in H. destruct H as (? & ? & _). done.
Qed.

Lemma choosePort_frame w req m o m' : choosePort w req m = (o, m') ->
  resources m' = resources m /\ sessions m' = sessions m /\ portMin m' = portMin m /\ portMax m' = portMax m /\ (keyed (bindingStore m) -> keyed (bindingStore m')).
Proof.
  unfold choosePort. cbv zeta. destruct (0 <? PreferredPort req).
  - destruct (65535 <? _); [by intros [= <- <-]|]. destruct (_ && _); [by intros [= <- <-]|]. destruct (negb _); by intros [= <- <-].
  - destruct (if String.eqb _ "" then _ else _); [by intros [= <- <-]|]. destruct (allocatePort w (qReverseID req) m) as [ [p|] m1] eqn:E; intros [= <- <-]; by apply allocatePort_frame in E.
Qed.

(** The port a registration gets is free and in the range. *)
Lemma choosePort_free w req m p m' : (portMin m = 0 /\ portMax m = 0 \/ ranged m) -> choosePort w req m = (inl p, m') ->
  (forall a r, resources m !! a = Some r -> rPort r <> p) /\ (ranged m -> portMin m <= p <= portMax m).
Proof.
  intros Hb. unfold choosePort. cbv zeta. destruct (0 <? PreferredPort req).
  - destruct (65535 <? _); [done|]. destruct ((0 <? portMin m) && _ && _) eqn:Er; [done|]. destruct (isPortAvailableLocked w (PreferredPort req) _ m) eqn:Ea; [|done].
    intros [= <- <-]. split; [intros a r; by apply (avail_free w _ _ _ _ _ Ea)|]. unfold ranged. intros Hr. lia.
  - destruct (if String.eqb _ "" then _ else _) as [q|] eqn:Eq.
    + intros [= <- <-]. destruct (String.eqb _ ""); [done|]. destruct (Get _ _ _) as [b|]; [|done].
      destruct (isPortAvailableLocked w (Port b) _ m) eqn:Ea; [|by rewrite andb_false_r in Eq]. rewrite andb_true_r in Eq.
      destruct (_ && _) eqn:Er; [|done]. injection Eq as <-. split; [intros a r; by apply (avail_free w _ _ _ _ _ Ea)|]. unfold ranged. intros Hr. lia.
    + destruct (allocatePort w (qReverseID req) m) as [ [q|] m1] eqn:E; [|done]. intros [= <- <-].
      pose proof (allocatePort_frame _ _ _ _ _ E) as (Hres & _). destruct (allocatePort_free _ _ _ _ _ E Hb) as [Ha Hr]. split; [|done].
      intros a r Hr'. rewrite <- Hres in Hr'. by apply (avail_free w _ _ _ _ _ Ha Hr').
Qed.

Lemma install_inv now ca ra dyn proto req p m : inv m -> resources m !! dyn = None -> (forall a r, resources m !! a = Some r -> rPort r <> p) ->
  (ranged m -> portMin m <= p <= portMax m) -> inv (install now ca ra dyn proto req p m).
Proof.
  intros [H1 H2 H3 H4] Hd Hp Hr. unfold install. destruct (if String.eqb _ "" then _ else _) as [bindID bindSeq]. split; cbn [setMatchers setSessions setResources setProxies setBindings resources portMin portMax bindingStore]; try done.
  - intros a b r s. rewrite !lookup_insert_Some. intros [ [<- <-] | [? Ha] ] [ [<- <-] | [? Hb] ] E; [done| | |by eapply H1]; cbn in E; naive_solver.
  - intros a r Hrr. rewrite lookup_insert_Some. intros [ [<- <-] | [? Ha] ]; [by apply Hr|by apply (H2 a)].
  - by apply Set_keyed.
Qed.

Lemma forget_inv id seq m : inv m -> inv (setBindings (Remove id seq (bindingStore m)) m).
Proof. intros Hi. apply (shrinks_inv m); [done|done|]. exact (Remove_keyed id seq _ (i_keys m Hi)). Qed.

Lemma closeSession_shrinks w now id seq m : shrinks m (snd (closeSessionByIdentity w now id seq m)) /\ (inv m -> inv (snd (closeSessionByIdentity w now id seq m))).
Proof.
  unfold closeSessionByIdentity. destruct (String.eqb id ""); [done|]. destruct (List.find _ _) as [ [a s] |]; [|done]. destruct (String.eqb a ""); [done|].
  destruct (_ <? _); [done|]. cbn [snd]. split; [apply HandleClose_shrinks|apply HandleClose_inv].
Qed.

Lemma handleRegister_inv w now ca ra dyn req m : inv m -> resources m !! dyn = None -> inv (snd (handleRegister w now ca ra dyn req m)).
Proof.
  intros Hi Hd. unfold handleRegister. cbv zeta. destruct (_ && _); [done|]. destruct (_ && _); [done|].
  destruct (closeSession_shrinks w now (qReverseID req) (qSeq req) m) as [Hs Hc]. specialize (Hc Hi).
  destruct (closeSessionByIdentity w now (qReverseID req) (qSeq req) m) as [connected m1]. cbn [snd] in *. destruct connected; [done|].
  set (m2 := if String.eqb _ "" then m1 else _). assert (H2 : inv m2 /\ resources m2 = resources m1) by (unfold m2; destruct (String.eqb _ ""); [done|split; [by apply forget_inv|done]]).
  assert (Hd1 : resources m1 !! dyn = None).
  { destruct (resources m1 !! dyn) eqn:E; [|done]. pose proof (lookup_weaken _ _ _ _ E (proj1 Hs)). congruence. }
  destruct H2 as [H2 Hres]. clearbody m2. destruct (choosePort w req m2) as [ [p|e] m3] eqn:E; cbn [snd].
  - pose proof (choosePort_frame _ _ _ _ _ E) as (Hr3 & Hs3 & Hmin & Hmax & Hk). destruct (choosePort_free _ _ _ _ _ (i_bounds m2 H2) E) as [Hfree Hrange].
    assert (H3 : inv m3) by (apply (shrinks_inv m2); [done|split_and!; [by rewrite Hr3|done..]|exact (Hk (i_keys m2 H2))]).
    destruct (createListener _ _ _); cbn [snd]; [|destruct (String.eqb _ ""); [done|by apply forget_inv]].
    apply install_inv; [done|congruence|by rewrite Hr3|]. unfold ranged. by rewrite Hmin, Hmax.
  - pose proof (choosePort_frame _ _ _ _ _ E) as (Hr3 & Hs3 & Hmin & Hmax & Hk).
    apply (shrinks_inv m2); [done|split_and!; [by rewrite Hr3|done..]|exact (Hk (i_keys m2 H2))].
Qed.

(** ** Runs *)

Inductive reach : ControlManager -> Prop :=
| reach_new range loaded : keyed loaded -> reach (NewControlManager range loaded)
| reach_start now a m : reach m -> reach (startSession now a m)
| reach_register w now a ra dyn req m : reach m -> worldOk w -> resources m !! dyn = None -> reach (snd (registerCommand w now a ra dyn req m))
| reach_close now a m : reach m -> reach (HandleClose now a m)
| reach_force id seq so ro m : reach m -> so ≡ₚ map_to_list (sessions m) -> ro ≡ₚ map_to_list (resources m) -> reach (ForceRemoveBinding id seq so ro m).

Lemma parsePortRange_bounds s min max : parsePortRange s = Some (min, max) -> min = 0 /\ max = 0 \/ 0 < min <= max.
Proof.
  unfold parsePortRange. destruct (String.eqb s ""); [intros [= <- <-]; by left|]. destruct (Cut "-" s) as [ [a b] |]; [|done].
  destruct (Atoi (TrimSpace a)) as [x|]; [|done]. destruct (Atoi (TrimSpace b)) as [y|]; [|done]. destruct (_ || _) eqn:E; [done|]. intros [= <- <-]. right. lia.
Qed.

Lemma new_inv range loaded : keyed loaded -> inv (NewControlManager range loaded).
Proof.
  intros Hk. unfold NewControlManager. destruct (default (0, 0) (parsePortRange range)) as [min max] eqn:E. split; cbn.
  - intros a b r s H. by rewrite lookup_empty in H.
  - intros a r _ H. by rewrite lookup_empty in H.
  - destruct (parsePortRange range) as [ [x y] |] eqn:Ep; cbn in E; injection E as <- <-; [by apply parsePortRange_bounds in Ep|by left].
  - exact Hk.
Qed.

Lemma sameState_inv m m' : inv m -> resources m' = resources m -> portMin m' = portMin m -> portMax m' = portMax m -> bindingStore m' = bindingStore m -> inv m'.
Proof. intros Hi E1 E2 E3 E4. apply (shrinks_inv m); [done|split_and!; [by rewrite E1|done..]|]. rewrite E4. exact (i_keys m Hi). Qed.

Lemma control_inv m : reach m -> inv m.
Proof.
  induction 1 as [range loaded Hk|now a m _ IH|w now a ra dyn req m _ IH Hw Hd|now a m _ IH|id seq so ro m _ IH _ _].
  - by apply new_inv.
  - by apply (sameState_inv m).
  - unfold registerCommand. set (m1 := setSessions (alter _ a (sessions m)) m). assert (H1 : inv m1) by (by apply (sameState_inv m)).
    pose proof (handleRegister_inv w now a ra dyn req m1 H1 Hd) as H2. destruct (handleRegister w now a ra dyn req m1) as [ [address port|e] m2]; [|done].
    cbn [snd] in *. by apply (sameState_inv m2).
  - by apply HandleClose_inv.
  - unfold ForceRemoveBinding. cbv zeta. set (res' := if String.eqb _ "" then _ else _). set (m3 := if String.eqb _ "" then _ else _).
    assert (H3 : shrinks m m3 /\ bindingStore m3 = bindingStore m).
    { unfold m3. clear res' m3. destruct (List.find _ so) as [ [sa s] |], (List.find _ ro) as [ [ra r] |]; destruct (String.eqb _ ""); (split; [|done]); split_and!; try done; cbn;
        try (by apply delete_subseteq); etrans; apply delete_subseteq. }
    destruct (removeResource_shrinks res' m3) as (H4 & H5 & _). destruct H3 as [H3 Hb]. apply forget_inv. apply (shrinks_inv m); [done|by eapply shrinks_trans|].
    rewrite H5, Hb. exact (i_keys m IH).
Qed.

(** C11: however control sessions come, register and go, no two dynamic listeners have the
    same port, every one has a port of the configured range, and every remembered port is
    filed under the identity it belongs to, which its key determines. *)
Theorem control_ports m : reach m ->
  (forall a b r s, resources m !! a = Some r -> resources m !! b = Some s -> rPort r = rPort s -> a = b) /\
  (forall a r, ranged m -> resources m !! a = Some r -> portMin m <= rPort r <= portMax m) /\
  (forall id seq b, Get id seq (bindingStore m) = Some b -> ReverseID b = id /\ Seq b = seq).
Proof.
  intros [H1 H2 H3 H4]%control_inv. split_and!; [exact H1|exact H2|]. intros id seq b Hb. apply H4, makeKey_inj in Hb as [-> ->]. done.
Qed.

(** A client without a preferred port, and one that asks for port 102. *)
Definition reqOf (id : string) (preferred : Z) : ControlRequest := mkRequest "n" 0 preferred "" id "" 0 "".
Definition register1 (now : Z) (a dyn : string) (req : ControlRequest) (m : ControlManager) : ControlManager :=
  snd (registerCommand (world0 []) now a "reg" dyn req (startSession now a m)).
Definition two : ControlManager :=
  register1 2 "c2" "dyn-0000000000000002" (reqOf "y" 102) (register1 1 "c1" "dyn-0000000000000001" (reqOf "x" 0) (NewControlManager "100-102" ∅)).

Lemma two_reach : reach two.
Proof. unfold two, register1. repeat (apply reach_register; [apply reach_start|apply world0_ok|vm_compute; reflexivity]). apply reach_new. by intros k b H. Qed.

Lemma control_ports_witness : rPort <$> resources two !! "dyn-0000000000000001" = Some 100 /\
  (forall a r, resources two !! a = Some r -> portMin two <= rPort r <= portMax two) /\ exists b, Get "y" 0 (bindingStore two) = Some b /\ ReverseID b = "y".
Proof.
  destruct (control_ports two two_reach) as (_ & H2 & H3). split_and!; [vm_compute; reflexivity| |].
  - intros a r. apply H2. vm_compute. split; [reflexivity|discriminate].
  - destruct (Get "y" 0 (bindingStore two)) as [b|] eqn:E; [|vm_compute in E; discriminate]. exists b. split; [done|]. by apply H3 in E as [? _].
Defined.

(** ** The end of a session *)

(** When a control session ends, its listener's resource goes with its proxy and its
    rule, its binding is marked as disconnected at that time, every other session and
    resource stays, and its port is free for the next registration. *)
Theorem close_frees now a s r m : reach m -> sessions m !! a = Some s -> DynAddr s <> ""%string -> resources m !! a = None -> resources m !! DynAddr s = Some r ->
  let m' := HandleClose now a m in
  sessions m' = delete a (sessions m) /\ resources m' = delete (DynAddr s) (resources m) /\ dynamicProxies m' = delete (rProxy r) (dynamicProxies m) /\
  ~ (rProxy r, rMapping r) ∈ dynamicMatchers m' /\
  (forall b r', resources m' !! b = Some r' -> rPort r' <> rPort r) /\
  (forall b, sReverseID s <> ""%string -> Get (sReverseID s) (sSeq s) (bindingStore m') = Some b -> DisconnectedAt b = now).
Proof.
  intros Hr Hs Hd Ha Hres m'. pose proof (control_inv m Hr) as Hi. assert (Ed : String.eqb (DynAddr s) "" = false) by (by apply String.eqb_neq).
  assert (Ekey : m' = removeResource (Some r) (let '(id, seq) := if String.eqb (sReverseID s) "" then (DynAddr s, 0) else (sReverseID s, sSeq s) in
     mkManager (delete a (sessions m)) (delete (DynAddr s) (resources m)) (dynamicProxies m) (dynamicMatchers m) (portMin m) (portMax m) (portNext m) (SetDisconnected now id seq (bindingStore m)))).
  { unfold m', HandleClose. cbv zeta. rewrite Hs, Ed. cbn [setSessions resources]. rewrite Ha. cbn [setResources resources].
    rewrite (delete_id (resources m) a) by done. rewrite Hres. destruct (String.eqb (sReverseID s) ""); done. }
  rewrite Ekey. destruct (String.eqb_spec (sReverseID s) "") as [E|E].
  all: split_and!; try done.
  all: try (intros Hp; exfalso; cbn in Hp; apply list_elem_of_In, filter_In in Hp as [_ Hp]; cbn in Hp; by rewrite !String.eqb_refl in Hp).
  all: try (intros b r'; cbn; rewrite lookup_delete_Some; intros [Hne Hb] E'; apply Hne; by rewrite (i_ports m Hi b (DynAddr s) r' r Hb Hres E')).
  intros b _. unfold Get, SetDisconnected. cbn. rewrite lookup_alter_eq. destruct (bindingStore m !! _); [|done]. by intros [= <-].
Qed.

Lemma close_frees_witness : exists s r, sessions two !! "c1" = Some s /\ resources two !! DynAddr s = Some r /\ rPort r = 100 /\
  resources (HandleClose 3 "c1" two) = delete (DynAddr s) (resources two).
Proof.
  destruct (sessions two !! "c1") as [s|] eqn:Es; [|vm_compute in Es; discriminate].
  assert (Ed : DynAddr s = "dyn-0000000000000001"%string) by (vm_compute in Es; injection Es as <-; reflexivity).
  destruct (resources two !! DynAddr s) as [r|] eqn:Er; [|rewrite Ed in Er; vm_compute in Er; discriminate].
  exists s, r. split_and!; [done|done|rewrite Ed in Er; vm_compute in Er; injection Er as <-; reflexivity|].
  assert (Hne : DynAddr s <> ""%string) by (rewrite Ed; discriminate).
  assert (Hno : resources two !! "c1"%string = None) by (vm_compute; reflexivity).
  destruct (close_frees 3 "c1" s r two two_reach Es Hne Hno Er) as (_ & H & _). exact H.
Defined.

(** ** The remembered port *)

Lemma HandleClose_bindings now a x m : HandleClose now a (setBindings x m) = 
  setBindings (match sessions m !! a with
               | None => x
               | Some s => let '(id, seq) := if String.eqb (sReverseID s) "" then (DynAddr s, 0) else (sReverseID s, sSeq s) in SetDisconnected now id seq x
               end) (HandleClose now a m).
Proof.
  unfold HandleClose. cbv zeta. cbn [setBindings sessions resources setSessions setResources]. destruct (sessions m !! a) as [s|].
  - destruct (String.eqb (sReverseID s) ""), (String.eqb (DynAddr s) ""); cbn [setBindings setResources setSessions resources bindingStore]; by destruct (resources m !! a); [|destruct (delete a (resources m) !! _) || idtac].
  - cbn. by destruct (resources m !! a).
Qed.

(** A client that registers again is forgotten first, whatever was remembered of it. *)
Lemma closeSession_forget w now id seq m : worldOk w -> id <> ""%string ->
  let forget m := setBindings (Remove id seq (bindingStore m)) m in
  fst (closeSessionByIdentity w now id seq (forget m)) = fst (closeSessionByIdentity w now id seq m) /\
  forget (snd (closeSessionByIdentity w now id seq (forget m))) = forget (snd (closeSessionByIdentity w now id seq m)).
Proof.
  intros Hw Hid forget. assert (Hff : forget (forget m) = forget m).
  { unfold forget. cbn [setBindings bindingStore]. unfold Remove. by rewrite delete_delete_eq. }
  unfold closeSessionByIdentity. destruct (String.eqb_spec id ""); [done|]. change (sessions (forget m)) with (sessions m).
  destruct (List.find _ (walkSessions w (sessions m))) as [ [a s] |] eqn:Ef; [|done]. destruct (String.eqb a ""); [done|]. destruct (_ <? _); [done|]. cbn [fst snd].
  split; [done|]. apply find_some_first in Ef as (i & Hin & Hf & _). cbn in Hf. apply andb_true_iff in Hf as [Hf1 Hf2]. apply String.eqb_eq in Hf1. apply Z.eqb_eq in Hf2.
  apply list_elem_of_lookup_2 in Hin. rewrite (walkSessions_ok w Hw), elem_of_map_to_list in Hin.
  assert (Hm : m = setBindings (bindingStore m) m) by (by destruct m). rewrite Hm at 2. unfold forget at 2. rewrite !HandleClose_bindings, Hin, Hf1, Hf2.
  destruct (String.eqb_spec id ""); [done|]. unfold forget. cbn [setBindings bindingStore]. unfold Remove, SetDisconnected. by rewrite !delete_alter_eq, delete_delete_eq.
Qed.

(** The port remembered for a client has no effect on its next registration: the
    registration removes the client's binding before it looks for it.  So a client that
    comes back without a preferred port gets the next port of the round, whatever port it
    had before. *)
Theorem remembered_ignored w now ca ra dyn req m : worldOk w -> qReverseID req <> ""%string ->
  fst (handleRegister w now ca ra dyn req m) = fst (handleRegister w now ca ra dyn req (setBindings (Remove (qReverseID req) (qSeq req) (bindingStore m)) m)) /\
  (PreferredPort req <= 0 ->
   let m1 := setBindings (Remove (qReverseID req) (qSeq req) (bindingStore m)) m in
   fst (choosePort w req m1) = match fst (allocatePort w (qReverseID req) m1) with
                               | Some p => inl p
                               | None => inr (if (portMin m <=? 0) || (portMax m <=? 0) || (portMax m <? portMin m) then ENoPort else EExhausted)
                               end).
Proof.
  intros Hw Hid. split.
  - unfold handleRegister. cbv zeta. destruct (_ && _); [done|]. destruct (_ && _); [done|].
    pose proof (closeSession_forget w now (qReverseID req) (qSeq req) m Hw Hid) as [H1 H2]. cbv zeta in H1, H2.
    destruct (closeSessionByIdentity w now (qReverseID req) (qSeq req) m) as [c1 m1].
    destruct (closeSessionByIdentity w now (qReverseID req) (qSeq req) (setBindings _ m)) as [c2 m2]. cbn [fst snd] in *. subst c2. destruct c1; [done|].
    destruct (String.eqb_spec (qReverseID req) ""); [done|]. by rewrite H2.
  - intros Hp. cbv zeta. unfold choosePort. cbv zeta. destruct (Z.ltb_spec 0 (PreferredPort req)); [lia|].
    destruct (String.eqb_spec (qReverseID req) ""); [done|]. unfold Get. cbn [setBindings bindingStore portMin portMax]. unfold Remove at 1. rewrite lookup_delete_eq.
    by destruct (allocatePort w (qReverseID req) _) as [ [p|] m2].
Qed.

(** The client "x" had port 100 and comes back: it gets port 101, although 100 is free. *)
Lemma remembered_ignored_witness :
  let m := startSession 9 "c3" (HandleClose 3 "c1" two) in
  (exists b, Get "x" 0 (bindingStore m) = Some b /\ Port b = 100 /\ isPortAvailableLocked (world0 []) 100 "x" m = true) /\
  fst (handleRegister (world0 []) 9 "c3" "reg" "dyn-0000000000000003" (reqOf "x" 0) m) = ROk "dyn-0000000000000003" 101 /\
  fst (handleRegister (world0 []) 9 "c3" "reg" "dyn-0000000000000003" (reqOf "x" 0) (setBindings (Remove "x" 0 (bindingStore m)) m)) = ROk "dyn-0000000000000003" 101.
Proof.
  intros m. split; [eexists; split_and!; vm_compute; reflexivity|].
  assert (H : fst (handleRegister (world0 []) 9 "c3" "reg" "dyn-0000000000000003" (reqOf "x" 0) m) = ROk "dyn-0000000000000003" 101) by (vm_compute; reflexivity).
  split; [exact H|]. pose proof (remembered_ignored (world0 []) 9 "c3" "reg" "dyn-0000000000000003" (reqOf "x" 0) m (world0_ok []) ltac:(discriminate)) as [E _].
  cbn [qReverseID reqOf qSeq] in E. rewrite E in H. exact H.
Defined.

(** Two registrations on one control session: when it ends, the first listener stays with
    its port, and no session owns it. *)
Example second_registration_leaks :
  let m1 := register1 1 "c1" "dyn-0000000000000001" (reqOf "x" 0) (NewControlManager "100-102" ∅) in
  let m2 := snd (registerCommand (world0 []) 2 "c1" "reg" "dyn-0000000000000002" (reqOf "y" 0) m1) in
  let m3 := HandleClose 3 "c1" m2 in
  sessions m3 = ∅ /\ rPort <$> resources m3 !! "dyn-0000000000000001" = Some 100.
Proof. vm_compute. done. Qed.

(** The session table is keyed by remote addresses; the identity of a binding finds no
    session there, so the test before a binding is given up never does. *)
Example session_by_identity :
  sessions two !! "y" = None /\ exists s, sessions two !! "c2" = Some s /\ sReverseID s = "y"%string.
Proof. split; [vm_compute; reflexivity|]. eexists. split; vm_compute; reflexivity. Qed.
