(* ===== verification/RouteTrie.v ===== *)
(** The prefix trie of src/mesh/route_trie.go: longest-prefix matching for mesh
    routes.  Nodes are immutable here: [Insert] rebuilds the path it walks, which
    is what the in-place update amounts to under the trie's lock.  The routes are
    of any type.  The specification is a plain list of prefixes. *)

From Stdlib Require Import ZArith Lia.
From stdpp Require Import base list numbers.
From S2P Require Import Prelude IPPacket.
Open Scope Z_scope.

(** [(ip[i/8] >> (7 - i%8)) & 1] *)
Definition ipBit (ip : list Z) (i : nat) : bool :=
  Z.land (Z.shiftr (byte_at ip (Z.of_nat i / 8)) (7 - Z.of_nat i mod 8)) 1 =? 1.

Definition ipBits (ip : list Z) (n : nat) : list bool := map (ipBit ip) (seq 0 n).

Section Trie.
Context {R : Type}.

#[local] Set Warnings "-register-all".
Inductive routeTrieNode :=
| TNode (child0 child1 : option routeTrieNode) (route : option R) (prefixLen : Z).

Definition emptyNode : routeTrieNode := TNode None None None 0.
Definition newRouteTrie : routeTrieNode := emptyNode.
Definition Clear (t : routeTrieNode) : routeTrieNode := emptyNode.

Definition nodeRoute (t : routeTrieNode) : option R := let '(TNode _ _ r _) := t in r.
Definition child (t : routeTrieNode) (b : bool) : option routeTrieNode :=
  let '(TNode c0 c1 _ _) := t in if b then c1 else c0.

(** The walk of [Insert] along the remaining bits; [n] is the full prefix length. *)
Fixpoint insertBits (t : routeTrieNode) (bits : list bool) (n : Z) (r : R) {struct bits} : routeTrieNode :=
  let '(TNode c0 c1 rt pl) := t in
  match bits with
  | [] => TNode c0 c1 (Some r) n
  | b :: bits' =>
      if b : bool then TNode c0 (Some (insertBits (default emptyNode c1) bits' n r)) rt pl
      else TNode (Some (insertBits (default emptyNode c0) bits' n r)) c1 rt pl
  end.

(** A prefix is an address with a length (Mask.Size of its mask).  [None] is a panic:
    a mask longer than the four bytes of [ip] indexes past them. *)
Definition Insert (t : routeTrieNode) (prefixIP : list Z) (prefixLen : nat) (r : R) : option routeTrieNode :=
  match To4 prefixIP with
  | None => Some t
  | Some ip => if (32 <? prefixLen)%nat then None else Some (insertBits t (ipBits ip prefixLen) (Z.of_nat prefixLen) r)
  end.

(** The walk of [Lookup]: the last route seen. *)
Fixpoint lookupBits (t : routeTrieNode) (bits : list bool) (best : option R) {struct bits} : option R :=
  let best := match nodeRoute t with Some r => Some r | None => best end in
  match bits with
  | [] => best
  | b :: bits' => match child t b with
                  | None => best
                  | Some t' => lookupBits t' bits' best
                  end
  end.

Definition Lookup (t : routeTrieNode) (ip : list Z) : option R :=
  match To4 ip with
  | None => None
  | Some ip4 => lookupBits t (ipBits ip4 32) None
  end.

(** ** The specification: a routing table as a list, newest entry last *)

Record tableEntry := mkEntry { ePrefix : list Z; eLen : nat; eRoute : R }.

(** The first [eLen] bits of the address are those of the prefix. *)
Definition covers (ip4 : list Z) (e : tableEntry) : bool :=
  match To4 (ePrefix e) with
  | None => false
  | Some p => bool_decide (ipBits p (eLen e) = ipBits ip4 (eLen e))
  end.

(** The longest covering prefix; among equals the newest. *)
Definition better (best : option tableEntry) (e : tableEntry) : option tableEntry :=
  match best with
  | None => Some e
  | Some b => if (eLen b <=? eLen e)%nat then Some e else Some b
  end.

Definition longestMatch (table : list tableEntry) (ip4 : list Z) : option R :=
  eRoute <$> foldl better None (List.filter (covers ip4) table).

Definition insertEntry (t : option routeTrieNode) (e : tableEntry) : option routeTrieNode :=
  t ≫= fun t => Insert t (ePrefix e) (eLen e) (eRoute e).
Definition buildTrie (table : list tableEntry) : option routeTrieNode := foldl insertEntry (Some newRouteTrie) table.

(** ** Lemmas *)

(** The route stored exactly at a bit string. *)
Fixpoint routeAt (t : routeTrieNode) (bits : list bool) {struct bits} : option R :=
  match bits with
  | [] => nodeRoute t
  | b :: bits' => child t b ≫= (fun t' => routeAt t' bits')
  end.

Lemma routeAt_insert bits : forall t bits' n r,
  routeAt (insertBits t bits n r) bits' = if decide (bits' = bits) then Some r else routeAt t bits'.
Proof.
  assert (forall bits', routeAt emptyNode bits' = None) as Hempty.
  { intros [|b bits']; [done|]. by destruct b. }
  induction bits as [|b bits IH]; intros [c0 c1 rt pl] bits' n r.
  - destruct bits' as [|b' bits']; [done|]. destruct (decide _); [done|]. by destruct b'.
  - destruct bits' as [|b' bits'].
    { destruct (decide _); [done|]. by destruct b. }
    destruct (decide (b' :: bits' = b :: bits)) as [[= -> ->]|Hne].
    + destruct b; cbn [insertBits routeAt child mbind option_bind]; rewrite IH; by rewrite decide_True.
    + destruct b, b'; cbn [insertBits routeAt child mbind option_bind]; try done;
        rewrite IH, decide_False by congruence; [destruct c1|destruct c0]; cbn; done || apply Hempty.
Qed.

Lemma lookupBits_cons t b bits best :
  lookupBits t (b :: bits) best =
  let best' := match nodeRoute t with Some r => Some r | None => best end in
  match child t b with None => best' | Some t' => lookupBits t' bits best' end.
Proof. done. Qed.

(** What [Lookup] computes from the stored routes: the longest prefix with one. *)
Lemma lookupBits_last bits : forall t best,
  lookupBits t bits best =
  foldl (fun acc k => match routeAt t (take k bits) with Some r => Some r | None => acc end)
    best (seq 0 (S (length bits))).
Proof.
  induction bits as [|b bits IH]; intros t best.
  { by destruct t as [? ? [] ?]. }
  cbn [length]. rewrite <- cons_seq. cbn [foldl]. rewrite take_0. cbn [routeAt].
  rewrite lookupBits_cons. cbv zeta. set (best' := match nodeRoute t with Some r => Some r | None => best end).
  rewrite <- seq_shift. destruct (child t b) as [t'|] eqn:Ec.
  - rewrite IH. generalize (seq 0 (S (length bits))) as ks. clearbody best'. intros ks. revert best'.
    induction ks as [|k ks IHk]; intros best'; [done|]. cbn [map foldl take routeAt]. rewrite Ec. simpl. apply IHk.
  - generalize (seq 0 (S (length bits))) as ks. clearbody best'. intros ks. revert best'.
    induction ks as [|k ks IHk]; intros best'; [done|]. cbn [map foldl take routeAt]. rewrite Ec. simpl. apply IHk.
Qed.

Lemma length_ipBits ip n : length (ipBits ip n) = n.
Proof. unfold ipBits. by rewrite length_map, length_seq. Qed.

Lemma take_ipBits ip k n : (k <= n)%nat -> take k (ipBits ip n) = ipBits ip k.
Proof.
  intros Hk. unfold ipBits. rewrite firstn_map. f_equal.
  replace n with (k + (n - k))%nat by lia. rewrite seq_app.
  rewrite take_app_le by (rewrite length_seq; lia). by rewrite take_ge by (rewrite length_seq; lia).
Qed.

Lemma routeAt_empty bits : routeAt emptyNode bits = None.
Proof. destruct bits as [|b bits]; [done|]. by destruct b. Qed.

(** The last value of a sequence of optional values. *)
Definition lastSome (g : nat -> option R) (n : nat) : option R :=
  foldl (fun acc k => match g k with Some r => Some r | None => acc end) None (seq 0 n).

Lemma lastSome_None g n : (forall k, (k < n)%nat -> g k = None) -> lastSome g n = None.
Proof.
  intros Hg. unfold lastSome. assert (forall k, k ∈ seq 0 n -> g k = None) as Hg'.
  { intros k Hk%elem_of_seq. apply Hg. lia. }
  revert Hg'. generalize (seq 0 n) as l. induction l as [|k l IH]; intros Hl; [done|].
  cbn [foldl]. rewrite (Hl k) by constructor. apply IH. intros; apply Hl. by constructor.
Qed.

Lemma lastSome_Some g n m v :
  (m < n)%nat -> g m = Some v -> (forall k, (m < k < n)%nat -> g k = None) -> lastSome g n = Some v.
Proof.
  intros Hm Hv Hg. unfold lastSome. replace n with (S m + (n - S m))%nat by lia.
  rewrite seq_app, seq_S, !foldl_app. cbn [foldl]. replace (0 + m)%nat with m by lia. rewrite Hv.
  assert (forall k, k ∈ seq (0 + S m) (n - S m) -> g k = None) as Hg'.
  { intros k Hk%elem_of_seq. apply Hg. lia. }
  revert Hg'. generalize (seq (0 + S m) (n - S m)) as l. induction l as [|k l IH]; intros Hl; [done|].
  cbn [foldl]. rewrite (Hl k) by constructor. apply IH. intros; apply Hl. by constructor.
Qed.

Lemma routeAt_Insert t p n r t' ip4 k : Insert t p n r = Some t' ->
  routeAt t' (ipBits ip4 k) = if covers ip4 (mkEntry p n r) && (k =? n)%nat then Some r else routeAt t (ipBits ip4 k).
Proof.
  unfold Insert, covers. cbn [ePrefix eLen]. destruct (To4 p) as [ip|]; [|by intros [= <-]].
  destruct (Nat.ltb_spec 32 n); [done|]. intros [= <-]. rewrite routeAt_insert. destruct (Nat.eqb_spec k n) as [->|Hne].
  - rewrite andb_true_r. destruct (decide (ipBits ip4 n = ipBits ip n)); case_bool_decide; congruence.
  - rewrite andb_false_r, decide_False; [done|]. intros E. apply (f_equal length) in E. rewrite !length_ipBits in E. lia.
Qed.

(** The best entry so far and what the trie holds along the address agree. *)
Lemma buildTrie_best table ip4 t : buildTrie table = Some t ->
  let g k := routeAt t (ipBits ip4 k) in
  match foldl better None (List.filter (covers ip4) table) with
  | Some b => (eLen b <= 32)%nat /\ g (eLen b) = Some (eRoute b) /\ forall k, (eLen b < k)%nat -> g k = None
  | None => forall k, g k = None
  end.
Proof.
  revert t. induction table as [|e table IH] using rev_ind; intros t Ht g; subst g.
  { injection Ht as <-. intros k. apply routeAt_empty. }
  unfold buildTrie in Ht. rewrite foldl_app in Ht. cbn [foldl] in Ht.
  destruct (foldl insertEntry _ table) as [tr|] eqn:Etr; [|done].
  specialize (IH tr Etr). cbv zeta in IH. rewrite List.filter_app, foldl_app. cbn [List.filter]. cbn in Ht.
  assert (forall k, routeAt t (ipBits ip4 k) =
    if covers ip4 e && (k =? eLen e)%nat then Some (eRoute e) else routeAt tr (ipBits ip4 k)) as Hins.
  { intros k. destruct e. by apply (routeAt_Insert _ _ _ _ _ ip4 k) in Ht. }
  assert (He : covers ip4 e = true -> (eLen e <= 32)%nat).
  { unfold covers, Insert in *. destruct (To4 (ePrefix e)); [|done]. destruct (Nat.ltb_spec 32 (eLen e)); [done|lia]. }
  destruct (covers ip4 e); cbn [foldl].
  2: { destruct (foldl better None (List.filter (covers ip4) table)) as [b|].
       - destruct IH as (? & ? & ?). split_and!; [done|by rewrite Hins|intros; rewrite Hins; cbn [andb]; auto].
       - intros k. rewrite Hins. apply IH. }
  specialize (He eq_refl). destruct (foldl better None (List.filter (covers ip4) table)) as [b|]; cbn [better].
  - destruct IH as (Hb & Hg & Hn). destruct (Nat.leb_spec (eLen b) (eLen e)).
    + split_and!; [done|by rewrite Hins, Nat.eqb_refl|]. intros k Hk. rewrite Hins.
      destruct (Nat.eqb_spec k (eLen e)); [lia|]. apply Hn. lia.
    + split_and!; [done| |]; [|intros k Hk]; rewrite Hins; cbn [andb];
        [destruct (Nat.eqb_spec (eLen b) (eLen e)); [lia|done]|].
      destruct (Nat.eqb_spec k (eLen e)); [lia|]. by apply Hn.
  - split_and!; [done|by rewrite Hins, Nat.eqb_refl|]. intros k Hk. rewrite Hins.
    destruct (Nat.eqb_spec k (eLen e)); [lia|]. apply IH.
Qed.

(** An IPv4 prefix has at most 32 bits; other families are left out by [Insert]. *)
Definition fits (e : tableEntry) : Prop := To4 (ePrefix e) = None \/ (eLen e <= 32)%nat.

Lemma buildTrie_total table : Forall fits table <-> is_Some (buildTrie table).
Proof.
  unfold buildTrie. split.
  - intros Hf. induction table as [|e table IH] using rev_ind; [by eexists|]. apply Forall_app in Hf as [Hf He]. apply Forall_cons_iff in He as [He _]. specialize (IH Hf).
    rewrite foldl_app. destruct IH as [t ->]. cbn. unfold Insert, fits in *. destruct (To4 (ePrefix e)) as [ip|] eqn:E; [|by eexists].
    destruct He as [He|He]; [done|]. destruct (Nat.ltb_spec 32 (eLen e)); [lia|by eexists].
  - induction table as [|e table IH] using rev_ind; [constructor|]. rewrite foldl_app. cbn. intros [t Ht].
    destruct (foldl insertEntry _ table) as [tr|]; [|done]. apply Forall_app. split; [apply IH; by eexists|].
    apply Forall_cons_iff. split; [|constructor]. unfold fits. cbn in Ht. unfold Insert in Ht. destruct (To4 (ePrefix e)); [|by left].
    destruct (Nat.ltb_spec 32 (eLen e)); [done|right; lia].
Qed.

Lemma Lookup_spec table t ip : buildTrie table = Some t -> Lookup t ip = To4 ip ≫= longestMatch table.
Proof.
  intros Ht. unfold Lookup. destruct (To4 ip) as [ip4|]; [|done]. cbn [mbind option_bind].
  rewrite lookupBits_last, length_ipBits.
  transitivity (lastSome (fun k => routeAt t (take k (ipBits ip4 32))) 33); [done|].
  pose proof (buildTrie_best table ip4 t Ht) as Hbest. cbv zeta in Hbest. unfold longestMatch.
  assert (forall k, (k < 33)%nat -> take k (ipBits ip4 32) = ipBits ip4 k) as Hk
    by (intros; apply take_ipBits; lia).
  destruct (foldl better None _) as [b|]; simpl.
  - destruct Hbest as (Hb & Hg & Hn). apply (lastSome_Some _ _ (eLen b)); [lia|by rewrite Hk by lia|].
    intros k Hlt. rewrite Hk by lia. apply Hn. lia.
  - apply lastSome_None. intros k Hlt. by rewrite Hk by lia.
Qed.

(** C29: the trie is a longest-prefix-match table: a list of routes can be inserted in
    order without a panic exactly when no IPv4 prefix in it is longer than 32 bits, and
    then, for every address, [Lookup] returns the route of the longest prefix that covers
    the address, the newest one among equal prefixes, and nothing when none covers it (or
    the address is not IPv4). *)
Theorem Lookup_longest_prefix table :
  (Forall fits table <-> is_Some (buildTrie table)) /\
  forall t ip, buildTrie table = Some t -> Lookup t ip = To4 ip ≫= longestMatch table.
Proof. split; [apply buildTrie_total|apply Lookup_spec]. Qed.

End Trie.
Arguments routeTrieNode : clear implicits.
Arguments tableEntry : clear implicits.

(** An IPv4-mapped prefix keeps its 128-bit mask: inserting ::ffff:10.0.0.0/120 reads
    past the four bytes of its address. *)
Example Insert_mapped_panics :
  Insert (R := nat) newRouteTrie [0;0;0;0;0;0;0;0;0;0;255;255;10;0;0;0] 120 1%nat = None.
Proof. vm_compute. reflexivity. Qed.

Lemma Lookup_longest_prefix_witness :
  let table := [mkEntry [100; 64; 0; 0] 10 1%nat; mkEntry [100; 64; 16; 0] 20 2%nat; mkEntry [0; 0; 0; 0] 0 3%nat] in
  exists t, buildTrie table = Some t /\
    Lookup t [100; 64; 17; 9] = Some 2%nat /\ Lookup t [8; 8; 8; 8] = Some 3%nat.
Proof.
  intros table. destruct (Lookup_longest_prefix table) as [Htot Hl].
  destruct (proj1 Htot) as [t Ht]; [repeat constructor; right; cbn; lia|].
  exists t. rewrite !(Hl t) by done. split_and!; [done|vm_compute; reflexivity..].
Defined.
