(* ===== verification/FakeIP.v ===== *)
(** The fake-IP pool of src/mesh/fakeip.go.

    Addresses are 32-bit integers; the maps the source keys by the printed address
    are keyed by the address itself, since dotted decimal is injective.  [Lookup]
    loops until it finds an address that is not reserved, so it takes fuel; the
    size of the range is enough exactly when some address is allocatable.  The
    database mirror and the change callback are not modelled. *)

From Stdlib Require Import ZArith Lia.
From stdpp Require Import base list numbers gmap strings.
From S2P Require Import Prelude.
Open Scope Z_scope.

Record FakeIPPool := mkPool {
  domainToIP : gmap string Z;
  ipToDomain : gmap Z string;
  ipToRealIP : gmap Z Z;
  reserved : gset Z;
  nextIP : Z;
  poolStart : Z;
  poolEnd : Z
}.

(** [start] is the network address, [hostBits] the number of host bits. *)
Definition NewFakeIPPoolWithSubnet (start hostBits skip : Z) : FakeIPPool :=
  let total := wrap 32 (Z.shiftl 1 hostBits) in
  let last := wrap 32 (start + total - 1) in
  let firsts := list_to_set ((fun i => wrap 32 (start + Z.of_nat i)) <$> seq 0 (S (Z.to_nat skip))) in
  mkPool ∅ ∅ ∅ ({[start]} ∪ {[last]} ∪ firsts) (wrap 32 (start + skip + 1)) start last.

Definition Contains (p : FakeIPPool) (ip : Z) : bool := (poolStart p <=? ip) && (ip <=? poolEnd p).

Definition InAllocRange (p : FakeIPPool) (ip : Z) : bool :=
  if (ip <? poolStart p) || (poolEnd p <? ip) then false else negb (bool_decide (ip ∈ reserved p)).

(** One entry of the database, as LoadFromDB folds it in. *)
Definition loadEntry (p : FakeIPPool) (e : string * Z) : FakeIPPool :=
  let '(domain, ip) := e in
  if negb (Contains p ip) then p
  else
    let n := if nextIP p <=? ip then
               let n := wrap 32 (ip + 1) in if poolEnd p <? n then poolStart p else n
             else nextIP p in
    mkPool (<[domain := ip]> (domainToIP p)) (<[ip := domain]> (ipToDomain p)) (ipToRealIP p)
      (reserved p) n (poolStart p) (poolEnd p).

Definition LoadFromDB (p : FakeIPPool) (entries : list (string * Z)) : FakeIPPool :=
  foldl loadEntry p entries.

Definition advanceIP (p : FakeIPPool) : Z :=
  let n := wrap 32 (nextIP p + 1) in if poolEnd p <? n then poolStart p else n.

Definition setNext (p : FakeIPPool) (n : Z) : FakeIPPool :=
  mkPool (domainToIP p) (ipToDomain p) (ipToRealIP p) (reserved p) n (poolStart p) (poolEnd p).

(** Maps the domain to the address, evicting the address's previous domain. *)
Definition assignIP (p : FakeIPPool) (domain : string) (ip : Z) : FakeIPPool :=
  let d2i := match ipToDomain p !! ip with
             | Some old => delete old (domainToIP p)
             | None => domainToIP p
             end in
  mkPool (<[domain := ip]> d2i) (<[ip := domain]> (ipToDomain p)) (ipToRealIP p)
    (reserved p) (nextIP p) (poolStart p) (poolEnd p).

Fixpoint allocLoop (fuel : nat) (p : FakeIPPool) (domain : string) : option (FakeIPPool * Z) :=
  match fuel with
  | O => None
  | S fuel' =>
      let ip := nextIP p in
      let p := setNext p (advanceIP p) in
      if bool_decide (ip ∈ reserved p) then allocLoop fuel' p domain
      else Some (assignIP p domain ip, ip)
  end.

(** [None] is an endless loop (with the pool's lock held). *)
Definition Lookup (fuel : nat) (p : FakeIPPool) (domain : string) : option (FakeIPPool * Z) :=
  match domainToIP p !! domain with
  | Some ip => Some (p, ip)
  | None => allocLoop fuel p domain
  end.

Definition LookupDomain (p : FakeIPPool) (ip : Z) : string := default EmptyString (ipToDomain p !! ip).

Definition SetRealIP (p : FakeIPPool) (fakeIP realIP : Z) : FakeIPPool :=
  mkPool (domainToIP p) (ipToDomain p) (<[fakeIP := realIP]> (ipToRealIP p)) (reserved p)
    (nextIP p) (poolStart p) (poolEnd p).

Definition LookupRealIP (p : FakeIPPool) (fakeIP : Z) : option Z := ipToRealIP p !! fakeIP.

Definition Release (p : FakeIPPool) (domain : string) : FakeIPPool :=
  match domainToIP p !! domain with
  | None => p
  | Some ip => mkPool (delete domain (domainToIP p)) (delete ip (ipToDomain p))
                 (delete ip (ipToRealIP p)) (reserved p) (nextIP p) (poolStart p) (poolEnd p)
  end.

Definition Stats (p : FakeIPPool) : nat * nat := (size (domainToIP p), size (ipToRealIP p)).

(** ** The invariant *)

(** The two maps are inverse to each other, every mapped address is in the
    range, and the cursor is in the range. *)
Record poolInv (p : FakeIPPool) : Prop := {
  pi_range : 0 <= poolStart p <= poolEnd p /\ poolEnd p < 2 ^ 32 - 1;
  pi_next : poolStart p <= nextIP p <= poolEnd p;
  pi_inverse : forall d ip, domainToIP p !! d = Some ip <-> ipToDomain p !! ip = Some d;
  pi_mapped : forall d ip, domainToIP p !! d = Some ip -> Contains p ip = true
}.

(** The number of addresses of the pool, as fuel. *)
Definition poolSize (p : FakeIPPool) : nat := Z.to_nat (poolEnd p - poolStart p + 1).

Inductive poolOp :=
| OpLookup (domain : string) | OpSetRealIP (fakeIP realIP : Z) | OpRelease (domain : string).

Definition poolApply (p : FakeIPPool) (o : poolOp) : FakeIPPool :=
  match o with
  | OpLookup d => match Lookup (poolSize p) p d with Some (p', _) => p' | None => p end
  | OpSetRealIP f r => SetRealIP p f r
  | OpRelease d => Release p d
  end.

(** ** Lemmas *)

Lemma advanceIP_range p :
  poolInv p -> poolStart p <= advanceIP p <= poolEnd p /\
  advanceIP p = if nextIP p =? poolEnd p then poolStart p else nextIP p + 1.
Proof.
  intros [Hr Hn _ _]. unfold advanceIP. rewrite wrap_small by lia.
  destruct (Z.ltb_spec (poolEnd p) (nextIP p + 1)), (Z.eqb_spec (nextIP p) (poolEnd p)); lia.
Qed.

Lemma poolInv_setNext p n : poolInv p -> poolStart p <= n <= poolEnd p -> poolInv (setNext p n).
Proof. intros [? ? ? ?] ?. by constructor. Qed.

Lemma poolInv_assign p d ip :
  poolInv p -> domainToIP p !! d = None -> Contains p ip = true -> poolInv (assignIP p d ip).
Proof.
  intros [Hr Hn Hinv Hm] Hd Hc. constructor; try done.
  - intros d' ip'. simpl. rewrite !lookup_insert_Some.
    destruct (ipToDomain p !! ip) as [old|] eqn:Eo.
    + apply Hinv in Eo as Ho. rewrite lookup_delete_Some. rewrite Hinv. split.
      * intros [[-> ->]|(? & ? & Hip)]; [auto|]. right. split; [|done]. intros ->. congruence.
      * intros [[-> ->]|(? & Hip)]; [auto|]. right. split_and!; try done.
        -- intros ->. apply Hinv in Hip. congruence.
        -- intros ->. apply Hinv in Hip. congruence.
    + rewrite Hinv. split.
      * intros [[-> ->]|(? & Hip)]; [auto|]. right. split; [|done]. intros ->. congruence.
      * intros [[-> ->]|(? & Hip)]; [auto|]. right. split; [|done]. intros ->. apply Hinv in Hip. congruence.
  - intros d' ip'. simpl. rewrite lookup_insert_Some. intros [[-> ->]|[? Hip]]; [done|].
    apply (Hm d'). destruct (ipToDomain p !! ip); [|done]. by apply lookup_delete_Some in Hip as [_ ?].
Qed.

Lemma InAllocRange_true p ip :
  InAllocRange p ip = true <-> poolStart p <= ip <= poolEnd p /\ ip ∉ reserved p.
Proof.
  unfold InAllocRange. destruct (Z.ltb_spec ip (poolStart p)), (Z.ltb_spec (poolEnd p) ip); simpl;
    try (split; [done|lia]).
  rewrite negb_true_iff, bool_decide_eq_false. split; [done|]. by intros [_ ?].
Qed.

(** What the loop returns: the first address from the cursor on that is not reserved. *)
Lemma allocLoop_spec fuel : forall p d p' ip,
  poolInv p -> domainToIP p !! d = None -> allocLoop fuel p d = Some (p', ip) ->
  InAllocRange p ip = true /\ poolInv p' /\
  p' = assignIP (setNext p (nextIP p')) d ip.
Proof.
  induction fuel as [|fuel IH]; intros p d p' ip Hi Hd; [done|]. cbn [allocLoop].
  destruct (advanceIP_range p Hi) as [Ha _].
  pose proof (poolInv_setNext p (advanceIP p) Hi Ha) as Hi1.
  case_bool_decide as Hres.
  - intros Hl. destruct (IH _ d p' ip Hi1 Hd Hl) as (H1 & H2 & H3). split_and!; [exact H1|exact H2|exact H3].
  - intros [= <- <-].
    assert (Contains p (nextIP p) = true) as Hc by (unfold Contains; pose proof (pi_next p Hi); lia).
    split_and!; [|exact (poolInv_assign _ _ _ Hi1 Hd Hc)|reflexivity].
    apply InAllocRange_true. by pose proof (pi_next p Hi).
Qed.

(** Distance of the cursor to an address, going round the range. *)
Definition distance (p : FakeIPPool) (ip : Z) : Z :=
  if nextIP p <=? ip then ip - nextIP p else ip - poolStart p + (poolEnd p - nextIP p + 1).

Lemma allocLoop_total fuel : forall p d ip,
  poolInv p -> InAllocRange p ip = true -> distance p ip < Z.of_nat fuel ->
  exists r, allocLoop fuel p d = Some r.
Proof.
  induction fuel as [|fuel IH]; intros p d ip Hi Hip Hd.
  { apply InAllocRange_true in Hip as [? _]. unfold distance in Hd. pose proof (pi_next p Hi).
    destruct (nextIP p <=? ip) eqn:?; lia. }
  cbn [allocLoop]. destruct (advanceIP_range p Hi) as [Ha Ea].
  pose proof (poolInv_setNext p (advanceIP p) Hi Ha) as Hi1.
  case_bool_decide as Hres; [|eauto]. simpl in Hres.
  apply (IH (setNext p (advanceIP p)) d ip Hi1 Hip).
  apply InAllocRange_true in Hip as [Hrange Hnr].
  assert (ip <> nextIP p) as Hne by (by intros ->).
  pose proof (pi_next p Hi). unfold distance in *. cbn [nextIP poolStart poolEnd setNext]. rewrite Ea.
  destruct (Z.eqb_spec (nextIP p) (poolEnd p)), (Z.leb_spec (nextIP p) ip); try lia;
    repeat match goal with |- context [?a <=? ?b] => destruct (Z.leb_spec a b) end; lia.
Qed.

Lemma poolInv_lookup p d p' ip fuel :
  poolInv p -> Lookup fuel p d = Some (p', ip) -> poolInv p'.
Proof.
  intros Hi. unfold Lookup. destruct (domainToIP p !! d) eqn:Ed; [by intros [= <- <-]|].
  intros Hl. by apply (allocLoop_spec _ _ _ _ _ Hi Ed) in Hl as (_ & ? & _).
Qed.

Lemma poolInv_release p d : poolInv p -> poolInv (Release p d).
Proof.
  intros [Hr Hn Hinv Hm]. unfold Release. destruct (domainToIP p !! d) as [ip|] eqn:Ed; [|by constructor].
  constructor; try done; simpl.
  - intros d' ip'. rewrite !lookup_delete_Some, Hinv. apply Hinv in Ed as Ei. split.
    + intros [? Hip]. split; [|done]. intros ->. congruence.
    + intros [? Hip]. split; [|done]. intros ->. apply Hinv in Hip. congruence.
  - intros d' ip'. rewrite lookup_delete_Some. intros [_ ?]. by eapply Hm.
Qed.

Lemma poolInv_apply p o : poolInv p -> poolInv (poolApply p o).
Proof.
  intros Hi. destruct o as [d|f r|d]; simpl.
  - destruct (Lookup (poolSize p) p d) as [[p' ip]|] eqn:E; [|done]. by eapply poolInv_lookup.
  - by destruct Hi; constructor.
  - by apply poolInv_release.
Qed.

(** ** Properties *)

Lemma poolInv_new start hostBits skip :
  0 <= start -> 0 <= skip -> 0 <= hostBits -> skip + 1 < 2 ^ hostBits -> start + 2 ^ hostBits < 2 ^ 32 ->
  let p := NewFakeIPPoolWithSubnet start hostBits skip in
  poolInv p /\ poolStart p = start /\ poolEnd p = start + 2 ^ hostBits - 1 /\
  (forall ip, ip ∈ reserved p <-> ip = poolEnd p \/ start <= ip <= start + skip).
Proof.
  intros Hs Hk Hh Hsk He p. subst p. unfold NewFakeIPPoolWithSubnet.
  pose proof (pow2_pos hostBits Hh).
  assert (wrap 32 (Z.shiftl 1 hostBits) = 2 ^ hostBits) as ->.
  { rewrite Z.shiftl_mul_pow2, Z.mul_1_l by done. apply wrap_small. lia. }
  rewrite (wrap_small 32 (start + _ - 1)), (wrap_small 32 (start + skip + 1)) by lia.
  split_and!; try done.
  - constructor; simpl; try lia; try done.
  - intros ip. cbn [reserved poolEnd]. rewrite !elem_of_union, !elem_of_singleton, elem_of_list_to_set, list_elem_of_fmap.
    split.
    + intros [[->| ->]|(i & -> & Hi%elem_of_seq)]; [lia|lia|]. rewrite wrap_small; lia.
    + intros [->|Hip]; [auto|]. right. exists (Z.to_nat (ip - start)).
      rewrite wrap_small, Z2Nat.id by lia. split; [lia|]. apply elem_of_seq. lia.
Qed.

(** C26: the pool stays a bijection between domains and addresses of its range,
    whatever sequence of lookups, real-IP updates and releases runs, wrap-around
    evictions included: reverse lookups always name the domain that holds the
    address. *)
Theorem FakeIP_bijection p ops :
  poolInv p ->
  let p' := foldl poolApply p ops in
  poolInv p' /\
  (forall d ip, domainToIP p' !! d = Some ip -> d <> EmptyString -> LookupDomain p' ip = d) /\
  (forall d1 d2 ip, domainToIP p' !! d1 = Some ip -> domainToIP p' !! d2 = Some ip -> d1 = d2).
Proof.
  intros Hi p'. assert (poolInv p') as Hi'.
  { subst p'. revert p Hi. induction ops as [|o ops IH]; intros p Hi; [done|]. by apply IH, poolInv_apply. }
  split_and!; [done| |].
  - intros d ip Hd _. unfold LookupDomain. apply (pi_inverse p' Hi') in Hd. by rewrite Hd.
  - intros d1 d2 ip H1 H2. apply (pi_inverse p' Hi') in H1, H2. congruence.
Qed.

(** A /28 pool with ten reserved addresses at the start: five are allocatable. *)
Definition demoPool : FakeIPPool := NewFakeIPPoolWithSubnet 1681915904 4 9.

Lemma demoPool_inv : poolInv demoPool.
Proof. apply poolInv_new; vm_compute; congruence. Qed.

Lemma FakeIP_bijection_witness :
  let p := foldl poolApply demoPool
    [OpLookup "a"; OpLookup "b"; OpLookup "c"; OpLookup "d"; OpLookup "e"; OpLookup "f"; OpRelease "c"] in
  domainToIP p !! "f"%string = Some 1681915914 /\ LookupDomain p 1681915914 = "f"%string.
Proof.
  intros p. assert (domainToIP p !! "f"%string = Some 1681915914) as H by (vm_compute; reflexivity).
  split; [exact H|].
  apply (FakeIP_bijection demoPool
    [OpLookup "a"; OpLookup "b"; OpLookup "c"; OpLookup "d"; OpLookup "e"; OpLookup "f"; OpRelease "c"]).
  - apply demoPool_inv.
  - exact H.
  - congruence.
Defined.

(** [Lookup] answers whenever the pool has an address to give: a known
    domain keeps its address and nothing changes; a new one gets an allocatable
    address after at most one round of the range, displacing only the domain that
    held that address; on a pool without an allocatable address it never returns. *)
Theorem FakeIP_Lookup_exact p d :
  poolInv p ->
  match domainToIP p !! d with
  | Some ip => forall fuel, Lookup fuel p d = Some (p, ip)
  | None =>
      ((exists ip, InAllocRange p ip = true) ->
       exists p' ip, Lookup (poolSize p) p d = Some (p', ip) /\
         InAllocRange p ip = true /\ poolInv p' /\ domainToIP p' !! d = Some ip /\
         (forall d', d' <> d -> domainToIP p' !! d' =
            if decide (ipToDomain p !! ip = Some d') then None else domainToIP p !! d')) /\
      ((forall ip, InAllocRange p ip = false) -> forall fuel, Lookup fuel p d = None)
  end.
Proof.
  intros Hi. unfold Lookup. destruct (domainToIP p !! d) as [ip|] eqn:Ed; [done|]. split.
  - intros [ip0 Hip0].
    destruct (allocLoop_total (poolSize p) p d ip0 Hi Hip0) as [[p' ip] Hl].
    { apply InAllocRange_true in Hip0 as [? _]. pose proof (pi_next p Hi).
      unfold distance, poolSize. destruct (Z.leb_spec (nextIP p) ip0); lia. }
    exists p', ip. destruct (allocLoop_spec _ _ _ _ _ Hi Ed Hl) as (H1 & H2 & H3).
    split_and!; [done|done|done| |].
    + rewrite H3. simpl. by rewrite lookup_insert_eq.
    + intros d' Hne. rewrite H3. simpl. rewrite lookup_insert_ne by done.
      destruct (ipToDomain p !! ip) as [old|] eqn:Eo.
      * destruct (decide (old = d')) as [->|].
        -- rewrite decide_True by done. by rewrite lookup_delete_eq.
        -- rewrite decide_False by congruence. by rewrite lookup_delete_ne.
      * by rewrite decide_False.
  - intros Hnone fuel. destruct (allocLoop fuel p d) as [[p' ip]|] eqn:E; [|done].
    destruct (allocLoop_spec _ _ _ _ _ Hi Ed E) as (H1 & _). by rewrite Hnone in H1.
Qed.

Lemma FakeIP_Lookup_exact_witness :
  exists p' ip, Lookup (poolSize demoPool) demoPool "x.example" = Some (p', ip) /\ InAllocRange demoPool ip = true.
Proof.
  pose proof (FakeIP_Lookup_exact demoPool "x.example" demoPool_inv) as H.
  change (domainToIP demoPool !! "x.example"%string) with (@None Z) in H.
  destruct H as [H _]. destruct H as (p' & ip & H1 & H2 & _); [|by exists p', ip].
  exists 1681915914. vm_compute. reflexivity.
Defined.

(** An eviction leaves the displaced domain's cached real address behind:
    after the address moves to a new domain, [LookupRealIP] answers for the new
    domain with the old domain's server, until a new resolution overwrites it;
    [Release], by contrast, clears it. *)
Theorem eviction_keeps_real_ip p d p' ip old r :
  poolInv p -> domainToIP p !! d = None ->
  Lookup (poolSize p) p d = Some (p', ip) ->
  ipToDomain p !! ip = Some old -> LookupRealIP p ip = Some r ->
  LookupDomain p' ip = d /\ LookupRealIP p' ip = Some r /\
  LookupRealIP (Release p old) ip = None.
Proof.
  intros Hi Hd Hl Ho Hr. unfold Lookup in Hl. rewrite Hd in Hl.
  destruct (allocLoop_spec _ _ _ _ _ Hi Hd Hl) as (_ & _ & H3). rewrite H3. split_and!.
  - unfold LookupDomain. simpl. by rewrite lookup_insert_eq.
  - done.
  - apply (pi_inverse p Hi) in Ho. unfold Release, LookupRealIP. rewrite Ho. simpl. by rewrite lookup_delete_eq.
Qed.

Lemma eviction_keeps_real_ip_witness :
  let p := SetRealIP (foldl poolApply demoPool [OpLookup "a"; OpLookup "b"; OpLookup "c"; OpLookup "d"; OpLookup "e"])
             1681915914 42 in
  LookupDomain p 1681915914 = "a"%string /\
  exists p', Lookup (poolSize p) p "f" = Some (p', 1681915914) /\
    LookupDomain p' 1681915914 = "f"%string /\ LookupRealIP p' 1681915914 = Some 42.
Proof.
  intros p. split; [vm_compute; reflexivity|].
  destruct (Lookup (poolSize p) p "f") as [[p' ip]|] eqn:E; [|vm_compute in E; discriminate].
  assert (ip = 1681915914) as -> by (vm_compute in E; congruence).
  exists p'. split; [done|].
  destruct (eviction_keeps_real_ip p "f" p' 1681915914 "a" 42) as (H1 & H2 & _).
  - apply (poolInv_apply _ (OpSetRealIP 1681915914 42)).
    do 5 apply poolInv_apply. apply demoPool_inv.
  - vm_compute. reflexivity.
  - exact E.
  - vm_compute. reflexivity.
  - vm_compute. reflexivity.
  - split; assumption.
Defined.
