(* ===== verification/ConnLog.v ===== *)
(** ConnLog: the connection log and the table of active connections, src/connlog, and the
    page that follows the table through the journal (apiActiveConns in src/admin/admin.go,
    fetchActiveConns in src/admin/static/app.js).

    Sequence numbers are 64-bit counters that start at 0 or 1 with the process and step by
    one; they are unbounded here.  Ids and times are arguments. *)

From Stdlib Require Import ZArith Lia.
From stdpp Require Import base gmap list numbers strings sorting pretty.
From S2P Require Import Prelude GoStrings.
Open Scope Z_scope.

(** ** Data *)

Definition maxActive : nat := 500.
Definition maxJournal : nat := 500.
Definition maxLogs : nat := 100.
Arguments maxActive : simpl never.
Arguments maxJournal : simpl never.
Arguments maxLogs : simpl never.

Record MatchResult := mkMatch { ProxyName : string; ActualProxy : string; Mapping : string; TimeRange : string; Rule : string }.
Definition noMatch : MatchResult := mkMatch "" "" "" "" "".

Record ActiveConn := mkActive {
  ID : string; acProtocol : string; acInbound : string; acSrcAddr : string; acSrcPort : Z; acOriginalDst : string;
  acDstAddr : string; acDstPort : Z; acMatch : MatchResult; acVia : string; acFwdKey : string; StartTime : Z
}.

Record Event := mkLogEvent {
  eSeq : Z; eTime : Z; eInbound : string; eProtocol : string; eSrcAddr : string; eSrcPort : Z; eOriginalDst : string;
  eDstAddr : string; eDstPort : Z; eMatch : MatchResult; eStatus : string; eError : string; eConnID : string;
  eVia : string; eFwdKey : string
}.

Inductive action := Add (c : ActiveConn) | Remove (id : string).
Record JournalEntry := mkEntry { Seq : Z; Action : action }.

Record connlog := mkLog {
  activeMap : gmap string ActiveConn; journal : list JournalEntry;
  logs : list Event; nextSeq : Z; version : Z; totalConnections : Z
}.
Definition emptyLog : connlog := mkLog ∅ [] [] 1 0 0.

Definition FwdKey (srcAddr : string) (srcPort : Z) (dstAddr : string) (dstPort : Z) : string :=
  (srcAddr ++ ":" ++ pretty srcPort ++ ">" ++ dstAddr ++ ":" ++ pretty dstPort)%string.

(** ** Active connections *)

Definition trim {A} (n : nat) (l : list A) : list A := drop (length l - n) l.

(** The locked part of TrackActive and RemoveActive. *)
Definition appendJournal (a : action) (s : connlog) : connlog :=
  mkLog (activeMap s) (trim maxJournal (journal s ++ [mkEntry (version s + 1) a]))
    (logs s) (nextSeq s) (version s + 1) (totalConnections s).
Definition setActive (m : gmap string ActiveConn) (s : connlog) : connlog :=
  mkLog m (journal s) (logs s) (nextSeq s) (version s) (totalConnections s).

Inductive activeOption := ActiveSrcPort (p : Z) | ActiveVia (v : string) | ActiveFwdKey (key : string).
Definition applyActive (c : ActiveConn) (o : activeOption) : ActiveConn :=
  match c, o with
  | mkActive i pr ib sa _ od da dp m v k t, ActiveSrcPort p => mkActive i pr ib sa p od da dp m v k t
  | mkActive i pr ib sa sp od da dp m _ k t, ActiveVia v => mkActive i pr ib sa sp od da dp m v k t
  | mkActive i pr ib sa sp od da dp m v k t, ActiveFwdKey key =>
      if String.eqb key "" then c else mkActive i pr ib sa sp od da dp m v key t
  end.

(** The entry that TrackActive builds. *)
Definition newActive (now : Z) (id inbound protocol srcAddr originalDst dstAddr : string) (dstPort : Z)
    (mr : option MatchResult) (opts : list activeOption) : ActiveConn :=
  let c := foldl applyActive (mkActive id protocol inbound srcAddr 0 originalDst dstAddr dstPort (default noMatch mr) "" "" now) opts in
  if String.eqb (acFwdKey c) "" && (0 <? acSrcPort c)
  then applyActive c (ActiveFwdKey (FwdKey srcAddr (acSrcPort c) dstAddr dstPort))
  else c.

Definition atCapacity (s : connlog) : bool := (maxActive <=? size (activeMap s))%nat.
Arguments atCapacity : simpl never.

Definition TrackActive (c : ActiveConn) (s : connlog) : connlog :=
  if atCapacity s then s else appendJournal (Add c) (setActive (<[ID c := c]> (activeMap s)) s).

Definition RemoveActive (id : string) (s : connlog) : connlog :=
  match activeMap s !! id with
  | None => s
  | Some _ => appendJournal (Remove id) (setActive (delete id (activeMap s)) s)
  end.

(** Range order is free; ties of the start time as [map_to_list] has them. *)
Definition startsBefore (a b : ActiveConn) : Prop := StartTime a <= StartTime b.
#[export] Instance startsBefore_dec a b : Decision (startsBefore a b) := Z.le_dec _ _.
Definition GetActiveConns (s : connlog) : list ActiveConn := merge_sort startsBefore (map snd (map_to_list (activeMap s))).
Definition GetActiveCount (s : connlog) : nat := size (activeMap s).

(** Whether a cursor is answered with a snapshot. *)
Definition cursorStale (seq : Z) (s : connlog) : bool :=
  match journal s with [] => true | e :: _ => (seq <? Seq e) || (version s <? seq) end.

Definition entriesAfter (seq : Z) (l : list JournalEntry) : list JournalEntry := List.filter (fun e => seq <? Seq e) l.

(** GetActiveConnsAfterSeq, undisturbed. *)
Definition GetActiveConnsAfterSeq (seq : Z) (s : connlog) : list JournalEntry * list ActiveConn * bool :=
  if cursorStale seq s then ([], GetActiveConns s, true) else (entriesAfter seq (journal s), [], false).

(** ** Log *)

Inductive logOption := ConnIDOpt (id : string) | SrcPortOpt (p : Z) | ViaOpt (v : string) | FwdKeyOpt (k : string).
Definition applyLog (e : Event) (o : logOption) : Event :=
  match e with
  | mkLogEvent q t ib pr sa sp od da dp m st er ci v k =>
      match o with
      | ConnIDOpt id => mkLogEvent q t ib pr sa sp od da dp m st er id v k
      | SrcPortOpt p => mkLogEvent q t ib pr sa p od da dp m st er ci v k
      | ViaOpt v => mkLogEvent q t ib pr sa sp od da dp m st er ci v k
      | FwdKeyOpt k => mkLogEvent q t ib pr sa sp od da dp m st er ci v k
      end
  end.

Definition newEvent (now : Z) (inbound protocol srcAddr originalDst dstAddr : string) (dstPort : Z)
    (mr : option MatchResult) (status : string) (err : option string) (opts : list logOption) : Event :=
  let e := foldl applyLog (mkLogEvent 0 now inbound protocol srcAddr 0 originalDst dstAddr dstPort (default noMatch mr) status (default "" err) "" "" "") opts in
  if String.eqb (eFwdKey e) "" && (0 <? eSrcPort e) then applyLog e (FwdKeyOpt (FwdKey srcAddr (eSrcPort e) dstAddr dstPort)) else e.

Definition setSeq (q : Z) (e : Event) : Event :=
  match e with mkLogEvent _ t ib pr sa sp od da dp m st er ci v k => mkLogEvent q t ib pr sa sp od da dp m st er ci v k end.

(** The locked part of Log. *)
Definition Log (e : Event) (s : connlog) : connlog :=
  mkLog (activeMap s) (journal s) (trim maxLogs (logs s ++ [setSeq (nextSeq s) e])) (nextSeq s + 1) (version s + 1) (totalConnections s + 1).

Definition GetLogs (s : connlog) : list Event := logs s.
Definition GetLogsAfterSeq (seq : Z) (s : connlog) : list Event * bool :=
  if version s <? seq then (logs s, true) else (List.filter (fun e => seq <? eSeq e) (logs s), false).
Definition GetTotalConnections (s : connlog) : Z := totalConnections s.
Definition GetVersion (s : connlog) : Z := version s.

Definition filterLogsByFwdKey (l : list Event) (fwdKey : string) : list Event :=
  if String.eqb fwdKey "" then l else List.filter (fun e => String.eqb (eFwdKey e) fwdKey) l.

(** ** Records *)

Record Record_ := mkRecord {
  rInbound : string; rProtocol : string; rSrcAddr : string; rSrcPort : Z; rOriginalDst : string; rDst : string; rPort : Z;
  rMatch : option MatchResult; rConnID : string; rVia : string; rFwdKey : string; established : bool; finished : bool
}.

Definition Start (inbound protocol srcAddr originalDst : string) : Record_ :=
  mkRecord inbound protocol srcAddr 0 originalDst "" 0 None "" "" "" false false.

(** The setters, and what ends a record. *)
Inductive call :=
| WithConn (connID : string) (srcPort : Z) | SetVia (nodeID : string) | SetFwdKey (key : string)
| Resolve (dst : string) (port : Z) (mr : option MatchResult) | SetDst (addr : string)
| Reject | Fail_ (err : option string) | Establish (connID : string) (proxy : option string) (direct : bool) | Close.

Definition logRecord (now : Z) (status : string) (err : option string) (r : Record_) (s : connlog) : Record_ * connlog :=
  if finished r then (r, s)
  else
    let r' := mkRecord (rInbound r) (rProtocol r) (rSrcAddr r) (rSrcPort r) (rOriginalDst r) (rDst r) (rPort r) (rMatch r)
                (rConnID r) (rVia r) (rFwdKey r) (established r) true in
    let opts := [ConnIDOpt (rConnID r); SrcPortOpt (rSrcPort r); ViaOpt (rVia r)] ++
                (if String.eqb (rFwdKey r) "" then [] else [FwdKeyOpt (rFwdKey r)]) in
    (r', Log (newEvent now (rInbound r) (rProtocol r) (rSrcAddr r) (rOriginalDst r) (rDst r) (rPort r) (rMatch r) status err opts) s).

(** The match result as Establish leaves it; the proxy by its name. *)
Definition reconcile (proxy : option string) (direct : bool) (mr : option MatchResult) : option MatchResult :=
  if direct then
    match mr with
    | Some m => Some (mkMatch "DIRECT" (ActualProxy m) (Mapping m) (TimeRange m) (Rule m))
    | None => Some (mkMatch "DIRECT" "" "" "" "")
    end
  else
    match proxy, mr with
    | Some p, Some m => if String.eqb p (ProxyName m) then mr else Some (mkMatch (ProxyName m) p (Mapping m) (TimeRange m) (Rule m))
    | _, _ => mr
    end.

Definition establish (now : Z) (connID : string) (proxy : option string) (direct : bool) (r : Record_) (s : connlog) : Record_ * connlog :=
  let r := mkRecord (rInbound r) (rProtocol r) (rSrcAddr r) (rSrcPort r) (rOriginalDst r) (rDst r) (rPort r)
             (reconcile proxy direct (rMatch r)) connID (rVia r) (rFwdKey r) true (finished r) in
  let '(r, s) := logRecord now "ok" None r s in
  (r, TrackActive (newActive now connID (rInbound r) (rProtocol r) (rSrcAddr r) (rOriginalDst r) (rDst r) (rPort r) (rMatch r)
         [ActiveSrcPort (rSrcPort r); ActiveVia (rVia r); ActiveFwdKey (rFwdKey r)]) s).

Definition recordCall (now : Z) (c : call) (rs : Record_ * connlog) : Record_ * connlog :=
  let '(r, s) := rs in
  match c with
  | WithConn id p => (mkRecord (rInbound r) (rProtocol r) (rSrcAddr r) p (rOriginalDst r) (rDst r) (rPort r) (rMatch r) id (rVia r) (rFwdKey r) (established r) (finished r), s)
  | SetVia v => (mkRecord (rInbound r) (rProtocol r) (rSrcAddr r) (rSrcPort r) (rOriginalDst r) (rDst r) (rPort r) (rMatch r) (rConnID r) v (rFwdKey r) (established r) (finished r), s)
  | SetFwdKey k => (mkRecord (rInbound r) (rProtocol r) (rSrcAddr r) (rSrcPort r) (rOriginalDst r) (rDst r) (rPort r) (rMatch r) (rConnID r) (rVia r) k (established r) (finished r), s)
  | Resolve d p m => (mkRecord (rInbound r) (rProtocol r) (rSrcAddr r) (rSrcPort r) (rOriginalDst r) d p m (rConnID r) (rVia r) (rFwdKey r) (established r) (finished r), s)
  | SetDst d => (mkRecord (rInbound r) (rProtocol r) (rSrcAddr r) (rSrcPort r) (rOriginalDst r) d (rPort r) (rMatch r) (rConnID r) (rVia r) (rFwdKey r) (established r) (finished r), s)
  | Reject => logRecord now "reject" None r s
  | Fail_ err => logRecord now "fail" err r s
  | Establish id proxy direct => establish now id proxy direct r s
  | Close => (r, if established r && negb (String.eqb (rConnID r) "") then RemoveActive (rConnID r) s else s)
  end.

(** ** Goroutines and a page that follows them *)

(** Where the goroutine of a connection stands between Establish and the end of Close; the
    capacity test, the write of the map and the locked part are separate steps. *)
Inductive phase :=
| Checked (c : ActiveConn) | Stored (c : ActiveConn) | Live (c : ActiveConn) | Untracked
| Loaded (c : ActiveConn) | Deleted (c : ActiveConn) | Gone.

(** A request of the page on its way: the version was read; the journal is long enough; the
    map is ranged over, with the keys that are still to come and the entries collected. *)
Inductive fetchState :=
| Idle
| Versioned (v : Z) (after : option Z)
| Reading (v a : Z)
| Ranging (v : Z) (todo : gset string) (acc : gmap string ActiveConn).

(** [hist] is every entry the journal ever had; [lost] records that entries left the journal
    between the test of a cursor and the reading of the entries after it. *)
Record Sys := mkSys {
  srv : connlog; recs : gmap string phase; hist : list JournalEntry;
  cmap : gmap string ActiveConn; lastSeq : Z; fetching : fetchState; lost : bool
}.
Definition boot : Sys := mkSys emptyLog ∅ [] ∅ 0 Idle false.

(** One entry at the page. *)
Definition applyEntry (m : gmap string ActiveConn) (e : JournalEntry) : gmap string ActiveConn :=
  match Action e with Add c => <[ID c := c]> m | Remove id => delete id m end.
Definition replay (es : list JournalEntry) (m : gmap string ActiveConn) : gmap string ActiveConn := foldl applyEntry m es.

Inductive sysEvent :=
| TrackCheck (c : ActiveConn) | TrackStore (id : string) | TrackJournal (id : string)
| RemoveLoad (id : string) | RemoveDelete (id : string) | RemoveJournal (id : string)
| Logged (e : Event)
| Ask (incremental : bool) | CheckCursor | ReadEntries | Visit (id : string) | FinishRange.

Definition setRec (id : string) (p : phase) (srv' : connlog) (s : Sys) : Sys :=
  mkSys srv' (<[id := p]> (recs s)) (hist s) (cmap s) (lastSeq s) (fetching s) (lost s).
Definition setFetch (f : fetchState) (s : Sys) : Sys := mkSys (srv s) (recs s) (hist s) (cmap s) (lastSeq s) f (lost s).

(** The journal section of a goroutine. *)
Definition journalStep (id : string) (p : phase) (a : action) (s : Sys) : Sys :=
  mkSys (appendJournal a (srv s)) (<[id := p]> (recs s)) (hist s ++ [mkEntry (version (srv s) + 1) a])
    (cmap s) (lastSeq s) (fetching s) (lost s).

(** Deletion from the map also spares a range the key. *)
Definition skipKey (id : string) (f : fetchState) : fetchState :=
  match f with Ranging v todo acc => Ranging v (todo ∖ {[id]}) acc | f => f end.

Definition beginRange (v : Z) (s : Sys) : Sys := setFetch (Ranging v (dom (activeMap (srv s))) ∅) s.

(** The goroutines of connections and the log; [None] when the event cannot happen. *)
Definition serverStep (s : Sys) (e : sysEvent) : option Sys :=
  match e with
  | TrackCheck c =>
      match recs s !! ID c with
      | Some _ => None
      | None => Some (setRec (ID c) (if atCapacity (srv s) then Untracked else Checked c) (srv s) s)
      end
  | TrackStore id =>
      match recs s !! id with
      | Some (Checked c) => Some (setRec id (Stored c) (setActive (<[id := c]> (activeMap (srv s))) (srv s)) s)
      | _ => None
      end
  | TrackJournal id => match recs s !! id with Some (Stored c) => Some (journalStep id (Live c) (Add c) s) | _ => None end
  | RemoveLoad id =>
      match recs s !! id with
      | Some (Live c) => Some (setRec id (match activeMap (srv s) !! id with Some _ => Loaded c | None => Gone end) (srv s) s)
      | Some Untracked => Some (setRec id (match activeMap (srv s) !! id with Some c => Loaded c | None => Gone end) (srv s) s)
      | _ => None
      end
  | RemoveDelete id =>
      match recs s !! id with
      | Some (Loaded c) =>
          let s' := setRec id (Deleted c) (setActive (delete id (activeMap (srv s))) (srv s)) s in
          Some (setFetch (skipKey id (fetching s)) s')
      | _ => None
      end
  | RemoveJournal id => match recs s !! id with Some (Deleted _) => Some (journalStep id Gone (Remove id) s) | _ => None end
  | Logged ev => Some (mkSys (Log ev (srv s)) (recs s) (hist s) (cmap s) (lastSeq s) (fetching s) (lost s))
  | _ => None
  end.

(** The requests of the page and how the server answers them. *)
Definition pageStep (s : Sys) (e : sysEvent) : option Sys :=
  match e with
  | Ask incremental =>
      match fetching s with
      | Idle => Some (setFetch (Versioned (version (srv s)) (if incremental && (0 <? lastSeq s) then Some (lastSeq s) else None)) s)
      | _ => None
      end
  | CheckCursor =>
      match fetching s with
      | Versioned v None => Some (beginRange v s)
      | Versioned v (Some a) => Some (if cursorStale a (srv s) then beginRange v s else setFetch (Reading v a) s)
      | _ => None
      end
  | ReadEntries =>
      match fetching s with
      | Reading v a =>
          Some (mkSys (srv s) (recs s) (hist s) (replay (entriesAfter a (journal (srv s))) (cmap s)) v Idle
                  (lost s || negb (length (entriesAfter a (journal (srv s))) =? length (entriesAfter a (hist s)))%nat))
      | _ => None
      end
  | Visit id =>
      match fetching s, activeMap (srv s) !! id with
      | Ranging v todo acc, Some c => Some (setFetch (Ranging v (todo ∖ {[id]}) (<[id := c]> acc)) s)
      | _, _ => None
      end
  | FinishRange =>
      match fetching s with
      | Ranging v todo acc => if bool_decide (todo = ∅) then Some (mkSys (srv s) (recs s) (hist s) acc v Idle (lost s)) else None
      | _ => None
      end
  | _ => None
  end.

Definition sysStep (s : Sys) (e : sysEvent) : option Sys :=
  match e with
  | Ask _ | CheckCursor | ReadEntries | Visit _ | FinishRange => pageStep s e
  | _ => serverStep s e
  end.

Inductive sysReach : Sys -> Prop :=
| sys_boot : sysReach boot
| sys_step s e s' : sysReach s -> sysStep s e = Some s' -> sysReach s'.

(** No connection is between two steps. *)
Definition settled (p : phase) : bool := match p with Live _ | Untracked | Gone => true | _ => false end.
Definition quiet (s : Sys) : Prop := forall id p, recs s !! id = Some p -> settled p = true.

(** ** What entries do to a map *)

Definition entryKey (e : JournalEntry) : string := match Action e with Add c => ID c | Remove id => id end.
Definition entryValue (e : JournalEntry) : option ActiveConn := match Action e with Add c => Some c | Remove _ => None end.

(** The last word on an id. *)
Definition lastWord (id : string) (es : list JournalEntry) : option (option ActiveConn) :=
  foldl (fun w e => if decide (entryKey e = id) then Some (entryValue e) else w) None es.

Lemma lastWord_snoc id es e :
  lastWord id (es ++ [e]) = if decide (entryKey e = id) then Some (entryValue e) else lastWord id es.
Proof. unfold lastWord. rewrite foldl_app. done. Qed.

Lemma lastWord_app id es fs : lastWord id (es ++ fs) = match lastWord id fs with Some w => Some w | None => lastWord id es end.
Proof.
  induction fs as [| e fs IH] using rev_ind; [rewrite app_nil_r; done |].
  rewrite app_assoc, !lastWord_snoc. destruct (decide (entryKey e = id)); done.
Qed.

Lemma applyEntry_lookup m e id : applyEntry m e !! id = if decide (entryKey e = id) then entryValue e else m !! id.
Proof.
  unfold applyEntry, entryKey, entryValue. destruct (Action e) as [c | i]; case_decide; subst.
  - rewrite lookup_insert_eq. done.
  - rewrite lookup_insert_ne by done. done.
  - rewrite lookup_delete_eq. done.
  - rewrite lookup_delete_ne by done. done.
Qed.

Lemma replay_lookup es m id : replay es m !! id = match lastWord id es with Some w => w | None => m !! id end.
Proof.
  unfold replay. induction es as [| e es IH] using rev_ind; [done |].
  rewrite foldl_app, lastWord_snoc; cbn [foldl]. rewrite applyEntry_lookup, IH. case_decide; done.
Qed.

Lemma entriesAfter_app a l k : entriesAfter a (l ++ k) = entriesAfter a l ++ entriesAfter a k.
Proof. apply List.filter_app. Qed.

(** In an ordered journal the entries after a cursor are its end. *)
Definition ordered (l : list JournalEntry) (v : Z) : Prop :=
  StronglySorted (fun a b => Seq a < Seq b) l /\ Forall (fun e => Seq e <= v) l.

Lemma entriesAfter_none a l : Forall (fun e => Seq e <= a) l -> entriesAfter a l = [].
Proof.
  induction 1 as [| e l He _ IH]; [done |]. cbn. rewrite (proj2 (Z.ltb_ge _ _) He). exact IH.
Qed.

Lemma entriesAfter_suffix a l v : ordered l v -> exists pre, l = pre ++ entriesAfter a l.
Proof.
  intros [Hs _]. induction Hs as [| e l Hs IH Hall]; [exists []; done |]. cbn.
  destruct (Z.ltb_spec a (Seq e)) as [Hlt | Hge].
  - exists []. cbn. f_equal. symmetry. clear -Hlt Hall. induction Hall as [| f l Hf _ IH]; [done |]. cbn.
    rewrite (proj2 (Z.ltb_lt _ _)) by lia. f_equal. exact IH.
  - destruct IH as [pre E]. exists (e :: pre). cbn. f_equal. exact E.
Qed.

Lemma ordered_snoc l v e : ordered l v -> Seq e = v + 1 -> ordered (l ++ [e]) (v + 1).
Proof.
  intros [Hs Hf] He. split.
  - induction Hs as [| x l Hs IH Hall]; cbn; [repeat constructor |]. apply Forall_cons_iff in Hf as [Hx Hf].
    constructor; [auto |]. apply Forall_app; split; [done |]. constructor; [lia | done].
  - apply Forall_app; split; [eapply List.Forall_impl; [| exact Hf]; cbn; intros; lia |]. constructor; [lia | done].
Qed.

(** What the journal says in the end. *)
Definition said (s : Sys) : gmap string ActiveConn := replay (hist s) ∅.

(** The value of an id at the page is the journal's or the map's. *)
Definition near (s : Sys) (id : string) (o : option ActiveConn) : Prop := o = said s !! id \/ o = activeMap (srv s) !! id.

(** A map that is right as of version [v]: later entries bring it up to date. *)
Definition inStep (s : Sys) (v : Z) (m : gmap string ActiveConn) : Prop :=
  v <= version (srv s) /\ forall id, near s id (replay (entriesAfter v (hist s)) m !! id).

(** A range that collected [acc] since version [v]. *)
Definition ranging (s : Sys) (v : Z) (todo : gset string) (acc : gmap string ActiveConn) : Prop :=
  v <= version (srv s) /\ forall id,
    (id ∈ todo -> acc !! id = None /\ is_Some (activeMap (srv s) !! id)) /\
    (id ∈ todo \/ is_Some (lastWord id (entriesAfter v (hist s))) \/ near s id (acc !! id)).

Definition fetchOk (s : Sys) : Prop :=
  match fetching s with
  | Idle => inStep s (lastSeq s) (cmap s)
  | Versioned v after => v <= version (srv s) /\ inStep s (lastSeq s) (cmap s) /\ (forall a, after = Some a -> a = lastSeq s)
  | Reading v a => v <= version (srv s) /\ inStep s (lastSeq s) (cmap s) /\ a = lastSeq s
  | Ranging v todo acc => ranging s v todo acc
  end.

(** The map and the journal of one id by the phase of its goroutine. *)
Definition phaseOk (p : option phase) (active said : option ActiveConn) : Prop :=
  match p with
  | None | Some (Checked _) | Some Untracked | Some Gone => active = None /\ said = None
  | Some (Stored c) => active = Some c /\ said = None
  | Some (Live c) | Some (Loaded c) => active = Some c /\ said = Some c
  | Some (Deleted c) => active = None /\ said = Some c
  end.
Definition phaseId (id : string) (p : option phase) : Prop :=
  match p with Some (Checked c) | Some (Stored c) | Some (Live c) | Some (Loaded c) | Some (Deleted c) => ID c = id | _ => True end.

Record sysInv (s : Sys) : Prop := {
  inv_phase : forall id, phaseOk (recs s !! id) (activeMap (srv s) !! id) (said s !! id);
  inv_id : forall id, phaseId id (recs s !! id);
  inv_ordered : ordered (hist s) (version (srv s));
  inv_journal : journal (srv s) = trim maxJournal (hist s);
  inv_fetch : lost s = false -> fetchOk s
}.

Lemma said_word s id : said s !! id = match lastWord id (hist s) with Some w => w | None => None end.
Proof. unfold said. rewrite replay_lookup. destruct (lastWord id (hist s)); [done | apply lookup_empty]. Qed.

(** Where later entries speak of an id, they say what the journal says. *)
Lemma said_after s v id w :
  ordered (hist s) (version (srv s)) -> lastWord id (entriesAfter v (hist s)) = Some w -> said s !! id = w.
Proof.
  intros Ho Hw. rewrite said_word. destruct (entriesAfter_suffix v _ _ Ho) as [pre E].
  rewrite E, lastWord_app, Hw. done.
Qed.

Lemma trim_snoc {A} n (l : list A) x : trim n (trim n l ++ [x]) = trim n (l ++ [x]).
Proof.
  unfold trim. rewrite !length_app, length_drop; cbn [length].
  destruct (decide (length l <= n)%nat).
  - replace (length l - n)%nat with 0%nat by lia. cbn. replace (length l - 0)%nat with (length l) by lia. done.
  - destruct n as [| n].
    + rewrite !Nat.sub_0_r. rewrite drop_all. cbn. rewrite (drop_ge (l ++ [x])) by (rewrite length_app; cbn; lia).
      apply drop_ge. cbn. lia.
    + replace (length l - (length l - S n) + 1 - S n)%nat with 1%nat by lia.
      rewrite <- drop_app_le by lia. rewrite drop_drop. f_equal. lia.
Qed.

(** ** Steps that touch one id *)

(** A step that speaks of one id at most: map and journal keep every other id. *)
Record oneId (id : string) (s s' : Sys) : Prop := {
  one_ordered : ordered (hist s') (version (srv s'));
  one_version : version (srv s) <= version (srv s');
  one_map : forall i, i <> id -> activeMap (srv s') !! i = activeMap (srv s) !! i;
  one_hist : (hist s' = hist s /\ forall o, near s id o -> near s' id o) \/
    exists e, hist s' = hist s ++ [e] /\ version (srv s) < Seq e /\ entryKey e = id
}.

Lemma entriesAfter_snoc v l e : v < Seq e -> entriesAfter v (l ++ [e]) = entriesAfter v l ++ [e].
Proof. intros H. rewrite entriesAfter_app. cbn. rewrite (proj2 (Z.ltb_lt _ _) H). done. Qed.

Lemma lastWord_one id s s' v i :
  oneId id s s' -> v <= version (srv s) -> i <> id ->
  lastWord i (entriesAfter v (hist s')) = lastWord i (entriesAfter v (hist s)) /\ said s' !! i = said s !! i.
Proof.
  intros H1 Hv Hi. rewrite !said_word. destruct (one_hist _ _ _ H1) as [[-> _] | (e & -> & He & Hk)]; [done |].
  rewrite entriesAfter_snoc by lia. rewrite !lastWord_snoc, !decide_False by congruence. done.
Qed.

Lemma near_one id s s' i o : oneId id s s' -> ordered (hist s) (version (srv s)) -> i <> id -> near s i o -> near s' i o.
Proof.
  intros H1 Ho Hi [-> | ->]; [left | right].
  - symmetry. apply (lastWord_one id s s' (version (srv s)) i); [done | lia | done].
  - symmetry. apply (one_map _ _ _ H1). done.
Qed.

Lemma word_one id s s' v :
  oneId id s s' -> v <= version (srv s) ->
  (hist s' = hist s /\ forall o, near s id o -> near s' id o) \/ lastWord id (entriesAfter v (hist s')) = Some (said s' !! id).
Proof.
  intros H1 Hv. destruct (one_hist _ _ _ H1) as [? | (e & Eh & He & Hk)]; [left; done | right].
  rewrite said_word, Eh, entriesAfter_snoc by lia. rewrite !lastWord_snoc, !decide_True by done. done.
Qed.

Lemma inStep_one id s s' v m : oneId id s s' -> ordered (hist s) (version (srv s)) -> inStep s v m -> inStep s' v m.
Proof.
  intros H1 Ho [Hv Hn]. split; [assert (H := one_version _ _ _ H1); lia |]. intros i. rewrite replay_lookup.
  specialize (Hn i). rewrite replay_lookup in Hn. destruct (decide (i = id)) as [-> | Hi].
  - destruct (word_one id s s' v H1 Hv) as [[-> Hk] | ->]; [auto | left; done].
  - destruct (lastWord_one id s s' v i H1 Hv Hi) as [-> _]. apply (near_one id s); done.
Qed.

Lemma ranging_one id s s' v todo todo' acc :
  oneId id s s' -> ordered (hist s) (version (srv s)) -> ranging s v todo acc ->
  (forall i, i <> id -> i ∈ todo' <-> i ∈ todo) -> (id ∈ todo' -> id ∈ todo /\ is_Some (activeMap (srv s') !! id)) ->
  (id ∈ todo -> id ∉ todo' -> near s' id None) -> ranging s' v todo' acc.
Proof.
  intros H1 Ho [Hv Hr] Ht Hin Hout. split; [assert (H := one_version _ _ _ H1); lia |]. intros i. specialize (Hr i) as [Ha Hb].
  destruct (decide (i = id)) as [-> | Hi].
  - split; [intros H; destruct (Hin H); split; [apply Ha |]; done |].
    destruct (decide (id ∈ todo')) as [| Hn]; [left; done | right].
    destruct (word_one id s s' v H1 Hv) as [[Eh Hk] | ->]; [| left; eauto]. rewrite Eh.
    destruct (decide (id ∈ todo)) as [Hd | Hd]; [right; destruct (Ha Hd) as [-> _]; auto |].
    destruct Hb as [| [|]]; [done | left; done | right; auto].
  - rewrite Ht by done. rewrite (one_map _ _ _ H1) by done. split; [done |].
    destruct (lastWord_one id s s' v i H1 Hv Hi) as [-> _]. destruct Hb as [| [|]]; [auto | auto |].
    right; right. apply (near_one id s); done.
Qed.

(** The page's request is left alone by the step. *)
Lemma fetchOk_one id s s' :
  oneId id s s' -> ordered (hist s) (version (srv s)) ->
  cmap s' = cmap s -> lastSeq s' = lastSeq s -> fetching s' = fetching s ->
  (is_Some (activeMap (srv s) !! id) -> is_Some (activeMap (srv s') !! id)) -> fetchOk s -> fetchOk s'.
Proof.
  intros H1 Ho Ec El Ef Hm. unfold fetchOk. rewrite Ec, El, Ef. assert (Hv := one_version _ _ _ H1).
  assert (Hk : inStep s (lastSeq s) (cmap s) -> inStep s' (lastSeq s) (cmap s)) by (apply inStep_one with id; done).
  destruct (fetching s) as [| v after | v a | v todo acc].
  - done.
  - intros (? & ? & ?). split_and!; auto; lia.
  - intros (? & ? & ?). split_and!; auto; lia.
  - intros Hr. apply (ranging_one id s s' v todo todo acc); try done. intros Hd. split; [done |].
    destruct Hr as [_ Hr]. apply Hm, (Hr id). done.
Qed.

(** ** Preservation *)

Lemma inv_one id p s s' :
  sysInv s -> oneId id s s' -> recs s' = <[id := p]> (recs s) ->
  phaseOk (Some p) (activeMap (srv s') !! id) (said s' !! id) -> phaseId id (Some p) ->
  journal (srv s') = trim maxJournal (hist s') -> lost s' = lost s -> (fetchOk s -> fetchOk s') -> sysInv s'.
Proof.
  intros [Hp Hi Ho Hj Hf] H1 Er Hpo Hpi Hj' El Hf'. constructor; [| | apply H1 | done | rewrite El; auto].
  - intros i. rewrite Er. destruct (decide (i = id)) as [-> | Hn]; [rewrite lookup_insert_eq; done |].
    rewrite lookup_insert_ne by done. rewrite (one_map _ _ _ H1) by done.
    destruct (lastWord_one id s s' (version (srv s)) i H1) as [_ ->]; [lia | done | apply Hp].
  - intros i. rewrite Er. destruct (decide (i = id)) as [-> | Hn]; [rewrite lookup_insert_eq; done |].
    rewrite lookup_insert_ne by done. apply Hi.
Qed.

(** A change of the map at one id. *)
Lemma oneId_map id m f s r :
  ordered (hist s) (version (srv s)) -> (forall i, i <> id -> m !! i = activeMap (srv s) !! i) ->
  (forall o, near s id o -> o = said s !! id \/ o = m !! id) ->
  oneId id s (mkSys (setActive m (srv s)) r (hist s) (cmap s) (lastSeq s) f (lost s)).
Proof. intros Ho Hm Hn. constructor; cbn; [done | lia | done |]. left. split; [done | exact Hn]. Qed.

Lemma oneId_same id f s r :
  ordered (hist s) (version (srv s)) -> oneId id s (mkSys (srv s) r (hist s) (cmap s) (lastSeq s) f (lost s)).
Proof. intros Ho. constructor; cbn; [done | lia | done |]. left. done. Qed.

Lemma oneId_journal id p a s :
  ordered (hist s) (version (srv s)) -> (match a with Add c => ID c | Remove i => i end) = id -> oneId id s (journalStep id p a s).
Proof.
  intros Ho Ha. constructor; cbn; [| lia | done |].
  - apply ordered_snoc; done.
  - right. eexists. split; [done |]. cbn. split; [lia |]. exact Ha.
Qed.

Lemma said_journal id p a s :
  (match a with Add c => ID c | Remove i => i end) = id ->
  said (journalStep id p a s) !! id = match a with Add c => Some c | Remove _ => None end.
Proof.
  intros Ha. rewrite said_word. cbn [hist journalStep]. rewrite lastWord_snoc, decide_True; [destruct a; done | exact Ha].
Qed.

Lemma said_setRec id p x s : said (setRec id p x s) = said s.
Proof. done. Qed.

Lemma inv_track_check c s s' : sysInv s -> sysStep s (TrackCheck c) = Some s' -> sysInv s'.
Proof.
  intros Hs. cbn. destruct (recs s !! ID c) eqn:E; [done |]. intros [= <-].
  assert (Hp := inv_phase s Hs (ID c)). rewrite E in Hp.
  eapply (inv_one (ID c)); [done | apply oneId_same, Hs | done | | destruct (atCapacity (srv s)); done | apply Hs | done |].
  - rewrite said_setRec. cbn. destruct (atCapacity (srv s)); done.
  - apply (fetchOk_one (ID c)); [apply oneId_same, Hs | apply Hs | done ..].
Qed.

Lemma inv_track_store id s s' : sysInv s -> sysStep s (TrackStore id) = Some s' -> sysInv s'.
Proof.
  intros Hs. cbn. destruct (recs s !! id) as [[c | c | c | | c | c |] |] eqn:E; try done. intros [= <-].
  assert (Hp := inv_phase s Hs id). rewrite E in Hp. destruct Hp as [Ha Hsd].
  assert (Hid := inv_id s Hs id). rewrite E in Hid.
  assert (H1 : oneId id s (setRec id (Stored c) (setActive (<[id := c]> (activeMap (srv s))) (srv s)) s)).
  { apply oneId_map; [apply Hs | intros; apply lookup_insert_ne; done |].
    intros o [-> | ->]; [left; done | left; congruence]. }
  eapply (inv_one id); [done | exact H1 | done | | done | apply Hs | done |].
  - cbn. rewrite lookup_insert_eq. done.
  - apply (fetchOk_one id); [exact H1 | apply Hs | done .. |]. intros _. cbn. rewrite lookup_insert_eq. done.
Qed.

Lemma inv_journal_step id p a s :
  sysInv s -> (match a with Add c => ID c | Remove i => i end) = id ->
  phaseOk (Some p) (activeMap (srv s) !! id) (match a with Add c => Some c | Remove _ => None end) -> phaseId id (Some p) ->
  sysInv (journalStep id p a s).
Proof.
  intros Hs Ha Hp Hid. assert (H1 : oneId id s (journalStep id p a s)) by (apply oneId_journal; [apply Hs | done]).
  eapply (inv_one id); [done | exact H1 | done | | done | | done |].
  - rewrite said_journal by done. exact Hp.
  - cbn. rewrite (inv_journal s Hs), trim_snoc. done.
  - apply (fetchOk_one id); [exact H1 | apply Hs | done ..].
Qed.

Lemma inv_remove_load id s s' : sysInv s -> sysStep s (RemoveLoad id) = Some s' -> sysInv s'.
Proof.
  intros Hs. cbn. assert (Hp := inv_phase s Hs id). assert (Hid := inv_id s Hs id).
  destruct (recs s !! id) as [[c | c | c | | c | c |] |] eqn:E; try done; destruct Hp as [Ha Hsd]; rewrite Ha; intros [= <-].
  all: eapply (inv_one id); [done | apply oneId_same, Hs | done | | done | apply Hs | done |
         apply (fetchOk_one id); [apply oneId_same, Hs | apply Hs | done ..]].
  all: rewrite said_setRec; done.
Qed.

Lemma inv_remove_delete id s s' : sysInv s -> sysStep s (RemoveDelete id) = Some s' -> sysInv s'.
Proof.
  intros Hs. cbn. assert (Hp := inv_phase s Hs id). assert (Hid := inv_id s Hs id).
  destruct (recs s !! id) as [[c | c | c | | c | c |] |] eqn:E; try done; destruct Hp as [Ha Hsd]. intros [= <-].
  assert (H1 : forall f, oneId id s (setFetch f (setRec id (Deleted c) (setActive (delete id (activeMap (srv s))) (srv s)) s))).
  { intros f. unfold setFetch, setRec. cbn [srv recs hist cmap lastSeq lost]. apply oneId_map; [apply Hs | intros; apply lookup_delete_ne; done |].
    intros o [-> | ->]; [left; done | left; congruence]. }
  eapply (inv_one id); [done | apply H1 | done | | done | apply Hs | done |].
  - cbn. rewrite lookup_delete_eq. done.
  - unfold fetchOk. cbn [fetching setFetch lastSeq cmap setRec].
    assert (Hk : inStep s (lastSeq s) (cmap s) -> forall f, inStep (setFetch f (setRec id (Deleted c) (setActive (delete id (activeMap (srv s))) (srv s)) s)) (lastSeq s) (cmap s))
      by (intros H f; apply inStep_one with id s; [apply H1 | apply Hs | done]).
    destruct (fetching s) as [| v after | v a | v todo acc]; cbn [skipKey].
    + intros H. apply Hk. done.
    + intros (? & ? & ?). split_and!; auto.
    + intros (? & ? & ?). split_and!; auto.
    + intros Hr. apply (ranging_one id s _ v todo); [apply H1 | apply Hs | done | set_solver | set_solver |].
      intros _ _. right. cbn. rewrite lookup_delete_eq. done.
Qed.

Lemma inv_logged ev s : sysInv s -> sysInv (mkSys (Log ev (srv s)) (recs s) (hist s) (cmap s) (lastSeq s) (fetching s) (lost s)).
Proof.
  intros [Hp Hi [Ho1 Ho2] Hj Hf]. assert (Ho' : ordered (hist s) (version (srv s) + 1)).
  { split; [done |]. eapply List.Forall_impl; [| exact Ho2]. cbn. intros; lia. }
  constructor; [done .. |]. intros Hl. specialize (Hf Hl). revert Hf.
  apply (fetchOk_one ""); [| done ..]. constructor; cbn; [done | lia | done |]. left. done.
Qed.

(** The entries after a cursor that the journal still holds. *)
Lemma journal_complete s a :
  sysInv s -> length (entriesAfter a (journal (srv s))) = length (entriesAfter a (hist s)) ->
  entriesAfter a (journal (srv s)) = entriesAfter a (hist s).
Proof.
  intros Hs. rewrite (inv_journal s Hs). unfold trim. set (k := (length (hist s) - maxJournal)%nat).
  assert (E : entriesAfter a (hist s) = entriesAfter a (take k (hist s)) ++ entriesAfter a (drop k (hist s)))
    by (rewrite <- entriesAfter_app, take_drop; done).
  rewrite E, length_app.
  destruct (entriesAfter a (take k (hist s))) as [| e l]; cbn; [done | lia].
Qed.

(** A cursor that is not stale finds all of them. *)
Lemma fresh_complete s a : sysInv s -> cursorStale a (srv s) = false -> entriesAfter a (journal (srv s)) = entriesAfter a (hist s).
Proof.
  intros Hs. unfold cursorStale. rewrite (inv_journal s Hs). unfold trim. set (k := (length (hist s) - maxJournal)%nat).
  assert (E : entriesAfter a (hist s) = entriesAfter a (take k (hist s)) ++ entriesAfter a (drop k (hist s)))
    by (rewrite <- entriesAfter_app, take_drop; done).
  rewrite E. destruct (drop k (hist s)) as [| e l] eqn:Ed; [done |].
  intros [Hle _]%orb_false_iff. apply Z.ltb_ge in Hle. rewrite (entriesAfter_none a (take k (hist s))); [done |].
  destruct (inv_ordered s Hs) as [Hso _]. rewrite <- (take_drop k (hist s)), Ed in Hso.
  clear -Hso Hle. induction (take k (hist s)) as [| f t IH]; [done |]. cbn in Hso. inversion Hso as [| ? ? Ht Hall]; subst.
  constructor; [| auto]. rewrite List.Forall_forall in Hall. specialize (Hall e (in_elt e t l)). lia.
Qed.

Lemma inStep_caught s v m :
  ordered (hist s) (version (srv s)) -> v <= version (srv s) -> (forall id, is_Some (lastWord id (entriesAfter v (hist s))) \/ near s id (m !! id)) ->
  inStep s v m.
Proof.
  intros Ho Hv Hn. split; [done |]. intros id. rewrite replay_lookup.
  destruct (lastWord id (entriesAfter v (hist s))) as [w |] eqn:Ew.
  - left. symmetry. apply (said_after s v); done.
  - destruct (Hn id) as [[w Hw] | H]; [congruence | exact H].
Qed.

(** A step of the page alone. *)
Lemma inv_page s s' :
  sysInv s -> srv s' = srv s -> recs s' = recs s -> hist s' = hist s -> (lost s' = false -> fetchOk s') -> sysInv s'.
Proof.
  intros [Hp Hi Ho Hj _] Es Er Eh Hf. constructor; [| rewrite Er; done | rewrite Eh, Es; done | rewrite Eh, Es; done | done].
  intros id. unfold said. rewrite Er, Es, Eh. apply Hp.
Qed.

Lemma ranging_begin s v : v <= version (srv s) -> fetchOk (beginRange v s).
Proof.
  intros Hv. unfold beginRange, fetchOk; cbn. split; [done |]. intros id. cbn. split.
  - intros Hd. rewrite lookup_empty. apply elem_of_dom in Hd. done.
  - destruct (decide (id ∈ dom (activeMap (srv s)))) as [| Hn]; [left; done |]. right; right; right. cbn.
    rewrite lookup_empty. apply not_elem_of_dom in Hn. done.
Qed.

Lemma inv_fetching s e s' :
  sysInv s -> match e with Ask _ | CheckCursor | ReadEntries | Visit _ | FinishRange => True | _ => False end ->
  sysStep s e = Some s' -> sysInv s'.
Proof.
  intros Hs He Hst. assert (Hf := inv_fetch s Hs). assert (Ho := inv_ordered s Hs). unfold fetchOk in Hf.
  destruct e as [| | | | | | | incr | | | id |]; try done; cbn in Hst;
    destruct (fetching s) as [| v after | v a | v todo acc] eqn:Ef; try done.
  - injection Hst as <-. apply (inv_page s); try done. cbn. intros Hl. unfold fetchOk; cbn. split_and!; [lia | apply Hf; done |].
    intros a. destruct (incr && (0 <? lastSeq s)); congruence.
  - assert (Hk : lost s = false -> fetchOk (beginRange v s) /\ (forall a, after = Some a -> fetchOk (setFetch (Reading v a) s))).
    { intros Hl. destruct (Hf Hl) as (Hv & Hi & Ha). split; [apply ranging_begin; done |].
      intros a E. unfold fetchOk; cbn. auto. }
    destruct after as [a |]; [destruct (cursorStale a (srv s)) |]; injection Hst as <-; apply (inv_page s); try done; cbn; intros Hl; apply Hk; done.
  - injection Hst as <-. apply (inv_page s); try done. cbn. intros [Hl Hn]%orb_false_iff.
    apply negb_false_iff, Nat.eqb_eq in Hn. apply journal_complete in Hn; [| done].
    destruct (Hf Hl) as (Hv & [_ Hi] & ->). unfold fetchOk; cbn. rewrite Hn. apply inStep_caught; [done .. |].
    intros id. right. apply Hi.
  - destruct (activeMap (srv s) !! id) as [c |] eqn:Ec; [| done]. injection Hst as <-. apply (inv_page s); try done. cbn. intros Hl.
    destruct (Hf Hl) as [Hv Hr]. unfold fetchOk; cbn. split; [done |]. intros i. cbn. destruct (Hr i) as [Ha Hb].
    destruct (decide (i = id)) as [-> | Hn].
    + split; [set_solver |]. right; right; right. cbn. rewrite lookup_insert_eq, Ec. done.
    + rewrite lookup_insert_ne by done. split; [intros Hd; apply Ha; set_solver |].
      destruct Hb as [| [|]]; [left; set_solver | right; left; done | right; right; done].
  - destruct (bool_decide (todo = ∅)) eqn:Et; [| done]. apply bool_decide_eq_true in Et. injection Hst as <-.
    apply (inv_page s); try done. cbn. intros Hl. destruct (Hf Hl) as [Hv Hr]. unfold fetchOk; cbn.
    apply inStep_caught; [done .. |]. intros id. destruct (Hr id) as [_ [| [|]]]; [set_solver | left; done | right; done].
Qed.

Lemma inv_sysStep s e s' : sysInv s -> sysStep s e = Some s' -> sysInv s'.
Proof.
  intros Hs He. destruct e as [c | id | id | id | id | id | ev | incr | | | id |].
  - apply (inv_track_check c s); done.
  - apply (inv_track_store id s); done.
  - cbn in He. assert (Hp := inv_phase s Hs id). assert (Hid := inv_id s Hs id).
    destruct (recs s !! id) as [[c | c | c | | c | c |] |] eqn:E; try done. injection He as <-. destruct Hp as [Ha _].
    apply inv_journal_step; done.
  - apply (inv_remove_load id s); done.
  - apply (inv_remove_delete id s); done.
  - cbn in He. assert (Hp := inv_phase s Hs id). 
    destruct (recs s !! id) as [[c | c | c | | c | c |] |] eqn:E; try done. injection He as <-. destruct Hp as [Ha _].
    apply inv_journal_step; done.
  - injection He as <-. apply inv_logged; done.
  - apply (inv_fetching s (Ask incr)); done.
  - apply (inv_fetching s CheckCursor); done.
  - apply (inv_fetching s ReadEntries); done.
  - apply (inv_fetching s (Visit id)); done.
  - apply (inv_fetching s FinishRange); done.
Qed.

Lemma inv_sysReach s : sysReach s -> sysInv s.
Proof.
  induction 1 as [| s e s' _ IH He]; [| apply (inv_sysStep s e); done].
  constructor; [intros id; done | intros id; done | split; constructor | done |].
  intros _. split; [done |]. intros id. left. done.
Qed.

(** ** A request that nothing disturbs *)

Fixpoint runSys (es : list sysEvent) (s : Sys) : option Sys :=
  match es with [] => Some s | e :: es => match sysStep s e with Some s' => runSys es s' | None => None end end.

Lemma runSys_app es fs s : runSys (es ++ fs) s = match runSys es s with Some s' => runSys fs s' | None => None end.
Proof. revert s. induction es as [| e es IH]; intros s; cbn; [done |]. destruct (sysStep s e); [apply IH | done]. Qed.

Lemma runSys_reach es s s' : sysReach s -> runSys es s = Some s' -> sysReach s'.
Proof.
  revert s. induction es as [| e es IH]; intros s Hr; cbn; [intros [= <-]; done |].
  destruct (sysStep s e) as [s1 |] eqn:E; [| done]. apply IH. apply (sys_step s e); done.
Qed.

(** Visiting every key. *)
Lemma visit_all (l : list string) s v todo acc :
  fetching s = Ranging v todo acc -> (forall id, id ∈ l -> is_Some (activeMap (srv s) !! id)) ->
  exists acc', runSys (map Visit l) s = Some (setFetch (Ranging v (todo ∖ list_to_set l) acc') s).
Proof.
  revert s todo acc. induction l as [| id l IH]; intros s todo acc Ef Hl.
  - exists acc. cbn. replace (todo ∖ ∅) with todo by set_solver. destruct s; cbn in *; subst; done.
  - cbn. rewrite Ef. destruct (Hl id ltac:(set_solver)) as [c ->].
    destruct (IH (setFetch (Ranging v (todo ∖ {[id]}) (<[id := c]> acc)) s) (todo ∖ {[id]}) (<[id := c]> acc)) as [acc' ->];
      [done | intros i Hi; cbn; apply Hl; set_solver |].
    exists acc'. unfold setFetch; cbn. do 3 f_equal. set_solver.
Qed.

(** From an idle page a request, undisturbed, ends with the cursor at the version. *)
Lemma request_completes s (incr : bool) :
  sysInv s -> fetching s = Idle -> lost s = false ->
  exists es s', hd_error es = Some (Ask incr) /\ runSys es s = Some s' /\ srv s' = srv s /\ recs s' = recs s /\ hist s' = hist s /\
    fetching s' = Idle /\ lastSeq s' = version (srv s) /\ lost s' = false.
Proof.
  intros Hs Ef Hl. set (after := if incr && (0 <? lastSeq s) then Some (lastSeq s) else None).
  set (s1 := setFetch (Versioned (version (srv s)) after) s).
  assert (E1 : sysStep s (Ask incr) = Some s1) by (cbn; rewrite Ef; done).
  assert (Hrange : sysStep s1 CheckCursor = Some (beginRange (version (srv s)) s1) ->
    exists es s', hd_error es = Some (Ask incr) /\ runSys es s = Some s' /\ srv s' = srv s /\ recs s' = recs s /\ hist s' = hist s /\
      fetching s' = Idle /\ lastSeq s' = version (srv s) /\ lost s' = false).
  { intros E2. destruct (visit_all (elements (dom (activeMap (srv s)))) (beginRange (version (srv s)) s1) (version (srv s))
      (dom (activeMap (srv s))) ∅) as [acc' E3]; [done | intros id Hid; apply elem_of_elements, elem_of_dom in Hid; done |].
    exists ([Ask incr; CheckCursor] ++ map Visit (elements (dom (activeMap (srv s)))) ++ [FinishRange]).
    eexists. split; [done |]. rewrite runSys_app. cbn [runSys]. rewrite E1, E2. cbv beta iota. rewrite runSys_app, E3. cbn.
    rewrite bool_decide_true by (rewrite list_to_set_elements_L; set_solver). split_and!; done. }
  destruct after as [a |] eqn:Ea; [destruct (cursorStale a (srv s)) eqn:Ec |].
  - apply Hrange. cbn. rewrite Ec. done.
  - exists [Ask incr; CheckCursor; ReadEntries]. eexists. split; [done |]. cbn [runSys]. rewrite E1. cbn. rewrite Ec. cbn.
    split_and!; try done. cbn. rewrite (fresh_complete s a Hs Ec), Nat.eqb_refl, Hl. done.
  - apply Hrange. done.
Qed.

(** ** Records *)

(** What a record does to the log and to the table does not depend on its setters. *)
Definition terminal (c : call) : bool := match c with Reject | Fail_ _ | Establish _ _ _ => true | _ => false end.
Definition runCalls (now : Z) (cs : list call) (rs : Record_ * connlog) : Record_ * connlog := foldl (fun rs c => recordCall now c rs) rs cs.

Lemma logRecord_total now st er r s :
  totalConnections (snd (logRecord now st er r s)) = totalConnections s + (if finished r then 0 else 1) /\
  finished (fst (logRecord now st er r s)) = true.
Proof. unfold logRecord. destruct (finished r) eqn:E; cbn; split; try done; lia. Qed.

Lemma TrackActive_total c s : totalConnections (TrackActive c s) = totalConnections s.
Proof. unfold TrackActive. destruct (atCapacity s); done. Qed.
Lemma RemoveActive_total id s : totalConnections (RemoveActive id s) = totalConnections s.
Proof. unfold RemoveActive. destruct (activeMap s !! id); done. Qed.

Lemma recordCall_total now c r s :
  let '(r', s') := recordCall now c (r, s) in
  finished r' = finished r || terminal c /\
  totalConnections s' = totalConnections s + (if terminal c && negb (finished r) then 1 else 0).
Proof.
  destruct c as [| | | | | | err | id proxy direct |]; cbn [recordCall terminal andb];
    try (rewrite orb_false_r; split; [done |]; cbn; lia).
  - assert (H := logRecord_total now "reject" None r s). destruct (logRecord now "reject" None r s) as [r' s']; cbn in H.
    destruct H as [-> ->]. destruct (finished r); done.
  - assert (H := logRecord_total now "fail" err r s). destruct (logRecord now "fail" err r s) as [r' s']; cbn in H.
    destruct H as [-> ->]. destruct (finished r); done.
  - unfold establish. match goal with |- context [logRecord now "ok" None ?x s] => assert (H := logRecord_total now "ok" None x s);
      destruct (logRecord now "ok" None x s) as [r' s'] end; cbn in H. destruct H as [Ht Hf].
    rewrite TrackActive_total, Ht, Hf. destruct (finished r); done.
  - rewrite orb_false_r. split; [done |]. destruct (established r && _); [rewrite RemoveActive_total |]; lia.
Qed.

Lemma runCalls_total now cs r s :
  totalConnections (snd (runCalls now cs (r, s))) = totalConnections s + (if existsb terminal cs && negb (finished r) then 1 else 0).
Proof.
  revert r s. induction cs as [| c cs IH]; intros r s; [cbn; lia |].
  assert (H := recordCall_total now c r s).
  change (runCalls now (c :: cs) (r, s)) with (runCalls now cs (recordCall now c (r, s))).
  destruct (recordCall now c (r, s)) as [r' s'] eqn:E. destruct H as [Hf Ht].
  rewrite IH, Ht, Hf. cbn [existsb]. destruct (terminal c), (finished r), (existsb terminal cs); cbn; lia.
Qed.

Lemma RemoveActive_gone id s : activeMap (RemoveActive id s) !! id = None.
Proof. unfold RemoveActive. destruct (activeMap s !! id) eqn:E; [cbn; apply lookup_delete_eq | done]. Qed.
Lemma RemoveActive_other id i s : i <> id -> activeMap (RemoveActive id s) !! i = activeMap s !! i.
Proof. intros H. unfold RemoveActive. destruct (activeMap s !! id) eqn:E; [cbn; apply lookup_delete_ne |]; done. Qed.
Lemma newActive_id now id ib pr sa od da dp mr opts : ID (newActive now id ib pr sa od da dp mr opts) = id.
Proof.
  assert (H : forall opts c, ID (foldl applyActive c opts) = ID c).
  { clear. induction opts as [| o opts IH]; intros c; [done |]. cbn [foldl]. rewrite IH.
    destruct c, o; cbn; try done. destruct (String.eqb key ""); done. }
  unfold newActive. match goal with |- context [if ?b then _ else _] => destruct b end; [| apply H].
  match goal with |- ID (applyActive ?c ?o) = _ => assert (H1 := H [o] c) end. cbn [foldl] in H1. rewrite H1. apply H.
Qed.

(** ** Properties *)


(** A record is logged once.  Whatever setters and endings a forwarding path calls on a new
    record, in any order, one event is logged if it ends at all and none otherwise; and Close
    removes what Establish tracked under the record's id, and nothing else. *)
Theorem record_logged_once (now : Z) (inbound protocol srcAddr originalDst : string) (cs : list call) (s : connlog) :
  let '(r, s') := runCalls now cs (Start inbound protocol srcAddr originalDst, s) in
  totalConnections s' = totalConnections s + (if existsb terminal cs then 1 else 0) /\
  let s'' := snd (recordCall now Close (r, s')) in
  (established r = true -> rConnID r <> ""%string -> activeMap s'' !! rConnID r = None) /\
  (forall id, id <> rConnID r -> activeMap s'' !! id = activeMap s' !! id).
Proof.
  assert (H := runCalls_total now cs (Start inbound protocol srcAddr originalDst) s).
  destruct (runCalls now cs _) as [r s']. cbn in H. rewrite andb_true_r in H. split; [exact H |]. cbn.
  split.
  - intros -> Hn. apply String.eqb_neq in Hn. rewrite Hn. apply RemoveActive_gone.
  - intros id Hid. destruct (established r && _); [apply RemoveActive_other |]; done.
Qed.

(** ** Witness and a page that stays behind *)

Definition conn (n : Z) : ActiveConn :=
  newActive n ("conn-" ++ pretty n)%string "TUN" "TCP" "10.0.0.2" "example.org" "192.0.2.1" 443 None [ActiveSrcPort 5150].
Definition opened (n : Z) : list sysEvent := [TrackCheck (conn n); TrackStore (ID (conn n)); TrackJournal (ID (conn n))].
Definition closed (n : Z) : list sysEvent := [RemoveLoad (ID (conn n)); RemoveDelete (ID (conn n)); RemoveJournal (ID (conn n))].
Definition whole (n : Z) : list sysEvent := [Ask true; CheckCursor; Visit (ID (conn n)); FinishRange].

Definition quietb (s : Sys) : bool := forallb (fun kv => settled (snd kv)) (map_to_list (recs s)).
Lemma quietb_quiet s : quietb s = true -> quiet s.
Proof.
  unfold quietb, quiet. rewrite forallb_forall. intros H id p Hp.
  apply (H (id, p)). apply list_elem_of_In, elem_of_map_to_list. done.
Qed.


(** A page that last asked when the first connection was open.  The connection closes, 249
    others come and go, and the page asks again: its cursor is still in the journal.  Before
    the entries are read one more connection comes and goes, and the removal of the first
    leaves the journal.  The page keeps showing it, also after its next request. *)
Definition behind : list sysEvent :=
  opened 1 ++ whole 1 ++ closed 1 ++ concat (map (fun n => opened (Z.of_nat n) ++ closed (Z.of_nat n)) (seq 2 249)) ++
  [Ask true; CheckCursor] ++ opened 300 ++ closed 300 ++ [ReadEntries] ++ [Ask true; CheckCursor; ReadEntries].

Example page_stays_behind :
  match runSys behind boot with
  | Some s => fetching s = Idle /\ elements (dom (activeMap (srv s))) = [] /\ elements (dom (cmap s)) = [ID (conn 1)] /\ lastSeq s = version (srv s)
  | None => False
  end.
Proof. vm_compute. done. Qed.
