(* ===== verification/MeshDns.v ===== *)
(** MeshDns: the DNS server of the mesh, src/mesh/dns.go: the messages it reads and
    writes, the cache of answers from other nodes, and the queries that wait for them.

    A position in a packet is the rest of the packet from there on.  strings.ToLower and
    the table that says which node owns a domain are arguments.  The sockets are outside:
    what is sent is listed. *)

From Stdlib Require Import ZArith Lia.
From stdpp Require Import base gmap list numbers.
From S2P Require Import Prelude IPPacket AddrCodec FakeIP.
Open Scope Z_scope.

(** ** Messages *)

(** The labels of a name and what follows it; [ptr] follows the response parsers, which
    end a name at a compression pointer.  Every turn takes at least a byte, so the length
    of the packet is fuel enough. *)
Fixpoint labelsF (fuel : nat) (ptr : bool) (rest : list Z) : option (list (list Z) * list Z) :=
  match fuel, rest with
  | O, _ | _, [] => None
  | S fuel, llen :: r =>
      if llen =? 0 then Some ([], r)
      else if ptr && (Z.land llen 0xc0 =? 0xc0) then Some ([], drop 1 r)
      else if (63 <? llen) || (len r <? llen) then None
      else match labelsF fuel ptr (drop (Z.to_nat llen) r) with
           | Some (ls, r') => Some (take (Z.to_nat llen) r :: ls, r')
           | None => None
           end
  end.
Definition labels (ptr : bool) (rest : list Z) := labelsF (S (length rest)) ptr rest.

Fixpoint joinDots (ls : list (list Z)) : list Z :=
  match ls with [] => [] | [l] => l | l :: ls => l ++ [46] ++ joinDots ls end.

(** The domain and the type of the first question. *)
Definition question (ptr : bool) (pkt : list Z) : option (list Z * Z) :=
  if Uint16 (sub pkt 4 6) =? 0 then None
  else match labels ptr (from pkt 12) with
       | None => None
       | Some (ls, rest) => if len rest <? 4 then None else Some (joinDots ls, Uint16 (sub rest 0 2))
       end.

Definition parseDNSQueryDomain (pkt : list Z) : option (list Z * Z) :=
  if len pkt <? 12 then None
  else if negb (Z.land (Uint16 (sub pkt 2 4)) 0x8000 =? 0) then None
  else question false pkt.

Definition parseDNSResponseDomain (pkt : list Z) : option (list Z * Z) :=
  if len pkt <? 12 then None else question true pkt.

(** The question of a query as buildDNSResponse copies it: the bytes, or nothing, or a
    slice past the end of the packet (which panics when nothing lies behind it: the packets
    are copies of their own length). *)
Inductive Built := Bytes (b : list Z) | Nil | Panic.

Fixpoint copyNameF (fuel : nat) (rest : list Z) : option (list Z * list Z) + bool :=
  match fuel, rest with
  | O, _ | _, [] => inl None
  | S fuel, llen :: r =>
      if llen =? 0 then inl (Some ([llen], r))
      else if len r <? llen then inr true
      else match copyNameF fuel (drop (Z.to_nat llen) r) with
           | inl (Some (b, r')) => inl (Some (llen :: take (Z.to_nat llen) r ++ b, r'))
           | o => o
           end
  end.

Definition answerTTL : Z := 5.

Definition buildDNSResponse (query ip : list Z) : Built :=
  if len query <? 12 then Nil
  else match copyNameF (S (length query)) (from query 12) with
       | inr _ => Panic
       | inl None => Nil
       | inl (Some (name, rest)) =>
           if len rest <? 4 then Nil
           else Bytes (sub query 0 2 ++ [0x81; 0x80] ++ sub query 4 6 ++ [0x00; 0x01] ++ [0x00; 0x00] ++ [0x00; 0x00] ++ name ++ sub rest 0 4 ++
                       [0xc0; 0x0c] ++ [0x00; 0x01] ++ [0x00; 0x01] ++ [0x00; 0x00; 0x00; 0x05] ++ [0x00; 0x04] ++ ip)
       end.

(** The question as the responses without an answer copy it. *)
Fixpoint copyQuestionF (fuel : nat) (rest : list Z) : option (list Z * list Z) :=
  match fuel, rest with
  | O, _ => None
  | _, [] => Some ([], [])
  | S fuel, llen :: r =>
      if llen =? 0 then Some ([0x00], r)
      else if len r <? llen then None
      else match copyQuestionF fuel (drop (Z.to_nat llen) r) with
           | Some (b, r') => Some (llen :: take (Z.to_nat llen) r ++ b, r')
           | None => None
           end
  end.

Definition buildFlagged (flags query : list Z) : option (list Z) :=
  if len query <? 12 then None
  else match copyQuestionF (S (length query)) (from query 12) with
       | None => None
       | Some (name, rest) =>
           Some ([byte_at query 0; byte_at query 1] ++ flags ++ [0x00; 0x01; 0x00; 0x00; 0x00; 0x00; 0x00; 0x00] ++ name ++
                 (if 4 <=? len rest then sub rest 0 4 else []))
       end.
Definition buildDNSErrorResponse : list Z -> option (list Z) := buildFlagged [0x80; 0x02].
Definition buildDNSEmptyResponse : list Z -> option (list Z) := buildFlagged [0x81; 0x80].

(** strings.Split of a domain at its dots. *)
Fixpoint splitDots (d : list Z) : list (list Z) :=
  match d with
  | [] => [[]]
  | c :: d => if c =? 46 then [] :: splitDots d else match splitDots d with l :: ls => (c :: l) :: ls | [] => [[c]] end
  end.

Definition BuildDNSQuery (domain : list Z) (txID : Z) : list Z :=
  PutUint16 txID ++ [0x01; 0x00] ++ [0x00; 0x01] ++ [0x00; 0x00] ++ [0x00; 0x00] ++ [0x00; 0x00] ++
  concat (map (fun l => byte_of (len l) :: l) (splitDots domain)) ++ [0x00] ++ [0x00; 0x01] ++ [0x00; 0x01].

(** The name before an answer: a pointer, or labels. *)
Definition skipName (rest : list Z) : option (list Z) :=
  match rest with
  | [] => None
  | b :: _ => if Z.land b 0xc0 =? 0xc0 then Some (drop 2 rest) else match labels true rest with Some (_, r) => Some r | None => None end
  end.

(** A response's rest after the question, when it has answers to look at. *)
Definition answers (resp : list Z) : option (list Z) :=
  if len resp <? 12 then None
  else let flags := Uint16 (sub resp 2 4) in
       if Z.land flags 0x8000 =? 0 then None
       else if negb (Z.land flags 0x000f =? 0) then None
       else if Uint16 (sub resp 6 8) =? 0 then None
       else match labels true (from resp 12) with
            | None => None
            | Some (_, rest) => Some (drop 4 rest)
            end.

(** The first address and its time to live in seconds. *)
Definition ParseDNSResponseIP (resp : list Z) : option (list Z * Z) :=
  match answers resp with
  | None => None
  | Some rest =>
      match skipName rest with
      | None => None
      | Some r =>
          if len r <? 10 then None
          else if negb (Uint16 (sub r 0 2) =? 0x0001) || negb (Uint16 (sub r 8 10) =? 4) then None
          else if len (drop 10 r) <? 4 then None
          else Some (sub r 10 14, Uint32 (sub r 4 8))
      end
  end.

Fixpoint answerIPs (ancount : nat) (rest : list Z) : list (list Z) :=
  match ancount, rest with
  | O, _ | _, [] => []
  | S ancount, _ =>
      match skipName rest with
      | None => []
      | Some r =>
          if len r <? 10 then []
          else let rdlen := Uint16 (sub r 8 10) in
               let body := drop 10 r in
               (if (Uint16 (sub r 0 2) =? 0x0001) && (rdlen =? 4) && (4 <=? len body) then [sub body 0 4] else []) ++
               answerIPs ancount (drop (Z.to_nat rdlen) body)
      end
  end.
Definition ParseDNSResponseIPs (resp : list Z) : list (list Z) :=
  match answers resp with None => [] | Some rest => answerIPs (Z.to_nat (Uint16 (sub resp 6 8))) rest end.

Definition parseDNSResponseForCache (resp : list Z) : option (list Z * list Z * Z) :=
  match ParseDNSResponseIP resp with
  | None => None
  | Some (ip, ttl) => match parseDNSResponseDomain resp with None => Some ([], ip, ttl) | Some (d, _) => Some (d, ip, ttl) end
  end.

(** ** Names *)

Lemma land_c0 x : 0 <= x <= 63 -> Z.land x 0xc0 = 0.
Proof.
  intros H. assert (E : x = Z.land x 63) by (change 63 with (Z.ones 6); rewrite Z.land_ones by lia; rewrite Z.mod_small by lia; done).
  rewrite E, <- Z.land_assoc. change (Z.land 63 0xc0) with 0. apply Z.land_0_r.
Qed.

(** The length of the packet is fuel enough. *)
Lemma labelsF_fuel n ptr rest : (length rest <= n)%nat -> labelsF (S n) ptr rest = labelsF n ptr rest.
Proof.
  revert rest. induction n as [|n IH]; intros [|llen r] H; cbn in H; try done; [lia|]. change (labelsF (S (S n)) ptr (llen :: r)) with
    (if llen =? 0 then Some ([], r) else if ptr && (Z.land llen 0xc0 =? 0xc0) then Some ([], drop 1 r)
     else if (63 <? llen) || (len r <? llen) then None
     else match labelsF (S n) ptr (drop (Z.to_nat llen) r) with Some (ls, r') => Some (take (Z.to_nat llen) r :: ls, r') | None => None end).
  rewrite IH by (rewrite length_drop; lia). done.
Qed.

Lemma labels_any n ptr rest : (length rest <= n)%nat -> labelsF n ptr rest = labels ptr rest.
Proof.
  intros H. unfold labels. rewrite labelsF_fuel by done. induction n as [|n IH]; [destruct rest; [done|cbn in H; lia]|]. destruct (decide (length rest = S n)) as [->|Hne]; [done|].
  rewrite labelsF_fuel by lia. apply IH. lia.
Qed.

(** What a query's name reads as, whatever follows it: the same labels for both kinds of
    parser, and the bytes themselves for the copies. *)
Lemma name_prefix n rest ls r : Forall is_byte rest -> labelsF n false rest = Some (ls, r) ->
  exists pre, rest = pre ++ r /\ forall x m, (length pre <= m)%nat ->
    labelsF m false (pre ++ x) = Some (ls, x) /\ labelsF m true (pre ++ x) = Some (ls, x) /\
    copyNameF m (pre ++ x) = inl (Some (pre, x)) /\ copyQuestionF m (pre ++ x) = Some (pre, x).
Proof.
  revert rest ls r. induction n as [|n IH]; intros rest ls r Hb; [done|]. destruct rest as [|llen rest]; [done|]. apply Forall_cons_iff in Hb as [Hl Hb]. cbn [labelsF andb].
  destruct (Z.eqb_spec llen 0) as [->|Hne].
  - intros [= <- <-]. exists [0]. split; [done|]. intros x [|m] Hm; [cbn in Hm; lia|]. done.
  - destruct (Z.ltb_spec 63 llen); [done|]. destruct (Z.ltb_spec (len rest) llen); [done|]. cbn [orb].
    destruct (labelsF n false (drop (Z.to_nat llen) rest)) as [ [ls' r'] |] eqn:E; [|done]. intros [= <- <-].
    destruct (IH _ _ _ ltac:(by apply Forall_drop) E) as (pre & Ep & Hpre). unfold is_byte in Hl.
    set (lab := take (Z.to_nat llen) rest). assert (Hlab : length lab = Z.to_nat llen) by (unfold lab; rewrite length_take; unfold len in *; lia).
    exists (llen :: lab ++ pre). split; [by rewrite <- app_comm_cons, <- app_assoc, <- Ep; unfold lab; rewrite take_drop|].
    intros x [|m] Hm; [cbn in Hm; lia|]. rewrite <- app_comm_cons, <- app_assoc. cbn [labelsF copyNameF copyQuestionF].
    destruct (Z.eqb_spec llen 0); [done|]. rewrite land_c0 by lia. change (0 =? 0xc0) with false. rewrite andb_false_r.
    assert (Hlen : (len (lab ++ pre ++ x) <? llen) = false).
    { apply Z.ltb_ge. rewrite !len_app. pose proof (len_nonneg pre). pose proof (len_nonneg x). unfold len in *. lia. }
    destruct (Z.ltb_spec 63 llen); [lia|]. rewrite Hlen. cbn [orb andb].
    rewrite <- Hlab, drop_app_length, take_app_length.
    destruct (Hpre x m) as (G1 & G2 & G3 & G4); [cbn in Hm; rewrite length_app in Hm; lia|]. by rewrite G1, G2, G3, G4.
Qed.

Lemma labels_prefix rest ls r : Forall is_byte rest -> labels false rest = Some (ls, r) ->
  exists pre, rest = pre ++ r /\ forall x,
    labels false (pre ++ x) = Some (ls, x) /\ labels true (pre ++ x) = Some (ls, x) /\
    (forall m, (length pre <= m)%nat -> copyNameF m (pre ++ x) = inl (Some (pre, x)) /\ copyQuestionF m (pre ++ x) = Some (pre, x)).
Proof.
  intros Hb H. destruct (name_prefix _ rest ls r Hb H) as (pre & E & Hp). exists pre. split; [done|]. intros x.
  destruct (Hp x (S (length (pre ++ x)))) as (H1 & H2 & _); [rewrite length_app; lia|]. split_and!; [exact H1|exact H2|]. intros m Hm. by destruct (Hp x m Hm) as (_ & _ & ? & ?).
Qed.

(** ** Queries and responses *)

(** A query in its parts: header, name, type and class, and what follows. *)
Lemma query_parts query d t : Forall is_byte query -> parseDNSQueryDomain query = Some (d, t) -> exists id flags count counts pre ls tc rest,
  query = (id ++ flags ++ count ++ counts) ++ pre ++ tc ++ rest /\ len id = 2 /\ len flags = 2 /\ len count = 2 /\ len counts = 6 /\ len tc = 4 /\
  d = joinDots ls /\ t = Uint16 (sub tc 0 2) /\ Uint16 count <> 0 /\
  forall x, labels false (pre ++ x) = Some (ls, x) /\ labels true (pre ++ x) = Some (ls, x) /\
    (forall m, (length pre <= m)%nat -> copyNameF m (pre ++ x) = inl (Some (pre, x)) /\ copyQuestionF m (pre ++ x) = Some (pre, x)).
Proof.
  intros Hb. unfold parseDNSQueryDomain, question. destruct (Z.ltb_spec (len query) 12) as [?|H12]; [done|]. destruct (negb _); [done|].
  destruct (Z.eqb_spec (Uint16 (sub query 4 6)) 0) as [?|Hc]; [done|]. destruct (labels false (from query 12)) as [ [ls r] |] eqn:El; [|done].
  destruct (Z.ltb_spec (len r) 4) as [?|H4]; [done|]. intros [= <- <-].
  assert (Hb' : Forall is_byte (from query 12)) by (by apply Forall_drop). destruct (labels_prefix _ _ _ Hb' El) as (pre & Ep & Hp).
  exists (sub query 0 2), (sub query 2 4), (sub query 4 6), (sub query 6 12), pre, ls, (sub r 0 4), (from r 4). split_and!; try (rewrite len_sub; lia); try done.
  - assert (Eh : sub query 0 2 ++ sub query 2 4 ++ sub query 4 6 ++ sub query 6 12 = take 12 query).
    { unfold sub. cbn. rewrite !drop_0. do 12 (destruct query as [|? query]; [exfalso; revert H12; unfold len; cbn; lia|]). done. }
    rewrite Eh. replace (sub r 0 4 ++ from r 4) with r by (unfold sub, from; cbn; by rewrite drop_0, take_drop). rewrite <- Ep. by rewrite <- (take_drop 12 query) at 1.
  - f_equal. unfold sub. cbn. rewrite !drop_0. by rewrite take_take.
Qed.

Lemma list2 (l : list Z) : len l = 2 -> exists a b, l = [a; b].
Proof. destruct l as [|a [|b [|c l]]]; unfold len; cbn; intros H; try lia. by exists a, b. Qed.
Lemma list4 (l : list Z) : len l = 4 -> exists a b c d, l = [a; b; c; d].
Proof. destruct l as [|a [|b [|c [|d [|e l]]]]]; unfold len; cbn; intros H; try lia. by exists a, b, c, d. Qed.

Section Answers.
Context (query d : list Z) (t : Z) (Hb : Forall is_byte query) (Hq : parseDNSQueryDomain query = Some (d, t)).

(** The answer with an address. *)
Lemma response_read ip : len ip = 4 -> exists resp, buildDNSResponse query ip = Bytes resp /\
  ParseDNSResponseIP resp = Some (ip, answerTTL) /\ ParseDNSResponseIPs resp <> [] /\ head (ParseDNSResponseIPs resp) = Some ip /\
  parseDNSResponseDomain resp = Some (d, t) /\ parseDNSQueryDomain resp = None /\ sub resp 0 2 = sub query 0 2.
Proof.
  intros Hip. destruct (query_parts query d t Hb Hq) as (id & flags & count & counts & pre & ls & tc & rest & Eq & Hid & Hfl & Hco & Hcs & Htc & Hd & Ht & Hc0 & Hp).
  apply list2 in Hid as (i0 & i1 & ->). apply list2 in Hfl as (f0 & f1 & ->). apply list2 in Hco as (c0 & c1 & ->). apply list4 in Htc as (t0 & t1 & t2 & t3 & ->). apply list4 in Hip as (p0 & p1 & p2 & p3 & ->).
  assert (H12 : len ([i0; i1] ++ [f0; f1] ++ [c0; c1] ++ counts) = 12) by (rewrite !len_app, Hcs; done).
  set (tail := [0xc0; 0x0c; 0x00; 0x01; 0x00; 0x01; 0x00; 0x00; 0x00; 0x05; 0x00; 0x04; p0; p1; p2; p3]).
  set (resp := [i0; i1; 0x81; 0x80; c0; c1; 0x00; 0x01; 0x00; 0x00; 0x00; 0x00] ++ pre ++ [t0; t1; t2; t3] ++ tail).
  assert (Hn : (len resp <? 12) = false) by (apply Z.ltb_ge; unfold resp; rewrite len_app; pose proof (len_nonneg (pre ++ [t0; t1; t2; t3] ++ tail)); change (len [i0; i1; 129; 128; c0; c1; 0; 1; 0; 0; 0; 0]) with 12; lia).
  assert (Hbuild : buildDNSResponse query [p0; p1; p2; p3] = Bytes resp).
  { unfold buildDNSResponse. assert (Hl : (len query <? 12) = false) by (apply Z.ltb_ge; rewrite Eq, len_app, H12; pose proof (len_nonneg (pre ++ [t0; t1; t2; t3] ++ rest)); lia).
    rewrite Hl. replace (from query 12) with (pre ++ [t0; t1; t2; t3] ++ rest) by (rewrite Eq; symmetry; by apply from_app).
    destruct (Hp ([t0; t1; t2; t3] ++ rest)) as (_ & _ & Hcopy). destruct (Hcopy (S (length query))) as [-> _]; [rewrite Eq, !length_app; lia|].
    assert (Hr : (len ([t0; t1; t2; t3] ++ rest) <? 4) = false) by (apply Z.ltb_ge; rewrite len_app; pose proof (len_nonneg rest); change (len [t0; t1; t2; t3]) with 4; lia).
    rewrite Hr. f_equal. change (sub ([t0; t1; t2; t3] ++ rest) 0 4) with [t0; t1; t2; t3]. rewrite Eq. done. }
  assert (Hlab : forall b, labels b (from resp 12) = Some (ls, [t0; t1; t2; t3] ++ tail)) by (intros b; change (from resp 12) with (pre ++ [t0; t1; t2; t3] ++ tail); by destruct b; apply Hp).
  assert (Hans : answers resp = Some tail) by (unfold answers; rewrite Hn; cbv zeta; rewrite Hlab; done).
  exists resp. split; [done|]. assert (Hips : ParseDNSResponseIPs resp = [ [p0; p1; p2; p3] ]).
  { unfold ParseDNSResponseIPs. rewrite Hans. change (Uint16 (sub resp 6 8)) with 1. reflexivity. }
  split_and!; rewrite ?Hips; try done.
  - unfold ParseDNSResponseIP. rewrite Hans. reflexivity.
  - unfold parseDNSResponseDomain, question. rewrite Hn, Hlab. change (Uint16 (sub resp 4 6)) with (Uint16 [c0; c1]). destruct (Z.eqb_spec (Uint16 [c0; c1]) 0); [done|]. subst d t. reflexivity.
  - unfold parseDNSQueryDomain. rewrite Hn. reflexivity.
  - unfold resp. rewrite Eq. done.
Qed.

(** The answers without one: a failure, and the empty answer to a question about IPv6. *)
Lemma flagged_read flags : flags = [0x80; 0x02] \/ flags = [0x81; 0x80] -> exists resp, buildFlagged flags query = Some resp /\
  ParseDNSResponseIP resp = None /\ parseDNSResponseDomain resp = Some (d, t) /\ parseDNSQueryDomain resp = None /\ sub resp 0 2 = sub query 0 2.
Proof.
  intros Hf. destruct (query_parts query d t Hb Hq) as (id & fl & count & counts & pre & ls & tc & rest & Eq & Hid & Hfl & Hco & Hcs & Htc & Hd & Ht & Hc0 & Hp).
  apply list2 in Hid as (i0 & i1 & ->). apply list2 in Hfl as (f0 & f1 & ->). apply list2 in Hco as (c0 & c1 & ->). apply list4 in Htc as (t0 & t1 & t2 & t3 & ->).
  assert (H12 : len ([i0; i1] ++ [f0; f1] ++ [c0; c1] ++ counts) = 12) by (rewrite !len_app, Hcs; done).
  set (resp := [i0; i1] ++ flags ++ [0x00; 0x01; 0x00; 0x00; 0x00; 0x00; 0x00; 0x00] ++ pre ++ [t0; t1; t2; t3]).
  assert (Hbuild : buildFlagged flags query = Some resp).
  { unfold buildFlagged. assert (Hl : (len query <? 12) = false) by (apply Z.ltb_ge; rewrite Eq, len_app, H12; pose proof (len_nonneg (pre ++ [t0; t1; t2; t3] ++ rest)); lia).
    rewrite Hl. replace (from query 12) with (pre ++ [t0; t1; t2; t3] ++ rest) by (rewrite Eq; symmetry; by apply from_app).
    destruct (Hp ([t0; t1; t2; t3] ++ rest)) as (_ & _ & Hcopy). destruct (Hcopy (S (length query))) as [_ ->]; [rewrite Eq, !length_app; lia|].
    assert (Hr : (4 <=? len ([t0; t1; t2; t3] ++ rest)) = true) by (apply Z.leb_le; rewrite len_app; pose proof (len_nonneg rest); change (len [t0; t1; t2; t3]) with 4; lia).
    rewrite Hr. f_equal. change (sub ([t0; t1; t2; t3] ++ rest) 0 4) with [t0; t1; t2; t3]. rewrite Eq. done. }
  exists resp. split; [done|]. destruct (Hp [t0; t1; t2; t3]) as (Hf1 & Hf2 & _).
  assert (Hn : (len resp <? 12) = false) by (apply Z.ltb_ge; unfold resp; rewrite !len_app; pose proof (len_nonneg pre); destruct Hf as [->| ->]; unfold len in *; cbn; lia).
  assert (Hq' : parseDNSResponseDomain resp = Some (d, t)).
  { unfold parseDNSResponseDomain, question. rewrite Hn. replace (from resp 12) with (pre ++ [t0; t1; t2; t3]) by (destruct Hf as [->| ->]; done).
    rewrite Hf2. replace (Uint16 (sub resp 4 6)) with 1 by (destruct Hf as [->| ->]; done). subst d t. reflexivity. }
  split_and!; [|done| |by rewrite Eq].
  - unfold ParseDNSResponseIP, answers. rewrite Hn. destruct Hf as [->| ->]; reflexivity.
  - unfold parseDNSQueryDomain. rewrite Hn. destruct Hf as [->| ->]; reflexivity.
Qed.
End Answers.

Lemma joinDots_cons l ls : ls <> [] -> joinDots (l :: ls) = l ++ [46] ++ joinDots ls.
Proof. by destruct ls. Qed.

Lemma join_split d : joinDots (splitDots d) = d.
Proof.
  induction d as [|c d IH]; [done|]. cbn [splitDots]. destruct (splitDots d) as [|l ls] eqn:E; [destruct d; cbn in E; repeat case_match; done|].
  destruct (Z.eqb_spec c 46) as [->|]; [rewrite joinDots_cons by done; by rewrite IH|]. destruct ls; [cbn in *; by rewrite <- IH|]. rewrite !joinDots_cons in * by done. by rewrite <- IH.
Qed.

(** A label that DNS can carry. *)
Definition labelOk (l : list Z) : Prop := 1 <= len l <= 63.

Lemma labels_encoded ls x : Forall labelOk ls -> labels false (concat (map (fun l => byte_of (len l) :: l) ls) ++ 0 :: x) = Some (ls, x).
Proof.
  intros H. set (n := length (concat (map (fun l => byte_of (len l) :: l) ls) ++ 0 :: x)). rewrite <- (labels_any n) by done.
  assert (Hn : (length (concat (map (fun l => byte_of (len l) :: l) ls) ++ 0%Z :: x) <= n)%nat) by done. clearbody n. revert n Hn.
  induction H as [|l ls Hl _ IH]; intros [|n] Hn; [cbn in Hn; lia|done|cbn in Hn; lia|]. destruct Hl as [H1 H63].
  cbn [map concat]. rewrite <- app_assoc, <- app_comm_cons. assert (Eb : byte_of (len l) = len l) by (apply wrap_small; lia). rewrite Eb. cbn [labelsF andb].
  destruct (Z.eqb_spec (len l) 0); [lia|]. destruct (Z.ltb_spec 63 (len l)); [lia|].
  set (y := concat (map (fun l => byte_of (len l) :: l) ls) ++ 0 :: x) in *. assert (Hlen : (len (l ++ y) <? len l) = false) by (apply Z.ltb_ge; rewrite len_app; pose proof (len_nonneg y); lia).
  rewrite Hlen. cbn [orb]. assert (Enat : Z.to_nat (len l) = length l) by (unfold len; lia). rewrite Enat, drop_app_length, take_app_length.
  rewrite IH; [done|]. cbn [map concat] in Hn. rewrite <- app_assoc, <- app_comm_cons in Hn. cbn [length] in Hn. rewrite length_app in Hn. fold y in Hn. lia.
Qed.

Lemma query_roundtrip d tx : Forall labelOk (splitDots d) -> parseDNSQueryDomain (BuildDNSQuery d tx) = Some (d, 1).
Proof.
  intros H. unfold parseDNSQueryDomain, question, BuildDNSQuery. set (name := concat _).
  set (pkt := PutUint16 tx ++ _). assert (Hn : (len pkt <? 12) = false).
  { apply Z.ltb_ge. unfold pkt. rewrite !len_app, len_PutUint16. pose proof (len_nonneg name). unfold len in *. cbn. lia. }
  rewrite Hn. change (from pkt 12) with (name ++ 0 :: [0x00; 0x01] ++ [0x00; 0x01]). unfold name. rewrite labels_encoded by done.
  change (Uint16 (sub pkt 2 4)) with 0x100. change (Uint16 (sub pkt 4 6)) with 1. cbn [Z.land negb Z.eqb]. rewrite join_split. reflexivity.
Qed.

(** The DNS messages of the mesh agree with each other.  A query that the resolver
    builds for a name of labels of 1 to 63 bytes is read back as that name.  To every
    query it can read, the server builds an answer, never slicing past the packet, from
    which both parsers read the address that was put in, with a time to live of five
    seconds, the name and the type of the question, and the query's identifier; the
    failure and the empty answer carry the question and no address; no answer is taken
    for a query. *)
Theorem dns_messages d tx query q t ip : Forall labelOk (splitDots d) -> Forall is_byte query -> parseDNSQueryDomain query = Some (q, t) -> len ip = 4 ->
  parseDNSQueryDomain (BuildDNSQuery d tx) = Some (d, 1) /\
  (exists resp, buildDNSResponse query ip = Bytes resp /\ ParseDNSResponseIP resp = Some (ip, answerTTL) /\ head (ParseDNSResponseIPs resp) = Some ip /\
     parseDNSResponseDomain resp = Some (q, t) /\ parseDNSQueryDomain resp = None /\ sub resp 0 2 = sub query 0 2) /\
  (forall build, build = buildDNSErrorResponse \/ build = buildDNSEmptyResponse -> exists resp, build query = Some resp /\
     ParseDNSResponseIP resp = None /\ parseDNSResponseDomain resp = Some (q, t) /\ parseDNSQueryDomain resp = None /\ sub resp 0 2 = sub query 0 2).
Proof.
  intros Hd Hb Hq Hip. split_and!; [by apply query_roundtrip| |].
  - destruct (response_read query q t Hb Hq ip Hip) as (resp & H1 & H2 & _ & H3 & H4 & H5 & H6). by exists resp.
  - intros build [->| ->]; apply (flagged_read query q t Hb Hq); [by left|by right].
Qed.

(** "a.bc" asked with identifier 7 and answered with 10.0.0.1. *)
Lemma dns_messages_witness : let query := BuildDNSQuery [97; 46; 98; 99] 7 in
  parseDNSQueryDomain query = Some ([97; 46; 98; 99], 1) /\
  exists resp, buildDNSResponse query [10; 0; 0; 1] = Bytes resp /\ ParseDNSResponseIP resp = Some ([10; 0; 0; 1], 5).
Proof.
  intros query. assert (Hl : Forall labelOk (splitDots [97; 46; 98; 99])) by (repeat constructor; vm_compute; discriminate).
  assert (Hb : Forall is_byte query) by (repeat constructor; vm_compute; discriminate). assert (Hq : parseDNSQueryDomain query = Some ([97; 46; 98; 99], 1)) by reflexivity.
  destruct (dns_messages [97; 46; 98; 99] 7 query [97; 46; 98; 99] 1 [10; 0; 0; 1] Hl Hb Hq eq_refl) as (H1 & (resp & H2 & H3 & _) & _).
  split; [exact H1|]. by exists resp.
Defined.

(** A label that runs past the packet: the copy in the answer would slice out of range;
    such a packet is not a query for the parser. *)
Example unparsed_panics : let pkt := [0; 7; 1; 0; 0; 1; 0; 0; 0; 0; 0; 0; 9; 97] in
  parseDNSQueryDomain pkt = None /\ buildDNSResponse pkt [1; 2; 3; 4] = Panic.
Proof. done. Qed.

(** Two questions: the answer repeats one and still counts two. *)
Example second_question_dropped : let pkt := [0; 7; 1; 0; 0; 2; 0; 0; 0; 0; 0; 0; 1; 97; 0; 0; 1; 0; 1; 1; 98; 0; 0; 1; 0; 1] in
  exists resp, buildDNSResponse pkt [1; 2; 3; 4] = Bytes resp /\ Uint16 (sub resp 4 6) = 2 /\ len resp = 12 + 3 + 4 + 16.
Proof. eexists. split; [vm_compute; reflexivity|]. done. Qed.

(** ** The server *)

Notation Text := (list Z).

(** pendingQuery; the number stands for the pointer that tells one from another. *)
Record pendingQuery := mkPending { pquery : Text; remoteAddr : nat; at_ : Z; pid : nat }.
#[global] Instance pendingQuery_eq_dec : EqDecision pendingQuery.
Proof. solve_decision. Defined.

Inductive Sent := Reply (to : nat) (packet : Text) | Forward (gip query : Text).

(** DNSHijacker: cache, waiting clients, fake addresses, and whether the forwarder has its
    socket.  [registered], [answered] and [failed] record the history of forwarded
    queries: all, those answered by a response, a sweep or the stop, and those whose
    query could not be written. *)
Record DNSHijacker := mkH {
  cache : gmap Text (Text * Z); pendingQueries : gmap Text (list pendingQuery); fakePool : FakeIPPool; forwarderSocket : bool;
  registered : gmap nat pendingQuery; answered : list nat; failed : gset nat }.

Definition forwardTimeout : Z := 5 * 10 ^ 9.
Definition second : Z := 10 ^ 9.

Section Server.
Variable ToLower : Text -> Text.
(** Which remote subnet a domain belongs to, and whether it must fail. *)
Variable resolveDomainSubnet : option (Text -> option Text * bool).

Definition setCache c h := mkH c (pendingQueries h) (fakePool h) (forwarderSocket h) (registered h) (answered h) (failed h).
Definition setPending p h := mkH (cache h) p (fakePool h) (forwarderSocket h) (registered h) (answered h) (failed h).
Definition setPool p h := mkH (cache h) (pendingQueries h) p (forwarderSocket h) (registered h) (answered h) (failed h).
Definition logAnswered xs h := mkH (cache h) (pendingQueries h) (fakePool h) (forwarderSocket h) (registered h) (answered h ++ xs) (failed h).

(** *** DNSCache *)

Definition CacheGet (now : Z) (domain : Text) (c : gmap Text (Text * Z)) : option Text :=
  match c !! ToLower domain with
  | Some (ip, expiry) => if expiry <? now then None else Some ip
  | None => None
  end.
Definition CacheSet (now : Z) (domain ip : Text) (ttl : Z) (c : gmap Text (Text * Z)) : gmap Text (Text * Z) :=
  <[ToLower domain := (ip, now + ttl)]> c.
Definition SweepExpired (now : Z) (c : gmap Text (Text * Z)) : gmap Text (Text * Z) := filter (fun ke => ~ ke.2.2 < now) c.

(** *** Queries *)

Definition respond (to : nat) (query ip : Text) : list Sent := match buildDNSResponse query ip with Bytes b => [Reply to b] | _ => [] end.
Definition flagged (to : nat) (o : option Text) : list Sent := match o with Some b => [Reply to b] | None => [] end.
Definition answerSERVFAIL (query : Text) (to : nat) : list Sent := flagged to (buildDNSErrorResponse query).

(** The address .3 of a subnet. *)
Definition remoteGIP (base : Text) : Text := match base with [a; b; c; d] => [a; b; c; Z.lor d 3] | _ => base end.

Definition waiting (key : Text) (h : DNSHijacker) : list pendingQuery := default [] (pendingQueries h !! key).

(** forwardToRemoteAsync up to the write; the write's failure is an event of its own. *)
Definition forwardToRemoteAsync (now : Z) (subnet query : Text) (to id : nat) (h : DNSHijacker) : DNSHijacker * list Sent :=
  match To4 subnet with
  | None => (h, answerSERVFAIL query to)
  | Some base =>
      let domain := match parseDNSQueryDomain query with Some (d, _) => d | None => [] end in
      match domain with
      | [] => (h, answerSERVFAIL query to)
      | _ =>
          match CacheGet now domain (cache h) with
          | Some ip => (h, respond to query ip)
          | None =>
              if forwarderSocket h then
                let pq := mkPending query to now id in
                let key := ToLower domain in
                (mkH (cache h) (<[key := waiting key h ++ [pq]]> (pendingQueries h)) (fakePool h) true (<[id := pq]> (registered h)) (answered h) (failed h),
                 [Forward (remoteGIP base) query])
              else (h, answerSERVFAIL query to)
          end
      end
  end.

(** processQuery; [None] is the endless search of an exhausted pool (see FakeIP). *)
Definition typeAAAA : Z := 28.
Definition processQuery (now : Z) (packet : Text) (to id : nat) (h : DNSHijacker) : option (DNSHijacker * list Sent) :=
  match parseDNSQueryDomain packet with
  | None => Some (h, [])
  | Some (domain, qtype) =>
      let fromPool :=
        match Lookup (S (poolSize (fakePool h))) (fakePool h) (textOf domain) with
        | None => None
        | Some (p, fakeIP) => Some (setPool p h, respond to packet (PutUint32 fakeIP))
        end in
      if bool_decide (domain = []) then Some (h, [])
      else if qtype =? typeAAAA then Some (h, flagged to (buildDNSEmptyResponse packet))
      else match CacheGet now domain (cache h) with
           | Some ip => Some (h, respond to packet ip)
           | None =>
               match resolveDomainSubnet with
               | None => fromPool
               | Some resolve =>
                   match resolve domain with
                   | (Some subnet, _) => Some (forwardToRemoteAsync now subnet packet to id h)
                   | (None, true) => Some (h, flagged to (buildDNSErrorResponse packet))
                   | (None, false) => fromPool
                   end
               end
           end
  end.

(** The write of a forwarded query failed: its own entry goes. *)
Definition writeFails (pq : pendingQuery) (h : DNSHijacker) : DNSHijacker * list Sent :=
  let key := ToLower (match parseDNSQueryDomain (pquery pq) with Some (d, _) => d | None => [] end) in
  let keep := List.filter (fun w => negb (pid w =? pid pq)%nat) (waiting key h) in
  let p := match keep with [] => delete key (pendingQueries h) | _ => <[key := keep]> (pendingQueries h) end in
  (mkH (cache h) p (fakePool h) (forwarderSocket h) (registered h) (answered h) (failed h ∪ {[pid pq]}), answerSERVFAIL (pquery pq) (remoteAddr pq)).

(** The forwarder's listener for one packet. *)
Definition onResponse (now : Z) (packet : Text) (h : DNSHijacker) : DNSHijacker * list Sent :=
  if len packet <? 12 then (h, [])
  else match parseDNSResponseForCache packet with
       | None | Some ([], _, _) => (h, [])
       | Some (domain, ip, ttl) =>
           let key := ToLower domain in
           let ws := waiting key h in
           (logAnswered (map pid ws) (setPending (delete key (pendingQueries h)) (setCache (CacheSet now domain ip (ttl * second) (cache h)) h)),
            concat (map (fun pq => respond (remoteAddr pq) (pquery pq) ip) ws))
       end.

Definition isExpired (now : Z) (pq : pendingQuery) : bool := forwardTimeout <? now - at_ pq.

(** The waiting clients of all domains, in the order [keys] of the map's walk. *)
Definition waitingOf (keys : list Text) (h : DNSHijacker) : list pendingQuery := concat (map (fun k => waiting k h) keys).

Definition sweepPending (now : Z) (keys : list Text) (h : DNSHijacker) : DNSHijacker * list Sent :=
  let expired := List.filter (isExpired now) (waitingOf keys h) in
  let keepOf ws := match List.filter (fun pq => negb (isExpired now pq)) ws with [] => None | k => Some k end in
  (logAnswered (map pid expired) (setPending (omap keepOf (pendingQueries h)) h),
   concat (map (fun pq => answerSERVFAIL (pquery pq) (remoteAddr pq)) expired)).

(** Stop: the clients that still wait are told, and the forwarder's socket is closed. *)
Definition Stop (keys : list Text) (h : DNSHijacker) : DNSHijacker * list Sent :=
  let remaining := waitingOf keys h in
  (logAnswered (map pid remaining) (mkH (cache h) ∅ (fakePool h) false (registered h) (answered h) (failed h)),
   concat (map (fun pq => answerSERVFAIL (pquery pq) (remoteAddr pq)) remaining)).

(** Resolve, the way around the network stack. *)
Definition Resolve (query : Text) (h : DNSHijacker) : option (DNSHijacker * option Text) :=
  match parseDNSQueryDomain query with
  | None | Some ([], _) => Some (h, None)
  | Some (domain, qtype) =>
      if qtype =? typeAAAA then Some (h, buildDNSEmptyResponse query)
      else match Lookup (S (poolSize (fakePool h))) (fakePool h) (textOf domain) with
           | None => None
           | Some (p, fakeIP) => Some (setPool p h, match buildDNSResponse query (PutUint32 fakeIP) with Bytes b => Some b | _ => None end)
           end
  end.

(** ** Runs *)

(** A step: packets are bytes, a query gets a new number, a write fails once and for a
    query that was forwarded, and a walk of the map meets every key once. *)
Inductive step : DNSHijacker -> DNSHijacker -> list Sent -> Prop :=
| stepQuery now packet to id h h' out : Forall is_byte packet -> registered h !! id = None -> processQuery now packet to id h = Some (h', out) -> step h h' out
| stepWriteFails pq h : registered h !! pid pq = Some pq -> pid pq ∉ failed h -> step h (fst (writeFails pq h)) (snd (writeFails pq h))
| stepResponse now packet h : Forall is_byte packet -> step h (fst (onResponse now packet h)) (snd (onResponse now packet h))
| stepSweep now keys h : keys ≡ₚ (map_to_list (pendingQueries h)).*1 -> step h (fst (sweepPending now keys h)) (snd (sweepPending now keys h))
| stepStop keys h : keys ≡ₚ (map_to_list (pendingQueries h)).*1 -> step h (fst (Stop keys h)) (snd (Stop keys h)).

Inductive reach : DNSHijacker -> Prop :=
| reach_new pool sock : reach (mkH ∅ ∅ pool sock ∅ [] ∅)
| reach_step h h' out : reach h -> step h h' out -> reach h'.
End Server.

(** ** Every forwarded query is answered once *)

Section Once.
Variable ToLower : Text -> Text.
Variable resolveDomainSubnet : option (Text -> option Text * bool).

Definition keyOf (pq : pendingQuery) : Text := ToLower (match parseDNSQueryDomain (pquery pq) with Some (d, _) => d | None => [] end).

Record inv (h : DNSHijacker) : Prop := {
  d_wait : forall key pq, pq ∈ waiting key h -> registered h !! pid pq = Some pq /\ key = keyOf pq;
  d_nodup : forall key, NoDup (map pid (waiting key h));
  d_once : forall key pq, pq ∈ waiting key h -> ~ (pid pq ∈ answered h) /\ ~ (pid pq ∈ failed h);
  d_log : NoDup (answered h);
  d_reg : forall x pq, registered h !! x = Some pq -> pid pq = x /\ Forall is_byte (pquery pq) /\ exists d t, parseDNSQueryDomain (pquery pq) = Some (d, t);
  d_old : forall x, x ∈ answered h \/ x ∈ failed h -> is_Some (registered h !! x);
  d_all : forall x pq, registered h !! x = Some pq -> pq ∈ waiting (keyOf pq) h \/ x ∈ answered h \/ x ∈ failed h;
}.

Lemma waiting_insert key k l h h' : pendingQueries h' = <[k := l]> (pendingQueries h) -> waiting key h' = if decide (key = k) then l else waiting key h.
Proof. intros E. unfold waiting. rewrite E. case_decide; [subst; by rewrite lookup_insert_eq|by rewrite lookup_insert_ne]. Qed.
Lemma waiting_delete key k h h' : pendingQueries h' = delete k (pendingQueries h) -> waiting key h' = if decide (key = k) then [] else waiting key h.
Proof. intros E. unfold waiting. rewrite E. case_decide; [subst; by rewrite lookup_delete_eq|by rewrite lookup_delete_ne]. Qed.

(** Clients of different keys are different. *)
Lemma wait_key h key key' pq pq' : inv h -> pq ∈ waiting key h -> pq' ∈ waiting key' h -> pid pq = pid pq' -> pq = pq' /\ key = key'.
Proof.
  intros Hi H H' E. destruct (d_wait h Hi key pq H) as [Hr ->]. destruct (d_wait h Hi key' pq' H') as [Hr' ->]. rewrite E, Hr' in Hr. injection Hr as ->. done.
Qed.

(** Some of the waiting clients are answered and leave. *)
Lemma leave_inv h h' gone : inv h -> registered h' = registered h -> failed h' = failed h -> answered h' = answered h ++ map pid gone ->
  NoDup (map pid gone) -> (forall pq, pq ∈ gone -> exists key, pq ∈ waiting key h) ->
  (forall key, exists f : pendingQuery -> bool, waiting key h' = List.filter f (waiting key h) /\ forall pq, pq ∈ waiting key h -> f pq = negb (bool_decide (pq ∈ gone))) -> inv h'.
Proof.
  intros Hi Er Ef El Hn Hg Hw.
  assert (Hmem : forall key pq, pq ∈ waiting key h' <-> pq ∈ waiting key h /\ ~ (pq ∈ gone)).
  { intros key pq. destruct (Hw key) as (f & Ew & Hf). rewrite Ew, !list_elem_of_In, filter_In, <- !list_elem_of_In. split; intros [H1 H2]; (split; [done|]).
    - rewrite Hf, negb_true_iff, bool_decide_eq_false in H2 by done. done.
    - by rewrite Hf, negb_true_iff, bool_decide_eq_false. }
  split.
  - intros key pq [H _]%Hmem. rewrite Er. by apply d_wait.
  - intros key. destruct (Hw key) as (f & Ew & _). rewrite Ew. pose proof (d_nodup h Hi key) as Hk. revert Hk. generalize (waiting key h). intros l.
    induction l as [|pq l IH]; [done|]. cbn. rewrite list.NoDup_cons. intros [Hni Hl]. destruct (f pq); [|by apply IH]. cbn. constructor; [|by apply IH].
    intros Hin. apply Hni. apply list_elem_of_In, in_map_iff in Hin as (y & E & Hy%filter_In). apply list_elem_of_In, in_map_iff. exists y. by destruct Hy.
  - intros key pq [H Hng]%Hmem. rewrite El, Ef. destruct (d_once h Hi key pq H) as [H1 H2]. split; [|done]. rewrite not_elem_of_app. split; [done|].
    intros Hin. apply list_elem_of_In, in_map_iff in Hin as (y & E & Hy%list_elem_of_In). destruct (Hg y Hy) as (key' & Hy'). destruct (wait_key h key key' pq y Hi H Hy' (eq_sym E)) as [-> _]. done.
  - rewrite El. apply list.NoDup_app. split_and!; [apply (d_log h Hi)| |done]. intros x Hx Hin. apply list_elem_of_In, in_map_iff in Hin as (y & <- & Hy%list_elem_of_In).
    destruct (Hg y Hy) as (key & Hy'). by destruct (d_once h Hi key y Hy').
  - rewrite Er. apply (d_reg h Hi).
  - intros x. rewrite El, Er, Ef, elem_of_app. intros [ [H|H] |H]; [apply (d_old h Hi); by left| |apply (d_old h Hi); by right].
    apply list_elem_of_In, in_map_iff in H as (y & <- & Hy%list_elem_of_In). destruct (Hg y Hy) as (key & Hy'). destruct (d_wait h Hi key y Hy') as [-> _]. done.
  - intros x pq. rewrite Er, El, Ef. intros Hx. destruct (d_all h Hi x pq Hx) as [H|[H|H] ]; [|right; left; set_solver|by right; right].
    destruct (decide (pq ∈ gone)) as [Hin|Hout]; [|left; by apply Hmem]. right; left. apply elem_of_app. right.
    destruct (d_reg h Hi x pq Hx) as [<- _]. by apply list_elem_of_In, in_map, list_elem_of_In.
Qed.

Lemma register_inv h now query to id d t : inv h -> Forall is_byte query -> parseDNSQueryDomain query = Some (d, t) -> registered h !! id = None ->
  let pq := mkPending query to now id in
  inv (mkH (cache h) (<[ToLower d := waiting (ToLower d) h ++ [pq]]> (pendingQueries h)) (fakePool h) true (<[id := pq]> (registered h)) (answered h) (failed h)).
Proof.
  intros Hi Hb Hq Hid pq. set (h' := mkH _ _ _ _ _ _ _). assert (Ek : keyOf pq = ToLower d) by (unfold keyOf; cbn; by rewrite Hq).
  assert (Hw : forall key, waiting key h' = if decide (key = ToLower d) then waiting (ToLower d) h ++ [pq] else waiting key h) by (intros key; by apply waiting_insert).
  assert (Hmem : forall key p, p ∈ waiting key h' <-> p ∈ waiting key h \/ p = pq /\ key = ToLower d).
  { intros key p. rewrite Hw. case_decide as E; [subst key|set_solver]. rewrite elem_of_app, list_elem_of_singleton. naive_solver. }
  assert (Hne : forall key p, p ∈ waiting key h -> pid p <> id) by (intros key p Hp E; destruct (d_wait h Hi key p Hp) as [Hr _]; congruence).
  assert (Hnew : ~ (id ∈ answered h) /\ ~ (id ∈ failed h)).
  { split; intros Hx; (destruct (d_old h Hi id) as [? ?]; [first [left; exact Hx|right; exact Hx]|congruence]). }
  assert (Er : registered h' = <[id := pq]> (registered h)) by done. assert (Ea : answered h' = answered h) by done. assert (Ef : failed h' = failed h) by done.
  clearbody h'. split; rewrite ?Er, ?Ea, ?Ef.
  - intros key p [Hp|[-> ->] ]%Hmem; [|cbn; by rewrite lookup_insert_eq]. destruct (d_wait h Hi key p Hp) as [Hr Hk]. split; [|done]. rewrite lookup_insert_ne; [done|]. by apply not_eq_sym, (Hne key).
  - intros key. rewrite Hw. case_decide; [subst key|by apply (d_nodup h Hi)]. rewrite map_app. apply list.NoDup_app. split_and!; [by apply (d_nodup h Hi)| |apply NoDup_singleton].
    intros x Hx Hin%list_elem_of_singleton. subst x. apply list_elem_of_In, in_map_iff in Hx as (y & E & Hy%list_elem_of_In). by apply (Hne _ y Hy).
  - intros key p [Hp|[-> ->] ]%Hmem; [by apply (d_once h Hi key)|done].
  - apply (d_log h Hi).
  - intros x p. rewrite lookup_insert_Some. intros [ [<- <-] | [_ Hx] ]; [|by apply (d_reg h Hi)]. split_and!; [done|done|]. by exists d, t.
  - intros x Hx. destruct (decide (x = id)) as [->|]; [by rewrite lookup_insert_eq|]. rewrite lookup_insert_ne by done. by apply (d_old h Hi).
  - intros x p. rewrite lookup_insert_Some. intros [ [<- <-] | [_ Hx] ]; [left; rewrite Ek; apply Hmem; by right|].
    destruct (d_all h Hi x p Hx) as [H|[H|H] ]; [left; apply Hmem; by left|by right; left|by right; right].
Qed.

Lemma sameWait_inv h h' : inv h -> pendingQueries h' = pendingQueries h -> registered h' = registered h -> answered h' = answered h -> failed h' = failed h -> inv h'.
Proof. intros [H1 H2 H3 H4 H5 H6 H7] E1 E2 E3 E4. split; unfold waiting; rewrite ?E1, ?E2, ?E3, ?E4; done. Qed.

Lemma processQuery_inv h now packet to id h' out : inv h -> Forall is_byte packet -> registered h !! id = None ->
  processQuery ToLower resolveDomainSubnet now packet to id h = Some (h', out) -> inv h'.
Proof.
  intros Hi Hb Hid. unfold processQuery. destruct (parseDNSQueryDomain packet) as [ [d t] |] eqn:Eq; [|by intros [= <- <-]].
  assert (Hpool : match Lookup (S (poolSize (fakePool h))) (fakePool h) (textOf d) with
                  | None => None | Some (p, fakeIP) => Some (setPool p h, respond to packet (PutUint32 fakeIP)) end = Some (h', out) -> inv h').
  { destruct (Lookup _ _ _) as [ [p ip] |]; [|done]. intros [= <- <-]. by apply (sameWait_inv h). }
  case_bool_decide; [by intros [= <- <-]|]. destruct (t =? typeAAAA); [by intros [= <- <-]|]. destruct (CacheGet _ _ _ _) eqn:Ec; [by intros [= <- <-]|].
  destruct resolveDomainSubnet as [resolve|]; [|exact Hpool]. destruct (resolve d) as [ [subnet|] [|] ]; try exact Hpool; try (by intros [= <- <-]).
  all: unfold forwardToRemoteAsync; destruct (To4 subnet); [|by intros [= <- <-]]; rewrite Eq; cbv zeta; (destruct d as [|c d]; [done|]); rewrite Ec;
    (destruct (forwarderSocket h); [|by intros [= <- <-]]); intros [= <- <-]; by apply (register_inv h now packet to id (c :: d) t).
Qed.

Lemma waitingOf_elem keys h pq : keys ≡ₚ (map_to_list (pendingQueries h)).*1 -> pq ∈ waitingOf keys h <-> exists key, pq ∈ waiting key h.
Proof.
  intros Hk. unfold waitingOf. rewrite list_elem_of_In, in_concat. split.
  - intros (l & Hl & Hin). apply in_map_iff in Hl as (key & <- & _). exists key. by apply list_elem_of_In.
  - intros [key Hq]. exists (waiting key h). split; [|by apply list_elem_of_In]. apply (in_map (fun k => waiting k h)). apply list_elem_of_In. rewrite Hk, list_elem_of_fmap.
    unfold waiting in Hq. destruct (pendingQueries h !! key) as [l|] eqn:E; [|by apply elem_of_nil in Hq]. exists (key, l). split; [done|]. by apply elem_of_map_to_list.
Qed.

Lemma waitingOf_nodup keys h : inv h -> NoDup keys -> NoDup (map pid (waitingOf keys h)).
Proof.
  intros Hi. unfold waitingOf. induction keys as [|key keys IH]; [constructor|]. rewrite list.NoDup_cons. intros [Hk Hks]. cbn. rewrite map_app. apply list.NoDup_app.
  split_and!; [by apply (d_nodup h Hi)| |by apply IH]. intros x Hx Hin. apply list_elem_of_In, in_map_iff in Hx as (y & <- & Hy%list_elem_of_In).
  apply list_elem_of_In, in_map_iff in Hin as (z & E & Hz). apply in_concat in Hz as (l & Hl & Hzl). apply in_map_iff in Hl as (key' & <- & Hkey'%list_elem_of_In).
  apply list_elem_of_In in Hzl. destruct (wait_key h key' key z y Hi Hzl Hy E) as [_ ->]. done.
Qed.

Lemma filter_nodup {X} (f : pendingQuery -> bool) (g : pendingQuery -> X) l : NoDup (map g l) -> NoDup (map g (List.filter f l)).
Proof.
  induction l as [|x l IH]; [done|]. cbn. rewrite list.NoDup_cons. intros [Hx Hl]. destruct (f x); [|by apply IH]. cbn. constructor; [|by apply IH].
  intros Hin. apply Hx. apply list_elem_of_In, in_map_iff in Hin as (y & E & Hy%filter_In). apply list_elem_of_In, in_map_iff. exists y. by destruct Hy.
Qed.

Lemma filter_all {X} (f : X -> bool) l : (forall x, x ∈ l -> f x = true) -> List.filter f l = l.
Proof. induction l as [|x l IH]; [done|]. cbn. intros H. rewrite (H x) by set_solver. f_equal. apply IH. intros y Hy. apply H. set_solver. Qed.

Lemma onResponse_inv h now packet : inv h -> inv (fst (onResponse ToLower now packet h)).
Proof.
  intros Hi. unfold onResponse. destruct (_ <? _); [done|]. destruct (parseDNSResponseForCache packet) as [ [ [d ip] ttl] |]; [|done]. destruct d as [|c d]; [done|]. cbv zeta. cbn [fst].
  set (key := ToLower (c :: d)). eapply (leave_inv h _ (waiting key h)); try done.
  - apply (d_nodup h Hi).
  - intros pq Hpq. by exists key.
  - intros k. exists (fun pq => negb (bool_decide (k = key))). rewrite (waiting_delete k key h) by done. split.
    + case_decide; [subst; rewrite bool_decide_true by done; by induction (waiting key h)|]. rewrite bool_decide_false by done. symmetry. by apply filter_all.
    + intros pq Hpq. f_equal. apply bool_decide_ext. split; [intros ->; done|]. intros Hin. by destruct (wait_key h k key pq pq Hi Hpq Hin eq_refl).
Qed.

Lemma sweep_waiting h now key : waiting key (setPending (omap (fun ws => match List.filter (fun pq => negb (isExpired now pq)) ws with [] => None | k => Some k end) (pendingQueries h)) h) =
  List.filter (fun pq => negb (isExpired now pq)) (waiting key h).
Proof. unfold waiting. cbn. rewrite lookup_omap. destruct (pendingQueries h !! key) as [ws|]; [|done]. cbn. by destruct (List.filter _ ws). Qed.

Lemma sweepPending_inv h now keys : inv h -> keys ≡ₚ (map_to_list (pendingQueries h)).*1 -> inv (fst (sweepPending now keys h)).
Proof.
  intros Hi Hk. unfold sweepPending. cbv zeta. cbn [fst]. eapply (leave_inv h _ (List.filter (isExpired now) (waitingOf keys h))); try done.
  - apply filter_nodup, waitingOf_nodup; [done|]. rewrite Hk. apply NoDup_fst_map_to_list.
  - intros pq Hpq. apply list_elem_of_In, filter_In in Hpq as [Hpq _]. by apply (waitingOf_elem keys), list_elem_of_In.
  - intros key. exists (fun pq => negb (isExpired now pq)). split; [by apply sweep_waiting|]. intros pq Hpq. f_equal. symmetry. destruct (isExpired now pq) eqn:E.
    + apply bool_decide_eq_true. apply list_elem_of_In, filter_In. split; [|done]. apply list_elem_of_In, waitingOf_elem; [done|by exists key].
    + apply bool_decide_eq_false. intros Hin. apply list_elem_of_In, filter_In in Hin as [_ ?]. congruence.
Qed.

Lemma Stop_inv h keys : inv h -> keys ≡ₚ (map_to_list (pendingQueries h)).*1 -> inv (fst (Stop keys h)).
Proof.
  intros Hi Hk. unfold Stop. cbv zeta. cbn [fst]. eapply (leave_inv h _ (waitingOf keys h)); try done.
  - apply waitingOf_nodup; [done|]. rewrite Hk. apply NoDup_fst_map_to_list.
  - intros pq Hpq. by apply (waitingOf_elem keys).
  - intros key. exists (fun _ => false). split; [transitivity (@nil pendingQuery); [done|by induction (waiting key h)]|]. intros pq Hpq. symmetry. apply negb_false_iff, bool_decide_eq_true.
    apply waitingOf_elem; [done|by exists key].
Qed.

Lemma writeFails_inv h pq : inv h -> registered h !! pid pq = Some pq -> inv (fst (writeFails ToLower pq h)).
Proof.
  intros Hi Hr. unfold writeFails. cbv zeta. cbn [fst]. fold (keyOf pq). set (keep := List.filter _ _). set (h' := mkH _ _ _ _ _ _ _).
  assert (Hw : forall key, waiting key h' = if decide (key = keyOf pq) then keep else waiting key h).
  { intros key. destruct keep as [|k ks] eqn:Ek; [by apply waiting_delete|by apply waiting_insert]. }
  assert (Er : registered h' = registered h) by done. assert (Ea : answered h' = answered h) by done. assert (Ef : failed h' = failed h ∪ {[pid pq]}) by done.
  assert (Hmem : forall key p, p ∈ waiting key h' <-> p ∈ waiting key h /\ pid p <> pid pq).
  { intros key p. rewrite Hw. case_decide as E.
    - subst key. unfold keep. rewrite list_elem_of_In, filter_In, <- list_elem_of_In, negb_true_iff, Nat.eqb_neq. done.
    - split; [|by intros [? _]]. intros Hp. split; [done|]. intros E'. destruct (d_wait h Hi key p Hp) as [Hp' ->]. rewrite E', Hr in Hp'. injection Hp' as ->. done. }
  clearbody h'. split; rewrite ?Er, ?Ea, ?Ef.
  - intros key p [Hp _]%Hmem. by apply (d_wait h Hi).
  - intros key. rewrite Hw. case_decide; [apply filter_nodup|]; apply (d_nodup h Hi).
  - intros key p [Hp Hne]%Hmem. destruct (d_once h Hi key p Hp). set_solver.
  - apply (d_log h Hi).
  - apply (d_reg h Hi).
  - intros x. rewrite elem_of_union, elem_of_singleton. intros [Hx|[Hx|Hx] ]; [apply (d_old h Hi); by left|apply (d_old h Hi); by right|subst x; by rewrite Hr].
  - intros x p Hx. destruct (decide (x = pid pq)) as [->|Hne]; [right; right; set_solver|]. destruct (d_all h Hi x p Hx) as [H|[H|H] ]; [left|by right; left|right; right; set_solver].
    apply Hmem. split; [done|]. by destruct (d_reg h Hi x p Hx) as [-> _].
Qed.

Lemma dns_inv h : reach ToLower resolveDomainSubnet h -> inv h.
Proof.
  induction 1 as [pool sock|h h' out _ IH Hs].
  - split; unfold waiting; cbn; try done; [by intros key pq H%elem_of_nil|constructor|by intros key pq H%elem_of_nil|constructor|set_solver].
  - destruct Hs as [now packet to id h h' out Hb Hid Hp|pq h Hr Hf|now packet h Hb|now keys h Hk|keys h Hk].
    + by apply (processQuery_inv h now packet to id h' out).
    + by apply writeFails_inv.
    + by apply onResponse_inv.
    + by apply sweepPending_inv.
    + by apply Stop_inv.
Qed.

(** C9: every query forwarded to another node is accounted for.  In every reachable state
    it still waits, and then nobody has answered it, or it was answered, by a response, by
    a time-out or by the stop, or its packet could not be sent and its client was told so;
    responses, time-outs and the stop together answer it at most once.  A response answers every client that waits for its name, each with
    the address, under the identifier and the question of its own query; after a sweep no
    query older than five seconds waits; after the stop none does. *)
Theorem forwarded_once h : reach ToLower resolveDomainSubnet h ->
  NoDup (answered h) /\
  (forall x pq, registered h !! x = Some pq ->
     let waits := exists key, pq ∈ waiting key h in
     (waits /\ ~ (x ∈ answered h) /\ ~ (x ∈ failed h)) \/ (~ waits /\ (x ∈ answered h \/ x ∈ failed h))) /\
  (forall now packet d ip ttl, (len packet <? 12) = false -> parseDNSResponseForCache packet = Some (d, ip, ttl) -> d <> [] -> len ip = 4 ->
     let ws := waiting (ToLower d) h in
     waiting (ToLower d) (fst (onResponse ToLower now packet h)) = [] /\
     exists f, snd (onResponse ToLower now packet h) = map (fun pq => Reply (remoteAddr pq) (f pq)) ws /\
       forall pq, pq ∈ ws -> ParseDNSResponseIP (f pq) = Some (ip, answerTTL) /\ sub (f pq) 0 2 = sub (pquery pq) 0 2 /\
         parseDNSResponseDomain (f pq) = parseDNSQueryDomain (pquery pq)) /\
  (forall now keys key pq, pq ∈ waiting key (fst (sweepPending now keys h)) -> now - at_ pq <= forwardTimeout) /\
  (forall keys key, waiting key (fst (Stop keys h)) = []).
Proof.
  intros Hi%dns_inv. split_and!.
  - apply (d_log h Hi).
  - intros x pq Hx waits. destruct (d_reg h Hi x pq Hx) as [Hpid _]. destruct (d_all h Hi x pq Hx) as [H|H].
    + left. destruct (d_once h Hi _ pq H) as [H1 H2]. rewrite Hpid in H1, H2. split_and!; [by eexists|done|done].
    + right. split; [|done]. intros [key Hw]. destruct (d_once h Hi key pq Hw) as [H1 H2]. rewrite Hpid in H1, H2. naive_solver.
  - intros now packet d ip ttl Hl Hp Hd Hip ws. unfold onResponse. rewrite Hl, Hp. destruct d as [|c d]; [done|]. cbv zeta. cbn [fst snd]. split.
    { rewrite (waiting_delete _ (ToLower (c :: d)) h) by done. by rewrite decide_True. }
    exists (fun pq => match buildDNSResponse (pquery pq) ip with Bytes b => b | _ => [] end). fold ws.
    assert (Hone : forall pq, pq ∈ ws -> exists b, buildDNSResponse (pquery pq) ip = Bytes b /\ ParseDNSResponseIP b = Some (ip, answerTTL) /\ sub b 0 2 = sub (pquery pq) 0 2 /\
      parseDNSResponseDomain b = parseDNSQueryDomain (pquery pq)).
    { intros pq Hpq. destruct (d_wait h Hi _ pq Hpq) as [Hr _]. destruct (d_reg h Hi _ pq Hr) as (_ & Hb & q & t & Hq).
      destruct (response_read (pquery pq) q t Hb Hq ip Hip) as (b & E1 & E2 & _ & _ & E3 & _ & E4). exists b. by rewrite Hq. }
    split.
    + clearbody ws. induction ws as [|pq ws IH]; [done|]. cbn. rewrite IH by (intros y Hy; apply Hone; set_solver). destruct (Hone pq) as (b & E & _); [set_solver|]. unfold respond. by rewrite E.
    + intros pq Hpq. destruct (Hone pq Hpq) as (b & -> & ?). done.
  - intros now keys key pq Hpq. unfold sweepPending in Hpq. cbv zeta in Hpq. cbn [fst] in Hpq. change (waiting key _) with
      (waiting key (setPending (omap (fun ws => match List.filter (fun pq => negb (isExpired now pq)) ws with [] => None | k => Some k end) (pendingQueries h)) h)) in Hpq.
    rewrite sweep_waiting in Hpq. apply list_elem_of_In, filter_In in Hpq as [_ Hx]. unfold isExpired in Hx. lia.
  - intros keys key. unfold Stop, waiting. cbn. by rewrite lookup_empty.
Qed.
End Once.

(** A client asks for "a" and the query goes to the node of 10.0.0.0; then the answer
    10.0.0.9 comes back. *)
Definition nodeAt10 : option (Text -> option Text * bool) := Some (fun _ => (Some [10; 0; 0; 0], false)).
Definition started : DNSHijacker := mkH ∅ ∅ (NewFakeIPPoolWithSubnet 0xC6120000 8 3) true ∅ [] ∅.
Definition askA : Text := BuildDNSQuery [97] 7.
Definition asked : DNSHijacker := mkH ∅ {[ [97] := [mkPending askA 1 0 0] ]} (fakePool started) true {[ 0%nat := mkPending askA 1 0 0 ]} [] ∅.
Definition answerA : Text := match buildDNSResponse askA [10; 0; 0; 9] with Bytes b => b | _ => [] end.

Lemma asked_reach : reach id nodeAt10 asked.
Proof.
  eapply reach_step; [apply (reach_new id nodeAt10 (fakePool started) true)|]. eapply (stepQuery id nodeAt10 0 askA 1 0).
  - repeat constructor; vm_compute; discriminate.
  - done.
  - vm_compute. reflexivity.
Qed.

Lemma forwarded_once_witness : (exists key, mkPending askA 1 0 0 ∈ waiting key asked) /\
  (exists f, snd (onResponse id 1 answerA asked) = [Reply 1 f] /\ ParseDNSResponseIP f = Some ([10; 0; 0; 9], 5)) /\
  waiting [97] (fst (Stop [ [97] ] asked)) = [].
Proof.
  destruct (forwarded_once id nodeAt10 asked asked_reach) as (_ & H1 & H2 & _ & H3). split_and!.
  - destruct (H1 0%nat (mkPending askA 1 0 0) ltac:(reflexivity)) as [ [Hw _] | [_ [Hx|Hx] ] ]; [exact Hw|by apply elem_of_nil in Hx|by apply elem_of_empty in Hx].
  - destruct (H2 1 answerA [97] [10; 0; 0; 9] 5 ltac:(reflexivity) ltac:(reflexivity) ltac:(done) ltac:(reflexivity)) as (_ & f & Ef & Hf).
    exists (f (mkPending askA 1 0 0)). split; [exact Ef|]. apply Hf. apply list_elem_of_here.
  - apply H3.
Defined.

(** A response to another client's query for the name, before the write of this one is
    found to have failed: the client gets the address and then a failure. *)
Example answered_and_failed : let h := fst (onResponse id 1 answerA asked) in let pq := mkPending askA 1 0 0 in
  answered h = [0%nat] /\ exists servfail, snd (writeFails id pq h) = [Reply 1 servfail].
Proof. split; [reflexivity|]. eexists. vm_compute. reflexivity. Qed.

(** A query for a TXT record (type 16) is answered with an address record. *)
Example text_query_gets_address : let q := take 15 askA ++ [0; 16; 0; 1] in parseDNSQueryDomain q = Some ([97], 16) /\
  exists h' b, processQuery id None 0 q 1 0 started = Some (h', [Reply 1 b]) /\ is_Some (ParseDNSResponseIP b).
Proof. split; [reflexivity|]. do 2 eexists. split; [vm_compute; reflexivity|]. by eexists. Qed.

(** ** The cache *)

Section Cache.
Variable ToLower : Text -> Text.

(** What is stored is found, under any spelling of the name, until its time is over; the
    sweep of what has expired changes no later answer. *)
Lemma cache_set now now' d d' ip ttl c : CacheGet ToLower now' d' (CacheSet ToLower now d ip ttl c) =
  if decide (ToLower d' = ToLower d) then (if now + ttl <? now' then None else Some ip) else CacheGet ToLower now' d' c.
Proof. unfold CacheGet, CacheSet. case_decide as E; [rewrite E; by rewrite lookup_insert_eq|by rewrite lookup_insert_ne]. Qed.

Lemma sweep_invisible now now' d c : now <= now' -> CacheGet ToLower now' d (SweepExpired now c) = CacheGet ToLower now' d c.
Proof.
  intros H. unfold CacheGet, SweepExpired. rewrite map_lookup_filter. destruct (c !! ToLower d) as [ [ip e] |]; [|done]. cbn.
  destruct (decide (~ e < now)) as [Hn|Hn]; [by rewrite option_guard_True by exact Hn|]. rewrite option_guard_False by exact Hn. destruct (Z.ltb_spec e now'); [done|lia].
Qed.
End Cache.
