(* ===== verification/FloatOrder.v ===== *)
(** Addition of non-negative float64 values: rounding to nearest even is monotone, so
    the sum of two floats grows with both and is never below either.  Proved on the
    executable specification of [GoFloat] by counting in units of the smallest
    subnormal, 2^-1074, in which every finite float is an integer. *)

From Stdlib Require Import ZArith Lia SpecFloat.
From stdpp Require Import base tactics numbers.
From S2P Require Import Prelude GoFloat.
Open Scope Z_scope.

(** ** Rounding an integer to 53 bits *)

(** [M / 2^n] rounded to nearest, ties to even. *)
Definition rne (M n : Z) : Z :=
  let q := M / 2 ^ n in
  match 2 * (M mod 2 ^ n) ?= 2 ^ n with
  | Lt => q
  | Eq => if Z.even q then q else q + 1
  | Gt => q + 1
  end.

Definition excess (M : Z) : Z := Z.max 0 (Z.log2 M - 52).
Definition rnd (M : Z) : Z := rne M (excess M) * 2 ^ excess M.

Lemma rne_bounds M n : M / 2 ^ n <= rne M n <= M / 2 ^ n + 1.
Proof. unfold rne. destruct (Z.compare_spec (2 * (M mod 2 ^ n)) (2 ^ n)); [destruct (Z.even _)|..]; lia. Qed.

Lemma rne_exact M n : 0 <= n -> M mod 2 ^ n = 0 -> rne M n = M / 2 ^ n.
Proof.
  intros Hn E. unfold rne. rewrite E. pose proof (pow2_pos n Hn). by destruct (Z.compare_spec (2 * 0) (2 ^ n)); try lia.
Qed.

Lemma rne_mono M N n : 0 <= n -> M <= N -> rne M n <= rne N n.
Proof.
  intros Hn HMN. pose proof (pow2_pos n Hn) as Hp.
  pose proof (Z.div_mod M (2 ^ n) ltac:(lia)) as EM. pose proof (Z.div_mod N (2 ^ n) ltac:(lia)) as EN.
  pose proof (Z.mod_pos_bound M _ Hp). pose proof (Z.mod_pos_bound N _ Hp).
  pose proof (Z.div_le_mono M N (2 ^ n) Hp HMN) as Hq.
  destruct (Z.eq_dec (M / 2 ^ n) (N / 2 ^ n)) as [E|E].
  - unfold rne. rewrite E. destruct (Z.compare_spec (2 * (M mod 2 ^ n)) (2 ^ n)), (Z.compare_spec (2 * (N mod 2 ^ n)) (2 ^ n));
      try destruct (Z.even _); lia.
  - pose proof (rne_bounds M n). pose proof (rne_bounds N n). lia.
Qed.

(** Scaling moves the point, not the rounding. *)
Lemma rne_scale M n k : 0 <= n -> 0 <= k -> rne (M * 2 ^ k) (n + k) = rne M n.
Proof.
  intros Hn Hk. pose proof (pow2_pos n Hn). pose proof (pow2_pos k Hk). unfold rne. rewrite Z.pow_add_r by lia.
  rewrite Z.div_mul_cancel_r by lia. rewrite Z.mul_mod_distr_r by lia.
  replace (2 * (M mod 2 ^ n * 2 ^ k) ?= 2 ^ n * 2 ^ k) with (2 * (M mod 2 ^ n) ?= 2 ^ n); [done|].
  rewrite Z.mul_assoc. by rewrite (Zmult_compare_compat_r _ _ (2 ^ k)) by lia.
Qed.

Lemma rnd_range M : 0 < M -> 2 ^ Z.log2 M <= rnd M <= 2 ^ (Z.log2 M + 1).
Proof.
  intros HM. unfold rnd, excess. pose proof (Z.log2_spec M HM) as [Hlo Hhi]. pose proof (Z.log2_nonneg M).
  replace (Z.log2 M + 1) with (Z.succ (Z.log2 M)) by lia.
  destruct (Z.max_spec 0 (Z.log2 M - 52)) as [[Hlt ->]|[Hle ->]].
  - pose proof (rne_bounds M (Z.log2 M - 52)) as Hb.
    assert (Hp : 0 < 2 ^ (Z.log2 M - 52)) by (apply pow2_pos; lia).
    assert (E1 : 2 ^ Z.log2 M = 2 ^ 52 * 2 ^ (Z.log2 M - 52)) by (rewrite <- Z.pow_add_r by lia; f_equal; lia).
    assert (E2 : 2 ^ Z.succ (Z.log2 M) = 2 ^ 53 * 2 ^ (Z.log2 M - 52)) by (rewrite <- Z.pow_add_r by lia; f_equal; lia).
    rewrite E1, E2 in *. split.
    + apply Z.mul_le_mono_nonneg_r; [lia|]. etrans; [|apply Hb]. apply Z.div_le_lower_bound; lia.
    + apply Z.mul_le_mono_nonneg_r; [lia|].
      assert (M / 2 ^ (Z.log2 M - 52) < 2 ^ 53) by (apply Z.div_lt_upper_bound; lia). lia.
  - rewrite rne_exact by (rewrite ?Z.mod_1_r; done || lia). change (2 ^ 0) with 1. rewrite Z.div_1_r. lia.
Qed.

Lemma rnd_mono M N : 0 < M -> M <= N -> rnd M <= rnd N.
Proof.
  intros HM HMN. pose proof (Z.log2_le_mono M N HMN) as Hl.
  destruct (Z.eq_dec (Z.log2 M) (Z.log2 N)) as [E|E].
  - unfold rnd, excess. rewrite E. apply Z.mul_le_mono_nonneg_r; [apply Z.pow_nonneg; lia|]. apply rne_mono; lia.
  - pose proof (rnd_range M HM) as [_ H1]. pose proof (rnd_range N ltac:(lia)) as [H2 _].
    etrans; [exact H1|]. etrans; [|exact H2]. apply Z.pow_le_mono_r; lia.
Qed.

(** ** The shifts of the specification *)

Lemma iter_pos_nat {A} (f : A -> A) p x : SpecFloat.iter_pos f p x = Nat.iter (Pos.to_nat p) f x.
Proof.
  revert x. induction p as [p IH|p IH|]; intros x; cbn [SpecFloat.iter_pos]; rewrite ?IH.
  - rewrite Pos2Nat.inj_xI. replace (S (2 * Pos.to_nat p)) with (Pos.to_nat p + (Pos.to_nat p + 1))%nat by lia.
    by rewrite !Nat.iter_add.
  - rewrite Pos2Nat.inj_xO. replace (2 * Pos.to_nat p)%nat with (Pos.to_nat p + Pos.to_nat p)%nat by lia.
    by rewrite Nat.iter_add.
  - done.
Qed.

Lemma shr_1_spec m r s : 0 <= m ->
  shr_1 (Build_shr_record m r s) = Build_shr_record (m / 2) (Z.odd m) (r || s).
Proof.
  intros Hm. unfold shr_1. destruct m as [|[p|p|]|p]; try done; cbn [Z.odd]; try lia.
  - f_equal. change (Zpos (xI p)) with (2 * Zpos p + 1). Z.div_mod_to_equations; lia.
  - f_equal. change (Zpos (xO p)) with (2 * Zpos p). Z.div_mod_to_equations; lia.
Qed.

(** After [k + 1] shifts: the quotient, the last bit shifted out, and whether any bit
    before it was set. *)
Lemma shr_iter m k : 0 <= m -> Nat.iter (S k) shr_1 (Build_shr_record m false false) =
  Build_shr_record (m / 2 ^ Z.of_nat (S k)) (Z.odd (m / 2 ^ Z.of_nat k)) (negb (m mod 2 ^ Z.of_nat k =? 0)).
Proof.
  intros Hm. induction k as [|k IH].
  - cbn [Nat.iter nat_rect]. rewrite shr_1_spec by done. cbn [orb]. change (2 ^ Z.of_nat 1) with 2. change (2 ^ Z.of_nat 0) with 1.
    by rewrite Z.div_1_r, Z.mod_1_r.
  - change (Nat.iter (S (S k)) shr_1 ?x) with (shr_1 (Nat.iter (S k) shr_1 x)). rewrite IH.
    pose proof (pow2_pos (Z.of_nat k)) as Hp. rewrite shr_1_spec by (apply Z.div_pos; [done|apply pow2_pos; lia]).
    f_equal.
    + rewrite Z.div_div by (try (apply pow2_pos; lia); pose proof (pow2_pos (Z.of_nat (S k))); lia).
      f_equal. rewrite (Nat2Z.inj_succ (S k)), Z.pow_succ_r by lia. lia.
    + rewrite Nat2Z.inj_succ, Z.pow_succ_r, (Z.mul_comm 2) by lia.
      rewrite Z.rem_mul_r by lia. pose proof (Z.mod_pos_bound m (2 ^ Z.of_nat k)) as Hb.
      rewrite Zmod_odd. destruct (Z.odd (m / 2 ^ Z.of_nat k)); cbn [orb].
      * symmetry. apply negb_true_iff, Z.eqb_neq. lia.
      * f_equal. f_equal. lia.
Qed.

Lemma round_shr m k : 0 <= m ->
  let mrs := Nat.iter k shr_1 (Build_shr_record m false false) in
  round_nearest_even (shr_m mrs) (loc_of_shr_record mrs) = rne m (Z.of_nat k).
Proof.
  intros Hm. destruct k as [|k]; cbv zeta.
  - cbn. rewrite rne_exact by (rewrite ?Z.mod_1_r; done || lia). by rewrite Z.div_1_r.
  - rewrite shr_iter by done. cbn [shr_m]. unfold rne. pose proof (pow2_pos (Z.of_nat k)) as Hp.
    rewrite Nat2Z.inj_succ, Z.pow_succ_r by lia.
    assert (Hrem : m mod (2 * 2 ^ Z.of_nat k) = m mod 2 ^ Z.of_nat k + 2 ^ Z.of_nat k * Z.b2z (Z.odd (m / 2 ^ Z.of_nat k))).
    { rewrite (Z.mul_comm 2), Z.rem_mul_r, Zmod_odd by lia. by destruct (Z.odd _). }
    rewrite Hrem. pose proof (Z.mod_pos_bound m (2 ^ Z.of_nat k)) as Hb.
    destruct (Z.odd (m / 2 ^ Z.of_nat k)), (Z.eqb_spec (m mod 2 ^ Z.of_nat k) 0); cbn [negb loc_of_shr_record Z.b2z round_nearest_even];
      match goal with |- context [?a ?= ?b] => destruct (Z.compare_spec a b) end; try lia; done.
Qed.

Lemma digits_log2 m : Zpos (digits2_pos m) = Z.log2 (Zpos m) + 1.
Proof.
  induction m as [m IH|m IH|]; [| |done]; cbn [digits2_pos]; rewrite Pos2Z.inj_succ, IH.
  - change (Zpos (xI m)) with (2 * Zpos m + 1). rewrite Z.log2_succ_double by lia. lia.
  - change (Zpos (xO m)) with (2 * Zpos m). rewrite Z.log2_double by lia. lia.
Qed.

Lemma iter_xO m d : Zpos (Pos.iter xO m d) = Zpos m * 2 ^ Zpos d.
Proof.
  revert m. induction d as [|d IH] using Pos.peano_ind; intros m.
  - cbn. lia.
  - rewrite Pos.iter_succ, Pos2Z.inj_succ, Z.pow_succ_r by lia. rewrite (Pos2Z.inj_xO (Pos.iter xO m d)), IH. ring.
Qed.

(** Where the mantissa of a number with leading bit [2^(l)] ends. *)
Definition target (l : Z) : Z := Z.max (l - 52) (-1074).

Lemma fexp_target l : fexp 53 1024 (l + 1) = target l.
Proof. unfold fexp, emin, target. lia. Qed.

Lemma shl_align_spec m e t : let '(m', e') := shl_align m e t in
  e' = Z.min e t /\ Zpos m' = Zpos m * 2 ^ (e - e').
Proof.
  unfold shl_align. destruct (t - e) as [|d|d] eqn:E.
  - split; [lia|]. replace (e - e) with 0 by lia. change (2 ^ 0) with 1. lia.
  - split; [lia|]. replace (e - e) with 0 by lia. change (2 ^ 0) with 1. lia.
  - split; [lia|]. rewrite iter_xO. f_equal. f_equal. lia.
Qed.

Lemma shl_align_val m e t : t <= e -> Zpos (fst (shl_align m e t)) = Zpos m * 2 ^ (e - t).
Proof.
  intros Ht. pose proof (shl_align_spec m e t) as H. destruct (shl_align m e t) as [m' e']. cbn [fst].
  destruct H as [-> ->]. f_equal. f_equal. lia.
Qed.

Lemma shr_spec m e n : 0 <= m -> 0 <= n ->
  let '(mrs, e') := shr (Build_shr_record m false false) e n in
  e' = e + n /\ round_nearest_even (shr_m mrs) (loc_of_shr_record mrs) = rne m n.
Proof.
  intros Hm Hn. unfold shr. destruct n as [|p|p]; [| |lia].
  - split; [lia|]. exact (round_shr m 0 Hm).
  - split; [done|]. rewrite iter_pos_nat. pose proof (round_shr m (Pos.to_nat p) Hm) as Hr. cbv zeta in Hr.
    rewrite Hr. f_equal. lia.
Qed.

(** ** Values *)

(** Non-negative, not NaN, in canonical form. *)
Definition nonneg (x : float64) : Prop :=
  match x with
  | S754_zero s | S754_infinity s => s = false
  | S754_finite s m e => s = false /\ bounded 53 1024 m e = true
  | S754_nan => False
  end.

(** The value in units of 2^-1074; [None] is infinity. *)
Definition value (x : float64) : option Z :=
  match x with
  | S754_finite _ m e => Some (Zpos m * 2 ^ (e + 1074))
  | S754_infinity _ => None
  | _ => Some 0
  end.

Definition limit : Z := 2 ^ 2098.
Definition clamp (M : Z) : option Z := if M <? limit then Some M else None.

Lemma bounded_spec m e : bounded 53 1024 m e = true <-> e = target (Z.log2 (Zpos m) + e) /\ e <= 971.
Proof.
  unfold bounded, canonical_mantissa. rewrite andb_true_iff, Z.eqb_eq, Z.leb_le, digits_log2.
  replace (Z.log2 (Zpos m) + 1 + e) with (Z.log2 (Zpos m) + e + 1) by lia. rewrite fexp_target.
  change (1024 - 53) with 971. intuition.
Qed.

(** A canonical mantissa has at most 53 bits, and 53 of them above the smallest exponent. *)
Lemma bounded_mantissa m e : bounded 53 1024 m e = true ->
  -1074 <= e <= 971 /\ 0 < Zpos m < 2 ^ 53 /\ (-1074 < e -> 2 ^ 52 <= Zpos m).
Proof.
  rewrite bounded_spec. unfold target. intros [He Hm]. pose proof (Z.log2_spec (Zpos m) ltac:(lia)) as [Hlo Hhi].
  assert (Z.log2 (Zpos m) <= 52) by lia. pose proof (Z.log2_nonneg (Zpos m)).
  split_and!; [lia..| |].
  - eapply Z.lt_le_trans; [exact Hhi|]. apply Z.pow_le_mono_r; lia.
  - intros Hgt. replace 52 with (Z.log2 (Zpos m)) by lia. done.
Qed.

Lemma log2_scale m k : 0 <= k -> Z.log2 (Zpos m * 2 ^ k) = Z.log2 (Zpos m) + k.
Proof. intros Hk. rewrite Z.log2_mul_pow2 by lia. lia. Qed.

(** The second normalization: a mantissa rounded up to [2^53] loses its last bit. *)
Lemma renormalize q t : 0 < q <= 2 ^ 53 -> -1074 <= t -> (-1074 < t -> 2 ^ 52 <= q) ->
  exists m e, (let '(mrs, e'') := shr_fexp 53 1024 q t loc_Exact in (shr_m mrs, e'')) = (Zpos m, e) /\
    Zpos m * 2 ^ (e + 1074) = q * 2 ^ (t + 1074) /\ e = target (Z.log2 (Zpos m) + e) /\ Zpos m < 2 ^ 53 /\
    (971 < e -> 2 ^ 52 <= Zpos m).
Proof.
  intros Hq Ht Hbig. unfold shr_fexp. destruct q as [|q|q]; try lia. cbn [Zdigits2]. rewrite digits_log2.
  replace (Z.log2 (Zpos q) + 1 + t) with (Z.log2 (Zpos q) + t + 1) by lia. rewrite fexp_target.
  destruct (Z.eq_dec (Zpos q) (2 ^ 53)) as [E|E].
  - rewrite E. change (Z.log2 (2 ^ 53)) with 53. unfold target.
    replace (Z.max (53 + t - 52) (-1074) - t) with 1 by lia. exists (2 ^ 52)%positive, (t + 1). split_and!; try done.
    + replace (t + 1 + 1074) with (Z.succ (t + 1074)) by lia. rewrite Z.pow_succ_r by lia. change (Zpos (2 ^ 52)) with (2 ^ 52). lia.
    + change (Z.log2 (Zpos (2 ^ 52))) with 52. lia.
  - assert (Hl : Z.log2 (Zpos q) < 53) by (apply Z.log2_lt_pow2; lia).
    assert (Hn : target (Z.log2 (Zpos q) + t) - t <= 0) by (unfold target; lia).
    exists q, t. split_and!; try lia.
    + unfold shr. destruct (target _ - t); [done|lia|done].
    + unfold target. destruct (Z.eq_dec t (-1074)) as [->|]; [lia|].
      assert (52 <= Z.log2 (Zpos q)) by (apply Z.log2_le_pow2; lia). lia.
Qed.

Lemma rnd_mantissa M : 0 < M -> 0 < rne M (excess M) <= 2 ^ 53 /\ (0 < excess M -> 2 ^ 52 <= rne M (excess M)).
Proof.
  intros HM. pose proof (rnd_range M HM) as [Hlo Hhi]. unfold rnd in *. pose proof (Z.log2_nonneg M).
  assert (Hs : 0 <= excess M) by (unfold excess; lia). pose proof (pow2_pos _ Hs) as Hp.
  assert (Hle : 2 ^ (Z.log2 M + 1) <= 2 ^ 53 * 2 ^ excess M).
  { rewrite <- Z.pow_add_r by lia. apply Z.pow_le_mono_r; unfold excess; lia. }
  pose proof (pow2_pos (Z.log2 M)). split_and!.
  - nia.
  - nia.
  - intros Hpos. assert (E : 2 ^ Z.log2 M = 2 ^ 52 * 2 ^ excess M).
    { rewrite <- Z.pow_add_r by lia. f_equal. unfold excess in *. lia. }
    nia.
Qed.

Lemma binary_round_eq m e : -1074 <= e -> exists m' e',
  binary_round 53 1024 false m e = (if e' <=? 971 then S754_finite false m' e' else S754_infinity false) /\
  rnd (Zpos m * 2 ^ (e + 1074)) = Zpos m' * 2 ^ (e' + 1074) /\ e' = target (Z.log2 (Zpos m') + e') /\ Zpos m' < 2 ^ 53 /\
  (971 < e' -> 2 ^ 52 <= Zpos m').
Proof.
  intros He. unfold binary_round. rewrite digits_log2.
  replace (Z.log2 (Zpos m) + 1 + e) with (Z.log2 (Zpos m) + e + 1) by lia. rewrite fexp_target.
  set (t := target (Z.log2 (Zpos m) + e)). pose proof (shl_align_spec m e t) as Hal.
  destruct (shl_align m e t) as [mz ez]. destruct Hal as [Hez Hmz].
  assert (Ht : -1074 <= t) by (unfold t, target; lia).
  set (M := Zpos m * 2 ^ (e + 1074)). assert (HM : 0 < M) by (pose proof (pow2_pos (e + 1074)); unfold M; nia).
  assert (HMz : M = Zpos mz * 2 ^ (ez + 1074)).
  { unfold M. rewrite Hmz, <- Z.mul_assoc, <- Z.pow_add_r by lia. do 2 f_equal. lia. }
  assert (Hexc : excess M = t + 1074) by (unfold excess, M, t, target; rewrite log2_scale by lia; lia).
  assert (Hlog : Z.log2 (Zpos mz) + ez = Z.log2 (Zpos m) + e) by (rewrite Hmz, log2_scale by lia; lia).
  unfold binary_round_aux, shr_fexp at 1. cbn [Zdigits2 shr_record_of_loc]. rewrite digits_log2.
  replace (Z.log2 (Zpos mz) + 1 + ez) with (Z.log2 (Zpos m) + e + 1) by lia. rewrite fexp_target. fold t.
  pose proof (shr_spec (Zpos mz) ez (t - ez) ltac:(lia) ltac:(lia)) as Hshr.
  destruct (shr _ ez (t - ez)) as [mrs e']. destruct Hshr as [-> Hq]. rewrite Hq. replace (ez + (t - ez)) with t by lia.
  assert (Hrne : rne (Zpos mz) (t - ez) = rne M (excess M)).
  { rewrite HMz at 1. rewrite Hexc. replace (t + 1074) with (t - ez + (ez + 1074)) by lia. by rewrite rne_scale by lia. }
  rewrite Hrne. destruct (rnd_mantissa M HM) as [Hr1 Hr2].
  destruct (renormalize (rne M (excess M)) t) as (m'' & e'' & Hsh & Hval & Hcan & Hlt & Hbig); [done|done|intros; apply Hr2; lia|].
  destruct (shr_fexp 53 1024 (rne M (excess M)) t loc_Exact) as [mrs2 e2]. injection Hsh as -> ->.
  exists m'', e''. split_and!; try done. unfold rnd. by rewrite Hval, <- Hexc.
Qed.

(** Mantissas below [2^53] stay under the largest exponent, larger ones do not. *)
Lemma under_limit m e : Zpos m < 2 ^ 53 -> -1074 <= e <= 971 -> Zpos m * 2 ^ (e + 1074) < limit.
Proof.
  intros Hm He. unfold limit. change (2 ^ 2098) with (2 ^ (53 + (971 + 1074))). rewrite (Z.pow_add_r 2 53) by lia.
  apply Z.lt_le_trans with (2 ^ 53 * 2 ^ (e + 1074)).
  - apply Z.mul_lt_mono_pos_r; [apply pow2_pos; lia|done].
  - apply Z.mul_le_mono_nonneg_l; [lia|]. apply Z.pow_le_mono_r; lia.
Qed.

Lemma over_limit m e : 2 ^ 52 <= Zpos m -> 971 < e -> limit <= Zpos m * 2 ^ (e + 1074).
Proof.
  intros Hm He. unfold limit. change (2 ^ 2098) with (2 ^ (52 + (972 + 1074))). rewrite (Z.pow_add_r 2 52) by lia.
  apply Z.mul_le_mono_nonneg; [apply Z.pow_nonneg; lia|done|apply Z.pow_nonneg; lia|apply Z.pow_le_mono_r; lia].
Qed.

Lemma binary_round_spec m e : -1074 <= e ->
  nonneg (binary_round 53 1024 false m e) /\
  value (binary_round 53 1024 false m e) = clamp (rnd (Zpos m * 2 ^ (e + 1074))).
Proof.
  intros He. destruct (binary_round_eq m e He) as (m' & e' & -> & -> & Hc & Hlt & Hbig). unfold clamp.
  assert (He' : -1074 <= e') by (rewrite Hc; unfold target; lia).
  destruct (Z.leb_spec e' 971).
  - split; [split; [done|by apply bounded_spec]|]. cbn [value]. pose proof (under_limit m' e' Hlt ltac:(lia)).
    by destruct (Z.ltb_spec (Zpos m' * 2 ^ (e' + 1074)) limit); [|lia].
  - split; [done|]. cbn [value]. pose proof (over_limit m' e' ltac:(auto) ltac:(lia)).
    by destruct (Z.ltb_spec (Zpos m' * 2 ^ (e' + 1074)) limit); [lia|].
Qed.

(** ** Addition *)

(** Sums, with infinity absorbing. *)
Definition addval (a b : option Z) : option Z :=
  match a, b with
  | Some a, Some b => if a + b =? 0 then Some 0 else clamp (rnd (a + b))
  | _, _ => None
  end.

(** What a canonical float stands for rounds to itself. *)
Lemma rnd_canonical m e : bounded 53 1024 m e = true ->
  rnd (Zpos m * 2 ^ (e + 1074)) = Zpos m * 2 ^ (e + 1074) /\ Zpos m * 2 ^ (e + 1074) < limit.
Proof.
  intros Hb. destruct (bounded_mantissa m e Hb) as (He & Hm & _). apply bounded_spec in Hb as [Hc _]. split.
  - unfold rnd. assert (Hexc : excess (Zpos m * 2 ^ (e + 1074)) = e + 1074).
    { unfold excess. rewrite log2_scale by lia. unfold target in Hc. lia. }
    rewrite Hexc, rne_exact by (lia || (apply Z_mod_mult)). rewrite Z.div_mul; [done|].
    pose proof (pow2_pos (e + 1074)). lia.
  - apply under_limit; lia.
Qed.

Lemma clamp_canonical m e : bounded 53 1024 m e = true ->
  clamp (rnd (Zpos m * 2 ^ (e + 1074))) = Some (Zpos m * 2 ^ (e + 1074)).
Proof.
  intros Hb. destruct (rnd_canonical m e Hb) as [-> Hl]. unfold clamp. by destruct (Z.ltb_spec (Zpos m * 2 ^ (e + 1074)) limit); [|lia].
Qed.

Lemma value_pos m e : -1074 <= e -> 0 < Zpos m * 2 ^ (e + 1074).
Proof. intros. pose proof (pow2_pos (e + 1074)). nia. Qed.

Lemma fadd_finite mx ex my ey : bounded 53 1024 mx ex = true -> bounded 53 1024 my ey = true ->
  exists m e, fadd (S754_finite false mx ex) (S754_finite false my ey) = binary_round 53 1024 false m e /\ -1074 <= e /\
    Zpos m * 2 ^ (e + 1074) = Zpos mx * 2 ^ (ex + 1074) + Zpos my * 2 ^ (ey + 1074).
Proof.
  intros Hx Hy. destruct (bounded_mantissa _ _ Hx) as (Hex & _). destruct (bounded_mantissa _ _ Hy) as (Hey & _).
  set (ez := Z.min ex ey). pose proof (shl_align_val mx ex ez ltac:(lia)) as E1. pose proof (shl_align_val my ey ez ltac:(lia)) as E2.
  exists (fst (shl_align mx ex ez) + fst (shl_align my ey ez))%positive, ez. split_and!; [done|lia|].
  rewrite Pos2Z.inj_add, E1, E2, Z.mul_add_distr_r, <- !Z.mul_assoc, <- !Z.pow_add_r by lia.
  f_equal; do 2 f_equal; lia.
Qed.

Lemma fadd_spec x y : nonneg x -> nonneg y -> nonneg (fadd x y) /\ value (fadd x y) = addval (value x) (value y).
Proof.
  destruct x as [sx|sx| |sx mx ex], y as [sy|sy| |sy my ey]; intros Hx Hy; cbn [nonneg] in Hx, Hy; try done;
    repeat match goal with H : _ /\ _ |- _ => destruct H end; subst; try done; cbn [value addval].
  - split; [done|]. destruct (bounded_mantissa my ey) as (He & _); [done|]. pose proof (value_pos my ey ltac:(lia)).
    destruct (Z.eqb_spec (0 + Zpos my * 2 ^ (ey + 1074)) 0); [lia|]. rewrite Z.add_0_l. by rewrite clamp_canonical.
  - split; [done|]. destruct (bounded_mantissa mx ex) as (He & _); [done|]. pose proof (value_pos mx ex ltac:(lia)).
    destruct (Z.eqb_spec (Zpos mx * 2 ^ (ex + 1074) + 0) 0); [lia|]. rewrite Z.add_0_r. by rewrite clamp_canonical.
  - destruct (bounded_mantissa mx ex) as (Hex & _); [done|]. destruct (bounded_mantissa my ey) as (Hey & _); [done|].
    pose proof (value_pos mx ex ltac:(lia)). pose proof (value_pos my ey ltac:(lia)).
    destruct (Z.eqb_spec (Zpos mx * 2 ^ (ex + 1074) + Zpos my * 2 ^ (ey + 1074)) 0); [lia|].
    destruct (fadd_finite mx ex my ey) as (m & e & -> & He & <-); [done|done|]. by apply binary_round_spec.
Qed.

(** ** Order *)

Definition vlt (a b : option Z) : Prop :=
  match a, b with Some a, Some b => a < b | Some _, None => True | None, _ => False end.
Definition vle (a b : option Z) : Prop :=
  match a, b with Some a, Some b => a <= b | _, None => True | None, Some _ => False end.

(** Exponents first, then mantissas, is the order of the values. *)
Lemma canonical_lt m1 e1 m2 e2 : bounded 53 1024 m1 e1 = true -> bounded 53 1024 m2 e2 = true -> e1 < e2 ->
  Zpos m1 * 2 ^ (e1 + 1074) < Zpos m2 * 2 ^ (e2 + 1074).
Proof.
  intros H1 H2 Hlt. destruct (bounded_mantissa _ _ H1) as (He1 & Hm1 & _).
  destruct (bounded_mantissa _ _ H2) as (He2 & _ & Hm2). specialize (Hm2 ltac:(lia)).
  apply Z.lt_le_trans with (2 ^ 53 * 2 ^ (e1 + 1074)).
  - apply Z.mul_lt_mono_pos_r; [apply pow2_pos; lia|lia].
  - change (2 ^ 53) with (2 ^ 52 * 2). rewrite <- Z.mul_assoc, <- Z.pow_succ_r by lia.
    apply Z.mul_le_mono_nonneg; [lia|done|apply Z.pow_nonneg; lia|apply Z.pow_le_mono_r; lia].
Qed.

Lemma flt_value x y : nonneg x -> nonneg y -> flt x y = true <-> vlt (value x) (value y).
Proof.
  unfold flt, SFltb, SFcompare.
  destruct x as [sx|sx| |sx mx ex], y as [sy|sy| |sy my ey]; cbn [nonneg value vlt]; intros Hx Hy; try done;
    repeat match goal with H : _ /\ _ |- _ => destruct H end; subst; try done.
  - split; [|done]. intros _. destruct (bounded_mantissa my ey) as (? & _); [done|]. by apply value_pos; lia.
  - split; [done|]. destruct (bounded_mantissa mx ex) as (? & _); [done|]. pose proof (value_pos mx ex ltac:(lia)). lia.
  - change (Pos.compare_cont Eq mx my) with (Pos.compare mx my).
    destruct (Z.compare_spec ex ey) as [->|Hlt|Hgt].
    + destruct (bounded_mantissa my ey) as (? & _); [done|]. pose proof (pow2_pos (ey + 1074) ltac:(lia)).
      destruct (Pos.compare_spec mx my) as [->|Hl|Hl]; split; try done; intros; try lia; nia.
    + split; [|done]. intros _. by apply canonical_lt.
    + split; [done|]. intros Hl. pose proof (canonical_lt my ey mx ex ltac:(done) ltac:(done) Hgt). lia.
Qed.

Lemma value_inj x y : nonneg x -> nonneg y -> value x = value y -> x = y.
Proof.
  destruct x as [sx|sx| |sx mx ex], y as [sy|sy| |sy my ey]; cbn [nonneg value]; intros Hx Hy; try done;
    repeat match goal with H : _ /\ _ |- _ => destruct H end; subst; try done; intros [= E].
  - destruct (bounded_mantissa my ey) as (? & _); [done|]. pose proof (value_pos my ey ltac:(lia)). lia.
  - destruct (bounded_mantissa mx ex) as (? & _); [done|]. pose proof (value_pos mx ex ltac:(lia)). lia.
  - destruct (Z.lt_trichotomy ex ey) as [Hl|[->|Hl]].
    + pose proof (canonical_lt mx ex my ey ltac:(done) ltac:(done) Hl). lia.
    + destruct (bounded_mantissa my ey) as (? & _); [done|]. pose proof (pow2_pos (ey + 1074) ltac:(lia)).
      assert (Zpos mx = Zpos my) by nia. congruence.
    + pose proof (canonical_lt my ey mx ex ltac:(done) ltac:(done) Hl). lia.
Qed.

Lemma flt_false_value x y : nonneg x -> nonneg y -> flt x y = false <-> vle (value y) (value x).
Proof.
  intros Hx Hy. rewrite <- not_true_iff_false, (flt_value x y Hx Hy).
  destruct (value x), (value y); cbn; lia || tauto.
Qed.

(** The value of a float is an integer that needs no rounding. *)
Lemma value_exact x a : nonneg x -> value x = Some a -> 0 <= a /\ (a = 0 \/ clamp (rnd a) = Some a).
Proof.
  destruct x as [sx|sx| |sx mx ex]; cbn [nonneg value]; intros Hx [= <-]; try done; [lia|]. destruct Hx as [_ Hx].
  destruct (bounded_mantissa mx ex Hx) as (? & _). pose proof (value_pos mx ex ltac:(lia)).
  split; [lia|right]. by apply clamp_canonical.
Qed.

Lemma clamp_mono M N : M <= N -> vle (clamp M) (clamp N).
Proof. unfold clamp. intros. destruct (Z.ltb_spec M limit), (Z.ltb_spec N limit); cbn; lia. Qed.

Lemma addval_mono a a' b : 0 <= a -> 0 <= b -> a <= a' -> vle (addval (Some a) (Some b)) (addval (Some a') (Some b)).
Proof.
  intros Ha Hb Hle. unfold addval. destruct (Z.eqb_spec (a + b) 0), (Z.eqb_spec (a' + b) 0); cbn; try lia.
  - pose proof (rnd_range (a' + b) ltac:(lia)) as [Hlo _]. pose proof (Z.pow_nonneg 2 (Z.log2 (a' + b))).
    unfold clamp. destruct (Z.ltb_spec (rnd (a' + b)) limit); cbn; lia.
  - apply clamp_mono, rnd_mono; lia.
Qed.

(** A larger summand gives no smaller sum. *)
Lemma fadd_mono x x' y : nonneg x -> nonneg x' -> nonneg y -> flt x' x = false -> flt (fadd x' y) (fadd x y) = false.
Proof.
  intros Hx Hx' Hy Hle. destruct (fadd_spec x y Hx Hy) as [N1 V1]. destruct (fadd_spec x' y Hx' Hy) as [N2 V2].
  apply flt_false_value in Hle; [|done..]. apply flt_false_value; [done..|]. rewrite V1, V2.
  destruct (value x) as [a|] eqn:E1, (value x') as [a'|] eqn:E2, (value y) as [b|] eqn:E3; try done.
  - destruct (value_exact x a Hx E1), (value_exact y b Hy E3). by apply addval_mono.
  - change (addval None (Some b)) with (@None Z). by destruct (addval (Some a) (Some b)).
Qed.

(** A sum is never below its first summand. *)
Lemma fadd_infl x y : nonneg x -> nonneg y -> flt (fadd x y) x = false.
Proof.
  intros Hx Hy. destruct (fadd_spec x y Hx Hy) as [N1 V1]. apply flt_false_value; [done..|]. rewrite V1.
  destruct (value x) as [a|] eqn:E1, (value y) as [b|] eqn:E3; try done.
  destruct (value_exact x a Hx E1) as [Ha Hra], (value_exact y b Hy E3) as [Hb _].
  unfold addval. destruct (Z.eqb_spec (a + b) 0); [cbn; lia|]. destruct Hra as [->|Hra].
  - pose proof (rnd_range (0 + b) ltac:(lia)) as [Hlo _]. pose proof (Z.pow_nonneg 2 (Z.log2 (0 + b))).
    unfold clamp. destruct (Z.ltb_spec (rnd (0 + b)) limit); cbn; lia.
  - rewrite <- Hra. destruct (Z.eq_dec a 0) as [->|].
    + pose proof (rnd_range (0 + b) ltac:(lia)) as [Hlo _]. pose proof (Z.pow_nonneg 2 (Z.log2 (0 + b))).
      rewrite Hra. unfold clamp. destruct (Z.ltb_spec (rnd (0 + b)) limit); cbn; lia.
    + apply clamp_mono, rnd_mono; lia.
Qed.
