(* ===== verification/MeshPaths.v ===== *)
(** Path selection of the mesh: src/mesh/mesh.go, the shortest-path search
    ([dijkstra]), the re-evaluation of an installed path ([pathCost]) and the
    hysteresis between the two.

    Costs are used through an interface: [CostOps] are the operations the search
    performs, [CostLaws] what they must satisfy for its result to be right.  The code
    runs at float64 ([float_CostOps]).  Ranging over a Go map is in an arbitrary
    order, so the orders are arguments; [Panic] is a nil dereference. *)

From Stdlib Require Import ZArith Lia String.
From stdpp Require Import base list numbers strings gmap sets.
From S2P Require Import Prelude GoFloat FloatOrder.
Open Scope Z_scope.

(** ** Costs *)

Class CostOps (C : Type) := {
  czero : C;
  cadd : C -> C -> C;
  cltb : C -> C -> bool;
  ceqb : C -> C -> bool;
  cinf : C;                     (* 1e18, the code's infinity *)
  chop : C                      (* hopPenaltyMs *)
}.

(** The cost after one more hop over a link of cost [l]. *)
Definition cstep {C} `{CostOps C} (a l : C) : C := cadd (cadd a l) chop.

(** [cltb] orders the costs totally, a hop never makes a path cheaper, and keeps the
    order of the paths it extends. *)
Class CostLaws (C : Type) `{CostOps C} := {
  cok : C -> Prop;
  cok_zero : cok czero;
  cok_inf : cok cinf;
  cok_step a l : cok a -> cok l -> cok (cstep a l);
  clt_irrefl a : cltb a a = false;
  clt_trans a b c : cltb a b = true -> cltb b c = true -> cltb a c = true;
  clt_total a b : cok a -> cok b -> cltb a b = false -> cltb b a = false -> a = b;
  ceqb_eq a b : cok a -> cok b -> ceqb a b = true <-> a = b;
  cstep_infl a l : cok a -> cok l -> cltb (cstep a l) a = false;
  cstep_mono a b l : cok a -> cok b -> cok l -> cltb b a = false -> cltb (cstep b l) (cstep a l) = false
}.

(** A hop always costs something, and strictly keeps the order. *)
Class StrictCost (C : Type) `{CostLaws C} := {
  cstep_infl_strict a l : cok a -> cok l -> cltb a (cstep a l) = true;
  cstep_mono_strict a b l : cok a -> cok b -> cok l -> cltb a b = true -> cltb (cstep a l) (cstep b l) = true
}.

(** ** The graph *)

Record LinkQualityInfo (C : Type) := mkLQ {
  lFrom : string; lTo : string;
  lNIC : option Z;              (* the LinkNIC pointer; [None] is nil *)
  lLocalSeq : Z; lRemoteSeq : Z;
  lSRTT : float64; lLossRate : float64; lJitter : float64;
  lCost : C
}.
Arguments mkLQ {C}. Arguments lFrom {C}. Arguments lTo {C}. Arguments lNIC {C}. Arguments lLocalSeq {C}.
Arguments lRemoteSeq {C}. Arguments lSRTT {C}. Arguments lLossRate {C}. Arguments lJitter {C}. Arguments lCost {C}.

Record TopologyGraph (C : Type) := mkGraph {
  Nodes : gset string;
  Edges : gmap string (gmap string (list (LinkQualityInfo C)))
}.
Arguments mkGraph {C}. Arguments Nodes {C}. Arguments Edges {C}.

Record dijkstraResult (C : Type) := mkPath { NextHop : string; LinkNIC : option Z; Cost : C; Path : list string }.
Arguments mkPath {C}. Arguments NextHop {C}. Arguments LinkNIC {C}. Arguments Cost {C}. Arguments Path {C}.

Record nodeInfo (C : Type) := mkInfo {
  icost : C; inext : string; inic : option Z; ipath : list string; ivisited : bool }.
Arguments mkInfo {C}. Arguments icost {C}. Arguments inext {C}. Arguments inic {C}. Arguments ipath {C}.
Arguments ivisited {C}.

Inductive run (A : Type) := Done (a : A) | Panic | OutOfFuel.
Arguments Done {A}. Arguments Panic {A}. Arguments OutOfFuel {A}.

Section Search.
Context {C : Type} `{CostOps C}.
Implicit Types (g : TopologyGraph C) (nodes : gmap string (nodeInfo C)) (ls : list (LinkQualityInfo C)).

(** The cheapest link, the smallest local sequence number among equals; [None] when
    the comparison reads the sequence number of a link not found yet. *)
Fixpoint bestLink (bestCost : C) (best : option (LinkQualityInfo C)) ls : option (C * option (LinkQualityInfo C)) :=
  match ls with
  | [] => Some (bestCost, best)
  | l :: ls' =>
      if cltb (lCost l) bestCost then bestLink (lCost l) (Some l) ls'
      else if ceqb (lCost l) bestCost then
        match best with
        | None => None
        | Some b => if lLocalSeq l <? lLocalSeq b then bestLink (lCost l) (Some l) ls' else bestLink bestCost best ls'
        end
      else bestLink bestCost best ls'
  end.

(** The body of the loop over the neighbours of [minNode]. *)
Definition relax (source minNode : string) nodes (toNode : string) ls : option (gmap string (nodeInfo C)) :=
  match nodes !! toNode, nodes !! minNode with
  | Some ti, Some mi =>
      if ivisited ti then Some nodes
      else
        match bestLink cinf None ls with
        | None => None
        | Some (bestCost, best) =>
            let newCost := cstep (icost mi) bestCost in
            let hop :=
              if decide (minNode = source)
              then match best with Some b => Some (toNode, lNIC b, [toNode]) | None => None end
              else Some (inext mi, inic mi, ipath mi ++ [toNode]) in
            match hop with
            | None => None
            | Some (nextHop, linkNIC, path) =>
                if cltb newCost (icost ti) || (ceqb newCost (icost ti) && String.ltb nextHop (inext ti))
                then Some (<[toNode := mkInfo newCost nextHop linkNIC path false]> nodes)
                else Some nodes
            end
        end
  | _, _ => None
  end.

Fixpoint relaxAll (source minNode : string) (nbrs : gmap string (list (LinkQualityInfo C)))
    (order : list string) nodes : option (gmap string (nodeInfo C)) :=
  match order with
  | [] => Some nodes
  | to :: order' =>
      match relax source minNode nodes to (default [] (nbrs !! to)) with
      | Some nodes' => relaxAll source minNode nbrs order' nodes'
      | None => None
      end
  end.

(** The unvisited node of least cost, the first of equals in the order visited. *)
Definition minStep nodes (acc : string * C) (id : string) : string * C :=
  match nodes !! id with
  | Some i => if negb (ivisited i) && cltb (icost i) (snd acc) then (id, icost i) else acc
  | None => acc
  end.
Definition findMin nodes (order : list string) : string * C := foldl (minStep nodes) (""%string, cinf) order.

(** [ord n] is the order of the range over the nodes in round [n], [nord u] that over
    the neighbours of [u]. *)
Fixpoint search (fuel : nat) g (source : string) (ord : nat -> list string) (nord : string -> list string)
    nodes : run (gmap string (nodeInfo C)) :=
  match fuel with
  | O => OutOfFuel
  | S fuel' =>
      let '(minNode, minCost) := findMin nodes (ord fuel') in
      if bool_decide (minNode = ""%string) || negb (cltb minCost cinf) then Done nodes
      else
        match nodes !! minNode with
        | None => Panic
        | Some mi =>
            let nodes := <[minNode := mkInfo (icost mi) (inext mi) (inic mi) (ipath mi) true]> nodes in
            match relaxAll source minNode (default ∅ (Edges g !! minNode))
                    (match Edges g !! minNode with Some _ => nord minNode | None => [] end) nodes with
            | Some nodes' => search fuel' g source ord nord nodes'
            | None => Panic
            end
        end
  end.

Definition initNodes g : gmap string (nodeInfo C) :=
  gset_to_gmap (mkInfo cinf ""%string None [] false) (Nodes g).

Definition resultOf (source : string) nodes : gmap string (dijkstraResult C) :=
  omap (fun i => if cltb (icost i) cinf then Some (mkPath (inext i) (inic i) (icost i) (ipath i)) else None)
    (delete source nodes).

Definition dijkstra g (source : string) (ord : nat -> list string) (nord : string -> list string)
  : run (gmap string (dijkstraResult C)) :=
  match initNodes g !! source with
  | None => Panic
  | Some i =>
      match search (S (size (Nodes g))) g source ord nord
              (<[source := mkInfo czero (inext i) (inic i) (ipath i) (ivisited i)]> (initNodes g)) with
      | Done nodes => Done (resultOf source nodes)
      | Panic => Panic
      | OutOfFuel => OutOfFuel
      end
  end.

(** ** Re-evaluating a path *)

Fixpoint pathCostFrom g (total : C) (from : string) (path : list string) : C :=
  match path with
  | [] => total
  | to :: path' =>
      match default [] (default ∅ (Edges g !! from) !! to) with
      | [] => cinf
      | l :: ls =>
          let best := foldl (fun b l => if cltb (lCost l) b then lCost l else b) (lCost l) ls in
          pathCostFrom g (cadd total (cadd best chop)) to path'
      end
  end.

Definition pathCost (source : string) g (path : list string) : C :=
  match path with [] => cinf | _ => pathCostFrom g czero source path end.

(** ** The specification: walks in the graph *)

Definition linksOf g (u v : string) : option (list (LinkQualityInfo C)) := Edges g !! u ≫= fun n => n !! v.

(** The cost of the cheapest link, at most the code's infinity. *)
Definition minCost ls : C := foldl (fun b l => if cltb (lCost l) b then lCost l else b) cinf ls.

(** [walk g source v path c]: the hops [path] lead from [source] to [v] at cost [c]. *)
Inductive walk g (source : string) : string -> list string -> C -> Prop :=
| walkNil : walk g source source [] czero
| walkSnoc u path c v ls : walk g source u path c -> linksOf g u v = Some ls ->
    walk g source v (path ++ [v]) (cstep c (minCost ls)).

End Search.

(** Costs as the code has them. *)
#[export] Instance float_CostOps : CostOps float64 := {|
  czero := f64 0; cadd := fadd; cltb := flt;
  ceqb := fun x y => match SpecFloat.SFcompare x y with Some Eq => true | _ => false end;
  cinf := f64 1000000000000000000; chop := f64 5 |}.

(** ** Order lemmas *)

Section Order.
Context {C : Type} `{CostLaws C}.
Implicit Types a b c l : C.

Definition cle a b : Prop := cltb b a = false.

Lemma cle_refl a : cle a a.
Proof. apply clt_irrefl. Qed.

Lemma cle_trans a b c : cok a -> cok b -> cle a b -> cle b c -> cle a c.
Proof.
  unfold cle. intros Ha Hb H1 H2. destruct (cltb c a) eqn:E; [|done].
  destruct (cltb a b) eqn:E2; [by rewrite (clt_trans c a b) in H2|].
  rewrite (clt_total a b) in E by done. congruence.
Qed.

Lemma cle_antisym a b : cok a -> cok b -> cle a b -> cle b a -> a = b.
Proof. unfold cle. intros. by apply clt_total. Qed.

Lemma clt_cle a b : cltb a b = true -> cle a b.
Proof.
  unfold cle. intros Hab. destruct (cltb b a) eqn:E; [|done].
  pose proof (clt_trans a b a Hab E) as Hx. by rewrite clt_irrefl in Hx.
Qed.

Lemma cle_lt_trans a b c : cok a -> cok b -> cle a b -> cltb b c = true -> cltb a c = true.
Proof.
  intros Ha Hb H1 H2. destruct (cltb a b) eqn:E; [by eapply clt_trans|].
  by rewrite (clt_total a b) by done.
Qed.

Lemma cle_or_lt a b : cle a b \/ cltb b a = true.
Proof. unfold cle. destruct (cltb b a); auto. Qed.

End Order.

(** Go compares strings byte by byte. *)
Definition strle (s t : string) : Prop := String.ltb t s = false.

Lemma strle_leb s t : strle s t <-> String.le s t.
Proof.
  unfold strle, String.le, String.ltb, String.leb. rewrite String.compare_antisym.
  by destruct (String.compare s t).
Qed.

Lemma strle_refl s : strle s s.
Proof. apply strle_leb. reflexivity. Qed.
Lemma strle_trans s t u : strle s t -> strle t u -> strle s u.
Proof. rewrite !strle_leb. by transitivity t. Qed.
Lemma strle_antisym s t : strle s t -> strle t s -> s = t.
Proof. rewrite !strle_leb. apply (anti_symm String.le). Qed.
Lemma strlt_le s t : String.ltb s t = true -> strle s t.
Proof. unfold strle, String.ltb. rewrite (String.compare_antisym t s). by destruct (String.compare s t). Qed.

(** ** Links *)

Section Links.
Context {C : Type} `{CostLaws C}.
Implicit Types (ls : list (LinkQualityInfo C)).

Definition minFrom (b0 : C) ls : C := foldl (fun b l => if cltb (lCost l) b then lCost l else b) b0 ls.

Lemma bestLink_some ls : forall bc b, cok bc -> Forall (fun l => cok (lCost l)) ls ->
  exists b', bestLink bc (Some b) ls = Some (minFrom bc ls, Some b').
Proof.
  induction ls as [|l ls IH]; intros bc b Hbc Hls; [by eexists|].
  apply Forall_cons_iff in Hls as [Hl Hls]. cbn [bestLink minFrom foldl].
  destruct (cltb (lCost l) bc) eqn:E; [by apply IH|].
  destruct (ceqb (lCost l) bc) eqn:E2; [|by apply IH].
  apply ceqb_eq in E2 as <-; [|done..]. destruct (_ <? _); by apply IH.
Qed.

(** Links the search can use: there is one, and none costs as much as infinity. *)
Definition usable ls : Prop := ls <> [] /\ Forall (fun l => cok (lCost l) /\ cltb (lCost l) cinf = true) ls.

Lemma bestLink_usable ls : usable ls -> exists b, bestLink cinf None ls = Some (minCost ls, Some b).
Proof.
  intros [Hne Hls]. destruct ls as [|l ls]; [done|]. apply Forall_cons_iff in Hls as [[Hl Hlt] Hls].
  unfold minCost. cbn [bestLink foldl]. rewrite Hlt. apply bestLink_some; [done|].
  eapply List.Forall_impl; [|exact Hls]. by intros ? [? _].
Qed.

Lemma minFrom_ok ls b0 : cok b0 -> Forall (fun l => cok (lCost l)) ls -> cok (minFrom b0 ls).
Proof.
  revert b0. induction ls as [|l ls IH]; intros b0 Hb Hls; [done|]. apply Forall_cons_iff in Hls as [Hl Hls].
  cbn [minFrom foldl]. apply IH; [|done]. by destruct (cltb _ _).
Qed.

Lemma minCost_ok ls : usable ls -> cok (minCost ls).
Proof.
  intros [_ Hls]. apply minFrom_ok; [apply cok_inf|]. eapply List.Forall_impl; [|exact Hls]. by intros ? [? _].
Qed.

(** The nil dereference: the first link costs exactly what the code calls infinity. *)
Lemma bestLink_panics l ls : cok (lCost l) -> lCost l = cinf -> bestLink cinf None (l :: ls) = None.
Proof.
  intros Hok E. cbn [bestLink]. rewrite E, clt_irrefl. by rewrite (proj2 (ceqb_eq cinf cinf cok_inf cok_inf)).
Qed.

End Links.

(** ** The search finds the cheapest walks *)

Section Correct.
Context {C : Type} `{CostLaws C}.
Variable g : TopologyGraph C.
Variable source : string.
Implicit Types (nodes : gmap string (nodeInfo C)) (i : nodeInfo C).

(** What buildTopologyGraph establishes: the endpoints of links are nodes with
    a name. *)
Record wfGraph : Prop := {
  wf_source : source ∈ Nodes g;
  wf_named : ""%string ∉ Nodes g;
  wf_edge u v ls : linksOf g u v = Some ls -> v ∈ Nodes g /\ usable ls
}.
Hypothesis Hwf : wfGraph.

Lemma walk_ok v p c : walk g source v p c -> cok c /\ cle czero c /\ v ∈ Nodes g.
Proof.
  induction 1 as [|u p c v ls _ (IH1 & IH2 & IH3) Hls].
  - split_and!; [apply cok_zero|apply cle_refl|apply Hwf].
  - destruct (wf_edge Hwf _ _ _ Hls) as [Hv Hu]. pose proof (minCost_ok _ Hu).
    split_and!; [by apply cok_step| |done]. eapply cle_trans; [apply cok_zero|exact IH1|done|by apply cstep_infl].
Qed.

Lemma walk_nil v p c : walk g source v p c -> p = [] -> v = source /\ c = czero.
Proof. destruct 1 as [|? ? ? ? ? ?]; [done|]. intros Hp. by apply app_nil in Hp as [_ ?]. Qed.

(** The first hop of a path, and the interface its cheapest direct link has. *)
Definition hopOk (v : string) i : Prop :=
  if decide (v = source) then ipath i = [] /\ inext i = ""%string /\ icost i = czero
  else hd_error (ipath i) = Some (inext i) /\ exists ls c b,
    linksOf g source (inext i) = Some ls /\ bestLink cinf None ls = Some (c, Some b) /\ inic i = lNIC b.

Definition infoOk (v : string) i : Prop :=
  (icost i = cinf /\ ivisited i = false /\ inext i = ""%string /\ v <> source) \/
  (walk g source v (ipath i) (icost i) /\ hopOk v i).

Lemma infoOk_cok v i : infoOk v i -> cok (icost i).
Proof. intros [(-> & _)|[Hw _]]; [apply cok_inf|]. by apply walk_ok in Hw as (? & _). Qed.

Record nodesOk nodes : Prop := {
  no_dom v : is_Some (nodes !! v) <-> v ∈ Nodes g;
  no_info v i : nodes !! v = Some i -> infoOk v i
}.

(** Cheaper, or as cheap with a next hop that sorts no later. *)
Definition better i' i : Prop :=
  cltb (icost i') (icost i) = true \/ (icost i' = icost i /\ strle (inext i') (inext i)).

Lemma better_refl i : better i i.
Proof. right. split; [done|apply strle_refl]. Qed.

Lemma better_cle i' i : better i' i -> cle (icost i') (icost i).
Proof. intros [Hlt|[-> _]]; [by apply clt_cle|apply cle_refl]. Qed.

Lemma better_trans i3 i2 i1 : better i3 i2 -> better i2 i1 -> better i3 i1.
Proof.
  intros [H3|[E3 S3]] [H2|[E2 S2]].
  - left. by eapply clt_trans.
  - left. congruence.
  - left. congruence.
  - right. split; [congruence|by eapply strle_trans].
Qed.

(** [nodes'] only improved the unvisited nodes of [nodes]. *)
Definition improves nodes nodes' : Prop := forall v i, nodes !! v = Some i ->
  exists i', nodes' !! v = Some i' /\ ivisited i' = ivisited i /\ better i' i /\
    (ivisited i = true -> i' = i).

(** The next hop of a path whose last hop goes from [u] to [v]. *)
Definition via u (mi : nodeInfo C) v : string := if decide (u = source) then v else inext mi.

(** [i'] is no worse than the path over [u]. *)
Definition reached u (mi : nodeInfo C) v ls i' : Prop :=
  let c := cstep (icost mi) (minCost ls) in
  cle (icost i') c /\ (icost i' = c -> strle (inext i') (via u mi v)).

Lemma reached_better u mi v ls i' i : better i' i -> reached u mi v ls i -> cok (icost i) -> cok (icost i') ->
  reached u mi v ls i'.
Proof.
  unfold reached. intros Hb [Hle Heq] Hok Hok'. split.
  - apply (cle_trans _ (icost i)); [done|done|by apply better_cle|done].
  - intros E. destruct Hb as [Hlt|[E' Hs]]; [unfold cle in Hle; congruence|].
    eapply strle_trans; [done|]. apply Heq. congruence.
Qed.

Lemma improves_refl nodes : improves nodes nodes.
Proof. intros v i Hi. exists i. split_and!; try done. apply better_refl. Qed.

Lemma improves_trans n1 n2 n3 : improves n1 n2 -> improves n2 n3 -> improves n1 n3.
Proof.
  intros H12 H23 v i Hi. destruct (H12 v i Hi) as (i2 & Hi2 & Hv2 & Hc2 & He2).
  destruct (H23 v i2 Hi2) as (i3 & Hi3 & Hv3 & Hc3 & He3). exists i3. split_and!; try done.
  - congruence.
  - by eapply better_trans.
  - intros Hv. rewrite He3, He2 by congruence. done.
Qed.

(** One relaxation over a usable edge. *)
Lemma relax_spec u mi nodes v ls : nodesOk nodes -> nodes !! u = Some mi -> ivisited mi = true ->
  walk g source u (ipath mi) (icost mi) -> linksOf g u v = Some ls ->
  exists nodes', relax source u nodes v ls = Some nodes' /\ nodesOk nodes' /\ improves nodes nodes' /\
    (forall i', nodes' !! v = Some i' -> ivisited i' = false -> reached u mi v ls i').
Proof.
  intros Hok Hmi Hvis Hw Hls. destruct (wf_edge Hwf _ _ _ Hls) as [Hv Hu].
  destruct (proj2 (no_dom _ Hok v) Hv) as [ti Hti]. unfold relax. rewrite Hti, Hmi.
  destruct (ivisited ti) eqn:Evis.
  { exists nodes. split_and!; [done..|apply improves_refl|]. intros i' Hi'. congruence. }
  destruct (bestLink_usable _ Hu) as [b Hb]. rewrite Hb. cbv zeta.
  set (newCost := cstep (icost mi) (minCost ls)).
  assert (Hwnew : walk g source v (ipath mi ++ [v]) newCost) by (by econstructor).
  destruct (walk_ok _ _ _ Hwnew) as (Hcn & Hge & _).
  assert (Hhop : exists nh nic path,
    (if decide (u = source) then Some (v, lNIC b, [v]) else Some (inext mi, inic mi, ipath mi ++ [v])) = Some (nh, nic, path) /\
    path = ipath mi ++ [v] /\ nh = via u mi v /\ hd_error path = Some nh /\ exists ls c b',
    linksOf g source nh = Some ls /\ bestLink cinf None ls = Some (c, Some b') /\ nic = lNIC b').
  { destruct (no_info _ Hok _ _ Hmi) as [(_ & Hx & _)|[_ Hh]]; [congruence|]. unfold hopOk in Hh. unfold via.
    destruct (decide (u = source)) as [->|Hne].
    - destruct Hh as (Hp & _). eexists _, _, _. split; [done|]. rewrite Hp. eauto 10.
    - destruct Hh as (Hp & Hnic). eexists _, _, _. split; [done|]. split_and!; [done|done| |done].
      destruct (ipath mi); done. }
  destruct Hhop as (nh & nic & path & -> & -> & Hvia & Hhd & Hnic).
  destruct (cltb newCost (icost ti) || (ceqb newCost (icost ti) && String.ltb nh (inext ti))) eqn:Ecmp.
  - set (ni := mkInfo newCost nh nic (ipath mi ++ [v]) false).
    assert (Hbet : better ni ti).
    { apply orb_true_iff in Ecmp as [Ecmp|Ecmp]; [by left|right]. apply andb_prop in Ecmp as [Ecmp Es].
      apply ceqb_eq in Ecmp; [|done|by eapply infoOk_cok, no_info]. split; [done|by apply strlt_le]. }
    assert (Hvs : v <> source).
    { intros ->. destruct (no_info _ Hok _ _ Hti) as [(_ & _ & _ & ?)|[_ Hh]]; [done|].
      unfold hopOk in Hh. rewrite decide_True in Hh by done. destruct Hh as (_ & Hn & Hc).
      rewrite Hn, Hc in Ecmp. unfold cle in Hge. rewrite Hge in Ecmp. apply andb_prop in Ecmp as [_ Ecmp].
      by destruct nh. }
    exists (<[v := ni]> nodes). split_and!; [done| | |].
    + constructor.
      * intros w. rewrite lookup_insert_is_Some'. rewrite (no_dom _ Hok w). naive_solver.
      * intros w i. rewrite lookup_insert_Some. intros [[<- <-]|[Hne Hi]]; [|by apply (no_info _ Hok)].
        right. split; [done|]. unfold hopOk. rewrite decide_False by done. done.
    + intros w i Hi. destruct (decide (w = v)) as [->|Hne].
      * exists ni. rewrite lookup_insert_eq. simplify_eq. split_and!; try done. congruence.
      * exists i. rewrite lookup_insert_ne by done. split_and!; try done. apply better_refl.
    + intros i'. rewrite lookup_insert_eq. intros [= <-] _. split; [apply cle_refl|]. intros _. cbn. rewrite Hvia. apply strle_refl.
  - exists nodes. split_and!; [done..|apply improves_refl|]. intros i' Hi' _. simplify_eq.
    apply orb_false_iff in Ecmp as [Ecmp Es]. split; [done|]. fold newCost. intros E.
    by rewrite (proj2 (ceqb_eq newCost (icost ti) Hcn (infoOk_cok _ _ (no_info _ Hok _ _ Hti))) (eq_sym E)) in Es.
Qed.

Lemma relaxAll_spec u nbrs mi : Edges g !! u = Some nbrs -> walk g source u (ipath mi) (icost mi) -> ivisited mi = true ->
  forall order nodes, (forall v, v ∈ order -> is_Some (nbrs !! v)) -> nodesOk nodes -> nodes !! u = Some mi ->
  exists nodes', relaxAll source u nbrs order nodes = Some nodes' /\ nodesOk nodes' /\ improves nodes nodes' /\
    (forall v ls i', v ∈ order -> nbrs !! v = Some ls -> nodes' !! v = Some i' -> ivisited i' = false ->
      reached u mi v ls i').
Proof.
  intros Hu Hw Hvis. induction order as [|v order IH]; intros nodes Hord Hok Hmi; cbn [relaxAll].
  { exists nodes. split_and!; [done..|apply improves_refl|]. intros v ls i' Hv. by apply elem_of_nil in Hv. }
  destruct (Hord v) as [ls Hls]; [left|]. rewrite Hls. change (default [] (Some ls)) with ls.
  assert (Hl : linksOf g u v = Some ls) by (unfold linksOf; by rewrite Hu).
  destruct (relax_spec u mi nodes v ls Hok Hmi Hvis Hw Hl) as (n1 & -> & Hok1 & Him1 & Hv1).
  destruct (Him1 u mi Hmi) as (mi' & Hmi' & _ & _ & He). rewrite (He Hvis) in Hmi'.
  destruct (IH n1 ltac:(intros w Hw'; apply Hord; by right) Hok1 Hmi') as (n2 & -> & Hok2 & Him2 & Hv2).
  exists n2. split_and!; [done|done|exact (improves_trans _ _ _ Him1 Him2)|].
  intros w lw i' Hwin Hlw Hi' Hnv. apply elem_of_cons in Hwin as [->|Hwin]; [|by eapply Hv2].
  destruct (proj2 (no_dom _ Hok1 v)) as [i1 Hi1]; [by apply (no_dom _ Hok2); eexists|].
  destruct (Him2 _ _ Hi1) as (i2 & Hi2 & Hvv & Hle & _). simplify_eq.
  eapply reached_better; [done|apply Hv1; [done|congruence]|by eapply infoOk_cok, (no_info n1)|by eapply infoOk_cok, (no_info n2)].
Qed.

(** The minimum of the nodes seen so far. *)
Definition minInv nodes (seen : list string) (acc : string * C) : Prop :=
  (acc = (""%string, cinf) \/ exists i, nodes !! acc.1 = Some i /\ ivisited i = false /\ icost i = acc.2 /\ cltb acc.2 cinf = true) /\
  forall v i, v ∈ seen -> nodes !! v = Some i -> ivisited i = false -> cle acc.2 (icost i).

Lemma findMin_spec nodes order : nodesOk nodes -> minInv nodes order (findMin nodes order).
Proof.
  intros Hok. unfold findMin.
  assert (Hgen : forall l seen acc, cok acc.2 -> minInv nodes seen acc ->
    minInv nodes (seen ++ l) (foldl (minStep nodes) acc l)).
  { induction l as [|v l IH]; intros seen acc Hacc Hinv; [by rewrite app_nil_r|]. cbn [foldl].
    replace (seen ++ v :: l) with ((seen ++ [v]) ++ l) by by rewrite <- app_assoc.
    destruct Hinv as [Hsel Hmin]. unfold minStep at 2.
    assert (Hkeep : (forall i, nodes !! v = Some i -> ivisited i = false -> cle acc.2 (icost i)) ->
      minInv nodes (seen ++ [v]) acc).
    { intros Hv. split; [done|]. intros w i Hw Hi. apply elem_of_app in Hw as [Hw|Hw]; [by apply (Hmin w)|].
      apply list_elem_of_singleton in Hw as ->. by apply Hv. }
    destruct (nodes !! v) as [i|] eqn:Ei; [|apply IH; [done|]; by apply Hkeep].
    destruct (ivisited i) eqn:Evis; cbn [negb andb].
    { apply IH; [done|]. apply Hkeep. intros i' [= <-]. congruence. }
    pose proof (infoOk_cok _ _ (no_info _ Hok _ _ Ei)) as Hci.
    destruct (cltb (icost i) acc.2) eqn:Elt.
    2: { apply IH; [done|]. apply Hkeep. by intros i' [= <-] _. }
    apply IH; [done|]. split.
    - right. exists i. cbn. split_and!; try done. destruct Hsel as [->|(j & _ & _ & _ & Hlt)]; [done|].
      by eapply clt_trans.
    - cbn. intros w j Hw Hj Hnv. apply elem_of_app in Hw as [Hw|Hw].
      + apply (cle_trans _ acc.2); [done|done|by apply clt_cle|by eapply Hmin].
      + apply list_elem_of_singleton in Hw as ->. simplify_eq. apply cle_refl. }
  apply (Hgen order [] (""%string, cinf)); [apply cok_inf|]. split; [by left|].
  intros v i Hv. by apply elem_of_nil in Hv.
Qed.

(** ** The invariant of the loop *)

Record searchInv nodes : Prop := {
  sv_ok : nodesOk nodes;
  sv_opt v i : nodes !! v = Some i -> ivisited i = true -> forall p c, walk g source v p c -> cle (icost i) c;
  sv_edge u v iu iv ls : nodes !! u = Some iu -> nodes !! v = Some iv -> ivisited iu = true -> ivisited iv = false ->
    linksOf g u v = Some ls -> reached u iu v ls iv
}.

(** Before an unvisited node is reached, the walk leaves the visited ones. *)
Lemma frontier nodes v p c : searchInv nodes -> walk g source v p c ->
  forall i, nodes !! v = Some i -> ivisited i = false ->
  exists y iy, nodes !! y = Some iy /\ ivisited iy = false /\ cle (icost iy) c.
Proof.
  intros Hinv. induction 1 as [|u p c v ls Hw IH Hls]; intros i Hi Hnv.
  - exists source, i. split_and!; [done..|]. destruct (no_info _ (sv_ok _ Hinv) _ _ Hi) as [(_ & _ & _ & ?)|[_ Hh]]; [done|].
    unfold hopOk in Hh. rewrite decide_True in Hh by done. destruct Hh as (_ & _ & ->). apply cle_refl.
  - destruct (walk_ok _ _ _ Hw) as (Hcok & _ & Hun).
    destruct (wf_edge Hwf _ _ _ Hls) as [_ Hus]. pose proof (minCost_ok _ Hus) as Hm.
    destruct (proj2 (no_dom _ (sv_ok _ Hinv) u) Hun) as [iu Hiu].
    pose proof (infoOk_cok _ _ (no_info _ (sv_ok _ Hinv) _ _ Hiu)) as Hcu.
    destruct (ivisited iu) eqn:Evis.
    + exists v, i. split_and!; [done..|]. pose proof (infoOk_cok _ _ (no_info _ (sv_ok _ Hinv) _ _ Hi)).
      apply (cle_trans _ (cstep (icost iu) (minCost ls))); [done|by apply cok_step|by eapply (sv_edge _ Hinv)|].
      apply cstep_mono; [done..|]. by eapply sv_opt.
    + destruct (IH iu Hiu Evis) as (y & iy & Hy & Hny & Hle). exists y, iy. split_and!; [done..|].
      apply (cle_trans _ c); [by eapply infoOk_cok, no_info, Hy; apply Hinv|done|done|by apply cstep_infl].
Qed.

Definition unvisited nodes : gset string := filter (fun v => ivisited <$> nodes !! v = Some false) (Nodes g).

Definition mark nodes (u : string) (mi : nodeInfo C) : gmap string (nodeInfo C) :=
  <[u := mkInfo (icost mi) (inext mi) (inic mi) (ipath mi) true]> nodes.

Lemma mark_ok nodes u mi : nodesOk nodes -> nodes !! u = Some mi -> cltb (icost mi) cinf = true ->
  walk g source u (ipath mi) (icost mi) /\ nodesOk (mark nodes u mi).
Proof.
  intros Hok Hmi Hlt. destruct (no_info _ Hok _ _ Hmi) as [(Hc & _)|[Hw Hh]].
  { by rewrite Hc, clt_irrefl in Hlt. }
  split; [done|]. unfold mark. constructor.
  - intros v. rewrite lookup_insert_is_Some'. rewrite (no_dom _ Hok v).
    assert (u ∈ Nodes g) by (apply (no_dom _ Hok); by eexists). naive_solver.
  - intros v i. rewrite lookup_insert_Some. intros [[<- <-]|[Hne Hi]]; [|by apply (no_info _ Hok)]. right. done.
Qed.

(** A round that visits [u]: a cheapest unvisited node, whose edges are relaxed. *)
Record visits nodes (u : string) mi nodes' : Prop := {
  vs_node : nodes !! u = Some mi;
  vs_new : ivisited mi = false;
  vs_finite : cltb (icost mi) cinf = true;
  vs_least v i : nodes !! v = Some i -> ivisited i = false -> cle (icost mi) (icost i);
  vs_ok : nodesOk nodes';
  vs_improves : improves (mark nodes u mi) nodes';
  vs_reached v ls i' : linksOf g u v = Some ls -> nodes' !! v = Some i' -> ivisited i' = false -> reached u mi v ls i'
}.

Lemma visit_exists nodes u mi nord : nodesOk nodes -> nodes !! u = Some mi -> ivisited mi = false ->
  cltb (icost mi) cinf = true ->
  (forall v i, nodes !! v = Some i -> ivisited i = false -> cle (icost mi) (icost i)) ->
  (forall nbrs, Edges g !! u = Some nbrs -> nord ≡ₚ map fst (map_to_list nbrs)) ->
  exists nodes', relaxAll source u (default ∅ (Edges g !! u)) (match Edges g !! u with Some _ => nord | None => [] end)
      (mark nodes u mi) = Some nodes' /\ visits nodes u mi nodes'.
Proof.
  intros Hok Hmi Hnv Hlt Hmin Hnord. destruct (mark_ok nodes u mi Hok Hmi Hlt) as [Hw Hok1].
  set (mi1 := mkInfo (icost mi) (inext mi) (inic mi) (ipath mi) true).
  assert (Hmi1 : mark nodes u mi !! u = Some mi1) by apply lookup_insert_eq.
  destruct (Edges g !! u) as [nbrs|] eqn:Eu.
  - destruct (relaxAll_spec u nbrs mi1 Eu Hw eq_refl nord (mark nodes u mi)) as (n' & H1 & H2 & H3 & H4); try done.
    + intros v. rewrite (Hnord _ eq_refl). intros Hv. apply list_elem_of_fmap in Hv as ([v' ls] & -> & Hv).
      apply elem_of_map_to_list in Hv. by eexists.
    + exists n'. split; [done|]. constructor; try done. intros v ls i'. unfold linksOf. rewrite Eu. cbn. intros Hls.
      apply H4; [|done]. rewrite (Hnord _ eq_refl). apply list_elem_of_fmap. exists (v, ls).
      split; [done|]. by apply elem_of_map_to_list.
  - exists (mark nodes u mi). split; [done|]. constructor; try done; [apply improves_refl|].
    intros v ls i'. unfold linksOf. by rewrite Eu.
Qed.

(** What a round leaves: the node visited now, what was visited before, and
    improved versions of the rest. *)
Lemma visit_back nodes u mi nodes' v i' : nodesOk nodes -> visits nodes u mi nodes' -> nodes' !! v = Some i' ->
  (v = u /\ i' = mkInfo (icost mi) (inext mi) (inic mi) (ipath mi) true) \/
  (v <> u /\ ivisited i' = true /\ nodes !! v = Some i') \/
  (v <> u /\ ivisited i' = false /\ exists i, nodes !! v = Some i /\ ivisited i = false /\ better i' i).
Proof.
  intros Hok [Hmi Hnv Hlt Hmin Hok' Himp Hre] Hi'. destruct (mark_ok nodes u mi Hok Hmi Hlt) as [_ Hok1].
  destruct (proj2 (no_dom _ Hok1 v)) as [i1 Hi1]; [by apply (no_dom _ Hok'); eexists|].
  destruct (Himp _ _ Hi1) as (i2 & Hi2 & Hvv & Hb & He). rewrite Hi' in Hi2. injection Hi2 as <-.
  unfold mark in Hi1. rewrite lookup_insert_Some in Hi1. destruct Hi1 as [[-> <-]|[Hne Hi1]].
  - left. split; [done|]. by apply He.
  - right. destruct (ivisited i1) eqn:E; [left|right].
    + rewrite (He eq_refl) in *. done.
    + split_and!; [done|congruence|]. by exists i1.
Qed.

Lemma visit_opt nodes u mi nodes' : searchInv nodes -> visits nodes u mi nodes' ->
  forall p c, walk g source u p c -> cle (icost mi) c.
Proof.
  intros Hinv [Hmi Hnv Hlt Hmin _ _ _] p c Hwc. pose proof (sv_ok _ Hinv) as Hok.
  destruct (frontier nodes u p c Hinv Hwc mi Hmi Hnv) as (y & iy & Hy & Hny & Hle).
  apply (cle_trans _ (icost iy)); [by eapply infoOk_cok, (no_info nodes)|by eapply infoOk_cok, (no_info nodes)| |done].
  by apply (Hmin y).
Qed.

Lemma visit_inv nodes u mi nodes' : searchInv nodes -> visits nodes u mi nodes' -> searchInv nodes'.
Proof.
  intros Hinv Hvis. pose proof (sv_ok _ Hinv) as Hok. pose proof Hvis as [Hmi Hnv Hlt Hmin Hok' Himp Hre].
  constructor; [done| |].
  - intros v i Hi Hv p c Hwc. destruct (visit_back _ _ _ _ v i Hok Hvis Hi) as [[-> ->]|[(_ & _ & Hi0)|(_ & ? & _)]].
    + exact (visit_opt _ _ _ _ Hinv Hvis p c Hwc).
    + by eapply (sv_opt _ Hinv).
    + congruence.
  - intros u' v iu iv ls Hiu Hiv Hvu Hvv Hls.
    destruct (visit_back _ _ _ _ v iv Hok Hvis Hiv) as [[-> ->]|[(_ & ? & _)|(_ & _ & i & Hi & Hni & Hb)]];
      [done|congruence|].
    destruct (visit_back _ _ _ _ u' iu Hok Hvis Hiu) as [[-> ->]|[(_ & _ & Hiu0)|(_ & ? & _)]]; [|eapply reached_better; [done|..]|congruence].
    + exact (Hre v ls iv Hls Hiv Hvv).
    + exact (sv_edge _ Hinv u' v iu i ls Hiu0 Hi Hvu Hni Hls).
    + by eapply infoOk_cok, (no_info nodes).
    + by eapply infoOk_cok, (no_info nodes').
Qed.

Lemma visit_shrinks nodes u mi nodes' : nodesOk nodes -> visits nodes u mi nodes' -> unvisited nodes' ⊂ unvisited nodes.
Proof.
  intros Hok Hvis. assert (Hsub : unvisited nodes' ⊆ unvisited nodes ∖ {[u]}).
  { intros v. unfold unvisited. rewrite elem_of_difference, !elem_of_filter, elem_of_singleton.
    intros [Hv Hin]. destruct (nodes' !! v) as [i'|] eqn:Hi'; [|done]. injection Hv as Hv.
    destruct (visit_back _ _ _ _ v i' Hok Hvis Hi') as [[-> ->]|[(_ & ? & _)|(Hne & _ & i & Hi & Hni & _)]]; [done|congruence|].
    rewrite Hi. cbn. by rewrite Hni. }
  assert (u ∈ unvisited nodes).
  { destruct Hvis as [Hmi Hnv _ _ _ _ _]. unfold unvisited. rewrite elem_of_filter, Hmi. cbn.
    split; [congruence|]. apply (no_dom _ Hok). by eexists. }
  set_solver.
Qed.

(** The orders of the ranges are those of the maps. *)
Definition rangesOf (ord : nat -> list string) (nord : string -> list string) : Prop :=
  (forall n, ord n ≡ₚ elements (Nodes g)) /\
  (forall u nbrs, Edges g !! u = Some nbrs -> nord u ≡ₚ map fst (map_to_list nbrs)).

(** Any property [Q] the rounds preserve holds at the end. *)
Lemma search_spec ord nord (Q : gmap string (nodeInfo C) -> Prop) : rangesOf ord nord ->
  (forall nodes u mi nodes', searchInv nodes -> Q nodes -> visits nodes u mi nodes' -> Q nodes') ->
  forall fuel nodes, searchInv nodes -> Q nodes -> (size (unvisited nodes) < fuel)%nat ->
  exists nodes', search fuel g source ord nord nodes = Done nodes' /\ searchInv nodes' /\ Q nodes' /\
    forall v i, nodes' !! v = Some i -> ivisited i = false -> cle cinf (icost i).
Proof.
  intros [Hord Hnord] HQ. induction fuel as [|fuel IH]; intros nodes Hinv Hq Hf; [lia|]. cbn [search].
  pose proof (sv_ok _ Hinv) as Hok. destruct (findMin_spec nodes (ord fuel) Hok) as [Hsel Hmin].
  assert (Hcov : forall v i, nodes !! v = Some i -> v ∈ ord fuel).
  { intros v i Hi. rewrite Hord. apply elem_of_elements, (no_dom _ Hok). by eexists. }
  destruct (findMin nodes (ord fuel)) as [u c]. cbn [fst snd] in *. destruct Hsel as [[= -> ->]|(mi & Hmi & Hnv & <- & Hlt)].
  { rewrite bool_decide_eq_true_2 by done. exists nodes. split_and!; [done..|]. intros v i Hi. apply Hmin with (v := v); eauto. }
  assert (Hu : u ∈ Nodes g) by (apply (no_dom _ Hok); by eexists).
  rewrite bool_decide_eq_false_2 by (intros ->; by apply (wf_named Hwf)). rewrite Hlt. cbn [orb negb]. rewrite Hmi.
  destruct (visit_exists nodes u mi (nord u) Hok Hmi Hnv Hlt) as (nodes' & Hr & Hvis); [|by auto|].
  { intros v i Hi. apply (Hmin v); eauto. }
  fold (mark nodes u mi). rewrite Hr. apply IH; [by eapply visit_inv|by eapply HQ|].
  apply visit_shrinks, subset_size in Hvis; [lia|done].
Qed.

Lemma init_inv : exists i0, initNodes g !! source = Some i0 /\
  let nodes := <[source := mkInfo czero (inext i0) (inic i0) (ipath i0) (ivisited i0)]> (initNodes g) in
  searchInv nodes /\ forall v i, nodes !! v = Some i -> ivisited i = false.
Proof.
  assert (Hlook : forall v, initNodes g !! v = if decide (v ∈ Nodes g) then Some (mkInfo cinf ""%string None [] false) else None).
  { intros v. unfold initNodes. destruct (decide (v ∈ Nodes g)); [by apply lookup_gset_to_gmap_Some|by apply lookup_gset_to_gmap_None]. }
  eexists. rewrite Hlook, decide_True by apply Hwf. split; [done|]. cbn [inext inic ipath ivisited].
  assert (Hfresh : forall v i, <[source := mkInfo czero ""%string None [] false]> (initNodes g) !! v = Some i -> ivisited i = false).
  { intros v i. rewrite lookup_insert_Some, Hlook. intros [[_ <-]|[_ Hi]]; [done|].
    by destruct (decide _); simplify_eq. }
  split; [|done]. constructor; [constructor| |].
  - intros v. rewrite lookup_insert_is_Some', Hlook. pose proof (wf_source Hwf).
    destruct (decide (v ∈ Nodes g)); split; intros Hx; try done; [by right|destruct Hx as [<-|[? ?]]; done].
  - intros v i. rewrite lookup_insert_Some, Hlook. intros [[<- <-]|[Hne Hi]].
    + right. split; [constructor|]. unfold hopOk. by rewrite decide_True.
    + left. destruct (decide _); simplify_eq. done.
  - intros v i Hi Hv. apply Hfresh in Hi. congruence.
  - intros u v iu iv ls Hi _ Hv. apply Hfresh in Hi. congruence.
Qed.

(** The search from its start to its end. *)
Lemma dijkstra_run ord nord (Q : gmap string (nodeInfo C) -> Prop) : rangesOf ord nord ->
  (forall nodes, (forall v i, nodes !! v = Some i -> ivisited i = false) -> Q nodes) ->
  (forall nodes u mi nodes', searchInv nodes -> Q nodes -> visits nodes u mi nodes' -> Q nodes') ->
  exists nodes, dijkstra g source ord nord = Done (resultOf source nodes) /\ searchInv nodes /\ Q nodes /\
  forall v i, nodes !! v = Some i -> ivisited i = false -> cle cinf (icost i).
Proof.
  intros Hr HQ0 HQ. destruct init_inv as (i0 & Hi0 & Hinv & Hfresh). unfold dijkstra. rewrite Hi0.
  destruct (search_spec ord nord Q Hr HQ (S (size (Nodes g))) _ Hinv (HQ0 _ Hfresh)) as (nodes & -> & Hn & Hend); [|by exists nodes].
  unfold unvisited. apply Nat.lt_succ_r, subseteq_size. intros v. rewrite elem_of_filter. by intros [_ ?].
Qed.

Lemma resultOf_spec nodes v : nodesOk nodes -> v <> source -> v ∈ Nodes g ->
  exists i, nodes !! v = Some i /\
    resultOf source nodes !! v =
      if cltb (icost i) cinf then Some (mkPath (inext i) (inic i) (icost i) (ipath i)) else None.
Proof.
  intros Hok Hne Hv. destruct (proj2 (no_dom _ Hok v) Hv) as [i Hi]. exists i. split; [done|].
  unfold resultOf. by rewrite lookup_omap, lookup_delete_ne, Hi by done.
Qed.

End Correct.

(** ** What the search promises *)

Section Claims.
Context {C : Type} `{CostLaws C}.

(** The specification of the search: a node is in [r] when some walk from the source
    costs less than infinity; its path is a walk of the cost given, no walk is cheaper,
    the next hop is the first node of the path, and the interface is that of the
    cheapest direct link to it. *)
Definition shortestPaths (g : TopologyGraph C) (source : string) (r : gmap string (dijkstraResult C)) : Prop :=
  r !! source = None /\ forall v, v <> source ->
    match r !! v with
    | Some d =>
        walk g source v (Path d) (Cost d) /\ cltb (Cost d) cinf = true /\
        (forall p c, walk g source v p c -> cle (Cost d) c) /\
        hd_error (Path d) = Some (NextHop d) /\
        exists ls c b, linksOf g source (NextHop d) = Some ls /\ bestLink cinf None ls = Some (c, Some b) /\
          LinkNIC d = lNIC b
    | None => forall p c, walk g source v p c -> cle cinf c
    end.

Lemma dijkstra_spec (g : TopologyGraph C) source ord nord : wfGraph g source -> rangesOf g ord nord ->
  exists r, dijkstra g source ord nord = Done r /\ shortestPaths g source r.
Proof.
  intros Hwf Hr. destruct (dijkstra_run g source Hwf ord nord (fun _ => True) Hr) as (nodes & -> & Hinv & _ & Hend); [done..|].
  exists (resultOf source nodes). pose proof (sv_ok _ _ _ Hinv) as Hok. split; [done|split].
  { unfold resultOf. by rewrite lookup_omap, lookup_delete_eq. }
  intros v Hne. destruct (decide (v ∈ Nodes g)) as [Hv|Hv].
  2: { assert (Hno : resultOf source nodes !! v = None).
       { unfold resultOf. rewrite lookup_omap, lookup_delete_ne by done. destruct (nodes !! v) eqn:E; [|done].
         destruct Hv. apply (no_dom _ _ _ Hok). by eexists. }
       rewrite Hno. intros p c Hw. by apply walk_ok in Hw as (_ & _ & ?). }
  destruct (resultOf_spec g source nodes v Hok Hne Hv) as (i & Hi & ->).
  destruct (no_info _ _ _ Hok _ _ Hi) as [(Hc & Hnv & _)|[Hw Hh]].
  - rewrite Hc, clt_irrefl. intros p c Hw.
    destruct (frontier g source Hwf nodes v p c Hinv Hw i Hi Hnv) as (y & iy & Hy & Hny & Hle).
    apply (cle_trans _ (icost iy)); [apply cok_inf|by eapply infoOk_cok, (no_info _ _ _ Hok)|by eapply Hend|done].
  - destruct (cltb (icost i) cinf) eqn:Elt.
    + cbn [Path Cost NextHop LinkNIC]. unfold hopOk in Hh. rewrite decide_False in Hh by done. destruct Hh as [Hhd Hnic].
      split_and!; [done..| |done|done]. apply (sv_opt _ _ _ Hinv v i Hi). destruct (ivisited i) eqn:E; [done|].
      apply (Hend _ _ Hi) in E. unfold cle in E. congruence.
    + intros p c Hwc. destruct (ivisited i) eqn:E.
      * apply (cle_trans _ (icost i)); [apply cok_inf|by eapply infoOk_cok, (no_info _ _ _ Hok)|done|].
        by eapply (sv_opt _ _ _ Hinv).
      * destruct (frontier g source Hwf nodes v p c Hinv Hwc i Hi E) as (y & iy & Hy & Hny & Hle).
        apply (cle_trans _ (icost iy)); [apply cok_inf|by eapply infoOk_cok, (no_info _ _ _ Hok)|by eapply Hend|done].
Qed.

(** C3: the search terminates without a panic on every graph with named nodes whose
    links cost less than its infinity, whatever order its maps are ranged in, and what
    it returns are the shortest paths. *)
Theorem dijkstra_optimal (g : TopologyGraph C) source ord nord : wfGraph g source -> rangesOf g ord nord ->
  exists r, dijkstra g source ord nord = Done r /\ shortestPaths g source r.
Proof. exact (dijkstra_spec g source ord nord). Qed.

End Claims.

(** ** The result does not depend on the orders of the maps *)

Section Deterministic.
Context {C : Type} `{StrictCost C}.
Variable g : TopologyGraph C.
Variable source : string.
Hypothesis Hwf : wfGraph g source.
Implicit Types (nodes : gmap string (nodeInfo C)) (i : nodeInfo C).

(** A visited node's next hop is the first of those its cheapest walks start with. *)
Definition nextInv nodes : Prop := forall v i, nodes !! v = Some i -> ivisited i = true -> v <> source ->
  forall p h, walk g source v p (icost i) -> hd_error p = Some h -> strle (inext i) h.

Lemma walk_positive v p c : walk g source v p c -> p <> [] -> cltb czero c = true.
Proof.
  destruct 1 as [|u p c v ls Hw Hls]; [done|]. intros _. destruct (walk_ok g source Hwf _ _ _ Hw) as (Hc & Hz & _).
  destruct (wf_edge _ _ Hwf _ _ _ Hls) as [_ Hu]. eapply cle_lt_trans; [apply cok_zero|exact Hc|done|].
  apply cstep_infl_strict; [done|by apply minCost_ok].
Qed.

(** The last hop of a cheapest walk starts at a visited node, at its own cost. *)
Lemma cheapest_pred nodes u mi nodes' x px cx ls : searchInv g source nodes -> visits g source nodes u mi nodes' ->
  walk g source x px cx -> linksOf g x u = Some ls -> icost mi = cstep cx (minCost ls) ->
  exists ix, nodes !! x = Some ix /\ ivisited ix = true /\ icost ix = cx /\ reached source x ix u ls mi.
Proof.
  intros Hinv [Hmi Hnv Hlt Hmin _ _ _] Hw Hls Hc. pose proof (sv_ok _ _ _ Hinv) as Hok.
  destruct (walk_ok g source Hwf _ _ _ Hw) as (Hcx & _ & Hx). destruct (wf_edge _ _ Hwf _ _ _ Hls) as [_ Hu].
  pose proof (minCost_ok _ Hu) as Hm. pose proof (cstep_infl_strict cx _ Hcx Hm) as Hstrict. rewrite <- Hc in Hstrict.
  destruct (proj2 (no_dom _ _ _ Hok x) Hx) as [ix Hix]. exists ix.
  pose proof (infoOk_cok g source Hwf _ _ (no_info _ _ _ Hok _ _ Hix)) as Hcix.
  destruct (ivisited ix) eqn:Ev.
  - pose proof (sv_edge _ _ _ Hinv x u ix mi ls Hix Hmi Ev Hnv Hls) as Hr. split_and!; try done.
    destruct (cle_or_lt cx (icost ix)) as [Hle|Hl].
    { apply cle_antisym; try done. by eapply (sv_opt _ _ _ Hinv). }
    pose proof (cstep_mono_strict _ _ _ Hcix Hcx Hm Hl) as Hs. rewrite <- Hc in Hs.
    destruct Hr as [Hr _]. unfold cle in Hr. congruence.
  - destruct (frontier g source Hwf nodes x px cx Hinv Hw ix Hix Ev) as (y & iy & Hy & Hny & Hle).
    assert (Hyok : cok (icost iy)) by by eapply infoOk_cok, (no_info _ _ nodes).
    pose proof (cle_lt_trans _ _ _ Hyok Hcx Hle Hstrict) as Hbad. specialize (Hmin y iy Hy Hny). unfold cle in Hmin. congruence.
Qed.

Lemma visit_next nodes u mi nodes' : searchInv g source nodes -> nextInv nodes -> visits g source nodes u mi nodes' ->
  nextInv nodes'.
Proof.
  intros Hinv Hnext Hvis v i Hi Hv Hne p h Hw Hh. pose proof (sv_ok _ _ _ Hinv) as Hok.
  destruct (visit_back _ _ _ _ _ _ v i Hok Hvis Hi) as [[-> ->]|[(_ & _ & Hi0)|(_ & ? & _)]]; [|by eapply Hnext|congruence].
  cbn [icost inext] in *. inversion Hw as [|x px cx u' ls Hwx Hls Hu' Hp Hc]; subst; [done|]. 
  destruct (cheapest_pred nodes u mi nodes' x px cx ls Hinv Hvis Hwx Hls) as (ix & Hix & Hvx & Hcx & Hr); [done|].
  destruct Hr as [_ Hr]. rewrite Hcx in Hr. specialize (Hr ltac:(done)). unfold via in Hr.
  destruct (decide (x = source)) as [->|Hxs].
  - destruct (decide (px = [])) as [->|Hpx]; [by simplify_eq/=|].
    pose proof (walk_positive _ _ _ Hwx Hpx) as Hpos. exfalso.
    destruct (no_info _ _ _ Hok _ _ Hix) as [(_ & Hx & _)|[_ Hho]]; [congruence|].
    unfold hopOk in Hho. rewrite decide_True in Hho by done. destruct Hho as (_ & _ & Hz).
    rewrite <- Hcx, Hz, clt_irrefl in Hpos. done.
  - eapply strle_trans; [exact Hr|]. apply (Hnext x ix Hix Hvx Hxs px); [by rewrite Hcx|].
    destruct px; [by apply walk_nil in Hwx as [? _]|done].
Qed.

(** The result is the least next hop over the cheapest walks. *)
Lemma dijkstra_next ord nord r v d : rangesOf g ord nord -> dijkstra g source ord nord = Done r -> v <> source ->
  r !! v = Some d -> forall p h, walk g source v p (Cost d) -> hd_error p = Some h -> strle (NextHop d) h.
Proof.
  intros Hr Hd Hne Hv.
  destruct (dijkstra_run g source Hwf ord nord nextInv Hr) as (nodes & Hrun & Hinv & Hnext & Hend).
  { intros nodes Hf w i Hi Hvis. apply Hf in Hi. congruence. }
  { intros. by eapply visit_next. }
  rewrite Hd in Hrun. injection Hrun as ->. pose proof (sv_ok _ _ _ Hinv) as Hok.
  unfold resultOf in Hv. rewrite lookup_omap, lookup_delete_ne in Hv by done.
  destruct (nodes !! v) as [i|] eqn:Hi; [|done]. cbn in Hv. destruct (cltb (icost i) cinf) eqn:E; [|done].
  injection Hv as <-. cbn [NextHop Cost]. apply (Hnext v i Hi); [|done].
  destruct (ivisited i) eqn:Ev; [done|]. apply (Hend _ _ Hi) in Ev. unfold cle in Ev. congruence.
Qed.

End Deterministic.

(** Non-negative float64 costs satisfy the laws: rounding keeps the order. *)
#[export] Program Instance float_CostLaws : CostLaws float64 := {| cok := nonneg |}.
Next Obligation. done. Qed.
Next Obligation. split; vm_compute; done. Qed.
Next Obligation.
  intros a l Ha Hl. unfold cstep. cbn [cadd chop float_CostOps].
  apply fadd_spec; [by apply fadd_spec|split; vm_compute; done].
Qed.
Next Obligation.
  intros a. cbn. unfold flt, SpecFloat.SFltb, SpecFloat.SFcompare.
  destruct a as [[]|[]| |[] m e]; try done; rewrite Z.compare_refl; change (Pos.compare_cont Eq m m) with (Pos.compare m m);
    by rewrite Pos.compare_refl.
Qed.
Next Obligation. intros a b c Hab Hbc. cbn in *. by eapply fle_flt_trans; [apply flt_fle|]. Qed.
Next Obligation.
  cbn. intros a b Ha Hb H1 H2. apply flt_false_value in H1, H2; [|done..]. apply value_inj; [done..|].
  destruct (value a), (value b); cbn in *; try done. f_equal. lia.
Qed.
Next Obligation.
  cbn. intros a b Ha Hb. split.
  - unfold nonneg in *. destruct a as [[]|[]| |[] m e], b as [[]|[]| |[] m' e']; cbn; try done; try naive_solver.
    destruct (Z.compare_spec e e'); try done. change (Pos.compare_cont Eq m m') with (Pos.compare m m').
    destruct (Pos.compare_spec m m'); naive_solver.
  - intros <-. destruct a as [[]|[]| |[] m e]; cbn in *; try done; rewrite Z.compare_refl;
      change (Pos.compare_cont Eq m m) with (Pos.compare m m); by rewrite Pos.compare_refl.
Qed.
Next Obligation.
  intros a l Ha Hl. unfold cstep. cbn [cadd cltb chop float_CostOps].
  destruct (fadd_spec a l Ha Hl) as [H1 _]. assert (H5 : nonneg (f64 5)) by (split; vm_compute; done).
  destruct (fadd_spec _ _ H1 H5) as [H2 _]. pose proof (fadd_infl a l Ha Hl) as I1. pose proof (fadd_infl _ _ H1 H5) as I2.
  apply flt_false_value in I1, I2; [|done..]. apply flt_false_value; [done..|].
  destruct (value a), (value (fadd a l)), (value (fadd (fadd a l) (f64 5))); cbn in *; lia || done.
Qed.
Next Obligation.
  intros a b l Ha Hb Hl Hle. unfold cstep. cbn [cadd cltb chop float_CostOps] in *.
  apply fadd_mono; [by apply fadd_spec|by apply fadd_spec|split; vm_compute; done|by apply fadd_mono].
Qed.

(** Costs in whole milliseconds. *)
#[export] Instance Z_CostOps : CostOps Z := {|
  czero := 0; cadd := Z.add; cltb := Z.ltb; ceqb := Z.eqb; cinf := 1000000000000000000; chop := 5 |}.

#[export] Program Instance Z_CostLaws : CostLaws Z := {| cok := fun c => 0 <= c |}.
Solve Obligations with (unfold cstep; cbn; intros; try lia).

#[export] Program Instance Z_StrictCost : StrictCost Z.
Solve Obligations with (unfold cstep; cbn; intros; lia).

Section Promises.
Context {C : Type} `{StrictCost C}.

(** Although the search ranges over Go maps, whose order changes from run to run,
    its answer does not: two searches of one graph give every node the same cost, the
    same next hop (the first in string order among those of the cheapest walks) and
    the same interface. *)
Theorem dijkstra_deterministic (g : TopologyGraph C) source ord1 nord1 ord2 nord2 : wfGraph g source ->
  rangesOf g ord1 nord1 -> rangesOf g ord2 nord2 ->
  exists r1 r2, dijkstra g source ord1 nord1 = Done r1 /\ dijkstra g source ord2 nord2 = Done r2 /\
    forall v, (fun d => (Cost d, NextHop d, LinkNIC d)) <$> r1 !! v = (fun d => (Cost d, NextHop d, LinkNIC d)) <$> r2 !! v.
Proof.
  intros Hwf R1 R2.
  destruct (dijkstra_spec g source ord1 nord1 Hwf R1) as (r1 & E1 & S1 & P1).
  destruct (dijkstra_spec g source ord2 nord2 Hwf R2) as (r2 & E2 & S2 & P2).
  exists r1, r2. split_and!; [done..|]. intros v. destruct (decide (v = source)) as [->|Hne]; [by rewrite S1, S2|].
  specialize (P1 v Hne). specialize (P2 v Hne).
  destruct (r1 !! v) as [d1|] eqn:D1, (r2 !! v) as [d2|] eqn:D2; cbn.
  - destruct P1 as (W1 & _ & O1 & N1 & ls1 & c1 & b1 & L1 & B1 & I1), P2 as (W2 & _ & O2 & N2 & ls2 & c2 & b2 & L2 & B2 & I2).
    destruct (walk_ok g source Hwf _ _ _ W1) as (K1 & _). destruct (walk_ok g source Hwf _ _ _ W2) as (K2 & _).
    assert (Hc : Cost d1 = Cost d2) by (apply cle_antisym; eauto).
    assert (Hn : NextHop d1 = NextHop d2).
    { apply strle_antisym.
      - eapply (dijkstra_next g source Hwf ord1 nord1 r1 v d1 R1 E1 Hne D1); [by rewrite Hc|done].
      - eapply (dijkstra_next g source Hwf ord2 nord2 r2 v d2 R2 E2 Hne D2); [by rewrite <- Hc|done]. }
    rewrite Hn, L2 in L1. injection L1 as ->. rewrite B2 in B1. injection B1 as -> ->. by rewrite Hc, Hn, I1, I2.
  - destruct P1 as (W1 & F1 & _). apply P2 in W1. unfold cle in W1. congruence.
  - destruct P2 as (W2 & F2 & _). apply P1 in W2. unfold cle in W2. congruence.
  - done.
Qed.

End Promises.

(** ** Re-evaluation agrees with the search *)

Section PathCost.
Context {C : Type} `{CostLaws C}.
Hypothesis cadd_assoc : forall a b c : C, cadd a (cadd b c) = cadd (cadd a b) c.
Variable g : TopologyGraph C.
Variable source : string.
Hypothesis Hwf : wfGraph g source.

(** The links of a hop the path re-evaluation finds. *)
Lemma hop_links u v ls : linksOf g u v = Some ls ->
  default [] (default ∅ (Edges g !! u) !! v) = ls /\ exists l ls', ls = l :: ls' /\ minCost ls = minFrom (lCost l) ls'.
Proof.
  intros Hls. destruct (wf_edge _ _ Hwf _ _ _ Hls) as [_ [Hne Hu]]. unfold linksOf in Hls.
  destruct (Edges g !! u) as [n|]; [|done]. cbn in Hls |- *. rewrite Hls. split; [done|].
  destruct ls as [|l ls']; [done|]. exists l, ls'. split; [done|]. apply Forall_cons_iff in Hu as [[_ Hlt] _].
  unfold minCost. cbn [foldl]. by rewrite Hlt.
Qed.

(** Walks from [u] on, front first. *)
Inductive hops : string -> C -> list string -> string -> C -> Prop :=
| hopsNil u c : hops u c [] u c
| hopsCons u c v ls p w d : linksOf g u v = Some ls -> hops v (cstep c (minCost ls)) p w d -> hops u c (v :: p) w d.

Lemma hops_snoc u c p w d v ls : hops u c p w d -> linksOf g w v = Some ls ->
  hops u c (p ++ [v]) v (cstep d (minCost ls)).
Proof. induction 1 as [|u c x lx p w d Hx _ IH]; intros Hl; econstructor; [done|constructor|done|by apply IH]. Qed.

Lemma walk_hops v p c : walk g source v p c -> hops source czero p v c.
Proof. induction 1 as [|u p c v ls _ IH Hls]; [constructor|by eapply hops_snoc]. Qed.

Lemma hops_pathCost u c p w d : hops u c p w d -> pathCostFrom g c u p = d.
Proof.
  induction 1 as [|u c v ls p w d Hls _ IH]; [done|]. cbn [pathCostFrom].
  destruct (hop_links _ _ _ Hls) as [-> (l & ls' & -> & Hm)]. fold (minFrom (lCost l) ls'). rewrite <- Hm, cadd_assoc.
  exact IH.
Qed.

(** A path of the search, evaluated again on the same graph, costs what the search
    said. *)
Lemma pathCost_walk v p c : walk g source v p c -> p <> [] -> pathCost source g p = c.
Proof. intros Hw Hp. apply walk_hops, hops_pathCost in Hw. by destruct p. Qed.

End PathCost.

(** ** Link costs and hysteresis, at float64 *)

Definition linkCost (srtt lossRate dropRate sojournMs confidence : float64) : float64 :=
  let lossEff := fsub (f64 1) (fmul (fsub (f64 1) lossRate) (fsub (f64 1) dropRate)) in
  let denom := fsub (f64 1) lossEff in
  let denom := if flt denom (f64_frac 1 100) then f64_frac 1 100 else denom in
  let confidence := if fle confidence (f64 0) then f64_frac 1 100 else confidence in
  fdiv (fdiv (fadd srtt sojournMs) denom) confidence.

(** The route kept for a target: [live n] is the interface of a connected peer [n]. *)
Definition keepRoute (g : TopologyGraph float64) (nodeID : string) (live : string -> option Z)
    (old : option (dijkstraResult float64)) (new : dijkstraResult float64) : dijkstraResult float64 :=
  match old with
  | None => new
  | Some o =>
      if bool_decide (NextHop o = ""%string) || bool_decide (NextHop o = NextHop new) || bool_decide (Path o = [])
      then new
      else
        let incumbent := pathCost nodeID g (Path o) in
        if fle (f64 100000000000000000) incumbent then new
        else
          match live (NextHop o) with
          | None => new
          | Some nic =>
              if fle (fmul incumbent (f64_frac 85 100)) (Cost new)
              then mkPath (NextHop o) (Some nic) incumbent (Path o)
              else new
          end
  end.

(** [old] is the installed table, [None] before the first. *)
Definition applyHysteresis (g : TopologyGraph float64) (nodeID : string) (live : string -> option Z)
    (old : option (gmap string (dijkstraResult float64))) (best : gmap string (dijkstraResult float64))
  : gmap string (dijkstraResult float64) :=
  match old with
  | None => best
  | Some o => map_imap (fun target new => Some (keepRoute g nodeID live (o !! target) new)) best
  end.

Lemma keepRoute_idem g nodeID live o new :
  keepRoute g nodeID live (Some (keepRoute g nodeID live o new)) new = keepRoute g nodeID live o new.
Proof.
  assert (Hnew : keepRoute g nodeID live (Some new) new = new).
  { unfold keepRoute. rewrite (bool_decide_eq_true_2 (NextHop new = NextHop new)) by done. by rewrite orb_true_r. }
  destruct o as [o|]; [|done]. unfold keepRoute at 2 3.
  destruct (bool_decide (NextHop o = _) || bool_decide (NextHop o = NextHop new) || bool_decide (Path o = [])) eqn:E1; [done|].
  destruct (fle _ (pathCost nodeID g (Path o))) eqn:E2; [done|].
  destruct (live (NextHop o)) as [nic|] eqn:E3; [|done]. destruct (fle _ (Cost new)) eqn:E4; [|done].
  unfold keepRoute. cbn [NextHop Path]. by rewrite E1, E2, E3, E4.
Qed.

(** The incumbent [o] stays, over interface [nic]: it goes another way than [new], its
    path is still there, its peer is connected, and [new] is not 15% cheaper. *)
Definition retains (g : TopologyGraph float64) (nodeID : string) (live : string -> option Z)
    (o new : dijkstraResult float64) (nic : Z) : Prop :=
  let incumbent := pathCost nodeID g (Path o) in
  NextHop o <> ""%string /\ NextHop o <> NextHop new /\ Path o <> [] /\ live (NextHop o) = Some nic /\
  fle (f64 100000000000000000) incumbent = false /\ fle (fmul incumbent (f64_frac 85 100)) (Cost new) = true.

Lemma keepRoute_cases g nodeID live o new :
  let d := keepRoute g nodeID live (Some o) new in
  (exists nic, retains g nodeID live o new nic /\ d = mkPath (NextHop o) (Some nic) (pathCost nodeID g (Path o)) (Path o)) \/
  (d = new /\ forall nic, ~ retains g nodeID live o new nic).
Proof.
  cbv zeta. unfold keepRoute, retains.
  destruct (bool_decide (NextHop o = _) || bool_decide (NextHop o = NextHop new) || bool_decide (Path o = [])) eqn:E1.
  { right. split; [done|]. intros nic (H1 & H2 & H3 & _). by rewrite !bool_decide_eq_false_2 in E1. }
  apply orb_false_iff in E1 as [E1 E1c]. apply orb_false_iff in E1 as [E1a E1b].
  apply bool_decide_eq_false in E1a, E1b, E1c.
  destruct (fle _ (pathCost nodeID g (Path o))) eqn:E2; [right; split; [done|]; intros nic; by intros (_ & _ & _ & _ & ? & _)|].
  destruct (live (NextHop o)) as [nic|] eqn:E3; [|right; split; [done|]; intros nic; by intros (_ & _ & _ & ? & _)].
  destruct (fle _ (Cost new)) eqn:E4; [left; by exists nic|right].
  split; [done|]. intros nic'. by intros (_ & _ & _ & _ & _ & ?).
Qed.

(** Hysteresis is stable and exact: it answers for the targets of the new paths;
    installing its result and running it again on the same graph changes nothing, so
    routes do not flap; and a target keeps its incumbent exactly when the incumbent's
    path and first-hop interface still exist and the new path is not 15% cheaper, then
    with the incumbent's current cost and live interface. *)
Theorem hysteresis_stable g nodeID live old best :
  let r := applyHysteresis g nodeID live (Some old) best in
  dom r = dom best /\ applyHysteresis g nodeID live (Some r) best = r /\
  forall target new d, best !! target = Some new -> r !! target = Some d ->
    match old !! target with
    | None => d = new
    | Some o =>
        (exists nic, retains g nodeID live o new nic /\
           d = mkPath (NextHop o) (Some nic) (pathCost nodeID g (Path o)) (Path o)) \/
        (d = new /\ forall nic, ~ retains g nodeID live o new nic)
    end.
Proof.
  cbv zeta. unfold applyHysteresis. split_and!.
  - apply set_eq. intros x. rewrite !elem_of_dom, map_lookup_imap. destruct (best !! x); cbn; split; intros [? ?]; by eexists.
  - apply map_eq. intros x. rewrite !map_lookup_imap. destruct (best !! x) as [new|]; [|done].
    cbn [mbind option_bind]. by rewrite keepRoute_idem.
  - intros target new d Hn. rewrite map_lookup_imap, Hn. cbn [mbind option_bind]. intros [= <-].
    destruct (old !! target) as [o|]; [apply keepRoute_cases|done].
Qed.

(** ** Concrete graphs *)

Section Check.
Context {C : Type} `{CostLaws C}.
Variable okb : C -> bool.
Hypothesis okb_ok : forall c, okb c = true -> cok c.

Definition usableb (ls : list (LinkQualityInfo C)) : bool :=
  negb (bool_decide (length ls = 0%nat)) && forallb (fun l => okb (lCost l) && cltb (lCost l) cinf) ls.

Definition wfb (g : TopologyGraph C) (source : string) : bool :=
  bool_decide (source ∈ Nodes g) && bool_decide (""%string ∉ Nodes g) &&
  forallb (fun un => forallb (fun vl => bool_decide (fst vl ∈ Nodes g) && usableb (snd vl)) (map_to_list (snd un)))
    (map_to_list (Edges g)).

Lemma wfb_sound g source : wfb g source = true -> wfGraph g source.
Proof.
  unfold wfb. rewrite !andb_true_iff, !bool_decide_eq_true. intros [[Hs He] Hall]. constructor; [done..|].
  intros u v ls. unfold linksOf. destruct (Edges g !! u) as [n|] eqn:Eu; [|done]. cbn. intros Ev.
  rewrite forallb_forall in Hall. apply elem_of_map_to_list, list_elem_of_In in Eu. specialize (Hall _ Eu).
  rewrite forallb_forall in Hall. apply elem_of_map_to_list, list_elem_of_In in Ev. specialize (Hall _ Ev).
  cbn [fst snd] in Hall. unfold usableb in Hall. rewrite !andb_true_iff, bool_decide_eq_true, negb_true_iff, bool_decide_eq_false in Hall.
  destruct Hall as [Hv [Hne Hls]]. split; [done|]. split; [by destruct ls|].
  apply List.Forall_forall. intros l Hl. rewrite forallb_forall in Hls. specialize (Hls l Hl).
  apply andb_prop in Hls as [? ?]. auto.
Qed.

End Check.

Definition nonnegb (x : float64) : bool :=
  match x with
  | SpecFloat.S754_zero s | SpecFloat.S754_infinity s => negb s
  | SpecFloat.S754_finite s m e => negb s && SpecFloat.bounded 53 1024 m e
  | SpecFloat.S754_nan => false
  end.

Lemma nonnegb_ok x : nonnegb x = true -> nonneg x.
Proof. destruct x as [[]|[]| |[]]; cbn; try done. Qed.

(** Links [(from, to, seq, nic, cost)]. *)
Definition demoGraph {C} (ls : list (string * string * Z * Z * C)) : TopologyGraph C :=
  foldr (fun '(f, t, s, nic, c) g =>
    mkGraph ({[f; t]} ∪ Nodes g)
      (<[f := <[t := mkLQ f t (Some nic) s 0 (f64 0) (f64 0) (f64 0) c :: default [] (linksOf g f t)]> (default ∅ (Edges g !! f))]> (Edges g)))
    (mkGraph ∅ ∅) ls.

Definition demoLinks {C} (c : Z -> C) : list (string * string * Z * Z * C) :=
  [("A", "B", 1, 11, c 20); ("A", "B", 2, 12, c 10); ("A", "C", 3, 13, c 40); ("B", "C", 1, 0, c 10); ("C", "D", 1, 0, c 1)]%string.

Definition mapRange {C} (g : TopologyGraph C) : (nat -> list string) * (string -> list string) :=
  (fun _ => elements (Nodes g), fun u => map fst (map_to_list (default ∅ (Edges g !! u)))).
Definition mapRangeRev {C} (g : TopologyGraph C) : (nat -> list string) * (string -> list string) :=
  (fun n => reverse (fst (mapRange g) n), fun u => reverse (snd (mapRange g) u)).

Lemma mapRange_ok {C} (g : TopologyGraph C) : rangesOf g (fst (mapRange g)) (snd (mapRange g)).
Proof. split; [done|]. intros u nbrs Hu. cbn. by rewrite Hu. Qed.
Lemma mapRangeRev_ok {C} (g : TopologyGraph C) : rangesOf g (fst (mapRangeRev g)) (snd (mapRangeRev g)).
Proof. split; [intros n; apply reverse_Permutation|]. intros u nbrs Hu. cbn. rewrite Hu. apply reverse_Permutation. Qed.

(** At float64: D is reached over B at 10+5+10+5+1+5 milliseconds, although the direct
    link to C is shorter in hops. *)
Lemma dijkstra_optimal_witness : let g := demoGraph (demoLinks f64) in
  exists r, dijkstra g "A" (fst (mapRange g)) (snd (mapRange g)) = Done r /\ shortestPaths g "A" r /\
    r !! "D"%string = Some (mkPath "B" (Some 12) (f64 36) ["B"; "C"; "D"]%string).
Proof.
  cbv zeta. destruct (dijkstra_optimal (demoGraph (demoLinks f64)) "A" (fst (mapRange (demoGraph (demoLinks f64))))
    (snd (mapRange (demoGraph (demoLinks f64))))) as (r & Hr & Hs).
  - apply (wfb_sound nonnegb); [exact nonnegb_ok|vm_compute; reflexivity].
  - apply mapRange_ok.
  - exists r. split; [exact Hr|]. split; [exact Hs|]. vm_compute in Hr. injection Hr as <-. vm_compute. reflexivity.
Defined.

Lemma dijkstra_deterministic_witness : let g := demoGraph (demoLinks id) in
  exists r1 r2, dijkstra g "A" (fst (mapRange g)) (snd (mapRange g)) = Done r1 /\
    dijkstra g "A" (fst (mapRangeRev g)) (snd (mapRangeRev g)) = Done r2 /\
    forall v, (fun d => (Cost d, NextHop d, LinkNIC d)) <$> r1 !! v = (fun d => (Cost d, NextHop d, LinkNIC d)) <$> r2 !! v.
Proof.
  cbv zeta. apply dijkstra_deterministic.
  - apply (wfb_sound (fun c => 0 <=? c)); [intros c Hc; by apply Z.leb_le|]. vm_compute. reflexivity.
  - apply mapRange_ok.
  - apply mapRangeRev_ok.
Defined.

(** A gossiped link can cost exactly what the search takes for infinity: an RTT of
    10^16 ms with total loss does.  Comparing it then reads a link not found yet. *)
Lemma linkCost_infinite : linkCost (f64 10000000000000000) (f64 1) (f64 0) (f64 0) (f64 1) = cinf.
Proof. vm_compute. reflexivity. Qed.

Lemma dijkstra_panics :
  let g := demoGraph [("A", "B", 1, 11, f64 10);
    ("B", "C", 1, 0, linkCost (f64 10000000000000000) (f64 1) (f64 0) (f64 0) (f64 1))]%string in
  dijkstra g "A" (fst (mapRange g)) (snd (mapRange g)) = Panic.
Proof. vm_compute. reflexivity. Qed.

(** A node without a name ends the search: [""] is also the mark of "none left". *)
Lemma unnamed_node_hides_others :
  let g := demoGraph [("A", "", 1, 11, f64 1); ("A", "B", 1, 11, f64 10); ("B", "C", 1, 0, f64 10)]%string in
  exists r, dijkstra g "A" (fst (mapRange g)) (snd (mapRange g)) = Done r /\ r !! "C"%string = None.
Proof. eexists. split; vm_compute; reflexivity. Qed.

(** Another route 10% cheaper does not displace the installed one, 30% does. *)
Lemma hysteresis_stable_witness :
  let g := demoGraph (demoLinks f64) in
  let old := {["D"%string := mkPath "C" (Some 13) (f64 51) ["C"; "D"]%string]} in
  let best c := {["D"%string := mkPath "B" (Some 12) (f64 c) ["B"; "C"; "D"]%string]} in
  let live n := if String.eqb n "C" then Some 13 else None in
  (applyHysteresis g "A" live (Some old) (best 46) !! "D"%string = Some (mkPath "C" (Some 13) (f64 51) ["C"; "D"]%string) /\
   applyHysteresis g "A" live (Some old) (best 36) = best 36) /\
  applyHysteresis g "A" live (Some (applyHysteresis g "A" live (Some old) (best 46))) (best 46) =
  applyHysteresis g "A" live (Some old) (best 46).
Proof.
  cbv zeta. split; [split; vm_compute; reflexivity|].
  apply (hysteresis_stable (demoGraph (demoLinks f64)) "A" (fun n => if String.eqb n "C" then Some 13 else None)).
Defined.
