(* ===== verification/MeshTopology.v ===== *)
(** What a mesh node knows of the others: the peer table and its gossip
    (src/mesh/topology.go), link quality (src/mesh/quality.go), and from
    src/mesh/mesh.go the validation of gossiped claims, the graph built from them, and
    the resolution of subnet conflicts.

    A PeerSender is a record with its pointer as an identity.  net.ParseCIDR and
    math.Exp are arguments; so are the orders in which maps are ranged. *)

From Stdlib Require Import ZArith Lia String Ascii.
From stdpp Require Import base list numbers strings gmap sets pretty.
From S2P Require Import Prelude GoFloat FloatOrder IPPacket MeshPaths.
Open Scope Z_scope.

(** ** Data *)

(** An IPv4 network: address bytes and prefix length. *)
Record IPNet := mkNet { nIP : list Z; nLen : nat }.

Record GossipLink := mkGLink {
  glLocalSeq : Z; glRemoteSeq : Z; glFriendlyName : string;
  glSRTT : float64; glLossRate : float64; glJitter : float64; glDropRate : float64; glSojournMs : float64 }.

Record GossipNeighbor := mkNbr { gnNode : string; gnLinks : list GossipLink }.

Record GossipClaimedSubnet := mkGClaim { gcSubnet : string; gcNode : string; gcHop : Z; gcNeighbors : list GossipNeighbor }.
Record GossipRoute := mkGRoute { grPrefix : string; grNode : string }.
Record GossipDomainSuffix := mkGSuffix { gsSuffix : string; gsNode : string }.
Record GossipInfo := mkGossip {
  giRoutes : list GossipRoute; giSuffixes : list GossipDomainSuffix; giClaims : list GossipClaimedSubnet }.

Record PeerRouteEntry := mkRoute { prNet : IPNet; prStr : string; prNode : string }.
Record PeerDomainSuffixEntry := mkSuffix { psfSuffix : string; psfNode : string }.
Record PeerClaimedSubnetEntry := mkClaim {
  csNet : IPNet; csStr : string; csNode : string; csHop : Z; csNeighbors : list GossipNeighbor }.

Record PeerSender := mkSender {
  sdPtr : Z; sdNode : string; sdLocalSeq : Z; sdRemoteSeq : Z; sdName : string; sdNIC : option Z }.

Record PeerInfo := mkPeerInfo {
  piSender : option PeerSender;
  piNet : option IPNet; piSubnetStr : string;
  piSuffixes : list PeerDomainSuffixEntry;
  piRoutes : list PeerRouteEntry;
  piClaims : list PeerClaimedSubnetEntry;
  piLastSeen : Time
}.

Definition NodeID (p : PeerInfo) : string := match piSender p with None => ""%string | Some s => sdNode s end.

(** ** The peer table *)

Definition Topology := list PeerInfo.

Definition NewTopology : Topology := [].

Definition RegisterPeer (t : Topology) (sender : PeerSender) (now : Time) : Topology :=
  t ++ [mkPeerInfo (Some sender) None ""%string [] [] [] now].

(** [p.Sender == sender] compares pointers. *)
Definition sentBy (sender : PeerSender) (p : PeerInfo) : bool :=
  match piSender p with Some s => sdPtr s =? sdPtr sender | None => false end.

Fixpoint removeFirst (f : PeerInfo -> bool) (t : Topology) : Topology :=
  match t with
  | [] => []
  | p :: t' => if f p then t' else p :: removeFirst f t'
  end.

Definition UnregisterPeer (t : Topology) (sender : PeerSender) : Topology := removeFirst (sentBy sender) t.
Definition UnregisterPeerByNodeID (t : Topology) (nodeID : string) : Topology :=
  removeFirst (fun p => String.eqb (NodeID p) nodeID) t.

Definition GetAllPeers (t : Topology) : list PeerInfo := t.
Definition GetPeer (t : Topology) (nodeID : string) : option PeerInfo :=
  List.find (fun p => String.eqb (NodeID p) nodeID) t.

(** The comparisons that decide whether gossip changed anything. *)
Fixpoint listEqb {A} (f : A -> A -> bool) (a b : list A) : bool :=
  match a, b with
  | [], [] => true
  | x :: a', y :: b' => f x y && listEqb f a' b'
  | _, _ => false
  end.

Definition routesEqual : list PeerRouteEntry -> list PeerRouteEntry -> bool :=
  listEqb (fun a b => String.eqb (prStr a) (prStr b) && String.eqb (prNode a) (prNode b)).
Definition domainSuffixesEqual : list PeerDomainSuffixEntry -> list PeerDomainSuffixEntry -> bool :=
  listEqb (fun a b => String.eqb (psfSuffix a) (psfSuffix b) && String.eqb (psfNode a) (psfNode b)).

(** Only what identifies a link: its quality changes all the time. *)
Definition compareGossipNeighbors (a b : GossipNeighbor) : bool :=
  String.eqb (gnNode a) (gnNode b) &&
  listEqb (fun x y => (glLocalSeq x =? glLocalSeq y) && (glRemoteSeq x =? glRemoteSeq y) &&
    String.eqb (glFriendlyName x) (glFriendlyName y)) (gnLinks a) (gnLinks b).

Definition claimedSubnetsEqual : list PeerClaimedSubnetEntry -> list PeerClaimedSubnetEntry -> bool :=
  listEqb (fun a b => String.eqb (csStr a) (csStr b) && String.eqb (csNode a) (csNode b) && (csHop a =? csHop b) &&
    listEqb compareGossipNeighbors (csNeighbors a) (csNeighbors b)).

Section Gossip.
(** net.ParseCIDR; [None] is an error. *)
Variable parseCIDR : string -> option IPNet.

Definition parseRoutes (l : list GossipRoute) : list PeerRouteEntry :=
  omap (fun r => (fun n => mkRoute n (grPrefix r) (grNode r)) <$> parseCIDR (grPrefix r)) l.
Definition parseClaims (l : list GossipClaimedSubnet) : list PeerClaimedSubnetEntry :=
  omap (fun c => (fun n => mkClaim n (gcSubnet c) (gcNode c) (swrap 64 (gcHop c + 1)) (gcNeighbors c)) <$> parseCIDR (gcSubnet c)) l.

(** The sender's own subnet: its claim, now one hop away. *)
Definition ownClaim (l : list PeerClaimedSubnetEntry) : option PeerClaimedSubnetEntry :=
  List.find (fun c => (csHop c =? 1) && negb (String.eqb (csNode c) "")) l.

(** The peer after gossip, and whether it changed. *)
Definition mergeGossip (p : PeerInfo) (info : GossipInfo) (now : Time) : PeerInfo * bool :=
  let routes := parseRoutes (giRoutes info) in
  let suffixes := map (fun s => mkSuffix (gsSuffix s) (gsNode s)) (giSuffixes info) in
  let claims := parseClaims (giClaims info) in
  let net := csNet <$> ownClaim claims in
  let str := match ownClaim claims with Some c => csStr c | None => ""%string end in
  let changed := negb (String.eqb (piSubnetStr p) str) || negb (domainSuffixesEqual (piSuffixes p) suffixes) ||
                 negb (routesEqual (piRoutes p) routes) || negb (claimedSubnetsEqual (piClaims p) claims) in
  (mkPeerInfo (piSender p) net str suffixes routes claims now, changed).

(** Gossip of a sender that is not in the table is discarded. *)
Fixpoint UpdateGossip (t : Topology) (sender : PeerSender) (info : GossipInfo) (now : Time) : Topology * bool :=
  match t with
  | [] => ([], false)
  | p :: t' =>
      if sentBy sender p then let '(p', changed) := mergeGossip p info now in (p' :: t', changed)
      else let '(t'', changed) := UpdateGossip t' sender info now in (p :: t'', changed)
  end.

End Gossip.

Definition DeriveVIPFromSubnet (ip : list Z) : option (list Z) :=
  (fun b => <[3%nat := Z.lor (byte_at b 3) 1]> b) <$> To4 ip.
Definition DeriveGIPFromSubnet (ip : list Z) : option (list Z) :=
  (fun b => <[3%nat := Z.lor (byte_at b 3) 3]> b) <$> To4 ip.

(** ** Link quality *)

Record PeerQuality := mkPQ {
  ackRTT : Duration; ackLossRate : float64; ackJitter : Duration; ackSampleCount : Z; ackUpdated : Time;
  pqDropRate : float64; pqSojournMs : float64 }.

Definition defaultAckRTT : Duration := 100 * Millisecond.
Definition resetToPrior (q : PeerQuality) (now : Time) : PeerQuality :=
  mkPQ defaultAckRTT (f64 0) 0 1 now (pqDropRate q) (pqSojournMs q).
Definition NewPeerQuality (now : Time) : PeerQuality := mkPQ defaultAckRTT (f64 0) 0 1 now (f64 0) (f64 0).
Definition UpdateACKStats (q : PeerQuality) (srtt : Duration) (loss : float64) (jitter : Duration) (n : Z) (now : Time)
  : PeerQuality := mkPQ srtt loss jitter n now (pqDropRate q) (pqSojournMs q).
Definition UpdateEgressStats (q : PeerQuality) (dropRate sojournMs : float64) : PeerQuality :=
  mkPQ (ackRTT q) (ackLossRate q) (ackJitter q) (ackSampleCount q) (ackUpdated q) dropRate sojournMs.
Definition IsStale (q : PeerQuality) (ttl : Duration) (now : Time) : bool := ttl <? now - ackUpdated q.

Definition Stats (q : PeerQuality) : Duration * float64 * float64 :=
  (ackRTT q, ackLossRate q, fdiv (f64 (ackJitter q)) (f64 Millisecond)).

Section Confidence.
(** math.Exp *)
Variable Exp : float64 -> float64.

(** Duration.Minutes() *)
Definition Minutes (d : Duration) : float64 :=
  fadd (f64 (Z.quot d Minute)) (fdiv (f64 (Z.rem d Minute)) (f64 Minute)).

Definition calculateConfidence (q : PeerQuality) (now : Time) : float64 :=
  let n := fdiv (f64 (ackSampleCount q)) (f64 10) in
  let sampleFactor := if flt n (f64 1) then n else f64 1 in
  fmul sampleFactor (Exp (SpecFloat.SFopp (Minutes (now - ackUpdated q)))).

Definition PeerQualityTracker := gmap string PeerQuality.

Definition makeKey (nodeID : string) (localSeq : Z) : string := (nodeID ++ ":" ++ pretty localSeq)%string.

Definition GetQuality (t : PeerQualityTracker) (nodeID : string) (localSeq : Z) (now : Time)
  : PeerQualityTracker * PeerQuality :=
  match t !! makeKey nodeID localSeq with
  | Some q => (t, q)
  | None => let q := NewPeerQuality now in (<[makeKey nodeID localSeq := q]> t, q)
  end.

Definition RemoveQuality (t : PeerQualityTracker) (nodeID : string) (localSeq : Z) : PeerQualityTracker :=
  delete (makeKey nodeID localSeq) t.

(** A key longer than the prefix that starts with it. *)
Definition hasPrefix (p s : string) : bool := String.prefix p s && (String.length p <? String.length s)%nat.
Definition RemoveNode (t : PeerQualityTracker) (nodeID : string) : PeerQualityTracker :=
  filter (fun kv : string * PeerQuality => hasPrefix (nodeID ++ ":") kv.1 = false) t.

End Confidence.

(** ** Claims and their validation *)

Record rawClaim := mkRaw { rcHop : Z; rcNode : string; rcSubnet : string; rcNeighbors : list GossipNeighbor }.

(** A direct link as it is gossiped, with the quality of [tr]. *)
Definition ownLink (s : PeerSender) (q : PeerQuality) : GossipLink :=
  let '(rtt, loss, jitter) := Stats q in
  mkGLink (sdLocalSeq s) (sdRemoteSeq s) (sdName s) (fdiv (f64 rtt) (f64 Millisecond)) loss jitter (f64 0) (f64 0).

(** The direct links per neighbour. *)
Definition collectOwn (now : Time) (acc : PeerQualityTracker * gmap string (list GossipLink)) (p : PeerInfo)
  : PeerQualityTracker * gmap string (list GossipLink) :=
  match piSender p with
  | None => acc
  | Some s =>
      let '(tr, q) := GetQuality (fst acc) (NodeID p) (sdLocalSeq s) now in
      (tr, <[NodeID p := default [] (snd acc !! NodeID p) ++ [ownLink s q]]> (snd acc))
  end.

(** Lowest hop wins, the earlier claim on a tie. *)
Definition addClaim (best : gmap string rawClaim) (c : PeerClaimedSubnetEntry) : gmap string rawClaim :=
  match best !! csStr c with
  | Some e => if csHop c <? rcHop e then <[csStr c := mkRaw (csHop c) (csNode c) (csStr c) (csNeighbors c)]> best else best
  | None => <[csStr c := mkRaw (csHop c) (csNode c) (csStr c) (csNeighbors c)]> best
  end.

(** The best claim per subnet; [own] are this node's neighbours in the order ranged. *)
Definition bestClaims (nodeID subnetStr : string) (own : list GossipNeighbor) (peers : list PeerInfo) : gmap string rawClaim :=
  foldl (fun best p => match piSender p with None => best | Some _ => foldl addClaim best (piClaims p) end)
    {[subnetStr := mkRaw 0 nodeID subnetStr own]} peers.

(** Claims by owner; of several claims of one owner the last one ranged stays. *)
Definition byNode (best : gmap string rawClaim) (order : list string) : gmap string rawClaim :=
  foldl (fun m subnet => match best !! subnet with Some c => <[rcNode c := c]> m | None => m end) ∅ order.

(** The reverse of link [l] from [node] is listed by a claim with [neighbors]. *)
Definition confirmed (neighbors : list GossipNeighbor) (node : string) (l : GossipLink) : bool :=
  match List.find (fun n => String.eqb (gnNode n) node) neighbors with
  | None => false
  | Some n => existsb (fun r => (glLocalSeq r =? glRemoteSeq l) && (glRemoteSeq r =? glLocalSeq l)) (gnLinks n)
  end.

Definition validateNeighbor (claims : gmap string rawClaim) (node : string) (n : GossipNeighbor) : option GossipNeighbor :=
  match claims !! gnNode n with
  | None => None
  | Some c =>
      match List.filter (confirmed (rcNeighbors c) node) (gnLinks n) with
      | [] => None
      | ls => Some (mkNbr (gnNode n) ls)
      end
  end.

Definition validateClaim (claims : gmap string rawClaim) (c : rawClaim) : option rawClaim :=
  if rcHop c =? 0 then Some c
  else
    match omap (validateNeighbor claims (rcNode c)) (rcNeighbors c) with
    | [] => None
    | ns => Some (mkRaw (rcHop c) (rcNode c) (rcSubnet c) ns)
    end.

(** [nbrOrder] ranges over the own neighbours, [order] over the best claims. *)
Definition buildValidatedClaims (nodeID subnetStr : string) (tr : PeerQualityTracker) (peers : list PeerInfo) (now : Time)
    (nbrOrder order : list string) : PeerQualityTracker * gmap string rawClaim :=
  let '(tr, links) := foldl (collectOwn now) (tr, ∅) peers in
  let own := omap (fun n => mkNbr n <$> links !! n) nbrOrder in
  let best := bestClaims nodeID subnetStr own peers in
  (tr, omap (validateClaim (byNode best order)) best).

(** ** The graph *)

Definition addNode (g : TopologyGraph float64) (n : string) : TopologyGraph float64 := mkGraph ({[n]} ∪ Nodes g) (Edges g).

Definition addLink (g : TopologyGraph float64) (l : LinkQualityInfo float64) : TopologyGraph float64 :=
  mkGraph (Nodes g)
    (<[lFrom l := <[lTo l := default [] (linksOf g (lFrom l) (lTo l)) ++ [l]]> (default ∅ (Edges g !! lFrom l))]> (Edges g)).

Section Graph.
Variable Exp : float64 -> float64.

Definition directLink (self : string) (p : PeerInfo) (s : PeerSender) (q : PeerQuality) (now : Time) : LinkQualityInfo float64 :=
  let '(rtt, loss, jitter) := Stats q in
  let srtt := fdiv (f64 rtt) (f64 Millisecond) in
  mkLQ self (NodeID p) (sdNIC s) (sdLocalSeq s) (sdRemoteSeq s) srtt loss jitter
    (linkCost srtt loss (pqDropRate q) (pqSojournMs q) (calculateConfidence Exp q now)).

Definition addPeer (self : string) (now : Time) (acc : PeerQualityTracker * TopologyGraph float64) (p : PeerInfo)
  : PeerQualityTracker * TopologyGraph float64 :=
  match piSender p with
  | None => acc
  | Some s =>
      let '(tr, q) := GetQuality (fst acc) (NodeID p) (sdLocalSeq s) now in
      (tr, addLink (addNode (snd acc) (NodeID p)) (directLink self p s q now))
  end.

Definition gossipedLink (from to : string) (l : GossipLink) : LinkQualityInfo float64 :=
  mkLQ from to None (glLocalSeq l) (glRemoteSeq l) (glSRTT l) (glLossRate l) (f64 0)
    (linkCost (glSRTT l) (glLossRate l) (glDropRate l) (glSojournMs l) (f64 1)).

Definition addNeighbor (from : string) (g : TopologyGraph float64) (n : GossipNeighbor) : TopologyGraph float64 :=
  foldl (fun g l => addLink g (gossipedLink from (gnNode n) l)) (addNode g (gnNode n)) (gnLinks n).

Definition addClaimed (self : string) (claims : gmap string rawClaim) (g : TopologyGraph float64) (subnet : string)
  : TopologyGraph float64 :=
  match claims !! subnet with
  | None => g
  | Some c =>
      if String.eqb (rcNode c) self then g
      else foldl (addNeighbor (rcNode c)) (addNode g (rcNode c)) (rcNeighbors c)
  end.

(** [order] ranges over the validated claims. *)
Definition buildTopologyGraph (self : string) (tr : PeerQualityTracker) (peers : list PeerInfo) (now : Time)
    (claims : gmap string rawClaim) (order : list string) : PeerQualityTracker * TopologyGraph float64 :=
  let '(tr, g) := foldl (addPeer self now) (tr, addNode (mkGraph ∅ ∅) self) peers in
  (tr, foldl (addClaimed self claims) g order).

End Graph.

(** ** What the graph contains *)

(** Every edge joins two nodes, holds at least one link, and its links satisfy [P]. *)
Definition graphAll (P : LinkQualityInfo float64 -> Prop) (g : TopologyGraph float64) : Prop :=
  forall u v ls, linksOf g u v = Some ls ->
    u ∈ Nodes g /\ v ∈ Nodes g /\ ls <> [] /\ Forall (fun l => lFrom l = u /\ lTo l = v /\ P l) ls.

Lemma linksOf_addLink g l u v : linksOf (addLink g l) u v =
  if decide (u = lFrom l /\ v = lTo l) then Some (default [] (linksOf g u v) ++ [l]) else linksOf g u v.
Proof.
  unfold addLink, linksOf at 1. cbn [Edges]. destruct (decide (u = lFrom l)) as [->|Hu].
  - rewrite lookup_insert_eq. cbn. destruct (decide (v = lTo l)) as [->|Hv].
    + rewrite lookup_insert_eq, decide_True by done. done.
    + rewrite lookup_insert_ne, decide_False by naive_solver. unfold linksOf. by destruct (Edges g !! lFrom l).
  - rewrite lookup_insert_ne, decide_False by naive_solver. done.
Qed.

Lemma graphAll_addNode P g n : graphAll P g -> graphAll P (addNode g n).
Proof. intros Hg u v ls Hl. destruct (Hg u v ls Hl) as (? & ? & ?). cbn. set_solver. Qed.

Lemma graphAll_addLink P g l : graphAll P g -> lFrom l ∈ Nodes g -> lTo l ∈ Nodes g -> P l -> graphAll P (addLink g l).
Proof.
  intros Hg Hf Ht HP u v ls. rewrite linksOf_addLink. destruct (decide _) as [[-> ->]|_]; [|by apply Hg].
  intros [= <-]. cbn [addLink Nodes]. split_and!; [done|done|by destruct (default _ _)|].
  apply Forall_app. split; [|by apply Forall_singleton]. destruct (linksOf g (lFrom l) (lTo l)) as [ls|] eqn:E; [|done].
  cbn. by apply (Hg _ _ _ E).
Qed.

Lemma addLink_nodes g l : Nodes (addLink g l) = Nodes g.
Proof. done. Qed.

Lemma foldl_inv {A B} (I : B -> Prop) (f : B -> A -> B) (l : list A) : (forall b x, x ∈ l -> I b -> I (f b x)) ->
  forall b, I b -> I (foldl f b l).
Proof.
  induction l as [|x l IH]; intros Hf b Hb; [done|]. cbn. apply IH; [|by apply Hf; [left|]].
  intros c y Hy. apply Hf. by right.
Qed.

Section Provenance.
Variable Exp : float64 -> float64.
Variable self : string.
Implicit Types (peers : list PeerInfo) (claims : gmap string rawClaim) (l : LinkQualityInfo float64).

(** A link of this node is that of a connected peer; a link of another node was
    claimed by it. *)
Definition direct peers l : Prop := lFrom l = self /\ exists p s, p ∈ peers /\ piSender p = Some s /\ NodeID p = lTo l /\
  lLocalSeq l = sdLocalSeq s /\ lRemoteSeq l = sdRemoteSeq s /\ lNIC l = sdNIC s.
Definition claimed claims l : Prop := lFrom l <> self /\ exists subnet c n gl, claims !! subnet = Some c /\
  rcNode c = lFrom l /\ n ∈ rcNeighbors c /\ gnNode n = lTo l /\ gl ∈ gnLinks n /\ l = gossipedLink (lFrom l) (lTo l) gl.

Lemma addPeer_all P peers now acc p : p ∈ peers -> (forall l, direct peers l -> P l) ->
  graphAll P (snd acc) /\ self ∈ Nodes (snd acc) ->
  graphAll P (snd (addPeer Exp self now acc p)) /\ self ∈ Nodes (snd (addPeer Exp self now acc p)).
Proof.
  intros Hp HP [Hg Hs]. unfold addPeer. destruct (piSender p) as [s|] eqn:E; [|done].
  destruct (GetQuality (fst acc) (NodeID p) (sdLocalSeq s) now) as [tr q]. cbn [snd]. split; [|cbn; set_solver].
  apply graphAll_addLink; [by apply graphAll_addNode|cbn; set_solver|cbn; set_solver|].
  apply HP. split; [done|]. exists p, s. done.
Qed.

Lemma addNeighbor_all P from g n : graphAll P g -> from ∈ Nodes g ->
  (forall gl, gl ∈ gnLinks n -> P (gossipedLink from (gnNode n) gl)) ->
  graphAll P (addNeighbor from g n) /\ Nodes g ⊆ Nodes (addNeighbor from g n).
Proof.
  intros Hg Hf HP. unfold addNeighbor.
  assert (H : forall b, (graphAll P b /\ ({[gnNode n]} ∪ Nodes g ⊆ Nodes b)) ->
    let b' := foldl (fun g gl => addLink g (gossipedLink from (gnNode n) gl)) b (gnLinks n) in
    graphAll P b' /\ {[gnNode n]} ∪ Nodes g ⊆ Nodes b').
  { apply (foldl_inv (fun b => graphAll P b /\ {[gnNode n]} ∪ Nodes g ⊆ Nodes b)). intros b gl Hgl [Hb Hn]. split; [|done].
    apply graphAll_addLink; [done|cbn; set_solver|cbn; set_solver|by apply HP]. }
  destruct (H (addNode g (gnNode n))) as [H1 H2]; [|set_solver]. split; [by apply graphAll_addNode|done].
Qed.

Lemma addClaimed_all P claims g subnet : (forall l, claimed claims l -> P l) ->
  graphAll P g /\ self ∈ Nodes g ->
  graphAll P (addClaimed self claims g subnet) /\ self ∈ Nodes (addClaimed self claims g subnet).
Proof.
  intros HP [Hg Hs]. unfold addClaimed. destruct (claims !! subnet) as [c|] eqn:E; [|done].
  destruct (String.eqb_spec (rcNode c) self) as [|Hne]; [done|].
  assert (H : let g' := foldl (addNeighbor (rcNode c)) (addNode g (rcNode c)) (rcNeighbors c) in
    graphAll P g' /\ {[rcNode c]} ∪ Nodes g ⊆ Nodes g'); [|set_solver].
  apply (foldl_inv (fun b => graphAll P b /\ {[rcNode c]} ∪ Nodes g ⊆ Nodes b)); [|split; [by apply graphAll_addNode|done]].
  intros b n Hn [Hb Hsub]. destruct (addNeighbor_all P (rcNode c) b n Hb) as [H1 H2]; [set_solver| |split; [done|set_solver]].
  intros gl Hgl. apply HP. split; [done|]. by exists subnet, c, n, gl.
Qed.

(** The graph built from the peer table and validated claims. *)
Lemma buildGraph_all tr peers now claims order : let g := snd (buildTopologyGraph Exp self tr peers now claims order) in
  self ∈ Nodes g /\ graphAll (fun l => direct peers l \/ claimed claims l) g.
Proof.
  cbv zeta. unfold buildTopologyGraph. set (P := fun l => direct peers l \/ claimed claims l).
  destruct (foldl (addPeer Exp self now) (tr, addNode (mkGraph ∅ ∅) self) peers) as [tr1 g1] eqn:E. cbn [snd].
  assert (H1 : graphAll P g1 /\ self ∈ Nodes g1).
  { replace g1 with (snd (tr1, g1)) by done. rewrite <- E.
    apply (foldl_inv (fun acc => graphAll P (snd acc) /\ self ∈ Nodes (snd acc))).
    - intros acc p Hp. apply (addPeer_all P peers); [done|]. intros l Hl. by left.
    - cbn. split; [|set_solver]. intros u v ls Hl. done. }
  apply and_comm. apply (foldl_inv (fun g => graphAll P g /\ self ∈ Nodes g)); [|done].
  intros g subnet _. apply addClaimed_all. intros l Hl. by right.
Qed.

End Provenance.

(** ** Validation *)

Lemma byNode_spec best order node c : byNode best order !! node = Some c ->
  rcNode c = node /\ exists subnet, best !! subnet = Some c.
Proof.
  unfold byNode. revert node c.
  apply (foldl_inv (fun m : gmap string rawClaim => forall node c, m !! node = Some c -> rcNode c = node /\ exists subnet, best !! subnet = Some c)).
  - intros m subnet _ IH node c. destruct (best !! subnet) as [c0|] eqn:E; [|apply IH].
    rewrite lookup_insert_Some. intros [[<- <-]|[_ Hm]]; [eauto|by apply IH].
  - intros node c. by rewrite lookup_empty.
Qed.

(** A neighbour's links after validation are those whose reverse its claim lists. *)
Lemma validateNeighbor_spec claims node n n' : validateNeighbor claims node n = Some n' ->
  gnNode n' = gnNode n /\ exists c, claims !! gnNode n = Some c /\ gnLinks n' = List.filter (confirmed (rcNeighbors c) node) (gnLinks n).
Proof.
  unfold validateNeighbor. destruct (claims !! gnNode n) as [c|]; [|done].
  destruct (List.filter _ (gnLinks n)) as [|l ls] eqn:E; [done|]. intros [= <-]. split; [done|]. by exists c.
Qed.

Lemma confirmed_spec neighbors node l : confirmed neighbors node l = true ->
  exists n r, n ∈ neighbors /\ gnNode n = node /\ r ∈ gnLinks n /\ glLocalSeq r = glRemoteSeq l /\ glRemoteSeq r = glLocalSeq l.
Proof.
  unfold confirmed. destruct (List.find _ neighbors) as [n|] eqn:E; [|done].
  apply List.find_some in E as [Hn He]. rewrite existsb_exists. intros (r & Hr & Hseq).
  apply andb_prop in Hseq as [H1 H2]. exists n, r. split_and!; try (by apply list_elem_of_In).
  - by apply String.eqb_eq.
  - by apply Z.eqb_eq.
  - by apply Z.eqb_eq.
Qed.

(** The claims before validation. *)
Definition rawClaims (nodeID subnetStr : string) (tr : PeerQualityTracker) (peers : list PeerInfo) (now : Time)
    (nbrOrder : list string) : gmap string rawClaim :=
  bestClaims nodeID subnetStr (omap (fun n => mkNbr n <$> snd (foldl (collectOwn now) (tr, ∅) peers) !! n) nbrOrder) peers.

Lemma buildValidatedClaims_eq nodeID subnetStr tr peers now nbrOrder order :
  let best := rawClaims nodeID subnetStr tr peers now nbrOrder in
  snd (buildValidatedClaims nodeID subnetStr tr peers now nbrOrder order) = omap (validateClaim (byNode best order)) best.
Proof. unfold buildValidatedClaims, rawClaims. by destruct (foldl (collectOwn now) (tr, ∅) peers). Qed.

(** The link [gl] from [u] to [v] is claimed by both ends. *)
Definition mutual (best : gmap string rawClaim) (u v : string) (gl : GossipLink) : Prop :=
  (exists subnet c n, best !! subnet = Some c /\ rcNode c = u /\ n ∈ rcNeighbors c /\ gnNode n = v /\ gl ∈ gnLinks n) /\
  (exists subnet c n r, best !! subnet = Some c /\ rcNode c = v /\ n ∈ rcNeighbors c /\ gnNode n = u /\ r ∈ gnLinks n /\
     glLocalSeq r = glRemoteSeq gl /\ glRemoteSeq r = glLocalSeq gl).

(** A validated claim of another node lists only links claimed by both ends. *)
Lemma validated_mutual best order subnet c n gl : omap (validateClaim (byNode best order)) best !! subnet = Some c ->
  rcHop c <> 0 -> n ∈ rcNeighbors c -> gl ∈ gnLinks n -> mutual best (rcNode c) (gnNode n) gl.
Proof.
  rewrite lookup_omap. destruct (best !! subnet) as [raw|] eqn:E; [|done]. cbn. unfold validateClaim.
  destruct (Z.eqb_spec (rcHop raw) 0) as [|Hz0]; [intros [= <-]; done|].
  destruct (omap _ (rcNeighbors raw)) as [|x l] eqn:Eo; [done|]. intros [= <-] _ Hn Hgl. cbn [rcNeighbors rcNode] in *.
  rewrite <- Eo in Hn. apply list_elem_of_omap in Hn as (n0 & Hn0 & Hv).
  apply validateNeighbor_spec in Hv as (Hnode & c2 & Hc2 & Hls). rewrite Hls in Hgl.
  apply list_elem_of_In, List.filter_In in Hgl as [Hgl Hcf]. apply list_elem_of_In in Hgl.
  apply byNode_spec in Hc2 as [Hc2n [s2 Hs2]]. apply confirmed_spec in Hcf as (n2 & r & Hn2 & Hn2n & Hr & Hseq).
  rewrite Hnode. split.
  - exists subnet, raw, n0. done.
  - exists s2, c2, n2, r. split_and!; try done; apply Hseq.
Qed.

(** Where a best claim comes from: it is this node's own, or some connected peer sent it. *)
Definition claimedBy (self : string) (peers : list PeerInfo) (c : rawClaim) : Prop :=
  rcNode c = self \/
  exists p cs, p ∈ peers /\ piSender p <> None /\ cs ∈ piClaims p /\
    csNode cs = rcNode c /\ csHop cs = rcHop c /\ csNeighbors cs = rcNeighbors c.

Lemma addClaims_from (P : rawClaim -> Prop) cs best :
  (forall k c, best !! k = Some c -> P c) ->
  (forall c, c ∈ cs -> P (mkRaw (csHop c) (csNode c) (csStr c) (csNeighbors c))) ->
  forall k c, foldl addClaim best cs !! k = Some c -> P c.
Proof.
  revert best. induction cs as [|x cs IH]; intros best Hb Hc; cbn; [done|]. apply IH.
  - intros k c. unfold addClaim. pose proof (Hc x ltac:(left)) as Hx.
    repeat case_match; try exact (Hb k c);
      (destruct (decide (csStr x = k)) as [<-|Hk]; [rewrite lookup_insert_eq; by intros [= <-]|rewrite lookup_insert_ne by done; exact (Hb k c)]).
  - intros c Hin. apply Hc. by right.
Qed.

Lemma bestClaims_from nodeID subnetStr own peers k c :
  bestClaims nodeID subnetStr own peers !! k = Some c -> claimedBy nodeID peers c.
Proof.
  unfold bestClaims. set (b0 := {[subnetStr := _]}).
  assert (forall l b, (forall p, p ∈ l -> p ∈ peers) -> (forall k c, b !! k = Some c -> claimedBy nodeID peers c) ->
    forall k c, foldl (fun best p => match piSender p with None => best | Some _ => foldl addClaim best (piClaims p) end) b l !! k = Some c ->
      claimedBy nodeID peers c) as H.
  { induction l as [|p l IH]; intros b Hl Hb; cbn; [done|]. apply IH; [intros q Hq; apply Hl; by right|].
    destruct (piSender p) eqn:E; [|done]. apply addClaims_from; [done|]. intros cs Hcs. right. exists p, cs. cbn.
    rewrite E. split_and!; try done. apply Hl. by left. }
  apply (H peers b0); [done|]. intros k' c'. subst b0. rewrite lookup_singleton_Some. intros [_ <-]. by left.
Qed.

(** The link [gl] from [u] to [v] is in a claim of [u] that a connected peer sent at distance zero. *)
Definition hopZero (peers : list PeerInfo) (u v : string) (gl : GossipLink) : Prop :=
  exists p cs n, p ∈ peers /\ piSender p <> None /\ cs ∈ piClaims p /\ csHop cs = 0 /\ csNode cs = u /\
    n ∈ csNeighbors cs /\ gnNode n = v /\ gl ∈ gnLinks n.


(** ** Gossip updates *)

Lemma listEqb_map {A K} (f : A -> A -> bool) (key : A -> K) (a b : list A) :
  (forall x y, f x y = true <-> key x = key y) -> listEqb f a b = true <-> map key a = map key b.
Proof.
  intros Hf. revert b. induction a as [|x a IH]; intros [|y b]; cbn; try done.
  rewrite andb_true_iff, Hf, IH. split; [by intros [-> ->]|by intros [= -> ->]].
Qed.

Definition routeKey (r : PeerRouteEntry) := (prStr r, prNode r).
Definition suffixKey (s : PeerDomainSuffixEntry) := (psfSuffix s, psfNode s).
Definition linkKey (l : GossipLink) := (glLocalSeq l, glRemoteSeq l, glFriendlyName l).
Definition nbrKey (n : GossipNeighbor) := (gnNode n, map linkKey (gnLinks n)).
Definition claimKey (c : PeerClaimedSubnetEntry) := (csStr c, csNode c, csHop c, map nbrKey (csNeighbors c)).

(** What of a peer the routes depend on, quality left aside. *)
Definition peerKey (p : PeerInfo) :=
  (piSubnetStr p, map suffixKey (piSuffixes p), map routeKey (piRoutes p), map claimKey (piClaims p)).

Lemma routesEqual_spec a b : routesEqual a b = true <-> map routeKey a = map routeKey b.
Proof.
  apply listEqb_map. intros x y. unfold routeKey. rewrite andb_true_iff, !String.eqb_eq.
  split; [by intros [-> ->]|by intros [= -> ->]].
Qed.

Lemma suffixesEqual_spec a b : domainSuffixesEqual a b = true <-> map suffixKey a = map suffixKey b.
Proof.
  apply listEqb_map. intros x y. unfold suffixKey. rewrite andb_true_iff, !String.eqb_eq.
  split; [by intros [-> ->]|by intros [= -> ->]].
Qed.

Lemma neighbors_spec a b : compareGossipNeighbors a b = true <-> nbrKey a = nbrKey b.
Proof.
  unfold compareGossipNeighbors, nbrKey. rewrite andb_true_iff, String.eqb_eq, (listEqb_map _ linkKey).
  - split; [by intros [-> ->]|by intros [= -> ->]].
  - intros x y. unfold linkKey. rewrite !andb_true_iff, !Z.eqb_eq, String.eqb_eq.
    split; [by intros [[-> ->] ->]|by intros [= -> -> ->]].
Qed.

Lemma claimsEqual_spec a b : claimedSubnetsEqual a b = true <-> map claimKey a = map claimKey b.
Proof.
  apply listEqb_map. intros x y. unfold claimKey.
  rewrite !andb_true_iff, !String.eqb_eq, Z.eqb_eq, (listEqb_map _ nbrKey) by apply neighbors_spec.
  split; [by intros [[[-> ->] ->] ->]|by intros [= -> -> -> ->]].
Qed.

Section Updates.
Variable parseCIDR : string -> option IPNet.
Implicit Types (t : Topology) (p : PeerInfo).

(** Gossip reports a change exactly when the key of the peer changes. *)
Lemma mergeGossip_changed p info now : let '(p', changed) := mergeGossip parseCIDR p info now in
  changed = false <-> peerKey p' = peerKey p.
Proof.
  unfold mergeGossip, peerKey. cbn [piSubnetStr piSuffixes piRoutes piClaims].
  rewrite !orb_false_iff, !negb_false_iff, String.eqb_eq, suffixesEqual_spec, routesEqual_spec, claimsEqual_spec.
  split; [by intros [[[-> ->] ->] ->]|by intros [= -> -> -> ->]].
Qed.

Lemma mergeGossip_key p q info now now' :
  peerKey (fst (mergeGossip parseCIDR p info now)) = peerKey (fst (mergeGossip parseCIDR q info now')).
Proof. done. Qed.

(** The first entry of the sender is the one gossip updates. *)
Lemma UpdateGossip_split t sender info now :
  (forallb (fun p => negb (sentBy sender p)) t = true /\ UpdateGossip parseCIDR t sender info now = (t, false)) \/
  exists l p r, t = l ++ p :: r /\ forallb (fun p => negb (sentBy sender p)) l = true /\ sentBy sender p = true /\
    UpdateGossip parseCIDR t sender info now =
      (l ++ fst (mergeGossip parseCIDR p info now) :: r, snd (mergeGossip parseCIDR p info now)).
Proof.
  induction t as [|p t IH]; [by left|]. cbn [UpdateGossip forallb]. destruct (sentBy sender p) eqn:E.
  - right. exists [], p, t. split_and!; try done.
  - destruct IH as [[Hall ->]|(l & q & r & -> & Hall & Hq & ->)]; [by left|right].
    exists (p :: l), q, r. split_and!; try done. cbn. by rewrite E.
Qed.

Lemma UpdateGossip_at l p r sender info now : forallb (fun p => negb (sentBy sender p)) l = true -> sentBy sender p = true ->
  UpdateGossip parseCIDR (l ++ p :: r) sender info now =
    (l ++ fst (mergeGossip parseCIDR p info now) :: r, snd (mergeGossip parseCIDR p info now)).
Proof.
  induction l as [|q l IH]; cbn [UpdateGossip forallb app].
  - intros _ ->. done.
  - rewrite andb_true_iff, negb_true_iff. intros [-> Hl] Hp. by rewrite IH.
Qed.

(** Gossip updates exactly the first entry of its sender and keeps every sender in
    its place; gossip of an unknown sender is discarded; it is reported as a change
    exactly when something the routes depend on changed (subnet, suffixes, routes,
    claims with their links, but not link quality); and the same gossip again is never
    a change, whatever the quality figures in it. *)
Theorem UpdateGossip_exact t sender info now :
  let '(t', changed) := UpdateGossip parseCIDR t sender info now in
  map piSender t' = map piSender t /\
  (forallb (fun p => negb (sentBy sender p)) t = true -> t' = t) /\
  (changed = false <-> map peerKey t' = map peerKey t) /\
  forall now', snd (UpdateGossip parseCIDR t' sender info now') = false.
Proof.
  destruct (UpdateGossip_split t sender info now) as [[Hall E]|(l & p & r & -> & Hall & Hp & E)]; rewrite E.
  - split_and!; try done. intros now'. destruct (UpdateGossip_split t sender info now') as [[_ E']|(l & p & r & -> & _ & Hp & _)].
    + by rewrite E'.
    + rewrite forallb_app in Hall. cbn in Hall. rewrite Hp in Hall. by rewrite andb_false_r in Hall.
  - pose proof (mergeGossip_changed p info now) as Hch. destruct (mergeGossip parseCIDR p info now) as [p' ch] eqn:Em. cbn [fst snd].
    assert (Hs : piSender p' = piSender p) by (unfold mergeGossip in Em; by simplify_eq).
    split_and!.
    + rewrite !map_app. cbn. by rewrite Hs.
    + rewrite forallb_app. cbn. rewrite Hp. by rewrite andb_false_r.
    + rewrite Hch, !map_app. cbn. split; [by intros ->|]. intros Heq. apply app_inv_head in Heq. congruence.
    + intros now'. rewrite UpdateGossip_at by (done || unfold sentBy in *; by rewrite Hs). cbn [snd].
      pose proof (mergeGossip_changed p' info now') as Hch'. pose proof (mergeGossip_key p p' info now now') as Hk.
      rewrite Em in Hk. destruct (mergeGossip parseCIDR p' info now') as [p'' ch']. cbn [fst snd] in *. by apply Hch'.
Qed.

End Updates.
