(* ===== verification/MeshIdentity.v ===== *)
(** Who a mesh node is: the order of node IDs, the detection of subnet conflicts and
    the choice of a new subnet (src/mesh/mesh.go: compareNodeIDs, checkSubnetConflict,
    reselectSubnet; src/mesh/state.go: AllocateSubnet).

    The random draws and whether the new subnet could be stored are arguments. *)

From Stdlib Require Import ZArith Lia String Ascii.
From stdpp Require Import base list numbers strings gmap sets pretty.
From S2P Require Import Prelude GoStrings GoFloat FloatOrder IPPacket MeshPaths MeshTopology.
Open Scope Z_scope.

(** ** Node IDs *)

Definition compareNodeIDs (a b : string) : Z :=
  match ParseUint a, ParseUint b with
  | Some x, Some y => if x <? y then -1 else if y <? x then 1 else 0
  | _, _ => if String.ltb a b then -1 else if String.ltb b a then 1 else 0
  end.

(** ** Conflicts *)

(** The subnets others claim. *)
Definition usedSubnets (t : Topology) (subnetStr : string) : gset string :=
  foldl (fun used p =>
    let used := if negb (String.eqb (piSubnetStr p) "") && negb (String.eqb (piSubnetStr p) subnetStr)
                then {[piSubnetStr p]} ∪ used else used in
    foldl (fun used c => if String.eqb (csStr c) subnetStr then used else {[csStr c]} ∪ used) used (piClaims p)) ∅ t.

(** Another node claims the subnet and its ID is larger. *)
Definition losesTo (nodeID other : string) : bool := negb (String.eqb other nodeID) && (compareNodeIDs nodeID other <? 0).
Definition losesPeer (nodeID subnetStr : string) (p : PeerInfo) : bool :=
  (String.eqb (piSubnetStr p) subnetStr && losesTo nodeID (NodeID p)) ||
  existsb (fun c => String.eqb (csStr c) subnetStr && losesTo nodeID (csNode c)) (piClaims p).

(** [Some used]: reselectSubnet is called with these subnets. *)
Definition checkSubnetConflict (nodeID subnetStr : string) (t : Topology) : option (gset string) :=
  if existsb (losesPeer nodeID subnetStr) t then Some (usedSubnets t subnetStr) else None.

(** ** A new subnet *)

Definition fmtIP (v : Z) : string :=
  (pretty (byte_of (Z.shiftr v 24)) ++ "." ++ pretty (byte_of (Z.shiftr v 16)) ++ "." ++
   pretty (byte_of (Z.shiftr v 8)) ++ "." ++ pretty (byte_of v))%string.
Definition fmtSubnet (v : Z) (prefixLen : Z) : string := (fmtIP v ++ "/" ++ pretty prefixLen)%string.

Inductive AllocError := ErrNotIPv4 | ErrInvalidPrefix | ErrRandom | ErrNoneFree.

(** [n] attempts left; [draw k] is the random index of attempt [k]. *)
Fixpoint tryDraws (base size prefixLen : Z) (used : gset string) (draw : nat -> option Z) (k n : nat)
  : result AllocError string :=
  match n with
  | O => Err ErrNoneFree
  | S n' =>
      match draw k with
      | None => Err ErrRandom
      | Some idx =>
          let candidate := fmtSubnet (wrap 32 (base + wrap 32 (idx * size))) prefixLen in
          if decide (candidate ∈ used) then tryDraws base size prefixLen used draw (S k) n' else Ok candidate
      end
  end.

Definition numSubnets (netLen prefixLen : Z) : Z := wrap 32 (Z.shiftl 1 (prefixLen - netLen)).
Definition maxAttempts (netLen prefixLen : Z) : nat := Z.to_nat (Z.min (numSubnets netLen prefixLen) 1000).

Definition AllocateSubnet (network : IPNet) (prefixLen : Z) (used : gset string) (draw : nat -> option Z)
  : result AllocError string :=
  match To4 (nIP network) with
  | None => Err ErrNotIPv4
  | Some ip =>
      let netLen := Z.of_nat (nLen network) in
      if (prefixLen <=? netLen) || (32 <=? prefixLen) then Err ErrInvalidPrefix
      else tryDraws (Uint32 ip) (wrap 32 (Z.shiftl 1 (32 - prefixLen))) prefixLen used draw 0 (maxAttempts netLen prefixLen)
  end.

(** The new subnet is stored and the process exits, or the conflict stays. *)
Definition reselectSubnet (network : IPNet) (prefixLen : Z) (subnetStr : string) (used : gset string)
    (draw : nat -> option Z) (stored : string -> bool) : option string :=
  match AllocateSubnet network prefixLen ({[subnetStr]} ∪ used) draw with
  | Err _ => None
  | Ok s => if stored s then Some s else None
  end.

(** ** What the order of node IDs does *)

Lemma strlt_antisym a b : String.ltb a b = true -> String.ltb b a = false.
Proof. apply strlt_le. Qed.

Lemma strlt_total a b : String.ltb a b = false -> String.ltb b a = false -> a = b.
Proof. intros. by apply strle_antisym. Qed.

Lemma compareNodeIDs_opp a b : compareNodeIDs b a = - compareNodeIDs a b.
Proof.
  unfold compareNodeIDs. destruct (ParseUint a) as [x|], (ParseUint b) as [y|].
  1: destruct (Z.ltb_spec x y), (Z.ltb_spec y x); lia.
  all: destruct (String.ltb a b) eqn:E1, (String.ltb b a) eqn:E2; try done; by rewrite (strlt_antisym _ _ E1) in E2.
Qed.

Lemma compareNodeIDs_zero a b : compareNodeIDs a b = 0 -> a = b \/ exists n, ParseUint a = Some n /\ ParseUint b = Some n.
Proof.
  unfold compareNodeIDs. destruct (ParseUint a) as [x|], (ParseUint b) as [y|].
  1: { destruct (Z.ltb_spec x y), (Z.ltb_spec y x); try lia. intros _. right. exists x. split; [done|]. f_equal. lia. }
  all: destruct (String.ltb a b) eqn:E1; [done|]; destruct (String.ltb b a) eqn:E2; [done|]; intros _; left; by apply strlt_total.
Qed.

(** A table in which only [other] claims [subnet]. *)
Definition claimedBy (t : Topology) (subnet other : string) : Prop :=
  Forall (fun p => (piSubnetStr p = subnet -> NodeID p = other) /\
    Forall (fun c => csStr c = subnet -> csNode c = other) (piClaims p)) t /\
  Exists (fun p => (piSubnetStr p = subnet /\ NodeID p = other) \/
    Exists (fun c => csStr c = subnet /\ csNode c = other) (piClaims p)) t.

Lemma conflict_decided nodeID other subnet t : claimedBy t subnet other ->
  (exists used, checkSubnetConflict nodeID subnet t = Some used) <-> losesTo nodeID other = true.
Proof.
  intros [Hall Hex]. unfold checkSubnetConflict.
  assert (Hx : existsb (losesPeer nodeID subnet) t = losesTo nodeID other).
  { destruct (losesTo nodeID other) eqn:El.
    - apply existsb_exists. apply Exists_exists in Hex as (p & Hp & Hc). apply list_elem_of_In in Hp. exists p. split; [done|].
      unfold losesPeer. destruct Hc as [[<- <-]|Hc]; [by rewrite String.eqb_refl, El|].
      apply orb_true_iff. right. apply existsb_exists. apply Exists_exists in Hc as (c & Hcin & <- & <-).
      apply list_elem_of_In in Hcin. exists c. by rewrite String.eqb_refl, El.
    - apply not_true_iff_false. rewrite existsb_exists. intros (p & Hp & Hl). apply list_elem_of_In in Hp.
      rewrite Forall_forall in Hall. destruct (Hall p Hp) as [Hown Hcl]. unfold losesPeer in Hl.
      apply orb_true_iff in Hl as [Hl|Hl].
      + apply andb_prop in Hl as [Hs Hl]. apply String.eqb_eq in Hs. rewrite (Hown Hs) in Hl. congruence.
      + apply existsb_exists in Hl as (c & Hc & Hl). apply list_elem_of_In in Hc. rewrite Forall_forall in Hcl.
        apply andb_prop in Hl as [Hs Hl]. apply String.eqb_eq in Hs. rewrite (Hcl c Hc Hs) in Hl. congruence. }
  rewrite Hx. destruct (losesTo nodeID other); naive_solver.
Qed.

(** When two nodes claim one subnet and each has heard of the other, the conflict
    is decided without a word between them: never both give it up, and exactly one
    does, the one with the smaller ID, unless the two IDs are the same number. *)
Theorem conflict_one_loser a b subnet ta tb : a <> b -> claimedBy ta subnet b -> claimedBy tb subnet a ->
  let la := exists used, checkSubnetConflict a subnet ta = Some used in
  let lb := exists used, checkSubnetConflict b subnet tb = Some used in
  ~ (la /\ lb) /\ (la <-> compareNodeIDs a b < 0) /\ (lb <-> compareNodeIDs b a < 0) /\
  (la \/ lb \/ exists n, ParseUint a = Some n /\ ParseUint b = Some n).
Proof.
  intros Hne Ha Hb. cbv zeta. rewrite (conflict_decided a b subnet ta Ha), (conflict_decided b a subnet tb Hb). unfold losesTo.
  destruct (String.eqb_spec b a) as [|_]; [congruence|]. destruct (String.eqb_spec a b) as [|_]; [congruence|]. cbn [negb andb].
  pose proof (compareNodeIDs_opp a b) as Ho. pose proof (compareNodeIDs_zero a b) as Hz. rewrite !Z.ltb_lt, Ho.
  split_and!; [lia|done|lia|]. destruct (Z.lt_trichotomy (compareNodeIDs a b) 0) as [?|[E|?]]; [by left| |by right; left; lia].
  destruct (Hz E) as [?|?]; [done|by auto].
Qed.

(** The order has cycles: a number beats a smaller number, but against anything else
    it is compared as text. *)
Lemma compareNodeIDs_cycle :
  compareNodeIDs "9" "10" < 0 /\ compareNodeIDs "10" "1a" < 0 /\ compareNodeIDs "1a" "9" < 0.
Proof. vm_compute. done. Qed.

(** ... and distinct IDs that tie: neither node gives way. *)
Lemma compareNodeIDs_tie : compareNodeIDs "7" "07" = 0 /\ compareNodeIDs "07" "7" = 0.
Proof. vm_compute. done. Qed.

(** ** What the new subnet does *)

(** The [i]-th subnet of a network. *)
Definition nthSubnet (network : IPNet) (prefixLen i : Z) : string :=
  fmtSubnet (Uint32 (addr4 (nIP network)) + i * 2 ^ (32 - prefixLen)) prefixLen.

(** The network address has no host bits. *)
Definition aligned (network : IPNet) : Prop :=
  (nLen network <= 32)%nat /\ Forall is_byte (nIP network) /\
  Uint32 (addr4 (nIP network)) mod 2 ^ (32 - Z.of_nat (nLen network)) = 0.

Lemma To4_addr4 l ip : To4 l = Some ip -> addr4 l = ip.
Proof. unfold addr4. by intros ->. Qed.

Lemma tryDraws_ok base size prefixLen used draw n : forall k s, tryDraws base size prefixLen used draw k n = Ok s ->
  (s ∉ used) /\ exists j idx, draw j = Some idx /\ s = fmtSubnet (wrap 32 (base + wrap 32 (idx * size))) prefixLen.
Proof.
  induction n as [|n IH]; intros k s; [done|]. cbn [tryDraws]. destruct (draw k) as [idx|] eqn:E; [|done].
  destruct (decide _) as [|Hn]; [apply IH|]. intros [= <-]. split; [done|]. by exists k, idx.
Qed.

Lemma addr4_is_bytes ip : Forall is_byte ip -> Forall is_byte (addr4 ip).
Proof. apply addr4_bytes. Qed.

(** A subnet is allocated inside the network, aligned, and unused. *)
Lemma AllocateSubnet_fresh network prefixLen used draw s : aligned network ->
  (forall k i, draw k = Some i -> 0 <= i < numSubnets (Z.of_nat (nLen network)) prefixLen) ->
  AllocateSubnet network prefixLen used draw = Ok s ->
  (s ∉ used) /\ Z.of_nat (nLen network) < prefixLen < 32 /\
  exists i, 0 <= i < 2 ^ (prefixLen - Z.of_nat (nLen network)) /\ s = nthSubnet network prefixLen i.
Proof.
  intros (Hlen & Hbytes & Hal) Hdraw. unfold AllocateSubnet, nthSubnet. destruct (To4 (nIP network)) as [ip|] eqn:Hip; [|done].
  rewrite (To4_addr4 _ _ Hip) in *. set (n := Z.of_nat (nLen network)) in *.
  destruct (Z.leb_spec prefixLen n), (Z.leb_spec 32 prefixLen); cbn [orb]; try done. intros Hs.
  apply tryDraws_ok in Hs as (Hu & j & idx & Hj & ->). split; [done|]. split; [lia|].
  assert (Hn : 0 <= n) by (unfold n; lia).
  assert (Hp : 0 < 2 ^ (32 - prefixLen) < 2 ^ 32) by (split; [apply pow2_pos; lia|apply Z.pow_lt_mono_r; lia]).
  assert (Hq : 0 < 2 ^ (prefixLen - n) < 2 ^ 32) by (split; [apply pow2_pos; lia|apply Z.pow_lt_mono_r; lia]).
  specialize (Hdraw j idx Hj). unfold numSubnets in Hdraw. rewrite Z.shiftl_1_l in *. rewrite wrap_small in Hdraw by lia.
  exists idx. split; [done|]. f_equal. rewrite (wrap_small 32 (2 ^ (32 - prefixLen))) by lia.
  pose proof (addr4_is_bytes _ Hbytes) as Hb. rewrite (To4_addr4 _ _ Hip) in Hb. pose proof (Uint32_range ip Hb) as Hr.
  assert (E : 2 ^ (prefixLen - n) * 2 ^ (32 - prefixLen) = 2 ^ (32 - n)) by (rewrite <- Z.pow_add_r by lia; f_equal; lia).
  assert (E2 : 2 ^ n * 2 ^ (32 - n) = 2 ^ 32) by (rewrite <- Z.pow_add_r by lia; f_equal; lia).
  assert (Hidx : 0 <= idx * 2 ^ (32 - prefixLen) < 2 ^ (32 - n)) by nia.
  assert (H32 : 0 < 2 ^ (32 - n) <= 2 ^ 32) by (split; [apply pow2_pos; lia|apply Z.pow_le_mono_r; lia]).
  rewrite (wrap_small 32 (idx * _)) by lia. apply wrap_small.
  apply Z.mod_divide in Hal as [q Hq2]; [|lia]. assert (q + 1 <= 2 ^ n) by nia. nia.
Qed.

Lemma usedSubnets_spec t subnet s : s ∈ usedSubnets t subnet <->
  exists p, p ∈ t /\ ((s = piSubnetStr p /\ s <> ""%string /\ s <> subnet) \/ exists c, c ∈ piClaims p /\ s = csStr c /\ s <> subnet).
Proof.
  assert (Hin : forall cs (used : gset string), s ∈ foldl (fun used c => if String.eqb (csStr c) subnet then used else {[csStr c]} ∪ used) used cs <->
    s ∈ used \/ exists c, c ∈ cs /\ s = csStr c /\ s <> subnet).
  { induction cs as [|c cs IH]; intros used; cbn [foldl].
    - split; [by left|]. intros [?|(c & Hc & _)]; [done|by apply elem_of_nil in Hc].
    - rewrite IH. destruct (String.eqb_spec (csStr c) subnet); set_solver. }
  unfold usedSubnets.
  assert (Hgen : forall l (used : gset string), s ∈ foldl (fun used p =>
      let used := if negb (String.eqb (piSubnetStr p) "") && negb (String.eqb (piSubnetStr p) subnet)
                  then {[piSubnetStr p]} ∪ used else used in
      foldl (fun used c => if String.eqb (csStr c) subnet then used else {[csStr c]} ∪ used) used (piClaims p)) used l <->
    s ∈ used \/ exists p, p ∈ l /\ ((s = piSubnetStr p /\ s <> ""%string /\ s <> subnet) \/ exists c, c ∈ piClaims p /\ s = csStr c /\ s <> subnet)).
  { induction l as [|p l IH]; intros used; cbn [foldl].
    - split; [by left|]. intros [?|(p & Hp & _)]; [done|by apply elem_of_nil in Hp].
    - rewrite IH, Hin. destruct (String.eqb_spec (piSubnetStr p) ""), (String.eqb_spec (piSubnetStr p) subnet); cbn [negb andb]; set_solver. }
  rewrite Hgen. set_solver.
Qed.

Lemma fmtSubnet_nonempty v p : fmtSubnet v p <> ""%string.
Proof.
  unfold fmtSubnet, fmtIP. generalize (pretty (byte_of (Z.shiftr v 24))). intros s. by destruct s.
Qed.

(** Giving way ends the conflict: the subnet the loser picks lies inside the mesh
    network, is not the old one, is claimed by nobody the node has heard of, and with
    it the next check finds no conflict. *)
Theorem reselect_resolves network prefixLen nodeID subnet t used draw stored s : aligned network ->
  (forall k i, draw k = Some i -> 0 <= i < numSubnets (Z.of_nat (nLen network)) prefixLen) ->
  checkSubnetConflict nodeID subnet t = Some used ->
  reselectSubnet network prefixLen subnet used draw stored = Some s ->
  s <> subnet /\ stored s = true /\ checkSubnetConflict nodeID s t = None /\
  (exists i, 0 <= i < 2 ^ (prefixLen - Z.of_nat (nLen network)) /\ s = nthSubnet network prefixLen i).
Proof.
  intros Hal Hdraw Hc Hre. unfold checkSubnetConflict in Hc. destruct (existsb _ t); [|done]. injection Hc as <-.
  unfold reselectSubnet in Hre. destruct (AllocateSubnet _ _ _ _) as [s'|] eqn:Ea; [|done].
  destruct (stored s') eqn:Es; [|done]. injection Hre as ->.
  destruct (AllocateSubnet_fresh _ _ _ _ _ Hal Hdraw Ea) as (Hu & _ & i & Hi & Ei).
  assert (Hne : s <> ""%string) by (rewrite Ei; apply fmtSubnet_nonempty).
  rewrite elem_of_union, elem_of_singleton, usedSubnets_spec in Hu.
  assert (Hs : s <> subnet) by naive_solver. split_and!; [done|done| |by exists i].
  unfold checkSubnetConflict. replace (existsb (losesPeer nodeID s) t) with false; [done|]. symmetry.
  apply not_true_iff_false. rewrite existsb_exists. intros (p & Hp & Hl). apply list_elem_of_In in Hp.
  apply Hu. right. exists p. split; [done|]. unfold losesPeer in Hl. apply orb_true_iff in Hl as [Hl|Hl].
  - apply andb_prop in Hl as [He _]. apply String.eqb_eq in He. by left.
  - apply existsb_exists in Hl as (c & Hcin & Hl). apply list_elem_of_In in Hcin. apply andb_prop in Hl as [He _].
    apply String.eqb_eq in He. right. by exists c.
Qed.

(** ** Concrete nodes *)

Definition demoPeerOf (node subnet : string) : PeerInfo :=
  mkPeerInfo (Some (mkSender 1 node 1 1 ""%string None)) (Some (mkNet [100; 1; 0; 0] 16)) subnet [] [] [] 5.

Lemma claimedBy_one node subnet : claimedBy [demoPeerOf node subnet] subnet node.
Proof. split; [by repeat constructor|]. apply Exists_cons_hd. by left. Qed.

Lemma conflict_one_loser_witness :
  ~ ((exists used, checkSubnetConflict "5" "100.1.0.0/16" [demoPeerOf "12" "100.1.0.0/16"] = Some used) /\
     (exists used, checkSubnetConflict "12" "100.1.0.0/16" [demoPeerOf "5" "100.1.0.0/16"] = Some used)).
Proof.
  apply (conflict_one_loser "5" "12" "100.1.0.0/16"); [discriminate|apply claimedBy_one|apply claimedBy_one].
Defined.

Lemma reselect_resolves_witness :
  checkSubnetConflict "5" "100.7.0.0/16" [demoPeerOf "12" "100.1.0.0/16"] = None.
Proof.
  apply (reselect_resolves (mkNet [100; 0; 0; 0] 8) 16 "5" "100.1.0.0/16" [demoPeerOf "12" "100.1.0.0/16"] ∅
    (fun k => Some (if decide (k = 0%nat) then 1 else 7)) (fun _ => true)).
  - split; [cbn; lia|]. split; [repeat constructor; vm_compute; congruence|vm_compute; reflexivity].
  - intros k i [= <-]. unfold numSubnets. destruct (decide _); vm_compute; split; congruence.
  - vm_compute. reflexivity.
  - vm_compute. reflexivity.
Defined.
