(* ===== verification/MeshRoutes.v ===== *)
(** Routing decisions of a mesh node: the suffix trie for domains
    (src/mesh/node_trie.go), the sticky choice of an egress node and of next hops
    (src/mesh/mesh.go) and the route selector of the network stack
    (src/mesh/route_selector.go).

    Domain names are ASCII for ToLower, which maps A-Z; a [range] over a string decodes
    UTF-8. *)

From Stdlib Require Import ZArith Lia String Ascii.
From stdpp Require Import base list numbers strings gmap sets.
From S2P Require Import Prelude GoStrings GoFloat FloatOrder IPPacket RouteTrie MeshPaths MeshTopology.
Open Scope Z_scope.

Inductive RouteSource := RouteSourceStatic | RouteSourceDynamic.
#[global] Instance RouteSource_eq_dec : EqDecision RouteSource.
Proof. solve_decision. Defined.
Record RouteEntry := mkEntry { reNode : string; reSource : RouteSource }.
#[global] Instance RouteEntry_eq_dec : EqDecision RouteEntry.
Proof. solve_decision. Defined.

(** ** Domain suffixes *)

Definition TrimDot (s : string) : string := match s with String "." s' => s' | _ => s end.

Definition splitLabels (domain : string) : list string := reverse (Split "." domain).
Definition normLabels (domain : string) : list string := splitLabels (TrimDot (ToLower domain)).

#[local] Set Warnings "-register-all".
Inductive nodeTrieNode := NNode (children : gmap string nodeTrieNode) (entries : list RouteEntry).
Definition nchildren (t : nodeTrieNode) : gmap string nodeTrieNode := let '(NNode c _) := t in c.
Definition nentries (t : nodeTrieNode) : list RouteEntry := let '(NNode _ e) := t in e.

Definition NewNodeTrie : nodeTrieNode := NNode ∅ [].

(** An entry is added once per node; the first source stays. *)
Definition addEntry (es : list RouteEntry) (e : RouteEntry) : list RouteEntry :=
  if existsb (fun x => String.eqb (reNode x) (reNode e)) es then es else es ++ [e].

Fixpoint insertLabels (t : nodeTrieNode) (labels : list string) (e : RouteEntry) {struct labels} : nodeTrieNode :=
  let '(NNode ch es) := t in
  match labels with
  | [] => NNode ch (addEntry es e)
  | l :: ls => NNode (<[l := insertLabels (default NewNodeTrie (ch !! l)) ls e]> ch) es
  end.

Definition trieInsert (t : nodeTrieNode) (suffix nodeID : string) (source : RouteSource) : nodeTrieNode :=
  insertLabels t (normLabels suffix) (mkEntry nodeID source).

(** The walk of Lookup: [first] says that no label was matched yet. *)
Fixpoint lookupLabels (t : nodeTrieNode) (labels : list string) (first : bool) (acc : Z) (best : list RouteEntry) (bestLen : Z)
    {struct labels} : list RouteEntry * Z :=
  match labels with
  | [] => (best, bestLen)
  | l :: ls =>
      match nchildren t !! l with
      | None => (best, bestLen)
      | Some t' =>
          let acc := acc + Z.of_nat (String.length l) + (if first then 0 else 1) in
          match nentries t' with
          | [] => lookupLabels t' ls false acc best bestLen
          | es => lookupLabels t' ls false acc es acc
          end
      end
  end.

Definition trieLookup (t : nodeTrieNode) (domain : string) : list RouteEntry * Z :=
  lookupLabels t (normLabels domain) true 0 [] 0.

(** *** Reference: a list of suffixes *)

Definition suffixTable := list (string * string * RouteSource).

Definition buildSuffixTrie (table : suffixTable) : nodeTrieNode :=
  foldl (fun t '(s, n, src) => trieInsert t s n src) NewNodeTrie table.

(** The entries of a suffix given by its labels. *)
Definition entriesOf (table : suffixTable) (labels : list string) : list RouteEntry :=
  foldl (fun es '(s, n, src) => if decide (normLabels s = labels) then addEntry es (mkEntry n src) else es) [] table.

(** The length of a suffix in characters, dots included. *)
Definition suffixLen (labels : list string) : Z :=
  foldr (fun l acc => Z.of_nat (String.length l) + acc) 0 labels + Z.of_nat (length labels - 1).

(** The longest of the first [n] prefixes of [labels] that has entries. *)
Fixpoint longestSuffix (table : suffixTable) (labels : list string) (n : nat) : list RouteEntry * Z :=
  match n with
  | O => ([], 0)
  | S n' =>
      match entriesOf table (take n labels) with
      | [] => longestSuffix table labels n'
      | es => (es, suffixLen (take n labels))
      end
  end.

(** *** The trie is its table *)

Fixpoint entriesAt (t : nodeTrieNode) (labels : list string) {struct labels} : list RouteEntry :=
  match labels with
  | [] => nentries t
  | l :: ls => match nchildren t !! l with Some t' => entriesAt t' ls | None => [] end
  end.

Lemma entriesAt_new labels : entriesAt NewNodeTrie labels = [].
Proof. destruct labels as [|l ls]; [done|]. cbn. by rewrite lookup_empty. Qed.

Lemma entriesAt_insert labels : forall t e labels',
  entriesAt (insertLabels t labels e) labels' =
    if decide (labels' = labels) then addEntry (entriesAt t labels') e else entriesAt t labels'.
Proof.
  induction labels as [|l ls IH]; intros [ch es] e labels'.
  - destruct labels' as [|l' ls']; cbn; by case_decide.
  - destruct labels' as [|l' ls']; cbn [insertLabels entriesAt nchildren nentries]; [by case_decide|].
    destruct (decide (l' = l)) as [->|Hne].
    + rewrite lookup_insert_eq, IH. destruct (ch !! l) as [t'|] eqn:E; cbn [default].
      * change (default NewNodeTrie (Some t')) with t'. repeat case_decide; naive_solver.
      * change (default NewNodeTrie None) with NewNodeTrie. rewrite entriesAt_new. repeat case_decide; naive_solver.
    + rewrite lookup_insert_ne by done. case_decide; naive_solver.
Qed.

Lemma buildSuffixTrie_entries table labels : entriesAt (buildSuffixTrie table) labels = entriesOf table labels.
Proof.
  unfold buildSuffixTrie, entriesOf.
  assert (Hgen : forall t, entriesAt (foldl (fun t '(s, n, src) => trieInsert t s n src) t table) labels =
    foldl (fun es '(s, n, src) => if decide (normLabels s = labels) then addEntry es (mkEntry n src) else es)
      (entriesAt t labels) table).
  { induction table as [|[[s n] src] table IH]; intros t; [done|]. cbn [foldl]. rewrite IH. f_equal.
    unfold trieInsert. rewrite entriesAt_insert. repeat case_decide; congruence. }
  rewrite Hgen. by rewrite entriesAt_new.
Qed.

(** The deepest of the first [n] prefixes of [labels] with entries, and its depth. *)
Fixpoint deepest (t : nodeTrieNode) (labels : list string) (n : nat) : option (list RouteEntry * nat) :=
  match n with
  | O => None
  | S n' => match entriesAt t (take n labels) with [] => deepest t labels n' | es => Some (es, n) end
  end.

Lemma deepest_cons t t' l ls n : nchildren t !! l = Some t' ->
  deepest t (l :: ls) (S n) =
    match deepest t' ls n with
    | Some (es, k) => Some (es, S k)
    | None => match nentries t' with [] => None | es => Some (es, 1%nat) end
    end.
Proof.
  intros Hl. induction n as [|n IH].
  - cbn [deepest take entriesAt]. rewrite Hl. destruct (take 0 ls) eqn:E0; [|by rewrite take_0 in E0]. cbn [entriesAt]. by destruct (nentries t').
  - change (deepest t (l :: ls) (S (S n))) with
      (match entriesAt t (take (S (S n)) (l :: ls)) with [] => deepest t (l :: ls) (S n) | es => Some (es, S (S n)) end).
    rewrite IH. cbn [take entriesAt deepest]. rewrite Hl. by destruct (entriesAt t' (take (S n) ls)).
Qed.

Lemma deepest_none t l ls n : nchildren t !! l = None -> deepest t (l :: ls) n = None.
Proof. intros Hl. induction n as [|n IH]; [done|]. cbn [deepest take entriesAt]. by rewrite Hl. Qed.

Lemma suffixLen_snoc pre l :
  suffixLen (pre ++ [l]) = suffixLen pre + Z.of_nat (String.length l) + (if bool_decide (pre = []) then 0 else 1).
Proof.
  unfold suffixLen. rewrite foldr_app, length_app. cbn [foldr length].
  assert (Hs : forall x, foldr (fun l acc => Z.of_nat (String.length l) + acc) x pre =
    foldr (fun l acc => Z.of_nat (String.length l) + acc) 0 pre + x).
  { intros x. induction pre as [|p pre IHp]; cbn [foldr]; [lia|]. rewrite IHp. lia. }
  rewrite Hs. destruct pre as [|p pre]; [cbn; lia|]. rewrite bool_decide_eq_false_2 by done. cbn [length]. lia.
Qed.

Lemma lookupLabels_deepest labels : forall t pre best bestLen,
  lookupLabels t labels (bool_decide (pre = [])) (suffixLen pre) best bestLen =
    match deepest t labels (length labels) with
    | Some (es, k) => (es, suffixLen (pre ++ take k labels))
    | None => (best, bestLen)
    end.
Proof.
  induction labels as [|l ls IH]; intros t pre best bestLen; [done|]. cbn [lookupLabels length].
  destruct (nchildren t !! l) as [t'|] eqn:E; [|by rewrite deepest_none].
  rewrite (deepest_cons t t' l ls _ E), <- suffixLen_snoc.
  assert (Hf : false = bool_decide (pre ++ [l] = [])) by (rewrite bool_decide_eq_false_2; [done|by destruct pre]).
  destruct (nentries t') as [|e es] eqn:Ees; rewrite Hf, IH; destruct (deepest t' ls (length ls)) as [[es' k]|]; try done;
    cbn [take]; by rewrite <- app_assoc.
Qed.

Lemma deepest_longest table labels n : 
  match deepest (buildSuffixTrie table) labels n with
  | Some (es, k) => (es, suffixLen (take k labels))
  | None => ([], 0)
  end = longestSuffix table labels n.
Proof.
  induction n as [|n IH]; [done|]. cbn [deepest longestSuffix]. rewrite buildSuffixTrie_entries.
  by destruct (entriesOf table (take (S n) labels)).
Qed.

(** The domain trie computes the longest label-wise suffix match: looking a domain
    up in the trie built from any table gives the entries, in the order inserted and
    once per node, of the longest inserted suffix of whole labels, with that suffix's
    length in characters, and nothing when no suffix matches. *)
Theorem trieLookup_longest_suffix table domain :
  trieLookup (buildSuffixTrie table) domain =
    longestSuffix table (normLabels domain) (length (normLabels domain)).
Proof.
  unfold trieLookup. pose proof (lookupLabels_deepest (normLabels domain) (buildSuffixTrie table) [] [] 0) as H.
  rewrite <- deepest_longest. exact H.
Qed.

Example trie_example :
  let t := buildSuffixTrie [("example.com", "n1", RouteSourceStatic); (".COM", "n2", RouteSourceDynamic);
    ("example.com", "n3", RouteSourceDynamic); ("example.com", "n1", RouteSourceDynamic)]%string in
  trieLookup t "www.Example.com" = ([mkEntry "n1" RouteSourceStatic; mkEntry "n3" RouteSourceDynamic], 11) /\
  trieLookup t "badexample.com" = ([mkEntry "n2" RouteSourceDynamic], 3) /\
  trieLookup t "example.org" = ([], 0).
Proof. vm_compute. done. Qed.

(** ** The egress node of a target *)

Definition isStatic (e : RouteEntry) : bool := bool_decide (reSource e = RouteSourceStatic).
(** The stable sort: static entries first, the order kept within a source. *)
Definition staticFirst (es : list RouteEntry) : list RouteEntry :=
  List.filter isStatic es ++ List.filter (fun e => negb (isStatic e)) es.
Definition others (self : string) (es : list RouteEntry) : list RouteEntry :=
  List.filter (fun e => negb (String.eqb (reNode e) self)) es.

(** The 31-multiplier hash in Go's int. *)
Definition hash31 (codes : list Z) : Z := foldl (fun h c => swrap 64 (swrap 64 (h * 31) + c)) 0 codes.
Definition absInt (h : Z) : Z := if h <? 0 then swrap 64 (- h) else h.

(** The choice among the [available] entries under [key]: [None] is an index out of
    range. *)
Definition selectSticky (cache : gmap string string) (key : string) (codes : list Z) (available : list RouteEntry)
  : option (gmap string string * string) :=
  match available with
  | [] => Some (cache, ""%string)
  | _ =>
      let fresh :=
        let idx := Z.rem (absInt (hash31 codes)) (len available) in
        if idx <? 0 then None
        else match available !! Z.to_nat idx with
             | Some e => Some (<[key := reNode e]> cache, reNode e)
             | None => None
             end in
      match cache !! key with
      | Some n => if existsb (fun e => String.eqb (reNode e) n) available then Some (cache, n) else fresh
      | None => fresh
      end
  end.

(** For an address: [key] is its text, [ip] its bytes. *)
Definition selectEgressNodeID (self : string) (cache : gmap string string) (key : string) (ip : list Z) (es : list RouteEntry)
  : option (gmap string string * string) :=
  selectSticky cache key ip (others self (staticFirst es)).

Fixpoint bytesOf (s : string) : list Z :=
  match s with EmptyString => [] | String c s' => Z.of_N (N_of_ascii c) :: bytesOf s' end.

(** The code points a [range] loop over a string yields: UTF-8, an ill-formed byte
    giving U+FFFD and advancing by one. *)
Definition inR (lo b hi : Z) : bool := (lo <=? b) && (b <=? hi).
Definition low6 (b : Z) : Z := Z.land b 63.
Fixpoint runesOf (bs : list Z) : list Z :=
  match bs with
  | [] => []
  | b0 :: t =>
      if b0 <? 128 then b0 :: runesOf t
      else match t with
      | b1 :: t1 =>
          if inR 194 b0 223 && inR 128 b1 191 then Z.shiftl (Z.land b0 31) 6 + low6 b1 :: runesOf t1
          else if inR 224 b0 239 then
            match t1 with
            | b2 :: t2 =>
                if inR (if b0 =? 224 then 160 else 128) b1 (if b0 =? 237 then 159 else 191) && inR 128 b2 191
                then Z.shiftl (Z.land b0 15) 12 + Z.shiftl (low6 b1) 6 + low6 b2 :: runesOf t2
                else 65533 :: runesOf t
            | [] => 65533 :: runesOf t
            end
          else if inR 240 b0 244 then
            match t1 with
            | b2 :: b3 :: t3 =>
                if inR (if b0 =? 240 then 144 else 128) b1 (if b0 =? 244 then 143 else 191) && inR 128 b2 191 && inR 128 b3 191
                then Z.shiftl (Z.land b0 7) 18 + Z.shiftl (low6 b1) 12 + Z.shiftl (low6 b2) 6 + low6 b3 :: runesOf t3
                else 65533 :: runesOf t
            | _ => 65533 :: runesOf t
            end
          else 65533 :: runesOf t
      | [] => 65533 :: runesOf t
      end
  end.
Definition codesOf (s : string) : list Z := runesOf (bytesOf s).

Definition selectEgressNodeIDForDomain (self : string) (cache : gmap string string) (domain : string) (es : list RouteEntry)
  : option (gmap string string * string) :=
  selectSticky cache domain (codesOf domain) (staticFirst (others self es)).

(** Filtering and the stable sort commute, so both ways choose from one list. *)
Lemma filter_comm {A} (f g : A -> bool) l : List.filter f (List.filter g l) = List.filter g (List.filter f l).
Proof.
  induction l as [|x l IH]; [done|]. cbn. destruct (f x) eqn:Ef, (g x) eqn:Eg; cbn; rewrite ?Ef, ?Eg; by rewrite IH.
Qed.

Lemma others_staticFirst self es : others self (staticFirst es) = staticFirst (others self es).
Proof. unfold others, staticFirst. rewrite List.filter_app. by rewrite !(filter_comm (fun e => negb (String.eqb _ _))). Qed.

Lemma others_in self es e : e ∈ others self (staticFirst es) <-> e ∈ es /\ reNode e <> self.
Proof.
  unfold others, staticFirst. rewrite !list_elem_of_In, List.filter_In, in_app_iff, !List.filter_In, negb_true_iff.
  destruct (String.eqb_spec (reNode e) self), (isStatic e); cbn; naive_solver.
Qed.

Lemma hash31_range codes : - 2 ^ 63 <= hash31 codes < 2 ^ 63.
Proof.
  unfold hash31. apply (foldl_inv (fun h => - 2 ^ 63 <= h < 2 ^ 63)); [|lia].
  intros h c _ _. pose proof (swrap_range 64 (swrap 64 (h * 31) + c)). lia.
Qed.

Lemma absInt_spec h : - 2 ^ 63 <= h < 2 ^ 63 -> absInt h = if h =? - 2 ^ 63 then h else Z.abs h.
Proof.
  intros Hh. unfold absInt. destruct (Z.ltb_spec h 0), (Z.eqb_spec h (- 2 ^ 63)) as [->|]; try lia; [done|].
  rewrite swrap_small; lia.
Qed.

Definition nodeIn (n : string) (es : list RouteEntry) : Prop := exists e, e ∈ es /\ reNode e = n.

Lemma nodeIn_existsb n es : existsb (fun e => String.eqb (reNode e) n) es = true <-> nodeIn n es.
Proof.
  rewrite existsb_exists. split; intros (e & He & Hn); exists e; rewrite ?list_elem_of_In, ?String.eqb_eq in *; done.
Qed.

(** The index is in range unless the hash is the smallest int and the number of owners
    does not divide it. *)
Definition hashIndexed (codes : list Z) (n : Z) : Prop := hash31 codes <> - 2 ^ 63 \/ (2 ^ 63) mod n = 0.

Lemma hash_index codes n : 0 < n ->
  let idx := Z.rem (absInt (hash31 codes)) n in
  (hashIndexed codes n -> 0 <= idx < n) /\ (~ hashIndexed codes n -> idx < 0).
Proof.
  intros Hn idx. pose proof (hash31_range codes) as Hr. unfold hashIndexed. subst idx. rewrite (absInt_spec _ Hr).
  destruct (Z.eqb_spec (hash31 codes) (- 2 ^ 63)) as [->|].
  - pose proof (Z.mod_pos_bound (2 ^ 63) n Hn). rewrite Z.rem_opp_l by lia. rewrite Z.rem_mod_nonneg by lia.
    split; [intros [|]|intros ?; destruct (Z.eq_dec (2 ^ 63 mod n) 0)]; [done|lia|tauto|lia].
  - pose proof (Z.rem_bound_pos (Z.abs (hash31 codes)) n ltac:(lia) Hn). split; [lia|tauto].
Qed.

(** What the choice does, case by case: the remembered node, a new one, or a panic. *)
Inductive Choice (cache : gmap string string) (key : string) (codes : list Z) (av : list RouteEntry)
  : option (gmap string string * string) -> Prop :=
| Remembered n : cache !! key = Some n -> nodeIn n av -> Choice cache key codes av (Some (cache, n))
| Chosen n : (forall m, cache !! key = Some m -> ~ nodeIn m av) -> nodeIn n av ->
    Choice cache key codes av (Some (<[key := n]> cache, n))
| Panics : (forall m, cache !! key = Some m -> ~ nodeIn m av) -> hash31 codes = - 2 ^ 63 ->
    Choice cache key codes av None.

Lemma selectSticky_spec cache key codes av : av <> [] -> Choice cache key codes av (selectSticky cache key codes av).
Proof.
  intros Hne. assert (Hlen : 0 < len av) by (destruct av; [done|]; rewrite len_cons; pose proof (len_nonneg av); lia).
  destruct (hash_index codes (len av) Hlen) as [Hin Hout].
  set (fresh := let idx := Z.rem (absInt (hash31 codes)) (len av) in
    if idx <? 0 then None else match av !! Z.to_nat idx with
      | Some e => Some (<[key := reNode e]> cache, reNode e) | None => None end).
  assert (Hfresh : (forall m, cache !! key = Some m -> ~ nodeIn m av) -> Choice cache key codes av fresh).
  { intros Hno. subst fresh. cbv zeta in *. destruct (Z.ltb_spec (Z.rem (absInt (hash31 codes)) (len av)) 0).
    - apply Panics; [done|]. destruct (Z.eq_dec (hash31 codes) (- 2 ^ 63)); [done|].
      assert (hashIndexed codes (len av)) as Hi by (by left). apply Hin in Hi. lia.
    - destruct (lookup_lt_is_Some_2 av (Z.to_nat (Z.rem (absInt (hash31 codes)) (len av)))) as [e He].
      { pose proof (Z.rem_bound_abs (absInt (hash31 codes)) (len av) ltac:(lia)). unfold len in *. lia. }
      rewrite He. apply Chosen; [done|]. exists e. split; [by eapply list_elem_of_lookup_2|done]. }
  assert (Eq : selectSticky cache key codes av =
    match cache !! key with
    | Some n => if existsb (fun e => String.eqb (reNode e) n) av then Some (cache, n) else fresh
    | None => fresh end) by (by destruct av).
  rewrite Eq. destruct (cache !! key) as [n|] eqn:Ec; [|by apply Hfresh].
  destruct (existsb _ av) eqn:Ex; [by apply Remembered; [|apply nodeIn_existsb]|].
  apply Hfresh. intros m [= <-] Hi. apply nodeIn_existsb in Hi. congruence.
Qed.

Lemma nodeIn_others self n es : nodeIn n (others self (staticFirst es)) <-> nodeIn n es /\ n <> self.
Proof.
  unfold nodeIn. split.
  - intros (e & He & <-). apply others_in in He as [? ?]. split; [by exists e|done].
  - intros [(e & He & <-) ?]. exists e. split; [by apply others_in|done].
Qed.

Lemma others_nonempty self es : others self es <> [] -> others self (staticFirst es) <> [].
Proof.
  rewrite others_staticFirst. unfold staticFirst. destruct (others self es) as [|e l]; [done|]. intros _.
  cbn. destruct (isStatic e); cbn; [done|]. by destruct (List.filter isStatic l).
Qed.

(** A remembered owner stays chosen. *)
Lemma selectSticky_again cache key codes av n : cache !! key = Some n -> nodeIn n av ->
  selectSticky cache key codes av = Some (cache, n).
Proof.
  intros Hc Hi. assert (Hne : av <> []) by (destruct Hi as (e & He & _); by intros ->; apply elem_of_nil in He).
  destruct (selectSticky_spec cache key codes av Hne) as [m Hm _|m Hno _|Hno _]; [congruence|by destruct (Hno n Hc)..].
Qed.

(** The egress choice is sticky: it is always another node that owns the target;
    a remembered choice is kept as long as that node still owns the target; the new
    choice is remembered for this target only; and asking again gives the same node for
    every later set of owners that still contains it.  The one exception is a target
    whose hash is the smallest int, whose absolute value is negative: only there can the
    choice panic. *)
Theorem egress_sticky self cache domain es : others self es <> [] ->
  match selectEgressNodeIDForDomain self cache domain es with
  | Some (cache', n) =>
      n <> self /\ nodeIn n es /\
      (forall m, cache !! domain = Some m -> nodeIn m es -> m <> self -> n = m /\ cache' = cache) /\
      (forall k, k <> domain -> cache' !! k = cache !! k) /\
      forall es', nodeIn n es' -> selectEgressNodeIDForDomain self cache' domain es' = Some (cache', n)
  | None => hash31 (codesOf domain) = - 2 ^ 63
  end.
Proof.
  intros Hne. unfold selectEgressNodeIDForDomain. rewrite <- others_staticFirst.
  destruct (selectSticky_spec cache domain (codesOf domain) _ (others_nonempty self es Hne)) as [n Hc Hn|n Hno Hn|]; [..|done];
    apply nodeIn_others in Hn as [Hn Hs]; split_and!; try done.
  - intros m Hm _ _. split; [congruence|done].
  - intros es' Hi. rewrite <- others_staticFirst. apply selectSticky_again; [done|by apply nodeIn_others].
  - intros m Hm Hi Hms. destruct (Hno m Hm). by apply nodeIn_others.
  - intros k Hk. by rewrite lookup_insert_ne.
  - intros es' Hi. rewrite <- others_staticFirst. apply selectSticky_again; [apply lookup_insert_eq|by apply nodeIn_others].
Qed.

Lemma egress_sticky_witness :
  let es := [mkEntry "a" RouteSourceDynamic; mkEntry "b" RouteSourceStatic; mkEntry "c" RouteSourceDynamic] in
  others "a" es <> [] /\
  match selectEgressNodeIDForDomain "a" ∅ "www.example.com" es with
  | Some (cache', n) => n <> "a"%string /\ nodeIn n es /\ cache' !! "www.example.com"%string = Some n
  | None => False
  end.
Proof.
  intros es. split; [done|].
  pose proof (egress_sticky "a" ∅ "www.example.com" es ltac:(done)) as Hs.
  assert (Hc : exists c n, selectEgressNodeIDForDomain "a" ∅ "www.example.com" es = Some (c, n) /\
    c !! "www.example.com"%string = Some n) by (eexists _, _; split; vm_compute; reflexivity).
  destruct Hc as (c & n & E & Hn). rewrite E in *. destruct Hs as (? & ? & _). done.
Defined.

(** The hash of this domain is the smallest int: with three owners the index is -2. *)
Example egress_panics :
  hash31 (codesOf "sabrdyitylhwq.example.com") = - 2 ^ 63 /\
  selectEgressNodeIDForDomain "self" ∅ "sabrdyitylhwq.example.com"
    [mkEntry "a" RouteSourceDynamic; mkEntry "b" RouteSourceDynamic; mkEntry "c" RouteSourceDynamic] = None.
Proof. vm_compute. done. Qed.

(** Sorting static entries first does not prefer them: the hash chooses among all. *)
Example static_not_preferred :
  match selectEgressNodeIDForDomain "self" ∅ "a.example"
    [mkEntry "fixed" RouteSourceStatic; mkEntry "gossiped" RouteSourceDynamic] with
  | Some (_, n) => n = "gossiped"%string
  | None => False
  end.
Proof. vm_compute. reflexivity. Qed.
