(* ===== verification/MeshTable.v ===== *)
(** The route table of a mesh node (src/mesh/mesh.go): its computation from the peer
    table, the configuration and the shortest paths, the choice of next hops from it,
    and the route decision handed to the network stack (src/mesh/netstack.go,
    src/mesh/route_selector.go).

    net.ParseCIDR and IPNet.String are arguments, so are the orders in which maps are
    ranged and the sort, which need not be stable. *)

From Stdlib Require Import ZArith Lia String Ascii Permutation Sorted.
From stdpp Require Import base list numbers strings gmap sets.
From S2P Require Import Prelude GoStrings GoFloat FloatOrder IPPacket RouteTrie MeshPaths MeshTopology MeshRoutes.
Open Scope Z_scope.

(** ** Data *)

Record MeshStaticRoute := mkStatic { msPrefix : string; msNodes : list string }.
Record MeshStaticDomainSuffix := mkStaticSuffix { mdSuffix : string; mdNodes : list string }.

Record MeshConfig := mkConfig {
  mcNode : string; mcSubnetStr : string; mcSubnet : option IPNet; mcNetwork : option IPNet;
  mcAdvertise : list string; mcSuffixes : list string;
  mcStatic : list MeshStaticRoute; mcStaticSuffixes : list MeshStaticDomainSuffix }.

Record MeshRoute := mkMeshRoute { mrPrefix : IPNet; mrEntries : list RouteEntry }.

(** An owner of a prefix as one peer tells it. *)
Record peerEntry := mkPeerEntry { peSender : PeerSender; peHop : Z; pePrefix : IPNet; peOwner : string }.

(** A node as the domain routes know it; the own node has no sender. *)
Record nodeClaim := mkNodeClaim { ncSender : option PeerSender; ncSubnet : option IPNet; ncHop : Z }.

Record routeTable := mkTable {
  rtRoutes : list MeshRoute;
  rtTrie : routeTrieNode MeshRoute;
  rtDomains : nodeTrieNode;
  rtNodes : gmap string nodeClaim;
  rtPaths : gmap string (dijkstraResult float64);
  rtOwner : gmap (list Z) string }.

Record PeerWithHop := mkPWH { pwPeer : PeerSender; pwHop : Z }.

(** ** Networks *)

(** The ones of the mask that apply to an IPv4 address: an IPv4-mapped network has a
    mask of 16 bytes. *)
Definition maskLen (n : IPNet) : nat := if len (nIP n) =? 16 then nLen n - 96 else nLen n.

(** IPNet.Contains. *)
Definition Contains (n : IPNet) (ip : list Z) : bool :=
  let x := default ip (To4 ip) in
  match To4 (nIP n) with
  | Some nn => (len x =? 4) && bool_decide (ipBits nn (maskLen n) = ipBits x (maskLen n))
  | None => (len (nIP n) =? 16) && (len x =? 16) && bool_decide (ipBits (nIP n) (nLen n) = ipBits x (nLen n))
  end.

(** ** Routes *)

Definition claimHopFor (p : PeerInfo) (nodeID : string) : option Z :=
  csHop <$> List.find (fun c => String.eqb (csNode c) nodeID) (piClaims p).

Definition appendEntry (m : gmap string (list peerEntry)) (k : string) (e : peerEntry) : gmap string (list peerEntry) :=
  <[k := default [] (m !! k) ++ [e]]> m.

(** The entries of peers are gathered by the text of their prefix. *)
Definition withSender {A} (f : A -> PeerInfo -> PeerSender -> A) (acc : A) (p : PeerInfo) : A :=
  match piSender p with None => acc | Some s => f acc p s end.

Definition addRoutes (m : gmap string (list peerEntry)) (p : PeerInfo) (s : PeerSender) : gmap string (list peerEntry) :=
  foldl (fun m r => match claimHopFor p (prNode r) with
                    | None => m
                    | Some hop => appendEntry m (prStr r) (mkPeerEntry s hop (prNet r) (prNode r))
                    end) m (piRoutes p).

Section Table.
Variable parseCIDR : string -> option IPNet.
Variable netString : IPNet -> string.
Variable sortRoutes : list MeshRoute -> list MeshRoute.

Definition addSubnets (m : gmap string (list peerEntry)) (p : PeerInfo) (s : PeerSender) : gmap string (list peerEntry) :=
  let m := match piNet p with
           | None => m
           | Some n => appendEntry m (netString n) (mkPeerEntry s 1 n (NodeID p))
           end in
  foldl (fun m c => if (csHop c =? 1) && String.eqb (csNode c) (NodeID p) then m
                    else appendEntry m (csStr c) (mkPeerEntry s (csHop c) (csNet c) (csNode c))) m (piClaims p).

Definition allEntries (peers : list PeerInfo) : gmap string (list peerEntry) :=
  foldl (withSender addSubnets) (foldl (withSender addRoutes) ∅ peers) peers.

Definition parses (s : string) : bool := match parseCIDR s with Some _ => true | None => false end.
Definition ownPrefixes (cfg : MeshConfig) : list string :=
  List.filter parses (mcSubnetStr cfg :: mcAdvertise cfg).

(** Every named owner once, in the order of the entries. *)
Definition ownerEntries (es : list peerEntry) : list RouteEntry :=
  foldl (fun acc e => if String.eqb (peOwner e) "" || existsb (fun x => String.eqb (reNode x) (peOwner e)) acc then acc
                      else acc ++ [mkEntry (peOwner e) RouteSourceDynamic]) [] es.

Definition peerRoute (cfg : MeshConfig) (entries : gmap string (list peerEntry)) (prefixStr : string) : option MeshRoute :=
  if existsb (String.eqb prefixStr) (ownPrefixes cfg) then None
  else match entries !! prefixStr with
       | Some (e :: es) => Some (mkMeshRoute (pePrefix e) (ownerEntries (e :: es)))
       | _ => None
       end.

Definition ownRoute (cfg : MeshConfig) (s : string) : option MeshRoute :=
  (fun n => mkMeshRoute n [mkEntry (mcNode cfg) RouteSourceDynamic]) <$> parseCIDR s.

(** A static route is merged into the first route of its prefix, its entries first. *)
Fixpoint mergeFirst (prefix : IPNet) (es : list RouteEntry) (routes : list MeshRoute) : list MeshRoute :=
  match routes with
  | [] => [mkMeshRoute prefix es]
  | r :: routes' =>
      if String.eqb (netString (mrPrefix r)) (netString prefix) then mkMeshRoute (mrPrefix r) (es ++ mrEntries r) :: routes'
      else r :: mergeFirst prefix es routes'
  end.

Definition mergeStatic (routes : list MeshRoute) (s : MeshStaticRoute) : list MeshRoute :=
  match parseCIDR (msPrefix s) with
  | None => routes
  | Some prefix => mergeFirst prefix (map (fun n => mkEntry n RouteSourceStatic) (msNodes s)) routes
  end.

(** [order] ranges over the gathered prefixes. *)
Definition buildRoutes (cfg : MeshConfig) (peers : list PeerInfo) (order : list string) : list MeshRoute :=
  let routes := omap (peerRoute cfg (allEntries peers)) order ++ omap (ownRoute cfg) (mcSubnetStr cfg :: mcAdvertise cfg) in
  sortRoutes (foldl mergeStatic routes (mcStatic cfg)).

Definition routeEntry (r : MeshRoute) : tableEntry MeshRoute := RouteTrie.mkEntry (nIP (mrPrefix r)) (nLen (mrPrefix r)) r.

(** ** Nodes and domains *)

Definition closer (best : gmap string nodeClaim) (n : string) (c : nodeClaim) : gmap string nodeClaim :=
  match best !! n with
  | Some e => if ncHop c <? ncHop e then <[n := c]> best else best
  | None => <[n := c]> best
  end.

Definition addNodeClaims (self : string) (best : gmap string nodeClaim) (p : PeerInfo) (s : PeerSender) : gmap string nodeClaim :=
  if String.eqb (NodeID p) "" || String.eqb (NodeID p) self then best
  else
    let best := match piNet p with None => best | Some n => closer best (NodeID p) (mkNodeClaim (Some s) (Some n) 1) end in
    foldl (fun best c => if String.eqb (csNode c) self || String.eqb (csNode c) "" then best
                         else closer best (csNode c) (mkNodeClaim (Some s) (Some (csNet c)) (csHop c))) best (piClaims p).

Definition bestNodes (cfg : MeshConfig) (peers : list PeerInfo) : gmap string nodeClaim :=
  foldl (withSender (addNodeClaims (mcNode cfg)))
    {[mcNode cfg := mkNodeClaim None (parseCIDR (mcSubnetStr cfg)) 0]} peers.

Definition normSuffix (s : string) : string := ToLower (TrimDot s).

(** What is inserted in the domain trie, in order; [order] ranges over the nodes. *)
Definition domainRoutes (cfg : MeshConfig) (peers : list PeerInfo) (order : list string) : list (string * string * RouteSource) :=
  map (fun s => (s, mcNode cfg, RouteSourceStatic)) (mcSuffixes cfg) ++
  (r ← mcStaticSuffixes cfg; map (fun n => (mdSuffix r, n, RouteSourceStatic)) (mdNodes r)) ++
  (p ← peers; match piSender p with
              | None => []
              | Some _ => omap (fun e => if existsb (fun s => String.eqb (normSuffix s) (normSuffix (psfSuffix e))) (mcSuffixes cfg)
                                         then None else Some (psfSuffix e, psfNode e, RouteSourceDynamic)) (piSuffixes p)
              end) ++
  map (fun n => ((n ++ ".phn")%string, n, RouteSourceStatic)) order.

(** IP.Mask over four bytes. *)
Definition mask4 (ip : list Z) (n : nat) : list Z :=
  map (fun i => let m := byte_of (Z.shiftl 255 (8 - Z.max 0 (Z.min 8 (Z.of_nat n - 8 * Z.of_nat i)))) in
                Z.land (byte_at ip (Z.of_nat i)) m) (seq 0 4).

Definition addOwner (m : gmap (list Z) string) (net : option IPNet) (n : string) : gmap (list Z) string :=
  match net with
  | Some net => match To4 (nIP net) with Some ip => <[mask4 ip (maskLen net) := n]> m | None => m end
  | None => m
  end.

Definition subnetOwner (cfg : MeshConfig) (nodes : gmap string nodeClaim) (order : list string) : gmap (list Z) string :=
  addOwner (foldl (fun m n => addOwner m (nodes !! n ≫= ncSubnet) n) ∅ order) (mcSubnet cfg) (mcNode cfg).

Definition resolvePeerLinkNIC (peers : list PeerInfo) (nextHop : string) : option Z :=
  match List.find (fun p => String.eqb (NodeID p) nextHop && bool_decide (is_Some (piSender p))) peers with
  | Some p => piSender p ≫= sdNIC
  | None => None
  end.

(** The orders in which one recomputation ranges its maps. *)
Record Ranges := mkRanges {
  rgPrefixes : list string; rgNodes : list string; rgOwners : list string;
  rgNeighbors : list string; rgClaims : list string; rgValidated : list string;
  rgSearch : nat -> list string; rgEdges : string -> list string }.

(** The new table and the quality records it created; [None] is a panic. *)
Definition recomputeRoutes (Exp : float64 -> float64) (cfg : MeshConfig) (old : option routeTable) (tr : PeerQualityTracker)
    (peers : list PeerInfo) (now : Time) (rg : Ranges) : option (PeerQualityTracker * routeTable) :=
  let routes := buildRoutes cfg peers (rgPrefixes rg) in
  let domains := buildSuffixTrie (domainRoutes cfg peers (rgNodes rg)) in
  let nodes := bestNodes cfg peers in
  let '(tr, claims) := buildValidatedClaims (mcNode cfg) (mcSubnetStr cfg) tr peers now (rgNeighbors rg) (rgClaims rg) in
  let '(tr, g) := buildTopologyGraph Exp (mcNode cfg) tr peers now claims (rgValidated rg) in
  match dijkstra g (mcNode cfg) (rgSearch rg) (rgEdges rg) with
  | Done best =>
      let best := applyHysteresis g (mcNode cfg) (resolvePeerLinkNIC peers) (rtPaths <$> old) best in
      trie ← buildTrie (map routeEntry routes);
      Some (tr, mkTable routes trie domains nodes best (subnetOwner cfg nodes (rgOwners rg)))
  | _ => None
  end.

(** ** Next hops *)

Definition findRoute (t : routeTable) (dstIP : list Z) : option MeshRoute := Lookup (rtTrie t) dstIP.

(** The cheapest target so far and its next hop. *)
Definition cheaper (self : string) (paths : gmap string (dijkstraResult float64)) (acc : string * float64) (n : string)
  : string * float64 :=
  if String.eqb n self then acc
  else match paths !! n with
       | Some d => if flt (Cost d) (snd acc) then (NextHop d, Cost d) else acc
       | None => acc
       end.

Definition bestNextHop (self : string) (paths : gmap string (dijkstraResult float64)) (targets : list string) : string * float64 :=
  foldl (cheaper self paths) (""%string, cinf) targets.

(** What one peer offers toward a target. *)
Definition candidate (target : string) (p : PeerInfo) : option PeerWithHop :=
  match piSender p with
  | None => None
  | Some s => if String.eqb (NodeID p) target then Some (mkPWH s 1) else mkPWH s <$> claimHopFor p target
  end.

Variable sortCandidates : list PeerWithHop -> list PeerWithHop.

Definition findNextHopsFallback (self : string) (targets : list string) (peers : list PeerInfo) : list PeerWithHop :=
  sortCandidates (n ← targets; if String.eqb n self then [] else omap (candidate n) peers).

Definition linksTo (n : string) (peers : list PeerInfo) : list PeerWithHop :=
  omap (fun p => match piSender p with
                 | Some s => if String.eqb (NodeID p) n then Some (mkPWH s 1) else None
                 | None => None
                 end) peers.

Definition findNextHops (self : string) (t : routeTable) (peers : list PeerInfo) (dstIP : list Z) : list PeerWithHop :=
  match findRoute t dstIP with
  | None => []
  | Some r =>
      let targets := map reNode (mrEntries r) in
      match targets with
      | [] => []
      | _ =>
          let hop := fst (bestNextHop self (rtPaths t) targets) in
          if String.eqb hop "" then findNextHopsFallback self targets peers else linksTo hop peers
      end
  end.

Definition NextHopNodeID (t : routeTable) (peers : list PeerInfo) (target : string) : string :=
  let direct := if existsb (fun p => String.eqb (NodeID p) target && bool_decide (is_Some (piSender p))) peers
                then target else ""%string in
  match rtPaths t !! target with
  | Some d => if String.eqb (NextHop d) "" then direct else NextHop d
  | None => direct
  end.

(** The next hop and the interface of its first link. *)
Definition NextHopLink (t : routeTable) (peers : list PeerInfo) (target : string) : string * option Z :=
  let direct := if existsb (fun p => String.eqb (NodeID p) target && bool_decide (is_Some (piSender p))) peers
                then (target, resolvePeerLinkNIC peers target) else (""%string, None) in
  match rtPaths t !! target with
  | Some d => if String.eqb (NextHop d) "" then direct else (NextHop d, LinkNIC d)
  | None => direct
  end.

(** The subnet a domain's queries are forwarded to; [None] inside is the local pool. *)
Definition ResolveDomainSubnet (self : string) (cache : gmap string string) (t : routeTable) (domain : string)
  : option (gmap string string * option IPNet) :=
  let '(es, matchLen) := trieLookup (rtDomains t) domain in
  if (matchLen =? 0) || bool_decide (es = []) then Some (cache, None)
  else match selectEgressNodeIDForDomain self cache domain es with
       | None => None
       | Some (cache, n) =>
           if String.eqb n "" then Some (cache, None)
           else match rtNodes t !! n with
                | Some (mkNodeClaim (Some _) (Some net) _) => Some (cache, Some net)
                | _ => Some (cache, None)
                end
       end.

(** ** Addresses of nodes *)

Definition getSubnetForNode (cfg : MeshConfig) (peers : list PeerInfo) (n : string) : option IPNet :=
  if String.eqb n (mcNode cfg) then mcSubnet cfg
  else match List.find (fun p => String.eqb (NodeID p) n && bool_decide (is_Some (piNet p))) peers with
       | Some p => piNet p
       | None => csNet <$> List.find (fun c => String.eqb (csNode c) n) (p ← peers; piClaims p)
       end.

Definition getEIPForNode (cfg : MeshConfig) (peers : list PeerInfo) (n : string) : option (list Z) :=
  getSubnetForNode cfg peers n ≫= fun net => CalculateEIP (nIP net).

Definition CalculateVIP (subnetIP : list Z) : option (list Z) :=
  (fun ip => sub ip 0 3 ++ [byte_of (byte_at ip 3 + 1)]) <$> To4 subnetIP.

(** ** The route decision *)

Record SelectRouteResult := mkSelect {
  srLinkNIC : Z; srEgressEIP : option (list Z); srNeedIPIP : bool; srLocalStack : bool; srTarget : string }.

Definition cacheOf := gmap string string.

(** The scan of the routes, longest first; [key] is the text of [dst].  [None] is a
    panic; the cache is the sticky one. *)
Fixpoint selectRoutes (cfg : MeshConfig) (t : routeTable) (peers : list PeerInfo) (key : string) (dst : list Z)
    (cache : cacheOf) (routes : list MeshRoute) : option (cacheOf * option SelectRouteResult) :=
  match routes with
  | [] => Some (cache, None)
  | r :: routes' =>
      let continue cache := selectRoutes cfg t peers key dst cache routes' in
      if negb (Contains (mrPrefix r) dst) then continue cache
      else match mrEntries r with
      | [] => continue cache
      | _ =>
          match selectEgressNodeID (mcNode cfg) cache key dst (mrEntries r) with
          | None => None
          | Some (cache, target) =>
              if String.eqb target "" then continue cache
              else if String.eqb target (mcNode cfg) then Some (cache, Some (mkSelect 0 None false true target))
              else
                let isMesh := match mcNetwork cfg with Some n => Contains n (nIP (mrPrefix r)) | None => false end in
                match NextHopLink t peers target with
                | (hop, Some nic) =>
                    if String.eqb hop "" || (nic =? 0) then continue cache
                    else if isMesh then Some (cache, Some (mkSelect nic None false false target))
                    else match getEIPForNode cfg peers target with
                         | None => continue cache
                         | Some eip => Some (cache, Some (mkSelect nic (Some eip) true false target))
                         end
                | (_, None) => continue cache
                end
          end
      end
  end.

Definition selectRouteFunc (cfg : MeshConfig) (t : routeTable) (peers : list PeerInfo) (key : string) (cache : cacheOf) (dst : list Z)
  : option (cacheOf * option SelectRouteResult) :=
  selectRoutes cfg t peers key dst cache (rtRoutes t).

Record RouteDecision := mkDecision {
  rdEgressNIC : Z; rdLocalStack : bool; rdCacheable : bool; rdNeedIPIP : bool; rdEgressEIP : list Z }.

Record RouteSelectorConfig := mkSelector {
  rsSubnet : option IPNet; rsVIP : list Z; rsGIP : list Z; rsIsFakeIP : option (list Z -> bool);
  rsSelect : option (list Z -> option SelectRouteResult) }.

Definition localDecision (localStack : bool) : RouteDecision := mkDecision 1 localStack true false [].

(** [dst] is a tcpip.Address; the zero Address is the empty list. *)
Definition NewRouteSelector (cfg : RouteSelectorConfig) (dst : list Z) : RouteDecision :=
  let rest :=
    match rsSelect cfg with
    | Some select =>
        match select dst with
        | Some r =>
            if srLocalStack r then localDecision true
            else if negb (srLinkNIC r =? 0) then
              mkDecision (srLinkNIC r) false false (srNeedIPIP r)
                (if srNeedIPIP r then default [] (srEgressEIP r) else [])
            else localDecision true
        | None => localDecision true
        end
    | None => localDecision true
    end in
  if match rsSubnet cfg with Some n => Contains n dst | None => false end
  then localDecision (negb (bool_decide (dst = rsVIP cfg)))
  else if negb (bool_decide (rsGIP cfg = [])) && bool_decide (dst = rsGIP cfg) then localDecision true
  else if negb (bool_decide (rsVIP cfg = [])) && bool_decide (dst = rsVIP cfg) then localDecision false
  else if match rsIsFakeIP cfg with Some f => f dst | None => false end then localDecision true
  else rest.

(** ** What is gathered from the peers *)

Definition entriesAtKey (m : gmap string (list peerEntry)) (k : string) : list peerEntry := default [] (m !! k).

Lemma entriesAt_append m k e k' :
  entriesAtKey (appendEntry m k e) k' = entriesAtKey m k' ++ (if decide (k = k') then [e] else []).
Proof.
  unfold entriesAtKey, appendEntry. destruct (decide (k = k')) as [<-|Hne].
  - by rewrite lookup_insert_eq.
  - by rewrite lookup_insert_ne, app_nil_r.
Qed.

(** No key without entries. *)
Definition noEmpty (m : gmap string (list peerEntry)) : Prop := forall k es, m !! k = Some es -> es <> [].

Lemma noEmpty_append m k e : noEmpty m -> noEmpty (appendEntry m k e).
Proof.
  intros Hm k' es. unfold appendEntry. destruct (decide (k = k')) as [<-|Hne].
  - rewrite lookup_insert_eq. intros [= <-]. by destruct (default [] (m !! k)).
  - rewrite lookup_insert_ne by done. apply Hm.
Qed.

(** A step that appends what [f] says at [k] and keeps keys non-empty. *)
Definition appends {A} (step : gmap string (list peerEntry) -> A -> gmap string (list peerEntry))
    (f : A -> string -> list peerEntry) : Prop :=
  forall m a, (noEmpty m -> noEmpty (step m a)) /\ forall k, entriesAtKey (step m a) k = entriesAtKey m k ++ f a k.

Lemma foldl_appends {A} step (f : A -> string -> list peerEntry) l : appends step f -> forall m,
  (noEmpty m -> noEmpty (foldl step m l)) /\ forall k, entriesAtKey (foldl step m l) k = entriesAtKey m k ++ (l ≫= fun a => f a k).
Proof.
  intros Hs. induction l as [|a l IH]; intros m; cbn [foldl]; [split; [done|intros k; by rewrite app_nil_r]|].
  destruct (Hs m a) as [Hn Hk], (IH (step m a)) as [Hn' Hk']. split; [auto|].
  intros k. rewrite Hk', Hk. cbn. by rewrite <- app_assoc.
Qed.

Definition routesOf (p : PeerInfo) (s : PeerSender) (k : string) : list peerEntry :=
  piRoutes p ≫= fun r => match claimHopFor p (prNode r) with
                        | Some hop => if decide (prStr r = k) then [mkPeerEntry s hop (prNet r) (prNode r)] else []
                        | None => []
                        end.
Definition subnetsOf (p : PeerInfo) (s : PeerSender) (k : string) : list peerEntry :=
  match piNet p with
  | Some n => if decide (netString n = k) then [mkPeerEntry s 1 n (NodeID p)] else []
  | None => []
  end ++
  (piClaims p ≫= fun c => if (csHop c =? 1) && String.eqb (csNode c) (NodeID p) then []
     else if decide (csStr c = k) then [mkPeerEntry s (csHop c) (csNet c) (csNode c)] else []).

Definition ofSender (f : PeerInfo -> PeerSender -> string -> list peerEntry) (p : PeerInfo) (k : string) : list peerEntry :=
  match piSender p with None => [] | Some s => f p s k end.

Lemma addRoutes_appends : appends (withSender addRoutes) (ofSender routesOf).
Proof.
  intros m p. unfold withSender, ofSender. destruct (piSender p) as [s|]; [|split; [done|intros; by rewrite app_nil_r]].
  unfold addRoutes, routesOf. eapply foldl_appends. intros m' r.
  destruct (claimHopFor p (prNode r)) as [hop|]; [|split; [done|intros; by rewrite app_nil_r]].
  split; [apply noEmpty_append|intros; apply entriesAt_append].
Qed.

Lemma addSubnets_appends : appends (withSender addSubnets) (ofSender subnetsOf).
Proof.
  intros m p. unfold withSender, ofSender. destruct (piSender p) as [s|]; [|split; [done|intros; by rewrite app_nil_r]].
  unfold addSubnets, subnetsOf. set (m0 := match piNet p with None => m | Some n => _ end).
  assert (Hm0 : (noEmpty m -> noEmpty m0) /\ forall k, entriesAtKey m0 k = entriesAtKey m k ++
    match piNet p with Some n => if decide (netString n = k) then [mkPeerEntry s 1 n (NodeID p)] else [] | None => [] end).
  { subst m0. destruct (piNet p) as [n|]; [|split; [done|intros; by rewrite app_nil_r]].
    split; [apply noEmpty_append|intros; apply entriesAt_append]. }
  destruct Hm0 as [Hn0 Hk0].
  match goal with |- context [foldl ?st m0 _] => set (step := st) end.
  assert (Hstep : appends step (fun c k => if (csHop c =? 1) && String.eqb (csNode c) (NodeID p) then []
     else if decide (csStr c = k) then [mkPeerEntry s (csHop c) (csNet c) (csNode c)] else [])).
  { intros m' c. subst step. cbv beta. destruct (_ && _); [split; [done|intros; by rewrite app_nil_r]|].
    split; [apply noEmpty_append|intros; apply entriesAt_append]. }
  destruct (foldl_appends step _ (piClaims p) Hstep m0) as [Hn Hk]. split; [auto|].
  intros k. rewrite Hk, Hk0. by rewrite <- app_assoc.
Qed.

Definition offersAt (peers : list PeerInfo) (k : string) : list peerEntry :=
  (peers ≫= fun p => ofSender routesOf p k) ++ (peers ≫= fun p => ofSender subnetsOf p k).

(** The gathered entries are exactly the offers. *)
Lemma allEntries_lookup peers k :
  allEntries peers !! k = match offersAt peers k with [] => None | es => Some es end.
Proof.
  destruct (foldl_appends _ _ peers addRoutes_appends ∅) as [Hn1 Hk1].
  destruct (foldl_appends _ _ peers addSubnets_appends (foldl (withSender addRoutes) ∅ peers)) as [Hn2 Hk2].
  assert (Hne : noEmpty (allEntries peers)) by (apply Hn2, Hn1; intros ? ?; by rewrite lookup_empty).
  specialize (Hk2 k). rewrite Hk1 in Hk2. unfold entriesAtKey in Hk2 at 2. rewrite lookup_empty in Hk2. cbn in Hk2.
  unfold allEntries, entriesAtKey in *. fold (offersAt peers k) in Hk2.
  destruct (foldl (withSender addSubnets) _ peers !! k) as [es|] eqn:E; cbn in Hk2.
  - rewrite <- Hk2. destruct es; [|done]. by destruct (Hne _ _ E).
  - by rewrite <- Hk2.
Qed.

(** [n] owns the prefix written [k] by the word of some connected peer: it advertises the
    route and claims a way to its owner, it has the subnet, or it claims it. *)
Definition offered (peers : list PeerInfo) (k n : string) : Prop :=
  exists p, p ∈ peers /\ is_Some (piSender p) /\
    ((exists r, r ∈ piRoutes p /\ prStr r = k /\ prNode r = n /\ exists c, c ∈ piClaims p /\ csNode c = n) \/
     (exists net, piNet p = Some net /\ netString net = k /\ NodeID p = n) \/
     (exists c, c ∈ piClaims p /\ csStr c = k /\ csNode c = n /\ ~ (csHop c = 1 /\ csNode c = NodeID p))).

Lemma claimHopFor_Some p n : is_Some (claimHopFor p n) <-> exists c, c ∈ piClaims p /\ csNode c = n.
Proof.
  unfold claimHopFor. rewrite fmap_is_Some. split.
  - intros [c Hc]. apply find_some in Hc as [Hin Hn]. exists c. split; [by apply list_elem_of_In|by apply String.eqb_eq].
  - intros (c & Hin & <-). destruct (List.find _ (piClaims p)) eqn:E; [by eexists|].
    apply list_elem_of_In, (find_none _ _ E) in Hin. by rewrite String.eqb_refl in Hin.
Qed.

Lemma offersAt_owner peers k n : (exists e, e ∈ offersAt peers k /\ peOwner e = n) <-> offered peers k n.
Proof.
  unfold offersAt, offered. setoid_rewrite elem_of_app. split.
  - intros (e & [He|He] & <-); apply list_elem_of_bind in He as (p & He & Hp); unfold ofSender in He;
      destruct (piSender p) as [s|] eqn:Es; try (by apply elem_of_nil in He); exists p; (split; [done|]); (split; [by rewrite Es|]).
    + left. unfold routesOf in He. apply list_elem_of_bind in He as (r & He & Hr).
      destruct (claimHopFor p (prNode r)) as [hop|] eqn:Eh; [|by apply elem_of_nil in He].
      destruct (decide (prStr r = k)); [|by apply elem_of_nil in He]. apply list_elem_of_singleton in He as ->. cbn.
      exists r. split_and!; [done..|]. apply claimHopFor_Some. by rewrite Eh.
    + right. unfold subnetsOf in He. apply elem_of_app in He as [He|He].
      * left. destruct (piNet p) as [net|]; [|by apply elem_of_nil in He].
        destruct (decide (netString net = k)); [|by apply elem_of_nil in He]. apply list_elem_of_singleton in He as ->. by exists net.
      * right. apply list_elem_of_bind in He as (c & He & Hc).
        destruct (Z.eqb_spec (csHop c) 1), (String.eqb_spec (csNode c) (NodeID p)); cbn [andb] in He;
          try (by apply elem_of_nil in He);
          (destruct (decide (csStr c = k)); [|by apply elem_of_nil in He]);
          apply list_elem_of_singleton in He as ->; exists c; naive_solver.
  - intros (p & Hp & [s Es] & [(r & Hr & <- & <- & Hc)|[(net & Hnet & <- & <-)|(c & Hc & <- & <- & Hno)]]).
    + apply claimHopFor_Some in Hc as [hop Eh]. exists (mkPeerEntry s hop (prNet r) (prNode r)). split; [left|done].
      apply list_elem_of_bind. exists p. split; [|done]. unfold ofSender. rewrite Es. apply list_elem_of_bind. exists r.
      split; [|done]. rewrite Eh, decide_True by done. by apply list_elem_of_singleton.
    + exists (mkPeerEntry s 1 net (NodeID p)). split; [right|done]. apply list_elem_of_bind. exists p. split; [|done].
      unfold ofSender, subnetsOf. rewrite Es, Hnet, decide_True by done. apply elem_of_app. left. by apply list_elem_of_singleton.
    + exists (mkPeerEntry s (csHop c) (csNet c) (csNode c)). split; [right|done]. apply list_elem_of_bind. exists p. split; [|done].
      unfold ofSender, subnetsOf. rewrite Es. apply elem_of_app. right. apply list_elem_of_bind. exists c. split; [|done].
      destruct (Z.eqb_spec (csHop c) 1), (String.eqb_spec (csNode c) (NodeID p)); cbn [andb];
        try (rewrite decide_True by done; by apply list_elem_of_singleton). by destruct Hno.
Qed.

(** ** Owners of the routes *)

Lemma ownerEntries_spec es : NoDup (map reNode (ownerEntries es)) /\
  Forall (fun x => reSource x = RouteSourceDynamic) (ownerEntries es) /\
  forall n, nodeIn n (ownerEntries es) <-> n <> ""%string /\ exists e, e ∈ es /\ peOwner e = n.
Proof.
  unfold ownerEntries. induction es as [|e es IH] using rev_ind.
  { split_and!; [constructor..|]. intros n. split; [intros (x & Hx & _)|intros (_ & x & Hx & _)]; by apply elem_of_nil in Hx. }
  rewrite foldl_app. cbn [foldl]. set (acc := foldl _ [] es) in *. destruct IH as (Hnd & Hall & Hin).
  assert (Hsplit : forall n, (exists x, x ∈ es ++ [e] /\ peOwner x = n) <-> (exists x, x ∈ es /\ peOwner x = n) \/ peOwner e = n).
  { intros n. setoid_rewrite elem_of_app. setoid_rewrite list_elem_of_singleton. naive_solver. }
  destruct (String.eqb_spec (peOwner e) "") as [E|E]; cbn [orb].
  { split_and!; [done..|]. intros n. rewrite Hin, Hsplit. naive_solver. }
  destruct (existsb _ acc) eqn:Ex.
  - apply nodeIn_existsb in Ex. split_and!; [done..|]. intros n. rewrite Hin, Hsplit. apply Hin in Ex. naive_solver.
  - assert (Hno : ~ nodeIn (peOwner e) acc) by (rewrite <- nodeIn_existsb; congruence). split_and!.
    + rewrite map_app. apply NoDup_app. split_and!; [done| |apply NoDup_singleton].
      intros n Hn Hn'. cbn in Hn'. apply list_elem_of_singleton in Hn' as ->. apply Hno.
      apply list_elem_of_fmap in Hn as (x & -> & Hx). by exists x.
    + apply Forall_app. split; [done|]. by repeat constructor.
    + intros n. rewrite Hsplit. unfold nodeIn in *. setoid_rewrite elem_of_app. setoid_rewrite list_elem_of_singleton.
      split.
      * intros (x & [Hx| ->] & <-); [|naive_solver]. destruct (proj1 (Hin (reNode x))) as [? ?]; [by exists x|]. naive_solver.
      * intros [Hn [Hx| <-]]; [|by eexists; split; [right|]]. destruct (proj2 (Hin n)) as (x & ? & ?); [done|]. exists x. naive_solver.
Qed.

(** [n] owns the network written [q] in a table. *)
Definition owns (routes : list MeshRoute) (q n : string) : Prop :=
  exists r, r ∈ routes /\ netString (mrPrefix r) = q /\ nodeIn n (mrEntries r).

Lemma owns_app a b q n : owns (a ++ b) q n <-> owns a q n \/ owns b q n.
Proof. unfold owns. setoid_rewrite elem_of_app. naive_solver. Qed.

Lemma owns_cons r l q n : owns (r :: l) q n <-> (netString (mrPrefix r) = q /\ nodeIn n (mrEntries r)) \/ owns l q n.
Proof. unfold owns. setoid_rewrite elem_of_cons. naive_solver. Qed.

Lemma owns_nil q n : ~ owns [] q n.
Proof. intros (r & Hr & _). by apply elem_of_nil in Hr. Qed.

Lemma nodeIn_app n a b : nodeIn n (a ++ b) <-> nodeIn n a \/ nodeIn n b.
Proof. unfold nodeIn. setoid_rewrite elem_of_app. naive_solver. Qed.

Lemma nodeIn_map src n l : nodeIn n (map (fun x => mkEntry x src) l) <-> n ∈ l.
Proof.
  unfold nodeIn. split.
  - intros (e & He & <-). by apply list_elem_of_fmap in He as (x & -> & Hx).
  - intros Hn. exists (mkEntry n src). split; [|done]. apply list_elem_of_fmap. by exists n.
Qed.

Lemma owns_mergeFirst prefix es routes q n :
  owns (mergeFirst prefix es routes) q n <-> owns routes q n \/ (netString prefix = q /\ nodeIn n es).
Proof.
  induction routes as [|r routes IH]; cbn [mergeFirst].
  - rewrite owns_cons. cbn. pose proof (owns_nil q n). tauto.
  - destruct (String.eqb_spec (netString (mrPrefix r)) (netString prefix)) as [E|E]; rewrite !owns_cons; cbn [mrPrefix mrEntries].
    + rewrite nodeIn_app, E. tauto.
    + rewrite IH. tauto.
Qed.

Definition staticOwner (cfg : MeshConfig) (q n : string) : Prop :=
  exists s net, s ∈ mcStatic cfg /\ parseCIDR (msPrefix s) = Some net /\ netString net = q /\ n ∈ msNodes s.

Lemma owns_static l routes q n : owns (foldl mergeStatic routes l) q n <->
  owns routes q n \/ exists s net, s ∈ l /\ parseCIDR (msPrefix s) = Some net /\ netString net = q /\ n ∈ msNodes s.
Proof.
  revert routes. induction l as [|s l IH]; intros routes; cbn [foldl].
  - split; [by left|]. intros [?|(? & ? & Hs & _)]; [done|by apply elem_of_nil in Hs].
  - rewrite IH. unfold mergeStatic. setoid_rewrite elem_of_cons. destruct (parseCIDR (msPrefix s)) as [net|] eqn:E.
    + rewrite owns_mergeFirst, nodeIn_map. naive_solver.
    + naive_solver.
Qed.

(** The prefix under which the offers for [k] are installed: that of the first. *)
Definition installedAs (peers : list PeerInfo) (k q : string) : Prop :=
  exists e es, offersAt peers k = e :: es /\ netString (pePrefix e) = q.

Lemma existsb_eqb k l : existsb (String.eqb k) l = true <-> k ∈ l.
Proof. rewrite existsb_exists, list_elem_of_In. split; [intros (x & Hx & ->%String.eqb_eq); done|intros; exists k; by rewrite String.eqb_refl]. Qed.

Lemma owns_peerRoutes cfg peers order q n : (forall k, k ∈ order <-> is_Some (allEntries peers !! k)) ->
  owns (omap (peerRoute cfg (allEntries peers)) order) q n <->
  exists k, (k ∉ ownPrefixes cfg) /\ installedAs peers k q /\ n <> ""%string /\ offered peers k n.
Proof.
  intros Hord. unfold owns, installedAs. split.
  - intros (r & Hr & Hq & Hn). apply list_elem_of_omap in Hr as (k & Hk & Hr). unfold peerRoute in Hr.
    destruct (existsb _ _) eqn:Ex; [done|]. rewrite allEntries_lookup in Hr.
    destruct (offersAt peers k) as [|e es] eqn:Eo; [done|]. injection Hr as <-. cbn [mrPrefix mrEntries] in Hq, Hn.
    apply (proj2 (proj2 (ownerEntries_spec _))) in Hn as [Hne Ho]. exists k.
    split_and!; [intros Hin%existsb_eqb; congruence|by exists e, es|done|]. apply offersAt_owner. by rewrite Eo.
  - intros (k & Hown & (e & es & Eo & Hq) & Hne & Ho). exists (mkMeshRoute (pePrefix e) (ownerEntries (e :: es))).
    split_and!; [|done|].
    + apply list_elem_of_omap. exists k. split; [apply Hord; rewrite allEntries_lookup, Eo; by eexists|].
      unfold peerRoute. destruct (existsb _ _) eqn:Ex; [by apply existsb_eqb in Ex|]. by rewrite allEntries_lookup, Eo.
    + apply ownerEntries_spec. split; [done|]. rewrite <- Eo. by apply offersAt_owner.
Qed.

Lemma owns_ownRoutes cfg q n : owns (omap (ownRoute cfg) (mcSubnetStr cfg :: mcAdvertise cfg)) q n <->
  n = mcNode cfg /\ exists s net, s ∈ mcSubnetStr cfg :: mcAdvertise cfg /\ parseCIDR s = Some net /\ netString net = q.
Proof.
  generalize (mcSubnetStr cfg :: mcAdvertise cfg). intros l. unfold owns, nodeIn. split.
  - intros (r & Hr & Hq & e & He & <-). apply list_elem_of_omap in Hr as (s & Hs & Hr). unfold ownRoute in Hr.
    apply fmap_Some in Hr as (net & Hp & ->). cbn in *. apply list_elem_of_singleton in He as ->. split; [done|]. by exists s, net.
  - intros (-> & s & net & Hs & Hp & Hq). exists (mkMeshRoute net [mkEntry (mcNode cfg) RouteSourceDynamic]).
    split_and!; [|done|by eexists; split; [left|]]. apply list_elem_of_omap. exists s. split; [done|]. unfold ownRoute. by rewrite Hp.
Qed.

(** The route table lists exactly the right owners: whatever the ranges' order and the
    sort, a node owns a network in the computed table when a peer offers that node for
    some text of the network that is not an own prefix, or it is this node and the
    network is its subnet or advertised, or a static route names it. *)
Theorem routeTable_owners cfg peers order q n :
  (forall l, Permutation (sortRoutes l) l) -> (forall k, k ∈ order <-> is_Some (allEntries peers !! k)) ->
  owns (buildRoutes cfg peers order) q n <->
  (exists k, (k ∉ ownPrefixes cfg) /\ installedAs peers k q /\ n <> ""%string /\ offered peers k n) \/
  (n = mcNode cfg /\ exists s net, s ∈ mcSubnetStr cfg :: mcAdvertise cfg /\ parseCIDR s = Some net /\ netString net = q) \/
  staticOwner cfg q n.
Proof.
  intros Hsort Hord. unfold buildRoutes. set (rs := foldl mergeStatic _ _).
  assert (Hp : owns (sortRoutes rs) q n <-> owns rs q n) by (unfold owns; by setoid_rewrite (Hsort rs)).
  rewrite Hp. subst rs. rewrite owns_static, owns_app, owns_peerRoutes, owns_ownRoutes by done. unfold staticOwner. tauto.
Qed.

(** ** Next hops are optimal up to the hysteresis *)

Lemma fle_trans x y z : fle x y = true -> fle y z = true -> fle x z = true.
Proof. float_cases; try done; float_compare. Qed.

Lemma nonneg_not_nan x : nonneg x -> is_nan x = false.
Proof. by destruct x as [[]|[]| |[] ? ?]. Qed.

(** A path costing less than a tenth of the code's infinity. *)
Lemma affordable x : nonneg x -> fle (f64 100000000000000000) x = false -> cltb x cinf = true.
Proof.
  intros Hx Hf. change (cltb x cinf) with (flt x (f64 1000000000000000000)).
  destruct (flt x (f64 100000000000000000)) eqn:E.
  - eapply fle_flt_trans; [by apply flt_fle|]. vm_compute. reflexivity.
  - rewrite (not_flt_fle x _) in Hf; [done|by apply nonneg_not_nan|done|done].
Qed.

(** The paths of a table lead to the nodes they are kept for, over their next hop. *)
Definition pathsLead (paths : gmap string (dijkstraResult float64)) : Prop :=
  forall n d, paths !! n = Some d -> last (Path d) = Some n /\ hd_error (Path d) = Some (NextHop d).

Section Anycast.
Variable g : TopologyGraph float64.
Variable self : string.
Hypothesis Hwf : wfGraph g self.
Variable best : gmap string (dijkstraResult float64).
Hypothesis Hbest : shortestPaths g self best.
(** The table installed before, and the interfaces of the connected peers. *)
Variable old : option (gmap string (dijkstraResult float64)).
Hypothesis Hold : forall o, old = Some o -> pathsLead o.
Variable live : string -> option Z.

(** The paths the new table keeps. *)
Definition keptPaths : gmap string (dijkstraResult float64) := applyHysteresis g self live old best.

Lemma hop_found u v l ls : default [] (default ∅ (Edges g !! u) !! v) = l :: ls -> linksOf g u v = Some (l :: ls).
Proof. unfold linksOf. destruct (Edges g !! u) as [n|]; cbn; [destruct (n !! v); cbn; [by intros ->|done]|by rewrite lookup_empty]. Qed.

Lemma pathCostFrom_nonneg p : forall total u, nonneg total -> nonneg (pathCostFrom g total u p).
Proof.
  induction p as [|v p IH]; intros total u Ht; [done|]. cbn [pathCostFrom].
  destruct (default [] _) as [|l ls] eqn:El; [split; vm_compute; done|]. apply hop_found in El.
  apply (wf_edge _ _ Hwf) in El as [_ [_ Hu]]. apply Forall_cons_iff in Hu as [[Hl _] Hls]. apply IH.
  apply fadd_spec; [done|]. apply fadd_spec; [|split; vm_compute; done].
  enough (Hm : cok (minFrom (lCost l) ls)) by exact Hm. apply minFrom_ok; [done|]. eapply List.Forall_impl; [|exact Hls]. by intros ? [? _].
Qed.

Lemma pathCost_nonneg p : nonneg (pathCost self g p).
Proof. unfold pathCost. destruct p; [split; vm_compute; done|]. by apply pathCostFrom_nonneg. Qed.

(** A path whose evaluation is affordable still exists. *)
Lemma pathCostFrom_walk p : forall total u q c, walk g self u q c ->
  fle (f64 100000000000000000) (pathCostFrom g total u p) = false ->
  exists c', walk g self (default u (last p)) (q ++ p) c'.
Proof.
  induction p as [|v p IH]; intros total u q c Hw Hf; [exists c; by rewrite app_nil_r|]. cbn [pathCostFrom] in Hf.
  destruct (default [] _) as [|l ls] eqn:El; [by vm_compute in Hf|]. apply hop_found in El.
  assert (Hw' := walkSnoc _ _ _ _ _ _ _ Hw El).
  destruct (IH _ _ _ _ Hw' Hf) as (c' & Hc'). exists c'. rewrite <- app_assoc in Hc'.
  destruct p as [|x p]; [exact Hc'|]. rewrite last_cons_cons. destruct (last (x :: p)) eqn:E; [exact Hc'|by apply last_None in E].
Qed.

(** What is installed for a node. *)
Record installedFor (n : string) (d : dijkstraResult float64) : Prop := {
  if_ok : nonneg (Cost d);
  if_finite : cltb (Cost d) cinf = true;
  if_hop : NextHop d <> ""%string;
  if_first : hd_error (Path d) = Some (NextHop d);
  if_last : last (Path d) = Some n;
  if_walk : exists c, walk g self n (Path d) c;
  if_cost : walk g self n (Path d) (Cost d) \/ Cost d = pathCost self g (Path d);
  (** no walk is more than 15% cheaper *)
  if_near : forall p c, walk g self n p c -> cle (Cost d) c \/ fle (fmul (Cost d) (f64_frac 85 100)) c = true
}.

Lemma walk_last v p c : walk g self v p c -> v <> self -> last p = Some v.
Proof. destruct 1; [done|]. intros _. apply last_snoc. Qed.

Lemma best_installed n d : n <> self -> best !! n = Some d -> installedFor n d /\
  (forall p c, walk g self n p c -> cle (Cost d) c).
Proof.
  intros Hn Hd. destruct Hbest as [_ Hp]. specialize (Hp n Hn). rewrite Hd in Hp.
  destruct Hp as (Hw & Hlt & Hmin & Hhd & ls & c & b & Hls & _). split; [constructor|done]; try done.
  - by apply (walk_ok g self Hwf) in Hw as (? & _).
  - intros E. apply (wf_edge _ _ Hwf) in Hls as [Hin _]. apply (wf_named _ _ Hwf). by rewrite <- E.
  - by eapply walk_last.
  - by exists (Cost d).
  - by left.
  - left. by eapply Hmin.
Qed.

Lemma kept_installed n d : n <> self -> keptPaths !! n = Some d -> installedFor n d.
Proof.
  intros Hn Hd. unfold keptPaths, applyHysteresis in Hd. destruct old as [o|] eqn:Eo; [|by apply best_installed].
  rewrite map_lookup_imap in Hd. destruct (best !! n) as [new|] eqn:En; [|done]. cbn in Hd. injection Hd as <-.
  destruct (best_installed n new Hn En) as [Hnew Hmin].
  destruct (o !! n) as [i|] eqn:Ei; [|exact Hnew]. destruct (Hold o eq_refl n i Ei) as [Hlast Hhd].
  destruct (keepRoute_cases g self live i new) as [(nic & Hr & ->)|[-> _]]; [|exact Hnew].
  destruct Hr as (Hne & _ & Hp & _ & Hf & Hk). constructor; cbn [Cost NextHop Path].
  - apply pathCost_nonneg.
  - apply affordable; [apply pathCost_nonneg|done].
  - done.
  - done.
  - done.
  - unfold pathCost in Hf. destruct (Path i) as [|x p] eqn:Ep; [done|].
    destruct (pathCostFrom_walk (x :: p) _ self [] _ (walkNil _ _) Hf) as (c & Hc). exists c. by rewrite Hlast in Hc.
  - by right.
  - intros p c Hw. right. eapply fle_trans; [exact Hk|].
    destruct (walk_ok g self Hwf _ _ _ Hw) as (Hc & _). apply not_flt_fle; [by apply nonneg_not_nan|apply nonneg_not_nan, Hnew|by eapply Hmin].
Qed.

Lemma kept_none n p c : n <> self -> keptPaths !! n = None -> walk g self n p c -> cle cinf c.
Proof.
  intros Hn Hp Hw. assert (Hb : best !! n = None).
  { unfold keptPaths, applyHysteresis in Hp. destruct old; [|done]. rewrite map_lookup_imap in Hp. by destruct (best !! n). }
  pose proof (proj2 Hbest n Hn) as Hx. rewrite Hb in Hx. by eapply Hx.
Qed.

Lemma kept_self : keptPaths !! self = None.
Proof.
  unfold keptPaths, applyHysteresis. destruct old; [|apply Hbest]. rewrite map_lookup_imap. by rewrite (proj1 Hbest).
Qed.

Lemma kept_lead : pathsLead keptPaths.
Proof.
  intros n d Hd. destruct (decide (n = self)) as [->|Hn]; [by rewrite kept_self in Hd|].
  destruct (kept_installed n d Hn Hd). done.
Qed.

(** What the scan of the targets holds: nothing reachable yet, or the cheapest. *)
Definition scanInv (seen : list string) (acc : string * float64) : Prop :=
  (acc = (""%string, cinf) /\ forall m, m ∈ seen -> m <> self -> keptPaths !! m = None) \/
  exists n d, n ∈ seen /\ n <> self /\ keptPaths !! n = Some d /\ acc = (NextHop d, Cost d) /\
    forall m d', m ∈ seen -> m <> self -> keptPaths !! m = Some d' -> cle (Cost d) (Cost d').

Lemma scanInv_step seen acc n : scanInv seen acc -> scanInv (seen ++ [n]) (cheaper self keptPaths acc n).
Proof.
  intros Hi. unfold cheaper. destruct (String.eqb_spec n self) as [->|Hn].
  { destruct Hi as [[-> Hno]|(n & d & Hin & Hns & Hd & -> & Hmin)]; [left|right].
    - split; [done|]. intros m Hm Hs. apply elem_of_app in Hm as [Hm|Hm%list_elem_of_singleton]; auto; done.
    - exists n, d. split_and!; [apply elem_of_app; by left|done..|]. intros m d' Hm Hs.
      apply elem_of_app in Hm as [Hm|Hm%list_elem_of_singleton]; [by apply Hmin|done]. }
  destruct (keptPaths !! n) as [dn|] eqn:En.
  2: { destruct Hi as [[-> Hno]|(m0 & d & Hin & Hns & Hd & -> & Hmin)]; [left|right].
    - split; [done|]. intros m Hm Hs. apply elem_of_app in Hm as [Hm|Hm%list_elem_of_singleton]; [auto|congruence].
    - exists m0, d. split_and!; [apply elem_of_app; by left|done..|]. intros m d' Hm Hs.
      apply elem_of_app in Hm as [Hm| ->%list_elem_of_singleton]; [by apply Hmin|congruence]. }
  destruct (kept_installed n dn Hn En) as [Hok Hlt _ _ _ _ _ _]. right.
  assert (Hlast : n ∈ seen ++ [n]) by (apply elem_of_app; right; by apply list_elem_of_singleton).
  destruct Hi as [[-> Hno]|(m0 & d & Hin & Hns & Hd & -> & Hmin)]; cbn [snd].
  - change (flt (Cost dn) cinf) with (cltb (Cost dn) cinf). rewrite Hlt. exists n, dn. split_and!; [done..|].
    intros m d' Hm Hs Hd'. apply elem_of_app in Hm as [Hm| ->%list_elem_of_singleton]; [rewrite Hno in Hd' by done; done|].
    assert (d' = dn) as -> by congruence. apply cle_refl.
  - destruct (kept_installed m0 d Hns Hd) as [Hokd _ _ _ _ _ _ _]. change (flt (Cost dn) (Cost d)) with (cltb (Cost dn) (Cost d)).
    destruct (cltb (Cost dn) (Cost d)) eqn:Ec.
    + exists n, dn. split_and!; [done..|]. intros m d' Hm Hs Hd'.
      apply elem_of_app in Hm as [Hm| ->%list_elem_of_singleton].
      * apply (cle_trans _ (Cost d)); [done|done|by apply clt_cle|by eapply Hmin].
      * assert (d' = dn) as -> by congruence. apply cle_refl.
    + exists m0, d. split_and!; [apply elem_of_app; by left|done..|]. intros m d' Hm Hs Hd'.
      apply elem_of_app in Hm as [Hm| ->%list_elem_of_singleton]; [by eapply Hmin|].
      assert (d' = dn) as -> by congruence. done.
Qed.

Lemma bestNextHop_spec targets : scanInv targets (bestNextHop self keptPaths targets).
Proof.
  unfold bestNextHop. induction targets as [|n l IH] using rev_ind.
  - left. split; [done|]. intros m Hm. by apply elem_of_nil in Hm.
  - rewrite foldl_app. by apply scanInv_step.
Qed.

(** The nodes worth sending to: owners other than this node. *)
Definition target (r : MeshRoute) (n : string) : Prop := nodeIn n (mrEntries r) /\ n <> self.

Lemma target_in r n : n ∈ map reNode (mrEntries r) <-> nodeIn n (mrEntries r).
Proof. unfold nodeIn. split; [intros (e & -> & He)%list_elem_of_fmap; by exists e|intros (e & He & <-); apply list_elem_of_fmap; by exists e]. Qed.

(** An owner with a path installed. *)
Definition reaches (r : MeshRoute) (n : string) (d : dijkstraResult float64) : Prop :=
  target r n /\ keptPaths !! n = Some d /\ installedFor n d.

(** Cost [c] is best up to the hysteresis: it is at most what is installed for any other
    owner, and a walk to an owner can undercut that owner's path by 15% at most. *)
Definition nearBest (r : MeshRoute) (c : float64) : Prop :=
  forall m p c', target r m -> walk g self m p c' ->
    match keptPaths !! m with
    | None => cle cinf c'
    | Some dm => cle c (Cost dm) /\ (cle (Cost dm) c' \/ fle (fmul (Cost dm) (f64_frac 85 100)) c' = true)
    end.

Lemma bestNextHop_anycast r : let hop := fst (bestNextHop self keptPaths (map reNode (mrEntries r))) in
  if String.eqb hop "" then forall n p c, target r n -> walk g self n p c -> cle cinf c
  else exists n d, reaches r n d /\ NextHop d = hop /\ nearBest r (Cost d).
Proof.
  cbv zeta. destruct (bestNextHop_spec (map reNode (mrEntries r))) as [[-> Hno]|(n & d & Hin & Hns & Hd & -> & Hmin)]; cbn [fst].
  - intros n p c [Hn Hs] Hw. eapply kept_none; [done| |done]. apply Hno; [by apply target_in|done].
  - pose proof (kept_installed n d Hns Hd) as Hi. destruct (String.eqb_spec (NextHop d) ""); [by destruct (if_hop _ _ Hi)|].
    exists n, d. split; [split_and!; [by split; [apply target_in|]|done..]|split; [done|]].
    intros m p c' [Hm Hms] Hwm. destruct (keptPaths !! m) as [dm|] eqn:Em.
    + split; [by eapply Hmin; [apply target_in|..]|]. eapply if_near; [by apply kept_installed|done].
    + by eapply kept_none.
Qed.

End Anycast.

Lemma linksTo_in n peers x : x ∈ linksTo n peers <->
  exists p s, p ∈ peers /\ piSender p = Some s /\ NodeID p = n /\ x = mkPWH s 1.
Proof.
  unfold linksTo. rewrite list_elem_of_omap. split.
  - intros (p & Hp & Hx). destruct (piSender p) as [s|] eqn:Es; [|done].
    destruct (String.eqb_spec (NodeID p) n); [|done]. injection Hx as <-. by exists p, s.
  - intros (p & s & Hp & Hs & Hn & ->). exists p. split; [done|]. rewrite Hs. by destruct (String.eqb_spec (NodeID p) n).
Qed.

(** The graph one recomputation searches. *)
Definition graphOf (Exp : float64 -> float64) (cfg : MeshConfig) (tr : PeerQualityTracker) (peers : list PeerInfo) (now : Time)
    (rg : Ranges) : TopologyGraph float64 :=
  let '(tr, claims) := buildValidatedClaims (mcNode cfg) (mcSubnetStr cfg) tr peers now (rgNeighbors rg) (rgClaims rg) in
  snd (buildTopologyGraph Exp (mcNode cfg) tr peers now claims (rgValidated rg)).

(** A recomputation whose links have names and cost less than the code's infinity. *)
Definition recomputes (Exp : float64 -> float64) (self : string) (old : option routeTable) (peers : list PeerInfo)
    (g : TopologyGraph float64) (t : routeTable) : Prop :=
  exists cfg tr now rg tr', mcNode cfg = self /\ g = graphOf Exp cfg tr peers now rg /\ wfGraph g self /\
    rangesOf g (rgSearch rg) (rgEdges rg) /\ recomputeRoutes Exp cfg old tr peers now rg = Some (tr', t).

(** The tables a node installs one after another, from none; its configuration, peers
    and link qualities may change in between. *)
Inductive installed (Exp : float64 -> float64) (self : string) : option routeTable -> Prop :=
| installedNone : installed Exp self None
| installedNext old peers g t : installed Exp self old -> recomputes Exp self old peers g t -> installed Exp self (Some t).

Lemma recomputes_paths Exp self old peers g t : recomputes Exp self old peers g t ->
  wfGraph g self /\ buildTrie (map routeEntry (rtRoutes t)) = Some (rtTrie t) /\
  exists best, shortestPaths g self best /\ rtPaths t = keptPaths g self best (rtPaths <$> old) (resolvePeerLinkNIC peers).
Proof.
  intros (cfg & tr & now & rg & tr' & <- & -> & Hwf & Hr & Hrec). split; [done|].
  destruct (dijkstra_spec _ _ _ _ Hwf Hr) as (best & Hrun & Hbest). revert Hrun Hbest Hrec. unfold graphOf, recomputeRoutes.
  destruct (buildValidatedClaims _ _ _ _ _ _ _) as [tr1 claims].
  destruct (buildTopologyGraph _ _ _ _ _ _ _) as [tr2 g]. cbn [snd]. intros -> Hbest Hrec.
  apply bind_Some in Hrec as (trie & Ht & [= _ <-]). cbn [rtRoutes rtTrie rtPaths]. split; [done|]. by exists best.
Qed.

Lemma installed_lead Exp self ot : installed Exp self ot -> forall o, rtPaths <$> ot = Some o -> pathsLead o.
Proof.
  induction 1 as [|old peers g t _ IH Hrec]; [done|]. intros o [= <-].
  destruct (recomputes_paths _ _ _ _ _ _ Hrec) as (Hwf & _ & best & Hbest & ->). by apply kept_lead.
Qed.

(** C14: next hops are anycast-optimal up to the hysteresis: in every table a node
    installs, one after another, on graphs whose links have named ends and cost less than
    the code's infinity, the peers returned for an address are exactly the live links to
    the first hop of the path installed for an owner of the longest matching prefix.  That
    path is a walk of the present graph, no other owner's installed path is cheaper, and
    no walk undercuts the path installed for the owner it leads to by more than the 15% of
    the hysteresis.  Only when no walk to any owner costs less than infinity are peers
    chosen by claimed hop counts. *)
Theorem findNextHops_anycast Exp self old peers g t peers' dstIP :
  installed Exp self old -> recomputes Exp self old peers g t ->
  exists best, shortestPaths g self best /\
  let live := resolvePeerLinkNIC peers in
  let olds := rtPaths <$> old in
  rtPaths t = applyHysteresis g self live olds best /\
  match To4 dstIP ≫= longestMatch (map routeEntry (rtRoutes t)) with
  | None => findNextHops self t peers' dstIP = []
  | Some r =>
      (mrEntries r = [] /\ findNextHops self t peers' dstIP = []) \/
      (exists n d, reaches g self best olds live r n d /\ nearBest g self best olds live r (Cost d) /\
         forall x, x ∈ findNextHops self t peers' dstIP <->
           exists p s, p ∈ peers' /\ piSender p = Some s /\ NodeID p = NextHop d /\ x = mkPWH s 1) \/
      ((forall n p c, target self r n -> walk g self n p c -> cle cinf c) /\
       findNextHops self t peers' dstIP = findNextHopsFallback self (map reNode (mrEntries r)) peers')
  end.
Proof.
  intros Hi Hrec. destruct (recomputes_paths _ _ _ _ _ _ Hrec) as (Hwf & Ht & best & Hbest & Hp). exists best. split; [done|].
  cbv zeta. split; [exact Hp|]. rewrite <- (Lookup_spec _ _ dstIP Ht). unfold findNextHops, findRoute.
  destruct (Lookup (rtTrie t) dstIP) as [r|]; [|done].
  pose proof (bestNextHop_anycast g self Hwf best Hbest _ (installed_lead _ _ _ Hi) (resolvePeerLinkNIC peers) r) as Hb.
  cbv zeta in Hb. rewrite <- Hp in Hb.
  destruct (mrEntries r) as [|e es] eqn:Er; [by left|]. right. rewrite <- Er in *. replace (map reNode (mrEntries r)) with
    (reNode e :: map reNode es) in * by (by rewrite Er). cbv zeta.
  destruct (String.eqb _ ""); [by right|left]. destruct Hb as (n & d & Hr & <- & Hc). exists n, d. split_and!; [done..|].
  intros x. apply linksTo_in.
Qed.

(** ** Route decisions *)

Lemma selectEgress_other self cache key ip es cache' n :
  selectEgressNodeID self cache key ip es = Some (cache', n) -> n = ""%string \/ (nodeIn n es /\ n <> self).
Proof.
  unfold selectEgressNodeID. destruct (decide (others self (staticFirst es) = [])) as [->|Hne].
  { intros [= _ <-]. by left. }
  intros E. right. destruct (selectSticky_spec cache key ip _ Hne) as [m _ Hm|m _ Hm|]; [..|done];
    injection E as _ <-; by apply nodeIn_others in Hm.
Qed.

Definition isMeshPrefix (cfg : MeshConfig) (r : MeshRoute) : bool :=
  match mcNetwork cfg with Some n => Contains n (nIP (mrPrefix r)) | None => false end.

(** A sound answer: some matching route has the target among its owners, the target is
    another node, the interface is that of the first hop toward it, and the packet is
    encapsulated toward the target's EIP exactly when the prefix is outside the mesh. *)
Definition soundAnswer (cfg : MeshConfig) (t : routeTable) (peers : list PeerInfo) (dst : list Z) (routes : list MeshRoute)
    (a : SelectRouteResult) : Prop :=
  exists r hop, r ∈ routes /\ Contains (mrPrefix r) dst = true /\ nodeIn (srTarget a) (mrEntries r) /\
    srTarget a <> mcNode cfg /\ srLocalStack a = false /\
    NextHopLink t peers (srTarget a) = (hop, Some (srLinkNIC a)) /\ hop <> ""%string /\ srLinkNIC a <> 0 /\
    srNeedIPIP a = negb (isMeshPrefix cfg r) /\
    (srNeedIPIP a = true -> exists eip, srEgressEIP a = Some eip /\ getEIPForNode cfg peers (srTarget a) = Some eip).

Lemma selectRoutes_sound cfg t peers key dst routes : forall cache cache' a,
  selectRoutes cfg t peers key dst cache routes = Some (cache', Some a) -> soundAnswer cfg t peers dst routes a.
Proof.
  assert (Hmono : forall r l a, soundAnswer cfg t peers dst l a -> soundAnswer cfg t peers dst (r :: l) a).
  { intros r l a (r' & hop & Hr & Hrest). exists r', hop. split; [by right|done]. }
  induction routes as [|r routes IH]; intros cache cache' a Ha; [done|]. cbn [selectRoutes] in Ha.
  destruct (Contains (mrPrefix r) dst) eqn:Ec; cbn [negb] in Ha; [|by apply IH in Ha; apply Hmono].
  destruct (mrEntries r) as [|e es] eqn:Er; [by apply IH in Ha; apply Hmono|]. rewrite <- Er in Ha.
  destruct (selectEgressNodeID _ _ _ _ _) as [[cache1 target]|] eqn:Eg; [|done].
  destruct (selectEgress_other _ _ _ _ _ _ _ Eg) as [->|[Hin Hns]]; [by apply IH in Ha; apply Hmono|].
  destruct (String.eqb_spec target "") as [|Hne]; [by apply IH in Ha; apply Hmono|].
  destruct (String.eqb_spec target (mcNode cfg)); [done|]. fold (isMeshPrefix cfg r) in Ha.
  destruct (NextHopLink t peers target) as [hop [nic|]] eqn:Eh; [|by apply IH in Ha; apply Hmono].
  destruct (String.eqb_spec hop "") as [|Hhop]; cbn [orb] in Ha; [by apply IH in Ha; apply Hmono|].
  destruct (Z.eqb_spec nic 0) as [|Hnic]; [by apply IH in Ha; apply Hmono|].
  destruct (isMeshPrefix cfg r) eqn:Em.
  - injection Ha as _ <-. exists r, hop. rewrite Em. split_and!; try done. left.
  - destruct (getEIPForNode cfg peers target) as [eip|] eqn:Ee; [|by apply IH in Ha; apply Hmono].
    injection Ha as _ <-. exists r, hop. rewrite Em. split_and!; try done; [left|by exists eip].
Qed.

(** A packet stays: interface 1, not encapsulated, cacheable. *)
Definition staysLocal (d : RouteDecision) : Prop := exists b, d = localDecision b.

(** A packet is forwarded by a sound answer; such a decision is never cached. *)
Definition forwards (cfg : MeshConfig) (t : routeTable) (peers : list PeerInfo) (dst : list Z) (d : RouteDecision) : Prop :=
  exists a, soundAnswer cfg t peers dst (rtRoutes t) a /\
    d = mkDecision (srLinkNIC a) false false (srNeedIPIP a) (if srNeedIPIP a then default [] (srEgressEIP a) else []).

(** Route decisions are safe: with the mesh's own callback, every decision either
    keeps the packet on interface 1 (always for the own subnet, and then delivers it
    unless it is for the VIP) or forwards it by a sound answer, uncached. *)
Theorem routeDecision_safe cfg t peers key cache cache' res sel dst :
  selectRouteFunc cfg t peers key cache dst = Some (cache', res) ->
  rsSelect sel = Some (fun _ => res) ->
  let d := NewRouteSelector sel dst in
  (staysLocal d \/ forwards cfg t peers dst d) /\
  (forall n, rsSubnet sel = Some n -> Contains n dst = true -> d = localDecision (negb (bool_decide (dst = rsVIP sel)))) /\
  (rsSubnet sel = None -> rsVIP sel <> [] -> dst = rsVIP sel -> rsGIP sel <> dst -> d = localDecision false).
Proof.
  intros Hs Hsel d. subst d. unfold NewRouteSelector. rewrite Hsel. split_and!.
  - destruct (match rsSubnet sel with Some n => Contains n dst | None => false end); [left; by eexists|].
    destruct (_ && _); [left; by eexists|]. destruct (_ && _); [left; by eexists|].
    destruct (match rsIsFakeIP sel with Some f => f dst | None => false end); [left; by eexists|].
    destruct res as [a|]; [|left; by eexists]. pose proof (selectRoutes_sound _ _ _ _ _ _ _ _ _ Hs) as Ha.
    destruct Ha as (r & hop & Ha). destruct Ha as (? & ? & ? & ? & Hl & ? & ? & Hnic & ?). rewrite Hl.
    destruct (Z.eqb_spec (srLinkNIC a) 0); [done|]. right. exists a. split; [|done]. exists r, hop. done.
  - intros n Hn Hc. by rewrite Hn, Hc.
  - intros Hn Hv -> Hg. rewrite Hn. rewrite (bool_decide_eq_false_2 (rsVIP sel = rsGIP sel)) by congruence.
    rewrite andb_false_r, (bool_decide_eq_false_2 (rsVIP sel = [])) by done.
    by rewrite (bool_decide_eq_true_2 (rsVIP sel = rsVIP sel)).
Qed.

(** A domain is forwarded only to the subnet of another node that owns the longest
    matching suffix and is reached through a peer. *)
Lemma ResolveDomainSubnet_owner self cache t domain cache' net :
  ResolveDomainSubnet self cache t domain = Some (cache', Some net) ->
  exists n c, nodeIn n (fst (trieLookup (rtDomains t) domain)) /\ n <> self /\
    rtNodes t !! n = Some c /\ ncSubnet c = Some net /\ is_Some (ncSender c).
Proof.
  unfold ResolveDomainSubnet. destruct (trieLookup (rtDomains t) domain) as [es matchLen]. cbn [fst].
  destruct (_ || _); [done|]. unfold selectEgressNodeIDForDomain. rewrite <- others_staticFirst.
  change (selectSticky cache domain (codesOf domain) (others self (staticFirst es)))
    with (selectEgressNodeID self cache domain (codesOf domain) es).
  destruct (selectEgressNodeID _ _ _ _ _) as [[cache1 n]|] eqn:Eg; [|done].
  destruct (String.eqb_spec n "") as [|Hne]; [done|]. destruct (selectEgress_other _ _ _ _ _ _ _ Eg) as [|[Hin Hns]]; [done|].
  destruct (rtNodes t !! n) as [[[s|] [net'|] hop]|] eqn:En; try done. intros [= _ <-].
  exists n, (mkNodeClaim (Some s) (Some net') hop). split_and!; try done.
Qed.

(** ** The scan and the trie *)

Definition longerRoute (ip : list Z) (best : option MeshRoute) (r : MeshRoute) : option MeshRoute :=
  if Contains (mrPrefix r) ip then
    match best with
    | None => Some r
    | Some b => if (nLen (mrPrefix b) <? nLen (mrPrefix r))%nat then Some r else best
    end
  else best.

(** ResolveNodeIDForIP: [None] is a panic of the egress choice. *)
Definition ResolveNodeIDForIP (self : string) (cache : cacheOf) (t : routeTable) (key : string) (ip : list Z)
  : option (cacheOf * string) :=
  match foldl (longerRoute ip) None (rtRoutes t) with
  | None => Some (cache, ""%string)
  | Some r => selectEgressNodeID self cache key ip (mrEntries r)
  end.

(** The networks of a table are IPv4 and distinct. *)
Definition v4Net (r : MeshRoute) : Prop := len (nIP (mrPrefix r)) = 4 /\ (nLen (mrPrefix r) <= 32)%nat.
#[global] Instance v4Net_dec r : Decision (v4Net r).
Proof. unfold v4Net. apply _. Defined.
Definition netBits (r : MeshRoute) : list bool := ipBits (nIP (mrPrefix r)) (nLen (mrPrefix r)).

Lemma Contains_covers r ip ip4 : v4Net r -> To4 ip = Some ip4 -> Contains (mrPrefix r) ip = covers ip4 (routeEntry r).
Proof.
  intros [H4 _] Hip. assert (Hl : len ip4 = 4).
  { unfold To4 in Hip. destruct (Z.eqb_spec (len ip) 4); [congruence|].
    destruct (_ && _) eqn:E; [|done]. injection Hip as <-. apply andb_prop in E as [E _]. apply andb_prop in E as [E _].
    apply andb_prop in E as [E _]. apply Z.eqb_eq in E. rewrite len_sub by lia. lia. }
  unfold Contains, covers, routeEntry, maskLen. cbn [ePrefix eLen]. rewrite Hip.
  assert (Ht : To4 (nIP (mrPrefix r)) = Some (nIP (mrPrefix r))) by (unfold To4; by rewrite H4).
  rewrite Ht, H4. change (default ip (Some ip4)) with ip4. rewrite Hl. done.
Qed.

Lemma scan_better routes ip ip4 : Forall v4Net routes -> NoDup (map netBits routes) -> To4 ip = Some ip4 ->
  routeEntry <$> foldl (longerRoute ip) None routes = foldl RouteTrie.better None (List.filter (covers ip4) (map routeEntry routes)) /\
  forall b, foldl (longerRoute ip) None routes = Some b -> b ∈ routes /\ covers ip4 (routeEntry b) = true.
Proof.
  intros Hv Hnd Hip. induction routes as [|r routes IH] using rev_ind; [done|].
  rewrite map_app in Hnd. apply NoDup_app in Hnd as (Hnd & Hdis & _). apply Forall_app in Hv as [Hv Hr].
  apply Forall_cons_iff in Hr as [Hr _]. destruct (IH Hv Hnd) as [IH1 IH2]. clear IH.
  rewrite foldl_app, map_app, List.filter_app, foldl_app, <- IH1. cbn [foldl map List.filter]. 
  set (best := foldl (longerRoute ip) None routes) in *.
  assert (Hstep : longerRoute ip best r = if covers ip4 (routeEntry r) then match best with
    | None => Some r | Some b => if (nLen (mrPrefix b) <? nLen (mrPrefix r))%nat then Some r else best end else best)
    by (unfold longerRoute; by rewrite (Contains_covers r ip ip4 Hr Hip)).
  rewrite Hstep. clear Hstep.
  destruct (covers ip4 (routeEntry r)) eqn:Ec; cbn [foldl].
  2: { split; [done|]. intros b Hb. destruct (IH2 b Hb). split; [|done]. apply elem_of_app. by left. }
  assert (Hin : r ∈ routes ++ [r]) by (apply elem_of_app; right; by apply list_elem_of_singleton).
  destruct best as [b|]; [|split; [done|by intros b [= <-]]]. destruct (IH2 b eq_refl) as [Hb Hc]. cbn [fmap option_fmap option_map RouteTrie.better].
  assert (Hne : nLen (mrPrefix b) <> nLen (mrPrefix r)).
  { intros E. apply (Hdis (netBits b)); [apply list_elem_of_fmap; by exists b|]. cbn. apply list_elem_of_singleton.
    assert (Hv4 : v4Net b) by (rewrite Forall_forall in Hv; by apply Hv). unfold covers, routeEntry in Ec, Hc. cbn [ePrefix eLen] in *.
    unfold To4 in Ec, Hc. rewrite (proj1 Hr) in Ec. rewrite (proj1 Hv4) in Hc. cbn in Ec, Hc.
    apply bool_decide_eq_true in Ec, Hc. unfold netBits. congruence. }
  cbn [eLen routeEntry]. destruct (Nat.ltb_spec (nLen (mrPrefix b)) (nLen (mrPrefix r))), (Nat.leb_spec (nLen (mrPrefix b)) (nLen (mrPrefix r)));
    try lia; (split; [done|]); intros b' [= <-]; [done|]. split; [apply elem_of_app; by left|done].
Qed.

(** The linear scan and the trie agree: on a table of distinct IPv4 networks the
    egress node is resolved from the very route the trie finds, the longest match. *)
Theorem resolve_uses_longest_match self cache t key ip :
  Forall v4Net (rtRoutes t) -> NoDup (map netBits (rtRoutes t)) -> is_Some (To4 ip) ->
  buildTrie (map routeEntry (rtRoutes t)) = Some (rtTrie t) ->
  ResolveNodeIDForIP self cache t key ip =
  match findRoute t ip with
  | None => Some (cache, ""%string)
  | Some r => selectEgressNodeID self cache key ip (mrEntries r)
  end.
Proof.
  intros Hv Hnd [ip4 Hip] Ht. unfold ResolveNodeIDForIP, findRoute. rewrite (Lookup_spec _ _ ip Ht), Hip. cbn [mbind option_bind].
  unfold longestMatch. destruct (scan_better _ ip ip4 Hv Hnd Hip) as [<- _]. by destruct (foldl (longerRoute ip) None (rtRoutes t)).
Qed.

End Table.

(** ** A small mesh *)

Section Demo.
Open Scope string_scope.

Definition demoNets : list (string * IPNet) :=
  [("100.64.0.0/16", mkNet [100; 64; 0; 0] 16); ("100.66.0.0/16", mkNet [100; 66; 0; 0] 16);
   ("100.67.0.0/16", mkNet [100; 67; 0; 0] 16);
   ("10.0.0.0/8", mkNet [10; 0; 0; 0] 8); ("10.1.0.0/16", mkNet [10; 1; 0; 0] 16)].
Definition demoParse (s : string) : option IPNet := snd <$> List.find (fun x => String.eqb (fst x) s) demoNets.
Definition demoText (n : IPNet) : string :=
  match List.find (fun x => bool_decide (nIP (snd x) = nIP n) && (nLen (snd x) =? nLen n)%nat) demoNets with
  | Some x => fst x
  | None => ""
  end.

Definition demoClaim (s : string) (node : string) (hop : Z) : PeerClaimedSubnetEntry :=
  mkClaim (default (mkNet [] 0) (demoParse s)) s node hop [].

(** A has two links to B and one to C; C relays for D, which advertises 10.0.0.0/8. *)
Definition demoPeers : list PeerInfo :=
  [mkPeerInfo (Some (mkSender 1 "B" 1 1 "" (Some 11))) None "" [] [] [] 0;
   mkPeerInfo (Some (mkSender 2 "B" 2 2 "" (Some 12))) None "" [] [] [] 0;
   mkPeerInfo (Some (mkSender 3 "C" 3 3 "" (Some 13))) (demoParse "100.66.0.0/16") "100.66.0.0/16" []
     [mkRoute (mkNet [10; 0; 0; 0] 8) "10.0.0.0/8" "D"] [demoClaim "100.66.0.0/16" "C" 1; demoClaim "100.67.0.0/16" "D" 2] 0].

Definition demoConfig : MeshConfig :=
  mkConfig "A" "100.64.0.0/16" (demoParse "100.64.0.0/16") (Some (mkNet [100; 64; 0; 0] 10)) ["10.1.0.0/16"] [] [] [].

Definition demoRoutes : list MeshRoute :=
  buildRoutes demoParse demoText (fun l => l) demoConfig demoPeers (map fst (map_to_list (allEntries demoText demoPeers))).

Definition demoTable (paths : gmap string (dijkstraResult float64)) : routeTable :=
  mkTable demoRoutes (default newRouteTrie (buildTrie (map routeEntry demoRoutes))) NewNodeTrie ∅ paths ∅.

Lemma range_keys {A} (m : gmap string A) k : k ∈ map fst (map_to_list m) <-> is_Some (m !! k).
Proof.
  rewrite list_elem_of_fmap. split.
  - intros ([k' x] & -> & Hx). apply elem_of_map_to_list in Hx. by eexists.
  - intros [x Hx]. exists (k, x). split; [done|]. by apply elem_of_map_to_list.
Qed.

Lemma routeTable_owners_witness :
  owns demoText demoRoutes "10.0.0.0/8" "D" /\ ~ owns demoText demoRoutes "10.0.0.0/8" "B".
Proof.
  unfold demoRoutes. rewrite !routeTable_owners; [|done|apply range_keys|done|apply range_keys]. split.
  - left. exists "10.0.0.0/8". split_and!; [vm_compute; intros H; set_solver|by eexists _, _; split; vm_compute|done|].
    exists (default (mkPeerInfo None None "" [] [] [] 0) (demoPeers !! 2%nat)). split_and!; [set_solver|by eexists|].
    left. eexists. split_and!; [left|done|done|]. exists (demoClaim "100.67.0.0/16" "D" 2). split; [set_solver|done].
  - intros [(k & _ & _ & _ & p & Hp & _ & Ho)|[[? _]|(s & net & Hs & _)]]; [|done|by apply elem_of_nil in Hs].
    unfold demoPeers in Hp. rewrite !elem_of_cons, elem_of_nil in Hp.
    destruct Hp as [-> |[-> |[-> | []]]]; cbn [piRoutes piClaims piNet NodeID piSender sdNode] in Ho;
      destruct Ho as [(r & Hr & _ & Hb & _)|[(net & Hn & _ & Hb)|(c & Hc & _ & Hb & _)]]; try done; try (by apply elem_of_nil in Hr);
      try (by apply elem_of_nil in Hc).
    + apply list_elem_of_singleton in Hr as ->. done.
    + rewrite !elem_of_cons, elem_of_nil in Hc. destruct Hc as [-> |[-> | []]]; done.
Defined.

(** D hangs behind B and C; the link from B to it takes [d] milliseconds, the one from C 10. *)
Definition gossipLink (l r ms : Z) : GossipLink := mkGLink l r "" (f64 ms) (f64 0) (f64 0) (f64 0) (f64 0).
Definition claimOfD (d : Z) : PeerClaimedSubnetEntry :=
  mkClaim (mkNet [100; 67; 0; 0] 16) "100.67.0.0/16" "D" 2
    [mkNbr "B" [gossipLink 22 21 d]; mkNbr "C" [gossipLink 32 31 10]].
Definition diamond (d : Z) : list PeerInfo :=
  [mkPeerInfo (Some (mkSender 1 "B" 1 1 "" (Some 11))) (demoParse "100.66.0.0/16") "100.66.0.0/16" []
     [mkRoute (mkNet [10; 0; 0; 0] 8) "10.0.0.0/8" "D"]
     [mkClaim (mkNet [100; 66; 0; 0] 16) "100.66.0.0/16" "B" 1 [mkNbr "D" [gossipLink 21 22 d]]; claimOfD d] 0;
   mkPeerInfo (Some (mkSender 3 "C" 3 3 "" (Some 13))) None "" []
     [] [mkClaim (mkNet [100; 68; 0; 0] 16) "100.68.0.0/16" "C" 1 [mkNbr "D" [gossipLink 31 32 10]]; claimOfD d] 0].

Definition diamondKeys : list string := ["100.64.0.0/16"; "100.66.0.0/16"; "100.68.0.0/16"; "100.67.0.0/16"].
Definition diamondRanges (d : Z) : Ranges :=
  let rg := mkRanges ["10.0.0.0/8"; "100.66.0.0/16"; "100.67.0.0/16"; "100.68.0.0/16"] [] [] ["B"; "C"] diamondKeys diamondKeys (fun _ => []) (fun _ => []) in
  let g := graphOf (fun _ => f64 1) demoConfig ∅ (diamond d) 0 rg in
  mkRanges (rgPrefixes rg) [] [] (rgNeighbors rg) diamondKeys diamondKeys (fst (mapRange g)) (snd (mapRange g)).
Definition diamondGraph (d : Z) := graphOf (fun _ => f64 1) demoConfig ∅ (diamond d) 0 (diamondRanges d).
Definition diamondTable (old : option routeTable) (d : Z) : option routeTable :=
  snd <$> recomputeRoutes demoParse demoText (fun l => l) (fun _ => f64 1) demoConfig old ∅ (diamond d) 0 (diamondRanges d).

Lemma diamond_recomputes old d t : wfb nonnegb (diamondGraph d) "A" = true -> diamondTable old d = Some t ->
  recomputes demoParse demoText (fun l => l) (fun _ => f64 1) "A" old (diamond d) (diamondGraph d) t.
Proof.
  intros Hwf Ht. unfold diamondTable in Ht. apply fmap_Some in Ht as ([tr' t'] & Hrec & ->).
  exists demoConfig, ∅, 0, (diamondRanges d), tr'. split_and!; [done|done| |apply (mapRange_ok (diamondGraph d))|exact Hrec].
  apply (wfb_sound nonnegb); [exact nonnegb_ok|exact Hwf].
Qed.

(** D is first reached over C; when B comes to be the nearer way by a little, the search
    finds B but packets still go over C. *)
Lemma findNextHops_anycast_witness : exists t1 t2 best r n d,
  diamondTable None 20 = Some t1 /\ diamondTable (Some t1) 9 = Some t2 /\
  shortestPaths (diamondGraph 9) "A" best /\
  match dijkstra (diamondGraph 9) "A" (fst (mapRange (diamondGraph 9))) (snd (mapRange (diamondGraph 9))) with
  | Done b => NextHop <$> b !! "D" = Some "B"
  | _ => False
  end /\
  let live := resolvePeerLinkNIC (diamond 9) in
  let olds := rtPaths <$> Some t1 in
  reaches (diamondGraph 9) "A" best olds live r n d /\ nearBest (diamondGraph 9) "A" best olds live r (Cost d) /\
  NextHop d = "C" /\
  forall x, x ∈ findNextHops (fun l => l) "A" t2 (diamond 9) [10; 9; 9; 9] <->
    exists p s, p ∈ diamond 9 /\ piSender p = Some s /\ NodeID p = "C" /\ x = mkPWH s 1.
Proof.
  assert (Hall : (t1 ← diamondTable None 20; t2 ← diamondTable (Some t1) 9;
    r ← (To4 [10; 9; 9; 9] ≫= longestMatch (map routeEntry (rtRoutes t2)));
    Some (map reNode (mrEntries r), NextHop <$> rtPaths t2 !! "D")) = Some (["D"], Some "C")) by (vm_compute; reflexivity).
  destruct (diamondTable None 20) as [t1|] eqn:E1; [|discriminate Hall]. cbn [mbind option_bind] in Hall.
  destruct (diamondTable (Some t1) 9) as [t2|] eqn:E2; [|discriminate Hall]. cbn [mbind option_bind] in Hall.
  assert (R1 := diamond_recomputes None 20 t1 ltac:(vm_compute; reflexivity) E1).
  assert (R2 := diamond_recomputes (Some t1) 9 t2 ltac:(vm_compute; reflexivity) E2).
  pose proof (findNextHops_anycast demoParse demoText (fun l => l) (fun l => l) _ "A" (Some t1) _ _ t2 (diamond 9) [10; 9; 9; 9]
    (installedNext _ _ _ _ _ _ _ _ _ (installedNone _ _ _ _ _) R1) R2) as (best & Hs & Ha).
  cbv zeta in Ha. destruct Ha as [Hp Ha].
  destruct (To4 [10; 9; 9; 9] ≫= longestMatch (map routeEntry (rtRoutes t2))) as [r|]; [|discriminate Hall].
  cbn [mbind option_bind] in Hall. injection Hall as Hn Hd.
  destruct Ha as [[Hnil _]|[(n & d & Hr & Hc & Hx)|[Hno _]]]; [by rewrite Hnil in Hn| |].
  - assert (n = "D") as ->.
    { destruct Hr as [[Hin _] _]. apply target_in in Hin. rewrite Hn in Hin. by apply list_elem_of_singleton in Hin. }
    assert (NextHop d = "C") as Hh.
    { destruct Hr as (_ & Hk & _). unfold keptPaths in Hk. rewrite <- Hp in Hk. rewrite Hk in Hd. by injection Hd. }
    exists t1, t2, best, r, "D", d. cbv zeta. rewrite Hh in Hx.
    split_and!; [done|exact E2|exact Hs|vm_compute; reflexivity|exact Hr|exact Hc|exact Hh|exact Hx].
  - assert (Hw : exists c, walk (diamondGraph 9) "A" "D" ["C"; "D"] c /\ cltb c cinf = true).
    { eexists. split; [eapply (walkSnoc _ _ "C" ["C"]); [eapply (walkSnoc _ _ "A" []); [constructor|]|]; vm_compute; reflexivity|].
      vm_compute. reflexivity. }
    destruct Hw as (c & Hw & Hlt). assert (Ht : target "A" r "D") by (split; [apply target_in; rewrite Hn; left|done]).
    specialize (Hno "D" _ _ Ht Hw). unfold cle in Hno. rewrite Hlt in Hno. discriminate Hno.
Defined.

Definition demoPaths : gmap string (dijkstraResult float64) :=
  {["D" := mkPath "B" (Some 12) (f64 36) ["B"; "C"; "D"]; "C" := mkPath "B" (Some 12) (f64 30) ["B"; "C"]]}.

Definition demoSelect (key : string) (dst : list Z) : option (cacheOf * option SelectRouteResult) :=
  selectRouteFunc demoConfig (demoTable demoPaths) demoPeers key ∅ dst.

Lemma routeDecision_safe_witness :
  match demoSelect "10.9.9.9" [10; 9; 9; 9] with
  | Some (_, res) =>
      let sel := mkSelector (demoParse "100.64.0.0/16") [100; 64; 0; 1] [100; 64; 0; 3] None (Some (fun _ => res)) in
      let d := NewRouteSelector sel [10; 9; 9; 9] in
      d = mkDecision 12 false false true [100; 67; 0; 4] /\
      (staysLocal d \/ forwards demoConfig (demoTable demoPaths) demoPeers [10; 9; 9; 9] d)
  | None => False
  end.
Proof.
  destruct (demoSelect "10.9.9.9" [10; 9; 9; 9]) as [[cache res]|] eqn:E; [|by vm_compute in E].
  cbv zeta. split.
  - vm_compute in E. injection E as _ <-. vm_compute. reflexivity.
  - unfold demoSelect in E. exact (proj1 (routeDecision_safe demoConfig (demoTable demoPaths) demoPeers "10.9.9.9" ∅ cache res
      (mkSelector (demoParse "100.64.0.0/16") [100; 64; 0; 1] [100; 64; 0; 3] None (Some (fun _ => res))) [10; 9; 9; 9] E eq_refl)).
Defined.

Lemma resolve_uses_longest_match_witness :
  ResolveNodeIDForIP "A" ∅ (demoTable demoPaths) "10.9.9.9" [10; 9; 9; 9] = Some (<["10.9.9.9" := "D"]> ∅, "D").
Proof.
  rewrite resolve_uses_longest_match.
  - vm_compute. reflexivity.
  - apply (bool_decide_unpack _). vm_compute. exact I.
  - apply (bool_decide_unpack _). vm_compute. exact I.
  - by eexists.
  - vm_compute. reflexivity.
Defined.

(** The answer "deliver locally" of the callback is never given: the own node is never
    selected as an egress. *)
Lemma local_answer_unreachable cfg t peers key cache dst cache' a :
  selectRouteFunc cfg t peers key cache dst = Some (cache', Some a) -> srLocalStack a = false.
Proof. intros (r & hop & _ & _ & _ & _ & Hl & _)%selectRoutes_sound. exact Hl. Qed.

(** So a locally advertised prefix is skipped, and a peer's shorter prefix takes its
    traffic: A advertises 10.1.0.0/16, yet 10.1.2.3 is sent to D. *)
Example own_prefix_shadowed :
  match demoSelect "10.1.2.3" [10; 1; 2; 3] with
  | Some (_, Some a) => srTarget a = "D" /\ srNeedIPIP a = true /\ srLocalStack a = false
  | _ => False
  end.
Proof. vm_compute. done. Qed.

End Demo.
