(* ===== verification/MeshGossip.v ===== *)
(** Gossip between mesh nodes (src/mesh/mesh.go): what a node tells each of its peers,
    with split horizon, what it says in its hello, and the propagation of claims through
    a network of nodes that tell each other.

    The fields of a message that negotiate transports are left to their own components;
    the orders in which maps are ranged are arguments. *)

From Stdlib Require Import ZArith Lia String Ascii.
From stdpp Require Import base list numbers strings gmap sets.
From S2P Require Import Prelude GoFloat FloatOrder IPPacket MeshPaths MeshTopology MeshRoutes MeshTable.
Open Scope Z_scope.

(** ** The tables a message is made of *)

(** A direct link with its quality as it is advertised. *)
Definition advertisedLink (s : PeerSender) (q : PeerQuality) : GossipLink :=
  let '(rtt, loss, jitter) := Stats q in
  mkGLink (sdLocalSeq s) (sdRemoteSeq s) (sdName s) (fdiv (f64 rtt) (f64 Millisecond)) loss jitter (pqDropRate q) (pqSojournMs q).

Definition collectLinks (now : Time) (acc : PeerQualityTracker * gmap string (list GossipLink)) (p : PeerInfo)
  : PeerQualityTracker * gmap string (list GossipLink) :=
  match piSender p with
  | None => acc
  | Some s =>
      let '(tr, q) := GetQuality (fst acc) (NodeID p) (sdLocalSeq s) now in
      (tr, <[NodeID p := default [] (snd acc !! NodeID p) ++ [advertisedLink s q]]> (snd acc))
  end.

(** The own neighbours in the order ranged. *)
Definition ownNeighbors (tr : PeerQualityTracker) (peers : list PeerInfo) (now : Time) (order : list string)
  : PeerQualityTracker * list GossipNeighbor :=
  let '(tr, links) := foldl (collectLinks now) (tr, ∅) peers in
  (tr, omap (fun n => mkNbr n <$> links !! n) order).

(** A claim and the node it was learned from; [None] for the own claim. *)
Record globalClaimEntry := mkGlobal { geVia : option string; geClaim : rawClaim }.

(** The best entry so far under its key: the lower hop, the earlier one on a tie. *)
Definition learn {E} (hopOf : E -> Z) (best : gmap string E) (k : string) (e : E) : gmap string E :=
  match best !! k with
  | Some b => if hopOf e <? hopOf b then <[k := e]> best else best
  | None => <[k := e]> best
  end.

Definition geHop (e : globalClaimEntry) : Z := rcHop (geClaim e).
Definition heardClaim (via : string) (c : PeerClaimedSubnetEntry) : globalClaimEntry :=
  mkGlobal (Some via) (mkRaw (csHop c) (csNode c) (csStr c) (csNeighbors c)).
Definition learnClaim (via : string) (best : gmap string globalClaimEntry) (c : PeerClaimedSubnetEntry)
  : gmap string globalClaimEntry := learn geHop best (csStr c) (heardClaim via c).

Definition globalClaims (self subnetStr : string) (own : list GossipNeighbor) (peers : list PeerInfo)
  : gmap string globalClaimEntry :=
  foldl (withSender (fun best p _ => foldl (learnClaim (NodeID p)) best (piClaims p)))
    {[subnetStr := mkGlobal None (mkRaw 0 self subnetStr own)]} peers.

(** Links are kept when the other side lists them too. *)
Definition validated (best : gmap string globalClaimEntry) (order : list string) : gmap string globalClaimEntry :=
  omap (fun e => mkGlobal (geVia e) <$> validateClaim (byNode (geClaim <$> best) order) (geClaim e)) best.

(** The owner of a route or of a domain suffix, where it was learned and how far it is. *)
Record globalEntry := mkOwned { gbVia : option string; gbNode : string; gbHop : Z }.

Definition ownEntries (self : string) (keys : list string) : gmap string globalEntry :=
  foldl (fun m k => <[k := mkOwned None self 0]> m) ∅ keys.

(** What a peer offers under its keys: [items] lists (key, owner). *)
Definition learnItems (items : PeerInfo -> list (string * string)) (best : gmap string globalEntry) (p : PeerInfo) (s : PeerSender)
  : gmap string globalEntry :=
  foldl (fun best '(k, n) => match claimHopFor p n with
                             | None => best
                             | Some hop => learn gbHop best k (mkOwned (Some (NodeID p)) n hop)
                             end) best (items p).

Definition routeItems (p : PeerInfo) : list (string * string) := map (fun r => (prStr r, prNode r)) (piRoutes p).
Definition suffixItems (p : PeerInfo) : list (string * string) := map (fun e => (psfSuffix e, psfNode e)) (piSuffixes p).

Definition globalRoutes (self : string) (advertise : list string) (peers : list PeerInfo) : gmap string globalEntry :=
  foldl (withSender (learnItems routeItems)) (ownEntries self advertise) peers.
Definition globalSuffixes (self : string) (suffixes : list string) (peers : list PeerInfo) : gmap string globalEntry :=
  foldl (withSender (learnItems suffixItems)) (ownEntries self suffixes) peers.

(** ** Messages *)

Record GossipTables := mkTables {
  gtClaims : gmap string globalClaimEntry; gtRoutes : gmap string globalEntry; gtSuffixes : gmap string globalEntry }.

(** The orders in which the maps are ranged for one message. *)
Record MessageOrder := mkOrder { moClaims : list string; moRoutes : list string; moSuffixes : list string }.

(** Not learned from [peer]. *)
Definition tellable (peer : string) (via : option string) : bool :=
  match via with Some n => negb (String.eqb n peer) | None => true end.

Definition claimMessage (e : globalClaimEntry) : GossipClaimedSubnet :=
  let c := geClaim e in mkGClaim (rcSubnet c) (rcNode c) (rcHop c) (rcNeighbors c).

Definition rangeMap {A B} (m : gmap string A) (order : list string) (f : string -> A -> option B) : list B :=
  omap (fun k => m !! k ≫= f k) order.

Definition tellPeer (t : GossipTables) (o : MessageOrder) (peer : string) : GossipInfo :=
  mkGossip
    (rangeMap (gtRoutes t) (moRoutes o) (fun k e => if tellable peer (gbVia e) then Some (mkGRoute k (gbNode e)) else None))
    (rangeMap (gtSuffixes t) (moSuffixes o) (fun k e => if tellable peer (gbVia e) then Some (mkGSuffix k (gbNode e)) else None))
    (rangeMap (gtClaims t) (moClaims o) (fun _ e => if tellable peer (geVia e) then Some (claimMessage e) else None)).

(** The tables of a broadcast; [order] ranges the neighbours and the claims. *)
Definition gossipTables (cfg : MeshConfig) (tr : PeerQualityTracker) (peers : list PeerInfo) (now : Time)
    (nbrOrder order : list string) : PeerQualityTracker * GossipTables :=
  let '(tr, own) := ownNeighbors tr peers now nbrOrder in
  (tr, mkTables (validated (globalClaims (mcNode cfg) (mcSubnetStr cfg) own peers) order)
         (globalRoutes (mcNode cfg) (mcAdvertise cfg) peers) (globalSuffixes (mcNode cfg) (mcSuffixes cfg) peers)).

(** One message per connected peer, each with its own range orders. *)
Definition broadcastGossip (cfg : MeshConfig) (tr : PeerQualityTracker) (peers : list PeerInfo) (now : Time)
    (nbrOrder order : list string) (mo : PeerSender -> MessageOrder) : PeerQualityTracker * list (PeerSender * GossipInfo) :=
  let '(tr, t) := gossipTables cfg tr peers now nbrOrder order in
  (tr, omap (fun p => (fun s => (s, tellPeer t (mo s) (NodeID p))) <$> piSender p) peers).

(** The hello: everything, unvalidated and without split horizon. *)
Definition BuildGossipInfo (cfg : MeshConfig) (tr : PeerQualityTracker) (peers : list PeerInfo) (now : Time)
    (nbrOrder : list string) (o : MessageOrder) : PeerQualityTracker * GossipInfo :=
  let '(tr, own) := ownNeighbors tr peers now nbrOrder in
  (tr, mkGossip
    (rangeMap (globalRoutes (mcNode cfg) (mcAdvertise cfg) peers) (moRoutes o) (fun k e => Some (mkGRoute k (gbNode e))))
    (rangeMap (globalSuffixes (mcNode cfg) (mcSuffixes cfg) peers) (moSuffixes o) (fun k e => Some (mkGSuffix k (gbNode e))))
    (rangeMap (globalClaims (mcNode cfg) (mcSubnetStr cfg) own peers) (moClaims o) (fun _ e => Some (claimMessage e)))).

(** ** What the tables hold *)

(** [e] is the best of the candidates [l] and of [m] under its key. *)
Definition isBest {E} (hopOf : E -> Z) (m : gmap string E) (l : list (string * E)) (k : string) (e : E) : Prop :=
  (m !! k = Some e \/ (k, e) ∈ l) /\ (forall e0, m !! k = Some e0 -> hopOf e <= hopOf e0) /\
  (forall e', (k, e') ∈ l -> hopOf e <= hopOf e').

Lemma foldl_learn {E} (hopOf : E -> Z) l : forall m k,
  let m' := foldl (fun m '(k, e) => learn hopOf m k e) m l in
  match m' !! k with
  | Some e => isBest hopOf m l k e
  | None => m !! k = None /\ forall e, (k, e) ∉ l
  end.
Proof.
  induction l as [|[k1 e1] l IH]; intros m k; cbn [foldl].
  { destruct (m !! k) as [e|] eqn:Em; [|split; [done|intros ? He; by apply elem_of_nil in He]].
    split_and!; [by left|intros e0 He0; rewrite Em in He0; injection He0 as <-; lia|]. intros e' He. by apply elem_of_nil in He. }
  specialize (IH (learn hopOf m k1 e1) k). cbv zeta in IH.
  assert (Hl : learn hopOf m k1 e1 !! k = if decide (k1 = k) then
    match m !! k with Some b => if hopOf e1 <? hopOf b then Some e1 else Some b | None => Some e1 end else m !! k).
  { unfold learn. destruct (decide (k1 = k)) as [<-|Hne].
    - destruct (m !! k1) as [b|] eqn:Eb; [destruct (_ <? _)|]; by rewrite ?lookup_insert_eq.
    - destruct (m !! k1) as [b|]; [destruct (_ <? _)|]; by rewrite ?lookup_insert_ne. }
  destruct (foldl _ _ l !! k) as [e|]; unfold isBest in *; rewrite Hl in IH; setoid_rewrite elem_of_cons.
  - destruct IH as (Hin & Hm & Hmin). destruct (decide (k1 = k)) as [<-|Hne].
    + destruct (m !! k1) as [b|] eqn:Eb; [destruct (Z.ltb_spec (hopOf e1) (hopOf b))|];
        (split_and!; [destruct Hin as [[= <-]|Hin]; auto|..]); pose proof (Hm _ eq_refl);
        intros e0; [intros [= <-]; lia|intros [[= <-]|?]; [lia|auto]|intros [= <-]; lia|intros [[= <-]|?]; [lia|auto]
          |done|intros [[= <-]|?]; [lia|auto]].
    + split_and!; [naive_solver|done|]. intros e' [[= -> ->]|He]; [done|auto].
  - destruct IH as [Hn Hl2]. destruct (decide (k1 = k)) as [<-|Hne].
    + destruct (m !! k1) as [b|]; [destruct (_ <? _)|]; done.
    + split; [done|]. intros e [[= -> ->]|He]; [done|]. by apply (Hl2 e).
Qed.

Lemma foldl_nested {A B M} (f : M -> B -> M) (items : A -> list B) l : forall m,
  foldl (fun m a => foldl f m (items a)) m l = foldl f m (l ≫= items).
Proof. induction l as [|a l IH]; intros m; [done|]. cbn. rewrite IH. by rewrite foldl_app. Qed.

Lemma foldl_fmap' {A B M} (f : M -> B -> M) (g : A -> B) l : forall m, foldl f m (map g l) = foldl (fun m a => f m (g a)) m l.
Proof. induction l as [|a l IH]; intros m; [done|]. apply IH. Qed.

Lemma foldl_cong {A M} (f g : M -> A -> M) l : (forall m a, f m a = g m a) -> forall m, foldl f m l = foldl g m l.
Proof. intros H. induction l as [|a l IH]; intros m; [done|]. cbn. by rewrite H, IH. Qed.

(** The claims heard, with the peer they came from. *)
Definition heard (peers : list PeerInfo) : list (string * globalClaimEntry) :=
  peers ≫= fun p => match piSender p with
                   | None => []
                   | Some _ => map (fun c => (csStr c, heardClaim (NodeID p) c)) (piClaims p)
                   end.

Lemma heard_in peers k e : (k, e) ∈ heard peers <->
  exists p s c, p ∈ peers /\ piSender p = Some s /\ c ∈ piClaims p /\ csStr c = k /\ e = heardClaim (NodeID p) c.
Proof.
  unfold heard. rewrite list_elem_of_bind. split.
  - intros (p & He & Hp). destruct (piSender p) as [s|] eqn:Es; [|by apply elem_of_nil in He].
    apply list_elem_of_fmap in He as (c & [= -> ->] & Hc). by exists p, s, c.
  - intros (p & s & c & Hp & Hs & Hc & <- & ->). exists p. split; [|done]. rewrite Hs. apply list_elem_of_fmap. by exists c.
Qed.

Lemma globalClaims_best self subnetStr own peers k : match globalClaims self subnetStr own peers !! k with
  | Some e => isBest geHop {[subnetStr := mkGlobal None (mkRaw 0 self subnetStr own)]} (heard peers) k e
  | None => k <> subnetStr /\ forall e, (k, e) ∉ heard peers
  end.
Proof.
  assert (E : globalClaims self subnetStr own peers = foldl (fun m '(k, e) => learn geHop m k e)
    {[subnetStr := mkGlobal None (mkRaw 0 self subnetStr own)]} (heard peers)).
  { unfold globalClaims, heard. rewrite <- foldl_nested. apply foldl_cong. intros m p. unfold withSender.
    destruct (piSender p); [|done]. by rewrite foldl_fmap'. }
  rewrite E. pose proof (foldl_learn geHop (heard peers) {[subnetStr := mkGlobal None (mkRaw 0 self subnetStr own)]} k) as Hf.
  cbv zeta in Hf. destruct (foldl _ _ _ !! k); [done|]. destruct Hf as [Hn Hl]. split; [|done].
  intros ->. by rewrite lookup_singleton_eq in Hn.
Qed.

(** The routes or suffixes heard: those whose owner the peer also claims. *)
Definition heardItems (items : PeerInfo -> list (string * string)) (peers : list PeerInfo) : list (string * globalEntry) :=
  peers ≫= fun p => match piSender p with
                   | None => []
                   | Some _ => omap (fun '(k, n) => (fun hop => (k, mkOwned (Some (NodeID p)) n hop)) <$> claimHopFor p n) (items p)
                   end.

Lemma heardItems_in items peers k e : (k, e) ∈ heardItems items peers -> exists p s,
  p ∈ peers /\ piSender p = Some s /\ (k, gbNode e) ∈ items p /\ gbVia e = Some (NodeID p) /\ claimHopFor p (gbNode e) = Some (gbHop e).
Proof.
  unfold heardItems. rewrite list_elem_of_bind. intros (p & He & Hp). destruct (piSender p) as [s|] eqn:Es; [|by apply elem_of_nil in He].
  apply list_elem_of_omap in He as ([k' n] & Hin & Hf). apply fmap_Some in Hf as (hop & Hc & [= -> ->]). by exists p, s.
Qed.

Lemma foldl_omap {A B M} (f : M -> B -> M) (g : A -> option B) l : forall m,
  foldl f m (omap g l) = foldl (fun m a => match g a with Some b => f m b | None => m end) m l.
Proof. induction l as [|a l IH]; intros m; [done|]. cbn. destruct (g a); cbn; apply IH. Qed.

Lemma ownEntries_lookup self keys k e : ownEntries self keys !! k = Some e -> k ∈ keys /\ e = mkOwned None self 0.
Proof.
  unfold ownEntries. induction keys as [|k1 keys IH] using rev_ind; [done|]. rewrite foldl_app. cbn [foldl].
  rewrite elem_of_app, list_elem_of_singleton. destruct (decide (k1 = k)) as [->|Hne].
  - rewrite lookup_insert_eq. intros [= <-]. auto.
  - rewrite lookup_insert_ne by done. intros H. destruct (IH H). auto.
Qed.

(** An entry of a routes or suffixes table is an own one or was heard from a peer. *)
Lemma learnItems_source self keys items peers k e :
  foldl (withSender (learnItems items)) (ownEntries self keys) peers !! k = Some e ->
  (k ∈ keys /\ e = mkOwned None self 0) \/
  exists p s, p ∈ peers /\ piSender p = Some s /\ (k, gbNode e) ∈ items p /\ gbVia e = Some (NodeID p) /\
    claimHopFor p (gbNode e) = Some (gbHop e).
Proof.
  assert (E : forall m, foldl (withSender (learnItems items)) m peers = foldl (fun m '(k, e) => learn gbHop m k e) m (heardItems items peers)).
  { intros m. unfold heardItems. rewrite <- foldl_nested. revert m. apply foldl_cong. intros m p. unfold withSender, learnItems.
    destruct (piSender p); [|done]. rewrite foldl_omap. apply foldl_cong. intros m' [k' n]. by destruct (claimHopFor p n). }
  rewrite E. intros He. pose proof (foldl_learn gbHop (heardItems items peers) (ownEntries self keys) k) as Hf. cbv zeta in Hf.
  rewrite He in Hf. destruct Hf as ([Hm|Hin] & _).
  - left. by apply ownEntries_lookup.
  - right. by apply heardItems_in.
Qed.

Lemma rangeMap_in {A B} (m : gmap string A) order (f : string -> A -> option B) x :
  x ∈ rangeMap m order f -> exists k e, m !! k = Some e /\ f k e = Some x.
Proof.
  unfold rangeMap. rewrite list_elem_of_omap. intros (k & _ & Hx). apply bind_Some in Hx as (e & He & Hx). by exists k, e.
Qed.

Lemma validated_lookup best order k e : validated best order !! k = Some e -> exists e0, best !! k = Some e0 /\
  geVia e = geVia e0 /\ rcHop (geClaim e) = rcHop (geClaim e0) /\ rcNode (geClaim e) = rcNode (geClaim e0) /\
  rcSubnet (geClaim e) = rcSubnet (geClaim e0).
Proof.
  unfold validated. rewrite lookup_omap. intros He. apply bind_Some in He as (e0 & He0 & He). exists e0. split; [done|].
  apply fmap_Some in He as (c & Hc & ->). cbn [geVia geClaim]. unfold validateClaim in Hc.
  destruct (rcHop (geClaim e0) =? 0); [by injection Hc as ->|]. destruct (omap _ _); [done|]. injection Hc as <-. done.
Qed.

(** ** Split horizon *)

(** What may be said to a peer of node [to]: own facts, or the best heard from others. *)
Definition fairClaim (self subnetStr to : string) (peers : list PeerInfo) (gc : GossipClaimedSubnet) : Prop :=
  (gcSubnet gc = subnetStr /\ gcNode gc = self /\ gcHop gc = 0) \/
  exists p s c, p ∈ peers /\ piSender p = Some s /\ NodeID p <> to /\ c ∈ piClaims p /\
    gcSubnet gc = csStr c /\ gcNode gc = csNode c /\ gcHop gc = csHop c /\
    forall p' s' c', p' ∈ peers -> piSender p' = Some s' -> c' ∈ piClaims p' -> csStr c' = csStr c -> csHop c <= csHop c'.

Definition fairItem (self to : string) (keys : list string) (items : PeerInfo -> list (string * string)) (peers : list PeerInfo)
    (k n : string) : Prop :=
  (k ∈ keys /\ n = self) \/
  exists p s, p ∈ peers /\ piSender p = Some s /\ NodeID p <> to /\ (k, n) ∈ items p /\ is_Some (claimHopFor p n).

Lemma gossipTables_claims cfg tr peers now nbrOrder order k e :
  gtClaims (snd (gossipTables cfg tr peers now nbrOrder order)) !! k = Some e ->
  (geVia e = None /\ rcSubnet (geClaim e) = mcSubnetStr cfg /\ rcNode (geClaim e) = mcNode cfg /\ rcHop (geClaim e) = 0) \/
  exists p s c, p ∈ peers /\ piSender p = Some s /\ c ∈ piClaims p /\ geVia e = Some (NodeID p) /\
    rcSubnet (geClaim e) = csStr c /\ rcNode (geClaim e) = csNode c /\ rcHop (geClaim e) = csHop c /\
    forall p' s' c', p' ∈ peers -> piSender p' = Some s' -> c' ∈ piClaims p' -> csStr c' = csStr c -> csHop c <= csHop c'.
Proof.
  unfold gossipTables. destruct (ownNeighbors tr peers now nbrOrder) as [tr' own]. cbn [snd gtClaims].
  intros He. apply validated_lookup in He as (e0 & He & -> & -> & -> & ->).
  pose proof (globalClaims_best (mcNode cfg) (mcSubnetStr cfg) own peers k) as Hb. rewrite He in Hb.
  destruct Hb as ([Hm|Hin] & _ & Hmin).
  - apply lookup_singleton_Some in Hm as [_ <-]. by left.
  - right. apply heard_in in Hin as (p & s & c & Hp & Hs & Hc & <- & ->). exists p, s, c. split_and!; try done.
    intros p' s' c' Hp' Hs' Hc' E. specialize (Hmin (heardClaim (NodeID p') c')). apply Hmin. apply heard_in. by exists p', s', c'.
Qed.

Lemma tellable_other to p : tellable to (Some (NodeID p)) = true -> NodeID p <> to.
Proof. cbn. destruct (String.eqb_spec (NodeID p) to); done. Qed.

Lemma tellPeer_fair cfg tr peers now nbrOrder order mo to :
  let info := tellPeer (snd (gossipTables cfg tr peers now nbrOrder order)) mo to in
  (forall gc, gc ∈ giClaims info -> fairClaim (mcNode cfg) (mcSubnetStr cfg) to peers gc) /\
  (forall gr, gr ∈ giRoutes info -> fairItem (mcNode cfg) to (mcAdvertise cfg) routeItems peers (grPrefix gr) (grNode gr)) /\
  (forall gs, gs ∈ giSuffixes info -> fairItem (mcNode cfg) to (mcSuffixes cfg) suffixItems peers (gsSuffix gs) (gsNode gs)).
Proof.
  cbv zeta. unfold tellPeer. cbn [giClaims giRoutes giSuffixes]. split_and!; intros x Hx; apply rangeMap_in in Hx as (k & e & He & Hx);
    destruct (tellable to _) eqn:Et; try done; injection Hx as <-.
  - apply gossipTables_claims in He as [(_ & H1 & H2 & H3)|(p & s & c & Hp & Hs & Hc & Hv & H1 & H2 & H3 & Hmin)]; [by left|right].
    rewrite Hv in Et. exists p, s, c. split_and!; try done. by apply tellable_other.
  - unfold gossipTables in He. destruct (ownNeighbors tr peers now nbrOrder) as [tr' own]. cbn [snd gtRoutes] in He.
    apply learnItems_source in He as [[Hk ->]|(p & s & Hp & Hs & Hin & Hv & Hc)]; [by left|right].
    rewrite Hv in Et. exists p, s. split_and!; [done|done|by apply tellable_other|done|by exists (gbHop e)].
  - unfold gossipTables in He. destruct (ownNeighbors tr peers now nbrOrder) as [tr' own]. cbn [snd gtSuffixes] in He.
    apply learnItems_source in He as [[Hk ->]|(p & s & Hp & Hs & Hin & Hv & Hc)]; [by left|right].
    rewrite Hv in Et. exists p, s. split_and!; [done|done|by apply tellable_other|done|by exists (gbHop e)].
Qed.

Lemma broadcast_in cfg tr peers now nbrOrder order mo s info :
  (s, info) ∈ snd (broadcastGossip cfg tr peers now nbrOrder order mo) ->
  exists p, p ∈ peers /\ piSender p = Some s /\
    info = tellPeer (snd (gossipTables cfg tr peers now nbrOrder order)) (mo s) (NodeID p).
Proof.
  unfold broadcastGossip. destruct (gossipTables cfg tr peers now nbrOrder order) as [tr' t]. cbn [snd].
  rewrite list_elem_of_omap. intros (p & Hp & Hx). apply fmap_Some in Hx as (s' & Hs & [= -> ->]). by exists p.
Qed.

(** C28: split horizon of the broadcasts: every fact in the message a broadcast sends to a
    peer is this node's own, or was
    told by a connected peer of another node than the one addressed; a relayed claim is
    the one with the fewest hops of all that were heard, and a relayed route or suffix
    comes from a peer that claims a way to its owner.  The table that opens a session has
    no split horizon ([hello_echoes]). *)
Theorem split_horizon cfg tr peers now nbrOrder order mo s info :
  (s, info) ∈ snd (broadcastGossip cfg tr peers now nbrOrder order mo) ->
  exists p, p ∈ peers /\ piSender p = Some s /\
    (forall gc, gc ∈ giClaims info -> fairClaim (mcNode cfg) (mcSubnetStr cfg) (NodeID p) peers gc) /\
    (forall gr, gr ∈ giRoutes info ->
       fairItem (mcNode cfg) (NodeID p) (mcAdvertise cfg) routeItems peers (grPrefix gr) (grNode gr)) /\
    (forall gs, gs ∈ giSuffixes info ->
       fairItem (mcNode cfg) (NodeID p) (mcSuffixes cfg) suffixItems peers (gsSuffix gs) (gsNode gs)).
Proof. intros Hm. apply broadcast_in in Hm as (p & Hp & Hs & ->). exists p. split_and!; [done|done|apply tellPeer_fair..]. Qed.

(** ** A network of nodes *)

Record NodeState := mkNode { nsConfig : MeshConfig; nsPeers : Topology; nsTracker : PeerQualityTracker }.

(** The nodes by name, and the messages sent so far with their two ends.  A message may
    arrive late, in any order, twice or never. *)
Record Network := mkNetwork { nwNodes : gmap string NodeState; nwSent : list (string * string * GossipInfo) }.

Section Network.
Variable parseCIDR : string -> option IPNet.
(** The node at the other end of a sender object of a node, and which links can be up. *)
Variable nodeOf : string -> Z -> string.
Variable link : string -> string -> Prop.

Definition setPeers (st : NodeState) (t : Topology) : NodeState := mkNode (nsConfig st) t (nsTracker st).

Inductive netStep (w : Network) : Network -> Prop :=
| PeerUp v st s now : nwNodes w !! v = Some st -> sdNode s = nodeOf v (sdPtr s) -> link v (sdNode s) ->
    netStep w (mkNetwork (<[v := setPeers st (RegisterPeer (nsPeers st) s now)]> (nwNodes w)) (nwSent w))
| PeerDown v st s : nwNodes w !! v = Some st ->
    netStep w (mkNetwork (<[v := setPeers st (UnregisterPeer (nsPeers st) s)]> (nwNodes w)) (nwSent w))
| NodeDown v st n : nwNodes w !! v = Some st ->
    netStep w (mkNetwork (<[v := setPeers st (UnregisterPeerByNodeID (nsPeers st) n)]> (nwNodes w)) (nwSent w))
| Broadcast u st now nbrOrder order mo tr msgs : nwNodes w !! u = Some st ->
    broadcastGossip (nsConfig st) (nsTracker st) (nsPeers st) now nbrOrder order mo = (tr, msgs) ->
    netStep w (mkNetwork (<[u := mkNode (nsConfig st) (nsPeers st) tr]> (nwNodes w))
                 (map (fun m => (u, sdNode (fst m), snd m)) msgs ++ nwSent w))
(** runSession opens every session with the full table (broadcastGossipToPeer), before
    either end has registered the other. *)
| Hello u t st now nbrOrder o tr info : nwNodes w !! u = Some st -> link u t ->
    BuildGossipInfo (nsConfig st) (nsTracker st) (nsPeers st) now nbrOrder o = (tr, info) ->
    netStep w (mkNetwork (<[u := mkNode (nsConfig st) (nsPeers st) tr]> (nwNodes w)) ((u, t, info) :: nwSent w))
(** HandleTopologyGossip leaves out what comes from a node of the own name. *)
| Receive u v st s info now : nwNodes w !! v = Some st -> (u, v, info) ∈ nwSent w ->
    sdNode s = nodeOf v (sdPtr s) -> sdNode s = u -> u <> v ->
    netStep w (mkNetwork (<[v := setPeers st (fst (UpdateGossip parseCIDR (nsPeers st) s info now))]> (nwNodes w)) (nwSent w)).

(** Every node knows its name and no peers, and nothing was sent. *)
Definition initial (w : Network) : Prop :=
  nwSent w = [] /\ forall v st, nwNodes w !! v = Some st -> mcNode (nsConfig st) = v /\ nsPeers st = [].

Inductive netReach : Network -> Prop :=
| reachInit w : initial w -> netReach w
| reachStep w w' : netReach w -> netStep w w' -> netReach w'.

(** A chain of links. *)
Inductive chain : string -> list string -> string -> Prop :=
| chainNil v : chain v [] v
| chainCons v u l o : link v u -> chain u l o -> chain v (u :: l) o.

(** The hop count of a claim told by [u]: the length of a chain from [u] to its owner. *)
Definition realClaim (u : string) (node : string) (hop : Z) : Prop :=
  exists l, chain u l node /\ hop = swrap 64 (len l).

(** Counting one more hop, in Go's int. *)
Lemma swrap_succ n : swrap 64 (swrap 64 n + 1) = swrap 64 (1 + n).
Proof.
  unfold swrap. f_equal. replace ((n + 2 ^ (64 - 1)) mod 2 ^ 64 - 2 ^ (64 - 1) + 1 + 2 ^ (64 - 1))
    with ((n + 2 ^ (64 - 1)) mod 2 ^ 64 + 1) by lia.
  rewrite Zplus_mod_idemp_l. f_equal. lia.
Qed.

Definition peerReal (v : string) (p : PeerInfo) : Prop :=
  exists s, piSender p = Some s /\ sdNode s = nodeOf v (sdPtr s) /\ link v (sdNode s) /\
    forall c, c ∈ piClaims p -> exists hop, realClaim (NodeID p) (csNode c) hop /\ csHop c = swrap 64 (hop + 1).

Definition netReal (w : Network) : Prop :=
  (forall v st, nwNodes w !! v = Some st -> mcNode (nsConfig st) = v /\ Forall (peerReal v) (nsPeers st)) /\
  forall u v info, (u, v, info) ∈ nwSent w -> forall gc, gc ∈ giClaims info -> realClaim u (gcNode gc) (gcHop gc).

Lemma removeFirst_Forall P f t : Forall P t -> Forall P (removeFirst f t).
Proof. induction 1 as [|p t Hp Ht IH]; [constructor|]. cbn. destruct (f p); [done|by constructor]. Qed.

Lemma parseClaims_in l c : c ∈ parseClaims parseCIDR l -> exists gc, gc ∈ l /\ csNode c = gcNode gc /\ csHop c = swrap 64 (gcHop gc + 1).
Proof.
  unfold parseClaims. rewrite list_elem_of_omap. intros (gc & Hgc & Hc). apply fmap_Some in Hc as (n & _ & ->). by exists gc.
Qed.

(** Gossip that is real for its receiver keeps its table real. *)
Lemma UpdateGossip_real v t s info now :
  sdNode s = nodeOf v (sdPtr s) -> (forall gc, gc ∈ giClaims info -> realClaim (sdNode s) (gcNode gc) (gcHop gc)) ->
  Forall (peerReal v) t -> Forall (peerReal v) (fst (UpdateGossip parseCIDR t s info now)).
Proof.
  intros Hs Hinfo. induction 1 as [|p t Hp Ht IH]; [constructor|]. cbn [UpdateGossip].
  destruct (sentBy s p) eqn:Eb.
  - destruct (mergeGossip parseCIDR p info now) as [p' changed] eqn:Em. cbn [fst]. constructor; [|done].
    unfold mergeGossip in Em. injection Em as <- _. destruct Hp as (sp & Hsp & Hn & Hl & _).
    exists sp. cbn [piSender piClaims]. split_and!; [done..|]. intros c Hc. apply parseClaims_in in Hc as (gc & Hgc & -> & ->).
    unfold sentBy in Eb. rewrite Hsp in Eb. apply Z.eqb_eq in Eb.
    assert (Hid : NodeID (mkPeerInfo (piSender p) (csNet <$> ownClaim (parseClaims parseCIDR (giClaims info)))
      (match ownClaim (parseClaims parseCIDR (giClaims info)) with Some c => csStr c | None => ""%string end)
      (map (fun s => mkSuffix (gsSuffix s) (gsNode s)) (giSuffixes info)) (parseRoutes parseCIDR (giRoutes info))
      (parseClaims parseCIDR (giClaims info)) now) = sdNode s) by (unfold NodeID; cbn; rewrite Hsp; congruence).
    rewrite Hid. exists (gcHop gc). split; [by apply Hinfo|done].
  - destruct (UpdateGossip parseCIDR t s info now) as [t' changed]. cbn [fst] in *. by constructor.
Qed.

(** One more hop from a peer with a real table. *)
Lemma relayed_real u peers q s c : Forall (peerReal u) peers -> q ∈ peers -> piSender q = Some s -> c ∈ piClaims q ->
  realClaim u (csNode c) (csHop c).
Proof.
  rewrite Forall_forall. intros Hreal Hq Hs Hc. destruct (Hreal q Hq) as (s' & Hs' & _ & Hl & Hcl).
  destruct (Hcl c Hc) as (hop & (l & Hch & ->) & ->). exists (NodeID q :: l). split; [|by rewrite swrap_succ, len_cons].
  constructor; [|done]. unfold NodeID. by rewrite Hs'.
Qed.

(** What a node with a real table tells is real: in a broadcast, and in the table that
    opens a session. *)
Lemma broadcast_real u st now nbrOrder order mo s info :
  mcNode (nsConfig st) = u -> Forall (peerReal u) (nsPeers st) ->
  (s, info) ∈ snd (broadcastGossip (nsConfig st) (nsTracker st) (nsPeers st) now nbrOrder order mo) ->
  forall gc, gc ∈ giClaims info -> realClaim u (gcNode gc) (gcHop gc).
Proof.
  intros Hu Hreal Hm gc Hgc. apply broadcast_in in Hm as (p & Hp & Hs & ->).
  apply tellPeer_fair in Hgc as [(_ & -> & ->)|(q & sq & c & Hq & Hsq & _ & Hc & _ & -> & -> & _)].
  - exists []. rewrite Hu. split; [constructor|done].
  - by eapply relayed_real.
Qed.

Lemma hello_real u st now nbrOrder o tr info :
  mcNode (nsConfig st) = u -> Forall (peerReal u) (nsPeers st) ->
  BuildGossipInfo (nsConfig st) (nsTracker st) (nsPeers st) now nbrOrder o = (tr, info) ->
  forall gc, gc ∈ giClaims info -> realClaim u (gcNode gc) (gcHop gc).
Proof.
  intros Hu Hreal Hb gc Hgc. unfold BuildGossipInfo in Hb. destruct (ownNeighbors _ _ _ _) as [tr' own]. injection Hb as _ <-.
  cbn [giClaims] in Hgc. apply rangeMap_in in Hgc as (k & e & He & [= <-]). cbn [claimMessage gcNode gcHop].
  pose proof (globalClaims_best (mcNode (nsConfig st)) (mcSubnetStr (nsConfig st)) own (nsPeers st) k) as Hbest. rewrite He in Hbest.
  destruct Hbest as ([Hm|Hin] & _).
  - apply lookup_singleton_Some in Hm as [_ <-]. exists []. rewrite <- Hu. split; [constructor|done].
  - apply heard_in in Hin as (q & s & c & Hq & Hs & Hc & _ & ->). by eapply relayed_real.
Qed.

Lemma netReal_update w v st' : netReal w -> mcNode (nsConfig st') = v -> Forall (peerReal v) (nsPeers st') ->
  netReal (mkNetwork (<[v := st']> (nwNodes w)) (nwSent w)).
Proof.
  intros [Hn Hm] Hc Hp. split; [|done]. cbn [nwNodes]. intros v0 st0. destruct (decide (v = v0)) as [<-|Hne].
  - rewrite lookup_insert_eq. by intros [= <-].
  - rewrite lookup_insert_ne by done. apply Hn.
Qed.

Lemma netStep_real w w' : netReal w -> netStep w w' -> netReal w'.
Proof.
  intros Hw Hs. pose proof Hw as [Hn Hm].
  destruct Hs as [v st s now Hv Hid Hl|v st s Hv|v st n Hv|u st now nbrOrder order mo tr msgs Hu Hb
    |u t st now nbrOrder o tr info Hu Hlk Hb|u v st s info now Hv Hsent Hid Hsu Hne];
    [destruct (Hn _ _ Hv) as [Hc Hp]..|destruct (Hn _ _ Hu) as [Hc Hp]|destruct (Hn _ _ Hu) as [Hc Hp]|destruct (Hn _ _ Hv) as [Hc Hp]].
  - apply netReal_update; [done..|]. cbn. apply Forall_app. split; [done|]. repeat constructor. exists s. cbn. split_and!; [done..|].
    intros c Hcl. by apply elem_of_nil in Hcl.
  - apply netReal_update; [done..|]. cbn. by apply removeFirst_Forall.
  - apply netReal_update; [done..|]. cbn. by apply removeFirst_Forall.
  - split.
    + apply (netReal_update w u (mkNode (nsConfig st) (nsPeers st) tr)); done.
    + cbn [nwSent]. intros u0 v0 info Hin. apply elem_of_app in Hin as [Hin|Hin]; [|by eapply Hm].
      apply list_elem_of_fmap in Hin as ([s i] & [= -> -> ->] & Hin).
      eapply broadcast_real; [done|done|]. by rewrite Hb.
  - split.
    + apply (netReal_update w u (mkNode (nsConfig st) (nsPeers st) tr)); done.
    + cbn [nwSent]. intros u0 v0 info0 Hin. apply elem_of_cons in Hin as [[= -> -> ->]|Hin]; [|by eapply Hm].
      by eapply hello_real.
  - apply netReal_update; [done..|]. cbn [setPeers nsPeers]. apply UpdateGossip_real; [done| |done].
    rewrite Hsu. by eapply Hm.
Qed.

(** C4: hop counts are real: in every network reached by links coming up and down, the
    tables that open sessions, broadcasts, and messages delivered late, out of order,
    repeatedly or never, each claim a node holds counts (in Go's int) the hops of an actual
    chain of links to the claimed owner that starts with the peer that told it. *)
Theorem gossip_hops_real w v st p c :
  netReach w -> nwNodes w !! v = Some st -> p ∈ nsPeers st -> c ∈ piClaims p ->
  exists l, chain v (NodeID p :: l) (csNode c) /\ csHop c = swrap 64 (len (NodeID p :: l)).
Proof.
  intros Hr Hv Hp Hc. assert (Hw : netReal w).
  { clear st p c Hv Hp Hc. induction Hr as [w [Hs Hi]|w w' _ IH Hstep]; [|by eapply netStep_real; [apply IH|]]. split.
    - intros v0 st0 H0. destruct (Hi _ _ H0) as [? ->]. split; [done|constructor].
    - rewrite Hs. intros ? ? ? Hin. by apply elem_of_nil in Hin. }
  destruct Hw as [Hn _]. destruct (Hn _ _ Hv) as [_ Hreal]. rewrite Forall_forall in Hreal.
  destruct (Hreal p Hp) as (s & Hs & _ & Hl & Hcl). destruct (Hcl c Hc) as (hop & (l & Hch & ->) & ->).
  exists l. split; [|by rewrite swrap_succ, len_cons]. constructor; [|done]. unfold NodeID. by rewrite Hs.
Qed.

End Network.

(** ** Small networks *)

Section Demo.
Open Scope string_scope.

(** A's peers: B, and C which lists the link back. *)
Definition gossipPeers : list PeerInfo :=
  [mkPeerInfo (Some (mkSender 1 "B" 1 1 "" (Some 11))) None "" [] [] [] 0;
   mkPeerInfo (Some (mkSender 3 "C" 3 4 "" (Some 13))) (demoParse "100.66.0.0/16") "100.66.0.0/16" []
     [mkRoute (mkNet [10; 0; 0; 0] 8) "10.0.0.0/8" "C"]
     [mkClaim (mkNet [100; 66; 0; 0] 16) "100.66.0.0/16" "C" 1
        [mkNbr "A" [mkGLink 4 3 "" (f64 0) (f64 0) (f64 0) (f64 0) (f64 0)]]] 0].

Definition demoMessages : list (PeerSender * GossipInfo) :=
  snd (broadcastGossip demoConfig ∅ gossipPeers 0 ["B"; "C"] ["100.64.0.0/16"; "100.66.0.0/16"]
    (fun _ => mkOrder ["100.64.0.0/16"; "100.66.0.0/16"] ["10.1.0.0/16"; "10.0.0.0/8"] [])).

(** B is told of C and its route, C is not. *)
Example demoMessages_claims :
  map (fun m => (sdNode (fst m), map gcNode (giClaims (snd m)), map grPrefix (giRoutes (snd m)))) demoMessages =
  [("B", ["A"; "C"], ["10.1.0.0/16"; "10.0.0.0/8"]); ("C", ["A"], ["10.1.0.0/16"])].
Proof. vm_compute. reflexivity. Qed.

(** The table that opens a session tells B what B told: A, which heard from B the claims
    of B and of D behind it, says them back to B; its broadcasts do not. *)
Definition echoPeers : list PeerInfo :=
  [mkPeerInfo (Some (mkSender 1 "B" 1 1 "" (Some 11))) (demoParse "100.66.0.0/16") "100.66.0.0/16" [] []
     [mkClaim (mkNet [100; 66; 0; 0] 16) "100.66.0.0/16" "B" 1 [];
      mkClaim (mkNet [10; 0; 0; 0] 8) "10.0.0.0/8" "D" 2 []] 0].

Example hello_echoes :
  map (fun c => (gcNode c, gcHop c)) (giClaims (snd (BuildGossipInfo demoConfig ∅ echoPeers 0 ["B"]
    (mkOrder ["100.64.0.0/16"; "100.66.0.0/16"; "10.0.0.0/8"] [] [])))) = [("A", 0); ("B", 1); ("D", 2)] /\
  map (fun m => map (fun c => (gcNode c, gcHop c)) (giClaims (snd m)))
    (snd (broadcastGossip demoConfig ∅ echoPeers 0 ["B"] ["100.64.0.0/16"; "100.66.0.0/16"; "10.0.0.0/8"]
       (fun _ => mkOrder ["100.64.0.0/16"; "100.66.0.0/16"; "10.0.0.0/8"] [] []))) = [[("A", 0)]].
Proof. vm_compute. split; reflexivity. Qed.

Lemma split_horizon_witness : exists info gc, (mkSender 1 "B" 1 1 "" (Some 11), info) ∈ demoMessages /\ gc ∈ giClaims info /\
  gcNode gc = "C" /\ fairClaim "A" "100.64.0.0/16" "B" gossipPeers gc.
Proof.
  assert (Hm : exists info gc, (mkSender 1 "B" 1 1 "" (Some 11), info) ∈ demoMessages /\ gc ∈ giClaims info /\ gcNode gc = "C").
  { eexists _, _. split_and!; [left|right; left|reflexivity]. }
  destruct Hm as (info & gc & Hm & Hgc & Hn). exists info, gc. split_and!; [exact Hm|exact Hgc|exact Hn|].
  unfold demoMessages in Hm. destruct (split_horizon _ _ _ _ _ _ _ _ _ Hm) as (p & Hp & Hs & Hfair & _).
  assert (Hid : NodeID p = "B") by (unfold NodeID; by rewrite Hs). rewrite Hid in Hfair. exact (Hfair gc Hgc).
Defined.

(** B hears of A over the link between them. *)
Definition pairLink (v u : string) : Prop := (v = "A" /\ u = "B") \/ (v = "B" /\ u = "A").
Definition otherEnd (v : string) (_ : Z) : string := if String.eqb v "A" then "B" else "A".
Definition toB : PeerSender := mkSender 1 "B" 1 2 "" (Some 11).
Definition toA : PeerSender := mkSender 9 "A" 2 1 "" (Some 21).
Definition configB : MeshConfig :=
  mkConfig "B" "100.66.0.0/16" (demoParse "100.66.0.0/16") (Some (mkNet [100; 64; 0; 0] 10)) [] [] [] [].

Lemma gossip_hops_real_witness : exists w st p c, netReach demoParse otherEnd pairLink w /\ nwNodes w !! "B" = Some st /\
  p ∈ nsPeers st /\ c ∈ piClaims p /\ csNode c = "A" /\
  exists l, chain pairLink "B" (NodeID p :: l) (csNode c) /\ csHop c = swrap 64 (len (NodeID p :: l)).
Proof.
  set (w0 := mkNetwork {["A" := mkNode demoConfig [] ∅; "B" := mkNode configB [] ∅]} []).
  assert (H0 : netReach demoParse otherEnd pairLink w0).
  { constructor. split; [done|]. intros v st Hv. unfold w0 in Hv. cbn [nwNodes] in Hv. apply lookup_insert_Some in Hv as [[<- <-]|[_ Hv]]; [done|].
    apply lookup_singleton_Some in Hv as [<- <-]. done. }
  set (a1 := mkNode demoConfig (RegisterPeer [] toB 0) ∅). set (b1 := mkNode configB (RegisterPeer [] toA 0) ∅).
  assert (H1 := reachStep _ _ _ _ _ H0 (PeerUp demoParse otherEnd pairLink w0 "A" (mkNode demoConfig [] ∅) toB 0 eq_refl eq_refl
    (or_introl (conj eq_refl eq_refl)))).
  change (setPeers _ _) with a1 in H1. set (w1 := mkNetwork _ _) in H1.
  assert (H2 := reachStep _ _ _ _ _ H1 (PeerUp demoParse otherEnd pairLink w1 "B" (mkNode configB [] ∅) toA 0 eq_refl eq_refl
    (or_intror (conj eq_refl eq_refl)))).
  change (setPeers _ _) with b1 in H2. set (w2 := mkNetwork _ _) in H2.
  destruct (broadcastGossip demoConfig ∅ (nsPeers a1) 0 ["B"] ["100.64.0.0/16"] (fun _ => mkOrder ["100.64.0.0/16"] [] [])) as [tr msgs] eqn:Eb.
  assert (H3 := reachStep _ _ _ _ _ H2 (Broadcast demoParse otherEnd pairLink w2 "A" a1 0 _ _ _ tr msgs eq_refl Eb)).
  assert (Hmsg : exists info, msgs = [(toB, info)] /\ parseClaims demoParse (giClaims info) <> [] /\
    Forall (fun c => csNode c = "A") (parseClaims demoParse (giClaims info))).
  { vm_compute in Eb. injection Eb as _ <-. eexists. split_and!; [reflexivity|done|repeat constructor]. }
  destruct Hmsg as (info & -> & Hne & HA).
  set (w3 := mkNetwork _ _) in H3.
  assert (HB : nwNodes w3 !! "B" = Some b1) by (unfold w3; cbn [nwNodes]; rewrite lookup_insert_ne by done; apply lookup_insert_eq).
  assert (H4 := reachStep _ _ _ _ _ H3 (Receive demoParse otherEnd pairLink w3 "A" "B" b1 toA info 0 HB
    (list_elem_of_here _ _) eq_refl eq_refl ltac:(done))).
  destruct (parseClaims demoParse (giClaims info)) as [|c cs] eqn:Ec; [done|]. apply Forall_cons_iff in HA as [HA _].
  eexists _, _, _, c. split_and!; [exact H4|apply lookup_insert_eq|left|cbn [piClaims]; rewrite Ec; left|exact HA|].
  eapply (gossip_hops_real demoParse otherEnd pairLink); [exact H4|apply lookup_insert_eq|left|cbn [piClaims]; rewrite Ec; left].
Defined.

End Demo.
