(* ===== verification/Groups.v ===== *)
(** Proxy groups of src/config/config.go: members, selection strategies, nested
    groups with cycle detection, and health samples with hysteresis.

    The configuration is a [World]: the proxies, groups and subscriptions that the
    ResolveProxy, ResolveGroup and ResolveSubscription callbacks look up by name.
    The groups' round-robin counters and health maps are their mutable state, so
    selection threads the world.  Recursion through nested groups takes fuel; the
    number of groups is enough.  Regular expressions are a parameter; case folding
    and trimming of filters are those of ASCII strings.  The callbacks are set, as
    the configuration store sets them on every group it builds. *)

From Stdlib Require Import ZArith Lia Ascii.
From stdpp Require Import base list numbers gmap strings sorting.
From S2P Require Import Prelude GoStrings.
Open Scope Z_scope.

(** ** Data *)

Inductive GroupType := GroupSelect | GroupLoadBalance | GroupBest | GroupOther.

Definition healthFailThreshold : Z := 3.
Definition healthSuccessThreshold : Z := 2.

Record healthStatus := mkHealth {
  latency : Duration; alive : bool; failCount : Z; successCount : Z; lastCheck : Time }.

Record GroupMember := mkMember { mName : string; FromSubscription : bool; IsGroup : bool }.

#[global] Instance GroupMember_eq_dec : EqDecision GroupMember.
Proof. solve_decision. Defined.

Definition zeroMember : GroupMember := mkMember "" false false.

Definition HealthKey (m : GroupMember) : string :=
  if FromSubscription m then ("sub:" +:+ mName m)%string else mName m.

Record ProxyGroup := mkGroup {
  gName : string;
  gType : GroupType;
  ManualProxies : list string;
  Subscription : string;
  SubscriptionFilter : string;
  ActiveMember : string;
  idx : Z;
  healthMapRef : option (gmap string healthStatus)
}.

(** Reads of the health map; a nil map reads as an empty one. *)
Definition healthMap (g : ProxyGroup) : gmap string healthStatus := default ∅ (healthMapRef g).

(** How a run ends: a result, a panic of the language, or fuel exhaustion. *)
Inductive outcome (A : Type) := Returns (a : A) | Panics | OutOfFuel.
Arguments Returns {A} a.
Arguments Panics {A}.
Arguments OutOfFuel {A}.

Section Groups.
Context {P : Type}.

(** regexp.Compile: the predicate of a pattern, or a compile error. *)
Variable Compile : string -> option (string -> bool).

Record World := mkWorld {
  proxies : gmap string P;
  groups : gmap string ProxyGroup;
  subscriptions : gmap string (gmap string P)
}.

Definition setGroup (w : World) (name : string) (g : ProxyGroup) : World :=
  mkWorld (proxies w) (<[name := g]> (groups w)) (subscriptions w).

Definition setIdx (g : ProxyGroup) (i : Z) : ProxyGroup :=
  mkGroup (gName g) (gType g) (ManualProxies g) (Subscription g) (SubscriptionFilter g) (ActiveMember g)
    i (healthMapRef g).
Definition setHealthMap (g : ProxyGroup) (h : gmap string healthStatus) : ProxyGroup :=
  mkGroup (gName g) (gType g) (ManualProxies g) (Subscription g) (SubscriptionFilter g) (ActiveMember g)
    (idx g) (Some h).
Definition setActive (g : ProxyGroup) (name : string) : ProxyGroup :=
  mkGroup (gName g) (gType g) (ManualProxies g) (Subscription g) (SubscriptionFilter g) name
    (idx g) (healthMapRef g).

(** ** Members *)

Fixpoint insertSorted (x : string) (l : list string) : list string :=
  match l with
  | [] => [x]
  | y :: l' => if String.leb x y then x :: l else y :: insertSorted x l'
  end.
(** sort.Strings *)
Definition sortStrings (l : list string) : list string := foldr insertSorted [] l.

Definition subscriptionCandidates (g : ProxyGroup) (nodes : gmap string P) : list string :=
  let filter := TrimSpace (SubscriptionFilter g) in
  let keep name :=
    if String.eqb filter "" then true
    else match Compile filter with
         | Some re => re name
         | None => ContainsStr (ToLower name) (ToLower filter)
         end in
  sortStrings (List.filter keep (elements (dom nodes))).

Definition manualMember (w : World) (name : string) : option GroupMember :=
  if decide (is_Some (proxies w !! name)) then Some (mkMember name false false)
  else if decide (is_Some (groups w !! name)) then Some (mkMember name false true)
  else None.

Definition computeManualMembers (w : World) (g : ProxyGroup) : list GroupMember :=
  omap (manualMember w) (ManualProxies g).

Definition computeMembers (w : World) (g : ProxyGroup) : list GroupMember :=
  let subMembers :=
    if String.eqb (Subscription g) "" then []
    else match subscriptions w !! Subscription g with
         | Some nodes => (fun name => mkMember name true false) <$> subscriptionCandidates g nodes
         | None => []
         end in
  subMembers ++ computeManualMembers w g.

Definition ResolveMember (w : World) (g : ProxyGroup) (m : GroupMember) : option P :=
  if IsGroup m then None
  else if FromSubscription m then
    if String.eqb (Subscription g) "" then None
    else subscriptions w !! Subscription g ≫= (fun nodes => nodes !! mName m)
  else proxies w !! mName m.

Definition SetActiveMember (w : World) (g : ProxyGroup) (name : string) : option ProxyGroup :=
  if String.eqb name "" then Some (setActive g "")
  else if existsb (fun m => String.eqb (mName m) name) (computeMembers w g) then Some (setActive g name)
  else None.

(** ** Selection *)

Definition nextSelectMember (g : ProxyGroup) (members : list GroupMember) : GroupMember :=
  let first := match members with m :: _ => m | [] => zeroMember end in
  if String.eqb (ActiveMember g) "" then first
  else default first (List.find (fun m => String.eqb (mName m) (ActiveMember g)) members).

(** The loop of the round robin with [i] tries left; returns the new counter.
    A negative counter (after 2^63 picks) indexes out of range: [None], a panic. *)
Fixpoint roundRobinLoop (i : nat) (g : ProxyGroup) (members : list GroupMember) (k : Z)
  : option (Z * GroupMember) :=
  match i with
  | O => Some (k, zeroMember)
  | S i' =>
      let r := Z.rem k (len members) in
      if r <? 0 then None
      else
        let m := default zeroMember (members !! Z.to_nat r) in
        match healthMap g !! HealthKey m with
        | Some h =>
            if alive h then Some (swrap 64 (k + 1), m) else roundRobinLoop i' g members (swrap 64 (k + 1))
        | None => Some (swrap 64 (k + 1), m)
        end
  end.

Definition nextRoundRobinAliveMember (g : ProxyGroup) (members : list GroupMember)
  : option (Z * GroupMember) :=
  roundRobinLoop (length members) g members (idx g).

(** The scan for the alive member of lowest latency; an empty name is "none". *)
Definition bestStep (g : ProxyGroup) (acc : GroupMember * Duration) (m : GroupMember) : GroupMember * Duration :=
  match healthMap g !! HealthKey m with
  | Some h =>
      if negb (alive h) then acc
      else if String.eqb (mName (fst acc)) "" || (latency h <? snd acc) then (m, latency h)
      else acc
  | None => acc
  end.

Definition unchecked (g : ProxyGroup) (m : GroupMember) : bool :=
  match healthMap g !! HealthKey m with Some _ => false | None => true end.

Definition nextByHealthMember (g : ProxyGroup) (members : list GroupMember) : GroupMember :=
  let best := fst (foldl (bestStep g) (zeroMember, 0) members) in
  if negb (String.eqb (mName best) "") then best
  else default zeroMember (List.find (unchecked g) members).

(** The pick and the group afterwards (the counter may have moved). *)
Definition pickMember (g : ProxyGroup) (list : list GroupMember) : option (ProxyGroup * GroupMember) :=
  match gType g with
  | GroupSelect => Some (g, nextSelectMember g list)
  | GroupLoadBalance =>
      match nextRoundRobinAliveMember g list with
      | Some (k, m) => Some (setIdx g k, m)
      | None => None
      end
  | GroupBest => Some (g, nextByHealthMember g list)
  | GroupOther => match list with m :: _ => Some (g, m) | [] => None end
  end.

Fixpoint removeGroupMember (list : list GroupMember) (m : GroupMember) : Datatypes.list GroupMember :=
  match list with
  | [] => []
  | x :: list' => if decide (x = m) then list' else x :: removeGroupMember list' m
  end.

(** What a resolution returns: the world, the visited groups, a proxy or nil. *)
Definition resolution : Type := World * gset string * option P.

(** [resolveMemberWithVisited]; [rec] resolves a nested group. *)
Definition resolveMemberWithVisited (rec : World -> gset string -> string -> outcome resolution)
    (w : World) (visited : gset string) (g : ProxyGroup) (m : GroupMember) : outcome resolution :=
  if IsGroup m then
    match groups w !! mName m with
    | Some _ => rec w visited (mName m)
    | None => Returns (w, visited, None)
    end
  else Returns (w, visited, ResolveMember w g m).

(** The loop of [NextWithVisited].  Each turn removes the member it picked, so
    [n], the length of the list, bounds it. *)
Fixpoint nextLoop (rec : World -> gset string -> string -> outcome resolution) (n : nat) (w : World)
    (visited : gset string) (name : string) (list : Datatypes.list GroupMember) : outcome resolution :=
  match list, n, groups w !! name with
  | [], _, _ => Returns (w, visited, None)
  | _, S n', Some g =>
      match pickMember g list with
      | None => Panics
      | Some (g', m) =>
          let w := setGroup w name g' in
          if String.eqb (mName m) "" then Returns (w, visited, None)
          else
            match resolveMemberWithVisited rec w visited g' m with
            | Returns (w, visited, None) => nextLoop rec n' w visited name (removeGroupMember list m)
            | r => r
            end
      end
  | _, _, _ => OutOfFuel
  end.

Fixpoint NextWithVisited (fuel : nat) (w : World) (visited : gset string) (name : string)
  : outcome resolution :=
  match fuel, groups w !! name with
  | S fuel', Some g =>
      if negb (String.eqb (gName g) "") && bool_decide (gName g ∈ visited) then Returns (w, visited, None)
      else
        let visited := if String.eqb (gName g) "" then visited else {[gName g]} ∪ visited in
        let members := computeMembers w g in
        nextLoop (NextWithVisited fuel') (length members) w visited name members
  | _, _ => OutOfFuel
  end.

Definition Next (fuel : nat) (w : World) (name : string) : outcome resolution :=
  NextWithVisited fuel w ∅ name.

(** The loop of [PickActiveMember]. *)
Fixpoint activeLoop (rec : World -> string -> outcome (World * GroupMember)) (n : nat) (w : World)
    (name : string) (list : Datatypes.list GroupMember) : outcome (World * GroupMember) :=
  match list, n, groups w !! name with
  | [], _, _ => Returns (w, zeroMember)
  | _, S n', Some g =>
      match pickMember g list with
      | None => Panics
      | Some (g', m) =>
          let w := setGroup w name g' in
          if String.eqb (mName m) "" then Returns (w, zeroMember)
          else if IsGroup m then
            match groups w !! mName m with
            | Some _ =>
                match rec w (mName m) with
                | Returns (w, inner) =>
                    if negb (String.eqb (mName inner) "") then Returns (w, m)
                    else activeLoop rec n' w name (removeGroupMember list m)
                | r => r
                end
            | None => activeLoop rec n' w name (removeGroupMember list m)
            end
          else Returns (w, m)
      end
  | _, _, _ => OutOfFuel
  end.

(** Its visited map is local and fresh, so the test on it always fails. *)
Fixpoint PickActiveMember (fuel : nat) (w : World) (name : string) : outcome (World * GroupMember) :=
  match fuel, groups w !! name with
  | S fuel', Some g =>
      let members := computeMembers w g in
      activeLoop (PickActiveMember fuel') (length members) w name members
  | _, _ => OutOfFuel
  end.

End Groups.
Arguments World : clear implicits.

(** ** Health *)

(** The group ready for use, or "unsupported group type". *)
Definition Init (g : ProxyGroup) : option ProxyGroup :=
  match gType g with
  | GroupOther => None
  | _ => Some (setHealthMap g (healthMap g))
  end.

(** Writes to the health map; a write to a nil map panics ([None]). *)
Definition putHealth (g : ProxyGroup) (key : string) (h : healthStatus) : option ProxyGroup :=
  match healthMapRef g with
  | Some hm => Some (setHealthMap g (<[key := h]> hm))
  | None => None
  end.

(** One health sample; the boolean is "the state changed". *)
Definition SetHealth (g : ProxyGroup) (key : string) (checkAlive : bool) (lat : Duration) (now : Time)
  : option (ProxyGroup * bool) :=
  let isNew := match healthMap g !! key with None => true | Some _ => false end in
  let h := default (mkHealth 0 false 0 0 0) (healthMap g !! key) in
  let '(h, changed) :=
    if checkAlive then
      let sc := swrap 64 (successCount h + 1) in
      let flip := isNew || (negb (alive h) && (healthSuccessThreshold <=? sc)) in
      (mkHealth lat (if flip then true else alive h) 0 sc now, flip)
    else
      let fc := swrap 64 (failCount h + 1) in
      let flip := isNew || (alive h && (healthFailThreshold <=? fc)) in
      (mkHealth lat (if flip then false else alive h) fc 0 now, flip) in
  g' ← putHealth g key h; Some (g', changed).

Definition SetHealthImmediate (g : ProxyGroup) (key : string) (al : bool) (lat : Duration) (now : Time)
  : option (ProxyGroup * bool) :=
  let isNew := match healthMap g !! key with None => true | Some _ => false end in
  let h := default (mkHealth 0 false 0 0 0) (healthMap g !! key) in
  let changed := isNew || negb (Bool.eqb (alive h) al) in
  let h := if al then mkHealth lat al 0 (swrap 64 (successCount h + 1)) now
           else mkHealth lat al (swrap 64 (failCount h + 1)) 0 now in
  g' ← putHealth g key h; Some (g', changed).

Definition IsAlive (h : option healthStatus) : bool :=
  match h with Some h => alive h | None => false end.

(** Deleting from a nil map does nothing. *)
Definition RemoveHealth (g : ProxyGroup) (keys : list string) : ProxyGroup :=
  match healthMapRef g with
  | Some hm => setHealthMap g (foldl (fun h k => delete k h) hm keys)
  | None => g
  end.

(** ** Selection: what each strategy picks *)

Definition firstWith (p : GroupMember -> bool) (l : list GroupMember) (m : GroupMember) : Prop :=
  exists l1 l2, l = l1 ++ m :: l2 /\ p m = true /\ Forall (fun x => p x = false) l1.

(** Checked and alive; dead; the latency on record. *)
Definition isUp (g : ProxyGroup) (m : GroupMember) : bool := IsAlive (healthMap g !! HealthKey m).
Definition usable (g : ProxyGroup) (m : GroupMember) : bool := unchecked g m || isUp g m.
Definition latencyOf (g : ProxyGroup) (m : GroupMember) : Duration :=
  from_option latency 0 (healthMap g !! HealthKey m).

Definition fastestUp (g : ProxyGroup) (l : list GroupMember) (m : GroupMember) : Prop :=
  exists l1 l2, l = l1 ++ m :: l2 /\ isUp g m = true /\
    Forall (fun x => isUp g x = true -> latencyOf g m < latencyOf g x) l1 /\
    Forall (fun x => isUp g x = true -> latencyOf g m <= latencyOf g x) l2.

(** The member at the round-robin position [k]. *)
Definition memberAt (l : list GroupMember) (k : Z) : GroupMember :=
  default zeroMember (l !! Z.to_nat (k mod len l)).

Definition named (l : list GroupMember) : Prop := Forall (fun m => mName m <> ""%string) l.

Lemma find_first p l :
  match List.find p l with Some m => firstWith p l m | None => Forall (fun x => p x = false) l end.
Proof.
  induction l as [|x l IH]; [constructor|]. cbn [List.find]. destruct (p x) eqn:Hx.
  - by exists [], l.
  - destruct (List.find p l) as [m|]; [|by constructor].
    destruct IH as (l1 & l2 & -> & Hm & H1). exists (x :: l1), l2. by split_and!; [| |constructor].
Qed.

Lemma firstWith_in p l m : firstWith p l m -> m ∈ l.
Proof. intros (l1 & l2 & -> & _ & _). set_solver. Qed.

Lemma fastestUp_in g l m : fastestUp g l m -> m ∈ l.
Proof. intros (l1 & l2 & -> & _). set_solver. Qed.

Lemma memberAt_in l k : l <> [] -> memberAt l k ∈ l.
Proof.
  intros Hl. unfold memberAt, len.
  destruct (l !! Z.to_nat (k mod Z.of_nat (length l))) as [m|] eqn:E; cbn.
  - by eapply list_elem_of_lookup_2.
  - apply lookup_ge_None_1 in E. destruct l; [done|]. cbn [length] in *.
    pose proof (Z.mod_pos_bound k (Z.of_nat (S (length l)))). lia.
Qed.

Lemma named_in l m : named l -> m ∈ l -> String.eqb (mName m) "" = false.
Proof. intros H Hm. apply String.eqb_neq. by eapply Forall_forall in H. Qed.

Lemma roundRobinLoop_exact g l i : forall k, l <> [] -> 0 <= k -> k + Z.of_nat i < 2 ^ 63 ->
  (exists j, (j < i)%nat /\ usable g (memberAt l (k + Z.of_nat j)) = true /\
     (forall j', (j' < j)%nat -> usable g (memberAt l (k + Z.of_nat j')) = false) /\
     roundRobinLoop i g l k = Some (k + Z.of_nat j + 1, memberAt l (k + Z.of_nat j)))
  \/ ((forall j', (j' < i)%nat -> usable g (memberAt l (k + Z.of_nat j')) = false) /\
      roundRobinLoop i g l k = Some (k + Z.of_nat i, zeroMember)).
Proof.
  induction i as [|i IH]; intros k Hl Hk Hlt.
  - right. split; [lia|]. cbn. by rewrite Z.add_0_r.
  - assert (Hn : 0 < len l) by (destruct l; [done|unfold len; cbn [length]; lia]).
    cbn [roundRobinLoop]. rewrite Z.rem_mod_nonneg by lia.
    pose proof (Z.mod_pos_bound k (len l) Hn).
    destruct (Z.ltb_spec (k mod len l) 0); [lia|].
    change (default zeroMember (l !! Z.to_nat (k mod len l))) with (memberAt l k).
    rewrite swrap_small by lia.
    destruct (usable g (memberAt l k)) eqn:Hu.
    + left. exists 0%nat. rewrite Z.add_0_r. split_and!; [lia|done|lia|].
      unfold usable, unchecked, isUp, IsAlive in Hu.
      destruct (healthMap g !! HealthKey (memberAt l k)) as [h|]; [|done]. cbn in Hu. by rewrite Hu.
    + assert (E : forall j, k + 1 + Z.of_nat j = k + Z.of_nat (S j)) by lia.
      pose proof Hu as Hu'. unfold usable, unchecked, isUp, IsAlive in Hu'.
      destruct (healthMap g !! HealthKey (memberAt l k)) as [h|]; [|done]. cbn in Hu'. rewrite Hu'.
      destruct (IH (k + 1) Hl ltac:(lia) ltac:(lia)) as [(j & Hj & H1 & H2 & ->)|(H1 & ->)];
        rewrite ?E in *; [left; exists (S j)|right]; (split_and!; [try lia..|]); try done;
        intros [|j'] ?; try (by rewrite Z.add_0_r); rewrite <- E; eauto with lia.
Qed.

Lemma bestStep_eq g acc x : bestStep g acc x =
  if isUp g x && (String.eqb (mName (fst acc)) "" || (latencyOf g x <? snd acc))
  then (x, latencyOf g x) else acc.
Proof.
  unfold bestStep, isUp, latencyOf, IsAlive. destruct (healthMap g !! HealthKey x) as [h|]; [|done].
  by destruct (alive h).
Qed.

Lemma fastestUp_snoc g l x m : fastestUp g l m ->
  (isUp g x = true -> latencyOf g m <= latencyOf g x) -> fastestUp g (l ++ [x]) m.
Proof.
  intros (l1 & l2 & -> & Hu & H1 & H2) Hx. exists l1, (l2 ++ [x]).
  split_and!; try done; [by rewrite <- app_assoc|]. apply Forall_app; split; [done|by repeat constructor].
Qed.

Lemma fastestUp_new g l x m : fastestUp g l m -> isUp g x = true -> latencyOf g x < latencyOf g m ->
  fastestUp g (l ++ [x]) x.
Proof.
  intros (l1 & l2 & -> & Hu & H1 & H2) Hx Hlt. exists (l1 ++ m :: l2), []. split_and!; try done.
  apply Forall_app; split; [|constructor; [done|]];
    (eapply List.Forall_impl; [|eassumption]); cbn; intros y Hy Huy; specialize (Hy Huy); lia.
Qed.

Lemma best_scan_exact g l : named l ->
  let acc := foldl (bestStep g) (zeroMember, 0) l in
  (acc = (zeroMember, 0) /\ Forall (fun x => isUp g x = false) l)
  \/ (fastestUp g l (fst acc) /\ snd acc = latencyOf g (fst acc)).
Proof.
  induction l as [|x l IH] using rev_ind; intros Hn; [by left|].
  apply Forall_app in Hn as [Hn _]. specialize (IH Hn). cbv zeta in *. rewrite foldl_snoc.
  set (acc := foldl _ _ l) in *. clearbody acc. rewrite bestStep_eq.
  destruct IH as [[-> Hl]|[Hf Hs]]; destruct (isUp g x) eqn:Hux; cbn [andb fst snd].
  - right. cbn. split; [|done]. exists l, []. split_and!; try done.
    eapply List.Forall_impl; [|exact Hl]. cbn. congruence.
  - left. split; [done|]. apply Forall_app; split; [done|by repeat constructor].
  - right. rewrite (named_in _ _ Hn (fastestUp_in _ _ _ Hf)), Hs. cbn [orb].
    destruct (Z.ltb_spec (latencyOf g x) (latencyOf g (fst acc))); cbn [fst snd];
      eauto using fastestUp_new, fastestUp_snoc.
  - right. split; [|done]. apply fastestUp_snoc; [done|congruence].
Qed.

(** What [pickMember] owes its callers, per strategy: the counter and the member. *)
Definition pickSpec (g : ProxyGroup) (l : list GroupMember) (k : Z) (m : GroupMember) : Prop :=
  match gType g with
  | GroupSelect =>
      k = idx g /\
      (ActiveMember g <> ""%string /\ firstWith (fun x => String.eqb (mName x) (ActiveMember g)) l m
       \/ (ActiveMember g = ""%string \/ Forall (fun x => mName x <> ActiveMember g) l) /\ hd_error l = Some m)
  | GroupLoadBalance =>
      (exists j, (j < length l)%nat /\ k = idx g + Z.of_nat j + 1 /\ m = memberAt l (idx g + Z.of_nat j) /\
         usable g m = true /\
         forall j', (j' < j)%nat -> usable g (memberAt l (idx g + Z.of_nat j')) = false)
      \/ (k = idx g + len l /\ m = zeroMember /\
          forall j', (j' < length l)%nat -> usable g (memberAt l (idx g + Z.of_nat j')) = false)
  | GroupBest =>
      k = idx g /\
      (fastestUp g l m
       \/ Forall (fun x => isUp g x = false) l /\ firstWith (unchecked g) l m
       \/ Forall (fun x => isUp g x = false) l /\ Forall (fun x => unchecked g x = false) l /\ m = zeroMember)
  | GroupOther => k = idx g /\ hd_error l = Some m
  end.

Lemma setIdx_id g : setIdx g (idx g) = g.
Proof. by destruct g. Qed.

Lemma nextByHealthMember_spec g l : named l ->
  let m := nextByHealthMember g l in
  fastestUp g l m
  \/ Forall (fun x => isUp g x = false) l /\ firstWith (unchecked g) l m
  \/ Forall (fun x => isUp g x = false) l /\ Forall (fun x => unchecked g x = false) l /\ m = zeroMember.
Proof.
  intros Hn. cbv zeta. unfold nextByHealthMember.
  destruct (best_scan_exact g l Hn) as [[-> Hd]|[Hf _]].
  - right. cbn [fst zeroMember mName negb String.eqb]. pose proof (find_first (unchecked g) l) as Hu.
    destruct (List.find (unchecked g) l); [by left|by right].
  - rewrite (named_in _ _ Hn (fastestUp_in _ _ _ Hf)). by left.
Qed.

Lemma pickMember_spec g l : l <> [] -> named l -> 0 <= idx g -> idx g + len l < 2 ^ 63 ->
  exists k m, pickMember g l = Some (setIdx g k, m) /\ pickSpec g l k m.
Proof.
  intros Hl Hn H0 H1. unfold pickMember, pickSpec. destruct (gType g).
  - exists (idx g), (nextSelectMember g l). rewrite setIdx_id. split_and!; [done..|].
    unfold nextSelectMember. destruct (String.eqb_spec (ActiveMember g) "") as [->|Ha].
    { right. destruct l; [done|]. naive_solver. }
    pose proof (find_first (fun x => String.eqb (mName x) (ActiveMember g)) l) as Hf.
    destruct (List.find _ l) as [m|]; [by left|]. right. split; [right|by destruct l].
    eapply List.Forall_impl; [|exact Hf]. cbn. intros x. apply String.eqb_neq.
  - unfold nextRoundRobinAliveMember, len in *.
    destruct (roundRobinLoop_exact g l (length l) (idx g) Hl H0 H1) as [(j & Hj & Hu & Hall & ->)|(Hall & ->)].
    + eexists _, _. split; [done|]. left. by exists j.
    + eexists _, _. split; [done|]. by right.
  - exists (idx g), (nextByHealthMember g l). rewrite setIdx_id. split_and!; [done..|].
    by apply nextByHealthMember_spec.
  - destruct l as [|m l]; [done|]. exists (idx g), m. by rewrite setIdx_id.
Qed.

Lemma pickSpec_in g l k m : l <> [] -> pickSpec g l k m ->
  (m ∈ l \/ m = zeroMember) /\ (k = idx g \/ idx g <= k <= idx g + len l).
Proof.
  intros Hl. pose proof (len_nonneg l). unfold pickSpec. destruct (gType g).
  - intros [-> [[_ H1]|[_ H1]]]; (split; [left|by left]); [by eapply firstWith_in|].
    destruct l; simplify_eq/=. set_solver.
  - unfold len. intros [(j & Hj & -> & -> & _)|(-> & -> & _)]; (split; [|right; lia]); [left|by right].
    by apply memberAt_in.
  - intros [-> [H1|[[_ H1]|(_ & _ & H1)]]]; (split; [|by left]);
      eauto using fastestUp_in, firstWith_in.
  - intros [-> H1]. split; [left|by left]. destruct l; simplify_eq/=. set_solver.
Qed.

Lemma usable_false g m : usable g m = false <-> unchecked g m = false /\ isUp g m = false.
Proof. unfold usable. by rewrite orb_false_iff. Qed.

Lemma memberAt_all l k x : x ∈ l -> exists j, (j < length l)%nat /\ memberAt l (k + Z.of_nat j) = x.
Proof.
  intros [p Hp]%list_elem_of_lookup. pose proof (lookup_lt_Some _ _ _ Hp) as Hlt.
  assert (Hn : 0 < len l) by (unfold len; lia).
  pose proof (Z.mod_pos_bound (Z.of_nat p - k) (len l) Hn) as Hb.
  exists (Z.to_nat ((Z.of_nat p - k) mod len l)). split; [unfold len in *; lia|].
  unfold memberAt. rewrite Z2Nat.id by lia. rewrite Zplus_mod_idemp_r.
  replace (k + (Z.of_nat p - k)) with (Z.of_nat p) by lia.
  rewrite Z.mod_small by (unfold len; lia). by rewrite Nat2Z.id, Hp.
Qed.

(** ** Nested groups: resolution terminates, and offers what a member offers *)

Section Resolution.
Context {P : Type} (Compile : string -> option (string -> bool)).
Implicit Types (w : World P) (v : gset string) (g : ProxyGroup) (name : string).

(** [offers w name p]: [p] is a proxy of the group, or of a group nested in it. *)
Inductive offers w : string -> P -> Prop :=
| offers_proxy name g m p : groups w !! name = Some g -> m ∈ computeMembers Compile w g ->
    IsGroup m = false -> ResolveMember w g m = Some p -> offers w name p
| offers_group name g m p : groups w !! name = Some g -> m ∈ computeMembers Compile w g ->
    IsGroup m = true -> offers w (mName m) p -> offers w name p.

(** Names are not empty, and a group is registered under its name. *)
Definition wfWorld w : Prop :=
  proxies w !! ""%string = None /\ groups w !! ""%string = None /\
  (forall s nodes, subscriptions w !! s = Some nodes -> nodes !! ""%string = None) /\
  forall name g, groups w !! name = Some g -> gName g = name.

(** Room for the picks of one resolution before the round-robin counter wraps. *)
Definition roomy w v : Prop := forall name g, groups w !! name = Some g -> name ∉ v ->
  0 <= idx g /\ idx g + len (computeMembers Compile w g) * len (computeMembers Compile w g) < 2 ^ 63.

(** Two worlds that differ in round-robin counters only. *)
Definition sameStatic w w' : Prop :=
  proxies w' = proxies w /\ subscriptions w' = subscriptions w /\
  forall name, groups w' !! name = (fun g => setIdx g (from_option idx 0 (groups w' !! name))) <$> groups w !! name.

Lemma sameStatic_refl w : sameStatic w w.
Proof. split_and!; [done..|]. intros name. destruct (groups w !! name) eqn:E; cbn; [|done]. by rewrite setIdx_id. Qed.

Lemma sameStatic_trans w1 w2 w3 : sameStatic w1 w2 -> sameStatic w2 w3 -> sameStatic w1 w3.
Proof.
  intros (H1 & H2 & H3) (K1 & K2 & K3). split_and!; [congruence..|]. intros name.
  specialize (H3 name). specialize (K3 name). rewrite K3 at 1. rewrite H3.
  by destruct (groups w1 !! name).
Qed.

Lemma sameStatic_set w name g k : groups w !! name = Some g -> sameStatic w (setGroup w name (setIdx g k)).
Proof.
  intros Hg. split_and!; [done..|]. intros n. cbn [setGroup groups].
  destruct (decide (n = name)) as [->|Hn].
  - by rewrite lookup_insert_eq, Hg.
  - rewrite lookup_insert_ne by done. destruct (groups w !! n) eqn:E; cbn; [|done]. by rewrite setIdx_id.
Qed.

Lemma sameStatic_lookup w w' name g : sameStatic w w' -> groups w !! name = Some g ->
  exists k, groups w' !! name = Some (setIdx g k).
Proof. intros (_ & _ & H) Hg. specialize (H name). rewrite Hg in H. cbn in H. eauto. Qed.

Lemma sameStatic_lookup_inv w w' name g : sameStatic w w' -> groups w' !! name = Some g ->
  exists g0 k, groups w !! name = Some g0 /\ g = setIdx g0 k.
Proof.
  intros (_ & _ & H) Hg. specialize (H name). rewrite Hg in H.
  destruct (groups w !! name); cbn in H; simplify_eq. eauto.
Qed.

Lemma sameStatic_dom w w' : sameStatic w w' -> dom (groups w') = dom (groups w).
Proof.
  intros (_ & _ & H). apply set_eq. intros n. rewrite !elem_of_dom, (H n), fmap_is_Some. done.
Qed.

Lemma sameStatic_members w w' g k : sameStatic w w' ->
  computeMembers Compile w' (setIdx g k) = computeMembers Compile w g.
Proof.
  intros Hs. pose proof (sameStatic_dom _ _ Hs) as Hd. destruct Hs as (Hp & Hb & _).
  unfold computeMembers. f_equal.
  - cbn [Subscription setIdx]. by rewrite Hb.
  - unfold computeManualMembers. cbn [ManualProxies setIdx]. induction (ManualProxies g) as [|x l IH]; [done|].
    cbn. rewrite IH. unfold manualMember. rewrite Hp.
    destruct (decide (is_Some (proxies w !! x))); [done|].
    assert (E : is_Some (groups w' !! x) <-> is_Some (groups w !! x)) by (rewrite <- !elem_of_dom; by rewrite Hd).
    destruct (decide (is_Some (groups w' !! x))), (decide (is_Some (groups w !! x))); tauto || done.
Qed.

Lemma sameStatic_resolve w w' g k m : sameStatic w w' -> ResolveMember w' (setIdx g k) m = ResolveMember w g m.
Proof. intros (Hp & Hb & _). unfold ResolveMember. by rewrite Hp, Hb. Qed.

Lemma sameStatic_offers w w' name p : sameStatic w w' -> offers w' name p -> offers w name p.
Proof.
  intros Hs. induction 1 as [name g m p Hg Hm Hi Hr|name g m p Hg Hm Hi Ho IH];
    destruct (sameStatic_lookup_inv _ _ _ _ Hs Hg) as (g0 & k & Hg0 & ->);
    rewrite (sameStatic_members _ _ _ _ Hs) in Hm.
  - rewrite (sameStatic_resolve _ _ _ _ _ Hs) in Hr. by eapply offers_proxy.
  - by eapply offers_group.
Qed.

Lemma sameStatic_wf w w' : sameStatic w w' -> wfWorld w -> wfWorld w'.
Proof.
  intros Hs (H1 & H2 & H3 & H4). pose proof Hs as (Hp & Hb & Hg). split_and!.
  - congruence.
  - by rewrite Hg, H2.
  - rewrite Hb. done.
  - intros n g Hn. destruct (sameStatic_lookup_inv _ _ _ _ Hs Hn) as (g0 & k & H0 & ->). cbn. eauto.
Qed.

Lemma sortStrings_elem x l : x ∈ sortStrings l -> x ∈ l.
Proof.
  induction l as [|y l IH]; [done|]. cbn. intros Hx.
  assert (Hi : forall k, x ∈ insertSorted y k -> x = y \/ x ∈ k).
  { induction k as [|z k IHk]; cbn; [set_solver|]. destruct (String.leb y z); set_solver. }
  apply Hi in Hx. set_solver.
Qed.

Lemma computeMembers_named w g : wfWorld w -> named (computeMembers Compile w g).
Proof.
  intros (Hp & Hg & Hs & _). unfold computeMembers. apply Forall_app; split; apply Forall_forall.
  - intros m Hm. destruct (String.eqb (Subscription g) ""); [set_solver|].
    destruct (subscriptions w !! Subscription g) as [nodes|] eqn:Hn; [|set_solver].
    apply list_elem_of_fmap in Hm as (x & -> & Hx). cbn. intros ->.
    apply sortStrings_elem, list_elem_of_In, List.filter_In in Hx as [Hx _].
    apply list_elem_of_In, elem_of_elements, elem_of_dom in Hx. rewrite (Hs _ _ Hn) in Hx. by destruct Hx.
  - intros m Hm. unfold computeManualMembers in Hm. apply list_elem_of_omap in Hm as (x & _ & Hx).
    unfold manualMember in Hx. repeat case_decide; simplify_eq/=; intros ->;
      match goal with H : is_Some _ |- _ => destruct H end; congruence.
Qed.

Lemma removeGroupMember_length l m : m ∈ l -> length l = S (length (removeGroupMember l m)).
Proof.
  induction l as [|x l IH]; cbn; [set_solver|]. intros Hm. destruct (decide (x = m)); [done|].
  cbn. f_equal. apply IH. set_solver.
Qed.

Lemma removeGroupMember_sub l m : removeGroupMember l m ⊆ l.
Proof. induction l as [|x l IH]; cbn; [done|]. destruct (decide (x = m)); set_solver. Qed.

(** What a resolution may change: counters of the groups it newly visits. *)
Definition touches w v w' v' : Prop :=
  v ⊆ v' /\ sameStatic w w' /\ forall n, n ∈ v \/ n ∉ v' -> groups w' !! n = groups w !! n.
Definition touchesBut name w v w' v' : Prop :=
  v ⊆ v' /\ sameStatic w w' /\ forall n, n <> name -> n ∈ v \/ n ∉ v' -> groups w' !! n = groups w !! n.

Lemma touches_refl w v : touches w v w v.
Proof. split_and!; [done|apply sameStatic_refl|done]. Qed.

Lemma touchesBut_refl name w v : touchesBut name w v w v.
Proof. split_and!; [done|apply sameStatic_refl|done]. Qed.

Lemma touchesBut_trans name w1 v1 w2 v2 w3 v3 :
  touchesBut name w1 v1 w2 v2 -> touchesBut name w2 v2 w3 v3 -> touchesBut name w1 v1 w3 v3.
Proof.
  intros (H1 & H2 & H3) (K1 & K2 & K3). split_and!; [set_solver|by eapply sameStatic_trans|].
  intros n Hn Hc. rewrite K3 by set_solver. apply H3; set_solver.
Qed.

Lemma touchesBut_set name w v g k : groups w !! name = Some g ->
  touchesBut name w v (setGroup w name (setIdx g k)) v.
Proof.
  intros Hg. split_and!; [done|by apply sameStatic_set|]. intros n Hn _. cbn. by rewrite lookup_insert_ne.
Qed.

Lemma touchesBut_roomy name w v w' v' : name ∈ v -> touchesBut name w v w' v' -> roomy w v -> roomy w' v'.
Proof.
  intros Hv (H1 & H2 & H3) Hr n g Hg Hn. rewrite H3 in Hg by set_solver.
  destruct (Hr n g Hg) as [Ha Hb]; [set_solver|]. split; [done|].
  replace g with (setIdx g (idx g)) at 2 3 by apply setIdx_id.
  by rewrite (sameStatic_members _ _ _ _ H2).
Qed.

(** No member of a health-driven group is known to be dead. *)
Definition healthy w : Prop := forall name g, groups w !! name = Some g ->
  gType g = GroupLoadBalance \/ gType g = GroupBest ->
  Forall (fun m => usable g m = true) (computeMembers Compile w g).

(** The member, resp. every member of the group, leads to nothing outside [v]. *)
Definition barren w v g (m : GroupMember) : Prop :=
  if IsGroup m then mName m ∈ v \/ groups w !! mName m = None else ResolveMember w g m = None.
Definition drained w v name : Prop := forall g m, groups w !! name = Some g ->
  m ∈ computeMembers Compile w g -> barren w v g m.

(** What a result says: a proxy is on offer; nil has drained the groups visited. *)
Definition meaning w v name v' (r : option P) : Prop :=
  (forall p, r = Some p -> offers w name p) /\
  (healthy w -> r = None -> forall n, n ∈ v' -> n ∉ v -> drained w v' n).

Lemma sameStatic_healthy w w' : sameStatic w w' -> healthy w -> healthy w'.
Proof.
  intros Hs Hh n g Hg Ht. destruct (sameStatic_lookup_inv _ _ _ _ Hs Hg) as (g0 & k & H0 & ->).
  rewrite (sameStatic_members _ _ _ _ Hs). exact (Hh _ _ H0 Ht).
Qed.

Lemma sameStatic_barren w w' v g k m : sameStatic w w' -> barren w' v (setIdx g k) m -> barren w v g m.
Proof.
  intros Hs. unfold barren. rewrite (sameStatic_resolve _ _ _ _ _ Hs). destruct (IsGroup m); [|done].
  destruct Hs as (_ & _ & Hs). rewrite Hs. by rewrite fmap_None.
Qed.

Lemma sameStatic_drained w w' v name : sameStatic w w' -> drained w' v name -> drained w v name.
Proof.
  intros Hs Hd g m Hg Hm. destruct (sameStatic_lookup _ _ _ _ Hs Hg) as [k Hk].
  eapply sameStatic_barren; [done|]. eapply Hd; [done|]. by rewrite (sameStatic_members _ _ _ _ Hs).
Qed.

Lemma barren_mono w v v' g m : v ⊆ v' -> barren w v g m -> barren w v' g m.
Proof. unfold barren. destruct (IsGroup m); set_solver. Qed.

Lemma meaning_static w w1 v name v' r : sameStatic w w1 -> meaning w1 v name v' r -> meaning w v name v' r.
Proof.
  intros Hs [H1 H2]. split; [eauto using sameStatic_offers|].
  intros Hh Hr n Hn Hv. eauto using sameStatic_drained, sameStatic_healthy.
Qed.

Lemma meaning_chain w v name v1 v2 r : v ⊆ v1 -> v1 ⊆ v2 ->
  meaning w v name v1 None -> meaning w v1 name v2 r -> meaning w v name v2 r.
Proof.
  intros Hv Hv' [_ H1] [H2 H3]. split; [done|]. intros Hh Hr n Hn Hnv.
  destruct (decide (n ∈ v1)) as [Hn1|]; [|eauto]. intros g m Hg Hm.
  eapply barren_mono; [done|]. by eapply H1.
Qed.

Definition resolves (fuel : nat) (rec : World P -> gset string -> string -> outcome (resolution (P:=P))) : Prop :=
  forall w v name, wfWorld w -> roomy w v -> is_Some (groups w !! name) ->
    (size (dom (groups w) ∖ v) < fuel)%nat ->
    exists w' v' r, rec w v name = Returns (w', v', r) /\ touches w v w' v' /\ name ∈ v' /\
      meaning w v name v' r.

Lemma resolveMember_total fuel rec w v name g m :
  resolves fuel rec -> wfWorld w -> roomy w v -> (size (dom (groups w) ∖ v) < fuel)%nat ->
  groups w !! name = Some g -> m ∈ computeMembers Compile w g ->
  exists w' v' r, resolveMemberWithVisited rec w v g m = Returns (w', v', r) /\ touches w v w' v' /\
    meaning w v name v' r /\ (r = None -> barren w v' g m).
Proof.
  intros Hrec Hwf Hr Hf Hg Hm. unfold resolveMemberWithVisited, barren.
  pose proof (touches_refl w v) as Hid. destruct (IsGroup m) eqn:Hi.
  - destruct (groups w !! mName m) eqn:Hgm.
    + destruct (Hrec w v (mName m) Hwf Hr ltac:(eauto) Hf) as (w' & v' & r & -> & Ht & Hin & Ho & Hd).
      eexists _, _, _. split_and!; [done..| |by left]. split; [|done].
      intros q ->. eapply offers_group; eauto.
    + eexists _, _, _. split_and!; [done..| |by right]. split; [done|]. set_solver.
  - eexists _, _, _. split_and!; [done..| |done]. split; [|set_solver].
    intros q Hq. by eapply offers_proxy.
Qed.

Lemma pickSpec_healthy g l k m : l <> [] -> pickSpec g l k m ->
  (gType g = GroupLoadBalance \/ gType g = GroupBest -> Forall (fun x => usable g x = true) l) -> m ∈ l.
Proof.
  intros Hl Hs Hu. destruct (pickSpec_in _ _ _ _ Hl Hs) as [[Hm| ->] _]; [done|].
  destruct l as [|x l]; [done|]. unfold pickSpec in Hs.
  destruct (gType g) eqn:E; [..|destruct Hs; simplify_eq/=; set_solver].
  - destruct Hs as [_ [[_ H]|[_ H]]]; [by eapply firstWith_in|simplify_eq/=; set_solver].
  - pose proof (Hu ltac:(by left)) as [Hx _]%Forall_cons_iff.
    destruct Hs as [(j & _ & _ & -> & _)|(_ & _ & H)]; [by apply memberAt_in|].
    destruct (memberAt_all (x :: l) (idx g) x ltac:(set_solver)) as (j & Hj & Ej).
    rewrite <- Ej in Hx. rewrite H in Hx by done. done.
  - pose proof (Hu ltac:(by right)) as [Hx _]%Forall_cons_iff.
    destruct Hs as [_ [H|[[_ H]|([H1 _]%Forall_cons_iff & [H2 _]%Forall_cons_iff & _)]]];
      eauto using fastestUp_in, firstWith_in.
    unfold usable in Hx. rewrite H1, H2 in Hx. done.
Qed.

Lemma removeGroupMember_elem l m x : x ∈ l -> x = m \/ x ∈ removeGroupMember l m.
Proof. induction l as [|y l IH]; cbn; [set_solver|]. destruct (decide (y = m)); set_solver. Qed.

(** What the loop over the members still to be tried establishes. *)
Definition loopPost name w v g (l : list GroupMember) (o : outcome (resolution (P:=P))) : Prop :=
  exists w' v' r, o = Returns (w', v', r) /\ touchesBut name w v w' v' /\ meaning w v name v' r /\
    (healthy w -> r = None -> Forall (barren w v' g) l).

Lemma loopPost_stop name w v g l w' : touchesBut name w v w' v -> (healthy w -> l = []) ->
  loopPost name w v g l (Returns (w', v, None)).
Proof.
  intros Ht Hl. eexists _, _, _. split_and!; [done..| |].
  - split; [done|]. set_solver.
  - intros Hh _. by rewrite (Hl Hh).
Qed.

Lemma loopPost_step name w v g l m w2 v2 k o : name ∈ v ->
  touchesBut name w v w2 v2 -> meaning w v name v2 None -> barren w v2 g m ->
  loopPost name w2 v2 (setIdx g k) (removeGroupMember l m) o -> loopPost name w v g l o.
Proof.
  intros Hv Ht Hm Hb (w3 & v3 & r & -> & Ht3 & Hm3 & Hb3). pose proof Ht as (Hv2 & Hs & _).
  pose proof Ht3 as (Hv3 & _ & _). exists w3, v3, r. split_and!.
  - done.
  - by eapply touchesBut_trans.
  - eapply meaning_chain; [exact Hv2|done..|]. by eapply meaning_static.
  - intros Hh Hr. apply Forall_forall. intros x Hx.
    destruct (removeGroupMember_elem l m x Hx) as [->|Hx']; [by eapply barren_mono|].
    specialize (Hb3 (sameStatic_healthy _ _ Hs Hh) Hr).
    eapply Forall_forall in Hb3; [|exact Hx']. by eapply sameStatic_barren.
Qed.

Lemma nextLoop_eq rec n w v name l g g' m : l <> [] -> groups w !! name = Some g ->
  pickMember g l = Some (g', m) -> nextLoop rec (S n) w v name l =
    (if String.eqb (mName m) "" then Returns (setGroup w name g', v, None)
     else match resolveMemberWithVisited rec (setGroup w name g') v g' m with
          | Returns (w, visited, None) => nextLoop rec n w visited name (removeGroupMember l m)
          | r => r end).
Proof. intros Hl Hg Hp. destruct l; [done|]. cbn [nextLoop]. by rewrite Hg, Hp. Qed.

Lemma unvisited_mono w w' v v' fuel : sameStatic w w' -> v ⊆ v' ->
  (size (dom (groups w) ∖ v) < fuel)%nat -> (size (dom (groups w') ∖ v') < fuel)%nat.
Proof.
  intros Hs Hv Hf. rewrite (sameStatic_dom _ _ Hs).
  assert (size (dom (groups w) ∖ v') <= size (dom (groups w) ∖ v))%nat by (apply subseteq_size; set_solver). lia.
Qed.

Lemma members_sub_named w g l : wfWorld w -> l ⊆ computeMembers Compile w g -> named l.
Proof.
  intros Hwf Hl. apply Forall_forall. intros x Hx.
  exact (proj1 (Forall_forall _ _) (computeMembers_named w g Hwf) x (Hl x Hx)).
Qed.

Lemma nextLoop_total fuel rec name n : resolves fuel rec -> forall l w v g,
  (length l <= n)%nat -> groups w !! name = Some g -> l ⊆ computeMembers Compile w g -> name ∈ v ->
  wfWorld w -> roomy w v -> (size (dom (groups w) ∖ v) < fuel)%nat ->
  0 <= idx g -> idx g + len l * len l < 2 ^ 63 ->
  loopPost name w v g l (nextLoop rec n w v name l).
Proof.
  intros Hrec. induction n as [|n IH]; intros l w v g Hlen Hg Hl Hv Hwf Hr Hf H0 Hb.
  { destruct l; [|cbn in Hlen; lia]. apply loopPost_stop; [apply touchesBut_refl|done]. }
  destruct (decide (l = [])) as [->|Hne]; [apply loopPost_stop; [apply touchesBut_refl|done]|].
  pose proof (members_sub_named _ _ _ Hwf Hl) as Hn.
  assert (Hpos : 1 <= len l) by (unfold len; destruct l; [done|cbn [length]; lia]).
  destruct (pickMember_spec g l Hne Hn H0 ltac:(nia)) as (k & m & Hp & Hs).
  destruct (pickSpec_in _ _ _ _ Hne Hs) as [Hm Hk].
  rewrite (nextLoop_eq _ _ _ _ _ _ _ _ _ Hne Hg Hp).
  set (w1 := setGroup w name (setIdx g k)).
  assert (Ht1 : touchesBut name w v w1 v) by by apply touchesBut_set.
  destruct (decide (m ∈ l)) as [Hml|Hml].
  2: { destruct Hm as [Hm| ->]; [done|]. apply loopPost_stop; [done|]. intros Hh. exfalso. apply Hml.
       eapply pickSpec_healthy; [done..|]. intros Ht. apply Forall_forall. intros x Hx.
       exact (proj1 (Forall_forall _ _) (Hh _ _ Hg Ht) x (Hl x Hx)). }
  rewrite (named_in _ _ Hn Hml). pose proof Ht1 as (_ & Hst & _).
  assert (Hg1 : groups w1 !! name = Some (setIdx g k)) by (cbn; by rewrite lookup_insert_eq).
  destruct (resolveMember_total fuel rec w1 v name (setIdx g k) m) as (w2 & v2 & r & -> & Ht2 & Hme & Hba);
    eauto using sameStatic_wf, touchesBut_roomy, unvisited_mono.
  { rewrite (sameStatic_members _ _ _ _ Hst). by apply Hl. }
  assert (Ht : touchesBut name w v w2 v2).
  { eapply touchesBut_trans; [done|]. destruct Ht2 as (? & ? & ?). split_and!; eauto. }
  apply (meaning_static w) in Hme; [|done].
  destruct r as [p|]; [by eexists _, _, _|].
  destruct Ht2 as (Hv2 & _ & Heq). rewrite <- (Heq name) in Hg1 by set_solver.
  pose proof Ht as (_ & Hst2 & _). pose proof (removeGroupMember_length l m Hml) as Hrl.
  apply (loopPost_step name w v g l m w2 v2 k); [done..|exact (sameStatic_barren _ _ _ _ _ _ Hst (Hba eq_refl))|].
  apply IH; eauto using sameStatic_wf, touchesBut_roomy, unvisited_mono; cbn [idx setIdx]; try lia.
  - rewrite (sameStatic_members _ _ _ _ Hst2). pose proof (removeGroupMember_sub l m). set_solver.
  - assert (len (removeGroupMember l m) = len l - 1) as -> by (unfold len; lia). nia.
Qed.

Lemma NextWithVisited_total fuel : resolves fuel (NextWithVisited Compile fuel).
Proof.
  induction fuel as [|fuel IH]; intros w v name Hwf Hr [g Hg] Hf; [lia|].
  pose proof (proj2 (proj2 (proj2 Hwf)) _ _ Hg) as Hname. cbn [NextWithVisited]. rewrite Hg, Hname.
  assert (Hne : String.eqb name "" = false).
  { apply String.eqb_neq. intros ->. destruct Hwf as (_ & H & _). congruence. }
  rewrite Hne. cbn [negb andb]. case_bool_decide as Hv.
  { eexists _, _, _. split_and!; [done|apply touches_refl|done|]. split; [done|set_solver]. }
  destruct (Hr _ _ Hg Hv) as [H0 Hb].
  destruct (nextLoop_total fuel _ name (length (computeMembers Compile w g)) IH
    (computeMembers Compile w g) w ({[name]} ∪ v) g) as (w' & v' & r & E & (Hv' & Hs & Heq) & [Ho Hd] & Hba);
    try done; [set_solver| | |].
  - intros n g' Hn Hv'. apply (Hr n); [done|set_solver].
  - assert (name ∈ dom (groups w)) by by apply elem_of_dom.
    assert (size (dom (groups w) ∖ ({[name]} ∪ v)) < size (dom (groups w) ∖ v))%nat; [|lia].
    apply subset_size. set_solver.
  - exists w', v', r. split_and!; [done| |set_solver|].
    + split_and!; [set_solver|done|]. intros n Hn. apply Heq; set_solver.
    + split; [done|]. intros Hh Hnone n Hn Hnv. destruct (decide (n = name)) as [->|].
      * intros g' m Hg' Hm. simplify_eq. by eapply Forall_forall in Hba.
      * apply Hd; set_solver.
Qed.

(** A drained, closed set of groups offers nothing. *)
Lemma drained_offers w v name p : (forall n, n ∈ v -> drained w v n) -> offers w name p -> name ∉ v.
Proof.
  intros Hd. induction 1 as [name g m p Hg Hm Hi Hr|name g m p Hg Hm Hi Ho IH]; intros Hv;
    specialize (Hd _ Hv _ _ Hg Hm); unfold barren in Hd; rewrite Hi in Hd; [congruence|].
  destruct Hd as [Hd|Hd]; [done|]. inversion Ho; congruence.
Qed.

End Resolution.

(** ** Health samples *)

(** Length of the run of [b] at the head of a history (latest sample first). *)
Fixpoint run (b : bool) (hist : list bool) : Z :=
  match hist with
  | x :: older => if Bool.eqb x b then 1 + run b older else 0
  | [] => 0
  end.

(** The state a history amounts to: the first sample decides; from then on a run
    of failures or of successes that reaches its threshold does. *)
Fixpoint hysteresis (hist : list bool) : bool :=
  match hist with
  | [] => false
  | [x] => x
  | _ :: older =>
      if healthFailThreshold <=? run false hist then false
      else if healthSuccessThreshold <=? run true hist then true
      else hysteresis older
  end.

Definition sample : Type := bool * Duration * Time.
Definition takeSample (key : string) (g : ProxyGroup) (s : sample) : ProxyGroup :=
  let '(b, lat, now) := s in from_option fst g (SetHealth g key b lat now).
Definition history (samples : list sample) : list bool := reverse ((fun s => s.1.1) <$> samples).

Lemma run_range b hist : 0 <= run b hist <= len hist.
Proof.
  unfold len. induction hist as [|x l IH]; cbn [run length]; [lia|]. destruct (Bool.eqb x b); lia.
Qed.

Lemma history_snoc samples b lat now : history (samples ++ [(b, lat, now)]) = b :: history samples.
Proof. unfold history. by rewrite fmap_app, reverse_app. Qed.

Lemma len_history samples : len (history samples) = len samples.
Proof. unfold len, history. by rewrite length_reverse, length_fmap. Qed.

(** The record on file says what the history says. *)
Definition agrees (h : option healthStatus) (hist : list bool) : Prop :=
  match h with
  | None => hist = []
  | Some h => hist <> [] /\ alive h = hysteresis hist /\ failCount h = run false hist /\ successCount h = run true hist
  end.

Lemma hysteresis_true hist : hist <> [] ->
  hysteresis (true :: hist) = hysteresis hist || (healthSuccessThreshold <=? run true hist + 1).
Proof.
  intros Hne. rewrite (Z.add_comm _ 1). destruct hist as [|y hist]; [done|].
  change (hysteresis (true :: y :: hist)) with
    (if healthSuccessThreshold <=? 1 + run true (y :: hist) then true else hysteresis (y :: hist)).
  by destruct (_ <=? _), (hysteresis _).
Qed.

Lemma hysteresis_false hist : hist <> [] ->
  hysteresis (false :: hist) = hysteresis hist && negb (healthFailThreshold <=? run false hist + 1).
Proof.
  intros Hne. rewrite (Z.add_comm _ 1). destruct hist as [|y hist]; [done|].
  change (hysteresis (false :: y :: hist)) with
    (if healthFailThreshold <=? 1 + run false (y :: hist) then false else hysteresis (y :: hist)).
  by destruct (_ <=? _), (hysteresis _).
Qed.

Lemma healthMap_set g h : healthMap (setHealthMap g h) = h.
Proof. done. Qed.

Lemma SetHealth_agrees g key b lat now hist : is_Some (healthMapRef g) ->
  len hist + 1 < 2 ^ 63 -> agrees (healthMap g !! key) hist ->
  exists g' changed, SetHealth g key b lat now = Some (g', changed) /\ is_Some (healthMapRef g') /\
  agrees (healthMap g' !! key) (b :: hist) /\
  latency <$> healthMap g' !! key = Some lat /\
  changed = bool_decide (hist = []) || negb (Bool.eqb (hysteresis hist) (hysteresis (b :: hist))) /\
  forall key', key' <> key -> healthMap g' !! key' = healthMap g !! key'.
Proof.
  intros [hm Hm] Hlen Ha. pose proof (run_range true hist). pose proof (run_range false hist).
  assert (Hput : forall h, putHealth g key h = Some (setHealthMap g (<[key := h]> (healthMap g)))).
  { intros h. unfold putHealth, healthMap. by rewrite Hm. }
  unfold SetHealth, agrees in *. destruct (healthMap g !! key) as [h|].
  - destruct Ha as (Hne & Hal & Hf & Hs). cbn [from_option id]. rewrite Hf, Hs, Hal.
    rewrite !swrap_small, (bool_decide_eq_false_2 (hist = [])) by (done || lia).
    destruct b; cbn [orb andb negb]; rewrite Hput; (eexists _, _; split; [reflexivity|]);
      rewrite !healthMap_set;
      rewrite ?lookup_insert_eq, ?(hysteresis_true _ Hne), ?(hysteresis_false _ Hne);
      cbn [alive failCount successCount run Bool.eqb]; rewrite <- ?(Z.add_comm 1);
      destruct (hysteresis hist), (_ <=? _);
      split_and!; try done; try (by eexists); intros; by rewrite ?healthMap_set, lookup_insert_ne.
  - subst hist. destruct b; cbn [orb andb negb]; rewrite Hput; (eexists _, _; split; [reflexivity|]);
      rewrite !healthMap_set;
      rewrite lookup_insert_eq; split_and!; try done; try (by eexists); intros; by rewrite ?healthMap_set, lookup_insert_ne.
Qed.

Lemma takeSamples_agrees g key samples : is_Some (healthMapRef g) -> len samples < 2 ^ 63 ->
  healthMap g !! key = None ->
  let g1 := foldl (takeSample key) g samples in
  is_Some (healthMapRef g1) /\ agrees (healthMap g1 !! key) (history samples).
Proof.
  intros Hm Hlen Hn. induction samples as [|[[b lat] now] l IH] using rev_ind; [cbn; by rewrite Hn|].
  rewrite len_app in Hlen. change (len [(b, lat, now)]) with 1 in Hlen. cbv zeta in *.
  rewrite foldl_snoc, history_snoc. cbn [takeSample]. destruct (IH ltac:(lia)) as [IH1 IH2].
  destruct (SetHealth_agrees (foldl (takeSample key) g l) key b lat now (history l) IH1
    ltac:(rewrite len_history; lia) IH2) as (g' & c & -> & H1 & H2 & _). done.
Qed.

(** A group whose health map was never made cannot take a sample. *)
Lemma SetHealth_nil_map g key b lat now : healthMapRef g = None -> SetHealth g key b lat now = None.
Proof.
  intros Hn. unfold SetHealth, putHealth. rewrite Hn. by destruct b.
Qed.

(** ** Two groups that are each other's only member *)

Section Cycle.
Context {P : Type} (Compile : string -> option (string -> bool)) (w : World P).

(** [a] is a select group whose only member is the group [b]. *)
Definition refersTo (a b : string) : Prop := exists g, groups w !! a = Some g /\
  gName g = a /\ gType g = GroupSelect /\ Subscription g = ""%string /\ ManualProxies g = [b].

Lemma setGroup_id name g : groups w !! name = Some g -> setGroup w name g = w.
Proof. intros Hg. unfold setGroup. rewrite insert_id by done. by destruct w. Qed.

Lemma refersTo_members b g : proxies w !! b = None -> is_Some (groups w !! b) ->
  Subscription g = ""%string -> ManualProxies g = [b] ->
  computeMembers Compile w g = [mkMember b false true].
Proof.
  intros Hp Hb Hs Hm. unfold computeMembers, computeManualMembers. rewrite Hs, Hm. cbn.
  unfold manualMember. rewrite decide_False by (rewrite Hp; by intros [? ?]). by rewrite decide_True.
Qed.

Lemma pickMember_single g m : gType g = GroupSelect -> pickMember g [m] = Some (g, m).
Proof.
  intros Ht. unfold pickMember. rewrite Ht. unfold nextSelectMember. cbn [List.find].
  by destruct (String.eqb (ActiveMember g) ""), (String.eqb (mName m) (ActiveMember g)).
Qed.

Lemma PickActiveMember_step fuel a b : refersTo a b -> is_Some (groups w !! b) -> proxies w !! b = None ->
  b <> ""%string -> PickActiveMember Compile fuel w b = OutOfFuel ->
  PickActiveMember Compile (S fuel) w a = OutOfFuel.
Proof.
  intros (g & Hg & Hn & Ht & Hs & Hm) Hb Hp Hne IH. cbn [PickActiveMember]. rewrite Hg.
  rewrite (refersTo_members b g) by done. cbn [length activeLoop]. rewrite Hg, pickMember_single by done.
  cbn [mName IsGroup]. rewrite (proj2 (String.eqb_neq _ _) Hne), setGroup_id by done.
  destruct Hb as [gb ->]. by rewrite IH.
Qed.

Lemma NextWithVisited_step fuel v a b v' : refersTo a b -> is_Some (groups w !! b) -> proxies w !! b = None ->
  a <> ""%string -> b <> ""%string -> a ∉ v ->
  NextWithVisited Compile fuel w ({[a]} ∪ v) b = Returns (w, v', None) ->
  NextWithVisited Compile (S fuel) w v a = Returns (w, v', None).
Proof.
  intros (g & Hg & Hn & Ht & Hs & Hm) Hb Hp Ha Hne Hv IH. cbn [NextWithVisited]. rewrite Hg, Hn.
  rewrite (proj2 (String.eqb_neq _ _) Ha), (bool_decide_eq_false_2 (a ∈ v)) by done. cbn [negb andb].
  rewrite (refersTo_members b g) by done. cbn [length nextLoop]. rewrite Hg, pickMember_single by done.
  cbn [mName]. rewrite (proj2 (String.eqb_neq _ _) Hne), setGroup_id by done.
  unfold resolveMemberWithVisited. cbn [IsGroup mName]. destruct Hb as [gb ->]. rewrite IH.
  cbn [removeGroupMember]. by rewrite decide_True.
Qed.

Lemma NextWithVisited_seen fuel v a b : refersTo a b -> a <> ""%string -> a ∈ v ->
  NextWithVisited Compile (S fuel) w v a = Returns (w, v, None).
Proof.
  intros (g & Hg & Hn & _) Ha Hv. cbn [NextWithVisited]. rewrite Hg, Hn.
  by rewrite (proj2 (String.eqb_neq _ _) Ha), (bool_decide_eq_true_2 (a ∈ v)).
Qed.

End Cycle.

(** ** Properties *)

(** C25: resolving a group terminates whatever groups refer to it, cycles included,
    within as many nested calls as there are groups, and panics nowhere; it changes
    round-robin counters only; a proxy it returns is offered by the group or a group
    nested in it; and when no member of a load-balance or best group is known dead
    it returns nil only if there is no such proxy. *)
Theorem Next_total_exact {P} (Compile : string -> option (string -> bool)) (w : World P) (name : string)
    (fuel : nat) :
  wfWorld w -> roomy Compile w ∅ -> is_Some (groups w !! name) -> (size (groups w) < fuel)%nat ->
  exists w' v r, Next Compile fuel w name = Returns (w', v, r) /\ sameStatic w w' /\
    (forall p, r = Some p -> offers Compile w name p) /\
    (healthy Compile w -> r = None -> forall p, ~ offers Compile w name p).
Proof.
  intros Hwf Hr Hg Hf.
  destruct (NextWithVisited_total Compile fuel w ∅ name Hwf Hr Hg) as
    (w' & v & r & E & (_ & Hs & _) & Hv & Ho & Hd).
  { rewrite difference_empty_L, size_dom. done. }
  exists w', v, r. split_and!; [done..|]. intros Hh Hn p Hp.
  eapply drained_offers; [|exact Hp|exact Hv]. intros n Hin. apply Hd; set_solver.
Qed.

Definition demoGroup (name : string) (t : GroupType) (manual : list string) : ProxyGroup :=
  mkGroup name t manual "" "" "" 0 None.
Definition demoWorld : World nat :=
  mkWorld {["direct"%string := 7%nat]}
    (<["a"%string := demoGroup "a" GroupSelect ["b"%string]]>
       {["b"%string := demoGroup "b" GroupLoadBalance ["a"%string; "direct"%string]]}) ∅.

Lemma Next_total_exact_witness : exists w' v r, Next (fun _ => None) 3 demoWorld "a" = Returns (w', v, r) /\
    sameStatic demoWorld w' /\
    (forall p, r = Some p -> offers (fun _ => None) demoWorld "a" p) /\
    (healthy (fun _ => None) demoWorld -> r = None -> forall p, ~ offers (fun _ => None) demoWorld "a" p).
Proof.
  apply Next_total_exact.
  - split; [reflexivity|]. split; [reflexivity|]. split; [intros s nodes H; cbn in H; by rewrite lookup_empty in H|].
    apply (bool_decide_unpack (map_Forall (fun n g => gName g = n) (groups demoWorld))).
    vm_compute. exact I.
  - intros n g Hg _. revert n g Hg.
    apply (bool_decide_unpack (map_Forall (fun n g => 0 <= idx g /\
      idx g + len (computeMembers (fun _ => None) demoWorld g) * len (computeMembers (fun _ => None) demoWorld g) < 2 ^ 63)
      (groups demoWorld))). vm_compute. exact I.
  - eexists. reflexivity.
  - vm_compute. lia.
Defined.

(** Each strategy picks exactly what its documentation says: select the member
    configured (else the first), health ignored; load-balance the first member from
    the counter on, cyclically, that is not known dead, moving the counter past it;
    best the alive member of lowest latency (the first of equals), else the first
    unchecked one; other types the first.  Load-balance and best return the zero
    member exactly when every member is known dead. *)
Theorem pickMember_exact (g : ProxyGroup) (l : list GroupMember) :
  l <> [] -> named l -> 0 <= idx g -> idx g + len l < 2 ^ 63 ->
  exists k m, pickMember g l = Some (setIdx g k, m) /\ pickSpec g l k m /\
    (gType g = GroupLoadBalance \/ gType g = GroupBest ->
     m = zeroMember <-> Forall (fun x => usable g x = false) l).
Proof.
  intros Hl Hn H0 H1. destruct (pickMember_spec g l Hl Hn H0 H1) as (k & m & Hp & Hs).
  exists k, m. split_and!; [done..|]. intros Ht.
  assert (Hz : m ∈ l -> m <> zeroMember).
  { intros Hm ->. pose proof (named_in _ _ Hn Hm). done. }
  unfold pickSpec in Hs. destruct Ht as [Ht|Ht]; rewrite Ht in Hs.
  - destruct Hs as [(j & _ & _ & Em & Hu & _)|(_ & -> & Hall)].
    + assert (Hm : m ∈ l) by (rewrite Em; by apply memberAt_in). split; [by intros ?%Hz|].
      intros Hf. exfalso. rewrite Forall_forall in Hf. rewrite (Hf m Hm) in Hu. done.
    + split; [intros _|done]. apply Forall_forall. intros x Hx.
      destruct (memberAt_all l (idx g) x Hx) as (j & Hj & <-). by apply Hall.
  - destruct Hs as (_ & [Hf|[[_ Hf]|(Hd & Hc & ->)]]).
    + split; [intros ->; by destruct (Hz (fastestUp_in _ _ _ Hf))|].
      intros Hall. exfalso. pose proof (fastestUp_in _ _ _ Hf) as Hm. destruct Hf as (_ & _ & _ & Hu & _).
      rewrite Forall_forall in Hall. apply Hall, usable_false in Hm as [_ Hm]. congruence.
    + split; [intros ->; by destruct (Hz (firstWith_in _ _ _ Hf))|].
      intros Hall. exfalso. pose proof (firstWith_in _ _ _ Hf) as Hm. destruct Hf as (_ & _ & _ & Hu & _).
      rewrite Forall_forall in Hall. apply Hall, usable_false in Hm as [Hm _]. congruence.
    + split; [intros _|done]. rewrite Forall_forall in *. intros x Hx. apply usable_false. auto.
Qed.

Lemma pickMember_exact_witness :
  let g := setHealthMap (demoGroup "g" GroupBest []) {["x"%string := mkHealth 5 true 0 1 0]} in
  let l := [mkMember "y" false false; mkMember "x" false false] in
  exists k m, pickMember g l = Some (setIdx g k, m) /\ pickSpec g l k m /\
    (gType g = GroupLoadBalance \/ gType g = GroupBest ->
     m = zeroMember <-> Forall (fun x => usable g x = false) l).
Proof.
  apply pickMember_exact; [discriminate|repeat constructor; discriminate|vm_compute; congruence|vm_compute; reflexivity].
Defined.

(** After any sequence of samples of a new member its state is that of the
    reference hysteresis (the first sample decides alone; then three consecutive
    failures or two consecutive successes do), [SetHealth] returns true exactly on
    the first sample and when the state flips, and other members keep theirs.  The
    group must have been initialised: on a nil health map the first sample panics. *)
Theorem SetHealth_hysteresis (g0 : ProxyGroup) (key : string) (samples : list sample) (b : bool)
    (lat : Duration) (now : Time) :
  gType g0 <> GroupOther -> healthMap g0 !! key = None -> len samples + 1 < 2 ^ 63 ->
  (healthMapRef g0 = None -> SetHealth g0 key b lat now = None) /\
  exists g g2 changed, Init g0 = Some g /\
    let g1 := foldl (takeSample key) g samples in
    SetHealth g1 key b lat now = Some (g2, changed) /\
    IsAlive (healthMap g2 !! key) = hysteresis (history (samples ++ [(b, lat, now)])) /\
    latency <$> healthMap g2 !! key = Some lat /\
    changed = bool_decide (samples = []) ||
              negb (Bool.eqb (IsAlive (healthMap g1 !! key)) (IsAlive (healthMap g2 !! key))) /\
    forall key', key' <> key -> healthMap g2 !! key' = healthMap g1 !! key'.
Proof.
  intros Ht Hn Hlen. split; [by apply SetHealth_nil_map|].
  set (g := setHealthMap g0 (healthMap g0)).
  assert (Hi : Init g0 = Some g) by (unfold Init; by destruct (gType g0)).
  destruct (takeSamples_agrees g key samples ltac:(by eexists) ltac:(lia) Hn) as [Hm Ha].
  destruct (SetHealth_agrees _ key b lat now (history samples) Hm ltac:(rewrite len_history; lia) Ha)
    as (g2 & c & Hs & _ & H1 & H2 & H3 & H4).
  assert (Halive : forall h hist, agrees h hist -> IsAlive h = hysteresis hist).
  { intros [h|] hist Hh; [by destruct Hh as (_ & Hh & _)|by rewrite Hh]. }
  exists g, g2, c. cbv zeta. rewrite history_snoc, (Halive _ _ Ha), (Halive _ _ H1). split_and!; [done..| |done].
  rewrite H3. f_equal. apply bool_decide_ext. rewrite <- !len_zero. by rewrite len_history.
Qed.

Lemma SetHealth_hysteresis_witness :
  let samples := [(true, 3, 1); (false, 9, 2)] in
  let g0 := demoGroup "g" GroupBest [] in
  (healthMapRef g0 = None -> SetHealth g0 "x" false 9 3 = None) /\
  exists g g2 changed, Init g0 = Some g /\
    let g1 := foldl (takeSample "x") g samples in
    SetHealth g1 "x" false 9 3 = Some (g2, changed) /\
    IsAlive (healthMap g2 !! "x"%string) = hysteresis (history (samples ++ [(false, 9, 3)])) /\
    latency <$> healthMap g2 !! "x"%string = Some 9 /\
    changed = bool_decide (samples = []) ||
              negb (Bool.eqb (IsAlive (healthMap g1 !! "x"%string)) (IsAlive (healthMap g2 !! "x"%string))) /\
    forall key', key' <> "x"%string -> healthMap g2 !! key' = healthMap g1 !! key'.
Proof. apply SetHealth_hysteresis; [discriminate|reflexivity|vm_compute; reflexivity]. Defined.

(** On two select groups that are each other's only member, [PickActiveMember]
    recurses for ever (no amount of fuel is enough: in the program, a stack
    overflow), because every call starts from an empty visited map, while [Next]
    returns nil. *)
Theorem PickActiveMember_cycle_diverges {P} (Compile : string -> option (string -> bool)) (w : World P)
    (a b : string) :
  a <> b -> a <> ""%string -> b <> ""%string -> proxies w !! a = None -> proxies w !! b = None ->
  refersTo w a b -> refersTo w b a ->
  (forall fuel, PickActiveMember Compile fuel w a = OutOfFuel) /\
  exists v, Next Compile 3 w a = Returns (w, v, None).
Proof.
  intros Hab Ha Hb Hpa Hpb Hra Hrb.
  assert (Hga : is_Some (groups w !! a)) by (destruct Hra as (g & Hg & _); eauto).
  assert (Hgb : is_Some (groups w !! b)) by (destruct Hrb as (g & Hg & _); eauto).
  split.
  - intros fuel.
    assert (PickActiveMember Compile fuel w a = OutOfFuel /\ PickActiveMember Compile fuel w b = OutOfFuel) as [H _];
      [|done].
    induction fuel as [|fuel [IHa IHb]]; [done|].
    split; [by eapply PickActiveMember_step; [exact Hra|..]|by eapply PickActiveMember_step; [exact Hrb|..]].
  - eexists. unfold Next.
    eapply NextWithVisited_step; [exact Hra|done..|set_solver|].
    eapply NextWithVisited_step; [exact Hrb|done..|set_solver|].
    eapply NextWithVisited_seen; [exact Hra|done|set_solver].
Qed.

Definition cycleWorld : World nat :=
  mkWorld ∅ (<["a"%string := demoGroup "a" GroupSelect ["b"%string]]>
               {["b"%string := demoGroup "b" GroupSelect ["a"%string]]}) ∅.

Lemma PickActiveMember_cycle_diverges_witness :
  (forall fuel, PickActiveMember (fun _ => None) fuel cycleWorld "a" = OutOfFuel) /\
  exists v, Next (fun _ => None) 3 cycleWorld "a" = Returns (cycleWorld, v, None).
Proof.
  apply (PickActiveMember_cycle_diverges (fun _ => None) cycleWorld "a" "b");
    [discriminate|discriminate|discriminate|reflexivity|reflexivity| |].
  - eexists. split; [reflexivity|]. repeat split.
  - eexists. split; [reflexivity|]. repeat split.
Defined.
