(* ===== verification/ConfigStore.v ===== *)
(** ConfigStore: the rules bucket of src/db/configstore.go.  Rules are stored one by one
    under an ID that is never reused, beside the list of IDs in their order; every edit
    is one write transaction of the embedded database, which an error rolls back.

    The bucket is a record of its three kinds of keys ("next_id", "order", "rule:<id>"),
    whose texts cannot collide; [None] is a key or a bucket that does not exist.  Values
    are typed, so the errors of decoding JSON do not occur. *)

From Stdlib Require Import ZArith Lia String.
From stdpp Require Import base list numbers strings gmap sets.
From S2P Require Import Prelude.
Open Scope Z_scope.

(** ** The bucket and its transactions *)

Record RuleBucket := mkRB { next_id : option Z; order : option (list Z); ruleText : gmap Z string }.
Definition RuleDB := option RuleBucket.

(** The bucket after db.Init on a new database. *)
Definition emptyRules : RuleDB := Some (mkRB None None ∅).

Inductive StoreError := ErrNoBucket | ErrNotFound | ErrAfterID (id : Z) | ErrUnknownID (id : Z).

(** A function run inside a transaction: its result and the bucket as written so far. *)
Definition Tx (A : Type) : Type := RuleDB -> (A + StoreError) * RuleDB.
Definition ret {A} (a : A) : Tx A := fun db => (inl a, db).
Definition fail {A} (e : StoreError) : Tx A := fun db => (inr e, db).
Definition bind {A B} (m : Tx A) (k : A -> Tx B) : Tx B :=
  fun db => match m db with (inl a, db') => k a db' | (inr e, db') => (inr e, db') end.

Declare Scope tx_scope.
Notation "'let*' x := m 'in' k" := (bind m (fun x => k)) (at level 10, x pattern, k at level 200) : tx_scope.
Notation "m ;; k" := (bind m (fun _ => k)) (at level 100, right associativity) : tx_scope.
Open Scope tx_scope.

Definition onBucket {A} (f : RuleBucket -> (A + StoreError) * RuleBucket) : Tx A :=
  fun db => match db with
            | None => (inr ErrNoBucket, None)
            | Some b => let '(r, b') := f b in (r, Some b')
            end.

(** bolt's Update commits or rolls back; View discards nothing since it writes nothing. *)
Definition Update {A} (fn : Tx A) (db : RuleDB) : (A + StoreError) * RuleDB :=
  match fn db with (inl a, db') => (inl a, db') | (inr e, _) => (inr e, db) end.
Definition View {A} (fn : Tx A) (db : RuleDB) : A + StoreError := fst (fn db).

Definition getNextIDTx : Tx Z := onBucket (fun b => (inl (default 1 (next_id b)), b)).
Definition putNextIDTx (id : Z) : Tx unit := onBucket (fun b => (inl tt, mkRB (Some id) (order b) (ruleText b))).
Definition getOrderTx : Tx (list Z) := onBucket (fun b => (inl (default [] (order b)), b)).
Definition putOrderTx (o : list Z) : Tx unit := onBucket (fun b => (inl tt, mkRB (next_id b) (Some o) (ruleText b))).
Definition getRuleByIDTx (id : Z) : Tx string :=
  onBucket (fun b => (match ruleText b !! id with Some rule => inl rule | None => inr ErrNotFound end, b)).
Definition putRuleByIDTx (id : Z) (rule : string) : Tx unit :=
  onBucket (fun b => (inl tt, mkRB (next_id b) (order b) (<[id := rule]> (ruleText b)))).
Definition deleteRuleByIDTx (id : Z) : Tx unit :=
  onBucket (fun b => (inl tt, mkRB (next_id b) (order b) (delete id (ruleText b)))).

(** ** The interface *)

Record RuleWithID := mkRWI { ID : Z; RuleStr : string }.

(** The loop over the order; IDs without a rule are skipped. *)
Fixpoint collectRules (o : list Z) : Tx (list RuleWithID) :=
  match o with
  | [] => ret []
  | id :: o' => fun db =>
      match getRuleByIDTx id db with
      | (inl rule, db) => (let* rest := collectRules o' in ret (mkRWI id rule :: rest)) db
      | (inr ErrNotFound, db) => collectRules o' db
      | (inr e, db) => (inr e, db)
      end
  end.
Definition ListRulesWithIDs (db : RuleDB) : list RuleWithID + StoreError :=
  View (let* o := getOrderTx in collectRules o) db.
Definition ListRules (db : RuleDB) : list string + StoreError :=
  match ListRulesWithIDs db with inl l => inl (map RuleStr l) | inr e => inr e end.

(** The rules as the matcher reads them: no bucket is no rules. *)
Definition listRulesTx : Tx (list string) := fun db =>
  match db with
  | None => (inl [], None)
  | Some _ => (let* o := getOrderTx in let* l := collectRules o in ret (map RuleStr l)) db
  end.
Definition listRules (db : RuleDB) : list string + StoreError := View listRulesTx db.

(** The position of the first [x], the search of InsertRuleWithID. *)
Fixpoint indexOf (x : Z) (l : list Z) : option nat :=
  match l with
  | [] => None
  | y :: l' => if y =? x then Some O else match indexOf x l' with Some i => Some (S i) | None => None end
  end.

Definition placeID (newID : Z) (afterID : option Z) (o : list Z) : Tx (list Z) :=
  match afterID with
  | None => ret (o ++ [newID])
  | Some a =>
      if a =? 0 then ret ([newID] ++ o)
      else match indexOf a o with
           | None => fail (ErrAfterID a)
           | Some pos => ret (take (S pos) o ++ [newID] ++ drop (S pos) o)
           end
  end.

Definition insertRuleTx (rule : string) (afterID : option Z) : Tx Z :=
  let* newID := getNextIDTx in
  putRuleByIDTx newID rule ;;
  let* o := getOrderTx in
  let* o' := placeID newID afterID o in
  putOrderTx o' ;;
  putNextIDTx (wrap 64 (newID + 1)) ;;
  ret newID.

Definition InsertRuleWithID (rule : string) (afterID : option Z) : RuleDB -> (Z + StoreError) * RuleDB :=
  Update (insertRuleTx rule afterID).

Definition UpdateRuleByID (id : Z) (rule : string) : RuleDB -> (unit + StoreError) * RuleDB :=
  Update (getRuleByIDTx id ;; putRuleByIDTx id rule).

Definition DeleteRuleByID (id : Z) : RuleDB -> (unit + StoreError) * RuleDB :=
  Update (getRuleByIDTx id ;; deleteRuleByIDTx id ;;
          let* o := getOrderTx in putOrderTx (List.filter (fun oid => negb (oid =? id)) o)).

(** The check that every ID has a rule. *)
Fixpoint allKnownTx (o : list Z) : Tx unit :=
  match o with
  | [] => ret tt
  | id :: o' => fun db =>
      match getRuleByIDTx id db with
      | (inl _, db) => allKnownTx o' db
      | (inr _, db) => (inr (ErrUnknownID id), db)
      end
  end.
Definition ReorderRules (o : list Z) : RuleDB -> (unit + StoreError) * RuleDB :=
  Update (allKnownTx o ;; putOrderTx o).

(** ** What the rules bucket promises: a list of rules with IDs *)

(** The abstract state: the rules in order, and the next ID. *)
Definition RuleList : Type := list (Z * string) * Z.

Inductive RuleOp := OpInsert (rule : string) (afterID : option Z) | OpUpdate (id : Z) (rule : string) | OpDelete (id : Z)
  | OpReorder (o : list Z).
Inductive RuleOut := Inserted (id : Z) | Done | Failed (e : StoreError).

Definition outOf {A} (f : A -> RuleOut) (r : A + StoreError) : RuleOut := match r with inl a => f a | inr e => Failed e end.

Definition runOp (op : RuleOp) (db : RuleDB) : RuleOut * RuleDB :=
  match op with
  | OpInsert rule a => let '(r, db) := InsertRuleWithID rule a db in (outOf Inserted r, db)
  | OpUpdate id rule => let '(r, db) := UpdateRuleByID id rule db in (outOf (fun _ => Done) r, db)
  | OpDelete id => let '(r, db) := DeleteRuleByID id db in (outOf (fun _ => Done) r, db)
  | OpReorder o => let '(r, db) := ReorderRules o db in (outOf (fun _ => Done) r, db)
  end.

Fixpoint runOps (ops : list RuleOp) (db : RuleDB) : list RuleOut * RuleDB :=
  match ops with
  | [] => ([], db)
  | op :: ops' => let '(out, db) := runOp op db in let '(outs, db) := runOps ops' db in (out :: outs, db)
  end.

Definition idsOf (l : list (Z * string)) : list Z := map fst l.

Fixpoint insertAfter (a : Z) (x : Z * string) (l : list (Z * string)) : list (Z * string) :=
  match l with
  | [] => []
  | y :: l' => if fst y =? a then y :: x :: l' else y :: insertAfter a x l'
  end.

Definition ruleOf (l : list (Z * string)) (id : Z) : option (Z * string) := List.find (fun x => fst x =? id) l.

Definition specOp (op : RuleOp) (s : RuleList) : RuleOut * RuleList :=
  let '(l, n) := s in
  match op with
  | OpInsert rule None => (Inserted n, (l ++ [(n, rule)], n + 1))
  | OpInsert rule (Some a) =>
      if a =? 0 then (Inserted n, ((n, rule) :: l, n + 1))
      else if decide (a ∈ idsOf l) then (Inserted n, (insertAfter a (n, rule) l, n + 1))
      else (Failed (ErrAfterID a), s)
  | OpUpdate id rule =>
      if decide (id ∈ idsOf l) then (Done, (map (fun x => if fst x =? id then (id, rule) else x) l, n))
      else (Failed ErrNotFound, s)
  | OpDelete id =>
      if decide (id ∈ idsOf l) then (Done, (List.filter (fun x => negb (fst x =? id)) l, n)) else (Failed ErrNotFound, s)
  | OpReorder o =>
      match List.find (fun id => negb (bool_decide (id ∈ idsOf l))) o with
      | Some id => (Failed (ErrUnknownID id), s)
      | None => (Done, (omap (ruleOf l) o, n))
      end
  end.

Fixpoint specOps (ops : list RuleOp) (s : RuleList) : list RuleOut * RuleList :=
  match ops with
  | [] => ([], s)
  | op :: ops' => let '(out, s) := specOp op s in let '(outs, s) := specOps ops' s in (out :: outs, s)
  end.

(** A reordering of known rules names each of them once. *)
Definition reorderOk (op : RuleOp) (s : RuleList) : Prop :=
  match op with OpReorder o => Forall (fun id => id ∈ idsOf (fst s)) o -> Permutation o (idsOf (fst s)) | _ => True end.
Fixpoint reordersOk (ops : list RuleOp) (s : RuleList) : Prop :=
  match ops with [] => True | op :: ops' => reorderOk op s /\ reordersOk ops' (snd (specOp op s)) end.

Definition wfList (s : RuleList) : Prop :=
  1 <= snd s /\ NoDup (idsOf (fst s)) /\ Forall (fun id => 1 <= id < snd s) (idsOf (fst s)).

(** The bucket holds the list and nothing else. *)
Definition holds (db : RuleDB) (s : RuleList) : Prop :=
  exists b, db = Some b /\ default 1 (next_id b) = snd s /\ default [] (order b) = idsOf (fst s) /\
  (forall id, ruleText b !! id = snd <$> ruleOf (fst s) id) /\ wfList s.

(** *** Lists of rules *)

Lemma ruleOf_None l id : id ∉ idsOf l -> ruleOf l id = None.
Proof.
  induction l as [|[i r] l IH]; [done|]. unfold ruleOf, idsOf in *. cbn. intros H%not_elem_of_cons. destruct H as [Hne H].
  destruct (Z.eqb_spec i id); [congruence|]. by apply IH.
Qed.

Lemma ruleOf_Some l id : id ∈ idsOf l -> exists r, ruleOf l id = Some (id, r).
Proof.
  induction l as [|[i r] l IH]; [by intros ?%elem_of_nil|]. unfold ruleOf, idsOf in *. cbn. intros [->|H]%elem_of_cons.
  - rewrite Z.eqb_refl. by exists r.
  - destruct (Z.eqb_spec i id) as [->|]; [by exists r|]. by apply IH.
Qed.

Lemma ruleOf_is_Some l id : ruleOf l id <> None <-> id ∈ idsOf l.
Proof.
  split; [|intros [r ->]%ruleOf_Some; done]. intros H. destruct (decide (id ∈ idsOf l)); [done|]. by rewrite ruleOf_None in H.
Qed.

(** With distinct IDs the rule of an ID is determined by membership alone. *)
Lemma ruleOf_elem l id r : NoDup (idsOf l) -> ruleOf l id = Some (id, r) <-> (id, r) ∈ l.
Proof.
  unfold ruleOf, idsOf. induction l as [|[i t] l IH]; cbn; intros Hnd; [split; [done|by intros ?%elem_of_nil]|].
  apply NoDup_cons in Hnd as [Hi Hnd]. rewrite elem_of_cons. destruct (Z.eqb_spec i id) as [->|Hne].
  - split; [intros [= <-]; by left|]. intros [[= <-]|H]; [done|]. destruct Hi. apply list_elem_of_fmap. by exists (id, r).
  - rewrite IH by done. split; [by right|]. intros [[= ? ?]|H]; [congruence|done].
Qed.

(** So two lists with distinct IDs and the same elements have the same rules. *)
Lemma ruleOf_ext l k : NoDup (idsOf l) -> NoDup (idsOf k) -> (forall x, x ∈ l <-> x ∈ k) -> forall id, ruleOf l id = ruleOf k id.
Proof.
  intros Hl Hk H id. destruct (ruleOf l id) as [[i r]|] eqn:E.
  - assert (i = id) as -> by (apply find_some in E as [_ E]; cbn in E; lia).
    symmetry. apply ruleOf_elem; [done|]. apply H. by apply ruleOf_elem.
  - destruct (ruleOf k id) as [[i r]|] eqn:Ek; [|done]. assert (i = id) as -> by (apply find_some in Ek as [_ Ek]; cbn in Ek; lia).
    apply ruleOf_elem, H, ruleOf_elem in Ek; [|done..]. congruence.
Qed.

Lemma insertAfter_perm a x l : a ∈ idsOf l -> insertAfter a x l ≡ₚ x :: l.
Proof.
  induction l as [|y l IH]; [by intros ?%elem_of_nil|]. cbn. intros H. destruct (Z.eqb_spec (fst y) a).
  - apply Permutation_swap.
  - apply elem_of_cons in H as [->|H]; [done|]. rewrite (IH H). apply Permutation_swap.
Qed.

(** The splice of the order is the insertion after the rule found. *)
Lemma indexOf_insert a x l : match indexOf a (idsOf l) with
  | Some pos => a ∈ idsOf l /\ take (S pos) (idsOf l) ++ [fst x] ++ drop (S pos) (idsOf l) = idsOf (insertAfter a x l)
  | None => a ∉ idsOf l
  end.
Proof.
  induction l as [|y l IH]; [by intros ?%elem_of_nil|]. cbn [idsOf map indexOf insertAfter]. fold (idsOf l).
  destruct (Z.eqb_spec (fst y) a) as [<-|Hne]; [split; [by left|done]|].
  destruct (indexOf a (idsOf l)) as [pos|].
  - destruct IH as [Hin IH]. split; [by right|]. cbn [take drop app idsOf map]. cbn [take app] in IH. fold (idsOf (insertAfter a x l)).
    by rewrite <- IH.
  - intros [?|?]%elem_of_cons; [congruence|done].
Qed.

Lemma omap_ids l o : Forall (fun id => id ∈ idsOf l) o -> idsOf (omap (ruleOf l) o) = o.
Proof.
  induction 1 as [|id o H _ IH]; [done|]. destruct (ruleOf_Some l id H) as [r E]. cbn. rewrite E. cbn. by f_equal.
Qed.

Lemma find_all_known l o : match List.find (fun id => negb (bool_decide (id ∈ idsOf l))) o with
  | Some id => id ∉ idsOf l
  | None => Forall (fun id => id ∈ idsOf l) o
  end.
Proof.
  induction o as [|id o IH]; cbn; [constructor|]. case_bool_decide; cbn; [|done]. destruct (List.find _ o); [done|]. by constructor.
Qed.

(** *** Each operation simulates its specification *)

Section Sim.
Variables (b : RuleBucket) (l : list (Z * string)) (n : Z).
Hypothesis Hn : default 1 (next_id b) = n.
Hypothesis Ho : default [] (order b) = idsOf l.
Hypothesis Ht : forall id, ruleText b !! id = snd <$> ruleOf l id.
Hypothesis Hwf : wfList (l, n).
Hypothesis Hlt : n + 1 < 2 ^ 64.

Lemma insert_holds rule l' : l' ≡ₚ (n, rule) :: l ->
  holds (Some (mkRB (Some (wrap 64 (n + 1))) (Some (idsOf l')) (<[n := rule]> (ruleText b)))) (l', n + 1).
Proof.
  intros Hp. destruct Hwf as (Hpos & Hnd & Hall). cbn [fst snd] in *.
  assert (Hfresh : n ∉ idsOf l) by (intros Hin; rewrite Forall_forall in Hall; specialize (Hall n Hin); lia).
  assert (Hnd' : NoDup (idsOf ((n, rule) :: l))) by (cbn; by constructor).
  assert (Hids : idsOf l' ≡ₚ n :: idsOf l) by (unfold idsOf; by rewrite Hp).
  eexists. split_and!; [done|cbn [fst snd ruleText next_id order default]..|split_and!; cbn [fst snd]].
  - apply wrap_small. lia.
  - done.
  - intros id. rewrite (ruleOf_ext l' ((n, rule) :: l)); [|by rewrite Hids|done|intros x; by rewrite Hp].
    unfold ruleOf at 1. cbn. destruct (Z.eqb_spec n id) as [->|]; [by rewrite lookup_insert_eq|]. rewrite lookup_insert_ne by done. apply Ht.
  - lia.
  - by rewrite Hids.
  - rewrite Hids. constructor; [lia|]. eapply List.Forall_impl; [|exact Hall]. cbn. lia.
Qed.
Lemma update_holds id rule : id ∈ idsOf l ->
  holds (Some (mkRB (next_id b) (order b) (<[id := rule]> (ruleText b)))) (map (fun x => if fst x =? id then (id, rule) else x) l, n).
Proof.
  intros Hin. set (f := fun x : Z * string => if fst x =? id then (id, rule) else x).
  assert (Hids : idsOf (map f l) = idsOf l).
  { unfold idsOf. rewrite map_map. apply map_ext. intros x. unfold f. destruct (Z.eqb_spec (fst x) id); done. }
  assert (Hof : forall i, ruleOf (map f l) i = f <$> ruleOf l i).
  { intros i. clear -i. unfold ruleOf. induction l as [|x k IH]; [done|]. cbn. unfold f at 1. destruct (Z.eqb_spec (fst x) id) as [E|]; cbn.
    - rewrite E. destruct (Z.eqb_spec id i); [|done]. cbn. unfold f. by rewrite E, Z.eqb_refl.
    - destruct (Z.eqb_spec (fst x) i); [|done]. cbn. unfold f. by destruct (Z.eqb_spec (fst x) id). }
  eexists. split; [reflexivity|]. cbn [fst snd ruleText next_id order]. split_and!; [done|by rewrite Hids| |split_and!; cbn [fst snd]; rewrite ?Hids; apply Hwf].
  intros i. rewrite Hof. destruct (decide (id = i)) as [<-|Hne].
  - rewrite lookup_insert_eq. destruct (ruleOf_Some l id Hin) as [r ->]. cbn. unfold f. cbn. by rewrite Z.eqb_refl.
  - rewrite lookup_insert_ne by done. rewrite Ht. destruct (ruleOf l i) as [[j r]|] eqn:E; [|done]. apply find_some in E as [_ E].
    cbn in *. unfold f. cbn. destruct (Z.eqb_spec j id); [lia|done].
Qed.

Lemma delete_holds id :
  holds (Some (mkRB (next_id b) (Some (List.filter (fun oid => negb (oid =? id)) (idsOf l))) (delete id (ruleText b))))
    (List.filter (fun x => negb (fst x =? id)) l, n).
Proof.
  set (k := List.filter (fun x => negb (fst x =? id)) l). destruct Hwf as (Hpos & Hnd & Hall). cbn [fst snd] in *.
  assert (Hids : idsOf k = List.filter (fun oid => negb (oid =? id)) (idsOf l)).
  { unfold k, idsOf. clear. induction l as [|x q IH]; [done|]. cbn. destruct (negb (fst x =? id)); cbn; by rewrite IH. }
  assert (Hof : forall i, ruleOf k i = if i =? id then None else ruleOf l i).
  { intros i. unfold k, ruleOf. clear -i. induction l as [|x q IH]; cbn; [by destruct (i =? id)|].
    destruct (Z.eqb_spec (fst x) id) as [E|]; cbn; destruct (Z.eqb_spec (fst x) i), (Z.eqb_spec i id); try congruence; auto. }
  eexists. split; [reflexivity|]. cbn [fst snd ruleText next_id order default]. split_and!; [done|by rewrite <- Hids| |split_and!; [exact Hpos|cbn [fst]; rewrite Hids; by apply NoDup_ListNoDup, List.NoDup_filter, NoDup_ListNoDup|]].
  - intros i. rewrite Hof. destruct (Z.eqb_spec i id) as [->|]; [by rewrite lookup_delete_eq|]. by rewrite lookup_delete_ne by done.
  - cbn [fst snd]. rewrite Hids. apply List.Forall_forall. intros i [Hi _]%filter_In. rewrite List.Forall_forall in Hall. by apply Hall.
Qed.

Lemma reorder_holds o : o ≡ₚ idsOf l -> holds (Some (mkRB (next_id b) (Some o) (ruleText b))) (omap (ruleOf l) o, n).
Proof.
  intros Hp. destruct Hwf as (Hpos & Hnd & Hall). cbn [fst snd] in *.
  assert (Hids : idsOf (omap (ruleOf l) o) = o).
  { apply omap_ids, Forall_forall. intros id. by rewrite Hp. }
  eexists. split; [reflexivity|]. cbn [fst snd ruleText next_id order default]. split_and!;
    [done|by rewrite Hids| |split_and!; cbn [fst snd]; [exact Hpos|by rewrite Hids, Hp..]].
  intros id. rewrite Ht. f_equal. apply ruleOf_ext; [done|by rewrite Hids, Hp|]. intros [i r]. rewrite list_elem_of_omap. split.
  - intros H. exists i. split; [rewrite Hp; apply list_elem_of_fmap; by exists (i, r)|by apply ruleOf_elem].
  - intros (j & _ & Hj). pose proof (find_some _ _ Hj) as [_ E]. cbn in E. assert (j = i) as -> by lia. by apply ruleOf_elem.
Qed.
End Sim.

(** One operation: the same outcome, and the bucket holds the list specified. *)
Lemma runOp_sim op db s : holds db s -> snd s + 1 < 2 ^ 64 -> reorderOk op s ->
  fst (runOp op db) = fst (specOp op s) /\ holds (snd (runOp op db)) (snd (specOp op s)) /\
  snd s <= snd (snd (specOp op s)) <= snd s + 1.
Proof.
  destruct s as [l n]. intros Hh Hlt Hok. pose proof Hh as (b & -> & Hn & Ho & Ht & Hwf). cbn [fst snd] in *.
  destruct op as [rule [a|]|id rule|id|o]; cbn [runOp specOp].
  - unfold InsertRuleWithID, Update, insertRuleTx, bind. cbn. rewrite Hn, Ho. unfold placeID, ret, fail. destruct (Z.eqb_spec a 0).
    + cbn. split_and!; [done| |cbn; lia..]. by apply (insert_holds b l n) with (l' := (n, rule) :: l).
    + pose proof (indexOf_insert a (n, rule) l) as Hi. destruct (indexOf a (idsOf l)) as [pos|].
      * destruct Hi as [Hin Hi]. rewrite decide_True by done. cbn [fst app] in Hi. rewrite Hi. cbn.
        split_and!; [done| |cbn; lia..]. apply (insert_holds b l n); try done. by apply insertAfter_perm.
      * rewrite decide_False by done. split_and!; [done|done|cbn; lia..].
  - unfold InsertRuleWithID, Update, insertRuleTx, bind. cbn. rewrite Hn, Ho. split_and!; [done| |cbn; lia..].
    replace (idsOf l ++ [n]) with (idsOf (l ++ [(n, rule)])) by (unfold idsOf; by rewrite map_app).
    apply (insert_holds b l n); try done. by rewrite Permutation_app_comm.
  - unfold UpdateRuleByID, Update, bind. cbn. rewrite Ht. destruct (decide (id ∈ idsOf l)) as [Hin|Hin].
    + destruct (ruleOf_Some l id Hin) as [r ->]. cbn. split_and!; [done| |cbn; lia..]. by apply (update_holds b l n).
    + rewrite (ruleOf_None l id Hin). split_and!; [done|done|cbn; lia..].
  - unfold DeleteRuleByID, Update, bind. cbn. rewrite Ht. destruct (decide (id ∈ idsOf l)) as [Hin|Hin].
    + destruct (ruleOf_Some l id Hin) as [r ->]. cbn. rewrite Ho. split_and!; [done| |cbn; lia..]. by apply (delete_holds b l n).
    + rewrite (ruleOf_None l id Hin). split_and!; [done|done|cbn; lia..].
  - assert (Hk : allKnownTx o (Some b) = match List.find (fun id => negb (bool_decide (id ∈ idsOf l))) o with
                                        | Some id => (inr (ErrUnknownID id), Some b) | None => (inl tt, Some b) end).
    { clear -Ht. induction o as [|id o IH]; [done|]. cbn. rewrite Ht. case_bool_decide as Hin; cbn.
      - by destruct (ruleOf_Some l id Hin) as [r ->].
      - by rewrite (ruleOf_None l id Hin). }
    unfold ReorderRules, Update, bind. rewrite Hk. pose proof (find_all_known l o) as Hf. destruct (List.find _ o) as [id|].
    + split_and!; [done|done|cbn; lia..].
    + cbn. split_and!; [done| |cbn; lia..]. apply (reorder_holds b l n); try done. by apply Hok.
Qed.

(** What is listed is the list. *)
Lemma collect_ids b l : (forall id, ruleText b !! id = snd <$> ruleOf l id) -> forall o,
  collectRules o (Some b) = (inl (map (fun x => mkRWI (fst x) (snd x)) (omap (ruleOf l) o)), Some b).
Proof.
  intros Ht o. induction o as [|id o IH]; [done|]. cbn. rewrite Ht. destruct (ruleOf l id) as [[i r]|] eqn:E; cbn.
  - assert (i = id) as -> by (apply find_some in E as [_ E]; cbn in E; lia). unfold bind. rewrite IH. done.
  - by rewrite IH.
Qed.

Lemma omap_self l : NoDup (idsOf l) -> omap (ruleOf l) (idsOf l) = l.
Proof.
  assert (H : forall k, (forall x, x ∈ k -> ruleOf l (fst x) = Some x) -> omap (ruleOf l) (idsOf k) = k).
  { induction k as [|x k IH]; intros Hk; [done|]. cbn. rewrite (Hk x) by (by left). cbn. f_equal. apply IH. intros y Hy. apply Hk. by right. }
  intros Hnd. apply H. intros [i r] Hx. by apply ruleOf_elem.
Qed.

Lemma list_holds db s : holds db s -> ListRulesWithIDs db = inl (map (fun x => mkRWI (fst x) (snd x)) (fst s)) /\
  listRules db = inl (map snd (fst s)).
Proof.
  intros (b & -> & Hn & Ho & Ht & Hpos & Hnd & Hall). unfold ListRulesWithIDs, listRules, View, listRulesTx, bind. cbn. rewrite Ho.
  rewrite (collect_ids b (fst s) Ht), omap_self by done. cbn. split; [done|]. f_equal. rewrite map_map. by apply map_ext.
Qed.

Lemma runOps_sim ops : forall db s, holds db s -> snd s + len ops < 2 ^ 64 -> reordersOk ops s ->
  fst (runOps ops db) = fst (specOps ops s) /\ holds (snd (runOps ops db)) (snd (specOps ops s)).
Proof.
  induction ops as [|op ops IH]; intros db s Hh Hlt Hok; [done|]. cbn [runOps specOps]. rewrite len_cons in Hlt.
  pose proof (len_nonneg ops). destruct Hok as [Hok Hoks]. destruct (runOp_sim op db s Hh ltac:(lia) Hok) as (Eo & Hh' & Hle).
  destruct (runOp op db) as [out db1], (specOp op s) as [out' s1]. cbn [fst snd] in *. subst out'.
  destruct (IH db1 s1 Hh' ltac:(lia) Hoks) as [Eos Hh''].
  destruct (runOps ops db1) as [outs db2], (specOps ops s1) as [outs' s2]. cbn [fst snd] in *. by subst outs'.
Qed.

Lemma empty_holds : holds emptyRules ([], 1).
Proof. eexists. split; [reflexivity|]. cbn. split_and!; [done|done|by intros; rewrite lookup_empty|]. split_and!; cbn; [lia|constructor..]. Qed.

(** C34: the rules bucket refines a list of rules: through any sequence of edits of a new
    database each edit answers as the list does (a new ID, done, or the error of an
    unknown ID), an error changes nothing, IDs are never reused, and the rules listed
    are those of the list in its order.  The sequence has fewer than 2^64 - 1 edits, and
    each of its reorderings that succeeds names every rule once: the code accepts others,
    which hide or repeat rules ([reorder_hides]). *)
Theorem ruleStore_refines ops : len ops < 2 ^ 64 - 1 -> reordersOk ops ([], 1) ->
  let '(outs, db) := runOps ops emptyRules in
  let '(outs', (l, n)) := specOps ops ([], 1) in
  outs = outs' /\ ListRulesWithIDs db = inl (map (fun x => mkRWI (fst x) (snd x)) l) /\ listRules db = inl (map snd l) /\
  NoDup (idsOf l) /\ Forall (fun id => 1 <= id < n) (idsOf l).
Proof.
  intros Hlt Hok. destruct (runOps_sim ops emptyRules ([], 1) empty_holds ltac:(cbn [snd]; lia) Hok) as [Eo Hh].
  destruct (runOps ops emptyRules) as [outs db], (specOps ops ([], 1)) as [outs' [l n]]. cbn [fst snd] in *.
  destruct (list_holds db (l, n) Hh) as [El Er]. destruct Hh as (b & _ & _ & _ & _ & _ & Hnd & Hall). done.
Qed.

Definition demoEdits : list RuleOp :=
  [OpInsert "a" None; OpInsert "b" (Some 0); OpInsert "c" (Some 2); OpUpdate 1 "a2"; OpDelete 9; OpDelete 2; OpReorder [1; 3];
   OpInsert "d" (Some 2); OpInsert "e" None]%string.

Lemma ruleStore_refines_witness :
  fst (runOps demoEdits emptyRules) =
    [Inserted 1; Inserted 2; Inserted 3; Done; Failed ErrNotFound; Done; Done; Failed (ErrAfterID 2); Inserted 4] /\
  listRules (snd (runOps demoEdits emptyRules)) = inl ["a2"; "c"; "e"]%string.
Proof.
  pose proof (ruleStore_refines demoEdits ltac:(vm_compute; reflexivity)) as H.
  assert (Hok : reordersOk demoEdits ([], 1)).
  { cbn. repeat split. intros _. constructor. }
  specialize (H Hok). destruct (runOps demoEdits emptyRules) as [outs db] eqn:E.
  assert (Es : specOps demoEdits ([], 1) =
    ([Inserted 1; Inserted 2; Inserted 3; Done; Failed ErrNotFound; Done; Done; Failed (ErrAfterID 2); Inserted 4],
     ([(1, "a2"); (3, "c"); (4, "e")]%string, 5))) by (vm_compute; reflexivity).
  rewrite Es in H. destruct H as (-> & _ & Hl & _). split; [reflexivity|exact Hl].
Defined.

(** A reordering that leaves a rule out is accepted: the rule stays stored and is listed
    no more, though an update still finds it; one that repeats a rule lists it twice. *)
Example reorder_hides :
  let '(_, db) := runOps [OpInsert "a" None; OpInsert "b" None; OpReorder [1; 1]]%string emptyRules in
  listRules db = inl ["a"; "a"]%string /\ fst (UpdateRuleByID 2 "b2"%string db) = inl tt.
Proof. vm_compute. done. Qed.
