(* ===== verification/Rules.v ===== *)
(** Rules: from src/config/config.go time ranges, rule targets, matchers and the rate
    limiter; from src/db/matcher.go the parsing of rules, the compilation to matchers,
    resolvers, the match itself, the check for cyclic groups and the chains of via
    proxies.

    A mapping is its name.  net.ParseIP is an argument.  A proxy is a pointer, so that
    the chains that setNext writes are a heap of Next fields. *)

From Stdlib Require Import ZArith Lia String Ascii Sorted.
From stdpp Require Import base list numbers strings gmap sets.
From S2P Require Import Prelude GoStrings IPPacket Groups.
Open Scope Z_scope.

(** ** Time ranges *)

Record TimeRange := mkTR { StartMin : Z; EndMin : Z }.
Definition zeroTR : TimeRange := mkTR 0 0.

Definition Matches (tr : TimeRange) (nowMin : Z) : bool :=
  if (StartMin tr =? 0) && (EndMin tr =? 0) then true
  else if StartMin tr <=? EndMin tr then (StartMin tr <=? nowMin) && (nowMin <? EndMin tr)
  else (StartMin tr <=? nowMin) || (nowMin <? EndMin tr).

Definition fmtHM (n : Z) : string := (pad2 (n / 60) ++ ":" ++ pad2 (n mod 60))%string.
Definition TimeRangeString (tr : TimeRange) : string :=
  if (StartMin tr =? 0) && (EndMin tr =? 0) then ""%string
  else (fmtHM (StartMin tr) ++ "-" ++ fmtHM (EndMin tr))%string.

(** Minutes, or -1. *)
Definition parseHM (s : string) : Z :=
  match Cut ":" (TrimSpace s) with
  | None => -1
  | Some (a, b) =>
      match Atoi a, Atoi b with
      | Some h, Some m => if (h <? 0) || (23 <? h) || (m <? 0) || (59 <? m) then -1 else h * 60 + m
      | _, _ => -1
      end
  end.

Definition parseTimeRange (s : string) : TimeRange :=
  match Cut "-" s with
  | None => zeroTR
  | Some (a, b) =>
      let start := parseHM a in
      let e := parseHM b in
      if (start <? 0) || (e <? 0) then zeroTR else mkTR start e
  end.

(** ** Rule targets *)

(** Whether [a] is before [b]: the comparison of two indexes, absent ones last. *)
Definition cutsFirst (a b : option (string * string)) : bool :=
  match a, b with
  | Some (x, _), Some (y, _) => (String.length x <? String.length y)%nat
  | Some _, None => true
  | None, _ => false
  end.

(** The loop; [None] is out of fuel. *)
Fixpoint nameLoop (fuel : nat) (remaining mapping : string) (tr : TimeRange) : option (string * string * TimeRange) :=
  match fuel with
  | O => None
  | S fuel' =>
      let at_ := Cut "@" remaining in
      let hash := Cut "#" remaining in
      match at_, hash with
      | None, None => Some (remaining, mapping, tr)
      | _, _ =>
          if cutsFirst at_ hash then
            match at_ with
            | Some (before, after) => nameLoop fuel' before mapping (parseTimeRange after)
            | None => None
            end
          else
            match hash with
            | Some (before, after) =>
                match Cut "@" after with
                | Some (m, t) => nameLoop fuel' before m (parseTimeRange t)
                | None => nameLoop fuel' before after tr
                end
            | None => None
            end
      end
  end.

Definition ParseProxyName (proxyName : string) : option (string * string * TimeRange) := nameLoop 2 proxyName "" zeroTR.

(** ** Rules *)

Record Rule := mkRule { rType : string; rPattern : string; rProxy : string; rMapping : string; rTime : option TimeRange }.

(** [None] inside is a rule left out, outside out of fuel. *)
Definition parseRule (ruleStr : string) : option (option Rule) :=
  let parts := Split "," ruleStr in
  match parts with
  | ty :: p1 :: rest =>
      match ParseProxyName (TrimSpace (List.last parts ""%string)) with
      | None => None
      | Some (name, mapping, tr) =>
          let pattern := match rest with [] => ""%string | _ => TrimSpace p1 end in
          Some (Some (mkRule (TrimSpace ty) pattern name mapping (Some tr)))
      end
  | _ => Some None
  end.

Fixpoint parseRules (l : list string) : option (list Rule) :=
  match l with
  | [] => Some []
  | s :: l' =>
      match parseRule s, parseRules l' with
      | Some (Some r), Some rs => Some (r :: rs)
      | Some None, Some rs => Some rs
      | _, _ => None
      end
  end.

Record AddrRequest := mkReq { DstAddr : string; DstPort : Z; CmdType : string; Proto : string }.

Inductive Matcher :=
| DomainSuffixMatcher (proxyName domainSuffix mappingName : string)
| IpCidrMatcher (proxyName : string) (network mask : Z) (mappingName : string)
| MatchAllMatcher (proxyName mappingName : string).

(** The mapping of a rule allows that of a connection. *)
Definition mappingOk (rule : string) (mapping : option string) : bool :=
  String.eqb rule "" || match mapping with Some m => String.eqb rule m | None => false end.

Section Match.
(** net.ParseIP. *)
Variable ParseIP : string -> option (list Z).

Definition ip2Uint32 (s : string) : Z :=
  match ParseIP s ≫= To4 with Some ip4 => Uint32 ip4 | None => 0 end.

Definition NewIpCidMatcher (name mapping cidr : string) : Matcher :=
  let invalid := IpCidrMatcher name 0 0xffffffff mapping in
  match Cut "/" cidr with
  | None => invalid
  | Some (ipStr, lenStr) =>
      match Atoi lenStr with
      | None => invalid
      | Some prefixLen =>
          if (prefixLen <? 0) || (32 <? prefixLen) then invalid
          else
            let mask := wrap 32 (Z.shiftl 0xffffffff (32 - prefixLen)) in
            let network := ip2Uint32 ipStr in
            if (network =? 0) && negb (String.eqb ipStr "0.0.0.0") then invalid
            else IpCidrMatcher name network mask mapping
      end
  end.

(** The proxy name, empty for no match. *)
Definition Match (m : Matcher) (req : AddrRequest) (mapping : option string) : string :=
  match m with
  | DomainSuffixMatcher name suffix mp =>
      if HasSuffix (DstAddr req) suffix && mappingOk mp mapping then name else ""%string
  | IpCidrMatcher name network mask mp =>
      match ParseIP (DstAddr req) ≫= To4 with
      | None => ""%string
      | Some ip4 =>
          if (Z.land (Uint32 ip4) mask =? Z.land network mask) && mappingOk mp mapping then name else ""%string
      end
  | MatchAllMatcher name mp => if mappingOk mp mapping then name else ""%string
  end.

(** The matcher of a rule; rules of other types have none. *)
Definition compileRule (r : Rule) : option Matcher :=
  if String.eqb (rType r) "DOMAIN-SUFFIX" then Some (DomainSuffixMatcher (rProxy r) (rPattern r) (rMapping r))
  else if String.eqb (rType r) "IP-CIDR" then Some (NewIpCidMatcher (rProxy r) (rMapping r) (rPattern r))
  else if String.eqb (rType r) "MATCH" then Some (MatchAllMatcher (rProxy r) (rMapping r))
  else None.

(** The two slices filled in step. *)
Definition buildMatchers (rules : list Rule) : list Matcher * list TimeRange :=
  foldl (fun acc r => match compileRule r with
                      | Some m => (fst acc ++ [m], snd acc ++ [default zeroTR (rTime r)])
                      | None => acc
                      end) ([], []) rules.

Record MatchResult := mkResult { mrProxyName : string; mrMapping : string; mrTimeRange : string }.

(** The loop of match up to the first hit. *)
Fixpoint matchLoop (ms : list Matcher) (trs : list TimeRange) (req : AddrRequest) (mapping : option string) (nowMin : Z)
  : option MatchResult :=
  match ms with
  | [] => None
  | m :: ms' =>
      let skip := match trs with tr :: _ => negb (Matches tr nowMin) | [] => false end in
      let name := Match m req mapping in
      if skip || String.eqb name "" then matchLoop ms' (tl trs) req mapping nowMin
      else Some (mkResult name (default ""%string mapping)
                   (match trs with tr :: _ => if 0 <=? StartMin tr then TimeRangeString tr else ""%string | [] => ""%string end))
  end.

(** ** Names and resolvers *)

Variable Compile : string -> option (string -> bool).
Context {P : Type}.

(** A proxy of that name, or what its group resolves to; the groups' counters move. *)
Definition resolveName (fuel : nat) (w : World P) (name : string) : outcome (World P * option P) :=
  match proxies w !! name with
  | Some p => Returns (w, Some p)
  | None =>
      match groups w !! name with
      | None => Returns (w, None)
      | Some g =>
          match computeMembers Compile w g with
          | [] => Returns (w, None)
          | _ => match NextWithVisited Compile fuel w ∅ name with
                 | Returns (w, _, p) => Returns (w, p)
                 | Panics => Panics
                 | OutOfFuel => OutOfFuel
                 end
          end
      end
  end.

Definition match_ (fuel : nat) (w : World P) (rules : list Matcher * list TimeRange) (req : AddrRequest) (mapping : option string)
    (nowMin : Z) : outcome (World P * option P * option MatchResult) :=
  match matchLoop (fst rules) (snd rules) req mapping nowMin with
  | None => Returns (w, None, None)
  | Some res =>
      match resolveName fuel w (mrProxyName res) with
      | Returns (w, p) => Returns (w, p, Some res)
      | Panics => Panics
      | OutOfFuel => OutOfFuel
      end
  end.

End Match.

Record Resolver := mkResolver {
  rsName : string; rsEnabled : option bool; rsProto : string; SrcHost : string; SrcPort : Z;
  DstHost : string; rsDstPort : Z; SrcRelative : bool; SrcFull : string }.

Definition EffectiveSrcHost (r : Resolver) : string :=
  if SrcRelative r && negb (String.eqb (SrcFull r) "") then SrcFull r else SrcHost r.
Definition resolverEnabled (r : Resolver) : bool := default true (rsEnabled r).

Inductive ResolverError := ErrProto (name : string) | ErrSrcHost (name : string) | ErrNodeID (name : string).

Definition prepareResolver (nodeID : string) (r : Resolver) : Resolver + ResolverError :=
  let proto := ToLower (TrimSpace (rsProto r)) in
  if negb (String.eqb proto "" || String.eqb proto "tcp" || String.eqb proto "udp") then inr (ErrProto (rsName r))
  else if SrcRelative r then
    if String.eqb (TrimSpace (SrcHost r)) "" then inr (ErrSrcHost (rsName r))
    else if String.eqb nodeID "" then inr (ErrNodeID (rsName r))
    else inl (mkResolver (rsName r) (rsEnabled r) proto (SrcHost r) (SrcPort r) (DstHost r) (rsDstPort r) true
                (SrcHost r ++ "." ++ nodeID ++ ".phn"))
  else inl (mkResolver (rsName r) (rsEnabled r) proto (SrcHost r) (SrcPort r) (DstHost r) (rsDstPort r) false "").

Fixpoint prepareAll (nodeID : string) (l : list Resolver) : list Resolver + ResolverError :=
  match l with
  | [] => inl []
  | r :: l' =>
      match prepareResolver nodeID r with
      | inr e => inr e
      | inl r' => match prepareAll nodeID l' with inl rs => inl (r' :: rs) | inr e => inr e end
      end
  end.

Definition loopbackOf (nodeID : string) : string := ("loc." ++ nodeID ++ ".phn")%string.

(** [nodeID] is that of the mesh configuration, empty without one. *)
Definition prepareResolvers (nodeID : string) (l : list Resolver) : list Resolver + ResolverError :=
  let nodeID := TrimSpace nodeID in
  match prepareAll nodeID l with
  | inr e => inr e
  | inl rs =>
      if String.eqb nodeID "" then inl rs
      else if existsb (fun r => String.eqb (EffectiveSrcHost r) (loopbackOf nodeID)) rs then inl rs
      else inl (mkResolver "__LOOPBACK_LOC__" (Some true) "" (loopbackOf nodeID) 0 "127.0.0.1" 0 false "" :: rs)
  end.

Definition resolverMatches (req : AddrRequest) (r : Resolver) : bool :=
  resolverEnabled r &&
  negb (negb (String.eqb (rsProto r) "") && negb (String.eqb (Proto req) "") && negb (String.eqb (rsProto r) (Proto req))) &&
  String.eqb (DstAddr req) (EffectiveSrcHost r) &&
  negb (negb (SrcPort r =? 0) && negb (DstPort req =? SrcPort r)).

Definition resolving (resolvers : list Resolver) (req : AddrRequest) : AddrRequest :=
  match List.find (resolverMatches req) resolvers with
  | Some r => mkReq (DstHost r) (if rsDstPort r =? 0 then DstPort req else rsDstPort r) (CmdType req) (Proto req)
  | None => req
  end.

(** ** The matcher of the store *)

Section Store.
Variable ParseIP : string -> option (list Z).
Variable Compile : string -> option (string -> bool).
Context {P : Type}.

Record RuleMatcher := mkRM {
  rmWorld : World P; rmMappings : gset string; rmRules : list Rule; rmResolvers : list Resolver;
  rmNodeID : string; rmMatchers : list Matcher * list TimeRange }.

(** Rules are replaced and compiled anew: AddRule in front, RemoveRule by proxy name,
    the watcher wholesale. *)
Definition setRules (m : RuleMatcher) (rules : list Rule) : RuleMatcher :=
  mkRM (rmWorld m) (rmMappings m) rules (rmResolvers m) (rmNodeID m) (buildMatchers ParseIP rules).
Definition AddRule (m : RuleMatcher) (r : Rule) : RuleMatcher := setRules m (r :: rmRules m).
Definition RemoveRule (m : RuleMatcher) (proxyName : string) : RuleMatcher :=
  setRules m (List.filter (fun r => negb (String.eqb (rProxy r) proxyName)) (rmRules m)).

Definition findMapping (m : RuleMatcher) (name : string) : option string :=
  if String.eqb name "" then None else if decide (name ∈ rmMappings m) then Some name else None.

(** The target of a connection: nothing, the built-in direct proxy, or a proxy. *)
Inductive target := NoTarget | Direct | Via (p : P).

Definition ResolveMatch (fuel : nat) (m : RuleMatcher) (req : AddrRequest) (mappingName : string) (nowMin : Z)
  : outcome (World P * AddrRequest * target * option MatchResult) :=
  if negb (String.eqb (rmNodeID m) "") && EqualFold (DstAddr req) (loopbackOf (rmNodeID m)) then
    Returns (rmWorld m, mkReq "127.0.0.1" (DstPort req) (CmdType req) (Proto req), Direct, None)
  else
    let req := resolving (rmResolvers m) req in
    match match_ ParseIP Compile fuel (rmWorld m) (rmMatchers m) req (findMapping m mappingName) nowMin with
    | Returns (w, p, res) => Returns (w, req, match p with Some p => Via p | None => NoTarget end, res)
    | Panics => Panics
    | OutOfFuel => OutOfFuel
    end.

End Store.

(** ** Cyclic groups *)

(** [Some true] is a cycle, [None] out of fuel; [visited] is the path to [name]. *)
Fixpoint anyCycle (check : string -> option bool) (isGroup : string -> bool) (l : list string) : option bool :=
  match l with
  | [] => Some false
  | m :: l' =>
      if isGroup m then
        match check m with
        | Some false => anyCycle check isGroup l'
        | r => r
        end
      else anyCycle check isGroup l'
  end.

Fixpoint checkGroupCycle (fuel : nat) (gs : gmap string ProxyGroup) (visited : gset string) (name : string) : option bool :=
  match fuel with
  | O => None
  | S fuel' =>
      if decide (name ∈ visited) then Some true
      else match gs !! name with
           | None => Some false
           | Some g => anyCycle (checkGroupCycle fuel' gs ({[name]} ∪ visited))
                         (fun m => bool_decide (is_Some (gs !! m))) (ManualProxies g)
           end
  end.

(** ** Chains of via proxies *)

Section Via.
Variable Compile : string -> option (string -> bool).
Context {P : Type} `{Countable P}.
(** The ViaProxy field of a proxy. *)
Variable via : P -> string.

(** The Next fields: [None] is the direct singleton. *)
Definition Nexts := gmap P (option P).

(** The proxy a name stands for, a group's choice if it is not a proxy. *)
Definition nextOf (fuel : nat) (w : World P) (p : P) : outcome (World P * option P) :=
  match proxies w !! via p with
  | Some n => Returns (w, Some n)
  | None =>
      match groups w !! via p with
      | Some _ => match NextWithVisited Compile fuel w ∅ (via p) with
                  | Returns (w, _, n) => Returns (w, n)
                  | Panics => Panics
                  | OutOfFuel => OutOfFuel
                  end
      | None => Returns (w, None)
      end
  end.

(** The world and the fields after the walk, and whether it found a cycle. *)
Fixpoint setNext (fuel gfuel : nat) (w : World P) (nexts : Nexts) (visited : gset P) (p : P) : outcome (World P * Nexts * bool) :=
  match fuel with
  | O => OutOfFuel
  | S fuel' =>
      match nextOf gfuel w p with
      | Returns (w, None) => Returns (w, <[p := None]> nexts, false)
      | Returns (w, Some n) =>
          if decide (n ∈ visited) then Returns (w, nexts, true)
          else setNext fuel' gfuel w (<[p := Some n]> nexts) ({[n]} ∪ visited) n
      | Panics => Panics
      | OutOfFuel => OutOfFuel
      end
  end.

(** rewireNextChains, over the proxies in the order ranged: a cycle is logged only. *)
Fixpoint rewireNextChains (fuel gfuel : nat) (w : World P) (nexts : Nexts) (order : list P) : outcome (World P * Nexts) :=
  match order with
  | [] => Returns (w, nexts)
  | p :: order' =>
      match setNext fuel gfuel w nexts ∅ p with
      | Returns (w, nexts, _) => rewireNextChains fuel gfuel w nexts order'
      | Panics => Panics
      | OutOfFuel => OutOfFuel
      end
  end.

End Via.

(** ** The rate limiter *)

Record RateLimiter := mkRL { bytesPerSecond : Z; nextSendTimeNs : Z }.

Definition NewRateLimiter (rate now : Z) : RateLimiter := mkRL rate now.

Definition Schedule (r : RateLimiter) (bytes now : Z) : RateLimiter * Duration :=
  if bytesPerSecond r <=? 0 then (r, 0)
  else
    let sendTime := if now <? nextSendTimeNs r then nextSendTimeNs r else now in
    let duration := Z.quot (swrap 64 (bytes * 1000000000)) (bytesPerSecond r) in
    let delay := swrap 64 (sendTime - now) in
    (mkRL (bytesPerSecond r) (swrap 64 (sendTime + duration)), if delay <? 0 then 0 else delay).

(** ** Texts *)

(** Every valid time prints to text that parses back; all cases are evaluated. *)
Lemma forall_below (n : nat) (f : Z -> bool) : forallb f (map Z.of_nat (seq 0 n)) = true ->
  forall z, 0 <= z < Z.of_nat n -> f z = true.
Proof.
  intros Hf z Hz. rewrite forallb_forall in Hf. apply Hf. apply in_map_iff. exists (Z.to_nat z).
  split; [lia|]. apply in_seq. lia.
Qed.

Definition hmOk (n : Z) : bool := (parseHM (fmtHM n) =? n) && lacks "-" (fmtHM n) && lacks "#" (fmtHM n) && lacks "@" (fmtHM n).
Lemma fmtHM_ok n : 0 <= n < 1440 -> parseHM (fmtHM n) = n /\ lacks "-" (fmtHM n) = true /\
  lacks "#" (fmtHM n) = true /\ lacks "@" (fmtHM n) = true.
Proof.
  intros Hn. assert (E : hmOk n = true) by (apply (forall_below 1440); [vm_compute; reflexivity|lia]).
  unfold hmOk in E. rewrite !andb_true_iff, Z.eqb_eq in E. tauto.
Qed.

Definition validTR (tr : TimeRange) : Prop := 0 <= StartMin tr < 1440 /\ 0 <= EndMin tr < 1440.

Lemma timeRange_roundtrip tr : validTR tr -> parseTimeRange (TimeRangeString tr) = tr.
Proof.
  intros [Hs He]. unfold TimeRangeString. destruct tr as [s e]. cbn [StartMin EndMin] in *.
  destruct (Z.eqb_spec s 0) as [->|]; [destruct (Z.eqb_spec e 0) as [->|]; [done|]|]; cbn [andb];
    match goal with |- parseTimeRange (fmtHM ?a ++ _ ++ fmtHM ?b) = _ =>
      destruct (fmtHM_ok a ltac:(lia)) as (Ea & La & _), (fmtHM_ok b ltac:(lia)) as (Eb & _);
      unfold parseTimeRange; change ("-" ++ fmtHM b)%string with (String "-" (fmtHM b));
      rewrite Cut_app, Ea, Eb by done; destruct (Z.ltb_spec a 0), (Z.ltb_spec b 0); try lia; done
    end.
Qed.

Lemma TimeRangeString_lacks tr : validTR tr -> lacks "#" (TimeRangeString tr) = true /\ lacks "@" (TimeRangeString tr) = true.
Proof.
  intros [Hs He]. unfold TimeRangeString. destruct (_ && _); [done|].
  destruct (fmtHM_ok _ Hs) as (_ & _ & Hs1 & Hs2), (fmtHM_ok _ He) as (_ & _ & He1 & He2).
  rewrite !lacks_app, Hs1, Hs2, He1, He2. done.
Qed.

(** A target as the syntax PROXY#MAPPING@HH:MM-HH:MM has it. *)
Definition printTarget (name mapping : string) (tr : TimeRange) : string :=
  (name ++ String "#" (mapping ++ String "@" (TimeRangeString tr)))%string.

(** Rule targets round-trip: a proxy name, a mapping and a time range written as
    PROXY#MAPPING@HH:MM-HH:MM parse back to themselves, for every time of the day, and
    without a mapping or a time as well. *)
Theorem ParseProxyName_roundtrip name mapping tr :
  lacks "#" name = true -> lacks "@" name = true -> lacks "@" mapping = true -> lacks "#" mapping = true -> validTR tr ->
  ParseProxyName (printTarget name mapping tr) = Some (name, mapping, tr) /\
  ParseProxyName (name ++ String "@" (TimeRangeString tr)) = Some (name, ""%string, tr) /\
  ParseProxyName (name ++ String "#" mapping) = Some (name, mapping, zeroTR) /\
  ParseProxyName name = Some (name, ""%string, zeroTR).
Proof.
  intros Hnh Hna Hma Hmh Htr. destruct (TimeRangeString_lacks tr Htr) as [Hth Hta]. unfold ParseProxyName, printTarget. split_and!.
  - cbn [nameLoop]. rewrite Cut_app_late, !Cut_app by done. cbn [cutsFirst].
    assert (Hlt : (String.length (name ++ String "#" mapping) <? String.length name)%nat = false).
    { apply Nat.ltb_ge. rewrite length_append. lia. }
    rewrite Hlt. rewrite timeRange_roundtrip by done. by rewrite (Cut_lacks "@" name), (Cut_lacks "#" name).
  - cbn [nameLoop]. rewrite Cut_app by done. rewrite (Cut_lacks "#").
    2: { rewrite lacks_app, Hnh. cbn [lacks andb]. by rewrite Hth. }
    cbn [cutsFirst]. rewrite timeRange_roundtrip by done. by rewrite (Cut_lacks "@" name), (Cut_lacks "#" name).
  - cbn [nameLoop]. rewrite (Cut_lacks "@"). 2: { rewrite lacks_app, Hna. cbn [lacks andb]. by rewrite Hma. }
    rewrite Cut_app by done. cbn [cutsFirst]. rewrite (Cut_lacks "@" mapping) by done. by rewrite (Cut_lacks "@" name), (Cut_lacks "#" name).
  - cbn [nameLoop]. by rewrite (Cut_lacks "@" name), (Cut_lacks "#" name).
Qed.

Lemma ParseProxyName_roundtrip_witness :
  ParseProxyName "proxy#tun@22:00-08:30" = Some ("proxy", "tun", mkTR 1320 510)%string.
Proof.
  apply (ParseProxyName_roundtrip "proxy" "tun" (mkTR 1320 510)); [reflexivity..|split; cbn; lia].
Defined.

(** The loop ends within its two turns on every text, so every rule parses. *)
Lemma ParseProxyName_total s : is_Some (ParseProxyName s).
Proof.
  assert (Hend : forall x m tr, lacks "@" x = true -> lacks "#" x = true -> is_Some (nameLoop 1 x m tr)).
  { intros x m tr Ha Hh. cbn [nameLoop]. rewrite !Cut_lacks by done. by eexists. }
  unfold ParseProxyName. cbn [nameLoop]. fold (nameLoop 1).
  destruct (Cut "@" s) as [[x r]|] eqn:Ea, (Cut "#" s) as [[y r']|] eqn:Eh; cbn [cutsFirst]; [|apply Hend|destruct (Cut "@" r') as [[]|]; apply Hend|by eexists].
  all: try (eapply Cut_before; [eassumption|]; intros ? ? Hq; rewrite ?Ea, ?Eh in Hq; simplify_eq; lia).
  destruct (Nat.ltb_spec (String.length x) (String.length y)); [|destruct (Cut "@" r') as [[]|]]; apply Hend;
    eapply Cut_before; try eassumption; intros ? ? Hq; rewrite ?Ea, ?Eh in Hq; simplify_eq; lia.
Qed.

Lemma parseRules_total l : is_Some (parseRules l).
Proof.
  induction l as [|s l [rs IH]]; cbn [parseRules]; [by eexists|]. rewrite IH. unfold parseRule.
  destruct (Split "," s) as [|ty [|p1 rest]]; [by eexists..|].
  destruct (ParseProxyName_total (TrimSpace (List.last (ty :: p1 :: rest) ""%string))) as [[[n m] tr] ->]. by eexists.
Qed.

(** ** The first rule that applies *)

Section First.
Variable ParseIP : string -> option (list Z).
(** net.ParseIP yields bytes. *)
Hypothesis ParseIP_bytes : forall s ip, ParseIP s = Some ip -> Forall is_byte ip.

(** The network and prefix length a pattern stands for; an invalid one is 0.0.0.0/32. *)
Definition cidrOf (cidr : string) : Z * Z :=
  match Cut "/" cidr with
  | Some (ipStr, lenStr) =>
      match Atoi lenStr with
      | Some n => if (n <? 0) || (32 <? n) || (ip2Uint32 ParseIP ipStr =? 0) && negb (String.eqb ipStr "0.0.0.0") then (0, 32)
                  else (ip2Uint32 ParseIP ipStr, n)
      | None => (0, 32)
      end
  | None => (0, 32)
  end.

(** The first [n] bits of two 32-bit numbers agree. *)
Definition sameNet (n a b : Z) : Prop := a / 2 ^ (32 - n) = b / 2 ^ (32 - n).

Definition patternOk (r : Rule) (addr : string) : Prop :=
  (rType r = "DOMAIN-SUFFIX"%string /\ exists p, addr = (p ++ rPattern r)%string) \/
  (rType r = "IP-CIDR"%string /\ exists ip4, ParseIP addr ≫= To4 = Some ip4 /\
     sameNet (snd (cidrOf (rPattern r))) (Uint32 ip4) (fst (cidrOf (rPattern r)))) \/
  rType r = "MATCH"%string.

Definition applies (req : AddrRequest) (mapping : option string) (nowMin : Z) (r : Rule) : Prop :=
  rProxy r <> ""%string /\ Matches (default zeroTR (rTime r)) nowMin = true /\
  mappingOk (rMapping r) mapping = true /\ patternOk r (DstAddr req).

Definition resultOf (mapping : option string) (r : Rule) : MatchResult :=
  let tr := default zeroTR (rTime r) in
  mkResult (rProxy r) (default ""%string mapping) (if 0 <=? StartMin tr then TimeRangeString tr else ""%string).

Lemma To4_bytes ip ip4 : Forall is_byte ip -> To4 ip = Some ip4 -> Forall is_byte ip4 /\ len ip4 = 4.
Proof.
  intros Hb. unfold To4. destruct (Z.eqb_spec (len ip) 4); [by intros [= <-]|].
  destruct (_ && _) eqn:E; [|done]. intros [= <-]. apply andb_prop in E as [E _]. apply andb_prop in E as [E _].
  apply andb_prop in E as [E _]. apply Z.eqb_eq in E. split; [unfold sub; by apply Forall_take, Forall_drop|]. rewrite len_sub by lia. lia.
Qed.

Lemma ip_range s ip4 : ParseIP s ≫= To4 = Some ip4 -> 0 <= Uint32 ip4 < 2 ^ 32.
Proof.
  intros E. apply bind_Some in E as (ip & Hip & H4). destruct (To4_bytes ip ip4 (ParseIP_bytes _ _ Hip) H4) as [Hb Hl].
  by apply Uint32_range.
Qed.

Lemma ip2Uint32_range s : 0 <= ip2Uint32 ParseIP s < 2 ^ 32.
Proof. unfold ip2Uint32. destruct (ParseIP s ≫= To4) eqn:E; [by eapply ip_range|lia]. Qed.

Lemma testbit_high a i : 0 <= a < 2 ^ 32 -> 32 <= i -> Z.testbit a i = false.
Proof. intros Ha Hi. rewrite <- (Z.mod_small a (2 ^ 32)) by done. apply Z.mod_pow2_bits_high. lia. Qed.

(** Masking compares prefixes. *)
Lemma land_mask n a : 0 <= n <= 32 -> 0 <= a < 2 ^ 32 ->
  Z.land a (wrap 32 (Z.shiftl 0xffffffff (32 - n))) = a / 2 ^ (32 - n) * 2 ^ (32 - n).
Proof.
  intros Hn Ha. rewrite <- Z.shiftr_div_pow2, <- Z.shiftl_mul_pow2 by lia. apply Z.bits_inj'. intros i Hi.
  unfold wrap. rewrite Z.land_spec, <- Z.land_ones by lia. rewrite Z.land_spec, Z.testbit_ones_nonneg by lia.
  change 0xffffffff with (Z.ones 32). rewrite !Z.shiftl_spec by lia.
  destruct (Z.ltb_spec i (32 - n)).
  - rewrite (Z.testbit_neg_r _ (i - (32 - n))), (Z.testbit_neg_r (Z.shiftr _ _)) by lia. by rewrite andb_false_r.
  - rewrite Z.shiftr_spec by lia. replace (i - (32 - n) + (32 - n)) with i by lia.
    rewrite Z.testbit_ones_nonneg by lia. destruct (Z.ltb_spec (i - (32 - n)) 32); [|lia || idtac].
    + destruct (Z.ltb_spec i 32); [by rewrite !andb_true_r|]. by rewrite testbit_high.
    + rewrite andb_false_l, andb_false_r. symmetry. apply testbit_high; lia.
Qed.

Lemma cidr_match name mapping cidr a : 0 <= a < 2 ^ 32 ->
  exists network mask, NewIpCidMatcher ParseIP name mapping cidr = IpCidrMatcher name network mask mapping /\
    (Z.land a mask = Z.land network mask <-> sameNet (snd (cidrOf cidr)) a (fst (cidrOf cidr))).
Proof.
  intros Ha.
  assert (Hinv : Z.land a 0xffffffff = Z.land 0 0xffffffff <-> sameNet 32 a 0).
  { unfold sameNet. change (2 ^ (32 - 32)) with 1. rewrite !Z.div_1_r. change 0xffffffff with (Z.ones 32).
    rewrite Z.land_ones, Z.land_0_l, Z.mod_small by lia. done. }
  unfold NewIpCidMatcher, cidrOf. destruct (Cut "/" cidr) as [[ipStr lenStr]|]; [|by eexists _, _].
  destruct (Atoi lenStr) as [n|]; [|by eexists _, _].
  destruct (Z.ltb_spec n 0); cbn [orb]; [by eexists _, _|]. destruct (Z.ltb_spec 32 n); cbn [orb]; [by eexists _, _|].
  destruct ((ip2Uint32 ParseIP ipStr =? 0) && _); [by eexists _, _|]. eexists _, _. split; [done|]. cbn [fst snd].
  pose proof (ip2Uint32_range ipStr). rewrite !land_mask by lia. unfold sameNet.
  assert (0 < 2 ^ (32 - n)) by (apply Z.pow_pos_nonneg; lia). split; [intros E; nia|congruence].
Qed.

(** A rule applies when its matcher, in its time, names its proxy. *)
Lemma compile_applies req mapping nowMin r :
  match compileRule ParseIP r with
  | Some m => (Match ParseIP m req mapping = rProxy r \/ Match ParseIP m req mapping = ""%string) /\
      (applies req mapping nowMin r <-> Matches (default zeroTR (rTime r)) nowMin = true /\ Match ParseIP m req mapping <> ""%string)
  | None => ~ applies req mapping nowMin r
  end.
Proof.
  assert (Hif : forall b : bool, (if b then rProxy r else ""%string) = rProxy r \/ (if b then rProxy r else ""%string) = ""%string)
    by (intros []; auto).
  unfold compileRule, applies, patternOk. destruct (String.eqb_spec (rType r) "DOMAIN-SUFFIX") as [Ed|Ed]; [|destruct (String.eqb_spec (rType r) "IP-CIDR") as [Ei|Ei]; [|destruct (String.eqb_spec (rType r) "MATCH") as [Em|Em]]].
  - split; [apply Hif|]. cbn [Match]. rewrite <- HasSuffix_spec, Ed. destruct (HasSuffix _ _), (mappingOk _ _); cbn [andb]; naive_solver.
  - destruct (ParseIP (DstAddr req) ≫= To4) as [ip4|] eqn:E4.
    + destruct (cidr_match (rProxy r) (rMapping r) (rPattern r) (Uint32 ip4) (ip_range _ _ E4)) as (network & mask & -> & Hm).
      cbn [Match]. rewrite E4. split; [apply Hif|]. rewrite Ei.
      destruct (Z.eqb_spec (Z.land (Uint32 ip4) mask) (Z.land network mask)), (mappingOk _ _); cbn [andb]; naive_solver.
    + assert (Hm : exists network mask, NewIpCidMatcher ParseIP (rProxy r) (rMapping r) (rPattern r) = IpCidrMatcher (rProxy r) network mask (rMapping r)).
      { destruct (cidr_match (rProxy r) (rMapping r) (rPattern r) 0 ltac:(lia)) as (network & mask & E & _). by exists network, mask. }
      destruct Hm as (network & mask & ->). cbn [Match]. rewrite E4, Ei. naive_solver.
  - split; [apply Hif|]. cbn [Match]. rewrite Em. destruct (mappingOk _ _); naive_solver.
  - naive_solver.
Qed.

Lemma buildMatchers_cons r rules : buildMatchers ParseIP (r :: rules) =
  match compileRule ParseIP r with
  | Some m => (m :: fst (buildMatchers ParseIP rules), default zeroTR (rTime r) :: snd (buildMatchers ParseIP rules))
  | None => buildMatchers ParseIP rules
  end.
Proof.
  unfold buildMatchers. match goal with |- context [foldl ?f _ (r :: rules)] => set (step := f) end.
  change (foldl step ([], []) (r :: rules)) with (foldl step (step ([], []) r) rules).
  assert (Hacc : forall rs a, foldl step a rs = (fst a ++ fst (foldl step ([], []) rs), snd a ++ snd (foldl step ([], []) rs))).
  { induction rs as [|x rs IH]; intros a; cbn [foldl]; [by destruct a; rewrite !app_nil_r|].
    rewrite IH, (IH (step ([], []) x)). unfold step. destruct (compileRule ParseIP x); cbn [fst snd]; by rewrite <- ?app_assoc. }
  assert (Hs : step ([], []) r = match compileRule ParseIP r with
    | Some m => ([m], [default zeroTR (rTime r)]) | None => ([], []) end) by (unfold step; by destruct (compileRule ParseIP r)).
  rewrite Hs. destruct (compileRule ParseIP r); [by rewrite Hacc|done].
Qed.

Definition firstRule (req : AddrRequest) (mapping : option string) (nowMin : Z) (rules : list Rule) (o : option MatchResult) : Prop :=
  match o with
  | Some res => exists before r after, rules = before ++ r :: after /\ applies req mapping nowMin r /\
      Forall (fun r' => ~ applies req mapping nowMin r') before /\ res = resultOf mapping r
  | None => Forall (fun r => ~ applies req mapping nowMin r) rules
  end.

Lemma matchLoop_first req mapping nowMin rules :
  firstRule req mapping nowMin rules
    (matchLoop ParseIP (fst (buildMatchers ParseIP rules)) (snd (buildMatchers ParseIP rules)) req mapping nowMin).
Proof.
  induction rules as [|r rules IH]; [constructor|].
  assert (Hskip : ~ applies req mapping nowMin r -> forall o, firstRule req mapping nowMin rules o -> firstRule req mapping nowMin (r :: rules) o).
  { intros Hno [res|] Ho; [|by constructor]. destruct Ho as (b & r' & a & -> & Ha & Hb & Hres).
    exists (r :: b), r', a. split_and!; [done|done|by constructor|done]. }
  rewrite buildMatchers_cons. pose proof (compile_applies req mapping nowMin r) as Hc.
  destruct (compileRule ParseIP r) as [m|]; [|by apply Hskip]. destruct Hc as [Hname Happ]. cbn [fst snd matchLoop].
  destruct (Matches (default zeroTR (rTime r)) nowMin) eqn:Em; cbn [negb orb].
  2: { apply Hskip; [|done]. intros Ha. apply Happ in Ha as [? _]. done. }
  destruct (String.eqb_spec (Match ParseIP m req mapping) "") as [E|E].
  - apply Hskip; [|done]. intros Ha. by apply Happ in Ha as [_ ?].
  - assert (Hr : Match ParseIP m req mapping = rProxy r) by tauto.
    exists [], r, rules. split_and!; [done|tauto|constructor|]. unfold resultOf. by rewrite Hr.
Qed.

End First.

(** C35: the compiled matchers decide as the rules read: the match is the first rule, in
    order, of a known type that names a proxy, in its time range, for its mapping, whose
    suffix ends the address or whose network contains it; without such a rule there is no
    match. *)
Theorem match_first_rule ParseIP req mapping nowMin rules :
  (forall s ip, ParseIP s = Some ip -> Forall is_byte ip) ->
  firstRule ParseIP req mapping nowMin rules
    (matchLoop ParseIP (fst (buildMatchers ParseIP rules)) (snd (buildMatchers ParseIP rules)) req mapping nowMin).
Proof. intros Hb. by apply matchLoop_first. Qed.

Definition demoParseIP (s : string) : option (list Z) :=
  if String.eqb s "10.1.2.3" then Some [10; 1; 2; 3] else if String.eqb s "10.0.0.0" then Some [10; 0; 0; 0] else None.
Definition demoRules : list Rule :=
  [mkRule "DOMAIN-SUFFIX" "example.com" "a" "" (Some (mkTR 1320 480)); mkRule "IP-CIDR" "10.0.0.0/8" "b" "" None; mkRule "MATCH" "" "c" "" None].

Lemma match_first_rule_witness :
  firstRule demoParseIP (mkReq "10.1.2.3" 80 "CONNECT" "tcp") None 600 demoRules
    (Some (mkResult "b" "" "")).
Proof.
  pose proof (match_first_rule demoParseIP (mkReq "10.1.2.3" 80 "CONNECT" "tcp") None 600 demoRules) as Hm.
  assert (E : matchLoop demoParseIP (fst (buildMatchers demoParseIP demoRules)) (snd (buildMatchers demoParseIP demoRules))
    (mkReq "10.1.2.3" 80 "CONNECT" "tcp") None 600 = Some (mkResult "b" "" "")) by (vm_compute; reflexivity).
  rewrite E in Hm. apply Hm. intros s ip. unfold demoParseIP.
  destruct (String.eqb s "10.1.2.3"); [intros [= <-]; repeat constructor; lia|].
  destruct (String.eqb s "10.0.0.0"); [intros [= <-]; repeat constructor; lia|done].
Defined.

(** A network that does not parse is not rejected: it becomes a rule for 0.0.0.0. *)
Example invalid_cidr_matches :
  Match (fun s => if String.eqb s "0.0.0.0" then Some [0; 0; 0; 0] else None)
    (NewIpCidMatcher (fun _ => None) "proxy" "" "not-a-network") (mkReq "0.0.0.0" 80 "CONNECT" "tcp") None = "proxy"%string.
Proof. vm_compute. reflexivity. Qed.

(** A suffix need not start at a label. *)
Example suffix_ignores_labels :
  Match (fun _ => None) (DomainSuffixMatcher "proxy" "example.com" "") (mkReq "badexample.com" 80 "CONNECT" "tcp") None = "proxy"%string.
Proof. vm_compute. reflexivity. Qed.

(** ** The check for cyclic groups is exact *)

Lemma tc_split {A} (R : relation A) x z : tc R x z -> exists y, R x y /\ rtc R y z.
Proof. destruct 1 as [x z H|x y z H Ht]; [by exists z; split; [|constructor]|exists y]. split; [done|by apply tc_rtc]. Qed.

Section Cycles.
Variable gs : gmap string ProxyGroup.

(** [a] lists group [b] by hand. *)
Definition edge (a b : string) : Prop := exists g, gs !! a = Some g /\ b ∈ ManualProxies g /\ is_Some (gs !! b).

(** A cycle is reachable from [n]. *)
Definition cyclic (n : string) : Prop := exists m, rtc edge n m /\ tc edge m m.

Definition isGroup (m : string) : bool := bool_decide (is_Some (gs !! m)).

Lemma anyCycle_spec check l :
  (forall m, m ∈ l -> isGroup m = true -> is_Some (check m)) ->
  exists b, anyCycle check isGroup l = Some b /\
    if b then exists m, m ∈ l /\ isGroup m = true /\ check m = Some true
    else forall m, m ∈ l -> isGroup m = true -> check m = Some false.
Proof.
  induction l as [|m l IH]; intros Htot; cbn [anyCycle]; [exists false; split; [done|intros ? Hm; by apply elem_of_nil in Hm]|].
  assert (Htot' : forall x, x ∈ l -> isGroup x = true -> is_Some (check x)) by (intros; apply Htot; [by right|done]).
  destruct (IH Htot') as (b & Hb & Hspec).
  assert (Hrest : (isGroup m = true -> check m = Some false) -> exists b', anyCycle check isGroup l = Some b' /\
    if b' then exists x, x ∈ m :: l /\ isGroup x = true /\ check x = Some true
    else forall x, x ∈ m :: l -> isGroup x = true -> check x = Some false).
  { intros Hm. exists b. split; [done|]. destruct b.
    - destruct Hspec as (x & Hx & ?). exists x. split; [by right|done].
    - intros x Hx. apply elem_of_cons in Hx as [->|Hx]; [done|by apply Hspec]. }
  destruct (isGroup m) eqn:Eg; [|apply Hrest; done]. destruct (Htot m) as [[] Hc]; [left|done| |]; rewrite Hc.
  - exists true. split; [done|]. exists m. split; [left|done].
  - apply Hrest. done.
Qed.

Lemma checkGroupCycle_total fuel : forall visited name, is_Some (gs !! name) -> (size (dom gs ∖ visited) < fuel)%nat ->
  exists b, checkGroupCycle fuel gs visited name = Some b /\
    if b then (exists v, v ∈ visited /\ rtc edge name v) \/ cyclic name
    else forall m, rtc edge name m -> (m ∉ visited) /\ ~ tc edge m m.
Proof.
  induction fuel as [|fuel IH]; intros visited name [g Hg] Hf; [lia|]. cbn [checkGroupCycle].
  destruct (decide (name ∈ visited)) as [Hin|Hin].
  { exists true. split; [done|]. left. exists name. split; [done|constructor]. }
  rewrite Hg. fold isGroup.
  assert (Hf' : (size (dom gs ∖ ({[name]} ∪ visited)) < fuel)%nat).
  { assert (Hsub : dom gs ∖ ({[name]} ∪ visited) ⊂ dom gs ∖ visited).
    { split; [set_solver|]. intros Hs. assert (Hn : name ∈ dom gs ∖ visited) by (apply elem_of_dom_2 in Hg; set_solver).
      apply Hs in Hn. set_solver. }
    apply subset_size in Hsub. lia. }
  assert (Hedge : forall m, m ∈ ManualProxies g -> isGroup m = true -> edge name m).
  { intros m Hm Hgm. exists g. split_and!; [done..|]. by apply bool_decide_eq_true in Hgm. }
  destruct (anyCycle_spec (checkGroupCycle fuel gs ({[name]} ∪ visited)) (ManualProxies g)) as (b & Hb & Hspec).
  { intros m Hm Hgm. apply bool_decide_eq_true in Hgm. destruct (IH ({[name]} ∪ visited) m Hgm Hf') as (b & -> & _). by eexists. }
  exists b. split; [done|]. destruct b.
  - destruct Hspec as (m & Hm & Hgm & Hc). pose proof (Hedge m Hm Hgm) as He. apply bool_decide_eq_true in Hgm.
    destruct (IH _ m Hgm Hf') as (b & Hb' & Hi). rewrite Hc in Hb'. injection Hb' as <-.
    destruct Hi as [(v & Hv & Hr)|(c & Hr & Ht)].
    + apply elem_of_union in Hv as [Hv%elem_of_singleton|Hv].
      * subst v. right. exists name. split; [constructor|]. eapply tc_rtc_r; [by apply tc_once|done].
      * left. exists v. split; [done|]. by eapply rtc_l.
    + right. exists c. split; [by eapply rtc_l|done].
  - assert (Hchild : forall m, edge name m -> forall x, rtc edge m x -> (x ∉ {[name]} ∪ visited) /\ ~ tc edge x x).
    { intros m (g' & Hg' & Hm & Hgm). rewrite Hg in Hg'. injection Hg' as <-.
      specialize (Hspec m Hm ltac:(by apply bool_decide_eq_true)).
      destruct (IH _ m Hgm Hf') as (b & Hb' & Hi). rewrite Hspec in Hb'. injection Hb' as <-. exact Hi. }
    intros m Hr. apply rtc_inv in Hr as [<-|(c & Hc & Hr)].
    + split; [done|]. intros Ht. apply tc_split in Ht as (c & Hc & Hr). apply (Hchild c Hc) in Hr as [Hr _]. set_solver.
    + destruct (Hchild c Hc m Hr) as [? ?]. split; [set_solver|done].
Qed.

End Cycles.

(** The check of a configuration for cyclic groups is exact: with a group per fuel it
    ends on every configuration, and it reports a cycle exactly when one can be reached
    from the group checked by members listed by hand. *)
Theorem checkGroupCycle_exact gs fuel name :
  is_Some (gs !! name) -> (size gs < fuel)%nat ->
  exists b, checkGroupCycle fuel gs ∅ name = Some b /\ (b = true <-> cyclic gs name).
Proof.
  intros Hg Hf. destruct (checkGroupCycle_total gs fuel ∅ name Hg) as (b & Hb & Hspec).
  { rewrite difference_empty_L, size_dom. done. }
  exists b. split; [done|]. destruct b.
  - split; [|done]. intros _. destruct Hspec as [(v & Hv & _)|?]; [set_solver|done].
  - split; [done|]. intros (m & Hr & Ht). by apply Hspec in Hr as [_ ?].
Qed.

Lemma checkGroupCycle_exact_witness :
  let gs := {["a"%string := demoGroup "a" GroupSelect ["b"]%string; "b"%string := demoGroup "b" GroupSelect ["c"; "a"]%string]} in
  is_Some (gs !! "a"%string) /\ checkGroupCycle 3 gs ∅ "a" = Some true /\ cyclic gs "a".
Proof.
  cbv zeta. match goal with |- is_Some (?m !! _) /\ _ => set (gs := m) end.
  assert (Hg : is_Some (gs !! "a"%string)) by (by eexists).
  destruct (checkGroupCycle_exact gs 3 "a" Hg) as (b & Hb & Hc); [vm_compute; lia|].
  assert (E : checkGroupCycle 3 gs ∅ "a" = Some true) by (vm_compute; reflexivity).
  split_and!; [exact Hg|exact E|]. apply Hc. congruence.
Defined.

(** ** Chains of via proxies *)

Section Chains.
Variable Compile : string -> option (string -> bool).
Context {P : Type} `{Countable P}.
Variable via : P -> string.
Variable w : World P.
(** No proxy goes via a group, so the chain is fixed. *)
Hypothesis no_groups : forall p, proxies w !! via p = None -> groups w !! via p = None.

Definition viaOf (p : P) : option P := proxies w !! via p.

(** The chain of via proxies from [p] ends in a direct connection after [l]. *)
Inductive viaChain : P -> list P -> Prop :=
| viaEnd p : viaOf p = None -> viaChain p []
| viaStep p n l : viaOf p = Some n -> viaChain n l -> viaChain p (n :: l).

(** The Next fields written along a chain. *)
Fixpoint wire (nexts : Nexts (P := P)) (p : P) (l : list P) : Nexts (P := P) :=
  match l with
  | [] => <[p := None]> nexts
  | n :: l' => wire (<[p := Some n]> nexts) n l'
  end.

Definition viaStepOf (p n : P) : Prop := viaOf p = Some n.

Lemma nextOf_via gfuel p : nextOf Compile via gfuel w p = Returns (w, viaOf p).
Proof.
  unfold nextOf, viaOf. destruct (proxies w !! via p) eqn:E; [done|]. by rewrite no_groups.
Qed.

Lemma viaChain_det p l1 : viaChain p l1 -> forall l2, viaChain p l2 -> l1 = l2.
Proof.
  induction 1 as [p E|p n l E _ IH]; intros l2; destruct 1 as [q E2|q n2 l2' E2 Hc]; try congruence.
  assert (n2 = n) as -> by congruence. f_equal. by apply IH.
Qed.

Lemma viaChain_reach p q : rtc viaStepOf p q -> forall l, viaChain p l -> exists l', viaChain q l' /\ (length l' <= length l)%nat.
Proof.
  induction 1 as [p|p n q E _ IH]; intros l Hl; [by exists l|]. destruct Hl as [p E2|p n2 l E2 Hc]; [unfold viaStepOf in E; congruence|].
  assert (n2 = n) as -> by (unfold viaStepOf in E; congruence). destruct (IH l Hc) as (l' & ? & ?). exists l'. cbn. split; [done|lia].
Qed.

(** On a cycle the chain has no end. *)
Lemma viaChain_cycle p : tc viaStepOf p p -> forall l, ~ viaChain p l.
Proof.
  intros Ht l Hl. apply tc_split in Ht as (n & E & Hr). destruct Hl as [p E2|p n2 l E2 Hc]; [unfold viaStepOf in E; congruence|].
  assert (n2 = n) as -> by (unfold viaStepOf in E; congruence). destruct (viaChain_reach _ _ Hr l Hc) as (l' & Hl' & Hlen).
  pose proof (viaChain_det _ _ Hl' _ (viaStep _ _ _ E2 Hc)) as ->. cbn in Hlen. lia.
Qed.

Definition pointers : gset P := list_to_set (map snd (map_to_list (proxies w))).

Lemma pointers_size : (size pointers <= size (proxies w))%nat.
Proof.
  unfold pointers. rewrite <- length_map_to_list, <- (length_map snd). generalize (map snd (map_to_list (proxies w))).
  induction l as [|x l IH]; [done|]. rewrite list_to_set_cons, size_union_alt, size_singleton. cbn [length].
  assert (Hs : (list_to_set l : gset P) ∖ {[x]} ⊆ list_to_set l) by set_solver. apply subseteq_size in Hs. lia.
Qed.

Lemma setNext_walk gfuel fuel : forall nexts visited p,
  visited ⊆ pointers -> (size (pointers ∖ visited) < fuel)%nat -> (forall v, v ∈ visited -> rtc viaStepOf v p) ->
  (exists l, viaChain p l /\ setNext Compile via fuel gfuel w nexts visited p = Returns (w, wire nexts p l, false)) \/
  ((forall l, ~ viaChain p l) /\ exists nexts', setNext Compile via fuel gfuel w nexts visited p = Returns (w, nexts', true)).
Proof.
  induction fuel as [|fuel IH]; intros nexts visited p Hsub Hf Hv; [lia|]. cbn [setNext]. rewrite nextOf_via.
  destruct (viaOf p) as [n|] eqn:E; [|left; exists []; split; [by constructor|done]].
  assert (Hn : n ∈ pointers).
  { unfold pointers. apply elem_of_list_to_set, list_elem_of_fmap. exists (via p, n). split; [done|]. by apply elem_of_map_to_list. }
  destruct (decide (n ∈ visited)) as [Hin|Hin].
  { right. split; [|by eexists]. intros l Hl. destruct Hl as [p E2|p n2 l E2 Hc]; [congruence|].
    assert (n2 = n) as -> by congruence. apply (viaChain_cycle n) in Hc; [done|].
    eapply tc_rtc_l; [by apply Hv|]. by apply tc_once. }
  destruct (IH (<[p := Some n]> nexts) ({[n]} ∪ visited) n) as [(l & Hl & ->)|(Hno & nexts' & ->)].
  - set_solver.
  - assert (Hss : pointers ∖ ({[n]} ∪ visited) ⊂ pointers ∖ visited).
    { split; [set_solver|]. intros Hs. assert (Hx : n ∈ pointers ∖ visited) by set_solver. apply Hs in Hx. set_solver. }
    apply subset_size in Hss. lia.
  - intros v Hvv. apply elem_of_union in Hvv as [->%elem_of_singleton|Hvv]; [constructor|].
    eapply rtc_r; [by apply Hv|done].
  - left. exists (n :: l). split; [by econstructor|done].
  - right. split; [|by eexists]. intros l Hl. destruct Hl as [p E2|p n2 l E2 Hc]; [congruence|].
    assert (n2 = n) as -> by congruence. by eapply Hno.
Qed.

End Chains.

(** Wiring a via chain terminates and is exact: with no via naming a group, the walk
    from a proxy reports a cycle exactly when its chain has no end, and otherwise writes
    the Next fields of the chain, the last one direct. *)
Theorem setNext_exact Compile {P} `{Countable P} (via : P -> string) (w : World P) fuel gfuel nexts p :
  (forall q, proxies w !! via q = None -> groups w !! via q = None) -> (size (proxies w) < fuel)%nat ->
  (exists l, viaChain via w p l /\ setNext Compile via fuel gfuel w nexts ∅ p = Returns (w, wire nexts p l, false)) \/
  ((forall l, ~ viaChain via w p l) /\ exists nexts', setNext Compile via fuel gfuel w nexts ∅ p = Returns (w, nexts', true)).
Proof.
  intros Hg Hf. apply setNext_walk; [done|set_solver| |set_solver].
  pose proof (pointers_size via w Hg). rewrite difference_empty_L. lia.
Qed.

Section DemoChains.
Open Scope string_scope.
(** Proxies 1 and 2, [via] giving each the other or nothing. *)
Definition demoProxies : World nat := mkWorld {["a" := 1%nat; "b" := 2%nat]} ∅ ∅.
Definition viaChained (p : nat) : string := if Nat.eqb p 1 then "b" else "".
Definition viaEachOther (p : nat) : string := if Nat.eqb p 1 then "b" else "a".

Lemma setNext_exact_witness : exists l, viaChain viaChained demoProxies 1%nat l /\
  setNext (fun _ => None) viaChained 3 0 demoProxies ∅ ∅ 1%nat = Returns (demoProxies, wire ∅ 1%nat l, false).
Proof.
  destruct (setNext_exact (fun _ => None) viaChained demoProxies 3 0 ∅ 1%nat) as [Hok|[Hno _]].
  - intros q _. reflexivity.
  - vm_compute. lia.
  - exact Hok.
  - exfalso. apply (Hno [2%nat]). eapply viaStep; [reflexivity|]. constructor. reflexivity.
Defined.

(** A cycle is reported, yet its Next fields stay written; rewireNextChains only logs it. *)
Example rewire_leaves_cycle :
  match rewireNextChains (fun _ => None) viaEachOther 3 0 demoProxies ∅ [1%nat; 2%nat] with
  | Returns (_, nexts) => nexts !! 1%nat = Some (Some 2%nat) /\ nexts !! 2%nat = Some (Some 1%nat)
  | _ => False
  end.
Proof. vm_compute. done. Qed.
End DemoChains.

(** ** The rate limiter paces *)

(** The requests [(bytes, now)] in order: the state after them and their send times. *)
Fixpoint scheduleAll (r : RateLimiter) (l : list (Z * Z)) : RateLimiter * list Z :=
  match l with
  | [] => (r, [])
  | (bytes, now) :: l' =>
      let '(r, delay) := Schedule r bytes now in
      let '(r, sends) := scheduleAll r l' in
      (r, now + delay :: sends)
  end.

Definition totalBytes (l : list (Z * Z)) : Z := foldr (fun x t => fst x + t) 0 l.

(** One request: sent at once or when the earlier ones are through, and the time it
    takes is booked. *)
Lemma Schedule_exact r bytes now : 0 < bytesPerSecond r -> 0 <= bytes -> 0 <= now -> 0 <= nextSendTimeNs r ->
  Z.max now (nextSendTimeNs r) + bytes * 1000000000 < 2 ^ 63 ->
  let send := Z.max now (nextSendTimeNs r) in
  Schedule r bytes now = (mkRL (bytesPerSecond r) (send + bytes * 1000000000 / bytesPerSecond r), send - now).
Proof.
  intros Hr Hb Hn Hs Hov send. unfold Schedule. destruct (Z.leb_spec (bytesPerSecond r) 0); [lia|].
  assert (Es : (if now <? nextSendTimeNs r then nextSendTimeNs r else now) = send)
    by (subst send; destruct (Z.ltb_spec now (nextSendTimeNs r)); lia).
  rewrite Es. rewrite (swrap_small 64 (bytes * 1000000000)) by lia. rewrite Z.quot_div_nonneg by lia.
  assert (Hd : 0 <= bytes * 1000000000 / bytesPerSecond r <= bytes * 1000000000).
  { split; [apply Z.div_pos; lia|]. apply Z.div_le_upper_bound; nia. }
  rewrite !swrap_small by lia. destruct (Z.ltb_spec (send - now) 0); [lia|done].
Qed.

(** The rate limiter paces: no request is sent before it is made or before the state's
    next send time, send times never go back, and the bytes scheduled never exceed what
    the rate allows from the first send to the time booked for the next, up to one
    nanosecond's worth per request.  [M] bounds the clock; nothing wraps. *)
Theorem rateLimiter_paces l : forall r M,
  0 < bytesPerSecond r -> 0 <= nextSendTimeNs r <= M -> Forall (fun x => 0 <= fst x /\ 0 <= snd x <= M) l ->
  M + totalBytes l * 1000000000 < 2 ^ 63 ->
  let '(r', sends) := scheduleAll r l in
  bytesPerSecond r' = bytesPerSecond r /\ Sorted Z.le (nextSendTimeNs r :: sends ++ [nextSendTimeNs r']) /\
  Forall2 (fun x s => snd x <= s) l sends /\
  forall s rest, sends = s :: rest -> totalBytes l * 1000000000 <= bytesPerSecond r * (nextSendTimeNs r' - s + len l).
Proof.
  induction l as [|[b t] l IH]; intros r M Hr HN Hl Hov; cbn [scheduleAll].
  { split_and!; [done|repeat constructor; lia|constructor|done]. }
  apply Forall_cons_iff in Hl as [[Hb Ht] Hl]. cbn [fst snd] in Hb, Ht. cbn [totalBytes foldr fst] in Hov. fold (totalBytes l) in Hov.
  assert (Htot : 0 <= totalBytes l).
  { clear -Hl. induction Hl as [|x l [Hx _] _ IH]; [done|]. unfold totalBytes in *. cbn. lia. }
  rewrite (Schedule_exact r b t) by lia. set (send := Z.max t (nextSendTimeNs r)). set (dur := b * 1000000000 / bytesPerSecond r).
  assert (Hdur : 0 <= dur <= b * 1000000000 /\ b * 1000000000 <= bytesPerSecond r * (dur + 1)).
  { subst dur. pose proof (Z.div_mod (b * 1000000000) (bytesPerSecond r) ltac:(lia)).
    pose proof (Z.mod_pos_bound (b * 1000000000) (bytesPerSecond r) Hr).
    split; [split; [apply Z.div_pos; lia|apply Z.div_le_upper_bound; nia]|lia]. }
  specialize (IH (mkRL (bytesPerSecond r) (send + dur)) (M + b * 1000000000)). cbn [bytesPerSecond nextSendTimeNs] in IH.
  destruct (scheduleAll (mkRL (bytesPerSecond r) (send + dur)) l) as [r' sends].
  destruct IH as (Hrate & Hsort & Hall & Htotal); [done|lia| |lia|].
  { eapply List.Forall_impl; [|exact Hl]. cbn. intros x Hx. lia. }
  replace (t + (send - t)) with send by lia.
  assert (Hhd : HdRel Z.le (send + dur) (sends ++ [nextSendTimeNs r'])) by (by inversion Hsort).
  split_and!; [done| |constructor; [cbn; lia|done]|].
  - rewrite <- app_comm_cons. constructor; [|constructor; lia]. constructor; [by inversion Hsort|].
    inversion Hhd; subst; constructor; lia.
  - intros s rest [= <- <-]. rewrite len_cons. cbn [totalBytes foldr fst]. fold (totalBytes l).
    destruct sends as [|s2 sends].
    + assert (El : l = []) by (by inversion Hall). rewrite El. change (totalBytes []) with 0. change (len (@nil (Z * Z))) with 0.
      assert (Hle : send + dur <= nextSendTimeNs r') by (by inversion Hhd).
      apply (Z.le_trans _ (bytesPerSecond r * (dur + 1))); [lia|]. apply Z.mul_le_mono_nonneg_l; lia.
    + specialize (Htotal s2 sends eq_refl). assert (Hle : send + dur <= s2) by (by inversion Hhd).
      apply (Z.le_trans _ (bytesPerSecond r * (dur + 1) + bytesPerSecond r * (nextSendTimeNs r' - s2 + len l))); [lia|].
      rewrite <- Z.mul_add_distr_l. apply Z.mul_le_mono_nonneg_l; lia.
Qed.

Lemma rateLimiter_paces_witness :
  let r := NewRateLimiter 1000 5 in let l := [(1500, 10); (500, 20); (0, 3000000000)] in
  scheduleAll r l = (mkRL 1000 3000000000, [10; 1500000010; 3000000000]) /\
  Sorted Z.le (5 :: [10; 1500000010; 3000000000] ++ [3000000000]).
Proof.
  cbv zeta. pose proof (rateLimiter_paces [(1500, 10); (500, 20); (0, 3000000000)] (NewRateLimiter 1000 5) 3000000000) as Hp.
  assert (E : scheduleAll (NewRateLimiter 1000 5) [(1500, 10); (500, 20); (0, 3000000000)] =
    (mkRL 1000 3000000000, [10; 1500000010; 3000000000])) by (vm_compute; reflexivity).
  rewrite E in Hp. split; [exact E|]. apply Hp.
  - vm_compute. reflexivity.
  - split; vm_compute; discriminate.
  - repeat constructor; vm_compute; discriminate.
  - vm_compute. reflexivity.
Defined.

(** ** Loopback *)

(** A request for loc.<node>.phn goes direct to the loopback address at its own port,
    whatever the rules, resolvers and groups say. *)
Lemma loopback_direct ParseIP Compile {P} (m : RuleMatcher (P := P)) fuel req mappingName nowMin :
  rmNodeID m <> ""%string -> EqualFold (DstAddr req) (loopbackOf (rmNodeID m)) = true ->
  ResolveMatch ParseIP Compile fuel m req mappingName nowMin =
  Returns (rmWorld m, mkReq "127.0.0.1" (DstPort req) (CmdType req) (Proto req), Direct, None).
Proof.
  intros Hn He. unfold ResolveMatch. rewrite He. by destruct (String.eqb_spec (rmNodeID m) "").
Qed.

(** Adding a rule and removing its proxy's rules gives back the rules of other proxies. *)
Lemma AddRule_RemoveRule ParseIP {P} (m : RuleMatcher (P := P)) r :
  Forall (fun r' => rProxy r' <> rProxy r) (rmRules m) ->
  RemoveRule ParseIP (AddRule ParseIP m r) (rProxy r) = setRules ParseIP m (rmRules m).
Proof.
  intros Hall. unfold RemoveRule, AddRule, setRules. cbn [rmRules List.filter rmWorld rmMappings rmResolvers rmNodeID].
  rewrite String.eqb_refl. cbn [negb]. assert (E : List.filter (fun r' => negb (String.eqb (rProxy r') (rProxy r))) (rmRules m) = rmRules m).
  { induction Hall as [|r' l Hr' _ IH]; [done|]. cbn. destruct (String.eqb_spec (rProxy r') (rProxy r)); [done|]. cbn. by rewrite IH. }
  by rewrite E.
Qed.
