(* ===== verification/RuleWatch.v ===== *)
(** RuleWatch: how the rule matcher of src/db/matcher.go is built from the database and
    kept in step with it.  GetMatcher builds it once and then subscribes onConfigChange,
    which changes the matcher in place.  A write commits first and notifies afterwards,
    under no lock, so that events come in any order and find the database as it is then.

    A proxy is a pointer into a heap, since the Next fields of other proxies point at it
    and the watcher installs fresh copies.  The order in which Go ranges over a map is an
    argument, so that theorems hold for every order.  The tables of the database are typed
    maps; decoding JSON does not fail. *)

From Stdlib Require Import ZArith Lia String Ascii.
From stdpp Require Import base list numbers strings gmap sets.
From S2P Require Import Prelude GoStrings IPPacket Groups ConfigStore Rules.
Open Scope Z_scope.

(** ** Data *)

(** The fields that naming, chaining and pacing read; those for dialing play no part here. *)
Record Proxy := mkProxy {
  pxName : string; pxEnabled : option bool; pxType : string; pxVia : string; pxReverse : string;
  Up : Z; Down : Z; UpBps : Z; DownBps : Z;
  UpRateLimiter : option RateLimiter; DownRateLimiter : option RateLimiter }.

Definition proxyEnabled (x : Proxy) : bool := default true (pxEnabled x).
Definition SingletonProxy (typ : string) : Proxy := mkProxy "" None typ "" "" 0 0 0 0 None None.
Definition ProxyDIRECT : string := "DIRECT".
Definition ProxyREJECT : string := "REJECT".

(** What the database keeps of a proxy and of a group: runtime fields are not encoded. *)
Definition storeProxy (x : Proxy) : Proxy :=
  mkProxy (pxName x) (pxEnabled x) (pxType x) (pxVia x) (pxReverse x) (Up x) (Down x) (UpBps x) (DownBps x) None None.
Definition storeGroup (g : ProxyGroup) : ProxyGroup :=
  mkGroup (gName g) (gType g) (ManualProxies g) (Subscription g) (SubscriptionFilter g) (ActiveMember g) 0 None.

(** The tables.  A node pool may be stored as null. *)
Record Database := mkDB {
  dbProxies : gmap string Proxy; dbGroups : gmap string (ProxyGroup * option bool); dbSubs : gmap string (option bool);
  dbNodes : gmap string (option (gmap string Proxy)); dbMappings : gset string; dbResolvers : gmap string Resolver;
  dbRules : RuleDB; dbNodeID : string }.

(** GetSubscriptionNodes, without the distinction of an absent and a null pool. *)
Definition GetSubscriptionNodes (db : Database) (name : string) : option (gmap string Proxy) :=
  match dbNodes db !! name with Some (Some nodes) => Some nodes | _ => None end.

(** The values of a bucket in the order of their keys. *)
Definition ForEach {A} (m : gmap string A) : list A := omap (fun k => m !! k) (sortStrings (elements (dom m))).
Definition ListResolvers (db : Database) : list Resolver := ForEach (dbResolvers db).

(** The matcher, and the proxies it points to with their Next fields. *)
Record Live := mkLive { rm : RuleMatcher (P := positive); heap : gmap positive Proxy; nexts : Nexts (P := positive) }.

Definition viaIn (h : gmap positive Proxy) (p : positive) : string := match h !! p with Some x => pxVia x | None => ""%string end.

(** A new object on the heap. *)
Definition alloc (x : Proxy) (h : gmap positive Proxy) : gmap positive Proxy * positive :=
  let p := fresh (dom h) in (<[p := x]> h, p).
Fixpoint allocNamed (l : list (string * Proxy)) (h : gmap positive Proxy) (m : gmap string positive)
  : gmap positive Proxy * gmap string positive :=
  match l with
  | [] => (h, m)
  | (k, x) :: l' => let '(h, p) := alloc x h in allocNamed l' h (<[k := p]> m)
  end.

(** The pool of a subscription as loaded: empty if there is none. *)
Definition loadPool (db : Database) (name : string) (h : gmap positive Proxy) : gmap positive Proxy * gmap string positive :=
  match GetSubscriptionNodes db name with
  | Some nodes => allocNamed (map_to_list nodes) h ∅
  | None => (h, ∅)
  end.

(** ** The watcher *)

Inductive Bucket := BucketProxies | BucketProxyGroups | BucketSubscriptions | BucketSubscriptionNodes | BucketMappings
  | BucketResolvers | BucketRules | BucketOther.
Inductive OpType := OpPut | OpDel.
Record ChangeEvent := mkEvent { evBucket : Bucket; evKey : string; evOp : OpType }.

Section Watch.
Variable ParseIP : string -> option (list Z).
Variable Compile : string -> option (string -> bool).

Definition setWorld (m : RuleMatcher (P := positive)) (w : World positive) : RuleMatcher :=
  mkRM w (rmMappings m) (rmRules m) (rmResolvers m) (rmNodeID m) (rmMatchers m).
Definition setProxies (w : World positive) (ps : gmap string positive) : World positive := mkWorld ps (groups w) (subscriptions w).
Definition setGroups (w : World positive) (gs : gmap string ProxyGroup) : World positive := mkWorld (proxies w) gs (subscriptions w).
Definition setSubs (w : World positive) (ss : gmap string (gmap string positive)) : World positive := mkWorld (proxies w) (groups w) ss.
Definition setMappings (m : RuleMatcher (P := positive)) (s : gset string) : RuleMatcher :=
  mkRM (rmWorld m) s (rmRules m) (rmResolvers m) (rmNodeID m) (rmMatchers m).
Definition setResolvers (m : RuleMatcher (P := positive)) (l : list Resolver) : RuleMatcher :=
  mkRM (rmWorld m) (rmMappings m) (rmRules m) l (rmNodeID m) (rmMatchers m).

(** The dynamic changes of the control server. *)
Definition AddProxy (m : RuleMatcher (P := positive)) (name : string) (p : positive) : RuleMatcher :=
  setWorld m (setProxies (rmWorld m) (<[name := p]> (proxies (rmWorld m)))).
Definition RemoveProxy (m : RuleMatcher (P := positive)) (name : string) : RuleMatcher :=
  setWorld m (setProxies (rmWorld m) (delete name (proxies (rmWorld m)))).
Definition AddMapping (m : RuleMatcher (P := positive)) (name : string) : RuleMatcher := setMappings m ({[name]} ∪ rmMappings m).
Definition RemoveMapping (m : RuleMatcher (P := positive)) (name : string) : RuleMatcher := setMappings m (rmMappings m ∖ {[name]}).

Definition GetGroup (m : RuleMatcher (P := positive)) (name : string) : option ProxyGroup := groups (rmWorld m) !! name.
Definition LookupProxy (m : RuleMatcher (P := positive)) (name : string) : option positive := proxies (rmWorld m) !! name.

(** Every proxy's chain anew, in the order given. *)
Definition rewire (order : list positive) (w : World positive) (h : gmap positive Proxy) (m : RuleMatcher (P := positive))
    (ns : Nexts (P := positive)) : outcome Live :=
  match rewireNextChains Compile (viaIn h) (S (S (size h))) (S (size (groups w))) w ns order with
  | Returns (w, ns) => Returns (mkLive (setWorld m w) h ns)
  | Panics => Panics
  | OutOfFuel => OutOfFuel
  end.

(** The handler of an event.  It reads the database when it runs, not when the event was
    made: [db0] is what it finds when it reads a subscription, [db] when it reads that
    subscription's pool, or when it makes the one read that other events need. *)
Definition onConfigChange (order : list positive) (db0 db : Database) (ev : ChangeEvent) (s : Live) : outcome Live :=
  let m := rm s in
  let w := rmWorld m in
  let key := evKey ev in
  match evBucket ev, evOp ev with
  | BucketProxies, OpDel => rewire order (setProxies w (delete key (proxies w))) (heap s) m (nexts s)
  | BucketProxies, OpPut =>
      match dbProxies db !! key with
      | None => Returns s
      | Some x =>
          let '(h, p) := alloc x (heap s) in
          rewire order (setProxies w (<[key := p]> (proxies w))) h m (nexts s)
      end
  | BucketProxyGroups, OpDel => rewire order (setGroups w (delete key (groups w))) (heap s) m (nexts s)
  | BucketProxyGroups, OpPut =>
      match dbGroups db !! key with
      | None => Returns s
      | Some (g, _) => rewire order (setGroups w (<[key := g]> (groups w))) (heap s) m (nexts s)
      end
  | BucketSubscriptions, OpDel => Returns (mkLive (setWorld m (setSubs w (delete key (subscriptions w)))) (heap s) (nexts s))
  | BucketSubscriptions, OpPut =>
      match dbSubs db0 !! key with
      | None => Returns s
      | Some _ =>
          let '(h, pool) := loadPool db key (heap s) in
          Returns (mkLive (setWorld m (setSubs w (<[key := pool]> (subscriptions w)))) h (nexts s))
      end
  | BucketSubscriptionNodes, _ =>
      match subscriptions w !! key, GetSubscriptionNodes db key with
      | Some _, Some nodes =>
          let '(h, pool) := allocNamed (map_to_list nodes) (heap s) ∅ in
          Returns (mkLive (setWorld m (setSubs w (<[key := pool]> (subscriptions w)))) h (nexts s))
      | _, _ => Returns s
      end
  | BucketMappings, OpDel => Returns (mkLive (RemoveMapping m key) (heap s) (nexts s))
  | BucketMappings, OpPut =>
      if decide (key ∈ dbMappings db) then Returns (mkLive (AddMapping m key) (heap s) (nexts s)) else Returns s
  | BucketResolvers, _ =>
      match prepareResolvers (rmNodeID m) (ListResolvers db) with
      | inl rs => Returns (mkLive (setResolvers m rs) (heap s) (nexts s))
      | inr _ => Returns s
      end
  | BucketRules, _ =>
      match listRules (dbRules db) with
      | inr _ => Returns s
      | inl texts =>
          match parseRules texts with
          | Some rules => Returns (mkLive (setRules ParseIP m rules) (heap s) (nexts s))
          | None => OutOfFuel
          end
      end
  | BucketOther, _ => Returns s
  end.

(** ** Building from the database *)

Inductive BuildError := EResolver (e : ResolverError) | EGroupType (name : string) | EGroupCycle (name : string)
  | EUnknownSubscription (name : string) | EProxyCycle | ERules (e : StoreError).

(** Type and rate limiters of an enabled proxy; [now] is the clock. *)
Definition initProxy (now : Z) (x : Proxy) : Proxy :=
  if negb (proxyEnabled x) then x
  else
    let up := if (0 <? Up x) && (UpBps x =? 0) then swrap 64 (Up x * 125000) else UpBps x in
    let down := if (0 <? Down x) && (DownBps x =? 0) then swrap 64 (Down x * 125000) else DownBps x in
    mkProxy (pxName x) (pxEnabled x) (ToLower (pxType x)) (pxVia x) (pxReverse x) (Up x) (Down x) up down
      (if 0 <? up then Some (NewRateLimiter up now) else UpRateLimiter x)
      (if 0 <? down then Some (NewRateLimiter down now) else DownRateLimiter x).

Definition initProxies (now : Z) (ps : gmap string positive) (h : gmap positive Proxy) : gmap positive Proxy :=
  foldr (fun kp h => alter (initProxy now) (snd kp) h) h (map_to_list ps).

(** The loops over enabled groups: each is initialised, its cycles and its subscription
    are checked.  Which error comes first depends on the order of the map. *)
Fixpoint initGroups (l : list (ProxyGroup * option bool)) (gs : gmap string ProxyGroup) : gmap string ProxyGroup + BuildError :=
  match l with
  | [] => inl gs
  | (g, en) :: l' =>
      if default true en then
        match Init g with
        | None => inr (EGroupType (gName g))
        | Some g' => initGroups l' (<[gName g := g']> gs)
        end
      else initGroups l' gs
  end.

Fixpoint checkGroups (l : list (ProxyGroup * option bool)) (gs : gmap string ProxyGroup) : outcome (option BuildError) :=
  match l with
  | [] => Returns None
  | (g, en) :: l' =>
      if default true en then
        match checkGroupCycle (S (size gs)) gs ∅ (gName g) with
        | None => OutOfFuel
        | Some true => Returns (Some (EGroupCycle (gName g)))
        | Some false => checkGroups l' gs
        end
      else checkGroups l' gs
  end.

Definition checkSubscriptions (l : list (ProxyGroup * option bool)) (subs : gmap string (gmap string positive)) : option BuildError :=
  match List.find (fun ge => default true (snd ge) && negb (String.eqb (Subscription (fst ge)) "") &&
                             negb (bool_decide (is_Some (subs !! Subscription (fst ge))))) l with
  | Some (g, _) => Some (EUnknownSubscription (gName g))
  | None => None
  end.

(** The chains at start-up: the first cycle is an error. *)
Fixpoint wireAll (via : positive -> string) (fuel gfuel : nat) (w : World positive) (ns : Nexts (P := positive))
    (order : list positive) : outcome (World positive * Nexts (P := positive) * bool) :=
  match order with
  | [] => Returns (w, ns, false)
  | p :: order' =>
      match setNext Compile via fuel gfuel w ns ∅ p with
      | Returns (w, ns, false) => wireAll via fuel gfuel w ns order'
      | r => r
      end
  end.

Fixpoint loadSubs (db : Database) (l : list string) (h : gmap positive Proxy) (ss : gmap string (gmap string positive))
  : gmap positive Proxy * gmap string (gmap string positive) :=
  match l with
  | [] => (h, ss)
  | name :: l' => let '(h, pool) := loadPool db name h in loadSubs db l' h (<[name := pool]> ss)
  end.

(** [order] is the order of the chains, a function of the proxies loaded. *)
Definition BuildRuleMatcher (now : Z) (order : gmap string positive -> list positive) (db : Database) : outcome (Live + BuildError) :=
  let '(h, ps) := allocNamed (map (fun x => (pxName x, x)) (ForEach (dbProxies db))) ∅ ∅ in
  let storedGroups := ForEach (dbGroups db) in
  let gs := foldl (fun m ge => <[gName (fst ge) := fst ge]> m) ∅ storedGroups in
  let '(h, ss) := loadSubs db (sortStrings (elements (dom (dbSubs db)))) h ∅ in
  let '(h, d) := alloc (SingletonProxy ProxyDIRECT) h in
  let '(h, r) := alloc (SingletonProxy ProxyREJECT) h in
  let ps := <[ProxyREJECT := r]> (<[ProxyDIRECT := d]> ps) in
  let h := initProxies now ps h in
  match View listRulesTx (dbRules db), prepareResolvers (dbNodeID db) (ListResolvers db), initGroups storedGroups gs with
  | inr e, _, _ => Returns (inr (ERules e))
  | inl _, inr e, _ => Returns (inr (EResolver e))
  | inl _, inl _, inr e => Returns (inr e)
  | inl texts, inl rs, inl gs =>
      match parseRules texts, checkGroups storedGroups gs with
      | None, _ | _, OutOfFuel => OutOfFuel
      | _, Panics => Panics
      | _, Returns (Some e) => Returns (inr e)
      | Some rules, Returns None =>
          match checkSubscriptions storedGroups ss with
          | Some e => Returns (inr e)
          | None =>
              match wireAll (viaIn h) (S (S (size h))) (S (size gs)) (mkWorld ps gs ss) ∅ (order ps) with
              | Panics => Panics
              | OutOfFuel => OutOfFuel
              | Returns (_, _, true) => Returns (inr EProxyCycle)
              | Returns (w, ns, false) =>
                  Returns (inl (mkLive (mkRM w ({["TUN"%string]} ∪ dbMappings db) rules rs (dbNodeID db)
                                         (buildMatchers ParseIP rules)) h ns))
              end
          end
      end
  end.

(** ** Writes *)

Inductive DBWrite :=
| PutProxy (x : Proxy) | DeleteProxy (name : string)
| PutProxyGroup (g : ProxyGroup) (en : option bool) | DeleteProxyGroup (name : string)
| PutSubscription (name : string) (en : option bool) | DeleteSubscription (name : string)
| PutSubscriptionNodes (name : string) (nodes : option (gmap string Proxy)) | DeleteSubscriptionNodes (name : string)
| PutMapping (name : string) | DeleteMapping (name : string)
| PutResolver (r : Resolver) | DeleteResolver (name : string)
| EditRules (op : RuleOp)
| PutMeshConfig (nodeID : string).

Definition keyOf (wr : DBWrite) : string :=
  match wr with
  | PutProxy x => pxName x | PutProxyGroup g _ => gName g | PutResolver r => rsName r
  | DeleteProxy k | DeleteProxyGroup k | PutSubscription k _ | DeleteSubscription k | PutSubscriptionNodes k _
  | DeleteSubscriptionNodes k | PutMapping k | DeleteMapping k | DeleteResolver k => k
  | EditRules _ => "__rebuilt__"%string
  | PutMeshConfig _ => "mesh"%string
  end.

Definition bucketOf (wr : DBWrite) : Bucket :=
  match wr with
  | PutProxy _ | DeleteProxy _ => BucketProxies
  | PutProxyGroup _ _ | DeleteProxyGroup _ => BucketProxyGroups
  | PutSubscription _ _ | DeleteSubscription _ => BucketSubscriptions
  | PutSubscriptionNodes _ _ | DeleteSubscriptionNodes _ => BucketSubscriptionNodes
  | PutMapping _ | DeleteMapping _ => BucketMappings
  | PutResolver _ | DeleteResolver _ => BucketResolvers
  | EditRules _ => BucketRules
  | PutMeshConfig _ => BucketOther
  end.

Definition opOf (wr : DBWrite) : OpType :=
  match wr with
  | DeleteProxy _ | DeleteProxyGroup _ | DeleteSubscription _ | DeleteSubscriptionNodes _ | DeleteMapping _ | DeleteResolver _ => OpDel
  | _ => OpPut
  end.

(** The tables after a write that succeeds. *)
Definition written (wr : DBWrite) (db : Database) : Database :=
  match db with
  | mkDB px gr su no mp rs ru nid =>
      match wr with
      | PutProxy x => mkDB (<[pxName x := storeProxy x]> px) gr su no mp rs ru nid
      | DeleteProxy k => mkDB (delete k px) gr su no mp rs ru nid
      | PutProxyGroup g en => mkDB px (<[gName g := (storeGroup g, en)]> gr) su no mp rs ru nid
      | DeleteProxyGroup k => mkDB px (delete k gr) su no mp rs ru nid
      | PutSubscription k en => mkDB px gr (<[k := en]> su) no mp rs ru nid
      | DeleteSubscription k => mkDB px gr (delete k su) no mp rs ru nid
      | PutSubscriptionNodes k nodes => mkDB px gr su (<[k := fmap storeProxy <$> nodes]> no) mp rs ru nid
      | DeleteSubscriptionNodes k => mkDB px gr su (delete k no) mp rs ru nid
      | PutMapping k => mkDB px gr su no ({[k]} ∪ mp) rs ru nid
      | DeleteMapping k => mkDB px gr su no (mp ∖ {[k]}) rs ru nid
      | PutResolver r => mkDB px gr su no mp (<[rsName r := r]> rs) ru nid
      | DeleteResolver k => mkDB px gr su no mp (delete k rs) ru nid
      | EditRules op => mkDB px gr su no mp rs (snd (runOp op ru)) nid
      | PutMeshConfig n => mkDB px gr su no mp rs ru n
      end
  end.

(** Whether it succeeds: a put needs a key that is not empty, a rule edit known IDs. *)
Definition succeeds (wr : DBWrite) (db : Database) : bool :=
  match wr with
  | EditRules op => match fst (runOp op (dbRules db)) with Failed _ => false | _ => true end
  | _ => match opOf wr with OpPut => negb (String.eqb (keyOf wr) "") | OpDel => true end
  end.

(** The transaction of a write, and what is to be notified once it is committed. *)
Definition write (wr : DBWrite) (db : Database) : Database * list ChangeEvent :=
  if succeeds wr db then (written wr db, [mkEvent (bucketOf wr) (keyOf wr) (opOf wr)]) else (db, []).

(** The watcher called for the events of a write, one after the other. *)
Fixpoint notifyChanges (order : list positive) (db0 db : Database) (evs : list ChangeEvent) (s : Live) : outcome Live :=
  match evs with
  | [] => Returns s
  | ev :: evs' =>
      match onConfigChange order db0 db ev s with Returns s' => notifyChanges order db0 db evs' s' | r => r end
  end.

(** ** The matcher beside the database *)

(** The database; the events of committed writes that are still to be notified, each marked
    when its write came after the build; the matcher, once built; and whether onConfigChange
    has been subscribed. *)
Record Watch := mkWatch { wDB : Database; wComing : list (ChangeEvent * bool); wLive : option Live; wSubscribed : bool }.

(** Put and Delete notify after their transaction, under no lock: other writes may commit,
    and their events be delivered, in between. *)
Definition commit (w : Watch) (wr : DBWrite) : Watch :=
  let '(db, evs) := write wr (wDB w) in mkWatch db (wComing w ++ map (fun ev => (ev, true)) evs) (wLive w) (wSubscribed w).

(** GetMatcher builds and then subscribes; [AGet] is one of its halves.  [ANotify i] is the
    [i]-th event to come, notified while the writes [mid] commit between the reads of its
    handler: it is lost if nobody has subscribed.  [AResolve] matches a connection. *)
Inductive WatchAct :=
| ACommit (wr : DBWrite)
| ABuild (now : Z) (order : gmap string positive -> list positive)
| ASubscribe
| ANotify (i : nat) (order : list positive) (mid : list DBWrite)
| AResolve (fuel : nat) (req : AddrRequest) (mapping : string) (now : Z).

Definition watchExec (a : WatchAct) (w : Watch) : option Watch :=
  match a with
  | ACommit wr => Some (commit w wr)
  | ABuild now order =>
      match wLive w, BuildRuleMatcher now order (wDB w) with
      | None, Returns (inl s) => Some (mkWatch (wDB w) (map (fun e => (fst e, false)) (wComing w)) (Some s) (wSubscribed w))
      | None, Returns (inr _) => Some w
      | _, _ => None
      end
  | ASubscribe => match wLive w with Some _ => Some (mkWatch (wDB w) (wComing w) (wLive w) true) | None => None end
  | ANotify i order mid =>
      match wComing w !! i with
      | None => None
      | Some (ev, _) =>
          let w' := foldl commit (mkWatch (wDB w) (delete i (wComing w)) (wLive w) (wSubscribed w)) mid in
          match wLive w, wSubscribed w with
          | Some s, true =>
              match notifyChanges order (wDB w) (wDB w') [ev] s with
              | Returns s' => Some (mkWatch (wDB w') (wComing w') (Some s') true)
              | _ => None
              end
          | _, _ => Some w'
          end
      end
  | AResolve fuel req mapping now =>
      match wLive w with
      | None => None
      | Some s =>
          match ResolveMatch ParseIP Compile fuel (rm s) req mapping now with
          | Returns (g, _, _, _) => Some (mkWatch (wDB w) (wComing w) (Some (mkLive (setWorld (rm s) g) (heap s) (nexts s))) (wSubscribed w))
          | _ => None
          end
      end
  end.

(** Whether a key is stored, in the buckets whose entries the watcher holds one by one. *)
Definition stored (db : Database) (b : Bucket) (k : string) : Prop :=
  match b with
  | BucketProxies => is_Some (dbProxies db !! k)
  | BucketProxyGroups => is_Some (dbGroups db !! k)
  | BucketSubscriptions => is_Some (dbSubs db !! k)
  | BucketMappings => k ∈ dbMappings db
  | _ => False
  end.

(** The order ranged over has every proxy. *)
Definition covers (order : list positive) (s : Live) : Prop := forall k p, proxies (rmWorld (rm s)) !! k = Some p -> p ∈ order.
Definition ranges (a : WatchAct) (w' : Watch) : Prop :=
  match a, wLive w' with
  | ABuild _ order, _ => forall ps k p, ps !! k = Some p -> p ∈ order ps
  | ANotify _ order _, Some s => wSubscribed w' = true -> covers order s
  | _, _ => True
  end.

(** The two races the code leaves open do not happen.  An event that is notified between the
    build and the subscription is that of a write the build has seen; and the event of a
    deletion is not delivered when its key is stored again and no event of a put of the key
    is to come. *)
Definition timely (a : WatchAct) (w w' : Watch) : Prop :=
  match a with
  | ANotify i _ _ =>
      match wComing w !! i, wLive w, wSubscribed w with
      | Some (_, late), Some _, false => late = false
      | Some (ev, _), Some _, true =>
          evOp ev = OpDel -> stored (wDB w') (evBucket ev) (evKey ev) ->
          exists late, (mkEvent (evBucket ev) (evKey ev) OpPut, late) ∈ wComing w'
      | _, _, _ => True
      end
  | _ => True
  end.

End Watch.

(** ** Resolving through groups moves counters only *)

Section Static.
Context {P : Type} (Compile : string -> option (string -> bool)).

Lemma pickMember_idx g l g' m : pickMember g l = Some (g', m) -> exists k, g' = setIdx g k.
Proof.
  unfold pickMember. destruct (gType g).
  - intros [= <- _]. exists (idx g). by rewrite setIdx_id.
  - destruct (nextRoundRobinAliveMember g l) as [[k m']|]; [|done]. intros [= <- _]. by exists k.
  - intros [= <- _]. exists (idx g). by rewrite setIdx_id.
  - destruct l; [done|]. intros [= <- _]. exists (idx g). by rewrite setIdx_id.
Qed.

Lemma nextLoop_static (rec : World P -> gset string -> string -> outcome (resolution (P := P))) n :
  (forall w v name w' v' r, rec w v name = Returns (w', v', r) -> sameStatic w w') ->
  forall w v name l w' v' r, nextLoop rec n w v name l = Returns (w', v', r) -> sameStatic w w'.
Proof.
  intros Hrec. induction n as [|n IH]; intros w v name l w' v' r.
  { destruct l; cbn; [|done]. intros [= <- _ _]. apply sameStatic_refl. }
  destruct l as [|m0 l]; [cbn; intros [= <- _ _]; apply sameStatic_refl|]. cbn [nextLoop].
  destruct (groups w !! name) as [g|] eqn:Hg; [|done]. destruct (pickMember g (m0 :: l)) as [[g' m]|] eqn:Hp; [|done].
  apply pickMember_idx in Hp as [k ->]. pose proof (sameStatic_set w name g k Hg) as Hs.
  destruct (String.eqb (mName m) ""); [by intros [= <- _ _]|].
  destruct (resolveMemberWithVisited rec _ v _ m) as [[[w1 v1] r1]| |] eqn:Hr; [|done..].
  assert (Hs1 : sameStatic w w1).
  { eapply sameStatic_trans; [exact Hs|]. unfold resolveMemberWithVisited in Hr. destruct (IsGroup m).
    - destruct (groups _ !! mName m); [by eapply Hrec|]. simplify_eq. apply sameStatic_refl.
    - simplify_eq. apply sameStatic_refl. }
  destruct r1 as [p|]; [intros [= <- _ _]; done|]. intros Hl%IH. by eapply sameStatic_trans.
Qed.

Lemma NextWithVisited_static fuel : forall (w : World P) v name w' v' r,
  NextWithVisited Compile fuel w v name = Returns (w', v', r) -> sameStatic w w'.
Proof.
  induction fuel as [|fuel IH]; intros w v name w' v' r; cbn [NextWithVisited]; [done|].
  destruct (groups w !! name) as [g|]; [|done]. destruct (negb _ && _); [intros [= <- _ _]; apply sameStatic_refl|].
  apply nextLoop_static. exact IH.
Qed.

Context `{Countable P}.
Variable via : P -> string.

Lemma nextOf_static gfuel w p w' r : nextOf Compile via gfuel w p = Returns (w', r) -> sameStatic w w'.
Proof.
  unfold nextOf. destruct (proxies w !! via p); [intros [= <- _]; apply sameStatic_refl|].
  destruct (groups w !! via p); [|intros [= <- _]; apply sameStatic_refl].
  destruct (NextWithVisited _ _ _ _ _) as [[[w1 v1] r1]| |] eqn:E; [|done..]. intros [= <- _]. by eapply NextWithVisited_static.
Qed.

(** The via proxy is a proxy or nothing, not a group. *)
Definition plain (w : World P) (p : P) : Prop := is_Some (proxies w !! via p) \/ groups w !! via p = None.

Lemma nextOf_plain gfuel w p : plain w p -> nextOf Compile via gfuel w p = Returns (w, proxies w !! via p).
Proof. intros [[n E]|E]; unfold nextOf; [by rewrite E|]. destruct (proxies w !! via p); [done|]. by rewrite E. Qed.

Lemma plain_static w w' p : sameStatic w w' -> plain w p -> plain w' p.
Proof.
  intros (Hp & _ & Hg) [Hs|Hn]; [left; by rewrite Hp|right]. rewrite Hg, Hn. done.
Qed.

(** The Next field of [p] is the proxy its via names now. *)
Definition wired (w : World P) (ns : Nexts (P := P)) (p : P) : Prop := ns !! p = Some (proxies w !! via p).

Lemma wired_static w w' ns p : sameStatic w w' -> wired w ns p -> wired w' ns p.
Proof. intros (Hp & _). unfold wired. by rewrite Hp. Qed.

(** A walk keeps plain fields wired and wires the one it starts at. *)
Lemma setNext_wires gfuel fuel : forall w ns visited p w' ns' b,
  setNext Compile via fuel gfuel w ns visited p = Returns (w', ns', b) ->
  sameStatic w w' /\ (forall q, plain w q -> wired w ns q -> wired w ns' q) /\ (plain w p -> visited = ∅ -> wired w ns' p).
Proof.
  induction fuel as [|fuel IH]; intros w ns visited p w' ns' b; cbn [setNext]; [done|].
  destruct (nextOf Compile via gfuel w p) as [[w1 [n|]]| |] eqn:En; [| |done..].
  - pose proof (nextOf_static _ _ _ _ _ En) as Hs1. destruct (decide (n ∈ visited)) as [Hin|Hin].
    { intros [= <- <- _]. split_and!; [done|done|]. intros _ ->. set_solver. }
    intros Hw. pose proof (IH _ _ _ _ _ _ _ Hw) as (Hs2 & Hk & _). pose proof Hs1 as (Hpx & _).
    assert (Hk' : forall q, plain w q -> wired w (<[p := Some n]> ns) q -> wired w ns' q).
    { intros q Hq Hwq. unfold wired in *. rewrite <- Hpx. apply Hk; [by eapply plain_static|]. unfold wired. by rewrite Hpx. }
    assert (Hp : plain w p -> wired w (<[p := Some n]> ns) p).
    { intros Hp. rewrite nextOf_plain in En by done. injection En as _ En. etransitivity; [apply (lookup_insert_eq (M := gmap P))|by rewrite En]. }
    split_and!; [by eapply sameStatic_trans| |intros Hpp _; by apply Hk', Hp].
    intros q Hq Hwq. apply Hk'; [done|]. destruct (decide (q = p)) as [->|]; [by apply Hp|]. etransitivity; [by apply (lookup_insert_ne (M := gmap P))|exact Hwq].
  - pose proof (nextOf_static _ _ _ _ _ En) as Hs1. intros [= <- <- _].
    assert (Hp : plain w p -> wired w (<[p := None]> ns) p).
    { intros Hp. rewrite nextOf_plain in En by done. injection En as _ En. etransitivity; [apply (lookup_insert_eq (M := gmap P))|by rewrite En]. }
    split_and!; [done| |intros Hpp _; by apply Hp].
    intros q Hq Hwq. destruct (decide (q = p)) as [->|]; [by apply Hp|]. etransitivity; [by apply (lookup_insert_ne (M := gmap P))|exact Hwq].
Qed.

(** Rewiring wires every plain proxy it ranges over, cyclic or not. *)
Lemma rewire_wires fuel gfuel order : forall w ns w' ns',
  rewireNextChains Compile via fuel gfuel w ns order = Returns (w', ns') ->
  sameStatic w w' /\ (forall q, plain w q -> wired w ns q -> wired w ns' q) /\ forall p, p ∈ order -> plain w p -> wired w ns' p.
Proof.
  induction order as [|p order IH]; intros w ns w' ns'; cbn [rewireNextChains].
  { intros [= <- <-]. split_and!; [apply sameStatic_refl|done|by intros ? ?%elem_of_nil]. }
  destruct (setNext _ _ _ _ _ _ _ _) as [[[w1 ns1] b]| |] eqn:Es; [|done..]. apply setNext_wires in Es as (Hs1 & Hk1 & Hp1).
  intros (Hs2 & Hk2 & Ho2)%IH.
  assert (Hback : forall q ns0, wired w1 ns0 q <-> wired w ns0 q) by (intros q ns0; unfold wired; by rewrite (proj1 Hs1)).
  assert (Hk : forall q, plain w q -> wired w ns1 q -> wired w ns' q).
  { intros q Hq Hw. apply Hback, Hk2; [by eapply plain_static|by apply Hback]. }
  split_and!; [by eapply sameStatic_trans|intros; apply Hk; [done|by apply Hk1]|].
  intros q [->|Hq]%elem_of_cons Hpl; [by apply Hk, Hp1|]. apply Hback, Ho2; [done|by eapply plain_static].
Qed.
End Static.

(** ** Agreement with the database *)

(** The fields of a proxy that neither start-up nor the watcher changes. *)
Definition config (x : Proxy) : string * option bool * string * string * string :=
  (pxName x, pxEnabled x, ToLower (pxType x), pxVia x, pxReverse x).

(** The proxy a table of pointers holds under a name. *)
Definition seen (h : gmap positive Proxy) (m : gmap string positive) (k : string) :=
  config <$> (m !! k ≫= fun p => h !! p).

Definition valid (h : gmap positive Proxy) (m : gmap string positive) : Prop := forall k p, m !! k = Some p -> is_Some (h !! p).

(** A table that shows what is stored. *)
Definition shows (h : gmap positive Proxy) (m : gmap string positive) (stored : gmap string Proxy) : Prop :=
  forall k, seen h m k = config <$> stored !! k.

Record agreesOn ParseIP (db : Database) (m : RuleMatcher (P := positive)) (w : World positive) (h : gmap positive Proxy) : Prop := mkAgreesOn {
  ag_valid : valid h (proxies w);
  ag_proxies : forall k, k <> ProxyDIRECT -> k <> ProxyREJECT -> seen h (proxies w) k = config <$> dbProxies db !! k;
  ag_groups : forall k, storeGroup <$> groups w !! k = (fun ge => storeGroup (fst ge)) <$> dbGroups db !! k;
  ag_subs : forall k, is_Some (subscriptions w !! k) <-> is_Some (dbSubs db !! k);
  ag_poolValid : forall k pool, subscriptions w !! k = Some pool -> valid h pool;
  ag_pools : forall k pool nodes, subscriptions w !! k = Some pool -> GetSubscriptionNodes db k = Some nodes -> shows h pool nodes;
  ag_mappings : forall k, k <> "TUN"%string -> k ∈ rmMappings m <-> k ∈ dbMappings db;
  ag_resolvers : forall rs, prepareResolvers (rmNodeID m) (ListResolvers db) = inl rs -> rmResolvers m = rs;
  ag_rules : forall texts, listRules (dbRules db) = inl texts -> parseRules texts = Some (rmRules m);
  ag_matchers : rmMatchers m = buildMatchers ParseIP (rmRules m)
}.

(** Every Next field is the proxy installed now under the name of its via; none is stale. *)
Definition chained (s : Live) : Prop := forall k p, proxies (rmWorld (rm s)) !! k = Some p ->
  plain (viaIn (heap s)) (rmWorld (rm s)) p -> wired (viaIn (heap s)) (rmWorld (rm s)) (nexts s) p.

Definition agrees ParseIP (db : Database) (s : Live) : Prop := agreesOn ParseIP db (rm s) (rmWorld (rm s)) (heap s) /\ chained s.

(** *** The heap *)

Lemma alloc_fresh x h h' p : alloc x h = (h', p) -> h !! p = None /\ h' = <[p := x]> h /\ h ⊆ h'.
Proof.
  unfold alloc. intros [= <- <-]. assert (Hn : h !! fresh (dom h) = None) by (apply not_elem_of_dom, is_fresh).
  split_and!; [done|done|by apply insert_subseteq].
Qed.

Lemma seen_mono h h' m k : h ⊆ h' -> valid h m -> seen h' m k = seen h m k.
Proof.
  intros Hh Hv. unfold seen. destruct (m !! k) as [p|] eqn:E; [|done]. cbn. destruct (Hv k p E) as [x Hx]. rewrite Hx.
  by rewrite (lookup_weaken _ _ _ _ Hx Hh).
Qed.

Lemma valid_mono h h' m : h ⊆ h' -> valid h m -> valid h' m.
Proof. intros Hh Hv k p Hp. destruct (Hv k p Hp) as [x Hx]. exists x. by eapply lookup_weaken. Qed.

Lemma viaIn_mono h h' p : h ⊆ h' -> is_Some (h !! p) -> viaIn h' p = viaIn h p.
Proof. intros Hh [x Hx]. unfold viaIn. by rewrite Hx, (lookup_weaken _ _ _ _ Hx Hh). Qed.

(** Named objects loaded one after the other. *)
Lemma allocNamed_spec l : forall h m h' m', allocNamed l h m = (h', m') -> NoDup (map fst l) ->
  h ⊆ h' /\ (forall k x, (k, x) ∈ l -> exists p, m' !! k = Some p /\ h' !! p = Some x) /\ forall k, k ∉ map fst l -> m' !! k = m !! k.
Proof.
  induction l as [|[k0 x0] l IH]; intros h m h' m'; cbn [allocNamed map fst]; intros E Hnd.
  { simplify_eq. split_and!; [done|by intros ? ? ?%elem_of_nil|done]. }
  destruct (alloc x0 h) as [h1 p1] eqn:Ea. apply alloc_fresh in Ea as (Hn & -> & Hsub). apply NoDup_cons in Hnd as [Hk0 Hnd].
  destruct (IH _ _ _ _ E Hnd) as (Hsub' & Hin & Hout). split_and!; [by etransitivity| |].
  - intros k x [[= -> ->]|Hx]%elem_of_cons; [|by apply Hin]. exists p1. rewrite (Hout k0 Hk0), lookup_insert_eq. split; [done|].
    eapply lookup_weaken; [|exact Hsub']. by rewrite lookup_insert_eq.
  - intros k [Hne Hk]%not_elem_of_cons. rewrite (Hout k Hk). by rewrite lookup_insert_ne.
Qed.

Lemma allocNamed_shows l h h' m' (stored : gmap string Proxy) : allocNamed l h ∅ = (h', m') -> NoDup (map fst l) ->
  (forall k x, (k, x) ∈ l <-> stored !! k = Some x) -> h ⊆ h' /\ valid h' m' /\ shows h' m' stored.
Proof.
  intros E Hnd Hst. destruct (allocNamed_spec l h ∅ h' m' E Hnd) as (Hsub & Hin & Hout).
  assert (Hcase : forall k, (exists x, stored !! k = Some x /\ (k, x) ∈ l) \/ stored !! k = None /\ m' !! k = None).
  { intros k. destruct (stored !! k) as [x|] eqn:Ek; [left; exists x; split; [done|by apply Hst]|right; split; [done|]].
    rewrite Hout; [apply lookup_empty|]. intros ([k' x] & -> & Hx)%list_elem_of_fmap. apply Hst in Hx. cbn in *. congruence. }
  split_and!; [done| |].
  - intros k p Hp. destruct (Hcase k) as [(x & _ & Hx)|[_ Hn]]; [|congruence]. destruct (Hin k x Hx) as (q & Hq & Hh).
    rewrite Hp in Hq. injection Hq as <-. by exists x.
  - intros k. unfold seen. destruct (Hcase k) as [(x & -> & Hx)|[-> ->]]; [|done]. destruct (Hin k x Hx) as (q & -> & Hh). cbn. by rewrite Hh.
Qed.

Lemma loadPool_shows db k h h' pool : loadPool db k h = (h', pool) -> h ⊆ h' /\ valid h' pool /\
  forall nodes, GetSubscriptionNodes db k = Some nodes -> shows h' pool nodes.
Proof.
  unfold loadPool. destruct (GetSubscriptionNodes db k) as [nodes|] eqn:En.
  - intros E. destruct (allocNamed_shows _ _ _ _ nodes E) as (Hsub & Hv & Hsh).
    + apply NoDup_fst_map_to_list.
    + intros k' x. apply elem_of_map_to_list.
    + split_and!; [done..|]. by intros n [= <-].
  - intros [= <- <-]. split_and!; [done| |done]. intros k' p Hp. by rewrite lookup_empty in Hp.
Qed.

(** *** Following the database *)

Section Events.
Variable ParseIP : string -> option (list Z).
Variable Compile : string -> option (string -> bool).
Implicit Types (db : Database) (m : RuleMatcher (P := positive)) (w : World positive) (h : gmap positive Proxy) (s : Live) (due : ChangeEvent -> Prop).

Lemma lookup_cases {A} (m : gmap string A) k k' (x : A) : <[k := x]> m !! k' = if decide (k' = k) then Some x else m !! k'.
Proof. destruct (decide (k' = k)) as [->|]; [by rewrite lookup_insert_eq|by rewrite lookup_insert_ne]. Qed.
Lemma delete_cases {A} (m : gmap string A) k k' : delete k m !! k' = if decide (k' = k) then None else m !! k'.
Proof. destruct (decide (k' = k)) as [->|]; [by rewrite lookup_delete_eq|by rewrite lookup_delete_ne]. Qed.

Lemma agreesOn_static db m w w' h : sameStatic w w' -> agreesOn ParseIP db m w h -> agreesOn ParseIP db m w' h.
Proof.
  intros (Hp & Hs & Hg) [Hv Hx Hgr Hsu Hpv Hpo Hm Hr Hru Hma]. split; rewrite ?Hp, ?Hs; try done.
  intros k. rewrite Hg, <- Hgr. by destruct (groups w !! k).
Qed.

(** What the matcher shows for a key may be stale as long as the event of the last write of
    the key is still to come: of a put if the key is stored, of a deletion if not. *)
Definition stale due (b : Bucket) (present : Prop) (k : string) : Prop :=
  present /\ due (mkEvent b k OpPut) \/ ~ present /\ due (mkEvent b k OpDel).
Definition some_due due (b : Bucket) : Prop := exists k op, due (mkEvent b k op).

Definition proxiesFollow due db h (ps : gmap string positive) : Prop := forall k, k <> ProxyDIRECT -> k <> ProxyREJECT ->
  seen h ps k = config <$> dbProxies db !! k \/ stale due BucketProxies (is_Some (dbProxies db !! k)) k.
Definition groupsFollow due db (gs : gmap string ProxyGroup) : Prop := forall k,
  storeGroup <$> gs !! k = (fun ge => storeGroup (fst ge)) <$> dbGroups db !! k \/ stale due BucketProxyGroups (is_Some (dbGroups db !! k)) k.
Definition subsFollow due db (has : string -> Prop) : Prop := forall k,
  (has k <-> is_Some (dbSubs db !! k)) \/ stale due BucketSubscriptions (is_Some (dbSubs db !! k)) k.
Definition poolsFollow due db h (ss : gmap string (gmap string positive)) : Prop := forall k,
  (forall pool nodes, ss !! k = Some pool -> GetSubscriptionNodes db k = Some nodes -> shows h pool nodes) \/
  exists op, due (mkEvent BucketSubscriptionNodes k op).
Definition mappingsFollow due db (ms : gset string) : Prop := forall k, k <> "TUN"%string ->
  (k ∈ ms <-> k ∈ dbMappings db) \/ stale due BucketMappings (k ∈ dbMappings db) k.
Definition resolversFollow due db m : Prop :=
  (forall rs, prepareResolvers (rmNodeID m) (ListResolvers db) = inl rs -> rmResolvers m = rs) \/ some_due due BucketResolvers.
Definition rulesFollow due db m : Prop :=
  (forall texts, listRules (dbRules db) = inl texts -> parseRules texts = Some (rmRules m)) \/ some_due due BucketRules.

Definition hasSub w k : Prop := is_Some (subscriptions w !! k).

(** A matcher that shows what is stored, key by key, but for events to come. *)
Record followsOn due db m w h : Prop := mkFollowsOn {
  fo_valid : valid h (proxies w);
  fo_proxies : proxiesFollow due db h (proxies w);
  fo_groups : groupsFollow due db (groups w);
  fo_subs : subsFollow due db (hasSub w);
  fo_poolValid : forall k pool, subscriptions w !! k = Some pool -> valid h pool;
  fo_pools : poolsFollow due db h (subscriptions w);
  fo_mappings : mappingsFollow due db (rmMappings m);
  fo_resolvers : resolversFollow due db m;
  fo_rules : rulesFollow due db m;
  fo_matchers : rmMatchers m = buildMatchers ParseIP (rmRules m)
}.

Definition follows due db s : Prop := followsOn due db (rm s) (rmWorld (rm s)) (heap s) /\ chained s.

Lemma agrees_follows due db s : agrees ParseIP db s -> follows due db s.
Proof.
  intros [[Hv Hx Hgr Hsu Hpv Hpo Hm Hr Hru Hma] Hc]. split; [|done].
  split; try done; try (by left); intros k; intros; left; first [by apply Hx|by apply Hgr|by apply Hsu|by apply Hpo|by apply Hm].
Qed.

Lemma follows_agrees due db s : (forall ev, ~ due ev) -> follows due db s -> agrees ParseIP db s.
Proof.
  intros Hn [[Hv Hx Hgr Hsu Hpv Hpo Hm Hr Hru Hma] Hc]. split; [|done].
  assert (Hst : forall b P k, ~ stale due b P k) by (intros b P k [[_ H]|[_ H]]; by apply Hn in H).
  assert (Hsd : forall b, ~ some_due due b) by (intros b (k & op & H); by apply Hn in H).
  split; try done.
  - intros k H1 H2. by destruct (Hx k H1 H2) as [?|?%Hst].
  - intros k. by destruct (Hgr k) as [?|?%Hst].
  - intros k. by destruct (Hsu k) as [?|?%Hst].
  - intros k pool nodes. destruct (Hpo k) as [H|[op H]]; [apply H|by apply Hn in H].
  - intros k H1. by destruct (Hm k H1) as [?|?%Hst].
  - by destruct Hr as [?|?%Hsd].
  - by destruct Hru as [?|?%Hsd].
Qed.

(** *** Fewer events to come *)

(** [ev] is the event being delivered, [due] those that stay. *)
Definition orEv (ev : ChangeEvent) due : ChangeEvent -> Prop := fun e => e = ev \/ due e.

Lemma stale_mono due due' b P k : (forall e, due e -> due' e) -> stale due b P k -> stale due' b P k.
Proof. intros H [[? ?]|[? ?]]; [left|right]; split; auto. Qed.
Lemma stale_less ev due b P k : stale (orEv ev due) b P k -> evBucket ev <> b \/ evKey ev <> k -> stale due b P k.
Proof. intros [[HP [<-|Hd]]|[HP [<-|Hd]]] Hne; [by destruct Hne|by left|by destruct Hne|by right]. Qed.

Section Less.
Context (ev : ChangeEvent) (due : ChangeEvent -> Prop) (db : Database).

Lemma proxies_less h ps : evBucket ev <> BucketProxies -> proxiesFollow (orEv ev due) db h ps -> proxiesFollow due db h ps.
Proof. intros Hb H k H1 H2. destruct (H k H1 H2) as [?|Hs]; [by left|right]. apply (stale_less ev); [done|by left]. Qed.
Lemma groups_less gs : evBucket ev <> BucketProxyGroups -> groupsFollow (orEv ev due) db gs -> groupsFollow due db gs.
Proof. intros Hb H k. destruct (H k) as [?|Hs]; [by left|right]. apply (stale_less ev); [done|by left]. Qed.
Lemma subs_less has : evBucket ev <> BucketSubscriptions -> subsFollow (orEv ev due) db has -> subsFollow due db has.
Proof. intros Hb H k. destruct (H k) as [?|Hs]; [by left|right]. apply (stale_less ev); [done|by left]. Qed.
Lemma pools_less h ss : evBucket ev <> BucketSubscriptionNodes -> poolsFollow (orEv ev due) db h ss -> poolsFollow due db h ss.
Proof. intros Hb H k. destruct (H k) as [?|[op [<-|?]]]; [by left|done|right; by exists op]. Qed.
Lemma mappings_less ms : evBucket ev <> BucketMappings -> mappingsFollow (orEv ev due) db ms -> mappingsFollow due db ms.
Proof. intros Hb H k H1. destruct (H k H1) as [?|Hs]; [by left|right]. apply (stale_less ev); [done|by left]. Qed.
Lemma resolvers_less m : evBucket ev <> BucketResolvers -> resolversFollow (orEv ev due) db m -> resolversFollow due db m.
Proof. intros Hb [?|(k & op & [<-|?])]; [by left|done|right; by exists k, op]. Qed.
Lemma rules_less m : evBucket ev <> BucketRules -> rulesFollow (orEv ev due) db m -> rulesFollow due db m.
Proof. intros Hb [?|(k & op & [<-|?])]; [by left|done|right; by exists k, op]. Qed.
End Less.

Lemma proxies_heap due db h h' ps : h ⊆ h' -> valid h ps -> proxiesFollow due db h ps -> proxiesFollow due db h' ps.
Proof. intros Hh Hv H k H1 H2. rewrite (seen_mono h h') by done. by apply H. Qed.
Lemma pools_heap due db h h' ss : h ⊆ h' -> (forall k pool, ss !! k = Some pool -> valid h pool) -> poolsFollow due db h ss -> poolsFollow due db h' ss.
Proof.
  intros Hh Hv H k. destruct (H k) as [Hs|?]; [left|by right]. intros pool nodes Hk Hn k'. rewrite (seen_mono h h'); [by eapply Hs|done|by eapply Hv].
Qed.

Lemma followsOn_static due db m w w' h : sameStatic w w' -> followsOn due db m w h -> followsOn due db m w' h.
Proof.
  intros (Hp & Hs & Hg) [Hv Hx Hgr Hsu Hpv Hpo Hm Hr Hru Hma]. split; unfold hasSub in *; rewrite ?Hp, ?Hs; try done.
  intros k. rewrite Hg. specialize (Hgr k). by destruct (groups w !! k).
Qed.

Lemma followsOn_world due db m w w0 h : followsOn due db m w h -> followsOn due db (setWorld m w0) w h.
Proof. by intros []. Qed.

Lemma follows_mono due due' db s : (forall e, due e -> due' e) -> follows due db s -> follows due' db s.
Proof.
  intros Hd [[Hv Hx Hgr Hsu Hpv Hpo Hm Hr Hru Hma] Hc]. split; [|done]. split; try done.
  - intros k H1 H2. destruct (Hx k H1 H2); [by left|right]. by eapply stale_mono.
  - intros k. destruct (Hgr k); [by left|right]. by eapply stale_mono.
  - intros k. destruct (Hsu k); [by left|right]. by eapply stale_mono.
  - intros k. destruct (Hpo k) as [?|[op ?]]; [by left|right]. exists op. auto.
  - intros k H1. destruct (Hm k H1); [by left|right]. by eapply stale_mono.
  - destruct Hr as [?|(k & op & ?)]; [by left|right]. exists k, op. auto.
  - destruct Hru as [?|(k & op & ?)]; [by left|right]. exists k, op. auto.
Qed.

(** *** A write is committed *)

Definition eventOf (wr : DBWrite) : ChangeEvent := mkEvent (bucketOf wr) (keyOf wr) (opOf wr).

Section Commit.
Context (due due' : ChangeEvent -> Prop) (db : Database) (wr : DBWrite).
Hypothesis Hdue : forall e, due e -> due' e.
Hypothesis Hev : due' (eventOf wr).

(** An entry of a table that the write leaves alone, or its own. *)
Local Ltac entry := rewrite ?lookup_cases, ?delete_cases; destruct (decide _) as [->|]; [right; unfold eventOf in Hev; cbn in Hev|by auto].

Lemma subs_commit has : subsFollow due db has -> subsFollow due' (written wr db) has.
Proof.
  intros H k. assert (Hk : (has k <-> is_Some (dbSubs db !! k)) \/ stale due' BucketSubscriptions (is_Some (dbSubs db !! k)) k).
  { destruct (H k); [by left|right]. by eapply stale_mono. }
  destruct db, wr; cbn in *; try done; entry; [left; split; [by eexists|done]|right; split; [by intros []|done]].
Qed.

Lemma follows_commit s : follows due db s -> follows due' (written wr db) s.
Proof.
  intros H. apply (follows_mono due due') in H; [|done]. destruct H as [[Hv Hx Hgr Hsu Hpv Hpo Hm Hr Hru Hma] Hc]. split; [|done].
  assert (Hsub : subsFollow due' (written wr db) (hasSub (rmWorld (rm s)))).
  { clear -Hsu Hev. intros k. specialize (Hsu k). destruct db, wr; cbn in *; try done; entry; [left; split; [by eexists|done]|right; split; [by intros []|done]]. }
  split; try done.
  - intros k H1 H2. specialize (Hx k H1 H2). destruct db, wr; cbn in *; try done; entry; [left; split; [by eexists|done]|right; split; [by intros []|done]].
  - intros k. specialize (Hgr k). destruct db, wr; cbn in *; try done; entry; [left; split; [by eexists|done]|right; split; [by intros []|done]].
  - intros k. specialize (Hpo k). destruct db, wr; cbn in *; try done; unfold GetSubscriptionNodes in *; cbn in *; entry; by eexists.
  - intros k H1. specialize (Hm k H1). destruct db, wr; cbn in *; try done; unfold eventOf in Hev; cbn in Hev.
    + destruct (decide (k = name)) as [->|]; [right; left; split; [set_solver|done]|]. unfold stale in *. set_solver.
    + destruct (decide (k = name)) as [->|]; [right; right; split; [set_solver|done]|]. unfold stale in *. set_solver.
  - destruct db, wr; cbn in *; try done; right; by eexists _, _.
  - destruct db, wr; cbn in *; try done; right; by eexists _, _.
Qed.
End Commit.

(** *** An event is delivered *)

(** A rewiring that ends leaves every chain right. *)
Lemma follows_rewire order due db m w h ns s' : followsOn due db m w h -> rewire Compile order w h m ns = Returns s' -> covers order s' ->
  follows due db s'.
Proof.
  intros Ha. unfold rewire. destruct (rewireNextChains _ _ _ _ _ _ _) as [[w' ns']| |] eqn:E; [|done..]. intros [= <-] Hord.
  apply rewire_wires in E as (Hs & _ & Ho). unfold covers in Hord. cbn [rm rmWorld setWorld] in Hord.
  split; [by apply followsOn_world, (followsOn_static due db m w)|]. intros k p Hp Hpl. cbn [rm rmWorld setWorld heap nexts] in *.
  assert (Hpl' : plain (viaIn h) w p).
  { destruct Hs as (Hpx & _ & Hg). destruct Hpl as [Hsome|Hnone]; [left; by rewrite <- Hpx|right]. rewrite Hg in Hnone.
    by destruct (groups w !! viaIn h p). }
  apply (wired_static _ w w'); [done|]. apply Ho; [by eapply Hord|done].
Qed.

(** Events that leave proxies and groups alone leave the chains alone. *)
Lemma chained_keep m w' h h' ns : valid h (proxies (rmWorld m)) -> h ⊆ h' -> proxies w' = proxies (rmWorld m) ->
  groups w' = groups (rmWorld m) -> chained (mkLive m h ns) -> forall m', rmWorld m' = w' -> chained (mkLive m' h' ns).
Proof.
  intros Hv Hh Hp Hg Hc m' Hm k p Hk Hpl. cbn [rm heap nexts] in *. rewrite Hm, Hp in Hk. destruct (Hv k p Hk) as [x Hx].
  assert (Ev : viaIn h' p = viaIn h p) by (apply viaIn_mono; [done|by exists x]).
  specialize (Hc k p Hk). unfold wired, plain in *. cbn [rm heap nexts] in *. rewrite Hm, Hp, Hg, Ev in *. by apply Hc.
Qed.

Lemma follows_keep due due' db s m' h' : follows due db s -> heap s ⊆ h' -> proxies (rmWorld m') = proxies (rmWorld (rm s)) ->
  groups (rmWorld m') = groups (rmWorld (rm s)) -> followsOn due' db m' (rmWorld m') h' -> follows due' db (mkLive m' h' (nexts s)).
Proof.
  intros [Ha Hc] Hh Hp Hg Ha'. split; [done|]. destruct s as [m h ns]. cbn [rm heap nexts] in *.
  eapply (chained_keep m (rmWorld m') h h' ns); try done. by apply (fo_valid _ _ _ _ _ Ha).
Qed.

(** An event of a deletion comes when its key is absent, or before that of a later put. *)
Definition inTime due db (ev : ChangeEvent) : Prop :=
  evOp ev = OpDel -> stored db (evBucket ev) (evKey ev) -> due (mkEvent (evBucket ev) (evKey ev) OpPut).

Section Deliver.
Context (due : ChangeEvent -> Prop) (db : Database) (ev : ChangeEvent).
Hypothesis Htime : inTime due db ev.

(** A pending event of the other kind is not the one delivered. *)
Lemma stale_put b P k : ~ P -> stale (orEv ev due) b P k -> evOp ev = OpPut -> stale due b P k.
Proof. intros HP [[? _]|[_ [<-|Hd]]] Ho; [done|done|by right]. Qed.

Lemma proxies_event order db0 s s' : evBucket ev = BucketProxies -> follows (orEv ev due) db s ->
  onConfigChange ParseIP Compile order db0 db ev s = Returns s' -> covers order s' -> follows due db s'.
Proof.
  intros Hb Hf. pose proof Hf as [[Hv Hx Hgr Hsu Hpv Hpo Hm Hr Hru Hma] Hc]. unfold onConfigChange. cbv zeta. rewrite Hb.
  assert (Hrest : forall h' ps', heap s ⊆ h' -> valid h' ps' -> proxiesFollow due db h' ps' ->
    followsOn due db (rm s) (setProxies (rmWorld (rm s)) ps') h').
  { intros h' ps' Hh Hv' Hx'. split; cbn [proxies groups subscriptions setProxies]; try done.
    - apply (groups_less ev); [by rewrite Hb|done].
    - apply (subs_less ev); [by rewrite Hb|done].
    - intros k pool Hk. eapply valid_mono; [done|by eapply Hpv].
    - apply (pools_less ev); [by rewrite Hb|]. by eapply pools_heap.
    - apply (mappings_less ev); [by rewrite Hb|done].
    - apply (resolvers_less ev); [by rewrite Hb|done].
    - apply (rules_less ev); [by rewrite Hb|done]. }
  pose proof Htime as Ht. unfold inTime in Ht. rewrite Hb in Ht. cbn [stored] in Ht. destruct (evOp ev) eqn:Eo.
  - destruct (dbProxies db !! evKey ev) as [x|] eqn:Ex.
    + destruct (alloc x (heap s)) as [h' p] eqn:Ea. apply alloc_fresh in Ea as (Hn & -> & Hh). intros Hw Hcov.
      eapply follows_rewire; [|exact Hw|exact Hcov]. apply Hrest; [done| |].
      * intros k q. rewrite lookup_cases. destruct (decide (k = evKey ev)); [intros [= <-]; rewrite lookup_insert_eq; by eexists|].
        intros Hq. eapply valid_mono; [exact Hh|exact Hv|exact Hq].
      * intros k H1 H2. destruct (decide (k = evKey ev)) as [->|Hne].
        { left. unfold seen. rewrite lookup_insert_eq. cbn. rewrite lookup_insert_eq, Ex. done. }
        destruct (proxies_heap _ _ _ _ _ Hh Hv Hx k H1 H2) as [He|Hs]; [left|right; apply (stale_less ev); [done|by right; congruence]].
        unfold seen in *. by rewrite lookup_insert_ne.
    + intros [= <-] Hcov. split; [|done]. assert (rmWorld (rm s) = setProxies (rmWorld (rm s)) (proxies (rmWorld (rm s)))) as -> by (by destruct (rmWorld (rm s))).
      apply Hrest; [done|done|]. intros k H1 H2. destruct (Hx k H1 H2) as [?|Hs]; [by left|right]. destruct (decide (k = evKey ev)) as [->|Hne].
      * apply stale_put; [by rewrite Ex; intros []|done|done].
      * apply (stale_less ev); [done|right; congruence].
  - intros Hw Hcov. eapply follows_rewire; [|exact Hw|exact Hcov]. apply Hrest; [done| |].
    + intros k q. rewrite delete_cases. destruct (decide (k = evKey ev)); [done|]. apply Hv.
    + intros k H1 H2. destruct (decide (k = evKey ev)) as [->|Hne].
      * unfold seen. rewrite lookup_delete_eq. cbn. destruct (dbProxies db !! evKey ev) eqn:Ex; [right; left|by left].
        split; [by eexists|by apply Ht; [|eexists]].
      * destruct (Hx k H1 H2) as [He|Hs]; [left|right; apply (stale_less ev); [done|by right; congruence]].
        unfold seen in *. by rewrite lookup_delete_ne.
Qed.

Lemma groups_event order db0 s s' : evBucket ev = BucketProxyGroups -> follows (orEv ev due) db s ->
  onConfigChange ParseIP Compile order db0 db ev s = Returns s' -> covers order s' -> follows due db s'.
Proof.
  intros Hb Hf. pose proof Hf as [[Hv Hx Hgr Hsu Hpv Hpo Hm Hr Hru Hma] Hc]. unfold onConfigChange. cbv zeta. rewrite Hb.
  assert (Hrest : forall gs', groupsFollow due db gs' -> followsOn due db (rm s) (setGroups (rmWorld (rm s)) gs') (heap s)).
  { intros gs' Hg'. split; cbn [proxies groups subscriptions setGroups]; try done.
    - apply (proxies_less ev); [by rewrite Hb|done].
    - apply (subs_less ev); [by rewrite Hb|done].
    - apply (pools_less ev); [by rewrite Hb|done].
    - apply (mappings_less ev); [by rewrite Hb|done].
    - apply (resolvers_less ev); [by rewrite Hb|done].
    - apply (rules_less ev); [by rewrite Hb|done]. }
  pose proof Htime as Ht. unfold inTime in Ht. rewrite Hb in Ht. cbn [stored] in Ht. destruct (evOp ev) eqn:Eo.
  - destruct (dbGroups db !! evKey ev) as [[g en]|] eqn:Ex.
    + intros Hw Hcov. eapply follows_rewire; [|exact Hw|exact Hcov]. apply Hrest. intros k. destruct (decide (k = evKey ev)) as [->|Hne].
      * left. by rewrite lookup_insert_eq, Ex.
      * rewrite lookup_insert_ne by done. destruct (Hgr k) as [?|Hs]; [by left|right; apply (stale_less ev); [done|by right; congruence]].
    + intros [= <-] Hcov. split; [|done]. assert (rmWorld (rm s) = setGroups (rmWorld (rm s)) (groups (rmWorld (rm s)))) as -> by (by destruct (rmWorld (rm s))).
      apply Hrest. intros k. destruct (Hgr k) as [?|Hs]; [by left|right]. destruct (decide (k = evKey ev)) as [->|Hne].
      * apply stale_put; [by rewrite Ex; intros []|done|done].
      * apply (stale_less ev); [done|right; congruence].
  - intros Hw Hcov. eapply follows_rewire; [|exact Hw|exact Hcov]. apply Hrest. intros k. destruct (decide (k = evKey ev)) as [->|Hne].
    + rewrite lookup_delete_eq. destruct (dbGroups db !! evKey ev) eqn:Ex; [right; left|by left]. split; [by eexists|by apply Ht; [|eexists]].
    + rewrite lookup_delete_ne by done. destruct (Hgr k) as [?|Hs]; [by left|right; apply (stale_less ev); [done|by right; congruence]].
Qed.

(** A subscription or a pool changes. *)
Lemma follows_subs s h' ss' : evBucket ev = BucketSubscriptions \/ evBucket ev = BucketSubscriptionNodes ->
  follows (orEv ev due) db s -> heap s ⊆ h' -> subsFollow due db (fun k => is_Some (ss' !! k)) ->
  (forall k pool, ss' !! k = Some pool -> valid h' pool) -> poolsFollow due db h' ss' ->
  follows due db (mkLive (setWorld (rm s) (setSubs (rmWorld (rm s)) ss')) h' (nexts s)).
Proof.
  intros Hb Hf Hh Hs' Hv' Hp'. pose proof Hf as [[Hv Hx Hgr Hsu Hpv Hpo Hm Hr Hru Hma] Hc]. eapply follows_keep; [exact Hf|done..|].
  apply followsOn_world. split; cbn [proxies groups subscriptions setSubs]; try done.
  - by eapply valid_mono.
  - apply (proxies_less ev); [by destruct Hb as [-> | ->]|]. by eapply proxies_heap.
  - apply (groups_less ev); [by destruct Hb as [-> | ->]|done].
  - apply (mappings_less ev); [by destruct Hb as [-> | ->]|done].
  - apply (resolvers_less ev); [by destruct Hb as [-> | ->]|done].
  - apply (rules_less ev); [by destruct Hb as [-> | ->]|done].
Qed.

Lemma live_subs s : s = mkLive (setWorld (rm s) (setSubs (rmWorld (rm s)) (subscriptions (rmWorld (rm s))))) (heap s) (nexts s).
Proof. by destruct s as [[[] ? ? ? ? ?] ? ?]. Qed.

(** Between the two reads of the handler the subscription may be written. *)
Lemma subs_event order db0 s s' : evBucket ev = BucketSubscriptions -> follows (orEv ev due) db s ->
  subsFollow due db (fun k => is_Some (dbSubs db0 !! k)) ->
  onConfigChange ParseIP Compile order db0 db ev s = Returns s' -> follows due db s'.
Proof.
  intros Hb Hf Hmid. pose proof Hf as [[Hv Hx Hgr Hsu Hpv Hpo Hm Hr Hru Hma] Hc]. unfold onConfigChange. cbv zeta. rewrite Hb.
  apply (pools_less ev) in Hpo; [|by rewrite Hb]. unfold hasSub in Hsu.
  pose proof Htime as Ht. unfold inTime in Ht. rewrite Hb in Ht. cbn [stored] in Ht. destruct (evOp ev) eqn:Eo.
  - specialize (Hmid (evKey ev)). cbn in Hmid. destruct (dbSubs db0 !! evKey ev) as [en|] eqn:Ex.
    + destruct (loadPool db (evKey ev) (heap s)) as [h' pool] eqn:Ep. apply loadPool_shows in Ep as (Hh & Hvp & Hsh). intros [= <-].
      apply follows_subs; [by left|done|done|..].
      * intros k. rewrite lookup_cases. destruct (decide (k = evKey ev)) as [->|Hne].
        { destruct Hmid as [Hi|?]; [left|by right]. rewrite <- Hi. split; intros _; by eexists. }
        destruct (Hsu k) as [?|Hs]; [by left|right; apply (stale_less ev); [done|by right; congruence]].
      * intros k q. rewrite lookup_cases. destruct (decide (k = evKey ev)); [by intros [= <-]|]. intros Hq. eapply valid_mono; [done|by eapply Hpv].
      * intros k. rewrite lookup_cases. destruct (decide (k = evKey ev)) as [->|Hne]; [left; intros q nodes [= <-]; apply Hsh|]. by apply (pools_heap _ _ (heap s)).
    + intros [= <-]. rewrite (live_subs s). apply follows_subs; [by left|done|done| |done|done].
      intros k. destruct (decide (k = evKey ev)) as [->|Hne].
      * destruct (Hsu (evKey ev)) as [Hi|Hs]; [by left|]. destruct Hmid as [Hi|?]; [right|by right].
        apply stale_put; [by rewrite <- Hi; intros []|done|done].
      * destruct (Hsu k) as [?|Hs]; [by left|right; apply (stale_less ev); [done|by right; congruence]].
  - intros [= <-]. apply follows_subs; [by left|done|done|..].
    + intros k. rewrite delete_cases. destruct (decide (k = evKey ev)) as [->|Hne].
      * destruct (dbSubs db !! evKey ev) eqn:Ex; [right; left|left; by split; intros []]. split; [by eexists|by apply Ht; [|eexists]].
      * destruct (Hsu k) as [?|Hs]; [by left|right; apply (stale_less ev); [done|by right; congruence]].
    + intros k q. rewrite delete_cases. destruct (decide (k = evKey ev)); [done|]. apply Hpv.
    + intros k. rewrite delete_cases. destruct (decide (k = evKey ev)) as [->|Hne]; [by left|]. apply Hpo.
Qed.

Lemma nodes_event order db0 s s' : evBucket ev = BucketSubscriptionNodes -> follows (orEv ev due) db s ->
  onConfigChange ParseIP Compile order db0 db ev s = Returns s' -> follows due db s'.
Proof.
  intros Hb Hf. pose proof Hf as [[Hv Hx Hgr Hsu Hpv Hpo Hm Hr Hru Hma] Hc]. unfold onConfigChange. cbv zeta. rewrite Hb.
  apply (subs_less ev) in Hsu; [|by rewrite Hb]. unfold hasSub in Hsu.
  assert (Hother : forall k, k <> evKey ev -> (forall pool nodes, subscriptions (rmWorld (rm s)) !! k = Some pool -> GetSubscriptionNodes db k = Some nodes ->
    shows (heap s) pool nodes) \/ exists op, due (mkEvent BucketSubscriptionNodes k op)).
  { intros k Hne. destruct (Hpo k) as [?|[op [<-|?]]]; [by left|done|right; by exists op]. }
  assert (Hsame : (forall pool nodes, subscriptions (rmWorld (rm s)) !! evKey ev = Some pool -> GetSubscriptionNodes db (evKey ev) = Some nodes -> False) ->
    follows due db s).
  { intros Hno. rewrite (live_subs s). apply follows_subs; [by right|done..|]. intros k. destruct (decide (k = evKey ev)) as [->|Hne]; [|by apply Hother].
    left. intros pool nodes Hk Hn. by destruct (Hno pool nodes). }
  destruct (subscriptions (rmWorld (rm s)) !! evKey ev) as [old|] eqn:Eo; [|intros [= <-]; by apply Hsame].
  destruct (GetSubscriptionNodes db (evKey ev)) as [nodes|] eqn:En; [|intros [= <-]; by apply Hsame].
  destruct (allocNamed _ _ _) as [h' pool] eqn:Ep. intros [= <-].
  destruct (allocNamed_shows _ _ _ _ nodes Ep) as (Hh & Hvp & Hsh); [apply NoDup_fst_map_to_list|intros; apply elem_of_map_to_list|].
  apply follows_subs; [by right|done|done|..].
  - intros k. rewrite lookup_cases. destruct (decide (k = evKey ev)) as [->|Hne]; [|apply Hsu].
    destruct (Hsu (evKey ev)) as [Hi|?]; [left|by right]. rewrite <- Hi, Eo. split; intros _; by eexists.
  - intros k q. rewrite lookup_cases. destruct (decide (k = evKey ev)); [by intros [= <-]|]. intros Hq. eapply valid_mono; [done|by eapply Hpv].
  - intros k. rewrite lookup_cases. destruct (decide (k = evKey ev)) as [->|Hne].
    + left. intros q n [= <-]. rewrite En. by intros [= <-].
    + destruct (Hother k Hne) as [Hs|?]; [left|by right]. intros q n Hq Hn k'. rewrite (seen_mono (heap s) h'); [by eapply Hs|done|by eapply Hpv].
Qed.

(** Events on mappings, resolvers, rules and the mesh configuration. *)
Lemma rest_event order db0 s s' : match evBucket ev with BucketMappings | BucketResolvers | BucketRules | BucketOther => True | _ => False end ->
  follows (orEv ev due) db s -> onConfigChange ParseIP Compile order db0 db ev s = Returns s' -> follows due db s'.
Proof.
  intros Hb Hf. pose proof Hf as [[Hv Hx Hgr Hsu Hpv Hpo Hm Hr Hru Hma] Hc]. unfold onConfigChange. cbv zeta.
  assert (Hrest : forall m', rmWorld m' = rmWorld (rm s) -> mappingsFollow due db (rmMappings m') -> resolversFollow due db m' -> rulesFollow due db m' ->
    rmMatchers m' = buildMatchers ParseIP (rmRules m') -> follows due db (mkLive m' (heap s) (nexts s))).
  { intros m' Ew Hm' Hr' Hru' Hma'. eapply follows_keep; [exact Hf|done|by rewrite Ew..|]. rewrite Ew. split; try done.
    - apply (proxies_less ev); [by destruct (evBucket ev)|done].
    - apply (groups_less ev); [by destruct (evBucket ev)|done].
    - apply (subs_less ev); [by destruct (evBucket ev)|done].
    - apply (pools_less ev); [by destruct (evBucket ev)|done]. }
  assert (Hlive : s = mkLive (rm s) (heap s) (nexts s)) by (by destruct s).
  pose proof Htime as Ht. unfold inTime in Ht. destruct (evBucket ev) eqn:Eb; try done; cbn [stored] in Ht.
  - apply (resolvers_less ev) in Hr; [|by rewrite Eb]. apply (rules_less ev) in Hru; [|by rewrite Eb].
    assert (Hne : forall k, k <> "TUN"%string -> k <> evKey ev -> (k ∈ rmMappings (rm s) <-> k ∈ dbMappings db) \/ stale due BucketMappings (k ∈ dbMappings db) k).
    { intros k H1 H2. destruct (Hm k H1) as [?|Hs]; [by left|right]. apply (stale_less ev); [done|right; congruence]. }
    destruct (evOp ev) eqn:Eo.
    + destruct (decide (evKey ev ∈ dbMappings db)) as [Hin|Hin]; intros [= <-].
      * apply Hrest; try done. intros k H1. destruct (decide (k = evKey ev)) as [->|H2]; [left; cbn; set_solver|].
        destruct (Hne k H1 H2) as [?|?]; [left; cbn; set_solver|by right].
      * rewrite Hlive. apply Hrest; try done. intros k H1. destruct (decide (k = evKey ev)) as [->|H2]; [|by apply Hne].
        destruct (Hm (evKey ev) H1) as [?|Hs]; [by left|right]. by apply stale_put.
    + intros [= <-]. apply Hrest; try done. intros k H1. destruct (decide (k = evKey ev)) as [->|H2].
      * destruct (decide (evKey ev ∈ dbMappings db)) as [Hin|Hin]; [right; left; split; [done|by apply Ht]|left; cbn; set_solver].
      * destruct (Hne k H1 H2) as [?|?]; [left; cbn; set_solver|by right].
  - apply (mappings_less ev) in Hm; [|by rewrite Eb]. apply (rules_less ev) in Hru; [|by rewrite Eb].
    destruct (prepareResolvers (rmNodeID (rm s)) (ListResolvers db)) as [rs|e] eqn:E; intros H; assert (Hs : Returns (A := Live) s' = Returns s') by done; clear Hs; injection H as <-.
    + apply Hrest; try done. left. intros rs'. cbn [rmNodeID setResolvers]. rewrite E. by intros [= <-].
    + rewrite Hlive. apply Hrest; try done. left. intros rs'. by rewrite E.
  - apply (mappings_less ev) in Hm; [|by rewrite Eb]. apply (resolvers_less ev) in Hr; [|by rewrite Eb].
    destruct (listRules (dbRules db)) as [texts|e] eqn:E.
    + destruct (parseRules texts) as [rules|] eqn:Ep; [|done]. intros [= <-]. apply Hrest; try done. left. intros t. rewrite E. by intros [= <-].
    + intros [= <-]. rewrite Hlive. apply Hrest; try done. left. intros t. by rewrite E.
  - intros [= <-]. rewrite Hlive. apply Hrest; try done.
    + apply (mappings_less ev); [by rewrite Eb|done].
    + apply (resolvers_less ev); [by rewrite Eb|done].
    + apply (rules_less ev); [by rewrite Eb|done].
Qed.

Lemma follows_event order db0 s s' : follows (orEv ev due) db s -> subsFollow due db (fun k => is_Some (dbSubs db0 !! k)) ->
  onConfigChange ParseIP Compile order db0 db ev s = Returns s' -> covers order s' -> follows due db s'.
Proof.
  intros Hf Hmid He Hc. destruct (evBucket ev) eqn:Eb.
  - by eapply proxies_event.
  - by eapply groups_event.
  - by eapply subs_event.
  - by eapply nodes_event.
  - eapply rest_event; [by rewrite Eb|done|exact He].
  - eapply rest_event; [by rewrite Eb|done|exact He].
  - eapply rest_event; [by rewrite Eb|done|exact He].
  - eapply rest_event; [by rewrite Eb|done|exact He].
Qed.
End Deliver.

(** *** Building *)

(** Proxies and groups are stored under their names. *)
Definition wfDB (db : Database) : Prop :=
  (forall k x, dbProxies db !! k = Some x -> pxName x = k) /\ forall k ge, dbGroups db !! k = Some ge -> gName (fst ge) = k.

Lemma write_wfDB wr db : wfDB db -> wfDB (fst (write wr db)).
Proof.
  intros [Hp Hg]. unfold write. destruct (succeeds wr db); [|done]. destruct db. cbn in *.
  destruct wr; (split; [try exact Hp|try exact Hg]); cbn [dbProxies dbGroups]; intros k y; rewrite ?lookup_cases, ?delete_cases;
    destruct (decide _) as [->|]; first [done|by intros [= <-]|apply Hp|apply Hg].
Qed.

Lemma insertSorted_perm x l : insertSorted x l ≡ₚ x :: l.
Proof.
  induction l as [|y l IH]; [done|]. cbn. destruct (String.leb x y); [done|]. rewrite IH. apply Permutation_swap.
Qed.

Lemma sortStrings_perm l : sortStrings l ≡ₚ l.
Proof.
  induction l as [|x l IH]; [done|]. change (sortStrings (x :: l)) with (insertSorted x (sortStrings l)).
  rewrite insertSorted_perm. by apply Permutation_skip.
Qed.

Lemma ForEach_elem {A} (m : gmap string A) x : x ∈ ForEach m <-> exists k, m !! k = Some x.
Proof.
  unfold ForEach. rewrite list_elem_of_omap. split; [intros (k & _ & E); by exists k|]. intros [k E]. exists k. split; [|done].
  rewrite sortStrings_perm. apply elem_of_elements, elem_of_dom. by eexists.
Qed.

Lemma ForEach_keys {A} (f : A -> string) (m : gmap string A) : (forall k x, m !! k = Some x -> f x = k) -> NoDup (map f (ForEach m)).
Proof.
  intros Hf. assert (H : forall l, (forall k, k ∈ l -> is_Some (m !! k)) -> map f (omap (fun k => m !! k) l) = l).
  { induction l as [|k l IH]; intros Hl; [done|]. cbn. destruct (Hl k ltac:(by left)) as [x E]. rewrite E. cbn. rewrite (Hf k x E). f_equal.
    apply IH. intros k' Hk'. apply Hl. by right. }
  unfold ForEach. rewrite H.
  - rewrite sortStrings_perm. apply NoDup_elements.
  - intros k. rewrite sortStrings_perm, elem_of_elements. apply elem_of_dom.
Qed.

Lemma foldl_inserts {A B} (f : A -> string) (g : A -> B) l : forall (m : gmap string B), NoDup (map f l) ->
  (forall x, x ∈ l -> foldl (fun (acc : gmap string B) x => <[f x := g x]> acc) m l !! f x = Some (g x)) /\
  forall k, k ∉ map f l -> foldl (fun (acc : gmap string B) x => <[f x := g x]> acc) m l !! k = m !! k.
Proof.
  induction l as [|x0 l IH]; intros m Hnd; cbn; [split; [by intros ? ?%elem_of_nil|done]|]. apply NoDup_cons in Hnd as [Hx0 Hnd].
  destruct (IH (<[f x0 := g x0]> m) Hnd) as [Hin Hout]. split.
  - intros x [->|Hx]%elem_of_cons; [|by apply Hin]. rewrite Hout by done. apply lookup_insert_eq.
  - intros k [Hne Hk]%not_elem_of_cons. rewrite Hout by done. by apply lookup_insert_ne.
Qed.

Lemma ToLower_idem t : ToLower (ToLower t) = ToLower t.
Proof.
  assert (H : forall c, lowerAscii (lowerAscii c) = lowerAscii c) by (intros [[] [] [] [] [] [] [] []]; reflexivity).
  induction t as [|c t IH]; cbn [ToLower]; [done|]. by rewrite H, IH.
Qed.

Lemma initProxy_config now x : config (initProxy now x) = config x.
Proof. unfold initProxy, config. destruct (proxyEnabled x); [|done]. cbn. by rewrite ToLower_idem. Qed.

Lemma initProxies_config now ps h p : config <$> initProxies now ps h !! p = config <$> h !! p.
Proof.
  unfold initProxies. induction (map_to_list ps) as [|[k q] l IH]; [done|]. cbn [foldr snd]. rewrite <- IH.
  set (h' := foldr _ h l). destruct (decide (p = q)) as [->|Hne]; [|by rewrite lookup_alter_ne]. rewrite lookup_alter_eq.
  destruct (h' !! q); [|done]. cbn. by rewrite initProxy_config.
Qed.

Lemma initGroups_static l : forall gs gs', initGroups l gs = inl gs' ->
  (forall ge, ge ∈ l -> storeGroup <$> gs !! gName (fst ge) = Some (storeGroup (fst ge))) ->
  forall k, storeGroup <$> gs' !! k = storeGroup <$> gs !! k.
Proof.
  induction l as [|[g en] l IH]; intros gs gs'; cbn [initGroups]; [by intros [= <-]|]. intros E Hl k.
  assert (Hl' : forall ge, ge ∈ l -> storeGroup <$> gs !! gName (fst ge) = Some (storeGroup (fst ge))) by (intros; apply Hl; by right).
  destruct (default true en); [|by apply IH]. destruct (Init g) as [g'|] eqn:Ei; [|done].
  assert (Hg' : storeGroup g' = storeGroup g) by (unfold Init in Ei; destruct (gType g); by simplify_eq).
  assert (Hst : forall k, storeGroup <$> <[gName g := g']> gs !! k = storeGroup <$> gs !! k).
  { intros k0. rewrite lookup_cases. destruct (decide (k0 = gName g)) as [->|]; [|done]. pose proof (Hl (g, en) ltac:(by left)) as Hge. cbn in Hge. rewrite Hge. cbn. by rewrite Hg'. }
  rewrite (IH _ _ E), Hst; [done|]. intros ge Hge. rewrite Hst. by apply Hl'.
Qed.

Lemma loadSubs_spec db l : forall h ss h' ss', loadSubs db l h ss = (h', ss') ->
  (forall k pool, ss !! k = Some pool -> valid h pool /\ forall nodes, GetSubscriptionNodes db k = Some nodes -> shows h pool nodes) ->
  h ⊆ h' /\ (forall k pool, ss' !! k = Some pool -> valid h' pool /\ forall nodes, GetSubscriptionNodes db k = Some nodes -> shows h' pool nodes) /\
  forall k, is_Some (ss' !! k) <-> k ∈ l \/ is_Some (ss !! k).
Proof.
  induction l as [|name l IH]; intros h ss h' ss'; cbn [loadSubs].
  { intros [= <- <-] H. split_and!; [done|done|]. intros k. split; [by right|intros [?%elem_of_nil|]; done]. }
  destruct (loadPool db name h) as [h1 pool1] eqn:El. apply loadPool_shows in El as (Hh & Hv & Hsh). intros E Hss.
  destruct (IH _ _ _ _ E) as (Hh' & Hp & Hd).
  { intros k pool. rewrite lookup_cases. destruct (decide (k = name)) as [->|]; [by intros [= <-]|]. intros Hk. destruct (Hss k pool Hk) as [H1 H2].
    split; [by eapply valid_mono|]. intros nodes Hn k'. rewrite (seen_mono h h1) by done. by apply H2. }
  split_and!; [by etransitivity|done|]. intros k. rewrite Hd, lookup_cases, elem_of_cons. destruct (decide (k = name)) as [->|]; [|naive_solver].
  split; [by left; left|right; by eexists].
Qed.

Lemma wireAll_wires via fuel gfuel order : forall w ns w' ns',
  wireAll Compile via fuel gfuel w ns order = Returns (w', ns', false) ->
  sameStatic w w' /\ (forall q, plain via w q -> wired via w ns q -> wired via w ns' q) /\ forall p, p ∈ order -> plain via w p -> wired via w ns' p.
Proof.
  intros w ns w' ns' E. apply (rewire_wires Compile via fuel gfuel order w ns w' ns'). revert w ns E.
  induction order as [|p order IH]; intros w ns; cbn [wireAll rewireNextChains]; [by intros [= -> ->]|].
  destruct (setNext _ _ _ _ _ _ _ _) as [[[w1 ns1] []]| |]; try done. apply IH.
Qed.

Lemma agreesOn_config db m w h h' : (forall p, config <$> h' !! p = config <$> h !! p) -> agreesOn ParseIP db m w h -> agreesOn ParseIP db m w h'.
Proof.
  intros Hc. assert (Hseen : forall t k, seen h' t k = seen h t k) by (intros t k; unfold seen; destruct (t !! k); [apply Hc|done]).
  assert (Hval : forall t, valid h t -> valid h' t).
  { intros t Hv k p Hp. specialize (Hc p). destruct (Hv k p Hp) as [x Hx]. rewrite Hx in Hc. by destruct (h' !! p). }
  intros [Hv Hx Hgr Hsu Hpv Hpo Hm Hr Hru Hma]. split; try done.
  - by apply Hval.
  - intros k H1 H2. rewrite Hseen. by apply Hx.
  - intros k pool Hk. apply Hval. by eapply Hpv.
  - intros k pool nodes Hk Hn k'. rewrite Hseen. by eapply Hpo.
Qed.

(** The loads of the build, before anything is initialised. *)
Lemma load_agrees db m h1 ps1 h2 ss h3 d h4 r gs gs' : wfDB db ->
  allocNamed (map (fun x => (pxName x, x)) (ForEach (dbProxies db))) ∅ ∅ = (h1, ps1) ->
  loadSubs db (sortStrings (elements (dom (dbSubs db)))) h1 ∅ = (h2, ss) ->
  alloc (SingletonProxy ProxyDIRECT) h2 = (h3, d) -> alloc (SingletonProxy ProxyREJECT) h3 = (h4, r) ->
  gs = foldl (fun (acc : gmap string ProxyGroup) ge => <[gName (fst ge) := fst ge]> acc) ∅ (ForEach (dbGroups db)) ->
  initGroups (ForEach (dbGroups db)) gs = inl gs' ->
  rmMappings m = {["TUN"%string]} ∪ dbMappings db -> prepareResolvers (rmNodeID m) (ListResolvers db) = inl (rmResolvers m) ->
  (forall texts, listRules (dbRules db) = inl texts -> parseRules texts = Some (rmRules m)) -> rmMatchers m = buildMatchers ParseIP (rmRules m) ->
  agreesOn ParseIP db m (mkWorld (<[ProxyREJECT := r]> (<[ProxyDIRECT := d]> ps1)) gs' ss) h4.
Proof.
  intros [Hwp Hwg] E1 E2 E3 E4 -> E5 Hm Hr Hru Hma.
  destruct (allocNamed_shows _ _ _ _ (dbProxies db) E1) as (_ & Hv1 & Hs1).
  { rewrite map_map. by apply ForEach_keys. }
  { intros k x. rewrite list_elem_of_fmap. split; [intros (y & [= -> ->] & Hy%ForEach_elem); destruct Hy as [k Hy]; by rewrite (Hwp _ _ Hy)|].
    intros Hx. exists x. rewrite (Hwp _ _ Hx). split; [done|]. apply ForEach_elem. by exists k. }
  destruct (loadSubs_spec _ _ _ _ _ _ E2) as (H12 & Hp2 & Hd2); [by intros k pool Hk; rewrite lookup_empty in Hk|].
  apply alloc_fresh in E3 as (Hd & -> & H23). apply alloc_fresh in E4 as (Hr4 & -> & H34). set (h3 := <[d := _]> h2) in *. set (h4 := <[r := _]> h3) in *.
  assert (H24 : h2 ⊆ h4) by (by etransitivity). assert (H14 : h1 ⊆ h4) by (by etransitivity).
  split; cbn [proxies groups subscriptions]; try done.
  - intros k p. rewrite !lookup_cases. destruct (decide (k = ProxyREJECT)); [intros [= <-]; unfold h4; rewrite lookup_insert_eq; by eexists|].
    destruct (decide (k = ProxyDIRECT)); [|by apply (valid_mono h1 h4)]. intros [= <-].
    eapply lookup_weaken_is_Some; [|exact H34]. unfold h3. rewrite lookup_insert_eq. by eexists.
  - intros k Hk1 Hk2. unfold seen. rewrite !lookup_cases, !decide_False by done. rewrite <- (Hs1 k). by apply seen_mono.
  - intros k. rewrite (initGroups_static _ _ _ E5).
    + destruct (foldl_inserts (fun ge : ProxyGroup * option bool => gName (fst ge)) fst (ForEach (dbGroups db)) ∅) as [Hin Hout]; [by apply ForEach_keys|].
      destruct (dbGroups db !! k) as [ge|] eqn:Ek.
      * rewrite <- (Hwg k ge Ek), Hin; [done|]. apply ForEach_elem. by exists k.
      * rewrite Hout, lookup_empty; [done|]. intros (ge & -> & [k' Hge]%ForEach_elem)%list_elem_of_fmap. rewrite (Hwg _ _ Hge) in Ek. congruence.
    + intros ge Hge. destruct (foldl_inserts (fun ge : ProxyGroup * option bool => gName (fst ge)) fst (ForEach (dbGroups db)) ∅) as [Hin _];
        [by apply ForEach_keys|]. by rewrite (Hin ge Hge).
  - intros k. rewrite Hd2, sortStrings_perm, elem_of_elements, elem_of_dom, lookup_empty. split; [|by left]. intros [?|[? ?]]; done.
  - intros k pool Hk. apply (valid_mono h2 h4); [done|]. by apply (Hp2 k pool Hk).
  - intros k pool nodes Hk Hn k'. destruct (Hp2 k pool Hk) as [Hv Hs]. rewrite (seen_mono h2 h4) by done. by apply (Hs nodes Hn).
  - intros k Hk. rewrite Hm. set_solver.
  - intros rs Hrs. rewrite Hrs in Hr. by injection Hr.
Qed.

Lemma build_agrees now order db s : wfDB db -> (forall ps k p, ps !! k = Some p -> p ∈ order ps) ->
  BuildRuleMatcher ParseIP Compile now order db = Returns (inl s) -> agrees ParseIP db s.
Proof.
  intros Hwf Hord. unfold BuildRuleMatcher.
  destruct (allocNamed _ _ _) as [h1 ps1] eqn:E1. destruct (loadSubs _ _ _ _) as [h2 ss] eqn:E2.
  destruct (alloc (SingletonProxy ProxyDIRECT) h2) as [h3 d] eqn:E3. destruct (alloc (SingletonProxy ProxyREJECT) h3) as [h4 r] eqn:E4.
  destruct (View listRulesTx (dbRules db)) as [texts|] eqn:Et; [|done]. destruct (prepareResolvers _ _) as [rs|] eqn:Er; [|done].
  destruct (initGroups _ _) as [gs'|] eqn:Eg; [|done]. destruct (parseRules texts) as [rules|] eqn:Ep; [|done].
  destruct (checkGroups _ _) as [[]| |]; try done. destruct (checkSubscriptions _ _); [done|].
  set (ps := <[ProxyREJECT := r]> _) in *. set (h5 := initProxies now ps h4) in *.
  destruct (wireAll _ _ _ _ _ _ _) as [[[w ns] []]| |] eqn:Ew; try done. intros [= <-]. apply wireAll_wires in Ew as (Hs & _ & Ho).
  set (m := mkRM w _ rules rs (dbNodeID db) _).
  assert (Ha : agreesOn ParseIP db m (mkWorld ps gs' ss) h5).
  { eapply agreesOn_config; [intros p; apply initProxies_config|]. eapply load_agrees; try eassumption; try reflexivity.
    intros t Ht. unfold listRules in Ht. rewrite Et in Ht. injection Ht as <-. done. }
  split; [by eapply agreesOn_static|]. intros k p Hp Hpl. cbn [rm rmWorld heap nexts m] in *.
  apply (wired_static _ (mkWorld ps gs' ss)); [done|]. apply Ho.
  - apply (Hord ps k). by rewrite (proj1 Hs) in Hp.
  - destruct Hs as (Hpx & _ & Hg). destruct Hpl as [Hsome|Hnone]; [left; by rewrite <- Hpx|right]. rewrite Hg in Hnone. by destruct (groups (mkWorld ps gs' ss) !! _).
Qed.

(** *** Use *)

Lemma resolveName_static fuel w name w' p : resolveName Compile fuel w name = Returns (w', p) -> sameStatic w w'.
Proof.
  unfold resolveName. destruct (proxies w !! name); [intros [= <- _]; apply sameStatic_refl|].
  destruct (groups w !! name) as [g|]; [|intros [= <- _]; apply sameStatic_refl].
  destruct (computeMembers Compile w g); [intros [= <- _]; apply sameStatic_refl|].
  destruct (NextWithVisited _ _ _ _ _) as [[[w1 v1] r1]| |] eqn:E; [|done..]. intros [= <- _]. by eapply NextWithVisited_static.
Qed.

Lemma ResolveMatch_static fuel m req mp now w' req' t res :
  ResolveMatch ParseIP Compile fuel m req mp now = Returns (w', req', t, res) -> sameStatic (rmWorld m) w'.
Proof.
  unfold ResolveMatch. destruct (negb _ && _); [intros [= <- _ _ _]; apply sameStatic_refl|]. unfold match_.
  destruct (matchLoop _ _ _ _ _ _) as [r|]; [|intros [= <- _ _ _]; apply sameStatic_refl].
  destruct (resolveName _ _ _ _) as [[w1 p]| |] eqn:E; [|done..]. intros [= <- _ _ _]. by eapply resolveName_static.
Qed.

Lemma use_follows due db s w' : sameStatic (rmWorld (rm s)) w' -> follows due db s -> follows due db (mkLive (setWorld (rm s) w') (heap s) (nexts s)).
Proof.
  intros Hs [Ha Hc]. split; [by apply followsOn_world, (followsOn_static due db (rm s) (rmWorld (rm s)))|]. intros k p Hp Hpl.
  cbn [rm rmWorld setWorld heap nexts] in *. pose proof Hs as (Hpx & _ & Hg). apply (wired_static _ (rmWorld (rm s))); [done|]. apply (Hc k).
  - by rewrite <- Hpx.
  - destruct Hpl as [Hsome|Hnone]; [left; by rewrite <- Hpx|right]. rewrite Hg in Hnone. by destruct (groups (rmWorld (rm s)) !! _).
Qed.

(** *** Runs *)

(** The matcher beside its database through a run: from a stored database without a matcher,
    in any interleaving of writes that commit, of their events in any order, of the two
    halves of GetMatcher and of connections, in any order of the maps, without the races
    of [timely] and as long as rewirings end. *)
Inductive reach : Watch -> Prop :=
| reach_new db : wfDB db -> reach (mkWatch db [] None false)
| reach_step v a v' : reach v -> watchExec ParseIP Compile a v = Some v' -> ranges a v' -> timely a v v' -> reach v'.

(** The events to come that the watcher will get and that can still matter. *)
Definition due (v : Watch) (ev : ChangeEvent) : Prop := exists late, (ev, late) ∈ wComing v /\ (wSubscribed v = true \/ late = true).

Lemma commit_rest v wr : wLive (commit v wr) = wLive v /\ wSubscribed (commit v wr) = wSubscribed v.
Proof. unfold commit. by destruct (write wr (wDB v)). Qed.
Lemma commits_rest mid : forall v, wLive (foldl commit v mid) = wLive v /\ wSubscribed (foldl commit v mid) = wSubscribed v.
Proof. induction mid as [|wr mid IH]; intros v; [done|]. cbn. destruct (commit_rest v wr) as [<- <-]. apply IH. Qed.

Lemma commits_wfDB mid : forall v, wfDB (wDB v) -> wfDB (wDB (foldl commit v mid)).
Proof.
  induction mid as [|wr mid IH]; intros v Hw; [done|]. cbn. apply IH. unfold commit. pose proof (write_wfDB wr (wDB v) Hw) as H.
  by destruct (write wr (wDB v)).
Qed.

(** What is kept up to [X] and the events to come survives a commit. *)
Section Commits.
Context (X : ChangeEvent -> Prop) (I : (ChangeEvent -> Prop) -> Database -> Prop).
Hypothesis Istep : forall d d' db wr, (forall e, d e -> d' e) -> d' (eventOf wr) -> I d db -> I d' (written wr db).
Hypothesis Imono : forall d d' db, (forall e, d e -> d' e) -> I d db -> I d' db.

Lemma commit_keeps v wr : I (fun e => X e \/ due v e) (wDB v) -> I (fun e => X e \/ due (commit v wr) e) (wDB (commit v wr)).
Proof.
  assert (Hmono : forall e, X e \/ due v e -> X e \/ due (commit v wr) e).
  { intros e [?|(late & Hin & Hl)]; [by left|right]. exists late. unfold commit. destruct (write wr (wDB v)). split; [|done].
    apply elem_of_app. by left. }
  revert Hmono. unfold commit, write. destruct (succeeds wr (wDB v)); cbn [wDB wComing wLive wSubscribed map]; intros Hmono H.
  - eapply Istep; [exact Hmono| |exact H]. right. exists true. split; [|by right]. apply elem_of_app. right. by left.
  - exact (Imono _ _ _ Hmono H).
Qed.
Lemma commits_keep mid : forall v, I (fun e => X e \/ due v e) (wDB v) -> I (fun e => X e \/ due (foldl commit v mid) e) (wDB (foldl commit v mid)).
Proof. induction mid as [|wr mid IH]; intros v H; [done|]. cbn. by apply IH, commit_keeps. Qed.
End Commits.

Lemma follows_commits X s mid v : follows (fun e => X e \/ due v e) (wDB v) s ->
  follows (fun e => X e \/ due (foldl commit v mid) e) (wDB (foldl commit v mid)) s.
Proof.
  apply (commits_keep X (fun d db => follows d db s)).
  - intros d d' db wr Hd Hev H. by eapply follows_commit.
  - intros d d' db Hd H. by eapply follows_mono.
Qed.

Lemma subs_commits mid v : subsFollow (due (foldl commit v mid)) (wDB (foldl commit v mid)) (fun k => is_Some (dbSubs (wDB v) !! k)).
Proof.
  assert (H : subsFollow (fun e => False \/ due (foldl commit v mid) e) (wDB (foldl commit v mid)) (fun k => is_Some (dbSubs (wDB v) !! k))).
  { apply (commits_keep (fun _ => False) (fun d db => subsFollow d db (fun k => is_Some (dbSubs (wDB v) !! k)))).
    - intros d d' db wr Hd Hev H. by eapply subs_commit.
    - intros d d' db Hd H k. destruct (H k); [by left|right]. by eapply stale_mono.
    - intros k. by left. }
  intros k. destruct (H k) as [?|Hs]; [by left|right]. eapply stale_mono; [|exact Hs]. intros e [[]|He]; done.
Qed.

(** An event that is delivered or lost leaves the others. *)
Lemma due_delete v i ev late e : wComing v !! i = Some (ev, late) -> due v e ->
  e = ev /\ (wSubscribed v = true \/ late = true) \/ due (mkWatch (wDB v) (delete i (wComing v)) (wLive v) (wSubscribed v)) e.
Proof.
  intros Hi (l & Hin & Hl). apply list_elem_of_lookup in Hin as [j Hj]. destruct (decide (j = i)) as [->|Hne].
  - left. rewrite Hi in Hj. by injection Hj as -> ->.
  - right. exists l. split; [|done]. cbn [wComing]. apply list_elem_of_lookup. destruct (decide (j < i)%nat) as [Hlt|Hge].
    + exists j. by rewrite list_lookup_delete_lt.
    + exists (j - 1)%nat. rewrite list_lookup_delete_ge by lia. rewrite <- Hj. f_equal. lia.
Qed.

(** In every run the matcher follows the database up to the events due. *)
Definition winv (v : Watch) : Prop := wfDB (wDB v) /\ forall s, wLive v = Some s -> follows (due v) (wDB v) s.

Lemma winv_commit v wr : winv v -> winv (commit v wr).
Proof.
  intros [Hwf H]. split; [apply (commits_wfDB [wr] v Hwf)|]. intros s Hs. rewrite (proj1 (commit_rest v wr)) in Hs.
  eapply (follows_mono (fun e => False \/ due (commit v wr) e)); [by intros e [[]|?]|].
  apply (follows_commits (fun _ => False) s [wr] v). eapply follows_mono; [|by apply H]. by right.
Qed.

Lemma winv_notify v i order mid v' : winv v -> watchExec ParseIP Compile (ANotify i order mid) v = Some v' ->
  ranges (ANotify i order mid) v' -> timely (ANotify i order mid) v v' -> winv v'.
Proof.
  intros [Hwf H]. cbn [watchExec ranges timely]. destruct (wComing v !! i) as [[ev late]|] eqn:Ei; [|done].
  set (v0 := mkWatch _ _ _ _). set (v1 := foldl commit v0 mid). pose proof (commits_rest mid v0) as [El Es]. fold v1 in El, Es. cbn [wLive wSubscribed v0] in El, Es.
  assert (Hwf1 : wfDB (wDB v1)) by (by apply commits_wfDB).
  assert (Hdue : forall e, due v e -> (e = ev /\ (wSubscribed v = true \/ late = true)) \/ due v0 e) by (intros e; by apply due_delete).
  destruct (wLive v) as [s|] eqn:Ew; [destruct (wSubscribed v) eqn:Eb|].
  - destruct (notifyChanges _ _ _ _ _ _ _) as [s'| |] eqn:En; [|done..]. intros [= <-]. cbn [wLive wSubscribed wDB wComing]. intros Hc Ht. split; [done|]. intros s0 [= <-].
    cbn [notifyChanges] in En. destruct (onConfigChange _ _ _ _ _ _ _) as [s1| |] eqn:Ec; [|done..]. injection En as <-.
    assert (Hd1 : forall e, due v1 e -> due (mkWatch (wDB v1) (wComing v1) (Some s1) true) e) by (intros e (l & Hin & _); exists l; split; [done|by left]).
    eapply follows_mono; [exact Hd1|]. apply (follows_event (due v1) (wDB v1) ev) with (order := order) (db0 := wDB v) (s := s); [| |apply (subs_commits mid v0)|exact Ec|by apply Hc].
    + intros Ho Hst. destruct (Ht Ho Hst) as [l Hl]. exists l. split; [done|]. rewrite Es. by left.
    + apply (follows_commits (fun e => e = ev) s mid v0). eapply follows_mono; [|by apply H]. intros e He. destruct (Hdue e He) as [[-> _]|?]; [by left|by right].
  - intros [= <-] _ ->. split; [done|]. intros s0 Hs0. rewrite El in Hs0. injection Hs0 as <-.
    eapply (follows_mono (fun e => False \/ due v1 e)); [by intros e [[]|?]|]. apply (follows_commits (fun _ => False) s mid v0).
    eapply follows_mono; [|by apply H]. intros e He. right. destruct (Hdue e He) as [[_ [?|?]]|?]; done.
  - intros [= <-] _ _. split; [done|]. intros s0 Hs0. rewrite El in Hs0. done.
Qed.

Lemma winv_step v a v' : winv v -> watchExec ParseIP Compile a v = Some v' -> ranges a v' -> timely a v v' -> winv v'.
Proof.
  intros Hw. destruct a as [wr|now order| |i order mid|fuel req mapping now].
  - intros [= <-] _ _. by apply winv_commit.
  - cbn. destruct Hw as [Hwf H]. destruct (wLive v) eqn:El; [done|]. destruct (BuildRuleMatcher _ _ _ _ _) as [[s|e]| |] eqn:Eb; try done.
    + intros [= <-] Hr _. split; [done|]. intros s0 [= <-]. apply agrees_follows. by eapply build_agrees.
    + intros [= <-] _ _. by split; [|rewrite El].
  - cbn. destruct Hw as [Hwf H]. destruct (wLive v) as [s|] eqn:El; [|done]. intros [= <-] _ _. split; [done|]. intros s0 [= <-].
    eapply follows_mono; [|by apply H]. intros e (l & Hin & _). exists l. split; [done|by left].
  - by apply winv_notify.
  - cbn. destruct Hw as [Hwf H]. destruct (wLive v) as [s|] eqn:El; [|done]. destruct (ResolveMatch _ _ _ _ _ _ _) as [[[[g ?] ?] ?]| |] eqn:Er; try done.
    intros [= <-] _ _. split; [done|]. intros s0 [= <-]. apply use_follows; [by eapply ResolveMatch_static|]. eapply follows_mono; [|by apply H]. done.
Qed.

Lemma reach_winv v : reach v -> winv v.
Proof. induction 1 as [db Hwf|v a v' _ IH He Hr Ht]; [by split|by eapply winv_step]. Qed.

(** With no via that only names a group, rewiring ends. *)
Lemma rewire_returns order w h m ns : valid h (proxies w) -> (forall p, plain (viaIn h) w p) -> exists s', rewire Compile order w h m ns = Returns s'.
Proof.
  intros Hv Hpl. unfold rewire.
  assert (Hr : forall ns, exists ns', rewireNextChains Compile (viaIn h) (S (S (size h))) (S (size (groups w))) w ns order = Returns (w, ns')).
  { induction order as [|p l IH]; intros ns0; cbn [rewireNextChains]; [by eexists|].
    assert (Hsub : pointers w ⊆ dom h).
    { intros q Hq. apply elem_of_list_to_set, list_elem_of_fmap in Hq as ([k q'] & -> & Hq). apply elem_of_map_to_list in Hq.
      apply elem_of_dom. by eapply Hv. }
    apply subseteq_size in Hsub. rewrite size_dom in Hsub.
    assert (Hlt : (size (pointers w ∖ ∅) < S (S (size h)))%nat) by (rewrite difference_empty_L; lia).
    assert (Hng : forall q, proxies w !! viaIn h q = None -> groups w !! viaIn h q = None).
    { intros q Hn. destruct (Hpl q) as [[x Hx]|Hx]; [congruence|done]. }
    destruct (setNext_walk Compile (viaIn h) w Hng (S (size (groups w))) (S (S (size h))) ns0 ∅ p) as [(l' & _ & ->)|(_ & ns' & ->)];
      [set_solver|exact Hlt|set_solver|apply IH|apply IH]. }
  destruct (Hr ns) as [ns' ->]. by eexists.
Qed.

(** Events of the other buckets always end. *)
Lemma event_returns order db0 db ev s : evBucket ev <> BucketProxies -> evBucket ev <> BucketProxyGroups ->
  exists s', onConfigChange ParseIP Compile order db0 db ev s = Returns s'.
Proof.
  intros H1 H2. unfold onConfigChange. destruct (evBucket ev); try done; destruct (evOp ev); repeat case_match; try (by eexists);
    match goal with H : parseRules ?t = None |- _ => destruct (parseRules_total t) as [? Hp]; congruence end.
Qed.

End Events.


(** The order of a map listed. *)
Definition valuesOf (ps : gmap string positive) : list positive := map snd (map_to_list ps).
Lemma valuesOf_all ps k p : ps !! k = Some p -> p ∈ valuesOf ps.
Proof. intros H. apply list_elem_of_fmap. exists (k, p). split; [done|]. by apply elem_of_map_to_list. Qed.

Section Demo.
Open Scope string_scope.
Definition emptyDB : Database := mkDB ∅ ∅ ∅ ∅ ∅ ∅ emptyRules "7".
Definition demoProxy (name via : string) : Proxy := mkProxy name None "SOCKS5" via "" 8 0 0 0 None None.
Definition demoDB : Database :=
  foldl (fun db wr => fst (write wr db)) emptyDB
    [PutProxy (demoProxy "a" ""); PutProxy (demoProxy "b" "a"); EditRules (OpInsert "MATCH,b" None); PutMapping "web"].
Definition demoBuild : outcome (Live + BuildError) := BuildRuleMatcher demoParseIP (fun _ => None) 1 valuesOf demoDB.
Definition demoWrite : DBWrite := PutProxy (demoProxy "a" "").

(** The proxies as an event leaves them, in the order listed. *)
Definition orderAfter (ev : ChangeEvent) (s : Live) : list positive :=
  let ps := proxies (rmWorld (rm s)) in
  match evBucket ev, evOp ev with
  | BucketProxies, OpPut => valuesOf (<[evKey ev := fresh (dom (heap s))]> ps)
  | BucketProxies, OpDel => valuesOf (delete (evKey ev) ps)
  | _, _ => valuesOf ps
  end.
Definition demoOrder (s : Live) : list positive := orderAfter (eventOf demoWrite) s.
Definition demoWritten : Database := fst (write demoWrite demoDB).
Definition demoAfter (s : Live) : outcome Live :=
  notifyChanges demoParseIP (fun _ => None) (demoOrder s) demoWritten demoWritten (snd (write demoWrite demoDB)) s.

(** The chain of a proxy in a state: the names of the pointers along Next. *)
Definition nextIs (s : Live) (k n : string) : bool :=
  match proxies (rmWorld (rm s)) !! k with
  | Some p => bool_decide (nexts s !! p = Some (proxies (rmWorld (rm s)) !! n))
  | None => false
  end.


(** Runs of the demo: actions, and the [i]-th event notified with nothing in between. *)
Definition demoExec (a : WatchAct) (o : option Watch) : option Watch := match o with Some w => watchExec demoParseIP (fun _ => None) a w | None => None end.
Definition notifyNow (i : nat) (o : option Watch) : option Watch :=
  match o with
  | Some w =>
      match wComing w !! i, wLive w with
      | Some (ev, _), Some s => demoExec (ANotify i (orderAfter ev s) []) o
      | _, _ => demoExec (ANotify i [] []) o
      end
  | None => None
  end.
Definition demoStart : option Watch := Some (mkWatch demoDB [] None false).
Definition demoGot : option Watch := demoExec ASubscribe (demoExec (ABuild 1 valuesOf) demoStart).
Definition written_then (wr : DBWrite) (o : option Watch) : option Watch := notifyNow 0 (demoExec (ACommit wr) o).

(** A proxy is deleted and stored again; the event of the second write comes first.  The
    matcher ends without the proxy that the database has, and no event is to come. *)
Example late_delete_wins :
  match notifyNow 0 (notifyNow 1 (demoExec (ACommit (PutProxy (demoProxy "a" ""))) (demoExec (ACommit (DeleteProxy "a")) demoGot))) with
  | Some (mkWatch db [] (Some s) true) =>
      bool_decide (is_Some (dbProxies db !! "a")) = true /\ bool_decide (is_Some (proxies (rmWorld (rm s)) !! "a")) = false
  | _ => False
  end.
Proof. vm_compute. split; reflexivity. Qed.

(** A write that commits and notifies after the matcher was built and before it subscribed. *)
Example write_before_subscription_missed :
  match demoExec ASubscribe (written_then (PutMapping "mail") (demoExec (ABuild 1 valuesOf) demoStart)) with
  | Some (mkWatch db [] (Some s) true) =>
      bool_decide ("mail" ∈ dbMappings db) = true /\ bool_decide ("mail" ∈ rmMappings (rm s)) = false
  | _ => False
  end.
Proof. vm_compute. split; reflexivity. Qed.

(** The pool of a subscription stays in the matcher when it is deleted. *)
Example deleted_pool_stays :
  match written_then (DeleteSubscriptionNodes "sub")
          (written_then (PutSubscriptionNodes "sub" (Some {["n" := demoProxy "n" ""]})) (written_then (PutSubscription "sub" None) demoGot)) with
  | Some (mkWatch db [] (Some s) true) =>
      bool_decide (is_Some (dbNodes db !! "sub")) = false /\
      bool_decide (is_Some (subscriptions (rmWorld (rm s)) !! "sub" ≫= fun pool => pool !! "n")) = true
  | _ => False
  end.
Proof. vm_compute. split; reflexivity. Qed.

(** A rule added at run time, as the control server does for a reverse client, is lost with
    the next edit of any stored rule: the watcher replaces all rules by the stored ones. *)
Lemma rules_event_drops_dynamic ParseIP Compile order db0 db s r texts rules : listRules (dbRules db) = inl texts -> parseRules texts = Some rules ->
  onConfigChange ParseIP Compile order db0 db (mkEvent BucketRules "__rebuilt__" OpPut) (mkLive (AddRule ParseIP (rm s) r) (heap s) (nexts s)) =
  Returns (mkLive (setRules ParseIP (rm s) rules) (heap s) (nexts s)).
Proof. intros Ht Hp. unfold onConfigChange. cbn. by rewrite Ht, Hp. Qed.

(** Proxy "a" is limited to 8 Mbit/s when it is loaded at start-up, and not limited once it
    has been saved again: the watcher does not initialise what it installs. *)
Definition limited (o : outcome Live) (k : string) : option bool :=
  match o with
  | Returns s => (fun x => bool_decide (is_Some (UpRateLimiter x))) <$> (proxies (rmWorld (rm s)) !! k ≫= fun p => heap s !! p)
  | _ => None
  end.
Example watcher_drops_limit :
  match demoBuild with
  | Returns (inl s) => limited (Returns s) "a" = Some true /\ limited (demoAfter s) "a" = Some false
  | _ => False
  end.
Proof. vm_compute. split; reflexivity. Qed.
End Demo.
