(* ===== verification/Dialing.v ===== *)
(** Dialing: connections through chains of proxies, src/dialer: the choice of a dialer and
    the walk along the Next fields (dialer.go and the Dial methods of the protocols), the
    cache of SSH clients (ssh.go), dialing by route (bind.go) and the range of UDP ports.

    A dial is the list of what it does to the network with its outcome; what the network
    and the peers answer are arguments.  Proxies are pointers into a heap and the Next
    fields are those that Rules.setNext writes.  One goroutine is followed; the SSH cache
    is guarded by one mutex, and a goroutine that locks it twice stops for ever. *)

From Stdlib Require Import ZArith Lia Permutation.
From stdpp Require Import base gmap list numbers strings.
From S2P Require Import Prelude GoStrings Groups Rules.
Open Scope Z_scope.

(** ** Proxies and their dialers *)

Definition upperAscii (c : Ascii.ascii) : Ascii.ascii :=
  let n := Ascii.nat_of_ascii c in if ((97 <=? n) && (n <=? 122))%nat then Ascii.ascii_of_nat (n - 32) else c.
Fixpoint ToUpper (s : string) : string :=
  match s with EmptyString => EmptyString | String c s => String (upperAscii c) (ToUpper s) end.

(** The fields that dialing reads; [Server] and [Port] as ServerAddr returns them, and the
    address of the URL of an HTTP tunnel. *)
Record DialProxy := mkDialProxy {
  Name : string; Type_ : string; Server : string; Port : Z; URLAddr : string * Z; ReverseAddress : string;
  P2P : option bool; V2 : bool
}.

Definition IsP2PCompatibleType (typ : string) : bool :=
  EqualFold typ "socks5" || EqualFold typ "trojan" || EqualFold typ "h_tunnel".
Definition IsP2P (d : DialProxy) : bool := IsP2PCompatibleType (Type_ d) && default true (P2P d).

(** The dialers NewDialer chooses from. *)
Inductive dialer :=
| DirectDialer | Socks5Dialer | TrojanDialer | HTunnelDialer | Hysteria2Dialer | VLESSDialer | SSHDialer
| ShadowsocksDialer | HTTPDialer | StubDialer | MeshAwareDialer.

Definition baseDialer (typ : string) : dialer :=
  let t := ToUpper typ in
  if String.eqb t "DIRECT" then DirectDialer
  else if String.eqb t "SOCKS5" then Socks5Dialer
  else if String.eqb t "TROJAN" then TrojanDialer
  else if String.eqb t "H_TUNNEL" then HTunnelDialer
  else if String.eqb t "HYSTERIA2" then Hysteria2Dialer
  else if String.eqb t "VLESS" then VLESSDialer
  else if String.eqb t "SSH" then SSHDialer
  else if String.eqb t "SS" then ShadowsocksDialer
  else if String.eqb t "HTTP" then HTTPDialer
  else StubDialer.

Definition NewDialer (d : DialProxy) : dialer :=
  match baseDialer (Type_ d) with
  | DirectDialer => DirectDialer
  | StubDialer => StubDialer
  | b => if IsP2P d && V2 d then MeshAwareDialer else b
  end.

(** The UDP side: [true] for the proxies a datagram association exists for. *)
Inductive udpDialer := UDPReverse | UDPBy (d : dialer) | UDPStub.
Definition NewUDPDialer (p : option DialProxy) : udpDialer :=
  match p with
  | None => UDPBy DirectDialer
  | Some d =>
      if negb (String.eqb (ReverseAddress d) "") then UDPReverse
      else match baseDialer (Type_ d) with
           | SSHDialer | HTTPDialer | StubDialer | MeshAwareDialer => UDPStub
           | b => UDPBy b
           end
  end.
Definition ChainUDPDial (p : option DialProxy) : udpDialer :=
  match p with
  | None => UDPBy DirectDialer
  | Some d => if String.eqb (ToUpper (Type_ d)) "DIRECT" then UDPBy DirectDialer else NewUDPDialer p
  end.

(** ** Dialing by route *)

Inductive IP := V4 (a : Z) | V6 (a : Z).
Definition isV4 (i : IP) : bool := match i with V4 _ => true | V6 _ => false end.

(** The first IPv4 address of a list, or else what was there before. *)
Fixpoint preferIPv4 (ips : list IP) (d : IP) : IP :=
  match ips with [] => d | V4 a :: _ => V4 a | V6 _ :: ips => preferIPv4 ips d end.

(** What is asked of a peer over a connection: a TLS or SSH handshake, a request for a
    destination, the requests of an HTTP tunnel by number, a channel by attempt. *)
Inductive layer :=
| Tls | SshHello | Connect (host : string) (port : Z) | TunnelReq (n : nat) (host : string) (port : Z)
| Channel (attempt : nat) (host : string) (port : Z).

Inductive act :=
| Socket (host : string) (port : Z) (ok : bool)
| Registry (addr : string) (ok : bool)
| Layer (x : positive) (l : layer) (ok : bool)
| Quic (x : positive) (host : string) (port : Z) (ok : bool)
| Mesh (ip : IP) (port : Z) (routed : bool) (ok : bool)
| Closed.

(** What the network and its peers answer. *)
Record Net := mkNet {
  ParseIP : string -> option IP;                        (* net.ParseIP of a host *)
  ResolveRouteAware : string -> option (list string);   (* the upstream resolver *)
  dialBound : IP -> Z -> bool; osDial : string -> Z -> bool;
  bindContext : bool;                                   (* whether a bind context is set *)
  registryMatch : string -> bool; registryMode : string -> bool;  (* reverse registry, mode frame *)
  v2Subnet : string -> option (option IP);              (* peer of a proxy ready; its resolver *)
  remoteResolve : string -> IP -> option (list IP);
  netstackDialV2 : IP -> Z -> bool -> bool;
  answers : positive -> layer -> bool; quicOk : positive -> string -> Z -> bool;
  pooled : positive -> bool                             (* idle connections of an HTTP tunnel's client *)
}.

Section Network.
Variable net : Net.

Fixpoint tryEach (ips : list string) (port : Z) : bool :=
  match ips with
  | [] => false
  | s :: ips => match ParseIP net s with
                | None => tryEach ips port
                | Some ip => if dialBound net ip port then true else tryEach ips port
                end
  end.

Definition DialRouteAware (host : string) (port : Z) : bool :=
  if negb (bindContext net) then osDial net host port
  else match ParseIP net host with
       | Some ip => dialBound net ip port
       | None => match ResolveRouteAware net host with None => false | Some ips => tryEach ips port end
       end.

(** ** A chain *)

Variable heap : gmap positive DialProxy.
Variable nexts : Nexts (P := positive).

(** [cache] holds the names with an SSH client. *)
Inductive dialed := Done (tr : list act) (ok : bool) (cache : gset string) | Deadlock (tr : list act) | Exhausted.

Definition prepend (tr : list act) (r : dialed) : dialed :=
  match r with Done tr' ok c => Done (tr ++ tr') ok c | Deadlock tr' => Deadlock (tr ++ tr') | Exhausted => Exhausted end.
(** Go on after a success. *)
Definition andThen (r : dialed) (f : gset string -> dialed) : dialed :=
  match r with Done tr true c => prepend tr (f c) | r => r end.

Definition direct (host : string) (port : Z) (c : gset string) : dialed :=
  let ok := DialRouteAware host port in Done [Socket host port ok] ok c.

(** Handshakes in order; the connection is closed at the first that fails. *)
Fixpoint overConn (x : positive) (ls : list layer) (c : gset string) : dialed :=
  match ls with
  | [] => Done [] true c
  | l :: ls => if answers net x l then prepend [Layer x l true] (overConn x ls c) else Done [Layer x l false; Closed] false c
  end.
(** The same over connections that a client keeps. *)
Fixpoint overPool (x : positive) (ls : list layer) (c : gset string) : dialed :=
  match ls with
  | [] => Done [] true c
  | l :: ls => if answers net x l then prepend [Layer x l true] (overPool x ls c) else Done [Layer x l false] false c
  end.

Definition TryReverse (d : DialProxy) (c : gset string) : dialed :=
  if registryMatch net (ReverseAddress d)
  then if registryMode net (ReverseAddress d) then Done [Registry (ReverseAddress d) true] true c
       else Done [Registry (ReverseAddress d) true; Closed] false c
  else Done [Registry (ReverseAddress d) false] false c.

Definition meshDial (d : DialProxy) (host : string) (port : Z) (c : gset string) : dialed :=
  match v2Subnet net (Name d) with
  | None => Done [] false c
  | Some dns =>
      match ParseIP net host with
      | None =>
          match dns with
          | None => Done [] false c
          | Some dnsIP =>
              match remoteResolve net host dnsIP with
              | None | Some [] => Done [] false c
              | Some (i :: ips) =>
                  let ip := preferIPv4 (i :: ips) i in
                  let ok := netstackDialV2 net ip port false in Done [Mesh ip port false ok] ok c
              end
          end
      | Some ip => let ok := netstackDialV2 net ip port true in Done [Mesh ip port true ok] ok c
      end
  end.

(** The proxy behind a Next field; nil and the direct singleton are direct. *)
Definition next (x : positive) : option positive := match nexts !! x with Some (Some n) => Some n | _ => None end.

(** The client of an HTTP tunnel goes through Next unless that is of type DIRECT. *)
Definition chained (x : positive) : bool :=
  match next x with
  | Some n => match heap !! n with Some dn => negb (String.eqb (Type_ dn) "DIRECT") | None => false end
  | None => false
  end.

(** ** The protocols *)

(** [toServer] dials the server of a proxy through its Next field. *)
Section Protocols.
Variable x : positive.
Variable d : DialProxy.
Definition reversed : bool := negb (String.eqb (ReverseAddress d) "").

Definition dialSocks5 (toServer : gset string -> dialed) (host : string) (port : Z) (c : gset string) : dialed :=
  andThen (if reversed then TryReverse d c else toServer c) (overConn x [Connect host port]).

Definition dialTrojan (toServer : gset string -> dialed) (host : string) (port : Z) (c : gset string) : dialed :=
  if reversed then andThen (TryReverse d c) (overConn x [Connect host port])
  else andThen (toServer c) (overConn x [Tls; Connect host port]).

Definition dialVLESS (toServer : gset string -> dialed) (host : string) (port : Z) (c : gset string) : dialed :=
  andThen (toServer c) (overConn x [Tls; Connect host port]).

Definition dialShadowsocks (host : string) (port : Z) (c : gset string) : dialed :=
  andThen (direct (Server d) (Port d) c) (overConn x [Connect host port]).
Definition dialHTTP (host : string) (port : Z) (c : gset string) : dialed :=
  andThen (direct (Server d) (Port d) c) (overConn x [Connect host port]).

(** The transport of the client of an HTTP tunnel. *)
Definition tunnelTransport (toServer : gset string -> dialed) (c : gset string) : dialed :=
  if chained x then toServer c else direct (fst (URLAddr d)) (snd (URLAddr d)) c.
Definition dialHTunnel (toServer : gset string -> dialed) (host : string) (port : Z) (c : gset string) : dialed :=
  if reversed then TryReverse d c
  else andThen (if pooled net x then Done [] true c else tunnelTransport toServer c)
         (overPool x [TunnelReq 0 host port; TunnelReq 1 host port; TunnelReq 2 host port]).

(** [held]: this goroutine holds sshCacheMu, and it does while it makes a client. *)
Definition createSSHClient (toServer : gset string -> dialed) (c : gset string) : dialed :=
  andThen (toServer c) (overConn x [SshHello]).
Definition getSSHClient (held : bool) (toServer : gset string -> dialed) (c : gset string) : dialed :=
  if held then Deadlock []
  else if decide (Name d ∈ c) then Done [] true c
  else andThen (createSSHClient toServer c) (fun c => Done [] true ({[Name d]} ∪ c)).

(** A channel that fails has the client removed and made anew. *)
Definition dialSSH (held : bool) (toServer : gset string -> dialed) (host : string) (port : Z) (c : gset string) : dialed :=
  andThen (getSSHClient held toServer c) (fun c =>
    if answers net x (Channel 0 host port) then Done [Layer x (Channel 0 host port) true] true c
    else prepend [Layer x (Channel 0 host port) false; Closed]
           (andThen (getSSHClient held toServer (c ∖ {[Name d]})) (overPool x [Channel 1 host port]))).
End Protocols.

(** Dial of what NewDialer returns. *)
Fixpoint dial (fuel : nat) (held : bool) (p : option positive) (host : string) (port : Z) (c : gset string) : dialed :=
  match fuel with
  | O => Exhausted
  | S fuel =>
      match p with
      | None => direct host port c
      | Some x =>
          match heap !! x with
          | None => direct host port c
          | Some d =>
              let toServer := dial fuel held (next x) (Server d) (Port d) in
              match NewDialer d with
              | DirectDialer => direct host port c
              | StubDialer => Done [] false c
              | MeshAwareDialer => meshDial d host port c
              | Socks5Dialer => dialSocks5 x d toServer host port c
              | TrojanDialer => dialTrojan x d toServer host port c
              | HTunnelDialer => dialHTunnel x d toServer host port c
              | Hysteria2Dialer => let ok := quicOk net x host port in Done [Quic x host port ok] ok c
              | VLESSDialer => dialVLESS x toServer host port c
              | ShadowsocksDialer => dialShadowsocks x d host port c
              | HTTPDialer => dialHTTP x d host port c
              | SSHDialer => dialSSH x d held (dial fuel true (next x) (Server d) (Port d)) host port c
              end
          end
      end
  end.

(** chainDial: the guard sees the depth of its caller, and every caller passes 0. *)
Definition maxDialDepth : Z := 10.
Definition chainDial (fuel : nat) (p : option positive) (host : string) (port : Z) (depth : Z) (c : gset string) : dialed :=
  if maxDialDepth <? depth then Done [] false c else dial fuel false p host port c.
Definition ChainDial (fuel : nat) (p : option positive) (host : string) (port : Z) (c : gset string) : dialed := chainDial fuel p host port 0 c.

(** DialToProxy: the server of a proxy through its chain, without the mesh path. *)
Definition DialToProxy (fuel : nat) (x : positive) (c : gset string) : dialed :=
  match heap !! x with
  | None => Done [] false c
  | Some d =>
      match next x with
      | Some n => if EqualFold (default "" (Type_ <$> heap !! n)) "DIRECT" then direct (Server d) (Port d) c
                  else dial fuel false (Some n) (Server d) (Port d) c
      | None => direct (Server d) (Port d) c
      end
  end.

(** ** Reference: the steps of a chain *)

(** What a proxy that forwards streams over its Next asks of its server. *)
Definition streamLayers (d : DialProxy) (host : string) (port : Z) : option (list layer) :=
  match NewDialer d with
  | Socks5Dialer => if String.eqb (ReverseAddress d) "" then Some [Connect host port] else None
  | TrojanDialer => if String.eqb (ReverseAddress d) "" then Some [Tls; Connect host port] else None
  | VLESSDialer => Some [Tls; Connect host port]
  | _ => None
  end.

(** What a dial does, one step at a time. *)
Inductive step :=
| OpenSocket (host : string) (port : Z) | TakeReverse (addr : string) | OpenQuic (x : positive) (host : string) (port : Z)
| ThroughMesh (d : DialProxy) (host : string) (port : Z) | Refuse
| AskLayer (x : positive) (l : layer) | AskPooled (x : positive) (l : layer).

(** The connection a proxy starts from when it does not dial through its Next field. *)
Definition ownTransport (x : positive) (d : DialProxy) (host : string) (port : Z) : option (list step) :=
  match NewDialer d with
  | DirectDialer => Some [OpenSocket host port]
  | StubDialer => Some [Refuse]
  | MeshAwareDialer => Some [ThroughMesh d host port]
  | Hysteria2Dialer => Some [OpenQuic x host port]
  | ShadowsocksDialer | HTTPDialer => Some [OpenSocket (Server d) (Port d)]
  | Socks5Dialer | TrojanDialer => if String.eqb (ReverseAddress d) "" then None else Some [TakeReverse (ReverseAddress d)]
  | HTunnelDialer =>
      if negb (String.eqb (ReverseAddress d) "") then Some [TakeReverse (ReverseAddress d)]
      else if pooled net x then Some []
      else if chained x then None else Some [OpenSocket (fst (URLAddr d)) (snd (URLAddr d))]
  | VLESSDialer | SSHDialer => None
  end.

(** What it asks over that connection. *)
Definition requests (x : positive) (d : DialProxy) (host : string) (port : Z) : list step :=
  match NewDialer d with
  | DirectDialer | StubDialer | MeshAwareDialer | Hysteria2Dialer | SSHDialer => []
  | Socks5Dialer | ShadowsocksDialer | HTTPDialer => [AskLayer x (Connect host port)]
  | TrojanDialer => (if String.eqb (ReverseAddress d) "" then [AskLayer x Tls] else []) ++ [AskLayer x (Connect host port)]
  | VLESSDialer => [AskLayer x Tls; AskLayer x (Connect host port)]
  | HTunnelDialer =>
      if String.eqb (ReverseAddress d) "" then map (fun n => AskPooled x (TunnelReq n host port)) [0; 1; 2]%nat else []
  end.

(** A chain: from a Next field to the first proxy that does not dial through its own. *)
Inductive chainFrom : option positive -> list (positive * DialProxy) -> Prop :=
| chainNil : chainFrom None []
| chainGone x : heap !! x = None -> chainFrom (Some x) []
| chainEnd x d : heap !! x = Some d -> is_Some (ownTransport x d "" 0) -> chainFrom (Some x) [(x, d)]
| chainStep x d l : heap !! x = Some d -> NewDialer d <> SSHDialer -> ownTransport x d "" 0 = None ->
    chainFrom (next x) l -> chainFrom (Some x) ((x, d) :: l).

(** The connection of the last proxy, and then the requests from the last proxy to the
    first, each asked for the server of the proxy before it. *)
Fixpoint plan (l : list (positive * DialProxy)) (host : string) (port : Z) : list step :=
  match l with
  | [] => [OpenSocket host port]
  | (x, d) :: l => default (plan l (Server d) (Port d)) (ownTransport x d host port) ++ requests x d host port
  end.

(** The steps until one fails; a request that fails closes the connection, unless an HTTP
    client keeps it. *)
Fixpoint perform (steps : list step) (c : gset string) : dialed :=
  match steps with
  | [] => Done [] true c
  | OpenSocket host port :: steps =>
      if DialRouteAware host port then prepend [Socket host port true] (perform steps c) else Done [Socket host port false] false c
  | TakeReverse addr :: steps =>
      if registryMatch net addr
      then if registryMode net addr then prepend [Registry addr true] (perform steps c) else Done [Registry addr true; Closed] false c
      else Done [Registry addr false] false c
  | OpenQuic x host port :: steps =>
      if quicOk net x host port then prepend [Quic x host port true] (perform steps c) else Done [Quic x host port false] false c
  | ThroughMesh d host port :: steps => andThen (meshDial d host port c) (perform steps)
  | Refuse :: _ => Done [] false c
  | AskLayer x l :: steps =>
      if answers net x l then prepend [Layer x l true] (perform steps c) else Done [Layer x l false; Closed] false c
  | AskPooled x l :: steps =>
      if answers net x l then prepend [Layer x l true] (perform steps c) else Done [Layer x l false] false c
  end.

Lemma prepend_app tr tr' r : prepend tr (prepend tr' r) = prepend (tr ++ tr') r.
Proof. destruct r; cbn; rewrite ?app_assoc; done. Qed.

Lemma andThen_prepend tr r f : andThen (prepend tr r) f = prepend tr (andThen r f).
Proof. destruct r as [tr' [] c | tr' |]; cbn; try done. rewrite prepend_app. done. Qed.

Lemma prepend_nil r : prepend [] r = r.
Proof. destruct r; done. Qed.

Lemma andThen_ext r f g : (forall c, f c = g c) -> andThen r f = andThen r g.
Proof. intros H. destruct r as [tr [] c | tr |]; cbn; [rewrite H |..]; done. Qed.

Lemma andThen_assoc r f g : andThen (andThen r f) g = andThen r (fun c => andThen (f c) g).
Proof. destruct r as [tr [] c | tr |]; cbn; try done. apply andThen_prepend. Qed.

Lemma perform_app a b c : andThen (perform a c) (perform b) = perform (a ++ b) c.
Proof.
  revert c. induction a as [| s a IH]; intros c; cbn; [apply prepend_nil |].
  destruct s; rewrite ?andThen_assoc; repeat case_match; try done; rewrite ?andThen_prepend, ?IH; try done.
  by apply andThen_ext.
Qed.

Lemma overConn_perform x ls c : overConn x ls c = perform (map (AskLayer x) ls) c.
Proof. induction ls as [| l ls IH]; cbn; [done |]. destruct (answers net x l); [rewrite IH |]; done. Qed.
Lemma overPool_perform x ls c : overPool x ls c = perform (map (AskPooled x) ls) c.
Proof. induction ls as [| l ls IH]; cbn; [done |]. destruct (answers net x l); [rewrite IH |]; done. Qed.

Lemma direct_perform host port c : direct host port c = perform [OpenSocket host port] c.
Proof. unfold direct. cbn. by destruct (DialRouteAware host port). Qed.
Lemma reverse_perform d c : TryReverse d c = perform [TakeReverse (ReverseAddress d)] c.
Proof. unfold TryReverse. cbn. by repeat case_match. Qed.

Lemma andThen_done r : andThen r (perform []) = r.
Proof. destruct r as [tr [] c | tr |]; cbn; rewrite ?app_nil_r; done. Qed.

Lemma streamLayers_some d host port : is_Some (streamLayers d "" 0) -> exists ls, streamLayers d host port = Some ls.
Proof. unfold streamLayers. intros [ls H]. destruct (NewDialer d); try done; try (destruct (String.eqb _ _); [| done]); eauto. Qed.

(** One hop of a dial. *)
Lemma dial_hop fuel held x d ls host port c :
  heap !! x = Some d -> streamLayers d host port = Some ls ->
  dial (S fuel) held (Some x) host port c = andThen (dial fuel held (next x) (Server d) (Port d) c) (overConn x ls).
Proof.
  intros Hx Hl. cbn [dial]. rewrite Hx. unfold streamLayers in Hl. destruct (NewDialer d); try done.
  - unfold dialSocks5, reversed. destruct (String.eqb (ReverseAddress d) ""); [| done]. injection Hl as <-. done.
  - unfold dialTrojan, reversed. destruct (String.eqb (ReverseAddress d) ""); [| done]. injection Hl as <-. done.
  - injection Hl as <-. done.
Qed.

(** One proxy of a chain: its own transport or the dial of its Next, and its requests. *)
Lemma dial_proxy fuel held x d host port c : heap !! x = Some d -> NewDialer d <> SSHDialer ->
  dial (S fuel) held (Some x) host port c =
  andThen (match ownTransport x d host port with
           | Some steps => perform steps c
           | None => dial fuel held (next x) (Server d) (Port d) c
           end) (perform (requests x d host port)).
Proof.
  intros Hx Hs. cbn [dial]. rewrite Hx. unfold ownTransport, requests. destruct (NewDialer d) eqn:Ed; try done.
  - by rewrite andThen_done, direct_perform.
  - unfold dialSocks5, reversed. destruct (String.eqb (ReverseAddress d) ""); cbn [negb]; rewrite ?reverse_perform; apply andThen_ext;
      intros; apply overConn_perform.
  - unfold dialTrojan, reversed. destruct (String.eqb (ReverseAddress d) ""); cbn [negb]; rewrite ?reverse_perform; apply andThen_ext;
      intros; apply overConn_perform.
  - unfold dialHTunnel, tunnelTransport, reversed. destruct (String.eqb (ReverseAddress d) ""); cbn [negb];
      [|by rewrite andThen_done, reverse_perform].
    destruct (pooled net x); [|destruct (chained x)]; rewrite ?direct_perform; apply andThen_ext; intros; apply overPool_perform.
  - rewrite andThen_done. cbn. by destruct (quicOk net x host port).
  - unfold dialShadowsocks. rewrite <- direct_perform. apply andThen_ext. intros. apply overConn_perform.
  - unfold dialHTTP. rewrite <- direct_perform. apply andThen_ext. intros. apply overConn_perform.
  - rewrite andThen_done. cbn [perform]. by rewrite andThen_done.
Qed.

(** Whether a proxy has a transport of its own does not depend on the destination. *)
Lemma ownTransport_none x d host port : ownTransport x d "" 0 = None -> ownTransport x d host port = None.
Proof. unfold ownTransport. repeat case_match; done. Qed.
Lemma ownTransport_some x d host port : is_Some (ownTransport x d "" 0) ->
  NewDialer d <> SSHDialer /\ exists steps, ownTransport x d host port = Some steps.
Proof. unfold ownTransport. intros [? H]. repeat case_match; split; try done; eauto. Qed.

Lemma dial_chain l : forall p fuel held host port c,
  chainFrom p l -> (length l < fuel)%nat -> dial fuel held p host port c = perform (plan l host port) c.
Proof.
  induction l as [| [x d] l IH]; intros p [| fuel] held host port c Hc Hf; cbn [length] in Hf; try lia; cbn [plan].
  - inversion Hc as [| x Hx | |]; subst; cbn [dial]; [apply direct_perform |]. rewrite Hx. apply direct_perform.
  - inversion Hc as [| | ? ? Hx Ho | ? ? ? Hx Hs Ho Hn]; subst.
    + destruct (ownTransport_some x d host port Ho) as [Hs [steps E]]. rewrite (dial_proxy fuel held x d), E by done. apply perform_app.
    + rewrite (dial_proxy fuel held x d) by done. rewrite (ownTransport_none x d host port Ho). cbn [default from_option].
      rewrite IH by (done || lia). apply perform_app.
Qed.

(** ** Chains without an end, and SSH behind SSH *)

(** Every hop along Next forwards streams. *)
Fixpoint hop (n : nat) (p : option positive) : option positive :=
  match n, p with O, _ => p | S n, Some x => hop n (next x) | S _, None => None end.
Definition endless (p : option positive) : Prop :=
  forall n, exists x d, hop n p = Some x /\ heap !! x = Some d /\ is_Some (streamLayers d "" 0).

Lemma endless_dial fuel : forall p held host port c, endless p -> dial fuel held p host port c = Exhausted.
Proof.
  induction fuel as [| fuel IH]; intros p held host port c He; [done |].
  destruct (He 0%nat) as (x & d & Hx & Hd & Hs). cbn in Hx. subst p.
  destruct (streamLayers_some d host port Hs) as [ls Hls]. rewrite (dial_hop fuel held x d ls) by done.
  rewrite IH; [done |]. intros n. destruct (He (S n)) as (y & dy & Hy & H). exists y, dy. done.
Qed.

(** An SSH proxy at the end of a chain of stream proxies. *)
Inductive toSSH : option positive -> nat -> Prop :=
| sshHere x d : heap !! x = Some d -> NewDialer d = SSHDialer -> toSSH (Some x) 0
| sshBehind x d n : heap !! x = Some d -> is_Some (streamLayers d "" 0) -> toSSH (next x) n -> toSSH (Some x) (S n).

Lemma toSSH_held n : forall p fuel host port c, toSSH p n -> (n < fuel)%nat -> dial fuel true p host port c = Deadlock [].
Proof.
  induction n as [| n IH]; intros p [| fuel] host port c Ht Hf; try lia.
  - inversion Ht as [x d Hx Hd |]; subst. cbn [dial]. rewrite Hx, Hd. done.
  - inversion Ht as [| x d m Hx Hs Hn]; subst. destruct (streamLayers_some d host port Hs) as [ls Hls].
    rewrite (dial_hop fuel true x d ls) by done. rewrite IH by (done || lia). done.
Qed.

Lemma ssh_chain n x d fuel host port c :
  heap !! x = Some d -> NewDialer d = SSHDialer -> Name d ∉ c -> toSSH (next x) n -> (S n < fuel)%nat ->
  dial fuel false (Some x) host port c = Deadlock [].
Proof.
  intros Hx Hd Hc Hn Hf. destruct fuel as [| fuel]; [lia |]. cbn [dial]. rewrite Hx, Hd.
  unfold dialSSH, getSSHClient, createSSHClient. rewrite decide_False by done. rewrite (toSSH_held n) by (done || lia). done.
Qed.

End Network.

(** ** UDP ports *)

(** The port that is tried at an offset; [last] is the port of the last success. *)
Definition rangeStart (min max last : Z) : Z := if (min <=? last) && (last <? max) then last + 1 else min.
Definition portAt (min max last offset : Z) : Z :=
  let port := rangeStart min max last + offset in if max <? port then min + (port - max - 1) else port.

Fixpoint tryPorts (free : Z -> bool) (min max last : Z) (fuel : nat) (offset : Z) : option Z :=
  match fuel with
  | O => None
  | S fuel =>
      if max - min <? offset then None
      else let port := portAt min max last offset in
           if free port then Some port else tryPorts free min max last fuel (offset + 1)
  end.

(** listenPacketWithPortRange: the port and the new last port. *)
Definition listenRange (free : Z -> bool) (min max last : Z) : option Z * Z :=
  match tryPorts free min max last (Z.to_nat (max - min + 1)) 0 with
  | Some port => (Some port, port)
  | None => (None, last)
  end.

(** SetUDPPortRange. *)
Definition SetUDPPortRange (min max : Z) (range : Z * Z) : Z * Z := if (0 <? min) && (min <=? max) then (min, max) else range.

Ltac portCases := repeat match goal with |- context [?m <? ?x] => destruct (Z.ltb_spec m x) end.

Lemma portAt_range min max last offset : min <= max -> 0 <= offset <= max - min -> min <= portAt min max last offset <= max.
Proof.
  intros H Ho. unfold portAt, rangeStart.
  destruct ((min <=? last) && (last <? max)) eqn:E; [apply andb_true_iff in E as [?%Z.leb_le ?%Z.ltb_lt] |];
    portCases; lia.
Qed.

Lemma portAt_inj min max last a b :
  min <= max -> 0 <= a <= max - min -> 0 <= b <= max - min -> portAt min max last a = portAt min max last b -> a = b.
Proof.
  intros H Ha Hb. unfold portAt, rangeStart.
  destruct ((min <=? last) && (last <? max)) eqn:E; [apply andb_true_iff in E as [?%Z.leb_le ?%Z.ltb_lt] |];
    portCases; lia.
Qed.

(** Every port of the range is tried at some offset. *)
Lemma portAt_surj min max last port : min <= port <= max -> exists o, 0 <= o <= max - min /\ portAt min max last o = port.
Proof.
  intros H. unfold portAt, rangeStart.
  destruct ((min <=? last) && (last <? max)) eqn:E; [apply andb_true_iff in E as [?%Z.leb_le ?%Z.ltb_lt] |].
  - destruct (decide (last + 1 <= port)).
    + exists (port - (last + 1)). portCases; lia.
    + exists (port - min + max - last). portCases; lia.
  - exists (port - min). portCases; lia.
Qed.

Lemma tryPorts_first free min max last fuel : forall offset,
  0 <= offset -> (Z.to_nat (max - min + 1 - offset) <= fuel)%nat ->
  match tryPorts free min max last fuel offset with
  | Some port => exists o, offset <= o <= max - min /\ port = portAt min max last o /\ free port = true /\
                   forall o', offset <= o' < o -> free (portAt min max last o') = false
  | None => forall o, offset <= o <= max - min -> free (portAt min max last o) = false
  end.
Proof.
  induction fuel as [| fuel IH]; intros offset Ho Hf; cbn [tryPorts]; [intros o ?; lia |].
  destruct (Z.ltb_spec (max - min) offset); [intros o ?; lia |].
  destruct (free (portAt min max last offset)) eqn:E.
  - exists offset. split_and!; [lia | lia | done | done | intros; lia].
  - specialize (IH (offset + 1) ltac:(lia) ltac:(lia)). destruct (tryPorts free min max last fuel (offset + 1)) as [port |].
    + destruct IH as (o & Hr & Hp & Hfr & Hb). exists o. split_and!; [lia | lia | done | done |].
      intros o' ?. destruct (decide (o' = offset)) as [-> |]; [done |]. apply Hb. lia.
    + intros o ?. destruct (decide (o = offset)) as [-> |]; [done |]. apply IH. lia.
Qed.

(** ** Properties *)


(** An SSH proxy behind an SSH proxy stops the goroutine.  The client of an SSH proxy is
    made under the mutex of the client cache; when its chain, over any number of SOCKS5,
    Trojan and VLESS proxies, leads to another SSH proxy, that one locks the mutex again,
    whether or not it has a client, and the dial never returns. *)
Theorem ssh_behind_ssh_deadlocks (net : Net) (heap : gmap positive DialProxy) (nexts : Nexts (P := positive))
    (n fuel : nat) (x : positive) (d : DialProxy) (host : string) (port : Z) (c : gset string) :
  heap !! x = Some d -> NewDialer d = SSHDialer -> Name d ∉ c -> toSSH heap nexts (next nexts x) n -> (S n < fuel)%nat ->
  ChainDial net heap nexts fuel (Some x) host port c = Deadlock [].
Proof. apply ssh_chain. Qed.

(** A chain without an end: the guard on the depth does not stop it, no fuel is enough. *)
Lemma endless_chain_never_returns net heap nexts p :
  endless heap nexts p -> forall fuel host port c, ChainDial net heap nexts fuel p host port c = Exhausted.
Proof. intros H fuel host port c. apply endless_dial. exact H. Qed.

(** The ports of the range are tried once each, from the port after the last success and
    around; the first free one is taken, and there is an error only if none is free. *)
Theorem udp_ports_exact (free : Z -> bool) (min max last : Z) :
  min <= max ->
  match listenRange free min max last with
  | (Some port, last') => last' = port /\ free port = true /\ exists o, 0 <= o <= max - min /\ port = portAt min max last o /\
      forall o', 0 <= o' < o -> free (portAt min max last o') = false
  | (None, last') => last' = last /\ forall port, min <= port <= max -> free port = false
  end.
Proof.
  intros H. unfold listenRange. assert (Ht := tryPorts_first free min max last (Z.to_nat (max - min + 1)) 0 ltac:(lia) ltac:(lia)).
  destruct (tryPorts free min max last (Z.to_nat (max - min + 1)) 0) as [port |].
  - destruct Ht as (o & Hr & Hp & Hf & Hb). split_and!; [done | done |]. exists o. split_and!; [lia | lia | done |].
    intros o' ?. apply Hb. lia.
  - split; [done |]. intros port Hp. destruct (portAt_surj min max last port Hp) as (o & Ho & <-). apply Ht. lia.
Qed.

(** ** Witnesses *)

Open Scope string_scope.
Definition proxyOf (name typ server : string) : DialProxy := mkDialProxy name typ server 1080 ("", 0%Z) "" None false.
Definition okNet : Net :=
  mkNet (fun _ => None) (fun _ => None) (fun _ _ => true) (fun _ _ => true) false (fun _ => true) (fun _ => true)
    (fun _ => None) (fun _ _ => None) (fun _ _ _ => true) (fun _ _ => true) (fun _ _ _ => true) (fun _ => false).
Definition demoHeap : gmap positive DialProxy :=
  {[1%positive := proxyOf "a" "socks5" "a.example"; 2%positive := proxyOf "b" "trojan" "b.example";
    3%positive := proxyOf "s" "SSH" "s.example"; 4%positive := proxyOf "t" "ssh" "t.example";
    5%positive := proxyOf "v" "vless" "v.example"; 6%positive := proxyOf "h" "http" "h.example"]}.
Definition demoNexts : Nexts (P := positive) :=
  {[1%positive := Some 2%positive; 2%positive := None; 3%positive := Some 4%positive; 4%positive := None;
    5%positive := Some 6%positive; 6%positive := Some 2%positive]}.


Lemma ssh_behind_ssh_deadlocks_witness : ChainDial okNet demoHeap demoNexts 2 (Some 3%positive) "x.example" 443 ∅ = Deadlock [].
Proof.
  apply (ssh_behind_ssh_deadlocks okNet demoHeap demoNexts 0 2 3 (proxyOf "s" "SSH" "s.example")).
  - reflexivity.
  - reflexivity.
  - set_solver.
  - apply (sshHere _ _ _ (proxyOf "t" "ssh" "t.example")); reflexivity.
  - lia.
Defined.

Lemma udp_ports_exact_witness : listenRange (fun p => p =? 40001)%Z 40000 40003 40001 = (Some 40001%Z, 40001%Z) /\
  exists o, (0 <= o <= 40003 - 40000)%Z /\ 40001%Z = portAt 40000 40003 40001 o.
Proof.
  assert (H := udp_ports_exact (fun p => p =? 40001)%Z 40000 40003 40001 ltac:(lia)).
  split; [vm_compute; reflexivity |]. vm_compute listenRange in H. destruct H as (_ & _ & o & Ho & Hp & _). exists o. split; assumption.
Defined.

(** Proxies that name each other: rewireNextChains writes both Next fields, and a dial
    through either never comes back. *)
Definition viaOther (p : positive) : string := if Pos.eqb p 1 then "b" else "a".
Definition viaWorld : World positive := mkWorld {["a" := 1%positive; "b" := 2%positive]} ∅ ∅.

Example rewired_cycle_never_returns :
  match rewireNextChains (fun _ => None) viaOther 3 0 viaWorld ∅ [1%positive; 2%positive] with
  | Returns (_, nexts) => forall fuel host port c, ChainDial okNet demoHeap nexts fuel (Some 1%positive) host port c = Exhausted
  | _ => False
  end.
Proof.
  destruct (rewireNextChains (fun _ => None) viaOther 3 0 viaWorld ∅ [1%positive; 2%positive]) as [[w nexts] | |] eqn:E;
    [| vm_compute in E; discriminate ..].
  assert (E1 : next nexts 1 = Some 2%positive) by (vm_compute in E; injection E as <- <-; reflexivity).
  assert (E2 : next nexts 2 = Some 1%positive) by (vm_compute in E; injection E as <- <-; reflexivity).
  apply endless_chain_never_returns. intros n.
  assert (Hn : forall n, hop nexts n (Some 1%positive) = Some 1%positive \/ hop nexts n (Some 1%positive) = Some 2%positive).
  { clear n. assert (Hb : forall n, (hop nexts n (Some 1%positive) = Some 1%positive \/ hop nexts n (Some 1%positive) = Some 2%positive) /\
      (hop nexts n (Some 2%positive) = Some 1%positive \/ hop nexts n (Some 2%positive) = Some 2%positive)).
    { induction n as [| n [IH1 IH2]]; [cbn; auto |]. cbn [hop]. rewrite E1, E2. auto. }
    intros n. apply Hb. }
  destruct (Hn n) as [-> | ->]; eexists _, _; (split; [reflexivity |]); (split; [reflexivity | eexists; reflexivity]).
Qed.

(** An HTTP or Shadowsocks proxy goes straight to its server, whatever its Next field says:
    a chain ends there. *)
Example http_ignores_chain :
  ChainDial okNet {[1%positive := proxyOf "h" "http" "h.example"; 2%positive := proxyOf "b" "trojan" "b.example"]}
    {[1%positive := Some 2%positive]} 3 (Some 1%positive) "x.example" 443 ∅ =
  Done [Socket "h.example" 1080 true; Layer 1 (Connect "x.example" 443) true] true ∅.
Proof. vm_compute. reflexivity. Qed.
