(* ===== verification/ConnHandler.v ===== *)
(** ConnHandler: what becomes of a connection that the network stack accepts, handler
    src/handler/connection_handler.go: restoration of names, local services, rules, dials,
    the record of the connection, and the relay of both directions (also util.Relay).

    A handler is the list of what it does, in order, the deferred calls at its return
    included; the rules, the dials and the resolver are arguments with their answers.  The
    relay is a machine of two goroutines over two connections. *)

From Stdlib Require Import ZArith Lia.
From stdpp Require Import base gmap list numbers strings.
From S2P Require Import Prelude GoStrings FakeIP ConnLog Groups Rules Dialing.
Open Scope Z_scope.

(** ** Handlers *)

Record HProxy := mkHProxy { hpName : string; hpType : string }.
Definition isDirect (p : option HProxy) : bool := match p with None => true | Some p => EqualFold (hpType p) "DIRECT" end.
Definition isType (typ : string) (p : option HProxy) : bool := match p with None => false | Some p => String.eqb (ToUpper (hpType p)) typ end.
(** A proxy that is neither nil nor DIRECT. *)
Definition throughProxy (p : option HProxy) : option HProxy :=
  match p with Some x => if String.eqb (ToUpper (hpType x)) "DIRECT" then None else Some x | None => None end.

(** What db.ResolveMatch answers: destination, proxy and match. *)
Record Matched := mkMatched { mDst : string; mPort : Z; mProxy : option HProxy; mResult : option ConnLog.MatchResult }.

Record Handler := mkHandler {
  fakeIP : option FakeIPPool; localMeshNodeID : string; localMeshVIPs : gset string;
  adminHandler : bool; sshHandler : bool;
  isMeshIP : option (IP -> bool); resolveForDirect : option (string -> string + list IP);
  (* the language, the rules and the network *)
  parseIP : string -> option IP; ipText : IP -> string;
  resolveMatch : string -> string -> Z -> string -> option Matched;
  localDial : Z -> bool; proxyDial : HProxy -> string -> Z -> option string;
  meshDialTo : string -> Z -> string + string; osDialTo : string -> Z -> option string;
  egressNode : IP -> string; udpProxyDial : HProxy -> option string; udpListen : option IP -> option string
}.

Inductive hact :=
| HStart (inbound protocol srcAddr originalDst : string) | HRec (c : call)
| HDialLocal (port : Z) (ok : bool) | HDialProxy (name addr : string) (port : Z) (ok : bool)
| HDialMesh (addr : string) (port : Z) (ok : bool) | HDialDirect (addr : string) (port : Z) (ok : bool)
| HServeSSH | HServeAdmin | HRelay | HRelayUDP (dst : option IP) (port : Z) | HCloseTarget | HCloseConn.

Section Handler.
Variable h : Handler.

(** The domain behind a fake address. *)
Definition domainOf (dstAddr : string) : string :=
  match fakeIP h, parseIP h dstAddr with Some p, Some (V4 ip) => LookupDomain p ip | _, _ => "" end.

(** The node's own names, addresses and subnet. *)
Definition ownDomain (domain : string) : bool :=
  negb (String.eqb domain "") && negb (String.eqb (localMeshNodeID h) "") && String.eqb domain (localMeshNodeID h ++ ".phn").
Definition meshAddr (addr : string) : bool :=
  match isMeshIP h, parseIP h addr with Some f, Some ip => f ip | _, _ => false end.
Definition localNode (domain dstAddr : string) : bool :=
  ownDomain domain || bool_decide (dstAddr ∈ localMeshVIPs h) || meshAddr dstAddr.

(** An address of the pool that stands for nothing any more. *)
Definition staleFake (domain dstAddr : string) : bool :=
  String.eqb domain "" &&
  match fakeIP h, parseIP h dstAddr with Some p, Some (V4 ip) => InAllocRange p ip | _, _ => false end.

Definition matchAddr (domain dstAddr : string) : string := if String.eqb domain "" then dstAddr else domain.
Definition mappingName (modeB : option string) : string := default "TUN" modeB.

(** A local destination. *)
Definition serveLocal (inbound srcAddr domain connID : string) (srcPort dstPort : Z) : list hact :=
  let served proxy act :=
    [HStart inbound "TCP" srcAddr domain; HRec (WithConn connID srcPort);
     HRec (Resolve "localhost" dstPort (Some (mkMatch proxy "" "" "" ""))); HRec (Establish connID None false);
     act; HRec Close; HCloseConn] in
  if (dstPort =? 22) && sshHandler h then served "LOCAL-SSH"%string HServeSSH
  else if adminHandler h then served "LOCAL"%string HServeAdmin
  else if localDial h dstPort then [HDialLocal dstPort true; HRelay; HCloseTarget; HCloseConn]
  else [HDialLocal dstPort false; HCloseConn].

(** The address a direct dial goes to; [None] with what the record is told. *)
Definition directAddr (addr : string) : string + option string :=
  match parseIP h addr with
  | Some _ => inl addr
  | None =>
      match resolveForDirect h with
      | None => inr (Some "resolveForDirect callback not set"%string)
      | Some f =>
          match f addr with
          | inl err => inr (Some err)
          | inr [] => inr None
          | inr ips => match List.filter isV4 ips with ip :: _ => inl (ipText h ip) | [] => inl addr end
          end
      end
  end.

(** The end of a connection that has its target. *)
Definition relayed (connID : string) (proxy : option HProxy) : list hact :=
  [HRec (Establish connID (hpName <$> proxy) (isDirect proxy)); HRelay; HCloseTarget; HRec Close; HCloseConn].
Definition failed (calls : list call) : list hact := map HRec calls ++ [HRec Close; HCloseConn].

Definition dialTarget (connID srcAddr inbound : string) (m : Matched) : list hact :=
  let addr := mDst m in let port := mPort m in let proxy := mProxy m in
  match throughProxy proxy with
  | Some p =>
      match proxyDial h p addr port with
      | None => HDialProxy (hpName p) addr port true :: relayed connID proxy
      | Some err => HDialProxy (hpName p) addr port false :: failed [Fail_ (Some err)]
      end
  | None =>
      match directAddr addr with
      | inr err => failed [Fail_ err]
      | inl dialAddr =>
          if meshAddr dialAddr then
            match meshDialTo h dialAddr port with
            | inl fwdKey =>
                let via := match parseIP h dialAddr with Some ip => egressNode h ip | None => ""%string end in
                HDialMesh dialAddr port true :: map HRec [SetDst dialAddr; SetVia via; SetFwdKey fwdKey] ++ relayed connID proxy
            | inr err => HDialMesh dialAddr port false :: failed [SetDst dialAddr; Fail_ (Some err)]
            end
          else
            match osDialTo h dialAddr port with
            | None => HDialDirect dialAddr port true :: relayed connID proxy
            | Some err => HDialDirect dialAddr port false :: failed [SetDst dialAddr; Fail_ (Some err)]
            end
      end
  end.

Definition HandleTCPConn (connID srcAddr : string) (srcPort : Z) (dstAddr : string) (dstPort : Z) (inbound0 : string) (modeB : option string) : list hact :=
  let inbound := if String.eqb inbound0 "" then "TUN"%string else inbound0 in
  let domain := domainOf dstAddr in
  if staleFake domain dstAddr then [HCloseConn]
  else if localNode domain dstAddr then serveLocal inbound srcAddr domain connID srcPort dstPort
  else
    let addr := matchAddr domain dstAddr in
    match resolveMatch h "tcp" addr dstPort (mappingName modeB) with
    | None => [HCloseConn]
    | Some m =>
        [HStart inbound "TCP" srcAddr addr; HRec (WithConn connID srcPort); HRec (Resolve (mDst m) (mPort m) (mResult m))] ++
        (if isType "REJECT" (mProxy m) then failed [Reject] else dialTarget connID srcAddr inbound m)
    end.

(** The address datagrams go to, when the proxy is direct. *)
Definition udpDialIP (localDomain : bool) (addr : string) : option IP + option string :=
  if localDomain then inl (Some (V4 2130706433))
  else match parseIP h addr with
       | Some ip => inl (Some ip)
       | None =>
           match resolveForDirect h with
           | None => inr (Some "resolveForDirect callback not set"%string)
           | Some f =>
               match f addr with
               | inl err => inr (Some err)
               | inr [] => inr None
               | inr ips => match List.filter isV4 ips with ip :: _ => inl (Some ip) | [] => inl None end
               end
           end
       end.

(** [remote]: the address and port of the client when the text of the remote address splits. *)
Definition HandleUDPConn (connID srcAddr0 : string) (remote : option (string * Z)) (dstAddr : string) (dstPort : Z) (inbound0 : string)
    (modeB : option string) : list hact :=
  let inbound := if String.eqb inbound0 "" then "TUN"%string else inbound0 in
  let domain := domainOf dstAddr in
  let local := ownDomain domain in
  let srcPort := match remote with Some (_, p) => p | None => 0 end in
  let srcAddr := match remote with Some (host, _) => if String.eqb srcAddr0 "" then host else srcAddr0 | None => srcAddr0 end in
  let addr := matchAddr domain dstAddr in
  match resolveMatch h "udp" addr dstPort (mappingName modeB) with
  | None => []
  | Some m =>
      let relayedUDP dialIP :=
        ((if local then [HRec (SetDst "127.0.0.1")] else []) ++
         [HRec (Establish connID (hpName <$> mProxy m) (isDirect (mProxy m))); HRelayUDP dialIP (mPort m); HCloseTarget; HRec Close])%list in
      [HStart inbound "UDP" srcAddr addr; HRec (WithConn connID srcPort); HRec (Resolve (mDst m) (mPort m) (mResult m))] ++
      (if isType "REJECT" (mProxy m) then [HRec Reject; HRec Close]
       else match throughProxy (mProxy m) with
            | Some p =>
                match udpProxyDial h p with
                | None => HDialProxy (hpName p) (mDst m) (mPort m) true :: relayedUDP (parseIP h (mDst m))
                | Some err => [HDialProxy (hpName p) (mDst m) (mPort m) false; HRec (Fail_ (Some err)); HRec Close]
                end
            | None =>
                match udpDialIP local (mDst m) with
                | inr err => [HRec (Fail_ err); HRec Close]
                | inl dialIP =>
                    match udpListen h dialIP with
                    | None => HDialDirect (mDst m) (mPort m) true :: relayedUDP dialIP
                    | Some err => [HDialDirect (mDst m) (mPort m) false; HRec (SetDst (match dialIP with Some ip => ipText h ip | None => "<nil>" end));
                                   HRec (Fail_ (Some err)); HRec Close]
                    end
                end
            end)
  end.
End Handler.

(** ** The relay *)

(** The two connections by side: [false] is the accepted one, [true] the target. *)
Inductive readErr := NoErr | EOF | OtherErr.
Inductive dirState := Running | EndedEOF | EndedErr.

(** One goroutine: what it read of its source and what reached its destination. *)
Record Dir := mkDir { got : list Z; sent : list Z; dstate : dirState }.
Record Side := mkSide { closed : bool; wclosed : bool }.
Record Relay := mkRelay { dir : bool -> Dir; side : bool -> Side }.

Definition setAt {A} (b : bool) (x : A) (f : bool -> A) : bool -> A := fun i => if Bool.eqb i b then x else f i.
Definition newRelay : Relay := mkRelay (fun _ => mkDir [] [] Running) (fun _ => mkSide false false).

Definition closeBoth (r : Relay) : bool -> Side := fun i => mkSide true (wclosed (side r i)).

(** CloseWriteOrClose. *)
Definition CloseWriteOrClose (canHalf : bool) (s : Side) : Side :=
  if canHalf then mkSide (closed s) true else mkSide true (wclosed s).

(** One turn of the goroutine that reads side [b] and writes the other: what Read returned
    and how many bytes Write took, all of them when it succeeded.  [None] when connections
    do not answer so: a closed one reads nothing but an error, and a closed one or one that
    was shut for writing takes nothing. *)
Definition relayTurn (canHalf : bool -> bool) (b : bool) (data : list Z) (err : readErr) (taken : nat) (r : Relay) : option Relay :=
  let d := dir r b in
  let o := negb b in
  let ok := (length data <=? taken)%nat in
  let cannotRead := closed (side r b) in
  let cannotWrite := closed (side r o) || wclosed (side r o) in
  if negb (match dstate d with Running => true | _ => false end) then None
  else if cannotRead && negb (bool_decide (data = []) && match err with OtherErr => true | _ => false end) then None
  else if cannotWrite && negb (bool_decide (taken = 0%nat)) then None
  else if negb (bool_decide (data = [])) && negb ok
  then Some (mkRelay (setAt b (mkDir (got d ++ data) (sent d ++ take taken data) EndedErr) (dir r)) (closeBoth r))
  else
    let d' := mkDir (got d ++ data) (sent d ++ data) in
    match err with
    | NoErr => Some (mkRelay (setAt b (d' Running) (dir r)) (side r))
    | EOF => Some (mkRelay (setAt b (d' EndedEOF) (dir r)) (setAt o (CloseWriteOrClose (canHalf o) (side r o)) (side r)))
    | OtherErr => Some (mkRelay (setAt b (d' EndedErr) (dir r)) (closeBoth r))
    end.

Inductive relayReach (canHalf : bool -> bool) : Relay -> Prop :=
| relay_new : relayReach canHalf newRelay
| relay_turn r b data err taken r' : relayReach canHalf r -> relayTurn canHalf b data err taken r = Some r' -> relayReach canHalf r'.

(** Of datagrams: any end closes both sides. *)
Definition relayUDPTurn (b : bool) (packet : list Z) (err : bool) (ok : bool) (r : Relay) : option Relay :=
  let d := dir r b in
  if negb (match dstate d with Running => true | _ => false end) then None
  else if closed (side r b) && negb (bool_decide (packet = []) && err) then None
  else if closed (side r (negb b)) && ok then None
  else if negb (bool_decide (packet = [])) && negb ok
  then Some (mkRelay (setAt b (mkDir (got d ++ packet) (sent d) EndedErr) (dir r)) (closeBoth r))
  else
    let d' := mkDir (got d ++ packet) (sent d ++ packet) in
    if err then Some (mkRelay (setAt b (d' EndedErr) (dir r)) (closeBoth r))
    else Some (mkRelay (setAt b (d' Running) (dir r)) (side r)).

(** ** What a handler does to the log *)

(** The calls on the record. *)
Definition runAct (now : Z) (rs : option Record_ * connlog) (a : hact) : option Record_ * connlog :=
  match a, rs with
  | HStart ib pr sa od, (_, s) => (Some (Start ib pr sa od), s)
  | HRec c, (Some r, s) => let '(r, s) := recordCall now c (r, s) in (Some r, s)
  | _, rs => rs
  end.
Definition runActs (now : Z) (tr : list hact) (s : connlog) : connlog := snd (foldl (runAct now) (None, s) tr).

Definition callsOf (tr : list hact) : list call := omap (fun a => match a with HRec c => Some c | _ => None end) tr.
Definition starts (tr : list hact) : bool := existsb (fun a => match a with HStart _ _ _ _ => true | _ => false end) tr.

Lemma runActs_calls now tr : forall r s, starts tr = false ->
  foldl (runAct now) (Some r, s) tr = let '(r', s') := runCalls now (callsOf tr) (r, s) in (Some r', s').
Proof.
  induction tr as [| a tr IH]; intros r s Hs; [done |]. cbn [starts existsb] in Hs. apply orb_false_iff in Hs as [Ha Hs].
  destruct a as [| c | | | | | | | | | |]; try done; cbn [foldl runAct]; try (apply IH; done).
  change (callsOf (HRec c :: tr)) with (c :: callsOf tr).
  change (runCalls now (c :: callsOf tr) (r, s)) with (runCalls now (callsOf tr) (recordCall now c (r, s))).
  destruct (recordCall now c (r, s)) as [r' s']. apply IH. exact Hs.
Qed.

Lemma runActs_idle now tr s : starts tr = false -> runActs now tr s = s.
Proof.
  intros Hs. unfold runActs. assert (E : foldl (runAct now) (None, s) tr = (None, s)); [| rewrite E; done].
  induction tr as [| a tr IH]; [done |]. cbn [starts existsb] in Hs. apply orb_false_iff in Hs as [Ha Hs].
  destruct a; try done; cbn [foldl runAct]; apply IH; done.
Qed.

(** Calls for one connection id. *)
Definition okCall (connID : string) (c : call) : bool :=
  match c with WithConn id _ | Establish id _ _ => String.eqb id connID | _ => true end.

(** The table as a record that was used for one id has left it. *)
Record frameInv (connID : string) (m : gmap string ActiveConn) (r : Record_) (s : connlog) : Prop := {
  fr_other : forall i, i <> connID -> activeMap s !! i = m !! i;
  fr_own : established r = false -> activeMap s !! connID = None;
  fr_id : established r = true -> rConnID r = connID
}.

Lemma frame_call now connID m c r s :
  okCall connID c = true -> frameInv connID m r s ->
  let '(r', s') := recordCall now c (r, s) in frameInv connID m r' s'.
Proof.
  intros Hc [Ho Hn Hi].
  assert (Hlog : forall st er r, activeMap (snd (logRecord now st er r s)) = activeMap s /\ established (fst (logRecord now st er r s)) = established r
    /\ rConnID (fst (logRecord now st er r s)) = rConnID r) by (intros st er r0; unfold logRecord; destruct (finished r0); done).
  destruct c as [id p | | | | | | err | id proxy direct |]; cbn [recordCall okCall] in *.
  - apply String.eqb_eq in Hc. subst id. constructor; done.
  - constructor; done.
  - constructor; done.
  - constructor; done.
  - constructor; done.
  - destruct (Hlog "reject"%string None r) as (E1 & E2 & E3). destruct (logRecord now "reject" None r s) as [r' s']; cbn in *.
    constructor; rewrite ?E1, ?E2, ?E3; done.
  - destruct (Hlog "fail"%string err r) as (E1 & E2 & E3). destruct (logRecord now "fail" err r s) as [r' s']; cbn in *.
    constructor; rewrite ?E1, ?E2, ?E3; done.
  - apply String.eqb_eq in Hc. subst id. unfold establish.
    match goal with |- context [logRecord now "ok" None ?x s] => destruct (Hlog "ok"%string None x) as (E1 & E2 & E3);
      destruct (logRecord now "ok" None x s) as [r' s'] end; cbn in *.
    constructor; rewrite ?E2, ?E3; [| done | done].
    intros i Hin. rewrite <- Ho by done. rewrite <- E1. unfold TrackActive. destruct (atCapacity s'); [done |]. cbn.
    rewrite newActive_id, lookup_insert_ne by done. done.
  - destruct (established r) eqn:Ee; cbn [andb]; [| constructor; cbn; rewrite ?Ee; done].
    specialize (Hi eq_refl). destruct (String.eqb (rConnID r) "") eqn:En; cbn [negb];
      [constructor; rewrite ?Ee; done |]. rewrite Hi. constructor.
    + intros i Hin. rewrite RemoveActive_other by done. auto.
    + rewrite Ee. done.
    + done.
Qed.

Lemma frame_calls now connID m cs : forall r s,
  forallb (okCall connID) cs = true -> frameInv connID m r s ->
  let '(r', s') := runCalls now cs (r, s) in frameInv connID m r' s'.
Proof.
  induction cs as [| c cs IH]; intros r s Hc Hf; [done |]. cbn [forallb] in Hc. apply andb_true_iff in Hc as [Hc Hcs].
  change (runCalls now (c :: cs) (r, s)) with (runCalls now cs (recordCall now c (r, s))).
  assert (H := frame_call now connID m c r s Hc Hf). destruct (recordCall now c (r, s)) as [r' s']. apply IH; done.
Qed.

(** A record that ends with Close leaves the table as it was and one event at most. *)
Lemma handled_log now connID tr ib pr sa od (cs : list call) s :
  starts tr = false -> callsOf tr = (cs ++ [Close])%list -> forallb (okCall connID) cs = true ->
  connID <> ""%string -> activeMap s !! connID = None ->
  let s' := runActs now (HStart ib pr sa od :: tr) s in
  activeMap s' = activeMap s /\ totalConnections s' = totalConnections s + (if existsb terminal cs then 1 else 0).
Proof.
  intros Hs Hcs Hok Hid Hm. unfold runActs. cbn [foldl runAct]. rewrite runActs_calls by done. rewrite Hcs.
  assert (Ht := runCalls_total now (cs ++ [Close])%list (Start ib pr sa od) s). rewrite existsb_app in Ht. cbn in Ht.
  rewrite orb_false_r, andb_true_r in Ht. split.
  2: { destruct (runCalls now (cs ++ [Close])%list (Start ib pr sa od, s)) as [r' s']. exact Ht. }
  unfold runCalls. rewrite foldl_app. fold (runCalls now cs (Start ib pr sa od, s)).
  assert (Hf := frame_calls now connID (activeMap s) cs (Start ib pr sa od) s Hok). cbn [foldl].
  destruct (runCalls now cs (Start ib pr sa od, s)) as [r' s']. destruct Hf as [Ho Hn Hi]; [constructor; done |].
  cbn. apply map_eq. intros i. destruct (decide (i = connID)) as [-> | Hne].
  - rewrite Hm. destruct (established r') eqn:Ee; cbn [andb]; [| auto]. rewrite (Hi eq_refl).
    apply String.eqb_neq in Hid. rewrite Hid. cbn. apply RemoveActive_gone.
  - destruct (established r') eqn:Ee; cbn [andb]; [| auto]. rewrite (Hi eq_refl).
    destruct (negb (String.eqb connID "")); [rewrite RemoveActive_other by done |]; auto.
Qed.

(** ** The relay keeps bytes and order *)

Record relayInv (r : Relay) : Prop := {
  rel_sent : forall b, sent (dir r b) `prefix_of` got (dir r b);
  rel_all : forall b, dstate (dir r b) <> EndedErr -> sent (dir r b) = got (dir r b);
  rel_eof : forall b, dstate (dir r b) = EndedEOF -> wclosed (side r (negb b)) || closed (side r (negb b)) = true;
  rel_err : forall b i, dstate (dir r b) = EndedErr -> closed (side r i) = true
}.

Lemma setAt_eq {A} b (x : A) f : setAt b x f b = x.
Proof. unfold setAt. rewrite Bool.eqb_reflx. done. Qed.
Lemma setAt_ne {A} b (x : A) f i : i <> b -> setAt b x f i = f i.
Proof. intros H. unfold setAt. destruct (Bool.eqb_spec i b); done. Qed.

(** A turn that changes one direction and closes no side again. *)
Lemma relayInv_turn r b d' side' :
  relayInv r -> (forall i, closed (side r i) = true -> closed (side' i) = true) -> (forall i, wclosed (side r i) = true -> wclosed (side' i) = true) ->
  sent d' `prefix_of` got d' -> (dstate d' <> EndedErr -> sent d' = got d') ->
  (dstate d' = EndedEOF -> wclosed (side' (negb b)) || closed (side' (negb b)) = true) ->
  (dstate d' = EndedErr -> forall i, closed (side' i) = true) ->
  relayInv (mkRelay (setAt b d' (dir r)) side').
Proof.
  intros [H1 H2 H3 H4] Hc Hw Hp Ha He Hx. constructor; cbn; intros i.
  - destruct (decide (i = b)) as [-> |]; [rewrite setAt_eq | rewrite setAt_ne by done]; done.
  - destruct (decide (i = b)) as [-> |]; [rewrite setAt_eq | rewrite setAt_ne by done]; auto.
  - destruct (decide (i = b)) as [-> |]; [rewrite setAt_eq | rewrite setAt_ne by done]; [auto |].
    intros E. apply H3 in E. apply orb_true_iff in E as [E | E]; apply orb_true_iff; [left; auto | right; auto].
  - intros j. destruct (decide (i = b)) as [-> |]; [rewrite setAt_eq | rewrite setAt_ne by done]; [auto |].
    intros E. apply Hc, (H4 i j E).
Qed.

Lemma relayInv_step canHalf b data err taken r r' : relayInv r -> relayTurn canHalf b data err taken r = Some r' -> relayInv r'.
Proof.
  intros Hr. unfold relayTurn. destruct (dstate (dir r b)) eqn:Ed; cbn [negb]; try done.
  assert (Hall : sent (dir r b) = got (dir r b)) by (apply (rel_all r Hr); rewrite Ed; done).
  do 2 (match goal with |- (if ?x then None else _) = _ -> _ => destruct x; [done |] end).
  match goal with |- (if ?x then _ else _) = _ -> _ => destruct x end.
  - intros [= <-]. apply relayInv_turn; cbn; try done. apply prefix_app_alt; [exact Hall |]. apply prefix_take.
  - destruct err; intros [= <-]; apply relayInv_turn; cbn; try done; rewrite ?Hall; try done.
    + intros i. unfold setAt, CloseWriteOrClose. destruct (Bool.eqb_spec i (negb b)) as [-> |]; [| done]. destruct (canHalf (negb b)); done.
    + intros i. unfold setAt, CloseWriteOrClose. destruct (Bool.eqb_spec i (negb b)) as [-> |]; [| done]. destruct (canHalf (negb b)); done.
    + intros _. rewrite setAt_eq. unfold CloseWriteOrClose. destruct (canHalf (negb b)); cbn; [done | apply orb_true_r].
Qed.

Lemma relayInv_reach canHalf r : relayReach canHalf r -> relayInv r.
Proof.
  induction 1 as [| r b data err taken r' _ IH He]; [constructor; done |]. apply (relayInv_step canHalf b data err taken r); done.
Qed.

(** ** Traces *)

Definition isDial (a : hact) : option bool :=
  match a with
  | HDialLocal _ ok | HDialProxy _ _ _ ok | HDialMesh _ _ ok | HDialDirect _ _ ok => Some ok
  | _ => None
  end.
Definition attempts (tr : list hact) : nat := length (omap isDial tr).
Definition opens (tr : list hact) : nat := length (List.filter id (omap isDial tr)).
Definition targetCloses (tr : list hact) : nat := length (List.filter (fun a => match a with HCloseTarget => true | _ => false end) tr).
Definition connCloses (tr : list hact) : nat := length (List.filter (fun a => match a with HCloseConn => true | _ => false end) tr).
(** Dials that leave the node or its mesh. *)
Definition outside (a : hact) : bool :=
  match a with HDialProxy _ _ _ _ | HDialMesh _ _ _ | HDialDirect _ _ _ => true | _ => false end.

(** A record used for one id from Start to Close. *)
Definition goodCalls (connID : string) (cs : list call) : bool :=
  forallb (okCall connID) cs && match List.last cs Reject with Close => true | _ => false end.

Lemma goodCalls_split connID cs :
  goodCalls connID cs = true -> exists cs', cs = (cs' ++ [Close])%list /\ forallb (okCall connID) cs' = true.
Proof.
  unfold goodCalls. induction cs as [| c cs _] using rev_ind; [done |]. rewrite last_last, forallb_app.
  intros [[H _]%andb_true_iff Hc]%andb_true_iff. destruct c; try done. eauto.
Qed.

(** What every handled connection shows: one dial at most, its target closed if there was
    one, and a record, if it was started, that is closed last. *)
Definition wellBehaved (connID : string) (tr : list hact) : bool :=
  (attempts tr <=? 1)%nat && (opens tr =? targetCloses tr)%nat &&
  match tr with
  | HStart _ _ _ _ :: rest => negb (starts rest) && goodCalls connID (callsOf rest)
  | _ => negb (starts tr)
  end.

Ltac traceCases := repeat (case_match; try discriminate); cbn; unfold goodCalls; cbn; rewrite ?String.eqb_refl; reflexivity.

Lemma tcp_wellBehaved h connID srcAddr srcPort dstAddr dstPort inbound modeB :
  let tr := HandleTCPConn h connID srcAddr srcPort dstAddr dstPort inbound modeB in
  wellBehaved connID tr = true /\ connCloses tr = 1%nat /\ List.last tr HRelay = HCloseConn.
Proof.
  cbn zeta. unfold HandleTCPConn, serveLocal, dialTarget, relayed, failed.
  split_and!; traceCases.
Qed.

Lemma udp_wellBehaved h connID srcAddr remote dstAddr dstPort inbound modeB :
  wellBehaved connID (HandleUDPConn h connID srcAddr remote dstAddr dstPort inbound modeB) = true.
Proof. unfold HandleUDPConn. traceCases. Qed.

(** The log after a well behaved trace. *)
Lemma wellBehaved_log now connID tr s :
  wellBehaved connID tr = true -> connID <> ""%string -> activeMap s !! connID = None ->
  let s' := runActs now tr s in
  activeMap s' = activeMap s /\
  totalConnections s' = totalConnections s + (if starts tr && existsb terminal (callsOf tr) then 1 else 0).
Proof.
  unfold wellBehaved. intros [_ H]%andb_true_iff Hid Hm. destruct tr as [| a tr]; [cbn; split; [done | lia] |].
  destruct a as [ib pr sa od | | | | | | | | | | |]; try (apply negb_true_iff in H; rewrite runActs_idle by exact H; rewrite H; cbn; split; [done | lia]).
  apply andb_true_iff in H as [Hs Hg]. apply negb_true_iff in Hs. destruct (goodCalls_split connID (callsOf tr) Hg) as (cs & Ec & Hok).
  destruct (handled_log now connID tr ib pr sa od cs s) as [H1 H2]; [done .. |]. split; [exact H1 |]. rewrite H2.
  change (callsOf (HStart ib pr sa od :: tr)) with (callsOf tr). rewrite Ec, existsb_app. cbn. rewrite orb_false_r. done.
Qed.

(** ** Properties *)

(** C39: a TCP connection is handled to the end, whatever the rules and the network answer.  The
    accepted connection is closed once and last; there is at most one dial, and a target that
    was reached is closed; the table of active connections is afterwards what it was before,
    and at most one event was logged, one exactly if the record of the connection ended.  A
    stale fake address is neither dialled nor recorded; a destination of the node itself is
    dialled at most locally, whatever the rules say; a REJECT rule dials nothing. *)
Theorem tcp_conn_handled (h : Handler) (now : Z) (connID srcAddr : string) (srcPort : Z) (dstAddr : string) (dstPort : Z)
    (inbound : string) (modeB : option string) (s : connlog) :
  connID <> ""%string -> activeMap s !! connID = None ->
  let tr := HandleTCPConn h connID srcAddr srcPort dstAddr dstPort inbound modeB in
  let s' := runActs now tr s in
  (connCloses tr = 1%nat /\ List.last tr HRelay = HCloseConn /\ (attempts tr <= 1)%nat /\ opens tr = targetCloses tr) /\
  (activeMap s' = activeMap s /\
   totalConnections s' = totalConnections s + (if starts tr && existsb terminal (callsOf tr) then 1 else 0)) /\
  (staleFake h (domainOf h dstAddr) dstAddr = true -> tr = [HCloseConn]) /\
  (localNode h (domainOf h dstAddr) dstAddr = true -> existsb outside tr = false) /\
  (forall m, resolveMatch h "tcp" (matchAddr (domainOf h dstAddr) dstAddr) dstPort (mappingName modeB) = Some m ->
     isType "REJECT" (mProxy m) = true -> existsb outside tr = false).
Proof.
  intros Hid Hm tr s'. destruct (tcp_wellBehaved h connID srcAddr srcPort dstAddr dstPort inbound modeB) as (Hw & Hc & Hl).
  fold tr in Hw, Hc, Hl. split; [| split; [| split_and!]].
  - apply andb_true_iff in Hw as [[Ha Ho]%andb_true_iff _]. apply Nat.leb_le in Ha. apply Nat.eqb_eq in Ho. done.
  - apply (wellBehaved_log now connID); done.
  - unfold tr, HandleTCPConn. intros ->. done.
  - unfold tr, HandleTCPConn, serveLocal. intros ->. repeat case_match; done.
  - intros m Em Hr. unfold tr, HandleTCPConn, serveLocal. rewrite Em, Hr. repeat case_match; done.
Qed.

(** A datagram flow likewise, but for what its caller closes. *)
Theorem udp_conn_handled (h : Handler) (now : Z) (connID srcAddr : string) (remote : option (string * Z)) (dstAddr : string) (dstPort : Z)
    (inbound : string) (modeB : option string) (s : connlog) :
  connID <> ""%string -> activeMap s !! connID = None ->
  let tr := HandleUDPConn h connID srcAddr remote dstAddr dstPort inbound modeB in
  let s' := runActs now tr s in
  (attempts tr <= 1)%nat /\ opens tr = targetCloses tr /\ activeMap s' = activeMap s /\
  totalConnections s' = totalConnections s + (if starts tr && existsb terminal (callsOf tr) then 1 else 0).
Proof.
  intros Hid Hm tr s'. assert (Hw := udp_wellBehaved h connID srcAddr remote dstAddr dstPort inbound modeB). fold tr in Hw.
  destruct (wellBehaved_log now connID tr s Hw Hid Hm) as [H1 H2].
  apply andb_true_iff in Hw as [[Ha Ho]%andb_true_iff _]. apply Nat.leb_le in Ha. apply Nat.eqb_eq in Ho. done.
Qed.

(** C17: the relay forwards bytes in order and ends.  Under every interleaving of the two
    goroutines, with reads and writes that fail at any point: what one side was sent is a
    prefix of what was read of the other, and all of it unless the direction ended in an
    error; a direction that saw the end of its stream has shut its destination for writing;
    after an error both connections are closed, and the next turn of the other direction
    is its last. *)
Theorem relay_faithful (canHalf : bool -> bool) (r : Relay) :
  relayReach canHalf r ->
  (forall b, sent (dir r b) `prefix_of` got (dir r b)) /\
  (forall b, dstate (dir r b) <> EndedErr -> sent (dir r b) = got (dir r b)) /\
  (forall b, dstate (dir r b) = EndedEOF -> wclosed (side r (negb b)) || closed (side r (negb b)) = true) /\
  (forall b, dstate (dir r b) = EndedErr -> closed (side r false) = true /\ closed (side r true) = true /\
     forall data err taken r', relayTurn canHalf (negb b) data err taken r = Some r' -> dstate (dir r' (negb b)) = EndedErr).
Proof.
  intros Hr. destruct (relayInv_reach canHalf r Hr) as [H1 H2 H3 H4]. split_and!; [done .. |].
  intros b Hb. split_and!; [apply (H4 b); done .. |]. intros data err taken r'. unfold relayTurn.
  destruct (dstate (dir r (negb b))); cbn [negb]; try done. rewrite !(H4 b) by done. cbn [andb orb].
  destruct (bool_decide (data = [])) eqn:Ed; cbn [andb negb]; [| done].
  destruct err; cbn [negb]; try done. destruct (bool_decide (taken = 0%nat)); cbn [negb]; [| done].
  intros [= <-]. cbn. rewrite setAt_eq. done.
Qed.

(** ** Witnesses *)

Open Scope string_scope.
Definition demoText (s : string) : option IP :=
  if String.eqb s "192.0.2.7" then Some (V4 3221225991) else if String.eqb s "100.64.0.20" then Some (V4 1681915924) else None.
(** A node whose pool maps 100.64.0.20 to www.example, with one answer of the rules. *)
Definition demoHandler (p : option HProxy) : Handler :=
  mkHandler (Some (assignIP demoPool "www.example" 1681915924)) "n1" ∅ true true None
    (Some (fun _ => inr [V6 1; V4 3221225991])) demoText (fun _ => "192.0.2.7")
    (fun _ addr port _ => Some (mkMatched addr port p None))
    (fun _ => true) (fun _ _ _ => None) (fun _ _ => inl "key") (fun _ _ => None) (fun _ => "n2") (fun _ => None) (fun _ => None).

Lemma tcp_conn_handled_witness :
  activeMap (runActs 5 (HandleTCPConn (demoHandler None) "conn-1" "10.0.0.2" 5150 "100.64.0.20" 443 "" None) emptyLog) = ∅ /\
  HandleTCPConn (demoHandler None) "conn-1" "10.0.0.2" 5150 "100.64.0.20" 443 "" None =
    [HStart "TUN" "TCP" "10.0.0.2" "www.example"; HRec (WithConn "conn-1" 5150); HRec (Resolve "www.example" 443 None);
     HDialDirect "192.0.2.7" 443 true; HRec (Establish "conn-1" None true); HRelay; HCloseTarget; HRec Close; HCloseConn].
Proof.
  split; [| vm_compute; reflexivity].
  apply (tcp_conn_handled (demoHandler None) 5 "conn-1" "10.0.0.2" 5150 "100.64.0.20" 443 "" None emptyLog).
  - discriminate.
  - reflexivity.
Defined.

Lemma relay_faithful_witness :
  exists r, relayReach (fun _ => true) r /\ dstate (dir r false) = EndedEOF /\ sent (dir r false) = [1; 2; 3]%Z /\ wclosed (side r true) || closed (side r true) = true.
Proof.
  destruct (relayTurn (fun _ => true) false [1; 2; 3]%Z EOF 3 newRelay) as [r |] eqn:E; [| discriminate].
  assert (Hr : relayReach (fun _ => true) r) by (eapply relay_turn; [apply relay_new | exact E]).
  exists r. split; [exact Hr |]. destruct (relay_faithful (fun _ => true) r Hr) as (_ & _ & He & _).
  specialize (He false). injection E as <-. split; [reflexivity |]. split; [reflexivity |]. apply He. reflexivity.
Defined.

(** ** Datagrams by name *)

(** A flow to a name that a rule sends through a proxy: the packets are sent to no address,
    and the name is not told to the proxy. *)
Example udp_proxied_name_lost :
  HandleUDPConn (demoHandler (Some (mkHProxy "p" "socks5"))) "conn-1" "10.0.0.2" (Some ("10.0.0.2", 5150%Z)) "100.64.0.20" 443 "" None =
  [HStart "TUN" "UDP" "10.0.0.2" "www.example"; HRec (WithConn "conn-1" 5150); HRec (Resolve "www.example" 443 None);
   HDialProxy "p" "www.example" 443 true; HRec (Establish "conn-1" (Some "p") false); HRelayUDP None 443; HCloseTarget; HRec Close].
Proof. vm_compute. reflexivity. Qed.

(** The node's own name by UDP follows the rules, to a proxy if they say so. *)
Example udp_own_name_proxied :
  let h := demoHandler (Some (mkHProxy "p" "socks5")) in
  let own := mkHandler (Some (assignIP demoPool "n1.phn" 1681915924)) "n1" ∅ true true None None demoText (fun _ => "") (resolveMatch h)
    (fun _ => true) (fun _ _ _ => None) (fun _ _ => inl "key") (fun _ _ => None) (fun _ => "") (fun _ => None) (fun _ => None) in
  localNode own (domainOf own "100.64.0.20") "100.64.0.20" = true /\
  existsb outside (HandleUDPConn own "conn-1" "10.0.0.2" None "100.64.0.20" 53 "" None) = true /\
  existsb outside (HandleTCPConn own "conn-1" "10.0.0.2" 0 "100.64.0.20" 53 "" None) = false.
Proof. vm_compute. done. Qed.
