(* ===== verification/Packages.v ===== *)
(** Packages: versions and their order (CompareVersions, parseVersion in src/p2p/p2p.go), the
    names of the binary cache (src/p2p/cache.go), and the store of signed packages with
    publication, reception, retention and the merge with a peer (src/admin/package.go).

    Files and the database are maps by id; signatures, ids, times and the answers of a peer
    are arguments. *)

From Stdlib Require Import ZArith Lia String Ascii.
From stdpp Require Import base gmap list numbers strings sorting.
From S2P Require Import Prelude GoStrings.
Open Scope Z_scope.

(** ** Versions *)

Definition isDigit (c : ascii) : bool := match digitOf c with Some _ => true | None => false end.
Definition isHex (c : ascii) : bool :=
  let n := nat_of_ascii c in isDigit c || ((97 <=? n) && (n <=? 102))%nat.
Fixpoint allChars (f : ascii -> bool) (s : string) : bool :=
  match s with EmptyString => true | String c s => f c && allChars f s end.
(** One or more characters of a class. *)
Definition someChars (f : ascii -> bool) (s : string) : bool := negb (String.eqb s "") && allChars f s.

Definition TrimPrefix (p s : string) : string :=
  if String.prefix p s then String.substring (String.length p) (String.length s - String.length p) s else s.
Definition TrimSuffix (p s : string) : string :=
  if HasSuffix s p then String.substring 0 (String.length s - String.length p) s else s.

(** What commitPattern, [-(\d+)-g[0-9a-f]+$], finds at the start of a text. *)
Definition commitsAt (s : string) : option string :=
  match s with
  | String "-" s =>
      match Cut "-" s with
      | Some (digits, String "g" hash) => if someChars isDigit digits && someChars isHex hash then Some digits else None
      | _ => None
      end
  | _ => None
  end.
(** The leftmost place where it matches: the text before it and the digits. *)
Fixpoint findCommits (s : string) : option (string * string) :=
  match commitsAt s with
  | Some digits => Some (EmptyString, digits)
  | None => match s with
            | EmptyString => None
            | String c s => match findCommits s with Some (before, digits) => Some (String c before, digits) | None => None end
            end
  end.

Fixpoint atoiAll (l : list string) : option (list Z) :=
  match l with
  | [] => Some []
  | s :: l => match Atoi s, atoiAll l with Some n, Some ns => Some (n :: ns) | _, _ => None end
  end.

(** Tag segments, [None] for nil, and the commit count. *)
Definition parseVersion (v : string) : option (list Z) * Z :=
  let v := TrimSuffix "-dirty" (TrimPrefix "v" v) in
  let '(v, commits) := match findCommits v with
                       | Some (before, digits) => (before, default 0 (Atoi digits))
                       | None => (v, 0)
                       end in
  let v := match Cut "+" v with Some (before, _) => before | None => v end in
  match atoiAll (Split "." v) with Some tag => (Some tag, commits) | None => (None, 0) end.

(** The first difference of the segments from [i] on, missing ones being 0. *)
Fixpoint cmpSegments (n : nat) (i : nat) (a b : list Z) : Z :=
  match n with
  | O => 0
  | S n => let av := nth i a 0 in let bv := nth i b 0 in
           if av <? bv then -1 else if bv <? av then 1 else cmpSegments n (S i) a b
  end.

Definition CompareVersions (a b : string) : Z :=
  if String.eqb a b then 0
  else if String.eqb a "dev" then -1
  else if String.eqb b "dev" then 1
  else
    let '(aTag, aCommits) := parseVersion a in
    let '(bTag, bCommits) := parseVersion b in
    match aTag, bTag with
    | Some at_, Some bt =>
        let c := cmpSegments (Nat.max (length at_) (length bt)) 0 at_ bt in
        if c <? 0 then -1 else if 0 <? c then 1
        else if aCommits <? bCommits then -1 else if bCommits <? aCommits then 1 else 0
    | Some _, None => 1
    | None, Some _ => -1
    | None, None => if String.ltb a b then -1 else 1
    end.

(** ** The binary cache *)

Definition hasSeparator (s : string) : bool := negb (lacks "/" s) || negb (lacks "\" s) || ContainsStr s "..".
Definition validateCacheKey (platform arch buildTag version : string) : bool :=
  negb (hasSeparator platform || hasSeparator arch || hasSeparator buildTag || hasSeparator version).

Definition cacheFileName (platform arch buildTag version : string) : string :=
  if String.eqb buildTag "" then ("phaethon_" ++ platform ++ "_" ++ arch ++ "_" ++ version)%string
  else ("phaethon_" ++ platform ++ "_" ++ arch ++ "_" ++ buildTag ++ "_" ++ version)%string.

(** SplitN(s, c, n) for n > 0. *)
Fixpoint SplitN (c : ascii) (n : nat) (s : string) : list string :=
  match n with
  | O => []
  | S O => [s]
  | S n => match Cut c s with Some (x, y) => x :: SplitN c n y | None => [s] end
  end.

Record CacheEntry := mkEntry { Platform : string; Arch : string; Version : string; BuildTag : string }.
Definition parseCacheFileName (name : string) : option CacheEntry :=
  if negb (String.prefix "phaethon_" name) then None
  else match SplitN "_" 4 (TrimPrefix "phaethon_" name) with
       | [platform; arch; version] => Some (mkEntry platform arch version "")
       | [platform; arch; buildTag; version] => Some (mkEntry platform arch version buildTag)
       | _ => None
       end.

(** The entries among the files of the directory. *)
Definition Inventory (names : list string) : list CacheEntry :=
  omap (fun name => if HasSuffix name ".tmp" then None else parseCacheFileName name) names.

(** ** Packages *)

Definition packageRetention : nat := 3.

Record PackageMeta := mkMeta {
  mID : string; mVersion : string; mPlatform : string; mArch : string; mUploadedAt : Z; mPublished : bool
}.
(** What a verified package says of itself. *)
Record PkgContents := mkContents { cVersion : string; cPlatform : string; cArch : string }.

(** The database and the .pkg files, by id. *)
Record Store := mkStore { metas : gmap string PackageMeta; files : gset string }.

Definition uploadedBefore (a b : PackageMeta) : Prop := mUploadedAt b <= mUploadedAt a.
#[export] Instance uploadedBefore_dec a b : Decision (uploadedBefore a b) := Z.le_dec _ _.
(** listPackages: newest upload first; the metadata without a file is deleted. *)
Definition listPackages (s : Store) : list PackageMeta * Store :=
  let all := merge_sort uploadedBefore (map snd (map_to_list (metas s))) in
  (List.filter (fun p => bool_decide (mID p ∈ files s)) all,
   mkStore (filter (fun kv => mID kv.2 ∈ files s) (metas s)) (files s)).

Definition sameTarget (platform arch : string) (p : PackageMeta) : bool := String.eqb (mPlatform p) platform && String.eqb (mArch p) arch.

(** The newest published version of a platform; empty if none. *)
Definition latestOf (platform arch : string) (l : list PackageMeta) : string :=
  foldl (fun latest p =>
    if sameTarget platform arch p && mPublished p && (String.eqb latest "" || (0 <? CompareVersions (mVersion p) latest))
    then mVersion p else latest) ""%string l.

Inductive publishError := NotFound | NotHigher (latest : string).
Definition setPublished (p : PackageMeta) : PackageMeta := mkMeta (mID p) (mVersion p) (mPlatform p) (mArch p) (mUploadedAt p) true.
Definition removeFile (id : string) (s : Store) : Store := mkStore (metas s) (files s ∖ {[id]}).

(** A sort by version, newest first. *)
Definition notOlder (a b : PackageMeta) : Prop := 0 <= CompareVersions (mVersion a) (mVersion b).
#[export] Instance notOlder_dec a b : Decision (notOlder a b) := Z.le_dec _ _.
Definition newestFirst (l : list PackageMeta) : list PackageMeta := merge_sort notOlder l.

Definition applyRetentionForGroup (pkgs : list PackageMeta) (s : Store) : Store :=
  if (length pkgs <=? packageRetention)%nat then s
  else foldl (fun s p => removeFile (mID p) s) s (drop packageRetention (newestFirst pkgs)).
Definition applyRetention (platform arch : string) (s : Store) : Store :=
  let '(packages, s) := listPackages s in applyRetentionForGroup (List.filter (sameTarget platform arch) packages) s.

(** apiPackagePublish, with the retention that follows it. *)
Definition apiPackagePublish (id : string) (s : Store) : Store + publishError :=
  match metas s !! id with
  | None => inr NotFound
  | Some info =>
      let '(packages, s) := listPackages s in
      let latest := latestOf (mPlatform info) (mArch info) packages in
      if negb (String.eqb latest "") && (CompareVersions (mVersion info) latest <=? 0) then inr (NotHigher latest)
      else
        let s := mkStore (<[id := setPublished info]> (metas s)) (files s) in
        inl (if bool_decide (id ∈ files s) then applyRetention (mPlatform info) (mArch info) s else s)
  end.

Definition apiPackageDelete (id : string) (s : Store) : option Store :=
  match metas s !! id with None => None | Some _ => Some (mkStore (delete id (metas s)) (files s ∖ {[id]})) end.

(** An upload that was verified and whose version has the right form. *)
Definition saveUpload (id : string) (now : Z) (c : PkgContents) (s : Store) : Store :=
  mkStore (<[id := mkMeta id (cVersion c) (cPlatform c) (cArch c) now false]> (metas s)) ({[id]} ∪ files s).
(** saveExternalPackage: a package of a peer is published at once. *)
Definition saveExternalPackage (id : string) (now : Z) (c : PkgContents) (s : Store) : Store :=
  mkStore (<[id := mkMeta id (cVersion c) (cPlatform c) (cArch c) now true]> (metas s)) ({[id]} ∪ files s).

(** apiPackageReceive: whether it is new, and then passed on. *)
Definition apiPackageReceive (id : string) (now : Z) (c : PkgContents) (s : Store) : Store * bool :=
  let '(packages, s) := listPackages s in
  if existsb (fun p => sameTarget (cPlatform c) (cArch c) p && String.eqb (mVersion p) (cVersion c)) packages then (s, false)
  else (saveExternalPackage id now c s, true).

Definition pkgKey (p : PackageMeta) : string := (mPlatform p ++ "/" ++ mArch p ++ "@" ++ mVersion p)%string.

(** ** Merging with a peer *)

(** Groups by platform and architecture, of the peer's published packages and the local ones. *)
Definition groupsOf (remote local : list PackageMeta) : list (list PackageMeta) :=
  let all := (List.filter mPublished remote ++ local)%list in
  let keys := remove_dups (map (fun p => (mPlatform p, mArch p)) all) in
  map (fun k => List.filter (fun p => sameTarget k.1 k.2 p) all) keys.
Definition targetKeys (remote local : list PackageMeta) : gset string :=
  list_to_set (concat (map (fun g => map pkgKey (take packageRetention (newestFirst g))) (groupsOf remote local))).

(** Downloads in the order of the peer's list; [download] gives a verified package or fails,
    [fresh] the id under which it is saved. *)
Fixpoint downloads (target : gset string) (have : gset string) (download : PackageMeta -> option PkgContents) (fresh : PackageMeta -> string)
    (now : Z) (remote : list PackageMeta) (s : Store) : Store * bool :=
  match remote with
  | [] => (s, true)
  | p :: remote =>
      if negb (bool_decide (pkgKey p ∈ target)) || bool_decide (pkgKey p ∈ have) then downloads target have download fresh now remote s
      else match download p with
           | None => let '(s, _) := downloads target have download fresh now remote s in (s, false)
           | Some c => downloads target ({[pkgKey p]} ∪ have) download fresh now remote (saveExternalPackage (fresh p) now c s)
           end
  end.

(** The local packages outside the target, and second copies of those inside. *)
Fixpoint toDelete (target kept : gset string) (local : list PackageMeta) : list PackageMeta :=
  match local with
  | [] => []
  | p :: local =>
      if bool_decide (pkgKey p ∈ target) && negb (bool_decide (pkgKey p ∈ kept)) then toDelete target ({[pkgKey p]} ∪ kept) local
      else p :: toDelete target kept local
  end.

Definition syncFromPeer (remote : list PackageMeta) (download : PackageMeta -> option PkgContents) (fresh : PackageMeta -> string) (now : Z) (s : Store) : Store :=
  let '(local, s) := listPackages s in
  let target := targetKeys remote local in
  let '(s, ok) := downloads target (list_to_set (map pkgKey local)) download fresh now remote s in
  if ok then foldl (fun s p => removeFile (mID p) s) s (toDelete target ∅ local) else s.

(** checkForNewerVersion: whether the process ends to start the package. *)
Definition checkForNewerVersion (platform arch version : string) (c : PkgContents) : bool :=
  String.eqb (cPlatform c) platform && String.eqb (cArch c) arch && (0 <? CompareVersions (cVersion c) version).

(** ** The order of versions *)

Lemma ascii_compare_lt a b : Ascii.compare a b = Lt <-> (N_of_ascii a < N_of_ascii b)%N.
Proof. unfold Ascii.compare. apply N.compare_lt_iff. Qed.
Lemma ascii_compare_eq a b : Ascii.compare a b = Eq -> a = b.
Proof. unfold Ascii.compare. intros H%N.compare_eq_iff. rewrite <- (ascii_N_embedding a), H, ascii_N_embedding. done. Qed.
Lemma ascii_compare_refl a : Ascii.compare a a = Eq.
Proof. unfold Ascii.compare. apply N.compare_refl. Qed.

Lemma string_ltb_trans a : forall b c, String.ltb a b = true -> String.ltb b c = true -> String.ltb a c = true.
Proof.
  unfold String.ltb. induction a as [| x a IH]; intros [| y b] [| z c]; cbn; try done.
  destruct (Ascii.compare x y) eqn:E1; try done; destruct (Ascii.compare y z) eqn:E2; try done.
  - apply ascii_compare_eq in E1, E2. subst. rewrite ascii_compare_refl. apply IH.
  - apply ascii_compare_eq in E1. subst. rewrite E2. done.
  - apply ascii_compare_eq in E2. subst. rewrite E1. done.
  - intros _ _. apply (proj1 (ascii_compare_lt _ _)) in E1. apply (proj1 (ascii_compare_lt _ _)) in E2.
    assert (E : Ascii.compare x z = Lt) by (apply (proj2 (ascii_compare_lt _ _)); eapply N.lt_trans; done). rewrite E. done.
Qed.

Lemma string_ltb_total a b : a <> b -> String.ltb b a = negb (String.ltb a b).
Proof.
  intros Hn. unfold String.ltb. rewrite (String.compare_antisym b a). destruct (String.compare a b) eqn:E; try done.
  apply String.compare_eq_iff in E. done.
Qed.

(** What a version is compared by. *)
Inductive rank := Dev | Hash (s : string) | Tag (segments : list Z) (commits : Z).
Definition rankOf (v : string) : rank :=
  if String.eqb v "dev" then Dev else match parseVersion v with (Some t, c) => Tag t c | (None, _) => Hash v end.

Definition sgn3 (x y : Z) : Z := if x <? y then -1 else if y <? x then 1 else 0.
(** The comparison of ranks with [n] segments. *)
Definition cmpRank (n : nat) (a b : rank) : Z :=
  match a, b with
  | Dev, Dev => 0
  | Dev, _ => -1
  | _, Dev => 1
  | Hash x, Hash y => if String.eqb x y then 0 else if String.ltb x y then -1 else 1
  | Hash _, Tag _ _ => -1
  | Tag _ _, Hash _ => 1
  | Tag t c, Tag u d => let x := cmpSegments n 0 t u in if x =? 0 then sgn3 c d else x
  end.
Definition width (a b : rank) : nat := match a, b with Tag t _, Tag u _ => Nat.max (length t) (length u) | _, _ => 0 end.

Lemma cmpSegments_values n : forall i a b, cmpSegments n i a b = -1 \/ cmpSegments n i a b = 0 \/ cmpSegments n i a b = 1.
Proof. induction n as [| n IH]; intros i a b; cbn; [auto |]. destruct (_ <? _); [auto |]. destruct (_ <? _); auto. Qed.

Lemma cmpSegments_beyond n : forall i a b, (length a <= i)%nat -> (length b <= i)%nat -> cmpSegments n i a b = 0.
Proof.
  induction n as [| n IH]; intros i a b Ha Hb; cbn; [done |]. rewrite !nth_overflow by done.
  rewrite Z.ltb_irrefl. apply IH; lia.
Qed.

Lemma cmpSegments_wide n : forall m i a b, (Nat.max (length a) (length b) <= i + n)%nat -> (n <= m)%nat -> cmpSegments m i a b = cmpSegments n i a b.
Proof.
  induction n as [| n IH]; intros m i a b Hl Hm; [apply cmpSegments_beyond; lia |]. destruct m as [| m]; [lia |]. cbn.
  rewrite (IH m) by lia. done.
Qed.

Lemma cmpRank_wide n a b : (width a b <= n)%nat -> cmpRank n a b = cmpRank (width a b) a b.
Proof.
  destruct a as [| x | t c], b as [| y | u d]; try done. cbn [width cmpRank]. intros H.
  rewrite (cmpSegments_wide (Nat.max (length t) (length u)) n) by lia. done.
Qed.

Lemma rank_same a b : CompareVersions a b = cmpRank (width (rankOf a) (rankOf b)) (rankOf a) (rankOf b).
Proof.
  unfold CompareVersions. destruct (String.eqb_spec a b) as [-> | Hn].
  { unfold rankOf. destruct (String.eqb b "dev"); [done |]. destruct (parseVersion b) as [[t |] c]; cbn.
    - assert (E : forall n i, cmpSegments n i t t = 0) by (induction n as [| n IH]; intros i; cbn; [done |]; rewrite Z.ltb_irrefl; apply IH).
      rewrite E. unfold sgn3. rewrite Z.ltb_irrefl. done.
    - rewrite String.eqb_refl. done. }
  unfold rankOf. destruct (String.eqb_spec a "dev") as [-> | Ha].
  { destruct (String.eqb_spec b "dev") as [Hb | Hb]; [congruence |]. destruct (parseVersion b) as [[t |] c]; done. }
  destruct (String.eqb_spec b "dev") as [-> | Hb]; [destruct (parseVersion a) as [[t |] c]; done |].
  destruct (parseVersion a) as [[t |] c], (parseVersion b) as [[u |] d]; cbn; try done.
  - set (x := cmpSegments _ _ _ _). destruct (cmpSegments_values (Nat.max (length t) (length u)) 0 t u) as [E | [E | E]]; fold x in E; rewrite E; done.
  - apply String.eqb_neq in Hn. rewrite Hn. done.
Qed.

Lemma cmpSegments_opp n : forall i a b, cmpSegments n i b a = - cmpSegments n i a b.
Proof.
  induction n as [| n IH]; intros i a b; cbn; [done |].
  destruct (Z.ltb_spec (nth i a 0) (nth i b 0)), (Z.ltb_spec (nth i b 0) (nth i a 0)); try done; lia.
Qed.

Lemma sgn3_opp x y : sgn3 y x = - sgn3 x y.
Proof. unfold sgn3. destruct (Z.ltb_spec x y), (Z.ltb_spec y x); try done; lia. Qed.

Lemma cmpRank_opp n a b : cmpRank n b a = - cmpRank n a b.
Proof.
  destruct a as [| x | t c], b as [| y | u d]; cbn; try done.
  - rewrite (String.eqb_sym y x). destruct (String.eqb_spec x y) as [| Hn]; [done |]. rewrite (string_ltb_total x y Hn).
    destruct (String.ltb x y); done.
  - rewrite (cmpSegments_opp n 0 t u), (sgn3_opp c d). destruct (cmpSegments_values n 0 t u) as [E | [E | E]]; rewrite E; done.
Qed.

Lemma cmpSegments_trans n : forall i a b c,
  cmpSegments n i a b <= 0 -> cmpSegments n i b c <= 0 ->
  cmpSegments n i a c <= 0 /\ (cmpSegments n i a c = 0 -> cmpSegments n i a b = 0 /\ cmpSegments n i b c = 0).
Proof.
  induction n as [| n IH]; intros i a b c; cbn; [done |].
  destruct (Z.ltb_spec (nth i a 0) (nth i b 0)), (Z.ltb_spec (nth i b 0) (nth i a 0)),
    (Z.ltb_spec (nth i b 0) (nth i c 0)), (Z.ltb_spec (nth i c 0) (nth i b 0)),
    (Z.ltb_spec (nth i a 0) (nth i c 0)), (Z.ltb_spec (nth i c 0) (nth i a 0)); try lia; intros Hx Hy; auto.
Qed.

Lemma cmpRank_trans n a b c : cmpRank n a b <= 0 -> cmpRank n b c <= 0 -> cmpRank n a c <= 0.
Proof.
  destruct a as [| x | t i], b as [| y | u j], c as [| z | w k]; cbn; try lia; try done.
  - intros H1 H2. destruct (String.eqb_spec x z) as [| Hxz]; [lia |].
    destruct (String.eqb_spec x y) as [<- | Hxy]; [apply String.eqb_neq in Hxz; rewrite Hxz in H2; exact H2 |].
    destruct (String.eqb_spec y z) as [<- | Hyz]; [exact H1 |].
    destruct (String.ltb x y) eqn:E1; [| lia]. destruct (String.ltb y z) eqn:E2; [| lia].
    rewrite (string_ltb_trans x y z E1 E2). lia.
  - intros H1 H2.
    assert (Ha : cmpSegments n 0 t u <= 0) by (destruct (Z.eqb_spec (cmpSegments n 0 t u) 0); lia).
    assert (Hb : cmpSegments n 0 u w <= 0) by (destruct (Z.eqb_spec (cmpSegments n 0 u w) 0); lia).
    destruct (cmpSegments_trans n 0 t u w Ha Hb) as [Hle Heq].
    destruct (Z.eqb_spec (cmpSegments n 0 t w) 0) as [E | E]; [| exact Hle]. destruct (Heq E) as [E1 E2].
    rewrite E1 in H1. rewrite E2 in H2. cbn in H1, H2. unfold sgn3 in *.
    destruct (Z.ltb_spec i j), (Z.ltb_spec j i), (Z.ltb_spec j k), (Z.ltb_spec k j), (Z.ltb_spec i k), (Z.ltb_spec k i); lia.
Qed.

Lemma compare_opp a b : CompareVersions b a = - CompareVersions a b.
Proof.
  rewrite !rank_same. rewrite cmpRank_opp. f_equal. replace (width (rankOf b) (rankOf a)) with (width (rankOf a) (rankOf b)); [done |].
  destruct (rankOf a), (rankOf b); cbn; try done. apply Nat.max_comm.
Qed.

Lemma compare_trans a b c : CompareVersions a b <= 0 -> CompareVersions b c <= 0 -> CompareVersions a c <= 0.
Proof.
  rewrite !rank_same. set (n := Nat.max (width (rankOf a) (rankOf b)) (Nat.max (width (rankOf b) (rankOf c)) (width (rankOf a) (rankOf c)))).
  rewrite <- (cmpRank_wide n (rankOf a) (rankOf b)), <- (cmpRank_wide n (rankOf b) (rankOf c)), <- (cmpRank_wide n (rankOf a) (rankOf c))
    by (unfold n; lia). apply cmpRank_trans.
Qed.

#[export] Instance notOlder_total : Total notOlder.
Proof. intros a b. unfold notOlder. rewrite (compare_opp (mVersion b) (mVersion a)). lia. Qed.
#[export] Instance notOlder_trans : Transitive notOlder.
Proof.
  intros a b c. unfold notOlder. intros H1 H2. rewrite (compare_opp (mVersion c) (mVersion a)).
  assert (H := compare_trans (mVersion c) (mVersion b) (mVersion a)). rewrite (compare_opp (mVersion b) (mVersion c)), (compare_opp (mVersion a) (mVersion b)) in H. lia.
Qed.

(** ** Publication *)

Definition candidate (platform arch : string) (p : PackageMeta) : bool := sameTarget platform arch p && mPublished p.
Definition named (l : list PackageMeta) : Prop := forall p, p ∈ l -> mVersion p <> ""%string.

Lemma compare_le_trans a b c : CompareVersions a b <= 0 -> CompareVersions b c <= 0 -> CompareVersions a c <= 0.
Proof. apply compare_trans. Qed.
Lemma compare_same a : CompareVersions a a = 0.
Proof. unfold CompareVersions. rewrite String.eqb_refl. done. Qed.

(** The fold behind [latestOf] from any start. *)
Lemma latest_fold platform arch l : forall acc, named l ->
  let r := foldl (fun latest p =>
    if sameTarget platform arch p && mPublished p && (String.eqb latest "" || (0 <? CompareVersions (mVersion p) latest))
    then mVersion p else latest) acc l in
  (acc <> ""%string -> r <> ""%string /\ CompareVersions acc r <= 0) /\
  (forall p, p ∈ l -> candidate platform arch p = true -> r <> ""%string /\ CompareVersions (mVersion p) r <= 0).
Proof.
  induction l as [| q l IH]; intros acc Hn r.
  { split; [intros Ha; split; [done |]; unfold r; cbn; rewrite compare_same; lia |]. intros p Hp. apply elem_of_nil in Hp. done. }
  assert (Hq : mVersion q <> ""%string) by (apply Hn; left). assert (Hl : named l) by (intros p Hp; apply Hn; right; done).
  unfold r. cbn [foldl]. unfold candidate. set (take := sameTarget platform arch q && mPublished q). destruct take eqn:Et; cbn [andb].
  - destruct (String.eqb_spec acc "") as [-> | Ha]; cbn [orb].
    + destruct (IH (mVersion q) Hl) as [Hr Hp]. destruct (Hr Hq) as [Hr1 Hr2]. split; [done |].
      intros p [-> | H]%elem_of_cons Hc; [done | apply Hp; done].
    + destruct (Z.ltb_spec 0 (CompareVersions (mVersion q) acc)) as [Hlt | Hge].
      * destruct (IH (mVersion q) Hl) as [Hr Hp]. destruct (Hr Hq) as [Hr1 Hr2]. split.
        -- intros _. split; [done |]. eapply compare_le_trans; [| exact Hr2]. rewrite compare_opp. lia.
        -- intros p [-> | H]%elem_of_cons Hc; [done | apply Hp; done].
      * destruct (IH acc Hl) as [Hr Hp]. destruct (Hr Ha) as [Hr1 Hr2]. split; [done |].
        intros p [-> | H]%elem_of_cons Hc; [split; [done |] | apply Hp; done]. eapply compare_le_trans; [exact Hge | exact Hr2].
  - destruct (IH acc Hl) as [Hr Hp]. split; [done |]. intros p [-> | H]%elem_of_cons Hc; [| apply Hp; done].
    unfold take in Et. congruence.
Qed.

(** ** Retention *)

Lemma sorted_split (l : list PackageMeta) n k d : StronglySorted notOlder l -> k ∈ take n l -> d ∈ drop n l -> notOlder k d.
Proof.
  intros Hs. revert n. induction Hs as [| x l Hs IH Hall]; intros [| n] Hk Hd; cbn in *;
    try (apply elem_of_nil in Hk; done); try (apply elem_of_nil in Hd; done).
  apply elem_of_cons in Hk as [-> | Hk]; [| apply (IH n); done].
  rewrite Forall_forall in Hall. apply Hall. rewrite <- (take_drop n l). apply elem_of_app. right. done.
Qed.

Lemma newestFirst_sorted l : StronglySorted notOlder (newestFirst l).
Proof. apply StronglySorted_merge_sort; apply _. Qed.

Lemma newestFirst_perm l : newestFirst l ≡ₚ l.
Proof. apply merge_sort_Permutation. Qed.

Lemma removeFiles_files l : forall s, files (foldl (fun s p => removeFile (mID p) s) s l) = files s ∖ list_to_set (map mID l) /\
  metas (foldl (fun s p => removeFile (mID p) s) s l) = metas s.
Proof.
  induction l as [| p l IH]; intros s; cbn; [split; [set_solver | done] |].
  destruct (IH (removeFile (mID p) s)) as [-> ->]. cbn. split; [set_solver | done].
Qed.

(** ** The merge *)

(** The local packages that stay. *)
Fixpoint keepers (target kept : gset string) (local : list PackageMeta) : list PackageMeta :=
  match local with
  | [] => []
  | p :: local =>
      if bool_decide (pkgKey p ∈ target) && negb (bool_decide (pkgKey p ∈ kept)) then p :: keepers target ({[pkgKey p]} ∪ kept) local
      else keepers target kept local
  end.

Lemma keepers_perm target l : forall kept, (keepers target kept l ++ toDelete target kept l)%list ≡ₚ l.
Proof.
  induction l as [| p l IH]; intros kept; cbn; [done |]. destruct (_ && _); cbn; [rewrite IH; done |].
  rewrite <- Permutation_middle, IH. done.
Qed.

(** What is deleted is outside the target, or a copy of it stays. *)
Lemma toDelete_spec target l : forall kept p, p ∈ toDelete target kept l ->
  pkgKey p ∉ target \/ pkgKey p ∈ kept \/ exists q, q ∈ keepers target kept l /\ pkgKey q = pkgKey p.
Proof.
  induction l as [| x l IH]; intros kept p; cbn; [intros H; apply elem_of_nil in H; done |].
  destruct (decide (pkgKey x ∈ target)) as [Ht | Ht]; [rewrite bool_decide_true by done | rewrite bool_decide_false by done]; cbn [andb].
  - destruct (decide (pkgKey x ∈ kept)) as [Hk | Hk]; [rewrite bool_decide_true by done | rewrite bool_decide_false by done]; cbn [negb].
    + intros [-> | H]%elem_of_cons; [auto | apply IH; done].
    + intros H. destruct (IH _ _ H) as [| [Hin | (q & Hq & E)]]; [auto | |].
      * apply elem_of_union in Hin as [->%elem_of_singleton | Hin]; [right; right; exists x; split; [left | done] | auto].
      * right; right. exists q. split; [right; done | done].
  - intros [-> | H]%elem_of_cons; [auto | apply IH; done].
Qed.

Lemma downloads_files target download fresh now remote : forall have s,
  files s ⊆ files (fst (downloads target have download fresh now remote s)) /\
  (snd (downloads target have download fresh now remote s) = true ->
     forall r, r ∈ remote -> pkgKey r ∈ target -> pkgKey r ∉ have -> exists r', r' ∈ remote /\ pkgKey r' = pkgKey r /\ download r' <> None).
Proof.
  induction remote as [| p remote IH]; intros have s; cbn [downloads]; [split; [done |]; intros _ r Hr; apply elem_of_nil in Hr; done |].
  destruct (decide (pkgKey p ∈ target)) as [Ht | Ht]; [rewrite bool_decide_true by done | rewrite bool_decide_false by done]; cbn [negb orb].
  2: { destruct (IH have s) as [H1 H2]. split; [done |]. intros Hok r [-> | Hr]%elem_of_cons Hrt Hrh; [done |].
       destruct (H2 Hok r Hr Hrt Hrh) as (r' & ? & ?). exists r'. split; [right |]; done. }
  destruct (decide (pkgKey p ∈ have)) as [Hh | Hh]; [rewrite bool_decide_true by done | rewrite bool_decide_false by done].
  { destruct (IH have s) as [H1 H2]. split; [done |]. intros Hok r [-> | Hr]%elem_of_cons Hrt Hrh; [done |].
    destruct (H2 Hok r Hr Hrt Hrh) as (r' & ? & ?). exists r'. split; [right |]; done. }
  destruct (download p) as [c |] eqn:Ed.
  - destruct (IH ({[pkgKey p]} ∪ have) (saveExternalPackage (fresh p) now c s)) as [H1 H2]. split; [cbn in H1; set_solver |].
    intros Hok r Hr Hrt Hrh. destruct (decide (pkgKey r = pkgKey p)) as [E | E].
    + exists p. split_and!; [left | congruence | congruence].
    + apply elem_of_cons in Hr as [-> | Hr]; [done |].
      destruct (H2 Hok r Hr Hrt ltac:(set_solver)) as (r' & ? & ?). exists r'. split; [right |]; done.
  - destruct (IH have s) as [H1 _]. destruct (downloads target have download fresh now remote s) as [s1 b]. cbn in *. split; [done |]. done.
Qed.

(** The packages of a merge for the platform of [p]. *)
Definition rivals (remote local : list PackageMeta) (p : PackageMeta) : list PackageMeta :=
  List.filter (sameTarget (mPlatform p) (mArch p)) (List.filter mPublished remote ++ local).

Lemma rivals_group remote local p : p ∈ local -> rivals remote local p ∈ groupsOf remote local /\ p ∈ rivals remote local p.
Proof.
  intros Hp. assert (Hs : sameTarget (mPlatform p) (mArch p) p = true) by (unfold sameTarget; rewrite !String.eqb_refl; done).
  assert (Ha : p ∈ (List.filter mPublished remote ++ local)%list) by (apply elem_of_app; right; done). split.
  - unfold groupsOf, rivals. apply list_elem_of_fmap. exists (mPlatform p, mArch p). split; [done |].
    apply elem_of_remove_dups, list_elem_of_fmap. exists p. done.
  - apply list_elem_of_In, List.filter_In. split; [apply list_elem_of_In; done | done].
Qed.

Lemma filter_perm {A} (f : A -> bool) l k : l ≡ₚ k -> List.filter f l ≡ₚ List.filter f k.
Proof.
  induction 1 as [| x l k _ IH | x y l | l k m _ IH1 _ IH2]; cbn; [done | destruct (f x); [rewrite IH |]; done | | etransitivity; done].
  destruct (f x), (f y); try done. apply Permutation_swap.
Qed.

Lemma not_target remote local p : p ∈ local -> pkgKey p ∉ targetKeys remote local ->
  (packageRetention <= length (List.filter (fun q => bool_decide (notOlder q p)) (rivals remote local p)))%nat.
Proof.
  intros Hp Hn. destruct (rivals_group remote local p Hp) as [Hg Hin]. set (g := rivals remote local p) in *.
  assert (Hperm := newestFirst_perm g). assert (Hs := newestFirst_sorted g). set (l := newestFirst g) in *.
  assert (Hnt : p ∉ take packageRetention l).
  { intros Ht. apply Hn. unfold targetKeys. apply elem_of_list_to_set, list_elem_of_In, List.in_concat.
    exists (map pkgKey (take packageRetention l)). split; [apply List.in_map_iff; exists g; split; [done | apply list_elem_of_In; done] |].
    apply List.in_map_iff. exists p. split; [done | apply list_elem_of_In; done]. }
  assert (Hpl : p ∈ l) by (rewrite Hperm; done). rewrite <- (take_drop packageRetention l) in Hpl. apply elem_of_app in Hpl as [| Hd]; [done |].
  assert (Hlen : length (take packageRetention l) = packageRetention).
  { apply length_take_le. assert (Hd' := Hd). apply list_elem_of_lookup_1 in Hd' as [i Hi]. apply lookup_lt_Some in Hi. rewrite length_drop in Hi. lia. }
  rewrite <- Hlen at 1. assert (Hf : List.filter (fun q => bool_decide (notOlder q p)) (take packageRetention l) = take packageRetention l).
  { clear -Hs Hd. assert (Hall : forall k, k ∈ take packageRetention l -> notOlder k p) by (intros k Hk; apply (sorted_split l packageRetention); done).
    induction (take packageRetention l) as [| k t IH]; [done |]. cbn. rewrite bool_decide_true by (apply Hall; left).
    f_equal. apply IH. intros; apply Hall; right; done. }
  rewrite <- Hf. transitivity (length (List.filter (fun q => bool_decide (notOlder q p)) l)).
  - rewrite <- (take_drop packageRetention l) at 2. rewrite List.filter_app, length_app. lia.
  - apply Nat.eq_le_incl, Permutation_length, filter_perm. exact Hperm.
Qed.

(** ** File names *)

Lemma cut_app c a b : lacks c a = true -> Cut c (a ++ String c b)%string = Some (a, b).
Proof.
  induction a as [| x a IH]; intros Hl.
  - rewrite append_nil. unfold Cut. rewrite Ascii.eqb_refl. done.
  - cbn [lacks] in Hl. apply andb_true_iff in Hl as [Hx Ha]. apply negb_true_iff in Hx. rewrite append_cons.
    change (Cut c (String x (a ++ String c b))) with (if Ascii.eqb x c then Some (EmptyString, (a ++ String c b)%string)
      else match Cut c (a ++ String c b) with Some (u, v) => Some (String x u, v) | None => None end).
    rewrite Hx, IH by done. done.
Qed.

Lemma cut_sep c a b : lacks c a = true -> Cut c (a ++ String c EmptyString ++ b)%string = Some (a, b).
Proof. rewrite append_cons, append_nil. apply cut_app. Qed.

Lemma substring_all s : String.substring 0 (String.length s) s = s.
Proof. induction s as [| c s IH]; cbn; [done | rewrite IH; done]. Qed.

Lemma prefix_append p s : String.prefix p (p ++ s) = true.
Proof.
  induction p as [| c p IH]; [destruct s; done |]. rewrite append_cons. cbn [String.prefix]. destruct (ascii_dec c c); [exact IH | done].
Qed.
Lemma substring_append p s : String.substring (String.length p) (String.length s) (p ++ s) = s.
Proof. induction p as [| c p IH]; [apply substring_all |]. rewrite append_cons. cbn [String.length String.substring]. exact IH. Qed.

(** The name of a cached binary reads back to its parts, when they hold no underscore; with
    a build tag the version may. *)
Theorem cacheFileName_roundtrip platform arch buildTag version :
  lacks "_" platform = true -> lacks "_" arch = true -> lacks "_" buildTag = true ->
  (buildTag = ""%string -> lacks "_" version = true) ->
  parseCacheFileName (cacheFileName platform arch buildTag version) = Some (mkEntry platform arch version buildTag).
Proof.
  intros Hp Ha Hb Hv. unfold parseCacheFileName, cacheFileName.
  assert (Ht : forall s, TrimPrefix "phaethon_" ("phaethon_" ++ s) = s).
  { intros s. unfold TrimPrefix. rewrite prefix_append, length_append.
    replace (String.length "phaethon_" + String.length s - String.length "phaethon_")%nat with (String.length s) by lia.
    apply substring_append. }
  destruct (String.eqb_spec buildTag "") as [-> | Hn].
  - rewrite prefix_append; cbn [negb]. rewrite Ht.
    cbn [SplitN]. rewrite (cut_sep "_" platform) by done. rewrite (cut_sep "_" arch) by done. rewrite Cut_lacks by auto. done.
  - rewrite prefix_append; cbn [negb]. rewrite Ht. cbn [SplitN]. rewrite (cut_sep "_" platform) by done. rewrite (cut_sep "_" arch) by done. rewrite (cut_sep "_" buildTag) by done. done.
Qed.

(** A key that was let through names a file of the directory itself. *)
Lemma cacheFile_inside platform arch buildTag version :
  validateCacheKey platform arch buildTag version = true -> lacks "/" (cacheFileName platform arch buildTag version) = true.
Proof.
  assert (Hs : forall s, hasSeparator s = false -> lacks "/" s = true).
  { intros s H. unfold hasSeparator in H. apply orb_false_iff in H as [[H _]%orb_false_iff _]. apply negb_false_iff in H. done. }
  unfold validateCacheKey. intros H%negb_true_iff. apply orb_false_iff in H as [[[Hp Ha]%orb_false_iff Hb]%orb_false_iff Hv].
  unfold cacheFileName. destruct (String.eqb buildTag ""); rewrite !lacks_app, !Hs by done; reflexivity.
Qed.

(** ** Properties *)

(** Comparison of versions is a total preorder: both directions agree and it is transitive. *)
Theorem CompareVersions_order (a b c : string) :
  CompareVersions a a = 0 /\ CompareVersions b a = - CompareVersions a b /\
  (CompareVersions a b <= 0 -> CompareVersions b c <= 0 -> CompareVersions a c <= 0).
Proof. split_and!; [apply compare_same | apply compare_opp | apply compare_trans]. Qed.

(** Publication raises the latest version.  A package is published only if its version is
    above that of every published package of its platform and architecture that still has
    its file, however the versions are written. *)
Theorem publish_raises_latest (s s' : Store) (id : string) (info p : PackageMeta) :
  metas s !! id = Some info -> named (fst (listPackages s)) -> p ∈ fst (listPackages s) ->
  candidate (mPlatform info) (mArch info) p = true -> apiPackagePublish id s = inl s' ->
  0 < CompareVersions (mVersion info) (mVersion p).
Proof.
  intros Hi Hn Hp Hc Hpub.
  unfold apiPackagePublish in Hpub. rewrite Hi in Hpub. destruct (listPackages s) as [packages s1]. cbn [fst] in *.
  destruct (latest_fold (mPlatform info) (mArch info) packages "" Hn) as [_ Hmax]. destruct (Hmax p Hp Hc) as [Hne Hle].
  fold (latestOf (mPlatform info) (mArch info) packages) in Hne, Hle. apply String.eqb_neq in Hne. rewrite Hne in Hpub. cbn [negb andb] in Hpub.
  destruct (Z.leb_spec (CompareVersions (mVersion info) (latestOf (mPlatform info) (mArch info) packages)) 0) as [| Hgt]; [done |].
  destruct (Z.lt_ge_cases 0 (CompareVersions (mVersion info) (mVersion p))) as [| Hge]; [done |].
  assert (H := compare_trans _ _ _ Hge Hle). lia.
Qed.

(** Of a group that is too long the three that stay are each as new as every one whose file
    is removed. *)
Theorem retention_keeps_newest (group : list PackageMeta) (s : Store) :
  (packageRetention < length group)%nat ->
  let kept := take packageRetention (newestFirst group) in let gone := drop packageRetention (newestFirst group) in
  files (applyRetentionForGroup group s) = files s ∖ list_to_set (map mID gone) /\
  (kept ++ gone)%list ≡ₚ group /\ length kept = packageRetention /\ forall k d, k ∈ kept -> d ∈ gone -> notOlder k d.
Proof.
  intros Hlen kept gone. unfold applyRetentionForGroup. rewrite (proj2 (Nat.leb_gt _ _) Hlen).
  destruct (removeFiles_files gone s) as [Hf _]. split_and!; [exact Hf | | |].
  - unfold kept, gone. rewrite take_drop. apply newestFirst_perm.
  - unfold kept. apply length_take_le. rewrite (Permutation_length (newestFirst_perm group)). lia.
  - intros k d Hk Hd. apply (sorted_split (newestFirst group) packageRetention); [apply newestFirst_sorted | done | done].
Qed.

(** The merge with a peer deletes only what retention allows.  Whatever the peer lists and
    whichever downloads fail, a file that is removed belongs to a listed package of which
    either a copy with its key stays, or three or more entries of the merged lists of its
    platform are as new; and every version of the target that was missing had a download
    that succeeded. *)
Theorem sync_deletes_only_old (remote : list PackageMeta) (download : PackageMeta -> option PkgContents) (fresh : PackageMeta -> string)
    (now : Z) (s : Store) (id : string) :
  NoDup (map mID (fst (listPackages s))) -> id ∈ files s -> id ∉ files (syncFromPeer remote download fresh now s) ->
  let local := fst (listPackages s) in
  exists p, p ∈ local /\ mID p = id /\
    ((exists q, q ∈ local /\ pkgKey q = pkgKey p /\ mID q ∈ files (syncFromPeer remote download fresh now s)) \/
     (packageRetention <= length (List.filter (fun q => bool_decide (notOlder q p)) (rivals remote local p)))%nat) /\
    forall r, r ∈ remote -> pkgKey r ∈ targetKeys remote local -> pkgKey r ∉ map pkgKey local ->
      exists r', r' ∈ remote /\ pkgKey r' = pkgKey r /\ download r' <> None.
Proof.
  unfold syncFromPeer. intros Hnd Hin. assert (Hst : files (snd (listPackages s)) = files s) by done.
  assert (Hlf : forall q, q ∈ fst (listPackages s) -> mID q ∈ files s).
  { intros q Hq. unfold listPackages in Hq. cbn in Hq. apply list_elem_of_In, List.filter_In in Hq as [_ Hq]. apply bool_decide_eq_true in Hq. done. }
  destruct (listPackages s) as [local s1]. cbn [fst snd] in *. set (target := targetKeys remote local).
  destruct (downloads_files target download fresh now remote (list_to_set (map pkgKey local)) s1) as [Hsub Hdl].
  destruct (downloads target (list_to_set (map pkgKey local)) download fresh now remote s1) as [s2 ok]. cbn [fst snd] in *.
  destruct ok; [| intros Hout; exfalso; apply Hout; rewrite <- Hst in Hin; set_solver].
  destruct (removeFiles_files (toDelete target ∅ local) s2) as [Hf _]. rewrite Hf. intros Hout.
  assert (Hdel : id ∈ map mID (toDelete target ∅ local)).
  { destruct (decide (id ∈ map mID (toDelete target ∅ local))) as [| Hno]; [done |]. exfalso. apply Hout.
    apply elem_of_difference. split; [apply Hsub; rewrite Hst; done | rewrite elem_of_list_to_set; done]. }
  apply list_elem_of_fmap in Hdel as (p & -> & Hp). assert (Hperm := keepers_perm target local ∅).
  assert (Hpl : p ∈ local) by (rewrite <- Hperm; apply elem_of_app; right; done).
  exists p. split_and!; [done | done | |].
  - destruct (toDelete_spec target local ∅ p Hp) as [Hnt | [Hk | (q & Hq & Ek)]]; [right; apply not_target; done | set_solver |].
    left. assert (Hql : q ∈ local) by (rewrite <- Hperm; apply elem_of_app; left; done).
    exists q. split_and!; [done | done |]. apply elem_of_difference. split; [apply Hsub; rewrite Hst; apply Hlf; done |].
    rewrite elem_of_list_to_set. intros Hd. rewrite <- Hperm, map_app in Hnd. apply NoDup_app in Hnd as (_ & Hdis & _).
    apply (Hdis (mID q)); [apply list_elem_of_fmap; exists q; done | exact Hd].
  - intros r Hr Hrt Hrl. apply (Hdl eq_refl r Hr Hrt). rewrite elem_of_list_to_set. done.
Qed.

(** ** Witnesses and examples *)

Open Scope string_scope.
Definition pkg (id version : string) (published : bool) : PackageMeta := mkMeta id version "linux" "amd64" 0 published.
Definition demoStore (l : list PackageMeta) : Store := mkStore (list_to_map (map (fun p => (mID p, p)) l)) (list_to_set (map mID l)).

Definition twoPackages : Store := demoStore [pkg "a" "v1.2.0" true; pkg "b" "v1.10.0+mesh-5-gab12" false].

Lemma publish_raises_latest_witness :
  (exists s', apiPackagePublish "b" twoPackages = inl s') /\ (0 < CompareVersions "v1.10.0+mesh-5-gab12" "v1.2.0")%Z.
Proof.
  destruct (apiPackagePublish "b" twoPackages) as [s' | e] eqn:E; [| vm_compute in E; discriminate].
  split; [exists s'; reflexivity |].
  assert (El : fst (listPackages twoPackages) = [pkg "a" "v1.2.0" true; pkg "b" "v1.10.0+mesh-5-gab12" false] \/
    fst (listPackages twoPackages) = [pkg "b" "v1.10.0+mesh-5-gab12" false; pkg "a" "v1.2.0" true])
    by (vm_compute; first [left; reflexivity | right; reflexivity]).
  apply (publish_raises_latest twoPackages s' "b" (pkg "b" "v1.10.0+mesh-5-gab12" false) (pkg "a" "v1.2.0" true)).
  - reflexivity.
  - intros p Hp. destruct El as [El | El]; rewrite El in Hp; repeat (apply elem_of_cons in Hp as [-> | Hp]; [discriminate |]);
      apply elem_of_nil in Hp; contradiction.
  - destruct El as [El | El]; rewrite El; repeat constructor.
  - reflexivity.
  - exact E.
Defined.

Definition threeVersions : list PackageMeta := [pkg "a" "v1.0.0" true; pkg "b" "v1.1.0" true; pkg "c" "v1.2.0" true].
Definition peersThree : list PackageMeta := [pkg "x" "v1.0.0" true; pkg "y" "v1.1.0" true; pkg "z" "v1.2.0" true].

(** Two nodes with the same three versions: each version counts twice among the newest three
    of the merge, and the oldest is deleted. *)
Example sync_counts_twice :
  files (syncFromPeer peersThree (fun _ => None) (fun _ => "n") 0 (demoStore threeVersions)) = {["b"; "c"]}.
Proof. vm_compute. reflexivity. Qed.

Lemma sync_deletes_only_old_witness :
  ("a" ∉ files (syncFromPeer peersThree (fun _ => None) (fun _ => "n") 0 (demoStore threeVersions))) /\
  exists p, p ∈ fst (listPackages (demoStore threeVersions)) /\ mID p = "a".
Proof.
  assert (Hout : "a" ∉ files (syncFromPeer peersThree (fun _ => None) (fun _ => "n") 0 (demoStore threeVersions)))
    by (refine (bool_decide_unpack _ _); vm_compute; exact I).
  split; [exact Hout |].
  destruct (sync_deletes_only_old peersThree (fun _ => None) (fun _ => "n") 0 (demoStore threeVersions) "a") as (p & Hp & Hid & _).
  - refine (bool_decide_unpack _ _). vm_compute. exact I.
  - refine (bool_decide_unpack _ _). vm_compute. exact I.
  - exact Hout.
  - exists p. split; [exact Hp | exact Hid].
Defined.

(** A commit hash of digits only is read as a tag, above every release. *)
Example numeric_hash_newest : CompareVersions "1234567" "v9.9.9" = 1%Z /\ CompareVersions "78e9dfc" "v0.0.1" = (-1)%Z.
Proof. vm_compute. done. Qed.

(** The checksum beside a binary is listed as a binary of its own. *)
Example sidecar_listed : Inventory ["phaethon_linux_amd64_v1.2.3"; "phaethon_linux_amd64_v1.2.3.sha256"] =
  [mkEntry "linux" "amd64" "v1.2.3" ""; mkEntry "linux" "amd64" "v1.2.3.sha256" ""].
Proof. vm_compute. reflexivity. Qed.

(** Two keys with one file. *)
Example cache_names_collide : cacheFileName "linux" "amd64" "win7" "v1" = cacheFileName "linux" "amd64" "" "win7_v1".
Proof. reflexivity. Qed.
