(* ===== verification/ReversePool.v ===== *)
(** ReversePool: the pool of outbound reverse connections of src/server/reverse.go: the
    connection manager, the goroutines of each pooled connection, retries, Close and
    CloseForce, as interleaved steps; and what the handler of a mapping does with the first
    frame of a connection that was matched.

    A step is one critical section of the server's lock, one channel operation, or one
    effect on a connection.  Whether a dial succeeds, what a read returns and when a timer
    fires are choices of the environment. *)

From Stdlib Require Import ZArith Lia.
From stdpp Require Import base gmap list numbers relations.
From S2P Require Import Prelude Frame.
Open Scope Z_scope.

(** ** State *)

(** connectionManager: in its select; in genConnection about to look at the pool, in the
    dial, with a connection that is not in the pool yet, about to notify; returned. *)
Inductive Manager := MWait | MCheck | MDial | MDialed (c : nat) | MNotify | MExit.

(** The goroutine of a pooled connection, handleReverseConn: in ReadFrame; having seen PONG
    and waiting for its heartbeats to end; about to write PENG; about to delete the
    connection from the pool, then to notify, in order to hand it on or to close it; about
    to close; in the handler of the mapping; returned. *)
Inductive Serve := HRead | HStop | HPeng | HDelete (hand : bool) | HNotify (hand : bool) | HClose | HServing | HDone.

(** CloseForce: not called; called Close and about to copy the pool; closing the copied
    connections one after the other; returned. *)
Inductive Force := FNone | FCopy | FClose (l : list nat) | FDone.

Record ReverseServer := mkServer {
  maxConns : nat; retryMs : Z;
  connections : gset nat; closed : bool;
  (** needConnCh, of capacity one. *)
  need : bool;
  manager : Manager;
  (** Retries that time.AfterFunc has still to run. *)
  timers : nat;
  (** The goroutines, by connection; connections are numbered as they are dialed. *)
  serving : list Serve;
  (** The connections whose heartbeats still run. *)
  beating : gset nat;
  (** The connections that were closed here. *)
  shut : gset nat;
  force : Force }.

(** StartReverse, of the mapping's settings. *)
Definition defaultMaxConns : Z := 3.
Definition defaultRetry : Z := 5000.
Definition StartReverse (ReverseMaxConnections ReverseRetryInterval : Z) : ReverseServer :=
  let maxConns := if ReverseMaxConnections <=? 0 then defaultMaxConns else ReverseMaxConnections in
  let retryMs := if ReverseRetryInterval <=? 0 then defaultRetry else ReverseRetryInterval in
  mkServer (Z.to_nat maxConns) retryMs ∅ false true MWait 0 [] ∅ ∅ FNone.

Definition setManager m s := mkServer (maxConns s) (retryMs s) (connections s) (closed s) (need s) m (timers s) (serving s) (beating s) (shut s) (force s).
Definition setNeed b s := mkServer (maxConns s) (retryMs s) (connections s) (closed s) b (manager s) (timers s) (serving s) (beating s) (shut s) (force s).
Definition setTimers n s := mkServer (maxConns s) (retryMs s) (connections s) (closed s) (need s) (manager s) n (serving s) (beating s) (shut s) (force s).
Definition setPool p s := mkServer (maxConns s) (retryMs s) p (closed s) (need s) (manager s) (timers s) (serving s) (beating s) (shut s) (force s).
Definition setServing l s := mkServer (maxConns s) (retryMs s) (connections s) (closed s) (need s) (manager s) (timers s) l (beating s) (shut s) (force s).
Definition setBeating b s := mkServer (maxConns s) (retryMs s) (connections s) (closed s) (need s) (manager s) (timers s) (serving s) b (shut s) (force s).
Definition setClosed s := mkServer (maxConns s) (retryMs s) (connections s) true (need s) (manager s) (timers s) (serving s) (beating s) (shut s) (force s).
Definition setForce f s := mkServer (maxConns s) (retryMs s) (connections s) (closed s) (need s) (manager s) (timers s) (serving s) (beating s) (shut s) f.
Definition closeConn c s := mkServer (maxConns s) (retryMs s) (connections s) (closed s) (need s) (manager s) (timers s) (serving s) (beating s) ({[c]} ∪ shut s) (force s).
Definition goto c h s := setServing (<[c := h]> (serving s)) s.

(** ** Steps *)

(** notifyNeedConn: the select sends when the channel is empty, and may take closeCh
    instead when the server is closed; [send] is that choice. *)
Definition notifyNeedConn (send : bool) (s : ReverseServer) : ReverseServer :=
  if need s then s else if closed s && negb send then s else setNeed true s.

Inductive Action :=
  | AExit | ATake | ACheck | ADialOk | ADialFail | AInsert | ANotify (send : bool)
  | ATimer (send : bool)
  | ARead (c : nat) | AFail (c : nat) | APong (c : nat) | AStopped (c : nat) | APeng (c : nat) (ok : bool)
  | ADelete (c : nat) | AHandler (c : nat) (send : bool) | AEnd (c : nat) | AServed (c : nat)
  | ABeat (c : nat) | ABeatEnd (c : nat)
  | AClose | AForce | ACopy | AForceClose.

(** connectionManager and genConnection. *)
Definition stepManager (a : Action) (s : ReverseServer) : option ReverseServer :=
  match a, manager s with
  | AExit, MWait => if closed s then Some (setManager MExit s) else None
  | ATake, MWait => if need s then Some (setManager MCheck (setNeed false s)) else None
  | ACheck, MCheck =>
      if closed s || (maxConns s <=? size (connections s))%nat then Some (setManager MWait s) else Some (setManager MDial s)
  | ADialFail, MDial => Some (setManager MWait (setTimers (S (timers s)) s))
  | ADialOk, MDial => Some (setManager (MDialed (length (serving s))) s)
  | AInsert, MDialed c =>
      if closed s then Some (setManager MWait (closeConn c (setServing (serving s ++ [HDone]) s)))
      else Some (setManager MNotify (setPool ({[c]} ∪ connections s) (setBeating ({[c]} ∪ beating s) (setServing (serving s ++ [HRead]) s))))
  | ANotify send, MNotify => Some (setManager MWait (notifyNeedConn send s))
  | _, _ => None
  end.

(** handleReverseConn, with its deferred function, and its sender of heartbeats.  A frame
    that is neither PONG nor a heartbeat nor PENG ends the loop as a read error does.  The
    sender ends when its write fails, when PONG stopped it, or when the server is closed. *)
Definition stepServe (a : Action) (s : ReverseServer) : option ReverseServer :=
  let at_ c := serving s !! c in
  match a with
  | ARead c => match at_ c with Some HRead => Some s | _ => None end
  | AFail c => match at_ c with Some HRead => Some (goto c (HDelete false) s) | _ => None end
  | APong c => match at_ c with Some HRead => Some (goto c HStop s) | _ => None end
  | AStopped c => match at_ c with Some HStop => if decide (c ∈ beating s) then None else Some (goto c HPeng s) | _ => None end
  | APeng c ok => match at_ c with Some HPeng => Some (goto c (HDelete ok) s) | _ => None end
  | ADelete c => match at_ c with Some (HDelete hand) => Some (goto c (HNotify hand) (setPool (connections s ∖ {[c]}) s)) | _ => None end
  | AHandler c send =>
      match at_ c with Some (HNotify hand) => Some (goto c (if hand then HServing else HClose) (notifyNeedConn send s)) | _ => None end
  | AEnd c => match at_ c with Some HClose => Some (goto c HDone (closeConn c s)) | _ => None end
  | AServed c => match at_ c with Some HServing => Some (goto c HDone (closeConn c s)) | _ => None end
  | ABeat c => if decide (c ∈ beating s) then Some s else None
  | ABeatEnd c => if decide (c ∈ beating s) then Some (setBeating (beating s ∖ {[c]}) s) else None
  | _ => None
  end.

(** Close, CloseForce and the timers of retries. *)
Definition stepClose (a : Action) (s : ReverseServer) : option ReverseServer :=
  match a, force s with
  | AClose, _ => Some (setClosed s)
  | AForce, FNone => Some (setForce FCopy (setClosed s))
  | ACopy, FCopy => Some (setForce (FClose (elements (connections s))) s)
  | AForceClose, FClose (c :: l) => Some (setForce (FClose l) (closeConn c s))
  | AForceClose, FClose [] => Some (setForce FDone s)
  | ATimer send, _ => match timers s with S n => Some (notifyNeedConn send (setTimers n s)) | O => None end
  | _, _ => None
  end.

Definition exec (a : Action) (s : ReverseServer) : option ReverseServer :=
  match stepManager a s with Some s' => Some s' | None => match stepServe a s with Some s' => Some s' | None => stepClose a s end end.

Inductive reach (m r : Z) : ReverseServer -> Prop :=
  | reach_start : reach m r (StartReverse m r)
  | reach_step s a s' : reach m r s -> exec a s = Some s' -> reach m r s'.

(** ** The invariant *)

(** A goroutine that still holds its connection in the pool. *)
Definition pooled (h : Serve) : bool :=
  match h with HRead | HStop | HPeng | HDelete _ => true | _ => false end.
Definition notifying (h : Serve) : bool := match h with HNotify _ => true | _ => false end.
Definition working (m : Manager) : bool :=
  match m with MWait | MExit => false | _ => true end.
Definition dialing (m : Manager) : bool :=
  match m with MDial | MDialed _ => true | _ => false end.

(** Something that will make the manager look at the pool again. *)
Definition pendingWork (s : ReverseServer) : Prop :=
  need s = true \/ working (manager s) = true \/ (0 < timers s)%nat \/
  exists c h, serving s !! c = Some h /\ notifying h = true.

Record inv (s : ReverseServer) : Prop := {
  i_pool : forall c, c ∈ connections s <-> exists h, serving s !! c = Some h /\ pooled h = true;
  i_bound : (size (connections s) <= maxConns s)%nat;
  i_room : dialing (manager s) = true -> (size (connections s) < maxConns s)%nat;
  i_next : forall c, manager s = MDialed c -> c = length (serving s);
  i_pending : closed s = false -> (size (connections s) < maxConns s)%nat -> pendingWork s;
  i_exit : manager s = MExit -> closed s = true;
  i_done : forall c, serving s !! c = Some HDone -> c ∈ shut s;
  i_force : force s <> FNone -> closed s = true;
  i_shut : force s = FNone -> forall c, c ∈ shut s -> serving s !! c = Some HDone;
  i_forced : forall l, force s = FClose l -> connections s ⊆ shut s ∪ list_to_set l;
  i_forcedAll : force s = FDone -> connections s ⊆ shut s }.

Lemma start_inv m r : inv (StartReverse m r).
Proof.
  split; cbn; try done.
  - intros c. split; [set_solver |]. intros (h & H & _). done.
  - rewrite size_empty. lia.
  - intros _ _. by left.
Qed.

(** What the fields of a server after [notifyNeedConn] are. *)
Lemma notify_fields b s : let s' := notifyNeedConn b s in
  maxConns s' = maxConns s /\ connections s' = connections s /\ closed s' = closed s /\ manager s' = manager s /\
  timers s' = timers s /\ serving s' = serving s /\ shut s' = shut s /\ force s' = force s /\ (closed s = false -> need s' = true).
Proof.
  unfold notifyNeedConn. destruct (need s) eqn:En; [done |]. destruct (closed s) eqn:Ec, b; cbn; split_and!; done || (by intros).
Qed.

(** A goroutine that moves without leaving the pool or ending. *)
Lemma inv_goto s c h h' : inv s -> serving s !! c = Some h -> pooled h' = pooled h -> h <> HDone -> h' <> HDone ->
  (notifying h = true -> need s = true \/ closed s = true) -> inv (goto c h' s).
Proof.
  intros I Hc Hp Hn Hn' Hnot. pose proof (lookup_lt_Some _ _ _ Hc) as Hlt. destruct I as [Ip Ib Ir Ix Iw Ie Id If Is Il Ia].
  split; cbn; try done.
  - intros d. rewrite Ip. destruct (decide (d = c)) as [-> | Hd].
    + rewrite list_lookup_insert_eq by done. split; intros (x & Hx & Hpx); [rewrite Hc in Hx; injection Hx as <-; exists h'; split; congruence |].
      injection Hx as <-. exists h. split; congruence.
    + by rewrite list_lookup_insert_ne by done.
  - intros d Hd. rewrite length_insert. by apply Ix.
  - intros Ho Hs. destruct (notifying h) eqn:Enot.
    { destruct (Hnot eq_refl) as [Hy | Hy]; [by left | congruence]. }
    destruct (Iw Ho Hs) as [? | [? | [? | (d & x & Hd & Hx)]]]; [by left | by right; left | by right; right; left | right; right; right].
    exists d, x. cbn. rewrite list_lookup_insert_ne; [done |]. intros ->. congruence.
  - intros d Hd. apply Id. destruct (decide (d = c)) as [-> | Hne]; [rewrite list_lookup_insert_eq in Hd by done; congruence |].
    by rewrite list_lookup_insert_ne in Hd by done.
  - intros Hf d Hd. pose proof (Is Hf d Hd) as Hdd. destruct (decide (d = c)) as [-> | Hne]; [congruence |]. by rewrite list_lookup_insert_ne by done.
Qed.

Lemma inv_notify b s : inv s -> inv (notifyNeedConn b s).
Proof.
  intros [Ip Ib Ir Ix Iw Ie Id If Is Il Ia]. destruct (notify_fields b s) as (E1 & E2 & E3 & E4 & E5 & E6 & E7 & E8 & Hn).
  split; unfold pendingWork in *; rewrite ?E1, ?E2, ?E3, ?E4, ?E5, ?E6, ?E7, ?E8; try done.
  intros Ho _. left. auto.
Qed.

(** A goroutine that ends with its connection closed. *)
Lemma inv_end s c h : inv s -> serving s !! c = Some h -> pooled h = false -> notifying h = false ->
  inv (goto c HDone (closeConn c s)).
Proof.
  intros [Ip Ib Ir Ix Iw Ie Id If Is Il Ia] Hc Hp Hn. pose proof (lookup_lt_Some _ _ _ Hc) as Hlt. split; cbn; try done.
  - intros d. rewrite Ip. destruct (decide (d = c)) as [-> | Hd].
    + rewrite list_lookup_insert_eq by done. split; intros (x & Hx & Hpx); [rewrite Hc in Hx; congruence | injection Hx as <-; done].
    + by rewrite list_lookup_insert_ne by done.
  - intros d Hd. rewrite length_insert. by apply Ix.
  - intros Ho Hs. destruct (Iw Ho Hs) as [? | [? | [? | (d & x & Hd & Hx)]]]; [by left | by right; left | by right; right; left | right; right; right].
    exists d, x. cbn. rewrite list_lookup_insert_ne; [done |]. intros ->. congruence.
  - intros d Hd. destruct (decide (d = c)) as [-> | Hne]; [set_solver |]. rewrite list_lookup_insert_ne in Hd by done. apply elem_of_union_r. auto.
  - intros Hf d Hd. destruct (decide (d = c)) as [-> | Hne]; [by apply list_lookup_insert_eq |]. rewrite list_lookup_insert_ne by done. apply Is; set_solver.
  - intros l Hl. specialize (Il l Hl). set_solver.
  - intros Hf. specialize (Ia Hf). set_solver.
Qed.

(** A goroutine that takes its connection out of the pool. *)
Lemma inv_delete s c hand : inv s -> serving s !! c = Some (HDelete hand) ->
  inv (goto c (HNotify hand) (setPool (connections s ∖ {[c]}) s)).
Proof.
  intros [Ip Ib Ir Ix Iw Ie Id If Is Il Ia] Hc. pose proof (lookup_lt_Some _ _ _ Hc) as Hlt.
  assert (Hle : (size (connections s ∖ {[c]}) <= size (connections s))%nat) by (apply subseteq_size; set_solver).
  split; cbn.
  - intros d. rewrite elem_of_difference, elem_of_singleton, Ip. destruct (decide (d = c)) as [-> | Hd].
    + rewrite list_lookup_insert_eq by done. split; [intros [_ []]; done | intros (x & Hx & Hpx); injection Hx as <-; done].
    + rewrite list_lookup_insert_ne by done. naive_solver.
  - lia.
  - intros Hd. specialize (Ir Hd). lia.
  - intros d Hd. rewrite length_insert. by apply Ix.
  - intros _ _. right; right; right. exists c, (HNotify hand). cbn. by rewrite list_lookup_insert_eq.
  - done.
  - intros d Hd. apply Id. destruct (decide (d = c)) as [-> | Hne]; [rewrite list_lookup_insert_eq in Hd by done; congruence |].
    by rewrite list_lookup_insert_ne in Hd by done.
  - done.
  - intros Hf d Hd. pose proof (Is Hf d Hd) as Hdd. destruct (decide (d = c)) as [-> | Hne]; [congruence |]. by rewrite list_lookup_insert_ne by done.
  - intros l Hl. specialize (Il l Hl). set_solver.
  - intros Hf. specialize (Ia Hf). set_solver.
Qed.

(** A new connection: into the pool, or closed when the server is. *)
Lemma inv_insert s c : inv s -> manager s = MDialed c -> closed s = false ->
  inv (setManager MNotify (setPool ({[c]} ∪ connections s) (setBeating ({[c]} ∪ beating s) (setServing (serving s ++ [HRead]) s)))).
Proof.
  intros [Ip Ib Ir Ix Iw Ie Id If Is Il Ia] Hm Ho. pose proof (Ix c Hm) as ->. rewrite Hm in Ir. specialize (Ir eq_refl).
  assert (Hnew : length (serving s) ∉ connections s).
  { rewrite Ip. intros (h & Hh & _). apply lookup_lt_Some in Hh. lia. }
  split; cbn; try done.
  - intros d. rewrite elem_of_union, elem_of_singleton, Ip. split.
    + intros [-> | (h & Hh & Hp)]; [exists HRead; by rewrite lookup_app_r, Nat.sub_diag by lia | exists h; split; [by apply lookup_app_l_Some | done]].
    + intros (h & Hh & Hp). apply lookup_app_Some in Hh as [Hh | [Hge Hh]]; [right; eauto | left].
      apply list_lookup_singleton_Some in Hh as [Hz _]. lia.
  - rewrite size_union, size_singleton by set_solver. lia.
  - intros _ _. right. by left.
  - intros d Hd. apply Id. apply lookup_app_Some in Hd as [Hd | [_ Hd]]; [done |]. apply list_lookup_singleton_Some in Hd as [_ ?]. done.
  - intros Hf d Hd. apply lookup_app_l_Some. auto.
  - intros l Hl. rewrite If in Ho by congruence. done.
  - intros Hf. rewrite If in Ho by congruence. done.
Qed.

Lemma inv_refuse s c : inv s -> manager s = MDialed c -> closed s = true ->
  inv (setManager MWait (closeConn c (setServing (serving s ++ [HDone]) s))).
Proof.
  intros [Ip Ib Ir Ix Iw Ie Id If Is Il Ia] Hm Ho. pose proof (Ix c Hm) as ->. split; cbn; try done.
  - intros d. rewrite Ip. split; intros (h & Hh & Hp).
    + exists h. split; [by apply lookup_app_l_Some | done].
    + apply lookup_app_Some in Hh as [Hh | [_ Hh]]; [eauto |]. apply list_lookup_singleton_Some in Hh as [_ <-]. done.
  - congruence.
  - intros d Hd. apply lookup_app_Some in Hd as [Hd | [Hge Hd]]; [apply elem_of_union_r; auto |]. apply list_lookup_singleton_Some in Hd as [Hz _].
    apply elem_of_union_l, elem_of_singleton. lia.
  - intros Hf d Hd. apply elem_of_union in Hd as [Hd%elem_of_singleton | Hd]; [subst; by rewrite lookup_app_r, Nat.sub_diag by lia |].
    apply lookup_app_l_Some. auto.
  - intros l Hl. specialize (Il l Hl). set_solver.
  - intros Hf. specialize (Ia Hf). set_solver.
Qed.

Lemma inv_stepManager a s s' : inv s -> stepManager a s = Some s' -> inv s'.
Proof.
  intros I H. pose proof I as [Ip Ib Ir Ix Iw Ie Id If Is Il Ia].
  destruct a; cbn in H; destruct (manager s) eqn:Em; try discriminate H.
  - destruct (closed s) eqn:Ec; [injection H as <-| discriminate]. split; cbn; try done. congruence.
  - destruct (need s) eqn:En; [injection H as <-| discriminate]. split; cbn; try done. intros _ _. right. by left.
  - destruct (closed s || _) eqn:Ec; injection H as <-.
    + split; cbn; try done. intros Ho Hs. rewrite Ho in Ec. apply Nat.leb_le in Ec. lia.
    + apply orb_false_iff in Ec as [Ec Hs]. apply Nat.leb_gt in Hs. split; cbn; try done. intros _ _. right. by left.
  - injection H as <-. split; cbn; try done.
    + intros c [= <-]. done.
    + intros _ _. right. by left.
  - injection H as <-. split; cbn; try done. intros _ _. right; right; left. cbn. lia.
  - destruct (closed s) eqn:Ec; injection H as <-; [by apply inv_refuse | by apply inv_insert].
  - injection H as <-. destruct (notify_fields send s) as (E1 & E2 & E3 & E4 & E5 & E6 & E7 & E8 & Hn).
    destruct (inv_notify send s I) as [Jp Jb Jr Jx Jw Je Jd Jf Js Jl Ja]. split; cbn; try done.
    intros Ho _. left. cbn. rewrite E3 in Ho. auto.
Qed.

Lemma inv_handler s c hand send : inv s -> serving s !! c = Some (HNotify hand) ->
  inv (goto c (if hand then HServing else HClose) (notifyNeedConn send s)).
Proof.
  intros I Hc. destruct (notify_fields send s) as (_ & _ & E3 & _ & _ & E6 & _ & _ & Hn).
  apply (inv_goto _ c (HNotify hand)); [by apply inv_notify | by rewrite E6 | by destruct hand | done | by destruct hand |].
  intros _. rewrite E3. destruct (closed s); [by right | left; auto].
Qed.

Lemma inv_stepServe a s s' : inv s -> stepServe a s = Some s' -> inv s'.
Proof.
  intros I H. destruct a as [| | | | | | | | c | c | c | c | c ok | c | c send | c | c | c | c | | | |]; cbn in H; try discriminate H;
    try (destruct (decide (c ∈ beating s)); [injection H as <-; destruct I; by split | discriminate H]);
    (destruct (serving s !! c) as [[]|] eqn:Ec; try discriminate H; try (injection H as <-)).
  - done.
  - by apply (inv_goto _ c HRead).
  - by apply (inv_goto _ c HRead).
  - destruct (decide _); [discriminate |]. injection H as <-. by apply (inv_goto _ c HStop).
  - by apply (inv_goto _ c HPeng).
  - by apply inv_delete.
  - by apply inv_handler.
  - by eapply inv_end.
  - by eapply inv_end.
Qed.

Lemma inv_forceClose s c l : inv s -> force s = FClose (c :: l) -> inv (setForce (FClose l) (closeConn c s)).
Proof.
  intros [Ip Ib Ir Ix Iw Ie Id If Is Il Ia] Hf. split; cbn; try done.
  - intros d Hd. apply elem_of_union_r. auto.
  - intros _. apply If. congruence.
  - intros k [= <-]. specialize (Il _ Hf). set_solver.
Qed.

Lemma inv_stepClose a s s' : inv s -> stepClose a s = Some s' -> inv s'.
Proof.
  intros I H. pose proof I as [Ip Ib Ir Ix Iw Ie Id If Is Il Ia].
  destruct a; cbn in H; try discriminate H.
  - destruct (timers s) as [| n] eqn:Et; [by destruct (force s) as [| | [] |] |].
    assert (s' = notifyNeedConn send (setTimers n s)) as -> by (destruct (force s) as [| | [] |]; congruence).
    destruct (notify_fields send (setTimers n s)) as (E1 & E2 & E3 & E4 & E5 & E6 & E7 & E8 & Hn).
    split; rewrite ?E1, ?E2, ?E3, ?E4, ?E5, ?E6, ?E7, ?E8; cbn; try done. intros Ho _. left. auto.
  - assert (s' = setClosed s) as -> by (destruct (force s) as [| | [] |]; congruence). split; cbn; done.
  - destruct (force s) as [| | [] |] eqn:Ef; try discriminate H. injection H as <-. split; cbn; done.
  - destruct (force s) as [| | [] |] eqn:Ef; try discriminate H. injection H as <-. split; cbn; try done.
    + intros _. apply If. congruence.
    + intros l [= <-]. intros c Hc. apply elem_of_union_r. by rewrite list_to_set_elements.
  - destruct (force s) as [| | [| c l] |] eqn:Ef; try discriminate H; injection H as <-; [| by apply inv_forceClose].
    split; cbn; try done.
    + intros _. apply If. congruence.
    + intros _. specialize (Il [] eq_refl). set_solver.
Qed.

Lemma pool_inv_reach m r s : reach m r s -> inv s.
Proof.
  induction 1 as [| s a s' _ I H]; [apply start_inv |]. unfold exec in H.
  destruct (stepManager a s) eqn:E1; [injection H as <-; by eapply inv_stepManager |].
  destruct (stepServe a s) eqn:E2; [injection H as <-; by eapply inv_stepServe | by eapply inv_stepClose].
Qed.

(** ** The pool fills up *)

(** What the server does of its own accord while dials succeed: the manager's cycle, due
    timers, and goroutines that notify. *)
Definition ownAction (a : Action) : bool :=
  match a with ATake | ACheck | ADialOk | AInsert | ANotify _ | ATimer _ | AHandler _ _ => true | _ => false end.
Definition own (s s' : ReverseServer) : Prop := exists a, ownAction a = true /\ exec a s = Some s'.

Definition managerWork (m : Manager) : nat :=
  match m with MWait | MExit => 0 | MCheck => 4 | MDial => 3 | MDialed _ => 2 | MNotify => 6 end.
Definition serveWork (h : Serve) : nat := if notifying h then 6 else 0.
(** A bound on the steps still to come. *)
Definition work (s : ReverseServer) : nat :=
  5 * (maxConns s - size (connections s)) + (if need s then 5 else 0) + managerWork (manager s) + 6 * timers s
  + sum_list_with serveWork (serving s).

Lemma work_insert l c h h' : l !! c = Some h ->
  (sum_list_with serveWork (<[c := h']> l) + serveWork h = sum_list_with serveWork l + serveWork h')%nat.
Proof.
  revert c. induction l as [| x l IH]; intros [| c] Hc; [done | done | injection Hc as <-; cbn; lia |].
  change (<[S c := h']> (x :: l)) with (x :: <[c := h']> l). cbn [sum_list_with]. specialize (IH c Hc). lia.
Qed.
Lemma work_notify b s : (work (notifyNeedConn b s) <= work s + 5)%nat.
Proof. unfold notifyNeedConn. destruct (need s) eqn:En; [lia |]. destruct (closed s && negb b); [lia |]. unfold work. cbn. rewrite En. lia. Qed.

Lemma own_work s s' : inv s -> closed s = false -> own s s' -> (work s' < work s)%nat.
Proof.
  intros I Ho (a & Ha & H). destruct a; try discriminate Ha; unfold exec in H; cbn in H.
  - destruct (manager s) eqn:Em; cbn in H; try (destruct (force s) as [| | [] |]; discriminate H). destruct (need s) eqn:En; [| destruct (force s) as [| | [] |]; discriminate H].
    injection H as <-. unfold work. cbn. rewrite Em, En. cbn. lia.
  - destruct (manager s) eqn:Em; cbn in H; try (destruct (force s) as [| | [] |]; discriminate H).
    destruct (closed s || _); injection H as <-; unfold work; cbn; rewrite Em; cbn; lia.
  - destruct (manager s) eqn:Em; cbn in H; try (destruct (force s) as [| | [] |]; discriminate H). injection H as <-. unfold work. cbn. rewrite Em. cbn. lia.
  - destruct (manager s) eqn:Em; cbn in H; try (destruct (force s) as [| | [] |]; discriminate H). rewrite Ho in H. injection H as <-.
    assert (Hnew : c ∉ connections s).
    { rewrite (i_pool _ I), (i_next _ I _ Em). intros (h & Hh & _). apply lookup_lt_Some in Hh. lia. }
    pose proof (i_room _ I) as Hr. rewrite Em in Hr. specialize (Hr eq_refl). unfold work. cbn.
    rewrite Em, sum_list_with_app, size_union, size_singleton by set_solver. cbn. lia.
  - destruct (manager s) eqn:Em; cbn in H; try (destruct (force s) as [| | [] |]; discriminate H). injection H as <-.
    destruct (notify_fields send s) as (E1 & E2 & E3 & E4 & E5 & E6 & E7 & E8 & Hn). pose proof (work_notify send s) as Hw.
    unfold work in *. cbn. rewrite E4, Em in Hw. cbn in Hw. rewrite Em. cbn. lia.
  - destruct (timers s) as [| n] eqn:Et; [destruct (manager s); destruct (force s) as [| | [] |]; discriminate H |].
    assert (s' = notifyNeedConn send (setTimers n s)) as -> by (destruct (manager s); destruct (force s) as [| | [] |]; congruence).
    pose proof (work_notify send (setTimers n s)) as Hw. assert (work s = work (setTimers n s) + 6)%nat by (unfold work; cbn; rewrite Et; lia). lia.
  - assert (Hc : exists hand, serving s !! c = Some (HNotify hand) /\ s' = goto c (if hand then HServing else HClose) (notifyNeedConn send s)).
    { destruct (serving s !! c) as [[]|] eqn:Ec; destruct (manager s), (force s) as [| | [] |]; try discriminate H; injection H as <-; eauto. }
    destruct Hc as (hand & Hc & ->). destruct (notify_fields send s) as (_ & _ & _ & _ & _ & E6 & _).
    pose proof (work_notify send s) as Hw. pose proof (work_insert (serving (notifyNeedConn send s)) c (HNotify hand) (if hand then HServing else HClose)) as Hi.
    rewrite E6 in Hi. specialize (Hi Hc). unfold work in *. cbn. rewrite E6 in *. destruct hand; cbn in *; lia.
Qed.

Lemma exec_maxConns a s s' : exec a s = Some s' -> maxConns s' = maxConns s.
Proof.
  unfold exec. intros H.
  destruct (stepManager a s) as [s1|] eqn:E1; [injection H as <- | destruct (stepServe a s) as [s1|] eqn:E2; [injection H as <- |]].
  - destruct a; cbn in E1; destruct (manager s); try discriminate E1;
      repeat match type of E1 with context [if ?b then _ else _] => destruct b end; try discriminate E1; injection E1 as <-; cbn; try done.
    by destruct (notify_fields send s) as (-> & _).
  - destruct a; cbn in E2; try discriminate E2; repeat match type of E2 with context [if decide ?b then _ else _] => destruct (decide b) end;
      try (destruct (serving s !! c) as [[]|]; try discriminate E2); try discriminate E2; try (injection E2 as <-; done).
    injection E2 as <-. cbn. by destruct (notify_fields send s) as (-> & _).
  - destruct a; cbn in H; try (destruct (force s) as [| | [] |]; discriminate H).
    + destruct (timers s) as [| k]; [by destruct (force s) as [| | [] |] |].
      assert (s' = notifyNeedConn send (setTimers k s)) as -> by (destruct (force s) as [| | [] |]; congruence).
      by destruct (notify_fields send (setTimers k s)) as (-> & _).
    + assert (s' = setClosed s) as -> by (destruct (force s) as [| | [] |]; congruence). done.
    + destruct (force s) as [| | [] |]; try discriminate H; by injection H as <-.
    + destruct (force s) as [| | [] |]; try discriminate H; by injection H as <-.
    + destruct (force s) as [| | [] |]; try discriminate H; by injection H as <-.
Qed.

Lemma own_closed s s' : closed s = false -> own s s' -> closed s' = false.
Proof.
  intros Ho (a & Ha & H). destruct a; try discriminate Ha; unfold exec in H; cbn in H.
  all: try (destruct (serving s !! c) as [[]|]); destruct (manager s); try destruct (timers s); destruct (force s) as [| | [] |]; cbn in H; try discriminate H.
  all: try rewrite Ho in H; cbn in H; repeat match type of H with context [if ?b then _ else _] => destruct b end; try discriminate H;
    injection H as <-; cbn; try done; by rewrite (proj1 (proj2 (proj2 (notify_fields send _)))).
Qed.

(** A server at rest has a full pool. *)
Lemma own_stuck s : inv s -> closed s = false -> (forall s', ~ own s s') -> size (connections s) = maxConns s.
Proof.
  intros I Ho Hstuck. destruct (decide (size (connections s) = maxConns s)) as [| Hne]; [done | exfalso].
  pose proof (i_bound _ I) as Hb. assert (Hact : forall a, ownAction a = true -> exec a s = None).
  { intros a Ha. destruct (exec a s) as [s' |] eqn:E; [| done]. destruct (Hstuck s'). by exists a. }
  destruct (i_pending _ I Ho ltac:(lia)) as [Hn | [Hw | [Ht | (c & h & Hc & Hh)]]].
  - destruct (manager s) eqn:Em.
    + specialize (Hact ATake eq_refl). unfold exec in Hact. cbn in Hact. by rewrite Em, Hn in Hact.
    + specialize (Hact ACheck eq_refl). unfold exec in Hact. cbn in Hact. rewrite Em in Hact. by destruct (closed s || _).
    + specialize (Hact ADialOk eq_refl). unfold exec in Hact. cbn in Hact. by rewrite Em in Hact.
    + specialize (Hact AInsert eq_refl). unfold exec in Hact. cbn in Hact. rewrite Em in Hact. by destruct (closed s).
    + specialize (Hact (ANotify true) eq_refl). unfold exec in Hact. cbn in Hact. by rewrite Em in Hact.
    + rewrite (i_exit _ I Em) in Ho. done.
  - destruct (manager s) eqn:Em; try discriminate Hw.
    + specialize (Hact ACheck eq_refl). unfold exec in Hact. cbn in Hact. rewrite Em in Hact. by destruct (closed s || _).
    + specialize (Hact ADialOk eq_refl). unfold exec in Hact. cbn in Hact. by rewrite Em in Hact.
    + specialize (Hact AInsert eq_refl). unfold exec in Hact. cbn in Hact. rewrite Em in Hact. by destruct (closed s).
    + specialize (Hact (ANotify true) eq_refl). unfold exec in Hact. cbn in Hact. by rewrite Em in Hact.
  - specialize (Hact (ATimer true) eq_refl). unfold exec in Hact. cbn in Hact. destruct (timers s) as [| n]; [lia |].
    by destruct (manager s), (force s) as [| | [] |].
  - specialize (Hact (AHandler c true) eq_refl). unfold exec in Hact. cbn in Hact. rewrite Hc in Hact.
    destruct h; try discriminate Hh. by destruct (manager s).
Qed.

(** ** The handler of a mapping *)

(** What StartReverseMapping's handler does with a matched connection: the UDP channel with
    the payload of its first frame; or a framed connection into which that payload is put
    back, for the protocol of the mapping.  A connection whose first frame cannot be read is
    closed. *)
Inductive Accepted := AcceptUDP (dialer rest : list Z) | AcceptTCP (c : ReverseFramedConn) | AcceptNone.
Definition mappingHandler (rawConn : list Z) : Accepted :=
  match ReadFrame rawConn with
  | Err _ => AcceptNone
  | Ok (frameType, payload, rest) =>
      if frameType =? FrameUDPChannel then AcceptUDP payload rest
      else
        let framedConn := NewReverseFramedConn rest in
        AcceptTCP (if 0 <? len payload then Inject framedConn payload else framedConn)
  end.

(** ** Properties *)

(** The number of connections a mapping asks for. *)
Definition limit (m : Z) : nat := Z.to_nat (if m <=? 0 then defaultMaxConns else m).

Lemma reach_maxConns m r s : reach m r s -> maxConns s = limit m.
Proof.
  induction 1 as [| s a s' _ IH H]; [| by rewrite (exec_maxConns _ _ _ H)]. unfold StartReverse, limit. cbn. done.
Qed.

(** In every reachable state of a reverse server, however dials, reads, timers and Close
    interleave: the pool never exceeds its limit; while the server is open and the pool is
    short, something is under way that will look at it again, so no wake-up is lost; the
    pool holds exactly the connections whose goroutine has neither handed them on nor given
    them up; a connection is closed only by the goroutine that ends with it, unless
    CloseForce was called, and every goroutine that ended closed its connection; when
    CloseForce has returned, all that is left in the pool is closed. *)
Theorem reverse_pool_safe m r s :
  reach m r s ->
  (size (connections s) <= limit m)%nat /\
  (closed s = false -> (size (connections s) < limit m)%nat -> pendingWork s) /\
  (forall c, c ∈ connections s <-> exists h, serving s !! c = Some h /\ pooled h = true) /\
  (forall c, serving s !! c = Some HDone -> c ∈ shut s) /\
  (force s = FNone -> forall c, c ∈ shut s -> serving s !! c = Some HDone) /\
  (force s = FDone -> closed s = true /\ connections s ⊆ shut s).
Proof.
  intros H. pose proof (pool_inv_reach _ _ _ H) as []. rewrite <- (reach_maxConns _ _ _ H). split_and!; try done.
  intros Hf. split; [apply i_force0; congruence | auto].
Qed.

(** C20: the pool refills.  As long as dials succeed and nobody closes the server, whatever
    the order of the manager's steps, the retries that are due and the goroutines that
    notify, an open server is at rest after at most [work s] of these steps, and at rest
    its pool is full. *)
Theorem reverse_pool_refills m r s s' n :
  reach m r s -> closed s = false -> nsteps own n s s' ->
  (n <= work s)%nat /\ ((forall s'', ~ own s' s'') -> size (connections s') = limit m).
Proof.
  intros Hr Ho Hn. revert Hr Ho. induction Hn as [s | n s s1 s' H1 Hn IH]; intros Hr Ho.
  - split; [lia |]. intros Hs. rewrite (own_stuck s) by eauto using pool_inv_reach. by eapply reach_maxConns.
  - pose proof (own_work _ _ (pool_inv_reach _ _ _ Hr) Ho H1) as Hw. pose proof (own_closed _ _ Ho H1) as Ho1.
    destruct H1 as (a & Ha & He). destruct (IH (reach_step _ _ _ _ _ Hr He) Ho1) as [Hle Hfull]. split; [lia | done].
Qed.

(** Runs of actions, for the examples. *)
Fixpoint execs (l : list Action) (s : ReverseServer) : option ReverseServer :=
  match l with [] => Some s | a :: l => match exec a s with Some s => execs l s | None => None end end.
Lemma pool_execs_reach m r l s s' : reach m r s -> execs l s = Some s' -> reach m r s'.
Proof.
  revert s. induction l as [| a l IH]; intros s Hr H; cbn in H; [by injection H as <- |].
  destruct (exec a s) as [s1|] eqn:E; [| discriminate]. eauto using reach_step.
Qed.

(** A pool of one: the first dial fails, the retry succeeds; the connection is matched. *)
Definition demoRun : list Action :=
  [ATake; ACheck; ADialFail; ATimer true; ATake; ACheck; ADialOk; AInsert; ANotify true; APong 0; ABeatEnd 0; AStopped 0; APeng 0 true; ADelete 0].
Definition demoServer : ReverseServer := default (StartReverse 1 0) (execs demoRun (StartReverse 1 0)).
Lemma demo_execs : execs demoRun (StartReverse 1 0) = Some demoServer.
Proof. vm_compute. reflexivity. Qed.

Lemma reverse_pool_safe_witness : closed demoServer = false /\ size (connections demoServer) = 0%nat /\ pendingWork demoServer.
Proof.
  split_and!; [vm_compute; reflexivity | vm_compute; reflexivity |].
  apply (reverse_pool_safe 1 0 demoServer).
  - apply (pool_execs_reach 1 0 demoRun (StartReverse 1 0)); [constructor | apply demo_execs].
  - vm_compute. reflexivity.
  - vm_compute. lia.
Defined.

(** From there it takes the goroutine's notification and a turn of the manager. *)
Definition demoRefill : list Action := [AHandler 0 true; ATake; ACheck; ADialOk; AInsert; ANotify true; ATake; ACheck].
Lemma execs_nsteps l s s' : forallb ownAction l = true -> execs l s = Some s' -> nsteps own (length l) s s'.
Proof.
  revert s. induction l as [| a l IH]; intros s Hl H; cbn in Hl, H; [injection H as <-; constructor |].
  apply andb_true_iff in Hl as [Ha Hl]. destruct (exec a s) as [s1|] eqn:E; [| discriminate]. econstructor; [by exists a | auto].
Qed.
Definition demoFull : ReverseServer := default demoServer (execs demoRefill demoServer).
Lemma demoFull_rest s'' : ~ own demoFull s''.
Proof.
  intros (a & Ha & H). destruct a; try discriminate Ha; vm_compute in H; try discriminate H.
  destruct c as [| [| c]]; vm_compute in H; discriminate H.
Qed.
Lemma reverse_pool_refills_witness : (8 <= work demoServer)%nat /\ size (connections demoFull) = 1%nat.
Proof.
  assert (Hr : reach 1 0 demoServer) by (apply (pool_execs_reach 1 0 demoRun (StartReverse 1 0)); [constructor | apply demo_execs]).
  destruct (reverse_pool_refills 1 0 demoServer demoFull 8) as [Hn Hs].
  - exact Hr.
  - vm_compute. reflexivity.
  - apply (execs_nsteps demoRefill); vm_compute; reflexivity.
  - split; [exact Hn | apply Hs, demoFull_rest].
Defined.

(** Close lets matched and pooled connections drain, and nothing enters the pool after it:
    a connection whose dial was under way is closed. *)
Theorem close_drains a s s' : exec a s = Some s' -> closed s = true -> closed s' = true /\ connections s' ⊆ connections s.
Proof.
  unfold exec. intros H Hc.
  assert (Hn : forall b t, closed (notifyNeedConn b t) = closed t /\ connections (notifyNeedConn b t) = connections t) by
    (intros b t; by destruct (notify_fields b t) as (_ & ? & ? & _)).
  destruct (stepManager a s) as [s1|] eqn:E1; [injection H as <- | destruct (stepServe a s) as [s1|] eqn:E2; [injection H as <- |]].
  - destruct a; cbn in E1; destruct (manager s); try discriminate E1; try rewrite Hc in E1; cbn in E1;
      repeat match type of E1 with context [if ?b then _ else _] => destruct b end; try discriminate E1; injection E1 as <-; cbn; try done.
    destruct (Hn send s) as [-> ->]. done.
  - destruct a; cbn in E2; try discriminate E2; repeat match type of E2 with context [if decide ?b then _ else _] => destruct (decide b) end;
      try (destruct (serving s !! c) as [[]|]; try discriminate E2); try discriminate E2; try (injection E2 as <-; cbn; done).
    + injection E2 as <-. cbn. split; [done | set_solver].
    + injection E2 as <-. cbn. destruct (Hn send s) as [-> ->]. done.
  - destruct a; cbn in H; try (destruct (force s) as [| | [] |]; discriminate H).
    + destruct (timers s) as [| k]; [by destruct (force s) as [| | [] |] |].
      assert (s' = notifyNeedConn send (setTimers k s)) as -> by (destruct (force s) as [| | [] |]; congruence).
      destruct (Hn send (setTimers k s)) as [-> ->]. done.
    + assert (s' = setClosed s) as -> by (destruct (force s) as [| | [] |]; congruence). done.
    + destruct (force s) as [| | [] |]; try discriminate H; by injection H as <-.
    + destruct (force s) as [| | [] |]; try discriminate H; by injection H as <-.
    + destruct (force s) as [| | [] |]; try discriminate H; by injection H as <-.
Qed.

(** CloseForce closes what was in the pool when it looked: a connection that is matched
    meanwhile is closed under the handler that serves it. *)
Example force_closes_served : exists s,
  execs [ATake; ACheck; ADialOk; AInsert; APong 0; ABeatEnd 0; AStopped 0; APeng 0 true; AForce; ACopy; ADelete 0; AHandler 0 true; AForceClose]%nat
    (StartReverse 1 0) = Some s /\ serving s !! 0%nat = Some HServing /\ 0%nat ∈ shut s.
Proof.
  destruct (execs _ (StartReverse 1 0)) as [s|] eqn:E; [| vm_compute in E; discriminate]. vm_compute in E. injection E as <-.
  eexists. split_and!; [reflexivity | reflexivity | vm_compute; reflexivity].
Qed.

(** The first frame of a matched connection is not lost: in TCP mode the protocol of the
    mapping reads the bytes of all data frames, the first included, whatever heartbeats come
    between; a UDP channel starts with the dialer's address. *)
Theorem mappingHandler_exact t p rest :
  len p <= MaxPayload ->
  (t = FrameUDPChannel -> mappingHandler (serializeFrame t p ++ rest) = AcceptUDP p rest) /\
  forall c, mappingHandler (serializeFrame t p ++ rest) = AcceptTCP c ->
    t <> FrameUDPChannel /\ pending c = p ++ dataOf rest /\ (t = FrameData -> pending c = dataOf (serializeFrame t p ++ rest)).
Proof.
  intros Hp. unfold mappingHandler. rewrite ReadFrame_serialize by done. destruct (Z.eqb_spec t FrameUDPChannel) as [-> | Ht]; [done |].
  split; [done |]. intros c [= <-].
  assert (E : pending (if 0 <? len p then Inject (NewReverseFramedConn rest) p else NewReverseFramedConn rest) = p ++ dataOf rest).
  { destruct (Z.ltb_spec 0 (len p)) as [Hl | Hl].
    - unfold pending, Inject. cbn [readBuf incoming NewReverseFramedConn]. rewrite bufferWrite_from by done. done.
    - destruct p; [done |]. unfold len in Hl. cbn in Hl. lia. }
  split_and!; [done | exact E |]. intros ->. rewrite E, dataOf_serialize by done. done.
Qed.
