(* ===== verification/ReverseUDP.v ===== *)
(** ReverseUDP: the UDP channel of a reverse connection, both ends: the server of
    src/server/reverse.go (handleReverseUDPChannel), the dialer of src/dialer/reverse.go
    (DialPacket, reversePacketConn), and the encryption of src/util/reverse_crypto.go.

    The set-up is two functions over the bytes of the TCP connection; the channel is a
    step relation over a network that may lose, repeat, reorder and redirect every
    ciphertext, and that may insert any other bytes that do not open under the key.  The
    cipher, the resolution of names and the texts of addresses are arguments.  The set of
    seen targets has no lock: the two goroutines that change it enter and leave it in steps
    of their own, and while both are in it the runtime may end the dialer's process. *)

From Stdlib Require Import ZArith Lia String Ascii.
From stdpp Require Import base list numbers relations.
From S2P Require Import Prelude GoStrings IPPacket AddrCodec FifoSet.
Open Scope Z_scope.

(** ** Text of the set-up *)

(** bufio.Reader.ReadString: the bytes up to and with the delimiter, and the rest. *)
Fixpoint ReadString (delim : Z) (r : list Z) : option (list Z * list Z) :=
  match r with
  | [] => None
  | b :: r => if b =? delim then Some ([b], r) else match ReadString delim r with Some (line, rest) => Some (b :: line, rest) | None => None end
  end.

(** strings.TrimRight(s, "\r\n") *)
Fixpoint TrimRightNL (s : list Z) : list Z :=
  match s with
  | [] => []
  | b :: s => match TrimRightNL s with [] => if (b =? 10) || (b =? 13) then [] else [b] | s' => b :: s' end
  end.

(** encoding/hex *)
Definition hexChar (d : Z) : Z := if d <? 10 then 48 + d else 87 + d.
Definition EncodeToString (l : list Z) : list Z := l ≫= fun b => [hexChar (Z.shiftr b 4); hexChar (Z.land b 0xf)].
Definition fromHexChar (c : Z) : option Z :=
  if (48 <=? c) && (c <=? 57) then Some (c - 48)
  else if (97 <=? c) && (c <=? 102) then Some (c - 87)
  else if (65 <=? c) && (c <=? 70) then Some (c - 55) else None.
Fixpoint DecodeString (s : list Z) : option (list Z) :=
  match s with
  | [] => Some []
  | a :: b :: s => match fromHexChar a, fromHexChar b, DecodeString s with Some x, Some y, Some l => Some (Z.lor (Z.shiftl x 4) y :: l) | _, _, _ => None end
  | [_] => None
  end.

(** "READY\n" *)
Definition readyText : list Z := [82; 69; 65; 68; 89].

(** net.IP: nil or unspecified. *)
Definition noAddress (ip : list Z) : bool :=
  bool_decide (ip = []) || bool_decide (To4 ip = Some [0; 0; 0; 0]) || bool_decide (ip = replicate 16 0).
Definition loopback : list Z := [127; 0; 0; 1].
(** The address of the other end when the one it sent is unspecified. *)
Definition orRemote (tcpRemote ip : list Z) : list Z :=
  if noAddress ip then (if noAddress tcpRemote then loopback else tcpRemote) else ip.

(** ** Set-up *)

(** The sockets an end holds. *)
Inductive Sock := SockTCP | SockTunnel | SockTarget.
#[global] Instance Sock_eq_dec : EqDecision Sock.
Proof. solve_decision. Defined.
Definition shutSock (x : Sock) (os : list Sock) : list Sock := filter (fun y => y <> x) os.

(** What happens to the server during the set-up: how the dialer's address resolves, the
    remote IP of the connection unless it is not a TCP address, whether the three lines are
    written, whether the proxy is found and the sockets open, and the text of the tunnel's
    address. *)
Record ServerEnv := mkSEnv {
  seResolve : list Z -> option (list Z * Z); seRemote : option (list Z); seKeySent : bool; seProxy : bool; seTunnel : bool; seTarget : bool;
  seAddrSent : bool; seReadySent : bool; seTunnelAddr : list Z }.

(** How handleReverseUDPChannel goes on after the set-up: it returned and these sockets are
    open; it panicked on the type of the remote address; or it runs the channel with the
    dialer at this address. *)
Inductive ServerSetup := SReturn (os : list Sock) | SPanic | SRun (dialer : list Z * Z) (os : list Sock).

(** With what it wrote. *)
Definition serverSetup (env : ServerEnv) (sessionKey payload : list Z) : list Z * ServerSetup :=
  let os := [SockTCP] in
  if bool_decide (payload = []) then ([], SReturn os)
  else match seResolve env payload with
  | None => ([], SReturn os)
  | Some (ip, port) =>
      match (if noAddress ip then seRemote env ≫= fun remote => Some (orRemote remote ip) else Some ip) with
      | None => ([], SPanic)
      | Some ip =>
          if negb (seKeySent env) then ([], SReturn os)
          else
            let out := EncodeToString sessionKey ++ [10] in
            if negb (seProxy env) then (out, SReturn os)
            else if negb (seTunnel env) then (out, SReturn os)
            else
              let os := SockTunnel :: os in
              if negb (seTarget env) then (out, SReturn (shutSock SockTunnel os))
              else
                let os := SockTarget :: os in
                if negb (seAddrSent env) then (out, SReturn (shutSock SockTarget (shutSock SockTunnel os)))
                else
                  let out := out ++ seTunnelAddr env ++ [10] in
                  if negb (seReadySent env) then (out, SReturn (shutSock SockTarget (shutSock SockTunnel os)))
                  else (out ++ readyText ++ [10], SRun (ip, port) os)
      end
  end.

(** What happens to the dialer: whether a connection is matched, whether its sockets open,
    whether its tunnel is its target socket (no proxy behind), whether its command is
    written; how addresses resolve, the remote IP of the connection, its tunnel's port. *)
Record DialerEnv := mkDEnv {
  deMatch : bool; deTarget : bool; deDirect : bool; deChain : bool; deSent : bool;
  deResolve : list Z -> option (list Z * Z); deRemote : option (list Z); deChainPort : option Z }.

(** cleanupBoth; a dialer without a proxy behind has one socket for both. *)
Definition cleanupBoth (direct : bool) (os : list Sock) : list Sock :=
  let os := shutSock SockTarget os in
  let os := if direct then os else shutSock SockTunnel os in
  shutSock SockTCP os.

Inductive DialerSetup := DFail (os : list Sock) | DPanic | DRun (key : list Z) (remote : list Z * Z) (os : list Sock) (rest : list Z).

(** DialPacket up to the start of its goroutines; [r] is what arrives on the connection. *)
Definition dialerSetup (env : DialerEnv) (r : list Z) : DialerSetup :=
  if negb (deMatch env) then DFail []
  else
    let os := [SockTCP] in
    if negb (deTarget env) then DFail (shutSock SockTCP os)
    else
      let os := SockTarget :: os in
      if negb (deDirect env) && negb (deChain env) then DFail (shutSock SockTCP (shutSock SockTarget os))
      else
        let os := if deDirect env then os else SockTunnel :: os in
        let fail := DFail (cleanupBoth (deDirect env) os) in
        if negb (deSent env) then fail
        else match ReadString 10 r with
        | None => fail
        | Some (keyLine, r) =>
            match DecodeString (TrimRightNL keyLine) with
            | None => fail
            | Some key =>
                if negb (len key =? 32) then fail
                else match ReadString 10 r with
                | None => fail
                | Some (addrLine, r) =>
                    match deResolve env (TrimRightNL addrLine) with
                    | None => fail
                    | Some (ip, port) =>
                        match ReadString 10 r with
                        | None => fail
                        | Some (readyLine, r) =>
                            if negb (bool_decide (TrimRightNL readyLine = readyText)) then fail
                            else if noAddress ip then
                              match deRemote env with
                              | None => DPanic
                              | Some remote =>
                                  if port =? 0 then match deChainPort env with None => DPanic | Some p => DRun key (orRemote remote ip, p) os r end
                                  else DRun key (orRemote remote ip, port) os r
                              end
                            else DRun key (ip, port) os r
                        end
                    end
                end
            end
        end.

Lemma hex_char d : 0 <= d < 16 -> fromHexChar (hexChar d) = Some d.
Proof.
  intros Hd. assert (forallb (fun d => bool_decide (fromHexChar (hexChar d) = Some d)) (seqZ 0 16) = true) as H by (vm_compute; reflexivity).
  rewrite forallb_forall in H. specialize (H d). rewrite <- list_elem_of_In in H.
  apply (bool_decide_eq_true_1 (fromHexChar (hexChar d) = Some d)), H, elem_of_seqZ. lia.
Qed.

Lemma nibbles b : is_byte b -> Z.lor (Z.shiftl (Z.shiftr b 4) 4) (Z.land b 0xf) = b.
Proof.
  intros Hb. change 0xf with (Z.ones 4). rewrite Z.land_ones, lor_shiftl_add by (pose proof (Z.mod_pos_bound b (2 ^ 4)); lia).
  rewrite shiftr_div by lia. pose proof (Z.div_mod b (2 ^ 4)). lia.
Qed.

Lemma hex_roundtrip l : Forall is_byte l -> DecodeString (EncodeToString l) = Some l.
Proof.
  induction 1 as [| b l Hb Hl IH]; [done |]. unfold is_byte in Hb. change (EncodeToString (b :: l)) with (hexChar (Z.shiftr b 4) :: hexChar (Z.land b 0xf) :: EncodeToString l).
  cbn [DecodeString]. rewrite IH, !hex_char, nibbles; [done | done | |].
  - change 0xf with (Z.ones 4). rewrite Z.land_ones by lia. apply Z.mod_pos_bound. lia.
  - rewrite shiftr_div by lia. change (2 ^ 4) with 16. split; [apply Z.div_pos; lia | apply Z.div_lt_upper_bound; lia].
Qed.

Lemma hex_plain l c : c ∈ EncodeToString l -> Forall is_byte l -> 48 <= c <= 102.
Proof.
  intros Hc Hl. unfold EncodeToString in Hc. apply list_elem_of_bind in Hc as (b & Hc & Hb). rewrite Forall_forall in Hl. specialize (Hl b Hb). unfold is_byte in Hl.
  assert (forall d, 0 <= d < 16 -> 48 <= hexChar d <= 102) as Hd by (intros d Hd; unfold hexChar; destruct (Z.ltb_spec d 10); lia).
  set_unfold in Hc. destruct Hc as [-> | [-> | []]]; apply Hd.
  - rewrite shiftr_div by lia. change (2 ^ 4) with 16. split; [apply Z.div_pos; lia | apply Z.div_lt_upper_bound; lia].
  - change 0xf with (Z.ones 4). rewrite Z.land_ones by lia. apply Z.mod_pos_bound. lia.
Qed.

(** A line that holds no newline is read back whole. *)
Lemma read_line line rest : 10 ∉ line -> ReadString 10 (line ++ 10 :: rest) = Some (line ++ [10], rest).
Proof.
  induction line as [| b line IH]; intros Hn; cbn; [done |]. destruct (Z.eqb_spec b 10) as [-> | Hb]; [set_solver |].
  rewrite IH by set_solver. done.
Qed.

Lemma trimNL_snoc line c : c = 10 \/ c = 13 -> TrimRightNL (line ++ [c]) = TrimRightNL line.
Proof. intros Hc. induction line as [| b line IH]; cbn; [by destruct Hc as [-> | ->] | rewrite IH; done]. Qed.

Lemma trim_plain line : 10 ∉ line -> 13 ∉ line -> TrimRightNL line = line.
Proof.
  induction line as [| b line IH]; intros H1 H2; cbn; [done |]. rewrite IH by set_solver. destruct line; [| done].
  destruct (Z.eqb_spec b 10) as [-> | ?]; [set_solver |]. destruct (Z.eqb_spec b 13) as [-> | ?]; [set_solver |]. done.
Qed.

Lemma shut_not x os : x ∉ shutSock x os.
Proof. unfold shutSock. rewrite list_elem_of_filter. naive_solver. Qed.

(** The dialer of an environment in which its own steps succeed. *)
Definition willing (env : DialerEnv) : Prop := deMatch env = true /\ deTarget env = true /\ (deDirect env || deChain env = true) /\ deSent env = true.
Definition heldSockets (env : DialerEnv) : list Sock := if deDirect env then [SockTarget; SockTCP] else [SockTunnel; SockTarget; SockTCP].

Lemma cleanup_all env : cleanupBoth (deDirect env) (heldSockets env) = [].
Proof. unfold heldSockets. by destruct (deDirect env). Qed.

Lemma dialer_fails_clean env r os : dialerSetup env r = DFail os -> os = [].
Proof.
  unfold dialerSetup. destruct (deMatch env), (deTarget env); cbn [negb]; try (by intros [= <-]).
  destruct (deDirect env) eqn:Ed, (deChain env); cbn [negb andb]; try (by intros [= <-]);
    (destruct (deSent env); cbn [negb]; [| by intros [= <-]]; destruct (ReadString 10 r) as [[k r1]|]; [| by intros [= <-]];
     destruct (DecodeString _) as [key|]; [| by intros [= <-]]; destruct (len key =? 32); cbn [negb]; [| by intros [= <-]];
     destruct (ReadString 10 r1) as [[a r2]|]; [| by intros [= <-]]; destruct (deResolve env _) as [[ip port]|]; [| by intros [= <-]];
     destruct (ReadString 10 r2) as [[l r3]|]; [| by intros [= <-]]; destruct (bool_decide _); cbn [negb]; [| by intros [= <-]];
     destruct (noAddress ip); [| done]; destruct (deRemote env); [| done]; destruct (port =? 0); [by destruct (deChainPort env) | done]).
Qed.

Lemma server_returns_clean env key payload out os : serverSetup env key payload = (out, SReturn os) -> os = [SockTCP].
Proof.
  unfold serverSetup. destruct (bool_decide _); [by intros [= _ <-] |]. destruct (seResolve env payload) as [[ip port]|]; [| by intros [= _ <-]].
  destruct (if noAddress ip then _ else _); [| done].
  destruct (seKeySent env), (seProxy env), (seTunnel env), (seTarget env), (seAddrSent env), (seReadySent env); cbn; by intros [= _ <-].
Qed.

(** What the server wrote, by how far it came. *)
Lemma server_output env key payload out st : serverSetup env key payload = (out, st) ->
  let line1 := EncodeToString key ++ [10] in let line2 := seTunnelAddr env ++ [10] in
  match st with
  | SRun _ os => out = line1 ++ line2 ++ readyText ++ [10] /\ os = [SockTarget; SockTunnel; SockTCP]
  | _ => out = [] \/ out = line1 \/ out = line1 ++ line2
  end.
Proof.
  unfold serverSetup. destruct (bool_decide _); [intros [= <- <-]; by left |]. destruct (seResolve env payload) as [[ip port]|]; [| intros [= <- <-]; by left].
  destruct (if noAddress ip then _ else _); [| intros [= <- <-]; by left].
  destruct (seKeySent env), (seProxy env), (seTunnel env), (seTarget env), (seAddrSent env), (seReadySent env); cbn [negb]; intros [= <- <-]; auto;
    rewrite <- ?app_assoc; auto.
Qed.

(** The dialer on each of these texts. *)
Lemma dialer_reads env key text more : willing env -> Forall is_byte key -> len key = 32 -> 10 ∉ text -> 13 ∉ text ->
  dialerSetup env ((EncodeToString key ++ [10]) ++ (text ++ [10]) ++ (readyText ++ [10]) ++ more) =
    match deResolve env text with
    | None => DFail []
    | Some (ip, port) =>
        if noAddress ip then
          match deRemote env with
          | None => DPanic
          | Some remote => if port =? 0 then match deChainPort env with None => DPanic | Some p => DRun key (orRemote remote ip, p) (heldSockets env) more end
                           else DRun key (orRemote remote ip, port) (heldSockets env) more
          end
        else DRun key (ip, port) (heldSockets env) more
    end /\
  dialerSetup env [] = DFail [] /\ dialerSetup env (EncodeToString key ++ [10]) = DFail [] /\
  dialerSetup env ((EncodeToString key ++ [10]) ++ (text ++ [10])) = DFail [].
Proof.
  intros (Hm & Ht & Hd & Hs) Hk Hl H10 H13. unfold dialerSetup. rewrite Hm, Ht, Hs. cbn [negb].
  assert (Hg : negb (deDirect env) && negb (deChain env) = false) by (destruct (deDirect env), (deChain env); done). rewrite Hg.
  change (if deDirect env then [SockTarget; SockTCP] else [SockTunnel; SockTarget; SockTCP]) with (heldSockets env). rewrite cleanup_all.
  assert (Hp : forall c, c = 10 \/ c = 13 -> c ∉ EncodeToString key) by (intros c Hc Hi; pose proof (hex_plain _ _ Hi Hk); lia).
  assert (Hkey : forall r, ReadString 10 ((EncodeToString key ++ [10]) ++ r) = Some (EncodeToString key ++ [10], r)).
  { intros r. rewrite <- app_assoc. apply read_line. auto. }
  assert (Htxt : forall r, ReadString 10 ((text ++ [10]) ++ r) = Some (text ++ [10], r)) by (intros r; rewrite <- app_assoc; by apply read_line).
  assert (Hdec : DecodeString (TrimRightNL (EncodeToString key ++ [10])) = Some key).
  { rewrite trimNL_snoc, trim_plain by auto. by apply hex_roundtrip. }
  assert (Haddr : TrimRightNL (text ++ [10]) = text) by (rewrite trimNL_snoc by auto; by apply trim_plain).
  assert (Hlen : negb (len key =? 32) = false) by (rewrite Hl; done).
  split_and!.
  - rewrite Hkey, Hdec, Hlen, Htxt, Haddr. destruct (deResolve env text) as [[ip port]|]; [| done].
    rewrite <- app_assoc. change (ReadString 10 (readyText ++ [10] ++ more)) with (Some (readyText ++ [10], more)). cbn iota.
    rewrite bool_decide_true by reflexivity. done.
  - done.
  - specialize (Hkey []). rewrite app_nil_r in Hkey. rewrite Hkey, Hdec, Hlen. done.
  - rewrite Hkey, Hdec, Hlen. specialize (Htxt []). rewrite app_nil_r in Htxt. rewrite Htxt, Haddr. by destruct (deResolve env text) as [[ip port]|].
Qed.

(** The set-up of a UDP channel.  A server that gives up holds no socket but the
    connection its caller closes, and a dialer that gives up holds none at all.  When the
    server goes on to run the channel, a dialer whose own steps succeed reads the server's
    key and the address of its tunnel, however the three lines are cut into segments, with
    an unspecified address replaced by the other end's, and leaves what follows unread; when the
    server gives up, the dialer fails too. *)
Theorem udp_channel_setup env denv key payload out st :
  serverSetup env key payload = (out, st) -> willing denv ->
  Forall is_byte key -> len key = 32 -> 10 ∉ seTunnelAddr env -> 13 ∉ seTunnelAddr env ->
  match st with
  | SReturn os => os = [SockTCP] /\ dialerSetup denv out = DFail []
  | SPanic => dialerSetup denv out = DFail []
  | SRun _ os => os = [SockTarget; SockTunnel; SockTCP] /\
      forall ip port remote more, deResolve denv (seTunnelAddr env) = Some (ip, port) -> deRemote denv = Some remote -> port <> 0 ->
        dialerSetup denv (out ++ more) = DRun key (orRemote remote ip, port) (heldSockets denv) more
  end /\
  forall denv' r os, dialerSetup denv' r = DFail os -> os = [].
Proof.
  intros Hs Hw Hk Hl H10 H13. split; [| apply dialer_fails_clean]. pose proof (server_output _ _ _ _ _ Hs) as Ho.
  destruct (dialer_reads denv key (seTunnelAddr env) [] Hw Hk Hl H10 H13) as (_ & D0 & D1 & D2).
  destruct st as [os | | dialer os].
  - split; [by eapply server_returns_clean |]. destruct Ho as [-> | [-> | ->]]; done.
  - destruct Ho as [-> | [-> | ->]]; done.
  - destruct Ho as [-> ->]. split; [done |]. intros ip port remote more Hr Hrem Hport.
    destruct (dialer_reads denv key (seTunnelAddr env) more Hw Hk Hl H10 H13) as (E & _).
    rewrite <- !app_assoc in *. rewrite E, Hr, Hrem. rewrite (proj2 (Z.eqb_neq port 0) Hport).
    unfold orRemote. by destruct (noAddress ip).
Qed.

(** A dialer at 10.0.0.2 behind [::], and a server whose tunnel listens on 0.0.0.0:4000. *)
Definition demoSEnv : ServerEnv :=
  mkSEnv (fun _ => Some (replicate 16 0, 5000)) (Some [10; 0; 0; 2]) true true true true true true [48; 58; 52].
Definition demoDEnv : DialerEnv := mkDEnv true true true false true (fun _ => Some ([0; 0; 0; 0], 4000)) (Some [10; 0; 0; 1]) None.
Definition demoKey : list Z := seqZ 100 32.

Lemma udp_channel_setup_witness :
  serverSetup demoSEnv demoKey [1] = (fst (serverSetup demoSEnv demoKey [1]), SRun ([10; 0; 0; 2], 5000) [SockTarget; SockTunnel; SockTCP]) /\
  dialerSetup demoDEnv (fst (serverSetup demoSEnv demoKey [1]) ++ [7; 8]) = DRun demoKey ([10; 0; 0; 1], 4000) [SockTarget; SockTCP] [7; 8].
Proof.
  split; [vm_compute; reflexivity |].
  destruct (udp_channel_setup demoSEnv demoDEnv demoKey [1] (fst (serverSetup demoSEnv demoKey [1])) (snd (serverSetup demoSEnv demoKey [1]))) as [[_ H] _].
  - destruct (serverSetup demoSEnv demoKey [1]). reflexivity.
  - repeat split.
  - unfold demoKey. apply Forall_forall. intros x Hx%elem_of_seqZ. unfold is_byte. lia.
  - reflexivity.
  - cbn. set_solver by lia.
  - cbn. set_solver by lia.
  - apply (H [0; 0; 0; 0] 4000 [10; 0; 0; 1] [7; 8]); [reflexivity | reflexivity | lia].
Defined.

(** ** The channel *)

Section Channel.
Context (aeadSeal : list Z -> list Z -> list Z -> list Z) (aeadOpen : list Z -> list Z -> list Z -> option (list Z)).
Context (ParseIP : list Z -> option (list Z)) (SplitHostPort : list Z -> option (list Z * list Z)) (Resolve : list Z -> Z -> option NetAddr)
  (addrString : NetAddr -> list Z).
Context (key : list Z).

(** src/util/reverse_crypto.go *)
Definition NonceSize : Z := 24.
Definition OverheadSize : Z := 16.
Definition Seal (nonce plaintext : list Z) : list Z := nonce ++ aeadSeal key nonce plaintext.
Definition Open (ciphertext : list Z) : option (list Z) :=
  if len ciphertext <? NonceSize + OverheadSize then None
  else aeadOpen key (sub ciphertext 0 NonceSize) (from ciphertext NonceSize).

Abbreviation Build := (BuildReverseUDPFrame ParseIP SplitHostPort).
Abbreviation Parse := (ParseReverseUDPFrame Resolve).
Abbreviation Message := (NetAddr * list Z)%type.
(** The two ends, to say who sent a ciphertext. *)
Inductive End := ByServer | ByDialer.
#[local] Instance End_eq_dec : EqDecision End.
Proof. solve_decision. Defined.

(** The server: its tunnel and target sockets are closed together. *)
Record UDPServer := mkServer { sClosed : bool; currentDialer : NetAddr }.
(** What chainReader does with a data frame: it puts the address in the set, and then sends
    the message to [dataCh]. *)
Inductive Reading := InPut | Sending.
(** reversePacketConn: [dataCh] has room for 32; [chClosed] when its reader has closed it;
    [readyCh] is closed by the first heartbeat.  [reading] is the message its reader holds,
    [writing] the one of the WriteTo that holds writeMu, which is in the set as well;
    [died] when the runtime ended the process. *)
Record PacketConn := mkPC { cClosed : bool; chainIsDirect : bool; remoteAddr : NetAddr; ready : bool; dataCh : list Message; chClosed : bool;
  seenTargets : FIFOSet; reading : option (Reading * Message); writing : option Message; died : bool }.

(** Both ends; every ciphertext ever sent, with its sender; and what the applications and the targets have
    sent and got: [wrote] the dialer's WriteTo, [strays] what came to its target socket,
    [replies] what came to the server's, [toTargets] what the server sent there, [got] what
    ReadFrom returned, with the length of the buffer it was given. *)
Record Channel := mkChannel {
  srv : UDPServer; cli : PacketConn; wire : list (End * list Z);
  wrote : list Message; strays : list Message; replies : list Message;
  toTargets : list Message; got : list (option (Message * nat)); crashed : bool }.

Definition newChannel (direct : bool) (dialer remote : NetAddr) : Channel :=
  mkChannel (mkServer false dialer) (mkPC false direct remote false [] false (NewFIFOSet 64) None None false) [] [] [] [] [] [] false.

Definition dataChCap : nat := 32.

Definition setSrv s ch := mkChannel s (cli ch) (wire ch) (wrote ch) (strays ch) (replies ch) (toTargets ch) (got ch) (crashed ch).
Definition setCli c ch := mkChannel (srv ch) c (wire ch) (wrote ch) (strays ch) (replies ch) (toTargets ch) (got ch) (crashed ch).
Definition send (by_ : End) ct ch := mkChannel (srv ch) (cli ch) (wire ch ++ [(by_, ct)]) (wrote ch) (strays ch) (replies ch) (toTargets ch) (got ch) (crashed ch).
Definition didWrite m ch := mkChannel (srv ch) (cli ch) (wire ch) (wrote ch ++ [m]) (strays ch) (replies ch) (toTargets ch) (got ch) (crashed ch).
Definition didStray m ch := mkChannel (srv ch) (cli ch) (wire ch) (wrote ch) (strays ch ++ [m]) (replies ch) (toTargets ch) (got ch) (crashed ch).
Definition didReply m ch := mkChannel (srv ch) (cli ch) (wire ch) (wrote ch) (strays ch) (replies ch ++ [m]) (toTargets ch) (got ch) (crashed ch).
Definition toTarget m ch := mkChannel (srv ch) (cli ch) (wire ch) (wrote ch) (strays ch) (replies ch) (toTargets ch ++ [m]) (got ch) (crashed ch).
Definition didGet m ch := mkChannel (srv ch) (cli ch) (wire ch) (wrote ch) (strays ch) (replies ch) (toTargets ch) (got ch ++ [m]) (crashed ch).
Definition crash ch := mkChannel (srv ch) (cli ch) (wire ch) (wrote ch) (strays ch) (replies ch) (toTargets ch) (got ch) true.

(** doClose of the server, Close of the dialer. *)
Definition doClose ch := setSrv (mkServer true (currentDialer (srv ch))) ch.
Definition setClosed (c : PacketConn) := mkPC true (chainIsDirect c) (remoteAddr c) (ready c) (dataCh c) (chClosed c) (seenTargets c) (reading c) (writing c) (died c).
Definition setBeat (src : NetAddr) (c : PacketConn) := mkPC (cClosed c) (chainIsDirect c) src true (dataCh c) (chClosed c) (seenTargets c) (reading c) (writing c) (died c).
Definition setData (l : list Message) (c : PacketConn) := mkPC (cClosed c) (chainIsDirect c) (remoteAddr c) (ready c) l (chClosed c) (seenTargets c) (reading c) (writing c) (died c).
Definition setChClosed (c : PacketConn) := mkPC (cClosed c) (chainIsDirect c) (remoteAddr c) (ready c) (dataCh c) true (seenTargets c) (reading c) (writing c) (died c).
Definition setSeen (s : FIFOSet) (c : PacketConn) := mkPC (cClosed c) (chainIsDirect c) (remoteAddr c) (ready c) (dataCh c) (chClosed c) s (reading c) (writing c) (died c).
Definition setReading (r : option (Reading * Message)) (c : PacketConn) := mkPC (cClosed c) (chainIsDirect c) (remoteAddr c) (ready c) (dataCh c) (chClosed c) (seenTargets c) r (writing c) (died c).
Definition setWriting (w : option Message) (c : PacketConn) := mkPC (cClosed c) (chainIsDirect c) (remoteAddr c) (ready c) (dataCh c) (chClosed c) (seenTargets c) (reading c) w (died c).
Definition setDied (c : PacketConn) := mkPC (cClosed c) (chainIsDirect c) (remoteAddr c) (ready c) (dataCh c) (chClosed c) (seenTargets c) (reading c) (writing c) true.
Definition Close ch := setCli (setClosed (cli ch)) ch.

(** A write to the tunnel: it is sent, or fails and closes the end. *)
Definition tunnelWrite (by_ : End) (nonce plain : list Z) (ok : bool) ch : Channel :=
  if ok then send by_ (Seal nonce plain) ch else match by_ with ByServer => doClose ch | ByDialer => Close ch end.

(** *** The server's goroutines *)

(** Tunnel to target: a packet from [from]. *)
Definition tunnelRead (from_ : NetAddr) (ct : list Z) ch : Channel :=
  match Open ct with
  | None => ch
  | Some plain =>
      let ch := setSrv (mkServer (sClosed (srv ch)) from_) ch in
      match Parse plain with
      | RError | RHeartbeat => ch
      | RPanic => crash ch
      | RData targetAddr payload => toTarget (targetAddr, payload) ch
      end
  end.

(** Target to tunnel. *)
Definition targetRead (m : Message) (nonce : list Z) (ok : bool) ch : Channel :=
  let ch := didReply m ch in
  let frame := Build (fst m) (snd m) in
  if bool_decide (frame = []) then ch else tunnelWrite ByServer nonce frame ok ch.

Definition serverHeartbeat (nonce : list Z) (ok : bool) ch : Channel := tunnelWrite ByServer nonce BuildReverseUDPHeartbeat ok ch.

(** *** The dialer's goroutines and methods *)

(** chainReader with one packet, up to the set of seen targets. *)
Definition chainReader (src : NetAddr) (ct : list Z) ch : Channel :=
  match Open ct with
  | None => ch
  | Some plain =>
      match Parse plain with
      | RError => ch
      | RPanic => crash ch
      | RHeartbeat => setCli (setBeat src (cli ch)) ch
      | RData targetAddr payload => setCli (setReading (Some (InPut, (targetAddr, payload))) (cli ch)) ch
      end
  end.

(** Its Put at time [now], and the send, which blocks while the channel is full. *)
Definition chainPut (now : Z) ch : option Channel :=
  match reading (cli ch) with
  | Some (InPut, m) =>
      let '(s, _) := Put now (addrString (fst m)) (seenTargets (cli ch)) in
      Some (setCli (setReading (Some (Sending, m)) (setSeen s (cli ch))) ch)
  | _ => None
  end.
Definition chainSend ch : option Channel :=
  match reading (cli ch) with
  | Some (Sending, m) =>
      if (length (dataCh (cli ch)) <? dataChCap)%nat
      then Some (setCli (setReading None (setData (dataCh (cli ch) ++ [m]) (cli ch))) ch)
      else None
  | _ => None
  end.

(** Its deferred function: the channel is closed before the connection is.  The reader can
    leave between packets, and instead of sending once the connection is closed. *)
Definition mayLeave (c : PacketConn) : bool :=
  match reading c with None => true | Some (Sending, _) => cClosed c | Some (InPut, _) => false end.
Definition chainReaderEnd ch : Channel := setCli (setReading None (setChClosed (cli ch))) ch.

(** WriteTo up to the set of seen targets; false is an error.  None when another call holds
    writeMu. *)
Definition WriteTo (b : list Z) (addr : NetAddr) ch : option (Channel * bool) :=
  match writing (cli ch) with
  | Some _ => None
  | None =>
      if cClosed (cli ch) then Some (ch, false)
      else if bool_decide (Build addr b = []) then Some (ch, false)
      else Some (setCli (setWriting (Some (addr, b)) (cli ch)) ch, true)
  end.

(** Its Put, and the rest: the frame is sealed and sent. *)
Definition writePut (now : Z) (nonce : list Z) (ok : bool) ch : option (Channel * bool) :=
  match writing (cli ch) with
  | None => None
  | Some m =>
      let '(s, _) := Put now (addrString (fst m)) (seenTargets (cli ch)) in
      let ch := setCli (setWriting None (setSeen s (cli ch))) ch in
      if ok then Some (send ByDialer (Seal nonce (Build (fst m) (snd m))) (didWrite m ch), true) else Some (ch, false)
  end.

(** ReadFrom with a buffer of [n] bytes: the select takes a message, of which as much is
    copied as fits, or the zero value of a closed channel, or the closing ([closed] when it
    chooses so), which is an error. *)
Definition ReadFrom (n : nat) (closed : bool) ch : option Channel :=
  if closed then (if cClosed (cli ch) then Some ch else None)
  else match dataCh (cli ch) with
  | (targetAddr, payload) :: q => Some (didGet (Some (targetAddr, take n payload, n)) (setCli (setData q (cli ch)) ch))
  | [] => if chClosed (cli ch) then Some (didGet None ch) else None
  end.

(** Both goroutines are in the set. *)
Definition raceInPut (c : PacketConn) : bool :=
  match reading c, writing c with Some (InPut, _), Some _ => true | _, _ => false end.

(** targetToChain, which runs when a proxy is behind the dialer. *)
Definition targetToChain (m : Message) (nonce : list Z) (ok : bool) ch : Channel :=
  let ch := didStray m ch in
  let frame := Build (fst m) (snd m) in
  if bool_decide (frame = []) then ch else tunnelWrite ByDialer nonce frame ok ch.

Definition dialerHeartbeat (nonce : list Z) (ok : bool) ch : Channel := tunnelWrite ByDialer nonce BuildReverseUDPHeartbeat ok ch.

(** *** Steps *)

Inductive Action :=
  | ATunnelRead (src : NetAddr) (ct : list Z) | ATargetRead (m : Message) (nonce : list Z) (ok : bool) | AServerBeat (nonce : list Z) (ok : bool) | AServerClose
  | AChainRead (src : NetAddr) (ct : list Z) | AChainPut (now : Z) | AChainSend | AChainEnd
  | AWrite (b : list Z) (addr : NetAddr) | AWritePut (now : Z) (nonce : list Z) (ok : bool) | ARead (n : nat) (closed : bool)
  | AStray (m : Message) (nonce : list Z) (ok : bool) | ADialerBeat (nonce : list Z) (ok : bool) | ADialerClose | ADie.

(** What the network may deliver to an end: what the other end sent, what does not open,
    and, when it [reflects], what the end sent itself. *)
Definition opens (ct : list Z) : bool := match Open ct with Some _ => true | None => false end.
Definition deliverable (reflects : bool) (peer self : End) (ct : list Z) ch : bool :=
  bool_decide ((peer, ct) ∈ wire ch) || negb (opens ct) || (reflects && bool_decide ((self, ct) ∈ wire ch)).

Definition execServer (reflects : bool) (a : Action) ch : option Channel :=
  match a with
  | ATunnelRead src ct => if negb (sClosed (srv ch)) && deliverable reflects ByDialer ByServer ct ch then Some (tunnelRead src ct ch) else None
  | ATargetRead m nonce ok => if sClosed (srv ch) then None else Some (targetRead m nonce ok ch)
  | AServerBeat nonce ok => if sClosed (srv ch) then None else Some (serverHeartbeat nonce ok ch)
  | AServerClose => Some (doClose ch)
  | _ => None
  end.

Definition execDialer (reflects : bool) (a : Action) ch : option Channel :=
  let c := cli ch in
  match a with
  | AChainRead src ct =>
      if negb (cClosed c) && negb (chClosed c) && bool_decide (reading c = None) && deliverable reflects ByServer ByDialer ct ch
      then Some (chainReader src ct ch) else None
  | AChainPut now => chainPut now ch
  | AChainSend => chainSend ch
  | AChainEnd => if chClosed c || negb (mayLeave c) then None else Some (chainReaderEnd ch)
  | AWrite b addr => fst <$> WriteTo b addr ch
  | AWritePut now nonce ok => fst <$> writePut now nonce ok ch
  | ARead n closed => ReadFrom n closed ch
  | AStray m nonce ok => if cClosed c || chainIsDirect c then None else Some (targetToChain m nonce ok ch)
  | ADialerBeat nonce ok => if cClosed c then None else Some (dialerHeartbeat nonce ok ch)
  | ADialerClose => Some (Close ch)
  | ADie => if raceInPut c then Some (setCli (setDied c) ch) else None
  | _ => None
  end.

Definition ofServer (a : Action) : bool :=
  match a with ATunnelRead _ _ | ATargetRead _ _ _ | AServerBeat _ _ | AServerClose => true | _ => false end.
Definition exec (reflects : bool) (a : Action) ch : option Channel :=
  if ofServer a then execServer reflects a ch else if died (cli ch) then None else execDialer reflects a ch.

(** What the types of the language guarantee: addresses are well-formed, payloads are bytes,
    nonces have their length. *)
Definition wfAddr (a : NetAddr) : Prop :=
  match a with
  | UDPAddr ip port | TCPAddr ip port => wfIP ip /\ 0 <= port < 2 ^ 16
  | OtherAddr s => forall host p, SplitHostPort s = Some (host, p) -> Forall is_byte host /\ (forall ip, ParseIP host = Some ip -> wfIP ip)
  end.
Definition wfAction (a : Action) : Prop :=
  match a with
  | ATargetRead m nonce _ | AStray m nonce _ => wfAddr (fst m) /\ Forall is_byte (snd m) /\ len nonce = NonceSize
  | AWrite b addr => wfAddr addr /\ Forall is_byte b
  | AServerBeat nonce _ | ADialerBeat nonce _ | AWritePut _ nonce _ => len nonce = NonceSize
  | _ => True
  end.

Inductive reach (reflects direct : bool) (dialer remote : NetAddr) : Channel -> Prop :=
  | reach_new : reach reflects direct dialer remote (newChannel direct dialer remote)
  | reach_step ch a ch' : reach reflects direct dialer remote ch -> wfAction a -> exec reflects a ch = Some ch' -> reach reflects direct dialer remote ch'.

(** The address that the other end reads for the address [a0]. *)
Definition names (a0 a : NetAddr) : Prop :=
  match a0 with
  | UDPAddr ip port | TCPAddr ip port => a = UDPAddr (canon ip) port
  | OtherAddr s => exists host p, SplitHostPort s = Some (host, p) /\
      match ParseIP host with Some ip => a = UDPAddr (canon ip) (wrap 16 (atoi p)) | None => Resolve host (wrap 16 (atoi p)) = Some a end
  end.

(** ** What the frames name *)

Lemma ip_frame ip port p : wfIP ip -> Forall is_byte p -> Parse (buildReverseAddr ip port ++ p) = RData (UDPAddr (canon ip) (wrap 16 port)) p.
Proof.
  intros Hip Hp. rewrite buildReverseAddr_block, <- app_assoc by done.
  rewrite (ParseReverseUDPFrame_block _ _ (targetOf ip) (wrap 16 port) p); [unfold targetOf, canon; by destruct (To4 ip) | |].
  - apply Forall_app_2; [by apply block_bytes, targetOf_wf | done].
  - by rewrite parseBlock_block by (by apply targetOf_wf).
Qed.

Lemma name_frame host port p : Forall is_byte host -> len host <= 255 -> Forall is_byte p ->
  Parse (([0; 0; 3; byte_of (len host)] ++ host ++ PutUint16 port) ++ p) =
    match Resolve host (wrap 16 port) with Some a => RData a p | None => RError end.
Proof.
  intros Hh Hl Hp. change [0; 0; 3; byte_of (len host)] with ([0; 0] ++ [3; byte_of (len host)]). rewrite <- !app_assoc.
  rewrite (app_assoc [3; byte_of (len host)]), (app_assoc _ (PutUint16 port)), <- (app_assoc [3; byte_of (len host)]).
  rewrite domain_block by done. assert (Hw : wfTarget (Domain host)) by done.
  rewrite (ParseReverseUDPFrame_block _ _ (Domain host) (wrap 16 port) p); [done | | by apply parseBlock_block].
  apply Forall_app_2; [by apply block_bytes | done].
Qed.

(** A frame that was built is read as its payload for the address it names, or refused
    because the name does not resolve; it is never a heartbeat and never panics. *)
Lemma built_frame a p : wfAddr a -> Forall is_byte p -> Build a p <> [] ->
  (exists a', Parse (Build a p) = RData a' p /\ names a a') \/ Parse (Build a p) = RError.
Proof.
  intros Ha Hp. destruct a as [ip port | ip port | s]; cbn [BuildReverseUDPFrame wfAddr names] in *; intros Hne.
  1, 2: destruct Ha as [Hip Hport]; left; exists (UDPAddr (canon ip) port); rewrite ip_frame, wrap_small by done; done.
  destruct (SplitHostPort s) as [[host portStr]|] eqn:Es; [| done]. destruct (Ha _ _ eq_refl) as [Hh Hi].
  destruct (ParseIP host) as [ip|] eqn:Ei.
  - left. eexists. rewrite ip_frame by eauto. split; [reflexivity |]. exists host, portStr. rewrite Ei. done.
  - destruct (Z.ltb_spec 255 (len host)) as [Hl | Hl]; [done |]. rewrite name_frame by (done || lia).
    destruct (Resolve host _) as [a|] eqn:Er; [left | by right]. exists a. split; [done |]. exists host, portStr. rewrite Ei. done.
Qed.

Context (Haead : forall nonce plain, aeadOpen key nonce (aeadSeal key nonce plain) = Some plain).
Context (Htag : forall nonce plain, len (aeadSeal key nonce plain) = len plain + OverheadSize).

Lemma open_seal nonce plain : len nonce = NonceSize -> Open (Seal nonce plain) = Some plain.
Proof.
  intros Hn. unfold Open, Seal. rewrite len_app, Htag, Hn. pose proof (len_nonneg plain). destruct (Z.ltb_spec (NonceSize + (len plain + OverheadSize)) (NonceSize + OverheadSize)); [lia |].
  rewrite <- Hn. unfold sub, from, len. rewrite Z.sub_0_r, Nat2Z.id. change (drop (Z.to_nat 0) (nonce ++ aeadSeal key nonce plain)) with (nonce ++ aeadSeal key nonce plain).
  rewrite take_app_length, drop_app_length. apply Haead.
Qed.

(** ** The invariant *)

(** What an end seals: heartbeats, and frames of its own messages. *)
Definition sealed (ms : list Message) (ct : list Z) : Prop :=
  exists nonce plain, ct = Seal nonce plain /\ len nonce = NonceSize /\
    (plain = BuildReverseUDPHeartbeat \/ exists m, m ∈ ms /\ plain = Build (fst m) (snd m) /\ plain <> [] /\ wfAddr (fst m) /\ Forall is_byte (snd m)).
(** A message that carries one of [ms]. *)
Definition carries (ms : list Message) (m : Message) : Prop := exists a0, (a0, snd m) ∈ ms /\ names a0 (fst m).

Definition ownOf (e : End) (ch : Channel) : list Message := match e with ByServer => replies ch | ByDialer => wrote ch ++ strays ch end.
(** The messages that may reach an end: its peer's, and its own when the network reflects. *)
Definition reachable (reflects : bool) (peer self : End) (ch : Channel) : list Message := ownOf peer ch ++ (if reflects then ownOf self ch else []).

(** The messages the dialer holds that came from the server. *)
Definition arrived (c : PacketConn) : list Message := dataCh c ++ (match reading c with Some (_, m) => [m] | None => [] end).

Record good (reflects : bool) (ch : Channel) : Prop := {
  g_wire : forall e ct, (e, ct) ∈ wire ch -> sealed (ownOf e ch) ct;
  g_targets : forall m, m ∈ toTargets ch -> carries (reachable reflects ByDialer ByServer ch) m;
  g_arrived : forall m, m ∈ arrived (cli ch) -> carries (reachable reflects ByServer ByDialer ch) m;
  g_got : forall a b n, Some (a, b, n) ∈ got ch -> exists p, b = take n p /\ carries (reachable reflects ByServer ByDialer ch) (a, p);
  g_writing : forall m, writing (cli ch) = Some m -> Build (fst m) (snd m) <> [] /\ wfAddr (fst m) /\ Forall is_byte (snd m);
  g_strays : chainIsDirect (cli ch) = true -> strays ch = [];
  g_died : died (cli ch) = true -> raceInPut (cli ch) = true;
  g_running : crashed ch = false }.

Lemma sealed_mono ms ms' ct : sealed ms ct -> ms ⊆ ms' -> sealed ms' ct.
Proof. intros (n & p & -> & Hn & Hp) Hs. exists n, p. split_and!; [done | done |]. destruct Hp as [Hp | (m & Hm & Hp)]; [by left | right]. exists m. auto. Qed.
Lemma carries_mono ms ms' m : carries ms m -> ms ⊆ ms' -> carries ms' m.
Proof. intros (a & Ha & Hn) Hs. exists a. auto. Qed.

(** What a delivered ciphertext opens to. *)
Lemma delivered reflects peer self ct ch : good reflects ch -> deliverable reflects peer self ct ch = true ->
  Open ct = None \/
  exists plain, Open ct = Some plain /\
    (Parse plain = RHeartbeat \/ Parse plain = RError \/ exists a p, Parse plain = RData a p /\ carries (reachable reflects peer self ch) (a, p)).
Proof.
  intros G H. unfold deliverable in H. apply orb_true_iff in H as [H | H]; [apply orb_true_iff in H as [H | H] |].
  2: { unfold opens in H. destruct (Open ct) eqn:E; [discriminate | by left]. }
  1: assert (Hs : sealed (reachable reflects peer self ch) ct) by
       (apply (sealed_mono (ownOf peer ch)); [eapply g_wire; [done | by eapply bool_decide_eq_true_1] | unfold reachable; set_solver]).
  2: assert (Hs : sealed (reachable reflects peer self ch) ct) by
       (apply andb_true_iff in H as [-> H]; apply (sealed_mono (ownOf self ch)); [eapply g_wire; [done | by eapply bool_decide_eq_true_1] | unfold reachable; set_solver]).
  all: destruct Hs as (nonce & plain & -> & Hn & Hp); right; exists plain; split; [by apply open_seal |];
    destruct Hp as [-> | ([a0 p] & Hm & -> & Hne & Ha & Hb)]; [by left | right]; cbn [fst snd] in *;
    destruct (built_frame a0 p Ha Hb Hne) as [(a & E & Hnm) | E]; [right | by left]; exists a, p; (split; [done |]); by exists a0.
Qed.

(** A change that sends nothing and only adds messages keeps the invariant. *)
Lemma good_mono reflects ch ch' :
  good reflects ch -> wire ch' = wire ch -> wrote ch ⊆ wrote ch' -> strays ch ⊆ strays ch' -> replies ch ⊆ replies ch' ->
  toTargets ch' = toTargets ch -> (forall m, m ∈ arrived (cli ch') -> m ∈ arrived (cli ch)) ->
  (forall m, Some m ∈ got ch' -> Some m ∈ got ch) -> (forall m, writing (cli ch') = Some m -> writing (cli ch) = Some m) ->
  (chainIsDirect (cli ch') = true -> strays ch' = []) -> (died (cli ch') = true -> raceInPut (cli ch') = true) ->
  crashed ch' = false -> good reflects ch'.
Proof.
  intros [Gw Gt Ga Gg Gi Gs Gd Gr] Ew Hw Hs Hr Et Ha Hg Hi Hst Hd Hc.
  assert (Ho : forall e, ownOf e ch ⊆ ownOf e ch') by (intros []; cbn; set_solver).
  assert (Hre : forall p s, reachable reflects p s ch ⊆ reachable reflects p s ch').
  { intros p s. pose proof (Ho p). pose proof (Ho s). unfold reachable. destruct reflects; set_solver. }
  split; [| | | | | done | done | done].
  - intros e ct H. rewrite Ew in H. eapply sealed_mono; eauto.
  - intros m H. rewrite Et in H. eapply carries_mono; eauto.
  - intros m H. eapply carries_mono; [by apply Ga, Ha | apply Hre].
  - intros a b n H. destruct (Gg a b n (Hg _ H)) as (p & -> & Hp). exists p. split; [done |]. eapply carries_mono; [done | apply Hre].
  - intros m H. by apply Gi, Hi.
Qed.

Ltac same G := apply (good_mono _ _ _ G); cbn; done || set_solver || exact (g_strays _ _ G) || exact (g_died _ _ G) || exact (g_running _ _ G) || idtac.

Lemma good_tunnelWrite reflects e nonce plain ok ch : good reflects ch -> len nonce = NonceSize ->
  (plain = BuildReverseUDPHeartbeat \/ exists m, m ∈ ownOf e ch /\ plain = Build (fst m) (snd m) /\ plain <> [] /\ wfAddr (fst m) /\ Forall is_byte (snd m)) ->
  good reflects (tunnelWrite e nonce plain ok ch).
Proof.
  intros G Hn Hp. pose proof G as [Gw Gt Ga Gg Gi Gs Gd Gr]. unfold tunnelWrite. destruct ok.
  - split; cbn; try (done || exact Gs || exact Gd). intros e' ct H. apply elem_of_app in H as [H | H]; [apply Gw in H; by destruct e' |].
    apply list_elem_of_singleton in H. injection H as -> ->. exists nonce, plain. split_and!; [done | done |]. by destruct e.
  - destruct e; same G.
Qed.

Lemma good_tunnelRead reflects src ct ch : good reflects ch -> deliverable reflects ByDialer ByServer ct ch = true -> good reflects (tunnelRead src ct ch).
Proof.
  intros G H. unfold tunnelRead. destruct (delivered _ _ _ _ _ G H) as [-> | (plain & -> & [-> | [-> | (a & p & -> & Hc)]])]; [done | same G | same G |].
  pose proof G as [Gw Gt Ga Gg Gi Gs Gd Gr]. split; cbn; try (done || exact Gs || exact Gd).
  intros m Hm. apply elem_of_app in Hm as [Hm | ->%list_elem_of_singleton]; [by apply Gt | done].
Qed.

Lemma good_chainReader reflects src ct ch : good reflects ch -> deliverable reflects ByServer ByDialer ct ch = true ->
  reading (cli ch) = None -> died (cli ch) = false -> good reflects (chainReader src ct ch).
Proof.
  intros G H Hr Hd. unfold chainReader. destruct (delivered _ _ _ _ _ G H) as [-> | (plain & -> & [-> | [-> | (a & p & -> & Hc)]])]; [done | | done |].
  - same G.
  - pose proof G as [Gw Gt Ga Gg Gi Gs Gd Gr]. split; cbn; try (done || exact Gs).
    + unfold arrived. cbn. intros m Hm. apply elem_of_app in Hm as [Hm | ->%list_elem_of_singleton]; [| done].
      apply Ga. unfold arrived. apply elem_of_app. by left.
    + congruence.
Qed.

Lemma good_chainPut reflects now ch ch' : good reflects ch -> died (cli ch) = false -> chainPut now ch = Some ch' -> good reflects ch'.
Proof.
  intros G Hd H. unfold chainPut in H. destruct (reading (cli ch)) as [[[] m]|] eqn:Er; try discriminate.
  destruct (Put _ _ _) as [s seen]. injection H as <-. apply (good_mono _ _ _ G); cbn; try (done || exact (g_strays _ _ G) || exact (g_running _ _ G) || congruence).
  unfold arrived. cbn. by rewrite Er.
Qed.

Lemma good_chainSend reflects ch ch' : good reflects ch -> died (cli ch) = false -> chainSend ch = Some ch' -> good reflects ch'.
Proof.
  intros G Hd H. unfold chainSend in H. destruct (reading (cli ch)) as [[[] m]|] eqn:Er; try discriminate.
  destruct (_ <? _)%nat; [| discriminate]. injection H as <-.
  apply (good_mono _ _ _ G); cbn; try (done || exact (g_strays _ _ G) || exact (g_running _ _ G) || congruence).
  unfold arrived. cbn. rewrite Er, app_nil_r. done.
Qed.

Lemma good_WriteTo reflects b addr ch r : good reflects ch -> died (cli ch) = false -> wfAddr addr -> Forall is_byte b ->
  WriteTo b addr ch = Some r -> good reflects (fst r).
Proof.
  intros G Hd Ha Hb H. unfold WriteTo in H. destruct (writing (cli ch)) eqn:Ew; [discriminate |].
  destruct (cClosed (cli ch)); [by injection H as <- |]. destruct (bool_decide _) eqn:E; injection H as <-; [done |].
  apply bool_decide_eq_false_1 in E. pose proof G as [Gw Gt Ga Gg Gi Gs Gd Gr].
  split; cbn; try (done || exact Gs || congruence). by intros m [= <-].
Qed.

Lemma good_writePut reflects now nonce ok ch r : good reflects ch -> died (cli ch) = false -> len nonce = NonceSize ->
  writePut now nonce ok ch = Some r -> good reflects (fst r).
Proof.
  intros G Hd Hn H. unfold writePut in H. destruct (writing (cli ch)) as [m|] eqn:Ew; [| discriminate].
  destruct (Put _ _ _) as [s seen]. cbv zeta in H. set (ch1 := setCli _ ch) in H.
  assert (G1 : good reflects ch1) by (apply (good_mono _ _ _ G); cbn; try (done || exact (g_strays _ _ G) || exact (g_running _ _ G) || congruence)).
  destruct ok; injection H as <-; [| done]. assert (G2 : good reflects (didWrite m ch1)) by (apply (good_mono _ _ _ G1); cbn; done || set_solver || exact (g_strays _ _ G1) || exact (g_died _ _ G1) || exact (g_running _ _ G1)).
  destruct (g_writing _ _ G m Ew) as (Hne & Ha & Hb). apply (good_tunnelWrite _ ByDialer _ _ true); [done | done |].
  right. exists m. split_and!; [cbn; set_solver | done..].
Qed.

Lemma good_ReadFrom reflects n closed ch ch' : good reflects ch -> died (cli ch) = false -> ReadFrom n closed ch = Some ch' -> good reflects ch'.
Proof.
  intros G Hd H. unfold ReadFrom in H. destruct closed; [destruct (cClosed _); [by injection H as <- | discriminate] |].
  pose proof G as [Gw Gt Ga Gg Gi Gs Gd Gr]. destruct (dataCh (cli ch)) as [| [a p] q] eqn:E.
  - destruct (chClosed _); [injection H as <- | discriminate]. apply (good_mono _ _ _ G); cbn; try (done || exact Gs || congruence).
    intros m Hm. by apply elem_of_app in Hm as [Hm | Hm%list_elem_of_singleton].
  - injection H as <-. split; cbn; try (done || exact Gs || congruence).
    + intros m Hm. apply Ga. unfold arrived in *. cbn in Hm. rewrite E. apply elem_of_cons. by right.
    + intros a0 b0 n0 Hx. apply elem_of_app in Hx as [Hx | Hx%list_elem_of_singleton]; [by apply Gg |].
      injection Hx as -> -> ->. exists p. split; [done |]. apply Ga. unfold arrived. rewrite E. left.
Qed.

Lemma good_exec reflects a ch ch' : good reflects ch -> wfAction a -> exec reflects a ch = Some ch' -> good reflects ch'.
Proof.
  intros G Hw H. unfold exec in H. destruct (ofServer a) eqn:Eo.
  - destruct a as [src ct | m nonce ok | nonce ok | | | | | | | | | | | |]; try discriminate Eo; cbn in H, Hw.
    + destruct (negb _ && _) eqn:E; [injection H as <- | discriminate]. apply andb_true_iff in E as [_ E]. by apply good_tunnelRead.
    + destruct (sClosed _); [discriminate | injection H as <-]. destruct Hw as (Ha & Hb & Hn). unfold targetRead.
      assert (G' : good reflects (didReply m ch)) by same G. destruct (bool_decide _) eqn:E; [done |]. apply good_tunnelWrite; [done | done |].
      right. exists m. apply bool_decide_eq_false_1 in E. split_and!; [cbn; set_solver | done..].
    + destruct (sClosed _); [discriminate | injection H as <-]. apply good_tunnelWrite; auto.
    + injection H as <-. same G.
  - destruct (died (cli ch)) eqn:Ed; [discriminate |].
    destruct a as [| | | | src ct | now | | | b addr | now nonce ok | n closed | m nonce ok | nonce ok | |]; try discriminate Eo; cbn in H, Hw.
    + destruct (negb _ && negb _ && _ && _) eqn:E; [| discriminate]. apply andb_true_iff in E as [E1 E]. apply andb_true_iff in E1 as [_ E1].
      injection H as <-. apply good_chainReader; [done | done | by eapply bool_decide_eq_true_1 | done].
    + by eapply good_chainPut.
    + by eapply good_chainSend.
    + destruct (_ || _); [discriminate | injection H as <-]. apply (good_mono _ _ _ G); cbn; try (done || exact (g_strays _ _ G) || exact (g_running _ _ G) || congruence).
      unfold arrived. cbn. set_solver.
    + apply fmap_Some in H as (r & H & ->). destruct Hw. by eapply good_WriteTo.
    + apply fmap_Some in H as (r & H & ->). by eapply good_writePut.
    + by eapply good_ReadFrom.
    + destruct (cClosed _ || chainIsDirect _) eqn:Ec; [discriminate | injection H as <-]. apply orb_false_iff in Ec as [_ Ec]. destruct Hw as (Ha & Hb & Hn). unfold targetToChain.
      assert (G' : good reflects (didStray m ch)) by (apply (good_mono _ _ _ G); cbn; try done; [set_solver | congruence | exact (g_died _ _ G) | exact (g_running _ _ G)]).
      destruct (bool_decide _) eqn:E; [done |]. apply good_tunnelWrite; [done | done |].
      right. exists m. apply bool_decide_eq_false_1 in E. split_and!; [cbn; set_solver | done..].
    + destruct (cClosed _); [discriminate | injection H as <-]. apply good_tunnelWrite; auto.
    + injection H as <-. same G.
    + destruct (raceInPut (cli ch)) eqn:Er; [| discriminate]. injection H as <-. same G.
Qed.

Lemma good_reach reflects direct dialer remote ch : reach reflects direct dialer remote ch -> good reflects ch.
Proof.
  induction 1 as [| ch a ch' _ G Hw H]; [| by eapply good_exec]. split; cbn; try done; try set_solver.
Qed.

Lemma direct_exec reflects a ch ch' : exec reflects a ch = Some ch' -> chainIsDirect (cli ch') = chainIsDirect (cli ch).
Proof.
  intros H. unfold exec in H. destruct (ofServer a); [| destruct (died (cli ch)); [discriminate |]].
  - destruct a; cbn in H; repeat case_match; try discriminate H; injection H as <-;
      unfold tunnelRead, targetRead, serverHeartbeat, tunnelWrite; repeat case_match; done.
  - destruct a; cbn in H; unfold chainPut, chainSend, WriteTo, writePut, ReadFrom in H; repeat case_match; try discriminate H; simplify_eq/=; try done;
      unfold chainReader, targetToChain, dialerHeartbeat, tunnelWrite; repeat case_match; done.
Qed.
Lemma direct_reach reflects direct dialer remote ch : reach reflects direct dialer remote ch -> chainIsDirect (cli ch) = direct.
Proof. induction 1 as [| ch a ch' _ IH Hw H]; [done |]. rewrite <- IH. by eapply direct_exec. Qed.

(** C21: the UDP channel of a reverse connection is authentic.  Over a network that loses,
    repeats, reorders, redirects and inserts at will, every packet the server sends to a
    target carries a payload the dialer was given for an address of that name, and every
    packet the application reads carries what the server received from it, as much of it as
    the buffer holds; no frame that is delivered makes either end panic, and the dialer's
    process dies only while its reader and a WriteTo are both in the set of seen targets,
    which has no lock.  Both directions share a key and a frame does not say which way it
    goes, so if
    the network also reflects packets to their sender, a reply may be sent back to its
    target, and the application may read its own packets as replies.  Without a proxy
    behind the dialer, what it sends is only what the application wrote. *)
Theorem reverse_udp_authentic reflects direct dialer remote ch :
  reach reflects direct dialer remote ch ->
  crashed ch = false /\ (died (cli ch) = true -> raceInPut (cli ch) = true) /\
  (forall m, m ∈ toTargets ch -> carries (wrote ch ++ strays ch ++ (if reflects then replies ch else [])) m) /\
  (forall a b n, Some (a, b, n) ∈ got ch ->
     exists p, b = take n p /\ carries (replies ch ++ (if reflects then wrote ch ++ strays ch else [])) (a, p)) /\
  (direct = true -> strays ch = []).
Proof.
  intros H. pose proof (direct_reach _ _ _ _ _ H) as Hd. destruct (good_reach _ _ _ _ _ H) as [Gw Gt Ga Gg Gi Gs Gd Gr].
  split_and!; [done | done | | | by rewrite <- Hd].
  - intros m Hm. eapply carries_mono; [by apply Gt |]. unfold reachable. cbn. destruct reflects; set_solver.
  - intros a b n Hm. destruct (Gg a b n Hm) as (p & -> & Hp). exists p. split; [done |]. eapply carries_mono; [exact Hp |].
    unfold reachable. cbn. destruct reflects; set_solver.
Qed.
End Channel.

(** ** Runs *)

Fixpoint execs (open : list Z -> list Z -> list Z -> option (list Z)) (seal : list Z -> list Z -> list Z -> list Z)
    (reflects : bool) (l : list Action) (ch : Channel) : option Channel :=
  match l with
  | [] => Some ch
  | a :: l => match exec seal open (fun _ => None) (fun _ => None) (fun _ _ => None) (fun _ => []) demoKey reflects a ch with
              | Some ch => execs open seal reflects l ch | None => None end
  end.

(** A cipher that only adds its tag. *)
Definition demoSeal (_ _ plain : list Z) : list Z := replicate 16 7 ++ plain.
Definition demoOpen (_ _ ct : list Z) : option (list Z) := if bool_decide (take 16 ct = replicate 16 7) then Some (drop 16 ct) else None.
Definition demoNonce : list Z := replicate 24 9.
Definition sealedFrame (a : NetAddr) (p : list Z) : list Z :=
  Seal demoSeal demoKey demoNonce (BuildReverseUDPFrame (fun _ => None) (fun _ => None) a p).
Definition dnsServer : NetAddr := UDPAddr [8; 8; 8; 8] 53.
Definition dialerAt : NetAddr := UDPAddr [10; 0; 0; 2] 5000.
Definition tunnelAt : NetAddr := UDPAddr [10; 0; 0; 1] 4000.
Definition attacker : NetAddr := UDPAddr [6; 6; 6; 6] 666.
Definition runChannel (reflects direct : bool) (l : list Action) : option Channel := execs demoOpen demoSeal reflects l (newChannel direct dialerAt tunnelAt).

Lemma run_reach reflects direct l ch ch' :
  reach demoSeal demoOpen (fun _ => None) (fun _ => None) (fun _ _ => None) (fun _ => []) demoKey reflects direct dialerAt tunnelAt ch ->
  Forall (wfAction (fun _ => None) (fun _ => None)) l -> execs demoOpen demoSeal reflects l ch = Some ch' ->
  reach demoSeal demoOpen (fun _ => None) (fun _ => None) (fun _ _ => None) (fun _ => []) demoKey reflects direct dialerAt tunnelAt ch'.
Proof.
  revert ch. induction l as [| a l IH]; intros ch Hr Hw H; cbn in H; [by injection H as <- |].
  apply Forall_cons in Hw as [Ha Hw]. destruct (exec _ _ _ _ _ _ _ _ a ch) as [ch1|] eqn:E; [| discriminate]. apply (IH ch1); [by eapply reach_step | done | done].
Qed.

(** A query and its answer, read into a buffer of two bytes. *)
Definition demoQuery : list Action :=
  [AWrite [1; 2] dnsServer; AWritePut 0 demoNonce true; ATunnelRead dialerAt (sealedFrame dnsServer [1; 2]);
   ATargetRead (dnsServer, [3; 4; 5]) demoNonce true; AChainRead tunnelAt (sealedFrame dnsServer [3; 4; 5]); AChainPut 1; AChainSend; ARead 2 false].
Definition demoChannel : Channel := default (newChannel true dialerAt tunnelAt) (runChannel false true demoQuery).

Lemma reverse_udp_authentic_witness :
  toTargets demoChannel = [(dnsServer, [1; 2])] /\ got demoChannel = [Some (dnsServer, [3; 4], 2%nat)] /\
  exists p, [3; 4] = take 2 p /\ carries (fun _ => None) (fun _ => None) (fun _ _ => None) [(dnsServer, [3; 4; 5])] (dnsServer, p).
Proof.
  split; [vm_compute; reflexivity |]. split; [vm_compute; reflexivity |].
  destruct (reverse_udp_authentic demoSeal demoOpen (fun _ => None) (fun _ => None) (fun _ _ => None) (fun _ => []) demoKey
    (fun _ _ => eq_refl) (fun _ _ => eq_trans (len_app _ _) (Z.add_comm _ _)) false true dialerAt tunnelAt demoChannel) as (_ & _ & _ & H & _).
  - apply (run_reach false true demoQuery (newChannel true dialerAt tunnelAt)); [constructor | | vm_compute; reflexivity].
    assert (Hip : wfIP [8; 8; 8; 8]) by (split; [repeat constructor; lia | by left]).
    unfold demoQuery, dnsServer. repeat constructor; try (exact Hip || done || lia).
  - apply (H dnsServer [3; 4] 2%nat). vm_compute. left.
Defined.

(** The dialer's address is that of the last packet that opened: a packet of the dialer
    that is replayed from elsewhere turns the replies there. *)
Example replay_diverts_replies : exists ch,
  runChannel false true [AWrite [1; 2] dnsServer; AWritePut 0 demoNonce true; ATunnelRead dialerAt (sealedFrame dnsServer [1; 2]);
    ATunnelRead attacker (sealedFrame dnsServer [1; 2])] = Some ch /\
  currentDialer (srv ch) = attacker /\ toTargets ch = [(dnsServer, [1; 2]); (dnsServer, [1; 2])].
Proof. eexists. split_and!; vm_compute; reflexivity. Qed.

(** The key does not tell the directions apart: a reply sent back to the server goes to the
    target as if the dialer had sent it. *)
Example reflected_reply : exists ch,
  runChannel true true [ATargetRead (dnsServer, [3]) demoNonce true; ATunnelRead attacker (sealedFrame dnsServer [3])] = Some ch /\
  wrote ch = [] /\ toTargets ch = [(dnsServer, [3])].
Proof. eexists. split_and!; vm_compute; reflexivity. Qed.

(** Behind a proxy, whatever reaches the dialer's target socket is sent back to its sender
    by the server. *)
Example stray_packet_bounced : exists ch,
  runChannel false false [AStray (attacker, [5]) demoNonce true; ATunnelRead dialerAt (sealedFrame attacker [5])] = Some ch /\
  wrote ch = [] /\ toTargets ch = [(attacker, [5])].
Proof. eexists. split_and!; vm_compute; reflexivity. Qed.

(** chainReader closes its channel before the connection, and ReadFrom takes the zero value
    of the closed channel for a message: no bytes, no address, no error. *)
Example empty_read_after_close : exists ch,
  runChannel false true [AChainEnd; ARead 1500 false] = Some ch /\ got ch = [None] /\ cClosed (cli ch) = false.
Proof. eexists. split_and!; vm_compute; reflexivity. Qed.

(** A reply arrives while the application writes: both goroutines are in the set of seen
    targets, and the runtime may end the process. *)
Example seen_targets_race : exists ch,
  runChannel false true [ATargetRead (dnsServer, [3]) demoNonce true; AChainRead tunnelAt (sealedFrame dnsServer [3]);
    AWrite [1; 2] dnsServer; ADie] = Some ch /\ died (cli ch) = true.
Proof. eexists. split; vm_compute; reflexivity. Qed.
