(* ===== verification/SourceTables.v ===== *)
(** SourceTables: who a connection through the network stack belongs to: the table of Mode B
    connections (src/mesh/modeb.go) with the dials that fill it (NetDialWithModeB of
    src/mesh/netstack.go, MeshDial and UnregisterModeB of src/dialer/bind.go, the connection
    of src/server/base.go), the table of TUN sources (src/mesh/tunsrc.go), and how an accepted
    flow is attributed (acceptTCP, acceptUDP, resolveOriginalSrc).

    Texts are strings.  The text of an IP address and its parser are arguments; the stack
    gives a dial a source port that no dial in progress has. *)

From Stdlib Require Import ZArith Lia String Ascii.
From stdpp Require Import base gmap list numbers strings sorting.
From S2P Require Import Prelude GoStrings IPPacket.
Open Scope Z_scope.

(** ** Text of keys *)

(** strconv.Itoa of a port. *)
Fixpoint itoaDigits (fuel : nat) (n : Z) (acc : string) : string :=
  let acc := String (digitChar (n mod 10)) acc in
  match fuel with
  | O => acc
  | S fuel => if n <? 10 then acc else itoaDigits fuel (n / 10) acc
  end.
Definition Itoa (n : Z) : string := itoaDigits 4 n EmptyString.
(** net.JoinHostPort *)
Definition hasColon (s : string) : bool := negb (lacks ":" s).
Definition JoinHostPort (host port : string) : string :=
  if hasColon host then ("[" ++ host ++ "]:" ++ port)%string else (host ++ ":" ++ port)%string.
(** string(rune(proto)) of a protocol number below 128. *)
Definition runeText (proto : Z) : string := String (ascii_of_N (Z.to_N proto)) EmptyString.
Definition modeBKey (proto : Z) (dstAddr : string) (srcPort : Z) : string :=
  (runeText proto ++ ":" ++ dstAddr ++ ":" ++ Itoa srcPort)%string.

(** ** Mode B table *)

(** A mapping is kept as its name. *)
Record ModeBEntry := mkEntry { ClientAddr : string; Inbound : string; Mapping : option string; CreatedAt : Time }.
Abbreviation ModeBTable := (gmap string ModeBEntry).

Definition Register (proto : Z) (dstAddr : string) (srcPort : Z) (clientAddr inbound : string) (mapping : option string) (now : Time) (t : ModeBTable) : ModeBTable :=
  if String.eqb dstAddr "" then t else <[modeBKey proto dstAddr srcPort := mkEntry clientAddr inbound mapping now]> t.
Definition Unregister (proto : Z) (dstAddr : string) (srcPort : Z) (t : ModeBTable) : ModeBTable :=
  if String.eqb dstAddr "" then t else delete (modeBKey proto dstAddr srcPort) t.

(** TUN sources: the original source and when it was registered. *)
Abbreviation TUNSrcTable := (gmap string (list Z * Time)).

Section Tables.
Context (IPString : list Z -> string) (ParseIP : string -> option (list Z)).

Definition LookupByDst (proto : Z) (dstIP : list Z) (dstPort srcPort : Z) (t : ModeBTable) : string * string * option string :=
  let dstAddr := JoinHostPort (IPString dstIP) (Itoa dstPort) in
  match t !! modeBKey proto dstAddr srcPort with
  | Some e => (ClientAddr e, Inbound e, Mapping e)
  | None =>
      if srcPort =? 0 then (""%string, ""%string, None)
      else match t !! modeBKey proto dstAddr 0 with
           | Some e => (ClientAddr e, Inbound e, Mapping e)
           | None => (""%string, ""%string, None)
           end
  end.

(** ** TUN sources *)

Definition tunSrcTTL : Duration := 10 * Minute.
Definition tunSrcSweepEvery : Duration := 5 * Minute.
Definition tunSrcKey (proto : Z) (dstIP : list Z) (dstPort srcPort : Z) : string :=
  (runeText proto ++ ":" ++ JoinHostPort (IPString dstIP) (Itoa dstPort) ++ ":" ++ Itoa srcPort)%string.
(** Register: the first source of a flow stays; the second test, under the write lock, is
    the one that counts. *)
Definition tunRegister (proto : Z) (dstIP : list Z) (dstPort srcPort : Z) (origSrc : option (list Z)) (now : Time) (t : TUNSrcTable) : TUNSrcTable :=
  match origSrc with
  | None => t
  | Some ip => let key := tunSrcKey proto dstIP dstPort srcPort in match t !! key with Some _ => t | None => <[key := (ip, now)]> t end
  end.
Definition tunLookup (proto : Z) (dstIP : list Z) (dstPort srcPort : Z) (t : TUNSrcTable) : option (list Z) :=
  fst <$> t !! tunSrcKey proto dstIP dstPort srcPort.
(** A tick of the sweeper. *)
Definition sweep (now : Time) (t : TUNSrcTable) : TUNSrcTable := filter (fun '(_, (_, createdAt)) => now - tunSrcTTL <= createdAt) t.

(** ** Attribution of an accepted flow *)

(** resolveOriginalSrc; the callback is the one that is installed, if any. *)
Definition resolveOriginalSrc (callback : option (Z -> list Z -> list Z -> Z -> Z -> option (list Z))) (t : option TUNSrcTable)
    (proto : Z) (srcIP dstIP : list Z) (dstPort srcPort : Z) : list Z :=
  match callback with
  | Some f => default srcIP (f proto srcIP dstIP dstPort srcPort)
  | None => match t with Some t => default srcIP (tunLookup proto dstIP dstPort srcPort t) | None => srcIP end
  end.

(** What acceptTCP (protocol 6) and acceptUDP (17) tell the connection handler: source
    address, inbound and mapping. *)
Definition acceptFlow (callback : option (Z -> list Z -> list Z -> Z -> Z -> option (list Z))) (tun : option TUNSrcTable) (modeB : option ModeBTable)
    (proto : Z) (srcIP dstIP : list Z) (dstPort srcPort : Z) : string * string * option string :=
  let srcAddr := IPString (resolveOriginalSrc callback tun proto srcIP dstIP dstPort srcPort) in
  match modeB with
  | None => (srcAddr, ""%string, None)
  | Some t =>
      let '(clientAddr, inbound, mapping) := LookupByDst proto dstIP dstPort srcPort t in
      if String.eqb clientAddr "" then (srcAddr, ""%string, None) else (clientAddr, inbound, mapping)
  end.

(** ** Dials *)

Inductive DialState := Connecting | Connected | Refused | TimedOut | Closed.
#[global] Instance DialState_eq_dec : EqDecision DialState.
Proof. solve_decision. Defined.
(** A dial of MeshDialWithModeB: the destination it was asked for, the host it dials, the
    address it connects to, its source port, and what it registered. *)
Record Dial := mkDial { dDst : string; dPort : Z; dHost : string; dIP : list Z; dSrc : Z; dEntry : ModeBEntry; dState : DialState }.
Definition live (d : Dial) : bool := match dState d with Connecting | Connected => true | _ => false end.
Definition setState (s : DialState) (d : Dial) : Dial := mkDial (dDst d) (dPort d) (dHost d) (dIP d) (dSrc d) (dEntry d) s.

Record Stack := mkStack { table : ModeBTable; dials : list Dial }.

(** MeshDial: the host to dial; [dns] is the answer of the stack's resolver. *)
Definition meshTarget (dns : option (list Z)) (dstAddr : string) : option string :=
  match ParseIP dstAddr with Some _ => Some dstAddr | None => IPString <$> dns end.

(** NetDialWithModeB up to the SYN: only IPv4 addresses are dialed. *)
Definition startDial (dns : option (list Z)) (dstAddr : string) (dstPort : Z) (clientAddr inbound : string) (mapping : option string)
    (srcPort : Z) (now : Time) (s : Stack) : option Stack :=
  match meshTarget dns dstAddr with
  | None => None
  | Some host =>
      match ParseIP host ≫= To4 with
      | None => None
      | Some ip4 =>
          Some (mkStack (Register 6 (JoinHostPort host (Itoa dstPort)) srcPort clientAddr inbound mapping now (table s))
                        (dials s ++ [mkDial dstAddr dstPort host ip4 srcPort (mkEntry clientAddr inbound mapping now) Connecting]))
      end
  end.

Inductive Action :=
  | ADial (dns : option (list Z)) (dstAddr : string) (dstPort : Z) (clientAddr inbound : string) (mapping : option string) (srcPort : Z) (now : Time)
  | AConnect (i : nat) | ARefuse (i : nat) | ATimeout (i : nat) | AClose (i : nat).

Definition wfPort (p : Z) : bool := (0 <=? p) && (p <? 65536).
Definition freePort (srcPort : Z) (s : Stack) : bool := forallb (fun d => negb (live d && (dSrc d =? srcPort))) (dials s).

Definition setDial (i : nat) (d : Dial) (t : ModeBTable) (s : Stack) : option Stack := Some (mkStack t (<[i := d]> (dials s))).

(** A dial that cannot be started changes nothing.  The wait for the connection ends by its
    notification or by the timeout, which closes the endpoint and returns.  Close of modeBConn
    unregisters the destination it was asked for, once. *)
Definition exec (a : Action) (s : Stack) : option Stack :=
  match a with
  | ADial dns dstAddr dstPort clientAddr inbound mapping srcPort now =>
      if wfPort dstPort && wfPort srcPort && freePort srcPort s then startDial dns dstAddr dstPort clientAddr inbound mapping srcPort now s else None
  | AConnect i => d ← dials s !! i; match dState d with Connecting => setDial i (setState Connected d) (table s) s | _ => None end
  | ARefuse i =>
      d ← dials s !! i;
      match dState d with
      | Connecting => setDial i (setState Refused d) (Unregister 6 (JoinHostPort (dHost d) (Itoa (dPort d))) (dSrc d) (table s)) s
      | _ => None end
  | ATimeout i => d ← dials s !! i; match dState d with Connecting => setDial i (setState TimedOut d) (table s) s | _ => None end
  | AClose i =>
      d ← dials s !! i;
      match dState d with
      | Connected => setDial i (setState Closed d) (Unregister 6 (JoinHostPort (dDst d) (Itoa (dPort d))) (dSrc d) (table s)) s
      | Closed => Some s
      | _ => None end
  end.

Inductive reach : Stack -> Prop :=
  | reach_new : reach (mkStack ∅ [])
  | reach_step s a s' : reach s -> exec a s = Some s' -> reach s'.

(** ** Keys determine their parts *)

Lemma digitChar_ok d : 0 <= d < 10 -> digitOf (digitChar d) = Some d /\ Ascii.eqb (digitChar d) ":" = false.
Proof.
  intros Hd. assert (d = 0 \/ d = 1 \/ d = 2 \/ d = 3 \/ d = 4 \/ d = 5 \/ d = 6 \/ d = 7 \/ d = 8 \/ d = 9) as H by lia.
  by destruct_or! H; subst.
Qed.

(** The digits are read back, in front of any text. *)
Lemma itoaDigits_ok fuel : forall n acc, 0 <= n < 10 ^ (Z.of_nat fuel + 1) ->
  parseDigits (itoaDigits fuel n acc) 0 = parseDigits acc n /\ lacks ":" (itoaDigits fuel n acc) = lacks ":" acc /\ itoaDigits fuel n acc <> EmptyString.
Proof.
  assert (Hlast : forall n acc v, 0 <= n -> v = n / 10 -> parseDigits (String (digitChar (n mod 10)) acc) v = parseDigits acc n /\
      lacks ":" (String (digitChar (n mod 10)) acc) = lacks ":" acc).
  { intros n acc v Hn ->. destruct (digitChar_ok (n mod 10)) as [Hd Hc]; [apply Z.mod_pos_bound; lia |]. cbn [parseDigits lacks]. rewrite Hd, Hc.
    split; [| done]. f_equal. pose proof (Z.div_mod n 10). lia. }
  induction fuel as [| fuel IH]; intros n acc Hn; cbn [itoaDigits].
  - destruct (Hlast n acc 0) as [Hp Hl]; [lia | rewrite Z.div_small; [done |]; change (10 ^ (Z.of_nat 0 + 1)) with 10 in Hn; lia |]. done.
  - destruct (Z.ltb_spec n 10) as [Hs | Hs].
    + destruct (Hlast n acc 0) as [Hp Hl]; [lia | rewrite Z.div_small; [done | lia] |]. done.
    + destruct (Hlast n acc (n / 10)) as [Hp Hl]; [lia | done |].
      destruct (IH (n / 10) (String (digitChar (n mod 10)) acc)) as (Hp' & Hl' & Hne).
      { split; [apply Z.div_pos; lia |]. apply Z.div_lt_upper_bound; [lia |]. rewrite Nat2Z.inj_succ in Hn. replace (Z.succ (Z.of_nat fuel) + 1) with (Z.succ (Z.of_nat fuel + 1)) in Hn by lia.
        rewrite Z.pow_succ_r in Hn by lia. lia. }
      rewrite Hp', Hl'. done.
Qed.

Lemma Itoa_port n : wfPort n = true -> ParseUint (Itoa n) = Some n /\ lacks ":" (Itoa n) = true.
Proof.
  unfold wfPort. intros Hn. apply andb_true_iff in Hn as [H0 H1]. apply Z.leb_le in H0. apply Z.ltb_lt in H1.
  destruct (itoaDigits_ok 4 n EmptyString) as (Hp & Hl & Hne); [cbn; lia |]. fold (Itoa n) in *. split; [| by rewrite Hl].
  unfold ParseUint. destruct (Itoa n); [done |]. rewrite Hp. cbn [parseDigits]. by rewrite (proj2 (Z.ltb_lt n (2 ^ 64))) by lia.
Qed.

Lemma Itoa_inj m n : wfPort m = true -> wfPort n = true -> Itoa m = Itoa n -> m = n.
Proof. intros Hm Hn E. destruct (Itoa_port m Hm) as [Em _], (Itoa_port n Hn) as [En _]. rewrite E, En in Em. congruence. Qed.

Ltac norm_text := repeat (rewrite append_nil || rewrite append_cons).
Ltac norm_text_in H := repeat (rewrite append_nil in H || rewrite append_cons in H).

(** Texts that end in a colon and a text without one. *)
Lemma last_colon a b x y : lacks ":" x = true -> lacks ":" y = true -> (a ++ ":" ++ x = b ++ ":" ++ y)%string -> a = b /\ x = y.
Proof.
  intros Hx Hy. revert b. induction a as [| c a IH]; intros [| d b] E.
  - norm_text_in E. injection E as ->. done.
  - norm_text_in E. injection E as <- ->. rewrite lacks_app in Hx. apply andb_true_iff in Hx as [_ Hx]. done.
  - norm_text_in E. injection E as -> <-. rewrite lacks_app in Hy. apply andb_true_iff in Hy as [_ Hy]. done.
  - rewrite (append_cons _ a), (append_cons _ b) in E. injection E as <- E. destruct (IH b E) as [-> ->]. done.
Qed.

Lemma modeBKey_inj proto a b p q : wfPort p = true -> wfPort q = true -> modeBKey proto a p = modeBKey proto b q -> a = b /\ p = q.
Proof.
  intros Hp Hq E. destruct (Itoa_port p Hp) as [_ Lp], (Itoa_port q Hq) as [_ Lq]. unfold modeBKey in E. do 2 apply (inj (String.append _)) in E.
  destruct (last_colon _ _ _ _ Lp Lq E) as [-> Ei]. split; [done |]. by apply Itoa_inj.
Qed.

Lemma JoinHostPort_inj a b p q : wfPort p = true -> wfPort q = true -> JoinHostPort a (Itoa p) = JoinHostPort b (Itoa q) -> a = b /\ p = q.
Proof.
  intros Hp Hq E. destruct (Itoa_port p Hp) as [_ Lp], (Itoa_port q Hq) as [_ Lq].
  assert (Hj : forall h n, JoinHostPort h (Itoa n) = ((if hasColon h then "[" ++ h ++ "]" else h) ++ ":" ++ Itoa n)%string).
  { intros h n. unfold JoinHostPort. destruct (hasColon h); [| done]. norm_text. f_equal.
    induction h as [| c h IH]; norm_text; [done |]. by rewrite IH. }
  rewrite !Hj in E. destruct (last_colon _ _ _ _ Lp Lq E) as [Eh Ei]. split; [| by apply Itoa_inj].
  assert (Hc : forall h, hasColon h = true -> hasColon ("[" ++ h ++ "]") = true).
  { intros h Hh. unfold hasColon in *. rewrite append_cons, append_nil. cbn [lacks]. rewrite lacks_app. destruct (lacks ":" h); done. }
  destruct (hasColon a) eqn:Ea, (hasColon b) eqn:Eb.
  - rewrite !append_cons, !append_nil in Eh. injection Eh as Eh. revert b Eh Ea Eb Hj E. clear. intros b Eh _ _ _ _. revert b Eh.
    induction a as [| c a IH]; intros [| d b] Eh; [done | | |].
    + rewrite append_nil, append_cons in Eh. injection Eh as _ Eh. by destruct b.
    + rewrite append_nil, append_cons in Eh. injection Eh as _ Eh. by destruct a.
    + rewrite !append_cons in Eh. injection Eh as -> Eh. f_equal. by apply IH.
  - rewrite <- Eh, Hc in Eb by done. done.
  - rewrite Eh, Hc in Ea by done. done.
  - done.
Qed.

(** ** The invariant *)

Definition keyOf (d : Dial) : string := modeBKey 6 (JoinHostPort (dHost d) (Itoa (dPort d))) (dSrc d).
(** What Close removes. *)
Definition closeKey (d : Dial) : string := modeBKey 6 (JoinHostPort (dDst d) (Itoa (dPort d))) (dSrc d).
(** A dial that is over and left its entry. *)
Definition leaked (d : Dial) : Prop := dState d = TimedOut \/ (dState d = Closed /\ dDst d <> dHost d).

#[local] Instance leaked_dec d : Decision (leaked d).
Proof. unfold leaked. apply _. Defined.
Definition keeps (d : Dial) : bool := live d || bool_decide (leaked d).

(** The table that the dials of a list leave, one after another. *)
Definition leaves (t : ModeBTable) (d : Dial) : ModeBTable := if keeps d then <[keyOf d := dEntry d]> t else delete (keyOf d) t.
Definition rebuild (l : list Dial) : ModeBTable := foldl leaves ∅ l.

(** An entry of it is that of the last dial with its key. *)
Lemma rebuild_lookup l k e : rebuild l !! k = Some e <->
  exists i d, l !! i = Some d /\ keyOf d = k /\ dEntry d = e /\ (live d = true \/ leaked d) /\
    forall j d', (i < j)%nat -> l !! j = Some d' -> keyOf d' <> k.
Proof.
  induction l as [| d0 l IH] using rev_ind.
  - split; [done |]. intros (i & d & H & _). done.
  - unfold rebuild. rewrite foldl_app. cbn [foldl]. fold (rebuild l).
    assert (Hlast : forall j d', (length l < j)%nat -> (l ++ [d0]) !! j = Some d' -> False).
    { intros j d' Hj H. apply lookup_lt_Some in H. rewrite length_app in H. cbn in H. lia. }
    assert (Hd0 : (l ++ [d0]) !! length l = Some d0) by (by rewrite lookup_app_r, Nat.sub_diag by lia).
    destruct (decide (keyOf d0 = k)) as [<- | Hne].
    + transitivity (keeps d0 = true /\ dEntry d0 = e).
      { unfold leaves. destruct (keeps d0); [rewrite lookup_insert_eq | rewrite lookup_delete_eq]; naive_solver. }
      unfold keeps. rewrite orb_true_iff, bool_decide_eq_true. split.
      * intros [Hk He]. exists (length l), d0. split_and!; [done | done | done | done |]. intros j d' Hj H. by destruct (Hlast j d' Hj H).
      * intros (i & d & Hi & Hk & He & Hl & Hafter). assert (i = length l) as ->; [| rewrite Hd0 in Hi; injection Hi as <-; done].
        destruct (decide (i < length l)%nat) as [Hlt | Hge]; [by destruct (Hafter (length l) d0 Hlt Hd0) |].
        destruct (decide (i = length l)) as [| Hn]; [done |]. destruct (Hlast i d); [lia | done].
    + transitivity (rebuild l !! k = Some e).
      { unfold leaves. destruct (keeps d0); [rewrite lookup_insert_ne | rewrite lookup_delete_ne]; done. }
      rewrite IH. split; intros (i & d & Hi & Hk & He & Hl & Hafter); exists i, d.
      * split_and!; [by apply lookup_app_l_Some | done | done | done |]. intros j d' Hj H.
        apply lookup_app_Some in H as [H | [_ H]]; [by eapply Hafter | apply list_lookup_singleton_Some in H as [_ <-]; done].
      * apply lookup_app_Some in Hi as [Hi | [_ Hi]]; [| apply list_lookup_singleton_Some in Hi as [_ <-]; done].
        split_and!; [done | done | done | done |]. intros j d' Hj H. eapply Hafter; [done |]. by apply lookup_app_l_Some.
Qed.

(** The dial at [i] moves on and keeps its entry, or drops it when no later dial has its key. *)
Lemma rebuild_keep l i d st : l !! i = Some d -> keeps d = true -> keeps (setState st d) = true ->
  rebuild (<[i := setState st d]> l) = rebuild l.
Proof.
  intros Hi Hk Hk'. rewrite <- (take_drop_middle l i d) at 2 by done. rewrite insert_take_drop by (by eapply lookup_lt_Some).
  unfold rebuild. rewrite !foldl_app. cbn [foldl]. f_equal. unfold leaves. by rewrite Hk, Hk'.
Qed.

Lemma rebuild_delete post k : (forall d', d' ∈ post -> keyOf d' <> k) -> forall t, foldl leaves (delete k t) post = delete k (foldl leaves t post).
Proof.
  induction post as [| d post IH]; intros Hk t; [done |]. cbn [foldl]. rewrite <- IH by (intros d' Hd; apply Hk; by right). f_equal.
  assert (keyOf d <> k) by (apply Hk; left). unfold leaves. destruct (keeps d); [by rewrite delete_insert_ne | apply delete_delete].
Qed.

Lemma rebuild_drop l i d st : l !! i = Some d -> keeps d = true -> keeps (setState st d) = false ->
  (forall j d', (i < j)%nat -> l !! j = Some d' -> keyOf d' <> keyOf d) ->
  rebuild (<[i := setState st d]> l) = delete (keyOf d) (rebuild l).
Proof.
  intros Hi Hk Hk' Hafter. rewrite <- (take_drop_middle l i d) at 2 by done. rewrite insert_take_drop by (by eapply lookup_lt_Some).
  unfold rebuild. rewrite !foldl_app. cbn [foldl]. rewrite <- rebuild_delete.
  - f_equal. unfold leaves. rewrite Hk, Hk'. change (keyOf (setState st d)) with (keyOf d). by rewrite delete_insert_eq.
  - intros d' Hd. apply list_elem_of_lookup_1 in Hd as (n & Hn). rewrite lookup_drop in Hn. by apply (Hafter (S i + n)%nat); [lia |].
Qed.

Record inv (s : Stack) : Prop := {
  i_live : forall i d, dials s !! i = Some d -> live d = true -> table s !! keyOf d = Some (dEntry d);
  i_origin : forall k e, table s !! k = Some e -> exists i d, dials s !! i = Some d /\ keyOf d = k /\ dEntry d = e /\ (live d = true \/ leaked d);
  i_src : forall i j d d', dials s !! i = Some d -> dials s !! j = Some d' -> live d = true -> live d' = true -> dSrc d = dSrc d' -> i = j;
  i_wf : forall i d, dials s !! i = Some d -> wfPort (dPort d) = true /\ wfPort (dSrc d) = true /\ ParseIP (dHost d) ≫= To4 = Some (dIP d);
  i_dst : forall i d, dials s !! i = Some d -> dDst d = dHost d \/ ParseIP (dDst d) = None;
  i_later : forall i j d d', (i < j)%nat -> dials s !! i = Some d -> dials s !! j = Some d' -> live d = true -> dSrc d' <> dSrc d;
  i_table : table s = rebuild (dials s) }.

Lemma JoinHostPort_ne host port : JoinHostPort host port <> ""%string.
Proof. unfold JoinHostPort. destruct (hasColon host); [rewrite append_cons; done |]. destruct host; [done | rewrite append_cons; done]. Qed.
Lemma Register_key host port src client inbound mapping now t :
  Register 6 (JoinHostPort host port) src client inbound mapping now t = <[modeBKey 6 (JoinHostPort host port) src := mkEntry client inbound mapping now]> t.
Proof. unfold Register. by rewrite (proj2 (String.eqb_neq _ _) (JoinHostPort_ne host port)). Qed.
Lemma Unregister_key host port src t : Unregister 6 (JoinHostPort host port) src t = delete (modeBKey 6 (JoinHostPort host port) src) t.
Proof. unfold Unregister. by rewrite (proj2 (String.eqb_neq _ _) (JoinHostPort_ne host port)). Qed.

(** Keys of ports in use by different dials differ. *)
Lemma keys_ne h h' p p' q q' : wfPort q = true -> wfPort q' = true -> q <> q' -> modeBKey 6 (JoinHostPort h p) q <> modeBKey 6 (JoinHostPort h' p') q'.
Proof. intros H H' Hne E. by apply modeBKey_inj in E as [_ ?]. Qed.

Lemma inv_dial dns dst port client inbound mapping src now s s' : inv s -> wfPort port = true -> wfPort src = true -> freePort src s = true ->
  startDial dns dst port client inbound mapping src now s = Some s' -> inv s'.
Proof.
  intros [Il Io Is Iw Id Ia It] Hp Hs Hf H. unfold startDial in H. destruct (meshTarget dns dst) as [host|] eqn:Emt; [| done].
  destruct (ParseIP host ≫= To4) as [ip4|] eqn:Eip; [| done]. injection H as <-. rewrite Register_key.
  set (d0 := mkDial dst port host ip4 src (mkEntry client inbound mapping now) Connecting).
  assert (Hfree : forall i d, dials s !! i = Some d -> live d = true -> dSrc d <> src).
  { intros i d Hd Hl. unfold freePort in Hf. rewrite forallb_forall in Hf. specialize (Hf d (proj1 (list_elem_of_In _ _) (list_elem_of_lookup_2 _ _ _ Hd))).
    rewrite Hl in Hf. cbn in Hf. apply negb_true_iff, Z.eqb_neq in Hf. done. }
  assert (Hnew : forall i d, (dials s ++ [d0]) !! i = Some d -> dials s !! i = Some d \/ (i = length (dials s) /\ d = d0)).
  { intros i d Hd. apply lookup_app_Some in Hd as [Hd | [Hge Hd]]; [by left | right]. apply list_lookup_singleton_Some in Hd as [? <-]. split; [lia | done]. }
  split; cbn.
  - intros i d Hd Hl. destruct (Hnew i d Hd) as [Ho | [-> ->]]; [| by rewrite lookup_insert_eq]. destruct (Iw i d Ho) as (_ & Hsd & _).
    rewrite lookup_insert_ne; [by eapply Il |]. apply keys_ne; [done | done |]. intros E. by eapply Hfree.
  - intros k e Hk. destruct (decide (k = modeBKey 6 (JoinHostPort host (Itoa port)) src)) as [-> | Hne].
    + rewrite lookup_insert_eq in Hk. injection Hk as <-. exists (length (dials s)), d0. split_and!; [by rewrite lookup_app_r, Nat.sub_diag by lia | done | done | by left].
    + rewrite lookup_insert_ne in Hk by done. destruct (Io k e Hk) as (i & d & Hd & ?). exists i, d. split; [by apply lookup_app_l_Some | done].
  - intros i j d d' Hd Hd' Hl Hl' E. destruct (Hnew i d Hd) as [Ho | [-> ->]], (Hnew j d' Hd') as [Ho' | [-> ->]]; [by eapply Is | | | done].
    + destruct (Hfree i d Ho Hl). done.
    + destruct (Hfree j d' Ho' Hl'). done.
  - intros i d Hd. destruct (Hnew i d Hd) as [Ho | [-> ->]]; [by eapply Iw | done].
  - intros i d Hd. destruct (Hnew i d Hd) as [Ho | [-> ->]]; [by eapply Id |]. cbn. unfold meshTarget in Emt.
    destruct (ParseIP dst); [injection Emt as <-; by left | by right].
  - intros i j d d' Hij Hd Hd' Hl. destruct (Hnew i d Hd) as [Ho | [-> ->]].
    + destruct (Hnew j d' Hd') as [Ho' | [-> ->]]; [by eapply Ia |]. cbn. intros E. by destruct (Hfree i d Ho Hl).
    + apply lookup_lt_Some in Hd'. rewrite length_app in Hd'. cbn in Hd'. lia.
  - unfold rebuild. rewrite foldl_app. cbn [foldl]. fold (rebuild (dials s)). by rewrite It.
Qed.

(** A dial that moves on: [k] is the key that is removed, if any. *)
Lemma stack_inv_move s i d st t : inv s -> dials s !! i = Some d -> live d = true ->
  (t = table s /\ (live (setState st d) = true \/ leaked (setState st d)) \/
   exists h p, t = delete (modeBKey 6 (JoinHostPort h p) (dSrc d)) (table s) /\ live (setState st d) = false /\
     (modeBKey 6 (JoinHostPort h p) (dSrc d) = keyOf d /\ ~ leaked (setState st d) \/
      leaked (setState st d) /\ table s !! modeBKey 6 (JoinHostPort h p) (dSrc d) = None)) ->
  inv (mkStack t (<[i := setState st d]> (dials s))).
Proof.
  intros [Il Io Is Iw Id Ia It] Hi Hl Ht. pose proof (lookup_lt_Some _ _ _ Hi) as Hlt. destruct (Iw i d Hi) as (Hp & Hs & Hip).
  assert (Hcase : forall j x, <[i := setState st d]> (dials s) !! j = Some x -> (j = i /\ x = setState st d) \/ (j <> i /\ dials s !! j = Some x)).
  { intros j x Hx. destruct (decide (j = i)) as [-> | Hne]; [left; rewrite list_lookup_insert_eq in Hx by done; naive_solver | right; by rewrite list_lookup_insert_ne in Hx by done]. }
  split; cbn.
  - intros j x Hx Hlx. destruct (Hcase j x Hx) as [[-> ->] | [Hne Hx']].
    + destruct Ht as [[-> _] | (h & p & -> & Hdead & _)]; [exact (Il i d Hi Hl) | congruence].
    + destruct Ht as [[-> _] | (h & p & -> & _)]; [by eapply Il |]. destruct (Iw j x Hx') as (_ & Hsx & _).
      rewrite lookup_delete_ne; [by eapply Il |]. apply keys_ne; [done | done |]. intros E. apply Hne. by eapply Is.
  - intros k e Hk. assert (Hk' : table s !! k = Some e) by (destruct Ht as [[-> _] | (h & p & -> & _)]; [done | by apply lookup_delete_Some in Hk as [_ ?]]).
    destruct (Io k e Hk') as (j & x & Hx & <- & He & Hor). destruct (decide (j = i)) as [-> | Hne].
    + assert (x = d) as -> by congruence. exists i, (setState st d). split_and!; [by apply list_lookup_insert_eq | done | done |].
      destruct Ht as [[_ ?] | (h & p & -> & _ & [[E _] | [? _]])]; [done | | by right]. rewrite E, lookup_delete_eq in Hk. done.
    + exists j, x. split; [by rewrite list_lookup_insert_ne | done].
  - intros a b x y Hx Hy Hlx Hly E. destruct (Hcase a x Hx) as [[-> ->] | [Ha Hx']], (Hcase b y Hy) as [[-> ->] | [Hb Hy']]; [done | | | by eapply Is].
    + by apply (Is i b d y).
    + by apply (Is a i x d).
  - intros j x Hx. destruct (Hcase j x Hx) as [[-> ->] | [Hne Hx']]; [done | by eapply Iw].
  - intros j x Hx. destruct (Hcase j x Hx) as [[-> ->] | [Hne Hx']]; [exact (Id i d Hi) | by eapply Id].
  - intros a b x y Hab Hx Hy Hlx. destruct (Hcase a x Hx) as [[-> ->] | [Ha Hx']], (Hcase b y Hy) as [[-> ->] | [Hb Hy']]; [lia | | |].
    + exact (Ia i b d y Hab Hi Hy' Hl).
    + exact (Ia a i x d Hab Hx' Hi Hlx).
    + exact (Ia a b x y Hab Hx' Hy' Hlx).
  - assert (Hk : keeps d = true) by (unfold keeps; by rewrite Hl).
    assert (Hkeep : live (setState st d) = true \/ leaked (setState st d) -> rebuild (<[i := setState st d]> (dials s)) = rebuild (dials s)).
    { intros Hor. apply (rebuild_keep _ _ d); [done | done |]. unfold keeps. destruct Hor as [-> | Hk']; [done |].
      rewrite (bool_decide_eq_true_2 _ Hk'). apply orb_true_r. }
    destruct Ht as [[-> Hor] | (h & p & -> & Hdead & [[E Hno] | [Hleak Hnone]])].
    + exact (eq_trans It (eq_sym (Hkeep Hor))).
    + rewrite E, It. symmetry. refine (rebuild_drop (dials s) i d st _ _ _ _); [done | done | unfold keeps; by rewrite Hdead, (bool_decide_eq_false_2 _ Hno) |].
      intros j d' Hij Hd'. destruct (Iw j d' Hd') as (_ & Hs' & _). apply keys_ne; [done | done |]. by eapply Ia.
    + rewrite delete_id by done. exact (eq_trans It (eq_sym (Hkeep (or_intror Hleak)))).
Qed.

(** No entry is under a host that is not an address. *)
Lemma no_domain_key s h p q : inv s -> wfPort p = true -> wfPort q = true -> ParseIP h = None -> table s !! modeBKey 6 (JoinHostPort h (Itoa p)) q = None.
Proof.
  intros [_ Io _ Iw _ _ _] Hp Hq Hh. destruct (table s !! _) as [e|] eqn:Ee; [| done]. destruct (Io _ _ Ee) as (j & x & Hx & E & _).
  destruct (Iw j x Hx) as (Hpx & Hqx & Hipx). apply modeBKey_inj in E as [E _]; [| done | done].
  apply JoinHostPort_inj in E as [E _]; [| done | done]. rewrite E, Hh in Hipx. done.
Qed.

Lemma stack_inv_exec a s s' : inv s -> exec a s = Some s' -> inv s'.
Proof.
  intros I H. pose proof I as [Il Io Is Iw Id Ia It]. destruct a as [dns dst port client inbound mapping src now | i | i | i | i]; cbn in H.
  - destruct (wfPort port && wfPort src && freePort src s) eqn:E; [| done]. apply andb_true_iff in E as [E Hf]. apply andb_true_iff in E as [Hp Hs]. exact (inv_dial _ _ _ _ _ _ _ _ _ _ I Hp Hs Hf H).
  - destruct (dials s !! i) as [d|] eqn:Ed; [| done]. cbn in H. destruct (dState d) eqn:Es; try discriminate H. injection H as <-.
    apply stack_inv_move; [done | done | by unfold live; rewrite Es |]. left. split; [done | by left].
  - destruct (dials s !! i) as [d|] eqn:Ed; [| done]. cbn in H. destruct (dState d) eqn:Es; try discriminate H. injection H as <-.
    apply stack_inv_move; [done | done | by unfold live; rewrite Es |]. right. exists (dHost d), (Itoa (dPort d)). rewrite Unregister_key. split_and!; [done | done | left; split; [done | intros [? | [? _]]; done]].
  - destruct (dials s !! i) as [d|] eqn:Ed; [| done]. cbn in H. destruct (dState d) eqn:Es; try discriminate H. injection H as <-.
    apply stack_inv_move; [done | done | by unfold live; rewrite Es |]. left. split; [done | right; by left].
  - destruct (dials s !! i) as [d|] eqn:Ed; [| done]. cbn in H. destruct (dState d) eqn:Es; try discriminate H; [| by injection H as <-]. injection H as <-.
    apply stack_inv_move; [done | done | by unfold live; rewrite Es |]. right. exists (dDst d), (Itoa (dPort d)). rewrite Unregister_key. split_and!; [done | done |].
    destruct (decide (dDst d = dHost d)) as [E | Hne]; [left; unfold keyOf; rewrite E; split; [done | intros [? | [_ ?]]; done] |].
    right. split; [by right |]. destruct (Iw i d Ed) as (Hp & Hq & _), (Id i d Ed) as [? | Hnone]; [done |]. by apply no_domain_key.
Qed.

Lemma stack_inv_reach s : reach s -> inv s.
Proof. induction 1 as [| s a s' _ I H]; [split; cbn; try done | by eapply stack_inv_exec]. Qed.


(** ** The lifetime of a TUN source *)

Inductive SrcOp := OReg (proto : Z) (dstIP : list Z) (dstPort srcPort : Z) (origSrc : list Z) | OSweep.
Definition srcStep (t : TUNSrcTable) (o : Time * SrcOp) : TUNSrcTable :=
  match snd o with
  | OReg proto dstIP dstPort srcPort ip => tunRegister proto dstIP dstPort srcPort (Some ip) (fst o) t
  | OSweep => sweep (fst o) t
  end.
(** The sources registered for a key, with their times. *)
Definition registered (k : string) (ip : list Z) (c : Time) (h : list (Time * SrcOp)) : Prop :=
  exists proto dstIP dstPort srcPort, (c, OReg proto dstIP dstPort srcPort ip) ∈ h /\ tunSrcKey proto dstIP dstPort srcPort = k.

Lemma src_entries h : forall t0, (forall k ip c, t0 !! k = Some (ip, c) -> False) ->
  forall k ip c, foldl srcStep t0 h !! k = Some (ip, c) -> registered k ip c h /\ (forall now pre post, h = pre ++ (now, OSweep) :: post -> registered k ip c pre -> now - tunSrcTTL <= c \/ registered k ip c post).
Proof.
  intros t0 H0. induction h as [| o h IH] using rev_ind; intros k ip c Hk; [by destruct (H0 k ip c) |].
  rewrite foldl_app in Hk. cbn in Hk. unfold srcStep in Hk at 1. destruct o as [now [proto dstIP dstPort srcPort src | ]]; cbn [fst snd] in Hk.
  - assert (Hsplit : forall x pre post, h ++ [(now, OReg proto dstIP dstPort srcPort src)] = pre ++ (x, OSweep) :: post ->
      exists post', h = pre ++ (x, OSweep) :: post' /\ post = post' ++ [(now, OReg proto dstIP dstPort srcPort src)]).
    { intros x pre post E. destruct post as [| y post _] using rev_ind; [apply app_inj_tail in E as [_ ?]; done |].
      rewrite app_comm_cons, app_assoc in E. apply app_inj_tail in E as [-> <-]. by exists post. }
    unfold tunRegister in Hk. destruct (foldl srcStep t0 h !! tunSrcKey proto dstIP dstPort srcPort) as [e|] eqn:Ee.
    + destruct (IH k ip c Hk) as [(p & a & b & q & Hin & E) Hsw]. split; [exists p, a, b, q; split; [set_solver | done] |].
      intros x pre post Ex Hp. destruct (Hsplit x pre post Ex) as (post' & -> & ->). destruct (Hsw x pre post' eq_refl Hp) as [? | (p' & a' & b' & q' & Hin' & E')]; [by left | right].
      exists p', a', b', q'. split; [set_solver | done].
    + destruct (decide (k = tunSrcKey proto dstIP dstPort srcPort)) as [-> | Hne].
      * rewrite lookup_insert_eq in Hk. injection Hk as <- <-. split; [exists proto, dstIP, dstPort, srcPort; split; [set_solver | done] |].
        intros x pre post Ex Hp. destruct (Hsplit x pre post Ex) as (post' & -> & ->). right. exists proto, dstIP, dstPort, srcPort. split; [set_solver | done].
      * rewrite lookup_insert_ne in Hk by done. destruct (IH k ip c Hk) as [(p & a & b & q & Hin & E) Hsw]. split; [exists p, a, b, q; split; [set_solver | done] |].
        intros x pre post Ex Hp. destruct (Hsplit x pre post Ex) as (post' & -> & ->). destruct (Hsw x pre post' eq_refl Hp) as [? | (p' & a' & b' & q' & Hin' & E')]; [by left | right].
        exists p', a', b', q'. split; [set_solver | done].
  - unfold sweep in Hk. apply map_lookup_filter_Some in Hk as [Hk Hc]. destruct (IH k ip c Hk) as [(p & a & b & q & Hin & E) Hsw].
    split; [exists p, a, b, q; split; [set_solver | done] |]. intros x pre post Ex Hp. destruct post as [| y post _] using rev_ind.
    + apply app_inj_tail in Ex as [_ Ex]. injection Ex as <-. by left.
    + rewrite app_comm_cons, app_assoc in Ex. apply app_inj_tail in Ex as [-> <-]. destruct (Hsw x pre post eq_refl Hp) as [? | (p' & a' & b' & q' & Hin' & E')]; [by left | right].
      exists p', a', b', q'. split; [set_solver | done].
Qed.

(** An entry is never removed before ten minutes have passed since it was registered. *)
Lemma src_kept h : forall (t : TUNSrcTable) k (ip : list Z) (c : Time), t !! k = Some (ip, c) -> (forall now, (now, OSweep) ∈ h -> now - tunSrcTTL <= c) -> foldl srcStep t h !! k = Some (ip, c).
Proof.
  induction h as [| [now o] h IH]; intros t k ip c Hk Hs; [done |]. cbn. apply IH; [| intros x Hx; apply Hs; set_solver].
  destruct o as [proto dstIP dstPort srcPort src |].
  - change (tunRegister proto dstIP dstPort srcPort (Some src) now t !! k = Some (ip, c)). unfold tunRegister.
    destruct (t !! tunSrcKey proto dstIP dstPort srcPort) eqn:Ee; [done |]. rewrite lookup_insert_ne; [done |]. intros <-. by rewrite Ee in Hk.
  - change (sweep now t !! k = Some (ip, c)). unfold sweep. apply map_lookup_filter_Some_2; [done |]. cbn. apply Hs. set_solver.
Qed.

(** The lifetime of a TUN source, when time does not run backwards: an entry of the table
    was registered, and no sweep since was more than ten minutes later; and a source that
    found no entry is the one a flow is shown with until a sweep ten minutes after it,
    whatever is registered in between. *)
Theorem tunsrc_lifetime h k ip c :
  Sorted (fun a b => fst a <= fst b) h ->
  (foldl srcStep ∅ h !! k = Some (ip, c) -> registered k ip c h /\ forall now, (now, OSweep) ∈ h -> now <= c + tunSrcTTL) /\
  (forall pre post proto dstIP dstPort srcPort srcIP,
     h = pre ++ (c, OReg proto dstIP dstPort srcPort ip) :: post ->
     foldl srcStep ∅ pre !! tunSrcKey proto dstIP dstPort srcPort = None ->
     (forall now, (now, OSweep) ∈ post -> now <= c + tunSrcTTL) ->
     resolveOriginalSrc None (Some (foldl srcStep ∅ h)) proto srcIP dstIP dstPort srcPort = ip).
Proof.
  intros Hs. split.
  - intros Hk. destruct (src_entries h ∅ (fun k ip c H => ltac:(by rewrite lookup_empty in H)) k ip c Hk) as [Hr Hsw]. split; [done |].
    intros now Hin. apply list_elem_of_split in Hin as (pre & post & ->).
    assert (Hpost : registered k ip c post -> now <= c).
    { intros (p & a & b & q & Hin & _). apply Sorted_StronglySorted in Hs; [| intros x y z; lia].
      clear -Hs Hin. induction pre as [| x pre IH]; [| apply StronglySorted_inv in Hs as [Hs _]; auto].
      apply StronglySorted_inv in Hs as [_ Hs]. rewrite Forall_forall in Hs. exact (Hs _ Hin). }
    unfold tunSrcTTL, Minute, Second in *. destruct Hr as (p & a & b & q & Hin & E). apply elem_of_app in Hin as [Hin | Hin].
    + destruct (Hsw now pre post eq_refl) as [? | Hp]; [by exists p, a, b, q | lia |]. specialize (Hpost Hp). lia.
    + assert (registered k ip c post) as Hp by (exists p, a, b, q; split; [apply elem_of_cons in Hin as [? | ?]; done | done]). specialize (Hpost Hp). lia.
  - intros pre post proto dstIP dstPort srcPort srcIP -> Hn Hsw. unfold resolveOriginalSrc, tunLookup. rewrite foldl_app. cbn [foldl].
    rewrite (src_kept post _ (tunSrcKey proto dstIP dstPort srcPort) ip c); [done | |].
    + change (tunRegister proto dstIP dstPort srcPort (Some ip) c (foldl srcStep ∅ pre) !! tunSrcKey proto dstIP dstPort srcPort = Some (ip, c)).
      unfold tunRegister. rewrite Hn. apply lookup_insert_eq.
    + intros now Hin. specialize (Hsw now Hin). lia.
Qed.
End Tables.

(** ** Runs *)

(** Addresses of one digit per byte. *)
Definition demoText (ip : list Z) : string :=
  match ip with
  | [a; b; c; d] => (Itoa a ++ "." ++ Itoa b ++ "." ++ Itoa c ++ "." ++ Itoa d)%string
  | _ => "?"%string
  end.
Definition demoParse (s : string) : option (list Z) :=
  if String.eqb s "10.1.0.9" then Some [10; 1; 0; 9] else if String.eqb s "8.8.8.8" then Some [8; 8; 8; 8]
  else if String.eqb s "::ffff:8.8.8.8" then Some [0; 0; 0; 0; 0; 0; 0; 0; 0; 0; 255; 255; 8; 8; 8; 8] else None.
Fixpoint execs (l : list Action) (s : Stack) : option Stack :=
  match l with [] => Some s | a :: l => match exec demoText demoParse a s with Some s => execs l s | None => None end end.
Lemma stack_execs_reach l s s' : reach demoText demoParse s -> execs l s = Some s' -> reach demoText demoParse s'.
Proof.
  revert s. induction l as [| a l IH]; intros s Hr H; cbn in H; [by injection H as <- |].
  destruct (exec _ _ a s) as [s1|] eqn:E; [| discriminate]. apply (IH s1); [by eapply reach_step | done].
Qed.

(** A SOCKS5 client dials example.com, which is given the fake address 10.1.0.9, and 8.8.8.8. *)
Definition demoDials : list Action :=
  [ADial (Some [10; 1; 0; 9]) "example.com" 443 "192.168.1.5:50000" "SOCKS5:home" (Some "home"%string) 40000 1; AConnect 0;
   ADial None "8.8.8.8" 53 "192.168.1.6:50001" "HTTP:home" None 40001 2].
Definition demoStack : Stack := default (mkStack ∅ []) (execs demoDials (mkStack ∅ [])).


(** An IPv4-mapped address is registered in the text the client gave and looked up in the
    dotted one: the flow is not attributed, and the rules of the mapping do not apply. *)
Example mapped_address_unattributed : exists s,
  execs [ADial None "::ffff:8.8.8.8" 443 "192.168.1.7:50002" "HTTP:home" (Some "home"%string) 40002 3] (mkStack ∅ []) = Some s /\
  size (table s) = 1%nat /\ acceptFlow demoText None None (Some (table s)) 6 [10; 1; 0; 1] [8; 8; 8; 8] 443 40002 = ("10.1.0.1", "", None)%string.
Proof. eexists. split_and!; vm_compute; reflexivity. Qed.

(** The entry of a closed connection to a domain: a later flow of another machine that comes
    through the TUN device with that source port is taken for the old client's, and the
    rules of its mapping are applied. *)
Example stale_attribution : exists s,
  execs (demoDials ++ [AClose 0]) (mkStack ∅ []) = Some s /\ freePort 40000 s = true /\
  acceptFlow demoText None None (Some (table s)) 6 [192; 168; 1; 99] [10; 1; 0; 9] 443 40000 = ("192.168.1.5:50000", "SOCKS5:home", Some "home")%string.
Proof. eexists. split_and!; vm_compute; reflexivity. Qed.

(** So does a dial that timed out. *)
Example timeout_leaves_entry : exists s,
  execs (demoDials ++ [ATimeout 1]) (mkStack ∅ []) = Some s /\ size (table s) = 2%nat /\
  acceptFlow demoText None None (Some (table s)) 6 [192; 168; 1; 99] [8; 8; 8; 8] 53 40001 = ("192.168.1.6:50001", "HTTP:home", None)%string.
Proof. eexists. split_and!; vm_compute; reflexivity. Qed.

(** A source port that another machine uses again within ten minutes is shown with the first
    machine's address: the key has no source, and a registration does not replace. *)
Example reused_port_shows_first : exists t,
  foldl (srcStep demoText) ∅ [(0, OReg 6 [8; 8; 8; 8] 53 40000 [192; 168; 1; 5]); (Minute, OReg 6 [8; 8; 8; 8] 53 40000 [192; 168; 1; 6])] = t /\
  resolveOriginalSrc demoText None (Some t) 6 [10; 1; 0; 1] [8; 8; 8; 8] 53 40000 = [192; 168; 1; 5].
Proof. eexists. split; [reflexivity | vm_compute; reflexivity]. Qed.

Lemma tunsrc_lifetime_witness :
  resolveOriginalSrc demoText None (Some (foldl (srcStep demoText) ∅ [(0, OReg 6 [8; 8; 8; 8] 53 40000 [192; 168; 1; 5]); (5 * Minute, OSweep)]))
    6 [10; 1; 0; 1] [8; 8; 8; 8] 53 40000 = [192; 168; 1; 5].
Proof.
  destruct (tunsrc_lifetime demoText demoParse [(0, OReg 6 [8; 8; 8; 8] 53 40000 [192; 168; 1; 5]); (5 * Minute, OSweep)] "" [192; 168; 1; 5] 0) as [_ H].
  - repeat constructor. cbn. unfold Minute, Second. lia.
  - apply (H [] [(5 * Minute, OSweep)]); [reflexivity | apply lookup_empty |]. intros now Hin. apply list_elem_of_singleton in Hin. injection Hin as ->.
    unfold tunSrcTTL, Minute, Second. lia.
Defined.
