(* ===== verification/TunManager.v ===== *)
(** TunManager: the manager of the TUN device, src/tun/manager.go: StartTUN and StopTUN with
    what they do outside the manager's lock, as interleaved steps with the read loop; what
    the read loop does with a packet; the names it resolves for direct connections; its log.

    Creating devices, routes, DNS settings and DHCP servers is the operating system's: each
    attempt may fail, and what was made is released by the call that the code makes, which
    for DNS settings and routes may fail too, as may the clearing of residues. *)

From Stdlib Require Import ZArith Lia String.
From stdpp Require Import base gmap list numbers.
From S2P Require Import Prelude GoStrings IPPacket SourceTables.
From stdpp Require Import list.
Open Scope Z_scope.

(** ** Life of the device *)

(** A read loop that is alive: about to look at tunCloseCh, about to read the device. *)
Inductive Loop := LCheck | LRead.

(** A call in progress.  StartTUN: before the lock; with device [d] made and the lock released,
    before it starts the loops; before it redirects DNS; before DHCP.  StopTUN: before the
    lock; before its [n]-th effect without the lock. *)
Inductive Call := Start0 | Start1 (d : nat) | Start2 (d : nat) | Start3 (d : nat) | Stop (n : nat).

(** The fields of Manager, with devices numbered as they are made, tunCloseCh (nil, open or
    closed); then what exists in the system: open devices, the devices that routes or kernel
    settings remain of, the dialer's binding, the device DNS is redirected to, running DHCP
    servers; then the goroutines; and a record of the devices whose DNS, and whose routes,
    the system did not give up when the manager asked for it. *)
Record Manager := mkManager {
  tunRunning : bool; device : option nat; routeMgr : option nat; dhcpSrv : option nat; tunCloseCh : option bool;
  openDevs : gset nat; routes : gset nat; bindContext : option nat; systemDNS : option nat; dhcps : gset nat;
  made : nat; loops : list Loop; calls : list Call; crashed : bool; dnsKept : gset nat; routesKept : gset nat }.

Definition NewManager : Manager := mkManager false None None None None ∅ ∅ None None ∅ 0 [] [] false ∅ ∅.

Definition setCalls l m := mkManager (tunRunning m) (device m) (routeMgr m) (dhcpSrv m) (tunCloseCh m) (openDevs m) (routes m) (bindContext m) (systemDNS m) (dhcps m) (made m) (loops m) l (crashed m) (dnsKept m) (routesKept m).
Definition setLoops l m := mkManager (tunRunning m) (device m) (routeMgr m) (dhcpSrv m) (tunCloseCh m) (openDevs m) (routes m) (bindContext m) (systemDNS m) (dhcps m) (made m) l (calls m) (crashed m) (dnsKept m) (routesKept m).
Definition crash m := mkManager (tunRunning m) (device m) (routeMgr m) (dhcpSrv m) (tunCloseCh m) (openDevs m) (routes m) (bindContext m) (systemDNS m) (dhcps m) (made m) (loops m) (calls m) true (dnsKept m) (routesKept m).
Definition setBind b m := mkManager (tunRunning m) (device m) (routeMgr m) (dhcpSrv m) (tunCloseCh m) (openDevs m) (routes m) b (systemDNS m) (dhcps m) (made m) (loops m) (calls m) (crashed m) (dnsKept m) (routesKept m).
Definition setDNS x m := mkManager (tunRunning m) (device m) (routeMgr m) (dhcpSrv m) (tunCloseCh m) (openDevs m) (routes m) (bindContext m) x (dhcps m) (made m) (loops m) (calls m) (crashed m) (dnsKept m) (routesKept m).
Definition setDHCP srv ds m := mkManager (tunRunning m) (device m) (routeMgr m) srv (tunCloseCh m) (openDevs m) (routes m) (bindContext m) (systemDNS m) ds (made m) (loops m) (calls m) (crashed m) (dnsKept m) (routesKept m).
Definition setRoutes rm rs m := mkManager (tunRunning m) (device m) rm (dhcpSrv m) (tunCloseCh m) (openDevs m) rs (bindContext m) (systemDNS m) (dhcps m) (made m) (loops m) (calls m) (crashed m) (dnsKept m) (routesKept m).
Definition setDevice dv ds m := mkManager (tunRunning m) dv (routeMgr m) (dhcpSrv m) (tunCloseCh m) ds (routes m) (bindContext m) (systemDNS m) (dhcps m) (made m) (loops m) (calls m) (crashed m) (dnsKept m) (routesKept m).
Definition setRunning b ch m := mkManager b (device m) (routeMgr m) (dhcpSrv m) (Some ch) (openDevs m) (routes m) (bindContext m) (systemDNS m) (dhcps m) (made m) (loops m) (calls m) (crashed m) (dnsKept m) (routesKept m).
Definition setMade n m := mkManager (tunRunning m) (device m) (routeMgr m) (dhcpSrv m) (tunCloseCh m) (openDevs m) (routes m) (bindContext m) (systemDNS m) (dhcps m) n (loops m) (calls m) (crashed m) (dnsKept m) (routesKept m).
Definition setKept dk rk m := mkManager (tunRunning m) (device m) (routeMgr m) (dhcpSrv m) (tunCloseCh m) (openDevs m) (routes m) (bindContext m) (systemDNS m) (dhcps m) (made m) (loops m) (calls m) (crashed m) dk rk.

(** What CleanupResidual clears of earlier devices: whether DNS, and whose routes. *)
Record Residue := mkResidue { rsDNS : bool; rsRoutes : gset nat }.
Definition CleanupResidual (r : Residue) (m : Manager) : Manager :=
  let m := setRoutes (routeMgr m) (routes m ∖ rsRoutes r) m in
  if rsDNS r then setDNS None m else m.

(** How the locked part of StartTUN goes, and what it clears.  Setup that fails removes the
    exclusion routes it added; [remains] is whether anything else it did remains. *)
Inductive Attempt := NoPrivileges | NoDevice (r : Residue) | NoRoutes (r : Residue) (left : bool) | Made (r : Residue).

(** StartTUN under the lock: the state, and the call if it goes on. *)
Definition startLocked (o : Attempt) (m : Manager) : Manager * option Call :=
  if tunRunning m then (m, None)
  else
    let d := made m in
    match o with
    | NoPrivileges => (m, None)
    | NoDevice r => (CleanupResidual r m, None)
    | NoRoutes r remains =>
        let m := CleanupResidual r m in
        let m := if remains then setKept (dnsKept m) ({[d]} ∪ routesKept m) (setRoutes (routeMgr m) ({[d]} ∪ routes m) m) else m in
        (setDevice None (openDevs m) (setRoutes (Some d) (routes m) (setMade (S d) m)), None)
    | Made r =>
        let m := CleanupResidual r m in
        (setRunning true false (setBind (Some d) (setRoutes (Some d) ({[d]} ∪ routes m) (setDevice (Some d) ({[d]} ∪ openDevs m) (setMade (S d) m)))), Some (Start1 d))
    end.

Section Life.
(** Whether the configuration asks for a DHCP server. *)
Context (dhcpEnabled : bool).
(** Whether restoreSystemDNS reverts what setSystemDNS registered.  On Linux with resolvectl
    or nmcli it does not: DNS is registered on the physical interface and reverted on the
    device. *)
Context (revertsDNS : bool).

(** The rest of StartTUN; [ok] is whether DNS is redirected, or the DHCP server starts. *)
Definition startRest (c : Call) (ok : bool) (m : Manager) : Manager * option Call :=
  match c with
  | Start1 d => (setLoops (loops m ++ [LCheck]) m, Some (Start2 d))
  | Start2 d =>
      match routeMgr m with
      | None => (crash m, None)
      | Some _ => (if ok then setDNS (Some d) m else m, Some (Start3 d))
      end
  | Start3 d => (if dhcpEnabled && ok then setDHCP (Some d) ({[d]} ∪ dhcps m) m else m, None)
  | _ => (m, None)
  end.

Definition stopLocked (m : Manager) : Manager * option Call :=
  if tunRunning m then (setRunning false true m, Some (Stop 1)) else (m, None).

(** The effects of StopTUN in order: the dialer's binding, DNS, DHCP, routes, device, and
    the wait for the loops.  Restoring DNS and removing routes may fail, which is logged at
    most. *)
Definition stopRest (n : nat) (ok : bool) (m : Manager) : option (Manager * option Call) :=
  match n with
  | 1%nat => Some (setBind None m, Some (Stop 2))
  | 2%nat =>
      Some (match device m with
            | None => m
            | Some _ =>
                if ok && revertsDNS then setDNS None m
                else setKept (match systemDNS m with Some d => {[d]} ∪ dnsKept m | None => dnsKept m end) (routesKept m) m
            end, Some (Stop 3))
  | 3%nat => Some (match dhcpSrv m with Some d => setDHCP None (dhcps m ∖ {[d]}) m | None => m end, Some (Stop 4))
  | 4%nat =>
      Some (match routeMgr m with
            | None => m
            | Some d => if ok then setRoutes None (routes m ∖ {[d]}) m else setKept (dnsKept m) ({[d]} ∪ routesKept m) (setRoutes None (routes m) m)
            end, Some (Stop 5))
  | 5%nat => Some (match device m with Some d => setDevice None (openDevs m ∖ {[d]}) m | None => m end, Some (Stop 6))
  | 6%nat => match loops m with [] => Some (m, None) | _ :: _ => None end
  | _ => None
  end.

Definition callStep (c : Call) (o : Attempt) (ok : bool) (m : Manager) : option (Manager * option Call) :=
  match c with
  | Start0 => Some (startLocked o m)
  | Stop 0 => Some (stopLocked m)
  | Stop n => stopRest n ok m
  | c => Some (startRest c ok m)
  end.

(** A turn of readLoop.  It looks at the field each time; the read ends with a packet or a
    passing error, or, with [ended], because the session is over.  A nil device panics. *)
Definition loopStep (l : Loop) (ended : bool) (m : Manager) : Manager * option Loop :=
  match l with
  | LCheck => match tunCloseCh m with Some true => (m, None) | _ => (m, Some LRead) end
  | LRead =>
      match device m with
      | None => (crash m, None)
      | Some d =>
          if bool_decide (d ∈ openDevs m) then (m, if ended then None else Some LCheck)
          else match tunCloseCh m with Some true => (m, None) | _ => (m, if ended then None else Some LCheck) end
      end
  end.

Definition putAt {A} (i : nat) (x : option A) (l : list A) : list A := match x with Some x => <[i := x]> l | None => delete i l end.

(** A call begins, a call or a loop moves.  When [serial], calls do not overlap. *)
Inductive Action := ABegin (start : bool) | ACall (i : nat) (o : Attempt) (ok : bool) | ALoop (i : nat) (ended : bool).
Definition exec (serial : bool) (a : Action) (m : Manager) : option Manager :=
  if crashed m then None
  else match a with
  | ABegin start =>
      if serial && negb (bool_decide (calls m = [])) then None else Some (setCalls (calls m ++ [if start then Start0 else Stop 0]) m)
  | ACall i o ok => c ← calls m !! i; '(m', c') ← callStep c o ok m; Some (setCalls (putAt i c' (calls m')) m')
  | ALoop i ended => l ← loops m !! i; let '(m', l') := loopStep l ended m in Some (setLoops (putAt i l' (loops m')) m')
  end.

Inductive reach (serial : bool) : Manager -> Prop :=
  | reach_new : reach serial NewManager
  | reach_step m a m' : reach serial m -> exec serial a m = Some m' -> reach serial m'.

(** ** Calls that do not overlap *)

(** What exists for device [d], by what StopTUN has not released yet. *)
Record holding (m : Manager) (d : nat) (bind dns dhcp route dev : bool) : Prop := {
  h_bind : bindContext m = if bind then Some d else None;
  h_dns : forall x, systemDNS m = Some x -> (dns = true /\ x = d) \/ x ∈ dnsKept m;
  h_dhcp : (dhcpSrv m = None /\ dhcps m = ∅) \/ (dhcp = true /\ dhcpSrv m = Some d /\ dhcps m = {[d]});
  h_route : if route then routeMgr m = Some d /\ d ∈ routes m /\ routes m ⊆ {[d]} ∪ routesKept m else routes m ⊆ routesKept m;
  h_dev : if dev then device m = Some d /\ openDevs m = {[d]} else device m = None /\ openDevs m = ∅ }.

(** The stopped manager, and the running one. *)
Definition stopped (m : Manager) : Prop := tunRunning m = false /\ loops m = [] /\ holding m 0 false false false false false.
Definition up (m : Manager) (d : nat) : Prop := tunRunning m = true /\ tunCloseCh m = Some false /\ holding m d true true true true true.

Definition stage (c : Call) (m : Manager) : Prop :=
  match c with
  | Start0 | Stop 0 => stopped m \/ exists d, up m d
  | Start1 d => tunRunning m = true /\ tunCloseCh m = Some false /\ loops m = [] /\ holding m d true false false true true
  | Start2 d => tunRunning m = true /\ tunCloseCh m = Some false /\ holding m d true false false true true
  | Start3 d => tunRunning m = true /\ tunCloseCh m = Some false /\ holding m d true true false true true
  | Stop n => tunRunning m = false /\ exists d, holding m d (n <=? 1)%nat (n <=? 2)%nat (n <=? 3)%nat (n <=? 4)%nat (n <=? 5)%nat
  end.

Definition inv (m : Manager) : Prop :=
  (length (loops m) <= 1)%nat /\
  match calls m with
  | [] => stopped m \/ exists d, up m d
  | [c] => stage c m
  | _ => False
  end.

Lemma holding_calls m l d a b c e f : holding m d a b c e f -> holding (setCalls l m) d a b c e f.
Proof. intros []. by split. Qed.
Lemma holding_loops m l d a b c e f : holding m d a b c e f -> holding (setLoops l m) d a b c e f.
Proof. intros []. by split. Qed.
Lemma stage_calls c m l : stage c m -> stage c (setCalls l m).
Proof. destruct c as [| d | d | d | [| n]]; cbn; unfold stopped, up; cbn; intros H; naive_solver eauto using holding_calls. Qed.
Lemma idle_calls m l : stopped m \/ (exists d, up m d) -> stopped (setCalls l m) \/ (exists d, up (setCalls l m) d).
Proof. unfold stopped, up. cbn. naive_solver eauto using holding_calls. Qed.

Definition after (r : Manager * option Call) : Prop :=
  crashed (fst r) = true \/
  (length (loops (fst r)) <= 1)%nat /\
  match snd r with None => stopped (fst r) \/ (exists d, up (fst r) d) | Some c => stage c (fst r) end.

(** Clearing residues of a stopped manager. *)
Lemma stopped_clean r m : stopped m -> stopped (CleanupResidual r m).
Proof.
  intros (Hr & Hlo & [Hb Hd Hh Hrt [Hv Ho]]). unfold CleanupResidual.
  destruct (rsDNS r); (split_and!; [done | done | split; cbn in *; try done; set_solver]).
Qed.
Lemma clean_calls r m : calls (CleanupResidual r m) = calls m.
Proof. unfold CleanupResidual. by destruct (rsDNS r). Qed.

Lemma after_startLocked o m : (length (loops m) <= 1)%nat -> stopped m \/ (exists d, up m d) -> after (startLocked o m).
Proof.
  intros Hl Hi. unfold startLocked. destruct (tunRunning m) eqn:Er; [right; split; done |].
  destruct Hi as [Hs | (d & Hr & _)]; [| congruence]. destruct o as [| r | r remains | r]; right; [split; [done | by left] | ..].
  all: pose proof (stopped_clean r m Hs) as Hc; set (m1 := CleanupResidual r m) in *; clearbody m1; destruct Hc as (Hr1 & Hlo & [Hb Hd Hh Hrt [Hv Ho]]).
  - cbn. rewrite Hlo. split; [cbn; lia |]. left. split_and!; done.
  - destruct remains; cbn; rewrite Hlo; (split; [cbn; lia |]); left; (split_and!; [done | done |]); split; cbn in *; try done; set_solver.
  - cbn. rewrite Hlo. split; [cbn; lia |]. split_and!; [done | done | done |]. split; cbn in *.
    + done.
    + intros x Hx. right. by destruct (Hd x Hx) as [[? _] |].
    + destruct Hh as [? | [? _]]; [by left | done].
    + split; [done |]. set_solver.
    + rewrite Ho. split; [done |]. apply union_empty_r_L.
Qed.

Lemma after_startRest c ok m : (length (loops m) <= 1)%nat -> match c with Start0 | Stop _ => False | _ => stage c m end -> after (startRest c ok m).
Proof.
  intros Hl Hs. destruct c as [| d | d | d | n]; try done; cbn in Hs |- *.
  - destruct Hs as (Hr & Hc & Hlo & H). right. cbn. rewrite Hlo. split; [done |]. split_and!; [done | done |]. by apply holding_loops.
  - destruct Hs as (Hr & Hc & H). pose proof H as [Hb Hd Hh [Hrt Hrs] Hv]. rewrite Hrt. right. destruct ok; cbn; (split; [done |]); (split_and!; [done | done |]).
    + split; cbn; try done. intros x [= <-]. by left.
    + split; try done. intros x Hx. right. by destruct (Hd x Hx) as [[? _] |].
  - destruct Hs as (Hr & Hc & H). pose proof H as [Hb Hd Hh Hrt Hv]. right. destruct (dhcpEnabled && ok); cbn; (split; [done |]); right; exists d; (split_and!; [done | done |]).
    + split; cbn; try done. right. destruct Hh as [[_ ->] | [? _]]; [| done]. split_and!; [done | done |]. apply union_empty_r_L.
    + split; try done. destruct Hh as [? | [? _]]; [by left | done].
Qed.

Lemma after_stopLocked m : (length (loops m) <= 1)%nat -> stopped m \/ (exists d, up m d) -> after (stopLocked m).
Proof.
  intros Hl Hi. unfold stopLocked. destruct (tunRunning m) eqn:Er; right; cbn; [| split; done].
  destruct Hi as [(? & _) | (d & _ & _ & H)]; [congruence |]. split; [done |]. split; [done |]. exists d. destruct H. by split.
Qed.

(** The next stage of StopTUN, from what it holds. *)
Lemma after_stop m n d : (length (loops m) <= 1)%nat -> tunRunning m = false ->
  holding m d (S n <=? 1)%nat (S n <=? 2)%nat (S n <=? 3)%nat (S n <=? 4)%nat (S n <=? 5)%nat -> after (m, Some (Stop (S n))).
Proof. intros. right. split; [done |]. split; [done |]. by exists d. Qed.

Lemma after_stopRest n ok m r : (length (loops m) <= 1)%nat -> (0 < n)%nat -> stage (Stop n) m -> stopRest n ok m = Some r -> after r.
Proof.
  intros Hl Hn Hs H. destruct n as [| n]; [lia |]. destruct Hs as (Hr & d & Hh). pose proof Hh as [Hb Hd Hp Hrt Hv].
  destruct n as [| [| [| [| [| [| n]]]]]]; cbn in H, Hb, Hd, Hp, Hrt, Hv; try discriminate H.
  - injection H as <-. apply (after_stop _ 1 d); [done.. |]. by split.
  - destruct Hv as [Hv Ho]. rewrite Hv in H. injection H as <-. destruct (ok && revertsDNS); (apply (after_stop _ 2 d); [done.. |]); split; cbn; try done.
    intros x Hx. right. rewrite Hx. set_solver.
  - injection H as <-. assert (forall x, systemDNS m = Some x -> x ∈ dnsKept m) as Hd' by (intros x Hx; by destruct (Hd x Hx) as [[? _] |]).
    destruct Hp as [[E Hp] | (_ & E & Hp)]; rewrite E; (apply (after_stop _ 3 d); [done.. |]); split; cbn; try done; try (by left); try (by intros x Hx; right; apply Hd').
    left. split; [done |]. rewrite Hp. set_solver.
  - assert (dhcpSrv m = None /\ dhcps m = ∅) as Hp' by (destruct Hp as [? | [? _]]; done).
    destruct Hrt as (Hrt & Hin & Hrs). rewrite Hrt in H. injection H as <-. destruct ok; (apply (after_stop _ 4 d); [done.. |]);
      split; cbn; try done; try (by left); set_solver.
  - assert (dhcpSrv m = None /\ dhcps m = ∅) as Hp' by (destruct Hp as [? | [? _]]; done).
    destruct Hv as [Hv Ho]. rewrite Hv in H. injection H as <-. apply (after_stop _ 5 d); [done.. |].
    split; cbn; try done; try (by left). split; [done |]. rewrite Ho. set_solver.
  - assert (dhcpSrv m = None /\ dhcps m = ∅) as Hp' by (destruct Hp as [? | [? _]]; done).
    destruct (loops m) eqn:Elo; [| discriminate]. injection H as <-. right. cbn. rewrite Elo. split; [cbn; lia |]. left. split_and!; [done | done |].
    split; try done; [| by left]. intros x Hx. right. by destruct (Hd x Hx) as [[? _] |].
Qed.

Lemma after_callStep c o ok m r : (length (loops m) <= 1)%nat -> stage c m -> callStep c o ok m = Some r -> after r.
Proof.
  intros Hl Hs H. destruct c as [| d | d | d | [| n]]; cbn [callStep] in H; try (injection H as <-).
  - by apply after_startLocked.
  - by apply (after_startRest (Start1 d) ok).
  - by apply (after_startRest (Start2 d) ok).
  - by apply (after_startRest (Start3 d) ok).
  - by apply after_stopLocked.
  - eapply (after_stopRest (S n) ok); [done | lia | done | done].
Qed.

(** The calls list is the state of the call alone. *)
Lemma callStep_calls c o ok m m' c' : callStep c o ok m = Some (m', c') -> calls m' = calls m.
Proof.
  destruct c as [| d | d | d | [| [| [| [| [| [| [| n]]]]]]]]; cbn; unfold startLocked, stopLocked; intros H.
  all: try (destruct (tunRunning m)); try destruct o as [| r | r [] | r]; try (destruct (routeMgr m)); try (destruct (dhcpSrv m)); try (destruct (device m)); try (destruct (loops m)); try destruct ok; try destruct dhcpEnabled; try destruct revertsDNS; cbn in H; injection H as <- _ || discriminate H; cbn; rewrite ?clean_calls; done.
Qed.

Lemma stage_loops c m l : (length l <= length (loops m))%nat -> stage c m -> stage c (setLoops l m).
Proof.
  intros Hl. assert (Hnil : loops m = [] -> l = []) by (intros E; rewrite E in Hl; by destruct l as [| ? ?]; [| cbn in Hl; lia]).
  destruct c as [| d | d | d | [| n]]; cbn; unfold stopped, up; cbn; intros H; naive_solver eauto using holding_loops.
Qed.

Lemma tun_inv_exec a m m' : inv m -> exec true a m = Some m' -> crashed m' = true \/ inv m'.
Proof.
  intros [Hl Hi] H. unfold exec in H. destruct (crashed m) eqn:Ec; [discriminate |]. destruct a as [start | i o ok | i ended].
  - destruct (calls m) as [| c l] eqn:Ecs; cbn in H; [| discriminate]. injection H as <-. right. split; [done |]. cbn. destruct start; by apply idle_calls.
  - destruct (calls m !! i) as [c|] eqn:Ei; [| discriminate]. cbn in H. destruct (callStep c o ok m) as [[m1 c1]|] eqn:Es; [| discriminate]. cbn in H. injection H as <-.
    pose proof (callStep_calls _ _ _ _ _ _ Es) as Ecs. destruct (calls m) as [| c0 [| c2 l]] eqn:Em; [done | | done].
    destruct i as [| i]; [cbn in Ei; injection Ei as -> | done]. destruct (after_callStep _ _ _ _ _ Hl Hi Es) as [Hc | [Hl1 Ha]]; [by left | right].
    split; [done |]. cbn in Ha |- *. rewrite Ecs. destruct c1 as [c1|]; cbn; [by apply stage_calls | by apply idle_calls].
  - destruct (loops m !! i) as [l|] eqn:Ei; [| discriminate]. cbn in H. destruct (loopStep l ended m) as [m1 l1] eqn:Es. injection H as <-.
    assert (Hm : crashed m1 = true \/ m1 = m).
    { unfold loopStep in Es. destruct l; [destruct (tunCloseCh m) as [[]|]; injection Es as <- _; by right |].
      destruct (device m); [| injection Es as <- _; by left]. destruct (bool_decide _); [injection Es as <- _; by right |].
      destruct (tunCloseCh m) as [[]|]; injection Es as <- _; by right. }
    destruct Hm as [Hm | ->]; [by left | right]. assert (Hlen : (length (putAt i l1 (loops m)) <= length (loops m))%nat).
    { destruct l1; cbn; [by rewrite length_insert | apply lookup_lt_Some in Ei; rewrite length_delete by (apply lookup_lt_is_Some; done); lia]. }
    split; [cbn; lia |]. cbn. destruct (calls m) as [| c [| c2 l2]]; [| by apply stage_loops | done].
    change (stage Start0 (setLoops (putAt i l1 (loops m)) m)). by apply stage_loops.
Qed.

Lemma tun_inv_reach m : reach true m -> crashed m = true \/ inv m.
Proof.
  induction 1 as [| m a m' _ [Hc | I] H].
  - right. split; [cbn; lia |]. left. split_and!; [done | done |]. split; cbn; naive_solver.
  - unfold exec in H. rewrite Hc in H. done.
  - by eapply tun_inv_exec.
Qed.


Fixpoint execs (serial : bool) (l : list Action) (m : Manager) : option Manager :=
  match l with [] => Some m | a :: l => match exec serial a m with Some m => execs serial l m | None => None end end.
Lemma tun_execs_reach serial l m m' : reach serial m -> execs serial l m = Some m' -> reach serial m'.
Proof.
  revert m. induction l as [| a l IH]; intros m Hr H; cbn in H; [by injection H as <- |].
  destruct (exec serial a m) as [m1|] eqn:E; [| discriminate]. apply (IH m1); [by eapply reach_step | done].
Qed.
End Life.

(** Nothing to clear, and a start that succeeds. *)
Definition noResidue : Residue := mkResidue false ∅.
Definition made1 : Attempt := Made noResidue.

(** StartTUN to its end, and StopTUN. *)
Definition startAll : list Action := [ABegin true; ACall 0 made1 true; ACall 0 made1 true; ACall 0 made1 true; ACall 0 made1 true].
Definition stopAll : list Action :=
  [ABegin false; ACall 0 made1 true; ACall 0 made1 true; ACall 0 made1 true; ACall 0 made1 true; ACall 0 made1 true; ACall 0 made1 true].
Definition demoToggles : list Action := startAll ++ stopAll ++ [ALoop 0 true; ACall 0 made1 true] ++ [ABegin true; ACall 0 (NoRoutes noResidue true) true] ++ startAll.
Definition demoManager : Manager := default NewManager (execs true true true demoToggles NewManager).

(** With DNS registered on the physical interface and reverted on the device, stopping leaves
    DNS where starting put it, though no command failed. *)
Definition stoppedManager (reverts : bool) : Manager :=
  default NewManager (execs false reverts true (startAll ++ stopAll ++ [ALoop 0 false; ACall 0 made1 true]) NewManager).
Example dns_reverted_elsewhere :
  tunRunning (stoppedManager true) = false /\ calls (stoppedManager true) = [] /\ systemDNS (stoppedManager true) = None /\
  tunRunning (stoppedManager false) = false /\ calls (stoppedManager false) = [] /\ systemDNS (stoppedManager false) = Some 0%nat.
Proof. split_and!; vm_compute; reflexivity. Qed.

(** A read loop that looked at tunCloseCh before StopTUN closed it, and reads the device after
    StopTUN has set it to nil, panics; StopTUN waits for the loop only afterwards. *)
Example read_after_stop_panics : exists m,
  execs false true true (startAll ++ [ALoop 0 false] ++ stopAll ++ [ALoop 0 false]) NewManager = Some m /\ crashed m = true.
Proof. eexists. split; vm_compute; reflexivity. Qed.

(** StopTUN while StartTUN is past its lock: StartTUN then reads the interface name of a
    route manager that is gone, and panics. *)
Example stop_during_start_panics : exists m,
  execs false true false ([ABegin true; ACall 0 made1 true; ABegin false] ++ replicate 6 (ACall 1 made1 true) ++ [ACall 0 made1 true; ACall 0 made1 true]) NewManager = Some m /\
  crashed m = true.
Proof. eexists. split; vm_compute; reflexivity. Qed.

(** StartTUN while StopTUN is past its lock: the new device is the one StopTUN releases. The
    manager then says that it runs, with no device, no routes and DNS where it was. *)
Example start_during_stop_loses_device : exists m,
  execs false true false (startAll ++ [ALoop 0 false; ALoop 0 true; ABegin false; ACall 0 made1 true; ABegin true] ++ replicate 4 (ACall 1 made1 true) ++ replicate 5 (ACall 0 made1 true)) NewManager = Some m /\
  crashed m = false /\ tunRunning m = true /\ device m = None /\ routes m = {[0%nat]} /\ openDevs m = {[0%nat]}.
Proof. eexists. split_and!; vm_compute; reflexivity. Qed.

(** ** The read loop and a packet *)

Section Packets.
Context (IPString : list Z -> string).

(** A packet is dropped, answered with an ICMP packet written to the device, or injected into the
    network stack; [None] is a panic. *)
Inductive Fate := Dropped | Answered (icmp : option (list Z)) | Injected (p : list Z).

Definition ipVersion (p : list Z) : Z := Z.shiftr (byte_at p 0) 4.
Definition port_at (p : list Z) (i : Z) : Z := Z.lor (Z.shiftl (byte_at p i) 8) (byte_at p (i + 1)).

(** What readLoop registers of a packet before it is translated: a SYN without ACK, FIN and RST,
    with its ports at 20 and 22, and every UDP packet, with its ports after the header. *)
Definition registerSource (now : Time) (p : list Z) (t : TUNSrcTable) : TUNSrcTable :=
  let n := len p in
  let hl := Z.land (byte_at p 0) 0x0f * 4 in
  let dstIP := sub p 16 20 in let srcIP := sub p 12 16 in
  let t :=
    if (40 <=? n) && (ipVersion p =? 4) && (byte_at p 9 =? 6) then
      let flags := if hl + 14 <=? n then byte_at p (hl + 13) else 0 in
      if negb (Z.land flags 0x02 =? 0) && (Z.land flags 0x10 =? 0) && (Z.land flags 0x01 =? 0) && (Z.land flags 0x04 =? 0)
      then tunRegister IPString 6 dstIP (port_at p 22) (port_at p 20) (Some srcIP) now t else t
    else t in
  if (28 <=? n) && (ipVersion p =? 4) && (byte_at p 9 =? 17) && (hl + 4 <=? n)
  then tunRegister IPString 17 dstIP (port_at p (hl + 2)) (port_at p hl) (Some srcIP) now t else t.

(** One packet of [n] bytes, at least one, with the network stack there or not. *)
Definition readPacket (now : Time) (netstack : bool) (p : list Z) (t : TUNSrcTable) : option (TUNSrcTable * Fate) :=
  if negb ((ipVersion p =? 4) || (ipVersion p =? 6)) then Some (t, Dropped)
  else
    let t := registerSource now p t in
    let inject p := Some (t, if netstack then Injected p else Dropped) in
    if (ipVersion p =? 4) && (20 <=? len p) then
      match DecrementIPTTL p with
      | None => None
      | Some (p, newTTL) => if newTTL =? 0 then Some (t, Answered (GenerateICMPTimeExceeded (Some (sub p 16 20)) p)) else inject p
      end
    else inject p.

(** The read loop never panics on a packet, and treats it by its first byte: what is neither
    IPv4 nor IPv6 is dropped; a full IPv4 packet with two or more hops left goes on with one
    less, a header that verifies and nothing else changed; with one or none left it is
    answered with an ICMP packet, in the name of its destination; all others go on as
    they are. *)
Theorem readPacket_exact now p t :
  Forall is_byte p ->
  exists fate, readPacket now true p t = Some (if (ipVersion p =? 4) || (ipVersion p =? 6) then registerSource now p t else t, fate) /\
  match fate with
  | Dropped => ipVersion p <> 4 /\ ipVersion p <> 6
  | Answered icmp => ipVersion p = 4 /\ 20 <= len p /\ byte_at p 8 <= 1 /\ exists b, icmp = Some b
  | Injected q =>
      (ipVersion p = 4 /\ 20 <= len p /\ 2 <= byte_at p 8 /\ length q = length p /\ byte_at q 8 = byte_at p 8 - 1 /\ verifies false (sub q 0 (headerLenOf q)) /\
       forall i, i <> 8 -> i <> 10 -> i <> 11 -> 0 <= i -> byte_at q i = byte_at p i) \/
      (q = p /\ (ipVersion p = 6 \/ ipVersion p = 4 /\ len p < 20))
  end.
Proof.
  intros Hb. unfold readPacket. destruct (Z.eqb_spec (ipVersion p) 4) as [E4 | N4].
  - cbn [orb negb andb]. destruct (Z.leb_spec 20 (len p)) as [H20 | H20].
    + pose proof (DecrementIPTTL_exact p Hb) as H. unfold ipVersion in E4. rewrite E4 in H. cbn [Z.eqb negb orb] in H.
      destruct (Z.ltb_spec (len p) 9); [lia |]. cbn [orb] in H. change (negb (4 =? 4)) with false in H. cbn [orb] in H.
      destruct (Z.eqb_spec (byte_at p 8) 0) as [E8 | N8].
      * rewrite H. cbn [Z.eqb]. eexists. split; [reflexivity |]. cbn. split_and!; [done | done | lia |]. unfold GenerateICMPTimeExceeded. destruct (Z.ltb_spec (len p) 20); [lia |]. eauto.
      * destruct (Z.ltb_spec (len p) 20); [lia |]. destruct H as (q & -> & Hlen & Hq8 & Hv & Hsame). destruct (Z.eqb_spec (byte_at p 8 - 1) 0) as [E1 | N1].
        -- eexists. split; [reflexivity |]. cbn. split_and!; [done | done | lia |]. unfold GenerateICMPTimeExceeded. assert (len q = len p) as -> by (unfold len; by rewrite Hlen).
           destruct (Z.ltb_spec (len p) 20); [lia |]. eauto.
        -- eexists. split; [reflexivity |]. left. split_and!; try done. assert (0 <= byte_at p 8); [| lia].
           unfold byte_at. destruct (p !! Z.to_nat 8) as [b|] eqn:Eb; [| done]. cbn. exact (proj1 (Forall_lookup_1 _ _ _ _ Hb Eb)).
    + eexists. split; [reflexivity |]. right. split; [done |]. right. done.
  - destruct (Z.eqb_spec (ipVersion p) 6) as [E6 | N6]; cbn [orb negb andb]; eexists; (split; [reflexivity |]); [right; split; [done | by left] | done].
Qed.
End Packets.

(** A SYN whose IP header has options: its ports are read from the options, so the source is
    registered for another flow than the one the stack will accept. *)
Example options_hide_ports : forall now,
  let p := [0x46; 0; 0; 44; 0; 0; 0; 0; 64; 6; 0; 0; 192; 168; 1; 5; 8; 8; 8; 8; 1; 1; 1; 1; 156; 64; 1; 187; 0; 0; 0; 0; 0; 0; 0; 0; 0x50; 2; 0; 0; 0; 0; 0; 0] in
  let t := registerSource demoText now p ∅ in
  tunLookup demoText 6 [8; 8; 8; 8] 443 40000 t = None /\ tunLookup demoText 6 [8; 8; 8; 8] 257 257 t = Some [192; 168; 1; 5].
Proof. intros now. split; reflexivity. Qed.
Lemma readPacket_exact_witness :
  let p := [0x45; 0; 0; 20; 0; 0; 0; 0; 64; 1; 0; 0; 10; 0; 0; 1; 10; 0; 0; 2] in
  Forall is_byte p /\ exists fate, readPacket demoText 0 true p ∅ = Some (registerSource demoText 0 p ∅, fate).
Proof.
  intros p. assert (Hb : Forall is_byte p) by (repeat constructor; lia). split; [exact Hb |].
  destruct (readPacket_exact demoText 0 p ∅ Hb) as (fate & H & _). exists fate. exact H.
Defined.

(** ** Names of direct connections *)

(** What a server answers: addresses, or an error. *)
Abbreviation DnsResult := (result string (list (list Z))).
Inductive ResolveError := ServerError (e : string) | AllFailed | RouteError (e : string) | NoAddresses.

(** resolveWithServers over the answers in the order they arrive, one from each server. *)
Fixpoint firstAnswer (lastErr : option string) (answers : list DnsResult) : result ResolveError (list (list Z)) :=
  match answers with
  | [] => match lastErr with Some e => Err (ServerError e) | None => Err AllFailed end
  | Ok (ip :: ips) :: _ => Ok (ip :: ips)
  | Ok [] :: answers => firstAnswer None answers
  | Err e :: answers => firstAnswer (Some e) answers
  end.
Definition resolveWithServers (answers : list DnsResult) : result ResolveError (list (list Z)) := firstAnswer None answers.

(** ResolveForDirect: the configured servers, or the ones captured before the device was
    made, whose answer is texts. *)
Definition ResolveForDirect (ParseIP : string -> option (list Z)) (servers : nat) (answers : list DnsResult) (routeAware : result string (list string)) :
    result ResolveError (list (list Z)) :=
  match servers with
  | S _ => resolveWithServers answers
  | O =>
      match routeAware with
      | Err e => Err (RouteError e)
      | Ok texts => match omap ParseIP texts with [] => Err NoAddresses | ips => Ok ips end
      end
  end.

(** The first answer with an address wins, whatever failed before it; without one the name
    is not resolved, and the error is that of the last answer, which may be lost when the
    last server answers with no address. *)
Theorem resolveWithServers_exact answers :
  (forall ips, resolveWithServers answers = Ok ips <->
     exists pre post, answers = pre ++ Ok ips :: post /\ ips <> [] /\ Forall (fun r => match r with Ok (_ :: _) => False | _ => True end) pre) /\
  (Forall (fun r => match r with Ok (_ :: _) => False | _ => True end) answers ->
     resolveWithServers answers = Err (match last answers with Some (Err e) => ServerError e | _ => AllFailed end)).
Proof.
  unfold resolveWithServers. split.
  - intros ips. generalize (@None string). induction answers as [| r answers IH]; intros le; cbn.
    + split; [by destruct le | intros ([| x pre] & post & E & _); discriminate E].
    + destruct r as [[| ip l] | e].
      * rewrite IH. split.
        -- intros (pre & post & -> & Hne & Hp). exists (Ok [] :: pre), post. split_and!; [done | done | by constructor].
        -- intros ([| x pre] & post & E & Hne & Hp); injection E as <- ->; [done |]. apply Forall_cons in Hp as [_ Hp]. by exists pre, post.
      * split; [intros [= <-]; exists [], answers; done |]. intros ([| x pre] & post & E & Hne & Hp); [by injection E as <- |]. injection E as <- ->. apply Forall_cons in Hp as [[] _].
      * rewrite IH. split.
        -- intros (pre & post & -> & Hne & Hp). exists (Err e :: pre), post. split_and!; [done | done | by constructor].
        -- intros ([| x pre] & post & E & Hne & Hp); [discriminate E |]. injection E as <- ->. apply Forall_cons in Hp as [_ Hp]. by exists pre, post.
  - intros H. assert (forall le, firstAnswer le answers = Err (match last answers with Some (Err e) => ServerError e | Some (Ok _) => AllFailed | None => match le with Some e => ServerError e | None => AllFailed end end)) as Hg.
    { induction H as [| r answers Hr H IH]; intros le; cbn [firstAnswer]; [by destruct le |]. rewrite last_cons.
      destruct r as [[| ip l] | e]; [| done |]; rewrite IH; by destruct (last answers) as [[]|]. }
    rewrite Hg. by destruct (last answers) as [[]|].
Qed.

(** ** The log *)

Definition maxTUNLogs : nat := 32.
Definition logEvent (logs : list string) (msg : string) : list string :=
  let logs := logs ++ [msg] in
  if (maxTUNLogs <? length logs)%nat then drop (length logs - maxTUNLogs) logs else logs.

(** Logs keeps the last 32 messages. *)
Theorem logs_last msgs : foldl logEvent [] msgs = drop (length msgs - maxTUNLogs) msgs.
Proof.
  induction msgs as [| m msgs IH] using rev_ind; [done |]. rewrite foldl_app, IH. cbn [foldl]. unfold logEvent. rewrite !length_app, length_drop. cbn [length].
  destruct (Nat.ltb_spec maxTUNLogs (length msgs - (length msgs - maxTUNLogs) + 1)) as [H | H].
  - rewrite <- drop_app_le by lia. rewrite drop_drop. f_equal. lia.
  - rewrite <- drop_app_le by lia. f_equal. lia.
Qed.

(** AddMeshRoute calls itself: no depth of calls is enough for it to return. *)
Fixpoint AddMeshRoute (depth : nat) (subnet : string) : option unit :=
  match depth with O => None | S depth => AddMeshRoute depth subnet end.
Lemma AddMeshRoute_never_returns depth subnet : AddMeshRoute depth subnet = None.
Proof. induction depth; [done | exact IHdepth]. Qed.
