(* ===== verification/Watchdog.v ===== *)
(** Watchdog: the process that starts the server and watches it, src/main.go (runWatchdogMode,
    spawnChildProcess, readProtocol, selectWorkerBinary, findLatestPkgAndExtract, watchAndRun)
    with the markers of src/main_engine.go.

    Processes, files, signals and time are the system's: a process may exit, write a line or
    close its output at any moment, a spawn may fail, and the clocks move by any amount. *)

From Stdlib Require Import ZArith Lia String.
From stdpp Require Import base gmap list numbers strings.
From S2P Require Import Prelude GoStrings Packages.
From stdpp Require Import list.
Open Scope Z_scope.

(** ** The choice of a binary *)

(** An entry of data/packages with what VerifyPkg says of it: its metadata and its binary. *)
Record PkgEntry := mkPkgEntry { eName : string; eIsDir : bool; eVerified : option (PkgContents * string) }.

(** The file data/worker/phaethon-<version>, and how writing it ends: a failed write may
    leave a part of the content in the file. *)
Definition workerPath (version : string) : string := ("data/worker/phaethon-" ++ version)%string.
Inductive WriteResult := Wrote | WriteFailed (left : option string).

Section Selection.
(** The platform this program was built for. *)
Context (platform arch : string).

Definition matching (e : PkgEntry) : option PkgContents :=
  if eIsDir e || negb (HasSuffix (eName e) ".pkg") then None
  else match eVerified e with
       | None => None
       | Some (c, _) => if negb (String.eqb (cPlatform c) platform) || negb (String.eqb (cArch c) arch) then None else Some c
       end.

(** The scan: latestVersion and latestPkg. *)
Definition scanPackages (entries : list PkgEntry) : string * option PkgEntry :=
  foldl (fun '(latestVersion, latestPkg) e =>
    match matching e with
    | Some c => if String.eqb latestVersion "" || (0 <? CompareVersions (cVersion c) latestVersion) then (cVersion c, Some e) else (latestVersion, latestPkg)
    | None => (latestVersion, latestPkg)
    end) (""%string, None) entries.

(** [again] says whether the package still verifies when it is read to be extracted. *)
Definition findLatestPkgAndExtract (dir : option (list PkgEntry)) (again : bool) (w : WriteResult) (worker : gmap string string)
    : option string * gmap string string :=
  match dir with
  | None => (None, worker)
  | Some entries =>
      let '(latestVersion, latestPkg) := scanPackages entries in
      match latestPkg with
      | None => (None, worker)
      | Some e =>
          match worker !! latestVersion with
          | Some _ => (Some latestVersion, worker)
          | None =>
              match eVerified e, again with
              | Some (_, binary), true =>
                  match w with
                  | Wrote => (Some latestVersion, <[latestVersion := binary]> worker)
                  | WriteFailed (Some part) => (None, <[latestVersion := part]> worker)
                  | WriteFailed None => (None, worker)
                  end
              | _, _ => (None, worker)
              end
          end
      end
  end.

(** [self] is the version of the watchdog, [executable] its own path when that is known; the
    empty path is no binary. *)
Definition selectWorkerBinary (self : string) (executable : option string) (dir : option (list PkgEntry)) (again : bool) (w : WriteResult)
    (worker : gmap string string) : string * gmap string string :=
  let own := match executable with Some exe => exe | None => ""%string end in
  match findLatestPkgAndExtract dir again w worker with
  | (Some pkgVersion, worker) => (if 0 <? CompareVersions pkgVersion self then workerPath pkgVersion else own, worker)
  | (None, worker) => (own, worker)
  end.
End Selection.

(** ** What a worker writes *)

(** A line of at most 64 KB: whether it begins with a brace, and the fields ready and
    heartbeat when it unmarshals. *)
Record Line := mkLine { lBrace : bool; lJSON : option (option bool * option bool) }.
Inductive Message := MReady | MHeartbeat | MForward.
Definition isTrue (b : option bool) : bool := match b with Some true => true | _ => false end.
Definition readLine (l : Line) : Message :=
  if lBrace l then
    match lJSON l with
    | Some (rdy, hb) => if isTrue rdy then MReady else if isTrue hb then MHeartbeat else MForward
    | None => MForward
    end
  else MForward.

(** ** Processes *)

(** childProcess with the worker behind it: whether the process lives, its ready flag, the
    time of its last heartbeat, whether the reader of its output has ended.  Then the worker's
    side: it waits for signals in watchAndRun; it has received one; the watchdog itself has
    sent it SIGTERM. *)
Record Child := mkChild { binary : string; alive : bool; ready : bool; lastHB : Z; done : bool; serving : bool; told : bool; terminated : bool }.
Definition spawned (exe : string) : Child := mkChild exe true false 0 false false false false.

Definition second : Z := 1000000000.
Definition childReadyTimeout : Z := 120 * second.
Definition childHeartbeatTimeout : Z := 30 * second.
Definition restartCooldown : Z := 10 * second.
Definition retryBackoff : Z := 2 * second.
Definition maxRetries : nat := 5.

(** Where runWatchdogMode is: at its select; in restartChild, waiting for the child it told to
    stop until it kills it, in the cooldown, about to make an attempt with a binary, between
    two attempts, or past the last one; in the wait of the monitor loop after a failed restart;
    returned. *)
Inductive Pc :=
| Monitor
| Killing (wasReady : bool) (deadline : Z) (killed : bool)
| Cooldown (wasReady : bool) (until : Z)
| Attempt (attempt : nat) (newExe : string)
| Backoff (attempt : nat) (until : Z) (reselect : bool)
| GivenUp (until : Z)
| WaitRetry (until : Z)
| Ended.

(** Processes are numbered as they are spawned; [cp] is the watchdog's variable.  [mono] is
    the clock of sleeps and of time.Since, [wall] the one heartbeats are compared with.
    [attempted] lists the paths given to spawn and [asked] whether anyone outside asked the
    service to stop: the code does not keep them. *)
Record Watchdog := mkWatchdog {
  children : list Child; cp : nat; currentBinary : string; lastGoodBinary : string; spawnTime : Z; lastRestart : option Z;
  marker : bool; mono : Z; wall : Z; pc : Pc; attempted : list string; asked : bool }.

Definition setPc p s := mkWatchdog (children s) (cp s) (currentBinary s) (lastGoodBinary s) (spawnTime s) (lastRestart s) (marker s) (mono s) (wall s) p (attempted s) (asked s).
Definition setMarker b s := mkWatchdog (children s) (cp s) (currentBinary s) (lastGoodBinary s) (spawnTime s) (lastRestart s) b (mono s) (wall s) (pc s) (attempted s) (asked s).
Definition setChildren l s := mkWatchdog l (cp s) (currentBinary s) (lastGoodBinary s) (spawnTime s) (lastRestart s) (marker s) (mono s) (wall s) (pc s) (attempted s) (asked s).
Definition setGood g s := mkWatchdog (children s) (cp s) (currentBinary s) g (spawnTime s) (lastRestart s) (marker s) (mono s) (wall s) (pc s) (attempted s) (asked s).
Definition setAsked s := mkWatchdog (children s) (cp s) (currentBinary s) (lastGoodBinary s) (spawnTime s) (lastRestart s) (marker s) (mono s) (wall s) (pc s) (attempted s) true.
Definition setClocks m w s := mkWatchdog (children s) (cp s) (currentBinary s) (lastGoodBinary s) (spawnTime s) (lastRestart s) (marker s) m w (pc s) (attempted s) (asked s).
Definition tryBinary exe s := mkWatchdog (children s) (cp s) (currentBinary s) (lastGoodBinary s) (spawnTime s) (lastRestart s) (marker s) (mono s) (wall s) (pc s) (attempted s ++ [exe]) (asked s).

Definition child (s : Watchdog) (i : nat) : option Child := children s !! i.
Definition isSet (f : Child -> bool) (s : Watchdog) (i : nat) : bool := match child s i with Some c => f c | None => false end.
Definition onChild (i : nat) (f : Child -> Child) (s : Watchdog) : Watchdog := setChildren (alter f i (children s)) s.

(** A signal ends a process that does not wait for it. *)
Definition tell (c : Child) : Child := mkChild (binary c) (alive c && serving c) (ready c) (lastHB c) (done c) (serving c) (told c || alive c && serving c) (terminated c).
Definition terminate (c : Child) : Child := let c := tell c in mkChild (binary c) (alive c) (ready c) (lastHB c) (done c) (serving c) (told c) true.
Definition die (c : Child) : Child := mkChild (binary c) false (ready c) (lastHB c) (done c) (serving c) (told c) (terminated c).
Definition endReader (c : Child) : Child := mkChild (binary c) (alive c) (ready c) (lastHB c) true (serving c) (told c) (terminated c).
Definition serve (c : Child) : Child := mkChild (binary c) (alive c) (ready c) (lastHB c) (done c) true (told c) (terminated c).
Definition hear (now : Z) (m : Message) (c : Child) : Child :=
  match m with
  | MReady => mkChild (binary c) (alive c) true now (done c) (serving c) (told c) (terminated c)
  | MHeartbeat => mkChild (binary c) (alive c) (ready c) now (done c) (serving c) (told c) (terminated c)
  | MForward => c
  end.

(** isRestarting, which restartChild sets and clears. *)
Definition isRestarting (p : Pc) : bool :=
  match p with Killing _ _ _ | Cooldown _ _ | Attempt _ _ | Backoff _ _ _ | GivenUp _ => true | _ => false end.

(** ** The watchdog's own steps *)

Definition updateGood (s : Watchdog) : Watchdog :=
  if isSet ready s (cp s) && negb (String.eqb (lastGoodBinary s) (currentBinary s)) then setGood (currentBinary s) s else s.

Definition cool (wasReady : bool) (s : Watchdog) : Watchdog :=
  let until := match lastRestart s with
               | Some t => if mono s - t <? restartCooldown then t + restartCooldown else mono s
               | None => mono s
               end in
  setPc (Cooldown wasReady until) s.

(** restartChild up to its first wait. *)
Definition beginRestart (alreadyExited wasReady : bool) (s : Watchdog) : Watchdog :=
  if alreadyExited then cool wasReady s
  else setPc (Killing wasReady (mono s + 10 * second) false) (onChild (cp s) terminate s).

(** The child has exited: the watchdog ends if the marker is there. *)
Definition childGone (s : Watchdog) : Watchdog :=
  let wasReady := isSet ready s (cp s) in
  let s := updateGood s in
  if marker s then setPc Ended (setMarker false s) else beginRestart true wasReady s.

(** A tick of the monitor; [exists_] is what processExists says. *)
Definition tick (exists_ : bool) (s : Watchdog) : Watchdog :=
  let s := updateGood s in
  if negb exists_ then childGone s
  else if negb (isSet ready s (cp s)) && (childReadyTimeout <? mono s - spawnTime s) then beginRestart false false s
  else match child s (cp s) with
       | Some c => if ready c && (childHeartbeatTimeout <? wall s - lastHB c) then beginRestart false true s else s
       | None => s
       end.

(** What the system answers to the next step: the result of selectWorkerBinary and of
    os.Executable, and whether a path can be spawned. *)
Record Env := mkEnv { selected : string; executable : option string; spawns : string -> bool }.

Definition started_with (exe : string) (s : Watchdog) : Watchdog :=
  mkWatchdog (children s ++ [spawned exe]) (length (children s)) exe (lastGoodBinary s) (mono s) (Some (mono s))
    (marker s) (mono s) (wall s) Monitor (attempted s) (asked s).

(** The end of a failed attempt. *)
Definition attemptFailed (n : nat) (reselect : bool) (s : Watchdog) : Watchdog :=
  setPc (if (n <? maxRetries)%nat then Backoff n (mono s + retryBackoff * Z.of_nat n) reselect else GivenUp (mono s + 30 * second)) s.

Definition makeAttempt (env : Env) (n : nat) (newExe : string) (s : Watchdog) : Watchdog :=
  let exe := if String.eqb newExe "" then executable env else Some newExe in
  match exe with
  | None => attemptFailed n false s
  | Some exe =>
      let s := tryBinary exe s in
      if spawns env exe then started_with exe s
      else if String.eqb exe (lastGoodBinary s) && negb (String.eqb (lastGoodBinary s) (currentBinary s)) then
        let s := tryBinary (currentBinary s) s in
        if spawns env (currentBinary s) then started_with (currentBinary s) s else attemptFailed n true s
      else attemptFailed n true s
  end.

(** The next step outside the select, or none while it sleeps or waits.  SIGKILL ends the
    process at once. *)
Definition advance (env : Env) (s : Watchdog) : option Watchdog :=
  match pc s with
  | Monitor | Ended => None
  | Killing wasReady deadline killed =>
      if isSet done s (cp s) then Some (cool wasReady s)
      else if negb killed && (deadline <=? mono s) then Some (setPc (Killing wasReady deadline true) (onChild (cp s) die s))
      else None
  | Cooldown wasReady until =>
      if until <=? mono s then
        Some (setPc (Attempt 1 (if negb wasReady && negb (String.eqb (lastGoodBinary s) "") && negb (String.eqb (currentBinary s) (lastGoodBinary s))
                                then lastGoodBinary s else selected env)) s)
      else None
  | Attempt n newExe => Some (makeAttempt env n newExe s)
  | Backoff n until reselect => if until <=? mono s then Some (setPc (Attempt (S n) (if reselect then selected env else ""%string)) s) else None
  | GivenUp until => if until <=? mono s then Some (setPc (WaitRetry (mono s + 30 * second)) s) else None
  | WaitRetry until => if until <=? mono s then Some (setPc Monitor s) else None
  end.

(** ** Everything that happens *)

(** Signals to the watchdog or to a worker; a worker's lines, its clearing of the marker in
    startEngine, its wait for signals, the marker it writes when one came, and its exit; the end of a reader because the process is gone, or because of a line
    above 64 KB or a closed output; time; the two cases of the select; and the steps above. *)
Inductive Action :=
| ASignal
| ATell (i : nat)
| ALine (i : nat) (l : Line)
| AEngine (i : nat)
| AServe (i : nat)
| AStop (i : nat)
| AExit (i : nat)
| AEof (i : nat)
| ALost (i : nat)
| APass (dm dw : Z)
| ADone
| ATick (exists_ : bool)
| AAdvance (env : Env).

(** The goroutine that forwards signals. *)
Definition forwardSignal (s : Watchdog) : Watchdog :=
  let s := setAsked s in
  onChild (cp s) tell (if isRestarting (pc s) then s else setMarker true s).

Definition exec (a : Action) (s : Watchdog) : option Watchdog :=
  match a with
  | ASignal => match pc s with Ended => None | _ => Some (forwardSignal s) end
  | ATell i => Some (setAsked (onChild i tell s))
  | ALine i l => if isSet alive s i && negb (isSet done s i) then Some (onChild i (hear (wall s) (readLine l)) s) else None
  | AEngine i => if isSet alive s i then Some (setMarker false s) else None
  | AServe i => if isSet alive s i then Some (onChild i serve s) else None
  | AStop i => if isSet alive s i && isSet told s i then Some (setMarker true s) else None
  | AExit i => if isSet alive s i then Some (onChild i die s) else None
  | AEof i => if negb (isSet alive s i) then Some (onChild i endReader s) else None
  | ALost i => if isSet alive s i then Some (onChild i endReader s) else None
  | APass dm dw => if 0 <=? dm then Some (setClocks (mono s + dm) (wall s + dw) s) else None
  | ADone => match pc s with Monitor => if isSet done s (cp s) then Some (childGone s) else None | _ => None end
  | ATick e => match pc s with Monitor => if negb e && isSet alive s (cp s) then None else Some (tick e s) | _ => None end
  | AAdvance env => advance env s
  end.

(** Actions that end the reader of a worker that lives. *)
Definition isLost (a : Action) : bool := match a with ALost _ => true | _ => false end.
Definition execs (acts : list Action) (s : Watchdog) : option Watchdog :=
  foldl (fun s a => match s with Some s => exec a s | None => None end) (Some s) acts.

(** runWatchdogMode up to its loop: [good] is the binary read from disk, [left] whether a
    marker lies there when the first worker is spawned: one of an earlier run, or one that
    a worker wrote which killResidualWorkers told to stop.  Nothing removes it. *)
Definition runWatchdogMode (env : Env) (good : string) (left : bool) (m w : Z) : option Watchdog :=
  if String.eqb (selected env) "" then None
  else if spawns env (selected env) then
    Some (mkWatchdog [spawned (selected env)] 0 (selected env) good m None left m w Monitor [selected env] false)
  else None.

(** ** Lemmas on the state *)

Lemma onChild_get i f s j : child (onChild i f s) j = if decide (i = j) then f <$> child s j else child s j.
Proof. unfold child, onChild. cbn. destruct (decide (i = j)) as [-> | H]; [apply list_lookup_alter_eq | by apply list_lookup_alter_ne]. Qed.

Lemma isSet_true f s i : isSet f s i = true <-> exists c, child s i = Some c /\ f c = true.
Proof. unfold isSet. destruct (child s i) as [c |]; [| split; [done | by intros (c & ? & _)]]. split; [eauto | by intros (? & [= <-] & ?)]. Qed.

(** What the kinds of changes to a child keep: its binary, no new life, no lost flag. *)
Definition evolves (c c' : Child) : Prop :=
  binary c' = binary c /\ (alive c' = true -> alive c = true) /\ (ready c = true -> ready c' = true) /\ (done c = true -> done c' = true)
  /\ (terminated c = true -> terminated c' = true).
Lemma tell_evolves c : evolves c (tell c).
Proof. destruct c as [? [] ? ? ? [] ? ?]; by split_and!. Qed.
Lemma terminate_evolves c : evolves c (terminate c).
Proof. destruct c as [? [] ? ? ? [] ? ?]; by split_and!. Qed.
Lemma die_evolves c : evolves c (die c).
Proof. by split_and!. Qed.
Lemma endReader_evolves c : evolves c (endReader c).
Proof. by split_and!. Qed.
Lemma serve_evolves c : evolves c (serve c).
Proof. by split_and!. Qed.
Lemma hear_evolves now m c : evolves c (hear now m c).
Proof. destruct m; by split_and!. Qed.
#[local] Hint Resolve tell_evolves terminate_evolves die_evolves endReader_evolves serve_evolves hear_evolves : core.

(** Past the death of the child that the watchdog watches. *)
Definition afterDeath (p : Pc) : bool := match p with Monitor | Killing _ _ _ => false | _ => true end.

(** How far away the end of a wait may be. *)
Definition timely (now : Z) (p : Pc) : Prop :=
  match p with
  | Killing _ u _ | Cooldown _ u => u <= now + 10 * second
  | Attempt n _ => (1 <= n <= maxRetries)%nat
  | Backoff n u _ => (1 <= n < maxRetries)%nat /\ u <= now + 8 * second
  | GivenUp u | WaitRetry u => u <= now + 30 * second
  | Monitor | Ended => True
  end.

(** Somebody asked the service to stop, or the watchdog told a worker to. *)
Definition stopCaused (s : Watchdog) : Prop := asked s = true \/ exists i c, child s i = Some c /\ terminated c = true.

(** [good] is the binary that was read from disk at the start, [old] whether the marker
    found there may still lie. *)
Record dogInv (old : bool) (good : string) (s : Watchdog) : Prop := {
  i_cur : exists c, child s (cp s) = Some c /\ binary c = currentBinary s;
  i_one : forall i c, child s i = Some c -> alive c = true -> i = cp s;
  i_done : forall i c, child s i = Some c -> done c = true -> alive c = false;
  i_dead : afterDeath (pc s) = true -> isSet alive s (cp s) = false;
  i_good : lastGoodBinary s = good \/ exists i c, child s i = Some c /\ ready c = true /\ binary c = lastGoodBinary s;
  i_time : timely (mono s) (pc s) /\ (forall t, lastRestart s = Some t -> t <= mono s);
  i_told : (exists i c, child s i = Some c /\ told c = true) -> stopCaused s;
  i_marker : marker s = true \/ pc s = Ended -> stopCaused s \/ old = true }.

(** Any change of children that follows the rules above keeps the parts about children. *)
Lemma dogInv_child {old} good s i f :
  (forall c, child s i = Some c -> evolves c (f c)) ->
  (forall c, child s i = Some c -> done (f c) = true -> done c = true \/ alive c = false) ->
  (forall c, child s i = Some c -> told (f c) = true -> told c = true \/ asked s = true \/ terminated (f c) = true) ->
  dogInv old good s -> dogInv old good (onChild i f s).
Proof.
  intros Hev Hdone Htold [(c0 & Hc0 & Hb0) Hone Hd Hdead Hg Ht Hto Hm].
  assert (Hget : forall j c, child (onChild i f s) j = Some c -> exists c1, child s j = Some c1 /\ ((i = j /\ c = f c1) \/ (i <> j /\ c = c1))).
  { intros j c. rewrite onChild_get. destruct (decide (i = j)) as [-> |]; [| eauto]. destruct (child s j); [| done]. intros [= <-]. eauto. }
  assert (Hput : forall j c, child s j = Some c -> exists c1, child (onChild i f s) j = Some c1 /\ evolves c c1).
  { intros j c Hc. rewrite onChild_get. destruct (decide (i = j)) as [<- |]; [rewrite Hc; cbn; eauto |]. exists c. split; [done |]. by split_and!. }
  assert (Hcause : stopCaused s -> stopCaused (onChild i f s)).
  { intros [Hx | (j & c & Hc & Hte)]; [by left | right]. destruct (Hput _ _ Hc) as (c1 & ? & _ & _ & _ & _ & Hte'). eauto. }
  split; cbn.
  - destruct (Hput _ _ Hc0) as (c1 & ? & Hb & _). exists c1. by rewrite Hb.
  - intros j c Hc Hal. destruct (Hget _ _ Hc) as (c1 & H1 & [[<- ->] | [_ ->]]); [| eauto]. destruct (Hev _ H1) as (_ & Hl & _). eauto.
  - intros j c Hc Hdn. destruct (Hget _ _ Hc) as (c1 & H1 & [[<- ->] | [_ ->]]); [| eauto]. destruct (Hev _ H1) as (_ & Hl & _).
    apply not_true_is_false. intros Ea. specialize (Hl Ea). destruct (Hdone _ H1 Hdn) as [Hx | Hx]; [specialize (Hd _ _ H1 Hx) |]; congruence.
  - intros Hp. specialize (Hdead Hp). apply not_true_is_false. intros E. apply isSet_true in E as (c & Hc & Hal).
    cbn in Hc. destruct (Hget _ _ Hc) as (c1 & H1 & Hx). rewrite <- not_true_iff_false in Hdead. apply Hdead, isSet_true. exists c1. split; [done |].
    destruct Hx as [[E ->] | [_ ->]]; [| done]. rewrite <- E in H1. destruct (Hev _ H1) as (_ & Hl & _). auto.
  - destruct Hg as [| (j & c & Hc & Hr & Hb)]; [by left | right]. destruct (Hput _ _ Hc) as (c1 & ? & Hb' & _ & Hr' & _). exists j, c1. rewrite Hb'. auto.
  - done.
  - intros (j & c & Hc & Htc). destruct (Hget _ _ Hc) as (c1 & H1 & [[<- ->] | [_ ->]]); [| apply Hcause, Hto; eauto].
    destruct (Htold _ H1 Htc) as [Hx | [Hx | Hx]]; [apply Hcause, Hto; eauto | by left | right; eauto].
  - intros H. destruct (Hm H); [left; auto | by right].
Qed.

(** Changes that leave the children alone. *)
Lemma dogInv_same {old} good s s' :
  children s' = children s -> cp s' = cp s -> currentBinary s' = currentBinary s -> asked s' = asked s ->
  (lastGoodBinary s' = lastGoodBinary s \/ isSet ready s (cp s) = true /\ lastGoodBinary s' = currentBinary s) ->
  (afterDeath (pc s') = true -> isSet alive s (cp s) = false) -> timely (mono s') (pc s') -> lastRestart s' = lastRestart s -> mono s <= mono s' ->
  (marker s' = true \/ pc s' = Ended -> marker s = true \/ pc s = Ended) ->
  dogInv old good s -> dogInv old good s'.
Proof.
  intros Ec Ep Eb Ea Eg Hdead Htime El Hm Hmark [Hcur Hone Hd _ Hg [_ Ht] Hto Hmk].
  split; unfold stopCaused, isSet, child in *; rewrite ?Ec, ?Ep, ?Eb, ?Ea, ?El; [exact Hcur | exact Hone | exact Hd | exact Hdead | | | exact Hto | auto].
  - destruct Eg as [-> | [Hr ->]]; [done |]. right. destruct Hcur as (c & Hc & Hb). rewrite Hc in Hr. eauto.
  - split; [done |]. intros t E. specialize (Ht t E). lia.
Qed.

Lemma updateGood_fields s : children (updateGood s) = children s /\ cp (updateGood s) = cp s /\ currentBinary (updateGood s) = currentBinary s /\
  asked (updateGood s) = asked s /\ pc (updateGood s) = pc s /\ mono (updateGood s) = mono s /\ lastRestart (updateGood s) = lastRestart s /\
  marker (updateGood s) = marker s /\ (lastGoodBinary (updateGood s) = lastGoodBinary s \/ isSet ready s (cp s) = true /\ lastGoodBinary (updateGood s) = currentBinary s).
Proof. unfold updateGood. destruct (isSet ready s (cp s)) eqn:E; cbn [andb]; [| by split_and!; auto]. destruct (negb _); split_and!; cbn; auto. Qed.

Lemma dogInv_updateGood {old} good s : dogInv old good s -> dogInv old good (updateGood s).
Proof.
  intros Hs. destruct (updateGood_fields s) as (Ec & Ep & Eb & Ea & Epc & Em & El & Emk & Eg).
  eapply dogInv_same; eauto; [rewrite Epc; apply (i_dead _ _ _ Hs) | rewrite Epc, Em; apply (i_time _ _ _ Hs) | lia | rewrite Emk, Epc; tauto].
Qed.

(** Only the program counter moves. *)
Lemma dogInv_pc {old} good s p : (afterDeath p = true -> isSet alive s (cp s) = false) -> timely (mono s) p ->
  (p = Ended -> pc s = Ended \/ marker s = true) -> dogInv old good s -> dogInv old good (setPc p s).
Proof. intros H1 H2 H3 Hs. eapply dogInv_same; cbn; eauto; [lia |]. intros [|]; [auto |]. destruct H3; auto. Qed.

Lemma dogInv_cool {old} good s b : isSet alive s (cp s) = false -> dogInv old good s -> dogInv old good (cool b s).
Proof.
  intros Hd Hs. unfold cool. apply dogInv_pc; [done | | done | done]. destruct (i_time _ _ _ Hs) as [_ Ht]. cbn. unfold restartCooldown, second in *.
  destruct (lastRestart s) as [t |] eqn:E; [specialize (Ht t eq_refl) |]; [destruct (Z.ltb_spec (mono s - t) (10 * 1000000000)) |]; lia.
Qed.

Lemma dogInv_kill {old} good s b : dogInv old good s -> dogInv old good (beginRestart false b s).
Proof.
  intros Hs. unfold beginRestart. apply dogInv_pc; [done | cbn; lia | done |]. apply dogInv_child; auto.
Qed.

Lemma dogInv_childGone {old} good s : isSet alive s (cp s) = false -> dogInv old good s -> dogInv old good (childGone s).
Proof.
  intros Hd Hs. unfold childGone. pose proof (dogInv_updateGood _ _ Hs) as Hu. destruct (updateGood_fields s) as (Ec & Ep & _).
  assert (Hd' : isSet alive (updateGood s) (cp (updateGood s)) = false) by (rewrite Ep; unfold isSet, child in *; by rewrite Ec).
  destruct (marker (updateGood s)) eqn:Em; [| by apply dogInv_cool].
  apply (dogInv_same good (updateGood s)); cbn [setPc setMarker]; auto using Z.le_refl. done.
Qed.

Lemma dogInv_tick {old} good s e : (e = false -> isSet alive s (cp s) = false) -> pc s = Monitor -> dogInv old good s -> dogInv old good (tick e s).
Proof.
  intros He Hp Hs. unfold tick. pose proof (dogInv_updateGood _ _ Hs) as Hu. destruct (updateGood_fields s) as (Ec & Ep & _).
  destruct e; cbn [negb]; [| apply dogInv_childGone; [| done]; rewrite Ep; unfold isSet, child in *; rewrite Ec; auto].
  destruct (_ && _); [by apply dogInv_kill |]. destruct (child _ _); [| done]. destruct (_ && _); [by apply dogInv_kill | done].
Qed.

Lemma isSet_app f s exe i : isSet f (started_with exe s) i = if decide (i = length (children s)) then f (spawned exe) else isSet f s i.
Proof.
  unfold isSet, child, started_with. cbn. destruct (decide _) as [-> | H].
  - rewrite lookup_app_r, Nat.sub_diag by done. done.
  - destruct (decide (i < length (children s))%nat); [by rewrite lookup_app_l by done |].
    rewrite lookup_ge_None_2 by (rewrite length_app; cbn; lia). by rewrite lookup_ge_None_2 by lia.
Qed.

Lemma started_child exe s i c : child (started_with exe s) i = Some c <-> child s i = Some c \/ i = length (children s) /\ c = spawned exe.
Proof.
  unfold child, started_with. cbn. rewrite lookup_snoc_Some. split; [intros [[_ H] | [H <-]]; auto |].
  intros [H | [-> ->]]; [left; split; [by eapply lookup_lt_Some | done] | by right].
Qed.

Lemma dogInv_started {old} good s exe : isSet alive s (cp s) = false -> (pc s = Ended -> False) -> dogInv old good s -> dogInv old good (started_with exe s).
Proof.
  intros Hdead Hp [Hcur Hone Hd _ Hg [_ Ht] Hto Hm].
  assert (Hcause : stopCaused s -> stopCaused (started_with exe s)).
  { intros [Hx | (i & c & Hc & Hte)]; [by left | right]. exists i, c. split; [apply started_child; by left | done]. }
  split.
  - exists (spawned exe). split; [apply started_child; by right | done].
  - intros i c Hc Hal. apply started_child in Hc as [Hc | [-> _]]; [| done]. specialize (Hone _ _ Hc Hal) as ->. exfalso.
    rewrite <- not_true_iff_false in Hdead. apply Hdead, isSet_true. eauto.
  - intros i c Hc. apply started_child in Hc as [Hc | [_ ->]]; [eauto | done].
  - done.
  - destruct Hg as [| (i & c & Hc & Hr)]; [by left | right]. exists i, c. split; [apply started_child; by left | done].
  - cbn. split; [done |]. intros t [= <-]. lia.
  - intros (i & c & Hc & Htc). apply started_child in Hc as [Hc | [_ ->]]; [apply Hcause, Hto; eauto | done].
  - intros [H | H]; [| done]. destruct Hm; [by left | left; auto | by right].
Qed.

Lemma dogInv_attemptFailed {old} good s n b : isSet alive s (cp s) = false -> (1 <= n <= maxRetries)%nat -> dogInv old good s -> dogInv old good (attemptFailed n b s).
Proof.
  intros Hd Hn Hs. apply dogInv_pc; [done | | by destruct (n <? maxRetries)%nat | done]. unfold retryBackoff, second, maxRetries in *.
  destruct (Nat.ltb_spec n 5); cbn; unfold maxRetries, second; lia.
Qed.

Lemma dogInv_tryBinary {old} good s exe : dogInv old good s -> dogInv old good (tryBinary exe s).
Proof. intros Hs. pose proof Hs as [_ _ _ Hd _ [Ht _] _ _]. eapply dogInv_same; cbn; eauto; lia. Qed.

Lemma dogInv_makeAttempt {old} good env s n exe : isSet alive s (cp s) = false -> pc s <> Ended -> (1 <= n <= maxRetries)%nat -> dogInv old good s -> dogInv old good (makeAttempt env n exe s).
Proof.
  intros Hd Hp Hn Hs. unfold makeAttempt. destruct (if String.eqb exe "" then _ else _) as [e |]; [| by apply dogInv_attemptFailed].
  pose proof (dogInv_tryBinary good s e Hs) as H1. destruct (spawns env e); [by apply dogInv_started |].
  destruct (_ && _); [| by apply dogInv_attemptFailed].
  pose proof (dogInv_tryBinary good _ (currentBinary s) H1) as H2. cbn [currentBinary tryBinary]. destruct (spawns env _); [by apply dogInv_started | by apply dogInv_attemptFailed].
Qed.

Lemma dogInv_advance {old} good env s s' : advance env s = Some s' -> dogInv old good s -> dogInv old good s'.
Proof.
  intros H Hs. pose proof Hs as [_ _ Hdn Hd _ [Ht _] _ _]. unfold advance in H. destruct (pc s) as [| b u k | b u | n exe | n u r | u | u |] eqn:Ep; cbn in Hd, Ht; try done.
  - destruct (isSet done s (cp s)) eqn:Ed.
    + simplify_eq. apply dogInv_cool; [| done]. apply isSet_true in Ed as (c & Hc & E). unfold isSet. rewrite Hc. eauto.
    + destruct (_ && _); [| done]. simplify_eq. apply dogInv_pc; cbn; [done | done | done |]. apply dogInv_child; auto.
  - destruct (Z.leb_spec u (mono s)); [| done]. simplify_eq. apply dogInv_pc; [auto | cbn; unfold maxRetries; lia | done | done].
  - simplify_eq. apply dogInv_makeAttempt; auto. by rewrite Ep.
  - destruct (Z.leb_spec u (mono s)); [| done]. simplify_eq. apply dogInv_pc; [auto | cbn; unfold maxRetries, second in *; lia | done | done].
  - destruct (Z.leb_spec u (mono s)); [| done]. simplify_eq. apply dogInv_pc; [auto | cbn; unfold maxRetries, second in *; lia | done | done].
  - destruct (Z.leb_spec u (mono s)); [| done]. simplify_eq. apply dogInv_pc; done.
Qed.

Lemma dogInv_asked {old} good s : dogInv old good s -> dogInv old good (setAsked s).
Proof. intros [? ? ? ? ? ? Hto Hm]. split; auto; cbn; intros _; [by left | left; by left]. Qed.
Lemma dogInv_marker {old} good s b : (b = true -> stopCaused s) -> dogInv old good s -> dogInv old good (setMarker b s).
Proof. intros Hb [? ? ? ? ? ? ? Hm]. split; auto. cbn. intros [E | H]; [left; by apply Hb |]. apply Hm. by right. Qed.
(** A worker clears the marker: it is no longer that of the start. *)
Lemma dogInv_clear {old} good s i : isSet alive s i = true -> dogInv old good s -> dogInv false good (setMarker false s).
Proof.
  intros E [? Hone ? Hd ? ? ? ?]. split; auto. cbn. intros [| Hp]; [done |]. exfalso. rewrite Hp in Hd. specialize (Hd eq_refl).
  pose proof E as E'. apply isSet_true in E' as (c & Hc & Hal). rewrite (Hone _ _ Hc Hal) in E. congruence.
Qed.
Lemma dogInv_pass {old} good s dm dw : 0 <= dm -> dogInv old good s -> dogInv old good (setClocks (mono s + dm) dw s).
Proof.
  intros Hm Hs. pose proof Hs as [_ _ _ Hd _ [Ht Hl] _ _]. destruct Hs as [? ? ? ? ? _ Hto Hmk]. split; auto. split; cbn.
  - revert Ht. destruct (pc s); cbn; lia.
  - intros t E. specialize (Hl t E). lia.
Qed.

(** A worker runs startEngine. *)
Definition isEngine (a : Action) : bool := match a with AEngine _ => true | _ => false end.

Lemma dogInv_exec {old} good a s s' : isLost a = false -> exec a s = Some s' -> dogInv old good s -> dogInv (old && negb (isEngine a)) good s'.
Proof.
  intros Hl H Hs. destruct (isEngine a) eqn:Ee.
  { destruct a; try done. cbn [exec] in H. destruct (isSet alive s i) eqn:E; [| done]. simplify_eq. rewrite andb_false_r. by eapply dogInv_clear. }
  rewrite andb_true_r. destruct a as [| i | i l | i | i | i | i | i | i | dm dw | | e | env]; cbn [exec] in H; try done.
  - assert (s' = forwardSignal s) as -> by (by destruct (pc s); simplify_eq). unfold forwardSignal.
    apply dogInv_child; [auto | auto | | destruct (isRestarting _); [| apply dogInv_marker; [intros _; by left |]]; by apply dogInv_asked].
    intros c _ _. right. left. by destruct (isRestarting _).
  - simplify_eq. change (dogInv old good (onChild i tell (setAsked s))).
    apply dogInv_child; [auto | auto | intros c _ _; right; by left |]. by apply dogInv_asked.
  - destruct (_ && _); [| done]. simplify_eq. apply dogInv_child; [auto | | | done]; by intros c _; destruct (readLine l); auto.
  - destruct (isSet alive s i); [| done]. simplify_eq. by apply dogInv_child; auto.
  - destruct (isSet alive s i && isSet told s i) eqn:E; [| done]. simplify_eq. apply andb_true_iff in E as [_ E]. apply isSet_true in E as (c & ? & ?).
    apply dogInv_marker; [intros _; apply (i_told _ _ _ Hs); eauto | done].
  - destruct (isSet alive s i); [| done]. simplify_eq. by apply dogInv_child; auto.
  - destruct (isSet alive s i) eqn:E; [done |]. cbn [negb] in H. simplify_eq. apply dogInv_child; auto. intros c Hc _. right. unfold isSet in E. by rewrite Hc in E.
  - destruct (Z.leb_spec 0 dm); [| done]. simplify_eq. by apply dogInv_pass.
  - destruct (pc s); try done. destruct (isSet done s (cp s)) eqn:E; [| done]. simplify_eq. apply dogInv_childGone; [| done].
    apply isSet_true in E as (c & Hc & E). unfold isSet. rewrite Hc. by apply (i_done _ _ _ Hs _ _ Hc).
  - destruct (pc s) eqn:Ep; try done. destruct (negb e && _) eqn:E; [done |]. simplify_eq. apply dogInv_tick; auto. intros ->. done.
  - by apply (dogInv_advance good env s).
Qed.

Lemma execs_cons a acts s s' : execs (a :: acts) s = Some s' -> exists s1, exec a s = Some s1 /\ execs acts s1 = Some s'.
Proof.
  unfold execs. cbn. destruct (exec a s); [eauto |]. intros H. exfalso. induction acts; cbn in H; [done | auto].
Qed.

(** No worker has run startEngine. *)
Definition uncleared (left : bool) (acts : list Action) : bool := left && forallb (fun a => negb (isEngine a)) acts.

Lemma dogInv_execs {old} good acts : forall s s', forallb (fun a => negb (isLost a)) acts = true -> execs acts s = Some s' -> dogInv old good s ->
  dogInv (uncleared old acts) good s'.
Proof.
  revert old. induction acts as [| a acts IH]; intros old s s' Hl H Hs; [injection H as <-; unfold uncleared; by rewrite andb_true_r |].
  apply execs_cons in H as (s1 & E & H). cbn in Hl. apply andb_true_iff in Hl as [H1 H2].
  assert (Hs1 : dogInv (old && negb (isEngine a)) good s1) by (eapply dogInv_exec; eauto; by apply negb_true_iff).
  specialize (IH _ _ _ H2 H Hs1). unfold uncleared in *. cbn. by rewrite andb_assoc.
Qed.

Lemma dogInv_run env good left m w s : runWatchdogMode env good left m w = Some s -> dogInv left good s.
Proof.
  unfold runWatchdogMode. destruct (String.eqb _ _); [done |]. destruct (spawns _ _); [| done]. intros [= <-]. split; cbn.
  - eauto.
  - intros i c H. apply list_lookup_singleton_Some in H as [-> <-]. done.
  - intros i c H. apply list_lookup_singleton_Some in H as [-> <-]. done.
  - done.
  - by left.
  - done.
  - intros (i & c & H & Ht). apply list_lookup_singleton_Some in H as [-> <-]. done.
  - intros [H | H]; [by right | done].
Qed.

(** ** The watchdog left alone with a dead child *)

(** What it does next when nothing else happens: it sleeps as long as it means to. *)
Definition nextAction (env : Env) (s : Watchdog) : Action :=
  match pc s with
  | Monitor => ADone
  | Cooldown _ u | Backoff _ u _ | GivenUp u | WaitRetry u => if u <=? mono s then AAdvance env else APass (u - mono s) (u - mono s)
  | _ => AAdvance env
  end.
Fixpoint alone (env : Env) (n : nat) (s : Watchdog) : option Watchdog :=
  match n with O => Some s | S n => match exec (nextAction env s) s with Some s => alone env n s | None => None end end.

(** After at most [k] such steps and time [t] a new child is watched. *)
Definition within (env : Env) (k : nat) (t : Z) (s : Watchdog) : Prop :=
  exists n s', (n <= k)%nat /\ alone env n s = Some s' /\ pc s' = Monitor /\ cp s' = length (children s) /\ isSet alive s' (cp s') = true /\ mono s' <= mono s + t.

Section Alone.
Context (env : Env) (Hspawn : forall exe, spawns env exe = true) (own : string) (Hexe : executable env = Some own).

Lemma within_step k t t' T s s1 : exec (nextAction env s) s = Some s1 -> length (children s1) = length (children s) -> mono s1 <= mono s + t ->
  within env k t' s1 -> t + t' <= T -> within env (S k) T s.
Proof.
  intros He Hc Hm (n & s' & Hn & Ha & Hp & Hcp & Hal & Hm') Ht. exists (S n), s'. cbn [alone]. rewrite He. split_and!; [lia | done | done | congruence | done | lia].
Qed.
Lemma within_le k k' t t' s : within env k t s -> (k <= k')%nat -> t <= t' -> within env k' t' s.
Proof. intros (n & s' & Hn & Ha & Hp & Hcp & Hal & Hm') Hk Ht. exists n, s'. split_and!; try done; lia. Qed.

Lemma within_attempt s n exe : pc s = Attempt n exe -> within env 1 0 s.
Proof.
  intros Hp. exists 1%nat. cbn [alone]. unfold nextAction. rewrite Hp. cbn [exec]. unfold advance. rewrite Hp. unfold makeAttempt.
  assert (exists e, (if String.eqb exe "" then executable env else Some exe) = Some e) as [e ->] by (destruct (String.eqb exe ""); eauto).
  rewrite Hspawn. exists (started_with e (tryBinary e s)). split_and!; [lia | done | done | done | | cbn; lia].
  rewrite isSet_app. by rewrite decide_True by done.
Qed.

(** A sleep that ends before an attempt. *)
Lemma within_woken s p u : pc s = p -> (exists b, p = Cooldown b u) \/ (exists n r, p = Backoff n u r) -> u <= mono s -> within env 2 0 s.
Proof.
  intros Hp Hs Hle.
  assert (exists n exe, exec (nextAction env s) s = Some (setPc (Attempt n exe) s)) as (n & exe & He).
  { unfold nextAction. destruct Hs as [[b ->] | (n & r & ->)]; rewrite Hp, (proj2 (Z.leb_le _ _) Hle); cbn [exec]; unfold advance; rewrite Hp, (proj2 (Z.leb_le _ _) Hle); eauto. }
  eapply (within_step 1 0 0); [exact He | done | cbn; lia | by eapply within_attempt | lia].
Qed.

(** A wait until [u]. *)
Lemma within_sleep k t d s u p : (pc s = p) -> ((exists b, p = Cooldown b u) \/ (exists n r, p = Backoff n u r) \/ p = GivenUp u \/ p = WaitRetry u) ->
  0 <= d -> u <= mono s + d ->
  (forall s1, pc s1 = p -> u <= mono s1 -> children s1 = children s -> cp s1 = cp s -> marker s1 = marker s -> lastRestart s1 = lastRestart s -> mono s <= mono s1 ->
     within env k t s1) -> within env (S k) (d + t) s.
Proof.
  intros Hp Hs Hd Hu H. destruct (Z.leb_spec u (mono s)) as [Hle | Hgt].
  - apply (within_le k (S k) t); [apply H; auto; lia | lia | lia].
  - apply (within_step k d t _ s (setClocks (mono s + (u - mono s)) (wall s + (u - mono s)) s)); [| done | cbn; lia | | lia].
    + unfold nextAction. rewrite Hp. apply Z.leb_gt in Hgt. destruct Hs as [[b ->] | [(n & r & ->) | [-> | ->]]]; cbn [exec]; rewrite Hgt;
        cbn [exec]; (rewrite (proj2 (Z.leb_le 0 (u - mono s))) by (apply Z.leb_gt in Hgt; lia)); done.
    + apply H; cbn; auto; lia.
Qed.

Lemma within_cooldown s b u d : pc s = Cooldown b u -> 0 <= d -> u <= mono s + d -> within env 3 d s.
Proof.
  intros Hp Hd Hu. replace d with (d + 0) by lia. eapply within_sleep; eauto 10. intros s1 Hp1 Hle _ _ _ _ _.
  eapply within_woken; eauto 6.
Qed.

Lemma within_monitor s : pc s = Monitor -> isSet done s (cp s) = true -> marker s = false -> (forall t, lastRestart s = Some t -> t <= mono s) ->
  within env 4 (10 * second) s.
Proof.
  intros Hp Hd Hm Ht. destruct (updateGood_fields s) as (Ec & Ep & _ & _ & _ & Em & El & Emk & _).
  eapply (within_step 3 0 (10 * second)).
  - unfold nextAction. rewrite Hp. cbn [exec]. rewrite Hp, Hd. unfold childGone. by rewrite Emk, Hm.
  - cbn. by rewrite Ec.
  - cbn. rewrite Em. lia.
  - eapply within_cooldown; [done | unfold second; lia |]. cbn. rewrite El, Em. unfold restartCooldown, second in *.
    destruct (lastRestart s) as [t |]; [specialize (Ht t eq_refl); destruct (Z.ltb_spec (mono s - t) (10 * 1000000000)) |]; lia.
  - lia.
Qed.

Lemma within_killing s b u k : pc s = Killing b u k -> isSet done s (cp s) = true -> (forall t, lastRestart s = Some t -> t <= mono s) -> within env 4 (10 * second) s.
Proof.
  intros Hp Hd Ht. eapply (within_step 3 0 (10 * second)).
  - unfold nextAction. rewrite Hp. cbn [exec]. unfold advance. by rewrite Hp, Hd.
  - done.
  - cbn. lia.
  - eapply within_cooldown; [done | unfold second; lia |]. cbn. unfold restartCooldown, second in *.
    destruct (lastRestart s) as [t |]; [specialize (Ht t eq_refl); destruct (Z.ltb_spec (mono s - t) (10 * 1000000000)) |]; lia.
  - lia.
Qed.

Lemma within_waitRetry s u : pc s = WaitRetry u -> u <= mono s + 30 * second -> isSet done s (cp s) = true -> marker s = false -> (forall t, lastRestart s = Some t -> t <= mono s) ->
  within env 6 (40 * second) s.
Proof.
  intros Hp Hu Hd Hm Ht. replace (40 * second) with (30 * second + 10 * second) by (unfold second; lia). eapply within_sleep; eauto 10; [unfold second; lia |].
  intros s1 Hp1 Hle Ec Ecp Em El Hmono. eapply (within_step 4 0 (10 * second)).
  - unfold nextAction. rewrite Hp1, (proj2 (Z.leb_le _ _) Hle). cbn [exec]. unfold advance. by rewrite Hp1, (proj2 (Z.leb_le _ _) Hle).
  - done.
  - cbn. lia.
  - apply within_monitor; [done | | cbn; congruence | cbn; intros t E; rewrite El in E; specialize (Ht t E); lia]. cbn. unfold isSet, child in *. cbn. by rewrite Ec, Ecp.
  - lia.
Qed.

Lemma within_givenUp s u : pc s = GivenUp u -> u <= mono s + 30 * second -> isSet done s (cp s) = true -> marker s = false -> (forall t, lastRestart s = Some t -> t <= mono s) ->
  within env 8 (70 * second) s.
Proof.
  intros Hp Hu Hd Hm Ht. replace (70 * second) with (30 * second + 40 * second) by (unfold second; lia). eapply within_sleep; eauto 10; [unfold second; lia |].
  intros s1 Hp1 Hle Ec Ecp Em El Hmono. eapply (within_step 6 0 (40 * second)).
  - unfold nextAction. rewrite Hp1, (proj2 (Z.leb_le _ _) Hle). cbn [exec]. unfold advance. by rewrite Hp1, (proj2 (Z.leb_le _ _) Hle).
  - done.
  - cbn. lia.
  - eapply within_waitRetry; [done | cbn; lia | | cbn; congruence | cbn; intros t E; rewrite El in E; specialize (Ht t E); lia]. cbn. unfold isSet, child in *. cbn. by rewrite Ec, Ecp.
  - lia.
Qed.

Lemma within_backoff s n u r : pc s = Backoff n u r -> u <= mono s + 8 * second -> within env 3 (8 * second) s.
Proof.
  intros Hp Hu. replace (8 * second) with (8 * second + 0) by lia. eapply within_sleep; eauto 10; [unfold second; lia |]. intros s1 Hp1 Hle _ _ _ _ _.
  eapply within_woken; eauto 6.
Qed.

(** From anywhere but the end. *)
Lemma within_any {old} good s : dogInv old good s -> isSet done s (cp s) = true -> marker s = false -> pc s <> Ended -> within env 8 (70 * second) s.
Proof.
  intros Hs Hd Hm Hp. destruct (i_time _ _ _ Hs) as [Ht Hl]. assert (0 < second) by done. unfold timely in Ht.
  destruct (pc s) as [| b u k | b u | n exe | n u r | u | u |] eqn:Epc; try done.
  - eapply within_le; [by apply within_monitor | lia | lia].
  - eapply within_le; [by eapply within_killing | lia | lia].
  - eapply within_le; [eapply within_cooldown; [done | | exact Ht]; lia | lia | lia].
  - eapply within_le; [by eapply within_attempt | lia | lia].
  - eapply within_le; [eapply within_backoff; [done | lia] | lia | lia].
  - by eapply within_givenUp.
  - eapply within_le; [by eapply within_waitRetry | lia | lia].
Qed.
End Alone.

(** ** A binary that cannot be spawned *)

(** No worker lives, the last one was ready, and the restarts that follow find only [bad]. *)
Record stuck (bad : string) (s : Watchdog) : Prop := {
  k_dead : forall i, isSet alive s i = false;
  k_marker : marker s = false;
  k_ready : isSet ready s (cp s) = true;
  k_pc : match pc s with
         | Monitor => True
         | Killing b _ _ | Cooldown b _ => b = true /\ lastGoodBinary s = currentBinary s
         | Attempt _ e => e = bad /\ lastGoodBinary s = currentBinary s
         | Backoff _ _ r => r = true /\ lastGoodBinary s = currentBinary s
         | GivenUp _ | WaitRetry _ => lastGoodBinary s = currentBinary s
         | Ended => False
         end }.

Definition onlyFinds (bad : string) (a : Action) : Prop :=
  match a with ASignal => False | AAdvance env => selected env = bad /\ spawns env bad = false | _ => True end.

(** What an action of such a run does: it may give [bad] to spawn. *)
Definition triesOnly (bad : string) (s s' : Watchdog) : Prop :=
  length (children s') = length (children s) /\ exists k, attempted s' = (attempted s ++ repeat bad k)%list.
Lemma triesOnly_same bad s s' : children s' = children s -> attempted s' = attempted s -> triesOnly bad s s'.
Proof. intros E1 E2. split; [by rewrite E1 |]. exists 0%nat. by rewrite E2, app_nil_r. Qed.

Lemma stuck_child bad s i f : (forall c, evolves c (f c)) -> stuck bad s -> stuck bad (onChild i f s) /\ triesOnly bad s (onChild i f s).
Proof.
  intros Hf [Hd Hm Hr Hp]. repeat split; cbn; auto; [| | by rewrite length_alter | exists 0%nat; by rewrite app_nil_r].
  - intros j. specialize (Hd j). unfold isSet in *. rewrite onChild_get. destruct (decide _), (child s j) as [c |]; auto. cbn.
    destruct (Hf c) as (_ & Ha & _). apply not_true_is_false. intros E. rewrite (Ha E) in Hd. done.
  - unfold isSet in *. rewrite onChild_get. destruct (decide _), (child s (cp s)) as [c |]; auto. cbn. destruct (Hf c) as (_ & _ & Hy & _). auto.
Qed.

Lemma stuck_same bad s s' : children s' = children s -> cp s' = cp s -> marker s' = marker s -> attempted s' = attempted s ->
  match pc s' with
  | Monitor => True
  | Killing b _ _ | Cooldown b _ => b = true /\ lastGoodBinary s' = currentBinary s'
  | Attempt _ e => e = bad /\ lastGoodBinary s' = currentBinary s'
  | Backoff _ _ r => r = true /\ lastGoodBinary s' = currentBinary s'
  | GivenUp _ | WaitRetry _ => lastGoodBinary s' = currentBinary s'
  | Ended => False
  end -> stuck bad s -> stuck bad s' /\ triesOnly bad s s'.
Proof.
  intros Ec Ep Em Ea Hpc [Hd Hm Hr _]. split; [| by apply triesOnly_same].
  split; unfold isSet, child in *; rewrite ?Ec, ?Ep, ?Em; auto.
Qed.

Lemma updateGood_ready s : isSet ready s (cp s) = true -> lastGoodBinary (updateGood s) = currentBinary (updateGood s).
Proof. intros H. unfold updateGood. rewrite H. cbn [andb]. destruct (String.eqb_spec (lastGoodBinary s) (currentBinary s)); done. Qed.

Lemma triesOnly_trans bad s1 s2 s3 : triesOnly bad s1 s2 -> triesOnly bad s2 s3 -> triesOnly bad s1 s3.
Proof.
  intros [E1 [k1 H1]] [E2 [k2 H2]]. split; [congruence |]. exists (k1 + k2)%nat. by rewrite H2, H1, <- app_assoc, repeat_app.
Qed.

Lemma stuck_then bad s1 s2 s3 : triesOnly bad s1 s2 -> stuck bad s3 /\ triesOnly bad s2 s3 -> stuck bad s3 /\ triesOnly bad s1 s3.
Proof. intros H1 [H2 H3]. split; [done |]. by eapply triesOnly_trans. Qed.

Lemma stuck_updateGood bad s : pc s = Monitor -> stuck bad s -> stuck bad (updateGood s) /\ triesOnly bad s (updateGood s).
Proof.
  intros Hp Hs. destruct (updateGood_fields s) as (Ec & Ep & _ & _ & Epc & _ & _ & Em & _).
  apply stuck_same; [done | done | done | unfold updateGood; by destruct (_ && _) | by rewrite Epc, Hp | done].
Qed.

Lemma stuck_childGone bad s : pc s = Monitor -> stuck bad s -> stuck bad (childGone s) /\ triesOnly bad s (childGone s).
Proof.
  intros Hp Hs. destruct (stuck_updateGood bad s Hp Hs) as [Hu Ht]. pose proof (updateGood_ready s (k_ready _ _ Hs)) as Hg.
  unfold childGone. rewrite (k_marker _ _ Hu), (k_ready _ _ Hs).
  eapply stuck_then; [exact Ht |]. by apply stuck_same.
Qed.

Lemma stuck_tick bad s e : pc s = Monitor -> stuck bad s -> stuck bad (tick e s) /\ triesOnly bad s (tick e s).
Proof.
  intros Hp Hs. destruct (stuck_updateGood bad s Hp Hs) as [Hu Ht]. pose proof (updateGood_ready s (k_ready _ _ Hs)) as Hg. unfold tick.
  destruct (updateGood_fields s) as (_ & _ & _ & _ & Epc & _). rewrite Hp in Epc. destruct e; cbn [negb].
  - rewrite (k_ready _ _ Hu). cbn [negb andb]. destruct (child _ _); [| done]. destruct (_ && _); [| done].
    unfold beginRestart. destruct (stuck_child bad (updateGood s) (cp (updateGood s)) terminate ltac:(auto) Hu) as [H1 H2].
    do 2 (eapply stuck_then; [eassumption |]). by apply stuck_same.
  - eapply stuck_then; [exact Ht |]. by apply stuck_childGone.
Qed.

Lemma stuck_advance bad env s s' : bad <> ""%string -> selected env = bad -> spawns env bad = false -> advance env s = Some s' -> stuck bad s -> stuck bad s' /\ triesOnly bad s s'.
Proof.
  intros Hne Hsel Hsp H Hs. pose proof (k_pc _ _ Hs) as Hpc. unfold advance in H. destruct (pc s) as [| b u k | b u | n exe | n u r | u | u |] eqn:Ep; try done.
  - destruct (isSet done s (cp s)).
    + injection H as <-. apply stuck_same; auto.
    + destruct (_ && _); [| done]. injection H as <-. destruct (stuck_child bad s (cp s) die ltac:(auto) Hs) as [H1 H2].
      eapply stuck_then; [exact H2 |]. by apply stuck_same.
  - destruct (u <=? mono s); [| done]. injection H as <-. destruct Hpc as [-> Hg]. apply stuck_same; cbn; auto.
  - destruct Hpc as [-> Hg]. injection H as <-. unfold makeAttempt. apply String.eqb_neq in Hne as ->. rewrite Hsp. cbn [lastGoodBinary currentBinary tryBinary].
    rewrite Hg, String.eqb_refl, andb_false_r. split.
    + destruct Hs as [Hd Hm Hr _]. split; [exact Hd | exact Hm | exact Hr |]. unfold attemptFailed. destruct (n <? maxRetries)%nat; cbn; auto.
    + split; [done |]. exists 1%nat. done.
  - destruct (u <=? mono s); [| done]. injection H as <-. destruct Hpc as [-> Hg]. apply stuck_same; cbn; auto.
  - destruct (u <=? mono s); [| done]. injection H as <-. apply stuck_same; auto.
  - destruct (u <=? mono s); [| done]. injection H as <-. apply stuck_same; cbn; auto.
Qed.

Lemma stuck_exec bad a s s' : bad <> ""%string -> onlyFinds bad a -> exec a s = Some s' -> stuck bad s -> stuck bad s' /\ triesOnly bad s s'.
Proof.
  intros Hne Ha H Hs. destruct a as [| i | i l | i | i | i | i | i | i | dm dw | | e | env]; cbn [exec] in H; try done; try (rewrite (k_dead _ _ Hs i) in H; cbn in H; try done).
  - simplify_eq. destruct (stuck_child bad s i tell ltac:(auto) Hs) as [H1 H2].
    eapply stuck_then; [exact H2 |]. apply stuck_same; try done. apply (k_pc _ _ H1).
  - simplify_eq. by apply stuck_child.
  - destruct (0 <=? dm); [| done]. simplify_eq. apply stuck_same; auto. apply (k_pc _ _ Hs).
  - destruct (pc s) eqn:Ep; try done. destruct (isSet done s (cp s)); [| done]. simplify_eq. by apply stuck_childGone.
  - destruct (pc s) eqn:Ep; try done. destruct (_ && _); [done |]. simplify_eq. by apply stuck_tick.
  - destruct Ha. eapply stuck_advance; eauto.
Qed.

Lemma stuck_execs bad acts : forall s s', bad <> ""%string -> Forall (onlyFinds bad) acts -> execs acts s = Some s' -> stuck bad s -> stuck bad s' /\ triesOnly bad s s'.
Proof.
  induction acts as [| a acts IH]; intros s s' Hne Ha H Hs.
  - injection H as <-. split; [done | by apply triesOnly_same].
  - apply execs_cons in H as (s1 & H1 & H2). inversion Ha as [| ? ? Ha1 Ha2]; subst. destruct (stuck_exec bad a s s1) as [Hs1 Ht1]; auto.
    eapply stuck_then; [exact Ht1 |]. by apply IH.
Qed.

(** ** The newest package *)

Definition namedPkgs (platform arch : string) (entries : list PkgEntry) : Prop :=
  forall e c, e ∈ entries -> matching platform arch e = Some c -> cVersion c <> ""%string.

Lemma scan_fold platform arch entries : forall acc, namedPkgs platform arch entries ->
  let r := foldl (fun '(latestVersion, latestPkg) e =>
    match matching platform arch e with
    | Some c => if String.eqb latestVersion "" || (0 <? CompareVersions (cVersion c) latestVersion) then (cVersion c, Some e) else (latestVersion, latestPkg)
    | None => (latestVersion, latestPkg)
    end) acc entries in
  (acc.1 <> ""%string -> r.1 <> ""%string /\ CompareVersions acc.1 r.1 <= 0) /\
  (forall e c, e ∈ entries -> matching platform arch e = Some c -> r.1 <> ""%string /\ CompareVersions (cVersion c) r.1 <= 0) /\
  (r = acc \/ exists e c, e ∈ entries /\ matching platform arch e = Some c /\ r = (cVersion c, Some e)).
Proof.
  induction entries as [| x entries IH]; intros [v p] Hn r.
  { split_and!; [| intros e c He; by apply elem_of_nil in He | by left]. intros Hv. split; [done |]. unfold r. cbn. rewrite compare_same. lia. }
  assert (Hx : forall c, matching platform arch x = Some c -> cVersion c <> ""%string) by (intros c; apply Hn; left).
  assert (Hl : namedPkgs platform arch entries) by (intros e c He; apply Hn; by right).
  unfold r. cbn [foldl]. destruct (matching platform arch x) as [c |] eqn:Em.
  - specialize (Hx c eq_refl). destruct (String.eqb v "" || (0 <? CompareVersions (cVersion c) v)) eqn:Et.
    + destruct (IH (cVersion c, Some x) Hl) as (H1 & H2 & H3). cbn [fst] in H1. destruct (H1 Hx) as [Hr Hc]. split_and!.
      * cbn [fst]. intros Hv. split; [done |]. apply orb_true_iff in Et as [Et | Et]; [by apply String.eqb_eq in Et |]. apply Z.ltb_lt in Et.
        apply (compare_trans _ (cVersion c)); [| done]. rewrite (compare_opp (cVersion c) v). lia.
      * intros e c' He Hc'. apply elem_of_cons in He as [-> | He]; [by simplify_eq | by eapply H2].
      * right. destruct H3 as [-> | (e & c' & ? & ? & ?)]; [exists x, c; split_and!; [left | done | done] | exists e, c'; split_and!; [by right | done | done]].
    + destruct (IH (v, p) Hl) as (H1 & H2 & H3). cbn [fst] in H1. apply orb_false_iff in Et as [Ev Et]. apply String.eqb_neq in Ev. apply Z.ltb_ge in Et.
      destruct (H1 Ev) as [Hr Hc]. split_and!; [done | |].
      * intros e c' He Hc'. apply elem_of_cons in He as [-> | He]; [| by eapply H2]. simplify_eq. split; [done |]. by apply (compare_trans _ v).
      * destruct H3 as [-> | (e & c' & ? & ? & ?)]; [by left | right; exists e, c'; split_and!; [by right | done | done]].
  - destruct (IH (v, p) Hl) as (H1 & H2 & H3). split_and!; [done | |].
    + intros e c' He Hc'. apply elem_of_cons in He as [-> | He]; [by rewrite Em in Hc' | by eapply H2].
    + destruct H3 as [-> | (e & c' & ? & ? & ?)]; [by left | right; exists e, c'; split_and!; [by right | done | done]].
Qed.

Lemma matching_verified platform arch e c : matching platform arch e = Some c -> exists b, eVerified e = Some (c, b).
Proof. unfold matching. destruct (_ || _); [done |]. destruct (eVerified e) as [[c' b] |]; [| done]. destruct (_ || _); [done |]. intros [= ->]. eauto. Qed.

(** ** Theorems *)

(** The choice of the worker.  It is a package for this platform, verified, newer than
    the watchdog and as new as every other, whose file is there; or the watchdog's own
    executable, when no package is newer than it or the newest could not be written.  A
    package that is not newer never replaces the program. *)
Theorem selectWorkerBinary_exact (platform arch self : string) (executable : option string) (entries : list PkgEntry) (again : bool) (w : WriteResult)
    (worker : gmap string string) :
  namedPkgs platform arch entries ->
  let own := match executable with Some exe => exe | None => ""%string end in
  let '(exe, worker') := selectWorkerBinary platform arch self executable (Some entries) again w worker in
  (exists e c b, e ∈ entries /\ matching platform arch e = Some c /\ eVerified e = Some (c, b) /\ 0 < CompareVersions (cVersion c) self /\
     (forall e' c', e' ∈ entries -> matching platform arch e' = Some c' -> CompareVersions (cVersion c') (cVersion c) <= 0) /\
     exe = workerPath (cVersion c) /\
     worker' !! cVersion c = Some (match worker !! cVersion c with Some old => old | None => b end)) \/
  exe = own /\
  ((forall e c, e ∈ entries -> matching platform arch e = Some c -> CompareVersions (cVersion c) self <= 0) \/
   (exists e c, e ∈ entries /\ matching platform arch e = Some c /\ worker !! cVersion c = None /\ (again = false \/ w <> Wrote))).
Proof.
  intros Hn own. unfold selectWorkerBinary, findLatestPkgAndExtract.
  destruct (scan_fold platform arch entries (""%string, None) Hn) as (_ & Hmax & Hmem). fold (scanPackages platform arch entries) in Hmax, Hmem.
  destruct (scanPackages platform arch entries) as [v p]. cbn [fst] in Hmax. destruct Hmem as [[= -> ->] | (e & c & He & Hc & [= -> ->])].
  { right. split; [done |]. left. intros e c He Hc. by destruct (Hmax e c He Hc). }
  destruct (matching_verified _ _ _ _ Hc) as [b Hb]. rewrite Hb.
  assert (Hchoice : forall worker' : gmap string string, worker' !! cVersion c = Some (match worker !! cVersion c with Some old => old | None => b end) ->
    let exe := if 0 <? CompareVersions (cVersion c) self then workerPath (cVersion c) else own in
    (exists e c b, e ∈ entries /\ matching platform arch e = Some c /\ eVerified e = Some (c, b) /\ 0 < CompareVersions (cVersion c) self /\
       (forall e' c', e' ∈ entries -> matching platform arch e' = Some c' -> CompareVersions (cVersion c') (cVersion c) <= 0) /\
       exe = workerPath (cVersion c) /\ worker' !! cVersion c = Some (match worker !! cVersion c with Some old => old | None => b end)) \/
    exe = own /\ (forall e c, e ∈ entries -> matching platform arch e = Some c -> CompareVersions (cVersion c) self <= 0)).
  { intros worker' Hw exe. unfold exe. destruct (Z.ltb_spec 0 (CompareVersions (cVersion c) self)) as [Hgt | Hle].
    - left. exists e, c, b. split_and!; try done. intros e' c' He' Hc'. by destruct (Hmax e' c' He' Hc').
    - right. split; [done |]. intros e' c' He' Hc'. destruct (Hmax e' c' He' Hc') as [_ H]. by apply (compare_trans _ (cVersion c)). }
  destruct (worker !! cVersion c) as [old |] eqn:Ew.
  - destruct (Hchoice worker) as [H | [H1 H2]]; [by rewrite Ew | by left | right; auto].
  - destruct again; [destruct w as [| [part |]] |]; try (right; split; [done |]; right; exists e, c; split_and!; auto; fail).
    destruct (Hchoice (<[cVersion c := b]> worker)) as [H | [H1 H2]]; [by rewrite lookup_insert_eq | by left | right; auto].
Qed.


(** C24: a dead worker is replaced.  From any state it can reach, whose worker is gone and
    where no marker lies, left alone with binaries that can be spawned, the watchdog runs a
    new worker after at most eight steps and 70 seconds: the rest of a failed restart, its two
    waits of 30 seconds and a cooldown of 10. *)
Theorem watchdog_recovers (env0 env : Env) (good own : string) (left : bool) (m w : Z) (acts : list Action) (s0 s : Watchdog) :
  runWatchdogMode env0 good left m w = Some s0 -> forallb (fun a => negb (isLost a)) acts = true -> execs acts s0 = Some s ->
  isSet done s (cp s) = true -> marker s = false -> pc s <> Ended -> (forall exe, spawns env exe = true) -> executable env = Some own ->
  exists n s', (n <= 8)%nat /\ alone env n s = Some s' /\ pc s' = Monitor /\ cp s' = length (children s) /\ isSet alive s' (cp s') = true /\
    mono s' <= mono s + 70 * second.
Proof.
  intros H0 Hl H Hd Hm Hp Hs He. exact (within_any env Hs own He good s (dogInv_execs good acts s0 s Hl H (dogInv_run _ _ _ _ _ _ H0)) Hd Hm Hp).
Qed.

(** An update that cannot be spawned is never given up.  Once a worker that was ready has
    ended, and the newest package is one that cannot be spawned, every attempt is
    made with that package, in any order of events: neither the last good binary nor the
    watchdog's own executable is tried, and no worker runs. *)
Theorem failed_update_sticks (bad : string) (acts : list Action) (s s' : Watchdog) :
  bad <> ""%string -> pc s = Monitor -> (forall i, isSet alive s i = false) -> marker s = false -> isSet ready s (cp s) = true ->
  Forall (onlyFinds bad) acts -> execs acts s = Some s' ->
  pc s' <> Ended /\ (forall i, isSet alive s' i = false) /\ length (children s') = length (children s) /\
  exists k, attempted s' = (attempted s ++ repeat bad k)%list.
Proof.
  intros Hne Hp Hd Hm Hr Ha H. assert (Hs : stuck bad s) by (split; [done | done | done | by rewrite Hp]).
  destruct (stuck_execs bad acts s s' Hne Ha H Hs) as [[Hd' _ _ Hp'] [Hc Hk]]. split_and!; [| done | done | done]. intros E. by rewrite E in Hp'.
Qed.

(** ** Examples *)

Definition demoMeta (v : string) : PkgContents := mkContents v "linux" "amd64".
Definition demoPkgs : list PkgEntry :=
  [mkPkgEntry "a.pkg" false (Some (demoMeta "v1.2.0", "one"%string)); mkPkgEntry "b.pkg" false (Some (demoMeta "v1.10.0", "two"%string));
   mkPkgEntry "c.pkg" false (Some (mkContents "v9.0.0" "windows" "amd64", "three"%string)); mkPkgEntry "d.pkg" false None].

Example select_newest : selectWorkerBinary "linux" "amd64" "v1.9.0" (Some "/bin/phaethon"%string) (Some demoPkgs) true Wrote ∅ =
  ("data/worker/phaethon-v1.10.0"%string, {["v1.10.0"%string := "two"%string]}).
Proof. vm_compute. reflexivity. Qed.
Example select_no_downgrade : fst (selectWorkerBinary "linux" "amd64" "v1.11.0" (Some "/bin/phaethon"%string) (Some demoPkgs) true Wrote ∅) = "/bin/phaethon"%string.
Proof. vm_compute. reflexivity. Qed.

(** A write that is interrupted leaves a part of the binary; the next choice takes the file
    for the binary, and it is never written again. *)
Example torn_binary_kept :
  let '(exe1, worker1) := selectWorkerBinary "linux" "amd64" "v1.9.0" (Some "/bin/phaethon"%string) (Some demoPkgs) true (WriteFailed (Some "t"%string)) ∅ in
  let '(exe2, worker2) := selectWorkerBinary "linux" "amd64" "v1.9.0" (Some "/bin/phaethon"%string) (Some demoPkgs) true Wrote worker1 in
  exe1 = "/bin/phaethon"%string /\ exe2 = "data/worker/phaethon-v1.10.0"%string /\ worker2 !! "v1.10.0"%string = Some "t"%string.
Proof. vm_compute. done. Qed.

Definition fine (exe : string) : Env := mkEnv exe (Some "own"%string) (fun _ => true).
Definition broken (exe : string) : Env := mkEnv exe (Some "own"%string) (fun e => negb (String.eqb e exe)).
Definition readyLine : Line := mkLine true (Some (Some true, None)).
Definition running : list Action := [AEngine 0; ALine 0 readyLine; AServe 0].
Definition gone : list Action := [AExit 0; AEof 0; ADone].
(** Looks at a state that was reached. *)
Definition after (env : Env) (acts : list Action) (f : Watchdog -> bool) : bool :=
  match runWatchdogMode env "" false 0 0 with Some s => match execs acts s with Some s => f s | None => false end | None => false end.

(** A signal that comes while a worker is replaced does not stop the service: the marker is
    not written, and the signal goes to the worker that is gone. *)
Example signal_during_restart_lost :
  after (fine "A") (running ++ gone ++ [ASignal; AAdvance (fine "A"); AAdvance (fine "A")])%list
    (fun s => asked s && negb (marker s) && isSet alive s 1 && negb (isSet told s 1) && isSet alive s (cp s)) = true.
Proof. vm_compute. done. Qed.

(** A worker that is told to stop because its heartbeats were late leaves the marker; when the
    worker that replaces it dies before it has cleared the marker, the watchdog ends,
    and nobody asked for it. *)
Example own_signal_ends_watchdog :
  after (fine "A") (running ++ [APass (31 * second) (31 * second); ATick true; AStop 0; AExit 0; AEof 0; AAdvance (fine "A"); AAdvance (fine "A"); AAdvance (fine "A");
                    AExit 1; AEof 1; ADone])%list
    (fun s => match pc s with Ended => negb (asked s) && negb (isSet alive s 0) && negb (isSet alive s 1) | _ => false end) = true.
Proof. vm_compute. done. Qed.

(** A marker of an earlier run lies on disk, or one that killResidualWorkers made an old
    worker write: when the first worker dies before it has cleared it, the watchdog ends,
    and nobody asked for it. *)
Example stale_marker_ends :
  match runWatchdogMode (fine "A") "" true 0 0 with
  | Some s => match execs [AExit 0; AEof 0; ADone] s with
              | Some s => match pc s with Ended => negb (asked s) && negb (isSet terminated s 0) | _ => false end
              | None => false
              end
  | None => false
  end = true.
Proof. vm_compute. done. Qed.

(** A line above 64 KB ends the reader of a worker that lives: the next one is spawned
    beside it. *)
Example long_line_two_workers :
  after (fine "A") (running ++ [ALost 0; ADone; AAdvance (fine "A"); AAdvance (fine "A")])%list (fun s => isSet alive s 0 && isSet alive s 1) = true.
Proof. vm_compute. done. Qed.

(** A worker that dies before it is ready is replaced by the last good binary. *)
Example falls_back :
  match runWatchdogMode (fine "B") "A" false 0 0 with
  | Some s => match execs [AExit 0; AEof 0; ADone; AAdvance (fine "B"); AAdvance (fine "B")] s with
              | Some s => bool_decide (attempted s = ["B"; "A"]%string /\ currentBinary s = "A"%string)
              | None => false
              end
  | None => false
  end = true.
Proof. vm_compute. done. Qed.

(** ** Witnesses *)

Definition ended0 : Watchdog :=
  mkWatchdog [mkChild "A" false true 0 true true false false] 0 "A" "A" 0 None false 0 0 Monitor ["A"%string] false.
Definition badRun : list Action :=
  [ADone; AAdvance (broken "bad"); AAdvance (broken "bad"); APass (2 * second) (2 * second); AAdvance (broken "bad"); AAdvance (broken "bad")].

Lemma selectWorkerBinary_exact_witness :
  namedPkgs "linux" "amd64" demoPkgs /\
  let '(exe, _) := selectWorkerBinary "linux" "amd64" "v1.9.0" (Some "own"%string) (Some demoPkgs) true Wrote ∅ in exe = workerPath "v1.10.0".
Proof.
  assert (Hn : namedPkgs "linux" "amd64" demoPkgs).
  { intros e c He Hc. unfold demoPkgs in He. rewrite !elem_of_cons, elem_of_nil in He. destruct_or! He; subst; vm_compute in Hc; try discriminate Hc; injection Hc as <-; discriminate. }
  split; [exact Hn |]. pose proof (selectWorkerBinary_exact "linux" "amd64" "v1.9.0" (Some "own"%string) demoPkgs true Wrote ∅ Hn) as H.
  destruct (selectWorkerBinary _ _ _ _ _ _ _ _) as [exe worker'] eqn:E. vm_compute in E. injection E as <- _. destruct H as [_ | _]; reflexivity.
Defined.


Lemma watchdog_recovers_witness : exists s, execs (running ++ [AExit 0; AEof 0])%list (default ended0 (runWatchdogMode (fine "A") "" true 0 0)) = Some s /\
  exists n s', (n <= 8)%nat /\ alone (fine "A") n s = Some s' /\ pc s' = Monitor /\ cp s' = length (children s) /\ isSet alive s' (cp s') = true /\ mono s' <= mono s + 70 * second.
Proof.
  eexists. split; [vm_compute; reflexivity |].
  eapply (watchdog_recovers (fine "A") (fine "A") "" "own" true 0 0 (running ++ [AExit 0; AEof 0])); [reflexivity | reflexivity | vm_compute; reflexivity | reflexivity | reflexivity | discriminate | reflexivity | reflexivity].
Defined.

Lemma failed_update_sticks_witness : exists s', execs badRun ended0 = Some s' /\ (forall i, isSet alive s' i = false) /\
  exists k, attempted s' = (["A"%string] ++ repeat "bad"%string k)%list.
Proof.
  eexists. split; [vm_compute; reflexivity |].
  assert (Hd : forall i, isSet alive ended0 i = false) by (intros [| i]; reflexivity).
  assert (Ha : Forall (onlyFinds "bad") badRun) by (repeat constructor).
  destruct (failed_update_sticks "bad" badRun ended0 _ ltac:(discriminate) eq_refl Hd eq_refl eq_refl Ha ltac:(vm_compute; reflexivity)) as (_ & H1 & _ & H2).
  split; [exact H1 | exact H2].
Defined.
